(* ===== verification/_CoqProject ===== *)
-Q . S2P
Prelude.v
Words.v
GF256.v
Matrix.v
ReedSolomon.v
RSCorrect.v
Erasure.v
ErasureTheorems.v
LinuxMd.v
LinuxMdCorrect.v
LinuxMdTheorems.v
Locks.v
LocksCorrect.v
Nlm.v
NlmCorrect.v
LockTheorems.v
Wire.v
WireCorrect.v
Digest.v
DigestCorrect.v
Envelope.v
EnvelopeCorrect.v
Control.v
ControlCorrect.v
Journal.v
JournalCorrect.v
JournalVector.v
D1Theorems.v
Posix.v
ChunkStore.v
ChunkDisk.v
ChunkCorrect.v
ChunkSteps.v
ChunkDiskCorrect.v
Replace.v
ChunkPersist.v
ChunkTheorems.v
Utf8.v
Utf8Correct.v
Utf8Theorems.v
Mojette.v
MojetteForward.v
MojetteKatz.v
MojettePeel.v
MojetteSparse.v
MojetteGd.v
MojetteCode.v
MojetteCodeCorrect.v
MojetteTheorems.v
Handler.v
Nfs4.v
Checksum.v
Trust.v
DataBlock.v
ChunkOps.v
ChunkLock.v
TrustOps.v
TrustCorrect.v
TrustTheorems.v
ChunkReload.v
ChunkEdits.v
ChunkFrame.v
ChunkLife.v
ChunkIO.v
ChunkRanges.v
ChunkLocks.v
ChunkEscrows.v
ChunkServer.v
ChunkSample.v
ChunkServerTheorems.v
ChunkRound.v
ChunkRoundTheorems.v
ChunkProgress.v
ChunkWalk.v
ChunkLimits.v
