(* ===== verification/Prelude.v ===== *)
(** * reffs: verification of the erasure-coding, locking and storage core

    reffs is an NFS server in C with a flexible-files (FFv2) layout: a metadata
    server hands out layouts, data servers keep chunks, and clients or proxies
    stripe files over data servers with an erasure code.  The program's parts and
    how they meet:

    - the erasure encodings ([src/lib/ec]) turn a stripe of [k] data shards into
      [k + m] shards and rebuild missing ones;
    - the lock lists of an inode ([src/lib/fs/lock.c]) hold byte-range locks and
      share reservations; the NLM manager ([src/lib/nlm/nlm_lock.c]) and the NFSv4
      server use them;
    - the chunk store of a data server ([src/lib/nfs4/server/chunk_store.c]) keeps
      the state of each chunk of a file and persists it; the CHUNK operations
      ([src/lib/nfs4/server/chunk.c]) write, read, finalize, commit, roll back,
      lock, repair and escrow chunks over that store, the data block of the inode
      ([src/lib/fs/data_block.c], [src/lib/backends/ram_data.c]) and the table of
      stateids that a metadata server trusts
      ([src/lib/nfs4/server/trust_stateid.c], [trust_stateid_ops.c]), and check
      payloads with [src/lib/nfs4/common/checksum.c];
    - names, owners and other strings of the protocol go through
      [src/lib/utils/utf8string.c];
    - the D1 store ([src/lib/d1store]) is the chunk store's transactional
      successor: canonical requests ([d1_codec.c], [d1_envelope.c],
      [d1_control.c]), digests ([d1_digest.c]) and a journal ([d1_journal.c]).

    ** Conventions

    A C function is a Rocq function of the same name.  An unsigned integer of
    width [w] is a [Z] and every operation that can leave its range goes through
    [wrap]; a [uint8_t] is a [byte]; an array is a list read with [rd] and written
    with [wr]; [memcpy] is [splice]; a [for] loop is [for_range], with early exits
    [for_break].  Errors are the negative numbers of the source.  State that the C
    code mutates goes in and comes out.  Allocators, system calls and other
    fallible calls the sources do not define are arguments, or a list of outcomes
    in the state, so that the theorems hold for every answer.

    ** Files

    - [Prelude]: integers, loops, arrays, bytes, tactics, hint databases.
      [Words]: little-endian words as byte lists, and loops that can fail.
    - [GF256] ([gf.c]), [Matrix] ([matrix.c]), [ReedSolomon] ([rs.c], with its
      NEON, SSSE3 and scalar loops), [RSCorrect], [Erasure] ([xor.c], [mirror.c],
      [stripe.c], and the contract of [ec.h] as the class [ErasureCode]),
      [ErasureTheorems].
    - [LinuxMd] ([linux_md.c] with the portable part of the vendored raid6 code),
      [LinuxMdCorrect], [LinuxMdTheorems].
    - [Mojette] ([mojette.h], [mojette.c]: directions, forward transform with its
      scalar, NEON, SSE2 and AVX2 rows, Katz test, corner peeling and the
      geometry-driven sweep), [MojetteForward], [MojetteKatz], [MojettePeel],
      [MojetteSparse], [MojetteGd], [MojetteCode] ([mojette_encoding.c]: the
      systematic and the non-systematic encoding), [MojetteCodeCorrect],
      [MojetteTheorems].
    - [Locks] ([fs/lock.c]), [LocksCorrect], [Nlm] ([nlm_lock.c]), [NlmCorrect],
      [LockTheorems].
    - [Wire] ([d1_codec.c]: the encoding cursor, the strict decoders as a monad),
      [WireCorrect] (the class [Codec]: a decoder that accepts exactly what the
      encoder writes), [Digest] ([d1_digest.c]), [DigestCorrect], [Envelope]
      ([d1_envelope.c]), [EnvelopeCorrect], [Control] ([d1_control.c]),
      [ControlCorrect], [Journal] ([d1_journal.c]), [JournalCorrect],
      [JournalVector], [D1Theorems].
    - [Posix]: files and the system calls used on them; the file system records
      every state it goes through.  [ChunkStore] ([chunk_store.c] in memory:
      lookup, growth, write, touch, transition, rollback, lease sweep, escrow
      index, runs), [ChunkDisk] (its disk structures, persist, load, get, and the
      epoch record of [chunk_epoch.h]), [ChunkCorrect], [ChunkSteps],
      [ChunkDiskCorrect], [Replace] (write, sync and rename against crashes),
      [ChunkPersist], [ChunkTheorems].
    - [Handler]: a monad of state and early exit with its logic of
      postconditions.  [Nfs4]: the XDR types of the CHUNK and TRUST operations
      and what a handler reads of the compound.  [Checksum] ([checksum.c]),
      [Trust] ([trust_stateid.c]), [DataBlock] ([data_block.c], [ram_data.c], and
      the contract of a backend as the class [DataOk]).
    - [ChunkOps] and [ChunkLock] ([chunk.c]: one definition per handler; the
      state [server] is the inode with its chunk store and data block, the trust
      table, the counters, the file system and the test budgets), [TrustOps]
      ([trust_stateid_ops.c]).
    - [TrustCorrect], [TrustTheorems]: the trust table against the history of its
      operations.  [ChunkReload], [ChunkEdits], [ChunkFrame], [ChunkLife],
      [ChunkIO], [ChunkRanges], [ChunkLocks], [ChunkEscrows]: a specification of
      each handler.  [ChunkServer]: the requests of a data server, what each may do
      to a block, and the steps of the server with lease expiries and crashes.
      [ChunkSample] is a small server on which the theorems are applied.
      [ChunkServerTheorems], [ChunkRound], [ChunkRoundTheorems], [ChunkProgress],
      [ChunkWalk], [ChunkLimits].
    - [Utf8] ([utf8string.c]), [Utf8Correct] (the encoding of RFC 3629 and decimal
      numbers as references), [Utf8Theorems].

    ** What the theorems show

    - Erasure coding: every accepted Reed-Solomon geometry rebuilds every shard
      from any [k]; the encoding matrix is MDS; inversion is exact; the SIMD paths
      agree; single parity is the XOR encoding, which rebuilds any one shard; the
      mirror is right under aliasing.  The RAID-6 encoding
      restores two losses for page-sized shards, is a Vandermonde code over the
      same field, and reads out of bounds for others (two findings).
    - Mojette: every kernel of the forward transform computes the projection;
      peeling terminates on every input, is sound, and complete when the Katz test
      passes for primitive, pairwise non-parallel directions; the sweep and the
      peeling give the same grid; both encodings give the data back after any [m]
      losses.  A systematic decode that rebuilds data leaves lost parity as it was,
      and the non-systematic decode leaves rows where projections were (findings).
    - Locks: overlap is a common byte, conflicts and removal are exact to the
      byte, every sequence of NLM calls keeps owners alive, and apart as long as no
      request runs past the 64-bit offsets, which is not checked; the replies of
      the lock call are true, and the test call predicts them.  A length of all
      ones is not "to the end", and locks that wrap keep nobody out (findings).
    - D1 store: encoders and strict decoders are inverse to each other in both
      directions, except for an over-limit repair (finding); digests are SHA-256
      and the CRCs detect bursts; the journal implements a log of claimed and
      pending records under faults, its reader terminates, and damage is reported.
    - Chunk store: every reachable store is well formed; the lease sweep, the
      owner search and the escrow index do exactly what they should; a crash at
      any system call leaves a file as it was before or the new one; persisting and
      loading give the same store; whatever a file holds, what is loaded is well formed.  A
      write at the block limit is persisted and then refused (finding).
    - Trust table: a request passes the check only under a grant that has not been
      revoked, within the deadline that the last grant gave, and does pass it under
      one that has not expired; deadlines are taken modulo 2^64 nanoseconds
      (finding).
    - CHUNK operations: through any requests, expiries and crashes the store in
      memory and the file on disk are well formed.  The blocks of a file are those in
      memory or, after a restart, those of the metadata file ([view]); each request
      changes them only with a credential and as its specification says, provided
      that it can read the file if it has to load it ([settled]).  Locks and escrows
      are respected by requests, and given up when the lease of the writer expires.
      An acknowledged finalize, commit or escrow survives a restart, and a power
      failure once the rename is on disk; refused requests change nothing; a guarded
      write is a compare-and-swap whose guard stays used up until a rollback, an
      expiry or a restart; what is written, finalized and committed is what is read,
      and where nothing is short or locked all four requests are answered; a walk
      over the escrows sees each of them once.  A metadata file that cannot be read
      once is replaced by an empty one, a power failure may undo a rename, locks
      above the high-water mark are lost at a restart, and a write with another
      stride is accepted (findings, in [ChunkLimits]).
    - Strings: wire strings and path components are accepted exactly when they
      should be, numeric owners print and parse one to one, and equality is that of
      the bytes up to a NUL (finding).

    ** Bounds and fuel

    Field multiplication and powers run over the 8 bits of a byte.  [absorb] takes
    the length of its input as fuel, [pad_zeros] 64, a block's length; the scans
    of a string take its length, and [decimal] 20, the digits of a 64-bit number.
    [reserve_loop] of the journal has fuel 64: the capacity at least doubles each
    turn and stops before 2^64.  [grow_loop] of the chunk store has fuel 64 and is
    shown to stop above the requested capacity ([grow_loop_spec]).  [read_log] is
    total with one turn more than there are bytes ([journal_read_terminates]).
    [peel_loop] has fuel one more than the number of pixels: each turn that goes on
    restores a pixel ([moj_peel_returns]).  [crc32_loop] has the length of the data
    ([crc32_loop_all]), [bulk_loop] one turn more than there are entries: each turn
    removes a full batch.  [collect_loop] has the five retries of the source.

    ** Assumptions of the file system model

    A call answers success, an error, or a partial transfer, in any order.
    [fdatasync] makes a file's bytes durable.  [rename] is atomic.  A crash leaves at
    each name what was there at some moment since the machine started, whole if it
    was synced ([after_crash]): the sources do not sync the directory, so a rename
    that returned may be undone.  One writer works on a path at a time, as under
    [i_attr_mutex].

    ** Not modelled

    - Threads, RCU and locking: each call is one step, as under the mutex its
      callers hold; the pass of the reaper thread is a step of its own.  Freeing
      memory, except for the reference counts of NLM owners.
    - Allocation failure and the signed overflow of [k + m] in the encodings, and
      the [int] width of a Mojette grid, which a shard of 16 GiB would exceed; the
      pipeline stops at 1 MiB.
    - The SIMD generators and the tables of the vendored raid6, SnapRAID and ISA-L
      libraries, which are third-party or generated code; the wrappers around the
      latter two only call them.
    - zlib's crc32, SHA-256, SHA-512 and BLAKE3 as [checksum.c] calls them are
      parameters ([hashes]) with their output lengths as hypotheses ([HashesOk]).
      XDR decoding and encoding is generated code.  The POSIX data backend is
      covered by the contract [DataOk] only.
    - The reducer of [d1_store.c] and the D2 store ([src/lib/d2store]): the same
      state machine over their formats, of seven thousand lines and more; the formats
      and the journal of D1 are modelled, the reducers are not.
    - The VFS and its reference-counted objects, the storage backends, RPC, TLS,
      I/O, the NFS, MOUNT and NSM front ends, configuration and tools: system
      calls, third-party libraries, event loops and reply assembly. *)

From Stdlib Require Export ZArith NArith Lia Bool Ring Field.
From Stdlib Require Export Strings.Byte.
From stdpp Require Export base list numbers sets relations.

#[global] Set Warnings "-notation-overridden,-clear-no-such-hyp".

(** ** Scope of the development's notations *)

Declare Scope reffs_scope.
Delimit Scope reffs_scope with reffs.
#[global] Open Scope reffs_scope.

(** ** C integers

    An unsigned integer of width [w] is a [Z] kept in [0, 2^w) by [wrap]. *)

Definition wrap (w : Z) (x : Z) : Z := x mod 2 ^ w.

Abbreviation u8w := (wrap 8).
Abbreviation u16w := (wrap 16).
Abbreviation u32w := (wrap 32).
Abbreviation u64w := (wrap 64).

Definition UINT32_MAX : Z := 4294967295.
Definition UINT64_MAX : Z := 18446744073709551615.

Definition in_width (w : Z) (x : Z) : Prop := (0 <= x < 2 ^ w)%Z.

Lemma wrap_small w x : in_width w x → wrap w x = x.
Proof. intros H. apply Z.mod_small, H. Qed.

Lemma wrap_in_width w x : (0 <= w)%Z → in_width w (wrap w x).
Proof. intros H. apply Z.mod_pos_bound. by apply Z.pow_pos_nonneg. Qed.

(** ** Error numbers (negative on return, as in the source) *)

Definition EIO : Z := 5.
Definition E2BIG : Z := 7.
Definition ENOMEM : Z := 12.
Definition EACCES : Z := 13.
Definition EINVAL : Z := 22.
Definition EILSEQ : Z := 84.
Definition ENOTSUP : Z := 95.

(** ** Bounded loops

    [for_range lo n body s] is the C loop
    [for (i = lo; i < lo + n; i++) s = body(i, s)]. *)

Definition for_range {S : Type} (lo n : nat) (body : nat → S → S) (s : S) : S :=
  fold_left (λ s i, body i s) (seq lo n) s.

(** The same loop with an early exit: [body] answers [inr r] for a [return r]
    (or a [goto] out of the loop) and [inl s] to go on. *)
Fixpoint for_break {S R : Type} (lo n : nat) (body : nat → S → S + R) (s : S)
    : S + R :=
  match n with
  | O => inl s
  | Datatypes.S n' =>
      match body lo s with
      | inl s' => for_break (Datatypes.S lo) n' body s'
      | inr r => inr r
      end
  end.

Lemma for_range_S {S} lo n (body : nat → S → S) s :
  for_range lo (Datatypes.S n) body s
  = body (lo + n)%nat (for_range lo n body s).
Proof.
  unfold for_range. rewrite seq_S, fold_left_app. done.
Qed.

Lemma for_range_ind {S} (I : nat → S → Prop) lo n (body : nat → S → S) s :
  I lo s →
  (∀ i s', (lo <= i < lo + n)%nat → I i s' → I (Datatypes.S i) (body i s')) →
  I (lo + n)%nat (for_range lo n body s).
Proof.
  intros H0 Hstep. induction n as [|n IH].
  - by rewrite Nat.add_0_r.
  - rewrite for_range_S, Nat.add_succ_r. apply Hstep; [lia|].
    apply IH. intros; apply Hstep; [lia|done].
Qed.

(** Loop rule for loops that start at 0. *)
Lemma for0_ind {S} (I : nat → S → Prop) n (body : nat → S → S) s :
  I O s →
  (∀ i s', (i < n)%nat → I i s' → I (Datatypes.S i) (body i s')) →
  I n (for_range 0 n body s).
Proof.
  intros H0 Hstep. apply (for_range_ind I 0 n); [done|].
  intros; apply Hstep; [lia|done].
Qed.

Lemma for_range_ext {S} lo n (b1 b2 : nat → S → S) s :
  (∀ i s', (lo <= i < lo + n)%nat → b1 i s' = b2 i s') →
  for_range lo n b1 s = for_range lo n b2 s.
Proof.
  intros H. induction n as [|n IH]; [done|].
  rewrite !for_range_S, IH by (intros; apply H; lia). apply H; lia.
Qed.

(** Loop rule for a loop with an early exit: [I] is kept by the iterations that
    go on, [Q] is what an early exit establishes. *)
Lemma for_break_ind {S R} (I : nat → S → Prop) (Q : R → Prop)
    lo n (body : nat → S → S + R) s :
  I lo s →
  (∀ i s', (lo <= i < lo + n)%nat → I i s' →
     match body i s' with
     | inl s'' => I (Datatypes.S i) s''
     | inr r => Q r
     end) →
  match for_break lo n body s with
  | inl s' => I (lo + n)%nat s'
  | inr r => Q r
  end.
Proof.
  revert lo s. induction n as [|n IH]; intros lo s H0 Hstep; simpl.
  - by rewrite Nat.add_0_r.
  - pose proof (Hstep lo s ltac:(lia) H0) as Hb.
    destruct (body lo s) as [s'|r]; [|done].
    rewrite Nat.add_succ_r. apply (IH (Datatypes.S lo)); [done|].
    intros i s'' Hi HI. apply Hstep; [lia|done].
Qed.

Lemma for_break_ext {S R} lo n (b1 b2 : nat → S → S + R) s :
  (∀ i s', b1 i s' = b2 i s') → for_break lo n b1 s = for_break lo n b2 s.
Proof.
  intros H. revert lo s. induction n as [|n IH]; intros lo s; simpl; [done|].
  rewrite H. destruct (b2 lo s); auto.
Qed.

(** ** Arrays

    A C array is a list; [rd d a i] reads index [i] and [wr a i v] writes it.
    The source only indexes in range: the lemmas that need it say so. *)

Definition rd {A} (d : A) (a : list A) (i : nat) : A := nth i a d.
Definition wr {A} (a : list A) (i : nat) (v : A) : list A := <[i := v]> a.

(** [memcpy(dst + off, src, len(src))]. *)
Definition splice {A} (off : nat) (src dst : list A) : list A :=
  take off dst ++ src ++ drop (off + length src) dst.

#[global] Arguments rd : simpl never.
#[global] Arguments wr : simpl never.
#[global] Arguments splice : simpl never.
#[global] Arguments for_range : simpl never.
#[global] Arguments wrap : simpl never.

Lemma rd_lookup {A} (d : A) a i x : a !! i = Some x → rd d a i = x.
Proof. intros H. apply nth_lookup_Some with (d := d) in H. done. Qed.

Lemma rd_lt {A} (d : A) a i : (i < length a)%nat → a !! i = Some (rd d a i).
Proof.
  intros H. destruct (a !! i) as [x|] eqn:E.
  - by rewrite (rd_lookup d a i x E).
  - apply lookup_ge_None in E. lia.
Qed.

Lemma rd_ge {A} (d : A) a i : (length a <= i)%nat → rd d a i = d.
Proof. apply nth_overflow. Qed.

Lemma length_wr {A} (a : list A) i v : length (wr a i v) = length a.
Proof. apply length_insert. Qed.

Lemma rd_wr {A} (d : A) a i j v :
  (i < length a)%nat → rd d (wr a i v) j = if decide (j = i) then v else rd d a j.
Proof.
  intros Hi. unfold rd, wr. rewrite !nth_lookup.
  case_decide as Hd.
  - subst. by rewrite list_lookup_insert_eq.
  - by rewrite list_lookup_insert_ne.
Qed.

Lemma length_splice {A} off (src dst : list A) :
  (off + length src <= length dst)%nat → length (splice off src dst) = length dst.
Proof.
  intros H. unfold splice. rewrite !length_app, length_take, length_drop. lia.
Qed.

Lemma rd_app {A} (d : A) a b i :
  rd d (a ++ b) i = if decide (i < length a)%nat then rd d a i
                    else rd d b (i - length a)%nat.
Proof.
  unfold rd. case_decide.
  - by rewrite app_nth1.
  - rewrite app_nth2; [done|lia].
Qed.

Lemma rd_take {A} (d : A) a n i : (i < n)%nat → rd d (take n a) i = rd d a i.
Proof. intros H. unfold rd. rewrite !nth_lookup, lookup_take_lt; done. Qed.

Lemma rd_drop {A} (d : A) a n i : rd d (drop n a) i = rd d a (n + i)%nat.
Proof. unfold rd. by rewrite !nth_lookup, lookup_drop. Qed.

Lemma rd_splice {A} (d : A) off (src dst : list A) j :
  (off + length src <= length dst)%nat →
  rd d (splice off src dst) j
  = if decide (off <= j < off + length src)%nat then rd d src (j - off)%nat
    else rd d dst j.
Proof.
  intros H. unfold splice. rewrite !rd_app, rd_drop, length_take.
  repeat case_decide; try lia.
  - rewrite rd_take; [done|lia].
  - f_equal. lia.
  - f_equal. lia.
Qed.

Lemma splice_all {A} (src dst : list A) :
  length src = length dst → splice 0 src dst = src.
Proof.
  intros H. unfold splice. cbn. rewrite H, drop_all. apply app_nil_r.
Qed.

Lemma rd_ext {A} (d : A) a b :
  length a = length b →
  (∀ i, (i < length a)%nat → rd d a i = rd d b i) → a = b.
Proof. intros Hl H. by apply (nth_ext a b d d). Qed.

Lemma rd_replicate {A} (d : A) n i : rd d (replicate n d) i = d.
Proof.
  unfold rd. rewrite nth_lookup. destruct (replicate n d !! i) eqn:E; [|done].
  by apply lookup_replicate in E as [-> _].
Qed.

Lemma rd_map_seq {A} (d : A) (f : nat → A) n i :
  (i < n)%nat → rd d (map f (seq 0 n)) i = f i.
Proof.
  intros Hi. unfold rd. rewrite nth_lookup, list_lookup_fmap, lookup_seq_lt by done. done.
Qed.

Lemma rd_map {A B} (d : A) (e : B) (f : A → B) a i :
  (i < length a)%nat → rd e (map f a) i = f (rd d a i).
Proof.
  intros H. unfold rd. rewrite (nth_indep _ e (f d)); [apply map_nth|].
  by rewrite length_map.
Qed.

Lemma rd_zip_with {A B C} (d : A) (e : B) (g : C) (f : A → B → C) a b i :
  (i < length a)%nat → (i < length b)%nat →
  rd g (zip_with f a b) i = f (rd d a i) (rd e b i).
Proof.
  intros Ha Hb. apply rd_lookup. rewrite lookup_zip_with.
  by rewrite (rd_lt d a i Ha), (rd_lt e b i Hb).
Qed.

Lemma rd_replicate_lt {A} (d x : A) n i : (i < n)%nat → rd d (replicate n x) i = x.
Proof. intros H. apply rd_lookup. by apply lookup_replicate_2. Qed.

(** A loop that fills the cells [off + lo, off + lo + n) with [f]. *)
Lemma fill_loop {A} (d : A) f off lo n (t : list A) :
  (off + lo + n <= length t)%nat →
  length (for_range lo n (λ i t, wr t (off + i) (f i)) t) = length t ∧
  ∀ j, rd d (for_range lo n (λ i t, wr t (off + i) (f i)) t) j
       = if decide (off + lo <= j < off + lo + n)%nat then f (j - off)%nat
         else rd d t j.
Proof.
  induction n as [|n IH]; intros Hn.
  - split; [done|]. intros j. case_decide; [lia|done].
  - destruct IH as [IHl IHr]; [lia|]. rewrite for_range_S. split.
    + by rewrite length_wr.
    + intros j. rewrite rd_wr, IHr by lia.
      repeat case_decide; subst; try lia; try done. f_equal. lia.
Qed.

(** A loop that updates the cells [0, n) one by one. *)
Lemma update_loop {A} (d : A) f n (t : list A) :
  (n <= length t)%nat →
  length (for_range 0 n (λ i t, wr t i (f i (rd d t i))) t) = length t ∧
  ∀ j, rd d (for_range 0 n (λ i t, wr t i (f i (rd d t i))) t) j
       = if decide (j < n)%nat then f j (rd d t j) else rd d t j.
Proof.
  induction n as [|n IH]; intros Hn.
  - split; [done|]. intros j. case_decide; [lia|done].
  - destruct IH as [IHl IHr]; [lia|]. rewrite for_range_S. cbn [Nat.add]. split.
    + by rewrite length_wr.
    + intros j. rewrite rd_wr, !IHr by lia.
      repeat case_decide; subst; try lia; done.
Qed.

(** ** Bytes

    A [uint8_t] is a [byte]: every value of the type is a value of the C type,
    so facts about all bytes need no range hypothesis and finite ones are
    decided by running over the 256 values. *)

Definition bz (b : byte) : Z := Z.of_N (Byte.to_N b).
Definition zb (z : Z) : byte :=
  match Byte.of_N (Z.to_N (z mod 256)) with Some b => b | None => x00 end.
Definition bn (b : byte) : nat := Z.to_nat (bz b).

Definition byte_eqb (a b : byte) : bool := (bz a =? bz b)%Z.
Definition bxor (a b : byte) : byte := zb (Z.lxor (bz a) (bz b)).

Definition all_bytes : list byte := map (λ i, zb (Z.of_nat i)) (seq 0 256).

#[export] Instance byte_eq_decision : EqDecision byte := Byte.byte_eq_dec.

Lemma all_bytes_complete b : In b all_bytes.
Proof.
  assert (Hb : nth (bn b) all_bytes x00 = b) by (by destruct b).
  rewrite <-Hb. apply nth_In. change (length all_bytes) with 256%nat.
  by destruct b; apply Nat.ltb_lt.
Qed.

(** A boolean predicate that holds of the 256 values holds of every byte. *)
Lemma byte_forall1 (P : byte → bool) :
  forallb P all_bytes = true → ∀ b, P b = true.
Proof.
  intros H b. rewrite forallb_forall in H. apply H, all_bytes_complete.
Qed.

Lemma byte_forall2 (P : byte → byte → bool) :
  forallb (λ a, forallb (P a) all_bytes) all_bytes = true → ∀ a b, P a b = true.
Proof.
  intros H a b. apply byte_forall1.
  exact (byte_forall1 (λ a, forallb (P a) all_bytes) H a).
Qed.

Lemma zb_bz b : zb (bz b) = b.
Proof. by destruct b. Qed.

Lemma bz_range b : (0 <= bz b < 256)%Z.
Proof.
  assert (H : ((0 <=? bz b) && (bz b <? 256))%Z = true)
    by (apply (byte_forall1 (λ b, (0 <=? bz b) && (bz b <? 256))%Z); by vm_compute).
  apply andb_true_iff in H as [H1 H2]. lia.
Qed.

Lemma bn_range b : (bn b < 256)%nat.
Proof. pose proof (bz_range b). unfold bn. lia. Qed.

Lemma bn_0 b : bn b = 0%nat → b = x00.
Proof. by destruct b. Qed.

Lemma bz_zb z : bz (zb z) = (z mod 256)%Z.
Proof.
  unfold bz, zb. pose proof (Z.mod_pos_bound z 256 ltac:(lia)) as H.
  destruct (Byte.of_N (Z.to_N (z mod 256))) as [b|] eqn:E.
  - apply Byte.to_of_N in E. rewrite E. lia.
  - apply Byte.of_N_None_iff in E. lia.
Qed.

Lemma bz_inj a b : bz a = bz b → a = b.
Proof. intros H. by rewrite <-(zb_bz a), <-(zb_bz b), H. Qed.

Lemma byte_eqb_eq a b : byte_eqb a b = true ↔ a = b.
Proof.
  unfold byte_eqb. rewrite Z.eqb_eq. split; [apply bz_inj|by intros ->].
Qed.

Lemma byte_eqb_spec a b : reflect (a = b) (byte_eqb a b).
Proof. apply iff_reflect. symmetry. apply byte_eqb_eq. Qed.

Lemma byte_eqb_neq a b : a ≠ b → byte_eqb a b = false.
Proof. intros H. by destruct (byte_eqb_spec a b). Qed.

Lemma lxor_byte_range a b :
  (0 <= a < 256)%Z → (0 <= b < 256)%Z → (0 <= Z.lxor a b < 256)%Z.
Proof.
  intros Ha Hb. assert (H0 : (0 <= Z.lxor a b)%Z) by (apply Z.lxor_nonneg; lia).
  split; [done|]. apply Z.nle_gt. intros H.
  assert (Hs : Z.shiftr (Z.lxor a b) 8 = 0%Z).
  { rewrite Z.shiftr_lxor, !Z.shiftr_div_pow2 by lia.
    change (2 ^ 8)%Z with 256%Z. by rewrite !Z.div_small by lia. }
  rewrite Z.shiftr_div_pow2 in Hs by lia. change (2 ^ 8)%Z with 256%Z in Hs.
  apply (Z.div_le_mono _ _ 256) in H; [|lia]. rewrite Hs in H. done.
Qed.

Lemma bz_bxor a b : bz (bxor a b) = Z.lxor (bz a) (bz b).
Proof.
  unfold bxor. rewrite bz_zb. apply Z.mod_small.
  apply lxor_byte_range; apply bz_range.
Qed.

Lemma bxor_comm a b : bxor a b = bxor b a.
Proof. unfold bxor. by rewrite Z.lxor_comm. Qed.

Lemma bxor_assoc a b c : bxor a (bxor b c) = bxor (bxor a b) c.
Proof. apply bz_inj. by rewrite !bz_bxor, Z.lxor_assoc. Qed.

Lemma bxor_0_l a : bxor x00 a = a.
Proof. apply bz_inj. rewrite bz_bxor. apply Z.lxor_0_l. Qed.

Lemma bxor_0_r a : bxor a x00 = a.
Proof. by rewrite bxor_comm, bxor_0_l. Qed.

Lemma bxor_nilpotent a : bxor a a = x00.
Proof. apply bz_inj. by rewrite bz_bxor, Z.lxor_nilpotent. Qed.

(** ** Automation *)

Create HintDb reffs.
#[export] Hint Resolve wrap_in_width : reffs.
Create Rewrite HintDb reffs_len.
#[export] Hint Rewrite @length_wr @length_map @length_app @length_take
  @length_drop @length_replicate @length_seq : reffs_len.

(** Turn boolean tests of the code into propositions. *)
Ltac bool_prop :=
  repeat match goal with
  | H : _ && _ = true |- _ => apply andb_true_iff in H; destruct H
  | H : _ || _ = false |- _ => apply orb_false_iff in H; destruct H
  | H : negb _ = true |- _ => apply negb_true_iff in H
  | H : negb _ = false |- _ => apply negb_false_iff in H
  | H : (_ <=? _)%Z = true |- _ => apply Z.leb_le in H
  | H : (_ <=? _)%Z = false |- _ => apply Z.leb_gt in H
  | H : (_ <? _)%Z = true |- _ => apply Z.ltb_lt in H
  | H : (_ <? _)%Z = false |- _ => apply Z.ltb_ge in H
  | H : (_ =? _)%Z = true |- _ => apply Z.eqb_eq in H
  | H : (_ =? _)%Z = false |- _ => apply Z.eqb_neq in H
  | H : (_ <=? _)%nat = true |- _ => apply Nat.leb_le in H
  | H : (_ <=? _)%nat = false |- _ => apply Nat.leb_gt in H
  | H : (_ <? _)%nat = true |- _ => apply Nat.ltb_lt in H
  | H : (_ <? _)%nat = false |- _ => apply Nat.ltb_ge in H
  | H : (_ =? _)%nat = true |- _ => apply Nat.eqb_eq in H
  | H : (_ =? _)%nat = false |- _ => apply Nat.eqb_neq in H
  end.

(** Split on the boolean test of the first [if] of the goal. *)
Ltac case_if :=
  match goal with
  | |- context [if ?b then _ else _] =>
      lazymatch type of b with bool => destruct b eqn:? end
  end.

(** Every test of the goal, with the resulting facts as propositions. *)
Ltac split_ifs := repeat case_if; bool_prop.
