(* ===== verification/Words.v ===== *)
(** * Little-endian machine words

    A word in memory is the list of its bytes, least significant first.  This
    file relates the 64-bit arithmetic the sources do on whole words to the
    bytes it works on, and fallible loops for code that may leave a buffer. *)

From S2P Require Import Prelude.

Module Words.

Fixpoint le_combine (l : list byte) : Z :=
  match l with [] => 0 | b :: l' => bz b + 256 * le_combine l' end.
Fixpoint le_split (n : nat) (z : Z) : list byte :=
  match n with O => [] | S n' => zb z :: le_split n' (z / 256) end.

Lemma length_le_split n z : length (le_split n z) = n.
Proof. revert z. induction n; intros z; cbn; [done|]. by rewrite IHn. Qed.

Lemma rd_le_split n z i :
  (i < n)%nat → rd x00 (le_split n z) i = zb (z / 256 ^ Z.of_nat i).
Proof.
  revert z i. induction n as [|n IH]; intros z i Hi; [lia|]. destruct i as [|i].
  - cbn. by rewrite Z.div_1_r.
  - change (rd x00 (le_split (S n) z) (S i)) with (rd x00 (le_split n (z / 256)) i).
    rewrite IH by lia. rewrite Z.div_div by lia. f_equal. f_equal.
    rewrite <-Z.pow_succ_r by lia. f_equal. lia.
Qed.

Lemma le_combine_div l i : (le_combine l / 256 ^ Z.of_nat i = le_combine (drop i l))%Z.
Proof.
  revert l. induction i as [|i IH]; intros l; [cbn; by rewrite Z.div_1_r|].
  destruct l as [|b l]; [by cbn; rewrite Z.div_0_l by lia|].
  cbn [le_combine drop]. rewrite <-IH.
  rewrite Nat2Z.inj_succ, Z.pow_succ_r, <-Z.div_div by lia.
  f_equal. pose proof (bz_range b). rewrite Z.mul_comm, Z.div_add, Z.div_small by lia. lia.
Qed.

Lemma le_combine_range l : (0 <= le_combine l < 256 ^ Z.of_nat (length l))%Z.
Proof.
  induction l as [|b l IH]; [done|]. cbn [le_combine length].
  pose proof (bz_range b). rewrite Nat2Z.inj_succ, Z.pow_succ_r by lia. lia.
Qed.

Lemma le_split_combine l : le_split (length l) (le_combine l) = l.
Proof.
  induction l as [|b l IH]; [done|]. cbn [le_combine length le_split].
  pose proof (bz_range b) as Hb. f_equal.
  - apply bz_inj. rewrite bz_zb, (Z.mul_comm 256), Z.mod_add, Z.mod_small by lia. done.
  - rewrite (Z.mul_comm 256), Z.div_add, Z.div_small by lia. exact IH.
Qed.

Lemma le_combine_split n z : le_combine (le_split n z) = (z mod 256 ^ Z.of_nat n)%Z.
Proof.
  revert z. induction n as [|n IH]; intros z; [by rewrite Z.mod_1_r|].
  cbn [le_split le_combine]. rewrite IH, bz_zb, Nat2Z.inj_succ, Z.pow_succ_r by lia.
  rewrite Z.rem_mul_r by lia. done.
Qed.

Lemma testbit_byte_high b n : (8 <= n)%Z → Z.testbit (bz b) n = false.
Proof.
  intros Hn. pose proof (bz_range b) as Hb. rewrite Z.testbit_false by lia.
  rewrite Z.div_small; [done|]. split; [lia|].
  assert (2 ^ 8 <= 2 ^ n)%Z by (apply Z.pow_le_mono_r; lia). lia.
Qed.

(** Bit [n] of a word is bit [n mod 8] of its byte [n / 8]. *)
Lemma testbit_le_combine l n :
  (0 <= n)%Z →
  Z.testbit (le_combine l) n = Z.testbit (bz (rd x00 l (Z.to_nat (n / 8)))) (n mod 8).
Proof.
  revert n. induction l as [|b l IH]; intros n Hn.
  { rewrite rd_ge by (cbn; lia). cbn. by rewrite !Z.bits_0. }
  cbn [le_combine]. pose proof (bz_range b) as Hb.
  destruct (Z.lt_ge_cases n 8).
  - rewrite <-(Z.mod_pow2_bits_low _ 8) by lia. change (2 ^ 8)%Z with 256%Z.
    rewrite (Z.mul_comm 256), Z.mod_add, Z.mod_small by lia.
    by rewrite Z.div_small, Z.mod_small by lia.
  - replace n with ((n - 8) + 8)%Z at 1 by lia. rewrite <-Z.div_pow2_bits by lia.
    change (2 ^ 8)%Z with 256%Z. rewrite (Z.mul_comm 256), Z.div_add, Z.div_small by lia.
    rewrite Z.add_0_l, IH by lia.
    assert (Hn8 : (n = (n - 8) + 1 * 8)%Z) by lia.
    rewrite Hn8 at 3 4. rewrite Z.mod_add, Z.div_add by lia.
    assert (0 <= (n - 8) / 8)%Z by (apply Z.div_pos; lia).
    by replace (Z.to_nat ((n - 8) / 8 + 1)) with (S (Z.to_nat ((n - 8) / 8))) by lia.
Qed.

(** Bitwise operations on words are bytewise. *)
Lemma le_combine_zip (op : Z → Z → Z) (bop : bool → bool → bool) (f : byte → byte → byte) a b :
  (∀ x y n, Z.testbit (op x y) n = bop (Z.testbit x n) (Z.testbit y n)) →
  bop false false = false →
  (∀ x y, bz (f x y) = op (bz x) (bz y)) →
  length a = length b →
  op (le_combine a) (le_combine b) = le_combine (zip_with f a b).
Proof.
  intros Hop Hff Hf Hl. apply Z.bits_inj'. intros n Hn.
  rewrite Hop, !testbit_le_combine by done.
  destruct (decide (Z.to_nat (n / 8) < length a)%nat).
  - rewrite (rd_zip_with x00 x00 x00) by lia. by rewrite Hf, Hop.
  - rewrite !rd_ge by (rewrite ?length_zip_with; lia). cbn. by rewrite Z.bits_0.
Qed.

Lemma le_combine_lxor a b :
  length a = length b → Z.lxor (le_combine a) (le_combine b) = le_combine (zip_with bxor a b).
Proof.
  apply le_combine_zip with (bop := xorb); [apply Z.lxor_spec|done|apply bz_bxor].
Qed.

Definition band (a b : byte) : byte := zb (Z.land (bz a) (bz b)).

Lemma bz_band a b : bz (band a b) = Z.land (bz a) (bz b).
Proof.
  unfold band. rewrite bz_zb. pose proof (bz_range a). pose proof (bz_range b).
  change 256%Z with (2 ^ 8)%Z. rewrite <-Z.land_ones by lia.
  rewrite <-Z.land_assoc, (Z.land_ones (bz b)), Z.mod_small by (cbn; lia). done.
Qed.

Lemma le_combine_land a b :
  length a = length b → Z.land (le_combine a) (le_combine b) = le_combine (zip_with band a b).
Proof.
  apply le_combine_zip with (bop := andb); [apply Z.land_spec|done|apply bz_band].
Qed.

(** ** Fallible loops *)

Fixpoint for_opt {S : Type} (lo n : nat) (body : nat → S → option S) (s : S) : option S :=
  match n with
  | O => Some s
  | Datatypes.S n' =>
      match body lo s with
      | Some s' => for_opt (Datatypes.S lo) n' body s'
      | None => None
      end
  end.

Lemma for_opt_ind {S} (I : nat → S → Prop) lo n (body : nat → S → option S) s :
  I lo s →
  (∀ i s', (lo <= i < lo + n)%nat → I i s' →
     ∃ s'', body i s' = Some s'' ∧ I (Datatypes.S i) s'') →
  ∃ s', for_opt lo n body s = Some s' ∧ I (lo + n)%nat s'.
Proof.
  revert lo s. induction n as [|n IH]; intros lo s H0 Hstep.
  - exists s. by rewrite Nat.add_0_r.
  - destruct (Hstep lo s ltac:(lia) H0) as (s' & E & H1). cbn [for_opt]. rewrite E.
    rewrite Nat.add_succ_r. apply (IH (Datatypes.S lo)); [done|].
    intros i s'' Hi HI. apply Hstep; [lia|done].
Qed.

End Words.
