(* ===== verification/GF256.v ===== *)
(** * GF(2^8) arithmetic ([src/lib/ec/gf.c], [src/lib/ec/gf.h])

    The log and antilog tables as [gf_init_tables] builds them, the field
    operations on them, and the per-coefficient multiplication tables of the
    Reed-Solomon inner loops. *)

From S2P Require Import Prelude.

Module GF.

Definition GF_POLY : Z := 0x11d.
Definition GF_ORDER : nat := 255.

(** The two static tables. *)
Record gf_tables := mk_gf_tables {
  t_exp : list byte;  (* antilog table, doubled to 512 entries *)
  t_log : list byte;  (* log table; entry 0 is a sentinel *)
}.

(** One iteration of the first loop of [gf_init_tables]; the [int x] is the
    second component. *)
Definition gf_init_step (i : nat) (s : gf_tables * Z) : gf_tables * Z :=
  let '(t, x) := s in
  let e := wr (t_exp t) i (zb x) in
  let l := wr (t_log t) (bn (zb x)) (zb (Z.of_nat i)) in
  let x1 := Z.shiftl x 1 in
  let x2 := if (Z.land x1 0x100 =? 0)%Z then x1 else Z.lxor x1 GF_POLY in
  (mk_gf_tables e l, x2).

Definition gf_init_tables : gf_tables :=
  let zeroed := mk_gf_tables (replicate 512 x00) (replicate 256 x00) in
  let '(t, _) := for_range 0 GF_ORDER gf_init_step (zeroed, 1%Z) in
  let e := for_range GF_ORDER (512 - GF_ORDER)
             (λ i e, wr e i (rd x00 e (i - GF_ORDER))) (t_exp t) in
  mk_gf_tables e (wr (t_log t) 0 x00).

(** The tables after [gf_init]: [pthread_once] runs [gf_init_tables] exactly
    once, before [ec_rs_create] or any other caller reads them. *)
Definition gf_exp : list byte := t_exp gf_init_tables.
Definition gf_log : list byte := t_log gf_init_tables.

Definition gf_add (a b : byte) : byte := bxor a b.
Definition gf_sub (a b : byte) : byte := bxor a b.

Definition gf_mul (a b : byte) : byte :=
  if byte_eqb a x00 || byte_eqb b x00 then x00
  else rd x00 gf_exp (bn (rd x00 gf_log (bn a)) + bn (rd x00 gf_log (bn b))).

Definition gf_inv (a : byte) : byte :=
  if byte_eqb a x00 then x00
  else rd x00 gf_exp (GF_ORDER - bn (rd x00 gf_log (bn a))).

Definition gf_div (a b : byte) : byte := gf_mul a (gf_inv b).

Definition gf_pow (a n : byte) : byte :=
  if byte_eqb n x00 then x01
  else if byte_eqb a x00 then x00
  else
    let log_a := bn (rd x00 gf_log (bn a)) in
    let log_result := (log_a * bn n) mod GF_ORDER in
    rd x00 gf_exp log_result.

(** [gf_mul_tbl_init]: the 256 products of one coefficient. *)
Definition gf_mul_tbl_init (c : byte) (tbl : list byte) : list byte :=
  let tbl := wr tbl 0 x00 in
  if byte_eqb c x00 then for_range 1 255 (λ b t, wr t b x00) tbl
  else
    let log_c := bn (rd x00 gf_log (bn c)) in
    for_range 1 255
      (λ b t, wr t b (rd x00 gf_exp (log_c + bn (rd x00 gf_log b)))) tbl.

(** [gf_mul_split_tbl_init]: low-nibble products at 0..15, high-nibble products
    at 16..31. *)
Definition gf_mul_split_tbl_init (c : byte) (tbl : list byte) : list byte :=
  let tbl := wr (wr tbl 0 x00) 16 x00 in
  if byte_eqb c x00 then
    for_range 1 15 (λ i t, wr (wr t i x00) (16 + i) x00) tbl
  else
    let log_c := bn (rd x00 gf_log (bn c)) in
    let tbl := for_range 1 15
      (λ i t, wr t i (rd x00 gf_exp (log_c + bn (rd x00 gf_log i)))) tbl in
    for_range 1 15
      (λ i t, wr t (16 + i)
         (rd x00 gf_exp (log_c + bn (rd x00 gf_log (Nat.shiftl i 4))))) tbl.

(** ** What the tables hold *)

Definition elog (a : byte) : nat := bn (rd x00 gf_log (bn a)).
Definition eexp (i : nat) : byte := rd x00 gf_exp i.

Definition nat_all (n : nat) (P : nat → bool) : bool := forallb P (seq 0 n).

Lemma nat_all_spec n P : nat_all n P = true → ∀ i, (i < n)%nat → P i = true.
Proof.
  intros H i Hi. unfold nat_all in H. rewrite forallb_forall in H.
  apply H, in_seq. lia.
Qed.

Lemma exp_log a : a ≠ x00 → eexp (elog a) = a.
Proof.
  intros Ha.
  assert (H : byte_eqb a x00 || byte_eqb (eexp (elog a)) a = true).
  { apply (byte_forall1 (λ a, byte_eqb a x00 || byte_eqb (eexp (elog a)) a)).
    by vm_compute. }
  apply orb_true_iff in H as [H|H]; apply byte_eqb_eq in H; done.
Qed.

Lemma elog_range a : (elog a < 255)%nat.
Proof.
  apply Nat.ltb_lt. apply (byte_forall1 (λ a, elog a <? 255)%nat). by vm_compute.
Qed.

Lemma log_exp i : (i < 255)%nat → elog (eexp i) = i.
Proof.
  intros Hi. apply Nat.eqb_eq.
  apply (nat_all_spec 255 (λ i, elog (eexp i) =? i)%nat); [by vm_compute|done].
Qed.

Lemma eexp_nonzero i : (i < 512)%nat → eexp i ≠ x00.
Proof.
  intros Hi Heq.
  assert (H : negb (byte_eqb (eexp i) x00) = true).
  { apply (nat_all_spec 512 (λ i, negb (byte_eqb (eexp i) x00))); [by vm_compute|done]. }
  by rewrite Heq in H.
Qed.

Lemma eexp_period i : (i < 257)%nat → eexp (i + 255) = eexp i.
Proof.
  intros Hi. apply byte_eqb_eq.
  apply (nat_all_spec 257 (λ i, byte_eqb (eexp (i + 255)) (eexp i))); [by vm_compute|done].
Qed.

Lemma eexp_mod i : (i < 512)%nat → eexp i = eexp (i mod 255).
Proof.
  intros Hi.
  assert (H : (i < 255 ∨ (255 <= i < 510) ∨ i = 510 ∨ i = 511)%nat) by lia.
  destruct H as [H|[H|[->| ->]]].
  - by rewrite Nat.mod_small.
  - replace i with ((i - 255) + 255)%nat at 1 by lia. rewrite eexp_period by lia.
    f_equal. replace i with ((i - 255) + 1 * 255)%nat at 2 by lia.
    rewrite Nat.Div0.mod_add, Nat.mod_small; lia.
  - by vm_compute.
  - by vm_compute.
Qed.

#[global] Opaque gf_init_tables gf_exp gf_log.

(** ** The field laws *)

Lemma gf_mul_exp a b :
  a ≠ x00 → b ≠ x00 → gf_mul a b = eexp ((elog a + elog b) mod 255).
Proof.
  intros Ha Hb. unfold gf_mul.
  rewrite !byte_eqb_neq by done. simpl.
  change (eexp (elog a + elog b) = eexp ((elog a + elog b) mod 255)).
  apply eexp_mod. pose proof (elog_range a). pose proof (elog_range b). lia.
Qed.

Lemma gf_mul_0_l a : gf_mul x00 a = x00.
Proof. done. Qed.

Lemma gf_mul_0_r a : gf_mul a x00 = x00.
Proof. unfold gf_mul. by rewrite orb_true_r. Qed.

Lemma gf_mul_nonzero a b : a ≠ x00 → b ≠ x00 → gf_mul a b ≠ x00.
Proof.
  intros Ha Hb. rewrite gf_mul_exp by done. apply eexp_nonzero.
  pose proof (Nat.mod_upper_bound (elog a + elog b) 255). lia.
Qed.

Lemma elog_mul a b :
  a ≠ x00 → b ≠ x00 → elog (gf_mul a b) = ((elog a + elog b) mod 255)%nat.
Proof.
  intros Ha Hb. rewrite gf_mul_exp by done. apply log_exp, Nat.mod_upper_bound. lia.
Qed.

Lemma gf_mul_comm a b : gf_mul a b = gf_mul b a.
Proof.
  unfold gf_mul. by rewrite orb_comm, Nat.add_comm.
Qed.

Lemma gf_mul_assoc a b c : gf_mul a (gf_mul b c) = gf_mul (gf_mul a b) c.
Proof.
  destruct (decide (a = x00)) as [->|Ha]; [by rewrite !gf_mul_0_l|].
  destruct (decide (b = x00)) as [->|Hb]; [by rewrite gf_mul_0_l, gf_mul_0_r|].
  destruct (decide (c = x00)) as [->|Hc]; [by rewrite !gf_mul_0_r|].
  rewrite (gf_mul_exp a), (gf_mul_exp (gf_mul a b)) by auto using gf_mul_nonzero.
  rewrite !elog_mul by done. f_equal.
  rewrite Nat.Div0.add_mod_idemp_r, Nat.Div0.add_mod_idemp_l. f_equal. lia.
Qed.

Lemma gf_mul_1_l a : gf_mul x01 a = a.
Proof.
  apply byte_eqb_eq. apply (byte_forall1 (λ a, byte_eqb (gf_mul x01 a) a)).
  by vm_compute.
Qed.

Lemma gf_mul_inv_l a : a ≠ x00 → gf_mul (gf_inv a) a = x01.
Proof.
  intros Ha.
  assert (H : byte_eqb a x00 || byte_eqb (gf_mul (gf_inv a) a) x01 = true).
  { apply (byte_forall1
      (λ a, byte_eqb a x00 || byte_eqb (gf_mul (gf_inv a) a) x01)). by vm_compute. }
  apply orb_true_iff in H as [H|H]; apply byte_eqb_eq in H; done.
Qed.

Lemma gf_mul_inv_r a : a ≠ x00 → gf_mul a (gf_inv a) = x01.
Proof. intros. by rewrite gf_mul_comm, gf_mul_inv_l. Qed.

Lemma gf_mul_1_r a : gf_mul a x01 = a.
Proof. by rewrite gf_mul_comm, gf_mul_1_l. Qed.

(** Multiplication by [x] in GF(2)[x] modulo the primitive polynomial. *)
Definition xtime (a : Z) : Z :=
  let d := Z.shiftl a 1 in
  if Z.testbit d 8 then Z.lxor d GF_POLY else d.

Lemma gf_mul_2 b : bz (gf_mul x02 b) = xtime (bz b).
Proof.
  apply Z.eqb_eq. apply (byte_forall1 (λ b, bz (gf_mul x02 b) =? xtime (bz b))%Z).
  by vm_compute.
Qed.

Lemma xtime_lxor a b : xtime (Z.lxor a b) = Z.lxor (xtime a) (xtime b).
Proof.
  unfold xtime. rewrite Z.shiftl_lxor, Z.lxor_spec.
  set (u := Z.shiftl a 1). set (v := Z.shiftl b 1).
  destruct (Z.testbit u 8), (Z.testbit v 8); cbn [xorb].
  - rewrite <-Z.lxor_assoc, (Z.lxor_comm u GF_POLY), (Z.lxor_assoc GF_POLY u v).
    by rewrite (Z.lxor_comm GF_POLY), Z.lxor_assoc, Z.lxor_nilpotent, Z.lxor_0_r.
  - by rewrite !Z.lxor_assoc, (Z.lxor_comm v).
  - by rewrite Z.lxor_assoc.
  - done.
Qed.

Lemma eexp_S i : (i < 254)%nat → eexp (S i) = gf_mul x02 (eexp i).
Proof.
  intros Hi. rewrite gf_mul_exp; [|discriminate|apply eexp_nonzero; lia].
  rewrite log_exp by lia. replace (elog x02) with 1%nat by (vm_compute; reflexivity).
  rewrite Nat.mod_small by lia. reflexivity.
Qed.

Lemma gf_mul_add_r a b c :
  gf_mul a (gf_add b c) = gf_add (gf_mul a b) (gf_mul a c).
Proof.
  destruct (decide (a = x00)) as [->|Ha]; [by rewrite !gf_mul_0_l|].
  rewrite <-(exp_log a Ha). pose proof (elog_range a) as Hr.
  generalize dependent (elog a). intros i Hi. induction i as [|i IH].
  - replace (eexp 0) with x01 by (vm_compute; reflexivity). by rewrite !gf_mul_1_l.
  - rewrite eexp_S, <-!gf_mul_assoc, IH by lia. apply bz_inj. unfold gf_add.
    by rewrite gf_mul_2, !bz_bxor, !gf_mul_2, xtime_lxor.
Qed.

(** The product by [a] as the xor of the products by the bits of [b]. *)
Definition bit_products (a : byte) : list (Z * byte) :=
  map (λ i, (i, gf_mul a (zb (2 ^ i)))) [0;1;2;3;4;5;6;7]%Z.

Definition bit_sum (ps : list (Z * byte)) (z : Z) : byte :=
  fold_right (λ ip acc, bxor (if Z.testbit z (fst ip) then snd ip else x00) acc) x00 ps.

Lemma byte_bits b : b = bit_sum (map (λ i, (i, zb (2 ^ i))) [0;1;2;3;4;5;6;7]%Z) (bz b).
Proof.
  apply byte_eqb_eq. apply (byte_forall1 (λ b, byte_eqb b
    (bit_sum (map (λ i, (i, zb (2 ^ i))) [0;1;2;3;4;5;6;7]%Z) (bz b)))).
  by vm_compute.
Qed.

Lemma gf_mul_bit_sum a f l z :
  gf_mul a (bit_sum (map (λ i, (i, f i)) l) z)
  = bit_sum (map (λ i, (i, gf_mul a (f i))) l) z.
Proof.
  induction l as [|i l IH]; [apply gf_mul_0_r|].
  cbn [map bit_sum fold_right fst snd].
  etransitivity; [apply gf_mul_add_r|]. unfold gf_add. f_equal; [|exact IH].
  destruct (Z.testbit z i); [done|apply gf_mul_0_r].
Qed.

Lemma gf_mul_bits a b : gf_mul a b = bit_sum (bit_products a) (bz b).
Proof. rewrite (byte_bits b) at 1. apply (gf_mul_bit_sum a (λ i, zb (2 ^ i))). Qed.

Lemma gf_ring_theory :
  ring_theory x00 x01 gf_add gf_mul gf_sub (λ x, x) (@eq byte).
Proof.
  constructor; intros; unfold gf_add, gf_sub.
  - apply bxor_0_l.
  - apply bxor_comm.
  - apply bxor_assoc.
  - apply gf_mul_1_l.
  - apply gf_mul_comm.
  - apply gf_mul_assoc.
  - rewrite gf_mul_comm, (gf_mul_comm x), (gf_mul_comm y). apply gf_mul_add_r.
  - done.
  - apply bxor_nilpotent.
Qed.

Lemma gf_field_theory :
  field_theory x00 x01 gf_add gf_mul gf_sub (λ x, x) gf_div gf_inv (@eq byte).
Proof.
  constructor; [apply gf_ring_theory|done|done|apply gf_mul_inv_l].
Qed.

#[export] Instance byte_inhabited : Inhabited byte := populate x00.

Add Ring gf_ring : gf_ring_theory.

(** Characteristic 2. *)
Lemma gf_add_self a : gf_add a a = x00.
Proof. apply bxor_nilpotent. Qed.

Lemma gf_add_eq_0 a b : gf_add a b = x00 → a = b.
Proof.
  intros H. assert (E : gf_add (gf_add a b) b = gf_add x00 b) by by rewrite H.
  unfold gf_add in E. rewrite <-bxor_assoc, bxor_nilpotent, bxor_0_r, bxor_0_l in E.
  done.
Qed.

Lemma gf_mul_eq_0 a b : gf_mul a b = x00 → a = x00 ∨ b = x00.
Proof.
  intros H. destruct (decide (a = x00)); [by left|].
  destruct (decide (b = x00)); [by right|]. exfalso. exact (gf_mul_nonzero a b n n0 H).
Qed.

(** ** Powers *)

Fixpoint gpow (a : byte) (n : nat) : byte :=
  match n with O => x01 | S n' => gf_mul a (gpow a n') end.

Lemma gpow_add a i j : gpow a (i + j) = gf_mul (gpow a i) (gpow a j).
Proof.
  induction i as [|i IH]; cbn [gpow Nat.add]; [by rewrite gf_mul_1_l|].
  by rewrite IH, gf_mul_assoc.
Qed.

Lemma gpow_nonzero a n : a ≠ x00 → gpow a n ≠ x00.
Proof. intros Ha. induction n; simpl; [done|by apply gf_mul_nonzero]. Qed.

Lemma elog_gpow a n : a ≠ x00 → elog (gpow a n) = ((elog a * n) mod 255)%nat.
Proof.
  intros Ha. induction n as [|n IH]; cbn [gpow].
  - by rewrite Nat.mul_0_r.
  - rewrite elog_mul, IH by auto using gpow_nonzero.
    rewrite Nat.Div0.add_mod_idemp_r. f_equal. lia.
Qed.

Lemma gf_pow_gpow a n : gf_pow a n = gpow a (bn n).
Proof.
  unfold gf_pow. destruct (byte_eqb_spec n x00) as [->|Hn]; [done|].
  destruct (byte_eqb_spec a x00) as [->|Ha].
  - assert (bn n ≠ 0%nat).
    { intros E. apply Hn, bz_inj. pose proof (bz_range n). unfold bn in E.
      change (bz x00) with 0%Z. lia. }
    destruct (bn n); [done|simpl]. done.
  - change (eexp ((elog a * bn n) mod 255) = gpow a (bn n)).
    rewrite <-elog_gpow by done. by apply exp_log, gpow_nonzero.
Qed.

Lemma gpow_2_inj i j :
  (i < 255)%nat → (j < 255)%nat → gpow x02 i = gpow x02 j → i = j.
Proof.
  intros Hi Hj E. apply (f_equal elog) in E.
  rewrite !elog_gpow in E by done.
  change (elog x02) with 1%nat in E.
  rewrite !Nat.mul_1_l, !Nat.mod_small in E by lia. done.
Qed.

(** ** The multiplication tables *)

Lemma gf_mul_log c i :
  c ≠ x00 → (0 < i < 256)%nat →
  rd x00 gf_exp (elog c + bn (rd x00 gf_log i)) = gf_mul c (zb (Z.of_nat i)).
Proof.
  intros Hc Hi.
  assert (Hb : bn (zb (Z.of_nat i)) = i).
  { unfold bn. rewrite bz_zb, Z.mod_small; lia. }
  unfold gf_mul. rewrite (byte_eqb_neq c), (byte_eqb_neq (zb (Z.of_nat i))); [|..|done].
  - simpl. by rewrite Hb.
  - intros E. rewrite E in Hb. change (bn x00) with 0%nat in Hb. lia.
Qed.

Lemma zb_bn b : zb (Z.of_nat (bn b)) = b.
Proof.
  unfold bn. pose proof (bz_range b). rewrite Z2Nat.id by lia. apply zb_bz.
Qed.

Lemma length_gf_mul_tbl_init c tbl :
  length tbl = 256%nat → length (gf_mul_tbl_init c tbl) = 256%nat.
Proof.
  intros Hl. unfold gf_mul_tbl_init. case_if.
  - destruct (fill_loop x00 (λ _, x00) 0 1 255 (wr tbl 0 x00)) as [H _];
      rewrite length_wr in *; [lia|]. by etransitivity.
  - destruct (fill_loop x00 (λ b, rd x00 gf_exp (elog c + bn (rd x00 gf_log b)))
      0 1 255 (wr tbl 0 x00)) as [H _]; rewrite length_wr in *; [lia|]. by etransitivity.
Qed.

Lemma gf_mul_tbl_init_spec c tbl b :
  length tbl = 256%nat → rd x00 (gf_mul_tbl_init c tbl) (bn b) = gf_mul c b.
Proof.
  intros Hl. unfold gf_mul_tbl_init. pose proof (bn_range b).
  destruct (byte_eqb_spec c x00) as [->|Hc].
  - destruct (fill_loop x00 (λ _, x00) 0 1 255 (wr tbl 0 x00)) as [_ H'];
      [rewrite length_wr; lia|]. etransitivity; [exact (H' (bn b))|].
    rewrite gf_mul_0_l, rd_wr by lia.
    repeat case_decide; try done; lia.
  - destruct (fill_loop x00 (λ b, rd x00 gf_exp (elog c + bn (rd x00 gf_log b)))
      0 1 255 (wr tbl 0 x00)) as [_ H']; [rewrite length_wr; lia|].
    etransitivity; [exact (H' (bn b))|]. case_decide.
    + rewrite Nat.sub_0_r, gf_mul_log, zb_bn by (done || lia). done.
    + rewrite rd_wr by lia. rewrite (bn_0 b) by lia. by rewrite gf_mul_0_r.
Qed.

(** The split table reads back the products of the 16 low and 16 high nibbles. *)
Lemma gf_mul_split_tbl_init_spec c tbl :
  length tbl = 32%nat →
  length (gf_mul_split_tbl_init c tbl) = 32%nat ∧
  ∀ i, (i < 16)%nat →
    rd x00 (gf_mul_split_tbl_init c tbl) i = gf_mul c (zb (Z.of_nat i)) ∧
    rd x00 (gf_mul_split_tbl_init c tbl) (16 + i)
    = gf_mul c (zb (Z.of_nat (Nat.shiftl i 4))).
Proof.
  intros Hl. unfold gf_mul_split_tbl_init.
  set (t0 := wr (wr tbl 0 x00) 16 x00).
  assert (Hl0 : length t0 = 32%nat) by (subst t0; by rewrite !length_wr).
  assert (H0 : rd x00 t0 0 = x00 ∧ rd x00 t0 16 = x00).
  { subst t0. rewrite !rd_wr by (rewrite ?length_wr; lia). by repeat case_decide. }
  destruct (byte_eqb_spec c x00) as [->|Hc].
  - assert (Hi : length (for_range 1 15 (λ i t, wr (wr t i x00) (16 + i) x00) t0) = 32%nat
      ∧ (∀ j, rd x00 t0 j = x00 ∨ (j < 1 + 15 ∨ 16 < j < 16 + (1 + 15))%nat →
         rd x00 (for_range 1 15 (λ i t, wr (wr t i x00) (16 + i) x00) t0) j = x00)).
    { apply (for_range_ind (λ k s, length s = 32%nat ∧ ∀ j,
        rd x00 t0 j = x00 ∨ (j < k ∨ 16 < j < 16 + k)%nat → rd x00 s j = x00)).
      - split; [done|]. intros j [?|[?|?]]; [done| |lia].
        replace j with 0%nat by lia. apply H0.
      - intros i s Hi [Hs IH]. rewrite !length_wr. split; [done|]. intros j Hj.
        rewrite !rd_wr by (rewrite ?length_wr; lia). repeat case_decide; try done.
        apply IH. destruct Hj as [?|[?|?]]; [by left|right; left; lia|right; right; lia]. }
    destruct Hi as [Hlen Hall]. split; [done|]. intros i Hi.
    rewrite !gf_mul_0_l. split; apply Hall; [right; left; lia|].
    destruct (decide (i = 0%nat)) as [->|]; [left; apply H0|right; right; lia].
  - set (f1 := λ i, rd x00 gf_exp (elog c + bn (rd x00 gf_log i))).
    set (f2 := λ i, f1 (Nat.shiftl i 4)).
    destruct (fill_loop x00 f1 0 1 15 t0) as [L1 R1]; [lia|].
    destruct (fill_loop x00 f2 16 1 15
      (for_range 1 15 (λ i t, wr t (0 + i) (f1 i)) t0)) as [L2 R2]; [lia|].
    split; [etransitivity; [exact L2|lia]|]. intros i Hi. split.
    + etransitivity; [exact (R2 i)|]. rewrite R1. repeat case_decide; try lia.
      * rewrite Nat.sub_0_r. by apply gf_mul_log; [|lia].
      * replace i with 0%nat by lia. by rewrite gf_mul_0_r; destruct H0.
    + etransitivity; [exact (R2 (16 + i)%nat)|]. rewrite R1. repeat case_decide; try lia.
      * replace (16 + i - 16)%nat with i by lia.
        apply gf_mul_log; [done|]. rewrite Nat.shiftl_mul_pow2. simpl. lia.
      * replace i with 0%nat by lia. by rewrite gf_mul_0_r; destruct H0.
Qed.

(** A byte is the sum of its low and its high nibble. *)
Lemma byte_nibbles b :
  gf_add (zb (Z.land (bz b) 0xf)) (zb (Z.shiftl (Z.shiftr (bz b) 4) 4)) = b.
Proof.
  apply byte_eqb_eq. apply (byte_forall1 (λ b, byte_eqb (gf_add
    (zb (Z.land (bz b) 0xf)) (zb (Z.shiftl (Z.shiftr (bz b) 4) 4))) b)). by vm_compute.
Qed.

(** A table whose first 32 bytes are the split products of [c]. *)
Definition split_tbl_ok (c : byte) (t : list byte) : Prop :=
  ∀ i, (i < 16)%nat →
    rd x00 t i = gf_mul c (zb (Z.of_nat i)) ∧
    rd x00 t (16 + i) = gf_mul c (zb (Z.of_nat (Nat.shiftl i 4))).

Lemma low_nibble_range b : (0 <= Z.land (bz b) 0xf < 16)%Z.
Proof.
  change 0xf%Z with (Z.ones 4). rewrite Z.land_ones by lia. apply Z.mod_pos_bound. lia.
Qed.

Lemma high_nibble_range b : (0 <= Z.shiftr (bz b) 4 < 16)%Z.
Proof.
  pose proof (bz_range b). rewrite Z.shiftr_div_pow2 by lia.
  split; [apply Z.div_pos; lia|]. apply Z.div_lt_upper_bound; lia.
Qed.

(** [tbl[b & 0xf] ^ tbl[16 + (b >> 4)]] is the product by the coefficient. *)
Lemma split_tbl_lookup c t b :
  split_tbl_ok c t →
  bxor (rd x00 t (Z.to_nat (Z.land (bz b) 0xf)))
       (rd x00 t (16 + Z.to_nat (Z.shiftr (bz b) 4)))
  = gf_mul c b.
Proof.
  intros H. pose proof (low_nibble_range b). pose proof (high_nibble_range b).
  destruct (H (Z.to_nat (Z.land (bz b) 0xf)) ltac:(lia)) as [-> _].
  destruct (H (Z.to_nat (Z.shiftr (bz b) 4)) ltac:(lia)) as [_ ->].
  rewrite Z2Nat.id by lia.
  replace (Z.of_nat (Nat.shiftl (Z.to_nat (Z.shiftr (bz b) 4)) 4))
    with (Z.shiftl (Z.shiftr (bz b) 4) 4).
  2:{ rewrite Nat.shiftl_mul_pow2, Z.shiftl_mul_pow2 by lia.
      rewrite Nat2Z.inj_mul, Z2Nat.id by lia. done. }
  rewrite <-(byte_nibbles b) at 3. by rewrite gf_mul_add_r.
Qed.

#[global] Opaque gf_mul gf_inv gf_pow gf_mul_tbl_init gf_mul_split_tbl_init.

End GF.
