(* ===== verification/Matrix.v ===== *)
(** * Matrices over GF(2^8) ([src/lib/ec/matrix.c], [src/lib/ec/matrix.h])

    A [struct gf_matrix] with its flat row-major data, multiplication,
    Gauss-Jordan inversion in place and the Vandermonde matrix, and the linear
    algebra that makes them correct: finite sums, kernels and row operations. *)

From S2P Require Import Prelude.
From S2P Require Import GF256.
Import GF.

Module Matrix.

Record gf_matrix := mk_gf_matrix {
  rows : nat;
  cols : nat;
  data : list byte;  (* rows * cols bytes, row-major *)
}.

Definition gf_matrix_create (rows cols : nat) : option gf_matrix :=
  if (rows <=? 0)%nat || (cols <=? 0)%nat then None
  else Some (mk_gf_matrix rows cols (replicate (rows * cols) x00)).

Definition gf_matrix_get (m : gf_matrix) (r c : nat) : byte :=
  rd x00 (data m) (r * cols m + c).

Definition gf_matrix_set (m : gf_matrix) (r c : nat) (v : byte) : gf_matrix :=
  mk_gf_matrix (rows m) (cols m) (wr (data m) (r * cols m + c) v).

(** The accumulation loop [sum = gf_add(sum, f(i))]. *)
Definition gsum (n : nat) (f : nat → byte) : byte :=
  for_range 0 n (λ i sum, gf_add sum (f i)) x00.

(** [gf_matrix_mul]: the return code and the updated [out]. *)
Definition gf_matrix_mul (a b out : gf_matrix) : Z * gf_matrix :=
  if negb (cols a =? rows b)%nat then ((- EINVAL)%Z, out)
  else if negb (rows out =? rows a)%nat || negb (cols out =? cols b)%nat
  then ((- EINVAL)%Z, out)
  else (0%Z,
    for_range 0 (rows a) (λ r out,
      for_range 0 (cols b) (λ c out,
        gf_matrix_set out r c
          (gsum (cols a) (λ i, gf_mul (gf_matrix_get a r i) (gf_matrix_get b i c))))
        out) out).

(** The pivot search of one column: the first row from [col] on with a nonzero
    entry, or none. *)
Definition find_pivot (work : gf_matrix) (n col : nat) : option nat :=
  match for_break col (n - col)
          (λ row (_ : unit),
             if byte_eqb (gf_matrix_get work row col) x00 then inl tt else inr row) tt
  with
  | inl _ => None
  | inr row => Some row
  end.

(** The three row loops of the elimination; the state is [(work, out)]. *)
Definition swap_rows (n col pivot : nat) (s : gf_matrix * gf_matrix)
    : gf_matrix * gf_matrix :=
  for_range 0 n (λ j s,
    let '(work, out) := s in
    let tmp := gf_matrix_get work col j in
    let work := gf_matrix_set work col j (gf_matrix_get work pivot j) in
    let work := gf_matrix_set work pivot j tmp in
    let tmp := gf_matrix_get out col j in
    let out := gf_matrix_set out col j (gf_matrix_get out pivot j) in
    let out := gf_matrix_set out pivot j tmp in
    (work, out)) s.

Definition scale_row (n col : nat) (inv : byte) (s : gf_matrix * gf_matrix)
    : gf_matrix * gf_matrix :=
  for_range 0 n (λ j s,
    let '(work, out) := s in
    (gf_matrix_set work col j (gf_mul (gf_matrix_get work col j) inv),
     gf_matrix_set out col j (gf_mul (gf_matrix_get out col j) inv))) s.

Definition eliminate_row (n col row : nat) (factor : byte)
    (s : gf_matrix * gf_matrix) : gf_matrix * gf_matrix :=
  for_range 0 n (λ j s,
    let '(work, out) := s in
    (gf_matrix_set work row j
       (gf_sub (gf_matrix_get work row j) (gf_mul factor (gf_matrix_get work col j))),
     gf_matrix_set out row j
       (gf_sub (gf_matrix_get out row j) (gf_mul factor (gf_matrix_get out col j))))) s.

Definition eliminate_rows (n col : nat) (s : gf_matrix * gf_matrix)
    : gf_matrix * gf_matrix :=
  for_range 0 n (λ row s,
    if (row =? col)%nat then s
    else
      let factor := gf_matrix_get (fst s) row col in
      if byte_eqb factor x00 then s else eliminate_row n col row factor s) s.

(** One column of the elimination; [inr] is the [goto out_free] of a singular
    matrix, with [out] as it is at that point. *)
Definition invert_column (n col : nat) (s : gf_matrix * gf_matrix)
    : (gf_matrix * gf_matrix) + gf_matrix :=
  match find_pivot (fst s) n col with
  | None => inr (snd s)
  | Some pivot =>
      let s := if negb (pivot =? col)%nat then swap_rows n col pivot s else s in
      let inv := gf_inv (gf_matrix_get (fst s) col col) in
      let s := scale_row n col inv s in
      inl (eliminate_rows n col s)
  end.

(** [gf_matrix_invert]: the return code and [out] as it is left. *)
Definition gf_matrix_invert (m out : gf_matrix) : Z * gf_matrix :=
  let n := rows m in
  if negb (n =? cols m)%nat || negb (n =? rows out)%nat || negb (n =? cols out)%nat
  then ((- EINVAL)%Z, out)
  else
    match gf_matrix_create n n with
    | None => ((- ENOMEM)%Z, out)
    | Some work =>
        let work := mk_gf_matrix (rows work) (cols work)
                      (splice 0 (take (n * n) (data m)) (data work)) in
        let out := mk_gf_matrix (rows out) (cols out)
                      (splice 0 (replicate (n * n) x00) (data out)) in
        let out := for_range 0 n (λ i out, gf_matrix_set out i i x01) out in
        match for_break 0 n (invert_column n) (work, out) with
        | inl s => (0%Z, snd s)
        | inr out => ((- EINVAL)%Z, out)
        end
    end.

Definition gf_matrix_vandermonde (rows cols : nat) : option gf_matrix :=
  match gf_matrix_create rows cols with
  | None => None
  | Some m =>
      Some (for_range 0 rows (λ r m,
              for_range 0 cols (λ c m,
                gf_matrix_set m r c
                  (gf_pow (zb (Z.of_nat (r + 1))) (zb (Z.of_nat c)))) m) m)
  end.

(** ** Well-formed matrices, and entries as functions *)

Definition mat_wf (m : gf_matrix) : Prop := length (data m) = (rows m * cols m)%nat.

Definition is_mat (R C : nat) (m : gf_matrix) : Prop :=
  rows m = R ∧ cols m = C ∧ mat_wf m.

Lemma is_mat_create R C m :
  gf_matrix_create R C = Some m →
  is_mat R C m ∧ ∀ r c, gf_matrix_get m r c = x00.
Proof.
  unfold gf_matrix_create. case_if; [done|]. intros [= <-].
  split; [repeat split; apply length_replicate|]. intros r c.
  apply rd_replicate.
Qed.

Lemma gf_matrix_create_some R C :
  (0 < R)%nat → (0 < C)%nat → ∃ m, gf_matrix_create R C = Some m.
Proof.
  intros HR HC. unfold gf_matrix_create.
  destruct (Nat.leb_spec R 0), (Nat.leb_spec C 0); try lia. simpl. eauto.
Qed.

Lemma is_mat_set R C m r c v : is_mat R C m → is_mat R C (gf_matrix_set m r c v).
Proof.
  intros (? & ? & Hw). repeat split; [done..|]. unfold mat_wf, gf_matrix_set. cbn.
  by rewrite length_wr.
Qed.

Lemma flat_index_lt R C r c : (r < R)%nat → (c < C)%nat → (r * C + c < R * C)%nat.
Proof. nia. Qed.

Lemma flat_index_inj C r c r' c' :
  (c < C)%nat → (c' < C)%nat → (r * C + c = r' * C + c')%nat → r = r' ∧ c = c'.
Proof. intros. assert (r = r') by nia. subst. lia. Qed.

Lemma get_set R C m r c v r' c' :
  is_mat R C m → (r < R)%nat → (c < C)%nat → (c' < C)%nat →
  gf_matrix_get (gf_matrix_set m r c v) r' c'
  = if decide (r' = r ∧ c' = c) then v else gf_matrix_get m r' c'.
Proof.
  intros (HR & HC & Hw) Hr Hc Hc'. unfold gf_matrix_get, gf_matrix_set. cbn.
  unfold mat_wf in Hw. subst R C.
  rewrite rd_wr by (rewrite Hw; by apply flat_index_lt).
  repeat case_decide; try done.
  - destruct (flat_index_inj (cols m) r' c' r c) as [-> ->]; auto. tauto.
  - destruct_and!. subst. done.
Qed.

(** Two matrices of the same shape with the same entries are equal. *)
Lemma mat_ext R C a b :
  is_mat R C a → is_mat R C b →
  (∀ r c, (r < R)%nat → (c < C)%nat → gf_matrix_get a r c = gf_matrix_get b r c) →
  a = b.
Proof.
  destruct a as [ra ca da], b as [rb cb db].
  intros (? & ? & Ha) (? & ? & Hb) Hg. unfold mat_wf in *. cbn in *. subst.
  f_equal. apply (rd_ext x00); [lia|]. intros i Hi.
  rewrite Ha in Hi. destruct (decide (C = 0%nat)) as [->|]; [lia|].
  specialize (Hg (i / C)%nat (i mod C)%nat). unfold gf_matrix_get in Hg. cbn in Hg.
  rewrite Nat.mul_comm, <-Nat.div_mod_eq in Hg. apply Hg.
  - apply Nat.Div0.div_lt_upper_bound. lia.
  - by apply Nat.mod_upper_bound.
Qed.

(** ** Finite sums *)

Lemma gsum_S n f : gsum (S n) f = gf_add (gsum n f) (f n).
Proof. unfold gsum. by rewrite for_range_S. Qed.

Lemma gsum_S_l n f : gsum (S n) f = gf_add (f O) (gsum n (λ i, f (S i))).
Proof.
  induction n as [|n IH]; [apply bxor_comm|]. rewrite gsum_S, IH, gsum_S. ring.
Qed.

Lemma gsum_ext n f g : (∀ i, (i < n)%nat → f i = g i) → gsum n f = gsum n g.
Proof.
  intros H. unfold gsum. apply for_range_ext. intros. rewrite H; [done|lia].
Qed.

Lemma gsum_zero n f : (∀ i, (i < n)%nat → f i = x00) → gsum n f = x00.
Proof.
  intros H. induction n as [|n IH]; [done|].
  rewrite gsum_S, H by lia. rewrite IH by (intros; apply H; lia). done.
Qed.

Lemma gsum_add n f g :
  gsum n (λ i, gf_add (f i) (g i)) = gf_add (gsum n f) (gsum n g).
Proof.
  induction n as [|n IH]; [done|]. rewrite !gsum_S, IH. ring.
Qed.

Lemma gsum_mul_l n a f : gsum n (λ i, gf_mul a (f i)) = gf_mul a (gsum n f).
Proof.
  induction n as [|n IH]; [by rewrite gf_mul_0_r|]. rewrite !gsum_S, IH. ring.
Qed.

Lemma gsum_mul_r n a f : gsum n (λ i, gf_mul (f i) a) = gf_mul (gsum n f) a.
Proof.
  rewrite gf_mul_comm, <-gsum_mul_l. apply gsum_ext. intros. apply gf_mul_comm.
Qed.

Lemma gsum_swap n m f :
  gsum n (λ i, gsum m (λ j, f i j)) = gsum m (λ j, gsum n (λ i, f i j)).
Proof.
  induction n as [|n IH].
  - symmetry. by apply gsum_zero.
  - rewrite gsum_S, IH, <-gsum_add. apply gsum_ext. intros. by rewrite gsum_S.
Qed.

(** A sum with one nonzero term. *)
Lemma gsum_single n f k :
  (k < n)%nat → (∀ i, (i < n)%nat → i ≠ k → f i = x00) → gsum n f = f k.
Proof.
  revert k. induction n as [|n IH]; intros k Hk H; [lia|]. rewrite gsum_S.
  destruct (decide (k = n)) as [->|].
  - rewrite gsum_zero by (intros; apply H; lia). ring.
  - rewrite (IH k), (H n) by (intros; try apply H; lia). ring.
Qed.

(** A sum with two nonzero terms. *)
Lemma gsum_pair n f u v :
  (u < v)%nat → (v < n)%nat →
  (∀ i, (i < n)%nat → i ≠ u → i ≠ v → f i = x00) → gsum n f = gf_add (f u) (f v).
Proof.
  revert v. induction n as [|n IH]; intros v Huv Hv H; [lia|]. rewrite gsum_S.
  destruct (decide (v = n)) as [->|].
  - rewrite (gsum_single n f u) by (intros; try apply H; lia). done.
  - rewrite (IH v), (H n) by (intros; try apply H; lia). ring.
Qed.

Definition delta (i j : nat) : byte := if decide (i = j) then x01 else x00.

Lemma gsum_delta_l n f k : (k < n)%nat → gsum n (λ i, gf_mul (delta k i) (f i)) = f k.
Proof.
  intros Hk. rewrite (gsum_single n _ k Hk).
  - unfold delta. case_decide; [|done]. ring.
  - intros i Hi Hne. unfold delta. case_decide; [congruence|]. ring.
Qed.

Lemma gsum_delta_r n f k : (k < n)%nat → gsum n (λ i, gf_mul (f i) (delta i k)) = f k.
Proof.
  intros Hk. rewrite (gsum_single n _ k Hk).
  - unfold delta. case_decide; [|done]. ring.
  - intros i Hi Hne. unfold delta. case_decide; [congruence|]. ring.
Qed.

(** ** Row operations

    A step of the elimination rewrites every column by the same linear,
    injective map of its rows. *)

Class RowOp (n : nat) (g : (nat → byte) → nat → byte) : Prop := {
  rop_ext : ∀ v v' r, (∀ i, (i < n)%nat → v i = v' i) → (r < n)%nat → g v r = g v' r;
  rop_lin : ∀ k A x r, (r < n)%nat →
    g (λ i, gsum k (λ j, gf_mul (A i j) (x j))) r
    = gsum k (λ j, gf_mul (g (λ i, A i j) r) (x j));
  rop_inj : ∀ v, (∀ r, (r < n)%nat → g v r = x00) → ∀ r, (r < n)%nat → v r = x00;
}.

Definition op_swap (a b : nat) (v : nat → byte) (r : nat) : byte :=
  if decide (r = a) then v b else if decide (r = b) then v a else v r.
Definition op_scale (a : nat) (s : byte) (v : nat → byte) (r : nat) : byte :=
  if decide (r = a) then gf_mul (v r) s else v r.
Definition op_elim (a row : nat) (f : byte) (v : nat → byte) (r : nat) : byte :=
  if decide (r = row) then gf_sub (v r) (gf_mul f (v a)) else v r.

Lemma rop_zero n g (H : RowOp n g) v r :
  (∀ i, (i < n)%nat → v i = x00) → (r < n)%nat → g v r = x00.
Proof.
  intros Hv Hr. rewrite (rop_ext v (λ _, gsum 0 (λ j, gf_mul x00 x00))) by done.
  by rewrite (rop_lin 0 (λ _ _, x00) (λ _, x00)).
Qed.

#[export] Instance row_op_id n : RowOp n (λ v r, v r).
Proof. constructor; auto. Qed.

#[export] Instance row_op_comp n g h :
  RowOp n g → RowOp n h → RowOp n (λ v, h (g v)).
Proof.
  intros Hg Hh. constructor.
  - intros v v' r Hv Hr. apply rop_ext; [|done]. intros. by apply rop_ext.
  - intros k A x r Hr. rewrite <-(rop_lin k (λ i j, g (λ i', A i' j) i)) by done.
    apply rop_ext; [|done]. intros. by apply rop_lin.
  - intros v H. apply (rop_inj (g := g)). by apply (rop_inj (g := h)).
Qed.

#[export] Instance row_op_swap n a b :
  (a < n)%nat → (b < n)%nat → RowOp n (op_swap a b).
Proof.
  intros Ha Hb. unfold op_swap. constructor.
  - intros v v' r Hv Hr. repeat case_decide; auto.
  - intros k A x r Hr. by repeat case_decide.
  - intros v H r Hr. pose proof (H a Ha) as H1. pose proof (H b Hb) as H2.
    pose proof (H r Hr) as H3. repeat case_decide; congruence.
Qed.

#[export] Instance row_op_scale n a s : s ≠ x00 → RowOp n (op_scale a s).
Proof.
  intros Hs. unfold op_scale. constructor.
  - intros v v' r Hv Hr. case_decide; [f_equal|]; auto.
  - intros k A x r Hr. case_decide; [|done]. rewrite <-gsum_mul_r.
    apply gsum_ext. intros. ring.
  - intros v H r Hr. specialize (H r Hr). case_decide; [|done].
    by apply gf_mul_eq_0 in H as [?|?].
Qed.

#[export] Instance row_op_elim n a row f :
  (a < n)%nat → a ≠ row → RowOp n (op_elim a row f).
Proof.
  intros Ha Hne. unfold op_elim. constructor.
  - intros v v' r Hv Hr. case_decide; [|auto]. by rewrite !Hv.
  - intros k A x r Hr. case_decide; [|done].
    rewrite <-gsum_mul_l. change gf_sub with gf_add. rewrite <-gsum_add.
    apply gsum_ext. intros. ring.
  - intros v H r Hr. pose proof (H r Hr) as H1. pose proof (H a Ha) as H2.
    rewrite decide_False in H2 by done. case_decide; [|done].
    rewrite H2, gf_mul_0_r in H1. by apply gf_add_eq_0 in H1.
Qed.

(** ** The loops of the elimination are row operations *)

Lemma for_range_pair {S} lo n (f : nat → S → S) (s : S * S) :
  for_range lo n (λ j s, (f j (fst s), f j (snd s))) s
  = (for_range lo n f (fst s), for_range lo n f (snd s)).
Proof.
  induction n as [|n IH]; [by destruct s|]. by rewrite !for_range_S, IH.
Qed.

Definition applies (n : nat) (g : (nat → byte) → nat → byte) (m m' : gf_matrix) : Prop :=
  is_mat n n m' ∧
  ∀ r c, (r < n)%nat → (c < n)%nat →
    gf_matrix_get m' r c = g (λ i, gf_matrix_get m i c) r.

(** A loop over the columns that rewrites column [j] by [g]. *)
Lemma column_loop n g (f : nat → gf_matrix → gf_matrix) m :
  RowOp n g → is_mat n n m →
  (∀ j m, is_mat n n m → (j < n)%nat →
     is_mat n n (f j m) ∧
     ∀ r c, (r < n)%nat → (c < n)%nat → gf_matrix_get (f j m) r c
       = if decide (c = j) then g (λ i, gf_matrix_get m i c) r else gf_matrix_get m r c) →
  applies n g m (for_range 0 n f m).
Proof.
  intros Hg Hm Hf.
  assert (H : is_mat n n (for_range 0 n f m) ∧
    ∀ r c, (r < n)%nat → (c < n)%nat → gf_matrix_get (for_range 0 n f m) r c
      = if (c <? n)%nat then g (λ i, gf_matrix_get m i c) r else gf_matrix_get m r c).
  { apply (for0_ind (λ j s, is_mat n n s ∧
      ∀ r c, (r < n)%nat → (c < n)%nat → gf_matrix_get s r c
        = if (c <? j)%nat then g (λ i, gf_matrix_get m i c) r else gf_matrix_get m r c)).
    - done.
    - intros j s Hj [Hs IH]. destruct (Hf j s Hs Hj) as [Hs' Hf'].
      split; [done|]. intros r c Hr Hc. rewrite Hf' by done.
      case_decide as Hcj.
      + subst c. destruct (Nat.ltb_spec j (S j)); [|lia].
        apply rop_ext; [|done]. intros i Hi. rewrite IH by done.
        destruct (Nat.ltb_spec j j); [lia|done].
      + rewrite IH by done.
        destruct (Nat.ltb_spec c j), (Nat.ltb_spec c (S j)); try lia; done. }
  destruct H as [H1 H2]. split; [done|]. intros r c Hr Hc. rewrite H2 by done.
  destruct (Nat.ltb_spec c n); [done|lia].
Qed.

Definition applies2 n g (s s' : gf_matrix * gf_matrix) : Prop :=
  applies n g (fst s) (fst s') ∧ applies n g (snd s) (snd s').

Definition mats2 n (s : gf_matrix * gf_matrix) : Prop :=
  is_mat n n (fst s) ∧ is_mat n n (snd s).

Lemma applies2_trans n g h s1 s2 s3 :
  RowOp n g → RowOp n h →
  applies2 n g s1 s2 → applies2 n h s2 s3 → applies2 n (λ v, h (g v)) s1 s3.
Proof.
  intros Hg Hh [[_ H12] [_ K12]] [[Hm H23] [Km K23]].
  split; (split; [done|]); intros r c Hr Hc.
  - rewrite H23 by done. apply rop_ext; [|done]. intros. by apply H12.
  - rewrite K23 by done. apply rop_ext; [|done]. intros. by apply K12.
Qed.

Lemma swap_rows_applies n a b s :
  (a < n)%nat → (b < n)%nat → a ≠ b → mats2 n s →
  applies2 n (op_swap a b) s (swap_rows n a b s).
Proof.
  intros Ha Hb Hab [H1 H2].
  set (f := λ j m, gf_matrix_set (gf_matrix_set m a j (gf_matrix_get m b j)) b j
                     (gf_matrix_get m a j)).
  assert (E : swap_rows n a b s = (for_range 0 n f (fst s), for_range 0 n f (snd s))).
  { rewrite <-for_range_pair. unfold swap_rows. apply for_range_ext. by intros i [w o] _. }
  assert (Hf : ∀ j m, is_mat n n m → (j < n)%nat → is_mat n n (f j m) ∧
     ∀ r c, (r < n)%nat → (c < n)%nat → gf_matrix_get (f j m) r c
       = if decide (c = j) then op_swap a b (λ i, gf_matrix_get m i c) r
         else gf_matrix_get m r c).
  { intros j m Hm Hj. subst f. cbn. split; [by repeat apply is_mat_set|].
    intros r c Hr Hc. unfold op_swap.
    rewrite !(get_set n n) by (try apply is_mat_set; done).
    repeat case_decide; destruct_and?; subst; try done; tauto. }
  rewrite E. split; cbn; (apply column_loop; [by apply row_op_swap|done|done]).
Qed.

Lemma scale_row_applies n a inv s :
  (a < n)%nat → inv ≠ x00 → mats2 n s →
  applies2 n (op_scale a inv) s (scale_row n a inv s).
Proof.
  intros Ha Hinv [H1 H2].
  set (f := λ j m, gf_matrix_set m a j (gf_mul (gf_matrix_get m a j) inv)).
  assert (E : scale_row n a inv s = (for_range 0 n f (fst s), for_range 0 n f (snd s))).
  { rewrite <-for_range_pair. unfold scale_row. apply for_range_ext. by intros i [w o] _. }
  assert (Hf : ∀ j m, is_mat n n m → (j < n)%nat → is_mat n n (f j m) ∧
     ∀ r c, (r < n)%nat → (c < n)%nat → gf_matrix_get (f j m) r c
       = if decide (c = j) then op_scale a inv (λ i, gf_matrix_get m i c) r
         else gf_matrix_get m r c).
  { intros j m Hm Hj. subst f. cbn. split; [by apply is_mat_set|].
    intros r c Hr Hc. unfold op_scale. rewrite (get_set n n) by done.
    repeat case_decide; destruct_and?; subst; try done; tauto. }
  rewrite E. split; cbn; (apply column_loop; [by apply row_op_scale|done|done]).
Qed.

Lemma eliminate_row_applies n a row factor s :
  (a < n)%nat → (row < n)%nat → a ≠ row → mats2 n s →
  applies2 n (op_elim a row factor) s (eliminate_row n a row factor s).
Proof.
  intros Ha Hrow Hne [H1 H2].
  set (f := λ j m, gf_matrix_set m row j
     (gf_sub (gf_matrix_get m row j) (gf_mul factor (gf_matrix_get m a j)))).
  assert (E : eliminate_row n a row factor s
              = (for_range 0 n f (fst s), for_range 0 n f (snd s))).
  { rewrite <-for_range_pair. unfold eliminate_row. apply for_range_ext.
    by intros i [w o] _. }
  assert (Hf : ∀ j m, is_mat n n m → (j < n)%nat → is_mat n n (f j m) ∧
     ∀ r c, (r < n)%nat → (c < n)%nat → gf_matrix_get (f j m) r c
       = if decide (c = j) then op_elim a row factor (λ i, gf_matrix_get m i c) r
         else gf_matrix_get m r c).
  { intros j m Hm Hj. subst f. cbn. split; [by apply is_mat_set|].
    intros r c Hr Hc. unfold op_elim. rewrite (get_set n n) by done.
    repeat case_decide; destruct_and?; subst; try done; tauto. }
  rewrite E. split; cbn; (apply column_loop; [by apply row_op_elim|done|done]).
Qed.

Lemma applies2_mats n g s s' : applies2 n g s s' → mats2 n s'.
Proof. intros [[? _] [? _]]. done. Qed.

Lemma applies2_refl n s : mats2 n s → applies2 n (λ v r, v r) s s.
Proof. intros [? ?]. done. Qed.

Lemma eliminate_rows_applies n col s :
  (col < n)%nat → mats2 n s →
  (∃ g, RowOp n g ∧ applies2 n g s (eliminate_rows n col s)) ∧
  ∀ r c, (r < n)%nat → (c < n)%nat →
    gf_matrix_get (fst (eliminate_rows n col s)) r c
    = if decide (r = col) then gf_matrix_get (fst s) r c
      else gf_sub (gf_matrix_get (fst s) r c)
             (gf_mul (gf_matrix_get (fst s) r col) (gf_matrix_get (fst s) col c)).
Proof.
  intros Hcol Hs. set (W := gf_matrix_get (fst s)).
  set (inv := λ k s', (∃ g, RowOp n g ∧ applies2 n g s s') ∧
    ∀ r c, (r < n)%nat → (c < n)%nat → gf_matrix_get (fst s') r c
      = if decide (r ≠ col ∧ (r < k)%nat) then gf_sub (W r c) (gf_mul (W r col) (W col c))
        else W r c).
  assert (H : inv n (eliminate_rows n col s)).
  { apply (for0_ind inv); unfold inv.
    - split; [exists (λ v r, v r); split; [apply _|by apply applies2_refl]|].
      intros r c Hr Hc. case_decide; [lia|done].
    - intros row s' Hrow [(g & Hg & Hap) Hent].
      destruct (Nat.eqb_spec row col) as [->|Hne].
      { split; [by eauto|]. intros r c Hr Hc. rewrite Hent by done.
        repeat case_decide; first [lia|done]. }
      rewrite (Hent row col) by lia. rewrite decide_False by lia.
      destruct (byte_eqb_spec (W row col) x00) as [H0|H0].
      { split; [by eauto|]. intros r c Hr Hc. rewrite Hent by done.
        repeat case_decide; try done; try lia.
        replace r with row by lia. rewrite H0, gf_mul_0_l. symmetry. apply bxor_0_r. }
      pose proof (eliminate_row_applies n col row (W row col) s' Hcol Hrow
        (not_eq_sym Hne) (applies2_mats _ _ _ _ Hap)) as Hel.
      pose proof (row_op_elim n col row (W row col) Hcol (not_eq_sym Hne)) as Hop.
      split.
      { exists (λ v, op_elim col row (W row col) (g v)). split; [by apply row_op_comp|].
        by eapply applies2_trans. }
      intros r c Hr Hc. destruct Hel as [[_ Hel] _]. rewrite Hel by done.
      unfold op_elim. rewrite !Hent by done.
      repeat case_decide; subst; first [lia|done]. }
  destruct H as [H1 H2]. split; [done|]. intros r c Hr Hc. rewrite H2 by done.
  repeat case_decide; first [lia|done].
Qed.

Lemma find_pivot_spec work n col :
  (col <= n)%nat →
  match find_pivot work n col with
  | None => ∀ r, (col <= r < n)%nat → gf_matrix_get work r col = x00
  | Some p => (col <= p < n)%nat ∧ gf_matrix_get work p col ≠ x00
  end.
Proof.
  intros Hcol. unfold find_pivot.
  pose proof (for_break_ind
    (λ k (_ : unit), ∀ r, (col <= r < k)%nat → gf_matrix_get work r col = x00)
    (λ p, (col <= p < n)%nat ∧ gf_matrix_get work p col ≠ x00)
    col (n - col) (λ row (_ : unit),
      if byte_eqb (gf_matrix_get work row col) x00 then inl tt else inr row) tt) as H.
  replace (col + (n - col))%nat with n in H by lia.
  destruct (for_break _ _ _ _) as [[]|p]; apply H; clear H; try (intros; lia).
  all: intros i [] Hi IH; destruct (byte_eqb_spec (gf_matrix_get work i col) x00);
    [|split; [lia|done]]; intros r Hr; destruct (decide (r = i)) as [->|];
    [done|apply IH; lia].
Qed.

(** The first [k] columns are those of the identity. *)
Definition unit_cols (n k : nat) (m : gf_matrix) : Prop :=
  ∀ r c, (r < n)%nat → (c < k)%nat → gf_matrix_get m r c = delta r c.

Lemma delta_neq i j : i ≠ j → delta i j = x00.
Proof. intros. unfold delta. by rewrite decide_False. Qed.

Lemma delta_eq i : delta i i = x01.
Proof. unfold delta. by rewrite decide_True. Qed.

(** A column of the elimination: a row operation that clears the column, or the
    column has no pivot. *)
Lemma invert_column_spec n col s :
  (col < n)%nat → mats2 n s → unit_cols n col (fst s) →
  match invert_column n col s with
  | inl s' => (∃ g, RowOp n g ∧ applies2 n g s s') ∧ unit_cols n (S col) (fst s')
  | inr _ => ∀ r, (col <= r < n)%nat → gf_matrix_get (fst s) r col = x00
  end.
Proof.
  intros Hcol Hs Hunit. unfold invert_column.
  pose proof (find_pivot_spec (fst s) n col ltac:(lia)) as Hp.
  destruct (find_pivot (fst s) n col) as [p|]; [|done]. destruct Hp as [Hp Hpnz].
  set (s1 := if negb (p =? col)%nat then swap_rows n col p s else s).
  assert (H1 : (∃ g, RowOp n g ∧ applies2 n g s s1) ∧ unit_cols n col (fst s1) ∧
               gf_matrix_get (fst s1) col col ≠ x00).
  { subst s1. destruct (Nat.eqb_spec p col) as [->|Hne]; cbn.
    - split; [|done]. exists (λ v r, v r). split; [apply _|by apply applies2_refl].
    - pose proof (swap_rows_applies n col p s Hcol ltac:(lia) (not_eq_sym Hne) Hs) as Hsw.
      split; [eexists; split; [|exact Hsw]; apply row_op_swap; lia|].
      destruct Hsw as [[_ Hsw] _]. split.
      + intros r c Hr Hc. rewrite Hsw by lia. unfold op_swap.
        repeat case_decide; subst; rewrite Hunit by lia; [|..|done];
          rewrite !delta_neq by lia; done.
      + rewrite Hsw by lia. unfold op_swap. by rewrite decide_True. }
  clearbody s1. destruct H1 as ((g1 & Hg1 & Ha1) & Hu1 & Hnz).
  set (piv := gf_matrix_get (fst s1) col col) in *.
  assert (Hinv : gf_inv piv ≠ x00).
  { intros E. pose proof (gf_mul_inv_l piv Hnz) as H. rewrite E in H. done. }
  pose proof (scale_row_applies n col (gf_inv piv) s1 Hcol Hinv
    (applies2_mats _ _ _ _ Ha1)) as Ha2.
  set (s2 := scale_row n col (gf_inv piv) s1) in *. clearbody s2.
  assert (Hs2 : ∀ r c, (r < n)%nat → (c < n)%nat → gf_matrix_get (fst s2) r c
    = op_scale col (gf_inv piv) (λ i, gf_matrix_get (fst s1) i c) r) by apply Ha2.
  destruct (eliminate_rows_applies n col s2 Hcol (applies2_mats _ _ _ _ Ha2))
    as [(g3 & Hg3 & Ha3) Hent].
  split.
  - pose proof (row_op_scale n col _ Hinv) as Hg2.
    pose proof (row_op_comp n g1 _ Hg1 Hg2) as Hg12.
    exists (λ v, g3 (op_scale col (gf_inv piv) (g1 v))).
    split; [exact (row_op_comp n _ g3 Hg12 Hg3)|].
    apply (applies2_trans n (λ v, op_scale col (gf_inv piv) (g1 v)) g3 _ s2);
      [done|done| |done].
    by apply (applies2_trans n g1 _ _ s1).
  - intros r c Hr Hc. rewrite Hent, !Hs2 by lia. unfold op_scale.
    rewrite (decide_True (P := col = col)) by done.
    destruct (decide (c = col)) as [->|].
    + fold piv. case_decide.
      * subst r. fold piv. by rewrite gf_mul_inv_r, delta_eq.
      * rewrite gf_mul_inv_r, gf_mul_1_r, delta_neq by done. apply bxor_nilpotent.
    + rewrite (Hu1 r c), (Hu1 col c), (delta_neq col c) by lia.
      rewrite gf_mul_0_l, gf_mul_0_r. case_decide.
      * subst. by rewrite delta_neq by lia.
      * apply bxor_0_r.
Qed.

(** ** Inversion *)

Definition mat_vec (k : nat) (A : nat → nat → byte) (x : nat → byte) (r : nat) : byte :=
  gsum k (λ i, gf_mul (A r i) (x i)).

Definition in_kernel (n k : nat) (A : nat → nat → byte) (x : nat → byte) : Prop :=
  ∀ r, (r < n)%nat → mat_vec k A x r = x00.

Definition trivial_kernel (n k : nat) (A : nat → nat → byte) : Prop :=
  ∀ x, in_kernel n k A x → ∀ i, (i < k)%nat → x i = x00.

Lemma applies_kernel n g m m' x :
  RowOp n g → applies n g m m' →
  in_kernel n n (gf_matrix_get m') x ↔ in_kernel n n (gf_matrix_get m) x.
Proof.
  intros Hg [_ H].
  assert (E : ∀ r, (r < n)%nat → mat_vec n (gf_matrix_get m') x r
    = g (mat_vec n (gf_matrix_get m) x) r).
  { intros r Hr. unfold mat_vec. rewrite rop_lin by done. apply gsum_ext.
    intros i Hi. by rewrite H. }
  split; intros Hk r Hr.
  - revert r Hr. apply (rop_inj (g := g)). intros r Hr. rewrite <-E by done. by apply Hk.
  - rewrite E by done. by apply (rop_zero n g Hg).
Qed.

(** A column without a pivot gives a nonzero vector of the kernel. *)
Lemma no_pivot_kernel n col m :
  (col < n)%nat → unit_cols n col m →
  (∀ r, (col <= r < n)%nat → gf_matrix_get m r col = x00) →
  ∃ x, in_kernel n n (gf_matrix_get m) x ∧ ∃ i, (i < n)%nat ∧ x i ≠ x00.
Proof.
  intros Hcol Hu Hz.
  set (x := λ i, if decide (i < col)%nat then gf_matrix_get m i col else delta i col).
  assert (Hx : x col = x01) by (unfold x; rewrite decide_False by lia; apply delta_eq).
  exists x. split; [|exists col; by rewrite Hx].
  intros r Hr. unfold mat_vec.
  assert (Hout : ∀ i, (i < n)%nat → i ≠ r → i ≠ col →
    gf_mul (gf_matrix_get m r i) (x i) = x00).
  { intros i Hi Hir Hic. unfold x. case_decide.
    - rewrite Hu, delta_neq by lia. apply gf_mul_0_l.
    - rewrite delta_neq by done. apply gf_mul_0_r. }
  destruct (decide (r < col)%nat) as [Hlt|Hge].
  - rewrite (gsum_pair n _ r col) by (done || lia). rewrite Hx, gf_mul_1_r, Hu by lia.
    unfold x. rewrite delta_eq, gf_mul_1_l, decide_True by done. apply gf_add_self.
  - apply gsum_zero. intros i Hi. destruct (decide (i = col)) as [->|].
    + rewrite Hz by lia. apply gf_mul_0_l.
    + destruct (decide (i = r)) as [->|]; [|by apply Hout].
      unfold x. rewrite decide_False, delta_neq by done. apply gf_mul_0_r.
Qed.

Lemma identity_loop n m :
  is_mat n n m → (∀ r c, gf_matrix_get m r c = x00) →
  let out := for_range 0 n (λ i out, gf_matrix_set out i i x01) m in
  is_mat n n out ∧
  ∀ r c, (r < n)%nat → (c < n)%nat → gf_matrix_get out r c = delta r c.
Proof.
  intros Hm Hz out.
  set (inv := λ k s, is_mat n n s ∧ ∀ r c, (r < n)%nat → (c < n)%nat →
    gf_matrix_get s r c = if decide (r = c ∧ (r < k)%nat) then x01 else x00).
  assert (H : inv n out).
  { apply (for0_ind inv); unfold inv.
    - split; [done|]. intros r c _ _. case_decide; [lia|apply Hz].
    - intros i s Hi [Hs IH]. split; [by apply is_mat_set|]. intros r c Hr Hc.
      rewrite (get_set n n), IH by done. repeat case_decide; first [lia|done]. }
  destruct H as [H1 H2]. split; [done|]. intros r c Hr Hc. rewrite H2 by done.
  unfold delta. repeat case_decide; first [lia|done].
Qed.

(** The elimination loop: a row operation that turns [m] into the identity, or a
    nonzero vector of the kernel. *)
Lemma invert_loop n m id :
  is_mat n n m → is_mat n n id →
  match for_break 0 n (invert_column n) (m, id) with
  | inl s => ∃ g, RowOp n g ∧ applies n g m (fst s) ∧ applies n g id (snd s) ∧
                  unit_cols n n (fst s)
  | inr _ => ∃ x, in_kernel n n (gf_matrix_get m) x ∧ ∃ i, (i < n)%nat ∧ x i ≠ x00
  end.
Proof.
  intros Hm Hid.
  pose proof (for_break_ind
    (λ k s, (∃ g, RowOp n g ∧ applies2 n g (m, id) s) ∧ unit_cols n k (fst s))
    (λ _, ∃ x, in_kernel n n (gf_matrix_get m) x ∧ ∃ i, (i < n)%nat ∧ x i ≠ x00)
    0 n (invert_column n) (m, id)) as Hloop.
  assert (Hstep : ∀ i s', (0 <= i < 0 + n)%nat →
    (∃ g, RowOp n g ∧ applies2 n g (m, id) s') ∧ unit_cols n i (fst s') →
    match invert_column n i s' with
    | inl s'' => (∃ g, RowOp n g ∧ applies2 n g (m, id) s'') ∧ unit_cols n (S i) (fst s'')
    | inr _ => ∃ x, in_kernel n n (gf_matrix_get m) x ∧ ∃ i, (i < n)%nat ∧ x i ≠ x00
    end).
  { intros i s' Hi [(g & Hg & Hap) Hu].
    pose proof (invert_column_spec n i s' ltac:(lia) (applies2_mats _ _ _ _ Hap) Hu) as H.
    destruct (invert_column n i s') as [s''|o].
    - destruct H as [(h & Hh & Hap') Hu']. split; [|done].
      exists (λ v, h (g v)). split; [by apply (row_op_comp n g h)|].
      by apply (applies2_trans n g h _ s').
    - destruct (no_pivot_kernel n i (fst s') ltac:(lia) Hu H) as (x & Hx & Hnz).
      exists x. split; [|done]. destruct Hap as [Hap _].
      by apply (applies_kernel n g m (fst s')). }
  specialize (λ H, Hloop H Hstep). destruct (for_break _ _ _ _) as [s|o].
  - destruct Hloop as [(g & Hg & [Hg1 Hg2]) Hu]; [|by exists g].
    split; [exists (λ v r, v r); split; [apply _|by apply applies2_refl]|].
    intros r c ? ?; lia.
  - apply Hloop.
    split; [exists (λ v r, v r); split; [apply _|by apply applies2_refl]|].
    intros r c ? ?; lia.
Qed.

(** A matrix with the entries of the identity has a trivial kernel. *)
Lemma delta_kernel n A :
  (∀ r c, (r < n)%nat → (c < n)%nat → A r c = delta r c) → trivial_kernel n n A.
Proof.
  intros HA x Hx i Hi. rewrite <-(Hx i Hi). unfold mat_vec.
  rewrite <-(gsum_delta_l n x i Hi) at 1. apply gsum_ext. intros. by rewrite HA.
Qed.

(** What [gf_matrix_invert] computes: the elimination succeeds with a left
    inverse obtained from the identity by row operations, or it stops on a
    singular matrix. *)
Lemma gf_matrix_invert_spec n m out :
  (0 < n)%nat → is_mat n n m → is_mat n n out →
  (∃ out', gf_matrix_invert m out = (0%Z, out') ∧ is_mat n n out' ∧
     (∀ r c, (r < n)%nat → (c < n)%nat →
        mat_vec n (gf_matrix_get out') (λ i, gf_matrix_get m i c) r = delta r c) ∧
     trivial_kernel n n (gf_matrix_get out') ∧ trivial_kernel n n (gf_matrix_get m)) ∨
  (∃ out', gf_matrix_invert m out = ((- EINVAL)%Z, out') ∧
     ∃ x, in_kernel n n (gf_matrix_get m) x ∧ ∃ i, (i < n)%nat ∧ x i ≠ x00).
Proof.
  intros Hn Hm Hout. pose proof Hm as (Hmr & Hmc & Hmw).
  pose proof Hout as (Hor & Hoc & How). unfold mat_wf in *.
  unfold gf_matrix_invert. rewrite Hmr, Hmc, Hor, Hoc, Nat.eqb_refl. cbn [negb orb].
  destruct (gf_matrix_create_some n n Hn Hn) as [work Hwork]. rewrite Hwork.
  destruct (is_mat_create n n work Hwork) as [(Hwr & Hwc & Hww) _]. unfold mat_wf in Hww.
  rewrite Hwr, Hwc, splice_all by (rewrite length_take; nia).
  rewrite take_ge by nia.
  rewrite splice_all by (rewrite length_replicate; nia).
  replace (mk_gf_matrix n n (data m)) with m by (destruct m; cbn in *; congruence).
  destruct (identity_loop n (mk_gf_matrix n n (replicate (n * n) x00))) as [Hid Hdelta].
  { repeat split. unfold mat_wf. cbn. by rewrite length_replicate. }
  { intros. apply rd_replicate. }
  set (id := for_range 0 n _ _) in *. clearbody id.
  pose proof (invert_loop n m id Hm Hid) as Hloop.
  destruct (for_break 0 n (invert_column n) (m, id)) as [s|o].
  - left. exists (snd s). destruct Hloop as (g & Hg & Hg1 & Hg2 & Hu).
    split; [done|]. split; [apply Hg2|]. split; [|split].
    + intros r c Hr Hc. rewrite <-Hu by done.
      destruct Hg1 as [_ Hg1]. destruct Hg2 as [_ Hg2]. rewrite Hg1 by done.
      unfold mat_vec. etransitivity.
      { apply gsum_ext. intros i Hi. by rewrite Hg2. }
      rewrite <-(rop_lin n (gf_matrix_get id)) by done. apply rop_ext; [|done].
      intros i Hi. rewrite <-(gsum_delta_l n (λ i, gf_matrix_get m i c) i) by done.
      apply gsum_ext. intros j Hj. by rewrite Hdelta.
    + intros x Hx. apply (applies_kernel n g id (snd s) x Hg Hg2) in Hx.
      by apply (delta_kernel n (gf_matrix_get id) Hdelta).
    + intros x Hx. apply (applies_kernel n g m (fst s) x Hg Hg1) in Hx.
      by apply (delta_kernel n (gf_matrix_get (fst s))).
  - right. by exists o.
Qed.

(** ** Filling a matrix entry by entry *)

Definition fill_mat (R C : nat) (f : nat → nat → byte) (m : gf_matrix) : gf_matrix :=
  for_range 0 R (λ r m, for_range 0 C (λ c m, gf_matrix_set m r c (f r c)) m) m.

Lemma fill_row_spec R C r f m :
  is_mat R C m → (r < R)%nat →
  let m' := for_range 0 C (λ c m, gf_matrix_set m r c (f c)) m in
  is_mat R C m' ∧ ∀ r' c, (c < C)%nat →
    gf_matrix_get m' r' c = if (r' =? r)%nat then f c else gf_matrix_get m r' c.
Proof.
  intros Hm Hr m'.
  set (inv := λ k s, is_mat R C s ∧ ∀ r' c, (c < C)%nat → gf_matrix_get s r' c
    = if (r' =? r)%nat && (c <? k)%nat then f c else gf_matrix_get m r' c).
  assert (H : inv C m').
  { apply (for0_ind inv); unfold inv.
    - split; [done|]. intros r' c _. by rewrite andb_false_r.
    - intros i s Hi [Hs IH]. split; [by apply is_mat_set|]. intros r' c Hc.
      rewrite (get_set R C), IH by done.
      destruct (Nat.eqb_spec r' r), (Nat.ltb_spec c i), (Nat.ltb_spec c (S i));
        case_decide; cbn; destruct_and?; subst; first [lia|done|tauto|idtac]. }
  destruct H as [H1 H2]. split; [done|]. intros r' c Hc. rewrite H2 by done.
  destruct (Nat.ltb_spec c C); [|lia]. by rewrite andb_true_r.
Qed.

Lemma fill_mat_spec R C f m :
  is_mat R C m →
  is_mat R C (fill_mat R C f m) ∧ ∀ r c, (r < R)%nat → (c < C)%nat →
    gf_matrix_get (fill_mat R C f m) r c = f r c.
Proof.
  intros Hm.
  set (inv := λ k s, is_mat R C s ∧ ∀ r c, (r < k)%nat → (c < C)%nat →
    gf_matrix_get s r c = f r c).
  apply (for0_ind inv); unfold inv.
  - split; [done|]. intros; lia.
  - intros r s Hr [Hs IH]. destruct (fill_row_spec R C r (f r) s Hs Hr) as [H1 H2].
    split; [done|]. intros r' c Hr' Hc. rewrite H2 by done.
    destruct (Nat.eqb_spec r' r) as [->|]; [done|]. apply IH; lia.
Qed.

Lemma gf_matrix_mul_spec R K C a b out :
  is_mat R K a → is_mat K C b → is_mat R C out →
  ∃ o, gf_matrix_mul a b out = (0%Z, o) ∧ is_mat R C o ∧
    ∀ r c, (r < R)%nat → (c < C)%nat → gf_matrix_get o r c
      = mat_vec K (gf_matrix_get a) (λ i, gf_matrix_get b i c) r.
Proof.
  intros (Har & Hac & _) (Hbr & Hbc & _) Ho. pose proof Ho as (Hor & Hoc & _).
  unfold gf_matrix_mul. rewrite Har, Hac, Hbr, Hbc, Hor, Hoc, !Nat.eqb_refl.
  cbn [negb orb]. eexists. split; [done|]. by apply fill_mat_spec.
Qed.

(** Multiplying a product of matrices by a vector. *)
Lemma mat_vec_assoc k l A B x r :
  mat_vec k A (mat_vec l B x) r
  = mat_vec l (λ r c, mat_vec k A (λ i, B i c) r) x r.
Proof.
  unfold mat_vec.
  transitivity (gsum k (λ i, gsum l (λ j, gf_mul (A r i) (gf_mul (B i j) (x j))))).
  { apply gsum_ext. intros. by rewrite gsum_mul_l. }
  rewrite gsum_swap. apply gsum_ext. intros j Hj. rewrite <-gsum_mul_r.
  apply gsum_ext. intros. by rewrite gf_mul_assoc.
Qed.

Lemma mat_vec_ext k A B x y r :
  (∀ i, (i < k)%nat → A r i = B r i) → (∀ i, (i < k)%nat → x i = y i) →
  mat_vec k A x r = mat_vec k B y r.
Proof. intros HA Hx. apply gsum_ext. intros. by rewrite HA, Hx. Qed.

Lemma mat_vec_add k A x y r :
  mat_vec k A (λ i, gf_add (x i) (y i)) r = gf_add (mat_vec k A x r) (mat_vec k A y r).
Proof.
  unfold mat_vec. rewrite <-gsum_add. apply gsum_ext. intros. apply gf_mul_add_r.
Qed.

Lemma mat_vec_zero k A x r :
  (∀ i, (i < k)%nat → x i = x00) → mat_vec k A x r = x00.
Proof. intros H. apply gsum_zero. intros. rewrite H by done. apply gf_mul_0_r. Qed.

Lemma mat_vec_delta k A c r :
  (c < k)%nat → mat_vec k A (λ i, delta i c) r = A r c.
Proof. intros. by apply (gsum_delta_r k (A r)). Qed.

Lemma delta_mat_vec k x r :
  (r < k)%nat → mat_vec k delta x r = x r.
Proof. intros. by apply gsum_delta_l. Qed.

(** A left inverse with a trivial kernel is a right inverse too. *)
Lemma left_inverse_right n A B :
  (∀ r c, (r < n)%nat → (c < n)%nat → mat_vec n B (λ i, A i c) r = delta r c) →
  trivial_kernel n n B →
  ∀ r c, (r < n)%nat → (c < n)%nat → mat_vec n A (λ i, B i c) r = delta r c.
Proof.
  intros Hl Hk r c Hr Hc. apply gf_add_eq_0. revert r Hr.
  apply (Hk (λ r, gf_add (mat_vec n A (λ i, B i c) r) (delta r c))).
  intros r Hr. rewrite mat_vec_add, mat_vec_delta by done.
  rewrite (mat_vec_assoc n n B A).
  rewrite (mat_vec_ext n _ delta _ (λ i, B i c)) by (intros; done || by apply Hl).
  rewrite delta_mat_vec by done. apply gf_add_self.
Qed.

(** ** Polynomials and the Vandermonde matrix *)

Fixpoint peval (p : list byte) (x : byte) : byte :=
  match p with [] => x00 | c :: p' => gf_add c (gf_mul x (peval p' x)) end.

(** Synthetic division by [X - a]: remainder and quotient. *)
Fixpoint pdiv (p : list byte) (a : byte) : byte * list byte :=
  match p with
  | [] => (x00, [])
  | [c] => (c, [])
  | c :: p' => let '(r, q) := pdiv p' a in (gf_add c (gf_mul a r), r :: q)
  end.

Lemma pdiv_cons c c' p a :
  pdiv (c :: c' :: p) a
  = (gf_add c (gf_mul a (fst (pdiv (c' :: p) a))),
     fst (pdiv (c' :: p) a) :: snd (pdiv (c' :: p) a)).
Proof.
  change (pdiv (c :: c' :: p) a) with
    (let '(r, q) := pdiv (c' :: p) a in (gf_add c (gf_mul a r), r :: q)).
  by destruct (pdiv (c' :: p) a).
Qed.

Lemma pdiv_length p a : length (snd (pdiv p a)) = pred (length p).
Proof.
  induction p as [|c p IH]; [done|]. destruct p as [|c' p]; [done|].
  rewrite pdiv_cons. cbn [snd length pred] in *. by rewrite IH.
Qed.

Lemma pdiv_eval p a x :
  peval p x = gf_add (fst (pdiv p a)) (gf_mul (gf_sub x a) (peval (snd (pdiv p a)) x)).
Proof.
  induction p as [|c p IH]; [by cbn; rewrite gf_mul_0_r|].
  destruct p as [|c' p]; [cbn; ring|].
  rewrite pdiv_cons. change (peval (c :: c' :: p) x)
    with (gf_add c (gf_mul x (peval (c' :: p) x))). rewrite IH.
  cbn [fst snd peval]. ring.
Qed.

Lemma pdiv_zero p a :
  fst (pdiv p a) = x00 → Forall (eq x00) (snd (pdiv p a)) → Forall (eq x00) p.
Proof.
  induction p as [|c p IH]; [done|]. destruct p as [|c' p].
  - cbn. intros ->. by constructor.
  - rewrite pdiv_cons. cbn [fst snd].
    intros H1 [Hr Hq]%list.Forall_cons. constructor.
    + by rewrite <-Hr, gf_mul_0_r in H1; apply gf_add_eq_0 in H1.
    + by apply IH.
Qed.

(** A polynomial with as many distinct roots as coefficients is zero. *)
Lemma poly_roots p xs :
  NoDup xs → length xs = length p → (∀ x, x ∈ xs → peval p x = x00) →
  Forall (eq x00) p.
Proof.
  revert p. induction xs as [|a xs IH]; intros p Hnd Hl Hr.
  - by destruct p.
  - apply list.NoDup_cons in Hnd as [Hni Hnd].
    assert (H0 : fst (pdiv p a) = x00).
    { pose proof (Hr a ltac:(set_solver)) as H. rewrite (pdiv_eval p a a) in H.
      unfold gf_sub in H. by rewrite bxor_nilpotent, gf_mul_0_l in H;
        unfold gf_add in H; rewrite bxor_0_r in H. }
    apply (pdiv_zero p a H0). apply IH; [done| |].
    + rewrite pdiv_length. cbn in Hl. lia.
    + intros x Hx. pose proof (Hr x ltac:(set_solver)) as H.
      rewrite (pdiv_eval p a x), H0 in H. unfold gf_add in H. rewrite bxor_0_l in H.
      apply gf_mul_eq_0 in H as [H|H]; [|done].
      apply gf_add_eq_0 in H. subst. done.
Qed.

Lemma peval_gsum p x :
  peval p x = gsum (length p) (λ i, gf_mul (gpow x i) (rd x00 p i)).
Proof.
  induction p as [|c p IH]; [done|]. cbn [peval]. rewrite IH. clear IH.
  rewrite <-gsum_mul_l.
  change (length (c :: p)) with (S (length p)).
  rewrite gsum_S_l. cbn [gpow]. f_equal; [by rewrite gf_mul_1_l|].
  apply gsum_ext. intros i Hi. by rewrite gf_mul_assoc.
Qed.

(** Rows of powers of distinct points have a trivial kernel. *)
Lemma vandermonde_rows_kernel k (pt : nat → byte) :
  (∀ i j, (i < k)%nat → (j < k)%nat → pt i = pt j → i = j) →
  trivial_kernel k k (λ r c, gpow (pt r) c).
Proof.
  intros Hinj x Hx i Hi.
  set (p := map x (seq 0 k)).
  assert (Hlp : length p = k) by (unfold p; by rewrite length_map, length_seq).
  assert (Hrd : ∀ i, (i < k)%nat → rd x00 p i = x i).
  { intros j Hj. unfold p. rewrite (rd_map 0%nat) by (by rewrite length_seq).
    unfold rd. by rewrite seq_nth. }
  assert (H : Forall (eq x00) p).
  { apply (poly_roots p (map pt (seq 0 k))).
    - apply NoDup_ListNoDup. apply NoDup_map_NoDup_ForallPairs; [|apply seq_NoDup].
      intros a b Ha Hb. apply in_seq in Ha, Hb. apply Hinj; lia.
    - by rewrite length_map, length_seq.
    - intros y Hy. apply list_elem_of_In, in_map_iff in Hy as (r & <- & Hr).
      apply in_seq in Hr. rewrite peval_gsum, Hlp.
      etransitivity; [|exact (Hx r ltac:(lia))]. apply gsum_ext. intros j Hj.
      by rewrite Hrd. }
  rewrite <-(Hrd i Hi). rewrite Forall_lookup in H.
  symmetry. apply (H i). apply rd_lt. lia.
Qed.

Lemma gf_matrix_vandermonde_spec R C :
  (0 < R <= 255)%nat → (0 < C <= 256)%nat →
  ∃ m, gf_matrix_vandermonde R C = Some m ∧ is_mat R C m ∧
    ∀ r c, (r < R)%nat → (c < C)%nat →
      gf_matrix_get m r c = gpow (zb (Z.of_nat (r + 1))) c.
Proof.
  intros HR HC. unfold gf_matrix_vandermonde.
  destruct (gf_matrix_create_some R C) as [m Hm]; [lia..|]. rewrite Hm.
  eexists. split; [done|].
  destruct (is_mat_create _ _ _ Hm) as [Hmat _].
  destruct (fill_mat_spec R C
    (λ r c, gf_pow (zb (Z.of_nat (r + 1))) (zb (Z.of_nat c))) m Hmat) as [H1 H2].
  split; [exact H1|]. intros r c Hr Hc. etransitivity; [exact (H2 r c Hr Hc)|].
  rewrite gf_pow_gpow. f_equal. unfold bn. rewrite bz_zb, Z.mod_small; lia.
Qed.

(** The evaluation points 1..255 are distinct. *)
Lemma point_inj i j :
  (i < 255)%nat → (j < 255)%nat →
  zb (Z.of_nat (i + 1)) = zb (Z.of_nat (j + 1)) → i = j.
Proof.
  intros Hi Hj H. apply (f_equal bz) in H. rewrite !bz_zb, !Z.mod_small in H; lia.
Qed.

End Matrix.
