(* ===== verification/ReedSolomon.v ===== *)
(** * Reed-Solomon erasure encoding ([src/lib/ec/rs.c])

    The systematic encoding matrix, the table-driven inner loops in their
    scalar, NEON and SSSE3 forms, and [rs_encode], [rs_decode] and
    [ec_rs_create]. *)

From S2P Require Import Prelude.
From S2P Require Import Words.
From S2P Require Import GF256.
From S2P Require Import Matrix.
Import Words GF Matrix.

Module RS.

(** ** The encoding matrix *)

Definition build_encoding_matrix (k m : nat) : option gf_matrix :=
  if (m <=? 2)%nat then
    match gf_matrix_create (k + m) k with
    | None => None
    | Some enc =>
        let enc := for_range 0 k (λ r enc, gf_matrix_set enc r r x01) enc in
        let enc := for_range 0 k (λ c enc, gf_matrix_set enc k c x01) enc in
        if (m =? 2)%nat then
          Some (fst (for_range 0 k (λ c s,
            let '(enc, coef) := s in
            (gf_matrix_set enc (k + 1) c coef, gf_mul coef x02)) (enc, x01)))
        else Some enc
    end
  else
    match gf_matrix_vandermonde (k + m) k with
    | None => None
    | Some vand =>
        match gf_matrix_create k k with
        | None => None
        | Some top =>
            let top := for_range 0 k (λ r top,
              for_range 0 k (λ c top,
                gf_matrix_set top r c (gf_matrix_get vand r c)) top) top in
            match gf_matrix_create k k with
            | None => None
            | Some top_inv =>
                let '(ret, top_inv) := gf_matrix_invert top top_inv in
                if (ret <? 0)%Z then None
                else
                  match gf_matrix_create (k + m) k with
                  | None => None
                  | Some enc =>
                      let '(ret, enc) := gf_matrix_mul vand top_inv enc in
                      if (ret <? 0)%Z then None else Some enc
                  end
            end
        end
    end.

(** ** The inner loops

    The path the preprocessor selects. *)
Inductive simd_path := NEON | SSSE3 | SCALAR.

(** 16-byte vectors and the intrinsics the two SIMD paths use. *)
Definition vec_and (a b : list byte) : list byte :=
  zip_with (λ x y, zb (Z.land (bz x) (bz y))) a b.
Definition vec_xor (a b : list byte) : list byte := zip_with bxor a b.

Definition vqtbl1q_u8 (tbl idx : list byte) : list byte :=
  map (λ i, if (bn i <? 16)%nat then rd x00 tbl (bn i) else x00) idx.
Definition vshrq_n_u8 (a : list byte) (n : Z) : list byte :=
  map (λ b, zb (Z.shiftr (bz b) n)) a.

Definition mm_shuffle_epi8 (tbl idx : list byte) : list byte :=
  map (λ i, if Z.testbit (bz i) 7 then x00
            else rd x00 tbl (Z.to_nat (Z.land (bz i) 0xf))) idx.
(** Both 64-bit lanes shifted right. *)
Definition mm_srli_epi64 (a : list byte) (n : Z) : list byte :=
  le_split 8 (Z.shiftr (le_combine (take 8 a)) n) ++
  le_split 8 (Z.shiftr (le_combine (drop 8 a)) n).

Definition load16 (p : list byte) (off : nat) : list byte := take 16 (drop off p).

(** The product vector of one 16-byte block. *)
Definition prod16 (path : simd_path) (split_tbl dv : list byte) : list byte :=
  let lo_tbl := load16 split_tbl 0 in
  let hi_tbl := load16 split_tbl 16 in
  let low_mask := replicate 16 x0f in
  match path with
  | NEON =>
      let lo_idx := vec_and dv low_mask in
      let hi_idx := vshrq_n_u8 dv 4 in
      vec_xor (vqtbl1q_u8 lo_tbl lo_idx) (vqtbl1q_u8 hi_tbl hi_idx)
  | _ =>
      let lo_idx := vec_and dv low_mask in
      let hi_idx := vec_and (mm_srli_epi64 dv 4) low_mask in
      vec_xor (mm_shuffle_epi8 lo_tbl lo_idx) (mm_shuffle_epi8 hi_tbl hi_idx)
  end.

(** [rs_mul_add_16]: the number of bytes done and the updated [out]. *)
Definition rs_mul_add_16 (path : simd_path) (out inp split_tbl : list byte)
    (len : nat) (init : bool) : nat * list byte :=
  let done := (len / 16 * 16)%nat in  (* len & ~15 *)
  if (done =? 0)%nat then (O, out)
  else
    match path with
    | SCALAR => (O, out)
    | _ =>
        (done, for_range 0 (done / 16) (λ b out,
           let p := (16 * b)%nat in
           let prod := prod16 path split_tbl (load16 inp p) in
           let prod := if init then prod else vec_xor prod (load16 out p) in
           splice p prod out) out)
    end.

(** [rs_mul_add_scalar] on the buffers from index [at] on. *)
Definition rs_mul_add_scalar (out inp tbl : list byte) (at_ len : nat) (init : bool)
    : list byte :=
  if init then
    for_range at_ len (λ p out, wr out p (rd x00 tbl (bn (rd x00 inp p)))) out
  else
    for_range at_ len (λ p out,
      wr out p (bxor (rd x00 out p) (rd x00 tbl (bn (rd x00 inp p))))) out.

(** One coefficient of an inner loop: the SIMD prefix, then the scalar tail. *)
Definition rs_mul_add (path : simd_path) (out inp tbl stbl : list byte)
    (shard_len : nat) (init : bool) : list byte :=
  let '(simd_done, out) := rs_mul_add_16 path out inp stbl shard_len init in
  if (simd_done <? shard_len)%nat
  then rs_mul_add_scalar out inp tbl simd_done (shard_len - simd_done) init
  else out.

(** The loop over the [k] coefficients of row [i] of a table, accumulating into
    one output buffer. *)
Definition rs_row (path : simd_path) (tbl stbl : list byte) (k i : nat)
    (src : nat → list byte) (shard_len : nat) (out : list byte) : list byte :=
  for_range 0 k (λ j out,
    rs_mul_add path out (src j) (drop ((i * k + j) * 256) tbl)
      (drop ((i * k + j) * 32) stbl) shard_len (j =? 0)%nat) out.

(** ** The encoding object *)

Record rs_private := mk_rs_private {
  rsp_encode : gf_matrix;   (* (k+m) x k encoding matrix *)
  rsp_parity : gf_matrix;   (* m x k parity sub-matrix *)
  parity_tbl : list byte;   (* m * k * 256 bytes *)
  parity_split_tbl : list byte;  (* m * k * 32 bytes *)
}.

Record rs_encoding := mk_rs_encoding {
  ec_k : nat;
  ec_m : nat;
  ec_private : rs_private;
}.

(** The per-coefficient tables of an [R] x [C] matrix, both sizes. *)
Definition mul_tables (R C : nat) (mx : gf_matrix) (t : list byte * list byte)
    : list byte * list byte :=
  for_range 0 R (λ r t, for_range 0 C (λ c t,
    let '(tbl, stbl) := t in
    let coeff := gf_matrix_get mx r c in
    let o := ((r * C + c) * 256)%nat in
    let so := ((r * C + c) * 32)%nat in
    (splice o (gf_mul_tbl_init coeff (take 256 (drop o tbl))) tbl,
     splice so (gf_mul_split_tbl_init coeff (take 32 (drop so stbl))) stbl)) t) t.

Definition ec_rs_create (k m : Z) : option rs_encoding :=
  if (k <? 1)%Z || (m <? 1)%Z || (255 <? k + m)%Z then None
  else
    let k := Z.to_nat k in
    let m := Z.to_nat m in
    match build_encoding_matrix k m with
    | None => None
    | Some enc =>
        match gf_matrix_create m k with
        | None => None
        | Some par =>
            let par := for_range 0 m (λ r par,
              for_range 0 k (λ c par,
                gf_matrix_set par r c (gf_matrix_get enc (k + r) c)) par) par in
            let '(tbl, stbl) := mul_tables m k par
              (replicate (m * k * 256) x00, replicate (m * k * 32) x00) in
            Some (mk_rs_encoding k m (mk_rs_private enc par tbl stbl))
        end
    end.

(** ** Encode *)

Definition rs_encode (path : simd_path) (e : rs_encoding)
    (data parity : list (list byte)) (shard_len : nat) : Z * list (list byte) :=
  let p := ec_private e in
  (0%Z,
   for_range 0 (ec_m e) (λ i parity,
     wr parity i
       (rs_row path (parity_tbl p) (parity_split_tbl p) (ec_k e) i
          (λ j, rd [] data j) shard_len (rd [] parity i))) parity).

(** ** Decode *)

(** The number of present shards among the first [n]. *)
Definition count_present (n : nat) (present : list bool) : nat :=
  for_range 0 n (λ i avail, if rd false present i then S avail else avail) O.

(** The indices of the first [k] present shards. *)
Definition avail_index (k n : nat) (present : list bool) : list nat :=
  for_range 0 n (λ i idx,
    if (length idx <? k)%nat && rd false present i then idx ++ [i] else idx) [].

Definition decode_submatrix (k : nat) (enc sub : gf_matrix) (avail_idx : list nat)
    : gf_matrix :=
  for_range 0 k (λ r sub, for_range 0 k (λ c sub,
    gf_matrix_set sub r c (gf_matrix_get enc (rd O avail_idx r) c)) sub) sub.

(** The [k] recovered data shards from the available ones. *)
Definition recover_shards (path : simd_path) (k : nat) (sub_inv : gf_matrix)
    (avail_idx : list nat) (shards : list (list byte)) (shard_len : nat)
    : list (list byte) :=
  let '(tbl, stbl) := mul_tables k k sub_inv
    (replicate (k * k * 256) x00, replicate (k * k * 32) x00) in
  for_range 0 k (λ r recovered,
    wr recovered r
      (rs_row path tbl stbl k r (λ c, rd [] shards (rd O avail_idx c)) shard_len
         (rd [] recovered r)))
    (replicate k (replicate shard_len x00)).

(** Copy the recovered data shards into the missing data slots. *)
Definition copy_missing (k : nat) (present : list bool)
    (recovered shards : list (list byte)) (shard_len : nat) : list (list byte) :=
  for_range 0 k (λ i shards,
    if rd false present i then shards
    else wr shards i
           (splice 0 (take shard_len (rd [] recovered i)) (rd [] shards i))) shards.

(** Re-encode the missing parity shards. *)
Definition regen_parity (path : simd_path) (e : rs_encoding) (present : list bool)
    (recovered shards : list (list byte)) (shard_len : nat) : list (list byte) :=
  let p := ec_private e in
  let k := ec_k e in
  for_range 0 (ec_m e) (λ i shards,
    if rd false present (k + i) then shards
    else
      let data_ptr := λ j,
        if rd false present j then rd [] shards j else rd [] recovered j in
      wr shards (k + i)
        (rs_row path (parity_tbl p) (parity_split_tbl p) k i data_ptr shard_len
           (rd [] shards (k + i)))) shards.

Definition need_parity (k n : nat) (present : list bool) : bool :=
  match for_break k (n - k)
          (λ i (_ : unit), if rd false present i then inl tt else inr true) tt with
  | inl _ => false
  | inr b => b
  end.

Definition rs_decode (path : simd_path) (e : rs_encoding) (shards : list (list byte))
    (present : list bool) (shard_len : nat) : Z * list (list byte) :=
  let k := ec_k e in
  let n := (ec_k e + ec_m e)%nat in
  let avail := count_present n present in
  if (avail <? k)%nat then ((- EIO)%Z, shards)
  else if (avail =? n)%nat then (0%Z, shards)
  else
    let avail_idx := avail_index k n present in
    match gf_matrix_create k k, gf_matrix_create k k with
    | Some sub, Some sub_inv =>
        let sub := decode_submatrix k (rsp_encode (ec_private e)) sub avail_idx in
        let '(ret, sub_inv) := gf_matrix_invert sub sub_inv in
        if (ret <? 0)%Z then (ret, shards)
        else
          let recovered := recover_shards path k sub_inv avail_idx shards shard_len in
          let shards := copy_missing k present recovered shards shard_len in
          let shards :=
            if need_parity k n present
            then regen_parity path e present recovered shards shard_len
            else shards in
          (0%Z, shards)
    | _, _ => ((- ENOMEM)%Z, shards)
    end.

(** ** The SIMD paths compute the scalar product *)

(** The low nibble of a byte of a shifted lane is the high nibble of the byte. *)
Lemma srli_nibble l i :
  (i < 8)%nat → length l = 8%nat →
  Z.land (bz (rd x00 (le_split 8 (Z.shiftr (le_combine l) 4)) i)) 0xf
  = Z.shiftr (bz (rd x00 l i)) 4.
Proof.
  intros Hi Hl. rewrite rd_le_split by done.
  change 0xf%Z with (Z.ones 4). rewrite Z.land_ones by lia.
  rewrite !Z.shiftr_div_pow2 by lia. change (2 ^ 4)%Z with 16%Z.
  rewrite bz_zb. rewrite Z.mod_mod_divide by (by exists 16%Z).
  rewrite Z.div_div, Z.mul_comm, <-Z.div_div by lia. rewrite le_combine_div.
  rewrite (drop_S l (rd x00 l i)) by (apply rd_lt; lia). cbn [le_combine].
  pose proof (bz_range (rd x00 l i)) as Hb.
  set (R := le_combine (drop (S i) l)). set (b := bz (rd x00 l i)) in *.
  replace (b + 256 * R)%Z with (b + (16 * R) * 16)%Z by lia.
  rewrite Z.div_add by lia. replace (16 * R)%Z with (R * 16)%Z by lia.
  rewrite Z.mod_add by lia. apply Z.mod_small.
  split; [apply Z.div_pos; lia|]. apply Z.div_lt_upper_bound; lia.
Qed.

Lemma mm_srli_nibble v i :
  (i < 16)%nat → length v = 16%nat →
  Z.land (bz (rd x00 (mm_srli_epi64 v 4) i)) 0xf = Z.shiftr (bz (rd x00 v i)) 4.
Proof.
  intros Hi Hl. unfold mm_srli_epi64. rewrite rd_app, length_le_split. case_decide.
  - rewrite srli_nibble by (rewrite ?length_take; lia). by rewrite rd_take.
  - rewrite srli_nibble by (rewrite ?length_drop; lia). rewrite rd_drop.
    do 3 f_equal. lia.
Qed.

Lemma length_mm_srli v : length (mm_srli_epi64 v 4) = 16%nat.
Proof. unfold mm_srli_epi64. by rewrite length_app, !length_le_split. Qed.

Lemma rd_load16 p off i : (i < 16)%nat → rd x00 (load16 p off) i = rd x00 p (off + i)%nat.
Proof. intros H. unfold load16. by rewrite rd_take, rd_drop. Qed.

Lemma nibble_index z : (0 <= z < 16)%Z → bn (zb z) = Z.to_nat z ∧ bz (zb z) = z ∧
  Z.testbit z 7 = false ∧ Z.land z 0xf = z.
Proof.
  intros Hz. unfold bn. rewrite !bz_zb, !Z.mod_small by lia. repeat split.
  - apply Z.bits_above_log2; [lia|]. destruct (decide (z = 0%Z)) as [->|]; [done|].
    apply Z.log2_lt_pow2; lia.
  - change 0xf%Z with (Z.ones 4). rewrite Z.land_ones by lia. by rewrite Z.mod_small.
Qed.

Lemma prod16_spec path c stbl dv :
  split_tbl_ok c stbl → length dv = 16%nat →
  prod16 path stbl dv = map (gf_mul c) dv.
Proof.
  intros Hok Hl. apply (rd_ext x00).
  { rewrite length_map. destruct path; unfold prod16, vec_xor, vec_and, vqtbl1q_u8,
      mm_shuffle_epi8, vshrq_n_u8;
      rewrite length_zip_with, !length_map, ?length_zip_with, ?length_mm_srli,
        ?length_replicate; lia. }
  intros i Hi.
  assert (Hi' : (i < 16)%nat).
  { revert Hi. destruct path; unfold prod16, vec_xor, vec_and, vqtbl1q_u8,
      mm_shuffle_epi8, vshrq_n_u8;
      rewrite length_zip_with, !length_map, ?length_zip_with, ?length_mm_srli,
        ?length_replicate; lia. }
  clear Hi. rewrite (rd_map x00) by lia.
  rewrite <-(split_tbl_lookup c stbl (rd x00 dv i) Hok).
  set (b := rd x00 dv i). pose proof (low_nibble_range b) as Hlo.
  pose proof (high_nibble_range b) as Hhi.
  destruct (nibble_index _ Hlo) as (L1 & L2 & L3 & L4).
  destruct (nibble_index _ Hhi) as (H1 & H2 & H3 & H4).
  assert (Hlen : length (replicate 16 x0f) = 16%nat) by done.
  assert (Hand : ∀ a, length a = 16%nat →
    rd x00 (vec_and a (replicate 16 x0f)) i = zb (Z.land (bz (rd x00 a i)) 0xf)).
  { intros a Ha. unfold vec_and. rewrite (rd_zip_with x00 x00) by lia.
    by rewrite rd_replicate_lt by lia. }
  assert (Handl : ∀ a, length a = 16%nat → length (vec_and a (replicate 16 x0f)) = 16%nat).
  { intros a Ha. unfold vec_and. rewrite length_zip_with. lia. }
  destruct path; unfold prod16, vec_xor.
  - rewrite (rd_zip_with x00 x00) by
      (unfold vqtbl1q_u8, vshrq_n_u8; rewrite ?length_map, ?Handl; lia).
    unfold vqtbl1q_u8, vshrq_n_u8.
    rewrite !(rd_map x00) by (rewrite ?length_map, ?Handl; lia).
    rewrite Hand by done. fold b. rewrite L1, H1.
    destruct (Nat.ltb_spec (Z.to_nat (Z.land (bz b) 15)) 16); [|lia].
    destruct (Nat.ltb_spec (Z.to_nat (Z.shiftr (bz b) 4)) 16); [|lia].
    by rewrite !rd_load16 by lia.
  - rewrite (rd_zip_with x00 x00) by
      (unfold mm_shuffle_epi8; rewrite ?length_map, ?Handl; rewrite ?length_mm_srli; lia).
    unfold mm_shuffle_epi8.
    rewrite !(rd_map x00) by (rewrite ?length_map, ?Handl; rewrite ?length_mm_srli; lia).
    rewrite !Hand by (done || apply length_mm_srli). rewrite mm_srli_nibble by done. fold b.
    rewrite L2, L3, L4, H2, H3, H4. by rewrite !rd_load16 by lia.
  - rewrite (rd_zip_with x00 x00) by
      (unfold mm_shuffle_epi8; rewrite ?length_map, ?Handl; rewrite ?length_mm_srli; lia).
    unfold mm_shuffle_epi8.
    rewrite !(rd_map x00) by (rewrite ?length_map, ?Handl; rewrite ?length_mm_srli; lia).
    rewrite !Hand by (done || apply length_mm_srli). rewrite mm_srli_nibble by done. fold b.
    rewrite L2, L3, L4, H2, H3, H4. by rewrite !rd_load16 by lia.
Qed.

(** ** One coefficient: [out[p] (^)= coeff * in[p]] on every path *)

Definition tbl_ok (c : byte) (t : list byte) : Prop :=
  ∀ b, rd x00 t (bn b) = gf_mul c b.

Definition acc (init : bool) (old new : byte) : byte :=
  if init then new else gf_add old new.

Lemma rs_mul_add_16_spec path c out inp stbl L init :
  length out = L → length inp = L → split_tbl_ok c stbl →
  let '(d, out') := rs_mul_add_16 path out inp stbl L init in
  (d <= L)%nat ∧ length out' = L ∧
  ∀ p, rd x00 out' p = if (p <? d)%nat then acc init (rd x00 out p) (gf_mul c (rd x00 inp p))
                       else rd x00 out p.
Proof.
  intros Ho Hi Hok. unfold rs_mul_add_16.
  assert (Hd : (L / 16 * 16 <= L)%nat).
  { rewrite Nat.mul_comm. apply Nat.Div0.mul_div_le. }
  rewrite Nat.div_mul by lia. set (nb := (L / 16)%nat) in *. clearbody nb.
  case_if; [cbn; repeat split; auto; lia|].
  set (loop := for_range 0 nb _ out).
  set (inv := λ k s, length s = L ∧ ∀ p, rd x00 s p = if (p <? 16 * k)%nat
      then acc init (rd x00 out p) (gf_mul c (rd x00 inp p)) else rd x00 out p).
  assert (H : inv nb loop).
  { apply (for0_ind inv); unfold inv.
    - split; [done|]. intros p. by destruct (Nat.ltb_spec p (16 * 0)); [lia|].
    - intros k s Hk [Hs IH]. cbv zeta.
      assert (Hb : (16 * k + 16 <= L)%nat) by lia.
      assert (Hl16 : ∀ l, length l = L → length (load16 l (16 * k)) = 16%nat).
      { intros l Hl. unfold load16. rewrite length_take, length_drop. lia. }
      rewrite (prod16_spec path c) by auto.
      set (prod := if init then _ else _).
      assert (Hpl : length prod = 16%nat).
      { subst prod. destruct init; unfold vec_xor;
          rewrite ?length_zip_with, length_map, !Hl16 by done; lia. }
      rewrite length_splice by lia. split; [done|]. intros p.
      rewrite rd_splice by lia. rewrite Hpl, IH. case_decide as Hp.
      + destruct (Nat.ltb_spec p (16 * S k)); [|lia].
        assert (Hr : rd x00 prod (p - 16 * k) = acc init (rd x00 out p) (gf_mul c (rd x00 inp p))).
        { subst prod. destruct init; unfold vec_xor, acc.
          - rewrite (rd_map x00) by (rewrite Hl16; lia). rewrite rd_load16 by lia.
            by replace (16 * k + (p - 16 * k))%nat with p by lia.
          - rewrite (rd_zip_with x00 x00) by (rewrite ?length_map, Hl16; done || lia).
            rewrite (rd_map x00), !rd_load16, IH by (rewrite ?Hl16; done || lia).
            replace (16 * k + (p - 16 * k))%nat with p by lia.
            destruct (Nat.ltb_spec p (16 * k)); [lia|]. apply bxor_comm. }
        exact Hr.
      + destruct (Nat.ltb_spec p (16 * k)), (Nat.ltb_spec p (16 * S k)); try lia; done. }
  unfold inv in H. rewrite Nat.mul_comm in H. destruct path; [by split|by split|]. repeat split; [lia|done..].
Qed.

Lemma rs_mul_add_scalar_spec c out inp tbl d n init :
  (d + n <= length out)%nat → tbl_ok c tbl →
  length (rs_mul_add_scalar out inp tbl d n init) = length out ∧
  ∀ p, rd x00 (rs_mul_add_scalar out inp tbl d n init) p
    = if (d <=? p)%nat && (p <? d + n)%nat
      then acc init (rd x00 out p) (gf_mul c (rd x00 inp p)) else rd x00 out p.
Proof.
  intros Hl Hok. unfold rs_mul_add_scalar.
  set (inv := λ k s, length s = length out ∧ ∀ p, rd x00 s p
    = if (d <=? p)%nat && (p <? k)%nat
      then acc init (rd x00 out p) (gf_mul c (rd x00 inp p)) else rd x00 out p).
  assert (H0 : inv d out).
  { split; [done|]. intros p.
    destruct (Nat.leb_spec d p), (Nat.ltb_spec p d); cbn; done || lia. }
  assert (Hstep : ∀ (v : byte → byte) i s, (d <= i < d + n)%nat → inv i s →
    (∀ o, v o = acc init o (gf_mul c (rd x00 inp i))) →
    inv (S i) (wr s i (v (rd x00 s i)))).
  { intros v i s Hi [Hs IH] Hv. split; [by rewrite length_wr|]. intros p.
    rewrite rd_wr by lia. rewrite !IH, Hv.
    case_decide as Hpi.
    - subst p. destruct (Nat.leb_spec d i), (Nat.ltb_spec i i), (Nat.ltb_spec i (S i));
        cbn; done || lia.
    - destruct (Nat.leb_spec d p), (Nat.ltb_spec p i), (Nat.ltb_spec p (S i));
        cbn; done || lia. }
  destruct init; apply (for_range_ind inv); try done; intros i s Hi Hs.
  - apply (Hstep (λ _, rd x00 tbl (bn (rd x00 inp i)))); [done..|].
    intros o. by rewrite Hok.
  - apply (Hstep (λ o, bxor o (rd x00 tbl (bn (rd x00 inp i))))); [done..|].
    intros o. by rewrite Hok.
Qed.

Lemma rs_mul_add_spec path c out inp tbl stbl L init :
  length out = L → length inp = L → tbl_ok c tbl → split_tbl_ok c stbl →
  length (rs_mul_add path out inp tbl stbl L init) = L ∧
  ∀ p, (p < L)%nat → rd x00 (rs_mul_add path out inp tbl stbl L init) p
    = acc init (rd x00 out p) (gf_mul c (rd x00 inp p)).
Proof.
  intros Ho Hi Ht Hs. unfold rs_mul_add.
  pose proof (rs_mul_add_16_spec path c out inp stbl L init Ho Hi Hs) as H.
  destruct (rs_mul_add_16 path out inp stbl L init) as [d out'].
  destruct H as (Hd & Hl & Hrd). destruct (Nat.ltb_spec d L).
  - destruct (rs_mul_add_scalar_spec c out' inp tbl d (L - d) init ltac:(lia) Ht)
      as [H1 H2]. split; [lia|]. intros p Hp. rewrite H2, Hrd.
    destruct (Nat.leb_spec d p), (Nat.ltb_spec p (d + (L - d))), (Nat.ltb_spec p d);
      cbn; done || lia.
  - split; [done|]. intros p Hp. rewrite Hrd. destruct (Nat.ltb_spec p d); done || lia.
Qed.

(** A row of coefficients: the output is the linear combination of the sources. *)
Lemma rs_row_spec path tbl stbl k i src L out (A : nat → byte) :
  (0 < k)%nat → length out = L → (∀ j, (j < k)%nat → length (src j) = L) →
  (∀ j, (j < k)%nat → tbl_ok (A j) (drop ((i * k + j) * 256) tbl)) →
  (∀ j, (j < k)%nat → split_tbl_ok (A j) (drop ((i * k + j) * 32) stbl)) →
  length (rs_row path tbl stbl k i src L out) = L ∧
  ∀ p, (p < L)%nat → rd x00 (rs_row path tbl stbl k i src L out) p
    = gsum k (λ j, gf_mul (A j) (rd x00 (src j) p)).
Proof.
  intros Hk Ho Hsrc Ht Hs.
  set (inv := λ n s, length s = L ∧ ∀ p, (p < L)%nat → (0 < n)%nat →
    rd x00 s p = gsum n (λ j, gf_mul (A j) (rd x00 (src j) p))).
  assert (H : inv k (rs_row path tbl stbl k i src L out)).
  { apply (for0_ind inv); [split; [done|intros; lia]|].
    intros j s Hj [Hl IH].
    destruct (rs_mul_add_spec path (A j) s (src j) (drop ((i * k + j) * 256) tbl)
      (drop ((i * k + j) * 32) stbl) L (j =? 0)%nat Hl (Hsrc j Hj) (Ht j Hj) (Hs j Hj))
      as [H1 H2].
    split; [done|]. intros p Hp _. rewrite H2, gsum_S by done. unfold acc.
    destruct (Nat.eqb_spec j 0) as [->|].
    - symmetry. apply bxor_0_l.
    - by rewrite IH by lia. }
  destruct H as [H1 H2]. split; [done|]. intros. by apply H2.
Qed.

End RS.
