(* ===== verification/RSCorrect.v ===== *)
(** * Correctness of the Reed-Solomon encoding

    The tables hold the products of the parity coefficients, the encoding
    matrix is systematic and every [k] of its rows are invertible (the MDS
    property), hence [rs_decode] rebuilds every missing shard as long as [k]
    shards are present. *)

From S2P Require Import Prelude.
From S2P Require Import GF256.
From S2P Require Import Matrix.
From S2P Require Import ReedSolomon.
Import GF Matrix RS.

Module RSCorrect.

(** ** The multiplication tables *)

Lemma tbl_ok_splice c o o' src tbl :
  (o' + 256 <= length tbl)%nat → length src = 256%nat →
  (o + 256 <= o' ∨ o' + 256 <= o)%nat →
  tbl_ok c (drop o tbl) → tbl_ok c (drop o (splice o' src tbl)) .
Proof.
  intros Hl Hs Hdis H b. rewrite rd_drop, rd_splice by lia.
  pose proof (bn_range b). case_decide; [lia|]. rewrite <-rd_drop. apply H.
Qed.

Lemma tbl_ok_new c o tbl :
  (o + 256 <= length tbl)%nat →
  tbl_ok c (drop o (splice o (gf_mul_tbl_init c (take 256 (drop o tbl))) tbl)).
Proof.
  intros Hl b.
  assert (H : length (take 256 (drop o tbl)) = 256%nat)
    by (rewrite length_take, length_drop; lia).
  pose proof (length_gf_mul_tbl_init c _ H). pose proof (bn_range b).
  rewrite rd_drop, rd_splice by lia. rewrite decide_True by lia.
  replace (o + bn b - o)%nat with (bn b) by lia. by apply gf_mul_tbl_init_spec.
Qed.

Lemma split_ok_splice c o o' src tbl :
  (o' + 32 <= length tbl)%nat → length src = 32%nat →
  (o + 32 <= o' ∨ o' + 32 <= o)%nat →
  split_tbl_ok c (drop o tbl) → split_tbl_ok c (drop o (splice o' src tbl)).
Proof.
  intros Hl Hs Hdis H i Hi. rewrite !rd_drop, !rd_splice by lia.
  rewrite !decide_False by lia. specialize (H i Hi). by rewrite !rd_drop in H.
Qed.

Lemma split_ok_new c o tbl :
  (o + 32 <= length tbl)%nat →
  split_tbl_ok c (drop o (splice o (gf_mul_split_tbl_init c (take 32 (drop o tbl))) tbl)).
Proof.
  intros Hl i Hi.
  assert (H : length (take 32 (drop o tbl)) = 32%nat)
    by (rewrite length_take, length_drop; lia).
  destruct (gf_mul_split_tbl_init_spec c _ H) as [Hlen Hok].
  rewrite !rd_drop, !rd_splice by lia. rewrite !decide_True by lia.
  replace (o + i - o)%nat with i by lia.
  replace (o + (16 + i) - o)%nat with (16 + i)%nat by lia. by apply Hok.
Qed.

Definition tables_ok (C n : nat) (mx : gf_matrix) (t : list byte * list byte) : Prop :=
  ∀ r c, (c < C)%nat → (r * C + c < n)%nat →
    tbl_ok (gf_matrix_get mx r c) (drop ((r * C + c) * 256) (fst t)) ∧
    split_tbl_ok (gf_matrix_get mx r c) (drop ((r * C + c) * 32) (snd t)).

Lemma mul_tables_spec R C mx :
  tables_ok C (R * C) mx (mul_tables R C mx
    (replicate (R * C * 256) x00, replicate (R * C * 32) x00)).
Proof.
  set (lens := λ t : list byte * list byte,
    length (fst t) = (R * C * 256)%nat ∧ length (snd t) = (R * C * 32)%nat).
  set (inv := λ n t, lens t ∧ tables_ok C n mx t).
  assert (H : inv (R * C)%nat (mul_tables R C mx
    (replicate (R * C * 256) x00, replicate (R * C * 32) x00))); [|apply H].
  unfold mul_tables. apply (for0_ind (λ r t, inv (r * C)%nat t)).
  { split; [split; apply length_replicate|]. intros r c ? ?; lia. }
  intros r t Hr Ht. replace (S r * C)%nat with (r * C + C)%nat by lia.
  apply (for0_ind (λ c t, inv (r * C + c)%nat t)); [by rewrite Nat.add_0_r|].
  intros c [tbl stbl] Hc [[Hl1 Hl2] Hok]. cbn [fst snd] in *. cbv zeta.
  assert (Hidx : (r * C + c + 1 <= R * C)%nat) by nia.
  set (idx := (r * C + c)%nat) in *.
  assert (Ho1 : (idx * 256 + 256 <= length tbl)%nat) by lia.
  assert (Ho2 : (idx * 32 + 32 <= length stbl)%nat) by lia.
  assert (Hn1 : length (gf_mul_tbl_init (gf_matrix_get mx r c)
    (take 256 (drop (idx * 256) tbl))) = 256%nat).
  { apply length_gf_mul_tbl_init. rewrite length_take, length_drop. lia. }
  assert (Hn2 : length (gf_mul_split_tbl_init (gf_matrix_get mx r c)
    (take 32 (drop (idx * 32) stbl))) = 32%nat).
  { apply gf_mul_split_tbl_init_spec. rewrite length_take, length_drop. lia. }
  split; [split; cbn; rewrite length_splice; lia|].
  intros r' c' Hc' Hi'. cbn [fst snd].
  destruct (decide (r' * C + c' = idx)%nat) as [E|Hne].
  - destruct (flat_index_inj C r' c' r c Hc' Hc E) as [-> ->]. fold idx.
    split; [by apply tbl_ok_new|by apply split_ok_new].
  - destruct (Hok r' c' Hc' ltac:(lia)) as [H1 H2].
    split; [apply tbl_ok_splice|apply split_ok_splice]; auto; lia.
Qed.

(** ** The encoding matrix *)

(** The rows [ec_rs_create] builds for [m <= 2]. *)
Definition pq_row (k r c : nat) : byte :=
  if decide (r < k)%nat then delta r c
  else if decide (r = k) then x01 else gpow x02 c.

Lemma diag_loop R k enc :
  is_mat R k enc → (k <= R)%nat → (∀ r c, gf_matrix_get enc r c = x00) →
  let e := for_range 0 k (λ r enc, gf_matrix_set enc r r x01) enc in
  is_mat R k e ∧ ∀ r c, (r < R)%nat → (c < k)%nat → gf_matrix_get e r c = delta r c.
Proof.
  intros He HR Hz e.
  set (inv := λ n s, is_mat R k s ∧ ∀ r c, (r < R)%nat → (c < k)%nat →
    gf_matrix_get s r c = if decide (r = c ∧ (r < n)%nat) then x01 else x00).
  assert (H : inv k e).
  { apply (for0_ind inv); unfold inv.
    - split; [done|]. intros r c _ _. case_decide; [lia|apply Hz].
    - intros i s Hi [Hs IH]. split; [by apply is_mat_set|]. intros r c Hr Hc.
      rewrite (get_set R k), IH by (done || lia). repeat case_decide; first [lia|done]. }
  destruct H as [H1 H2]. split; [done|]. intros r c Hr Hc. rewrite H2 by done.
  unfold delta. repeat case_decide; first [lia|done].
Qed.

(** The Q-row loop: the running coefficient is a power of 2. *)
Lemma q_row_loop R k enc :
  is_mat R k enc → (k + 1 < R)%nat →
  let e := fst (for_range 0 k (λ c s,
    let '(enc, coef) := s in
    (gf_matrix_set enc (k + 1) c coef, gf_mul coef x02)) (enc, x01)) in
  is_mat R k e ∧ ∀ r c, (c < k)%nat → gf_matrix_get e r c
    = if (r =? k + 1)%nat then gpow x02 c else gf_matrix_get enc r c.
Proof.
  intros He HR e.
  set (inv := λ n (s : gf_matrix * byte), is_mat R k (fst s) ∧ snd s = gpow x02 n ∧
    ∀ r c, (c < k)%nat → gf_matrix_get (fst s) r c
      = if (r =? k + 1)%nat && (c <? n)%nat then gpow x02 c else gf_matrix_get enc r c).
  assert (H : inv k (for_range 0 k (λ c s,
    let '(enc, coef) := s in
    (gf_matrix_set enc (k + 1) c coef, gf_mul coef x02)) (enc, x01))).
  { apply (for0_ind inv); unfold inv; cbn [fst snd].
    - split; [done|]. split; [done|]. intros r c _. by rewrite andb_false_r.
    - intros i [s coef] Hi (Hs & Hcoef & IH). cbn [fst snd] in *.
      split; [by apply is_mat_set|]. split.
      { rewrite Hcoef. cbn [gpow]. apply gf_mul_comm. }
      intros r c Hc. rewrite (get_set R k), IH by (done || lia).
      destruct (Nat.eqb_spec r (k + 1)), (Nat.ltb_spec c i), (Nat.ltb_spec c (S i));
        case_decide; cbn [andb]; first [lia|done|idtac].
      replace c with i by lia. done. }
  destruct H as (H1 & _ & H2). split; [done|]. intros r c Hc.
  etransitivity; [exact (H2 r c Hc)|].
  destruct (Nat.ltb_spec c k); [|lia]. by rewrite andb_true_r.
Qed.

Lemma build_pq k m :
  (0 < k)%nat → (1 <= m <= 2)%nat →
  ∃ enc, build_encoding_matrix k m = Some enc ∧ is_mat (k + m) k enc ∧
    ∀ r c, (r < k + m)%nat → (c < k)%nat → gf_matrix_get enc r c = pq_row k r c.
Proof.
  intros Hk Hm. unfold build_encoding_matrix.
  destruct (Nat.leb_spec m 2); [|lia].
  destruct (gf_matrix_create_some (k + m) k ltac:(lia) Hk) as [e0 He0]. rewrite He0.
  destruct (is_mat_create _ _ _ He0) as [Hm0 Hz0].
  destruct (diag_loop (k + m) k e0 Hm0 ltac:(lia) Hz0) as [Hm1 He1].
  set (e1 := for_range 0 k (λ r enc, gf_matrix_set enc r r x01) e0) in *. clearbody e1.
  destruct (fill_row_spec (k + m) k k (λ _, x01) e1 Hm1 ltac:(lia)) as [Hm2 He2].
  set (e2 := for_range 0 k (λ c enc, gf_matrix_set enc k c x01) e1) in *. clearbody e2.
  assert (Hp : ∀ r c, (r < k + 1)%nat → (c < k)%nat → gf_matrix_get e2 r c = pq_row k r c).
  { intros r c Hr Hc. rewrite He2 by done. unfold pq_row.
    destruct (Nat.eqb_spec r k); repeat case_decide; try lia; try done.
    apply He1; lia. }
  destruct (Nat.eqb_spec m 2) as [->|].
  - destruct (q_row_loop (k + 2) k e2 Hm2 ltac:(lia)) as [Hm3 He3].
    eexists. split; [done|]. split; [done|]. intros r c Hr Hc.
    etransitivity; [exact (He3 r c Hc)|].
    destruct (Nat.eqb_spec r (k + 1)) as [->|].
    + unfold pq_row. by rewrite !decide_False by lia.
    + apply Hp; lia.
  - eexists. split; [done|]. split; [done|]. intros r c Hr Hc. apply Hp; lia.
Qed.

(** ** Every [k] rows are invertible *)

Definition selects (k n : nat) (idx : nat → nat) : Prop :=
  (∀ r, (r < k)%nat → (idx r < n)%nat) ∧
  (∀ i j, (i < k)%nat → (j < k)%nat → idx i = idx j → i = j).

Definition mds (k n : nat) (E : nat → nat → byte) : Prop :=
  ∀ idx, selects k n idx → trivial_kernel k k (λ r c, E (idx r) c).

Definition selected (k : nat) (idx : nat → nat) : list nat := map idx (seq 0 k).

Lemma selected_elem k idx i : i ∈ selected k idx → ∃ r, (r < k)%nat ∧ idx r = i.
Proof.
  unfold selected. intros H. apply list_elem_of_In, in_map_iff in H as (r & <- & Hr).
  apply in_seq in Hr. exists r. split; [lia|done].
Qed.

(** At most [n - k] rows are left out of a selection. *)
Lemma left_out k n idx out :
  selects k n idx → NoDup out → (∀ i, i ∈ out → (i < n)%nat ∧ i ∉ selected k idx) →
  (length out + k <= n)%nat.
Proof.
  intros [Hlt Hinj] Hnd Hout.
  assert (Hl : length (out ++ selected k idx) = (length out + k)%nat).
  { unfold selected. by rewrite length_app, length_map, length_seq. }
  rewrite <-Hl. rewrite <-(length_seq n 0). apply NoDup_incl_length.
  - apply NoDup_ListNoDup, list.NoDup_app. split; [done|]. split.
    + intros i Hi. by apply Hout.
    + apply NoDup_ListNoDup. unfold selected.
      apply NoDup_map_NoDup_ForallPairs; [|apply seq_NoDup].
      intros a b Ha Hb. apply in_seq in Ha, Hb. apply Hinj; lia.
  - intros i Hi. apply in_seq. apply in_app_iff in Hi as [Hi|Hi].
    + apply list_elem_of_In in Hi. destruct (Hout i Hi). lia.
    + apply list_elem_of_In, selected_elem in Hi as (r & Hr & <-).
      specialize (Hlt r Hr). lia.
Qed.

Lemma pq_row_p k c : pq_row k k c = x01.
Proof. unfold pq_row. rewrite decide_False, decide_True by lia. done. Qed.

Lemma pq_row_q k c : pq_row k (k + 1) c = gpow x02 c.
Proof. unfold pq_row. by rewrite !decide_False by lia. Qed.

(** More rows left out of the selection [Hsel] than it can leave out. *)
Ltac too_many_left_out Hsel out :=
  let H := fresh in
  exfalso; pose proof (left_out _ _ _ out Hsel) as H; cbn [length] in H;
  lapply H; clear H;
  [ let H' := fresh in intros H'; lapply H'; clear H'; [lia|];
    let i := fresh in let Hi := fresh in
    intros i Hi; repeat (apply elem_of_cons in Hi as [->|Hi]);
    [..|by apply elem_of_nil in Hi]; (split; [lia|done])
  | repeat constructor; rewrite ?elem_of_cons, ?elem_of_nil; lia ].

Section PQ.
Context (k m : nat) (idx : nat → nat) (x : nat → byte).
Context (Hk : (0 < k)%nat) (Hm : (1 <= m <= 2)%nat) (Hkm : (k + m <= 255)%nat).
Context (Hsel : selects k (k + m) idx).
Context (Hker : in_kernel k k (λ r c, pq_row k (idx r) c) x).

Lemma pq_selected_row r :
  r ∈ selected k idx → mat_vec k (pq_row k) x r = x00.
Proof.
  intros H. apply selected_elem in H as (i & Hi & <-). by apply (Hker i).
Qed.

Lemma pq_selected_data d : (d < k)%nat → d ∈ selected k idx → x d = x00.
Proof.
  intros Hd H. apply pq_selected_row in H. rewrite <-H. symmetry.
  etransitivity; [|by apply delta_mat_vec]. apply mat_vec_ext; [|done].
  intros i Hi. unfold pq_row. by rewrite decide_True.
Qed.

(** One data row left out. *)
Lemma pq_one_missing d :
  (d < k)%nat → d ∉ selected k idx →
  (∀ e, (e < k)%nat → e ≠ d → e ∈ selected k idx) → x d = x00.
Proof.
  intros Hd Hni Hrest.
  assert (Hs : ∀ r, mat_vec k (pq_row k) x r = gf_mul (pq_row k r d) (x d)).
  { intros r. apply (gsum_single k (λ c, gf_mul (pq_row k r c) (x c)) d Hd).
    intros i Hi Hne.
    rewrite (pq_selected_data i Hi) by auto. apply gf_mul_0_r. }
  destruct (decide (k ∈ selected k idx)) as [Hp|Hp].
  - apply pq_selected_row in Hp. rewrite Hs, pq_row_p, gf_mul_1_l in Hp. done.
  - destruct (decide (m = 1%nat)) as [->|].
    { too_many_left_out Hsel [d; k]. }
    destruct (decide (k + 1 ∈ selected k idx)%nat) as [Hq|Hq].
    + apply pq_selected_row in Hq. rewrite Hs, pq_row_q in Hq.
      apply gf_mul_eq_0 in Hq as [Hq|Hq]; [|done].
      by apply gpow_nonzero in Hq.
    + too_many_left_out Hsel [d; k; k + 1]%nat.
Qed.

(** Two data rows left out: both parity rows are selected. *)
Lemma pq_two_missing d e :
  (d < k)%nat → (e < k)%nat → d ≠ e →
  d ∉ selected k idx → e ∉ selected k idx → x d = x00.
Proof.
  intros Hd He Hne Hnd Hnie.
  assert (Hout : ∀ o, (k <= o < k + m)%nat → o ∉ selected k idx → False).
  { intros o Ho Hno. too_many_left_out Hsel [d; e; o]. }
  assert (Hm2 : m = 2%nat).
  { destruct (decide (m = 2%nat)); [done|]. too_many_left_out Hsel [d; e]. }
  assert (Hrest : ∀ c, (c < k)%nat → c ≠ d → c ≠ e → x c = x00).
  { intros c Hc Hcd Hce. apply pq_selected_data; [done|].
    destruct (decide (c ∈ selected k idx)) as [|Hn]; [done|].
    too_many_left_out Hsel [d; e; c]. }
  assert (Hs : ∀ r, mat_vec k (pq_row k) x r
    = gf_add (gf_mul (pq_row k r d) (x d)) (gf_mul (pq_row k r e) (x e))).
  { intros r. unfold mat_vec. destruct (Nat.lt_total d e) as [H|[H|H]]; [|done|].
    - apply (gsum_pair k (λ c, gf_mul (pq_row k r c) (x c)) d e); [done..|]. intros i Hi ? ?.
      rewrite Hrest by done. apply gf_mul_0_r.
    - rewrite (gsum_pair k (λ c, gf_mul (pq_row k r c) (x c)) e d);
        [apply bxor_comm|done..|]. intros i Hi ? ?.
      rewrite Hrest by done. apply gf_mul_0_r. }
  assert (Hsel' : ∀ o, (k <= o < k + m)%nat → mat_vec k (pq_row k) x o = x00).
  { intros o Ho. apply pq_selected_row.
    destruct (decide (o ∈ selected k idx)) as [|Hn]; [done|]. by destruct (Hout o Ho). }
  pose proof (Hsel' k ltac:(lia)) as HP. pose proof (Hsel' (k + 1)%nat ltac:(lia)) as HQ.
  rewrite Hs, !pq_row_p, !gf_mul_1_l in HP. rewrite Hs, !pq_row_q in HQ.
  apply gf_add_eq_0 in HP. rewrite <-HP in HQ.
  assert (HQ' : gf_mul (gf_add (gpow x02 d) (gpow x02 e)) (x d) = x00)
    by (rewrite <-HQ; ring).
  apply gf_mul_eq_0 in HQ' as [H|H]; [|done].
  apply gf_add_eq_0, gpow_2_inj in H; lia.
Qed.

Lemma pq_kernel d : (d < k)%nat → x d = x00.
Proof.
  intros Hd. destruct (decide (d ∈ selected k idx)) as [|Hni]; [by apply pq_selected_data|].
  destruct (decide (Exists (λ e, e ≠ d ∧ e ∉ selected k idx) (seq 0 k))) as [Hex|Hnex].
  - apply list.Exists_exists in Hex as (e & He & Hne & Hnie).
    apply list_elem_of_In, in_seq in He. apply (pq_two_missing d e); auto; lia.
  - apply pq_one_missing; [done..|]. intros e He Hne.
    destruct (decide (e ∈ selected k idx)) as [|Hn]; [done|]. exfalso. apply Hnex.
    apply list.Exists_exists. exists e. split; [|done].
    apply list_elem_of_In, in_seq. lia.
Qed.
End PQ.

Lemma build_vandermonde k m :
  (0 < k)%nat → (3 <= m)%nat → (k + m <= 255)%nat →
  ∃ enc, build_encoding_matrix k m = Some enc ∧ is_mat (k + m) k enc ∧
    (∀ r c, (r < k)%nat → (c < k)%nat → gf_matrix_get enc r c = delta r c) ∧
    mds k (k + m) (gf_matrix_get enc).
Proof.
  intros Hk Hm Hkm. unfold build_encoding_matrix. destruct (Nat.leb_spec m 2); [lia|].
  destruct (gf_matrix_vandermonde_spec (k + m) k ltac:(lia) ltac:(lia))
    as (vand & -> & Hv & Hvent).
  destruct (gf_matrix_create_some k k Hk Hk) as [z Hz]. rewrite Hz.
  destruct (is_mat_create _ _ _ Hz) as [Hzm _].
  destruct (fill_mat_spec k k (gf_matrix_get vand) z Hzm) as [Htm Htent].
  set (top := fill_mat k k (gf_matrix_get vand) z) in *.
  change (for_range 0 k _ z) with top. clearbody top.
  assert (Hpt : trivial_kernel k k (gf_matrix_get top)).
  { intros x Hx. apply (vandermonde_rows_kernel k (λ r, zb (Z.of_nat (r + 1)))).
    - intros i j Hi Hj. apply point_inj; lia.
    - intros r Hr. rewrite <-(Hx r Hr). apply mat_vec_ext; [|done].
      intros c Hc. rewrite Htent, Hvent by lia. done. }
  destruct (gf_matrix_invert_spec k top z Hk Htm Hzm)
    as [(ti & -> & Htim & Hinv & Htik & _)|(o & _ & x & Hx & i & Hi & Hnz)].
  2:{ exfalso. by apply Hnz, (Hpt x). }
  cbn [Z.ltb Z.compare].
  destruct (gf_matrix_create_some (k + m) k ltac:(lia) Hk) as [e0 He0]. rewrite He0.
  destruct (is_mat_create _ _ _ He0) as [He0m _].
  destruct (gf_matrix_mul_spec (k + m) k k vand ti e0 Hv Htim He0m) as (enc & -> & Hem & Hent).
  cbn [Z.ltb Z.compare]. exists enc. split; [done|]. split; [done|]. split.
  - intros r c Hr Hc. rewrite Hent by lia.
    rewrite (mat_vec_ext k _ (gf_matrix_get top) _ (λ i, gf_matrix_get ti i c)).
    + by apply (left_inverse_right k (gf_matrix_get top)).
    + intros i Hi. by rewrite Htent.
    + done.
  - intros idx [Hlt Hinj] x Hx.
    assert (Hz' : ∀ i, (i < k)%nat → mat_vec k (gf_matrix_get ti) x i = x00).
    { apply (vandermonde_rows_kernel k (λ r, zb (Z.of_nat (idx r + 1)))).
      - intros i j Hi Hj E. apply Hinj; [done..|].
        pose proof (Hlt i Hi). pose proof (Hlt j Hj). apply point_inj; [lia..|done].
      - intros r Hr. rewrite <-(Hx r Hr). rewrite mat_vec_assoc.
        apply mat_vec_ext; [|done]. intros c Hc. rewrite Hent by (auto; lia).
        apply gsum_ext. intros i Hi. by rewrite Hvent by (auto; lia). }
    exact (Htik x Hz').
Qed.

(** The systematic MDS matrix, for every geometry [ec_rs_create] accepts. *)
Lemma build_encoding_matrix_spec k m :
  (0 < k)%nat → (0 < m)%nat → (k + m <= 255)%nat →
  ∃ enc, build_encoding_matrix k m = Some enc ∧ is_mat (k + m) k enc ∧
    (∀ r c, (r < k)%nat → (c < k)%nat → gf_matrix_get enc r c = delta r c) ∧
    mds k (k + m) (gf_matrix_get enc) ∧
    ((m <= 2)%nat → ∀ r c, (r < k + m)%nat → (c < k)%nat →
       gf_matrix_get enc r c = pq_row k r c).
Proof.
  intros Hk Hm Hkm. destruct (decide (m <= 2)%nat).
  - destruct (build_pq k m Hk ltac:(lia)) as (enc & -> & He & Hent).
    exists enc. split; [done|]. split; [done|]. split; [|split; [|done]].
    + intros r c Hr Hc. rewrite Hent by lia. unfold pq_row. by rewrite decide_True.
    + intros idx Hsel x Hx. apply (pq_kernel k m idx x); [lia..|done|].
      intros r Hr. rewrite <-(Hx r Hr). apply mat_vec_ext; [|done].
      intros c Hc. rewrite Hent; [done| |done]. by apply Hsel.
  - destruct (build_vandermonde k m) as (enc & H1 & H2 & H3 & H4); [lia..|].
    exists enc. by split_and!; [..|lia].
Qed.

(** ** Encodings as [ec_rs_create] makes them *)

Record rs_wf (e : rs_encoding) : Prop := {
  wf_k : (0 < ec_k e)%nat;
  wf_enc : is_mat (ec_k e + ec_m e) (ec_k e) (rsp_encode (ec_private e));
  wf_sys : ∀ r c, (r < ec_k e)%nat → (c < ec_k e)%nat →
    gf_matrix_get (rsp_encode (ec_private e)) r c = delta r c;
  wf_mds : mds (ec_k e) (ec_k e + ec_m e) (gf_matrix_get (rsp_encode (ec_private e)));
  wf_pq : (ec_m e <= 2)%nat → ∀ r c, (r < ec_k e + ec_m e)%nat → (c < ec_k e)%nat →
    gf_matrix_get (rsp_encode (ec_private e)) r c = pq_row (ec_k e) r c;
  wf_tbl : ∀ i j, (i < ec_m e)%nat → (j < ec_k e)%nat →
    tbl_ok (gf_matrix_get (rsp_encode (ec_private e)) (ec_k e + i) j)
      (drop ((i * ec_k e + j) * 256) (parity_tbl (ec_private e)));
  wf_split : ∀ i j, (i < ec_m e)%nat → (j < ec_k e)%nat →
    split_tbl_ok (gf_matrix_get (rsp_encode (ec_private e)) (ec_k e + i) j)
      (drop ((i * ec_k e + j) * 32) (parity_split_tbl (ec_private e)));
}.

Lemma ec_rs_create_wf k m :
  (1 <= k)%Z → (1 <= m)%Z → (k + m <= 255)%Z →
  ∃ e, ec_rs_create k m = Some e ∧ rs_wf e ∧ ec_k e = Z.to_nat k ∧ ec_m e = Z.to_nat m.
Proof.
  intros Hk Hm Hkm. unfold ec_rs_create.
  destruct (Z.ltb_spec k 1), (Z.ltb_spec m 1), (Z.ltb_spec 255 (k + m)); try lia.
  cbn [orb]. set (k' := Z.to_nat k). set (m' := Z.to_nat m).
  destruct (build_encoding_matrix_spec k' m') as (enc & -> & He & Hsys & Hmds & Hpq);
    [lia..|].
  destruct (gf_matrix_create_some m' k') as [z Hz]; [lia..|]. rewrite Hz.
  destruct (is_mat_create _ _ _ Hz) as [Hzm _].
  destruct (fill_mat_spec m' k' (λ r c, gf_matrix_get enc (k' + r) c) z Hzm) as [Hp Hpent].
  set (par := fill_mat m' k' _ z) in *. change (for_range 0 m' _ z) with par. clearbody par.
  pose proof (mul_tables_spec m' k' par) as Ht.
  destruct (mul_tables m' k' par _) as [tbl stbl].
  eexists. split; [done|]. split; [|done]. constructor; cbn; [lia|done..| |].
  - intros i j Hi Hj. rewrite <-Hpent by done. apply (Ht i j Hj). nia.
  - intros i j Hi Hj. rewrite <-Hpent by done. apply (Ht i j Hj). nia.
Qed.

Lemma ec_rs_create_inv k m e :
  ec_rs_create k m = Some e →
  rs_wf e ∧ Z.of_nat (ec_k e) = k ∧ Z.of_nat (ec_m e) = m ∧ (1 <= k)%Z ∧ (1 <= m)%Z ∧
  (k + m <= 255)%Z.
Proof.
  intros H.
  assert ((1 <= k)%Z ∧ (1 <= m)%Z ∧ (k + m <= 255)%Z) as (Hk & Hm & Hkm).
  { unfold ec_rs_create in H.
    destruct (Z.ltb_spec k 1), (Z.ltb_spec m 1), (Z.ltb_spec 255 (k + m)); try done. }
  destruct (ec_rs_create_wf k m Hk Hm Hkm) as (e' & He & Hwf & Hek & Hem).
  rewrite H in He. injection He as <-. split_and!; (done || lia).
Qed.

(** ** Shards and codewords *)

Definition shards_wf (n L : nat) (s : list (list byte)) : Prop :=
  length s = n ∧ ∀ i, (i < n)%nat → length (rd [] s i) = L.

Lemma shards_ext n L a b :
  shards_wf n L a → shards_wf n L b →
  (∀ i p, (i < n)%nat → (p < L)%nat → rd x00 (rd [] a i) p = rd x00 (rd [] b i) p) → a = b.
Proof.
  intros [La Ha] [Lb Hb] H. apply (rd_ext []); [lia|]. intros i Hi. rewrite La in Hi.
  apply (rd_ext x00); [by rewrite Ha, Hb|]. intros p Hp. rewrite Ha in Hp by done.
  by apply H.
Qed.

(** The byte at position [p] of shard [r] of the codeword of [data]. *)
Definition code (e : rs_encoding) (data : list (list byte)) (r p : nat) : byte :=
  mat_vec (ec_k e) (gf_matrix_get (rsp_encode (ec_private e)))
    (λ j, rd x00 (rd [] data j) p) r.

Lemma code_systematic e data r p :
  rs_wf e → (r < ec_k e)%nat → code e data r p = rd x00 (rd [] data r) p.
Proof.
  intros He Hr. unfold code.
  etransitivity; [|exact (delta_mat_vec (ec_k e) (λ j, rd x00 (rd [] data j) p) r Hr)].
  apply mat_vec_ext; [|done]. intros i Hi. by apply wf_sys.
Qed.

Lemma rs_encode_spec path e data parity L :
  rs_wf e → shards_wf (ec_k e) L data → shards_wf (ec_m e) L parity →
  ∃ par, rs_encode path e data parity L = (0%Z, par) ∧ shards_wf (ec_m e) L par ∧
    ∀ i p, (i < ec_m e)%nat → (p < L)%nat →
      rd x00 (rd [] par i) p = code e data (ec_k e + i) p.
Proof.
  intros He [Hdl Hd] [Hpl Hp]. eexists. split; [done|].
  set (row := λ i, rs_row path (parity_tbl (ec_private e)) (parity_split_tbl (ec_private e))
    (ec_k e) i (λ j, rd [] data j) L).
  destruct (update_loop [] row (ec_m e) parity ltac:(lia)) as [H1 H2].
  assert (Hrow : ∀ i, (i < ec_m e)%nat → length (row i (rd [] parity i)) = L ∧
    ∀ p, (p < L)%nat → rd x00 (row i (rd [] parity i)) p = code e data (ec_k e + i) p).
  { intros i Hi. apply rs_row_spec; auto using wf_k.
    - intros. by apply wf_tbl.
    - intros. by apply wf_split. }
  split; [split; [etransitivity; [exact H1|done]|]|].
  - intros i Hi. replace (rd [] _ i) with (row i (rd [] parity i)).
    2:{ symmetry. etransitivity; [exact (H2 i)|]. by rewrite decide_True. }
    by apply Hrow.
  - intros i p Hi Hpp. replace (rd [] _ i) with (row i (rd [] parity i)).
    2:{ symmetry. etransitivity; [exact (H2 i)|]. by rewrite decide_True. }
    by apply Hrow.
Qed.

(** ** The decoder's selection of available shards *)

Lemma count_present_S n present :
  count_present (S n) present
  = if rd false present n then S (count_present n present) else count_present n present.
Proof. unfold count_present. by rewrite for_range_S. Qed.

Lemma count_present_le n present : (count_present n present <= n)%nat.
Proof.
  induction n as [|n IH]; [done|]. rewrite count_present_S. case_if; lia.
Qed.

Lemma count_present_all n present :
  count_present n present = n → ∀ i, (i < n)%nat → rd false present i = true.
Proof.
  induction n as [|n IH]; [lia|]. rewrite count_present_S. intros H i Hi.
  pose proof (count_present_le n present).
  destruct (rd false present n) eqn:E; [|lia].
  destruct (decide (i = n)) as [->|]; [done|]. apply IH; lia.
Qed.

Lemma avail_index_spec k n present :
  (k <= count_present n present)%nat →
  length (avail_index k n present) = k ∧
  (∀ a, (a < k)%nat → (rd O (avail_index k n present) a < n)%nat ∧
     rd false present (rd O (avail_index k n present) a) = true) ∧
  (∀ a b, (a < b < k)%nat →
     (rd O (avail_index k n present) a < rd O (avail_index k n present) b)%nat).
Proof.
  intros Hk.
  set (inv := λ i (s : list nat), length s = Nat.min k (count_present i present) ∧
    (∀ a, (a < length s)%nat → (rd O s a < i)%nat ∧ rd false present (rd O s a) = true) ∧
    (∀ a b, (a < b < length s)%nat → (rd O s a < rd O s b)%nat)).
  assert (H : inv n (avail_index k n present)).
  { apply (for0_ind inv).
    { split; [by rewrite Nat.min_0_r|]. split; cbn [length]; intros; lia. }
    intros i s Hi (Hl & Hel & Hs). unfold inv. rewrite count_present_S.
    destruct (Nat.ltb_spec (length s) k), (rd false present i) eqn:E; cbn [andb].
    2-4: split; [lia|]; split; [|done]; intros a Ha; destruct (Hel a Ha); split; [lia|done].
    rewrite length_app. cbn [length]. split; [lia|]. split.
    - intros a Ha. rewrite rd_app. case_decide.
      + destruct (Hel a) as [? ?]; [done|]. split; [lia|done].
      + replace (a - length s)%nat with 0%nat by lia. change (rd O [i] 0) with i.
        split; [lia|done].
    - intros a b Hab. rewrite !rd_app. repeat case_decide; try lia.
      + apply Hs. lia.
      + replace (b - length s)%nat with 0%nat by lia. change (rd O [i] 0) with i.
        by apply Hel. }
  destruct H as (Hl & Hel & Hs). rewrite Nat.min_l in Hl by lia. rewrite Hl in *.
  repeat split; try done; by apply Hel.
Qed.

Lemma need_parity_false k n present :
  (k <= n)%nat → need_parity k n present = false →
  ∀ i, (k <= i < n)%nat → rd false present i = true.
Proof.
  intros Hkn. unfold need_parity.
  pose proof (for_break_ind
    (λ i (_ : unit), ∀ j, (k <= j < i)%nat → rd false present j = true) (λ b, b = true)
    k (n - k) (λ i (_ : unit), if rd false present i then inl tt else inr true) tt) as H.
  replace (k + (n - k))%nat with n in H by lia.
  destruct (for_break _ _ _ _) as [[]|b].
  - intros _. apply H; [intros; lia|]. intros i [] Hi IH.
    destruct (rd false present i) eqn:E; [|done]. intros j Hj.
    destruct (decide (j = i)) as [->|]; [done|]. apply IH; lia.
  - intros Hb. rewrite H in Hb; [done|intros; lia|].
    intros i [] Hi IH. destruct (rd false present i) eqn:E; [|done]. intros j Hj.
    destruct (decide (j = i)) as [->|]; [done|]. apply IH; lia.
Qed.

Lemma count_present_absent n present i :
  (i < n)%nat → rd false present i = false → (count_present n present < n)%nat.
Proof.
  intros Hi E. pose proof (count_present_le n present).
  destruct (decide (count_present n present = n)) as [Heq|]; [|lia].
  by rewrite (count_present_all n present Heq i Hi) in E.
Qed.

(** ** Decoding *)

Section Decode.
Context (path : simd_path) (e : rs_encoding) (data : list (list byte)) (L : nat).
Context (present : list bool).
Context (He : rs_wf e) (Hdata : shards_wf (ec_k e) L data).

Let k := ec_k e.
Let n := (ec_k e + ec_m e)%nat.
Let E := gf_matrix_get (rsp_encode (ec_private e)).

(** The shards with index in [0, hi) that are present or below [lo] carry the
    codeword of [data]. *)
Definition agrees (lo : nat) (s : list (list byte)) : Prop :=
  shards_wf n L s ∧
  ∀ i p, (i < n)%nat → (p < L)%nat → (i < lo)%nat ∨ rd false present i = true →
    rd x00 (rd [] s i) p = code e data i p.

Lemma recover_shards_spec s sub_inv idx :
  agrees 0 s → is_mat k k sub_inv → length idx = k →
  (∀ a, (a < k)%nat → (rd O idx a < n)%nat ∧ rd false present (rd O idx a) = true) →
  (∀ r c, (r < k)%nat → (c < k)%nat →
     mat_vec k (gf_matrix_get sub_inv) (λ i, E (rd O idx i) c) r = delta r c) →
  let rec := recover_shards path k sub_inv idx s L in
  shards_wf k L rec ∧ ∀ r p, (r < k)%nat → (p < L)%nat →
    rd x00 (rd [] rec r) p = rd x00 (rd [] data r) p.
Proof.
  intros [[Hsl Hs] Hag] Hmat Hidx Hav Hinv rec. unfold rec, recover_shards. clear rec.
  pose proof (mul_tables_spec k k sub_inv) as Ht.
  destruct (mul_tables k k sub_inv _) as [tbl stbl].
  unfold tables_ok in Ht. cbn [fst snd] in Ht.
  set (row := λ r, rs_row path tbl stbl k r (λ c, rd [] s (rd O idx c)) L).
  assert (H0 : length (replicate k (replicate L x00)) = k) by apply length_replicate.
  destruct (update_loop [] row k (replicate k (replicate L x00)) ltac:(lia)) as [H1 H2].
  assert (Hrow : ∀ r, (r < k)%nat → length (row r (replicate L x00)) = L ∧
    ∀ p, (p < L)%nat → rd x00 (row r (replicate L x00)) p = rd x00 (rd [] data r) p).
  { intros r Hr.
    destruct (rs_row_spec path tbl stbl k r (λ c, rd [] s (rd O idx c)) L
      (replicate L x00) (gf_matrix_get sub_inv r)) as [Hl Hp].
    - by apply wf_k.
    - apply length_replicate.
    - intros j Hj. apply Hs. by apply Hav.
    - intros j Hj. destruct (Ht r j Hj (flat_index_lt k k r j Hr Hj)) as [H _]. exact H.
    - intros j Hj. destruct (Ht r j Hj (flat_index_lt k k r j Hr Hj)) as [_ H]. exact H.
    - split; [exact Hl|]. intros p Hpp. etransitivity; [exact (Hp p Hpp)|].
      transitivity (mat_vec k (gf_matrix_get sub_inv)
        (mat_vec k (λ i c, E (rd O idx i) c) (λ j, rd x00 (rd [] data j) p)) r).
      { apply gsum_ext. intros j Hj. destruct (Hav j Hj) as [Hlt Hpr].
        rewrite (Hag _ p Hlt Hpp (or_intror Hpr)). reflexivity. }
      rewrite mat_vec_assoc.
      etransitivity; [|exact (delta_mat_vec k (λ j, rd x00 (rd [] data j) p) r Hr)].
      apply mat_vec_ext; [|done]. intros c Hc. by apply Hinv. }
  assert (Hrd : ∀ r, (r < k)%nat → rd [] (for_range 0 k (λ r recovered,
    wr recovered r (row r (rd [] recovered r))) (replicate k (replicate L x00))) r
    = row r (replicate L x00)).
  { intros r Hr. etransitivity; [exact (H2 r)|].
    rewrite decide_True by done. by rewrite rd_replicate_lt. }
  split; [split; [etransitivity; [exact H1|done]|]|].
  - intros r Hr. etransitivity; [exact (f_equal length (Hrd r Hr))|]. by apply Hrow.
  - intros r p Hr Hp.
    etransitivity; [exact (f_equal (λ l, rd x00 l p) (Hrd r Hr))|]. by apply Hrow.
Qed.

Lemma shards_wf_wr s i v :
  shards_wf n L s → length v = L → shards_wf n L (wr s i v).
Proof.
  intros [Hl Hs] Hv. split; [by rewrite length_wr|]. intros j Hj.
  destruct (decide (i < length s)%nat).
  - rewrite rd_wr by done. case_decide; [done|by apply Hs].
  - unfold wr. rewrite list_insert_ge by lia. by apply Hs.
Qed.

Lemma copy_missing_spec s rec :
  agrees 0 s → shards_wf k L rec →
  (∀ r p, (r < k)%nat → (p < L)%nat →
     rd x00 (rd [] rec r) p = rd x00 (rd [] data r) p) →
  agrees k (copy_missing k present rec s L).
Proof.
  intros Hs [Hrl Hr] Hrec. unfold copy_missing. apply (for0_ind agrees); [done|].
  intros i s' Hi [Hwf Hag].
  destruct (rd false present i) eqn:Ep.
  - split; [done|]. intros j p Hj Hp Hor. apply Hag; [done..|].
    destruct (decide (j = i)) as [->|]; [by right|].
    destruct Hor; [left; lia|by right].
  - pose proof (Hr i Hi) as Hri. destruct Hwf as [Hwl Hw].
    pose proof (Hw i ltac:(unfold n; lia)) as Hwi. assert (Hwf : shards_wf n L s') by done.
    rewrite take_ge, splice_all by lia.
    split; [apply shards_wf_wr; [done|by apply Hr]|]. intros j p Hj Hp Hor.
    rewrite rd_wr by (destruct Hwf as [-> _]; unfold n; lia).
    case_decide as Hji.
    + subst j. rewrite Hrec by done. symmetry. by apply code_systematic.
    + apply Hag; [done..|]. destruct Hor; [left; lia|by right].
Qed.

Lemma regen_parity_spec s rec :
  agrees k s → shards_wf k L rec →
  (∀ r p, (r < k)%nat → (p < L)%nat →
     rd x00 (rd [] rec r) p = rd x00 (rd [] data r) p) →
  agrees n (regen_parity path e present rec s L).
Proof.
  intros Hs [Hrl Hr] Hrec. unfold regen_parity. cbv zeta. unfold n.
  apply (for0_ind (λ i s, agrees (k + i) s)); [by rewrite Nat.add_0_r|].
  intros i s' Hi [Hwf Hag]. pose proof Hwf as [Hsl Hsh]. fold k.
  destruct (rd false present (k + i)) eqn:Ep.
  - split; [done|]. intros j p Hj Hp Hor. apply Hag; [done..|].
    destruct (decide (j = k + i)%nat) as [->|]; [by right|].
    destruct Hor; [left; lia|by right].
  - set (src := λ j, if rd false present j then rd [] s' j else rd [] rec j).
    assert (Hsrc : ∀ j, (j < k)%nat → length (src j) = L ∧
      ∀ p, (p < L)%nat → rd x00 (src j) p = rd x00 (rd [] data j) p).
    { intros j Hj. unfold src. case_if.
      - split; [apply Hsh; unfold n; lia|]. intros p Hp.
        rewrite Hag by (unfold n; auto; lia). by apply code_systematic.
      - split; [by apply Hr|]. intros. by apply Hrec. }
    destruct (rs_row_spec path (parity_tbl (ec_private e)) (parity_split_tbl (ec_private e))
      k i src L (rd [] s' (k + i)) (E (k + i)%nat)) as [Hl Hrow].
    + by apply wf_k.
    + apply Hsh. unfold n. lia.
    + intros j Hj. by apply Hsrc.
    + intros j Hj. by apply wf_tbl.
    + intros j Hj. by apply wf_split.
    + split; [by apply shards_wf_wr|]. intros j p Hj Hp Hor.
      rewrite rd_wr by (rewrite Hsl; unfold n; lia). case_decide as Hji.
      * subst j. etransitivity; [exact (Hrow p Hp)|]. apply gsum_ext.
        intros j Hj'. destruct (Hsrc j Hj') as [_ Hv]. by rewrite (Hv p Hp).
      * apply Hag; [done..|]. destruct Hor; [left; lia|by right].
Qed.

Lemma rs_decode_spec s :
  agrees 0 s → (k <= count_present n present)%nat →
  ∃ s', rs_decode path e s present L = (0%Z, s') ∧ agrees n s'.
Proof.
  intros Hs Hc. unfold rs_decode. cbv zeta. fold n. fold k.
  destruct (Nat.ltb_spec (count_present n present) k); [lia|].
  destruct (Nat.eqb_spec (count_present n present) n) as [Hall|Hnall].
  { exists s. split; [reflexivity|]. destruct Hs as [Hwf Hag]. split; [done|].
    intros i p Hi Hp _. apply Hag; [done..|]. right.
    by apply (count_present_all n present Hall). }
  destruct (avail_index_spec k n present Hc) as (Hil & Hiel & His).
  set (idx := avail_index k n present) in *. clearbody idx.
  pose proof (wf_k e He) as Hk. fold k in Hk.
  destruct (gf_matrix_create_some k k Hk Hk) as [z Hz]. rewrite Hz.
  destruct (is_mat_create _ _ _ Hz) as [Hzm _].
  destruct (fill_mat_spec k k (λ r c, E (rd O idx r) c) z Hzm) as [Hsub Hsubent].
  change (decode_submatrix k (rsp_encode (ec_private e)) z idx)
    with (fill_mat k k (λ r c, E (rd O idx r) c) z).
  set (sub := fill_mat k k _ z) in *. clearbody sub.
  assert (Hsel : selects k n (rd O idx)).
  { split; [intros r Hr; by apply Hiel|]. intros a b Ha Hb Hab.
    destruct (Nat.lt_total a b) as [H'|[H'|H']]; [|done|].
    - specialize (His a b ltac:(lia)). lia.
    - specialize (His b a ltac:(lia)). lia. }
  destruct (gf_matrix_invert_spec k sub z Hk Hsub Hzm)
    as [(inv & -> & Him & Hinv & _)|(o & _ & x & Hx & i & Hi & Hnz)].
  2:{ exfalso. apply Hnz. refine (wf_mds e He _ Hsel x _ i Hi).
      intros r Hr. rewrite <-(Hx r Hr). apply gsum_ext.
      intros c Hc'. by rewrite Hsubent. }
  cbn [Z.ltb Z.compare].
  destruct (recover_shards_spec s inv idx Hs Him Hil Hiel) as [Hrw Hrec].
  { intros r c Hr Hc'. rewrite <-Hinv by done. apply mat_vec_ext; [done|].
    intros i Hi. by rewrite Hsubent. }
  set (rec := recover_shards path k inv idx s L) in *. clearbody rec.
  pose proof (copy_missing_spec s rec Hs Hrw Hrec) as Hcopy.
  eexists. split; [done|]. case_if; [by apply regen_parity_spec|].
  destruct Hcopy as [Hwf Hag]. split; [done|]. intros i p Hi Hp _.
  apply Hag; [done..|]. destruct (decide (i < k)%nat); [by left|right].
  apply (need_parity_false k n present); [unfold k, n; lia|done|lia].
Qed.
End Decode.

End RSCorrect.
