(* ===== verification/Erasure.v ===== *)
(** * The other encodings and the encoding interface
      ([src/lib/ec/xor.c], [src/lib/ec/mirror.c], [src/lib/ec/stripe.c],
      [src/lib/include/reffs/ec.h])

    Single XOR parity, replication (with the buffer aliasing the code allows)
    and pure striping, and the contract of [struct ec_encoding] as a class that
    the encodings are instances of. *)

From S2P Require Import Prelude.
From S2P Require Import GF256.
From S2P Require Import Matrix.
From S2P Require Import ReedSolomon.
From S2P Require Import RSCorrect.
Import GF Matrix RS RSCorrect.

Module Erasure.

(** ** XOR single parity *)

Definition XOR_MAX_DATA : Z := 254.

Definition ec_xor_create (k : Z) : option nat :=
  if (k <? 1)%Z || (XOR_MAX_DATA <? k)%Z then None else Some (Z.to_nat k).

(** [for (p = 0; p < len; p++) dst[p] ^= src[p]]. *)
Definition xor_into (len : nat) (src dst : list byte) : list byte :=
  for_range 0 len (λ p d, wr d p (bxor (rd x00 d p) (rd x00 src p))) dst.

Definition xor_encode (k : nat) (data parity : list (list byte)) (shard_len : nat)
    : Z * list (list byte) :=
  if (shard_len =? 0)%nat then (0%Z, parity)
  else
    let parity :=
      wr parity 0 (splice 0 (take shard_len (rd [] data 0)) (rd [] parity 0)) in
    (0%Z, for_range 1 (k - 1) (λ i parity,
            wr parity 0 (xor_into shard_len (rd [] data i) (rd [] parity 0))) parity).

Definition xor_decode (k : nat) (shards : list (list byte)) (present : list bool)
    (shard_len : nat) : Z * list (list byte) :=
  let n := (k + 1)%nat in
  let '(missing, missing_count) :=
    for_range 0 n (λ i s,
      if rd false present i then s else (Z.of_nat i, S (snd s))) ((-1)%Z, O) in
  if (missing_count =? 0)%nat then (0%Z, shards)
  else if (1 <? missing_count)%nat then ((- EIO)%Z, shards)
  else if (shard_len =? 0)%nat then (0%Z, shards)
  else
    let mi := Z.to_nat missing in
    let shards :=
      wr shards mi (splice 0 (replicate shard_len x00) (rd [] shards mi)) in
    (0%Z, for_range 0 n (λ i shards,
            if (i =? mi)%nat then shards
            else wr shards mi (xor_into shard_len (rd [] shards i) (rd [] shards mi)))
            shards).

(** ** Mirroring

    The shard arguments are arrays of pointers, any of which may be null or
    alias another; [mem] holds the buffers they point to. *)

Definition ptrs := option (list (option nat)).

Definition ec_mirror_create (k : Z) : option nat :=
  if (k <? 1)%Z || (255 <? k)%Z then None else Some (Z.to_nat k).

Definition memcpy_buf (mem : list (list byte)) (dst src len : nat) : list (list byte) :=
  wr mem dst (splice 0 (take len (rd [] mem src)) (rd [] mem dst)).

Definition mirror_encode (k : nat) (data : ptrs) (mem : list (list byte))
    (shard_len : nat) : Z * list (list byte) :=
  match data with
  | None => ((- EINVAL)%Z, mem)
  | Some data =>
      match rd None data 0 with
      | None => ((- EINVAL)%Z, mem)
      | Some d0 =>
          match for_break 1 (k - 1) (λ i mem,
            match rd None data i with
            | None => inr ((- EINVAL)%Z, mem)
            | Some di =>
                if (di =? d0)%nat then inl mem
                else inl (memcpy_buf mem di d0 shard_len)
            end) mem with
          | inl mem => (0%Z, mem)
          | inr r => r
          end
      end
  end.

(** The first present replica. *)
Definition mirror_source (k : nat) (present : list bool) : Z :=
  match for_break 0 k (λ i (_ : unit),
    if rd false present i then inr (Z.of_nat i) else inl tt) tt with
  | inl _ => (-1)%Z
  | inr src => src
  end.

Definition mirror_decode (k : nat) (shards : ptrs) (mem : list (list byte))
    (present : list bool) (shard_len : nat) : Z * list (list byte) :=
  let src := mirror_source k present in
  if (src <? 0)%Z then ((- EIO)%Z, mem)
  else
    match shards with
    | None => ((- EINVAL)%Z, mem)
    | Some shards =>
        match rd None shards (Z.to_nat src) with
        | None => ((- EINVAL)%Z, mem)
        | Some s0 =>
            match for_break 0 k (λ i mem,
              if rd false present i then inl mem
              else
                match rd None shards i with
                | None => inr ((- EINVAL)%Z, mem)
                | Some si =>
                    if (si =? s0)%nat then inl mem
                    else inl (memcpy_buf mem si s0 shard_len)
                end) mem with
            | inl mem => (0%Z, mem)
            | inr r => r
            end
        end
    end.

(** ** Striping *)

Definition ec_stripe_create (k : Z) : option nat :=
  if (k <? 1)%Z || (255 <? k)%Z then None else Some (Z.to_nat k).

Definition stripe_encode (k : nat) (data parity : list (list byte)) (shard_len : nat)
    : Z * list (list byte) := (0%Z, parity).

Definition stripe_decode (k : nat) (shards : list (list byte)) (present : list bool)
    (shard_len : nat) : Z * list (list byte) :=
  match for_break 0 k (λ i (_ : unit),
    if rd false present i then inl tt else inr (- EIO)%Z) tt with
  | inl _ => (0%Z, shards)
  | inr ret => (ret, shards)
  end.

(** ** XOR parity recovers any single shard *)

Lemma xor_into_spec len src dst :
  (len <= length dst)%nat →
  length (xor_into len src dst) = length dst ∧
  ∀ p, rd x00 (xor_into len src dst) p
       = if decide (p < len)%nat then bxor (rd x00 dst p) (rd x00 src p) else rd x00 dst p.
Proof.
  intros H. exact (update_loop x00 (λ p x, bxor x (rd x00 src p)) len dst H).
Qed.

(** A shard list whose parity slot is the XOR of the data shards. *)
Definition xor_code (data : list (list byte)) (k i p : nat) : byte :=
  if decide (i < k)%nat then rd x00 (rd [] data i) p
  else gsum k (λ j, rd x00 (rd [] data j) p).

Lemma xor_encode_spec k data parity L :
  (0 < k)%nat → shards_wf k L data → shards_wf 1 L parity →
  ∃ par, xor_encode k data parity L = (0%Z, par) ∧ shards_wf 1 L par ∧
    ∀ p, (p < L)%nat → rd x00 (rd [] par 0) p = gsum k (λ j, rd x00 (rd [] data j) p).
Proof.
  intros Hk [Hdl Hd] [Hpl Hp]. unfold xor_encode.
  destruct (Nat.eqb_spec L 0) as [->|].
  { exists parity. repeat split; [done..|]. intros; lia. }
  eexists. split; [done|].
  specialize (Hp 0%nat ltac:(lia)).
  rewrite take_ge by (rewrite Hd; lia).
  rewrite splice_all by (rewrite Hd, Hp; lia).
  set (par1 := wr parity 0 (rd [] data 0)).
  set (inv := λ i s, length s = 1%nat ∧ length (rd [] s 0) = L ∧
    ∀ p, (p < L)%nat → rd x00 (rd [] s 0) p = gsum i (λ j, rd x00 (rd [] data j) p)).
  assert (H : inv (1 + (k - 1))%nat (for_range 1 (k - 1) (λ i parity,
    wr parity 0 (xor_into L (rd [] data i) (rd [] parity 0))) par1)).
  { apply (for_range_ind inv).
    - unfold inv, par1. rewrite length_wr, rd_wr by lia. rewrite decide_True by done.
      split; [done|]. split; [by apply Hd|]. intros p Hp'.
      rewrite gsum_S_l. symmetry. apply bxor_0_r.
    - intros i s Hi (Hl & Hl0 & Hs). unfold inv. rewrite length_wr, rd_wr by lia.
      rewrite decide_True by done.
      destruct (xor_into_spec L (rd [] data i) (rd [] s 0) ltac:(lia)) as [H1 H2].
      split; [done|]. split; [lia|]. intros p Hp'. rewrite H2, decide_True by done.
      rewrite Hs, gsum_S by done. done. }
  replace (1 + (k - 1))%nat with k in H by lia. destruct H as (H1 & H2 & H3).
  split; [|done]. split; [done|]. intros i Hi. by replace i with 0%nat by lia.
Qed.

(** Summing every term but one. *)
Lemma gsum_skip n f j :
  (j < n)%nat →
  gsum n (λ i, if (i =? j)%nat then x00 else f i) = gf_add (gsum n f) (f j).
Proof.
  intros Hj.
  transitivity (gsum n (λ i, gf_add (f i) (gf_mul (f i) (delta i j)))).
  - apply gsum_ext. intros i Hi. unfold delta.
    destruct (Nat.eqb_spec i j); case_decide; try done.
    + rewrite gf_mul_1_r. symmetry. apply bxor_nilpotent.
    + rewrite gf_mul_0_r. symmetry. apply bxor_0_r.
  - rewrite gsum_add. by rewrite gsum_delta_r.
Qed.

Lemma xor_code_total data k p :
  gsum (k + 1) (λ i, xor_code data k i p) = x00.
Proof.
  rewrite Nat.add_1_r, gsum_S. unfold xor_code at 2. rewrite decide_False by lia.
  rewrite (gsum_ext k _ (λ j, rd x00 (rd [] data j) p)).
  - apply gf_add_self.
  - intros i Hi. unfold xor_code. by rewrite decide_True.
Qed.

(** The scan of [present]: the count of missing shards and the last one. *)
Lemma missing_scan n present :
  let '(missing, cnt) := for_range 0 n (λ i s,
      if rd false present i then s else (Z.of_nat i, S (snd s))) ((-1)%Z, O) in
  (cnt + count_present n present = n)%nat ∧
  (cnt = O → ∀ i, (i < n)%nat → rd false present i = true) ∧
  (cnt = 1%nat → ∃ j, missing = Z.of_nat j ∧ (j < n)%nat ∧ rd false present j = false ∧
     ∀ i, (i < n)%nat → i ≠ j → rd false present i = true).
Proof.
  induction n as [|n IH]; [cbn; repeat split; intros; try lia; done|].
  rewrite for_range_S, count_present_S. cbn [Nat.add].
  destruct (for_range 0 n _ _) as [missing cnt]. destruct IH as (IH1 & IH2 & IH3).
  destruct (rd false present n) eqn:E; cbn [snd].
  - split; [lia|]. split.
    + intros H i Hi. destruct (decide (i = n)) as [->|]; [done|]. apply IH2; [done|lia].
    + intros H. destruct (IH3 H) as (j & -> & Hj & Hp & Hr). exists j.
      repeat split; [lia|done|]. intros i Hi Hne.
      destruct (decide (i = n)) as [->|]; [done|]. apply Hr; [lia|done].
  - split; [lia|]. split; [lia|]. intros H. exists n. repeat split; [lia|done|].
    intros i Hi Hne. apply IH2; lia.
Qed.

Lemma xor_decode_spec k data shards present L :
  shards_wf (k + 1) L shards →
  (∀ i p, (i < k + 1)%nat → (p < L)%nat → rd false present i = true →
     rd x00 (rd [] shards i) p = xor_code data k i p) →
  (k <= count_present (k + 1) present)%nat →
  ∃ s', xor_decode k shards present L = (0%Z, s') ∧ shards_wf (k + 1) L s' ∧
    ∀ i p, (i < k + 1)%nat → (p < L)%nat →
      rd x00 (rd [] s' i) p = xor_code data k i p.
Proof.
  intros Hwf Hag Hcnt. pose proof Hwf as [Hsl Hs]. unfold xor_decode.
  pose proof (missing_scan (k + 1) present) as H.
  destruct (for_range 0 (k + 1) _ _) as [missing cnt]. destruct H as (H1 & H2 & H3).
  destruct (Nat.eqb_spec cnt 0) as [E|E].
  { exists shards. repeat split; [done..|]. intros i p Hi Hp. apply Hag; auto. }
  destruct (Nat.ltb_spec 1 cnt); [lia|].
  destruct (Nat.eqb_spec L 0) as [->|].
  { exists shards. repeat split; [done..|]. intros; lia. }
  destruct (H3 ltac:(lia)) as (j & -> & Hj & Hpj & Hrest). rewrite Nat2Z.id.
  eexists. split; [done|].
  rewrite splice_all by (rewrite length_replicate, Hs; done).
  set (s1 := wr shards j (replicate L x00)).
  set (inv := λ i s, shards_wf (k + 1) L s ∧
    (∀ i, (i < k + 1)%nat → i ≠ j → rd [] s i = rd [] shards i) ∧
    ∀ p, (p < L)%nat → rd x00 (rd [] s j) p
      = gsum i (λ i, if (i =? j)%nat then x00 else xor_code data k i p)).
  assert (HI : inv (k + 1)%nat (for_range 0 (k + 1) (λ i shards,
    if (i =? j)%nat then shards
    else wr shards j (xor_into L (rd [] shards i) (rd [] shards j))) s1)).
  { apply (for0_ind inv).
    - unfold inv, s1. split; [|split].
      + split; [by rewrite length_wr|]. intros i Hi. rewrite rd_wr by lia.
        case_decide; [apply length_replicate|by apply Hs].
      + intros i Hi Hne. by rewrite rd_wr, decide_False by (lia || done).
      + intros p Hp. rewrite rd_wr, decide_True by (lia || done). apply rd_replicate.
    - intros i s Hi (Hswf & Hoth & Hj'). pose proof Hswf as [Hsl' Hs'].
      destruct (Nat.eqb_spec i j) as [->|Hij].
      + split; [done|]. split; [done|]. intros p Hp. rewrite Hj', gsum_S by done.
        rewrite Nat.eqb_refl. symmetry. apply bxor_0_r.
      + destruct (xor_into_spec L (rd [] s i) (rd [] s j)) as [X1 X2]; [by rewrite Hs'|].
        split; [|split].
        * split; [by rewrite length_wr|]. intros i' Hi'. rewrite rd_wr by lia.
          case_decide; [by rewrite X1, Hs'|by apply Hs'].
        * intros i' Hi' Hne. rewrite rd_wr, decide_False by (lia || done). by apply Hoth.
        * intros p Hp. rewrite rd_wr, decide_True by (lia || done).
          rewrite X2, decide_True, Hj', gsum_S by done.
          destruct (Nat.eqb_spec i j); [done|].
          rewrite Hoth by done. rewrite Hag by auto. done. }
  destruct HI as (Hw & Hoth & Hrec). split; [done|]. intros i p Hi Hp.
  destruct (decide (i = j)) as [->|].
  - rewrite Hrec, gsum_skip, xor_code_total by done. apply bxor_0_l.
  - rewrite Hoth by done. apply Hag; auto.
Qed.

Lemma xor_decode_few k shards present L :
  (count_present (k + 1) present < k)%nat →
  xor_decode k shards present L = ((- EIO)%Z, shards).
Proof.
  intros Hc. unfold xor_decode. pose proof (missing_scan (k + 1) present) as H.
  destruct (for_range 0 (k + 1) _ _) as [missing cnt]. destruct H as (H1 & _ & _).
  destruct (Nat.eqb_spec cnt 0); [lia|]. by destruct (Nat.ltb_spec 1 cnt); [|lia].
Qed.

(** ** Replication fills every missing replica, whatever the aliasing *)

(** Buffer [p] is allocated and holds at least [len] bytes. *)
Definition valid_buf (mem : list (list byte)) (len p : nat) : Prop :=
  (p < length mem)%nat ∧ (len <= length (rd [] mem p))%nat.

Lemma memcpy_buf_other mem dst src len q :
  q ≠ dst → rd [] (memcpy_buf mem dst src len) q = rd [] mem q.
Proof.
  intros Hq. unfold memcpy_buf. destruct (decide (dst < length mem)%nat).
  - by rewrite rd_wr, decide_False.
  - unfold wr. by rewrite list_insert_ge by lia.
Qed.

Lemma memcpy_buf_spec mem dst src len :
  valid_buf mem len dst → valid_buf mem len src →
  length (rd [] (memcpy_buf mem dst src len) dst) = length (rd [] mem dst) ∧
  take len (rd [] (memcpy_buf mem dst src len) dst) = take len (rd [] mem src) ∧
  drop len (rd [] (memcpy_buf mem dst src len) dst) = drop len (rd [] mem dst).
Proof.
  intros [Hd Hdl] [Hs Hsl]. unfold memcpy_buf. rewrite rd_wr, decide_True by done.
  assert (Hl : length (take len (rd [] mem src)) = len) by (rewrite length_take; lia).
  unfold splice. rewrite take_0, app_nil_l, Hl, length_app, length_drop, Hl.
  rewrite take_app_le, take_ge, drop_app_ge, Hl, Nat.sub_diag by lia.
  split; [cbn; lia|]. done.
Qed.

Lemma length_memcpy_buf mem dst src len : length (memcpy_buf mem dst src len) = length mem.
Proof. apply length_wr. Qed.

Section Mirror.
Context (k len s0 : nat) (ps : list (option nat)) (mem : list (list byte)).
Context (skip : nat → bool).

(** The copy loop of both operations. *)
Definition mirror_copy (i : nat) (mem : list (list byte)) : list (list byte) + Z * list (list byte) :=
  if skip i then inl mem
  else
    match rd None ps i with
    | None => inr ((- EINVAL)%Z, mem)
    | Some si =>
        if (si =? s0)%nat then inl mem else inl (memcpy_buf mem si s0 len)
    end.

(** After the loop over [lo, hi): the source is untouched, every replica not
    skipped holds its bytes, every other buffer is unchanged. *)
Definition mirrored (lo hi : nat) (mem' : list (list byte)) : Prop :=
  length mem' = length mem ∧
  rd [] mem' s0 = rd [] mem s0 ∧
  (∀ p, length (rd [] mem' p) = length (rd [] mem p) ∧
        drop len (rd [] mem' p) = drop len (rd [] mem p)) ∧
  (∀ i p, (lo <= i < hi)%nat → skip i = false → rd None ps i = Some p →
     take len (rd [] mem' p) = take len (rd [] mem s0)) ∧
  (∀ p, (∀ i, (lo <= i < hi)%nat → skip i = false → rd None ps i ≠ Some p) →
     rd [] mem' p = rd [] mem p).

Lemma mirrored_skip lo i m :
  mirrored lo i m →
  (∀ p, skip i = false → rd None ps i = Some p →
     take len (rd [] m p) = take len (rd [] mem s0)) →
  mirrored lo (S i) m.
Proof.
  intros (H1 & H2 & H3 & H4 & H5) Hi. split; [done|]. split; [done|]. split; [done|].
  split.
  - intros j p Hj Hsk Hp. destruct (decide (j = i)) as [->|]; [by apply Hi|].
    apply (H4 j); [lia|done..].
  - intros p Hp. apply H5. intros j Hj. apply Hp. lia.
Qed.

Lemma mirrored_memcpy lo i m q :
  valid_buf mem len s0 → valid_buf mem len q → (lo <= i)%nat →
  mirrored lo i m → skip i = false → rd None ps i = Some q → q ≠ s0 →
  mirrored lo (S i) (memcpy_buf m q s0 len).
Proof.
  intros Hs0 Hqv Hlo (H1 & H2 & H3 & H4 & H5) Ek Hq Hne.
  assert (Hv : ∀ p, valid_buf mem len p → valid_buf m len p)
    by (intros p [Ha Hb]; destruct (H3 p); split; lia).
  destruct (memcpy_buf_spec m q s0 len (Hv _ Hqv) (Hv _ Hs0)) as (M1 & M2 & M3).
  split; [by rewrite length_memcpy_buf|]. split; [by rewrite memcpy_buf_other|].
  split; [|split].
  - intros p. destruct (decide (p = q)) as [->|].
    + destruct (H3 q); split; congruence.
    + rewrite memcpy_buf_other by done. apply H3.
  - intros j p Hj Hsk Hp. destruct (decide (p = q)) as [->|]; [congruence|].
    rewrite memcpy_buf_other by done. apply (H4 j); [|done..].
    destruct (decide (j = i)); [congruence|lia].
  - intros p Hp. destruct (decide (p = q)) as [->|].
    + by destruct (Hp i ltac:(lia) Ek).
    + rewrite memcpy_buf_other by done. apply H5. intros j Hj. apply Hp. lia.
Qed.

Lemma mirror_copy_loop lo n :
  valid_buf mem len s0 →
  (∀ i, (lo <= i < lo + n)%nat → skip i = false →
     ∃ p, rd None ps i = Some p ∧ valid_buf mem len p) →
  ∃ mem', for_break lo n mirror_copy mem = inl mem' ∧ mirrored lo (lo + n) mem'.
Proof.
  intros Hs0 Hval.
  assert (H : match for_break lo n mirror_copy mem with
              | inl m => mirrored lo (lo + n) m | inr _ => False end).
  { apply (for_break_ind (mirrored lo) (λ _, False)).
    { split_and!; [done..|intros; lia|done]. }
    intros i m Hi HI. unfold mirror_copy. destruct (skip i) eqn:Ek.
    { apply mirrored_skip; [done|congruence]. }
    destruct (Hval i Hi Ek) as (q & Hq & Hqv). rewrite Hq.
    destruct (Nat.eqb_spec q s0) as [->|Hne]; [|apply mirrored_memcpy; (lia || done)].
    apply mirrored_skip; [done|]. intros p _ Hp. destruct HI as (_ & HI & _). congruence. }
  destruct (for_break lo n mirror_copy mem) as [mem'|r]; [by exists mem'|done].
Qed.
End Mirror.

Lemma mirror_source_spec k present :
  let src := mirror_source k present in
  (src = (-1)%Z ∧ ∀ i, (i < k)%nat → rd false present i = false) ∨
  ∃ j, src = Z.of_nat j ∧ (j < k)%nat ∧ rd false present j = true ∧
    ∀ i, (i < j)%nat → rd false present i = false.
Proof.
  unfold mirror_source.
  pose proof (for_break_ind (S := unit)
    (λ i _, ∀ j, (j < i)%nat → rd false present j = false)
    (λ r, ∃ j, r = Z.of_nat j ∧ (j < k)%nat ∧ rd false present j = true ∧
       ∀ i, (i < j)%nat → rd false present i = false)
    0 k (λ i _, if rd false present i then inr (Z.of_nat i) else inl tt) tt) as H.
  cbv zeta. destruct (for_break 0 k _ tt) as [[]|r].
  - left. split; [done|]. apply H; [intros; lia|]. clear H.
    intros i [] Hi Hj. destruct (rd false present i) eqn:E; [by exists i; repeat split; [lia|..]|].
    intros j Hlt. destruct (decide (j = i)) as [->|]; [done|apply Hj; lia].
  - right. apply H; [intros; lia|]. clear H.
    intros i [] Hi Hj. destruct (rd false present i) eqn:E; [by exists i; repeat split; [lia|..]|].
    intros j Hlt. destruct (decide (j = i)) as [->|]; [done|apply Hj; lia].
Qed.

Lemma stripe_decode_spec k shards present L :
  stripe_decode k shards present L
  = if (count_present k present =? k)%nat then (0%Z, shards) else ((- EIO)%Z, shards).
Proof.
  unfold stripe_decode.
  pose proof (for_break_ind (S := unit) (λ i _, count_present i present = i)
    (λ r, r = (- EIO)%Z ∧ (count_present k present < k)%nat) 0 k
    (λ i _, if rd false present i then inl tt else inr (- EIO)%Z) tt) as H.
  destruct (for_break 0 k _ tt) as [[]|r].
  - replace (count_present k present) with k; [by rewrite Nat.eqb_refl|]. symmetry.
    apply H; [done|]. clear H. intros i [] Hi Hc. destruct (rd false present i) eqn:E.
    + rewrite count_present_S, E. lia.
    + split; [done|]. apply count_present_absent with i; [lia|done].
  - destruct H as [-> Hlt]; [done| |].
    + intros i [] Hi Hc. destruct (rd false present i) eqn:E.
      * rewrite count_present_S, E. lia.
      * split; [done|]. apply count_present_absent with i; [lia|done].
    + by destruct (Nat.eqb_spec (count_present k present) k); [lia|].
Qed.

(** ** The contract of [struct ec_encoding]

    What the stripe readers and writers rely on: [ec_encode] turns the data
    shards into a stripe of [ec_n] shards, and [ec_decode] rebuilds the stripe
    when at most [ec_tol] shards are missing and fails with [-EIO], touching
    nothing, when more are. *)
Class ErasureCode (E : Type) := {
  ec_valid : E → Prop;
  ec_n : E → nat;
  ec_tol : E → nat;
  ec_codeword : E → nat → list (list byte) → Prop;
  ec_decode : E → list (list byte) → list bool → nat → Z * list (list byte);
  ec_tol_lt : ∀ e, ec_valid e → (ec_tol e < ec_n e)%nat;
  ec_codeword_wf : ∀ e L s, ec_valid e → ec_codeword e L s → shards_wf (ec_n e) L s;
  ec_decode_ok : ∀ e L s s' present, ec_valid e → ec_codeword e L s →
    shards_wf (ec_n e) L s' →
    (∀ i, (i < ec_n e)%nat → rd false present i = true → rd [] s' i = rd [] s i) →
    (ec_n e - ec_tol e <= count_present (ec_n e) present)%nat →
    ec_decode e s' present L = (0%Z, s);
  ec_decode_few : ∀ e L s' present, ec_valid e →
    (count_present (ec_n e) present < ec_n e - ec_tol e)%nat →
    ec_decode e s' present L = ((- EIO)%Z, s') }.

(** Reed-Solomon, whichever inner loops were compiled in. *)
Record rs_code := mk_rs_code { rc_path : simd_path; rc_enc : rs_encoding }.

Definition rs_codeword (c : rs_code) (L : nat) (s : list (list byte)) : Prop :=
  ∃ data parity, shards_wf (ec_k (rc_enc c)) L data ∧ shards_wf (ec_m (rc_enc c)) L parity ∧
    ∃ par, rs_encode (rc_path c) (rc_enc c) data parity L = (0%Z, par) ∧ s = data ++ par.

Lemma shards_wf_app a b L s t :
  shards_wf a L s → shards_wf b L t → shards_wf (a + b) L (s ++ t).
Proof.
  intros [H1 H2] [H3 H4]. split; [rewrite length_app; lia|].
  intros i Hi. rewrite rd_app. case_decide; [apply H2; lia|apply H4; lia].
Qed.

Lemma rs_codeword_spec c L s :
  rs_wf (rc_enc c) → rs_codeword c L s →
  ∃ data, shards_wf (ec_k (rc_enc c)) L data ∧
    shards_wf (ec_k (rc_enc c) + ec_m (rc_enc c)) L s ∧
    ∀ i p, (i < ec_k (rc_enc c) + ec_m (rc_enc c))%nat → (p < L)%nat →
      rd x00 (rd [] s i) p = code (rc_enc c) data i p.
Proof.
  intros He (data & parity & Hd & Hp & par & Henc & ->). exists data. split; [done|].
  destruct (rs_encode_spec (rc_path c) (rc_enc c) data parity L He Hd Hp)
    as (par' & Henc' & Hpar & Hcode).
  assert (par' = par) as -> by congruence. split; [by apply shards_wf_app|].
  intros i p Hi Hpp. destruct Hd as [Hdl Hd]. rewrite rd_app, Hdl. case_decide.
  - by rewrite code_systematic.
  - rewrite Hcode by (lia || done).
    by replace (ec_k (rc_enc c) + (i - ec_k (rc_enc c)))%nat with i by lia.
Qed.

Definition rs_valid (c : rs_code) : Prop := ∃ k m, ec_rs_create k m = Some (rc_enc c).

Lemma rs_valid_wf c : rs_valid c → rs_wf (rc_enc c) ∧ (0 < ec_k (rc_enc c))%nat.
Proof. intros (k & m & H). apply ec_rs_create_inv in H. split; [by destruct H|lia]. Qed.

Lemma rs_decode_codeword c L s s' present :
  rs_valid c → rs_codeword c L s →
  let n := (ec_k (rc_enc c) + ec_m (rc_enc c))%nat in
  shards_wf n L s' →
  (∀ i, (i < n)%nat → rd false present i = true → rd [] s' i = rd [] s i) →
  (ec_k (rc_enc c) <= count_present n present)%nat →
  ∀ path, rs_decode path (rc_enc c) s' present L = (0%Z, s).
Proof.
  intros Hv Hs n Hs' Hag Hc path. destruct (rs_valid_wf c Hv) as [He _].
  destruct (rs_codeword_spec c L s He Hs) as (data & Hd & Hwf & Hcode).
  destruct (rs_decode_spec path (rc_enc c) data L present He s') as (s'' & -> & Hag').
  - split; [done|]. intros i p Hi Hp [|Hpr]; [lia|]. rewrite Hag by done. by apply Hcode.
  - done.
  - f_equal. destruct Hag' as [Hwf' Hag']. apply (shards_ext n L); [done..|].
    intros i p Hi Hp. rewrite Hcode by done. apply Hag'; [done..|by left].
Qed.

Lemma rs_decode_unrecoverable path e shards present L :
  (count_present (ec_k e + ec_m e) present < ec_k e)%nat →
  rs_decode path e shards present L = ((- EIO)%Z, shards).
Proof. intros H. unfold rs_decode. by destruct (Nat.ltb_spec (count_present (ec_k e + ec_m e) present) (ec_k e)); [|lia]. Qed.

#[global] Program Instance rs_erasure_code : ErasureCode rs_code := {
  ec_valid := rs_valid;
  ec_n c := (ec_k (rc_enc c) + ec_m (rc_enc c))%nat;
  ec_tol c := ec_m (rc_enc c);
  ec_codeword := rs_codeword;
  ec_decode c := rs_decode (rc_path c) (rc_enc c) }.
Next Obligation. intros c Hc. destruct (rs_valid_wf c Hc). lia. Qed.
Next Obligation.
  intros c L s Hv Hs. destruct (rs_valid_wf c Hv) as [He _].
  by destruct (rs_codeword_spec c L s He Hs) as (data & _ & H & _).
Qed.
Next Obligation.
  intros c L s s' present Hv Hs Hwf Hag Hc.
  apply (rs_decode_codeword c L s); [done..|]. cbn in *. lia.
Qed.
Next Obligation. intros c L s' present _ Hc. apply rs_decode_unrecoverable. cbn in *. lia. Qed.

(** XOR parity, [k] data shards. *)
Record xor_code_t := mk_xor { xc_k : nat }.

Definition xor_codeword (c : xor_code_t) (L : nat) (s : list (list byte)) : Prop :=
  ∃ data parity par, shards_wf (xc_k c) L data ∧ shards_wf 1 L parity ∧
    xor_encode (xc_k c) data parity L = (0%Z, par) ∧ s = data ++ par.

Definition xor_valid (c : xor_code_t) : Prop := ∃ k, ec_xor_create k = Some (xc_k c).

Lemma xor_valid_pos c : xor_valid c → (0 < xc_k c)%nat.
Proof.
  intros [k H]. unfold ec_xor_create in H. destruct (Z.ltb_spec k 1); [done|].
  cbn [orb] in H. case_match; simplify_eq. lia.
Qed.

Lemma xor_codeword_spec c L s :
  xor_valid c → xor_codeword c L s →
  ∃ data, shards_wf (xc_k c + 1) L s ∧
    ∀ i p, (i < xc_k c + 1)%nat → (p < L)%nat → rd x00 (rd [] s i) p = xor_code data (xc_k c) i p.
Proof.
  intros Hv (data & parity & par & Hd & Hp & Henc & ->). exists data.
  destruct (xor_encode_spec (xc_k c) data parity L (xor_valid_pos c Hv) Hd Hp)
    as (par' & Henc' & Hpar & Hcode).
  assert (par' = par) as -> by congruence. split; [by apply shards_wf_app|].
  intros i p Hi Hpp. destruct Hd as [Hdl _]. unfold xor_code. rewrite rd_app, Hdl.
  case_decide; [done|]. replace (i - xc_k c)%nat with 0%nat by lia. by apply Hcode.
Qed.

#[global] Program Instance xor_erasure_code : ErasureCode xor_code_t := {
  ec_valid := xor_valid;
  ec_n c := (xc_k c + 1)%nat;
  ec_tol c := 1%nat;
  ec_codeword := xor_codeword;
  ec_decode c := xor_decode (xc_k c) }.
Next Obligation. intros c Hc. pose proof (xor_valid_pos c Hc). cbn. lia. Qed.
Next Obligation.
  intros c L s Hv Hs. by destruct (xor_codeword_spec c L s Hv Hs) as (data & H & _).
Qed.
Next Obligation.
  intros c L s s' present Hv Hs Hwf Hag Hc.
  destruct (xor_codeword_spec c L s Hv Hs) as (data & Hwfs & Hcode).
  destruct (xor_decode_spec (xc_k c) data s' present L) as (s'' & -> & Hwf'' & Hcode'');
    [done| |cbn in *; lia|].
  - intros i p Hi Hp Hpr. rewrite Hag by done. by apply Hcode.
  - f_equal. apply (shards_ext (xc_k c + 1) L); [done..|]. intros i p Hi Hp.
    by rewrite Hcode, Hcode''.
Qed.
Next Obligation. intros c L s' present _ Hc. apply xor_decode_few. cbn in *. lia. Qed.

(** Pure striping. *)
Record stripe_code := mk_stripe { sc_k : nat }.

#[global] Program Instance stripe_erasure_code : ErasureCode stripe_code := {
  ec_valid c := ∃ k, ec_stripe_create k = Some (sc_k c);
  ec_n c := sc_k c;
  ec_tol c := 0%nat;
  ec_codeword c L s := shards_wf (sc_k c) L s;
  ec_decode c := stripe_decode (sc_k c) }.
Next Obligation.
  intros c [k H]. unfold ec_stripe_create in H. destruct (Z.ltb_spec k 1); [done|].
  cbn [orb] in H. case_match; simplify_eq. lia.
Qed.
Next Obligation. done. Qed.
Next Obligation.
  intros c L s s' present _ [Hl _] [Hl' _] Hag Hc. rewrite stripe_decode_spec.
  assert (E : count_present (sc_k c) present = sc_k c)
    by (pose proof (count_present_le (sc_k c) present); cbn in Hc; lia).
  rewrite E, Nat.eqb_refl. f_equal. apply (rd_ext []); [lia|]. intros i Hi.
  apply Hag; [lia|]. apply (count_present_all _ _ E). lia.
Qed.
Next Obligation.
  intros c L s' present _ Hc. change (stripe_decode (sc_k c) s' present L = ((- EIO)%Z, s')); rewrite stripe_decode_spec.
  cbn in Hc. by destruct (Nat.eqb_spec (count_present (sc_k c) present) (sc_k c)); [lia|].
Qed.

(** Replication into [k] separate buffers. *)
Record mirror_code := mk_mirror { mc_k : nat }.

Definition own_buffers (k : nat) : ptrs := Some (map Some (seq 0 k)).

Definition mirror_codeword (c : mirror_code) (L : nat) (s : list (list byte)) : Prop :=
  ∃ mem, shards_wf (mc_k c) L mem ∧ mirror_encode (mc_k c) (own_buffers (mc_k c)) mem L = (0%Z, s).

Definition mirror_valid (c : mirror_code) : Prop := ∃ k, ec_mirror_create k = Some (mc_k c).

Lemma mirror_valid_pos c : mirror_valid c → (0 < mc_k c)%nat.
Proof.
  intros [k H]. unfold ec_mirror_create in H. destruct (Z.ltb_spec k 1); [done|].
  cbn [orb] in H. case_match; simplify_eq. lia.
Qed.

Lemma rd_own_buffers k i :
  rd None (map Some (seq 0 k)) i = if decide (i < k)%nat then Some i else None.
Proof.
  case_decide.
  - by rewrite rd_map_seq.
  - apply rd_ge. rewrite length_map, length_seq. lia.
Qed.

Lemma own_buffer_valid k L mem i :
  shards_wf k L mem → (i < k)%nat → valid_buf mem L i.
Proof. intros [Hl H] Hi. split; [lia|]. rewrite H by done. lia. Qed.

(** The buffers after a replica copy loop over own buffers. *)
Lemma mirrored_own k L s0 mem skip lo m :
  shards_wf k L mem → (s0 < k)%nat →
  mirrored L s0 (map Some (seq 0 k)) mem skip lo k m →
  shards_wf k L m ∧
  ∀ i, (i < k)%nat → rd [] m i =
    if decide (lo <= i)%nat then (if skip i then rd [] mem i else rd [] mem s0)
    else rd [] mem i.
Proof.
  intros [Hl Hw] Hs0 (H1 & H2 & H3 & H4 & H5). split.
  { split; [lia|]. intros i Hi. destruct (H3 i) as [-> _]. by apply Hw. }
  intros i Hi. case_decide; [destruct (skip i) eqn:E|].
  - apply H5. intros j Hj Hsk. rewrite rd_own_buffers, decide_True by lia. congruence.
  - specialize (H4 i i ltac:(lia) E). rewrite rd_own_buffers, decide_True in H4 by lia.
    specialize (H4 eq_refl). destruct (H3 i) as [Hli _].
    rewrite !take_ge in H4 by (rewrite ?Hli, Hw by lia; lia). done.
  - apply H5. intros j Hj Hsk. rewrite rd_own_buffers, decide_True by lia.
    intros [=]. lia.
Qed.

Lemma mirror_codeword_spec c L s :
  mirror_valid c → mirror_codeword c L s →
  shards_wf (mc_k c) L s ∧ ∀ i, (i < mc_k c)%nat → rd [] s i = rd [] s 0.
Proof.
  intros Hv (mem & Hwf & Henc). pose proof (mirror_valid_pos c Hv) as Hk.
  unfold mirror_encode, own_buffers in Henc.
  rewrite rd_own_buffers, decide_True in Henc by done.
  destruct (mirror_copy_loop L 0 (map Some (seq 0 (mc_k c))) mem (λ _, false) 1 (mc_k c - 1))
    as (m & Hm & Hmir).
  { by apply (own_buffer_valid (mc_k c)). }
  { intros i Hi _. exists i. rewrite rd_own_buffers, decide_True by lia. split; [done|].
    apply (own_buffer_valid (mc_k c)); [done|lia]. }
  unfold mirror_copy in Hm. rewrite Hm in Henc. injection Henc as <-.
  replace (1 + (mc_k c - 1))%nat with (mc_k c) in Hmir by lia.
  destruct (mirrored_own _ _ _ _ _ _ _ Hwf Hk Hmir) as [Hwm Hrd].
  split; [done|]. intros i Hi. rewrite !Hrd by lia.
  repeat case_decide; try done; try lia. by replace i with 0%nat by lia.
Qed.

Lemma count_present_none n present :
  (∀ i, (i < n)%nat → rd false present i = false) → count_present n present = 0%nat.
Proof.
  intros H. induction n as [|n IH]; [done|]. rewrite count_present_S, H, IH by auto. done.
Qed.

Lemma count_present_pos n present i :
  (i < n)%nat → rd false present i = true → (0 < count_present n present)%nat.
Proof.
  induction n as [|n IH]; [lia|]. intros Hi Hp. rewrite count_present_S.
  destruct (decide (i = n)) as [->|]; [rewrite Hp; lia|].
  specialize (IH ltac:(lia) Hp). case_if; lia.
Qed.

#[global] Program Instance mirror_erasure_code : ErasureCode mirror_code := {
  ec_valid := mirror_valid;
  ec_n c := mc_k c;
  ec_tol c := (mc_k c - 1)%nat;
  ec_codeword := mirror_codeword;
  ec_decode c s present L := mirror_decode (mc_k c) (own_buffers (mc_k c)) s present L }.
Next Obligation. intros c Hv. pose proof (mirror_valid_pos c Hv). cbn. lia. Qed.
Next Obligation. intros c L s Hv Hs. by destruct (mirror_codeword_spec c L s Hv Hs). Qed.
Next Obligation.
  intros c L s s' present Hv Hs Hwf Hag Hc. cbn in *.
  destruct (mirror_codeword_spec c L s Hv Hs) as [Hws Heq].
  pose proof (mirror_valid_pos c Hv) as Hk. unfold mirror_decode.
  destruct (mirror_source_spec (mc_k c) present) as [[_ Hn]|(j & -> & Hj & Hpj & _)].
  { rewrite (count_present_none _ _ Hn) in Hc. lia. }
  destruct (Z.ltb_spec (Z.of_nat j) 0); [lia|]. unfold own_buffers.
  rewrite Nat2Z.id, rd_own_buffers, decide_True by done.
  destruct (mirror_copy_loop L j (map Some (seq 0 (mc_k c))) s' (λ i, rd false present i)
    0 (mc_k c)) as (m & Hm & Hmir).
  { by apply (own_buffer_valid (mc_k c)). }
  { intros i Hi _. exists i. rewrite rd_own_buffers, decide_True by lia. split; [done|].
    apply (own_buffer_valid (mc_k c)); [done|lia]. }
  unfold mirror_copy in Hm. rewrite Hm. f_equal.
  destruct (mirrored_own _ _ _ _ _ _ _ Hwf Hj Hmir) as [[Hml _] Hrd].
  destruct Hws as [Hsl _]. apply (rd_ext []); [lia|]. intros i Hi.
  rewrite Hrd by lia. rewrite decide_True by lia.
  destruct (rd false present i) eqn:E; [apply Hag; [lia|done]|].
  rewrite Hag by done. rewrite (Heq j), (Heq i) by lia. done.
Qed.
Next Obligation.
  intros c L s' present Hv Hc. cbn in *. pose proof (mirror_valid_pos c Hv) as Hk.
  unfold mirror_decode.
  destruct (mirror_source_spec (mc_k c) present) as [[-> Hn]|(j & -> & Hj & Hpj & _)].
  - done.
  - pose proof (count_present_pos _ _ _ Hj Hpj). lia.
Qed.

End Erasure.
