(* ===== verification/ErasureTheorems.v ===== *)
(** * Theorems of the erasure-coding library

    What the field, the matrices and the four encodings of [src/lib/ec] promise
    to the code that stripes files over data servers, each with a concrete
    instance. *)

From S2P Require Import Prelude.
From S2P Require Import GF256.
From S2P Require Import Matrix.
From S2P Require Import ReedSolomon.
From S2P Require Import RSCorrect.
From S2P Require Import Erasure.
Import GF Matrix RS RSCorrect Erasure.

Module ErasureTheorems.

(** ** Reference definitions *)

(** The product of polynomials over GF(2) modulo [GF_POLY]: the sum of
    [x^i * a] over the set bits [i] of [b]. *)
Definition poly_mulmod (a b : Z) : Z :=
  foldr Z.lxor 0%Z
    (map (λ i, if Z.testbit b (Z.of_nat i) then Nat.iter i xtime a else 0%Z) (seq 0 8)).

(** A stripe after some shards were lost: the bytes of the missing ones are
    whatever the buffers held. *)
Definition damage (present : list bool) (junk s : list (list byte)) : list (list byte) :=
  map (λ i, if rd false present i then rd [] s i else rd [] junk i) (seq 0 (length s)).

(** ** Lemmas *)

Lemma xtime_iter_mul a i :
  (i < 8)%nat → bz (gf_mul a (zb (2 ^ Z.of_nat i))) = Nat.iter i xtime (bz a).
Proof.
  induction i as [|i IH]; intros Hi; [by rewrite gf_mul_1_r|].
  change (Nat.iter (S i) xtime (bz a)) with (xtime (Nat.iter i xtime (bz a))).
  rewrite <-IH, <-gf_mul_2 by lia. apply (f_equal bz).
  rewrite gf_mul_assoc, (gf_mul_comm x02), <-gf_mul_assoc. apply (f_equal (gf_mul a)).
  do 7 (destruct i as [|i]; [vm_compute; reflexivity|]). lia.
Qed.

Lemma bit_sum_lxor_list a z l :
  (∀ i, i ∈ l → (i < 8)%nat) →
  bz (bit_sum (map (λ i, (Z.of_nat i, gf_mul a (zb (2 ^ Z.of_nat i)))) l) z)
  = foldr Z.lxor 0%Z
      (map (λ i, if Z.testbit z (Z.of_nat i) then Nat.iter i xtime (bz a) else 0%Z) l).
Proof.
  induction l as [|i l IH]; intros Hl; [done|].
  cbn [map bit_sum fold_right foldr fst snd]. rewrite bz_bxor. f_equal.
  - case_if; [apply xtime_iter_mul, Hl; by left|done].
  - apply IH. intros j Hj. apply Hl. by right.
Qed.

Lemma rd_damage present junk s i :
  (i < length s)%nat →
  rd [] (damage present junk s) i = if rd false present i then rd [] s i else rd [] junk i.
Proof.
  intros Hi. unfold damage. by rewrite rd_map_seq.
Qed.

Lemma damage_wf n L present junk s :
  shards_wf n L s → shards_wf n L junk → shards_wf n L (damage present junk s).
Proof.
  intros [Hl Hs] [_ Hj]. split; [unfold damage; by rewrite length_map, length_seq|].
  intros i Hi. rewrite rd_damage by lia. case_if; auto.
Qed.

(** Byte [p] of the parity shards when there are at most two of them. *)
Lemma code_pq e data r p :
  rs_wf e → (ec_m e <= 2)%nat → (r < ec_k e + ec_m e)%nat →
  code e data r p = gsum (ec_k e) (λ j, gf_mul (pq_row (ec_k e) r j) (rd x00 (rd [] data j) p)).
Proof.
  intros He Hm Hr. unfold code, mat_vec. apply gsum_ext. intros j Hj.
  by rewrite (wf_pq e He Hm).
Qed.

(** ** The field *)

(** [gf_mul], which adds discrete logarithms read from tables, is
    multiplication in GF(2)[x] modulo x^8 + x^4 + x^3 + x^2 + 1, for all
    65536 pairs of bytes. *)
Theorem gf_mul_is_polynomial_product : ∀ a b, bz (gf_mul a b) = poly_mulmod (bz a) (bz b).
Proof.
  intros a b. rewrite gf_mul_bits. unfold poly_mulmod.
  change (bit_products a) with
    (map (λ i, (Z.of_nat i, gf_mul a (zb (2 ^ Z.of_nat i)))) (seq 0 8)).
  apply bit_sum_lxor_list. intros i Hi%elem_of_seq. lia.
Qed.

(** Division undoes multiplication, and [gf_pow] is repeated
    multiplication, zero bases included. *)
Theorem gf_div_pow_spec a b :
  (b ≠ x00 → gf_div (gf_mul a b) b = a ∧ gf_mul (gf_div a b) b = a) ∧
  ∀ n, gf_pow a n = Nat.iter (bn n) (gf_mul a) x01.
Proof.
  split.
  - intros Hb. unfold gf_div. rewrite <-!gf_mul_assoc, gf_mul_inv_r, gf_mul_inv_l by done.
    by rewrite gf_mul_1_r.
  - intros n. rewrite gf_pow_gpow. induction (bn n) as [|i IH]; [done|].
    cbn [gpow Nat.iter]. by rewrite IH.
Qed.

(** ** Matrices *)

(** [gf_matrix_invert] either returns 0 with the two-sided inverse in
    [out], or returns [-EINVAL] and the matrix maps some nonzero vector to
    zero; so it succeeds exactly on the invertible matrices. *)
Theorem gf_matrix_invert_correct n m out :
  (0 < n)%nat → is_mat n n m → is_mat n n out →
  (∃ out', gf_matrix_invert m out = (0%Z, out') ∧ is_mat n n out' ∧
     trivial_kernel n n (gf_matrix_get m) ∧
     ∀ r c, (r < n)%nat → (c < n)%nat →
        mat_vec n (gf_matrix_get out') (λ i, gf_matrix_get m i c) r = delta r c ∧
        mat_vec n (gf_matrix_get m) (λ i, gf_matrix_get out' i c) r = delta r c) ∨
  (∃ out', gf_matrix_invert m out = ((- EINVAL)%Z, out') ∧
     ∃ x, in_kernel n n (gf_matrix_get m) x ∧ ∃ i, (i < n)%nat ∧ x i ≠ x00).
Proof.
  intros Hn Hm Hout.
  destruct (gf_matrix_invert_spec n m out Hn Hm Hout) as [(o & H1 & H2 & H3 & H4 & H5)|H];
    [left|by right].
  exists o. split_and!; [done..|]. intros r c Hr Hc. split; [by apply H3|].
  by apply left_inverse_right.
Qed.

Definition example_matrix : gf_matrix := mk_gf_matrix 2 2 [x00; x03; x05; x07].

Lemma gf_matrix_invert_correct_witness :
  fst (gf_matrix_invert example_matrix example_matrix) = 0%Z ∧
  ∀ r c, (r < 2)%nat → (c < 2)%nat →
    mat_vec 2 (gf_matrix_get (snd (gf_matrix_invert example_matrix example_matrix)))
      (λ i, gf_matrix_get example_matrix i c) r = delta r c.
Proof.
  assert (H : is_mat 2 2 example_matrix) by done.
  destruct (gf_matrix_invert_correct 2 example_matrix example_matrix ltac:(lia) H H)
    as [(o & E & _ & _ & Hi)|(o & E & _)].
  - rewrite E. cbn [fst snd]. split; [reflexivity|]. intros r c Hr Hc.
    exact (proj1 (Hi r c Hr Hc)).
  - exfalso. apply (f_equal fst) in E. vm_compute in E. discriminate E.
Defined.

(** ** Reed-Solomon *)

(** C1: the round trip.  For every geometry [ec_rs_create] accepts, encoding
    succeeds, and from any [k] or more surviving shards of the stripe decoding
    rebuilds every data and parity shard bit for bit, whatever the buffers of
    the lost shards held and whichever inner loops (NEON, SSSE3, scalar) the
    encoder and the decoder were compiled with. *)
Theorem rs_roundtrip k m e pe pd data parity L :
  ec_rs_create k m = Some e →
  shards_wf (ec_k e) L data → shards_wf (ec_m e) L parity →
  ∃ par, rs_encode pe e data parity L = (0%Z, par) ∧ shards_wf (ec_m e) L par ∧
  ∀ shards present,
    shards_wf (ec_k e + ec_m e) L shards →
    (∀ i, (i < ec_k e + ec_m e)%nat → rd false present i = true →
       rd [] shards i = rd [] (data ++ par) i) →
    (ec_k e <= count_present (ec_k e + ec_m e) present)%nat →
    rs_decode pd e shards present L = (0%Z, data ++ par).
Proof.
  intros He Hd Hp. pose proof (ec_rs_create_inv k m e He) as (Hwf & _).
  destruct (rs_encode_spec pe e data parity L Hwf Hd Hp) as (par & Henc & Hpar & _).
  exists par. split; [done|]. split; [done|]. intros shards present Hs Hag Hc.
  apply (rs_decode_codeword (mk_rs_code pe e) L); [by exists k, m| |done..].
  exists data, parity. split; [done|]. split; [done|]. by exists par.
Qed.

(** A (3, 2) stripe of three-byte shards, shards 0 and 3 lost. *)
Definition example_rs : rs_encoding :=
  default (mk_rs_encoding 0 0 (mk_rs_private (mk_gf_matrix 0 0 []) (mk_gf_matrix 0 0 []) [] []))
    (ec_rs_create 3 2).
Definition example_data : list (list byte) := [[x01; x80; xff]; [x23; x00; x10]; [x45; x67; x89]].
Definition example_parity : list (list byte) := [[x00; x00; x00]; [x00; x00; x00]].
Definition example_present : list bool := [false; true; true; false; true].

Lemma rs_roundtrip_witness :
  ec_rs_create 3 2 = Some example_rs ∧
  ∃ par, rs_encode SSSE3 example_rs example_data example_parity 3 = (0%Z, par) ∧
    rs_decode SCALAR example_rs
      (damage example_present (replicate 5 [xaa; xbb; xcc]) (example_data ++ par))
      example_present 3 = (0%Z, example_data ++ par).
Proof.
  assert (He : ec_rs_create 3 2 = Some example_rs) by (vm_compute; reflexivity).
  split; [exact He|].
  assert (Hk : ec_k example_rs = 3%nat) by (vm_compute; reflexivity).
  assert (Hm : ec_m example_rs = 2%nat) by (vm_compute; reflexivity).
  assert (Hd : shards_wf (ec_k example_rs) 3 example_data)
    by (rewrite Hk; split; [reflexivity|]; intros [|[|[|i]]] Hi; [reflexivity..|lia]).
  assert (Hp : shards_wf (ec_m example_rs) 3 example_parity)
    by (rewrite Hm; split; [reflexivity|]; intros [|[|i]] Hi; [reflexivity..|lia]).
  destruct (rs_roundtrip 3 2 example_rs SSSE3 SCALAR example_data example_parity 3 He Hd Hp)
    as (par & Henc & Hpar & Hdec).
  exists par. split; [exact Henc|].
  assert (Hwf : shards_wf (ec_k example_rs + ec_m example_rs) 3 (example_data ++ par))
    by (apply shards_wf_app; assumption).
  apply Hdec.
  - apply damage_wf; [exact Hwf|]. rewrite Hk, Hm. split; [reflexivity|].
    intros [|[|[|[|[|i]]]]] Hi; [reflexivity..|lia].
  - intros i Hi Hpr. rewrite rd_damage, Hpr; [reflexivity|].
    destruct Hwf as [-> _]. exact Hi.
  - rewrite Hk, Hm. vm_compute. lia.
Defined.

(** With fewer than [k] shards present [rs_decode] returns [-EIO] and
    leaves every buffer as it was; [ec_rs_create] itself succeeds exactly for
    [1 <= k], [1 <= m], [k + m <= 255], and then carries that geometry. *)
Theorem rs_limits k m :
  ((∃ e, ec_rs_create k m = Some e) ↔ (1 <= k)%Z ∧ (1 <= m)%Z ∧ (k + m <= 255)%Z) ∧
  ∀ e, ec_rs_create k m = Some e →
    Z.of_nat (ec_k e) = k ∧ Z.of_nat (ec_m e) = m ∧
    ∀ path shards present L, (Z.of_nat (count_present (ec_k e + ec_m e) present) < k)%Z →
      rs_decode path e shards present L = ((- EIO)%Z, shards).
Proof.
  split.
  - split.
    + intros [e He]. apply ec_rs_create_inv in He. tauto.
    + intros (Hk & Hm & Hkm). destruct (ec_rs_create_wf k m Hk Hm Hkm) as (e & He & _).
      by exists e.
  - intros e He. destruct (ec_rs_create_inv k m e He) as (_ & Hk & Hm & _).
    split; [done|]. split; [done|]. intros path shards present L Hc.
    apply rs_decode_unrecoverable. lia.
Qed.

(** The encoding matrix [ec_rs_create] builds is systematic and maximum
    distance separable: the top rows are the identity, and for any [k] distinct
    rows the Gauss-Jordan routine inverts the submatrix they form. *)
Theorem rs_matrix_mds k m e idx sub inv :
  ec_rs_create k m = Some e →
  (∀ r c, (r < ec_k e)%nat → (c < ec_k e)%nat →
     gf_matrix_get (rsp_encode (ec_private e)) r c = delta r c) ∧
  (selects (ec_k e) (ec_k e + ec_m e) idx →
   is_mat (ec_k e) (ec_k e) sub → is_mat (ec_k e) (ec_k e) inv →
   (∀ r c, (r < ec_k e)%nat → (c < ec_k e)%nat →
      gf_matrix_get sub r c = gf_matrix_get (rsp_encode (ec_private e)) (idx r) c) →
   fst (gf_matrix_invert sub inv) = 0%Z).
Proof.
  intros He. destruct (ec_rs_create_inv k m e He) as (Hwf & _).
  split; [apply (wf_sys e Hwf)|]. intros Hsel Hsub Hinv Hent.
  destruct (gf_matrix_invert_spec (ec_k e) sub inv (wf_k e Hwf) Hsub Hinv)
    as [(o & -> & _)|(o & _ & x & Hx & i & Hi & Hnz)]; [done|].
  exfalso. apply Hnz. refine (wf_mds e Hwf idx Hsel x _ i Hi).
  intros r Hr. rewrite <-(Hx r Hr). apply gsum_ext. intros c Hc. by rewrite Hent.
Qed.

Lemma rs_matrix_mds_witness :
  ec_rs_create 3 2 = Some example_rs ∧
  fst (gf_matrix_invert
         (decode_submatrix 3 (rsp_encode (ec_private example_rs))
            (mk_gf_matrix 3 3 (replicate 9 x00)) [1; 3; 4]%nat)
         (mk_gf_matrix 3 3 (replicate 9 x00))) = 0%Z.
Proof.
  assert (He : ec_rs_create 3 2 = Some example_rs) by (vm_compute; reflexivity).
  assert (Hk : ec_k example_rs = 3%nat) by (vm_compute; reflexivity).
  assert (Hm : ec_m example_rs = 2%nat) by (vm_compute; reflexivity).
  split; [exact He|].
  destruct (rs_matrix_mds 3 2 example_rs (rd O [1; 3; 4]%nat)
    (decode_submatrix 3 (rsp_encode (ec_private example_rs))
       (mk_gf_matrix 3 3 (replicate 9 x00)) [1; 3; 4]%nat)
    (mk_gf_matrix 3 3 (replicate 9 x00)) He) as [_ H].
  rewrite Hk, Hm in H.
  destruct (fill_mat_spec 3 3
    (λ r c, gf_matrix_get (rsp_encode (ec_private example_rs)) (rd O [1; 3; 4]%nat r) c)
    (mk_gf_matrix 3 3 (replicate 9 x00)) ltac:(repeat split)) as [H1 H2].
  apply H; [|exact H1|repeat split|exact H2].
  split; [intros [|[|[|r]]] Hr; unfold rd; cbn; lia|].
  intros [|[|[|a]]] [|[|[|b]]] Ha Hb; unfold rd; cbn; lia.
Defined.

(** The NEON, SSSE3 and scalar builds produce the same parity bytes for
    every stripe, any shard length included (a tail shorter than 16 bytes takes
    the scalar path). *)
Theorem rs_encode_path_independent k m e p1 p2 data parity L :
  ec_rs_create k m = Some e →
  shards_wf (ec_k e) L data → shards_wf (ec_m e) L parity →
  rs_encode p1 e data parity L = rs_encode p2 e data parity L.
Proof.
  intros He Hd Hp. destruct (ec_rs_create_inv k m e He) as (Hwf & _).
  destruct (rs_encode_spec p1 e data parity L Hwf Hd Hp) as (a & -> & Ha & Ca).
  destruct (rs_encode_spec p2 e data parity L Hwf Hd Hp) as (b & -> & Hb & Cb).
  f_equal. apply (shards_ext (ec_m e) L); [done..|]. intros i p Hi Hpp.
  by rewrite Ca, Cb.
Qed.

Lemma rs_encode_path_independent_witness :
  rs_encode NEON example_rs (map (λ s, concat (replicate 7 s)) example_data)
    (replicate 2 (replicate 21 x00)) 21
  = rs_encode SCALAR example_rs (map (λ s, concat (replicate 7 s)) example_data)
      (replicate 2 (replicate 21 x00)) 21.
Proof.
  assert (He : ec_rs_create 3 2 = Some example_rs) by (vm_compute; reflexivity).
  assert (Hk : ec_k example_rs = 3%nat) by (vm_compute; reflexivity).
  assert (Hm : ec_m example_rs = 2%nat) by (vm_compute; reflexivity).
  apply (rs_encode_path_independent 3 2); [exact He|rewrite Hk|rewrite Hm].
  - split; [reflexivity|]. intros [|[|[|i]]] Hi; [reflexivity..|lia].
  - split; [reflexivity|]. intros [|[|i]] Hi; [reflexivity..|lia].
Defined.

(** With one parity shard Reed-Solomon writes the same bytes as the
    XOR-parity encoding. *)
Theorem rs_single_parity_is_xor k e path data parity L :
  ec_rs_create k 1 = Some e →
  shards_wf (Z.to_nat k) L data → shards_wf 1 L parity →
  rs_encode path e data parity L = xor_encode (Z.to_nat k) data parity L.
Proof.
  intros He Hd Hp. destruct (ec_rs_create_inv k 1 e He) as (Hwf & Hk & Hm & _).
  assert (Hk' : Z.to_nat k = ec_k e) by lia. assert (Hm' : ec_m e = 1%nat) by lia.
  rewrite Hk' in *. pose proof (wf_k e Hwf) as Hpos.
  pose proof Hp as Hp1. rewrite <-Hm' in Hp1.
  destruct (rs_encode_spec path e data parity L Hwf Hd Hp1) as (a & -> & Ha & Ca).
  destruct (xor_encode_spec (ec_k e) data parity L Hpos Hd Hp) as (b & -> & Hb & Cb).
  f_equal. rewrite Hm' in Ha. apply (shards_ext 1 L); [done..|]. intros i p Hi Hpp.
  rewrite Ca by lia. replace i with 0%nat by lia. rewrite Cb by done.
  rewrite code_pq by (lia || done). apply gsum_ext. intros j Hj.
  rewrite Nat.add_0_r, pq_row_p. apply gf_mul_1_l.
Qed.

Lemma rs_single_parity_is_xor_witness :
  ∃ e, ec_rs_create 3 1 = Some e ∧
    rs_encode NEON e example_data [[x00; x00; x00]] 3
    = xor_encode 3 example_data [[x00; x00; x00]] 3.
Proof.
  destruct (ec_rs_create 3 1) as [e|] eqn:E.
  2:{ exfalso. apply (f_equal (λ o, match o with Some _ => true | None => false end)) in E.
      vm_compute in E. discriminate E. }
  exists e. split; [reflexivity|].
  apply (rs_single_parity_is_xor 3 e NEON example_data [[x00; x00; x00]] 3 E).
  - split; [reflexivity|]. intros [|[|[|i]]] Hi; [reflexivity..|lia].
  - split; [reflexivity|]. intros [|i] Hi; [reflexivity|lia].
Defined.

(** ** The encoding contract *)

(** C25: the encoding with one parity shard, from creation to recovery.
    [ec_xor_create] succeeds for [k] from 1 to 254.  What [xor_encode] writes
    makes, with the data, a stripe of [k + 1] shards of one length; when at most
    one of them is lost, whatever its buffer holds then, [xor_decode] returns 0
    and the stripe is whole again; when more are lost it returns [-EIO] and
    changes no buffer. *)
Theorem xor_roundtrip k e data parity L :
  ((∃ e, ec_xor_create k = Some e) ↔ (1 <= k <= 254)%Z) ∧
  (ec_xor_create k = Some e → shards_wf e L data → shards_wf 1 L parity →
   Z.of_nat e = k ∧
   ∃ par, xor_encode e data parity L = (0%Z, par) ∧ shards_wf 1 L par ∧
     ∀ s' present, shards_wf (e + 1) L s' →
       (∀ i, (i < e + 1)%nat → rd false present i = true →
          rd [] s' i = rd [] (data ++ par) i) →
       xor_decode e s' present L =
         if decide (e <= count_present (e + 1) present)%nat then (0%Z, data ++ par)
         else ((- EIO)%Z, s')).
Proof.
  split.
  { unfold ec_xor_create, XOR_MAX_DATA. split.
    - intros [e' H]. destruct (Z.ltb_spec k 1), (Z.ltb_spec 254 k); try done; lia.
    - intros Hk. destruct (Z.ltb_spec k 1), (Z.ltb_spec 254 k); try lia. by eexists. }
  intros He Hd Hp. assert (Hv : ec_valid (mk_xor e)) by (by exists k).
  pose proof (xor_valid_pos (mk_xor e) Hv) as Hpos.
  split.
  { unfold ec_xor_create in He. destruct (Z.ltb_spec k 1); [done|].
    cbn [orb] in He. case_match; simplify_eq. lia. }
  destruct (xor_encode_spec e data parity L Hpos Hd Hp) as (par & Henc & Hpar & _).
  exists par. split; [done|]. split; [done|]. intros s' present Hs' Hag. case_decide as Hc.
  - refine (ec_decode_ok (mk_xor e) L (data ++ par) s' present Hv _ Hs' Hag _); [|cbn; lia].
    exists data, parity, par. split_and!; done.
  - refine (ec_decode_few (mk_xor e) L s' present Hv _). cbn. lia.
Qed.

Lemma xor_roundtrip_witness :
  ∃ par, xor_encode 3 example_data [[x00; x00; x00]] 3 = (0%Z, par) ∧
    xor_decode 3 (damage [true; false; true; true] (replicate 4 [x00; x11; x22])
                    (example_data ++ par)) [true; false; true; true] 3
    = (0%Z, example_data ++ par).
Proof.
  destruct (xor_roundtrip 3 3 example_data [[x00; x00; x00]] 3) as [_ H].
  destruct H as (_ & par & Henc & Hpar & Hdec).
  { reflexivity. }
  { split; [reflexivity|]. intros [|[|[|i]]] Hi; [reflexivity..|lia]. }
  { split; [reflexivity|]. intros [|i] Hi; [reflexivity|lia]. }
  exists par. split; [exact Henc|].
  assert (Hwf : shards_wf (3 + 1) 3 (example_data ++ par)).
  { apply shards_wf_app; [|exact Hpar].
    split; [reflexivity|]. intros [|[|[|i]]] Hi; [reflexivity..|lia]. }
  rewrite Hdec.
  - rewrite decide_True; [reflexivity|vm_compute; lia].
  - apply damage_wf; [exact Hwf|]. split; [reflexivity|].
    intros [|[|[|[|i]]]] Hi; [reflexivity..|lia].
  - intros i Hi Hpr. rewrite rd_damage, Hpr; [reflexivity|]. destruct Hwf as [-> _]. exact Hi.
Defined.

(** replication with aliased and shared buffers.  Whatever pointers repeat
    in the shard array, [mirror_encode] leaves the source as it was, fills every
    replica with its first [shard_len] bytes, and changes no other byte of any
    buffer. *)
Theorem mirror_encode_aliased k ps d0 mem L :
  rd None ps 0 = Some d0 → valid_buf mem L d0 →
  (∀ i p, (1 <= i < k)%nat → rd None ps i = Some p → valid_buf mem L p) →
  (∀ i, (1 <= i < k)%nat → rd None ps i ≠ None) →
  ∃ mem', mirror_encode k (Some ps) mem L = (0%Z, mem') ∧
    rd [] mem' d0 = rd [] mem d0 ∧
    (∀ i p, (i < k)%nat → rd None ps i = Some p →
       take L (rd [] mem' p) = take L (rd [] mem d0) ∧
       drop L (rd [] mem' p) = drop L (rd [] mem p)) ∧
    (∀ p, (∀ i, (1 <= i < k)%nat → rd None ps i ≠ Some p) → rd [] mem' p = rd [] mem p).
Proof.
  intros H0 Hv0 Hv Hnn. unfold mirror_encode. rewrite H0.
  destruct (mirror_copy_loop L d0 ps mem (λ _, false) 1 (k - 1) Hv0) as (m & Hm & Hmir).
  { intros i Hi _. destruct (rd None ps i) as [p|] eqn:E.
    - exists p. split; [done|]. apply (Hv i p); [lia|done].
    - exfalso. apply (Hnn i); [lia|done]. }
  unfold mirror_copy in Hm. rewrite Hm. exists m. split; [done|].
  destruct Hmir as (M1 & M2 & M3 & M4 & M5). split_and!; [done| |].
  - intros i p Hi Hp. split; [|apply M3]. destruct (decide (i = 0)%nat) as [->|].
    + rewrite H0 in Hp. injection Hp as <-. by rewrite M2.
    + apply (M4 i p); [lia|done..].
  - intros p Hp. apply M5. intros i Hi _. apply Hp. lia.
Qed.

Lemma mirror_encode_aliased_witness :
  ∃ mem', mirror_encode 4 (Some [Some 1; Some 0; Some 1; Some 0]%nat)
            [[x00; x0a]; [x01; x0b]] 1 = (0%Z, mem') ∧
    take 1 (rd [] mem' 0) = [x01].
Proof.
  destruct (mirror_encode_aliased 4 [Some 1; Some 0; Some 1; Some 0]%nat 1
              [[x00; x0a]; [x01; x0b]] 1) as (m & Hm & _ & H & _).
  - reflexivity.
  - split; vm_compute; lia.
  - intros [|[|[|[|i]]]] p Hi Hp; try lia; injection Hp as <-; split; vm_compute; lia.
  - intros [|[|[|[|i]]]] Hi; (lia || discriminate).
  - exists m. split; [exact Hm|]. apply (H 1 0)%nat; [lia|reflexivity].
Defined.

End ErasureTheorems.
