(* ===== verification/LinuxMd.v ===== *)
(** * The Linux md RAID-6 encoding ([src/lib/ec/linux_md.c])

    The [ec_encoding] wrapper and the portable part of the vendored raid6
    library it drives: the tables [mktables.c] generates, the [int.uc] syndrome
    generator for every unroll factor, and the recovery routines of [recov.c]
    with their pointer swaps.  An access outside a buffer is [None]. *)

From S2P Require Import Prelude.
From S2P Require Import Words.
From S2P Require Import GF256.
From S2P Require Import Matrix.
From S2P Require Import ReedSolomon.
From S2P Require Import RSCorrect.
Import Words GF Matrix RS RSCorrect.

Module LinuxMd.

(** ** The tables ([linux-md-raid/mktables.c]) *)

(** [while (b) { ... }]; eight rounds exhaust a [uint8_t]. *)
Fixpoint gfmul_loop (fuel : nat) (a b v : byte) : byte :=
  match fuel with
  | O => v
  | S fuel =>
      if byte_eqb b x00 then v
      else
        gfmul_loop fuel
          (zb (Z.lxor (Z.shiftl (bz a) 1) (if Z.testbit (bz a) 7 then 0x1d else 0)))
          (zb (Z.shiftr (bz b) 1))
          (if Z.testbit (bz b) 0 then bxor v a else v)
  end.

Definition gfmul (a b : byte) : byte := gfmul_loop 8 a b x00.

Fixpoint gfpow_loop (fuel : nat) (a : byte) (b : Z) (v : byte) : byte :=
  match fuel with
  | O => v
  | S fuel =>
      if (b =? 0)%Z then v
      else gfpow_loop fuel (gfmul a a) (Z.shiftr b 1)
             (if Z.testbit b 0 then gfmul v a else v)
  end.

Definition gfpow (a : byte) (b : Z) : byte :=
  let b := Z.rem b 255 in
  let b := if (b <? 0)%Z then (b + 255)%Z else b in
  gfpow_loop 8 a b x01.

Definition raid6_gfmul : list (list byte) :=
  map (λ i, map (λ j, gfmul (zb (Z.of_nat i)) (zb (Z.of_nat j))) (seq 0 256)) (seq 0 256).

Definition raid6_gfexp : list byte :=
  fst (for_range 0 256 (λ i s,
    let '(exptbl, v) := s in
    let exptbl := wr exptbl i v in
    let v := gfmul v x02 in
    (exptbl, if byte_eqb v x01 then x00 else v)) (replicate 256 x00, x01)).

Definition raid6_gfinv : list byte :=
  map (λ i, gfpow (zb (Z.of_nat i)) 254) (seq 0 256).

Definition raid6_gfexi : list byte :=
  map (λ i, rd x00 raid6_gfinv (bn (bxor (rd x00 raid6_gfexp i) x01))) (seq 0 256).

(** ** The syndrome generator ([linux-md-raid/int.uc], 64-bit words) *)

Definition NSIZE : nat := 8.
Definition NBYTES (x : Z) : Z := u64w (x * 0x0101010101010101).

Definition SHLBYTE (v : Z) : Z := Z.land (u64w (Z.shiftl v 1)) (NBYTES 0xfe).

Definition MASK (v : Z) : Z :=
  let vv := Z.land v (NBYTES 0x80) in
  u64w (u64w (Z.shiftl vv 1) - Z.shiftr vv 7).

Definition memory := list (list byte).

Definition load64 (mem : memory) (p off : nat) : option Z :=
  if (off + NSIZE <=? length (rd [] mem p))%nat
  then Some (le_combine (take NSIZE (drop off (rd [] mem p)))) else None.

Definition store64 (mem : memory) (p off : nat) (w : Z) : option memory :=
  if (off + NSIZE <=? length (rd [] mem p))%nat
  then Some (wr mem p (splice off (le_split NSIZE w) (rd [] mem p))) else None.

(** One lane of the inner loop: fold disk word [wd] into [(wp, wq)]. *)
Definition syndrome_step (wd : Z) (lane : Z * Z) : Z * Z :=
  let '(wp, wq) := lane in
  let wp := Z.lxor wp wd in
  let w2 := MASK wq in
  let w1 := SHLBYTE wq in
  let w2 := Z.land w2 (NBYTES 0x1d) in
  let w1 := Z.lxor w1 w2 in
  (wp, Z.lxor w1 wd).

(** The [unroll] lanes of disk pointer [p] at offset [d]. *)
Definition load_lanes (unroll : nat) (mem : memory) (p d : nat) : option (list Z) :=
  mapM (λ l, load64 mem p (d + l * NSIZE)) (seq 0 unroll).

Definition store_lanes (unroll : nat) (mem : memory) (p d : nat) (ws : list Z)
    : option memory :=
  for_opt 0 unroll (λ l mem, store64 mem p (d + NSIZE * l) (rd 0%Z ws l)) mem.

(** [raid6_intN_gen_syndrome] with [N] = [unroll]. *)
Definition gen_syndrome (unroll disks bytes : nat) (ptrs : list nat) (mem : memory)
    : option memory :=
  let z0 := (disks - 3)%nat in
  let p := rd O ptrs (z0 + 1) in
  let q := rd O ptrs (z0 + 2) in
  let stride := (NSIZE * unroll)%nat in
  for_opt 0 ((bytes + stride - 1) / stride) (λ b mem,
    let d := (b * stride)%nat in
    ws ← load_lanes unroll mem (rd O ptrs z0) d;
    lanes ← for_opt 0 z0 (λ t lanes,
      wd ← load_lanes unroll mem (rd O ptrs (z0 - 1 - t)) d;
      Some (zip_with syndrome_step wd lanes)) (map (λ w, (w, w)) ws);
    mem ← store_lanes unroll mem p d (map fst lanes);
    store_lanes unroll mem q d (map snd lanes)) mem.

(** ** Recovery ([linux-md-raid/recov.c]) *)

Definition ld (mem : memory) (p i : nat) : option byte := rd [] mem p !! i.
Definition st (mem : memory) (p i : nat) (v : byte) : option memory :=
  if (i <? length (rd [] mem p))%nat then Some (wr mem p (wr (rd [] mem p) i v)) else None.

(** One round of the byte loop of [raid6_2data_recov_intx1]. *)
Definition recov2_byte (pbmul qmul : list byte) (p q dp dq i : nat) (mem : memory)
    : option memory :=
  vp ← ld mem p i; vdp ← ld mem dp i;
  let px := bxor vp vdp in
  vq ← ld mem q i; vdq ← ld mem dq i;
  let qx := rd x00 qmul (bn (bxor vq vdq)) in
  let db := bxor (rd x00 pbmul (bn px)) qx in
  mem ← st mem dq i db;
  st mem dp i (bxor db px).

(** One round of the byte loop of [raid6_datap_recov_intx1]. *)
Definition recovp_byte (qmul : list byte) (p q dq i : nat) (mem : memory) : option memory :=
  vq ← ld mem q i; vdq ← ld mem dq i;
  let v := rd x00 qmul (bn (bxor vq vdq)) in
  mem ← st mem dq i v;
  vp ← ld mem p i;
  st mem p i (bxor vp v).

Section Recov.
(** [raid6_call.gen_syndrome], and the buffer holding the zero page. *)
Context (gen : nat → nat → list nat → memory → option memory) (zero_page : nat).

Definition raid6_2data_recov_intx1 (disks bytes faila failb : nat) (ptrs : list nat)
    (mem : memory) : option memory :=
  let p := rd O ptrs (disks - 2) in
  let q := rd O ptrs (disks - 1) in
  let dp := rd O ptrs faila in
  let ptrs' := wr ptrs faila zero_page in
  let ptrs' := wr ptrs' (disks - 2) dp in
  let dq := rd O ptrs' failb in
  let ptrs' := wr ptrs' failb zero_page in
  let ptrs' := wr ptrs' (disks - 1) dq in
  mem ← gen disks bytes ptrs' mem;
  let pbmul := rd [] raid6_gfmul (bn (rd x00 raid6_gfexi (failb - faila))) in
  let qmul := rd [] raid6_gfmul
    (bn (rd x00 raid6_gfinv (bn (bxor (rd x00 raid6_gfexp faila) (rd x00 raid6_gfexp failb))))) in
  for_opt 0 bytes (recov2_byte pbmul qmul p q dp dq) mem.

Definition raid6_datap_recov_intx1 (disks bytes faila : nat) (ptrs : list nat)
    (mem : memory) : option memory :=
  let p := rd O ptrs (disks - 2) in
  let q := rd O ptrs (disks - 1) in
  let dq := rd O ptrs faila in
  let ptrs' := wr ptrs faila zero_page in
  let ptrs' := wr ptrs' (disks - 1) dq in
  mem ← gen disks bytes ptrs' mem;
  let qmul := rd [] raid6_gfmul (bn (rd x00 raid6_gfinv (bn (rd x00 raid6_gfexp faila)))) in
  for_opt 0 bytes (recovp_byte qmul p q dq) mem.

End Recov.

(** ** The wrapper ([linux_md.c]) *)

Definition LINUX_MD_MIN_DATA : Z := 2.
Definition LINUX_MD_MAX_DATA : Z := 253.
Definition PAGE_SIZE : Z := 4096.

Definition ec_linux_md_create (k : Z) : option nat :=
  if (k <? LINUX_MD_MIN_DATA)%Z || (LINUX_MD_MAX_DATA <? k)%Z then None
  else Some (Z.to_nat k).

Definition copy_buf (mem : memory) (dst src len : nat) : option memory :=
  for_opt 0 len (λ i mem, v ← ld mem src i; st mem dst i v) mem.

(** [for (x = 0; x < len; x++) out[x] ^= src[x]]. *)
Definition xor_buf (mem : memory) (out src len : nat) : option memory :=
  for_opt 0 len (λ i mem,
    a ← ld mem out i; b ← ld mem src i; st mem out i (bxor a b)) mem.

Definition xor_all_data_into (mem : memory) (out : nat) (data : list nat) (k shard_len : nat)
    : option memory :=
  mem ← copy_buf mem out (rd O data 0) shard_len;
  for_opt 1 (k - 1) (λ i mem, xor_buf mem out (rd O data i) shard_len) mem.

Definition raid5_style_data_recover (mem : memory) (out : nat) (data : list nat)
    (k missing_data p shard_len : nat) : option memory :=
  mem ← copy_buf mem out p shard_len;
  for_opt 0 k (λ i mem,
    if (i =? missing_data)%nat then Some mem
    else xor_buf mem out (rd O data i) shard_len) mem.

Section Wrapper.
Context (unroll zero_page : nat).

Definition linux_md_encode (k : nat) (data : list nat) (parity : option (list nat))
    (shard_len : nat) (mem : memory) : option (Z * memory) :=
  if (shard_len =? 0)%nat then Some (0%Z, mem)
  else
    match parity with
    | None => Some ((- EINVAL)%Z, mem)
    | Some parity =>
        let ptrs := take k data ++ [rd O parity 0; rd O parity 1] in
        mem ← gen_syndrome unroll (k + 2) shard_len ptrs mem;
        Some (0%Z, mem)
    end.

(** The indices of the missing shards; only the first two are kept. *)
Definition missing (n : nat) (present : list bool) : nat * list nat :=
  for_range 0 n (λ i s,
    let '(miss_count, miss) := s in
    if rd false present i then s
    else (S miss_count, if (miss_count <? 2)%nat then miss ++ [i] else miss)) (O, []).

(** One shard missing, at index [m0]. *)
Definition decode_one (k : nat) (shards : list nat) (m0 shard_len : nat) (mem : memory)
    : option memory :=
  let p_idx := k in
  if (m0 <? k)%nat then
    raid5_style_data_recover mem (rd O shards m0) shards k m0 (rd O shards p_idx) shard_len
  else if (m0 =? p_idx)%nat then
    xor_all_data_into mem (rd O shards p_idx) shards k shard_len
  else gen_syndrome unroll (k + 2) shard_len shards mem.

(** Two shards missing, [a < b]. *)
Definition decode_two (k : nat) (shards : list nat) (a b shard_len : nat) (mem : memory)
    : option memory :=
  let n := (k + 2)%nat in
  let p_idx := k in
  let gen := gen_syndrome unroll in
  if (p_idx <=? a)%nat then gen n shard_len shards mem
  else if (b <? p_idx)%nat then
    raid6_2data_recov_intx1 gen zero_page n shard_len a b shards mem
  else if (b =? p_idx)%nat then
    mem ← raid6_datap_recov_intx1 gen zero_page n shard_len a shards mem;
    xor_all_data_into mem (rd O shards p_idx) shards k shard_len
  else
    mem ← raid5_style_data_recover mem (rd O shards a) shards k a
            (rd O shards p_idx) shard_len;
    gen n shard_len shards mem.

Definition linux_md_decode (k : nat) (shards : list nat) (present : list bool)
    (shard_len : nat) (mem : memory) : option (Z * memory) :=
  let n := (k + 2)%nat in
  if (shard_len =? 0)%nat then Some (0%Z, mem)
  else
    let '(miss_count, miss) := missing n present in
    if (miss_count =? 0)%nat then Some (0%Z, mem)
    else if (2 <? miss_count)%nat then Some ((- EIO)%Z, mem)
    else if (miss_count =? 1)%nat then
      mem ← decode_one k shards (rd O miss 0) shard_len mem;
      Some (0%Z, mem)
    else
      mem ← decode_two k shards (rd O miss 0) (rd O miss 1) shard_len mem;
      Some (0%Z, mem).

End Wrapper.

(** ** The tables hold the field *)

Lemma gfmul_xtime a :
  zb (Z.lxor (Z.shiftl (bz a) 1) (if Z.testbit (bz a) 7 then 0x1d else 0)) = gf_mul x02 a.
Proof.
  apply byte_eqb_eq. apply (byte_forall1 (λ a, byte_eqb
    (zb (Z.lxor (Z.shiftl (bz a) 1) (if Z.testbit (bz a) 7 then 0x1d else 0))) (gf_mul x02 a))).
  by vm_compute.
Qed.

(** A byte is twice its upper seven bits plus its lowest bit. *)
Lemma byte_halves b :
  b = gf_add (gf_mul x02 (zb (Z.shiftr (bz b) 1))) (if Z.testbit (bz b) 0 then x01 else x00).
Proof.
  apply byte_eqb_eq. apply (byte_forall1 (λ b, byte_eqb b
    (gf_add (gf_mul x02 (zb (Z.shiftr (bz b) 1)))
       (if Z.testbit (bz b) 0 then x01 else x00)))).
  by vm_compute.
Qed.

Lemma gfmul_loop_spec fuel a b v :
  (bz b < 2 ^ Z.of_nat fuel)%Z → gfmul_loop fuel a b v = gf_add v (gf_mul a b).
Proof.
  revert a b v. induction fuel as [|fuel IH]; intros a b v Hb.
  - assert (b = x00) as -> by (apply bz_inj; pose proof (bz_range b); cbn in *; lia).
    rewrite gf_mul_0_r. symmetry. apply bxor_0_r.
  - cbn [gfmul_loop]. destruct (byte_eqb_spec b x00) as [->|Hne].
    { rewrite gf_mul_0_r. symmetry. apply bxor_0_r. }
    rewrite gfmul_xtime, IH.
    + transitivity (gf_add v (gf_mul a (gf_add (gf_mul x02 (zb (Z.shiftr (bz b) 1)))
        (if Z.testbit (bz b) 0 then x01 else x00)))); [|by rewrite <-byte_halves].
      rewrite gf_mul_add_r, gf_mul_assoc, (gf_mul_comm x02 a).
      destruct (Z.testbit (bz b) 0).
      * rewrite gf_mul_1_r. unfold gf_add.
        by rewrite <-bxor_assoc, (bxor_comm a).
      * rewrite gf_mul_0_r. unfold gf_add. by rewrite bxor_0_r.
    + pose proof (bz_range b). rewrite bz_zb, Z.shiftr_div_pow2 by lia.
      rewrite Nat2Z.inj_succ, Z.pow_succ_r in Hb by lia. change (2 ^ 1)%Z with 2%Z.
      assert (bz b / 2 < 2 ^ Z.of_nat fuel)%Z by (apply Z.div_lt_upper_bound; lia).
      rewrite Z.mod_small; [done|]. split; [apply Z.div_pos; lia|].
      apply Z.div_lt_upper_bound; lia.
Qed.

Lemma gfmul_gf_mul a b : gfmul a b = gf_mul a b.
Proof.
  unfold gfmul. rewrite gfmul_loop_spec; [apply bxor_0_l|]. pose proof (bz_range b).
  cbn; lia.
Qed.

Lemma raid6_gfmul_spec c b : rd x00 (rd [] raid6_gfmul (bn c)) (bn b) = gf_mul c b.
Proof.
  unfold raid6_gfmul. pose proof (bn_range c). pose proof (bn_range b).
  rewrite rd_map_seq, rd_map_seq by lia. by rewrite gfmul_gf_mul, !zb_bn.
Qed.

Lemma raid6_gfexp_spec i : (i < 255)%nat → rd x00 raid6_gfexp i = gpow x02 i.
Proof.
  intros Hi. apply byte_eqb_eq.
  apply (nat_all_spec 255 (λ i, byte_eqb (rd x00 raid6_gfexp i) (gpow x02 i)));
    [by vm_compute|done].
Qed.

Lemma raid6_gfinv_spec b : b ≠ x00 → rd x00 raid6_gfinv (bn b) = gf_inv b.
Proof.
  intros Hb. unfold raid6_gfinv. rewrite rd_map_seq by apply bn_range. rewrite zb_bn.
  assert (H : byte_eqb b x00 || byte_eqb (gfpow b 254) (gf_inv b) = true).
  { apply (byte_forall1 (λ b, byte_eqb b x00 || byte_eqb (gfpow b 254) (gf_inv b))).
    by vm_compute. }
  apply orb_true_iff in H as [H|H]; apply byte_eqb_eq in H; done.
Qed.

Lemma raid6_gfexi_spec i :
  (0 < i < 255)%nat → rd x00 raid6_gfexi i = gf_inv (gf_add (gpow x02 i) x01).
Proof.
  intros Hi. unfold raid6_gfexi. rewrite rd_map_seq by lia.
  rewrite raid6_gfexp_spec by lia. apply raid6_gfinv_spec. intros E.
  apply gf_add_eq_0 in E. change x01 with (gpow x02 0) in E.
  apply gpow_2_inj in E; lia.
Qed.

#[global] Opaque raid6_gfmul raid6_gfexp raid6_gfinv raid6_gfexi gfmul gfpow.

End LinuxMd.
