(* ===== verification/LinuxMdCorrect.v ===== *)
(** * Correctness of the RAID-6 syndromes and of the recovery routines

    The 64-bit word tricks of [int.uc] compute P and Q byte by byte for every
    unroll factor, and each recovery case of [linux_md_decode] rebuilds the
    stripe. *)

From S2P Require Import Prelude.
From S2P Require Import Words.
From S2P Require Import GF256.
From S2P Require Import Matrix.
From S2P Require Import ReedSolomon.
From S2P Require Import RSCorrect.
From S2P Require Import Erasure.
From S2P Require Import LinuxMd.
Import Words GF Matrix RS RSCorrect Erasure LinuxMd.

Module LinuxMdCorrect.

(** ** Word operations, byte by byte *)

Lemma NBYTES_bytes c : NBYTES (bz c) = le_combine (replicate 8 c).
Proof.
  unfold NBYTES, wrap. pose proof (bz_range c). rewrite Z.mod_small by lia.
  cbn [replicate le_combine]. lia.
Qed.

Lemma zip_with_replicate_8 (f : byte → byte → byte) l c :
  length l = 8%nat → zip_with f l (replicate 8 c) = map (λ b, f b c) l.
Proof.
  intros Hl. rewrite <-Hl. clear Hl. induction l as [|b l IH]; [done|].
  cbn [length replicate zip_with map]. by rewrite IH.
Qed.

Lemma rd_map_zero (f : byte → byte) l i :
  f x00 = x00 → rd x00 (map f l) i = f (rd x00 l i).
Proof.
  intros Hf. destruct (decide (i < length l)%nat).
  - by apply rd_map.
  - rewrite !rd_ge by (rewrite ?length_map; lia). done.
Qed.

Definition shl_byte (b : byte) : byte := zb (2 * bz b).

Lemma testbit_shl_byte b n :
  (0 <= n < 8)%Z → Z.testbit (bz (shl_byte b)) n = (0 <? n)%Z && Z.testbit (bz b) (n - 1).
Proof.
  intros Hn. unfold shl_byte. rewrite bz_zb. change 256%Z with (2 ^ 8)%Z.
  rewrite Z.mod_pow2_bits_low by lia. destruct (Z.ltb_spec 0 n).
  - replace n with (Z.succ (n - 1)) at 1 by lia. by rewrite Z.double_bits_succ.
  - replace n with 0%Z by lia. by rewrite Z.testbit_even_0.
Qed.

Lemma SHLBYTE_bytes l :
  length l = 8%nat → SHLBYTE (le_combine l) = le_combine (map shl_byte l).
Proof.
  intros Hl. unfold SHLBYTE. change 0xfe%Z with (bz xfe). rewrite NBYTES_bytes.
  apply Z.bits_inj'. intros n Hn. rewrite Z.land_spec. unfold wrap.
  rewrite !testbit_le_combine by done. rewrite (rd_map_zero shl_byte) by (vm_compute; reflexivity).
  pose proof (Z.mod_pos_bound n 8 ltac:(lia)) as Hm.
  destruct (Z.lt_ge_cases n 64) as [H64|H64].
  2:{ assert (8 <= n / 8)%Z by (apply Z.div_le_lower_bound; lia).
      rewrite Z.mod_pow2_bits_high, andb_false_l, (rd_ge x00 l) by lia.
      symmetry. apply Z.bits_0. }
  rewrite Z.mod_pow2_bits_low, Z.shiftl_spec, testbit_shl_byte by lia.
  assert (Hq : (0 <= n / 8 < 8)%Z)
    by (split; [apply Z.div_pos; lia|apply Z.div_lt_upper_bound; lia]).
  rewrite rd_replicate_lt by lia.
  assert (Hfe : Z.testbit (bz xfe) (n mod 8) = (0 <? n mod 8)%Z).
  { assert (H : (n mod 8 = 0 ∨ n mod 8 = 1 ∨ n mod 8 = 2 ∨ n mod 8 = 3 ∨ n mod 8 = 4 ∨
      n mod 8 = 5 ∨ n mod 8 = 6 ∨ n mod 8 = 7)%Z) by lia.
    by destruct H as [->|[->|[->|[->|[->|[->|[->| ->]]]]]]]. }
  rewrite Hfe, andb_comm. destruct (Z.ltb_spec 0 (n mod 8)); [|done]. cbn [andb].
  pose proof (Z.div_mod n 8 ltac:(lia)) as Hdm.
  rewrite testbit_le_combine by lia.
  replace (n - 1)%Z with ((n mod 8 - 1) + (n / 8) * 8)%Z by lia.
  rewrite Z.div_add, Z.mod_add, Z.div_small, Z.mod_small by lia. done.
Qed.

(** 1 where the high bit is set. *)
Definition high (b : byte) : byte := if Z.testbit (bz b) 7 then x01 else x00.
Definition high_mask (b : byte) : byte := if Z.testbit (bz b) 7 then xff else x00.

Lemma band_80 b : bz (band b x80) = (128 * bz (high b))%Z.
Proof.
  apply Z.eqb_eq. apply (byte_forall1 (λ b, bz (band b x80) =? 128 * bz (high b))%Z).
  by vm_compute.
Qed.

Lemma le_combine_scale c (f g : byte → byte) l :
  (∀ b, bz (f b) = c * bz (g b))%Z →
  le_combine (map f l) = (c * le_combine (map g l))%Z.
Proof.
  intros H. induction l as [|b l IH]; [cbn; lia|]. cbn [map le_combine].
  rewrite H, IH. lia.
Qed.

Lemma MASK_bytes l : length l = 8%nat → MASK (le_combine l) = le_combine (map high_mask l).
Proof.
  intros Hl. unfold MASK. change 0x80%Z with (bz x80). rewrite NBYTES_bytes.
  rewrite le_combine_land by (rewrite length_replicate; lia).
  rewrite zip_with_replicate_8 by done.
  rewrite (le_combine_scale 128 (λ b, band b x80) high l band_80).
  assert (E : le_combine (map high_mask l) = (255 * le_combine (map high l))%Z).
  { apply le_combine_scale. intros b. unfold high_mask, high. by destruct (Z.testbit (bz b) 7). }
  pose proof (le_combine_range (map high_mask l)) as Hr.
  rewrite length_map, Hl in Hr. rewrite E in *.
  set (M := le_combine (map high l)) in *.
  rewrite Z.shiftl_mul_pow2, Z.shiftr_div_pow2 by lia.
  change (2 ^ 1)%Z with 2%Z. change (2 ^ 7)%Z with 128%Z.
  rewrite (Z.mul_comm 128), Z.div_mul by lia. unfold wrap.
  rewrite Zminus_mod_idemp_l. change (256 ^ Z.of_nat 8)%Z with (2 ^ 64)%Z in Hr.
  rewrite Z.mod_small by lia. lia.
Qed.

Lemma xtime_bytes b :
  bxor (shl_byte b) (band (high_mask b) x1d) = gf_mul x02 b.
Proof.
  apply byte_eqb_eq. apply (byte_forall1 (λ b, byte_eqb
    (bxor (shl_byte b) (band (high_mask b) x1d)) (gf_mul x02 b))).
  by vm_compute.
Qed.

(** The word holding the bytes [f off], [f (off + 1)], ... *)
Definition word_of (f : nat → byte) (off : nat) : Z :=
  le_combine (map (λ j, f (off + j)%nat) (seq 0 8)).

Lemma word_of_ext f g off :
  (∀ j, (j < 8)%nat → f (off + j)%nat = g (off + j)%nat) → word_of f off = word_of g off.
Proof.
  intros H. unfold word_of. apply (f_equal le_combine). apply map_ext_in.
  intros j Hj%in_seq. apply H. lia.
Qed.

Lemma zip_map {A B C D} (f : B → C → D) (g : A → B) (h : A → C) l :
  zip_with f (map g l) (map h l) = map (λ x, f (g x) (h x)) l.
Proof. induction l as [|x l IH]; [done|]. cbn. by rewrite IH. Qed.

Lemma word_of_lxor f g off :
  Z.lxor (word_of f off) (word_of g off) = word_of (λ x, bxor (f x) (g x)) off.
Proof. unfold word_of. rewrite le_combine_lxor by done. by rewrite zip_map. Qed.

Lemma syndrome_step_word f g h off :
  syndrome_step (word_of f off) (word_of g off, word_of h off)
  = (word_of (λ x, bxor (g x) (f x)) off,
     word_of (λ x, gf_add (gf_mul x02 (h x)) (f x)) off).
Proof.
  unfold syndrome_step. rewrite word_of_lxor. apply (f_equal (pair _)).
  transitivity (Z.lxor (word_of (λ x, gf_mul x02 (h x)) off) (word_of f off));
    [|apply word_of_lxor].
  apply (f_equal (λ w, Z.lxor w (word_of f off))). unfold word_of.
  rewrite MASK_bytes, SHLBYTE_bytes by done. change 0x1d%Z with (bz x1d).
  rewrite NBYTES_bytes, le_combine_land, zip_with_replicate_8 by done.
  rewrite le_combine_lxor by done. rewrite !map_map, zip_map.
  apply (f_equal le_combine). apply map_ext. intros j. apply xtime_bytes.
Qed.

(** ** Loads and stores *)

Definition byte_at (mem : memory) (p x : nat) : byte := rd x00 (rd [] mem p) x.
Definition buf_len (mem : memory) (p : nat) : nat := length (rd [] mem p).

Lemma take_drop_seq (l : list byte) off n :
  (off + n <= length l)%nat → take n (drop off l) = map (λ j, rd x00 l (off + j)) (seq 0 n).
Proof.
  intros H. apply (rd_ext x00).
  - rewrite length_take, length_drop, length_map, length_seq. lia.
  - rewrite length_take, length_drop. intros i Hi.
    rewrite rd_take, rd_drop, rd_map_seq by lia. done.
Qed.

Lemma load64_ok mem p off :
  (off + 8 <= buf_len mem p)%nat → load64 mem p off = Some (word_of (byte_at mem p) off).
Proof.
  intros H. unfold load64, NSIZE. destruct (Nat.leb_spec (off + 8) (length (rd [] mem p)));
    [|unfold buf_len in H; lia].
  by rewrite take_drop_seq.
Qed.

Lemma load_lanes_ok N mem p d :
  (d + 8 * N <= buf_len mem p)%nat →
  load_lanes N mem p d
  = Some (map (λ l, word_of (byte_at mem p) (d + l * 8)) (seq 0 N)).
Proof.
  intros H. apply mapM_Some_2, list.Forall2_fmap_r, list.Forall_Forall2_diag, list.Forall_forall.
  intros l Hl%elem_of_seq. apply load64_ok. lia.
Qed.

Lemma byte_at_wr mem p v q x :
  (p < length mem)%nat →
  byte_at (wr mem p v) q x = if decide (q = p) then rd x00 v x else byte_at mem q x.
Proof. intros Hp. unfold byte_at. rewrite rd_wr by done. by case_decide. Qed.

Lemma buf_len_pos mem p : (0 < buf_len mem p)%nat → (p < length mem)%nat.
Proof.
  intros H. destruct (decide (p < length mem)%nat); [done|].
  unfold buf_len in H. rewrite rd_ge in H by lia. cbn in H. lia.
Qed.

(** [mem'] differs from [mem] only in the bytes of buffer [p] that [upd]
    redefines. *)
Definition updates (mem : memory) (p : nat) (upd : nat → option byte) (mem' : memory) : Prop :=
  length mem' = length mem ∧
  (∀ q, buf_len mem' q = buf_len mem q) ∧
  (∀ q, q ≠ p → rd [] mem' q = rd [] mem q) ∧
  (∀ x, (x < buf_len mem p)%nat → byte_at mem' p x = default (byte_at mem p x) (upd x)).

Lemma store64_ok mem p off f :
  (off + 8 <= buf_len mem p)%nat →
  ∃ mem', store64 mem p off (word_of f off) = Some mem' ∧
    updates mem p (λ x, if decide (off <= x < off + 8)%nat then Some (f x) else None) mem'.
Proof.
  intros H. unfold store64, NSIZE.
  destruct (Nat.leb_spec (off + 8) (length (rd [] mem p))); [|unfold buf_len in H; lia].
  pose proof (buf_len_pos mem p ltac:(lia)) as Hp.
  change (le_split 8 (word_of f off)) with
    (le_split (length (map (λ j, f (off + j)%nat) (seq 0 8))) (word_of f off)).
  unfold word_of. rewrite le_split_combine. eexists. split; [done|]. split_and!.
  - apply length_wr.
  - intros q. unfold buf_len. rewrite rd_wr by done. case_decide as Hq; [subst q|done].
    apply length_splice. rewrite length_map, length_seq. lia.
  - intros q Hq. by rewrite rd_wr, decide_False.
  - intros x Hx. rewrite byte_at_wr, decide_True by done.
    rewrite rd_splice by (rewrite length_map, length_seq; lia).
    rewrite length_map, length_seq. repeat case_decide; try done.
    rewrite rd_map_seq by lia. cbn. f_equal. lia.
Qed.

Lemma updates_trans mem p u v m1 m2 :
  updates mem p u m1 → updates m1 p v m2 →
  updates mem p (λ x, match v x with Some b => Some b | None => u x end) m2.
Proof.
  intros (A1 & A2 & A3 & A4) (B1 & B2 & B3 & B4). split_and!.
  - lia.
  - intros q. by rewrite B2.
  - intros q Hq. by rewrite B3, A3.
  - intros x Hx. rewrite B4, A4 by (rewrite ?A2; done). by destruct (v x).
Qed.

Lemma updates_ext mem p u v m :
  updates mem p u m → (∀ x, (x < buf_len mem p)%nat → u x = v x) → updates mem p v m.
Proof.
  intros (A1 & A2 & A3 & A4) H. split_and!; try done.
  intros x Hx. by rewrite A4, H.
Qed.

Lemma updates_refl mem p : updates mem p (λ _, None) mem.
Proof. by split_and!. Qed.

Lemma store_lanes_ok N mem p d f :
  (d + 8 * N <= buf_len mem p)%nat →
  ∃ mem', store_lanes N mem p d (map (λ l, word_of f (d + l * 8)) (seq 0 N)) = Some mem' ∧
    updates mem p (λ x, if decide (d <= x < d + 8 * N)%nat then Some (f x) else None) mem'.
Proof.
  intros H. unfold store_lanes.
  destruct (for_opt_ind (λ l m,
    updates mem p (λ x, if decide (d <= x < d + 8 * l)%nat then Some (f x) else None) m)
    0 N (λ l mem, store64 mem p (d + NSIZE * l)
      (rd 0%Z (map (λ l, word_of f (d + l * 8)) (seq 0 N)) l)) mem) as (m & Hm & Hu).
  - apply (updates_ext _ _ _ _ _ (updates_refl mem p)). intros x Hx.
    rewrite decide_False by lia. done.
  - intros l m Hl Hu. pose proof Hu as (_ & Hlen & _).
    rewrite rd_map_seq by lia. change NSIZE with 8%nat.
    replace (d + l * 8)%nat with (d + 8 * l)%nat by lia.
    destruct (store64_ok m p (d + 8 * l) f) as (m' & Hm' & Hu'); [rewrite Hlen; lia|].
    exists m'. split; [exact Hm'|].
    apply (updates_ext _ _ _ _ _ (updates_trans _ _ _ _ _ _ Hu Hu')). intros x Hx.
    repeat case_decide; (done || lia).
  - by exists m.
Qed.

(** ** The syndromes *)

(** Running P and Q after folding in disks [z0], ..., [z0 - t]. *)
Fixpoint psyn (D : nat → nat → byte) (z0 t x : nat) : byte :=
  match t with
  | O => D z0 x
  | S t => bxor (psyn D z0 t x) (D (z0 - 1 - t)%nat x)
  end.

Fixpoint qsyn (D : nat → nat → byte) (z0 t x : nat) : byte :=
  match t with
  | O => D z0 x
  | S t => gf_add (gf_mul x02 (qsyn D z0 t x)) (D (z0 - 1 - t)%nat x)
  end.

Lemma psyn_gsum D z0 t x :
  (t <= z0)%nat → psyn D z0 t x = gsum (t + 1) (λ j, D (z0 - t + j)%nat x).
Proof.
  induction t as [|t IH]; intros Ht.
  - cbn [psyn Nat.add]. rewrite gsum_S_l. symmetry. rewrite Nat.sub_0_r, Nat.add_0_r.
    apply bxor_0_r.
  - cbn [psyn]. rewrite IH by lia. cbn [Nat.add]. rewrite gsum_S_l, bxor_comm.
    replace (z0 - S t + 0)%nat with (z0 - 1 - t)%nat by lia.
    apply (f_equal (bxor _)). apply gsum_ext. intros j Hj.
    by replace (z0 - S t + S j)%nat with (z0 - t + j)%nat by lia.
Qed.

Lemma qsyn_gsum D z0 t x :
  (t <= z0)%nat →
  qsyn D z0 t x = gsum (t + 1) (λ j, gf_mul (gpow x02 j) (D (z0 - t + j)%nat x)).
Proof.
  induction t as [|t IH]; intros Ht.
  - cbn [qsyn Nat.add]. rewrite gsum_S_l. symmetry. rewrite Nat.sub_0_r, Nat.add_0_r.
    cbn [gpow]. rewrite gf_mul_1_l. apply bxor_0_r.
  - cbn [qsyn]. rewrite IH by lia. cbn [Nat.add]. rewrite gsum_S_l. unfold gf_add.
    rewrite bxor_comm. cbn [gpow]. rewrite gf_mul_1_l.
    replace (z0 - S t + 0)%nat with (z0 - 1 - t)%nat by lia.
    apply (f_equal (bxor _)). rewrite <-gsum_mul_l. apply gsum_ext. intros j Hj.
    rewrite gf_mul_assoc.
    by replace (z0 - S t + S j)%nat with (z0 - t + j)%nat by lia.
Qed.

(** The pointers [gen_syndrome] is called with: [k] data buffers of at least
    [L] bytes, and two distinct parity buffers of [L] bytes outside the data. *)
Record ptrs_ok (k L : nat) (ptrs : list nat) (mem : memory) : Prop := {
  po_data : ∀ z, (z < k)%nat → (L <= buf_len mem (rd O ptrs z))%nat;
  po_p : buf_len mem (rd O ptrs k) = L;
  po_q : buf_len mem (rd O ptrs (k + 1)) = L;
  po_pq : rd O ptrs k ≠ rd O ptrs (k + 1);
  po_sep : ∀ z, (z < k)%nat → rd O ptrs z ≠ rd O ptrs k ∧ rd O ptrs z ≠ rd O ptrs (k + 1);
}.

Section Gen.
Context (N k nb L : nat) (ptrs : list nat) (mem : memory).
Context (HN : (0 < N)%nat) (Hk : (0 < k)%nat) (HL : L = (nb * (8 * N))%nat).
Context (Hok : ptrs_ok k L ptrs mem).

Let D (z x : nat) : byte := byte_at mem (rd O ptrs z) x.
Let p := rd O ptrs k.
Let q := rd O ptrs (k + 1).

(** The state between blocks: [P] and [Q] are done up to offset [d]. *)
Definition gen_inv (d : nat) (m : memory) : Prop :=
  length m = length mem ∧
  (∀ r, buf_len m r = buf_len mem r) ∧
  (∀ r, r ≠ p → r ≠ q → rd [] m r = rd [] mem r) ∧
  (∀ x, (x < d)%nat → byte_at m p x = psyn D (k - 1) (k - 1) x ∧
                      byte_at m q x = qsyn D (k - 1) (k - 1) x).

Lemma gen_inv_data d m z x : gen_inv d m → (z < k)%nat → byte_at m (rd O ptrs z) x = D z x.
Proof.
  intros (_ & _ & H & _) Hz. destruct (po_sep _ _ _ _ Hok z Hz) as [H1 H2].
  unfold byte_at, D. by rewrite H.
Qed.

Lemma gen_lanes d m :
  gen_inv d m → (d + 8 * N <= L)%nat →
  (ws ← load_lanes N m (rd O ptrs (k - 1)) d;
   for_opt 0 (k - 1) (λ t lanes,
     wd ← load_lanes N m (rd O ptrs (k - 1 - 1 - t)) d;
     Some (zip_with syndrome_step wd lanes)) (map (λ w, (w, w)) ws))
  = Some (map (λ l, (word_of (psyn D (k - 1) (k - 1)) (d + l * 8),
                     word_of (qsyn D (k - 1) (k - 1)) (d + l * 8))) (seq 0 N)).
Proof.
  intros Hinv Hd. pose proof Hinv as (_ & Hlen & _ & _).
  assert (Hload : ∀ z, (z < k)%nat →
    load_lanes N m (rd O ptrs z) d = Some (map (λ l, word_of (D z) (d + l * 8)) (seq 0 N))).
  { intros z Hz. rewrite load_lanes_ok.
    - apply (f_equal Some). apply map_ext. intros l. apply word_of_ext.
      intros j _. by apply (gen_inv_data d).
    - pose proof (po_data _ _ _ _ Hok z Hz). rewrite Hlen. lia. }
  rewrite Hload by lia. cbn [mbind option_bind]. rewrite map_map.
  destruct (for_opt_ind (λ t lanes, lanes =
      map (λ l, (word_of (psyn D (k - 1) t) (d + l * 8),
                 word_of (qsyn D (k - 1) t) (d + l * 8))) (seq 0 N))
    0 (k - 1) (λ t lanes,
     wd ← load_lanes N m (rd O ptrs (k - 1 - 1 - t)) d;
     Some (zip_with syndrome_step wd lanes))
    (map (λ x, (word_of (D (k - 1)%nat) (d + x * 8), word_of (D (k - 1)%nat) (d + x * 8)))
       (seq 0 N))) as (lanes & -> & ->); [done| |done].
  intros t lanes Ht ->. rewrite Hload by lia. cbn [mbind option_bind].
  eexists. split; [done|]. rewrite zip_map. apply map_ext. intros l.
  by rewrite syndrome_step_word.
Qed.

Lemma gen_syndrome_inv :
  ∃ m, gen_syndrome N (k + 2) L ptrs mem = Some m ∧ gen_inv L m.
Proof.
  unfold gen_syndrome. change NSIZE with 8%nat.
  replace (k + 2 - 3)%nat with (k - 1)%nat by lia.
  replace (k - 1 + 1)%nat with k by lia. replace (k - 1 + 2)%nat with (k + 1)%nat by lia.
  replace ((L + 8 * N - 1) / (8 * N))%nat with nb.
  2:{ rewrite HL. symmetry. replace (nb * (8 * N) + 8 * N - 1)%nat
        with ((8 * N - 1) + nb * (8 * N))%nat by lia.
      rewrite Nat.div_add, Nat.div_small by lia. done. }
  cbv zeta. fold p q.
  destruct (for_opt_ind (λ b m, gen_inv (b * (8 * N)) m) 0 nb (λ b mem,
    ws ← load_lanes N mem (rd O ptrs (k - 1)) (b * (8 * N));
    lanes ← for_opt 0 (k - 1) (λ t lanes,
      wd ← load_lanes N mem (rd O ptrs (k - 1 - 1 - t)) (b * (8 * N));
      Some (zip_with syndrome_step wd lanes)) (map (λ w, (w, w)) ws);
    mem ← store_lanes N mem p (b * (8 * N)) (map fst lanes);
    store_lanes N mem q (b * (8 * N)) (map snd lanes)) mem) as (m & Hm & Hinv).
  - split_and!; try done. intros x Hx. lia.
  - intros b m Hb Hinv. set (d := (b * (8 * N))%nat) in *.
    assert (Hd : (d + 8 * N <= L)%nat) by (unfold d; nia).
    pose proof (gen_lanes d m Hinv Hd) as Hl.
    pose proof Hinv as (I1 & I2 & I3 & I4).
    destruct (load_lanes N m (rd O ptrs (k - 1)) d) as [ws|]; [|done].
    cbn [mbind option_bind] in Hl |- *. rewrite Hl. cbn [mbind option_bind].
    rewrite !map_map. cbn [fst snd].
    destruct (store_lanes_ok N m p d (psyn D (k - 1) (k - 1))) as (m1 & -> & U1).
    { rewrite I2. unfold p. rewrite (po_p _ _ _ _ Hok). done. }
    pose proof U1 as (A1 & A2 & A3 & A4). cbn [mbind option_bind].
    destruct (store_lanes_ok N m1 q d (qsyn D (k - 1) (k - 1))) as (m2 & Hm2 & U2).
    { rewrite A2, I2. unfold q. rewrite (po_q _ _ _ _ Hok). done. }
    exists m2. split; [done|]. destruct U2 as (B1 & B2 & B3 & B4).
    pose proof (po_pq _ _ _ _ Hok) as Hpq. fold p q in Hpq.
    pose proof (po_p _ _ _ _ Hok) as Hp. pose proof (po_q _ _ _ _ Hok) as Hq.
    fold p in Hp. fold q in Hq. split_and!.
    + lia.
    + intros r. by rewrite B2, A2.
    + intros r Hr1 Hr2. by rewrite B3, A3, I3.
    + replace (S b * (8 * N))%nat with (d + 8 * N)%nat by (unfold d; lia).
      intros x Hx. split.
      * unfold byte_at at 1. rewrite B3 by done. fold (byte_at m1 p x).
        rewrite A4 by (rewrite I2; lia). case_decide; [done|]. apply I4. lia.
      * rewrite B4 by (rewrite A2, I2; lia). case_decide; [done|]. cbn.
        unfold byte_at at 1. rewrite A3 by done. apply I4. lia.
  - exists m. split; [exact Hm|]. by rewrite HL.
Qed.

(** [gen_syndrome] writes [P = sum_j D_j] and [Q = sum_j 2^j D_j] and touches
    no other buffer. *)
Lemma gen_syndrome_spec :
  ∃ m, gen_syndrome N (k + 2) L ptrs mem = Some m ∧ length m = length mem ∧
    (∀ r, buf_len m r = buf_len mem r) ∧
    (∀ r, r ≠ p → r ≠ q → rd [] m r = rd [] mem r) ∧
    (∀ x, (x < L)%nat →
       byte_at m p x = gsum k (λ j, D j x) ∧
       byte_at m q x = gsum k (λ j, gf_mul (gpow x02 j) (D j x))).
Proof.
  destruct gen_syndrome_inv as (m & Hm & H1 & H2 & H3 & H4).
  exists m. split_and!; [done..|]. intros x Hx. destruct (H4 x Hx) as [-> ->].
  rewrite psyn_gsum, qsyn_gsum by lia. replace (k - 1 + 1)%nat with k by lia.
  rewrite Nat.sub_diag. done.
Qed.
End Gen.

(** ** Byte loops *)

(** [mem'] differs from [mem] only in the bytes of [p] and [q] below [i], which
    are [f] and [g]. *)
Definition fills2 (mem : memory) (p : nat) (f : nat → byte) (q : nat) (g : nat → byte)
    (i : nat) (mem' : memory) : Prop :=
  length mem' = length mem ∧
  (∀ r, buf_len mem' r = buf_len mem r) ∧
  (∀ r, r ≠ p → r ≠ q → rd [] mem' r = rd [] mem r) ∧
  (∀ x, byte_at mem' p x = if decide (x < i)%nat then f x else byte_at mem p x) ∧
  (∀ x, byte_at mem' q x = if decide (x < i)%nat then g x else byte_at mem q x).

Lemma st_ok mem p i v :
  (i < buf_len mem p)%nat →
  ∃ mem', st mem p i v = Some mem' ∧ length mem' = length mem ∧
    (∀ r, buf_len mem' r = buf_len mem r) ∧
    (∀ r, r ≠ p → rd [] mem' r = rd [] mem r) ∧
    (∀ x, byte_at mem' p x = if decide (x = i) then v else byte_at mem p x).
Proof.
  intros Hi. unfold st. destruct (Nat.ltb_spec i (length (rd [] mem p)));
    [|unfold buf_len in Hi; lia].
  pose proof (buf_len_pos mem p ltac:(lia)) as Hp. eexists. split; [done|]. split_and!.
  - apply length_wr.
  - intros r. unfold buf_len. rewrite rd_wr by done. case_decide; [subst; apply length_wr|done].
  - intros r Hr. by rewrite rd_wr, decide_False.
  - intros x. rewrite byte_at_wr, decide_True by done. by rewrite rd_wr.
Qed.

Lemma ld_ok mem p i : (i < buf_len mem p)%nat → ld mem p i = Some (byte_at mem p i).
Proof. intros Hi. by apply rd_lt. Qed.

(** A loop that stores one byte to each of two buffers per round. *)
Lemma byte_loop2 mem p q L (f g : nat → byte) body :
  p ≠ q → (L <= buf_len mem p)%nat → (L <= buf_len mem q)%nat →
  (∀ i m, (i < L)%nat → fills2 mem p f q g i m →
     body i m = (m ← st m p i (f i); st m q i (g i))) →
  ∃ m, for_opt 0 L body mem = Some m ∧ fills2 mem p f q g L m.
Proof.
  intros Hpq Hp Hq Hbody. apply (for_opt_ind (fills2 mem p f q g) 0 L body mem).
  { by split_and!. }
  intros i m Hi Hf. rewrite Hbody by (lia || done).
  destruct Hf as (F1 & F2 & F3 & F4 & F5).
  destruct (st_ok m p i (f i)) as (m1 & -> & A1 & A2 & A3 & A4); [rewrite F2; lia|].
  cbn [mbind option_bind].
  destruct (st_ok m1 q i (g i)) as (m2 & -> & B1 & B2 & B3 & B4); [rewrite A2, F2; lia|].
  exists m2. split; [done|]. split_and!.
  - lia.
  - intros r. by rewrite B2, A2.
  - intros r H1 H2. by rewrite B3, A3, F3.
  - intros x. unfold byte_at at 1. rewrite B3 by done. fold (byte_at m1 p x).
    rewrite A4, F4. repeat case_decide; subst; (done || lia).
  - intros x. rewrite B4. unfold byte_at at 1. rewrite A3 by done. fold (byte_at m q x).
    rewrite F5. repeat case_decide; subst; (done || lia).
Qed.

Lemma byte_loop mem p L (f : nat → byte) body :
  (L <= buf_len mem p)%nat →
  (∀ i m, (i < L)%nat → fills2 mem p f p f i m → body i m = st m p i (f i)) →
  ∃ m, for_opt 0 L body mem = Some m ∧ fills2 mem p f p f L m.
Proof.
  intros Hp Hbody. apply (for_opt_ind (fills2 mem p f p f) 0 L body mem).
  { by split_and!. }
  intros i m Hi Hf. rewrite Hbody by (lia || done).
  destruct Hf as (F1 & F2 & F3 & F4 & _).
  destruct (st_ok m p i (f i)) as (m1 & -> & A1 & A2 & A3 & A4); [rewrite F2; lia|].
  assert (Hb : ∀ x, byte_at m1 p x = if decide (x < S i)%nat then f x else byte_at mem p x).
  { intros x. rewrite A4, F4. repeat case_decide; subst; (done || lia). }
  exists m1. split; [done|]. split_and!; [lia|..|exact Hb|exact Hb].
  - intros r. by rewrite A2.
  - intros r H1 _. by rewrite A3, F3.
Qed.

Lemma fills2_other mem p f q g i m r x :
  fills2 mem p f q g i m → r ≠ p → r ≠ q → byte_at m r x = byte_at mem r x.
Proof. intros (_ & _ & F & _) H1 H2. unfold byte_at. by rewrite F. Qed.

Lemma copy_buf_ok mem dst src L :
  dst ≠ src → (L <= buf_len mem dst)%nat → (L <= buf_len mem src)%nat →
  ∃ m, copy_buf mem dst src L = Some m ∧
    fills2 mem dst (byte_at mem src) dst (byte_at mem src) L m.
Proof.
  intros Hne Hd Hs. apply byte_loop; [done|]. intros i m Hi Hf.
  rewrite ld_ok; [|destruct Hf as (_ & -> & _); lia]. cbn [mbind option_bind].
  by rewrite (fills2_other _ _ _ _ _ _ _ _ _ Hf) by done.
Qed.

Lemma xor_buf_ok mem out src L :
  out ≠ src → (L <= buf_len mem out)%nat → (L <= buf_len mem src)%nat →
  let f := λ x, bxor (byte_at mem out x) (byte_at mem src x) in
  ∃ m, xor_buf mem out src L = Some m ∧ fills2 mem out f out f L m.
Proof.
  intros Hne Ho Hs f. apply byte_loop; [done|]. intros i m Hi Hf.
  pose proof Hf as (_ & Hlen & _ & Hb & _).
  rewrite !ld_ok by (rewrite Hlen; lia). cbn [mbind option_bind].
  rewrite (fills2_other _ _ _ _ _ _ _ src i Hf) by done.
  rewrite Hb, decide_False by lia. done.
Qed.

(** ** The shards [linux_md_decode] finds missing *)

Lemma missing_spec n present :
  let '(cnt, miss) := missing n present in
  (cnt + count_present n present = n)%nat ∧
  (cnt = 0%nat → ∀ i, (i < n)%nat → rd false present i = true) ∧
  (cnt = 1%nat → ∃ a, miss = [a] ∧ (a < n)%nat ∧
     ∀ i, (i < n)%nat → i ≠ a → rd false present i = true) ∧
  (cnt = 2%nat → ∃ a b, miss = [a; b] ∧ (a < b < n)%nat ∧
     ∀ i, (i < n)%nat → i ≠ a → i ≠ b → rd false present i = true) ∧
  (cnt = 0%nat → miss = []).
Proof.
  induction n as [|n IH]; [cbn; split_and!; intros; (lia || done)|].
  unfold missing in *. rewrite for_range_S, count_present_S. cbn [Nat.add].
  destruct (for_range 0 n _ _) as [cnt miss]. destruct IH as (I1 & I2 & I3 & I4 & I5).
  assert (Hlast : ∀ (P : nat → Prop), (∀ i, (i < n)%nat → P i) → P n → ∀ i, (i < S n)%nat → P i).
  { intros P H1 H2 i Hi. destruct (decide (i = n)) as [->|]; [done|apply H1; lia]. }
  destruct (rd false present n) eqn:E; split_and!; try lia.
  - intros H. apply Hlast; [by apply I2|done].
  - intros H. destruct (I3 H) as (a & -> & Ha & Hr). exists a. split_and!; [done|lia|].
    by apply (Hlast (λ i, i ≠ a → rd false present i = true)).
  - intros H. destruct (I4 H) as (a & b & -> & Ha & Hr). exists a, b. split_and!; [done|lia..|].
    by apply (Hlast (λ i, i ≠ a → i ≠ b → rd false present i = true)).
  - done.
  - intros H. assert (cnt = 0%nat) as -> by lia. rewrite I5 by done. exists n.
    split_and!; [done|lia|]. apply (Hlast (λ i, i ≠ n → rd false present i = true)); [|done].
    intros i Hi _. by apply I2.
  - intros H. assert (cnt = 1%nat) as -> by lia. destruct (I3 eq_refl) as (a & -> & Ha & Hr).
    exists a, n. split_and!; [done|lia..|].
    apply (Hlast (λ i, i ≠ a → i ≠ n → rd false present i = true)); [|done].
    intros i Hi Hne _. by apply Hr.
Qed.

(** ** Rebuilding a stripe *)

Lemma rd_seq n i : (i < n)%nat → rd O (seq 0 n) i = i.
Proof. intros Hi. apply rd_lookup. by rewrite lookup_seq_lt. Qed.

Section Rebuild.
Context (N k L nb : nat) (cw : nat → nat → byte).
Context (HN : (0 < N)%nat) (Hk : (2 <= k <= 253)%nat) (HL : L = (nb * (8 * N))%nat).
Context (Hpage : (Z.of_nat L <= PAGE_SIZE)%Z).
Context (HP : ∀ x, (x < L)%nat → cw k x = gsum k (λ j, cw j x)).
Context (HQ : ∀ x, (x < L)%nat →
  cw (k + 1)%nat x = gsum k (λ j, gf_mul (gpow x02 j) (cw j x))).

Let n := (k + 2)%nat.
Let shards := seq 0 n.

(** Every shard in its own buffer of [L] bytes, the zero page after them. *)
Definition shape (m : memory) : Prop :=
  length m = S n ∧ (∀ i, (i < n)%nat → buf_len m i = L) ∧
  rd [] m n = replicate (Z.to_nat PAGE_SIZE) x00.

Definition good (m : memory) (i : nat) : Prop :=
  ∀ x, (x < L)%nat → byte_at m i x = cw i x.

Lemma zero_page_byte m x : shape m → byte_at m n x = x00.
Proof. intros (_ & _ & H). unfold byte_at. rewrite H. apply rd_replicate. Qed.

Lemma zero_page_len m : shape m → (L <= buf_len m n)%nat.
Proof. intros (_ & _ & H). unfold buf_len. rewrite H, length_replicate. lia. Qed.

Lemma shape_keep m m' :
  shape m → length m' = length m → (∀ r, buf_len m' r = buf_len m r) →
  rd [] m' n = rd [] m n → shape m'.
Proof.
  intros (S1 & S2 & S3) H1 H2 H3. split_and!; [lia| |congruence].
  intros i Hi. rewrite H2. by apply S2.
Qed.

Lemma fills2_shape m p f q g i m' :
  shape m → (p < n)%nat → (q < n)%nat → fills2 m p f q g i m' → shape m'.
Proof.
  intros Hs Hp Hq (F1 & F2 & F3 & _). apply (shape_keep m); [done..|]. apply F3; lia.
Qed.

Lemma fills2_good m p f q g i m' r :
  fills2 m p f q g i m' → r ≠ p → r ≠ q → good m r → good m' r.
Proof. intros Hf H1 H2 Hg x Hx. rewrite (fills2_other _ _ _ _ _ _ _ _ _ Hf) by done. by apply Hg. Qed.

(** Regenerating both parities. *)
Lemma gen_good m :
  shape m → (∀ j, (j < k)%nat → good m j) →
  ∃ m', gen_syndrome N n L shards m = Some m' ∧ shape m' ∧ ∀ i, (i < n)%nat → good m' i.
Proof.
  intros Hs Hg. pose proof Hs as (S1 & S2 & S3).
  destruct (gen_syndrome_spec N k nb L shards m HN ltac:(lia) HL) as (m' & Hm' & G1 & G2 & G3 & G4).
  { unfold shards, n. constructor.
    - intros z Hz. rewrite rd_seq, S2 by (unfold n; lia). lia.
    - rewrite rd_seq, S2 by (unfold n; lia). done.
    - rewrite rd_seq, S2 by (unfold n; lia). done.
    - rewrite !rd_seq by lia. lia.
    - intros z Hz. rewrite !rd_seq by lia. lia. }
  unfold shards, n in G3, G4. rewrite !rd_seq in G3 by lia.
  exists m'. split; [exact Hm'|]. split.
  { apply (shape_keep m); [done..|]. apply G3; unfold n; lia. }
  intros i Hi x Hx. specialize (G4 x Hx). rewrite !rd_seq in G4 by lia.
  destruct G4 as [G4 G5].
  assert (Hd : ∀ j, (j < k)%nat → byte_at m (rd O (seq 0 (k + 2)) j) x = cw j x).
  { intros j Hj. rewrite rd_seq by lia. by apply Hg. }
  destruct (decide (i < k)%nat); [|destruct (decide (i = k)) as [->|]].
  - unfold byte_at. rewrite G3 by lia. by apply Hg.
  - rewrite G4, HP by done. apply gsum_ext. exact Hd.
  - replace i with (k + 1)%nat by (unfold n in Hi; lia). rewrite G5, HQ by done.
    apply gsum_ext. intros j Hj. by rewrite Hd.
Qed.

(** XORing a set of data buffers into [out]. *)
Lemma xor_loop m0 m out lo c (skip : nat → bool) (f : nat → byte) :
  shape m → (out < n)%nat → (lo + c <= k)%nat →
  (∀ r, r ≠ out → rd [] m r = rd [] m0 r) →
  (∀ i, (lo <= i < lo + c)%nat → skip i = false → i ≠ out) →
  (∀ x, (x < L)%nat → byte_at m out x = f x) →
  ∃ m', for_opt lo c (λ i mem, if skip i then Some mem
           else xor_buf mem out (rd O shards i) L) m = Some m' ∧ shape m' ∧
    (∀ r, r ≠ out → rd [] m' r = rd [] m0 r) ∧
    ∀ x, (x < L)%nat → byte_at m' out x =
      bxor (f x) (gsum c (λ j, if skip (lo + j)%nat then x00 else byte_at m0 (lo + j) x)).
Proof.
  intros Hs Hout Hc Hsame Hskip Hf.
  destruct (for_opt_ind (λ i m', shape m' ∧ (∀ r, r ≠ out → rd [] m' r = rd [] m0 r) ∧
    ∀ x, (x < L)%nat → byte_at m' out x =
      bxor (f x) (gsum (i - lo) (λ j, if skip (lo + j)%nat then x00 else byte_at m0 (lo + j) x)))
    lo c (λ i mem, if skip i then Some mem else xor_buf mem out (rd O shards i) L) m)
    as (m' & Hm' & H1 & H2 & H3).
  - split_and!; [done..|]. intros x Hx. rewrite Nat.sub_diag, Hf by done.
    symmetry. apply bxor_0_r.
  - intros i m' Hi (I1 & I2 & I3).
    replace (S i - lo)%nat with (S (i - lo)) by lia.
    destruct (skip i) eqn:E.
    + exists m'. split; [done|]. split_and!; [done..|]. intros x Hx.
      rewrite I3, gsum_S by done. replace (lo + (i - lo))%nat with i by lia. rewrite E.
      unfold gf_add. by rewrite bxor_0_r.
    + assert (Hin : (i < n)%nat) by (unfold n; lia).
      pose proof (Hskip i Hi E) as Hne. pose proof I1 as (_ & Hlen & _).
      unfold shards. rewrite rd_seq by done.
      destruct (xor_buf_ok m' out i L) as (m2 & -> & F); [done|rewrite Hlen; lia..|].
      exists m2. split; [done|]. split_and!.
      * exact (fills2_shape _ _ _ _ _ _ _ I1 Hout Hout F).
      * intros r Hr. destruct F as (_ & _ & F & _). by rewrite F, I2.
      * intros x Hx. destruct F as (_ & _ & _ & F & _).
        rewrite F, decide_True by done. rewrite I3, gsum_S by done.
        replace (lo + (i - lo))%nat with i by lia. rewrite E. unfold gf_add.
        rewrite bxor_assoc. apply (f_equal (bxor _)). unfold byte_at. by rewrite I2.
  - exists m'. split; [done|]. split_and!; [done..|]. intros x Hx. rewrite H3 by done.
    by replace (lo + c - lo)%nat with c by lia.
Qed.

(** Recomputing P from the data. *)
Lemma xor_all_good m :
  shape m → (∀ j, (j < k)%nat → good m j) → good m (k + 1) →
  ∃ m', xor_all_data_into m (rd O shards k) shards k L = Some m' ∧ shape m' ∧
    ∀ i, (i < n)%nat → good m' i.
Proof.
  intros Hs Hg Hgq. pose proof Hs as (_ & Hlen & _). unfold xor_all_data_into, shards.
  rewrite !rd_seq by (unfold n; lia).
  destruct (copy_buf_ok m k 0 L) as (m1 & -> & F); [lia|rewrite Hlen by (unfold n; lia); lia..|].
  cbn [mbind option_bind].
  destruct (xor_loop m m1 k 1 (k - 1) (λ _, false) (byte_at m 0)) as (m2 & Hm2 & Hs2 & Hr & Hb).
  - refine (fills2_shape _ _ _ _ _ _ _ Hs _ _ F); unfold n; lia.
  - unfold n. lia.
  - lia.
  - intros r Hr. destruct F as (_ & _ & F & _). by apply F.
  - intros i Hi _. lia.
  - intros x Hx. destruct F as (_ & _ & _ & F & _). by rewrite F, decide_True.
  - exists m2. split; [exact Hm2|]. split; [done|]. intros i Hi x Hx.
    destruct (decide (i = k)) as [->|].
    + rewrite Hb, HP by done. replace k with (S (k - 1)) at 2 by lia. rewrite gsum_S_l.
      unfold gf_add. rewrite Hg by lia. apply (f_equal (bxor _)). apply gsum_ext.
      intros j Hj. apply Hg; lia.
    + unfold byte_at. rewrite Hr by done. destruct (decide (i < k)%nat); [by apply Hg|].
      replace i with (k + 1)%nat by (unfold n in Hi; lia). by apply Hgq.
Qed.

(** Rebuilding one data shard from P. *)
Lemma raid5_good m a :
  shape m → (a < k)%nat → (∀ i, (i < k + 1)%nat → i ≠ a → good m i) →
  ∃ m', raid5_style_data_recover m (rd O shards a) shards k a (rd O shards k) L = Some m' ∧
    shape m' ∧ good m' a ∧ ∀ r, r ≠ a → rd [] m' r = rd [] m r.
Proof.
  intros Hs Ha Hg. pose proof Hs as (_ & Hlen & _).
  unfold raid5_style_data_recover, shards. rewrite !rd_seq by (unfold n; lia).
  destruct (copy_buf_ok m a k L) as (m1 & -> & F); [lia|rewrite Hlen by (unfold n; lia); lia..|].
  cbn [mbind option_bind].
  destruct (xor_loop m m1 a 0 k (λ i, (i =? a)%nat) (byte_at m k)) as (m2 & Hm2 & Hs2 & Hr & Hb).
  - refine (fills2_shape _ _ _ _ _ _ _ Hs _ _ F); unfold n; lia.
  - unfold n. lia.
  - lia.
  - intros r Hr. destruct F as (_ & _ & F & _). by apply F.
  - intros i Hi E. by apply Nat.eqb_neq in E.
  - intros x Hx. destruct F as (_ & _ & _ & F & _). by rewrite F, decide_True.
  - exists m2. split; [exact Hm2|]. split_and!; [done| |done].
    intros x Hx. rewrite Hb by done. rewrite (Hg k) by lia. rewrite HP by done.
    cbn [Nat.add].
    rewrite (gsum_ext k (λ j, if (j =? a)%nat then x00 else byte_at m j x)
      (λ j, if (j =? a)%nat then x00 else cw j x)).
    + rewrite (gsum_skip k (λ j, cw j x) a Ha). unfold gf_add.
      by rewrite bxor_assoc, bxor_nilpotent, bxor_0_l.
    + intros j Hj. destruct (Nat.eqb_spec j a); [done|]. apply Hg; lia.
Qed.

(** The syndromes of the data with the disks of [dead] read as zero. *)
Lemma gen_dead m ptrs pbuf qbuf (dead : nat → bool) :
  shape m → rd O ptrs k = pbuf → rd O ptrs (k + 1) = qbuf → pbuf ≠ qbuf →
  (pbuf < n)%nat → (qbuf < n)%nat →
  (∀ z, (z < k)%nat → rd O ptrs z = if dead z then n else z) →
  (∀ z, (z < k)%nat → dead z = false → z ≠ pbuf ∧ z ≠ qbuf ∧ good m z) →
  ∃ m', gen_syndrome N n L ptrs m = Some m' ∧ shape m' ∧
    (∀ r, r ≠ pbuf → r ≠ qbuf → rd [] m' r = rd [] m r) ∧
    ∀ x, (x < L)%nat →
      byte_at m' pbuf x = gsum k (λ j, if dead j then x00 else cw j x) ∧
      byte_at m' qbuf x
      = gsum k (λ j, if dead j then x00 else gf_mul (gpow x02 j) (cw j x)).
Proof.
  intros Hs Hp Hq Hpq Hpn Hqn Hd Hlive. pose proof Hs as (S1 & S2 & S3).
  destruct (gen_syndrome_spec N k nb L ptrs m HN ltac:(lia) HL) as (m' & Hm' & G1 & G2 & G3 & G4).
  { constructor.
    - intros z Hz. rewrite Hd by done. destruct (dead z); [by apply zero_page_len|].
      rewrite S2 by (unfold n; lia). done.
    - rewrite Hp. by apply S2.
    - rewrite Hq. by apply S2.
    - by rewrite Hp, Hq.
    - intros z Hz. rewrite Hd, Hp, Hq by done. destruct (dead z) eqn:E; [lia|].
      by destruct (Hlive z Hz E) as (? & ? & _). }
  rewrite Hp, Hq in *. exists m'. split; [exact Hm'|]. split.
  { apply (shape_keep m); [done..|]. apply G3; lia. }
  split; [done|]. intros x Hx. destruct (G4 x Hx) as [-> ->].
  assert (Hb : ∀ j, (j < k)%nat → byte_at m (rd O ptrs j) x = if dead j then x00 else cw j x).
  { intros j Hj. rewrite Hd by done. destruct (dead j) eqn:E; [by apply zero_page_byte|].
    by apply (Hlive j Hj E). }
  split; apply gsum_ext; intros j Hj; rewrite Hb by done; [done|].
  destruct (dead j); [apply gf_mul_0_r|done].
Qed.

Lemma gsum_skip2 f a b :
  (a < k)%nat → (b < k)%nat → a ≠ b →
  gsum k (λ j, if (j =? a)%nat || (j =? b)%nat then x00 else f j)
  = gf_add (gsum k f) (gf_add (f a) (f b)).
Proof.
  intros Ha Hb Hab.
  rewrite (gsum_ext k _ (λ j, if (j =? a)%nat then x00 else (if (j =? b)%nat then x00 else f j)))
    by (intros j _; by destruct (Nat.eqb_spec j a)).
  rewrite (gsum_skip k (λ j, if (j =? b)%nat then x00 else f j) a Ha).
  rewrite (gsum_skip k f b Hb). destruct (Nat.eqb_spec a b); [done|].
  unfold gf_add. by rewrite <-bxor_assoc, (bxor_comm (f b)).
Qed.

(** The algebra of two lost data disks. *)
Lemma two_data_algebra a b u v :
  (a < b < k)%nat →
  gf_add (gf_mul (gf_inv (gf_add (gpow x02 (b - a)) x01)) (gf_add u v))
    (gf_mul (gf_inv (gf_add (gpow x02 a) (gpow x02 b)))
       (gf_add (gf_mul (gpow x02 a) u) (gf_mul (gpow x02 b) v))) = v.
Proof.
  intros Hab. set (ga := gpow x02 a). set (h := gpow x02 (b - a)).
  assert (Eb : gpow x02 b = gf_mul ga h)
    by (unfold ga, h; rewrite <-gpow_add; f_equal; lia).
  assert (Hga : ga ≠ x00) by (by apply gpow_nonzero).
  assert (Hh : gf_add h x01 ≠ x00).
  { intros E. apply gf_add_eq_0 in E. change x01 with (gpow x02 0) in E.
    apply gpow_2_inj in E; lia. }
  rewrite Eb. set (i1 := gf_inv (gf_add h x01)). set (i2 := gf_inv (gf_add ga (gf_mul ga h))).
  assert (E1 : gf_mul (gf_add h x01) i1 = x01) by (by apply gf_mul_inv_r).
  assert (E2 : gf_mul i2 (gf_mul ga (gf_add h x01)) = x01).
  { replace (gf_mul ga (gf_add h x01)) with (gf_add ga (gf_mul ga h)) by ring.
    apply gf_mul_inv_l. intros E. apply (gf_mul_nonzero ga (gf_add h x01) Hga Hh).
    rewrite <-E. ring. }
  assert (E3 : i1 = gf_mul i2 ga).
  { transitivity (gf_mul (gf_mul i2 (gf_mul ga (gf_add h x01))) i1);
      [by rewrite E2, gf_mul_1_l|].
    transitivity (gf_mul (gf_mul i2 ga) (gf_mul (gf_add h x01) i1)); [ring|].
    by rewrite E1, gf_mul_1_r. }
  rewrite E3.
  transitivity (gf_add (gf_mul (gf_mul i2 ga) (gf_add u u))
                  (gf_mul (gf_mul i2 (gf_mul ga (gf_add h x01))) v)); [ring|].
  rewrite E2, gf_add_self, gf_mul_0_r, gf_mul_1_l. apply bxor_0_l.
Qed.

Lemma syndrome_delta f a b :
  (a < k)%nat → (b < k)%nat → a ≠ b →
  gf_add (gsum k f) (gsum k (λ j, if (j =? a)%nat || (j =? b)%nat then x00 else f j))
  = gf_add (f a) (f b).
Proof.
  intros Ha Hb Hab. rewrite gsum_skip2 by done. unfold gf_add.
  by rewrite bxor_assoc, bxor_nilpotent, bxor_0_l.
Qed.

(** One byte of the two-data recovery: with the deltas of P and Q in the dead
    buffers, both bytes are rebuilt. *)
Lemma recov2_byte_ok a b i m :
  (a < b < k)%nat → (i < L)%nat → shape m →
  byte_at m k i = cw k i → byte_at m (k + 1) i = cw (k + 1)%nat i →
  byte_at m a i = gsum k (λ j, if (j =? a)%nat || (j =? b)%nat then x00 else cw j i) →
  byte_at m b i = gsum k (λ j, if (j =? a)%nat || (j =? b)%nat then x00
                               else gf_mul (gpow x02 j) (cw j i)) →
  recov2_byte (rd [] raid6_gfmul (bn (rd x00 raid6_gfexi (b - a))))
    (rd [] raid6_gfmul (bn (rd x00 raid6_gfinv
       (bn (bxor (rd x00 raid6_gfexp a) (rd x00 raid6_gfexp b))))))
    k (k + 1) a b i m
  = (m0 ← st m b i (cw b i); st m0 a i (cw a i)).
Proof.
  intros Hab Hi (_ & Hlen & _) Ep Eq Ea Eb. unfold recov2_byte.
  rewrite !ld_ok by (rewrite Hlen; unfold n; lia). cbn [mbind option_bind].
  rewrite Ep, Eq, Ea, Eb, HP, HQ by done. change bxor with gf_add.
  rewrite (syndrome_delta (λ j, cw j i) a b) by lia.
  rewrite (syndrome_delta (λ j, gf_mul (gpow x02 j) (cw j i)) a b) by lia.
  rewrite !raid6_gfmul_spec, raid6_gfexi_spec, !raid6_gfexp_spec by lia.
  rewrite raid6_gfinv_spec.
  - rewrite two_data_algebra by done. unfold gf_add.
    by rewrite (bxor_comm (cw a i)), bxor_assoc, bxor_nilpotent, bxor_0_l.
  - intros E. apply gf_add_eq_0, gpow_2_inj in E; lia.
Qed.

Lemma rd_shards i : (i < n)%nat → rd O shards i = i.
Proof. intros. by apply rd_seq. Qed.

(** Two data shards lost. *)
Lemma two_data_good m a b :
  shape m → (a < b < k)%nat → (∀ i, (i < n)%nat → i ≠ a → i ≠ b → good m i) →
  ∃ m', raid6_2data_recov_intx1 (gen_syndrome N) n n L a b shards m = Some m' ∧ shape m' ∧
    ∀ i, (i < n)%nat → good m' i.
Proof.
  intros Hs Hab Hg. unfold raid6_2data_recov_intx1.
  assert (Hsl : length shards = n) by apply length_seq.
  replace (n - 2)%nat with k by (unfold n; lia).
  replace (n - 1)%nat with (k + 1)%nat by (unfold n; lia).
  rewrite !rd_shards by (unfold n; lia).
  replace (rd O (wr (wr shards a n) k a) b) with b.
  2:{ rewrite !rd_wr by (rewrite ?length_wr, Hsl; unfold n; lia).
      rewrite !decide_False, rd_shards by (unfold n; lia). done. }
  destruct (gen_dead m (wr (wr (wr (wr shards a n) k a) b n) (k + 1) b) a b
    (λ j, (j =? a)%nat || (j =? b)%nat)) as (m1 & -> & Hs1 & Hr1 & Hb1);
    [done|..|unfold n; lia|unfold n; lia| | |].
  1,2: rewrite !rd_wr by (rewrite ?length_wr, Hsl; unfold n; lia);
    repeat case_decide; (lia || done).
  { lia. }
  { intros z Hz. rewrite !rd_wr by (rewrite ?length_wr, Hsl; unfold n; lia).
    rewrite (decide_False (P := z = (k + 1)%nat)), (decide_False (P := z = k)) by lia.
    destruct (Nat.eqb_spec z a), (Nat.eqb_spec z b); cbn [orb];
      repeat case_decide; try done; try lia. apply rd_shards. unfold n. lia. }
  { intros z Hz E. apply orb_false_iff in E as [E1%Nat.eqb_neq E2%Nat.eqb_neq].
    split_and!; [done..|]. apply Hg; [unfold n; lia|done..]. }
  cbn [mbind option_bind]. pose proof Hs1 as (_ & Hlen & _).
  edestruct (byte_loop2 m1 b a L (cw b) (cw a)) as (m2 & -> & F);
    [lia|rewrite Hlen; unfold n; lia..| |].
  - intros i m' Hi F. pose proof F as (_ & _ & Fo & Fb & Fa).
    assert (Hs' : shape m')
      by (refine (fills2_shape _ _ _ _ _ _ _ Hs1 _ _ F); unfold n; lia).
    destruct (Hb1 i Hi) as [Ea Eb].
    apply recov2_byte_ok; [exact Hab|exact Hi|exact Hs'|..].
    1,2: unfold byte_at; rewrite Fo, Hr1 by lia; apply Hg; unfold n; lia.
    + by rewrite Fa, decide_False by lia.
    + by rewrite Fb, decide_False by lia.
  - exists m2. split; [done|]. split.
    { refine (fills2_shape _ _ _ _ _ _ _ Hs1 _ _ F); unfold n; lia. }
    intros i Hi x Hx. pose proof F as (_ & _ & _ & Fb & Fa).
    destruct (decide (i = a)) as [->|]; [by rewrite Fa, decide_True|].
    destruct (decide (i = b)) as [->|]; [by rewrite Fb, decide_True|].
    rewrite (fills2_other _ _ _ _ _ _ _ i x F) by done.
    unfold byte_at. rewrite Hr1 by done. by apply Hg.
Qed.

(** One byte of the data-plus-P recovery. *)
Lemma recovp_byte_ok a i m :
  (a < k)%nat → (i < L)%nat → shape m → byte_at m (k + 1) i = cw (k + 1)%nat i →
  byte_at m k i = gsum k (λ j, if (j =? a)%nat then x00 else cw j i) →
  byte_at m a i = gsum k (λ j, if (j =? a)%nat then x00 else gf_mul (gpow x02 j) (cw j i)) →
  recovp_byte (rd [] raid6_gfmul (bn (rd x00 raid6_gfinv (bn (rd x00 raid6_gfexp a)))))
    k (k + 1) a i m
  = (m0 ← st m a i (cw a i); st m0 k i (cw k i)).
Proof.
  intros Ha Hi (_ & Hlen & _) Eq Ep Ea. unfold recovp_byte.
  rewrite !ld_ok by (rewrite Hlen; unfold n; lia). cbn [mbind option_bind].
  rewrite Eq, Ea, HQ by done.
  rewrite (gsum_skip k (λ j, gf_mul (gpow x02 j) (cw j i)) a Ha). unfold gf_add.
  rewrite bxor_assoc, bxor_nilpotent, bxor_0_l, raid6_gfmul_spec.
  rewrite raid6_gfexp_spec, raid6_gfinv_spec by (lia || by apply gpow_nonzero).
  rewrite gf_mul_assoc, gf_mul_inv_l, gf_mul_1_l by (by apply gpow_nonzero).
  destruct (st_ok m a i (cw a i)) as (m1 & -> & A1 & A2 & A3 & A4);
    [rewrite Hlen; unfold n; lia|].
  cbn [mbind option_bind]. rewrite ld_ok by (rewrite A2, Hlen; unfold n; lia).
  cbn [mbind option_bind]. unfold byte_at at 1. rewrite A3 by lia. fold (byte_at m k i).
  rewrite Ep, (gsum_skip k (λ j, cw j i) a Ha), <-HP by done. unfold gf_add.
  by rewrite <-bxor_assoc, bxor_nilpotent, bxor_0_r.
Qed.

(** A data shard and P lost. *)
Lemma datap_good m a :
  shape m → (a < k)%nat → (∀ i, (i < n)%nat → i ≠ a → i ≠ k → good m i) →
  ∃ m', raid6_datap_recov_intx1 (gen_syndrome N) n n L a shards m = Some m' ∧ shape m' ∧
    ∀ i, (i < n)%nat → good m' i.
Proof.
  intros Hs Ha Hg. unfold raid6_datap_recov_intx1.
  assert (Hsl : length shards = n) by apply length_seq.
  replace (n - 2)%nat with k by (unfold n; lia).
  replace (n - 1)%nat with (k + 1)%nat by (unfold n; lia).
  rewrite !rd_shards by (unfold n; lia).
  destruct (gen_dead m (wr (wr shards a n) (k + 1) a) k a (λ j, (j =? a)%nat))
    as (m1 & -> & Hs1 & Hr1 & Hb1); [done|..|unfold n; lia|unfold n; lia| | |].
  1,2: rewrite !rd_wr by (rewrite ?length_wr, Hsl; unfold n; lia);
    repeat case_decide; try lia; try done; apply rd_shards; unfold n; lia.
  { lia. }
  { intros z Hz. rewrite !rd_wr by (rewrite ?length_wr, Hsl; unfold n; lia).
    rewrite decide_False by lia. destruct (Nat.eqb_spec z a); case_decide; try done.
    apply rd_shards. unfold n. lia. }
  { intros z Hz E%Nat.eqb_neq. split_and!; [lia|done|]. apply Hg; unfold n; lia. }
  cbn [mbind option_bind]. pose proof Hs1 as (_ & Hlen & _).
  edestruct (byte_loop2 m1 a k L (cw a) (cw k)) as (m2 & -> & F);
    [lia|rewrite Hlen; unfold n; lia..| |].
  - intros i m' Hi F. pose proof F as (_ & _ & Fo & Fa & Fk).
    assert (Hs' : shape m')
      by (refine (fills2_shape _ _ _ _ _ _ _ Hs1 _ _ F); unfold n; lia).
    destruct (Hb1 i Hi) as [Ek Ea].
    apply recovp_byte_ok; [exact Ha|exact Hi|exact Hs'|..].
    + unfold byte_at. rewrite Fo, Hr1 by lia. apply Hg; unfold n; lia.
    + by rewrite Fk, decide_False by lia.
    + by rewrite Fa, decide_False by lia.
  - exists m2. split; [done|]. split.
    { refine (fills2_shape _ _ _ _ _ _ _ Hs1 _ _ F); unfold n; lia. }
    intros i Hi x Hx. pose proof F as (_ & _ & _ & Fa & Fk).
    destruct (decide (i = a)) as [->|]; [by rewrite Fa, decide_True|].
    destruct (decide (i = k)) as [->|]; [by rewrite Fk, decide_True|].
    rewrite (fills2_other _ _ _ _ _ _ _ i x F) by done.
    unfold byte_at. rewrite Hr1 by done. by apply Hg.
Qed.

Lemma decode_one_good m a :
  shape m → (a < n)%nat → (∀ i, (i < n)%nat → i ≠ a → good m i) →
  ∃ m', decode_one N k shards a L m = Some m' ∧ shape m' ∧ ∀ i, (i < n)%nat → good m' i.
Proof.
  intros Hs Ha Hg. unfold decode_one.
  destruct (Nat.ltb_spec a k); [|destruct (Nat.eqb_spec a k) as [->|]].
  - destruct (raid5_good m a) as (m' & -> & S' & G' & K'); [done..|intros; apply Hg; unfold n; lia|].
    exists m'. split_and!; [done..|]. intros i Hi. destruct (decide (i = a)) as [->|]; [done|].
    intros x Hx. unfold byte_at. rewrite K' by done. by apply Hg.
  - apply xor_all_good; [done|intros j Hj|]; apply Hg; unfold n; lia.
  - apply gen_good; [done|]. intros j Hj. apply Hg; unfold n; lia.
Qed.

Lemma decode_two_good m a b :
  shape m → (a < b < n)%nat → (∀ i, (i < n)%nat → i ≠ a → i ≠ b → good m i) →
  ∃ m', decode_two N n k shards a b L m = Some m' ∧ shape m' ∧ ∀ i, (i < n)%nat → good m' i.
Proof.
  intros Hs Hab Hg. unfold decode_two. fold n.
  destruct (Nat.leb_spec k a); [|destruct (Nat.ltb_spec b k);
    [|destruct (Nat.eqb_spec b k) as [->|]]].
  - apply gen_good; [done|]. intros j Hj. apply Hg; unfold n; lia.
  - apply two_data_good; [done|lia|done].
  - destruct (datap_good m a) as (m1 & -> & S1 & G1); [done|lia|done|].
    cbn [mbind option_bind]. apply xor_all_good; [done|intros j Hj|]; apply G1; unfold n; lia.
  - destruct (raid5_good m a) as (m1 & -> & S1 & G1 & K1);
      [done|lia|intros; apply Hg; unfold n in *; lia|].
    cbn [mbind option_bind]. apply gen_good; [done|]. intros j Hj.
    destruct (decide (j = a)) as [->|]; [done|].
    intros x Hx. unfold byte_at. rewrite K1 by done. apply Hg; unfold n; lia.
Qed.

Lemma linux_md_decode_spec m present :
  shape m → (∀ i, (i < n)%nat → rd false present i = true → good m i) →
  (k <= count_present n present)%nat →
  ∃ m', linux_md_decode N n k shards present L m = Some (0%Z, m') ∧
    shape m' ∧ ∀ i, (i < n)%nat → good m' i.
Proof.
  intros Hs Hg Hc. unfold linux_md_decode. fold n.
  destruct (Nat.eqb_spec L 0) as [E0|_].
  { exists m. split_and!; [done..|]. intros i _ x Hx. lia. }
  pose proof (missing_spec n present) as Hm. destruct (missing n present) as [cnt miss].
  destruct Hm as (M1 & M2 & M3 & M4 & _).
  destruct (Nat.eqb_spec cnt 0) as [->|].
  { exists m. split_and!; [done..|]. intros i Hi. apply Hg; auto. }
  destruct (Nat.ltb_spec 2 cnt); [unfold n in *; lia|].
  destruct (Nat.eqb_spec cnt 1) as [->|].
  - destruct (M3 eq_refl) as (a & -> & Ha & Hr). change (rd O [a] 0) with a.
    destruct (decode_one_good m a) as (m' & -> & H'); [auto..|]. by exists m'.
  - assert (cnt = 2%nat) as -> by lia. destruct (M4 eq_refl) as (a & b & -> & Hab & Hr).
    change (rd O [a; b] 0) with a. change (rd O [a; b] 1) with b.
    destruct (decode_two_good m a b) as (m' & -> & H'); [auto..|]. by exists m'.
Qed.

End Rebuild.

(** ** Accesses outside the buffers *)

Lemma for_opt_some {S} lo n (body : nat → S → option S) s s' i :
  for_opt lo n body s = Some s' → (i < n)%nat →
  ∃ s1 s2, for_opt lo i body s = Some s1 ∧ body (lo + i)%nat s1 = Some s2.
Proof.
  revert lo s i. induction n as [|n IH]; intros lo s i H Hi; [lia|]. cbn [for_opt] in H.
  destruct (body lo s) as [s1|] eqn:E; [|done]. destruct i as [|i].
  - exists s, s1. by rewrite Nat.add_0_r.
  - destruct (IH _ _ i H ltac:(lia)) as (u & v & Hu & Hv). exists u, v. cbn [for_opt].
    rewrite E. by rewrite Nat.add_succ_r.
Qed.

Lemma for_opt_pres {S} (P : S → Prop) lo n (body : nat → S → option S) s s' :
  P s → (∀ i u v, P u → body i u = Some v → P v) → for_opt lo n body s = Some s' → P s'.
Proof.
  intros H0 Hstep. revert lo s H0. induction n as [|n IH]; intros lo s H0 H; cbn [for_opt] in H.
  - by injection H as <-.
  - destruct (body lo s) as [s1|] eqn:E; [|done]. exact (IH _ s1 (Hstep lo s s1 H0 E) H).
Qed.

Lemma store64_len mem p off w mem' :
  store64 mem p off w = Some mem' → ∀ r, buf_len mem' r = buf_len mem r.
Proof.
  unfold store64, NSIZE. destruct (Nat.leb_spec (off + 8) (length (rd [] mem p))); [|done].
  intros [= <-] r. pose proof (buf_len_pos mem p) as Hp. unfold buf_len in *.
  rewrite rd_wr by (apply Hp; lia). case_decide; [subst|done].
  apply length_splice. cbn [length]. lia.
Qed.

Lemma store_lanes_len N mem p d ws mem' :
  store_lanes N mem p d ws = Some mem' → ∀ r, buf_len mem' r = buf_len mem r.
Proof.
  intros H. refine (for_opt_pres (λ m, ∀ r, buf_len m r = buf_len mem r) _ _ _ _ _ _ _ H); [done|].
  intros i u v Hu Hv r. by rewrite (store64_len _ _ _ _ _ Hv).
Qed.

Lemma load_lanes_bound N mem p d ws :
  (0 < N)%nat → load_lanes N mem p d = Some ws → (d + 8 * N <= buf_len mem p)%nat.
Proof.
  intros HN H. apply mapM_Some_1 in H.
  assert (Hlk : seq 0 N !! (N - 1)%nat = Some (N - 1)%nat) by (apply lookup_seq; lia).
  destruct (list.Forall2_lookup_l _ _ _ _ _ H Hlk) as (w & _ & Hw).
  unfold load64, NSIZE, buf_len in *.
  destruct (Nat.leb_spec (d + (N - 1) * 8 + 8) (length (rd [] mem p))); [lia|done].
Qed.

(** A run of [gen_syndrome] that stays inside the buffers has them as long as
    the data rounded up to a whole number of blocks. *)
Lemma gen_syndrome_bound N k L ptrs mem mem' z :
  (0 < N)%nat → (0 < L)%nat → (z < k)%nat →
  gen_syndrome N (k + 2) L ptrs mem = Some mem' →
  (L <= buf_len mem (rd O ptrs z))%nat ∧
  ((L + 8 * N - 1) / (8 * N) * (8 * N) <= buf_len mem (rd O ptrs z))%nat.
Proof.
  intros HN HL Hz H. unfold gen_syndrome in H. change NSIZE with 8%nat in H.
  cbv zeta in H. replace (k + 2 - 3)%nat with (k - 1)%nat in H by lia.
  set (nb := ((L + 8 * N - 1) / (8 * N))%nat) in *.
  assert (Hnb : (0 < nb)%nat) by (apply Nat.div_str_pos; lia).
  assert (Hup : (L <= nb * (8 * N))%nat).
  { pose proof (Nat.div_mod_eq (L + 8 * N - 1) (8 * N)) as E.
    pose proof (Nat.mod_upper_bound (L + 8 * N - 1) (8 * N) ltac:(lia)). fold nb in E. lia. }
  destruct (for_opt_some _ _ _ _ _ (nb - 1) H ltac:(lia)) as (m & m2 & H1 & H2). clear H.
  assert (Hlen : ∀ r, buf_len m r = buf_len mem r).
  { refine (for_opt_pres (λ m, ∀ r, buf_len m r = buf_len mem r) _ _ _ _ _ _ _ H1); [done|].
      intros i u v Hu Hv r. destruct (load_lanes N u _ _) as [ws|]; [|done].
      cbn [mbind option_bind] in Hv. destruct (for_opt 0 (k - 1) _ _) as [lanes|]; [|done].
      cbn [mbind option_bind] in Hv.
      destruct (store_lanes N u _ _ _) as [u1|] eqn:E1; [|done]. cbn [mbind option_bind] in Hv.
      by rewrite (store_lanes_len _ _ _ _ _ _ Hv), (store_lanes_len _ _ _ _ _ _ E1). }
  cbn [Nat.add] in H2. set (d := ((nb - 1) * (8 * N))%nat) in H2.
  assert (Hd : (d + 8 * N = nb * (8 * N))%nat) by (unfold d; nia).
  destruct (load_lanes N m (rd O ptrs (k - 1)) d) as [ws|] eqn:E0; [|done].
  cbn [mbind option_bind] in H2.
  destruct (for_opt 0 (k - 1) _ _) as [lanes|] eqn:E1; [|done].
  assert (Hb : (d + 8 * N <= buf_len m (rd O ptrs z))%nat); [|rewrite Hlen in Hb; lia].
  destruct (decide (z = k - 1)%nat) as [->|]; [by apply load_lanes_bound in E0|].
  destruct (for_opt_some _ _ _ _ _ (k - 2 - z) E1 ltac:(lia)) as (l1 & l2 & _ & Hl).
  cbn [Nat.add] in Hl. replace (k - 1 - 1 - (k - 2 - z))%nat with z in Hl by lia.
  destruct (load_lanes N m (rd O ptrs z) d) as [wd|] eqn:E2; [|done].
  by apply load_lanes_bound in E2.
Qed.

End LinuxMdCorrect.
