(* ===== verification/LinuxMdTheorems.v ===== *)
(** * Theorems of the Linux md RAID-6 encoding *)

From S2P Require Import Prelude.
From S2P Require Import Words.
From S2P Require Import GF256.
From S2P Require Import Matrix.
From S2P Require Import ReedSolomon.
From S2P Require Import RSCorrect.
From S2P Require Import Erasure.
From S2P Require Import LinuxMd.
From S2P Require Import LinuxMdCorrect.
Import Words GF Matrix RS RSCorrect Erasure LinuxMd LinuxMdCorrect.

Module LinuxMdTheorems.

(** The shards in buffers [0 .. n-1] and the zero page after them. *)
Definition stripe_mem (shards : list (list byte)) : memory :=
  shards ++ [replicate (Z.to_nat PAGE_SIZE) x00].

(** ** Lemmas *)

Lemma stripe_mem_shape k L s : shards_wf (k + 2) L s → shape k L (stripe_mem s).
Proof.
  intros [Hl Hs]. unfold stripe_mem. split_and!.
  - rewrite length_app, Hl. cbn [length]. lia.
  - intros i Hi. unfold buf_len. rewrite rd_app, decide_True by lia. by apply Hs.
  - rewrite rd_app, decide_False, Hl, Nat.sub_diag by lia. done.
Qed.

Lemma rd_stripe_mem s i : (i < length s)%nat → rd [] (stripe_mem s) i = rd [] s i.
Proof. intros Hi. unfold stripe_mem. by rewrite rd_app, decide_True. Qed.

Lemma shape_stripe k L m :
  shape k L m → shards_wf (k + 2) L (take (k + 2) m) ∧ m = stripe_mem (take (k + 2) m).
Proof.
  intros (H1 & H2 & H3). assert (Hl : length (take (k + 2) m) = (k + 2)%nat)
    by (rewrite length_take; lia).
  split.
  - split; [done|]. intros i Hi. rewrite rd_take by done. by apply H2.
  - unfold stripe_mem. rewrite <-(take_drop (k + 2) m) at 1. f_equal.
    apply (rd_ext []); [rewrite length_drop; cbn [length]; lia|].
    rewrite length_drop. intros i Hi. replace i with 0%nat by lia.
    rewrite rd_drop, Nat.add_0_r. exact H3.
Qed.

Lemma shape_ext k L m m' :
  shape k L m → shape k L m' →
  (∀ i x, (i < k + 2)%nat → (x < L)%nat → byte_at m i x = byte_at m' i x) → m = m'.
Proof.
  intros Hm Hm' H. destruct (shape_stripe k L m Hm) as [W E].
  destruct (shape_stripe k L m' Hm') as [W' E'].
  rewrite E, E'. f_equal. apply (shards_ext (k + 2) L); [done..|].
  intros i x Hi Hx. rewrite !rd_take by done. by apply H.
Qed.

(** What [linux_md_encode] leaves in memory, as the codeword of the data. *)
Definition md_code (k : nat) (data : list (list byte)) (i x : nat) : byte :=
  if decide (i < k)%nat then rd x00 (rd [] data i) x
  else if decide (i = k) then gsum k (λ j, rd x00 (rd [] data j) x)
  else gsum k (λ j, gf_mul (gpow x02 j) (rd x00 (rd [] data j) x)).

Lemma md_code_data k data i x : (i < k)%nat → md_code k data i x = rd x00 (rd [] data i) x.
Proof. intros. unfold md_code. by rewrite decide_True. Qed.

Lemma md_code_p k data x :
  md_code k data k x = gsum k (λ j, md_code k data j x).
Proof.
  unfold md_code at 1. rewrite decide_False, decide_True by lia.
  apply gsum_ext. intros j Hj. by rewrite md_code_data.
Qed.

Lemma md_code_q k data x :
  md_code k data (k + 1) x = gsum k (λ j, gf_mul (gpow x02 j) (md_code k data j x)).
Proof.
  unfold md_code at 1. rewrite !decide_False by lia.
  apply gsum_ext. intros j Hj. by rewrite md_code_data.
Qed.

Lemma linux_md_encode_spec N k L nb data parity :
  (0 < N)%nat → (2 <= k <= 253)%nat → L = (nb * (8 * N))%nat →
  shards_wf k L data → shards_wf 2 L parity →
  ∃ m, linux_md_encode N k (seq 0 k) (Some [k; k + 1]%nat) L (stripe_mem (data ++ parity))
       = Some (0%Z, m) ∧
    shape k L m ∧ ∀ i, (i < k + 2)%nat → good L (md_code k data) m i.
Proof.
  intros HN Hk HL Hd Hp. pose proof (shards_wf_app _ _ _ _ _ Hd Hp) as Hw.
  pose proof (stripe_mem_shape k L _ Hw) as Hs. unfold linux_md_encode.
  destruct (Nat.eqb_spec L 0) as [E0|_].
  { exists (stripe_mem (data ++ parity)). split; [done|]. split; [done|].
    intros i _ x Hx. lia. }
  change (rd O [k; k + 1]%nat 0) with k. change (rd O [k; k + 1]%nat 1) with (k + 1)%nat.
  replace (take k (seq 0 k) ++ [k; (k + 1)%nat]) with (seq 0 (k + 2)).
  2:{ rewrite take_ge by (rewrite length_seq; lia). rewrite seq_app. cbn [seq Nat.add].
      by rewrite Nat.add_1_r. }
  assert (HP : ∀ x, (x < L)%nat → md_code k data k x = gsum k (λ j, md_code k data j x))
    by (intros; apply md_code_p).
  assert (HQ : ∀ x, (x < L)%nat → md_code k data (k + 1) x
    = gsum k (λ j, gf_mul (gpow x02 j) (md_code k data j x))) by (intros; apply md_code_q).
  destruct (gen_good N k L nb (md_code k data) HN Hk HL HP HQ _ Hs) as (m & -> & H).
  - intros j Hj x Hx. unfold byte_at. destruct Hd as [Hdl _].
    rewrite rd_stripe_mem by (rewrite length_app; lia).
    rewrite rd_app, decide_True by lia. by rewrite md_code_data.
  - by exists m.
Qed.

Lemma linux_md_create_inv k0 k : ec_linux_md_create k0 = Some k → (2 <= k <= 253)%nat.
Proof.
  unfold ec_linux_md_create, LINUX_MD_MIN_DATA, LINUX_MD_MAX_DATA.
  destruct (Z.ltb_spec k0 2), (Z.ltb_spec 253 k0); cbn [orb]; intros Hc; simplify_eq; lia.
Qed.

(** ** Theorems *)

(** C27: the RAID-6 round trip.  For shards of at most one page whose length is
    a multiple of the generator's block (8 bytes times the unroll factor), the
    encoder succeeds inside its buffers and the decoder rebuilds the whole
    stripe from any loss of at most two shards: one data shard, P or Q alone,
    two data shards, data and P, data and Q, or both parities. *)
Theorem linux_md_roundtrip k0 k N nb L data parity :
  ec_linux_md_create k0 = Some k → (0 < N)%nat → L = (nb * (8 * N))%nat →
  (Z.of_nat L <= PAGE_SIZE)%Z → shards_wf k L data → shards_wf 2 L parity →
  ∃ stripe,
    linux_md_encode N k (seq 0 k) (Some [k; k + 1]%nat) L (stripe_mem (data ++ parity))
    = Some (0%Z, stripe_mem stripe) ∧ shards_wf (k + 2) L stripe ∧ take k stripe = data ∧
    ∀ shards present, shards_wf (k + 2) L shards →
      (∀ i, (i < k + 2)%nat → rd false present i = true → rd [] shards i = rd [] stripe i) →
      (k <= count_present (k + 2) present)%nat →
      linux_md_decode N (k + 2) k (seq 0 (k + 2)) present L (stripe_mem shards)
      = Some (0%Z, stripe_mem stripe).
Proof.
  intros Hc HN HL Hpg Hd Hp. apply linux_md_create_inv in Hc.
  destruct (linux_md_encode_spec N k L nb data parity HN Hc HL Hd Hp) as (m & Henc & Hsh & Hg).
  destruct (shape_stripe k L m Hsh) as [Hw Em]. exists (take (k + 2) m).
  rewrite <-Em. split; [done|]. split; [done|]. split.
  { apply (shards_ext k L); [|done|].
    - destruct Hw as [Hwl Hw]. split; [rewrite length_take; lia|].
      intros i Hi. rewrite rd_take by done. apply Hw. lia.
    - intros i x Hi Hx. rewrite !rd_take by lia. fold (byte_at m i x).
      rewrite Hg by lia. by rewrite md_code_data. }
  intros shards present Hs Hag Hcnt. pose proof (stripe_mem_shape k L shards Hs) as Hsh'.
  destruct (linux_md_decode_spec N k L nb (md_code k data) HN Hc HL Hpg) with
    (m := stripe_mem shards) (present := present) as (m' & -> & Hsh2 & Hg2); [..|done| |done|].
  - intros x _. apply md_code_p.
  - intros x _. apply md_code_q.
  - intros i Hi Hpr x Hx. unfold byte_at. destruct Hs as [Hsl _].
    rewrite rd_stripe_mem, Hag, rd_take by (lia || done). by apply Hg.
  - do 2 f_equal. apply (shape_ext k L); [done..|]. intros i x Hi Hx.
    by rewrite Hg2, Hg.
Qed.

(** Four data shards of eight bytes; data shard 1 and P are lost. *)
Definition md_data : list (list byte) :=
  [[x00; x01; x02; x03; x04; x05; x06; x07]; [x80; x40; x20; x10; x08; x04; x02; x01];
   [xff; xfe; xfd; xfc; xfb; xfa; xf9; xf8]; [x11; x22; x33; x44; x55; x66; x77; x88]].

Lemma linux_md_roundtrip_witness :
  ∃ stripe,
    linux_md_encode 1 4 (seq 0 4) (Some [4; 5]%nat) 8
      (stripe_mem (md_data ++ replicate 2 (replicate 8 x00))) = Some (0%Z, stripe_mem stripe) ∧
    linux_md_decode 1 6 4 (seq 0 6) [true; false; true; true; false; true] 8
      (stripe_mem (wr (wr stripe 1 (replicate 8 x00)) 4 (replicate 8 x00)))
    = Some (0%Z, stripe_mem stripe).
Proof.
  destruct (linux_md_roundtrip 4 4 1 1 8 md_data (replicate 2 (replicate 8 x00)))
    as (s & He & Hw & _ & Hd).
  - reflexivity.
  - lia.
  - reflexivity.
  - vm_compute. discriminate.
  - split; [reflexivity|]. intros [|[|[|[|i]]]] Hi; [reflexivity..|lia].
  - split; [reflexivity|]. intros [|[|i]] Hi; [reflexivity..|lia].
  - exists s. split; [exact He|]. apply Hd.
    + destruct Hw as [Hl Hw]. split; [rewrite !length_wr; exact Hl|].
      intros i Hi. rewrite !rd_wr by (rewrite ?length_wr; lia).
      repeat case_decide; [reflexivity..|exact (Hw i Hi)].
    + destruct Hw as [Hl Hw]. intros i Hi Hp.
      rewrite !rd_wr by (rewrite ?length_wr; lia).
      repeat case_decide; subst; [discriminate Hp|discriminate Hp|reflexivity].
    + vm_compute. lia.
Defined.

(** Wire compatibility.  The two parity shards of [linux_md_encode] are, byte
    for byte, those of the Reed-Solomon encoding with [m = 2]. *)
Theorem linux_md_matches_rs k0 e path N nb L data parity :
  ec_rs_create k0 2 = Some e → (2 <= ec_k e)%nat → (0 < N)%nat → L = (nb * (8 * N))%nat →
  shards_wf (ec_k e) L data → shards_wf 2 L parity →
  ∃ par, rs_encode path e data parity L = (0%Z, par) ∧
    linux_md_encode N (ec_k e) (seq 0 (ec_k e)) (Some [ec_k e; ec_k e + 1]%nat) L
      (stripe_mem (data ++ parity)) = Some (0%Z, stripe_mem (data ++ par)).
Proof.
  intros He Hk2 HN HL Hd Hp. destruct (ec_rs_create_inv k0 2 e He) as (Hwf & Hk & Hm & _ & _ & Hsum).
  assert (Hm2 : ec_m e = 2%nat) by lia. pose proof Hp as Hp2. rewrite <-Hm2 in Hp2.
  destruct (rs_encode_spec path e data parity L Hwf Hd Hp2) as (par & Henc & Hpar & Hcode).
  exists par. split; [done|]. rewrite Hm2 in Hpar, Hcode.
  destruct (linux_md_encode_spec N (ec_k e) L nb data parity) as (m & -> & Hsh & Hg); [lia..|done|done|].
  do 2 f_equal. pose proof (shards_wf_app _ _ _ _ _ Hd Hpar) as Hw.
  apply (shape_ext (ec_k e) L); [done|by apply stripe_mem_shape|].
  intros i x Hi Hx. rewrite Hg by done. unfold byte_at. destruct Hw as [Hwl _].
  destruct Hd as [Hdl _]. rewrite rd_stripe_mem, rd_app, Hdl by lia.
  case_decide; [by rewrite md_code_data|]. rewrite Hcode by lia.
  replace (ec_k e + (i - ec_k e))%nat with i by lia. unfold code, mat_vec, md_code.
  rewrite decide_False by done.
  case_decide; [subst i|replace i with (ec_k e + 1)%nat by lia]; apply gsum_ext;
    intros j Hj; rewrite (wf_pq e Hwf) by lia.
  - by rewrite pq_row_p, gf_mul_1_l.
  - by rewrite pq_row_q.
Qed.

Lemma linux_md_matches_rs_witness :
  ∃ e par, ec_rs_create 4 2 = Some e ∧
    rs_encode NEON e md_data (replicate 2 (replicate 8 x00)) 8 = (0%Z, par) ∧
    linux_md_encode 1 (ec_k e) (seq 0 (ec_k e)) (Some [ec_k e; ec_k e + 1]%nat) 8
      (stripe_mem (md_data ++ replicate 2 (replicate 8 x00)))
    = Some (0%Z, stripe_mem (md_data ++ par)).
Proof.
  destruct (ec_rs_create_wf 4 2) as (e & He & _ & Hk & _); [lia..|]. exists e.
  assert (Hk' : ec_k e = 4%nat) by exact Hk.
  destruct (linux_md_matches_rs 4 e NEON 1 1 8 md_data (replicate 2 (replicate 8 x00)))
    as (par & H1 & H2).
  - exact He.
  - lia.
  - lia.
  - reflexivity.
  - rewrite Hk'. split; [reflexivity|]. intros [|[|[|[|i]]]] Hi; [reflexivity..|lia].
  - split; [reflexivity|]. intros [|[|i]] Hi; [reflexivity..|lia].
  - exists par. split; [exact He|]. split; [exact H1|exact H2].
Defined.

(** With more than two shards missing the decoder answers [-EIO] and leaves
    memory alone, whatever the geometry, the buffers and the page size. *)
Theorem linux_md_too_many_missing N zp k shards present L mem :
  (0 < L)%nat → (count_present (k + 2) present < k)%nat →
  linux_md_decode N zp k shards present L mem = Some ((- EIO)%Z, mem).
Proof.
  intros HL Hc. unfold linux_md_decode. destruct (Nat.eqb_spec L 0); [lia|].
  pose proof (missing_spec (k + 2) present) as Hm.
  destruct (missing (k + 2) present) as [cnt miss]. destruct Hm as (Hsum & _).
  destruct (Nat.eqb_spec cnt 0); [lia|]. by destruct (Nat.ltb_spec 2 cnt); [|lia].
Qed.

Lemma linux_md_too_many_missing_witness :
  linux_md_decode 8 6 4 (seq 0 6) [true; false; false; true; false; true] 64
    (stripe_mem (replicate 6 (replicate 64 x00)))
  = Some ((- EIO)%Z, stripe_mem (replicate 6 (replicate 64 x00))).
Proof. apply linux_md_too_many_missing; [lia|vm_compute; lia]. Defined.

(** C37: two lost data shards longer than one page.  [raid6_2data_recov] reads
    the lost shards from the 4096-byte zero page for the whole shard length, so
    for every shard length above 4096 (the pipeline admits up to 1 MiB) the
    decoder reads outside that page. *)
Theorem linux_md_zero_page_overrun N k L shards present a b :
  (0 < N)%nat → (a < b < k)%nat → (PAGE_SIZE < Z.of_nat L)%Z →
  shards_wf (k + 2) L shards →
  missing (k + 2) present = (2%nat, [a; b]) →
  linux_md_decode N (k + 2) k (seq 0 (k + 2)) present L (stripe_mem shards) = None.
Proof.
  intros HN Hab HL Hs Hm. unfold linux_md_decode. unfold PAGE_SIZE in HL.
  destruct (Nat.eqb_spec L 0); [lia|]. rewrite Hm. cbn [Nat.eqb Nat.ltb Nat.leb].
  change (rd O [a; b] 0) with a. change (rd O [a; b] 1) with b. unfold decode_two.
  destruct (Nat.leb_spec k a); [lia|]. destruct (Nat.ltb_spec b k); [|lia].
  unfold raid6_2data_recov_intx1.
  set (ptrs := wr (wr (wr (wr (seq 0 (k + 2)) a (k + 2)%nat) _ _) b _) _ _).
  destruct (gen_syndrome N (k + 2) L ptrs (stripe_mem shards)) as [m|] eqn:E; [|done].
  exfalso. destruct (gen_syndrome_bound N k L ptrs _ m a HN ltac:(lia) ltac:(lia) E) as [Hb _].
  replace (rd O ptrs a) with (k + 2)%nat in Hb.
  2:{ unfold ptrs. rewrite !rd_wr by (rewrite ?length_wr, length_seq; lia).
      rewrite !decide_False, decide_True by lia. done. }
  destruct (stripe_mem_shape k L shards Hs) as (_ & _ & Hz). unfold buf_len in Hb.
  rewrite Hz, length_replicate in Hb. unfold PAGE_SIZE in Hb. lia.
Qed.

Lemma linux_md_zero_page_overrun_witness :
  linux_md_decode 8 6 4 (seq 0 6) [false; true; false; true; true; true] (Z.to_nat 8192)
    (stripe_mem (replicate 6 (replicate (Z.to_nat 8192) x00))) = None.
Proof.
  apply (linux_md_zero_page_overrun 8 4 (Z.to_nat 8192) _ _ 0 2).
  - lia.
  - lia.
  - unfold PAGE_SIZE. lia.
  - split; [apply length_replicate|]. intros i Hi.
    rewrite rd_replicate_lt by exact Hi. apply length_replicate.
  - vm_compute. reflexivity.
Defined.

(** A shard length that is not a multiple of the generator's block.  The
    pipeline only asks for multiples of 8, the selected generator works on 8 times
    its unroll factor: encoding shards in buffers of exactly the shard length
    leaves them. *)
Theorem linux_md_tail_overrun N k L data parity :
  (0 < N)%nat → (0 < k)%nat → L mod (8 * N) ≠ 0%nat →
  shards_wf k L data → shards_wf 2 L parity →
  linux_md_encode N k (seq 0 k) (Some [k; k + 1]%nat) L (stripe_mem (data ++ parity)) = None.
Proof.
  intros HN Hk HL Hd Hp. unfold linux_md_encode.
  assert (HL0 : (0 < L)%nat) by (destruct L; [by rewrite Nat.Div0.mod_0_l in HL|lia]).
  destruct (Nat.eqb_spec L 0); [lia|].
  set (ptrs := take k (seq 0 k) ++ _).
  destruct (gen_syndrome N (k + 2) L ptrs _) as [m|] eqn:E; [|done]. exfalso.
  destruct (gen_syndrome_bound N k L ptrs _ m 0 HN HL0 Hk E) as [_ Hb].
  replace (rd O ptrs 0) with 0%nat in Hb.
  2:{ unfold ptrs. rewrite rd_app. rewrite take_ge by (rewrite length_seq; lia).
      rewrite length_seq, decide_True by done. by rewrite rd_seq. }
  unfold buf_len in Hb. destruct Hd as [Hdl Hd].
  rewrite rd_stripe_mem in Hb by (rewrite length_app; lia).
  rewrite rd_app, decide_True, Hd in Hb by lia.
  pose proof (Nat.div_mod_eq L (8 * N)) as E1.
  pose proof (Nat.mod_upper_bound L (8 * N) ltac:(lia)) as E2.
  assert (E3 : ((L + 8 * N - 1) / (8 * N) = S (L / (8 * N)))%nat).
  { symmetry. apply (Nat.div_unique _ _ _ (L mod (8 * N) - 1)); lia. }
  rewrite E3 in Hb. lia.
Qed.

Lemma linux_md_tail_overrun_witness :
  linux_md_encode 8 2 (seq 0 2) (Some [2; 3]%nat) 24
    (stripe_mem (replicate 2 (replicate 24 x00) ++ replicate 2 (replicate 24 x00))) = None.
Proof.
  apply linux_md_tail_overrun.
  - lia.
  - lia.
  - vm_compute. discriminate.
  - split; [reflexivity|]. intros [|[|i]] Hi; [reflexivity..|lia].
  - split; [reflexivity|]. intros [|[|i]] Hi; [reflexivity..|lia].
Defined.

End LinuxMdTheorems.
