(* ===== verification/Locks.v ===== *)
(** * Byte-range locks and share reservations ([src/lib/fs/lock.c])

    The lock and share lists of an inode, shared by NLM and NFSv4.  Offsets and
    lengths are [uint64_t] with the wrap-around of the source; a length of zero
    means "to the end of the file". *)

From S2P Require Import Prelude.

Module Locks.

(** ** Data *)

Record reffs_lock := mk_lock {
  l_id : nat;        (* the address of the lock *)
  l_owner : nat;     (* the address of its [reffs_lock_owner] *)
  l_offset : Z;
  l_len : Z;
  l_exclusive : bool;
}.

Record reffs_share := mk_share {
  s_id : nat;
  s_owner : nat;
  s_mode : Z;
  s_access : Z;
}.

#[global] Instance reffs_lock_eq_dec : EqDecision reffs_lock.
Proof. solve_decision. Defined.
#[global] Instance reffs_share_eq_dec : EqDecision reffs_share.
Proof. solve_decision. Defined.

(** ** Ranges *)

Definition range_end (off len : Z) : Z :=
  if (len =? 0)%Z then UINT64_MAX else u64w (u64w (off + len) - 1).

Definition reffs_lock_range_overlap (off1 len1 off2 len2 : Z) : bool :=
  let end1 := range_end off1 len1 in
  let end2 := range_end off2 len2 in
  (off1 <=? end2)%Z && (off2 <=? end1)%Z.

(** ** Conflicts

    [owner] is the requesting owner, if any; [lo_match] is its match function
    applied to [match_arg], if it has one. *)
Fixpoint reffs_lock_find_conflict (i_locks : list reffs_lock) (offset len : Z)
    (exclusive : bool) (owner : option nat) (lo_match : option (nat → bool))
    : option reffs_lock :=
  match i_locks with
  | [] => None
  | rl :: rest =>
      let continue := reffs_lock_find_conflict rest offset len exclusive owner lo_match in
      if negb exclusive && negb (l_exclusive rl) then continue
      else if match owner with Some o => (l_owner rl =? o)%nat | None => false end
      then continue
      else if match owner, lo_match with
              | Some _, Some f => f (l_owner rl)
              | _, _ => false
              end then continue
      else if reffs_lock_range_overlap (l_offset rl) (l_len rl) offset len then Some rl
      else continue
  end.

(** ** Adding a lock

    The inode's list and the host's list after the call; [true] when the new
    lock was linked, [false] when an existing one was updated in place. *)
Definition same_range (le lock : reffs_lock) : bool :=
  (l_owner le =? l_owner lock)%nat && (l_offset le =? l_offset lock)%Z
  && (l_len le =? l_len lock)%Z.

Definition set_exclusive (le : reffs_lock) (e : bool) : reffs_lock :=
  mk_lock (l_id le) (l_owner le) (l_offset le) (l_len le) e.

Fixpoint relock (i_locks : list reffs_lock) (lock : reffs_lock) : option (list reffs_lock) :=
  match i_locks with
  | [] => None
  | le :: rest =>
      if same_range le lock then Some (set_exclusive le (l_exclusive lock) :: rest)
      else match relock rest lock with
           | Some rest' => Some (le :: rest')
           | None => None
           end
  end.

Definition reffs_lock_add (i_locks : list reffs_lock) (lock : reffs_lock)
    (host_list : option (list nat)) : Z * list reffs_lock * option (list nat) * bool :=
  match relock i_locks lock with
  | Some locks => (0%Z, locks, host_list, false)
  | None => (0%Z, lock :: i_locks, option_map (cons (l_id lock)) host_list, true)
  end.

(** ** Removing a range *)

Definition set_range (le : reffs_lock) (off len : Z) : reffs_lock :=
  mk_lock (l_id le) (l_owner le) off len (l_exclusive le).

(** What a removal does to the reference counts: [reffs_lock_free] of a lock,
    or a new lock that takes a reference on the owner and on the inode. *)
Inductive remove_event := RFree (id : nat) | RSplit (id : nat).

(** The state a removal threads: its events, latest first, the host list, the
    outcome of each coming [calloc] and the address it returns. *)
Record remove_st := mk_remove_st {
  r_events : list remove_event;
  r_host : option (list nat);
  r_calloc : list bool;
  r_next : nat;
}.

Definition host_del (id : nat) (h : option (list nat)) : option (list nat) :=
  option_map (filter (λ x, x ≠ id)) h.

(** One lock: what replaces it in the list, or [None] for [-ENOMEM]. *)
Definition remove_one (u_off u_len : Z) (owner : nat) (le : reffs_lock) (st : remove_st)
    : option (list reffs_lock) * remove_st :=
  let u_end := range_end u_off u_len in
  if negb (l_owner le =? owner)%nat then (Some [le], st)
  else
    let l_off := l_offset le in
    let l_len := l_len le in
    let l_end := range_end l_off l_len in
    if negb (reffs_lock_range_overlap l_off l_len u_off u_len) then (Some [le], st)
    else if (u_off <=? l_off)%Z && (l_end <=? u_end)%Z then
      (Some [], mk_remove_st (RFree (l_id le) :: r_events st) (host_del (l_id le) (r_host st))
                  (r_calloc st) (r_next st))
    else if (l_off <? u_off)%Z && (u_end <? l_end)%Z then
      match r_calloc st with
      | false :: rest => (None, mk_remove_st (r_events st) (r_host st) rest (r_next st))
      | cs =>
          let off' := u64w (u_end + 1) in
          let new_le := mk_lock (r_next st) (l_owner le) off'
            (if (l_len =? 0)%Z then 0 else u64w (u64w (l_end - off') + 1)) (l_exclusive le) in
          let le := set_range le l_off (u64w (u_off - l_off)) in
          (Some [le; new_le],
           mk_remove_st (RSplit (l_id new_le) :: r_events st) (option_map (cons (l_id new_le)) (r_host st))
             (tail cs) (S (r_next st)))
      end
    else if (u_off <=? l_off)%Z then
      let off' := u64w (u_end + 1) in
      (Some [set_range le off'
               (if (l_len =? 0)%Z then 0 else u64w (u64w (l_end - off') + 1))], st)
    else (Some [set_range le l_off (u64w (u_off - l_off))], st).

(** The walk over the inode's list; a piece split off is linked after its
    lock and not visited again. *)
Fixpoint reffs_lock_remove (i_locks : list reffs_lock) (offset len : Z) (owner : nat)
    (st : remove_st) : Z * list reffs_lock * remove_st :=
  match i_locks with
  | [] => (0%Z, [], st)
  | le :: rest =>
      match remove_one offset len owner le st with
      | (None, st) => ((- ENOMEM)%Z, le :: rest, st)
      | (Some les, st) =>
          let '(ret, rest', st) := reffs_lock_remove rest offset len owner st in
          (ret, les ++ rest', st)
      end
  end.

(** ** Shares *)

Definition reffs_share_conflict (s1_mode s1_access s2_mode s2_access : Z) : bool :=
  if negb (Z.land s2_access s1_mode =? 0)%Z then true
  else if negb (Z.land s1_access s2_mode =? 0)%Z then true
  else false.

(** The scan: [None] on a conflict, else the last share of the same owner. *)
Fixpoint share_scan (i_shares : list reffs_share) (share : reffs_share)
    (existing : option reffs_share) : option (option reffs_share) :=
  match i_shares with
  | [] => Some existing
  | se :: rest =>
      if (s_owner se =? s_owner share)%nat then share_scan rest share (Some se)
      else if reffs_share_conflict (s_mode se) (s_access se) (s_mode share) (s_access share)
      then None
      else share_scan rest share existing
  end.

Definition reffs_share_add (i_shares : list reffs_share) (share : reffs_share)
    (host_list : option (list nat))
    : Z * list reffs_share * option (list nat) * bool :=
  match share_scan i_shares share None with
  | None => ((- EACCES)%Z, i_shares, host_list, false)
  | Some (Some existing) =>
      (0%Z, map (λ se, if (s_id se =? s_id existing)%nat
                       then mk_share (s_id se) (s_owner se) (s_mode share) (s_access share)
                       else se) i_shares, host_list, false)
  | Some None => (0%Z, share :: i_shares, option_map (cons (s_id share)) host_list, true)
  end.

Definition reffs_share_remove (i_shares : list reffs_share) (owner : nat)
    (host_list : option (list nat)) : Z * list reffs_share * option (list nat) * list nat :=
  let gone := filter (λ se, s_owner se = owner) i_shares in
  (0%Z, filter (λ se, s_owner se ≠ owner) i_shares,
   option_map (filter (λ id, id ∉ map s_id gone)) host_list, map s_id gone).

End Locks.
