(* ===== verification/LocksCorrect.v ===== *)
(** * What the lock lists mean, and that the operations respect it

    A lock list is read as the set of bytes each owner holds in each mode.
    Granting keeps owners apart and removing a range removes exactly that
    range, for every byte of the 64-bit offset space. *)

From S2P Require Import Prelude.
From S2P Require Import Locks.
Import Locks.

Module LocksCorrect.

(** A property of each element of an explicit list. *)
Ltac forall_list := repeat first [apply list.Forall_nil_2 | apply list.Forall_cons_2].

(** ** Bytes of a range *)

Definition in_range (off len b : Z) : bool := (off <=? b)%Z && (b <=? range_end off len)%Z.

(** A range of the offset space: not past its end. *)
Definition wf_range (off len : Z) : Prop :=
  (0 <= off <= UINT64_MAX)%Z ∧ (0 <= len <= UINT64_MAX)%Z ∧
  (len = 0 ∨ off + len <= UINT64_MAX + 1)%Z.

Definition wf_lock (l : reffs_lock) : Prop := wf_range (l_offset l) (l_len l).

Definition covers (l : reffs_lock) (b : Z) : bool := in_range (l_offset l) (l_len l) b.

(** Owner [o] holds byte [b] in mode [e] ([true] is exclusive). *)
Definition holds (locks : list reffs_lock) (o : nat) (e : bool) (b : Z) : Prop :=
  ∃ l, l ∈ locks ∧ l_owner l = o ∧ l_exclusive l = e ∧ covers l b = true.

(** No byte held exclusively by one owner is held by another. *)
Definition exclusion (locks : list reffs_lock) : Prop :=
  ∀ o1 o2 e b, o1 ≠ o2 → holds locks o1 true b → ¬ holds locks o2 e b.

Lemma u64w_small x : (0 <= x <= UINT64_MAX)%Z → u64w x = x.
Proof. intros H. apply wrap_small. unfold in_width, UINT64_MAX in *. lia. Qed.

Lemma range_end_wf off len :
  wf_range off len → range_end off len = if (len =? 0)%Z then UINT64_MAX else (off + len - 1)%Z.
Proof.
  intros (H1 & H2 & H3). unfold range_end. destruct (Z.eqb_spec len 0); [done|].
  unfold wrap, UINT64_MAX in *. destruct (Z.eq_dec (off + len)%Z (2 ^ 64)%Z) as [E|].
  - rewrite E, Z.mod_same by lia. change ((0 - 1) mod 2 ^ 64)%Z with (2 ^ 64 - 1)%Z. lia.
  - rewrite (Z.mod_small (off + len)%Z) by lia. apply Z.mod_small. lia.
Qed.

Lemma range_end_bounds off len :
  wf_range off len → (off <= range_end off len <= UINT64_MAX)%Z.
Proof.
  intros H. rewrite range_end_wf by done. destruct H as (H1 & H2 & H3).
  destruct (Z.eqb_spec len 0); lia.
Qed.

Lemma in_range_spec off len b :
  in_range off len b = true ↔ (off <= b <= range_end off len)%Z.
Proof. unfold in_range. rewrite andb_true_iff, !Z.leb_le. done. Qed.

Lemma overlap_spec off1 len1 off2 len2 :
  wf_range off1 len1 → wf_range off2 len2 →
  reffs_lock_range_overlap off1 len1 off2 len2 = true ↔
  ∃ b, in_range off1 len1 b = true ∧ in_range off2 len2 b = true.
Proof.
  intros H1 H2. pose proof (range_end_bounds _ _ H1). pose proof (range_end_bounds _ _ H2).
  unfold reffs_lock_range_overlap. rewrite andb_true_iff, !Z.leb_le. setoid_rewrite in_range_spec.
  split.
  - intros [Ha Hb]. exists (Z.max off1 off2). lia.
  - intros (b & Ha & Hb). lia.
Qed.

(** ** Conflicts *)

(** The lock a scan returns conflicts; none returned means none does. *)
Lemma find_conflict_spec locks off len e o m :
  match reffs_lock_find_conflict locks off len e o m with
  | Some rl =>
      rl ∈ locks ∧ (e || l_exclusive rl) = true ∧
      reffs_lock_range_overlap (l_offset rl) (l_len rl) off len = true ∧ Some (l_owner rl) ≠ o ∧
      (∀ f, o ≠ None → m = Some f → f (l_owner rl) = false)
  | None =>
      ∀ rl, rl ∈ locks → (e || l_exclusive rl) = true → Some (l_owner rl) ≠ o →
        (∀ f, o ≠ None → m = Some f → f (l_owner rl) = false) →
        reffs_lock_range_overlap (l_offset rl) (l_len rl) off len = false
  end.
Proof.
  induction locks as [|rl locks IH]; cbn [reffs_lock_find_conflict].
  { intros rl Hrl. by apply not_elem_of_nil in Hrl. }
  set (rec := reffs_lock_find_conflict locks off len e o m) in *.
  assert (Hskip : (∀ H : (e || l_exclusive rl) = true, Some (l_owner rl) ≠ o →
      (∀ f, o ≠ None → m = Some f → f (l_owner rl) = false) →
      reffs_lock_range_overlap (l_offset rl) (l_len rl) off len = false) →
    match rec with
    | Some r => r ∈ rl :: locks ∧ (e || l_exclusive r) = true ∧
        reffs_lock_range_overlap (l_offset r) (l_len r) off len = true ∧ Some (l_owner r) ≠ o ∧
        (∀ f, o ≠ None → m = Some f → f (l_owner r) = false)
    | None => ∀ r, r ∈ rl :: locks → (e || l_exclusive r) = true → Some (l_owner r) ≠ o →
        (∀ f, o ≠ None → m = Some f → f (l_owner r) = false) →
        reffs_lock_range_overlap (l_offset r) (l_len r) off len = false
    end).
  { intros Hrl. destruct rec as [r|].
    - destruct IH as (H1 & H2 & H3). split; [by right|done].
    - intros r Hr. apply elem_of_cons in Hr as [->|Hr]; auto. }
  destruct (negb e && negb (l_exclusive rl)) eqn:E1.
  { apply Hskip. intros H. by destruct e, (l_exclusive rl). }
  destruct (match o with Some o => (l_owner rl =? o)%nat | None => false end) eqn:E2.
  { apply Hskip. intros _ Hne. destruct o; [|done]. apply Nat.eqb_eq in E2. congruence. }
  destruct (match o, m with Some _, Some f => f (l_owner rl) | _, _ => false end) eqn:E3.
  { apply Hskip. intros _ _ Hf. destruct o, m as [f|]; try done.
    rewrite (Hf f) in E3; done. }
  destruct (reffs_lock_range_overlap (l_offset rl) (l_len rl) off len) eqn:E4.
  - split; [by left|]. split; [by destruct e, (l_exclusive rl)|]. split; [done|].
    split; [intros <-; by rewrite Nat.eqb_refl in E2|].
    intros f Ho ->. by destruct o.
  - by apply Hskip.
Qed.

(** ** Adding *)

Lemma relock_spec locks lock :
  match relock locks lock with
  | Some locks' =>
      ∃ pre le post, locks = pre ++ le :: post ∧ same_range le lock = true ∧
        locks' = pre ++ set_exclusive le (l_exclusive lock) :: post
  | None => ∀ le, le ∈ locks → same_range le lock = false
  end.
Proof.
  induction locks as [|le locks IH]; cbn [relock].
  { intros le Hle. by apply not_elem_of_nil in Hle. }
  destruct (same_range le lock) eqn:E.
  - by exists [], le, locks.
  - destruct (relock locks lock) as [locks'|].
    + destruct IH as (pre & x & post & -> & Hx & ->). by exists (le :: pre), x, post.
    + intros x Hx. apply elem_of_cons in Hx as [->|Hx]; auto.
Qed.

Lemma same_range_eq le lock :
  same_range le lock = true →
  l_owner le = l_owner lock ∧ l_offset le = l_offset lock ∧ l_len le = l_len lock.
Proof.
  unfold same_range. rewrite !andb_true_iff, Nat.eqb_eq, !Z.eqb_eq. tauto.
Qed.

Lemma holds_app a b o e x : holds (a ++ b) o e x ↔ holds a o e x ∨ holds b o e x.
Proof. unfold holds. setoid_rewrite elem_of_app. naive_solver. Qed.

Lemma holds_cons l a o e x :
  holds (l :: a) o e x ↔
  (l_owner l = o ∧ l_exclusive l = e ∧ covers l x = true) ∨ holds a o e x.
Proof. unfold holds. setoid_rewrite elem_of_cons. naive_solver. Qed.

(** What adding a lock changes: the requested range is held in the requested
    mode, nobody else is affected, nothing outside the range is. *)
Lemma lock_add_spec locks lock host ret locks' host' linked :
  reffs_lock_add locks lock host = (ret, locks', host', linked) →
  ret = 0%Z ∧
  (∀ b, covers lock b = true → holds locks' (l_owner lock) (l_exclusive lock) b) ∧
  (∀ o e b, (o ≠ l_owner lock ∨ covers lock b = false) →
     holds locks' o e b ↔ holds locks o e b) ∧
  (∀ o e b, holds locks' o e b →
     holds locks o e b ∨ (o = l_owner lock ∧ e = l_exclusive lock ∧ covers lock b = true)).
Proof.
  unfold reffs_lock_add. pose proof (relock_spec locks lock) as H.
  destruct (relock locks lock) as [locks1|]; intros [= <- <- <- <-]; split; try done.
  - destruct H as (pre & le & post & -> & Hs & ->).
    apply same_range_eq in Hs as (Ho & Hoff & Hlen).
    assert (Hc : ∀ b, covers (set_exclusive le (l_exclusive lock)) b = covers lock b)
      by (intros b; unfold covers; cbn; by rewrite Hoff, Hlen).
    assert (Hc' : ∀ b, covers le b = covers lock b)
      by (intros b; unfold covers; by rewrite Hoff, Hlen).
    split_and!.
    + intros b Hb. rewrite holds_app, holds_cons, Hc. right. left. by rewrite <-Ho.
    + intros o e b Hob. rewrite !holds_app, !holds_cons, Hc, Hc'. cbn [l_owner set_exclusive].
      destruct Hob as [Hne|Hb]; [|rewrite Hb]; naive_solver.
    + intros o e b. rewrite !holds_app, !holds_cons, Hc, Hc'.
      cbn [l_owner l_exclusive set_exclusive]. rewrite Ho. naive_solver.
  - split_and!.
    + intros b Hb. rewrite holds_cons. by left.
    + intros o e b Hob. rewrite holds_cons. destruct Hob as [Hne|Hb]; [|rewrite Hb]; naive_solver.
    + intros o e b. rewrite holds_cons. naive_solver.
Qed.

Lemma lock_add_wf locks lock host ret locks' host' linked :
  reffs_lock_add locks lock host = (ret, locks', host', linked) →
  Forall wf_lock locks → wf_lock lock → Forall wf_lock locks'.
Proof.
  unfold reffs_lock_add. pose proof (relock_spec locks lock) as H.
  destruct (relock locks lock) as [locks1|]; intros [= <- <- <- <-] Hl Hw.
  - destruct H as (pre & le & post & -> & Hs & ->).
    apply list.Forall_app in Hl as [Hp Hq]. apply list.Forall_cons in Hq as [Hq Hr].
    apply list.Forall_app. split; [done|]. by constructor.
  - by constructor.
Qed.

(** ** Removing *)

Definition removed (u_off u_len : Z) (owner o : nat) (b : Z) : Prop :=
  o = owner ∧ in_range u_off u_len b = true.

(** The two pieces a cut leaves, as closed intervals. *)
Lemma left_piece off len cut :
  wf_range off len → (off < cut <= range_end off len)%Z →
  wf_range off (u64w (cut - off)) ∧ range_end off (u64w (cut - off)) = (cut - 1)%Z.
Proof.
  intros Hw Hc. pose proof (range_end_bounds _ _ Hw). pose proof Hw as (W1 & W2 & W3).
  rewrite u64w_small by lia. assert (Hw' : wf_range off (cut - off)) by (split_and!; lia).
  split; [done|]. rewrite range_end_wf by done. destruct (Z.eqb_spec (cut - off) 0); lia.
Qed.

Lemma right_piece off len cut :
  wf_range off len → (0 <= cut < range_end off len)%Z → (off <= cut + 1)%Z →
  let off' := u64w (cut + 1) in
  let len' := if (len =? 0)%Z then 0%Z else u64w (u64w (range_end off len - off') + 1) in
  off' = (cut + 1)%Z ∧ wf_range off' len' ∧ range_end off' len' = range_end off len.
Proof.
  intros Hw Hc Ho off' len'. pose proof (range_end_bounds _ _ Hw) as Hb.
  pose proof (range_end_wf _ _ Hw) as He. pose proof Hw as (W1 & W2 & W3).
  assert (E : off' = (cut + 1)%Z) by (apply u64w_small; lia).
  unfold len'. rewrite E. split; [done|]. destruct (Z.eqb_spec len 0) as [->|].
  - split; [split_and!; lia|]. done.
  - rewrite (u64w_small (range_end off len - _)%Z) by lia.
    rewrite u64w_small by lia.
    assert (Hw' : wf_range (cut + 1) (range_end off len - (cut + 1) + 1)) by (split_and!; lia).
    split; [done|]. rewrite (range_end_wf (cut + 1)%Z) by done.
    destruct (Z.eqb_spec (range_end off len - (cut + 1) + 1) 0); lia.
Qed.

Lemma keep_whole le (P : Z → Prop) les (st st' : remove_st) :
  wf_lock le → (∀ b, covers le b = true → ¬ P b) →
  (Some [le], st) = (Some les, st') →
  Forall (λ l, wf_lock l ∧ l_owner l = l_owner le ∧ l_exclusive l = l_exclusive le) les ∧
  ∀ b, existsb (λ l, covers l b) les = true ↔ covers le b = true ∧ ¬ P b.
Proof.
  intros Hw HP [= <- <-]. split; [by forall_list|]. intros b. cbn [existsb].
  rewrite orb_false_r. naive_solver.
Qed.

(** What stays of one lock: the same owner and mode, the bytes outside the
    removed range. *)
Lemma remove_one_spec u_off u_len owner le st les st' :
  wf_lock le → wf_range u_off u_len →
  remove_one u_off u_len owner le st = (Some les, st') →
  Forall (λ l, wf_lock l ∧ l_owner l = l_owner le ∧ l_exclusive l = l_exclusive le) les ∧
  ∀ b, existsb (λ l, covers l b) les = true ↔
       covers le b = true ∧ ¬ removed u_off u_len owner (l_owner le) b.
Proof.
  intros Hle Hu. unfold remove_one, removed.
  pose proof (range_end_bounds _ _ Hu) as Bu. pose proof (range_end_bounds _ _ Hle) as Bl.
  pose proof (left_piece _ _ u_off Hle) as HL.
  pose proof (right_piece _ _ (range_end u_off u_len) Hle) as HR. cbv zeta in HR.
  pose proof Hu as ((U0 & _) & _). unfold reffs_lock_range_overlap.
  destruct (Nat.eqb_spec (l_owner le) owner) as [Ho|Ho]; cbn [negb].
  2:{ apply keep_whole; [done|]. naive_solver. }
  destruct (Z.leb_spec (l_offset le) (range_end u_off u_len)) as [C1|C1],
    (Z.leb_spec u_off (range_end (l_offset le) (l_len le))) as [C2|C2]; cbn [andb negb].
  2-4: apply keep_whole; [done|]; intros b Hb [_ Hr]; rewrite in_range_spec in Hr;
    unfold covers in Hb; rewrite in_range_spec in Hb; lia.
  destruct (Z.leb_spec u_off (l_offset le)) as [C3|C3],
    (Z.leb_spec (range_end (l_offset le) (l_len le)) (range_end u_off u_len)) as [C4|C4],
    (Z.ltb_spec (l_offset le) u_off) as [C5|C5],
    (Z.ltb_spec (range_end u_off u_len) (range_end (l_offset le) (l_len le))) as [C6|C6];
    try lia; cbn [andb].
  - intros [= <- <-]. split; [by forall_list|]. intros b. unfold covers.
    rewrite !in_range_spec. cbn [existsb]. split; [done|]. intros [H1 H2]. lia.
  - destruct HR as (E & W & R); [lia..|]. intros [= <- <-].
    split; [by forall_list|]. intros b. unfold covers.
    cbn [existsb set_range l_offset l_len]. rewrite orb_false_r, !in_range_spec, R, E. lia.
  - destruct HL as [W1 R1]; [lia|]. intros [= <- <-].
    split; [by forall_list|]. intros b. unfold covers.
    cbn [existsb set_range l_offset l_len]. rewrite orb_false_r, !in_range_spec, R1. lia.
  - destruct HL as [W1 R1]; [lia|]. destruct HR as (E & W & R); [lia..|].
    intros Hres.
    assert (Hles : les = [set_range le (l_offset le) (u64w (u_off - l_offset le));
      mk_lock (r_next st) (l_owner le) (u64w (range_end u_off u_len + 1))
        (if (l_len le =? 0)%Z then 0 else u64w (u64w (range_end (l_offset le) (l_len le)
           - u64w (range_end u_off u_len + 1)) + 1)) (l_exclusive le)])
      by (destruct (r_calloc st) as [|[] ?]; by simplify_eq).
    rewrite Hles. split; [by forall_list|]. intros b. unfold covers.
    cbn [existsb set_range l_offset l_len].
    rewrite orb_false_r, orb_true_iff, !in_range_spec, R1, R, E. lia.
Qed.

Lemma remove_one_calloc u_off u_len owner le st r st' :
  remove_one u_off u_len owner le st = (r, st') →
  Forall (λ b, b = true) (r_calloc st) → r ≠ None ∧ Forall (λ b, b = true) (r_calloc st').
Proof.
  intros H Hc. unfold remove_one in H. repeat case_match; simplify_eq; try done; cbn in *.
  all: by apply list.Forall_cons in Hc as [? ?].
Qed.

Lemma holds_pieces u_off u_len owner le st les st' o e b :
  wf_lock le → wf_range u_off u_len →
  remove_one u_off u_len owner le st = (Some les, st') →
  holds les o e b ↔ holds [le] o e b ∧ ¬ removed u_off u_len owner o b.
Proof.
  intros Hw Hu H. destruct (remove_one_spec _ _ _ _ _ _ _ Hw Hu H) as [Hf Hb].
  rewrite list.Forall_forall in Hf. unfold holds. setoid_rewrite list_elem_of_singleton.
  specialize (Hb b). rewrite existsb_exists in Hb. split.
  - intros (l & Hl & <- & <- & Hc). destruct (Hf l Hl) as (_ & Ho & He).
    destruct Hb as [Hb _]. destruct Hb as [Hb Hr].
    { exists l. by rewrite <-list_elem_of_In. }
    rewrite Ho, He. split; [by exists le|done].
  - intros [(l & -> & <- & <- & Hc) Hr]. destruct Hb as [_ Hb].
    destruct Hb as (l & Hl & Hlc); [done|]. rewrite <-list_elem_of_In in Hl.
    destruct (Hf l Hl) as (_ & Ho & He). by exists l.
Qed.

Lemma lock_remove_spec locks off len owner st ret locks' st' :
  Forall wf_lock locks → wf_range off len →
  reffs_lock_remove locks off len owner st = (ret, locks', st') →
  Forall wf_lock locks' ∧ (ret = 0 ∨ ret = - ENOMEM)%Z ∧
  (Forall (λ b, b = true) (r_calloc st) → ret = 0%Z) ∧
  (∀ o e b, holds locks' o e b → holds locks o e b) ∧
  (∀ o e b, holds locks o e b → ¬ removed off len owner o b → holds locks' o e b) ∧
  (ret = 0%Z → ∀ o e b, holds locks' o e b → ¬ removed off len owner o b).
Proof.
  intros Hw Hu. revert st ret locks' st'. induction Hw as [|le locks Hle Hw IH];
    intros st ret locks' st' H; cbn [reffs_lock_remove] in H.
  { simplify_eq. split_and!; try done; [by left|].
    intros _ o e b (l & Hl & _). by apply not_elem_of_nil in Hl. }
  destruct (remove_one off len owner le st) as [[les|] st1] eqn:E1.
  - destruct (reffs_lock_remove locks off len owner st1) as [[ret2 rest] st2] eqn:E2.
    simplify_eq. destruct (IH _ _ _ _ E2) as (I1 & I2 & I3 & I4 & I5 & I6).
    assert (Hp : ∀ o e b, holds les o e b ↔ holds [le] o e b ∧ ¬ removed off len owner o b)
      by (intros; by eapply holds_pieces).
    destruct (remove_one_spec _ _ _ _ _ _ _ Hle Hu E1) as [Hf _].
    split_and!.
    + apply list.Forall_app. split; [|done]. eapply list.Forall_impl; [exact Hf|]. by intros l [? _].
    + done.
    + intros Hc. apply I3. by apply (remove_one_calloc _ _ _ _ _ _ _ E1).
    + intros o e b. rewrite holds_app, (holds_app [le] locks). rewrite Hp. naive_solver.
    + intros o e b. rewrite holds_app, (holds_app [le] locks), Hp. naive_solver.
    + intros Hr o e b. rewrite holds_app, Hp. naive_solver.
  - simplify_eq. split_and!; [by constructor|by right| |done|done|done].
    intros Hc. by destruct (remove_one_calloc _ _ _ _ _ _ _ E1 Hc).
Qed.

(** ** Shares *)

(** Two shares of different owners that cannot be held together. *)
Definition shares_compatible (shares : list reffs_share) : Prop :=
  ∀ s1 s2, s1 ∈ shares → s2 ∈ shares → s_owner s1 ≠ s_owner s2 →
    Z.land (s_access s1) (s_mode s2) = 0%Z.

Lemma share_conflict_spec m1 a1 m2 a2 :
  reffs_share_conflict m1 a1 m2 a2 = false ↔ Z.land a2 m1 = 0%Z ∧ Z.land a1 m2 = 0%Z.
Proof.
  unfold reffs_share_conflict.
  destruct (Z.eqb_spec (Z.land a2 m1) 0), (Z.eqb_spec (Z.land a1 m2) 0); cbn [negb]; naive_solver.
Qed.

Lemma share_scan_spec shares share ex :
  match share_scan shares share ex with
  | None => ∃ se, se ∈ shares ∧ s_owner se ≠ s_owner share ∧
      reffs_share_conflict (s_mode se) (s_access se) (s_mode share) (s_access share) = true
  | Some r =>
      (∀ se, se ∈ shares → s_owner se ≠ s_owner share →
        reffs_share_conflict (s_mode se) (s_access se) (s_mode share) (s_access share) = false) ∧
      ((r = ex ∧ ∀ se, se ∈ shares → s_owner se ≠ s_owner share) ∨
       ∃ se, r = Some se ∧ se ∈ shares ∧ s_owner se = s_owner share)
  end.
Proof.
  revert ex. induction shares as [|se shares IH]; intros ex; cbn [share_scan].
  { split; [intros se Hse; by apply not_elem_of_nil in Hse|].
    left. split; [done|]. intros se Hse. by apply not_elem_of_nil in Hse. }
  destruct (Nat.eqb_spec (s_owner se) (s_owner share)) as [E|E].
  - specialize (IH (Some se)). destruct (share_scan shares share (Some se)) as [r|].
    + destruct IH as [H1 H2]. split.
      * intros x Hx Hne. apply elem_of_cons in Hx as [->|Hx]; [done|auto].
      * right. destruct H2 as [[-> _]|(x & -> & Hx & Ho)].
        -- exists se. split_and!; [done|by left|done].
        -- exists x. split_and!; [done|by right|done].
    + destruct IH as (x & Hx & H1 & H2). exists x. split_and!; [by right|done|done].
  - destruct (reffs_share_conflict _ _ _ _) eqn:C.
    { exists se. split_and!; [by left|done|done]. }
    specialize (IH ex). destruct (share_scan shares share ex) as [r|].
    + destruct IH as [H1 H2]. split.
      * intros x Hx Hne. apply elem_of_cons in Hx as [->|Hx]; [done|auto].
      * destruct H2 as [[-> H2]|(x & -> & Hx & Ho)].
        -- left. split; [done|]. intros x Hx. apply elem_of_cons in Hx as [->|Hx]; auto.
        -- right. exists x. split_and!; [done|by right|done].
    + destruct IH as (x & Hx & H1 & H2). exists x. split_and!; [by right|done|done].
Qed.

End LocksCorrect.
