(* ===== verification/Nlm.v ===== *)
(** * The NLM lock manager ([src/lib/nlm/nlm_lock.c])

    Lock owners with their reference counts, the per-host lists, and the NLM
    procedures over the lock and share lists of the inodes.  Each call that can
    fail (an allocation, or [inode_active_get] on an inode being evicted) takes
    its outcome from a list that is part of the state. *)

From S2P Require Import Prelude.
From S2P Require Import Locks.
Import Locks.

Module Nlm.

(** ** Data *)

Inductive nlm4_stats :=
  NLM4_GRANTED | NLM4_DENIED | NLM4_DENIED_NOLOCKS | NLM4_FAILED.

(** [struct nlm4_lock] of a request. *)
Record nlm4_lock := mk_nlm4_lock {
  caller_name : list byte;
  oh : list byte;
  svid : Z;  (* int32 *)
  a_offset : Z;
  a_len : Z;
}.

Record nlm4_share := mk_nlm4_share {
  sh_caller_name : list byte;
  sh_oh : list byte;
  sh_mode : Z;
  sh_access : Z;
}.

Record nlm4_lock_owner := mk_owner {
  lo_addr : nat;
  lo_ref : Z;
  lo_oh : list byte;
  lo_svid : Z;
  lo_caller : list byte;
}.

Record nlm4_host := mk_host {
  h_name : list byte;
  h_locks : list nat;
  h_shares : list nat;
}.

Record inode := mk_inode {
  i_locks : list reffs_lock;
  i_shares : list reffs_share;
  i_active : Z;
}.

Record nlm_st := mk_nlm {
  nlm4_owners : list nlm4_lock_owner;
  nlm4_hosts : list nlm4_host;
  inodes : list inode;
  next_addr : nat;
  outcomes : list bool;
}.

Definition empty_inode : inode := mk_inode [] [] 0.

(** ** State access *)

Definition get_inode (st : nlm_st) (i : nat) : inode := rd empty_inode (inodes st) i.

Definition set_inode (i : nat) (x : inode) (st : nlm_st) : nlm_st :=
  mk_nlm (nlm4_owners st) (nlm4_hosts st) (wr (inodes st) i x) (next_addr st) (outcomes st).

Definition set_owners (l : list nlm4_lock_owner) (st : nlm_st) : nlm_st :=
  mk_nlm l (nlm4_hosts st) (inodes st) (next_addr st) (outcomes st).

Definition set_hosts (l : list nlm4_host) (st : nlm_st) : nlm_st :=
  mk_nlm (nlm4_owners st) l (inodes st) (next_addr st) (outcomes st).

Definition set_next (n : nat) (st : nlm_st) : nlm_st :=
  mk_nlm (nlm4_owners st) (nlm4_hosts st) (inodes st) n (outcomes st).

Definition set_outcomes (l : list bool) (st : nlm_st) : nlm_st :=
  mk_nlm (nlm4_owners st) (nlm4_hosts st) (inodes st) (next_addr st) l.

(** The outcome of the next fallible call. *)
Definition succeeds (st : nlm_st) : bool * nlm_st :=
  match outcomes st with
  | [] => (true, st)
  | b :: l => (b, set_outcomes l st)
  end.

(** [n] fallible calls in a row, stopping at the first failure. *)
Fixpoint succeeds_all (n : nat) (st : nlm_st) : bool * nlm_st :=
  match n with
  | O => (true, st)
  | S n =>
      let '(ok, st) := succeeds st in
      if ok then succeeds_all n st else (false, st)
  end.

Definition fresh (st : nlm_st) : nat * nlm_st :=
  (next_addr st, set_next (S (next_addr st)) st).

Definition upd_active (i : nat) (d : Z) (st : nlm_st) : nlm_st :=
  let x := get_inode st i in
  set_inode i (mk_inode (i_locks x) (i_shares x) (i_active x + d)) st.

(** ** Owners *)

Definition bytes_eqb (a b : list byte) : bool := bool_decide (a = b).

Definition nlm4_owner_match_op (lo : nlm4_lock_owner) (lock : nlm4_lock) : bool :=
  if negb (lo_svid lo =? u32w (svid lock))%Z then false
  else if negb (length (lo_oh lo) =? length (oh lock))%nat then false
  else if negb (bytes_eqb (lo_caller lo) (caller_name lock)) then false
  else bytes_eqb (lo_oh lo) (oh lock).

Definition set_ref (lo : nlm4_lock_owner) (r : Z) : nlm4_lock_owner :=
  mk_owner (lo_addr lo) r (lo_oh lo) (lo_svid lo) (lo_caller lo).

(** [urcu_ref_get] and [urcu_ref_put] on the owner at an address; the last put
    runs [nlm4_owner_release]. *)
Definition owner_get (a : nat) (st : nlm_st) : nlm_st :=
  set_owners (map (λ lo, if (lo_addr lo =? a)%nat then set_ref lo (lo_ref lo + 1) else lo)
                (nlm4_owners st)) st.

Definition owner_put (a : nat) (st : nlm_st) : nlm_st :=
  set_owners
    (filter (λ lo, lo_ref lo ≠ 0%Z ∨ lo_addr lo ≠ a)
       (map (λ lo, if (lo_addr lo =? a)%nat then set_ref lo (lo_ref lo - 1) else lo)
          (nlm4_owners st))) st.

Fixpoint find_owner (owners : list nlm4_lock_owner) (lock : nlm4_lock)
    : option nlm4_lock_owner :=
  match owners with
  | [] => None
  | lo :: rest => if nlm4_owner_match_op lo lock then Some lo else find_owner rest lock
  end.

Definition nlm4_get_owner (lock : nlm4_lock) (st : nlm_st) : option nat * nlm_st :=
  match find_owner (nlm4_owners st) lock with
  | Some lo => (Some (lo_addr lo), owner_get (lo_addr lo) st)
  | None =>
      (* calloc, malloc of the handle, strdup of the caller *)
      let '(ok, st) := succeeds_all 3 st in
      if negb ok then (None, st)
      else
        let '(a, st) := fresh st in
        let lo := mk_owner a 1 (oh lock) (u32w (svid lock)) (caller_name lock) in
        (Some a, set_owners (lo :: nlm4_owners st) st)
  end.

(** The owner's [lo_match] applied to the request, on the owner at an address. *)
Definition owner_matches (st : nlm_st) (lock : nlm4_lock) (a : nat) : bool :=
  existsb (λ lo, (lo_addr lo =? a)%nat && nlm4_owner_match_op lo lock) (nlm4_owners st).

(** ** Hosts *)

Definition find_host (name : list byte) (st : nlm_st) : option nlm4_host :=
  find (λ h, bytes_eqb (h_name h) name) (nlm4_hosts st).

Definition nlm4_get_host (name : list byte) (st : nlm_st) : option nlm4_host * nlm_st :=
  match find_host name st with
  | Some h => (Some h, st)
  | None =>
      (* calloc, strdup of the name *)
      let '(ok, st) := succeeds_all 2 st in
      if negb ok then (None, st)
      else
        let h := mk_host name [] [] in
        (Some h, set_hosts (h :: nlm4_hosts st) st)
  end.

(** Replace the lists of the host of a name. *)
Definition put_host (h : nlm4_host) (st : nlm_st) : nlm_st :=
  set_hosts (map (λ x, if bytes_eqb (h_name x) (h_name h) then h else x) (nlm4_hosts st)) st.

(** ** Locks *)

(** [reffs_lock_free] and [reffs_share_free] of an entry of inode [i]. *)
Definition entry_free (i owner : nat) (st : nlm_st) : nlm_st :=
  owner_put owner (upd_active i (-1) st).

Definition entry_ref (i owner : nat) (st : nlm_st) : nlm_st :=
  upd_active i 1 (owner_get owner st).

Definition reffs_nlm4_lock (i : nat) (alock : nlm4_lock) (exclusive : bool) (st : nlm_st)
    : nlm4_stats * nlm_st :=
  match nlm4_get_owner alock st with
  | (None, st) => (NLM4_DENIED_NOLOCKS, st)
  | (Some lo, st) =>
      match reffs_lock_find_conflict (i_locks (get_inode st i)) (a_offset alock) (a_len alock)
              exclusive (Some lo) (Some (owner_matches st alock)) with
      | Some _ => (NLM4_DENIED, owner_put lo st)
      | None =>
          let '(ok, st) := succeeds st in      (* calloc of the lock *)
          if negb ok then (NLM4_DENIED_NOLOCKS, owner_put lo st)
          else
            let '(id, st) := fresh st in
            let lock := mk_lock id lo (a_offset alock) (a_len alock) exclusive in
            let '(ok, st) := succeeds st in    (* inode_active_get *)
            if negb ok then (NLM4_DENIED_NOLOCKS, owner_put lo st)
            else
              let st := upd_active i 1 st in
              match nlm4_get_host (caller_name alock) st with
              | (None, st) => (NLM4_DENIED_NOLOCKS, entry_free i lo st)
              | (Some host, st) =>
                  let x := get_inode st i in
                  let '(ret, locks, hl, linked) :=
                    reffs_lock_add (i_locks x) lock (Some (h_locks host)) in
                  let st := set_inode i (mk_inode locks (i_shares x) (i_active x)) st in
                  let st := put_host (mk_host (h_name host) (default [] hl) (h_shares host)) st in
                  (if (ret =? 0)%Z then NLM4_GRANTED else NLM4_DENIED, st)
              end
      end
  end.

(** The reference counts after the events of a removal, oldest first. *)
Definition apply_events (i owner : nat) (evs : list remove_event) (st : nlm_st) : nlm_st :=
  fold_right (λ ev st, match ev with
                       | RFree _ => entry_free i owner st
                       | RSplit _ => entry_ref i owner st
                       end) st evs.

Definition reffs_nlm4_unlock (i : nat) (alock : nlm4_lock) (st : nlm_st)
    : nlm4_stats * nlm_st :=
  match nlm4_get_owner alock st with
  | (None, st) => (NLM4_DENIED_NOLOCKS, st)
  | (Some lo, st) =>
      let '(host, st) := nlm4_get_host (caller_name alock) st in
      let st := owner_put lo st in
      let x := get_inode st i in
      let '(_, locks, r) :=
        reffs_lock_remove (i_locks x) (a_offset alock) (a_len alock) lo
          (mk_remove_st [] (option_map h_locks host) (outcomes st) (next_addr st)) in
      let st := set_outcomes (r_calloc r) (set_next (r_next r) st) in
      let st := set_inode i (mk_inode locks (i_shares x) (i_active x)) st in
      let st := match host, r_host r with
                | Some h, Some hl => put_host (mk_host (h_name h) hl (h_shares h)) st
                | _, _ => st
                end in
      (NLM4_GRANTED, apply_events i lo (r_events r) st)
  end.

(** The reply of a test: granted, or the conflicting holder. *)
Record nlm4_holder := mk_holder {
  ho_exclusive : bool;
  ho_svid : Z;
  ho_oh : list byte;
  ho_offset : Z;
  ho_len : Z;
}.

Definition reffs_nlm4_test (i : nat) (alock : nlm4_lock) (exclusive : bool) (st : nlm_st)
    : nlm4_stats * option nlm4_holder * nlm_st :=
  match nlm4_get_owner alock st with
  | (None, st) => (NLM4_DENIED_NOLOCKS, None, st)
  | (Some lo, st) =>
      match reffs_lock_find_conflict (i_locks (get_inode st i)) (a_offset alock) (a_len alock)
              exclusive (Some lo) (Some (owner_matches st alock)) with
      | Some c =>
          let clo := find (λ x, (lo_addr x =? l_owner c)%nat) (nlm4_owners st) in
          let '(ok, st) := succeeds st in      (* malloc of the handle copy *)
          if negb ok then (NLM4_FAILED, None, owner_put lo st)
          else
            (NLM4_DENIED,
             option_map (λ clo, mk_holder (l_exclusive c) (lo_svid clo) (lo_oh clo)
                                  (l_offset c) (l_len c)) clo,
             owner_put lo st)
      | None => (NLM4_GRANTED, None, owner_put lo st)
      end
  end.

(** ** Shares *)

Definition share_lock (sh : nlm4_share) : nlm4_lock :=
  mk_nlm4_lock (sh_caller_name sh) (sh_oh sh) 0 0 0.

Definition reffs_nlm4_share (i : nat) (sh : nlm4_share) (st : nlm_st) : nlm4_stats * nlm_st :=
  match nlm4_get_owner (share_lock sh) st with
  | (None, st) => (NLM4_DENIED_NOLOCKS, st)
  | (Some lo, st) =>
      let '(ok, st) := succeeds st in          (* calloc of the share *)
      if negb ok then (NLM4_DENIED_NOLOCKS, owner_put lo st)
      else
        let '(id, st) := fresh st in
        let share := mk_share id lo (sh_mode sh) (sh_access sh) in
        let '(ok, st) := succeeds st in        (* inode_active_get *)
        if negb ok then (NLM4_DENIED_NOLOCKS, owner_put lo st)
        else
          let st := upd_active i 1 st in
          match nlm4_get_host (sh_caller_name sh) st with
          | (None, st) => (NLM4_DENIED_NOLOCKS, entry_free i lo st)
          | (Some host, st) =>
              let x := get_inode st i in
              let '(ret, shares, hl, linked) :=
                reffs_share_add (i_shares x) share (Some (h_shares host)) in
              let st := set_inode i (mk_inode (i_locks x) shares (i_active x)) st in
              let st := put_host (mk_host (h_name host) (h_locks host) (default [] hl)) st in
              if (ret =? 0)%Z
              then (NLM4_GRANTED, if linked then st else entry_free i lo st)
              else (NLM4_DENIED, st)
          end
  end.

Definition reffs_nlm4_unshare (i : nat) (sh : nlm4_share) (st : nlm_st)
    : nlm4_stats * nlm_st :=
  match nlm4_get_owner (share_lock sh) st with
  | (None, st) => (NLM4_DENIED_NOLOCKS, st)
  | (Some lo, st) =>
      let '(host, st) := nlm4_get_host (sh_caller_name sh) st in
      let st := owner_put lo st in
      let x := get_inode st i in
      let '(_, shares, hl, gone) :=
        reffs_share_remove (i_shares x) lo (option_map h_shares host) in
      let st := set_inode i (mk_inode (i_locks x) shares (i_active x)) st in
      let st := match host, hl with
                | Some h, Some hl => put_host (mk_host (h_name h) (h_locks h) hl) st
                | _, _ => st
                end in
      (NLM4_GRANTED, fold_left (λ st _, entry_free i lo st) gone st)
  end.

(** ** A host that rebooted *)

(** Unlink the lock of an address from its inode and drop its references. *)
Definition free_lock (st : nlm_st) (id : nat) : nlm_st :=
  for_range 0 (length (inodes st)) (λ i st,
    let x := get_inode st i in
    match find (λ l, (l_id l =? id)%nat) (i_locks x) with
    | None => st
    | Some l =>
        entry_free i (l_owner l)
          (set_inode i (mk_inode (filter (λ l, l_id l ≠ id) (i_locks x))
                          (i_shares x) (i_active x)) st)
    end) st.

Definition free_share (st : nlm_st) (id : nat) : nlm_st :=
  for_range 0 (length (inodes st)) (λ i st,
    let x := get_inode st i in
    match find (λ s, (s_id s =? id)%nat) (i_shares x) with
    | None => st
    | Some s =>
        entry_free i (s_owner s)
          (set_inode i (mk_inode (i_locks x)
                          (filter (λ s, s_id s ≠ id) (i_shares x)) (i_active x)) st)
    end) st.

(** After the search loop [host] is never null: without a match it points into
    the list head, and the rest of the function works on that; [None]. *)
Definition reffs_nlm4_free_all (name : list byte) (st : nlm_st) : option nlm_st :=
  match find_host name st with
  | None => None
  | Some host =>
      let st := fold_left free_lock (h_locks host) st in
      let st := put_host (mk_host (h_name host) [] (h_shares host)) st in
      let st := fold_left free_share (h_shares host) st in
      Some (put_host (mk_host (h_name host) [] []) st)
  end.

End Nlm.
