(* ===== verification/NlmCorrect.v ===== *)
(** * Invariants of the NLM lock manager

    For every sequence of NLM calls, whatever allocations fail: owners are
    unique, the owner of every lock and share is alive with at least as many
    references as entries, and no byte held exclusively is held by two owners. *)

From S2P Require Import Prelude.
From S2P Require Import Locks.
From S2P Require Import LocksCorrect.
From S2P Require Import Nlm.
Import Locks LocksCorrect Nlm.

Module NlmCorrect.

(** ** Counting references *)

Definition lock_uses (locks : list reffs_lock) (a : nat) : Z :=
  Z.of_nat (length (filter (λ l, l_owner l = a) locks)).
Definition share_uses (shares : list reffs_share) (a : nat) : Z :=
  Z.of_nat (length (filter (λ s, s_owner s = a) shares)).
Definition inode_uses (a : nat) (x : inode) : Z :=
  lock_uses (i_locks x) a + share_uses (i_shares x) a.

Fixpoint zsum (l : list Z) : Z := match l with [] => 0 | x :: l => x + zsum l end.

(** The locks and shares of all inodes that belong to the owner at [a]. *)
Definition uses (st : nlm_st) (a : nat) : Z := zsum (map (inode_uses a) (inodes st)).

Lemma zsum_wr l i x :
  (i < length l)%nat → zsum (wr l i x) = (zsum l - rd 0 l i + x)%Z.
Proof.
  revert i. induction l as [|y l IH]; intros i Hi; cbn [length] in Hi; [lia|].
  destruct i as [|i]; unfold wr, rd in *; cbn; [lia|]. rewrite IH by lia. lia.
Qed.

Lemma map_wr {A B} (f : A → B) l i x : map f (wr l i x) = wr (map f l) i (f x).
Proof. unfold wr. apply list_fmap_insert. Qed.

Lemma uses_set_inode st i x a :
  (i < length (inodes st))%nat →
  uses (set_inode i x st) a = (uses st a - inode_uses a (get_inode st i) + inode_uses a x)%Z.
Proof.
  intros Hi. unfold uses, set_inode. cbn [inodes]. rewrite map_wr.
  rewrite zsum_wr by (by rewrite length_map). unfold get_inode.
  by rewrite (rd_map empty_inode).
Qed.

Lemma inode_uses_nonneg a x : (0 <= inode_uses a x)%Z.
Proof. unfold inode_uses, lock_uses, share_uses. lia. Qed.

Lemma uses_nonneg st a : (0 <= uses st a)%Z.
Proof.
  unfold uses. induction (inodes st) as [|x l IH]; cbn; [lia|].
  pose proof (inode_uses_nonneg a x). lia.
Qed.

Lemma lock_uses_cons l ls a :
  lock_uses (l :: ls) a = ((if decide (l_owner l = a) then 1 else 0) + lock_uses ls a)%Z.
Proof. unfold lock_uses. rewrite filter_cons. case_decide; cbn [length]; lia. Qed.

Lemma lock_uses_app l1 l2 a : lock_uses (l1 ++ l2) a = (lock_uses l1 a + lock_uses l2 a)%Z.
Proof. unfold lock_uses. rewrite filter_app, length_app. lia. Qed.

(** ** Owners and references

    [ext a] references to the owner at [a] are held outside the lists. *)

Definition key (lo : nlm4_lock_owner) : Z * list byte * list byte :=
  (lo_svid lo, lo_oh lo, lo_caller lo).

Record owners_ok (st : nlm_st) : Prop := {
  oo_addr : NoDup (map lo_addr (nlm4_owners st));
  oo_key : NoDup (map key (nlm4_owners st));
  oo_next : ∀ lo, lo ∈ nlm4_owners st → (lo_addr lo < next_addr st)%nat;
}.

Record refs_ok (ext : nat → Z) (st : nlm_st) : Prop := {
  ro_ref : ∀ lo, lo ∈ nlm4_owners st →
    (0 < lo_ref lo)%Z ∧ (uses st (lo_addr lo) + ext (lo_addr lo) <= lo_ref lo)%Z;
  ro_live : ∀ a, (0 < uses st a + ext a)%Z → ∃ lo, lo ∈ nlm4_owners st ∧ lo_addr lo = a;
}.

Definition one (a b : nat) : Z := if decide (b = a) then 1 else 0.

Lemma match_key lo alock :
  nlm4_owner_match_op lo alock = true ↔
  key lo = (u32w (svid alock), oh alock, caller_name alock).
Proof.
  unfold nlm4_owner_match_op, bytes_eqb, key.
  assert (Hno : ∀ P : Prop, (false = true ↔ P) ↔ ¬ P) by (intros; split; intros; naive_solver).
  destruct (Z.eqb_spec (lo_svid lo) (u32w (svid alock))); cbn [negb];
    [|apply Hno; congruence].
  destruct (Nat.eqb_spec (length (lo_oh lo)) (length (oh alock))); cbn [negb];
    [|apply Hno; congruence].
  destruct (bool_decide_reflect (lo_caller lo = caller_name alock)); cbn [negb];
    [|apply Hno; congruence].
  rewrite bool_decide_eq_true. split; [congruence|]. by intros [= _ H _].
Qed.

Lemma NoDup_map_inj {A B} (f : A → B) l x y :
  NoDup (map f l) → x ∈ l → y ∈ l → f x = f y → x = y.
Proof.
  intros Hnd [i Hi]%list_elem_of_lookup [j Hj]%list_elem_of_lookup E.
  assert (i = j) as ->.
  { apply (NoDup_lookup (map f l) i j (f x)); [done|..];
      rewrite list_lookup_fmap; [by rewrite Hi|by rewrite Hj, E]. }
  congruence.
Qed.

Lemma find_owner_spec owners alock :
  match find_owner owners alock with
  | Some lo => lo ∈ owners ∧ nlm4_owner_match_op lo alock = true
  | None => ∀ lo, lo ∈ owners → nlm4_owner_match_op lo alock = false
  end.
Proof.
  induction owners as [|lo owners IH]; cbn [find_owner].
  { intros lo H. by apply not_elem_of_nil in H. }
  destruct (nlm4_owner_match_op lo alock) eqn:E; [split; [by left|done]|].
  destruct (find_owner owners alock).
  - destruct IH. split; [by right|done].
  - intros x Hx. apply elem_of_cons in Hx as [->|Hx]; auto.
Qed.

(** ** The primitives preserve the owner invariants *)

Lemma owner_get_lo a st lo :
  lo ∈ nlm4_owners (owner_get a st) ↔
  ∃ lo', lo' ∈ nlm4_owners st ∧
    lo = if (lo_addr lo' =? a)%nat then set_ref lo' (lo_ref lo' + 1) else lo'.
Proof. unfold owner_get. cbn. rewrite list_elem_of_fmap. naive_solver. Qed.

Lemma owner_put_lo a st lo :
  lo ∈ nlm4_owners (owner_put a st) ↔
  ∃ lo', lo' ∈ nlm4_owners st ∧
    lo = (if (lo_addr lo' =? a)%nat then set_ref lo' (lo_ref lo' - 1) else lo') ∧
    (lo_ref lo ≠ 0%Z ∨ lo_addr lo ≠ a).
Proof.
  unfold owner_put. cbn. rewrite list_elem_of_filter, list_elem_of_fmap. naive_solver.
Qed.

Lemma NoDup_map_filter {A B} (g : A → B) (P : A → Prop) `{∀ x, Decision (P x)} l :
  NoDup (map g l) → NoDup (map g (filter P l)).
Proof.
  induction l as [|x l IH]; [done|]. cbn [map]. rewrite list.NoDup_cons, filter_cons.
  intros [Hx Hl]. case_decide; [|auto]. cbn [map]. apply list.NoDup_cons. split; [|auto].
  intros (y & E & Hy)%list_elem_of_fmap. apply Hx. apply list_elem_of_fmap.
  exists y. split; [done|]. by apply list_elem_of_filter in Hy as [_ ?].
Qed.

Lemma map_set_ref {B} (g : nlm4_lock_owner → B) f a l :
  (∀ lo r, g (set_ref lo r) = g lo) →
  map g (map (λ lo, if (lo_addr lo =? a)%nat then set_ref lo (f lo) else lo) l) = map g l.
Proof.
  intros Hg. rewrite map_map. apply map_ext. intros lo.
  by destruct (lo_addr lo =? a)%nat.
Qed.

Lemma owners_ok_get a st : owners_ok st → owners_ok (owner_get a st).
Proof.
  intros [H1 H2 H3]. constructor.
  - unfold owner_get. cbn. by rewrite map_set_ref.
  - unfold owner_get. cbn. by rewrite map_set_ref.
  - intros lo (lo' & Hl & ->)%owner_get_lo. specialize (H3 lo' Hl).
    by destruct (lo_addr lo' =? a)%nat.
Qed.

Lemma owners_ok_put a st : owners_ok st → owners_ok (owner_put a st).
Proof.
  intros [H1 H2 H3]. constructor.
  - unfold owner_put. cbn. apply NoDup_map_filter. by rewrite map_set_ref.
  - unfold owner_put. cbn. apply NoDup_map_filter. by rewrite map_set_ref.
  - intros lo (lo' & Hl & -> & _)%owner_put_lo. specialize (H3 lo' Hl).
    by destruct (lo_addr lo' =? a)%nat.
Qed.

Lemma refs_ok_get a ext st :
  refs_ok ext st → (∃ lo, lo ∈ nlm4_owners st ∧ lo_addr lo = a) →
  refs_ok (λ b, ext b + one a b)%Z (owner_get a st).
Proof.
  intros [H1 H2] Ha. constructor.
  - intros lo (lo' & Hl & ->)%owner_get_lo. destruct (H1 lo' Hl) as [P1 P2].
    change (uses (owner_get a st)) with (uses st). unfold one.
    destruct (Nat.eqb_spec (lo_addr lo') a) as [E|E]; cbn [lo_addr lo_ref set_ref];
      case_decide; (done || lia).
  - intros b Hb. change (uses (owner_get a st)) with (uses st) in Hb. unfold one in Hb.
    assert (∃ lo, lo ∈ nlm4_owners st ∧ lo_addr lo = b) as (lo & Hl & <-).
    { case_decide; [by subst|]. apply H2. lia. }
    exists (if (lo_addr lo =? a)%nat then set_ref lo (lo_ref lo + 1) else lo).
    split; [apply owner_get_lo; by exists lo|]. by destruct (lo_addr lo =? a)%nat.
Qed.

Lemma refs_ok_put a ext st :
  owners_ok st → refs_ok ext st → refs_ok (λ b, ext b - one a b)%Z (owner_put a st).
Proof.
  intros Ho [H1 H2]. constructor.
  - intros lo (lo' & Hl & -> & Hr)%owner_put_lo. destruct (H1 lo' Hl) as [P1 P2].
    change (uses (owner_put a st)) with (uses st). unfold one.
    destruct (Nat.eqb_spec (lo_addr lo') a) as [E|E]; cbn [lo_addr lo_ref set_ref] in *.
    + rewrite decide_True by done. destruct Hr; [lia|done].
    + rewrite decide_False by done. lia.
  - intros b Hb. change (uses (owner_put a st)) with (uses st) in Hb.
    destruct (H2 b) as (lo & Hl & <-); [unfold one in Hb; case_decide; lia|].
    destruct (H1 lo Hl) as [P1 P2].
    destruct (Nat.eqb_spec (lo_addr lo) a) as [E|E].
    + exists (set_ref lo (lo_ref lo - 1)). split; [|done]. apply owner_put_lo.
      exists lo. split; [done|]. destruct (Nat.eqb_spec (lo_addr lo) a); [|done].
      split; [done|]. left. cbn. unfold one in Hb. rewrite decide_True in Hb by done. lia.
    + exists lo. split; [|done]. apply owner_put_lo. exists lo. split; [done|].
      destruct (Nat.eqb_spec (lo_addr lo) a); [done|]. split; [done|]. by right.
Qed.

(** The extra references may be given up. *)
Lemma refs_ok_weaken ext ext' st :
  refs_ok ext st → (∀ a, ext' a <= ext a)%Z → refs_ok ext' st.
Proof.
  intros [H1 H2] Hle. constructor.
  - intros lo Hl. destruct (H1 lo Hl). specialize (Hle (lo_addr lo)). lia.
  - intros a Ha. apply H2. specialize (Hle a). lia.
Qed.

Definition ls (x : inode) : list reffs_lock * list reffs_share := (i_locks x, i_shares x).

(** The owners and the lists of the inodes are the same; hosts, outcomes, active
    counts and fresh addresses may differ. *)
Record same (st st' : nlm_st) : Prop := {
  sm_owners : nlm4_owners st' = nlm4_owners st;
  sm_inodes : map ls (inodes st') = map ls (inodes st);
  sm_next : (next_addr st <= next_addr st')%nat;
}.

#[global] Instance same_refl : Reflexive same.
Proof. intros st. by constructor. Qed.

#[global] Instance same_trans : Transitive same.
Proof. intros a b c [A1 A2 A3] [B1 B2 B3]. constructor; (congruence || lia). Qed.

Lemma succeeds_same st ok st' : succeeds st = (ok, st') → same st st'.
Proof.
  unfold succeeds. destruct (outcomes st); intros; simplify_eq; [done|by constructor].
Qed.

Lemma succeeds_all_same n st ok st' : succeeds_all n st = (ok, st') → same st st'.
Proof.
  revert st. induction n as [|n IH]; intros st H; cbn [succeeds_all] in H; [by simplify_eq|].
  destruct (succeeds st) as [b st1] eqn:E. apply succeeds_same in E.
  destruct b; [|by simplify_eq]. etransitivity; [exact E|by apply IH].
Qed.

Lemma fresh_same st a st' :
  fresh st = (a, st') → same st st' ∧ a = next_addr st ∧ next_addr st' = S (next_addr st).
Proof. unfold fresh. intros; simplify_eq. split; [constructor; cbn; (lia || done)|done]. Qed.

Lemma owners_ok_frame st st' :
  nlm4_owners st' = nlm4_owners st → (next_addr st <= next_addr st')%nat →
  owners_ok st → owners_ok st'.
Proof.
  intros E1 E2 [H1 H2 H3]. constructor; rewrite E1; [done..|].
  intros lo Hl. specialize (H3 lo Hl). lia.
Qed.

Lemma refs_ok_frame ext st st' :
  nlm4_owners st' = nlm4_owners st → (∀ a, uses st' a = uses st a) →
  refs_ok ext st → refs_ok ext st'.
Proof.
  intros E1 E2 [H1 H2]. constructor; rewrite E1.
  - intros lo Hl. rewrite E2. by apply H1.
  - intros a. rewrite E2. apply H2.
Qed.

Lemma uses_inodes st st' a :
  map ls (inodes st') = map ls (inodes st) → uses st' a = uses st a.
Proof.
  intros E. unfold uses.
  assert (Hm : ∀ l, map (inode_uses a) l =
    map (λ p, lock_uses p.1 a + share_uses p.2 a)%Z (map ls l)) by (intros; by rewrite map_map).
  by rewrite !Hm, E.
Qed.

Lemma get_inode_same st st' i : same st st' → ls (get_inode st' i) = ls (get_inode st i).
Proof.
  intros [_ E _]. unfold get_inode, rd. rewrite <-!(map_nth ls). by rewrite E.
Qed.

Lemma length_same st st' : same st st' → length (inodes st') = length (inodes st).
Proof. intros [_ E _]. rewrite <-(length_map ls (inodes st')), E. apply length_map. Qed.

Lemma upd_active_same i d st : same st (upd_active i d st).
Proof.
  constructor; [done| |done]. unfold upd_active, set_inode. cbn [inodes]. rewrite map_wr.
  unfold get_inode, wr, ls. cbn [i_locks i_shares].
  destruct (decide (i < length (inodes st))%nat).
  - apply list_insert_id. rewrite list_lookup_fmap.
    unfold rd. rewrite nth_lookup. by destruct (lookup_lt_is_Some_2 (inodes st) i) as [x ->].
  - apply list_insert_ge. rewrite length_map. lia.
Qed.

Lemma owners_ok_same st st' : same st st' → owners_ok st → owners_ok st'.
Proof. intros [E _ Hn]. by apply owners_ok_frame. Qed.

Lemma refs_ok_same ext st st' : same st st' → refs_ok ext st → refs_ok ext st'.
Proof.
  intros [E Ei _]. apply refs_ok_frame; [done|]. intros a. by apply uses_inodes.
Qed.

Lemma owner_matches_unique st alock lo :
  owners_ok st → lo ∈ nlm4_owners st → nlm4_owner_match_op lo alock = true →
  ∀ a, owner_matches st alock a = true → a = lo_addr lo.
Proof.
  intros Ho Hl Hm%match_key a Ha.
  apply existsb_exists in Ha as (x & Hx & Hxm). apply list_elem_of_In in Hx.
  apply andb_true_iff in Hxm as [<-%Nat.eqb_eq E2%match_key].
  by rewrite (NoDup_map_inj key _ _ _ (oo_key _ Ho) Hx Hl) by congruence.
Qed.

(** A new owner enters the list. *)
Lemma new_owner_ok ext st lo :
  owners_ok st → refs_ok ext st → (∀ a, 0 <= ext a)%Z →
  (∀ x, x ∈ nlm4_owners st → key x ≠ key lo) → lo_addr lo = next_addr st → lo_ref lo = 1%Z →
  let st' := set_owners (lo :: nlm4_owners st) (set_next (S (next_addr st)) st) in
  owners_ok st' ∧ refs_ok (λ b, ext b + one (lo_addr lo) b)%Z st'.
Proof.
  intros [O1 O2 O3] Hr He Hk Ha H1 st'.
  assert (Huse : (uses st (lo_addr lo) + ext (lo_addr lo) <= 0)%Z).
  { destruct (Z.lt_ge_cases 0 (uses st (lo_addr lo) + ext (lo_addr lo))) as [Hlt|]; [|done].
    destruct (ro_live _ _ Hr _ Hlt) as (x & Hx & E). specialize (O3 x Hx). lia. }
  assert (Hne : ∀ x, x ∈ nlm4_owners st → lo_addr x ≠ lo_addr lo)
    by (intros x Hx; specialize (O3 x Hx); lia).
  assert (Hu : ∀ a, uses st' a = uses st a) by done.
  split; constructor; change (nlm4_owners st') with (lo :: nlm4_owners st).
  - cbn [map]. apply list.NoDup_cons. split; [|done].
    intros (x & E & Hx)%list_elem_of_fmap. by apply (Hne x Hx).
  - cbn [map]. apply list.NoDup_cons. split; [|done].
    intros (x & E & Hx)%list_elem_of_fmap. by apply (Hk x Hx).
  - intros x [->|Hx]%elem_of_cons; [cbn; lia|]. specialize (O3 x Hx). cbn. lia.
  - intros x [->|Hx]%elem_of_cons; rewrite Hu; unfold one.
    + rewrite decide_True by done. lia.
    + rewrite decide_False by (by apply Hne). rewrite Z.add_0_r. by apply (ro_ref _ _ Hr).
  - unfold one. intros a Hpos. rewrite Hu in Hpos. case_decide.
    + exists lo. split; [by left|done].
    + destruct (ro_live _ _ Hr a) as (x & Hx & E); [lia|]. exists x. split; [by right|done].
Qed.

(** [nlm4_get_owner]: the owner answered matches, and the caller holds one more
    reference to it. *)
Lemma nlm4_get_owner_ok alock ext st r st' :
  nlm4_get_owner alock st = (r, st') → owners_ok st → refs_ok ext st →
  (∀ a, 0 <= ext a)%Z →
  owners_ok st' ∧ map ls (inodes st') = map ls (inodes st) ∧ (next_addr st <= next_addr st')%nat ∧
  match r with
  | None => refs_ok ext st'
  | Some a => refs_ok (λ b, ext b + one a b)%Z st' ∧
      ∃ lo, lo ∈ nlm4_owners st' ∧ lo_addr lo = a ∧ nlm4_owner_match_op lo alock = true
  end.
Proof.
  intros H Ho Hr He. unfold nlm4_get_owner in H.
  pose proof (find_owner_spec (nlm4_owners st) alock) as Hf.
  destruct (find_owner (nlm4_owners st) alock) as [lo|].
  - simplify_eq. destruct Hf as [Hl Hm].
    split; [by apply owners_ok_get|]. split; [done|]. split; [done|]. split.
    + apply refs_ok_get; [done|by exists lo].
    + exists (set_ref lo (lo_ref lo + 1)). split; [|done].
      apply owner_get_lo. exists lo. by rewrite Nat.eqb_refl.
  - destruct (succeeds_all 3 st) as [ok st1] eqn:E. apply succeeds_all_same in E.
    pose proof (owners_ok_same _ _ E Ho) as Ho1. pose proof (refs_ok_same ext _ _ E Hr) as Hr1.
    destruct E as [E1 E2 E3]. destruct ok; cbn [negb] in H; [|by simplify_eq].
    unfold fresh in H. simplify_eq.
    set (lo := mk_owner (next_addr st1) 1 (oh alock) (u32w (svid alock)) (caller_name alock)).
    destruct (new_owner_ok ext st1 lo) as [N1 N2]; [done..| |done|done|].
    { intros x Hx Ek. rewrite E1 in Hx. specialize (Hf x Hx).
      apply not_true_iff_false in Hf. by apply Hf, match_key. }
    split; [exact N1|]. split; [exact E2|]. split; [cbn; lia|]. split; [exact N2|].
    exists lo. split; [by left|]. split; [done|]. by apply match_key.
Qed.

(** ** The invariant *)

(** [may] says which lock and unlock requests are made.  The source checks no range:
    one that runs past the end of the 64-bit offsets wraps, and what the invariant
    says about ranges holds as long as none does. *)
Section Invariant.

Context (may : nlm4_lock → Prop).

Definition bounded : Prop := ∀ alock, may alock → wf_range (a_offset alock) (a_len alock).

Record shares_ok (next : nat) (shares : list reffs_share) : Prop := {
  so_id : NoDup (map s_id shares);
  so_owner : NoDup (map s_owner shares);
  so_next : ∀ s, s ∈ shares → (s_id s < next)%nat;
  so_compat : shares_compatible shares;
}.

Record inode_ok (next : nat) (x : inode) : Prop := {
  io_wf : bounded → Forall wf_lock (i_locks x);
  io_excl : bounded → exclusion (i_locks x);
  io_shares : shares_ok next (i_shares x);
}.

Record nlm_ok (ext : nat → Z) (st : nlm_st) : Prop := {
  no_owners : owners_ok st;
  no_refs : refs_ok ext st;
  no_inodes : ∀ i, inode_ok (next_addr st) (get_inode st i);
}.

Lemma inode_ok_next n n' x : inode_ok n x → (n <= n')%nat → inode_ok n' x.
Proof.
  intros [H1 H2 [S1 S2 S3 S4]] Hn. constructor; [done..|]. constructor; [done..| |done].
  intros s Hs. specialize (S3 s Hs). lia.
Qed.

Lemma inode_ok_ls n x y : ls x = ls y → inode_ok n x → inode_ok n y.
Proof. intros [= E1 E2] [H1 H2 H3]. rewrite E1 in *. rewrite E2 in *. by constructor. Qed.

Lemma nlm_ok_same ext st st' : same st st' → nlm_ok ext st → nlm_ok ext st'.
Proof.
  intros E [H1 H2 H3]. constructor.
  - by apply (owners_ok_same st).
  - by apply (refs_ok_same ext st).
  - intros i. apply (inode_ok_next (next_addr st)); [|apply E].
    apply (inode_ok_ls _ (get_inode st i)); [|apply H3]. by rewrite (get_inode_same st st').
Qed.

Lemma nlm_ok_weaken ext ext' st :
  nlm_ok ext st → (∀ a, ext' a <= ext a)%Z → nlm_ok ext' st.
Proof. intros [H1 H2 H3] Hle. constructor; [done| |done]. by apply (refs_ok_weaken ext). Qed.

Lemma nlm_ok_put a ext st : nlm_ok ext st → nlm_ok (λ b, ext b - one a b)%Z (owner_put a st).
Proof.
  intros [H1 H2 H3]. constructor; [by apply owners_ok_put|by apply refs_ok_put|done].
Qed.

Lemma nlm_ok_get a ext st :
  nlm_ok ext st → (0 < uses st a + ext a)%Z →
  nlm_ok (λ b, ext b + one a b)%Z (owner_get a st).
Proof.
  intros [H1 H2 H3] Ha. constructor; [by apply owners_ok_get| |done].
  apply refs_ok_get; [done|]. by apply (ro_live _ _ H2).
Qed.

Lemma get_set_inode st i x j :
  get_inode (set_inode i x st) j =
  if decide (j = i ∧ (i < length (inodes st))%nat) then x else get_inode st j.
Proof.
  unfold get_inode, set_inode. cbn [inodes].
  destruct (decide (i < length (inodes st))%nat) as [Hi|Hi].
  - rewrite rd_wr by done. repeat case_decide; naive_solver.
  - rewrite decide_False by naive_solver. unfold wr. rewrite list_insert_ge; [done|]. lia.
Qed.

(** Replacing an inode moves references between its lists and the outside. *)
Lemma nlm_ok_set_inode ext ext' st i x :
  nlm_ok ext st → (i < length (inodes st))%nat → inode_ok (next_addr st) x →
  (∀ a, inode_uses a x + ext' a <= inode_uses a (get_inode st i) + ext a)%Z →
  nlm_ok ext' (set_inode i x st).
Proof.
  intros [H1 [R1 R2] H3] Hi Hx Hle. constructor; [by destruct H1| |].
  - constructor; intros; rewrite uses_set_inode in * by done.
    + destruct (R1 lo) as [P1 P2]; [done|]. specialize (Hle (lo_addr lo)). lia.
    + apply R2. specialize (Hle a). lia.
  - intros j. rewrite get_set_inode. case_decide; [done|]. apply H3.
Qed.

Lemma nlm_ok_entry_free ext st i a :
  nlm_ok ext st → nlm_ok (λ b, ext b - one a b)%Z (entry_free i a st).
Proof. intros H. apply nlm_ok_put. by apply (nlm_ok_same _ _ _ (upd_active_same _ _ _)). Qed.

Lemma length_entry_free i a st : length (inodes (entry_free i a st)) = length (inodes st).
Proof. exact (length_same _ _ (upd_active_same i (-1) st)). Qed.

(** ** Hosts do not matter to it *)

Lemma nlm4_get_host_same name st h st' : nlm4_get_host name st = (h, st') → same st st'.
Proof.
  unfold nlm4_get_host. destruct (find_host name st); [by intros; simplify_eq|].
  destruct (succeeds_all 2 st) as [ok st1] eqn:E. apply succeeds_all_same in E.
  destruct ok; cbn [negb]; intros; simplify_eq; [|done].
  etransitivity; [exact E|by constructor].
Qed.

Lemma put_host_same h st : same st (put_host h st).
Proof. by constructor. Qed.

Definition none : nat → Z := λ _, 0%Z.

(** The owner of a request, with the caller's reference. *)
Lemma get_owner_ok alock st r st' :
  nlm4_get_owner alock st = (r, st') → nlm_ok none st →
  length (inodes st') = length (inodes st) ∧
  match r with
  | None => nlm_ok none st'
  | Some a => nlm_ok (one a) st' ∧ ∀ b, owner_matches st' alock b = true → b = a
  end.
Proof.
  intros H [H1 H2 H3].
  destruct (nlm4_get_owner_ok _ _ _ _ _ H H1 H2) as (O & I & N & R); [done|].
  assert (HI : ∀ i, inode_ok (next_addr st') (get_inode st' i)).
  { intros i. apply (inode_ok_next (next_addr st)); [|done].
    apply (inode_ok_ls _ (get_inode st i)); [|apply H3].
    unfold get_inode, rd. by rewrite <-!(map_nth ls), I. }
  split; [by rewrite <-(length_map ls (inodes st')), I, length_map|]. destruct r as [a|]; [|by constructor].
  destruct R as (R & lo & Hl & <- & Hm). split; [|intros b Hb; by apply (owner_matches_unique st' alock lo)].
  constructor; [done| |done]. apply (refs_ok_weaken _ _ _ R). intros b. unfold none. lia.
Qed.

Lemma put_back a st : nlm_ok (one a) st → nlm_ok none (owner_put a st).
Proof.
  intros H. eapply nlm_ok_weaken; [by apply nlm_ok_put|]. intros b. unfold none. lia.
Qed.

(** ** [reffs_nlm4_lock] *)

(** A range nobody else holds may be given away. *)
Lemma lock_add_excl locks lock host ret locks' host' linked m :
  reffs_lock_add locks lock host = (ret, locks', host', linked) →
  Forall wf_lock locks → wf_lock lock → exclusion locks →
  (∀ b, m b = true → b = l_owner lock) →
  reffs_lock_find_conflict locks (l_offset lock) (l_len lock) (l_exclusive lock)
    (Some (l_owner lock)) (Some m) = None →
  exclusion locks'.
Proof.
  intros Ha Hw Hl Hx Hm Hc. pose proof (find_conflict_spec locks (l_offset lock) (l_len lock)
    (l_exclusive lock) (Some (l_owner lock)) (Some m)) as Hf. rewrite Hc in Hf.
  destruct (lock_add_spec _ _ _ _ _ _ _ Ha) as (_ & _ & _ & Hnew).
  assert (Hno : ∀ o e b, holds locks o e b → o ≠ l_owner lock → covers lock b = true →
    (l_exclusive lock || e) = false).
  { intros o e b (l & Hin & <- & <- & Hcov) Hne Hb. apply not_true_iff_false. intros He.
    assert (Hov := Hf l Hin He ltac:(congruence)
      ltac:(intros f _ [= <-]; apply not_true_iff_false; naive_solver)).
    apply not_true_iff_false in Hov. apply Hov. rewrite list.Forall_forall in Hw.
    apply overlap_spec; [by apply Hw|done|]. by exists b. }
  intros o1 o2 e b Hne H1 H2. apply Hnew in H1 as [H1|(-> & E1 & C1)];
    apply Hnew in H2 as [H2|(-> & E2 & C2)].
  - by apply (Hx o1 o2 e b).
  - specialize (Hno o1 true b H1 Hne C2). by rewrite orb_true_r in Hno.
  - specialize (Hno o2 e b H2 (not_eq_sym Hne) C1). by rewrite <-E1 in Hno.
  - done.
Qed.

Lemma lock_add_uses locks lock host ret locks' host' linked a :
  reffs_lock_add locks lock host = (ret, locks', host', linked) →
  (lock_uses locks' a <= lock_uses locks a + one (l_owner lock) a)%Z.
Proof.
  unfold reffs_lock_add. pose proof (relock_spec locks lock) as H.
  destruct (relock locks lock) as [l1|]; intros; simplify_eq.
  - destruct H as (pre & le & post & -> & _ & ->).
    rewrite !lock_uses_app, !lock_uses_cons. cbn [l_owner set_exclusive].
    unfold one. repeat case_decide; lia.
  - rewrite lock_uses_cons. unfold one. repeat case_decide; (lia || congruence).
Qed.

(** Linking the new lock turns the caller's reference into one of the list. *)
Lemma link_ok i lock host st ret locks hl linked m :
  nlm_ok (one (l_owner lock)) st → (i < length (inodes st))%nat → (bounded → wf_lock lock) →
  (∀ b, m b = true → b = l_owner lock) →
  reffs_lock_find_conflict (i_locks (get_inode st i)) (l_offset lock) (l_len lock)
    (l_exclusive lock) (Some (l_owner lock)) (Some m) = None →
  reffs_lock_add (i_locks (get_inode st i)) lock host = (ret, locks, hl, linked) →
  nlm_ok none (set_inode i (mk_inode locks (i_shares (get_inode st i))
                              (i_active (get_inode st i))) st).
Proof.
  intros Hok Hi Hw Hm Hc Ha. destruct (no_inodes _ _ Hok i) as [W X S].
  apply (nlm_ok_set_inode (one (l_owner lock))); [done..| |].
  - constructor; [|intros B|done].
    + intros B. by apply (lock_add_wf _ _ _ _ _ _ _ Ha (W B) (Hw B)).
    + by apply (lock_add_excl _ _ _ _ _ _ _ _ Ha (W B) (Hw B) (X B) Hm Hc).
  - intros a. unfold inode_uses, none. cbn [i_locks i_shares].
    pose proof (lock_add_uses _ _ _ _ _ _ _ a Ha). lia.
Qed.

Lemma nlm4_lock_ok i alock e st res st' :
  reffs_nlm4_lock i alock e st = (res, st') → nlm_ok none st →
  (i < length (inodes st))%nat → may alock →
  nlm_ok none st' ∧ length (inodes st') = length (inodes st).
Proof.
  intros H Hok Hi Hw. unfold reffs_nlm4_lock in H.
  destruct (nlm4_get_owner alock st) as [[lo|] st1] eqn:E1;
    apply get_owner_ok in E1 as [I1 G1]; try done; [|simplify_eq; by rewrite I1].
  destruct G1 as [G1 Hm]. rewrite <-I1 in Hi |- *.
  destruct (reffs_lock_find_conflict _ _ _ _ _ _) eqn:Hc.
  { simplify_eq. by split; [apply put_back|]. }
  destruct (succeeds st1) as [ok1 st2] eqn:E2. apply succeeds_same in E2.
  destruct ok1; cbn [negb] in H.
  2:{ simplify_eq. split; [by apply put_back, (nlm_ok_same _ st1)|exact (length_same _ _ E2)]. }
  destruct (fresh st2) as [id st3] eqn:E3. apply fresh_same in E3 as [E3 _].
  destruct (succeeds st3) as [ok2 st4] eqn:E4. apply succeeds_same in E4.
  assert (S4 : same st1 st4) by (by do 2 (etransitivity; [eassumption|])).
  destruct ok2; cbn [negb] in H.
  2:{ simplify_eq. split; [by apply put_back, (nlm_ok_same _ st1)|exact (length_same _ _ S4)]. }
  destruct (nlm4_get_host (caller_name alock) (upd_active i 1 st4)) as [host st5] eqn:E5.
  apply nlm4_get_host_same in E5.
  assert (S5 : same st1 st5)
    by (etransitivity; [exact S4|]; etransitivity; [apply upd_active_same|done]).
  pose proof (nlm_ok_same _ _ _ S5 G1) as G5. pose proof (length_same _ _ S5) as L5.
  destruct host as [host|].
  2:{ simplify_eq. split; [|by rewrite length_entry_free].
      eapply nlm_ok_weaken; [by apply nlm_ok_entry_free|]. intros b. unfold none. lia. }
  destruct (reffs_lock_add _ _ _) as [[[ret locks] hl] linked] eqn:E6. simplify_eq.
  pose proof (get_inode_same _ _ i S5) as [= Hl _]. rewrite <-Hl in Hc.
  split; [|by cbn; rewrite length_wr].
  eapply nlm_ok_same; [apply put_host_same|].
  eapply link_ok; [| | | | |exact E6]; [exact G5|lia|intros B; by apply B|exact Hm|exact Hc].
Qed.

(** ** [reffs_nlm4_test] *)

Lemma nlm4_test_ok i alock e st res h st' :
  reffs_nlm4_test i alock e st = (res, h, st') → nlm_ok none st →
  nlm_ok none st' ∧ length (inodes st') = length (inodes st).
Proof.
  intros H Hok. unfold reffs_nlm4_test in H.
  destruct (nlm4_get_owner alock st) as [[lo|] st1] eqn:E1;
    apply get_owner_ok in E1 as [I1 G1]; try done; [|by simplify_eq].
  destruct G1 as [G1 _]. rewrite <-I1.
  destruct (reffs_lock_find_conflict _ _ _ _ _ _).
  2:{ simplify_eq. by split; [apply put_back|]. }
  destruct (succeeds st1) as [ok st2] eqn:E2. apply succeeds_same in E2.
  destruct ok; cbn [negb] in H; simplify_eq;
    (split; [by apply put_back, (nlm_ok_same _ st1)|exact (length_same _ _ E2)]).
Qed.

(** ** [reffs_nlm4_unlock] *)

Fixpoint frees (evs : list remove_event) : Z :=
  match evs with [] => 0 | RFree _ :: evs => 1 + frees evs | RSplit _ :: evs => frees evs end.
Fixpoint splits (evs : list remove_event) : Z :=
  match evs with [] => 0 | RSplit _ :: evs => 1 + splits evs | RFree _ :: evs => splits evs end.

Lemma frees_app e1 e2 : frees (e1 ++ e2) = (frees e1 + frees e2)%Z.
Proof. induction e1 as [|[] e1 IH]; cbn; lia. Qed.
Lemma splits_app e1 e2 : splits (e1 ++ e2) = (splits e1 + splits e2)%Z.
Proof. induction e1 as [|[] e1 IH]; cbn; lia. Qed.
Lemma frees_nonneg e : (0 <= frees e)%Z.
Proof. induction e as [|[] e IH]; cbn; lia. Qed.
Lemma splits_nonneg e : (0 <= splits e)%Z.
Proof. induction e as [|[] e IH]; cbn; lia. Qed.

(** What one lock becomes, in references. *)
Lemma remove_one_uses off len o le st les st' :
  remove_one off len o le st = (Some les, st') →
  (r_next st <= r_next st')%nat ∧
  ∃ evs, r_events st' = evs ++ r_events st ∧
    (∀ a, lock_uses les a = lock_uses [le] a + (splits evs - frees evs) * one o a)%Z ∧
    (2 * splits evs <= lock_uses les o)%Z.
Proof.
  unfold remove_one. intros H.
  destruct (Nat.eqb_spec (l_owner le) o) as [Ho|]; cbn [negb] in H.
  2:{ simplify_eq. split; [done|]. exists []. split; [done|]. cbn. unfold lock_uses. split; lia. }
  assert (Hu : ∀ l a, l_owner l = o → lock_uses [l] a = one o a).
  { intros l a E. rewrite lock_uses_cons, E. unfold one, lock_uses. cbn.
    repeat case_decide; naive_solver lia. }
  assert (H1 : one o o = 1%Z) by (unfold one; by rewrite decide_True).
  assert (Hsame : ∀ l, l_owner l = o → (∃ evs, r_events st = evs ++ r_events st ∧
    (∀ a, lock_uses [l] a = lock_uses [le] a + (splits evs - frees evs) * one o a)%Z ∧
    (2 * splits evs <= lock_uses [l] o)%Z)).
  { intros l E. exists []. split; [done|]. rewrite !Hu, H1 by done. cbn. split; [|lia].
    intros a. rewrite !Hu by done. lia. }
  assert (Hsplit : ∀ l1 l2 id, l_owner l1 = o → l_owner l2 = o →
    (∃ evs, RSplit id :: r_events st = evs ++ r_events st ∧
    (∀ a, lock_uses [l1; l2] a = lock_uses [le] a + (splits evs - frees evs) * one o a)%Z ∧
    (2 * splits evs <= lock_uses [l1; l2] o)%Z)).
  { intros l1 l2 id E E'. exists [RSplit id]. split; [done|].
    setoid_rewrite (lock_uses_app [l1] [l2]). rewrite !Hu, H1 by done. cbn. split; [|lia].
    intros a. rewrite !Hu by done. lia. }
  repeat case_match; simplify_eq; cbn [r_events r_next]; (split; [lia|]);
    try (by apply Hsame); try (by apply Hsplit).
  exists [RFree (l_id le)]. split; [done|]. split; [|done].
  intros a. rewrite Hu by done. unfold lock_uses. cbn. lia.
Qed.

Lemma lock_remove_uses locks off len o st ret locks' st' :
  reffs_lock_remove locks off len o st = (ret, locks', st') →
  (r_next st <= r_next st')%nat ∧
  ∃ evs, r_events st' = evs ++ r_events st ∧
    (∀ a, lock_uses locks' a = lock_uses locks a + (splits evs - frees evs) * one o a)%Z ∧
    (2 * splits evs <= lock_uses locks' o)%Z.
Proof.
  revert st ret locks' st'. induction locks as [|le locks IH]; intros st ret locks' st' H;
    cbn [reffs_lock_remove] in H.
  { simplify_eq. split; [done|]. exists []. split; [done|]. split; [|done]. intros a. cbn. lia. }
  destruct (remove_one off len o le st) as [[les|] st1] eqn:E1.
  - destruct (reffs_lock_remove locks off len o st1) as [[r2 rest] st2] eqn:E2. simplify_eq.
    apply remove_one_uses in E1 as (N1 & ev1 & E1 & U1 & S1).
    apply IH in E2 as (N2 & ev2 & E2 & U2 & S2).
    split; [lia|]. exists (ev2 ++ ev1). split; [by rewrite E2, E1, app_assoc|].
    rewrite splits_app, frees_app. setoid_rewrite lock_uses_app. split; [|lia].
    intros a. rewrite (lock_uses_app [le] locks), U1, U2. lia.
  - assert (r_next st1 = r_next st ∧ r_events st1 = r_events st) as [N1 N2]
      by (unfold remove_one in E1; repeat case_match; by simplify_eq).
    simplify_eq. split; [lia|]. exists []. split; [done|]. split; [intros a; cbn; lia|].
    unfold lock_uses. cbn. lia.
Qed.

(** The references follow the list: no event meets a dead owner. *)
Lemma apply_events_ok i o evs ext st :
  nlm_ok (λ b, ext b + (frees evs - splits evs) * one o b)%Z st → (2 * splits evs <= uses st o + ext o)%Z →
  nlm_ok ext (apply_events i o evs st) ∧
  (∀ a, uses (apply_events i o evs st) a = uses st a) ∧
  length (inodes (apply_events i o evs st)) = length (inodes st).
Proof.
  assert (H1 : one o o = 1%Z) by (unfold one; by rewrite decide_True).
  assert (Hu : ∀ d x a, uses (upd_active i d x) a = uses x a)
    by (intros; apply uses_inodes, upd_active_same).
  assert (HL : ∀ d x, length (inodes (upd_active i d x)) = length (inodes x))
    by (intros d x; apply length_same, upd_active_same).
  revert ext. induction evs as [|ev evs IH]; intros ext Hok Hs.
  { split; [|done]. eapply nlm_ok_weaken; [exact Hok|]. intros a. cbn. lia. }
  pose proof (frees_nonneg evs). pose proof (splits_nonneg evs).
  destruct ev as [id|id]; cbn [frees splits] in *.
  - destruct (IH (λ b, ext b + one o b)%Z) as (I1 & I2 & I3); [|lia|].
    { eapply nlm_ok_weaken; [exact Hok|]. intros a. cbn. lia. }
    cbn [apply_events fold_right]. fold (apply_events i o evs st).
    split_and!; [|intros a; exact (eq_trans (Hu (-1)%Z _ a) (I2 a))|by rewrite length_entry_free].
    eapply nlm_ok_weaken; [by apply nlm_ok_entry_free|]. intros a. cbn. lia.
  - destruct (IH (λ b, ext b - one o b)%Z) as (I1 & I2 & I3); [|lia|].
    { eapply nlm_ok_weaken; [exact Hok|]. intros a. cbn. lia. }
    cbn [apply_events fold_right]. fold (apply_events i o evs st). unfold entry_ref.
    split_and!; [|intros a; exact (eq_trans (Hu 1%Z _ a) (I2 a))|by rewrite HL].
    apply (nlm_ok_same _ _ _ (upd_active_same _ _ _)).
    eapply nlm_ok_weaken; [apply nlm_ok_get; [exact I1|rewrite I2; lia]|]. intros a. cbn. lia.
Qed.

Lemma uses_ge st i a : (inode_uses a (get_inode st i) <= uses st a)%Z.
Proof.
  destruct (decide (i < length (inodes st))%nat).
  - pose proof (uses_set_inode st i empty_inode a ltac:(done)) as H.
    pose proof (uses_nonneg (set_inode i empty_inode st) a).
    assert (inode_uses a empty_inode = 0%Z) by done. lia.
  - unfold get_inode. rewrite rd_ge by lia. apply uses_nonneg.
Qed.

(** Removing a range of an owner from the list of an inode. *)
Lemma unlink_ok i off len o r st ret locks r' :
  nlm_ok none st → (i < length (inodes st))%nat → (bounded → wf_range off len) → r_events r = [] →
  reffs_lock_remove (i_locks (get_inode st i)) off len o r = (ret, locks, r') →
  let st1 := set_inode i (mk_inode locks (i_shares (get_inode st i))
                            (i_active (get_inode st i))) st in
  ∀ st2, same st1 st2 →
  nlm_ok none (apply_events i o (r_events r') st2) ∧
  length (inodes (apply_events i o (r_events r') st2)) = length (inodes st).
Proof.
  intros Hok Hi Hw Hr H st1 st2 Hst2. destruct (no_inodes _ _ Hok i) as [W X S].
  destruct (lock_remove_uses _ _ _ _ _ _ _ _ H) as (_ & evs & E & U & S2).
  rewrite Hr, app_nil_r in E. rewrite E.
  assert (HS : bounded → Forall wf_lock locks ∧ ∀ o e b, holds locks o e b → holds (i_locks (get_inode st i)) o e b).
  { intros B. destruct (lock_remove_spec _ _ _ _ _ _ _ _ (W B) (Hw B) H) as (W' & _ & _ & Hsub & _). done. }
  pose proof (uses_ge st1 i o) as Hge. unfold st1 in Hge at 1.
  rewrite get_set_inode, decide_True in Hge by done. unfold inode_uses, share_uses in Hge.
  cbn [i_locks] in Hge.
  destruct (apply_events_ok i o evs none st2) as (A1 & _ & A3).
  - apply (nlm_ok_same _ _ _ Hst2). apply (nlm_ok_set_inode none); [done..| |].
    + constructor; [by intros B; apply HS| |done]. intros B o1 o2 e b Hne H1 H2.
      destruct (HS B) as [_ Hsub]. by apply (X B o1 o2 e b); [|apply Hsub..].
    + intros a. unfold inode_uses, none. cbn [i_locks i_shares]. rewrite U. lia.
  - rewrite (uses_inodes _ _ _ (sm_inodes _ _ Hst2)). unfold none. lia.
  - split; [done|]. rewrite A3, (length_same _ _ Hst2). cbn. by rewrite length_wr.
Qed.

Lemma nlm4_unlock_ok i alock st res st' :
  reffs_nlm4_unlock i alock st = (res, st') → nlm_ok none st →
  (i < length (inodes st))%nat → may alock →
  nlm_ok none st' ∧ length (inodes st') = length (inodes st).
Proof.
  intros H Hok Hi Hw. unfold reffs_nlm4_unlock in H.
  destruct (nlm4_get_owner alock st) as [[lo|] st1] eqn:E1;
    apply get_owner_ok in E1 as [I1 G1]; try done; [|by simplify_eq].
  destruct G1 as [G1 _]. rewrite <-I1 in Hi |- *.
  destruct (nlm4_get_host (caller_name alock) st1) as [host st2] eqn:E2.
  apply nlm4_get_host_same in E2. rewrite <-(length_same _ _ E2) in Hi |- *.
  pose proof (put_back _ _ (nlm_ok_same _ _ _ E2 G1)) as G2.
  change (inodes st2) with (inodes (owner_put lo st2)) in Hi |- *.
  set (st3 := owner_put lo st2) in *.
  destruct (reffs_lock_remove _ _ _ _ _) as [[ret locks] r] eqn:E3. simplify_eq.
  destruct (lock_remove_uses _ _ _ _ _ _ _ _ E3) as [Hn _].
  set (st4 := set_outcomes (r_calloc r) (set_next (r_next r) st3)).
  assert (S4 : same st3 st4) by (by constructor).
  eapply (unlink_ok i _ _ lo _ st4); [by apply (nlm_ok_same _ st3)|done|intros B; by apply B| |exact E3|].
  - done.
  - destruct host, (r_host r); [apply put_host_same|done..].
Qed.

(** ** Shares *)

Lemma compatible_sub s1 s2 :
  (∀ s, s ∈ s1 → s ∈ s2) → shares_compatible s2 → shares_compatible s1.
Proof. intros Hs H a b Ha Hb. apply H; auto. Qed.

Lemma shares_ok_filter n shares (P : reffs_share → Prop) `{∀ x, Decision (P x)} :
  shares_ok n shares → shares_ok n (filter P shares).
Proof.
  intros [H1 H2 H3 H4]. assert (Hin : ∀ s, s ∈ filter P shares → s ∈ shares)
    by (by intros s [_ ?]%list_elem_of_filter).
  constructor; [by apply NoDup_map_filter..|auto|by apply (compatible_sub _ shares)].
Qed.

Lemma share_uses_cons s ss a :
  share_uses (s :: ss) a = (one a (s_owner s) + share_uses ss a)%Z.
Proof. unfold share_uses, one. rewrite filter_cons. case_decide; cbn [length]; lia. Qed.

Lemma share_uses_owners ss ss' a :
  map s_owner ss = map s_owner ss' → share_uses ss a = share_uses ss' a.
Proof.
  revert ss'. induction ss as [|s ss IH]; intros [|s' ss'] [=]; [done|].
  rewrite !share_uses_cons. rewrite (IH ss') by done. congruence.
Qed.

Definition set_share (ex : nat) (share se : reffs_share) : reffs_share :=
  if (s_id se =? ex)%nat
  then mk_share (s_id se) (s_owner se) (s_mode share) (s_access share) else se.

(** The share of the owner is changed in place. *)
Lemma share_update_ok n shares share ex :
  shares_ok n shares → ex ∈ shares → s_owner ex = s_owner share →
  (∀ se, se ∈ shares → s_owner se ≠ s_owner share →
    reffs_share_conflict (s_mode se) (s_access se) (s_mode share) (s_access share) = false) →
  shares_ok n (map (set_share (s_id ex) share) shares) ∧
  map s_owner (map (set_share (s_id ex) share) shares) = map s_owner shares.
Proof.
  intros [H1 H2 H3 H4] Hex Ho Hc.
  assert (Hid : ∀ s, s_id (set_share (s_id ex) share s) = s_id s)
    by (intros s; unfold set_share; by destruct (s_id s =? s_id ex)%nat).
  assert (How : ∀ s, s_owner (set_share (s_id ex) share s) = s_owner s)
    by (intros s; unfold set_share; by destruct (s_id s =? s_id ex)%nat).
  assert (Em : map s_owner (map (set_share (s_id ex) share) shares) = map s_owner shares)
    by (rewrite map_map; by apply map_ext).
  split; [|done]. constructor.
  - rewrite map_map. by rewrite (map_ext _ s_id) by done.
  - by rewrite Em.
  - intros s (x & -> & Hx)%list_elem_of_fmap. rewrite Hid. auto.
  - intros s1 s2 (x & -> & Hx)%list_elem_of_fmap (y & -> & Hy)%list_elem_of_fmap.
    rewrite !How. intros Hne.
    assert (Heq : ∀ s, s ∈ shares → s_id s = s_id ex → s = ex)
      by (intros s Hs; by apply (NoDup_map_inj s_id shares)).
    unfold set_share. destruct (Nat.eqb_spec (s_id x) (s_id ex)) as [Ex|Ex],
      (Nat.eqb_spec (s_id y) (s_id ex)) as [Ey|Ey]; cbn [s_mode s_access].
    + rewrite (Heq x), (Heq y) in Hne by done. done.
    + rewrite (Heq x) in Hne by done. apply (share_conflict_spec (s_mode y) (s_access y) (s_mode share)).
      apply Hc; [done|congruence].
    + rewrite (Heq y) in Hne by done. apply (share_conflict_spec (s_mode x) (s_access x) (s_mode share) (s_access share)).
      apply Hc; [done|congruence].
    + by apply H4.
Qed.

(** A new or changed share keeps the reservations compatible. *)
Lemma share_add_ok n shares share host ret shares' host' linked :
  reffs_share_add shares share host = (ret, shares', host', linked) →
  shares_ok n shares → (s_id share < n)%nat → s_id share ∉ map s_id shares →
  shares_ok n shares' ∧
  ∀ a, (share_uses shares' a <=
        share_uses shares a + (if linked then one (s_owner share) a else 0))%Z.
Proof.
  unfold reffs_share_add. intros H Hok Hn Hnew.
  pose proof (share_scan_spec shares share None) as Hs.
  destruct (share_scan shares share None) as [[ex|]|]; simplify_eq.
  - destruct Hs as [Hc [[? _]|(se & [= <-] & Hin & Ho)]]; [done|].
    destruct (share_update_ok n shares share ex) as [Hu Em]; [done..|].
    split; [exact Hu|]. intros a. rewrite (share_uses_owners _ shares) by exact Em. lia.
  - destruct Hs as [Hc [[_ Hno]|(se & ? & _)]]; [|done]. split.
    + destruct Hok as [H1 H2 H3 H4]. constructor.
      * cbn [map]. by apply list.NoDup_cons.
      * cbn [map]. apply list.NoDup_cons. split; [|done].
        intros (x & E & Hx)%list_elem_of_fmap. by apply (Hno x Hx).
      * intros s [->|Hx]%elem_of_cons; auto.
      * intros s1 s2 [->|Hx]%elem_of_cons [->|Hy]%elem_of_cons Hne; [done| | |by apply H4].
        -- apply (share_conflict_spec (s_mode s2) (s_access s2) (s_mode share)). by apply Hc, not_eq_sym.
        -- apply (share_conflict_spec (s_mode s1) (s_access s1) (s_mode share) (s_access share)). by apply Hc.
    + intros a. rewrite share_uses_cons. unfold one. repeat case_decide; (lia || congruence).
  - split; [done|]. intros a. lia.
Qed.

(** ** [reffs_nlm4_share] *)

(** The share is linked with the caller's reference, or that is given back. *)
Lemma share_link_ok i share st host ret shares hl linked st' :
  nlm_ok (one (s_owner share)) st → (i < length (inodes st))%nat →
  (s_id share < next_addr st)%nat → s_id share ∉ map s_id (i_shares (get_inode st i)) →
  reffs_share_add (i_shares (get_inode st i)) share host = (ret, shares, hl, linked) →
  same (set_inode i (mk_inode (i_locks (get_inode st i)) shares (i_active (get_inode st i))) st)
    st' →
  nlm_ok none st' ∧ nlm_ok none (if linked then st' else entry_free i (s_owner share) st').
Proof.
  intros G Hi Hid Hnew E S. destruct (no_inodes _ _ G i) as [W X So].
  destruct (share_add_ok (next_addr st) _ _ _ _ _ _ _ E) as [A1 A2]; [done..|].
  assert (G6 : nlm_ok (if linked then none else one (s_owner share)) st').
  { apply (nlm_ok_same _ _ _ S). apply (nlm_ok_set_inode (one (s_owner share))); [done..| |].
    - by constructor.
    - intros a. unfold inode_uses. cbn [i_locks i_shares]. specialize (A2 a).
      unfold none. destruct linked; lia. }
  destruct linked; [done|]. split.
  - eapply nlm_ok_weaken; [exact G6|]. intros a. unfold none, one. case_decide; lia.
  - eapply nlm_ok_weaken; [apply nlm_ok_entry_free, G6|]. intros a. unfold none. lia.
Qed.

Lemma nlm4_share_ok i sh st res st' :
  reffs_nlm4_share i sh st = (res, st') → nlm_ok none st → (i < length (inodes st))%nat →
  nlm_ok none st' ∧ length (inodes st') = length (inodes st).
Proof.
  intros H Hok Hi. unfold reffs_nlm4_share in H.
  destruct (nlm4_get_owner (share_lock sh) st) as [[lo|] st1] eqn:E1;
    apply get_owner_ok in E1 as [I1 G1]; try done; [|by simplify_eq].
  destruct G1 as [G1 _]. rewrite <-I1 in Hi |- *.
  destruct (succeeds st1) as [ok1 st2] eqn:E2. apply succeeds_same in E2.
  destruct ok1; cbn [negb] in H.
  2:{ simplify_eq. split; [by apply put_back, (nlm_ok_same _ st1)|exact (length_same _ _ E2)]. }
  pose proof (nlm_ok_same _ _ _ E2 G1) as G2.
  destruct (fresh st2) as [id st3] eqn:E3. apply fresh_same in E3 as (E3 & Hid & Hn3).
  destruct (succeeds st3) as [ok2 st4] eqn:E4. apply succeeds_same in E4.
  assert (S4 : same st2 st4) by (by etransitivity).
  destruct ok2; cbn [negb] in H.
  2:{ simplify_eq. split; [by apply put_back, (nlm_ok_same _ st2)|].
      exact (eq_trans (length_same _ _ S4) (length_same _ _ E2)). }
  destruct (nlm4_get_host (sh_caller_name sh) (upd_active i 1 st4)) as [host st5] eqn:E5.
  apply nlm4_get_host_same in E5.
  assert (S5 : same st2 st5)
    by (etransitivity; [exact S4|]; etransitivity; [apply upd_active_same|done]).
  assert (N5 : (S (next_addr st2) <= next_addr st5)%nat).
  { rewrite <-Hn3. etransitivity; [apply E4|]. apply (sm_next _ _ E5). }
  pose proof (nlm_ok_same _ _ _ S5 G2) as G5.
  rewrite <-(length_same _ _ E2), <-(length_same _ _ S5) in Hi |- *.
  destruct host as [host|].
  2:{ simplify_eq. split; [|by rewrite length_entry_free].
      eapply nlm_ok_weaken; [by apply nlm_ok_entry_free|]. intros b. unfold none. lia. }
  destruct (reffs_share_add _ _ _) as [[[ret shares] hl] linked] eqn:E6.
  assert (Hnew : id ∉ map s_id (i_shares (get_inode st5 i))).
  { intros (s & -> & Hs)%list_elem_of_fmap.
    pose proof (get_inode_same _ _ i S5) as [= _ Hl]. rewrite Hl in Hs.
    pose proof (so_next _ _ (io_shares _ _ (no_inodes _ _ G2 i)) s Hs). lia. }
  destruct (share_link_ok i (mk_share id lo (sh_mode sh) (sh_access sh)) st5 _ _ _ _ _ _ G5 Hi ltac:(cbn; lia) Hnew E6 (put_host_same
    (mk_host (h_name host) (h_locks host) (default [] hl)) _)) as [A1 A2].
  destruct (ret =? 0)%Z; simplify_eq; (split; [done|]); [destruct linked|];
    rewrite ?length_entry_free; apply length_wr.
Qed.

(** ** [reffs_nlm4_unshare] *)

Lemma free_entries_ok i o (l : list nat) ext st :
  nlm_ok (λ b, ext b + Z.of_nat (length l) * one o b)%Z st →
  nlm_ok ext (fold_left (λ st _, entry_free i o st) l st) ∧
  length (inodes (fold_left (λ st _, entry_free i o st) l st)) = length (inodes st).
Proof.
  revert st. induction l as [|x l IH]; intros st H; cbn [fold_left].
  { split; [|done]. eapply nlm_ok_weaken; [exact H|]. intros a. cbn. lia. }
  rewrite <-(length_entry_free i o st). apply IH. eapply nlm_ok_weaken;
    [apply nlm_ok_entry_free, H|]. intros a. cbn [length]. lia.
Qed.

Lemma share_uses_remove shares o a :
  (share_uses (filter (λ s, s_owner s ≠ o) shares) a
   + Z.of_nat (length (map s_id (filter (λ s, s_owner s = o) shares))) * one o a
   = share_uses shares a)%Z.
Proof.
  rewrite length_map. induction shares as [|s shares IH]; [done|].
  rewrite !filter_cons. destruct (decide (s_owner s = o)) as [E|E].
  - rewrite decide_False by naive_solver. cbn [length]. rewrite share_uses_cons.
    assert (one a (s_owner s) = one o a) by (unfold one; repeat case_decide; congruence). lia.
  - rewrite decide_True by done. rewrite !share_uses_cons. lia.
Qed.

Lemma nlm4_unshare_ok i sh st res st' :
  reffs_nlm4_unshare i sh st = (res, st') → nlm_ok none st → (i < length (inodes st))%nat →
  nlm_ok none st' ∧ length (inodes st') = length (inodes st).
Proof.
  intros H Hok Hi. unfold reffs_nlm4_unshare in H.
  destruct (nlm4_get_owner (share_lock sh) st) as [[lo|] st1] eqn:E1;
    apply get_owner_ok in E1 as [I1 G1]; try done; [|by simplify_eq].
  destruct G1 as [G1 _]. rewrite <-I1 in Hi |- *.
  destruct (nlm4_get_host (sh_caller_name sh) st1) as [host st2] eqn:E2.
  apply nlm4_get_host_same in E2. rewrite <-(length_same _ _ E2) in Hi |- *.
  pose proof (put_back _ _ (nlm_ok_same _ _ _ E2 G1)) as G2.
  change (inodes st2) with (inodes (owner_put lo st2)) in Hi |- *.
  set (st3 := owner_put lo st2) in *. unfold reffs_share_remove in H.
  set (gone := map s_id _) in H. set (st4 := match host with Some _ => _ | None => _ end) in H.
  set (st4' := set_inode i _ st3) in st4.
  assert (S4 : same st4' st4) by (unfold st4; destruct host; done).
  assert (L4 : length (inodes st4) = length (inodes st3))
    by (rewrite (length_same _ _ S4); apply length_wr).
  rewrite <-L4. simplify_eq. apply (free_entries_ok i lo gone none).
  apply (nlm_ok_same _ _ _ S4). destruct (no_inodes _ _ G2 i) as [W X S].
  apply (nlm_ok_set_inode none); [done..| |].
  - constructor; [done..|]. by apply shares_ok_filter.
  - intros a. unfold inode_uses, none. cbn [i_locks i_shares].
    pose proof (share_uses_remove (i_shares (get_inode st3 i)) lo a). unfold gone. lia.
Qed.

(** ** [reffs_nlm4_free_all] *)

Lemma filter_lock_uses (P : reffs_lock → Prop) `{∀ l, Decision (P l)} locks l a :
  l ∈ locks → ¬ P l → (lock_uses (filter P locks) a + one (l_owner l) a <= lock_uses locks a)%Z.
Proof.
  assert (Hle : ∀ ls b, (lock_uses (filter P ls) b <= lock_uses ls b)%Z).
  { intros ls0 b. induction ls0 as [|x ls0 IH]; [done|]. rewrite filter_cons.
    case_decide; rewrite !lock_uses_cons; case_decide; lia. }
  intros [i Hi]%list_elem_of_lookup HP. rewrite <-(take_drop_middle locks i l) by done.
  rewrite filter_app, filter_cons, decide_False, !lock_uses_app, lock_uses_cons by done.
  pose proof (Hle (take i locks) a). pose proof (Hle (drop (S i) locks) a).
  unfold one. repeat case_decide; (lia || congruence).
Qed.

Lemma filter_share_uses (P : reffs_share → Prop) `{∀ l, Decision (P l)} shares s a :
  s ∈ shares → ¬ P s →
  (share_uses (filter P shares) a + one (s_owner s) a <= share_uses shares a)%Z.
Proof.
  assert (Hle : ∀ ls b, (share_uses (filter P ls) b <= share_uses ls b)%Z).
  { intros ls0 b. induction ls0 as [|x ls0 IH]; [done|]. rewrite filter_cons.
    case_decide; rewrite !share_uses_cons; unfold one; case_decide; lia. }
  intros Hin HP. induction shares as [|x shares IH]; [by apply not_elem_of_nil in Hin|].
  rewrite filter_cons, share_uses_cons. apply elem_of_cons in Hin as [<-|Hin].
  - rewrite decide_False by done. specialize (Hle shares a). unfold one in *.
    repeat case_decide; (lia || congruence).
  - specialize (IH Hin). case_decide; [rewrite share_uses_cons; lia|].
    unfold one in *. repeat case_decide; lia.
Qed.

Definition stays (st st' : nlm_st) : Prop :=
  nlm_ok none st' ∧ length (inodes st') = length (inodes st).

Lemma holds_filter (P : reffs_lock → Prop) `{∀ l, Decision (P l)} locks o e b :
  holds (filter P locks) o e b → holds locks o e b.
Proof. intros (l & [_ Hl]%list_elem_of_filter & Hr). by exists l. Qed.

Lemma free_lock_ok st id : nlm_ok none st → stays st (free_lock st id).
Proof.
  intros Hok. unfold free_lock.
  apply (for_range_ind (λ _ st', stays st st')); [done|].
  intros i st1 Hi [G L]. destruct (find _ _) as [l|] eqn:Hf; [|done].
  apply find_some in Hf as [Hin Hid]. apply list_elem_of_In in Hin. apply Nat.eqb_eq in Hid.
  split; [|rewrite length_entry_free; cbn; by rewrite length_wr].
  destruct (no_inodes _ _ G i) as [W X S].
  eapply (nlm_ok_weaken (λ b, one (l_owner l) b - one (l_owner l) b)%Z);
    [apply nlm_ok_entry_free|intros a; unfold none; lia].
  apply (nlm_ok_set_inode none); [done|lia| |].
  - constructor; [|intros B o1 o2 e b Hne H1%holds_filter H2%holds_filter; by apply (X B o1 o2 e b)|done].
    intros B. specialize (W B). apply list.Forall_forall. intros x [_ Hx]%list_elem_of_filter.
    rewrite list.Forall_forall in W. auto.
  - intros a. unfold inode_uses, none. cbn [i_locks i_shares].
    pose proof (filter_lock_uses (λ l, l_id l ≠ id) (i_locks (get_inode st1 i)) l a Hin
      ltac:(naive_solver)). lia.
Qed.

Lemma free_share_ok st id : nlm_ok none st → stays st (free_share st id).
Proof.
  intros Hok. unfold free_share.
  apply (for_range_ind (λ _ st', stays st st')); [done|].
  intros i st1 Hi [G L]. destruct (find _ _) as [s|] eqn:Hf; [|done].
  apply find_some in Hf as [Hin Hid]. apply list_elem_of_In in Hin. apply Nat.eqb_eq in Hid.
  split; [|rewrite length_entry_free; cbn; by rewrite length_wr].
  destruct (no_inodes _ _ G i) as [W X S].
  eapply (nlm_ok_weaken (λ b, one (s_owner s) b - one (s_owner s) b)%Z);
    [apply nlm_ok_entry_free|intros a; unfold none; lia].
  apply (nlm_ok_set_inode none); [done|lia| |].
  - constructor; [done..|]. by apply shares_ok_filter.
  - intros a. unfold inode_uses, none. cbn [i_locks i_shares].
    pose proof (filter_share_uses (λ s, s_id s ≠ id) (i_shares (get_inode st1 i)) s a Hin
      ltac:(naive_solver)). lia.
Qed.

Lemma fold_stays (f : nlm_st → nat → nlm_st) l st :
  (∀ st x, nlm_ok none st → stays st (f st x)) → nlm_ok none st → stays st (fold_left f l st).
Proof.
  intros Hf. revert st. induction l as [|x l IH]; intros st H; [done|]. cbn [fold_left].
  destruct (Hf st x H) as [H1 L1]. destruct (IH (f st x) H1) as [H2 L2].
  split; [done|congruence].
Qed.

Lemma nlm4_free_all_ok name st st' :
  reffs_nlm4_free_all name st = Some st' → nlm_ok none st → stays st st'.
Proof.
  unfold reffs_nlm4_free_all. destruct (find_host name st) as [h|]; [|done].
  intros [= <-] Hok. destruct (fold_stays free_lock (h_locks h) st free_lock_ok Hok) as [G1 L1].
  set (st1 := put_host (mk_host (h_name h) [] (h_shares h)) _).
  assert (G1' : nlm_ok none st1) by (eapply nlm_ok_same; [apply put_host_same|exact G1]).
  destruct (fold_stays free_share (h_shares h) st1 free_share_ok G1') as [G2 L2].
  split; [eapply nlm_ok_same; [apply put_host_same|exact G2]|]. cbn in *. congruence.
Qed.

(** ** Every sequence of calls *)

Inductive nlm_step : nlm_st → nlm_st → Prop :=
  | step_lock i alock e st res st' :
      (i < length (inodes st))%nat → may alock →
      reffs_nlm4_lock i alock e st = (res, st') → nlm_step st st'
  | step_unlock i alock st res st' :
      (i < length (inodes st))%nat → may alock →
      reffs_nlm4_unlock i alock st = (res, st') → nlm_step st st'
  | step_test i alock e st res h st' :
      reffs_nlm4_test i alock e st = (res, h, st') → nlm_step st st'
  | step_share i sh st res st' :
      (i < length (inodes st))%nat → reffs_nlm4_share i sh st = (res, st') → nlm_step st st'
  | step_unshare i sh st res st' :
      (i < length (inodes st))%nat → reffs_nlm4_unshare i sh st = (res, st') → nlm_step st st'
  | step_free_all name st st' :
      reffs_nlm4_free_all name st = Some st' → nlm_step st st'
  | step_outcomes l st : nlm_step st (set_outcomes l st).

(** No owner, no host, [n] inodes without locks. *)
Definition nlm_init (n : nat) : nlm_st := mk_nlm [] [] (replicate n empty_inode) 0 [].

Lemma nlm_step_ok st st' : nlm_step st st' → nlm_ok none st → stays st st'.
Proof.
  destruct 1; intros Hok; unfold stays.
  - by eapply nlm4_lock_ok.
  - by eapply nlm4_unlock_ok.
  - by eapply nlm4_test_ok.
  - by eapply nlm4_share_ok.
  - by eapply nlm4_unshare_ok.
  - by eapply nlm4_free_all_ok.
  - split; [|done]. apply (nlm_ok_same _ st); [by constructor|done].
Qed.

Lemma nlm_init_inode n i : get_inode (nlm_init n) i = empty_inode.
Proof.
  unfold get_inode, nlm_init, rd. cbn [inodes]. rewrite nth_lookup.
  destruct (replicate n empty_inode !! i) eqn:E; [|done].
  by apply lookup_replicate in E as [-> _].
Qed.

Lemma nlm_init_ok n : nlm_ok none (nlm_init n).
Proof.
  assert (Hu : ∀ a, uses (nlm_init n) a = 0%Z).
  { intros a. unfold uses, nlm_init. cbn [inodes]. induction n as [|n IH]; [done|].
    cbn [replicate map zsum]. by rewrite IH. }
  constructor.
  - constructor; [constructor..|]. intros lo H. by apply not_elem_of_nil in H.
  - constructor; [intros lo H; by apply not_elem_of_nil in H|]. intros a. rewrite Hu. done.
  - intros i. rewrite nlm_init_inode. constructor; [constructor| |constructor].
    + intros _ o1 o2 e b _ (l & H & _). by apply not_elem_of_nil in H.
    + constructor.
    + constructor.
    + intros s H. by apply not_elem_of_nil in H.
    + intros s1 s2 H. by apply not_elem_of_nil in H.
Qed.

Lemma nlm_reachable_ok n st : rtc nlm_step (nlm_init n) st → nlm_ok none st.
Proof.
  intros H. cut (nlm_ok none (nlm_init n) → nlm_ok none st); [intros Hc; apply Hc, nlm_init_ok|].
  induction H as [|st1 st2 st3 Hs _ IH]; [done|]. intros Hok. apply IH.
  by apply (nlm_step_ok st1 st2).
Qed.

(** ** Results of a lock call *)

Lemma succeeds_nofail st : outcomes st = [] → succeeds st = (true, st).
Proof. unfold succeeds. by intros ->. Qed.

Lemma succeeds_all_nofail k st : outcomes st = [] → succeeds_all k st = (true, st).
Proof. intros H. induction k; [done|]. cbn. by rewrite succeeds_nofail. Qed.

Lemma get_owner_nofail alock st :
  outcomes st = [] → ∃ lo st', nlm4_get_owner alock st = (Some lo, st') ∧ outcomes st' = [].
Proof.
  intros H. unfold nlm4_get_owner. destruct (find_owner _ _); [by eexists _, _|].
  rewrite succeeds_all_nofail by done. cbn. by eexists _, _.
Qed.

Lemma get_host_nofail name st :
  outcomes st = [] → ∃ h st', nlm4_get_host name st = (Some h, st').
Proof.
  intros H. unfold nlm4_get_host. destruct (find_host _ _); [by eexists _, _|].
  rewrite succeeds_all_nofail by done. by eexists _, _.
Qed.

Lemma get_owner_inode alock st r st' i :
  nlm4_get_owner alock st = (r, st') → ls (get_inode st' i) = ls (get_inode st i).
Proof.
  unfold nlm4_get_owner. destruct (find_owner _ _); [by intros; simplify_eq|].
  destruct (succeeds_all 3 st) as [ok st1] eqn:E. apply succeeds_all_same in E.
  intros H. rewrite <-(get_inode_same _ _ i E). destruct ok; cbn in H; by simplify_eq.
Qed.

Lemma get_set_inode_eq st i x : (i < length (inodes st))%nat → get_inode (set_inode i x st) i = x.
Proof. intros Hi. rewrite get_set_inode. by rewrite decide_True. Qed.

(** How a lock call ends: refused with a conflict, out of resources, or with the
    lock added to a list it does not conflict with. *)
Lemma nlm4_lock_inv i alock e st res st' :
  reffs_nlm4_lock i alock e st = (res, st') → nlm_ok none st → (i < length (inodes st))%nat →
  match nlm4_get_owner alock st with
  | (None, _) => res = NLM4_DENIED_NOLOCKS
  | (Some lo, st1) =>
      match reffs_lock_find_conflict (i_locks (get_inode st i)) (a_offset alock) (a_len alock) e
        (Some lo) (Some (owner_matches st1 alock)) with
      | Some c => res = NLM4_DENIED ∧ ls (get_inode st' i) = ls (get_inode st i)
      | None =>
          (outcomes st1 ≠ [] ∧ res = NLM4_DENIED_NOLOCKS) ∨
          res = NLM4_GRANTED ∧ ∃ id host ret hl linked,
            reffs_lock_add (i_locks (get_inode st i))
              (mk_lock id lo (a_offset alock) (a_len alock) e) host
              = (ret, i_locks (get_inode st' i), hl, linked)
      end
  end.
Proof.
  intros H Hok Hi. unfold reffs_nlm4_lock in H.
  destruct (nlm4_get_owner alock st) as [[lo|] st1] eqn:E1; [|by simplify_eq].
  pose proof (get_owner_inode _ _ _ _ i E1) as L1.
  apply get_owner_ok in E1 as [I1 _]; [|done]. rewrite <-I1 in Hi.
  injection L1 as L1 L1'. rewrite L1 in H.
  destruct (reffs_lock_find_conflict _ _ _ _ _ _).
  { simplify_eq. split; [done|]. unfold ls, owner_put. cbn. by f_equal. }
  destruct (succeeds st1) as [ok1 st2] eqn:E2.
  destruct ok1; cbn [negb] in H.
  2:{ simplify_eq. left. split; [|done]. intros Ho. by rewrite succeeds_nofail in E2. }
  destruct (fresh st2) as [id st3] eqn:E3.
  destruct (succeeds st3) as [ok2 st4] eqn:E4.
  assert (Hout : outcomes st1 = [] → outcomes st3 = []).
  { intros Ho. rewrite succeeds_nofail in E2 by done. unfold fresh in E3. by simplify_eq. }
  destruct ok2; cbn [negb] in H.
  2:{ simplify_eq. left. split; [|done]. intros Ho%Hout. by rewrite succeeds_nofail in E4. }
  destruct (nlm4_get_host _ _) as [host st5] eqn:E5.
  assert (S5 : same st1 st5).
  { etransitivity; [by eapply succeeds_same|]. etransitivity; [by eapply fresh_same|].
    etransitivity; [by eapply succeeds_same|]. etransitivity; [apply upd_active_same|].
    by eapply nlm4_get_host_same. }
  destruct host as [host|].
  2:{ simplify_eq. left. split; [|done]. intros Ho%Hout.
      rewrite succeeds_nofail in E4 by done. simplify_eq.
      destruct (get_host_nofail (caller_name alock) (upd_active i 1 st4)) as (? & ? & ?);
        [done|congruence]. }
  pose proof (get_inode_same _ _ i S5) as [= L5 _]. rewrite L5, L1 in H.
  destruct (reffs_lock_add _ _ _) as [[[ret locks] hl] linked] eqn:E6.
  right. pose proof (lock_add_spec _ _ _ _ _ _ _ E6) as [-> _]. cbn [Z.eqb] in H. simplify_eq.
  split; [done|]. do 5 eexists. rewrite E6. do 3 f_equal.
  unfold put_host. change (get_inode (set_hosts ?h ?s)) with (get_inode s).
  rewrite get_set_inode_eq; [done|]. by rewrite (length_same _ _ S5).
Qed.

(** The owner of a listed lock can be looked up. *)
Lemma lock_uses_pos locks l : l ∈ locks → (0 < lock_uses locks (l_owner l))%Z.
Proof.
  intros Hl. unfold lock_uses.
  assert (l ∈ filter (λ x, l_owner x = l_owner l) locks) as Hf by (by apply list_elem_of_filter).
  destruct (filter _ _) in *; [by apply not_elem_of_nil in Hf|]. cbn [length] in *. lia.
Qed.

Lemma share_uses_pos shares s : s ∈ shares → (0 < share_uses shares (s_owner s))%Z.
Proof.
  intros Hl. unfold share_uses.
  assert (s ∈ filter (λ x, s_owner x = s_owner s) shares) as Hf by (by apply list_elem_of_filter).
  destruct (filter _ _) in *; [by apply not_elem_of_nil in Hf|]. cbn [length] in *. lia.
Qed.

Lemma live_owner ext st i l :
  nlm_ok ext st → (∀ a, 0 <= ext a)%Z → l ∈ i_locks (get_inode st i) →
  ∃ clo, find (λ x, (lo_addr x =? l_owner l)%nat) (nlm4_owners st) = Some clo.
Proof.
  intros [_ [_ R] _] He Hl. destruct (R (l_owner l)) as (lo & Hlo & E).
  { pose proof (uses_ge st i (l_owner l)). pose proof (lock_uses_pos _ _ Hl).
    specialize (He (l_owner l)). unfold inode_uses, share_uses in *. lia. }
  destruct (find _ _) eqn:Hf; [by eexists|].
  apply list_elem_of_In in Hlo. pose proof (find_none _ _ Hf lo Hlo) as Hn. cbn in Hn.
  by rewrite E, Nat.eqb_refl in Hn.
Qed.

End Invariant.

End NlmCorrect.
