(* ===== verification/LockTheorems.v ===== *)
(** * What the lock manager promises

    The claims about [src/lib/fs/lock.c] and [src/lib/nlm/nlm_lock.c]: ranges,
    conflicts and removal mean what POSIX locks mean, and every sequence of NLM
    calls keeps owners apart and alive. *)

From S2P Require Import Prelude.
From S2P Require Import Locks.
From S2P Require Import LocksCorrect.
From S2P Require Import Nlm.
From S2P Require Import NlmCorrect.
Import Locks LocksCorrect Nlm NlmCorrect.

Module LockTheorems.

Definition in_bounds (alock : nlm4_lock) : Prop := wf_range (a_offset alock) (a_len alock).

Ltac wf_by_eval := unfold in_bounds, wf_lock, wf_range, UINT64_MAX; cbn; lia.

(** Two ranges that do not run past the end of the 64-bit offset space
    overlap for [reffs_lock_range_overlap] exactly when they share a byte, a zero
    length meaning "to the end of the file". *)
Theorem lock_overlap_is_common_byte off1 len1 off2 len2 :
  wf_range off1 len1 → wf_range off2 len2 →
  reffs_lock_range_overlap off1 len1 off2 len2 = true ↔
  ∃ b, (off1 <= b)%Z ∧ (len1 = 0 ∨ b < off1 + len1)%Z ∧
       (off2 <= b)%Z ∧ (len2 = 0 ∨ b < off2 + len2)%Z ∧ (b <= UINT64_MAX)%Z.
Proof.
  intros H1 H2. rewrite overlap_spec by done. setoid_rewrite in_range_spec.
  rewrite !range_end_wf by done. destruct H1 as (A1 & A2 & A3), H2 as (B1 & B2 & B3).
  split; intros (b & Hb); exists b;
    destruct (Z.eqb_spec len1 0), (Z.eqb_spec len2 0); lia.
Qed.

Lemma lock_overlap_is_common_byte_witness :
  wf_range 10 0 ∧ wf_range 3 8 ∧ reffs_lock_range_overlap 10 0 3 8 = true ∧
  ∃ b, (10 <= b)%Z ∧ (0 = 0 ∨ b < 10 + 0)%Z ∧ (3 <= b)%Z ∧ (8 = 0 ∨ b < 3 + 8)%Z ∧
       (b <= UINT64_MAX)%Z.
Proof.
  assert (W1 : wf_range 10 0) by wf_by_eval. assert (W2 : wf_range 3 8) by wf_by_eval.
  split; [done|]. split; [done|]. split; [reflexivity|].
  exact (proj1 (lock_overlap_is_common_byte 10 0 3 8 W1 W2) eq_refl).
Defined.

(** [reffs_lock_find_conflict] finds a lock exactly when some lock of another
    owner covers a byte of the requested range and one of the two is exclusive;
    an owner the caller's match function recognises counts as the caller. *)
Theorem lock_conflict_exact locks off len e o m :
  Forall wf_lock locks → wf_range off len →
  (∃ rl, reffs_lock_find_conflict locks off len e (Some o) (Some m) = Some rl) ↔
  ∃ rl b, rl ∈ locks ∧ l_owner rl ≠ o ∧ m (l_owner rl) = false ∧
    (e = true ∨ l_exclusive rl = true) ∧ covers rl b = true ∧ in_range off len b = true.
Proof.
  intros Hw Hr. rewrite list.Forall_forall in Hw.
  pose proof (find_conflict_spec locks off len e (Some o) (Some m)) as Hf.
  assert (Hor : ∀ x, (e || l_exclusive x) = true ↔ e = true ∨ l_exclusive x = true)
    by (intros; apply orb_true_iff).
  destruct (reffs_lock_find_conflict locks off len e (Some o) (Some m)) as [rl|]; split.
  - intros _. destruct Hf as (F1 & F2 & F3 & F4 & F5).
    apply overlap_spec in F3 as (b & Hb1 & Hb2); [|by apply Hw|done].
    exists rl, b. rewrite <-Hor. specialize (F5 m ltac:(done) eq_refl).
    split_and!; [done|congruence|done..].
  - intros _. by exists rl.
  - by intros [rl ?].
  - intros (rl & b & F1 & F2 & F3 & F4 & F5 & F6). exfalso. apply Hor in F4.
    specialize (Hf rl F1 F4 ltac:(congruence) ltac:(intros f _ [= <-]; done)).
    apply not_true_iff_false in Hf. apply Hf, overlap_spec; [by apply Hw|done|by exists b].
Qed.

Definition lock_a : reffs_lock := mk_lock 1 7 100 50 true.
Definition lock_b : reffs_lock := mk_lock 2 8 0 0 false.

Lemma lock_conflict_exact_witness :
  ∃ rl b, rl ∈ [lock_a] ∧ l_owner rl ≠ 8 ∧ (λ _ : nat, false) (l_owner rl) = false ∧
    (false = true ∨ l_exclusive rl = true) ∧ covers rl b = true ∧ in_range 120 10 b = true.
Proof.
  apply (lock_conflict_exact [lock_a] 120 10 false 8 (λ _, false)).
  - forall_list; wf_by_eval.
  - wf_by_eval.
  - exists lock_a. reflexivity.
Defined.



(** A range of length 2^64 - 1 from offset 2 on overlaps nothing that starts in it. *)
Lemma wrapped_no_overlap off off2 len2 :
  (2 <= off <= off2)%Z → (off2 <= UINT64_MAX)%Z →
  reffs_lock_range_overlap off UINT64_MAX off2 len2 = false.
Proof.
  intros H1 H2. assert (E : range_end off UINT64_MAX = (off - 2)%Z).
  { unfold range_end. change (UINT64_MAX =? 0)%Z with false. cbn iota.
    assert (u64w (off + UINT64_MAX) = off - 1)%Z as ->.
    { symmetry. apply (Z.mod_unique_pos _ _ 1); unfold UINT64_MAX in *; lia. }
    rewrite u64w_small; lia. }
  unfold reffs_lock_range_overlap. rewrite E.
  destruct (Z.leb_spec off2 (off - 2)); [lia|]. by rewrite andb_false_r.
Qed.

(** A lock with the length 2^64 - 1, which NFSv4 uses for "to the end of the
    file" and which [nfs4_op_lock] passes on unchanged, ends before it starts for
    the wrapping arithmetic: an exclusive one at any offset from 2 up conflicts
    with no request of another owner that starts inside it. *)
Theorem lock_to_eof_not_exclusive id owner off off2 len2 e owner2 m :
  (2 <= off <= off2)%Z → (off2 <= UINT64_MAX)%Z →
  reffs_lock_find_conflict [mk_lock id owner off UINT64_MAX true] off2 len2 e
    (Some owner2) (Some m) = None.
Proof.
  intros H1 H2. cbn [reffs_lock_find_conflict l_offset l_len l_owner l_exclusive negb].
  rewrite andb_false_r. destruct (owner =? owner2)%nat; [done|]. destruct (m owner); [done|].
  by rewrite wrapped_no_overlap.
Qed.

Lemma lock_to_eof_not_exclusive_witness :
  (2 <= 4096 <= 8192)%Z ∧
  reffs_lock_find_conflict [mk_lock 1 7 4096 UINT64_MAX true] 8192 UINT64_MAX true
    (Some 8) (Some (λ _, false)) = None.
Proof.
  split; [lia|]. apply (lock_to_eof_not_exclusive 1 7 4096 8192 UINT64_MAX true 8 (λ _, false)).
  - lia.
  - unfold UINT64_MAX. lia.
Defined.

(** ** NLM *)

(** C10: whatever NLM calls are made and whatever allocations fail, share
    reservations of different owners never contradict each other; and if no lock or
    unlock request runs past the end of the 64-bit offsets, no byte of a file that
    one owner holds exclusively is held by another. *)
Theorem nlm_exclusion may n st i :
  rtc (nlm_step may) (nlm_init n) st →
  ((∀ alock, may alock → wf_range (a_offset alock) (a_len alock)) →
   ∀ o1 o2 e b, o1 ≠ o2 → holds (i_locks (get_inode st i)) o1 true b →
     ¬ holds (i_locks (get_inode st i)) o2 e b) ∧
  (∀ s1 s2, s1 ∈ i_shares (get_inode st i) → s2 ∈ i_shares (get_inode st i) →
     s_owner s1 ≠ s_owner s2 →
     reffs_share_conflict (s_mode s1) (s_access s1) (s_mode s2) (s_access s2) = false).
Proof.
  intros H%nlm_reachable_ok. destruct (no_inodes _ _ _ H i) as [_ X [_ _ _ C]]. split; [exact X|].
  intros s1 s2 H1 H2 Hne. apply share_conflict_spec. split; [|by apply C].
  by apply C, not_eq_sym.
Qed.

Definition alice : nlm4_lock := mk_nlm4_lock [x61] [x01] 10 0 100.
Definition bob : nlm4_lock := mk_nlm4_lock [x62] [x02] 11 50 100.

(** Alice locks, Bob is refused, Alice unlocks the middle. *)
Definition session : nlm_st :=
  snd (reffs_nlm4_unlock 0 (mk_nlm4_lock [x61] [x01] 10 20 10)
    (snd (reffs_nlm4_lock 0 bob true (snd (reffs_nlm4_lock 0 alice true (nlm_init 1)))))).

Lemma session_steps : rtc (nlm_step in_bounds) (nlm_init 1) session.
Proof.
  unfold session. eapply rtc_l; [eapply (step_lock in_bounds 0 alice true)|].
  { cbn; lia. } { wf_by_eval. } { apply surjective_pairing. }
  eapply rtc_l; [eapply (step_lock in_bounds 0 bob true)|].
  { vm_compute; lia. } { wf_by_eval. } { apply surjective_pairing. }
  apply rtc_once. eapply (step_unlock in_bounds 0 (mk_nlm4_lock [x61] [x01] 10 20 10)).
  { vm_compute; lia. } { wf_by_eval. } { apply surjective_pairing. }
Qed.

Lemma nlm_exclusion_witness :
  i_locks (get_inode session 0) = [mk_lock 1 0 0 20 true; mk_lock 3 0 30 70 true] ∧
  ∀ e, ¬ holds (i_locks (get_inode session 0)) 1 e 10.
Proof.
  split; [reflexivity|]. intros e.
  apply (proj1 (nlm_exclusion in_bounds 1 session 0 session_steps) ltac:(done) 0 1 e 10%Z); [done|].
  exists (mk_lock 1 0 0 20 true). split_and!; [by left|reflexivity..].
Defined.

(** C16: In every state that NLM calls reach, with any ranges, the owner of each lock and of each share is
    alive: it is in the owner list once, no other owner has its (svid, handle,
    caller), and its count is at least the number of its locks and shares. *)
Theorem nlm_owner_alive may n st i a :
  rtc (nlm_step may) (nlm_init n) st →
  (a ∈ map l_owner (i_locks (get_inode st i)) ∨ a ∈ map s_owner (i_shares (get_inode st i))) →
  ∃ lo, lo ∈ nlm4_owners st ∧ lo_addr lo = a ∧ (0 < uses st a <= lo_ref lo)%Z ∧
    ∀ lo', lo' ∈ nlm4_owners st → (key lo' = key lo ∨ lo_addr lo' = a) → lo' = lo.
Proof.
  intros [[O1 O2 _] [R1 R2] _]%nlm_reachable_ok Hin.
  assert (Hu : (0 < uses st a)%Z).
  { pose proof (uses_ge st i a) as Hg. unfold inode_uses in Hg.
    assert (P1 : (0 <= lock_uses (i_locks (get_inode st i)) a)%Z) by (unfold lock_uses; lia).
    assert (P2 : (0 <= share_uses (i_shares (get_inode st i)) a)%Z) by (unfold share_uses; lia).
    destruct Hin as [(l & -> & Hl)%list_elem_of_fmap|(s & -> & Hs)%list_elem_of_fmap].
    - pose proof (lock_uses_pos _ _ Hl). lia.
    - pose proof (share_uses_pos _ _ Hs). lia. }
  destruct (R2 a) as (lo & Hl & Ea); [unfold none; lia|]. exists lo. subst a.
  destruct (R1 lo Hl) as [P1 P2]. unfold none in P2. split_and!; [done|done|lia|lia|].
  intros lo' Hl' [E|E]; [by apply (NoDup_map_inj key (nlm4_owners st))
                        |by apply (NoDup_map_inj lo_addr (nlm4_owners st))].
Qed.

Lemma nlm_owner_alive_witness :
  ∃ lo, lo ∈ nlm4_owners session ∧ lo_addr lo = 0 ∧ (0 < uses session 0 <= lo_ref lo)%Z ∧
    ∀ lo', lo' ∈ nlm4_owners session → (key lo' = key lo ∨ lo_addr lo' = 0) → lo' = lo.
Proof.
  apply (nlm_owner_alive in_bounds 1 session 0 0 session_steps). left.
  change (map l_owner (i_locks (get_inode session 0))) with [0; 0]. by left.
Defined.



(** C34: When nothing runs out, [reffs_nlm4_test] answers what [reffs_nlm4_lock]
    with the same arguments would, and a denial names a lock that is in the list
    and whose owner is alive. *)
Theorem nlm_test_predicts_lock may n st i alock e :
  rtc (nlm_step may) (nlm_init n) st → (i < length (inodes st))%nat → outcomes st = [] →
  fst (fst (reffs_nlm4_test i alock e st)) = fst (reffs_nlm4_lock i alock e st) ∧
  (fst (fst (reffs_nlm4_test i alock e st)) = NLM4_DENIED →
   ∃ h l, snd (fst (reffs_nlm4_test i alock e st)) = Some h ∧
     l ∈ i_locks (get_inode st i) ∧ ho_offset h = l_offset l ∧ ho_len h = l_len l ∧
     ho_exclusive h = l_exclusive l).
Proof.
  intros H%nlm_reachable_ok Hi Hout.
  destruct (reffs_nlm4_lock i alock e st) as [res st'] eqn:Hl.
  pose proof (nlm4_lock_inv _ _ _ _ _ _ _ Hl H Hi) as Hv. unfold reffs_nlm4_test.
  destruct (get_owner_nofail alock st Hout) as (lo & st1 & E1 & Ho1). rewrite E1 in *.
  pose proof (get_owner_inode _ _ _ _ i E1) as [= L1 _]. rewrite L1.
  apply (get_owner_ok may) in E1 as (I1 & G1 & _); [|done].
  pose proof (find_conflict_spec (i_locks (get_inode st i)) (a_offset alock) (a_len alock) e
    (Some lo) (Some (owner_matches st1 alock))) as Hf.
  destruct (reffs_lock_find_conflict _ _ _ _ _ _) as [c|].
  2:{ cbn. by destruct Hv as [[? _]|[-> _]]. }
  rewrite succeeds_nofail by done. destruct Hv as [-> _]. cbn. split; [done|]. intros _.
  destruct Hf as (F1 & _). rewrite <-L1 in F1.
  destruct (live_owner _ _ _ i c G1 (λ a, ltac:(unfold one; by case_decide)) F1) as [clo Hc].
  rewrite Hc. cbn. exists (mk_holder (l_exclusive c) (lo_svid clo) (lo_oh clo) (l_offset c) (l_len c)), c.
  by rewrite <-L1.
Qed.

Lemma nlm_test_predicts_lock_witness :
  let st := snd (reffs_nlm4_lock 0 alice true (nlm_init 1)) in
  fst (fst (reffs_nlm4_test 0 bob true st)) = NLM4_DENIED ∧
  fst (fst (reffs_nlm4_test 0 bob true st)) = fst (reffs_nlm4_lock 0 bob true st).
Proof.
  cbv zeta. split; [reflexivity|]. apply (nlm_test_predicts_lock in_bounds 1).
  - apply rtc_once. eapply (step_lock in_bounds 0 alice true); [cbn; lia|wf_by_eval|apply surjective_pairing].
  - vm_compute. lia.
  - reflexivity.
Defined.

(** Exclusive locks of length 2^64 - 1 keep nobody out.  [reffs_nlm4_lock] does
    not check that a range ends within the 64-bit offsets, and such a lock from
    offset 2 on ends before it starts.  On a file whose locks are all of this kind,
    whoever holds them, an exclusive request that starts at or after their offsets
    is granted. *)
Theorem nlm_wrapped_lock_ignored may n st i alock :
  rtc (nlm_step may) (nlm_init n) st → (i < length (inodes st))%nat → outcomes st = [] →
  (a_offset alock <= UINT64_MAX)%Z →
  (∀ l, l ∈ i_locks (get_inode st i) → l_len l = UINT64_MAX ∧ (2 <= l_offset l <= a_offset alock)%Z) →
  fst (reffs_nlm4_lock i alock true st) = NLM4_GRANTED.
Proof.
  intros H%nlm_reachable_ok Hi Hout Hmax Hall.
  destruct (reffs_nlm4_lock i alock true st) as [res st'] eqn:Hl.
  pose proof (nlm4_lock_inv _ _ _ _ _ _ _ Hl H Hi) as Hv.
  destruct (get_owner_nofail alock st Hout) as (lo & st1 & E1 & Ho1). rewrite E1 in Hv.
  pose proof (find_conflict_spec (i_locks (get_inode st i)) (a_offset alock) (a_len alock) true
    (Some lo) (Some (owner_matches st1 alock))) as Hf.
  destruct (reffs_lock_find_conflict _ _ _ _ _ _) as [c|].
  - destruct Hf as (F1 & _ & F3 & _). destruct (Hall c F1) as [Hlen Hoff]. exfalso.
    rewrite Hlen in F3. by rewrite wrapped_no_overlap in F3.
  - by destruct Hv as [[? _]|[-> _]].
Qed.

(** Alice and Bob both lock from 4096 on. *)
Definition alice_eof : nlm4_lock := mk_nlm4_lock [x61] [x01] 10 4096 UINT64_MAX.
Definition bob_eof : nlm4_lock := mk_nlm4_lock [x62] [x02] 11 8192 UINT64_MAX.

Lemma nlm_wrapped_lock_ignored_witness :
  let st := snd (reffs_nlm4_lock 0 alice_eof true (nlm_init 1)) in
  fst (reffs_nlm4_lock 0 alice_eof true (nlm_init 1)) = NLM4_GRANTED ∧
  fst (reffs_nlm4_lock 0 bob_eof true st) = NLM4_GRANTED.
Proof.
  cbv zeta. split; [reflexivity|]. apply (nlm_wrapped_lock_ignored (λ _, True) 1).
  - apply rtc_once. eapply (step_lock _ 0 alice_eof true); [cbn; lia|done|apply surjective_pairing].
  - vm_compute. lia.
  - reflexivity.
  - vm_compute. discriminate.
  - intros l Hl. vm_compute in Hl. apply list_elem_of_singleton in Hl as ->. split; [reflexivity|].
    cbn. lia.
Defined.

End LockTheorems.
