(* ===== verification/Wire.v ===== *)
(** * The canonical encoding of the D1 store ([src/lib/d1store/d1_codec.c])

    A cursor over a buffer, written big-endian by the encoders and read back by
    the strict decoders.  A decoder is a function of the cursor that answers a
    value or nothing, with the cursor after it.  A present flag with its value
    is an [option]; a handle is its raw value, the only part encoded. *)

From S2P Require Import Prelude.

Module Wire.

(** ** Types ([d1_types.h]) *)

Record d1_guard := mk_guard { g_generation : Z; g_writer : Z; g_never_written : bool }.
Record d1_owner := mk_d1_owner { o_cohort : Z; o_writer : Z; o_co_id : Z }.
Record d1_opkey := mk_opkey { k_origin : list byte; k_sequence : Z; k_ordinal : Z }.
Record d1_checksum := mk_checksum { s_alg : Z; s_len : Z; s_digest : list byte }.
Record d1_objkey := mk_objkey { export_uuid : list byte; object_uuid : list byte }.

Definition D1_UUID_BYTES : nat := 16.
Definition DIGEST_SIZE : Z := 4.  (* sizeof(s->digest) *)

(** ** The cursor *)

Record d1_cursor := mk_cur { c_buf : list byte; c_cap : Z; c_len : Z; c_bad : bool }.

Definition d1_enc_init (buf : list byte) (cap : Z) : d1_cursor := mk_cur buf cap 0 false.
Definition d1_dec_init (buf : list byte) : d1_cursor :=
  mk_cur buf (Z.of_nat (length buf)) 0 false.

Definition set_bad (c : d1_cursor) : d1_cursor := mk_cur (c_buf c) (c_cap c) (c_len c) true.
Definition advance (c : d1_cursor) (n : Z) : d1_cursor :=
  mk_cur (c_buf c) (c_cap c) (c_len c + n) (c_bad c).
(** [memcpy(at, bs, n)] for a place in the buffer. *)
Definition poke (c : d1_cursor) (at_ : Z) (bs : list byte) : d1_cursor :=
  mk_cur (splice (Z.to_nat at_) bs (c_buf c)) (c_cap c) (c_len c) (c_bad c).

Definition d1_cursor_ok (c : d1_cursor) : bool := negb (c_bad c).

(** ** Encoders *)

Definition d1_enc_room (c : d1_cursor) (n : Z) : option Z * d1_cursor :=
  if c_bad c then (None, c)
  else if (c_cap c - c_len c <? n)%Z then (None, set_bad c)
  else (Some (c_len c), advance c n).

Definition d1_enc_u8 (v : Z) (c : d1_cursor) : d1_cursor :=
  match d1_enc_room c 1 with
  | (Some p, c) => poke c p [zb v]
  | (None, c) => c
  end.

Definition d1_enc_u16 (v : Z) (c : d1_cursor) : d1_cursor :=
  match d1_enc_room c 2 with
  | (Some p, c) => poke c p [zb (Z.shiftr v 8); zb v]
  | (None, c) => c
  end.

Definition d1_enc_u32 (v : Z) (c : d1_cursor) : d1_cursor :=
  match d1_enc_room c 4 with
  | (Some p, c) => poke c p [zb (Z.shiftr v 24); zb (Z.shiftr v 16); zb (Z.shiftr v 8); zb v]
  | (None, c) => c
  end.

Definition d1_enc_u64 (v : Z) (c : d1_cursor) : d1_cursor :=
  match d1_enc_room c 8 with
  | (Some p, c) => poke c p (map (λ i, zb (Z.shiftr v (56 - 8 * Z.of_nat i))) (seq 0 8))
  | (None, c) => c
  end.

Definition d1_enc_bool (v : bool) (c : d1_cursor) : d1_cursor :=
  d1_enc_u8 (if v then 1 else 0) c.

Definition d1_enc_raw (data : list byte) (c : d1_cursor) : d1_cursor :=
  match d1_enc_room c (Z.of_nat (length data)) with
  | (Some p, c) => poke c p data
  | (None, c) => c
  end.

Definition d1_enc_bytes (data : list byte) (c : d1_cursor) : d1_cursor :=
  if (UINT32_MAX <? Z.of_nat (length data))%Z then set_bad c
  else
    let c := d1_enc_u32 (Z.of_nat (length data)) c in
    d1_enc_raw data c.

Definition d1_enc_uuid (u : list byte) (c : d1_cursor) : d1_cursor := d1_enc_raw u c.

Definition d1_enc_opt_u64 (v : option Z) (c : d1_cursor) : d1_cursor :=
  match v with
  | Some v => d1_enc_u64 v (d1_enc_u8 1 c)
  | None => d1_enc_u8 0 c
  end.

Definition d1_enc_guard (g : d1_guard) (c : d1_cursor) : d1_cursor :=
  let c := d1_enc_u32 (g_generation g) c in
  let c := d1_enc_u32 (g_writer g) c in
  d1_enc_bool (g_never_written g) c.

Definition d1_enc_owner (o : d1_owner) (c : d1_cursor) : d1_cursor :=
  let c := d1_enc_u64 (o_cohort o) c in
  let c := d1_enc_u32 (o_writer o) c in
  d1_enc_u32 (o_co_id o) c.

Definition d1_enc_opkey (k : d1_opkey) (c : d1_cursor) : d1_cursor :=
  let c := d1_enc_uuid (k_origin k) c in
  let c := d1_enc_u64 (k_sequence k) c in
  d1_enc_u32 (k_ordinal k) c.

Definition d1_enc_checksum (s : d1_checksum) (c : d1_cursor) : d1_cursor :=
  if (DIGEST_SIZE <? s_len s)%Z then set_bad c
  else
    let c := d1_enc_u32 (s_alg s) c in
    d1_enc_bytes (take (Z.to_nat (s_len s)) (s_digest s)) c.

Definition d1_enc_objkey (k : d1_objkey) (c : d1_cursor) : d1_cursor :=
  let c := d1_enc_uuid (export_uuid k) c in
  d1_enc_uuid (object_uuid k) c.

(** ** Decoders *)

Definition dec (A : Type) : Type := d1_cursor → option A * d1_cursor.

#[global] Instance dec_ret : MRet dec := λ A a c, (Some a, c).
#[global] Instance dec_bind : MBind dec := λ A B f d c,
  match d c with
  | (Some a, c) => f a c
  | (None, c) => (None, c)
  end.

(** [if (!b) { c->bad = true; return false; }] and [if (!b) return false;]. *)
Definition dec_check (b : bool) : dec unit := λ c,
  if b then (Some tt, c) else (None, set_bad c).
Definition dec_require (b : bool) : dec unit := λ c,
  if b then (Some tt, c) else (None, c).

Definition d1_dec_take (n : Z) : dec (list byte) := λ c,
  if c_bad c then (None, c)
  else if (c_cap c - c_len c <? n)%Z then (None, set_bad c)
  else (Some (take (Z.to_nat n) (drop (Z.to_nat (c_len c)) (c_buf c))), advance c n).

Definition d1_dec_u8 : dec Z :=
  p ← d1_dec_take 1;
  mret (bz (rd x00 p 0)).

Definition d1_dec_u16 : dec Z :=
  p ← d1_dec_take 2;
  mret (u16w (Z.lor (Z.shiftl (bz (rd x00 p 0)) 8) (bz (rd x00 p 1)))).

Definition d1_dec_u32 : dec Z :=
  p ← d1_dec_take 4;
  mret (Z.lor (Z.lor (Z.lor (u32w (Z.shiftl (bz (rd x00 p 0)) 24))
                       (u32w (Z.shiftl (bz (rd x00 p 1)) 16)))
                (u32w (Z.shiftl (bz (rd x00 p 2)) 8)))
          (bz (rd x00 p 3))).

Definition d1_dec_u64 : dec Z :=
  p ← d1_dec_take 8;
  mret (for_range 0 8 (λ i out, Z.lor (u64w (Z.shiftl out 8)) (bz (rd x00 p i))) 0%Z).

Definition d1_dec_bool : dec bool :=
  raw ← d1_dec_u8;
  _ ← dec_check (raw <=? 1)%Z;
  mret (raw =? 1)%Z.

Definition d1_dec_raw (len : Z) : dec (list byte) := d1_dec_take len.

Definition d1_dec_bytes_ref (max : Z) : dec (list byte) :=
  n ← d1_dec_u32;
  _ ← dec_check (n <=? max)%Z;
  d1_dec_take n.

Definition d1_dec_uuid : dec (list byte) := d1_dec_raw (Z.of_nat D1_UUID_BYTES).

Definition d1_dec_opt_u32 : dec (option Z) :=
  tag ← d1_dec_u8;
  _ ← dec_check (tag <=? 1)%Z;
  if (tag =? 1)%Z then v ← d1_dec_u32; mret (Some v) else mret None.

Definition d1_dec_opt_u64 : dec (option Z) :=
  tag ← d1_dec_u8;
  _ ← dec_check (tag <=? 1)%Z;
  if (tag =? 1)%Z then v ← d1_dec_u64; mret (Some v) else mret None.

Definition d1_dec_guard : dec d1_guard :=
  generation ← d1_dec_u32;
  writer ← d1_dec_u32;
  never_written ← d1_dec_bool;
  mret (mk_guard generation writer never_written).

Definition d1_dec_owner : dec d1_owner :=
  cohort ← d1_dec_u64;
  writer ← d1_dec_u32;
  co_id ← d1_dec_u32;
  mret (mk_d1_owner cohort writer co_id).

Definition d1_dec_opkey : dec d1_opkey :=
  origin ← d1_dec_uuid;
  sequence ← d1_dec_u64;
  ordinal ← d1_dec_u32;
  mret (mk_opkey origin sequence ordinal).

(** The digest array is cleared before the bytes are copied in. *)
Definition d1_dec_checksum : dec d1_checksum :=
  alg ← d1_dec_u32;
  digest ← d1_dec_bytes_ref DIGEST_SIZE;
  mret (mk_checksum alg (Z.of_nat (length digest))
          (splice 0 digest (replicate (Z.to_nat DIGEST_SIZE) x00))).

Definition d1_dec_objkey : dec d1_objkey :=
  e ← d1_dec_uuid;
  o ← d1_dec_uuid;
  mret (mk_objkey e o).

Definition d1_dec_finished (c : d1_cursor) : bool := negb (c_bad c) && (c_len c =? c_cap c)%Z.

(** ** Counted vectors: the loop over an array of [n] elements *)

Definition enc_list {A} (e : A → d1_cursor → d1_cursor) (l : list A) (c : d1_cursor) : d1_cursor :=
  fold_left (λ c x, e x c) l c.

Fixpoint dec_list {A} (n : nat) (d : dec A) : dec (list A) :=
  match n with
  | O => mret []
  | S n => x ← d; xs ← dec_list n d; mret (x :: xs)
  end.

(** ** Checked arithmetic *)

Definition d1_add_u64 (a b : Z) : option Z :=
  if (UINT64_MAX - a <? b)%Z then None else Some (u64w (a + b)).

Definition d1_mul_u64 (a b : Z) : option Z :=
  if negb (a =? 0)%Z && (UINT64_MAX / a <? b)%Z then None else Some (u64w (a * b)).

Definition SIZE_MAX : Z := UINT64_MAX.

Definition d1_add_size (a b : Z) : option Z :=
  if (SIZE_MAX - a <? b)%Z then None else Some (u64w (a + b)).

End Wire.
