(* ===== verification/WireCorrect.v ===== *)
(** * Encoders emit bytes, decoders are exactly their inverses

    [emits f bs]: the encoder [f] appends [bs] when there is room and spoils the
    cursor otherwise.  [exact d R]: the decoder [d] answers [v] exactly when the
    unread bytes begin with an encoding of [v] in the relation [R], and leaves
    the cursor right after it.  Both compose, so a record is as good as its
    fields. *)

From S2P Require Import Prelude.
From S2P Require Import Words.
From S2P Require Import Wire.
Import Words Wire.

Module WireCorrect.

(** ** Big-endian bytes *)

Definition be_split (n : nat) (v : Z) : list byte := rev (le_split n v).
Definition be_combine (l : list byte) : Z := le_combine (rev l).

Lemma length_be_split n v : length (be_split n v) = n.
Proof. unfold be_split. by rewrite length_rev, length_le_split. Qed.

Lemma be_combine_split n v :
  (0 <= v < 256 ^ Z.of_nat n)%Z → be_combine (be_split n v) = v.
Proof.
  intros H. unfold be_combine, be_split. rewrite rev_involutive, le_combine_split.
  by apply Z.mod_small.
Qed.

Lemma be_split_combine l : be_split (length l) (be_combine l) = l.
Proof.
  unfold be_combine, be_split. rewrite <-(length_rev l), le_split_combine.
  apply rev_involutive.
Qed.

Lemma be_combine_range l : (0 <= be_combine l < 256 ^ Z.of_nat (length l))%Z.
Proof. unfold be_combine. rewrite <-length_rev. apply le_combine_range. Qed.

Lemma le_combine_app a b :
  le_combine (a ++ b) = (le_combine a + 256 ^ Z.of_nat (length a) * le_combine b)%Z.
Proof.
  induction a as [|x a IH]; [cbn; lia|]. cbn [app le_combine length]. rewrite IH.
  rewrite Nat2Z.inj_succ, Z.pow_succ_r by lia. lia.
Qed.

Lemma be_combine_snoc l b : be_combine (l ++ [b]) = (256 * be_combine l + bz b)%Z.
Proof.
  unfold be_combine. rewrite rev_app_distr. cbn [rev app le_combine]. lia.
Qed.

(** Shifting a byte in. *)
Lemma lor_shift_byte x b : (0 <= x)%Z → Z.lor (Z.shiftl x 8) (bz b) = (256 * x + bz b)%Z.
Proof.
  intros Hx. pose proof (bz_range b) as Hb.
  assert (E : Z.land (Z.shiftl x 8) (bz b) = 0%Z).
  { apply Z.bits_inj'. intros n Hn. rewrite Z.land_spec, Z.bits_0.
    destruct (Z.lt_ge_cases n 8).
    - by rewrite Z.shiftl_spec_low.
    - rewrite testbit_byte_high by lia. apply andb_false_r. }
  pose proof (Z.add_lor_land (Z.shiftl x 8) (bz b)) as H. rewrite E in H.
  rewrite Z.shiftl_mul_pow2 in H at 2 by lia. lia.
Qed.

(** The source's spellings of the big-endian bytes. *)
Lemma zb_shiftr v i : (0 <= i)%Z → zb (Z.shiftr v (8 * i)) = zb (v / 256 ^ i).
Proof.
  intros Hi. rewrite Z.shiftr_div_pow2 by lia. by rewrite (Z.pow_mul_r 2 8) by lia.
Qed.

Lemma be_split_2 v : [zb (Z.shiftr v 8); zb v] = be_split 2 v.
Proof. cbn. by rewrite Z.shiftr_div_pow2. Qed.

Lemma be_split_4 v :
  [zb (Z.shiftr v 24); zb (Z.shiftr v 16); zb (Z.shiftr v 8); zb v] = be_split 4 v.
Proof. cbn. rewrite !Z.shiftr_div_pow2, !Z.div_div by lia. reflexivity. Qed.

Lemma be_split_8 v :
  map (λ i, zb (Z.shiftr v (56 - 8 * Z.of_nat i))) (seq 0 8) = be_split 8 v.
Proof.
  cbn [map seq be_split le_split rev app]. rewrite !Z.div_div by lia.
  rewrite !Z.shiftr_div_pow2 by lia. cbn -[Z.div]. by rewrite Z.div_1_r.
Qed.

Lemma be_combine_2 l :
  length l = 2%nat →
  u16w (Z.lor (Z.shiftl (bz (rd x00 l 0)) 8) (bz (rd x00 l 1))) = be_combine l.
Proof.
  destruct l as [|a [|b [|]]]; try done. intros _. unfold rd, be_combine. cbn [nth rev app le_combine].
  pose proof (bz_range a). pose proof (bz_range b).
  rewrite lor_shift_byte, wrap_small by (unfold in_width; lia). lia.
Qed.

Lemma be_combine_4 l :
  length l = 4%nat →
  Z.lor (Z.lor (Z.lor (u32w (Z.shiftl (bz (rd x00 l 0)) 24)) (u32w (Z.shiftl (bz (rd x00 l 1)) 16)))
    (u32w (Z.shiftl (bz (rd x00 l 2)) 8))) (bz (rd x00 l 3)) = be_combine l.
Proof.
  destruct l as [|a [|b [|c [|d [|]]]]]; try done. intros _.
  unfold rd, be_combine. cbn [nth rev app le_combine].
  pose proof (bz_range a). pose proof (bz_range b). pose proof (bz_range c). pose proof (bz_range d).
  rewrite !wrap_small by (unfold in_width; rewrite Z.shiftl_mul_pow2 by lia; lia).
  change 24%Z with (8 + (8 + 8))%Z. change 16%Z with (8 + 8)%Z.
  rewrite <-!Z.shiftl_shiftl, <-!Z.shiftl_lor by lia.
  rewrite (lor_shift_byte _ b), (lor_shift_byte _ c), (lor_shift_byte _ d) by lia. lia.
Qed.

Lemma be_combine_8 l :
  length l = 8%nat →
  for_range 0 8 (λ i out, Z.lor (u64w (Z.shiftl out 8)) (bz (rd x00 l i))) 0%Z = be_combine l.
Proof.
  intros Hl. transitivity (be_combine (take 8 l)); [|by rewrite take_ge by lia].
  apply (for_range_ind (λ i out, out = be_combine (take i l)) 0 8); [done|].
  intros i out Hi ->. rewrite (take_S_r _ _ (rd x00 l i)) by (apply rd_lt; lia).
  rewrite be_combine_snoc. pose proof (be_combine_range (take i l)) as Hr.
  rewrite length_take, Nat.min_l in Hr by lia.
  assert (256 ^ Z.of_nat i <= 256 ^ 7)%Z by (apply Z.pow_le_mono_r; lia).
  rewrite wrap_small, lor_shift_byte; try lia.
  unfold in_width. rewrite Z.shiftl_mul_pow2; lia.
Qed.

(** ** Encoders *)

Record cur_wf (c : d1_cursor) : Prop := {
  cw_len : (0 <= c_len c <= c_cap c)%Z;
  cw_cap : (c_cap c <= Z.of_nat (length (c_buf c)))%Z;
}.

Definition written (c : d1_cursor) : list byte := take (Z.to_nat (c_len c)) (c_buf c).
Definition zlen (bs : list byte) : Z := Z.of_nat (length bs).

Lemma zlen_app a b : zlen (a ++ b) = (zlen a + zlen b)%Z.
Proof. unfold zlen. rewrite length_app. lia. Qed.

Lemma zlen_written c : cur_wf c → zlen (written c) = c_len c.
Proof. intros [H1 H2]. unfold zlen, written. rewrite length_take. lia. Qed.

Definition emits (f : d1_cursor → d1_cursor) (bs : list byte) : Prop :=
  ∀ c, cur_wf c →
    cur_wf (f c) ∧ c_cap (f c) = c_cap c ∧
    (c_bad c = true → c_bad (f c) = true) ∧
    (c_bad c = false →
       if decide (c_len c + zlen bs <= c_cap c)%Z
       then c_bad (f c) = false ∧ written (f c) = written c ++ bs
       else c_bad (f c) = true).

Lemma emits_seq f g a b : emits f a → emits g b → emits (λ c, g (f c)) (a ++ b).
Proof.
  intros Hf Hg c Hc. destruct (Hf c Hc) as (F1 & F2 & F3 & F4).
  destruct (Hg (f c) F1) as (G1 & G2 & G3 & G4).
  split; [done|]. split; [congruence|]. split; [auto|]. intros Hb. specialize (F4 Hb).
  rewrite zlen_app. assert (0 <= zlen b)%Z by (unfold zlen; lia).
  destruct (decide (c_len c + zlen a <= c_cap c)%Z) as [Ha|Ha].
  - destruct F4 as [F4 F5]. specialize (G4 F4).
    assert (El : c_len (f c) = (c_len c + zlen a)%Z).
    { rewrite <-!zlen_written by done. by rewrite F5, zlen_app. }
    rewrite El, F2 in G4. repeat case_decide; try lia; [|done].
    destruct G4 as [? G5]. by rewrite G5, F5, app_assoc.
  - rewrite decide_False by lia. by apply G3.
Qed.

Lemma emits_nil : emits (λ c, c) [].
Proof.
  intros c Hc. split; [done|]. split; [done|]. split; [done|]. intros Hb.
  rewrite app_nil_r. destruct Hc. rewrite decide_True by (unfold zlen; cbn; lia). done.
Qed.

Lemma emits_room bs :
  emits (λ c, match d1_enc_room c (zlen bs) with
              | (Some p, c) => poke c p bs
              | (None, c) => c
              end) bs.
Proof.
  intros c [H1 H2]. unfold d1_enc_room. assert (0 <= zlen bs)%Z by (unfold zlen; lia).
  destruct (c_bad c) eqn:Hb; [by split|].
  destruct (Z.ltb_spec (c_cap c - c_len c) (zlen bs)) as [Hn|Hn].
  { split; [by split|]. split; [done|]. split; [done|]. intros _.
    by rewrite decide_False by lia. }
  unfold poke, advance. cbn.
  assert (Hl : length (splice (Z.to_nat (c_len c)) bs (c_buf c)) = length (c_buf c))
    by (apply length_splice; unfold zlen in *; lia).
  split; [split; cbn; lia|]. split; [done|]. split; [done|]. intros _.
  rewrite decide_True by lia. split; [done|]. unfold written, splice. cbn [c_len c_buf].
  rewrite app_assoc, take_app_le, take_ge; [done|..];
    rewrite length_app, length_take; unfold zlen in *; lia.
Qed.

Lemma emits_u8 v : emits (d1_enc_u8 v) [zb v].
Proof. exact (emits_room [zb v]). Qed.

Lemma emits_u16 v : emits (d1_enc_u16 v) (be_split 2 v).
Proof. rewrite <-be_split_2. exact (emits_room [_; _]). Qed.

Lemma emits_u32 v : emits (d1_enc_u32 v) (be_split 4 v).
Proof. rewrite <-be_split_4. exact (emits_room [_; _; _; _]). Qed.

Lemma emits_u64 v : emits (d1_enc_u64 v) (be_split 8 v).
Proof. rewrite <-be_split_8. exact (emits_room (map _ (seq 0 8))). Qed.

Lemma emits_raw bs : emits (d1_enc_raw bs) bs.
Proof. exact (emits_room bs). Qed.

(** ** Decoders *)

(** The unread bytes. *)
Definition rest (c : d1_cursor) : list byte :=
  drop (Z.to_nat (c_len c)) (take (Z.to_nat (c_cap c)) (c_buf c)).

Record dec_ok (c : d1_cursor) : Prop := {
  do_wf : cur_wf c;
  do_bad : c_bad c = false;
}.

Definition exact_on {A} (d : dec A) (R : A → list byte → Prop) : Prop :=
  (∀ c v bs r, dec_ok c → R v bs → rest c = bs ++ r → d c = (Some v, advance c (zlen bs))) ∧
  (∀ c v c', dec_ok c → d c = (Some v, c') →
     ∃ bs r, R v bs ∧ rest c = bs ++ r ∧ c' = advance c (zlen bs)).

Lemma zlen_rest c : cur_wf c → zlen (rest c) = (c_cap c - c_len c)%Z.
Proof. intros [H1 H2]. unfold zlen, rest. rewrite length_drop, length_take. lia. Qed.

Lemma rest_advance c n : (0 <= n)%Z → (0 <= c_len c)%Z →
  rest (advance c n) = drop (Z.to_nat n) (rest c).
Proof.
  intros Hn Hc. unfold rest, advance. cbn [c_len c_cap c_buf]. rewrite drop_drop.
  f_equal. lia.
Qed.

Lemma advance_ok c bs r : dec_ok c → rest c = bs ++ r →
  dec_ok (advance c (zlen bs)) ∧ rest (advance c (zlen bs)) = r.
Proof.
  intros [Hw Hb] Hr. pose proof (zlen_rest _ Hw) as Hl. rewrite Hr, zlen_app in Hl.
  assert (0 <= zlen bs)%Z by (unfold zlen; lia). assert (0 <= zlen r)%Z by (unfold zlen; lia).
  destruct Hw as [H1 H2]. split.
  - constructor; [|done]. constructor; cbn; lia.
  - rewrite rest_advance, Hr by lia. unfold zlen. rewrite Nat2Z.id. by rewrite drop_app_length.
Qed.

Lemma advance_0 c : advance c 0 = c.
Proof. destruct c. unfold advance. cbn. f_equal. lia. Qed.

Lemma advance_advance c m n : advance (advance c m) n = advance c (m + n).
Proof. unfold advance. cbn. f_equal. lia. Qed.

Lemma dec_init_ok buf : dec_ok (d1_dec_init buf) ∧ rest (d1_dec_init buf) = buf.
Proof.
  split.
  - constructor; [constructor; cbn; lia|done].
  - unfold rest, d1_dec_init. cbn [c_len c_cap c_buf]. rewrite Nat2Z.id. apply firstn_all.
Qed.

Lemma exact_ret {A} (v : A) : exact_on (mret v) (λ w bs, w = v ∧ bs = []).
Proof.
  split.
  - intros c w bs r _ [-> ->] _. cbn. by rewrite advance_0.
  - intros c w c' _ [= <- <-]. exists [], (rest c). cbn. by rewrite advance_0.
Qed.

Lemma exact_bind {A B} (d : dec A) (f : A → dec B) R S :
  exact_on d R → (∀ a, exact_on (f a) (S a)) →
  exact_on (d ≫= f) (λ v bs, ∃ a b1 b2, R a b1 ∧ S a v b2 ∧ bs = b1 ++ b2).
Proof.
  intros [D1 D2] HS. split.
  - intros c v bs r Hc (a & b1 & b2 & Ha & Hv & ->) Hr. rewrite <-app_assoc in Hr.
    unfold mbind, dec_bind. rewrite (D1 c a b1 (b2 ++ r)) by done.
    destruct (advance_ok _ _ _ Hc Hr) as [Hc' Hr'].
    rewrite (proj1 (HS a) _ v b2 r) by done. by rewrite advance_advance, zlen_app.
  - intros c v c' Hc H. unfold mbind, dec_bind in H.
    destruct (d c) as [[a|] c1] eqn:E; [|done].
    destruct (D2 _ _ _ Hc E) as (b1 & r1 & Ha & Hr & ->).
    destruct (advance_ok _ _ _ Hc Hr) as [Hc' Hr'].
    destruct (proj2 (HS a) _ _ _ Hc' H) as (b2 & r2 & Hv & Hr2 & ->).
    exists (b1 ++ b2), r2. split; [by exists a, b1, b2|]. split.
    + rewrite Hr, <-app_assoc. congruence.
    + by rewrite advance_advance, zlen_app.
Qed.

Lemma exact_iff {A} (d : dec A) (R S : A → list byte → Prop) :
  exact_on d R → (∀ v bs, R v bs ↔ S v bs) → exact_on d S.
Proof.
  intros [D1 D2] H. split.
  - intros c v bs r Hc Hs. apply D1; [done|]. by apply H.
  - intros c v c' Hc E. destruct (D2 _ _ _ Hc E) as (bs & r & ? & ?). exists bs, r. by rewrite <-H.
Qed.

Lemma exact_check b : exact_on (dec_check b) (λ _ bs, b = true ∧ bs = []).
Proof.
  split.
  - intros c [] bs r _ [-> ->] _. cbn. by rewrite advance_0.
  - intros c v c' _ H. unfold dec_check in H. destruct b; [|done]. simplify_eq.
    exists [], (rest c'). cbn. by rewrite advance_0.
Qed.

Lemma exact_require b : exact_on (dec_require b) (λ _ bs, b = true ∧ bs = []).
Proof.
  split.
  - intros c [] bs r _ [-> ->] _. cbn. by rewrite advance_0.
  - intros c v c' _ H. unfold dec_require in H. destruct b; [|done]. simplify_eq.
    exists [], (rest c'). cbn. by rewrite advance_0.
Qed.

Lemma exact_take n : (0 <= n)%Z → exact_on (d1_dec_take n) (λ v bs, v = bs ∧ zlen bs = n).
Proof.
  intros Hn.
  assert (Hd : ∀ c, cur_wf c → (n <= c_cap c - c_len c)%Z →
    take (Z.to_nat n) (drop (Z.to_nat (c_len c)) (c_buf c)) = take (Z.to_nat n) (rest c)).
  { intros c [H1 H2] Hle. unfold rest. rewrite skipn_firstn_comm, take_take.
    f_equal. lia. }
  split.
  - intros c v bs r [Hw Hb] [-> Hz] Hr. pose proof (zlen_rest _ Hw) as Hl.
    rewrite Hr, zlen_app in Hl. assert (0 <= zlen r)%Z by (unfold zlen; lia).
    unfold d1_dec_take. rewrite Hb. destruct (Z.ltb_spec (c_cap c - c_len c) n); [lia|].
    rewrite Hd, Hr, <-Hz by (done || lia). unfold zlen. rewrite Nat2Z.id.
    by rewrite take_app_length.
  - intros c v c' [Hw Hb] H. unfold d1_dec_take in H. rewrite Hb in H.
    destruct (Z.ltb_spec (c_cap c - c_len c) n) as [|Hle]; [done|]. simplify_eq.
    rewrite Hd by (done || lia). exists (take (Z.to_nat n) (rest c)), (drop (Z.to_nat n) (rest c)).
    pose proof (zlen_rest _ Hw) as Hl.
    assert (zlen (take (Z.to_nat n) (rest c)) = n)
      by (unfold zlen in *; rewrite length_take; lia).
    by rewrite H, firstn_skipn.
Qed.

(** ** Codecs

    The values [P] are written as [bytes v] and those bytes alone are read back
    as [v]. *)

Class Codec {A} (e : A → d1_cursor → d1_cursor) (d : dec A) (bytes : A → list byte)
    (P : A → Prop) : Prop := {
  co_emits : ∀ v, P v → emits (e v) (bytes v);
  co_exact : exact_on d (λ v bs, P v ∧ bs = bytes v);
}.

(** A field read first, and a condition checked between fields. *)
Lemma exact_field {A B} (d : dec A) (f : A → dec B) bytes P S :
  exact_on d (λ v bs, P v ∧ bs = bytes v) → (∀ a, P a → exact_on (f a) (S a)) →
  exact_on (d ≫= f) (λ v bs, ∃ a b2, S a v b2 ∧ P a ∧ bs = bytes a ++ b2).
Proof.
  intros Hd Hf.
  apply (exact_iff _ (λ v bs, ∃ a b1 b2, (P a ∧ b1 = bytes a) ∧ (P a ∧ S a v b2) ∧ bs = b1 ++ b2)).
  - destruct Hd as [D1 D2]. split.
    + intros c v bs r Hc (a & b1 & b2 & [Pa ->] & [_ Hv] & ->) Hr. rewrite <-app_assoc in Hr.
      unfold mbind, dec_bind. rewrite (D1 c a (bytes a) (b2 ++ r)) by done.
      destruct (advance_ok _ _ _ Hc Hr) as [Hc' Hr'].
      rewrite (proj1 (Hf a Pa) _ v b2 r) by done. by rewrite advance_advance, zlen_app.
    + intros c v c' Hc H. unfold mbind, dec_bind in H.
      destruct (d c) as [[a|] c1] eqn:E; [|done].
      destruct (D2 _ _ _ Hc E) as (b1 & r1 & [Pa ->] & Hr & ->).
      destruct (advance_ok _ _ _ Hc Hr) as [Hc' Hr'].
      destruct (proj2 (Hf a Pa) _ _ _ Hc' H) as (b2 & r2 & Hv & Hr2 & ->).
      exists (bytes a ++ b2), r2. split; [by exists a, (bytes a), b2|]. split.
      * rewrite Hr, <-app_assoc. congruence.
      * by rewrite advance_advance, zlen_app.
  - intros v bs. split.
    + intros (a & b1 & b2 & [? ->] & [? ?] & ->). by exists a, b2.
    + intros (a & b2 & ? & ? & ->). by exists a, (bytes a), b2.
Qed.

Lemma exact_checked {B} b (f : unit → dec B) S :
  (b = true → exact_on (f tt) S) →
  exact_on (dec_check b ≫= f) (λ v bs, S v bs ∧ b = true).
Proof.
  intros Hf. unfold mbind, dec_bind, dec_check. destruct b.
  - apply (exact_iff _ S); [by apply Hf|]. naive_solver.
  - split; [naive_solver|done].
Qed.

Lemma exact_required {B} b (f : unit → dec B) S :
  (b = true → exact_on (f tt) S) →
  exact_on (dec_require b ≫= f) (λ v bs, S v bs ∧ b = true).
Proof.
  intros Hf. unfold mbind, dec_bind, dec_require. destruct b.
  - apply (exact_iff _ S); [by apply Hf|]. naive_solver.
  - split; [naive_solver|done].
Qed.

Ltac destruct_hyps :=
  repeat match goal with
    | H : ∃ _, _ |- _ => destruct H
    | H : _ ∧ _ |- _ => destruct H
    end.

(** The relation built from the fields is the one of the record. *)
Ltac solve_fields :=
  intros v bs; split;
  [ intros; destruct_hyps; subst; cbn; rewrite ?app_nil_r; split_and?; done
  | intros; destruct_hyps; subst; destruct v; cbn in *;
    repeat match goal with |- ∃ _, _ => eexists | |- _ ∧ _ => split end;
    try done; rewrite ?app_nil_r; done ].

(** ** Integers *)

Definition by_u8 (v : Z) : list byte := [zb v].

Lemma exact_uint n (g : list byte → Z) :
  (∀ l, length l = n → g l = be_combine l) →
  exact_on (p ← d1_dec_take (Z.of_nat n); mret (g p))
    (λ v bs, (0 <= v < 256 ^ Z.of_nat n)%Z ∧ bs = be_split n v).
Proof.
  intros Hg. eapply exact_iff.
  - eapply exact_bind; [apply exact_take; lia|]. intros a. apply exact_ret.
  - intros v bs. split.
    + intros (a & b1 & b2 & [-> Hz] & [-> ->] & ->). rewrite app_nil_r.
      assert (Hl : length b1 = n) by (unfold zlen in Hz; lia).
      rewrite Hg by done. pose proof (be_combine_range b1). rewrite Hl in *.
      split; [done|]. rewrite <-Hl. by rewrite be_split_combine.
    + intros [Hv ->]. exists (be_split n v), (be_split n v), []. unfold zlen.
      rewrite app_nil_r, length_be_split, Hg by apply length_be_split.
      by rewrite be_combine_split.
Qed.

#[export] Instance codec_u8 : Codec d1_enc_u8 d1_dec_u8 by_u8 (in_width 8).
Proof.
  constructor; [intros; apply emits_u8|]. eapply exact_iff; [apply (exact_uint 1)|].
  - intros [|a [|]]; try done. intros _. unfold rd, be_combine. cbn. lia.
  - intros v bs. unfold in_width, by_u8, be_split. cbn. lia || done.
Qed.

#[export] Instance codec_u16 : Codec d1_enc_u16 d1_dec_u16 (be_split 2) (in_width 16).
Proof. constructor; [intros; apply emits_u16|]. apply (exact_uint 2), be_combine_2. Qed.

#[export] Instance codec_u32 : Codec d1_enc_u32 d1_dec_u32 (be_split 4) (in_width 32).
Proof. constructor; [intros; apply emits_u32|]. apply (exact_uint 4), be_combine_4. Qed.

#[export] Instance codec_u64 : Codec d1_enc_u64 d1_dec_u64 (be_split 8) (in_width 64).
Proof. constructor; [intros; apply emits_u64|]. apply (exact_uint 8), be_combine_8. Qed.

(** ** The other fields *)

Definition by_bool (v : bool) : list byte := by_u8 (if v then 1 else 0).
Definition by_opt {A} (f : A → list byte) (v : option A) : list byte :=
  match v with Some v => by_u8 1 ++ f v | None => by_u8 0 end.
Definition opt_wf {A} (P : A → Prop) (v : option A) : Prop :=
  match v with Some v => P v | None => True end.
Definition by_bytes (l : list byte) : list byte := be_split 4 (zlen l) ++ l.
Definition id_bytes (l : list byte) : list byte := l.

#[global] Arguments be_split : simpl never.
#[global] Arguments by_u8 : simpl never.
#[global] Arguments by_bool : simpl never.
#[global] Arguments by_bytes : simpl never.
#[global] Arguments id_bytes : simpl never.

#[export] Instance codec_bool : Codec d1_enc_bool d1_dec_bool by_bool (λ _, True).
Proof.
  constructor.
  - intros v _. unfold d1_enc_bool. apply emits_u8.
  - eapply exact_iff.
    + eapply exact_field; [apply codec_u8|]. intros a Ha.
      apply exact_checked. intros _. apply exact_ret.
    + intros v bs. split.
      * intros (a & b2 & [[-> ->] Hc] & Ha & ->). apply Z.leb_le in Hc. unfold in_width in Ha.
        rewrite app_nil_r. split; [done|]. unfold by_bool.
        assert (a = 0 ∨ a = 1)%Z as [->| ->] by lia; done.
      * intros [_ ->]. exists (if v then 1 else 0)%Z, [].
        rewrite app_nil_r. destruct v; unfold in_width; repeat split; lia || done.
Qed.

(** An option is its tag byte and, when present, its value. *)
Lemma codec_option {A} (e : A → d1_cursor → d1_cursor) d bytes P :
  Codec e d bytes P →
  Codec (λ v c, match v with Some v => e v (d1_enc_u8 1 c) | None => d1_enc_u8 0 c end)
    (tag ← d1_dec_u8; _ ← dec_check (tag <=? 1)%Z;
     if (tag =? 1)%Z then v ← d; mret (Some v) else mret None)
    (by_opt bytes) (opt_wf P).
Proof.
  intros [E D]. constructor.
  - intros [v|] Hv; cbn [by_opt]; [|apply emits_u8].
    apply (emits_seq (d1_enc_u8 1) (e v)); [apply emits_u8|by apply E].
  - assert (Hin : ∀ a, exact_on
      (if (a =? 1)%Z then v ← d; mret (Some v) else mret None)
      (λ v bs, if (a =? 1)%Z then ∃ x, v = Some x ∧ P x ∧ bs = bytes x
               else v = None ∧ bs = [])).
    { intros a. destruct (a =? 1)%Z; [|apply exact_ret]. eapply exact_iff.
      - eapply exact_field; [exact D|]. intros x _. apply exact_ret.
      - intros v bs. split.
        + intros (x & b2 & [-> ->] & Hx & ->). rewrite app_nil_r. by exists x.
        + intros (x & -> & Hx & ->). exists x, []. by rewrite app_nil_r. }
    eapply exact_iff.
    + eapply exact_field; [apply codec_u8|]. intros a Ha. apply exact_checked. intros _.
      apply Hin.
    + intros v bs. split.
      * intros (a & b2 & [Hv Hc] & Ha & ->). apply Z.leb_le in Hc. unfold in_width in Ha.
        destruct (Z.eqb_spec a 1) as [->|].
        -- by destruct Hv as (x & -> & Hx & ->).
        -- assert (a = 0%Z) as -> by lia. destruct Hv as [-> ->]. done.
      * intros [Hv ->]. destruct v as [x|].
        -- exists 1%Z, (bytes x). cbn in *. unfold in_width. repeat split; try lia; try done.
           by exists x.
        -- exists 0%Z, []. cbn. unfold in_width. repeat split; lia || done.
Qed.

#[export] Instance codec_opt_u64 :
  Codec d1_enc_opt_u64 d1_dec_opt_u64 (by_opt (be_split 8)) (opt_wf (in_width 64)).
Proof. exact (codec_option _ _ _ _ codec_u64). Qed.

Lemma codec_raw (n : nat) :
  Codec d1_enc_raw (d1_dec_raw (Z.of_nat n)) id_bytes (λ l, length l = n).
Proof.
  constructor; [intros; apply emits_raw|]. eapply exact_iff; [apply exact_take; lia|].
  intros v bs. unfold id_bytes, zlen. naive_solver lia.
Qed.

#[export] Instance codec_uuid :
  Codec d1_enc_uuid d1_dec_uuid id_bytes (λ l, length l = D1_UUID_BYTES).
Proof. exact (codec_raw D1_UUID_BYTES). Qed.

Lemma codec_bytes (max : Z) :
  (max <= UINT32_MAX)%Z →
  Codec d1_enc_bytes (d1_dec_bytes_ref max) by_bytes (λ l, (zlen l <= max)%Z).
Proof.
  intros Hmax. constructor.
  - intros v Hv. unfold d1_enc_bytes. change (Z.of_nat (length v)) with (zlen v).
    assert (Hlt : (UINT32_MAX <? zlen v)%Z = false) by (apply Z.ltb_ge; lia).
    intros c Hc. rewrite Hlt.
    apply (emits_seq (d1_enc_u32 (zlen v)) (d1_enc_raw v)); [apply emits_u32|apply emits_raw|done].
  - eapply exact_iff.
    + eapply exact_field; [apply codec_u32|]. intros n Hn. apply exact_checked. intros _.
      apply exact_take. unfold in_width in Hn. lia.
    + intros v bs. unfold by_bytes, UINT32_MAX in *. split.
      * intros (n & b2 & [[-> Hz] Hc] & Hn & ->). apply Z.leb_le in Hc. by subst n.
      * intros [Hv ->]. exists (zlen v), v. unfold in_width. repeat split; try done.
        -- by apply Z.leb_le.
        -- unfold zlen. lia.
        -- lia.
Qed.

(** Fields in sequence. *)
Ltac emits_chain :=
  rewrite ?app_assoc;
  repeat lazymatch goal with
    | |- emits (λ c, ?g (@?f c)) (?a ++ ?b) => apply (emits_seq f g a b)
    end.

(** Read field after field. *)
Ltac exact_fields :=
  repeat (eapply exact_field; [apply co_exact|intros ? ?]);
  try apply exact_ret.

#[export] Existing Instance codec_raw.

Definition guard_wf (g : d1_guard) : Prop :=
  in_width 32 (g_generation g) ∧ in_width 32 (g_writer g).
Definition by_guard (g : d1_guard) : list byte :=
  be_split 4 (g_generation g) ++ be_split 4 (g_writer g) ++ by_bool (g_never_written g).

#[export] Instance codec_guard : Codec d1_enc_guard d1_dec_guard by_guard guard_wf.
Proof.
  constructor.
  - intros v [H1 H2]. unfold d1_enc_guard, by_guard. cbv zeta. emits_chain.
    all: by apply co_emits.
  - eapply exact_iff; [exact_fields|]. unfold guard_wf, by_guard. solve_fields.
Qed.

Definition owner_wf (o : d1_owner) : Prop :=
  in_width 64 (o_cohort o) ∧ in_width 32 (o_writer o) ∧ in_width 32 (o_co_id o).
Definition by_owner (o : d1_owner) : list byte :=
  be_split 8 (o_cohort o) ++ be_split 4 (o_writer o) ++ be_split 4 (o_co_id o).

#[export] Instance codec_owner : Codec d1_enc_owner d1_dec_owner by_owner owner_wf.
Proof.
  constructor.
  - intros v (H1 & H2 & H3). unfold d1_enc_owner, by_owner. cbv zeta. emits_chain.
    all: by apply co_emits.
  - eapply exact_iff; [exact_fields|]. unfold owner_wf, by_owner. solve_fields.
Qed.

Definition opkey_wf (k : d1_opkey) : Prop :=
  length (k_origin k) = D1_UUID_BYTES ∧ in_width 64 (k_sequence k) ∧ in_width 32 (k_ordinal k).
Definition by_opkey (k : d1_opkey) : list byte :=
  id_bytes (k_origin k) ++ be_split 8 (k_sequence k) ++ be_split 4 (k_ordinal k).

#[export] Instance codec_opkey : Codec d1_enc_opkey d1_dec_opkey by_opkey opkey_wf.
Proof.
  constructor.
  - intros v (H1 & H2 & H3). unfold d1_enc_opkey, by_opkey. cbv zeta. emits_chain.
    all: by apply co_emits.
  - eapply exact_iff; [exact_fields|]. unfold opkey_wf, by_opkey. solve_fields.
Qed.

Definition objkey_wf (k : d1_objkey) : Prop :=
  length (export_uuid k) = D1_UUID_BYTES ∧ length (object_uuid k) = D1_UUID_BYTES.
Definition by_objkey (k : d1_objkey) : list byte :=
  id_bytes (export_uuid k) ++ id_bytes (object_uuid k).

#[export] Instance codec_objkey : Codec d1_enc_objkey d1_dec_objkey by_objkey objkey_wf.
Proof.
  constructor.
  - intros v (H1 & H2). unfold d1_enc_objkey, by_objkey. cbv zeta. emits_chain.
    all: by apply co_emits.
  - eapply exact_iff; [exact_fields|]. unfold objkey_wf, by_objkey. solve_fields.
Qed.

(** The digest array past the length is zero, as the decoder leaves it. *)
Definition checksum_wf (s : d1_checksum) : Prop :=
  in_width 32 (s_alg s) ∧ (0 <= s_len s <= DIGEST_SIZE)%Z ∧
  ∃ l, zlen l = s_len s ∧ s_digest s = splice 0 l (replicate (Z.to_nat DIGEST_SIZE) x00).
Definition by_checksum (s : d1_checksum) : list byte :=
  be_split 4 (s_alg s) ++ by_bytes (take (Z.to_nat (s_len s)) (s_digest s)).

Lemma take_splice (l d : list byte) : take (length l) (splice 0 l d) = l.
Proof. unfold splice. rewrite take_0. cbn [app]. apply take_app_length. Qed.

#[export] Instance codec_checksum : Codec d1_enc_checksum d1_dec_checksum by_checksum checksum_wf.
Proof.
  assert (Hb : Codec d1_enc_bytes (d1_dec_bytes_ref DIGEST_SIZE) by_bytes
    (λ l, (zlen l <= DIGEST_SIZE)%Z)) by (by apply codec_bytes).
  constructor.
  - intros v (H1 & H2 & l & H3 & H4). unfold d1_enc_checksum, by_checksum.
    assert (Hlt : (DIGEST_SIZE <? s_len v)%Z = false) by (apply Z.ltb_ge; lia).
    assert (Hz : (zlen (take (Z.to_nat (s_len v)) (s_digest v)) <= DIGEST_SIZE)%Z)
      by (unfold zlen; rewrite length_take; lia).
    intros c Hc. rewrite Hlt. revert c Hc. cbv zeta.
    change (emits (λ c, d1_enc_bytes (take (Z.to_nat (s_len v)) (s_digest v))
      (d1_enc_u32 (s_alg v) c)) (be_split 4 (s_alg v) ++
      by_bytes (take (Z.to_nat (s_len v)) (s_digest v)))).
    emits_chain; by apply co_emits.
  - eapply exact_iff; [exact_fields|]. unfold checksum_wf, by_checksum. intros v bs. split.
    + intros (alg & b2 & (dg & b3 & [-> ->] & Hl & ->) & Ha & ->). cbn [s_alg s_len s_digest].
      change (Z.of_nat (length dg)) with (zlen dg). unfold zlen in *.
      rewrite Nat2Z.id, take_splice, app_nil_r.
      split; [|done]. split; [done|]. split; [lia|]. by exists dg.
    + intros [(H1 & H2 & l & H3 & H4) ->]. destruct v as [alg len dg]. cbn in *. subst.
      unfold zlen. rewrite Nat2Z.id, take_splice.
      exists alg, (by_bytes l). split; [|done]. exists l, []. rewrite app_nil_r.
      split; [done|]. split; [unfold zlen in *; lia|done].
Qed.

(** ** Vectors *)

Lemma emits_list {A} (e : A → d1_cursor → d1_cursor) bytes l :
  Forall (λ x, emits (e x) (bytes x)) l → emits (enc_list e l) (concat (map bytes l)).
Proof.
  induction 1 as [|x l Hx Hl IH]; [exact emits_nil|].
  exact (emits_seq (e x) (enc_list e l) (bytes x) _ Hx IH).
Qed.

Lemma exact_list {A} n (d : dec A) bytes P :
  exact_on d (λ v bs, P v ∧ bs = bytes v) →
  exact_on (dec_list n d) (λ v bs, (length v = n ∧ Forall P v) ∧ bs = concat (map bytes v)).
Proof.
  intros Hd. induction n as [|n IH]; cbn [dec_list].
  - eapply exact_iff; [apply exact_ret|]. intros v bs. split; [by intros [-> ->]|].
    intros [[Hl _] ->]. by destruct v.
  - eapply exact_iff.
    + eapply exact_field; [exact Hd|]. intros x Hx.
      eapply exact_field; [exact IH|]. intros xs Hxs. apply exact_ret.
    + intros v bs. split.
      * intros (x & b2 & (xs & b3 & [-> ->] & [Hl Hf] & ->) & Hx & ->).
        rewrite app_nil_r. cbn. split; [|done]. split; [by f_equal|by constructor].
      * intros [[Hl Hf] ->]. destruct v as [|x xs]; [done|]. apply list.Forall_cons in Hf as [Hx Hf].
        cbn in Hl. injection Hl as Hl. exists x, (concat (map bytes xs)). split; [|done].
        exists xs, []. by rewrite app_nil_r.
Qed.

End WireCorrect.
