(* ===== verification/Digest.v ===== *)
(** * CRC-32, CRC-32C and SHA-256 ([src/lib/d1store/d1_digest.c])

    32-bit words are [Z] below 2^32.  The SHA-256 context keeps the chaining
    value, the bit count, the current block and how much of it is used. *)

From S2P Require Import Prelude.
From S2P Require Import Wire.
Import Wire.

Module Digest.

(** ** Reflected CRCs *)

Definition crc_bit (poly crc : Z) : Z :=
  Z.lxor (Z.shiftr crc 1) (Z.land poly (u32w (u32w (Z.lnot (Z.land crc 1)) + 1))).

Definition crc_byte (poly crc : Z) (b : byte) : Z :=
  for_range 0 8 (λ _ crc, crc_bit poly crc) (Z.lxor crc (bz b)).

Definition d1_crc_reflected (poly : Z) (data : list byte) : Z :=
  Z.lxor (fold_left (crc_byte poly) data 0xffffffff%Z) 0xffffffff.

Definition POLY_CRC32 : Z := 0xedb88320.
Definition POLY_CRC32C : Z := 0x82f63b78.

Definition d1_crc32 (data : list byte) : Z := d1_crc_reflected POLY_CRC32 data.
Definition d1_crc32c (data : list byte) : Z := d1_crc_reflected POLY_CRC32C data.

(** ** SHA-256 *)

Record d1_sha256_ctx := mk_sha {
  sha_h : list Z;
  sha_bits : Z;
  sha_block : list byte;
  sha_used : nat;
}.

(** Four round constants, in the order of the table. *)
Definition k4 (a b c d : Z) : list Z := [a; b; c; d].

Definition d1_sha256_k : list Z :=
  k4 0x428a2f98 0x71374491 0xb5c0fbcf 0xe9b5dba5 ++
  k4 0x3956c25b 0x59f111f1 0x923f82a4 0xab1c5ed5 ++
  k4 0xd807aa98 0x12835b01 0x243185be 0x550c7dc3 ++
  k4 0x72be5d74 0x80deb1fe 0x9bdc06a7 0xc19bf174 ++
  k4 0xe49b69c1 0xefbe4786 0x0fc19dc6 0x240ca1cc ++
  k4 0x2de92c6f 0x4a7484aa 0x5cb0a9dc 0x76f988da ++
  k4 0x983e5152 0xa831c66d 0xb00327c8 0xbf597fc7 ++
  k4 0xc6e00bf3 0xd5a79147 0x06ca6351 0x14292967 ++
  k4 0x27b70a85 0x2e1b2138 0x4d2c6dfc 0x53380d13 ++
  k4 0x650a7354 0x766a0abb 0x81c2c92e 0x92722c85 ++
  k4 0xa2bfe8a1 0xa81a664b 0xc24b8b70 0xc76c51a3 ++
  k4 0xd192e819 0xd6990624 0xf40e3585 0x106aa070 ++
  k4 0x19a4c116 0x1e376c08 0x2748774c 0x34b0bcb5 ++
  k4 0x391c0cb3 0x4ed8aa4a 0x5b9cca4f 0x682e6ff3 ++
  k4 0x748f82ee 0x78a5636f 0x84c87814 0x8cc70208 ++
  k4 0x90befffa 0xa4506ceb 0xbef9a3f7 0xc67178f2.

Definition d1_ror (v n : Z) : Z := Z.lor (Z.shiftr v n) (u32w (Z.shiftl v (32 - n))).

(** The message schedule: the first sixteen words, then the recurrence. *)
Definition word_at (p : list byte) (i : nat) : Z :=
  Z.lor (Z.lor (Z.lor (Z.shiftl (bz (rd x00 p (i * 4))) 24)
                      (Z.shiftl (bz (rd x00 p (i * 4 + 1))) 16))
               (Z.shiftl (bz (rd x00 p (i * 4 + 2))) 8))
        (bz (rd x00 p (i * 4 + 3))).

Definition next_word (w : list Z) (i : nat) : Z :=
  let w15 := rd 0%Z w (i - 15) in
  let w2 := rd 0%Z w (i - 2) in
  let s0 := Z.lxor (Z.lxor (d1_ror w15 7) (d1_ror w15 18)) (Z.shiftr w15 3) in
  let s1 := Z.lxor (Z.lxor (d1_ror w2 17) (d1_ror w2 19)) (Z.shiftr w2 10) in
  u32w (u32w (u32w (rd 0%Z w (i - 16) + s0) + rd 0%Z w (i - 7)) + s1).

Definition schedule (p : list byte) : list Z :=
  for_range 16 48 (λ i w, w ++ [next_word w i]) (map (word_at p) (seq 0 16)).

(** One round on the eight working variables. *)
Definition sha_round (w : list Z) (i : nat) (v : list Z) : list Z :=
  match v with
  | [a; b; c; d; e; f; g; h] =>
      let s1 := Z.lxor (Z.lxor (d1_ror e 6) (d1_ror e 11)) (d1_ror e 25) in
      let ch := Z.lxor (Z.land e f) (Z.land (u32w (Z.lnot e)) g) in
      let t1 := u32w (u32w (u32w (u32w (h + s1) + ch) + rd 0%Z d1_sha256_k i) + rd 0%Z w i) in
      let s0 := Z.lxor (Z.lxor (d1_ror a 2) (d1_ror a 13)) (d1_ror a 22) in
      let maj := Z.lxor (Z.lxor (Z.land a b) (Z.land a c)) (Z.land b c) in
      let t2 := u32w (s0 + maj) in
      [u32w (t1 + t2); a; b; c; u32w (d + t1); e; f; g]
  | _ => v
  end.

(** The chaining value after one more block. *)
Definition d1_sha256_block (h : list Z) (p : list byte) : list Z :=
  let w := schedule p in
  let v := for_range 0 64 (sha_round w) h in
  zip_with (λ x y, u32w (x + y)) h v.

Definition sha_iv : list Z := [
  0x6a09e667; 0xbb67ae85; 0x3c6ef372; 0xa54ff53a;
  0x510e527f; 0x9b05688c; 0x1f83d9ab; 0x5be0cd19]%Z.

Definition BLOCK : nat := 64.

Definition d1_sha256_init : d1_sha256_ctx := mk_sha sha_iv 0 (replicate BLOCK x00) 0.

(** The copy loop; every turn takes at least one byte, so as many turns as
    there are bytes are enough. *)
Fixpoint absorb (fuel : nat) (ctx : d1_sha256_ctx) (p : list byte) : d1_sha256_ctx :=
  match fuel, p with
  | S fuel, _ :: _ =>
      let n := Nat.min (BLOCK - sha_used ctx) (length p) in
      let block := splice (sha_used ctx) (take n p) (sha_block ctx) in
      let used := (sha_used ctx + n)%nat in
      let ctx := if (used =? BLOCK)%nat
                 then mk_sha (d1_sha256_block (sha_h ctx) block) (sha_bits ctx) block 0
                 else mk_sha (sha_h ctx) (sha_bits ctx) block used in
      absorb fuel ctx (drop n p)
  | _, _ => ctx
  end.

Definition d1_sha256_update (ctx : d1_sha256_ctx) (data : list byte) : d1_sha256_ctx :=
  absorb (length data)
    (mk_sha (sha_h ctx) (u64w (sha_bits ctx + u64w (Z.of_nat (length data) * 8)))
       (sha_block ctx) (sha_used ctx)) data.

(** [while (ctx->used != 56) update(ctx, "\x00", 1)]: at most a block of them. *)
Fixpoint pad_zeros (fuel : nat) (ctx : d1_sha256_ctx) : d1_sha256_ctx :=
  match fuel with
  | O => ctx
  | S fuel =>
      if (sha_used ctx =? 56)%nat then ctx else pad_zeros fuel (d1_sha256_update ctx [x00])
  end.

Definition be_bytes (n : nat) (v : Z) : list byte :=
  map (λ i, zb (Z.shiftr v (8 * Z.of_nat (n - 1 - i)))) (seq 0 n).

Definition d1_sha256_final (ctx : d1_sha256_ctx) : list byte :=
  let bits := sha_bits ctx in
  let ctx := d1_sha256_update ctx [x80] in
  let ctx := pad_zeros BLOCK ctx in
  let ctx := d1_sha256_update ctx (be_bytes 8 bits) in
  concat (map (be_bytes 4) (sha_h ctx)).

Definition d1_sha256 (data : list byte) : list byte :=
  d1_sha256_final (d1_sha256_update d1_sha256_init data).

(** The ASCII bytes of ["FFV2-D1-REQ-v1"], without a terminator. *)
Definition D1_DIGEST_DOMAIN : list byte :=
  [x46; x46; x56; x32; x2d; x44; x31; x2d; x52; x45; x51; x2d; x76; x31].

Definition d1_request_digest (data : list byte) : list byte :=
  d1_sha256_final (d1_sha256_update (d1_sha256_update d1_sha256_init D1_DIGEST_DOMAIN) data).

(** ** Payload checksums *)

Definition d1_checksum_compute (alg : Z) (data : list byte) : option d1_checksum :=
  match (if (alg =? 1)%Z then Some (d1_crc32 data)
         else if (alg =? 2)%Z then Some (d1_crc32c data) else None) with
  | Some value => Some (mk_checksum alg DIGEST_SIZE (be_bytes 4 value))
  | None => None
  end.

Definition d1_checksum_verify (sum : d1_checksum) (data : list byte) : bool :=
  if negb (s_len sum =? DIGEST_SIZE)%Z then false
  else match d1_checksum_compute (s_alg sum) data with
       | None => false
       | Some want => bool_decide (s_digest want = s_digest sum)
       end.

End Digest.
