(* ===== verification/DigestCorrect.v ===== *)
(** * What the digests compute

    The streaming SHA-256 is the block-wise reference of FIPS 180-4 on the padded
    message, and a reflected CRC with a degree-32 polynomial changes whenever up
    to four consecutive bytes change. *)

From S2P Require Import Prelude.
From S2P Require Import Words.
From S2P Require Import Wire.
From S2P Require Import WireCorrect.
From S2P Require Import Digest.
Import Words Wire WireCorrect Digest.

Module DigestCorrect.

#[local] Opaque d1_sha256_block.

(** ** SHA-256: the reference *)

Definition blk (m : list byte) (i : nat) : list byte := take BLOCK (drop (BLOCK * i) m).

(** The chaining value after the whole blocks of [m]. *)
Definition chain (m : list byte) : list Z :=
  for_range 0 (length m / BLOCK) (λ i h, d1_sha256_block h (blk m i)) sha_iv.

(** The zero bytes that bring the length to 56 modulo 64. *)
Definition pad_len (n : nat) : nat := (BLOCK + 56 - n mod BLOCK) mod BLOCK.

Definition sha_pad (m : list byte) : list byte :=
  m ++ [x80] ++ replicate (pad_len (length m + 1)) x00 ++
  be_bytes 8 (u64w (Z.of_nat (length m) * 8)).

Definition sha_ref (m : list byte) : list byte := concat (map (be_bytes 4) (chain (sha_pad m))).

(** ** SHA-256: the streaming context *)

Record ctx_of (ctx : d1_sha256_ctx) (m : list byte) : Prop := {
  cx_h : sha_h ctx = chain m;
  cx_used : sha_used ctx = (length m mod BLOCK)%nat;
  cx_len : length (sha_block ctx) = BLOCK;
  cx_block : take (sha_used ctx) (sha_block ctx) = drop (BLOCK * (length m / BLOCK)) m;
}.

Lemma chain_app m q :
  (length m mod BLOCK + length q < BLOCK)%nat → chain (m ++ q) = chain m.
Proof.
  intros H. unfold chain. rewrite length_app.
  pose proof (Nat.div_mod_eq (length m) BLOCK) as E. unfold BLOCK in *.
  assert (Hd : ((length m + length q) / 64 = length m / 64)%nat).
  { symmetry. apply (Nat.div_unique _ _ _ (length m mod 64 + length q)); lia. }
  rewrite Hd. apply for_range_ext. intros i h Hi. apply (f_equal (d1_sha256_block h)).
  unfold blk, BLOCK.
  rewrite drop_app_le, take_app_le; [done|..]; rewrite ?length_drop; lia.
Qed.

(** Adding less than a block, and completing one. *)
Lemma ctx_of_part ctx m q :
  ctx_of ctx m → (sha_used ctx + length q < BLOCK)%nat →
  ctx_of (mk_sha (sha_h ctx) (sha_bits ctx) (splice (sha_used ctx) q (sha_block ctx))
            (sha_used ctx + length q)) (m ++ q).
Proof.
  intros [H1 H2 H3 H4] Hlt. rewrite H2 in *.
  pose proof (Nat.div_mod_eq (length m) BLOCK) as E. unfold BLOCK in *.
  assert (Hd : ((length m + length q) / 64 = length m / 64)%nat).
  { symmetry. apply (Nat.div_unique _ _ _ (length m mod 64 + length q)); lia. }
  assert (Hm : ((length m + length q) mod 64 = length m mod 64 + length q)%nat).
  { symmetry. apply (Nat.mod_unique _ _ (length m / 64)); lia. }
  constructor; cbn [sha_h sha_used sha_block]; rewrite ?length_app; unfold BLOCK.
  - by rewrite chain_app.
  - by rewrite Hm.
  - rewrite length_splice; [done|]. lia.
  - rewrite Hd, drop_app_le, <-H4 by lia. unfold splice.
    rewrite app_assoc, take_app_le, take_ge; [done|..]; rewrite length_app, length_take; lia.
Qed.

Lemma ctx_of_whole ctx m q :
  ctx_of ctx m → (sha_used ctx + length q = BLOCK)%nat →
  let block := splice (sha_used ctx) q (sha_block ctx) in
  ctx_of (mk_sha (d1_sha256_block (sha_h ctx) block) (sha_bits ctx) block 0) (m ++ q).
Proof.
  intros [H1 H2 H3 H4] Heq block. rewrite H2 in *.
  pose proof (Nat.div_mod_eq (length m) BLOCK) as E. unfold BLOCK in *.
  assert (Hl : length (m ++ q) = (64 * (length m / 64 + 1))%nat) by (rewrite length_app; lia).
  assert (Hd : (length (m ++ q) / 64 = S (length m / 64))%nat)
    by (rewrite Hl, Nat.mul_comm, Nat.div_mul by lia; lia).
  assert (Hb : block = blk (m ++ q) (length m / 64)).
  { unfold block, blk, splice, BLOCK. rewrite H2, H4.
    rewrite (drop_ge (sha_block ctx)), app_nil_r by lia.
    rewrite drop_app_le, take_ge; [done|..]; rewrite ?length_app, ?length_drop; lia. }
  constructor; cbn [sha_h sha_used sha_block]; unfold BLOCK.
  - unfold chain, BLOCK. rewrite Hd, for_range_S, H1. cbn [Nat.add].
    rewrite Hb. apply (f_equal (λ h, d1_sha256_block h _)). unfold chain, BLOCK.
    apply for_range_ext. intros i h Hi. apply (f_equal (d1_sha256_block h)).
    unfold blk, BLOCK. rewrite drop_app_le, take_app_le; [done|..]; rewrite ?length_drop; lia.
  - by rewrite Hl, Nat.mul_comm, Nat.Div0.mod_mul.
  - unfold block. rewrite H2, length_splice; [done|]. lia.
  - rewrite Hd, drop_ge; [done|]. lia.
Qed.

Lemma used_lt ctx m : ctx_of ctx m → (sha_used ctx < BLOCK)%nat.
Proof. intros [_ -> _ _]. apply Nat.mod_upper_bound. done. Qed.

Lemma absorb_ok fuel ctx p m :
  ctx_of ctx m → (length p <= fuel)%nat →
  ctx_of (absorb fuel ctx p) (m ++ p) ∧ sha_bits (absorb fuel ctx p) = sha_bits ctx.
Proof.
  revert ctx p m. induction fuel as [|fuel IH]; intros ctx p m Hc Hp.
  { destruct p; [|cbn in Hp; lia]. cbn. by rewrite app_nil_r. }
  destruct p as [|b p']; [cbn; by rewrite app_nil_r|]. set (p := b :: p') in *.
  pose proof (used_lt _ _ Hc) as Hu. cbn [absorb]. fold p.
  set (n := Nat.min (BLOCK - sha_used ctx) (length p)).
  assert (Hp1 : (1 <= length p)%nat) by (unfold p; cbn; lia).
  assert (Hn : (1 <= n <= BLOCK - sha_used ctx ∧ n <= length p)%nat) by (unfold n; lia).
  assert (Hq : length (take n p) = n) by (rewrite length_take; lia).
  assert (m ++ p = (m ++ take n p) ++ drop n p) as -> by (by rewrite <-app_assoc, take_drop).
  destruct (Nat.eqb_spec (sha_used ctx + n) BLOCK) as [E|E].
  - pose proof (ctx_of_whole ctx m (take n p) Hc ltac:(lia)) as H1. cbv zeta in H1.
    apply (IH _ _ _ H1). rewrite length_drop. lia.
  - pose proof (ctx_of_part ctx m (take n p) Hc ltac:(lia)) as H1. rewrite Hq in H1.
    apply (IH _ _ _ H1). rewrite length_drop. lia.
Qed.

Lemma ctx_of_bits ctx m b :
  ctx_of ctx m → ctx_of (mk_sha (sha_h ctx) b (sha_block ctx) (sha_used ctx)) m.
Proof. intros [H1 H2 H3 H4]. by constructor. Qed.

Lemma update_ok ctx m d :
  ctx_of ctx m → sha_bits ctx = u64w (Z.of_nat (length m) * 8) →
  ctx_of (d1_sha256_update ctx d) (m ++ d) ∧
  sha_bits (d1_sha256_update ctx d) = u64w (Z.of_nat (length (m ++ d)) * 8).
Proof.
  intros Hc Hb. unfold d1_sha256_update.
  destruct (absorb_ok (length d) _ d m (ctx_of_bits ctx m (u64w (sha_bits ctx +
    u64w (Z.of_nat (length d) * 8))) Hc)) as [H1 H2]; [done|].
  split; [exact H1|]. rewrite H2. cbn [sha_bits]. rewrite Hb, length_app. unfold wrap.
  rewrite <-Z.add_mod by lia. f_equal. lia.
Qed.

Lemma init_ok : ctx_of d1_sha256_init [] ∧ sha_bits d1_sha256_init = 0%Z.
Proof. split; [|done]. by constructor. Qed.

(** The zero bytes still to come. *)
Lemma pad_len_step n : (n mod BLOCK ≠ 56)%nat → pad_len n = S (pad_len (n + 1)).
Proof.
  intros Hn. unfold pad_len, BLOCK in *. rewrite (Nat.Div0.add_mod n 1).
  pose proof (Nat.mod_upper_bound n 64 ltac:(done)) as Hu. change (1 mod 64)%nat with 1%nat.
  destruct (decide (n mod 64 = 63)%nat) as [->|]; [done|].
  rewrite (Nat.mod_small (n mod 64 + 1) 64) by lia.
  destruct (decide (n mod 64 < 56)%nat).
  - assert (64 + 56 - n mod 64 = 56 - n mod 64 + 1 * 64)%nat as -> by lia.
    assert (64 + 56 - (n mod 64 + 1) = 55 - n mod 64 + 1 * 64)%nat as -> by lia.
    rewrite !Nat.Div0.mod_add, (Nat.mod_small (56 - n mod 64)), (Nat.mod_small (55 - n mod 64)) by lia.
    lia.
  - rewrite (Nat.mod_small (64 + 56 - n mod 64)), (Nat.mod_small (64 + 56 - (n mod 64 + 1))) by lia.
    lia.
Qed.

Lemma pad_len_56 n : (n mod BLOCK = 56)%nat → pad_len n = 0%nat.
Proof. intros H. unfold pad_len. by rewrite H. Qed.

Lemma pad_zeros_ok fuel ctx m :
  ctx_of ctx m → sha_bits ctx = u64w (Z.of_nat (length m) * 8) →
  (pad_len (length m) < fuel)%nat →
  ctx_of (pad_zeros fuel ctx) (m ++ replicate (pad_len (length m)) x00) ∧
  sha_bits (pad_zeros fuel ctx) =
    u64w (Z.of_nat (length (m ++ replicate (pad_len (length m)) x00)) * 8).
Proof.
  revert ctx m. induction fuel as [|fuel IH]; intros ctx m Hc Hb Hf; [lia|].
  cbn [pad_zeros]. destruct (Nat.eqb_spec (sha_used ctx) 56) as [E|E].
  - rewrite (cx_used _ _ Hc) in E. rewrite pad_len_56 by done. cbn. by rewrite app_nil_r.
  - rewrite (cx_used _ _ Hc) in E. rewrite pad_len_step in * by done. cbn [replicate].
    destruct (update_ok ctx m [x00] Hc Hb) as [H1 H2].
    destruct (IH _ _ H1 H2) as [H3 H4].
    { rewrite length_app. cbn [length]. lia. }
    assert (E2 : (m ++ [x00]) ++ replicate (pad_len (length (m ++ [x00]))) x00
      = m ++ x00 :: replicate (pad_len (length m + 1)) x00) by (by rewrite <-app_assoc, length_app).
    rewrite E2 in H3, H4. done.
Qed.

Lemma pad_len_lt n : (pad_len n < BLOCK)%nat.
Proof. apply Nat.mod_upper_bound. done. Qed.

(** The code computes the reference. *)
Lemma final_ok ctx m :
  ctx_of ctx m → sha_bits ctx = u64w (Z.of_nat (length m) * 8) →
  d1_sha256_final ctx = sha_ref m.
Proof.
  intros Hc Hb. unfold d1_sha256_final, sha_ref, sha_pad. cbv zeta. rewrite Hb.
  destruct (update_ok ctx m [x80] Hc Hb) as [H1 B1].
  destruct (pad_zeros_ok BLOCK _ _ H1 B1 (pad_len_lt _)) as [H2 B2].
  destruct (update_ok _ _ (be_bytes 8 (u64w (Z.of_nat (length m) * 8))) H2 B2) as [H3 _].
  rewrite (cx_h _ _ H3). f_equal. f_equal. f_equal. rewrite <-!app_assoc. do 3 f_equal.
  rewrite length_app. done.
Qed.

Lemma sha256_ref m : d1_sha256 m = sha_ref m.
Proof.
  destruct init_ok as [H B]. destruct (update_ok _ _ m H B) as [H1 B1].
  unfold d1_sha256. by apply final_ok.
Qed.

Lemma request_digest_ref m : d1_request_digest m = sha_ref (D1_DIGEST_DOMAIN ++ m).
Proof.
  destruct init_ok as [H B]. destruct (update_ok _ _ D1_DIGEST_DOMAIN H B) as [H1 B1].
  destruct (update_ok _ _ m H1 B1) as [H2 B2]. unfold d1_request_digest. by apply final_ok.
Qed.

(** ** Reflected CRCs *)

Lemma lxor_in_width w a b : (0 <= w)%Z → in_width w a → in_width w b → in_width w (Z.lxor a b).
Proof.
  unfold in_width. intros Hw Ha Hb.
  assert (Hx : (0 <= Z.lxor a b)%Z) by (apply Z.lxor_nonneg; lia). split; [done|].
  apply Z.nle_gt. intros H. assert (Hs : Z.shiftr (Z.lxor a b) w = 0%Z).
  { rewrite Z.shiftr_lxor, !Z.shiftr_div_pow2 by lia. by rewrite !Z.div_small by lia. }
  rewrite Z.shiftr_div_pow2 in Hs by lia.
  apply (Z.div_le_mono _ _ (2 ^ w)) in H; [|lia]. rewrite Hs, Z.div_same in H by lia. done.
Qed.

Lemma for_range_iter {S} n (f : S → S) s : for_range 0 n (λ _ s, f s) s = Nat.iter n f s.
Proof. induction n as [|n IH]; [done|]. rewrite for_range_S, IH. done. Qed.

Section Crc.
Context (poly : Z).
Hypothesis Hpoly : (2 ^ 31 <= poly < 2 ^ 32)%Z.

Lemma crc_bit_spec s :
  crc_bit poly s = Z.lxor (Z.shiftr s 1) (if Z.odd s then poly else 0).
Proof using Hpoly.
  unfold crc_bit. f_equal. change 1%Z with (Z.ones 1) at 1. rewrite Z.land_ones by lia.
  change (2 ^ 1)%Z with 2%Z. rewrite Zmod_odd. destruct (Z.odd s).
  - change (u32w (u32w (Z.lnot 1) + 1)) with (Z.ones 32). rewrite Z.land_ones by lia.
    apply Z.mod_small. lia.
  - change (u32w (u32w (Z.lnot 0) + 1)) with 0%Z. apply Z.land_0_r.
Qed.

Lemma crc_bit_range s : in_width 32 s → in_width 32 (crc_bit poly s).
Proof using Hpoly.
  intros Hs. rewrite crc_bit_spec. apply lxor_in_width; [lia|..].
  - unfold in_width in *. rewrite Z.shiftr_div_pow2 by lia.
    split; [apply Z.div_pos|apply Z.div_lt_upper_bound]; lia.
  - unfold in_width. destruct (Z.odd s); lia.
Qed.

Lemma crc_bit_lxor a b : crc_bit poly (Z.lxor a b) = Z.lxor (crc_bit poly a) (crc_bit poly b).
Proof using Hpoly.
  rewrite !crc_bit_spec, Z.shiftr_lxor, <-!Z.bit0_odd, Z.lxor_spec.
  apply Z.bits_inj'. intros n Hn. rewrite !Z.lxor_spec.
  destruct (Z.testbit a 0), (Z.testbit b 0); cbn [xorb]; rewrite ?Z.bits_0;
    destruct (Z.testbit (Z.shiftr a 1) n), (Z.testbit (Z.shiftr b 1) n), (Z.testbit poly n); done.
Qed.

(** The register only reaches zero from zero. *)
Lemma crc_bit_zero s : in_width 32 s → crc_bit poly s = 0%Z → s = 0%Z.
Proof using Hpoly.
  intros Hs H. rewrite crc_bit_spec in H. apply Z.lxor_eq in H. unfold in_width in Hs.
  rewrite Z.shiftr_div_pow2 in H by lia. change (2 ^ 1)%Z with 2%Z in H.
  pose proof (Zodd_mod s) as Ho. rewrite Zmod_odd in Ho. clear Ho.
  pose proof (Z_div_mod_eq_full s 2) as E. rewrite Zmod_odd in E.
  destruct (Z.odd s); lia.
Qed.

Lemma crc_bit_double s : (0 <= s)%Z → crc_bit poly (2 * s) = s.
Proof using Hpoly.
  intros Hs. rewrite crc_bit_spec, Z.odd_mul. cbn [Z.odd andb]. rewrite Z.lxor_0_r.
  rewrite Z.shiftr_div_pow2 by lia. change (2 ^ 1)%Z with 2%Z.
  rewrite Z.mul_comm. by apply Z.div_mul.
Qed.

Abbreviation step := (crc_bit poly).

Lemma iter_range n s : in_width 32 s → in_width 32 (Nat.iter n step s).
Proof using Hpoly. intros H. induction n; [done|]. by apply crc_bit_range. Qed.

Lemma iter_lxor n a b :
  Nat.iter n step (Z.lxor a b) = Z.lxor (Nat.iter n step a) (Nat.iter n step b).
Proof using Hpoly. induction n as [|n IH]; [done|]. by rewrite !Nat.iter_succ, IH, crc_bit_lxor. Qed.

Lemma iter_zero n s : in_width 32 s → Nat.iter n step s = 0%Z → s = 0%Z.
Proof using Hpoly.
  intros Hs. induction n as [|n IH]; [done|]. rewrite Nat.iter_succ. intros H. apply IH.
  apply crc_bit_zero; [|done]. by apply iter_range.
Qed.

Lemma iter_double n s : (0 <= s)%Z → Nat.iter n step (2 ^ Z.of_nat n * s)%Z = s.
Proof using Hpoly.
  intros Hs. revert s Hs. induction n as [|n IH]; intros s Hs; [cbn; lia|].
  rewrite Nat2Z.inj_succ, Z.pow_succ_r, Nat.iter_succ by lia.
  replace (2 * 2 ^ Z.of_nat n * s)%Z with (2 ^ Z.of_nat n * (2 * s))%Z by lia.
  rewrite IH by lia. by apply crc_bit_double.
Qed.

Definition run (s : Z) (data : list byte) : Z := fold_left (crc_byte poly) data s.

Lemma run_cons s b d : run s (b :: d) = run (crc_byte poly s b) d.
Proof using. reflexivity. Qed.

Lemma crc_byte_iter s b : crc_byte poly s b = Nat.iter 8 step (Z.lxor s (bz b)).
Proof using. apply for_range_iter. Qed.

Lemma bz_width b : in_width 32 (bz b).
Proof using. pose proof (bz_range b). unfold in_width. lia. Qed.

Lemma crc_byte_range s b : in_width 32 s → in_width 32 (crc_byte poly s b).
Proof using Hpoly.
  intros H. rewrite crc_byte_iter. apply iter_range, lxor_in_width; [lia|done|apply bz_width].
Qed.

Lemma run_range s d : in_width 32 s → in_width 32 (run s d).
Proof using Hpoly.
  revert s. induction d as [|b d IH]; intros s H; [done|]. by apply IH, crc_byte_range.
Qed.

Lemma run_lxor s t a b :
  length a = length b →
  run (Z.lxor s t) (zip_with bxor a b) = Z.lxor (run s a) (run t b).
Proof using Hpoly.
  revert s t b. induction a as [|x a IH]; intros s t [|y b] H; try done.
  cbn [zip_with]. rewrite !run_cons, <-IH by (cbn in H; lia).
  apply (f_equal (λ u, run u (zip_with bxor a b))).
  rewrite !crc_byte_iter, bz_bxor, <-iter_lxor. apply (f_equal (Nat.iter 8 step)).
  rewrite !Z.lxor_assoc. apply (f_equal (Z.lxor s)). rewrite <-!Z.lxor_assoc.
  apply (f_equal (λ u, Z.lxor u (bz y))). apply Z.lxor_comm.
Qed.

(** Zero bytes never bring the register back to zero. *)
Lemma run_zeros s n : in_width 32 s → run s (replicate n x00) = 0%Z → s = 0%Z.
Proof using Hpoly.
  revert s. induction n as [|n IH]; intros s Hs H; [done|].
  apply IH in H; [|by apply crc_byte_range]. rewrite crc_byte_iter in H.
  change (bz x00) with 0%Z in H. rewrite Z.lxor_0_r in H. by apply (iter_zero 8).
Qed.

Lemma iter_0 n : Nat.iter n step 0%Z = 0%Z.
Proof using Hpoly.
  induction n as [|n IH]; [done|]. rewrite Nat.iter_succ, IH. by rewrite crc_bit_spec.
Qed.

Lemma run_0_zeros n : run 0 (replicate n x00) = 0%Z.
Proof using Hpoly.
  induction n as [|n IH]; [done|]. change (replicate (S n) x00) with (x00 :: replicate n x00).
  rewrite run_cons, crc_byte_iter. change (Z.lxor 0 (bz x00)) with 0%Z. by rewrite iter_0.
Qed.

Lemma lxor_byte_word b x : (0 <= x)%Z → Z.lxor (bz b) (256 * x) = (bz b + 256 * x)%Z.
Proof using.
  intros Hx. symmetry. apply Z.add_nocarry_lxor. apply Z.bits_inj'. intros n Hn.
  rewrite Z.land_spec, Z.bits_0. destruct (Z.lt_ge_cases n 8).
  - replace (256 * x)%Z with (x * 2 ^ 8)%Z by lia. rewrite Z.mul_pow2_bits_low by lia.
    apply andb_false_r.
  - by rewrite testbit_byte_high.
Qed.

(** Up to four bytes are shifted in like one word. *)
Lemma run_word w s :
  (length w <= 4)%nat → in_width 32 s →
  run s w = Nat.iter (8 * length w) step (Z.lxor s (le_combine w)).
Proof using Hpoly.
  revert s. induction w as [|b w IH]; intros s Hw Hs.
  { cbn. by rewrite Z.lxor_0_r. }
  cbn [length] in Hw. rewrite run_cons, IH by (lia || by apply crc_byte_range).
  pose proof (le_combine_range w) as Hr.
  rewrite crc_byte_iter. rewrite <-(iter_double 8 (le_combine w)) at 1 by lia.
  rewrite <-iter_lxor, <-Nat.iter_add. cbn [length le_combine].
  replace (8 * length w + 8)%nat with (8 * S (length w))%nat by lia.
  apply (f_equal (Nat.iter (8 * S (length w)) step)).
  rewrite Z.lxor_assoc. apply (f_equal (Z.lxor s)). apply lxor_byte_word. lia.
Qed.

Lemma le_combine_0 w : le_combine w = 0%Z → w = replicate (length w) x00.
Proof using.
  intros H. rewrite <-(le_split_combine w), H at 1. clear H.
  induction (length w) as [|n IH]; [done|].
  cbn [le_split replicate]. by rewrite Z.div_0_l, IH.
Qed.

(** A nonzero word of up to four bytes among zeros is seen. *)
Lemma run_burst a w c :
  (length w <= 4)%nat → w ≠ replicate (length w) x00 →
  run 0 (replicate a x00 ++ w ++ replicate c x00) ≠ 0%Z.
Proof using Hpoly.
  intros Hl Hne H. apply Hne, le_combine_0. unfold run in H. rewrite !fold_left_app in H.
  fold (run 0 (replicate a x00)) in H. rewrite run_0_zeros in H. fold (run 0 w) in H.
  fold (run (run 0 w) (replicate c x00)) in H.
  assert (H0 : in_width 32 0) by (unfold in_width; lia).
  apply run_zeros in H; [|by apply run_range].
  rewrite run_word in H by done. rewrite Z.lxor_0_l in H.
  apply (iter_zero _ _) in H; [done|]. pose proof (le_combine_range w).
  assert (256 ^ Z.of_nat (length w) <= 256 ^ 4)%Z by (apply Z.pow_le_mono_r; lia).
  unfold in_width. change (2 ^ 32)%Z with (256 ^ 4)%Z. lia.
Qed.

(** Two strings that differ, and only inside a window of four bytes, have
    different checksums. *)
Lemma crc_burst pre w w' post :
  length w = length w' → (length w <= 4)%nat → w ≠ w' →
  d1_crc_reflected poly (pre ++ w ++ post) ≠ d1_crc_reflected poly (pre ++ w' ++ post).
Proof using Hpoly.
  intros Hl H4 Hne H. unfold d1_crc_reflected in H.
  assert (E : run 0xffffffff (pre ++ w ++ post) = run 0xffffffff (pre ++ w' ++ post)).
  { apply (f_equal (λ x, Z.lxor x 0xffffffff)) in H. by rewrite !Z.lxor_assoc, Z.lxor_nilpotent,
      !Z.lxor_0_r in H. }
  clear H. assert (Hx : run 0 (zip_with bxor (pre ++ w ++ post) (pre ++ w' ++ post)) = 0%Z).
  { rewrite <-(Z.lxor_nilpotent 0xffffffff), run_lxor by (rewrite !length_app; lia).
    rewrite E. apply Z.lxor_nilpotent. }
  assert (Hz : ∀ l, zip_with bxor l l = replicate (length l) x00).
  { induction l as [|x l IH]; [done|]. cbn. by rewrite IH, bxor_nilpotent. }
  rewrite !zip_with_app, !Hz in Hx by done.
  assert (Hlz : length (zip_with bxor w w') = length w) by (rewrite length_zip_with; lia).
  apply run_burst in Hx; [done|lia|]. rewrite Hlz. intros E2. apply Hne. clear -Hl E2.
  revert w' Hl E2. induction w as [|x w IH]; intros [|y w'] Hl E2; try done.
  cbn in E2. injection E2 as E3 E4. cbn in Hl. f_equal; [|apply IH; [lia|done]].
  apply (f_equal (bxor x)) in E3. by rewrite bxor_assoc, bxor_nilpotent, bxor_0_l, bxor_0_r in E3.
Qed.
End Crc.

Lemma crc32c_burst pre w w' post :
  length w = length w' → (length w <= 4)%nat → w ≠ w' →
  d1_crc32c (pre ++ w ++ post) ≠ d1_crc32c (pre ++ w' ++ post).
Proof. apply crc_burst. unfold POLY_CRC32C. lia. Qed.

Lemma crc32_burst pre w w' post :
  length w = length w' → (length w <= 4)%nat → w ≠ w' →
  d1_crc32 (pre ++ w ++ post) ≠ d1_crc32 (pre ++ w' ++ post).
Proof. apply crc_burst. unfold POLY_CRC32. lia. Qed.

Lemma crc_range poly d :
  (2 ^ 31 <= poly < 2 ^ 32)%Z → in_width 32 (d1_crc_reflected poly d).
Proof.
  intros H. apply lxor_in_width; [lia| |unfold in_width; lia].
  apply (run_range poly); unfold in_width; lia.
Qed.

Lemma crc32c_range d : in_width 32 (d1_crc32c d).
Proof. apply crc_range. unfold POLY_CRC32C. lia. Qed.

Lemma crc32_range d : in_width 32 (d1_crc32 d).
Proof. apply crc_range. unfold POLY_CRC32. lia. Qed.

(** The test vectors of FIPS 180-4 and of CRC-32C. *)
Example sha256_abc :
  be_combine (d1_sha256 [x61; x62; x63]) =
  0xba7816bf8f01cfea414140de5dae2223b00361a396177a9cb410ff61f20015ad%Z.
Proof. vm_compute. reflexivity. Qed.

Example crc32c_check :
  d1_crc32c [x31; x32; x33; x34; x35; x36; x37; x38; x39] = 0xe3069283%Z.
Proof. vm_compute. reflexivity. Qed.

(** ** Payload checksums *)

Lemma be_bytes_inj a b : in_width 32 a → in_width 32 b → be_bytes 4 a = be_bytes 4 b → a = b.
Proof.
  intros Ha Hb H. change (be_bytes 4 a) with
    [zb (Z.shiftr a 24); zb (Z.shiftr a 16); zb (Z.shiftr a 8); zb (Z.shiftr a 0)] in H.
  change (be_bytes 4 b) with
    [zb (Z.shiftr b 24); zb (Z.shiftr b 16); zb (Z.shiftr b 8); zb (Z.shiftr b 0)] in H.
  rewrite !Z.shiftr_0_r, !be_split_4 in H. apply (f_equal be_combine) in H.
  by rewrite !be_combine_split in H.
Qed.

Lemma checksum_of_data alg data s :
  d1_checksum_compute alg data = Some s → d1_checksum_verify s data = true.
Proof.
  intros H. unfold d1_checksum_verify. pose proof H as H'. unfold d1_checksum_compute in H'.
  assert (Hs : s_len s = DIGEST_SIZE ∧ s_alg s = alg) by (repeat case_match; simplify_eq; done).
  destruct Hs as [-> ->]. rewrite Z.eqb_refl, H. cbn [negb]. by apply bool_decide_eq_true.
Qed.

Lemma checksum_burst alg pre w w' post s :
  d1_checksum_compute alg (pre ++ w ++ post) = Some s →
  length w = length w' → (length w <= 4)%nat → w ≠ w' →
  d1_checksum_verify s (pre ++ w' ++ post) = false.
Proof.
  intros H Hl H4 Hne. unfold d1_checksum_verify, d1_checksum_compute in *.
  destruct (alg =? 1)%Z eqn:E1; [|destruct (alg =? 2)%Z eqn:E2; [|done]];
    injection H as <-; cbn [s_len s_alg s_digest negb]; rewrite Z.eqb_refl, ?E1, ?E2; cbn [negb];
    apply bool_decide_eq_false; cbn [s_digest]; intros H.
  - apply (crc32_burst pre w w' post); [done..|]. symmetry.
    by apply be_bytes_inj in H; [|apply crc32_range..].
  - apply (crc32c_burst pre w w' post); [done..|]. symmetry.
    by apply be_bytes_inj in H; [|apply crc32c_range..].
Qed.

End DigestCorrect.
