(* ===== verification/Envelope.v ===== *)
(** * The canonical envelope of the D1 store ([src/lib/d1store/d1_envelope.c])

    The typed requests, their encoders and decoders, and the shape test applied
    on both sides.  A counted array is the list of its elements; a payload
    pointer with its length is the list of its bytes; the body union is read
    through the member the operation selects. *)

From S2P Require Import Prelude.
From S2P Require Import Wire.
From S2P Require Import Digest.
Import Wire Digest.

Module Envelope.

(** ** Types ([d1_envelope.h], [d1_types.h]) *)

Definition D1_CHUNK_BYTES_MAX : Z := 1048576.
Definition D1_BATCH_ENTRIES_MIN : Z := 1.
Definition D1_BATCH_ENTRIES_MAX : Z := 16.
Definition D1_BATCH_PAYLOAD_MAX : Z := 4 * 1024 * 1024.
Definition D1_VERIFIER_BYTES : nat := 8.
Definition D1_CERTIFICATE_BYTES : nat := 32.

Definition D1_UNSTABLE : Z := 1.
Definition D1_DATA_SYNC : Z := 2.
Definition D1_FILE_SYNC : Z := 3.
Definition D1_CKSUM_CRC32 : Z := 1.
Definition D1_CKSUM_CRC32C : Z := 2.
Definition D1_WRITER_RESERVED_LOW : Z := 0.
Definition D1_WRITER_RESERVED_HIGH : Z := 0xffffffff.
Definition D1_REPAIR_ERROR : Z := 1.
Definition D1_REPAIR_NOPRE : Z := 2.

Definition D1_OP_WRITE_BATCH : Z := 1.
Definition D1_OP_FINALIZE_BATCH : Z := 2.
Definition D1_OP_COMMIT_BATCH : Z := 3.
Definition D1_OP_ROLLBACK_BATCH : Z := 4.
Definition D1_OP_MARK_ERROR : Z := 5.
Definition D1_OP_BEGIN_REPAIR : Z := 6.
Definition D1_OP_PREPARE_REPAIR : Z := 7.
Definition D1_OP_FINALIZE_REPAIR : Z := 8.
Definition D1_OP_COMMIT_REPAIR : Z := 9.
Definition D1_OP_ABORT_REPAIR : Z := 10.
Definition D1_OP_CLEAR_ERROR : Z := 11.
Definition D1_OP_UNLOCK : Z := 12.
Definition D1_OP_RECOVERY_ADMIT : Z := 13.
Definition D1_OP_LEASE_REAP : Z := 14.

Record d1_write_entry := mk_write_entry {
  we_index : Z;
  we_payload_id : Z;
  we_owner : d1_owner;
  we_expected : option d1_guard;
  we_payload : list byte;
  we_checksum : d1_checksum;
}.

Record d1_write_batch := mk_write_batch {
  wb_entries : list d1_write_entry;
  wb_stability : Z;
  wb_activate : bool;
}.

Record d1_lifecycle_entry := mk_lifecycle_entry {
  le_index : Z;
  le_owner : d1_owner;
  le_txn : Z;
  le_predecessor : option Z;
}.

Record d1_lifecycle_batch := mk_lifecycle_batch {
  lb_range_begin : Z;
  lb_range_end : Z;
  lb_entries : list d1_lifecycle_entry;
  lb_prior_verifier : list byte;
}.

Record d1_rollback_entry := mk_rollback_entry {
  rb_index : Z;
  rb_owner : d1_owner;
  rb_txn : Z;
  rb_visible : option Z;
  rb_predecessor : option Z;
  rb_custody : option Z;
}.

Record d1_rollback_batch := mk_rollback_batch {
  rl_range_begin : Z;
  rl_range_end : Z;
  rl_entries : list d1_rollback_entry;
}.

Record d1_repair_entry := mk_repair_entry {
  re_index : Z;
  re_mode : Z;
  re_owner : d1_owner;
  re_txn : option Z;
  re_custody : option Z;
  re_postcond : option Z;
  re_successor : option Z;
  re_predecessor : option Z;
  re_payload : option (list byte * d1_checksum);
}.

Record d1_repair_batch := mk_repair_batch {
  rp_range_begin : Z;
  rp_range_end : Z;
  rp_entries : list d1_repair_entry;
  rp_cohort : option Z;
  rp_episode : option Z;
  rp_phase : option Z;
  rp_prior_verifier : option (list byte);
  rp_certificate : option (list byte);
}.

Record d1_control_batch := mk_control_batch {
  cb_txns : list Z;
  cb_old_admission : Z;
  cb_new_admission : option Z;
  cb_read_epoch : option Z;
}.

Inductive d1_body :=
  | Body_write (w : d1_write_batch)
  | Body_lifecycle (l : d1_lifecycle_batch)
  | Body_rollback (r : d1_rollback_batch)
  | Body_control (k : d1_control_batch)
  | Body_repair (r : d1_repair_batch).

Record d1_envelope := mk_envelope {
  ev_object : d1_objkey;
  ev_admission : Z;
  ev_incarnation : Z;
  ev_key : d1_opkey;
  ev_op : Z;
  ev_body : d1_body;
}.

Definition count {A} (l : list A) : Z := Z.of_nat (length l).

(** ** Encoders and decoders of the bodies *)

Definition d1_enc_opt_guard (g : option d1_guard) (c : d1_cursor) : d1_cursor :=
  match g with
  | Some g => d1_enc_guard g (d1_enc_u8 1 c)
  | None => d1_enc_u8 0 c
  end.

Definition d1_dec_opt_guard : dec (option d1_guard) :=
  tag ← d1_dec_u8;
  _ ← dec_check (tag <=? 1)%Z;
  if (tag =? 1)%Z then g ← d1_dec_guard; mret (Some g) else mret None.

Definition enc_write_entry (e : d1_write_entry) (c : d1_cursor) : d1_cursor :=
  let c := d1_enc_u64 (we_index e) c in
  let c := d1_enc_u32 (we_payload_id e) c in
  let c := d1_enc_owner (we_owner e) c in
  let c := d1_enc_opt_guard (we_expected e) c in
  let c := d1_enc_bytes (we_payload e) c in
  d1_enc_checksum (we_checksum e) c.

Definition d1_enc_write (w : d1_write_batch) (c : d1_cursor) : d1_cursor :=
  let c := d1_enc_u32 (count (wb_entries w)) c in
  let c := enc_list enc_write_entry (wb_entries w) c in
  let c := d1_enc_u32 (wb_stability w) c in
  d1_enc_bool (wb_activate w) c.

Definition count_in_range (n : Z) : bool :=
  negb ((n <? D1_BATCH_ENTRIES_MIN)%Z || (D1_BATCH_ENTRIES_MAX <? n)%Z).

Definition dec_write_entry : dec d1_write_entry :=
  index ← d1_dec_u64;
  payload_id ← d1_dec_u32;
  owner ← d1_dec_owner;
  expected ← d1_dec_opt_guard;
  payload ← d1_dec_bytes_ref D1_CHUNK_BYTES_MAX;
  checksum ← d1_dec_checksum;
  mret (mk_write_entry index payload_id owner expected payload checksum).

(** The aggregate after one more payload; [None] past the declared limit. *)
Definition add_payload (aggregate len : Z) : option Z :=
  match d1_add_u64 aggregate len with
  | Some a => if (D1_BATCH_PAYLOAD_MAX <? a)%Z then None else Some a
  | None => None
  end.

Fixpoint dec_write_entries (n : nat) (aggregate : Z) : dec (list d1_write_entry) :=
  match n with
  | O => mret []
  | S n =>
      e ← dec_write_entry;
      let sum := add_payload aggregate (count (we_payload e)) in
      _ ← dec_check (bool_decide (is_Some sum));
      es ← dec_write_entries n (default 0%Z sum);
      mret (e :: es)
  end.

Definition d1_dec_write : dec d1_write_batch :=
  n ← d1_dec_u32;
  _ ← dec_check (count_in_range n);
  entries ← dec_write_entries (Z.to_nat n) 0;
  stability ← d1_dec_u32;
  activate ← d1_dec_bool;
  _ ← dec_check (negb ((stability <? D1_UNSTABLE)%Z || (D1_FILE_SYNC <? stability)%Z));
  mret (mk_write_batch entries stability activate).

Definition enc_lifecycle_entry (e : d1_lifecycle_entry) (c : d1_cursor) : d1_cursor :=
  let c := d1_enc_u64 (le_index e) c in
  let c := d1_enc_owner (le_owner e) c in
  let c := d1_enc_u64 (le_txn e) c in
  d1_enc_opt_u64 (le_predecessor e) c.

Definition d1_enc_lifecycle (l : d1_lifecycle_batch) (c : d1_cursor) : d1_cursor :=
  let c := d1_enc_u64 (lb_range_begin l) c in
  let c := d1_enc_u64 (lb_range_end l) c in
  let c := d1_enc_u32 (count (lb_entries l)) c in
  let c := enc_list enc_lifecycle_entry (lb_entries l) c in
  d1_enc_raw (lb_prior_verifier l) c.

Definition dec_lifecycle_entry : dec d1_lifecycle_entry :=
  index ← d1_dec_u64;
  owner ← d1_dec_owner;
  txn ← d1_dec_u64;
  predecessor ← d1_dec_opt_u64;
  mret (mk_lifecycle_entry index owner txn predecessor).

Definition d1_dec_lifecycle : dec d1_lifecycle_batch :=
  range_begin ← d1_dec_u64;
  range_end ← d1_dec_u64;
  n ← d1_dec_u32;
  _ ← dec_check (count_in_range n);
  entries ← dec_list (Z.to_nat n) dec_lifecycle_entry;
  prior_verifier ← d1_dec_raw (Z.of_nat D1_VERIFIER_BYTES);
  mret (mk_lifecycle_batch range_begin range_end entries prior_verifier).

Definition enc_rollback_entry (e : d1_rollback_entry) (c : d1_cursor) : d1_cursor :=
  let c := d1_enc_u64 (rb_index e) c in
  let c := d1_enc_owner (rb_owner e) c in
  let c := d1_enc_u64 (rb_txn e) c in
  let c := d1_enc_opt_u64 (rb_visible e) c in
  let c := d1_enc_opt_u64 (rb_predecessor e) c in
  d1_enc_opt_u64 (rb_custody e) c.

Definition d1_enc_rollback (r : d1_rollback_batch) (c : d1_cursor) : d1_cursor :=
  let c := d1_enc_u64 (rl_range_begin r) c in
  let c := d1_enc_u64 (rl_range_end r) c in
  let c := d1_enc_u32 (count (rl_entries r)) c in
  enc_list enc_rollback_entry (rl_entries r) c.

Definition dec_rollback_entry : dec d1_rollback_entry :=
  index ← d1_dec_u64;
  owner ← d1_dec_owner;
  txn ← d1_dec_u64;
  visible ← d1_dec_opt_u64;
  predecessor ← d1_dec_opt_u64;
  custody ← d1_dec_opt_u64;
  mret (mk_rollback_entry index owner txn visible predecessor custody).

Definition d1_dec_rollback : dec d1_rollback_batch :=
  range_begin ← d1_dec_u64;
  range_end ← d1_dec_u64;
  n ← d1_dec_u32;
  _ ← dec_check (count_in_range n);
  entries ← dec_list (Z.to_nat n) dec_rollback_entry;
  mret (mk_rollback_batch range_begin range_end entries).

(** A value behind a one-byte tag, spelled out at each use in the source. *)
Definition enc_tagged {A} (e : A → d1_cursor → d1_cursor) (v : option A) (c : d1_cursor)
    : d1_cursor :=
  match v with
  | Some v => e v (d1_enc_u8 1 c)
  | None => d1_enc_u8 0 c
  end.

Definition dec_tagged {A} (d : dec A) : dec (option A) :=
  tag ← d1_dec_u8;
  _ ← dec_check (tag <=? 1)%Z;
  if (tag =? 1)%Z then v ← d; mret (Some v) else mret None.

Definition enc_payload (p : list byte * d1_checksum) (c : d1_cursor) : d1_cursor :=
  let c := d1_enc_bytes (fst p) c in
  d1_enc_checksum (snd p) c.

Definition dec_payload : dec (list byte * d1_checksum) :=
  payload ← d1_dec_bytes_ref D1_CHUNK_BYTES_MAX;
  checksum ← d1_dec_checksum;
  mret (payload, checksum).

Definition enc_repair_entry (e : d1_repair_entry) (c : d1_cursor) : d1_cursor :=
  let c := d1_enc_u64 (re_index e) c in
  let c := d1_enc_u32 (re_mode e) c in
  let c := d1_enc_owner (re_owner e) c in
  let c := d1_enc_opt_u64 (re_txn e) c in
  let c := d1_enc_opt_u64 (re_custody e) c in
  let c := d1_enc_opt_u64 (re_postcond e) c in
  let c := d1_enc_opt_u64 (re_successor e) c in
  let c := d1_enc_opt_u64 (re_predecessor e) c in
  enc_tagged enc_payload (re_payload e) c.

Definition d1_enc_repair (r : d1_repair_batch) (c : d1_cursor) : d1_cursor :=
  let c := d1_enc_u64 (rp_range_begin r) c in
  let c := d1_enc_u64 (rp_range_end r) c in
  let c := d1_enc_u32 (count (rp_entries r)) c in
  let c := enc_list enc_repair_entry (rp_entries r) c in
  let c := d1_enc_opt_u64 (rp_cohort r) c in
  let c := d1_enc_opt_u64 (rp_episode r) c in
  let c := enc_tagged d1_enc_u32 (rp_phase r) c in
  let c := enc_tagged d1_enc_raw (rp_prior_verifier r) c in
  enc_tagged d1_enc_raw (rp_certificate r) c.

Definition dec_repair_entry : dec d1_repair_entry :=
  index ← d1_dec_u64;
  mode ← d1_dec_u32;
  owner ← d1_dec_owner;
  txn ← d1_dec_opt_u64;
  custody ← d1_dec_opt_u64;
  postcond ← d1_dec_opt_u64;
  successor ← d1_dec_opt_u64;
  predecessor ← d1_dec_opt_u64;
  payload ← dec_tagged dec_payload;
  mret (mk_repair_entry index mode owner txn custody postcond successor predecessor payload).

(** The bytes an entry adds to the aggregate; the sum is not touched when the
    payload is absent. *)
Definition repair_sum (aggregate : Z) (e : d1_repair_entry) : option Z :=
  match re_payload e with
  | Some (p, _) => add_payload aggregate (count p)
  | None => Some aggregate
  end.

Fixpoint dec_repair_entries (n : nat) (aggregate : Z) : dec (list d1_repair_entry) :=
  match n with
  | O => mret []
  | S n =>
      e ← dec_repair_entry;
      let sum := repair_sum aggregate e in
      _ ← dec_check (bool_decide (is_Some sum));
      es ← dec_repair_entries n (default 0%Z sum);
      mret (e :: es)
  end.

Definition d1_dec_repair : dec d1_repair_batch :=
  range_begin ← d1_dec_u64;
  range_end ← d1_dec_u64;
  n ← d1_dec_u32;
  _ ← dec_check (count_in_range n);
  entries ← dec_repair_entries (Z.to_nat n) 0;
  cohort ← d1_dec_opt_u64;
  episode ← d1_dec_opt_u64;
  phase ← dec_tagged d1_dec_u32;
  prior_verifier ← dec_tagged (d1_dec_raw (Z.of_nat D1_VERIFIER_BYTES));
  certificate ← dec_tagged (d1_dec_raw (Z.of_nat D1_CERTIFICATE_BYTES));
  mret (mk_repair_batch range_begin range_end entries cohort episode phase
          prior_verifier certificate).

Definition d1_enc_control (k : d1_control_batch) (c : d1_cursor) : d1_cursor :=
  let c := d1_enc_u32 (count (cb_txns k)) c in
  let c := enc_list d1_enc_u64 (cb_txns k) c in
  let c := d1_enc_u64 (cb_old_admission k) c in
  let c := d1_enc_opt_u64 (cb_new_admission k) c in
  d1_enc_opt_u64 (cb_read_epoch k) c.

Definition d1_dec_control : dec d1_control_batch :=
  n ← d1_dec_u32;
  _ ← dec_check (count_in_range n);
  txns ← dec_list (Z.to_nat n) d1_dec_u64;
  old_admission ← d1_dec_u64;
  new_admission ← d1_dec_opt_u64;
  read_epoch ← d1_dec_opt_u64;
  mret (mk_control_batch txns old_admission new_admission read_epoch).

(** ** The shape test *)

Definition d1_count_ok (n : Z) : bool :=
  (D1_BATCH_ENTRIES_MIN <=? n)%Z && (n <=? D1_BATCH_ENTRIES_MAX)%Z.

Definition d1_stability_ok (stability : Z) : bool :=
  (stability =? D1_UNSTABLE)%Z || (stability =? D1_DATA_SYNC)%Z || (stability =? D1_FILE_SYNC)%Z.

Definition d1_checksum_shape_ok (s : d1_checksum) : bool :=
  if negb (s_alg s =? D1_CKSUM_CRC32)%Z && negb (s_alg s =? D1_CKSUM_CRC32C)%Z then false
  else (s_len s =? 4)%Z && (s_len s <=? DIGEST_SIZE)%Z.

Definition d1_writer_ok (writer : Z) : bool :=
  negb (writer =? D1_WRITER_RESERVED_LOW)%Z && negb (writer =? D1_WRITER_RESERVED_HIGH)%Z.

(** A handle of raw value zero is the absent one. *)
Definition live (raw : Z) : bool := negb (raw =? 0)%Z.

Definition d1_owner_ok (o : d1_owner) : bool := live (o_cohort o) && d1_writer_ok (o_writer o).

(** A present option carries a live handle. *)
Definition opt_live (v : option Z) : bool := match v with Some raw => live raw | None => true end.

Definition payload_ok (p : list byte) : bool :=
  negb ((count p <? 1)%Z || (D1_CHUNK_BYTES_MAX <? count p)%Z).

(** The loops over the entries: [prior] are the entries before. *)
Fixpoint validate_write_entries (prior es : list d1_write_entry) (aggregate : Z) : bool :=
  match es with
  | [] => true
  | e :: es =>
      if negb (payload_ok (we_payload e)) then false
      else if negb (d1_checksum_shape_ok (we_checksum e)) then false
      else if negb (d1_owner_ok (we_owner e)) then false
      else match add_payload aggregate (count (we_payload e)) with
           | None => false
           | Some aggregate =>
               if existsb (λ p, (we_index p =? we_index e)%Z) prior then false
               else validate_write_entries (prior ++ [e]) es aggregate
           end
  end.

Definition d1_validate_write (w : d1_write_batch) : bool :=
  if negb (d1_count_ok (count (wb_entries w))) || negb (d1_stability_ok (wb_stability w)) then false
  else validate_write_entries [] (wb_entries w) 0.

Definition in_half_open (begin_ end_ i : Z) : bool := negb ((i <? begin_)%Z || (end_ <=? i)%Z).

Fixpoint validate_lifecycle_entries (b e_ : Z) (prior es : list d1_lifecycle_entry) : bool :=
  match es with
  | [] => true
  | e :: es =>
      if negb (in_half_open b e_ (le_index e)) then false
      else if negb (live (le_txn e)) then false
      else if negb (d1_owner_ok (le_owner e)) then false
      else if negb (opt_live (le_predecessor e)) then false
      else if existsb (λ p, (le_index p =? le_index e)%Z || (le_txn p =? le_txn e)%Z) prior
      then false
      else validate_lifecycle_entries b e_ (prior ++ [e]) es
  end.

Definition d1_validate_lifecycle (l : d1_lifecycle_batch) : bool :=
  if negb (d1_count_ok (count (lb_entries l))) || (lb_range_end l <=? lb_range_begin l)%Z then false
  else validate_lifecycle_entries (lb_range_begin l) (lb_range_end l) [] (lb_entries l).

Fixpoint validate_rollback_entries (b e_ : Z) (prior es : list d1_rollback_entry) : bool :=
  match es with
  | [] => true
  | e :: es =>
      if negb (in_half_open b e_ (rb_index e)) then false
      else if negb (live (rb_txn e)) then false
      else if negb (d1_owner_ok (rb_owner e)) then false
      else if negb (opt_live (rb_visible e)) then false
      else if negb (opt_live (rb_predecessor e)) then false
      else if negb (opt_live (rb_custody e)) then false
      else if existsb (λ p, (rb_index p =? rb_index e)%Z || (rb_txn p =? rb_txn e)%Z) prior
      then false
      else validate_rollback_entries b e_ (prior ++ [e]) es
  end.

Definition d1_validate_rollback (r : d1_rollback_batch) : bool :=
  if negb (d1_count_ok (count (rl_entries r))) || (rl_range_end r <=? rl_range_begin r)%Z then false
  else validate_rollback_entries (rl_range_begin r) (rl_range_end r) [] (rl_entries r).

Fixpoint validate_txns (prior txns : list Z) : bool :=
  match txns with
  | [] => true
  | t :: txns =>
      if negb (live t) then false
      else if existsb (λ p, (p =? t)%Z) prior then false
      else validate_txns (prior ++ [t]) txns
  end.

Definition d1_validate_control (op : Z) (k : d1_control_batch) : bool :=
  if negb (d1_count_ok (count (cb_txns k))) || negb (live (cb_old_admission k)) then false
  else if negb (validate_txns [] (cb_txns k)) then false
  else if (op =? D1_OP_RECOVERY_ADMIT)%Z then
    match cb_new_admission k with
    | None => false
    | Some n =>
        if negb (live n) then false
        else if (n =? cb_old_admission k)%Z then false
        else match cb_read_epoch k with Some _ => true | None => false end
    end
  else match cb_new_admission k, cb_read_epoch k with
       | None, None => true
       | _, _ => false
       end.

Definition d1_phase_ok (phase : Z) : bool := (1 <=? phase)%Z && (phase <=? 6)%Z.

Definition present {A} (v : option A) : bool := match v with Some _ => true | None => false end.

(** The tests on one entry of a repair vector, in the order of the source. *)
Definition repair_entry_ok (op b e_ : Z) (prior : list d1_repair_entry) (e : d1_repair_entry)
    : bool :=
  let wants_mode := (op =? D1_OP_BEGIN_REPAIR)%Z in
  let wants_custody := negb (op =? D1_OP_PREPARE_REPAIR)%Z in
  let wants_txn := (op =? D1_OP_PREPARE_REPAIR)%Z || (op =? D1_OP_FINALIZE_REPAIR)%Z
                   || (op =? D1_OP_COMMIT_REPAIR)%Z in
  let wants_state := (op =? D1_OP_MARK_ERROR)%Z || (op =? D1_OP_BEGIN_REPAIR)%Z in
  let wants_predecessor := (op =? D1_OP_FINALIZE_REPAIR)%Z || (op =? D1_OP_COMMIT_REPAIR)%Z in
  let wants_payload := (op =? D1_OP_PREPARE_REPAIR)%Z in
  if negb (in_half_open b e_ (re_index e)) then false
  else if negb (d1_owner_ok (re_owner e)) then false
  else if (if wants_mode
           then negb (re_mode e =? D1_REPAIR_ERROR)%Z && negb (re_mode e =? D1_REPAIR_NOPRE)%Z
           else negb (re_mode e =? 0)%Z) then false
  else if negb (eqb (present (re_custody e)) wants_custody) then false
  else if negb (opt_live (re_custody e)) then false
  else if negb (eqb (present (re_txn e)) wants_txn) then false
  else if negb (opt_live (re_txn e)) then false
  else if negb (eqb (present (re_postcond e)) (wants_mode && (re_mode e =? D1_REPAIR_NOPRE)%Z))
  then false
  else if negb (opt_live (re_postcond e)) then false
  else if negb (eqb (present (re_successor e)) wants_state) then false
  else if negb (opt_live (re_successor e)) then false
  else if (if wants_predecessor then negb (present (re_predecessor e))
           else negb wants_state && present (re_predecessor e)) then false
  else if negb (opt_live (re_predecessor e)) then false
  else if negb (eqb (present (re_payload e)) wants_payload) then false
  else if (match re_payload e with
           | Some (p, s) => negb (payload_ok p) || negb (d1_checksum_shape_ok s)
           | None => false
           end) then false
  else negb (existsb (λ p, (re_index p =? re_index e)%Z) prior).

Fixpoint validate_repair_entries (op b e_ : Z) (prior es : list d1_repair_entry) : bool :=
  match es with
  | [] => true
  | e :: es =>
      if negb (repair_entry_ok op b e_ prior e) then false
      else validate_repair_entries op b e_ (prior ++ [e]) es
  end.

Definition d1_validate_repair (op : Z) (r : d1_repair_batch) : bool :=
  let wants_cohort := negb (op =? D1_OP_MARK_ERROR)%Z && negb (op =? D1_OP_BEGIN_REPAIR)%Z in
  let wants_phase := (op =? D1_OP_ABORT_REPAIR)%Z in
  let wants_verifier := (op =? D1_OP_FINALIZE_REPAIR)%Z || (op =? D1_OP_COMMIT_REPAIR)%Z in
  let wants_certificate := (op =? D1_OP_CLEAR_ERROR)%Z in
  if negb (d1_count_ok (count (rp_entries r))) || (rp_range_end r <=? rp_range_begin r)%Z then false
  else
    let wants_episode := (op =? D1_OP_CLEAR_ERROR)%Z
      || (op =? D1_OP_BEGIN_REPAIR)%Z
         && existsb (λ e, (re_mode e =? D1_REPAIR_ERROR)%Z) (rp_entries r) in
    if (if (op =? D1_OP_UNLOCK)%Z then eqb (present (rp_cohort r)) (present (rp_episode r))
        else negb (eqb (present (rp_cohort r)) wants_cohort)
             || negb (eqb (present (rp_episode r)) wants_episode)) then false
    else if negb (opt_live (rp_cohort r)) then false
    else if negb (opt_live (rp_episode r)) then false
    else if negb (eqb (present (rp_certificate r)) wants_certificate) then false
    else if negb (eqb (present (rp_phase r)) wants_phase) then false
    else if (match rp_phase r with Some p => negb (d1_phase_ok p) | None => false end) then false
    else if negb (eqb (present (rp_prior_verifier r)) wants_verifier) then false
    else validate_repair_entries op (rp_range_begin r) (rp_range_end r) [] (rp_entries r).

(** ** The envelope *)

Definition d1_op_known (op : Z) : bool := (1 <=? op)%Z && (op <=? 14)%Z.

Definition d1_op_repairs (op : Z) : bool := (5 <=? op)%Z && (op <=? 12)%Z.

(** Which member of the body union an operation reads. *)
Inductive body_kind := K_write | K_lifecycle | K_rollback | K_control | K_repair.

Definition kind_of_op (op : Z) : body_kind :=
  if (op =? D1_OP_WRITE_BATCH)%Z then K_write
  else if (op =? D1_OP_FINALIZE_BATCH)%Z || (op =? D1_OP_COMMIT_BATCH)%Z then K_lifecycle
  else if (op =? D1_OP_ROLLBACK_BATCH)%Z then K_rollback
  else if (op =? D1_OP_RECOVERY_ADMIT)%Z || (op =? D1_OP_LEASE_REAP)%Z then K_control
  else K_repair.

Definition d1_envelope_validate (env : d1_envelope) : bool :=
  if negb (d1_op_known (ev_op env)) then false
  else match kind_of_op (ev_op env), ev_body env with
       | K_write, Body_write w => d1_validate_write w
       | K_lifecycle, Body_lifecycle l => d1_validate_lifecycle l
       | K_rollback, Body_rollback r => d1_validate_rollback r
       | K_control, Body_control k => d1_validate_control (ev_op env) k
       | K_repair, Body_repair r => d1_validate_repair (ev_op env) r
       | _, _ => false
       end.

Definition d1_envelope_member_count (env : d1_envelope) : Z :=
  match kind_of_op (ev_op env), ev_body env with
  | K_write, Body_write w => count (wb_entries w)
  | K_lifecycle, Body_lifecycle l => count (lb_entries l)
  | K_rollback, Body_rollback r => count (rl_entries r)
  | K_control, _ => 1
  | K_repair, _ => if d1_op_repairs (ev_op env) then 1 else 0
  | _, _ => 0
  end.

Definition enc_body (b : d1_body) (c : d1_cursor) : d1_cursor :=
  match b with
  | Body_write w => d1_enc_write w c
  | Body_lifecycle l => d1_enc_lifecycle l c
  | Body_rollback r => d1_enc_rollback r c
  | Body_control k => d1_enc_control k c
  | Body_repair r => d1_enc_repair r c
  end.

Definition dec_body (op : Z) : dec d1_body :=
  match kind_of_op op with
  | K_write => w ← d1_dec_write; mret (Body_write w)
  | K_lifecycle => l ← d1_dec_lifecycle; mret (Body_lifecycle l)
  | K_rollback => r ← d1_dec_rollback; mret (Body_rollback r)
  | K_control => k ← d1_dec_control; mret (Body_control k)
  | K_repair => r ← d1_dec_repair; mret (Body_repair r)
  end.

(** The bytes written into the buffer, of the length returned; none for 0. *)
Definition encoded (c : d1_cursor) : option (list byte) :=
  if negb (d1_cursor_ok c) then None else Some (take (Z.to_nat (c_len c)) (c_buf c)).

Definition d1_envelope_encode (env : d1_envelope) (buf : list byte) (cap : Z)
    : option (list byte) :=
  if negb (d1_envelope_validate env) then None
  else
    let c := d1_enc_init buf cap in
    let c := d1_enc_objkey (ev_object env) c in
    let c := d1_enc_u64 (ev_admission env) c in
    let c := d1_enc_u64 (ev_incarnation env) c in
    let c := d1_enc_opkey (ev_key env) c in
    let c := d1_enc_u32 (ev_op env) c in
    let c := enc_body (ev_body env) c in
    encoded c.

Definition dec_envelope : dec d1_envelope :=
  object ← d1_dec_objkey;
  admission ← d1_dec_u64;
  incarnation ← d1_dec_u64;
  key ← d1_dec_opkey;
  op ← d1_dec_u32;
  _ ← dec_require (d1_op_known op);
  body ← dec_body op;
  mret (mk_envelope object admission incarnation key op body).

(** A decode of a whole buffer. *)
Definition dec_whole {A} (d : dec A) (buf : list byte) : option A :=
  match d (d1_dec_init buf) with
  | (Some v, c) => if d1_dec_finished c then Some v else None
  | (None, _) => None
  end.

Definition d1_envelope_decode (buf : list byte) : option d1_envelope :=
  match dec_whole dec_envelope buf with
  | Some env => if d1_envelope_validate env then Some env else None
  | None => None
  end.

(** The request digest of an envelope encoded into the caller's scratch. *)
Definition d1_envelope_digest (env : d1_envelope) (scratch : list byte) (cap : Z)
    : option (list byte) :=
  match d1_envelope_encode env scratch cap with
  | None => None
  | Some bytes => Some (d1_request_digest bytes)
  end.

Definition D1_ENVELOPE_MAX : Z := D1_BATCH_PAYLOAD_MAX + 65536.

End Envelope.
