(* ===== verification/EnvelopeCorrect.v ===== *)
(** * The envelope decoder is the inverse of the encoder

    Each body is a codec; the decoder's range, count and aggregate checks are
    exactly the conditions under which the encoder's bytes are read back. *)

From S2P Require Import Prelude.
From S2P Require Import Words.
From S2P Require Import Wire.
From S2P Require Import WireCorrect.
From S2P Require Import Envelope.
Import Wire WireCorrect Envelope.

Module EnvelopeCorrect.

Lemma codec_chunk :
  Codec d1_enc_bytes (d1_dec_bytes_ref D1_CHUNK_BYTES_MAX) by_bytes
    (λ l, (zlen l <= D1_CHUNK_BYTES_MAX)%Z).
Proof. by apply codec_bytes. Qed.
#[export] Existing Instance codec_chunk.

#[export] Instance codec_opt_guard :
  Codec d1_enc_opt_guard d1_dec_opt_guard (by_opt by_guard) (opt_wf guard_wf).
Proof. exact (codec_option _ _ _ _ codec_guard). Qed.

#[export] Instance codec_tagged {A} (e : A → d1_cursor → d1_cursor) d bytes P :
  Codec e d bytes P → Codec (enc_tagged e) (dec_tagged d) (by_opt bytes) (opt_wf P).
Proof. exact (codec_option e d bytes P). Qed.

#[global] Arguments by_opt : simpl never.
#[global] Arguments by_guard : simpl never.
#[global] Arguments by_owner : simpl never.
#[global] Arguments by_opkey : simpl never.
#[global] Arguments by_objkey : simpl never.
#[global] Arguments by_checksum : simpl never.

(** ** Counts *)

Definition count_bytes {A} (f : A → list byte) (l : list A) : list byte :=
  be_split 4 (count l) ++ concat (map f l).

Lemma count_in_range_spec n :
  count_in_range n = true ↔ (D1_BATCH_ENTRIES_MIN <= n <= D1_BATCH_ENTRIES_MAX)%Z.
Proof.
  unfold count_in_range. rewrite negb_true_iff, orb_false_iff, !Z.ltb_ge. done.
Qed.

Definition counted {A} (l : list A) : Prop :=
  (D1_BATCH_ENTRIES_MIN <= count l <= D1_BATCH_ENTRIES_MAX)%Z.

Lemma counted_width {A} (l : list A) : counted l → in_width 32 (count l).
Proof. unfold counted, in_width, D1_BATCH_ENTRIES_MIN, D1_BATCH_ENTRIES_MAX. lia. Qed.

Lemma count_to_nat {A} (l : list A) n :
  in_width 32 n → length l = Z.to_nat n → count l = n.
Proof. unfold in_width, count. lia. Qed.

(** A count, checked, and that many elements. *)
Lemma exact_counted {A B} (dl : nat → dec (list A)) (f : list A → dec B) bytes P Q S :
  (∀ n, exact_on (dl n) (λ v bs, (length v = n ∧ Forall P v ∧ Q v) ∧ bs = concat (map bytes v))) →
  (∀ l, exact_on (f l) (S l)) →
  exact_on (n ← d1_dec_u32; _ ← dec_check (count_in_range n); l ← dl (Z.to_nat n); f l)
    (λ v bs, ∃ l b2, S l v b2 ∧ (counted l ∧ Forall P l ∧ Q l) ∧ bs = count_bytes bytes l ++ b2).
Proof.
  intros Hl Hf. eapply exact_iff.
  - eapply exact_field; [apply codec_u32|]. intros n Hn. apply exact_checked. intros _.
    eapply exact_field; [apply Hl|]. intros l _. apply Hf.
  - intros v bs. split.
    + intros (n & b1 & [(l & b2 & Hs & (Hl1 & Hl2 & Hl3) & ->) Hc] & Hn & ->).
      apply count_in_range_spec in Hc. pose proof (count_to_nat l n Hn Hl1) as E. subst n.
      exists l, b2. unfold count_bytes. by rewrite <-app_assoc.
    + intros (l & b2 & Hs & (Hc & Hl2 & Hl3) & ->).
      exists (count l), (concat (map bytes l) ++ b2). unfold count_bytes. rewrite <-app_assoc.
      split; [split|split; [by apply counted_width|done]].
      * exists l, b2. split; [done|]. split; [|done]. split; [|done]. unfold count. lia.
      * by apply count_in_range_spec.
Qed.

Lemma exact_plain_list {A} (d : dec A) bytes P n :
  exact_on d (λ v bs, P v ∧ bs = bytes v) →
  exact_on (dec_list n d) (λ v bs, (length v = n ∧ Forall P v ∧ True) ∧ bs = concat (map bytes v)).
Proof.
  intros H. eapply exact_iff; [by apply exact_list|]. naive_solver.
Qed.

(** The encoder of a count and its elements. *)
Lemma emits_counted {A} (e : A → d1_cursor → d1_cursor) bytes l :
  Forall (λ x, emits (e x) (bytes x)) l →
  emits (λ c, enc_list e l (d1_enc_u32 (count l) c)) (count_bytes bytes l).
Proof.
  intros H. unfold count_bytes.
  apply (emits_seq (d1_enc_u32 (count l)) (enc_list e l)); [apply emits_u32|by apply emits_list].
Qed.

Lemma forall_emits {A} (e : A → d1_cursor → d1_cursor) d bytes P `{!Codec e d bytes P} l :
  Forall P l → Forall (λ x, emits (e x) (bytes x)) l.
Proof. intros H. eapply list.Forall_impl; [exact H|]. intros x Hx. by apply co_emits. Qed.

(** ** Entries *)

Definition write_entry_wf (e : d1_write_entry) : Prop :=
  in_width 64 (we_index e) ∧ in_width 32 (we_payload_id e) ∧ owner_wf (we_owner e) ∧
  opt_wf guard_wf (we_expected e) ∧ (zlen (we_payload e) <= D1_CHUNK_BYTES_MAX)%Z ∧
  checksum_wf (we_checksum e).
Definition by_write_entry (e : d1_write_entry) : list byte :=
  be_split 8 (we_index e) ++ be_split 4 (we_payload_id e) ++ by_owner (we_owner e) ++
  by_opt by_guard (we_expected e) ++ by_bytes (we_payload e) ++ by_checksum (we_checksum e).

#[export] Instance codec_write_entry :
  Codec enc_write_entry dec_write_entry by_write_entry write_entry_wf.
Proof.
  constructor.
  - intros v (H1 & H2 & H3 & H4 & H5 & H6). unfold enc_write_entry, by_write_entry. cbv zeta.
    emits_chain. all: by apply co_emits.
  - eapply exact_iff; [exact_fields|]. unfold write_entry_wf, by_write_entry. solve_fields.
Qed.

Definition lifecycle_entry_wf (e : d1_lifecycle_entry) : Prop :=
  in_width 64 (le_index e) ∧ owner_wf (le_owner e) ∧ in_width 64 (le_txn e) ∧
  opt_wf (in_width 64) (le_predecessor e).
Definition by_lifecycle_entry (e : d1_lifecycle_entry) : list byte :=
  be_split 8 (le_index e) ++ by_owner (le_owner e) ++ be_split 8 (le_txn e) ++
  by_opt (be_split 8) (le_predecessor e).

#[export] Instance codec_lifecycle_entry :
  Codec enc_lifecycle_entry dec_lifecycle_entry by_lifecycle_entry lifecycle_entry_wf.
Proof.
  constructor.
  - intros v (H1 & H2 & H3 & H4). unfold enc_lifecycle_entry, by_lifecycle_entry. cbv zeta.
    emits_chain. all: by apply co_emits.
  - eapply exact_iff; [exact_fields|]. unfold lifecycle_entry_wf, by_lifecycle_entry. solve_fields.
Qed.

Definition rollback_entry_wf (e : d1_rollback_entry) : Prop :=
  in_width 64 (rb_index e) ∧ owner_wf (rb_owner e) ∧ in_width 64 (rb_txn e) ∧
  opt_wf (in_width 64) (rb_visible e) ∧ opt_wf (in_width 64) (rb_predecessor e) ∧
  opt_wf (in_width 64) (rb_custody e).
Definition by_rollback_entry (e : d1_rollback_entry) : list byte :=
  be_split 8 (rb_index e) ++ by_owner (rb_owner e) ++ be_split 8 (rb_txn e) ++
  by_opt (be_split 8) (rb_visible e) ++ by_opt (be_split 8) (rb_predecessor e) ++
  by_opt (be_split 8) (rb_custody e).

#[export] Instance codec_rollback_entry :
  Codec enc_rollback_entry dec_rollback_entry by_rollback_entry rollback_entry_wf.
Proof.
  constructor.
  - intros v (H1 & H2 & H3 & H4 & H5 & H6). unfold enc_rollback_entry, by_rollback_entry.
    cbv zeta. emits_chain. all: by apply co_emits.
  - eapply exact_iff; [exact_fields|]. unfold rollback_entry_wf, by_rollback_entry. solve_fields.
Qed.

Definition payload_wf (p : list byte * d1_checksum) : Prop :=
  (zlen (fst p) <= D1_CHUNK_BYTES_MAX)%Z ∧ checksum_wf (snd p).
Definition by_payload (p : list byte * d1_checksum) : list byte :=
  by_bytes (fst p) ++ by_checksum (snd p).

#[export] Instance codec_payload : Codec enc_payload dec_payload by_payload payload_wf.
Proof.
  constructor.
  - intros v (H1 & H2). unfold enc_payload, by_payload. cbv zeta.
    emits_chain. all: by apply co_emits.
  - eapply exact_iff; [exact_fields|]. unfold payload_wf, by_payload. solve_fields.
Qed.

Definition repair_entry_wf (e : d1_repair_entry) : Prop :=
  in_width 64 (re_index e) ∧ in_width 32 (re_mode e) ∧ owner_wf (re_owner e) ∧
  opt_wf (in_width 64) (re_txn e) ∧ opt_wf (in_width 64) (re_custody e) ∧
  opt_wf (in_width 64) (re_postcond e) ∧ opt_wf (in_width 64) (re_successor e) ∧
  opt_wf (in_width 64) (re_predecessor e) ∧ opt_wf payload_wf (re_payload e).
Definition by_repair_entry (e : d1_repair_entry) : list byte :=
  be_split 8 (re_index e) ++ be_split 4 (re_mode e) ++ by_owner (re_owner e) ++
  by_opt (be_split 8) (re_txn e) ++ by_opt (be_split 8) (re_custody e) ++
  by_opt (be_split 8) (re_postcond e) ++ by_opt (be_split 8) (re_successor e) ++
  by_opt (be_split 8) (re_predecessor e) ++ by_opt by_payload (re_payload e).

#[export] Instance codec_repair_entry :
  Codec enc_repair_entry dec_repair_entry by_repair_entry repair_entry_wf.
Proof.
  constructor.
  - intros v (H1 & H2 & H3 & H4 & H5 & H6 & H7 & H8 & H9).
    unfold enc_repair_entry, by_repair_entry. cbv zeta. emits_chain. all: by apply co_emits.
  - eapply exact_iff; [exact_fields|]. unfold repair_entry_wf, by_repair_entry. solve_fields.
Qed.

(** ** The aggregate payload *)

Fixpoint total {A} (size : A → Z) (l : list A) : Z :=
  match l with [] => 0 | x :: l => size x + total size l end.

Definition in_limit (a : Z) : Prop := (0 <= a <= D1_BATCH_PAYLOAD_MAX)%Z.

Lemma total_nonneg {A} (size : A → Z) l : (∀ x, 0 <= size x)%Z → (0 <= total size l)%Z.
Proof. intros H. induction l as [|x l IH]; cbn; [lia|]. specialize (H x). lia. Qed.

Lemma add_payload_spec a len :
  in_limit a → (0 <= len)%Z →
  add_payload a len =
  if (D1_BATCH_PAYLOAD_MAX <? a + len)%Z then None else Some (a + len)%Z.
Proof.
  unfold in_limit, D1_BATCH_PAYLOAD_MAX. intros Ha Hl. unfold add_payload, d1_add_u64.
  change (4 * 1024 * 1024)%Z with 4194304%Z in *. unfold D1_BATCH_PAYLOAD_MAX.
  change (4 * 1024 * 1024)%Z with 4194304%Z. unfold UINT64_MAX.
  destruct (Z.ltb_spec (18446744073709551615 - a) len) as [H|H].
  - destruct (Z.ltb_spec 4194304 (a + len)); [done|lia].
  - rewrite wrap_small by (unfold in_width; lia). done.
Qed.

(** Entries read while their payloads are summed. *)
Section Summed.
Context {A : Type} (d : dec A) (bytes : A → list byte) (P : A → Prop).
Context (sum : Z → A → option Z) (size : A → Z) (dl : nat → Z → dec (list A)).
Hypothesis Hd : exact_on d (λ v bs, P v ∧ bs = bytes v).
Hypothesis Hsize : ∀ x, (0 <= size x)%Z.
Hypothesis Hsum : ∀ a x, in_limit a →
  sum a x = if (D1_BATCH_PAYLOAD_MAX <? a + size x)%Z then None else Some (a + size x)%Z.
Hypothesis Hdl0 : ∀ a, dl 0 a = mret [].
Hypothesis HdlS : ∀ n a, dl (S n) a =
  (e ← d; _ ← dec_check (bool_decide (is_Some (sum a e)));
   es ← dl n (default 0%Z (sum a e)); mret (e :: es)).

Lemma exact_summed n a :
  in_limit a →
  exact_on (dl n a) (λ v bs, (length v = n ∧ Forall P v ∧ in_limit (a + total size v)) ∧
                             bs = concat (map bytes v)).
Proof using Hd Hsize Hsum Hdl0 HdlS.
  revert a. induction n as [|n IH]; intros a Ha.
  - rewrite Hdl0. eapply exact_iff; [apply exact_ret|]. intros v bs. split.
    + intros [-> ->]. cbn. rewrite Z.add_0_r. done.
    + intros [[Hl _] ->]. by destruct v.
  - rewrite HdlS.
    apply (exact_iff _ (λ v bs, ∃ x b2, ((∃ xs, v = x :: xs ∧ length xs = n ∧ Forall P xs ∧
        in_limit (a + size x + total size xs) ∧ b2 = concat (map bytes xs)) ∧
        (a + size x <= D1_BATCH_PAYLOAD_MAX)%Z) ∧ P x ∧ bs = bytes x ++ b2)).
    + eapply exact_iff.
      * eapply exact_field; [exact Hd|]. intros x Hx. apply exact_checked. intros Hb.
        apply bool_decide_eq_true in Hb. specialize (Hsize x).
        assert (Hle : sum a x = Some (a + size x)%Z ∧ (a + size x <= D1_BATCH_PAYLOAD_MAX)%Z).
        { rewrite Hsum in * by done. destruct (Z.ltb_spec D1_BATCH_PAYLOAD_MAX (a + size x)); [|done].
          by destruct Hb. }
        destruct Hle as [E Hle]. rewrite E.
        change (default 0%Z (Some (a + size x)%Z)) with (a + size x)%Z.
        eapply exact_field; [apply IH; unfold in_limit in *; lia|]. intros xs _. apply exact_ret.
      * intros v bs. split.
        -- intros (x & b2 & [(xs & b3 & [-> ->] & (H1 & H2 & H3) & ->) Hb] & Hx & ->).
           exists x, (concat (map bytes xs)). rewrite app_nil_r. split; [|done]. split; [by exists xs|].
           apply bool_decide_eq_true in Hb. rewrite Hsum in Hb by done.
           destruct (Z.ltb_spec D1_BATCH_PAYLOAD_MAX (a + size x)); [by destruct Hb|done].
        -- intros (x & b2 & [(xs & -> & H1 & H2 & H3 & ->) Hle] & Hx & ->).
           exists x, (concat (map bytes xs)). split; [|done]. split.
           ++ exists xs, []. by rewrite app_nil_r.
           ++ apply bool_decide_eq_true. rewrite Hsum by done.
              destruct (Z.ltb_spec D1_BATCH_PAYLOAD_MAX (a + size x)); [lia|done].
    + intros v bs. split.
      * intros (x & b2 & [(xs & -> & H1 & H2 & H3 & ->) Hle] & Hx & ->). cbn.
        split; [|done]. split; [by f_equal|]. split; [by constructor|].
        unfold in_limit in *. lia.
      * intros [(H1 & H2 & H3) ->]. destruct v as [|x xs]; [done|].
        apply list.Forall_cons in H2 as [Hx H2]. cbn in *.
        exists x, (concat (map bytes xs)). split; [|done].
        pose proof (total_nonneg size xs Hsize). unfold in_limit in *. split; [|lia].
        exists xs. split; [done|]. split; [lia|]. split; [done|]. split; [lia|done].
Qed.
End Summed.

Definition write_size (e : d1_write_entry) : Z := count (we_payload e).
Definition repair_size (e : d1_repair_entry) : Z :=
  match re_payload e with Some (p, _) => count p | None => 0 end.

Definition in_aggregate {A} (size : A → Z) (l : list A) : Prop :=
  (total size l <= D1_BATCH_PAYLOAD_MAX)%Z.

Lemma in_limit_0 : in_limit 0.
Proof. unfold in_limit, D1_BATCH_PAYLOAD_MAX. lia. Qed.

Lemma write_size_nonneg e : (0 <= write_size e)%Z.
Proof. unfold write_size, count. lia. Qed.

Lemma repair_size_nonneg e : (0 <= repair_size e)%Z.
Proof. unfold repair_size, count. destruct (re_payload e) as [[]|]; lia. Qed.

Lemma exact_write_entries n :
  exact_on (dec_write_entries n 0) (λ v bs,
    (length v = n ∧ Forall write_entry_wf v ∧ in_aggregate write_size v) ∧
    bs = concat (map by_write_entry v)).
Proof.
  eapply exact_iff.
  - apply (exact_summed dec_write_entry by_write_entry write_entry_wf
      (λ a e, add_payload a (count (we_payload e))) write_size dec_write_entries);
      [apply co_exact|apply write_size_nonneg| |done|done|apply in_limit_0].
    intros a x Ha. apply add_payload_spec; [done|apply write_size_nonneg].
  - intros v bs. pose proof (total_nonneg write_size v write_size_nonneg).
    unfold in_limit, in_aggregate. rewrite Z.add_0_l. naive_solver lia.
Qed.

Lemma exact_repair_entries n :
  exact_on (dec_repair_entries n 0) (λ v bs,
    (length v = n ∧ Forall repair_entry_wf v ∧ in_aggregate repair_size v) ∧
    bs = concat (map by_repair_entry v)).
Proof.
  eapply exact_iff.
  - apply (exact_summed dec_repair_entry by_repair_entry repair_entry_wf
      repair_sum repair_size dec_repair_entries);
      [apply co_exact|apply repair_size_nonneg| |done|done|apply in_limit_0].
    intros a x Ha. unfold repair_sum, repair_size. destruct (re_payload x) as [[p s]|].
    + apply add_payload_spec; [done|unfold count; lia].
    + rewrite Z.add_0_r. unfold in_limit in Ha.
      destruct (Z.ltb_spec D1_BATCH_PAYLOAD_MAX a); [lia|done].
  - intros v bs. pose proof (total_nonneg repair_size v repair_size_nonneg).
    unfold in_limit, in_aggregate. rewrite Z.add_0_l. naive_solver lia.
Qed.

(** ** Bodies *)

Definition write_wf (w : d1_write_batch) : Prop :=
  counted (wb_entries w) ∧ Forall write_entry_wf (wb_entries w) ∧
  in_aggregate write_size (wb_entries w) ∧
  (D1_UNSTABLE <= wb_stability w <= D1_FILE_SYNC)%Z.
Definition by_write (w : d1_write_batch) : list byte :=
  count_bytes by_write_entry (wb_entries w) ++ be_split 4 (wb_stability w) ++
  by_bool (wb_activate w).

#[export] Instance codec_write : Codec d1_enc_write d1_dec_write by_write write_wf.
Proof.
  constructor.
  - intros v (H1 & H2 & H3 & H4). unfold d1_enc_write, by_write. cbv zeta.
    rewrite !app_assoc.
    apply (emits_seq _ (d1_enc_bool (wb_activate v))); [|by apply co_emits].
    apply (emits_seq _ (d1_enc_u32 (wb_stability v))); [|apply emits_u32].
    apply emits_counted. by eapply forall_emits; [apply codec_write_entry|].
  - eapply exact_iff.
    + apply (exact_counted (λ n, dec_write_entries n 0)); [apply exact_write_entries|].
      intros l. eapply exact_field; [apply codec_u32|]. intros st Hst.
      eapply exact_field; [apply codec_bool|]. intros act _. apply exact_checked. intros _.
      apply exact_ret.
    + unfold write_wf, by_write. intros v bs. split.
      * intros (l & b2 & (st & b3 & (act & b4 & [[-> ->] Hc] & _ & ->) & Hst & ->) & (H1 & H2 & H3) & ->).
        rewrite negb_true_iff, orb_false_iff, !Z.ltb_ge in Hc. cbn. by rewrite app_nil_r.
      * intros [(H1 & H2 & H3 & H4) ->]. destruct v as [l st act]. cbn in *.
        exists l, (be_split 4 st ++ by_bool act). split; [|done].
        exists st, (by_bool act). split; [|split; [|done]].
        -- exists act, []. rewrite app_nil_r. split; [|done]. split; [done|].
           by rewrite negb_true_iff, orb_false_iff, !Z.ltb_ge.
        -- unfold in_width, D1_UNSTABLE, D1_FILE_SYNC in *. lia.
Qed.

Definition lifecycle_wf (l : d1_lifecycle_batch) : Prop :=
  in_width 64 (lb_range_begin l) ∧ in_width 64 (lb_range_end l) ∧ counted (lb_entries l) ∧
  Forall lifecycle_entry_wf (lb_entries l) ∧ length (lb_prior_verifier l) = D1_VERIFIER_BYTES.
Definition by_lifecycle (l : d1_lifecycle_batch) : list byte :=
  be_split 8 (lb_range_begin l) ++ be_split 8 (lb_range_end l) ++
  count_bytes by_lifecycle_entry (lb_entries l) ++ id_bytes (lb_prior_verifier l).

#[export] Instance codec_lifecycle : Codec d1_enc_lifecycle d1_dec_lifecycle by_lifecycle lifecycle_wf.
Proof.
  constructor.
  - intros v (H1 & H2 & H3 & H4 & H5). unfold d1_enc_lifecycle, by_lifecycle. cbv zeta.
    unfold count_bytes. emits_chain; try (by apply co_emits); try apply emits_u32.
    apply emits_list. by eapply forall_emits; [apply codec_lifecycle_entry|].
  - eapply exact_iff.
    + do 2 (eapply exact_field; [apply co_exact|intros ? ?]). apply (exact_counted (λ n, dec_list n dec_lifecycle_entry)).
      { intros n. apply exact_plain_list, co_exact. }
      intros l. exact_fields.
    + unfold lifecycle_wf, by_lifecycle. solve_fields.
Qed.

Definition rollback_wf (r : d1_rollback_batch) : Prop :=
  in_width 64 (rl_range_begin r) ∧ in_width 64 (rl_range_end r) ∧ counted (rl_entries r) ∧
  Forall rollback_entry_wf (rl_entries r).
Definition by_rollback (r : d1_rollback_batch) : list byte :=
  be_split 8 (rl_range_begin r) ++ be_split 8 (rl_range_end r) ++
  count_bytes by_rollback_entry (rl_entries r).

#[export] Instance codec_rollback : Codec d1_enc_rollback d1_dec_rollback by_rollback rollback_wf.
Proof.
  constructor.
  - intros v (H1 & H2 & H3 & H4). unfold d1_enc_rollback, by_rollback. cbv zeta.
    unfold count_bytes. emits_chain; try (by apply co_emits); try apply emits_u32.
    apply emits_list. by eapply forall_emits; [apply codec_rollback_entry|].
  - eapply exact_iff.
    + do 2 (eapply exact_field; [apply co_exact|intros ? ?]). apply (exact_counted (λ n, dec_list n dec_rollback_entry)).
      { intros n. apply exact_plain_list, co_exact. }
      intros l. exact_fields.
    + unfold rollback_wf, by_rollback. solve_fields.
Qed.

Definition control_wf (k : d1_control_batch) : Prop :=
  counted (cb_txns k) ∧ Forall (in_width 64) (cb_txns k) ∧ in_width 64 (cb_old_admission k) ∧
  opt_wf (in_width 64) (cb_new_admission k) ∧ opt_wf (in_width 64) (cb_read_epoch k).
Definition by_control (k : d1_control_batch) : list byte :=
  count_bytes (be_split 8) (cb_txns k) ++ be_split 8 (cb_old_admission k) ++
  by_opt (be_split 8) (cb_new_admission k) ++ by_opt (be_split 8) (cb_read_epoch k).

#[export] Instance codec_control : Codec d1_enc_control d1_dec_control by_control control_wf.
Proof.
  constructor.
  - intros v (H1 & H2 & H3 & H4 & H5). unfold d1_enc_control, by_control. cbv zeta.
    unfold count_bytes. emits_chain; try (by apply co_emits); try apply emits_u32.
    apply emits_list. by eapply forall_emits; [apply codec_u64|].
  - eapply exact_iff.
    + apply (exact_counted (λ n, dec_list n d1_dec_u64)).
      { intros n. apply exact_plain_list, co_exact. }
      intros l. exact_fields.
    + unfold control_wf, by_control. solve_fields.
Qed.

(** Without the limit on the aggregate payload, which only the decoder applies. *)
Definition repair_shape (r : d1_repair_batch) : Prop :=
  in_width 64 (rp_range_begin r) ∧ in_width 64 (rp_range_end r) ∧ counted (rp_entries r) ∧
  Forall repair_entry_wf (rp_entries r) ∧
  opt_wf (in_width 64) (rp_cohort r) ∧ opt_wf (in_width 64) (rp_episode r) ∧
  opt_wf (in_width 32) (rp_phase r) ∧
  opt_wf (λ l, length l = D1_VERIFIER_BYTES) (rp_prior_verifier r) ∧
  opt_wf (λ l, length l = D1_CERTIFICATE_BYTES) (rp_certificate r).
Definition repair_wf (r : d1_repair_batch) : Prop :=
  repair_shape r ∧ in_aggregate repair_size (rp_entries r).
Definition by_repair (r : d1_repair_batch) : list byte :=
  be_split 8 (rp_range_begin r) ++ be_split 8 (rp_range_end r) ++
  count_bytes by_repair_entry (rp_entries r) ++ by_opt (be_split 8) (rp_cohort r) ++
  by_opt (be_split 8) (rp_episode r) ++ by_opt (be_split 4) (rp_phase r) ++
  by_opt id_bytes (rp_prior_verifier r) ++ by_opt id_bytes (rp_certificate r).

Lemma emits_repair r : repair_shape r → emits (d1_enc_repair r) (by_repair r).
Proof.
  intros (H1 & H2 & H3 & H4 & H5 & H6 & H7 & H8 & H9).
  unfold d1_enc_repair, by_repair. cbv zeta.
  unfold count_bytes. emits_chain; try (by apply co_emits); try apply emits_u32.
  apply emits_list. by eapply forall_emits; [apply codec_repair_entry|].
Qed.

(** The decoder of a repair body over any loop for its entries. *)
Definition dec_repair_with (dl : nat → dec (list d1_repair_entry)) : dec d1_repair_batch :=
  range_begin ← d1_dec_u64;
  range_end ← d1_dec_u64;
  n ← d1_dec_u32;
  _ ← dec_check (count_in_range n);
  entries ← dl (Z.to_nat n);
  cohort ← d1_dec_opt_u64;
  episode ← d1_dec_opt_u64;
  phase ← dec_tagged d1_dec_u32;
  prior_verifier ← dec_tagged (d1_dec_raw (Z.of_nat D1_VERIFIER_BYTES));
  certificate ← dec_tagged (d1_dec_raw (Z.of_nat D1_CERTIFICATE_BYTES));
  mret (mk_repair_batch range_begin range_end entries cohort episode phase
          prior_verifier certificate).

Lemma exact_repair_with dl Q :
  (∀ n, exact_on (dl n) (λ v bs, (length v = n ∧ Forall repair_entry_wf v ∧ Q v) ∧
                                 bs = concat (map by_repair_entry v))) →
  exact_on (dec_repair_with dl) (λ v bs, (repair_shape v ∧ Q (rp_entries v)) ∧ bs = by_repair v).
Proof.
  intros Hdl. eapply exact_iff.
  - do 2 (eapply exact_field; [apply co_exact|intros ? ?]). apply (exact_counted dl); [apply Hdl|].
    intros l. exact_fields.
  - unfold repair_shape, by_repair. solve_fields.
Qed.

#[export] Instance codec_repair : Codec d1_enc_repair d1_dec_repair by_repair repair_wf.
Proof.
  constructor; [by intros v [H _]; apply emits_repair|].
  exact (exact_repair_with (λ n, dec_repair_entries n 0) _ exact_repair_entries).
Qed.

(** ** Whole buffers *)

Lemma dec_whole_spec {A} (d : dec A) bytes P buf v :
  exact_on d (λ v bs, P v ∧ bs = bytes v) →
  dec_whole d buf = Some v ↔ P v ∧ buf = bytes v.
Proof.
  intros [D1 D2]. destruct (dec_init_ok buf) as [Hok Hr]. unfold dec_whole. split.
  - destruct (d (d1_dec_init buf)) as [[w|] c] eqn:E; [|done].
    destruct (D2 _ _ _ Hok E) as (bs & r & [Pw ->] & Hbr & ->).
    destruct (d1_dec_finished _) eqn:Hf; [|done]. intros [= ->].
    unfold d1_dec_finished, advance in Hf. cbn in Hf. apply Z.eqb_eq in Hf.
    rewrite Hr in Hbr. rewrite Hbr in Hf |- *. unfold zlen in Hf. rewrite length_app in Hf.
    assert (length r = 0%nat) as Hr0 by lia. destruct r; [|done]. by rewrite app_nil_r.
  - intros [Pv ->]. rewrite (D1 _ v (bytes v) []); [|done..|by rewrite app_nil_r].
    unfold d1_dec_finished. cbn. by rewrite Z.eqb_refl.
Qed.

Lemma encoded_spec f bs buf cap :
  emits f bs → (0 <= cap <= Z.of_nat (length buf))%Z →
  encoded (f (d1_enc_init buf cap)) = if decide (zlen bs <= cap)%Z then Some bs else None.
Proof.
  intros Hf Hc. assert (Hw : cur_wf (d1_enc_init buf cap)) by (constructor; cbn; lia).
  destruct (Hf _ Hw) as (F1 & F2 & _ & F4). specialize (F4 eq_refl). cbn [c_len c_cap] in F4.
  unfold encoded, d1_cursor_ok. change (c_len (d1_enc_init buf cap)) with 0%Z in F4.
  change (c_cap (d1_enc_init buf cap)) with cap in F4. rewrite Z.add_0_l in F4.
  case_decide.
  - destruct F4 as [-> E]. cbn. unfold written in E. cbn in E. by rewrite E.
  - by rewrite F4.
Qed.

(** ** The envelope *)

Definition by_body (b : d1_body) : list byte :=
  match b with
  | Body_write w => by_write w
  | Body_lifecycle l => by_lifecycle l
  | Body_rollback r => by_rollback r
  | Body_control k => by_control k
  | Body_repair r => by_repair r
  end.
Definition body_in (R : d1_repair_batch → Prop) (op : Z) (b : d1_body) : Prop :=
  match kind_of_op op, b with
  | K_write, Body_write w => write_wf w
  | K_lifecycle, Body_lifecycle l => lifecycle_wf l
  | K_rollback, Body_rollback r => rollback_wf r
  | K_control, Body_control k => control_wf k
  | K_repair, Body_repair r => R r
  | _, _ => False
  end.

Definition env_in (R : d1_repair_batch → Prop) (env : d1_envelope) : Prop :=
  objkey_wf (ev_object env) ∧ in_width 64 (ev_admission env) ∧
  in_width 64 (ev_incarnation env) ∧ opkey_wf (ev_key env) ∧ in_width 32 (ev_op env) ∧
  d1_op_known (ev_op env) = true ∧ body_in R (ev_op env) (ev_body env).
Definition env_shape : d1_envelope → Prop := env_in repair_shape.
Definition env_wf : d1_envelope → Prop := env_in repair_wf.
Definition by_env (env : d1_envelope) : list byte :=
  by_objkey (ev_object env) ++ be_split 8 (ev_admission env) ++ be_split 8 (ev_incarnation env) ++
  by_opkey (ev_key env) ++ be_split 4 (ev_op env) ++ by_body (ev_body env).

Lemma exact_wrapped {A B} (d : dec A) (K : A → B) bytes P :
  exact_on d (λ v bs, P v ∧ bs = bytes v) →
  exact_on (v ← d; mret (K v)) (λ w bs, ∃ v, w = K v ∧ P v ∧ bs = bytes v).
Proof.
  intros H. eapply exact_iff; [eapply exact_field; [exact H|]; intros v _; apply exact_ret|].
  intros w bs. split.
  - intros (v & b2 & [-> ->] & Hv & ->). rewrite app_nil_r. by exists v.
  - intros (v & -> & Hv & ->). exists v, []. by rewrite app_nil_r.
Qed.

(** The envelope decoder over any decoder of repair bodies. *)
Definition dec_envelope_with (drep : dec d1_repair_batch) : dec d1_envelope :=
  object ← d1_dec_objkey;
  admission ← d1_dec_u64;
  incarnation ← d1_dec_u64;
  key ← d1_dec_opkey;
  op ← d1_dec_u32;
  _ ← dec_require (d1_op_known op);
  body ← match kind_of_op op with
         | K_repair => r ← drep; mret (Body_repair r)
         | _ => dec_body op
         end;
  mret (mk_envelope object admission incarnation key op body).

Lemma exact_envelope_with drep R :
  exact_on drep (λ v bs, R v ∧ bs = by_repair v) →
  exact_on (dec_envelope_with drep) (λ v bs, env_in R v ∧ bs = by_env v).
Proof.
  intros HR. assert (Hb : ∀ op, exact_on
    (match kind_of_op op with K_repair => r ← drep; mret (Body_repair r) | _ => dec_body op end)
    (λ b bs, body_in R op b ∧ bs = by_body b)).
  { intros op. unfold dec_body, body_in. destruct (kind_of_op op);
      (eapply exact_iff; [apply exact_wrapped; (exact HR || apply co_exact)|]);
      (intros b bs; split; [by intros (v & -> & Hv & ->)|]; intros [Hb ->];
       destruct b; try done; by eexists). }
  eapply exact_iff.
  - do 5 (eapply exact_field; [apply co_exact|intros ? ?]). apply exact_required. intros _.
    eapply exact_field; [apply Hb|]. intros b _. apply exact_ret.
  - unfold env_in, by_env. solve_fields.
Qed.

Lemma exact_envelope : exact_on dec_envelope (λ v bs, env_wf v ∧ bs = by_env v).
Proof.
  pose proof (exact_envelope_with d1_dec_repair repair_wf co_exact) as H.
  assert (E : ∀ c, dec_envelope_with d1_dec_repair c = dec_envelope c).
  { intros c. unfold dec_envelope_with, dec_envelope, dec_body, mbind, dec_bind.
    repeat case_match; try done; simplify_eq; congruence. }
  destruct H as [H1 H2]. split; [intros c v bs r|intros c v c']; rewrite <-E; eauto.
Qed.

(** Encodings are unambiguous, within the decoder's limit or not. *)
Lemma by_env_inj e1 e2 : env_shape e1 → env_shape e2 → by_env e1 = by_env e2 → e1 = e2.
Proof.
  intros H1 H2 E.
  pose proof (exact_envelope_with (dec_repair_with (λ n, dec_list n dec_repair_entry)) repair_shape) as Hx.
  assert (Hd : exact_on (dec_envelope_with (dec_repair_with (λ n, dec_list n dec_repair_entry)))
    (λ v bs, env_shape v ∧ bs = by_env v)).
  { apply Hx. eapply exact_iff; [apply (exact_repair_with _ (λ _, True));
      intros n; apply exact_plain_list, co_exact|]. naive_solver. }
  assert (D1 := proj2 (dec_whole_spec _ by_env env_shape (by_env e1) e1 Hd) (conj H1 eq_refl)).
  assert (D2 := proj2 (dec_whole_spec _ by_env env_shape (by_env e1) e2 Hd) (conj H2 E)).
  congruence.
Qed.

Lemma emits_body op b : body_in repair_shape op b → emits (enc_body b) (by_body b).
Proof.
  unfold body_in. destruct (kind_of_op op), b; try done; intros H.
  - exact (co_emits (Codec := codec_write) _ H).
  - exact (co_emits (Codec := codec_lifecycle) _ H).
  - exact (co_emits (Codec := codec_rollback) _ H).
  - exact (co_emits (Codec := codec_control) _ H).
  - by apply emits_repair.
Qed.

Lemma envelope_encode_spec env buf cap :
  env_shape env → d1_envelope_validate env = true → (0 <= cap <= Z.of_nat (length buf))%Z →
  d1_envelope_encode env buf cap = if decide (zlen (by_env env) <= cap)%Z
                                   then Some (by_env env) else None.
Proof.
  intros (H1 & H2 & H3 & H4 & H5 & H6 & H7) Hv Hc. unfold d1_envelope_encode. rewrite Hv.
  cbn [negb]. cbv zeta. pose proof (emits_body _ _ H7) as Hb.
  apply (encoded_spec (λ c, enc_body (ev_body env) (d1_enc_u32 (ev_op env) (d1_enc_opkey (ev_key env)
    (d1_enc_u64 (ev_incarnation env) (d1_enc_u64 (ev_admission env)
    (d1_enc_objkey (ev_object env) c))))))); [|done].
  unfold by_env. emits_chain; try (by apply co_emits). exact Hb.
Qed.

Lemma envelope_decode_spec buf env :
  d1_envelope_decode buf = Some env ↔
  env_wf env ∧ d1_envelope_validate env = true ∧ buf = by_env env.
Proof.
  pose proof (dec_whole_spec dec_envelope by_env env_wf buf) as Hd.
  unfold d1_envelope_decode. split.
  - destruct (dec_whole dec_envelope buf) as [e|] eqn:E; [|done].
    destruct (proj1 (Hd e exact_envelope) eq_refl) as [H1 ->].
    destruct (d1_envelope_validate e) eqn:Hv; [|done]. by intros [= <-].
  - intros (H1 & H2 & ->). assert (E : dec_whole dec_envelope (by_env env) = Some env)
      by (apply (Hd env exact_envelope); done).
    by rewrite E, H2.
Qed.

(** ** What the C types guarantee

    Integers in their widths, arrays of their sizes: nothing about counts,
    payload lengths or tags. *)

Definition checksum_typed (s : d1_checksum) : Prop :=
  in_width 32 (s_alg s) ∧ in_width 32 (s_len s) ∧ length (s_digest s) = Z.to_nat DIGEST_SIZE.

Definition write_entry_typed (e : d1_write_entry) : Prop :=
  in_width 64 (we_index e) ∧ in_width 32 (we_payload_id e) ∧ owner_wf (we_owner e) ∧
  opt_wf guard_wf (we_expected e) ∧ checksum_typed (we_checksum e).

Definition repair_entry_typed (e : d1_repair_entry) : Prop :=
  in_width 64 (re_index e) ∧ in_width 32 (re_mode e) ∧ owner_wf (re_owner e) ∧
  opt_wf (in_width 64) (re_txn e) ∧ opt_wf (in_width 64) (re_custody e) ∧
  opt_wf (in_width 64) (re_postcond e) ∧ opt_wf (in_width 64) (re_successor e) ∧
  opt_wf (in_width 64) (re_predecessor e) ∧
  opt_wf (λ p, checksum_typed (snd p)) (re_payload e).

Definition body_typed (b : d1_body) : Prop :=
  match b with
  | Body_write w => Forall write_entry_typed (wb_entries w) ∧ in_width 32 (wb_stability w)
  | Body_lifecycle l =>
      in_width 64 (lb_range_begin l) ∧ in_width 64 (lb_range_end l) ∧
      Forall lifecycle_entry_wf (lb_entries l) ∧ length (lb_prior_verifier l) = D1_VERIFIER_BYTES
  | Body_rollback r =>
      in_width 64 (rl_range_begin r) ∧ in_width 64 (rl_range_end r) ∧
      Forall rollback_entry_wf (rl_entries r)
  | Body_control k =>
      Forall (in_width 64) (cb_txns k) ∧ in_width 64 (cb_old_admission k) ∧
      opt_wf (in_width 64) (cb_new_admission k) ∧ opt_wf (in_width 64) (cb_read_epoch k)
  | Body_repair r =>
      in_width 64 (rp_range_begin r) ∧ in_width 64 (rp_range_end r) ∧
      Forall repair_entry_typed (rp_entries r) ∧
      opt_wf (in_width 64) (rp_cohort r) ∧ opt_wf (in_width 64) (rp_episode r) ∧
      opt_wf (in_width 32) (rp_phase r) ∧
      opt_wf (λ l, length l = D1_VERIFIER_BYTES) (rp_prior_verifier r) ∧
      opt_wf (λ l, length l = D1_CERTIFICATE_BYTES) (rp_certificate r)
  end.

Definition env_typed (env : d1_envelope) : Prop :=
  objkey_wf (ev_object env) ∧ in_width 64 (ev_admission env) ∧
  in_width 64 (ev_incarnation env) ∧ opkey_wf (ev_key env) ∧ in_width 32 (ev_op env) ∧
  body_typed (ev_body env).

(** The payload bytes of a repair body; other bodies are bounded by the shape test. *)
Definition repair_payload (b : d1_body) : Z :=
  match b with Body_repair r => total repair_size (rp_entries r) | _ => 0 end.

(** ** The shape test and the types give what the decoder asks for *)

Lemma shape_checksum s : checksum_typed s → d1_checksum_shape_ok s = true → checksum_wf s.
Proof.
  intros (H1 & H2 & H3) H. unfold d1_checksum_shape_ok in H.
  destruct (negb (s_alg s =? D1_CKSUM_CRC32)%Z && negb (s_alg s =? D1_CKSUM_CRC32C)%Z); [done|].
  apply andb_true_iff in H as [E%Z.eqb_eq _]. split; [done|]. unfold DIGEST_SIZE in *.
  split; [lia|]. exists (s_digest s). split; [unfold zlen; lia|].
  unfold splice. cbn [take app]. rewrite drop_ge, app_nil_r; [done|].
  rewrite length_replicate. lia.
Qed.

Lemma payload_ok_bound p : payload_ok p = true → (zlen p <= D1_CHUNK_BYTES_MAX)%Z.
Proof. unfold payload_ok, zlen, count. rewrite negb_true_iff, orb_false_iff, !Z.ltb_ge. lia. Qed.

Lemma count_ok_counted {A} (l : list A) : d1_count_ok (count l) = true → counted l.
Proof. unfold d1_count_ok, counted. rewrite andb_true_iff, !Z.leb_le. done. Qed.

Lemma validate_write_entries_spec prior es a :
  validate_write_entries prior es a = true → in_limit a → Forall write_entry_typed es →
  Forall write_entry_wf es ∧ in_limit (a + total write_size es).
Proof.
  intros H Ha Ht. revert prior a H Ha. induction Ht as [|e es He Ht IH]; intros prior a H Ha.
  { cbn. rewrite Z.add_0_r. done. }
  cbn [validate_write_entries] in H.
  destruct (payload_ok (we_payload e)) eqn:E1; [|done]. cbn [negb] in H.
  destruct (d1_checksum_shape_ok (we_checksum e)) eqn:E2; [|done]. cbn [negb] in H.
  destruct (d1_owner_ok (we_owner e)) eqn:E3; [|done]. cbn [negb] in H.
  rewrite add_payload_spec in H by (done || (unfold count; lia)).
  destruct (Z.ltb_spec D1_BATCH_PAYLOAD_MAX (a + count (we_payload e))) as [|Hle]; [done|].
  destruct (existsb _ prior); [done|].
  pose proof (write_size_nonneg e) as Hs. unfold write_size in Hs.
  destruct (IH _ _ H) as [I1 I2]; [unfold in_limit in *; lia|]. cbn [total].
  unfold write_size at 1. rewrite Z.add_assoc. split; [|done]. constructor; [|done].
  destruct He as (T1 & T2 & T3 & T4 & T5). apply payload_ok_bound in E1.
  by split_and!; [done..|apply shape_checksum].
Qed.

Lemma repair_entry_ok_payload op b e_ prior e :
  repair_entry_ok op b e_ prior e = true →
  match re_payload e with
  | Some (p, s) => payload_ok p = true ∧ d1_checksum_shape_ok s = true
  | None => True
  end.
Proof.
  unfold repair_entry_ok. destruct (re_payload e) as [[p s]|]; [|done]. cbv zeta.
  repeat match goal with |- (if ?b then false else _) = true → _ => destruct b eqn:?; [done|] end.
  intros _. match goal with H : negb (payload_ok p) || _ = false |- _ =>
    apply orb_false_iff in H as [H1 H2] end.
  by rewrite negb_false_iff in H1, H2.
Qed.

Lemma validate_repair_entries_spec op b e_ prior es :
  validate_repair_entries op b e_ prior es = true → Forall repair_entry_typed es →
  Forall repair_entry_wf es.
Proof.
  intros H Ht. revert prior H. induction Ht as [|e es He Ht IH]; intros prior H; [done|].
  cbn [validate_repair_entries] in H.
  destruct (repair_entry_ok op b e_ prior e) eqn:E; [|done]. cbn [negb] in H.
  constructor; [|by apply IH in H]. apply repair_entry_ok_payload in E.
  destruct He as (T1 & T2 & T3 & T4 & T5 & T6 & T7 & T8 & T9).
  split_and!; [done..|]. destruct (re_payload e) as [[p s]|]; [|done].
  destruct E as [E1 E2]. split; [by apply payload_ok_bound|by apply shape_checksum].
Qed.

Lemma typed_validate_shape env :
  env_typed env → d1_envelope_validate env = true → env_shape env.
Proof.
  intros (H1 & H2 & H3 & H4 & H5 & H6) Hv. unfold d1_envelope_validate in Hv.
  destruct (d1_op_known (ev_op env)) eqn:Hk; [|done]. cbn [negb] in Hv.
  split_and!; [done..|]. unfold body_in.
  destruct (kind_of_op (ev_op env)), (ev_body env) as [w|l|r|k|r]; try done; cbn in H6.
  - destruct H6 as [T1 T2]. unfold d1_validate_write in Hv.
    destruct (d1_count_ok (count (wb_entries w))) eqn:E1; [|done].
    destruct (d1_stability_ok (wb_stability w)) eqn:E2; [|done]. cbn in Hv.
    destruct (validate_write_entries_spec _ _ _ Hv in_limit_0 T1) as [W1 [_ W2]].
    split_and!; [by apply count_ok_counted|done|by rewrite Z.add_0_l in W2|..];
      unfold d1_stability_ok, D1_UNSTABLE, D1_DATA_SYNC, D1_FILE_SYNC in *;
      rewrite !orb_true_iff, !Z.eqb_eq in E2; lia.
  - unfold d1_validate_lifecycle in Hv. destruct (d1_count_ok (count (lb_entries l))) eqn:E1; [|done].
    apply count_ok_counted in E1. unfold lifecycle_wf. tauto.
  - unfold d1_validate_rollback in Hv. destruct (d1_count_ok (count (rl_entries r))) eqn:E1; [|done].
    apply count_ok_counted in E1. unfold rollback_wf. tauto.
  - unfold d1_validate_control in Hv. destruct (d1_count_ok (count (cb_txns k))) eqn:E1; [|done].
    apply count_ok_counted in E1. unfold control_wf. tauto.
  - unfold d1_validate_repair in Hv. cbv zeta in Hv.
    destruct (d1_count_ok (count (rp_entries r))) eqn:E1; [|done]. cbn [negb orb] in Hv.
    repeat match type of Hv with (if ?b then false else _) = true => destruct b; [done|] end.
    apply count_ok_counted in E1. apply validate_repair_entries_spec in Hv; [|tauto].
    unfold repair_shape. tauto.
Qed.

Lemma wf_shape env : env_wf env → env_shape env.
Proof.
  intros (H1 & H2 & H3 & H4 & H5 & H6 & H7). split_and!; try done.
  unfold body_in, repair_wf in *. destruct (kind_of_op (ev_op env)), (ev_body env); tauto.
Qed.

Lemma shape_wf env :
  env_shape env →
  env_wf env ↔ (repair_payload (ev_body env) <= D1_BATCH_PAYLOAD_MAX)%Z.
Proof.
  intros (H1 & H2 & H3 & H4 & H5 & H6 & H7). unfold env_wf, env_in, body_in, repair_wf, in_aggregate in *.
  destruct (kind_of_op (ev_op env)), (ev_body env); try done; cbn [repair_payload];
    (split; [|tauto]); unfold D1_BATCH_PAYLOAD_MAX; try lia; tauto.
Qed.

End EnvelopeCorrect.
