(* ===== verification/Control.v ===== *)
(** * Journalled controls and results of the D1 store ([src/lib/d1store/d1_control.c])

    Fixture control requests, their results, and the complete result of an
    entry, each with its canonical form, and the comparison recovery applies. *)

From S2P Require Import Prelude.
From S2P Require Import Wire.
From S2P Require Import Envelope.
Import Wire Envelope.

Module Control.

Definition D1_CTL_ENVELOPE : Z := 1.
Definition D1_CTL_ADMIT : Z := 2.
Definition D1_CTL_REVOKE : Z := 3.
Definition D1_CTL_EXPIRE : Z := 4.
Definition D1_CTL_CUSTODY : Z := 5.
Definition D1_CTL_RELEASE : Z := 6.
Definition D1_CTL_CERTIFICATE : Z := 7.

Record d1_fixture_authority := mk_auth {
  fa_issuer : list byte;
  fa_principal : list byte;
  fa_stateid : list byte;
  fa_session : list byte;
  fa_writer : Z;
  fa_rights : Z;
  fa_lease_epoch : Z;
  fa_authority_epoch : Z;
  fa_fence_sequence : Z;
}.

Record d1_control_request := mk_request {
  rq_kind : Z;
  rq_object : d1_objkey;
  rq_auth : d1_fixture_authority;
  rq_admission : Z;
  rq_version : Z;
  rq_certificate : option (list byte);
}.

Record d1_control_result := mk_ctl_result { cr_status : Z; cr_id : Z }.

Record d1_entry_result := mk_entry_result {
  er_status : Z;
  er_version : option Z;
  er_txn : option Z;
  er_cohort : option Z;
  er_member_txn : list Z;
  er_postcond : option Z;
  er_episode : option Z;
  er_member : option Z;
  er_guard : d1_guard;
  er_owner : d1_owner;
  er_stability : Z;
  er_activated : bool;
  er_phase : Z;
  er_verifier : list byte;
  er_disposition : Z;
}.

Record d1_complete_result := mk_complete {
  co_key : d1_opkey;
  co_index_epoch : Z;
  co_eof : Z;
  co_disposition : Z;
  co_entry : d1_entry_result;
}.

(** ** Requests *)

Definition d1_kind_known (kind : Z) : bool :=
  (D1_CTL_ENVELOPE <=? kind)%Z && (kind <=? D1_CTL_CERTIFICATE)%Z.

(** The arms of the switch on the kind. *)
Inductive ctl_arm := A_admit | A_admission | A_certificate | A_version.

Definition arm_of_kind (kind : Z) : ctl_arm :=
  if (kind =? D1_CTL_ADMIT)%Z then A_admit
  else if (kind =? D1_CTL_REVOKE)%Z || (kind =? D1_CTL_EXPIRE)%Z then A_admission
  else if (kind =? D1_CTL_CERTIFICATE)%Z then A_certificate
  else A_version.

Definition enc_auth (a : d1_fixture_authority) (c : d1_cursor) : d1_cursor :=
  let c := d1_enc_uuid (fa_issuer a) c in
  let c := d1_enc_uuid (fa_principal a) c in
  let c := d1_enc_raw (fa_stateid a) c in
  let c := d1_enc_raw (fa_session a) c in
  let c := d1_enc_u32 (fa_writer a) c in
  let c := d1_enc_u32 (fa_rights a) c in
  let c := d1_enc_u64 (fa_lease_epoch a) c in
  let c := d1_enc_u64 (fa_authority_epoch a) c in
  d1_enc_u64 (fa_fence_sequence a) c.

Definition enc_arm (r : d1_control_request) (c : d1_cursor) : d1_cursor :=
  match arm_of_kind (rq_kind r) with
  | A_admit => enc_auth (rq_auth r) c
  | A_admission => d1_enc_u64 (rq_admission r) c
  | A_certificate => enc_tagged d1_enc_raw (rq_certificate r) c
  | A_version => d1_enc_u64 (rq_version r) c
  end.

Definition d1_control_request_encode (r : d1_control_request) (buf : list byte) (cap : Z)
    : option (list byte) :=
  if negb (d1_kind_known (rq_kind r)) || (rq_kind r =? D1_CTL_ENVELOPE)%Z then None
  else
    let c := d1_enc_init buf cap in
    let c := d1_enc_u32 (rq_kind r) c in
    let c := d1_enc_objkey (rq_object r) c in
    let c := enc_arm r c in
    encoded c.

Definition dec_auth : dec d1_fixture_authority :=
  issuer ← d1_dec_uuid;
  principal ← d1_dec_uuid;
  stateid ← d1_dec_raw (Z.of_nat 16);
  session ← d1_dec_raw (Z.of_nat 16);
  writer ← d1_dec_u32;
  rights ← d1_dec_u32;
  lease_epoch ← d1_dec_u64;
  authority_epoch ← d1_dec_u64;
  fence_sequence ← d1_dec_u64;
  mret (mk_auth issuer principal stateid session writer rights lease_epoch authority_epoch
          fence_sequence).

(** [memset(r, 0, sizeof( *r))]. *)
Definition zeros (n : nat) : list byte := replicate n x00.
Definition zero_auth : d1_fixture_authority :=
  mk_auth (zeros 16) (zeros 16) (zeros 16) (zeros 16) 0 0 0 0 0.

Definition dec_request : dec d1_control_request :=
  kind ← d1_dec_u32;
  _ ← dec_require (d1_kind_known kind && negb (kind =? D1_CTL_ENVELOPE)%Z);
  object ← d1_dec_objkey;
  match arm_of_kind kind with
  | A_admit => auth ← dec_auth; mret (mk_request kind object auth 0 0 None)
  | A_admission => a ← d1_dec_u64; mret (mk_request kind object zero_auth a 0 None)
  | A_certificate =>
      cert ← dec_tagged (d1_dec_raw (Z.of_nat D1_CERTIFICATE_BYTES));
      mret (mk_request kind object zero_auth 0 0 cert)
  | A_version => v ← d1_dec_u64; mret (mk_request kind object zero_auth 0 v None)
  end.

Definition d1_control_request_decode (buf : list byte) : option d1_control_request :=
  dec_whole dec_request buf.

(** ** Results *)

Definition d1_control_result_encode (r : d1_control_result) (buf : list byte) (cap : Z)
    : option (list byte) :=
  let c := d1_enc_init buf cap in
  let c := d1_enc_u32 (cr_status r) c in
  let c := d1_enc_u64 (cr_id r) c in
  encoded c.

Definition dec_ctl_result : dec d1_control_result :=
  status ← d1_dec_u32;
  id ← d1_dec_u64;
  mret (mk_ctl_result status id).

Definition d1_control_result_decode (buf : list byte) : option d1_control_result :=
  dec_whole dec_ctl_result buf.

Definition enc_complete (r : d1_complete_result) (c : d1_cursor) : d1_cursor :=
  let e := co_entry r in
  let c := d1_enc_opkey (co_key r) c in
  let c := d1_enc_u64 (co_index_epoch r) c in
  let c := d1_enc_u64 (co_eof r) c in
  let c := d1_enc_u32 (co_disposition r) c in
  let c := d1_enc_u32 (er_status e) c in
  let c := d1_enc_opt_u64 (er_version e) c in
  let c := d1_enc_opt_u64 (er_txn e) c in
  let c := d1_enc_opt_u64 (er_cohort e) c in
  let c := d1_enc_u32 (count (er_member_txn e)) c in
  let c := enc_list d1_enc_u64 (take (Z.to_nat D1_BATCH_ENTRIES_MAX) (er_member_txn e)) c in
  let c := d1_enc_opt_u64 (er_postcond e) c in
  let c := d1_enc_opt_u64 (er_episode e) c in
  let c := enc_tagged d1_enc_u32 (er_member e) c in
  let c := d1_enc_guard (er_guard e) c in
  let c := d1_enc_owner (er_owner e) c in
  let c := d1_enc_u32 (er_stability e) c in
  let c := d1_enc_bool (er_activated e) c in
  let c := d1_enc_u32 (er_phase e) c in
  d1_enc_raw (er_verifier e) c.

Definition d1_complete_result_encode (r : d1_complete_result) (buf : list byte) (cap : Z)
    : option (list byte) :=
  encoded (enc_complete r (d1_enc_init buf cap)).

Definition dec_complete : dec d1_complete_result :=
  key ← d1_dec_opkey;
  index_epoch ← d1_dec_u64;
  eof ← d1_dec_u64;
  disposition ← d1_dec_u32;
  status ← d1_dec_u32;
  version ← d1_dec_opt_u64;
  txn ← d1_dec_opt_u64;
  cohort ← d1_dec_opt_u64;
  n ← d1_dec_u32;
  _ ← dec_require (n <=? D1_BATCH_ENTRIES_MAX)%Z;
  member_txn ← dec_list (Z.to_nat n) d1_dec_u64;
  postcond ← d1_dec_opt_u64;
  episode ← d1_dec_opt_u64;
  member ← d1_dec_opt_u32;
  guard ← d1_dec_guard;
  owner ← d1_dec_owner;
  stability ← d1_dec_u32;
  activated ← d1_dec_bool;
  phase ← d1_dec_u32;
  verifier ← d1_dec_raw (Z.of_nat D1_VERIFIER_BYTES);
  mret (mk_complete key index_epoch eof disposition
          (mk_entry_result status version txn cohort member_txn postcond episode member guard
             owner stability activated phase verifier 0)).

Definition d1_complete_result_decode (buf : list byte) : option d1_complete_result :=
  dec_whole dec_complete buf.

(** ** Comparison *)

Definition bytes_ne (a b : list byte) : bool := negb (bool_decide (a = b)).

(** [a_present != b_present || (a_present && a != b)]. *)
Definition opt_ne (a b : option Z) : bool :=
  negb (eqb (present a) (present b))
  || (present a && negb (default 0%Z a =? default 0%Z b)%Z).

Definition d1_complete_result_equal (a b : d1_complete_result) : bool :=
  let ea := co_entry a in
  let eb := co_entry b in
  if bytes_ne (k_origin (co_key a)) (k_origin (co_key b)) then false
  else if negb (k_sequence (co_key a) =? k_sequence (co_key b))%Z
          || negb (k_ordinal (co_key a) =? k_ordinal (co_key b))%Z then false
  else if negb (co_index_epoch a =? co_index_epoch b)%Z || negb (co_eof a =? co_eof b)%Z then false
  else if negb (co_disposition a =? co_disposition b)%Z then false
  else if negb (er_status ea =? er_status eb)%Z then false
  else if opt_ne (er_version ea) (er_version eb) then false
  else if opt_ne (er_txn ea) (er_txn eb) then false
  else if opt_ne (er_cohort ea) (er_cohort eb) then false
  else if negb (count (er_member_txn ea) =? count (er_member_txn eb))%Z then false
  else if existsb (λ i, negb (rd 0 (er_member_txn ea) i =? rd 0 (er_member_txn eb) i)%Z)
            (seq 0 (length (er_member_txn ea))) then false
  else if opt_ne (er_postcond ea) (er_postcond eb) then false
  else if opt_ne (er_episode ea) (er_episode eb) then false
  else if opt_ne (er_member ea) (er_member eb) then false
  else if negb (g_generation (er_guard ea) =? g_generation (er_guard eb))%Z
          || negb (g_writer (er_guard ea) =? g_writer (er_guard eb))%Z
          || negb (eqb (g_never_written (er_guard ea)) (g_never_written (er_guard eb))) then false
  else if negb (o_cohort (er_owner ea) =? o_cohort (er_owner eb))%Z
          || negb (o_writer (er_owner ea) =? o_writer (er_owner eb))%Z
          || negb (o_co_id (er_owner ea) =? o_co_id (er_owner eb))%Z then false
  else if negb (er_stability ea =? er_stability eb)%Z
          || negb (eqb (er_activated ea) (er_activated eb))
          || negb (er_phase ea =? er_phase eb)%Z then false
  else negb (bytes_ne (er_verifier ea) (er_verifier eb)).

End Control.
