(* ===== verification/ControlCorrect.v ===== *)
(** * Canonical forms of controls and results

    The encoders of [Control] and their strict inverses, and that the comparison
    of two complete results is equality of what the log records of them. *)

From S2P Require Import Prelude.
From S2P Require Import Words.
From S2P Require Import Wire.
From S2P Require Import WireCorrect.
From S2P Require Import Envelope.
From S2P Require Import EnvelopeCorrect.
From S2P Require Import Control.
Import Wire WireCorrect Envelope EnvelopeCorrect Control.

Module ControlCorrect.

(** ** Requests *)

Definition auth_wf (a : d1_fixture_authority) : Prop :=
  length (fa_issuer a) = D1_UUID_BYTES ∧ length (fa_principal a) = D1_UUID_BYTES ∧
  length (fa_stateid a) = 16%nat ∧ length (fa_session a) = 16%nat ∧
  in_width 32 (fa_writer a) ∧ in_width 32 (fa_rights a) ∧ in_width 64 (fa_lease_epoch a) ∧
  in_width 64 (fa_authority_epoch a) ∧ in_width 64 (fa_fence_sequence a).
Definition by_auth (a : d1_fixture_authority) : list byte :=
  id_bytes (fa_issuer a) ++ id_bytes (fa_principal a) ++ id_bytes (fa_stateid a) ++
  id_bytes (fa_session a) ++ be_split 4 (fa_writer a) ++ be_split 4 (fa_rights a) ++
  be_split 8 (fa_lease_epoch a) ++ be_split 8 (fa_authority_epoch a) ++
  be_split 8 (fa_fence_sequence a).

#[export] Instance codec_auth : Codec enc_auth dec_auth by_auth auth_wf.
Proof.
  constructor.
  - intros v (H1 & H2 & H3 & H4 & H5 & H6 & H7 & H8 & H9). unfold enc_auth, by_auth. cbv zeta.
    emits_chain; try (by apply co_emits); apply emits_raw.
  - eapply exact_iff; [exact_fields|]. unfold auth_wf, by_auth. solve_fields.
Qed.

(** The fields the kind does not use are zero, as a decode leaves them. *)
Definition arm_wf (r : d1_control_request) : Prop :=
  match arm_of_kind (rq_kind r) with
  | A_admit => auth_wf (rq_auth r) ∧ rq_admission r = 0%Z ∧ rq_version r = 0%Z ∧
               rq_certificate r = None
  | A_admission => in_width 64 (rq_admission r) ∧ rq_auth r = zero_auth ∧ rq_version r = 0%Z ∧
                   rq_certificate r = None
  | A_certificate => opt_wf (λ l, length l = D1_CERTIFICATE_BYTES) (rq_certificate r) ∧
                     rq_auth r = zero_auth ∧ rq_admission r = 0%Z ∧ rq_version r = 0%Z
  | A_version => in_width 64 (rq_version r) ∧ rq_auth r = zero_auth ∧ rq_admission r = 0%Z ∧
                 rq_certificate r = None
  end.

Definition kind_ok (kind : Z) : bool := d1_kind_known kind && negb (kind =? D1_CTL_ENVELOPE)%Z.

Definition request_wf (r : d1_control_request) : Prop :=
  in_width 32 (rq_kind r) ∧ kind_ok (rq_kind r) = true ∧ objkey_wf (rq_object r) ∧ arm_wf r.

Definition by_arm (r : d1_control_request) : list byte :=
  match arm_of_kind (rq_kind r) with
  | A_admit => by_auth (rq_auth r)
  | A_admission => be_split 8 (rq_admission r)
  | A_certificate => by_opt id_bytes (rq_certificate r)
  | A_version => be_split 8 (rq_version r)
  end.
Definition by_request (r : d1_control_request) : list byte :=
  be_split 4 (rq_kind r) ++ by_objkey (rq_object r) ++ by_arm r.

Lemma exact_arm kind object :
  exact_on
    (match arm_of_kind kind with
     | A_admit => auth ← dec_auth; mret (mk_request kind object auth 0 0 None)
     | A_admission => a ← d1_dec_u64; mret (mk_request kind object zero_auth a 0 None)
     | A_certificate =>
         cert ← dec_tagged (d1_dec_raw (Z.of_nat D1_CERTIFICATE_BYTES));
         mret (mk_request kind object zero_auth 0 0 cert)
     | A_version => v ← d1_dec_u64; mret (mk_request kind object zero_auth 0 v None)
     end)
    (λ r bs, (rq_kind r = kind ∧ rq_object r = object ∧ arm_wf r) ∧ bs = by_arm r).
Proof.
  destruct (arm_of_kind kind) eqn:E; (eapply exact_iff; [apply exact_wrapped, co_exact|]);
    intros r bs; unfold arm_wf, by_arm; split.
  all: try (intros (v & -> & Hv & ->); cbn; rewrite E; by split_and!).
  all: intros [(<- & <- & Hr) ->]; rewrite E in *; destruct r; cbn in *; destruct_hyps; subst;
    by eexists.
Qed.

Lemma exact_request : exact_on dec_request (λ r bs, request_wf r ∧ bs = by_request r).
Proof.
  eapply exact_iff.
  - eapply exact_field; [apply co_exact|]. intros k Hk. apply exact_required. intros _.
    eapply exact_field; [apply co_exact|]. intros o Ho. apply exact_arm.
  - unfold request_wf, by_request, kind_ok. intros r bs. split.
    + intros (k & b2 & [(o & b3 & [(<- & <- & Hr) ->] & Ho & ->) Hc] & Hk & ->). done.
    + intros [(H1 & H2 & H3 & H4) ->]. exists (rq_kind r), (by_objkey (rq_object r) ++ by_arm r).
      split; [|done]. split; [|done]. by exists (rq_object r), (by_arm r).
Qed.

Lemma emits_arm r : arm_wf r → emits (enc_arm r) (by_arm r).
Proof.
  unfold arm_wf, by_arm. intros H c. unfold enc_arm. revert c H.
  destruct (arm_of_kind (rq_kind r)); intros c H; destruct_hyps.
  - by apply (co_emits (e := enc_auth)).
  - apply emits_u64.
  - apply (co_emits (Codec := codec_tagged _ _ _ _ (codec_raw D1_CERTIFICATE_BYTES))). done.
  - apply emits_u64.
Qed.

Lemma request_encode_spec r buf cap :
  request_wf r → (0 <= cap <= Z.of_nat (length buf))%Z →
  d1_control_request_encode r buf cap =
  if decide (zlen (by_request r) <= cap)%Z then Some (by_request r) else None.
Proof.
  intros (H1 & H2 & H3 & H4) Hc. unfold d1_control_request_encode.
  apply andb_true_iff in H2 as [E1 E2]. rewrite E1. apply negb_true_iff in E2. rewrite E2.
  cbn [negb orb]. cbv zeta.
  apply (encoded_spec (λ c, enc_arm r (d1_enc_objkey (rq_object r) (d1_enc_u32 (rq_kind r) c)))); [|done].
  unfold by_request. emits_chain; [apply emits_u32|by apply co_emits|by apply emits_arm].
Qed.

Lemma request_decode_spec buf r :
  d1_control_request_decode buf = Some r ↔ request_wf r ∧ buf = by_request r.
Proof. apply dec_whole_spec, exact_request. Qed.

(** ** Control results *)

Definition ctl_result_wf (r : d1_control_result) : Prop :=
  in_width 32 (cr_status r) ∧ in_width 64 (cr_id r).
Definition by_ctl_result (r : d1_control_result) : list byte :=
  be_split 4 (cr_status r) ++ be_split 8 (cr_id r).

Lemma ctl_result_decode_spec buf r :
  d1_control_result_decode buf = Some r ↔ ctl_result_wf r ∧ buf = by_ctl_result r.
Proof.
  apply dec_whole_spec. eapply exact_iff; [exact_fields|].
  unfold ctl_result_wf, by_ctl_result. solve_fields.
Qed.

Lemma ctl_result_encode_spec r buf cap :
  (0 <= cap <= Z.of_nat (length buf))%Z →
  d1_control_result_encode r buf cap =
  if decide (zlen (by_ctl_result r) <= cap)%Z then Some (by_ctl_result r) else None.
Proof.
  intros Hc. apply (encoded_spec (λ c, d1_enc_u64 (cr_id r) (d1_enc_u32 (cr_status r) c))); [|done].
  unfold by_ctl_result. emits_chain; [apply emits_u32|apply emits_u64].
Qed.

(** ** Complete results *)

#[export] Instance codec_opt_u32 :
  Codec (enc_tagged d1_enc_u32) d1_dec_opt_u32 (by_opt (be_split 4)) (opt_wf (in_width 32)).
Proof. exact (codec_option _ _ _ _ codec_u32). Qed.

Definition entry_wf (e : d1_entry_result) : Prop :=
  in_width 32 (er_status e) ∧ opt_wf (in_width 64) (er_version e) ∧
  opt_wf (in_width 64) (er_txn e) ∧ opt_wf (in_width 64) (er_cohort e) ∧
  (count (er_member_txn e) <= D1_BATCH_ENTRIES_MAX)%Z ∧ Forall (in_width 64) (er_member_txn e) ∧
  opt_wf (in_width 64) (er_postcond e) ∧ opt_wf (in_width 64) (er_episode e) ∧
  opt_wf (in_width 32) (er_member e) ∧ guard_wf (er_guard e) ∧ owner_wf (er_owner e) ∧
  in_width 32 (er_stability e) ∧ in_width 32 (er_phase e) ∧
  length (er_verifier e) = D1_VERIFIER_BYTES.
Definition complete_typed (r : d1_complete_result) : Prop :=
  opkey_wf (co_key r) ∧ in_width 64 (co_index_epoch r) ∧ in_width 64 (co_eof r) ∧
  in_width 32 (co_disposition r) ∧ entry_wf (co_entry r).
Definition complete_wf (r : d1_complete_result) : Prop :=
  complete_typed r ∧ er_disposition (co_entry r) = 0%Z.

Definition by_tail (e : d1_entry_result) : list byte :=
  by_opt (be_split 8) (er_postcond e) ++ by_opt (be_split 8) (er_episode e) ++
  by_opt (be_split 4) (er_member e) ++ by_guard (er_guard e) ++ by_owner (er_owner e) ++
  be_split 4 (er_stability e) ++ by_bool (er_activated e) ++ be_split 4 (er_phase e) ++
  id_bytes (er_verifier e).
Definition by_complete (r : d1_complete_result) : list byte :=
  by_opkey (co_key r) ++ be_split 8 (co_index_epoch r) ++ be_split 8 (co_eof r) ++
  be_split 4 (co_disposition r) ++ be_split 4 (er_status (co_entry r)) ++
  by_opt (be_split 8) (er_version (co_entry r)) ++ by_opt (be_split 8) (er_txn (co_entry r)) ++
  by_opt (be_split 8) (er_cohort (co_entry r)) ++
  be_split 4 (count (er_member_txn (co_entry r))) ++
  concat (map (be_split 8) (er_member_txn (co_entry r))) ++ by_tail (co_entry r).

Lemma exact_complete : exact_on dec_complete (λ r bs, complete_wf r ∧ bs = by_complete r).
Proof.
  eapply exact_iff.
  - do 9 (eapply exact_field; [apply co_exact|intros ? ?]). apply exact_required. intros _.
    eapply exact_field; [apply exact_list, co_exact|]. intros l _. exact_fields.
  - unfold complete_wf, complete_typed, entry_wf, by_complete, by_tail. intros r bs. split.
    + intros H. destruct_hyps. subst. cbn. rewrite app_nil_r.
      match goal with H : length ?l = Z.to_nat ?n, Hn : in_width 32 ?n |- _ =>
        pose proof (count_to_nat l n Hn H); subst n end.
      match goal with H : (_ <=? _)%Z = true |- _ => apply Z.leb_le in H end.
      by split_and!.
    + intros [[H He] ->]. destruct_hyps. destruct r as [k ie eof di [st ver txn co mt po ep me gu ow sta ac ph vf de]].
      cbn in *. subst. repeat match goal with |- ∃ _, _ => eexists | |- _ ∧ _ => split end.
      all: try lazymatch goal with |- length _ = Z.to_nat _ => symmetry; apply Nat2Z.id end.
      all: try done.
      * by apply Z.leb_le.
      * unfold in_width, count, D1_BATCH_ENTRIES_MAX in *. lia.
      * by rewrite app_nil_r.
Qed.

Lemma complete_encode_spec r buf cap :
  complete_typed r → (0 <= cap <= Z.of_nat (length buf))%Z →
  d1_complete_result_encode r buf cap =
  if decide (zlen (by_complete r) <= cap)%Z then Some (by_complete r) else None.
Proof.
  intros (H1 & H2 & H3 & H4 & He) Hc. apply (encoded_spec (enc_complete r)); [|done].
  unfold enc_complete, by_complete, by_tail, entry_wf in *. destruct_hyps. cbv zeta.
  rewrite take_ge by (unfold count, D1_BATCH_ENTRIES_MAX in *; lia).
  emits_chain; try (by apply co_emits); try apply emits_u32; try apply emits_raw.
  apply emits_list. by eapply forall_emits; [apply codec_u64|].
Qed.

Lemma complete_decode_spec buf r :
  d1_complete_result_decode buf = Some r ↔ complete_wf r ∧ buf = by_complete r.
Proof. apply dec_whole_spec, exact_complete. Qed.

(** ** Comparison *)

Lemma bytes_ne_false a b : bytes_ne a b = false ↔ a = b.
Proof. unfold bytes_ne. rewrite negb_false_iff. apply bool_decide_eq_true. Qed.

Lemma opt_ne_false a b : opt_ne a b = false ↔ a = b.
Proof.
  unfold opt_ne. destruct a as [x|], b as [y|]; cbn; try done.
  rewrite negb_false_iff, Z.eqb_eq. naive_solver.
Qed.

Lemma txns_ne_false (l l' : list Z) :
  length l = length l' →
  existsb (λ i, negb (rd 0 l i =? rd 0 l' i)%Z) (seq 0 (length l)) = false ↔ l = l'.
Proof.
  intros Hl. split; [|intros ->].
  - intros H. apply (rd_ext 0%Z); [done|]. intros i Hi.
    destruct (Z.eq_dec (rd 0%Z l i) (rd 0%Z l' i)) as [|Hne]; [done|]. exfalso.
    apply not_true_iff_false in H. apply H, existsb_exists. exists i.
    rewrite in_seq, negb_true_iff, Z.eqb_neq. split; [lia|done].
  - apply not_true_iff_false. intros (i & _ & H)%existsb_exists.
    by rewrite Z.eqb_refl in H.
Qed.

(** What is compared: everything but the disposition no record carries. *)
Definition same_result (a b : d1_complete_result) : Prop :=
  co_key a = co_key b ∧ co_index_epoch a = co_index_epoch b ∧ co_eof a = co_eof b ∧
  co_disposition a = co_disposition b ∧
  ∃ d, mk_entry_result (er_status (co_entry a)) (er_version (co_entry a)) (er_txn (co_entry a))
    (er_cohort (co_entry a)) (er_member_txn (co_entry a)) (er_postcond (co_entry a))
    (er_episode (co_entry a)) (er_member (co_entry a)) (er_guard (co_entry a))
    (er_owner (co_entry a)) (er_stability (co_entry a)) (er_activated (co_entry a))
    (er_phase (co_entry a)) (er_verifier (co_entry a)) d = co_entry b.

Lemma if_false_true (b c : bool) : (if b then false else c) = true ↔ b = false ∧ c = true.
Proof. destruct b; naive_solver. Qed.

Lemma complete_result_equal_spec a b : d1_complete_result_equal a b = true ↔ same_result a b.
Proof.
  unfold d1_complete_result_equal, same_result.
  destruct a as [[ko ks kr] ie eof di [st ver txn co mt po ep me [gg gw gn] [oc ow oi] sta ac ph vf de]].
  destruct b as [[ko' ks' kr'] ie' eof' di'
    [st' ver' txn' co' mt' po' ep' me' [gg' gw' gn'] [oc' ow' oi'] sta' ac' ph' vf' de']].
  cbn -[rd seq]. rewrite !if_false_true, !orb_false_iff, !negb_false_iff, !bytes_ne_false, !opt_ne_false,
    !Z.eqb_eq, !eqb_true_iff. unfold count.
  rewrite negb_true_iff, bytes_ne_false. split.
  - intros. destruct_hyps. match goal with H : existsb _ _ = false |- _ =>
      apply txns_ne_false in H; [|lia] end. subst. by split_and!; [..|eexists].
  - intros (E1 & E2 & E3 & E4 & d & E5). injection E5. injection E1. intros. subst.
    split_and!; try done. by apply txns_ne_false.
Qed.

End ControlCorrect.
