(* ===== verification/Journal.v ===== *)
(** * The D1 journal ([src/lib/d1store/d1_journal.c], [d1_journal.h])

    The append vector with its separate durable length, and the reader of the
    durable prefix.  The allocator is an argument of the operations that grow
    the vector: it says which sizes it grants and what the bytes it adds hold.
    The reader's out parameters are the arguments of [D1_JOURNAL_RECORD]. *)

From S2P Require Import Prelude.
From S2P Require Import Wire.
From S2P Require Import Digest.
Import Wire Digest.

Module Journal.

Definition D1_JOURNAL_MAGIC : Z := 0x44314a31.
Definition D1_JOURNAL_FORMAT : Z := 2.
Definition D1_JOURNAL_HEADER_BYTES : Z := 56.
Definition D1_JOURNAL_TRAILER_BYTES : Z := 4.
Definition D1_JOURNAL_RECORD_MAX : Z := 8 * 1024 * 1024.

(** [enum d1_record_type] *)
Definition D1_REC_START : Z := 1.
Definition D1_REC_CONTROL : Z := 2.
Definition D1_REC_ENTRY : Z := 3.
Definition D1_REC_COHORT : Z := 4.

(** ** The vector *)

Record d1_journal := mk_journal {
  j_buf : list byte;
  j_len : Z;
  j_durable : Z;
  j_durable_lsn : Z;
  j_cap : Z;
  j_next_lsn : Z;
  j_incarnation : Z;
  j_store_uuid : list byte;
  j_fail_append_in : Z;
  j_fail_next_flush : bool;
}.

Definition INITIAL_CAP : Z := 4096.

(** [granted] is the answer of [calloc]; without the buffer everything but the
    capacity is zero. *)
Definition d1_journal_init (granted : bool) (store_uuid : list byte) : bool * d1_journal :=
  if granted
  then (true, mk_journal (replicate (Z.to_nat INITIAL_CAP) x00) 0 0 1 INITIAL_CAP 1 0 store_uuid 0 false)
  else (false, mk_journal [] 0 0 0 INITIAL_CAP 0 0 (replicate D1_UUID_BYTES x00) 0 false).

Definition d1_journal_set_incarnation (j : d1_journal) (incarnation : Z) : d1_journal :=
  mk_journal (j_buf j) (j_len j) (j_durable j) (j_durable_lsn j) (j_cap j) (j_next_lsn j)
    incarnation (j_store_uuid j) (j_fail_append_in j) (j_fail_next_flush j).

(** [realloc(buf, want)]: the old bytes are kept, the new ones are whatever the
    allocator has there. *)
Record allocator := mk_alloc { a_grants : Z → bool; a_fill : nat → byte }.

Definition realloc (a : allocator) (buf : list byte) (want : Z) : option (list byte) :=
  if a_grants a want
  then Some (buf ++ map (a_fill a) (seq (length buf) (Z.to_nat want - length buf)))
  else None.

(** [while (want < target) { if (want > SIZE_MAX / 2) return false; want *= 2; }] *)
Fixpoint reserve_loop (fuel : nat) (want target : Z) : option Z :=
  if (want <? target)%Z then
    match fuel with
    | O => None
    | S fuel =>
        if (SIZE_MAX / 2 <? want)%Z then None else reserve_loop fuel (u64w (want * 2)) target
    end
  else Some want.

Definition d1_journal_reserve (a : allocator) (j : d1_journal) (need : Z) : bool * d1_journal :=
  if (u64w (j_len j + need) <=? j_cap j)%Z then (true, j)
  else
    match reserve_loop 64 (j_cap j) (u64w (j_len j + need)) with
    | None => (false, j)
    | Some want =>
        match realloc a (j_buf j) want with
        | None => (false, j)
        | Some grown =>
            (true, mk_journal grown (j_len j) (j_durable j) (j_durable_lsn j) want
                     (j_next_lsn j) (j_incarnation j) (j_store_uuid j)
                     (j_fail_append_in j) (j_fail_next_flush j))
        end
    end.

Definition set_fail_append (j : d1_journal) (n : Z) : d1_journal :=
  mk_journal (j_buf j) (j_len j) (j_durable j) (j_durable_lsn j) (j_cap j) (j_next_lsn j)
    (j_incarnation j) (j_store_uuid j) n (j_fail_next_flush j).

(** The record as the encoders write it, up to the trailer. *)
Definition enc_record (j : d1_journal) (type total : Z) (body : list byte) (c : d1_cursor)
    : d1_cursor :=
  let c := d1_enc_u32 D1_JOURNAL_MAGIC c in
  let c := d1_enc_u16 (u16w D1_JOURNAL_FORMAT) c in
  let c := d1_enc_u16 (u16w type) c in
  let c := d1_enc_u32 D1_JOURNAL_HEADER_BYTES c in
  let c := d1_enc_u32 (u32w total) c in
  let c := d1_enc_u32 (u32w (Z.lnot (u32w total))) c in
  let c := d1_enc_uuid (j_store_uuid j) c in
  let c := d1_enc_u64 (j_next_lsn j) c in
  let c := d1_enc_u64 (j_incarnation j) c in
  let c := d1_enc_u32 0 c in
  d1_enc_raw body c.

(** The bytes written through a cursor over [j->buf + j->len]. *)
Definition set_tail (j : d1_journal) (cur : d1_cursor) : d1_journal :=
  mk_journal (splice (Z.to_nat (j_len j)) (take (Z.to_nat (c_cap cur)) (c_buf cur)) (j_buf j)) (j_len j) (j_durable j)
    (j_durable_lsn j) (j_cap j) (j_next_lsn j) (j_incarnation j) (j_store_uuid j)
    (j_fail_append_in j) (j_fail_next_flush j).

Definition appended (j : d1_journal) (total : Z) : d1_journal :=
  mk_journal (j_buf j) (u64w (j_len j + total)) (j_durable j) (j_durable_lsn j) (j_cap j)
    (u64w (j_next_lsn j + 1)) (j_incarnation j) (j_store_uuid j) (j_fail_append_in j)
    (j_fail_next_flush j).

(** The record encoded into the reserved bytes, and the trailer after it. *)
Definition write_record (j : d1_journal) (type total : Z) (body : list byte) : bool * d1_journal :=
  let cur := enc_record j type total body
               (d1_enc_init (drop (Z.to_nat (j_len j)) (j_buf j)) total) in
  if c_bad cur || negb (c_len cur =? total - D1_JOURNAL_TRAILER_BYTES)%Z
  then (false, set_tail j cur)
  else
    let crc := d1_crc32c (take (Z.to_nat (c_len cur)) (c_buf cur)) in
    let cur := d1_enc_u32 crc cur in
    if c_bad cur then (false, set_tail j cur)
    else (true, appended (set_tail j cur) total).

(** The append after the armed fault has been looked at. *)
Definition append_record (a : allocator) (j : d1_journal) (type : Z) (body : list byte)
    : bool * d1_journal :=
  if (type <? D1_REC_START)%Z || (D1_REC_COHORT <? type)%Z then (false, j)
  else
    let total := (D1_JOURNAL_HEADER_BYTES + Z.of_nat (length body) + D1_JOURNAL_TRAILER_BYTES)%Z in
    if (D1_JOURNAL_RECORD_MAX <? total)%Z || (UINT32_MAX <? total)%Z then (false, j)
    else if (j_next_lsn j =? UINT64_MAX)%Z then (false, j)
    else
      match d1_journal_reserve a j total with
      | (false, j) => (false, j)
      | (true, j) => write_record j type total body
      end.

Definition d1_journal_append (a : allocator) (j : d1_journal) (type : Z) (body : list byte)
    : bool * d1_journal :=
  if negb (j_fail_append_in j =? 0)%Z then
    let j := set_fail_append j (j_fail_append_in j - 1) in
    if (j_fail_append_in j =? 0)%Z then (false, j) else append_record a j type body
  else append_record a j type body.

Definition d1_journal_adopt (a : allocator) (j : d1_journal) (log : list byte) (durable next_lsn : Z)
    : bool * d1_journal :=
  if negb (j_len j =? 0)%Z then (false, j)
  else
    match d1_journal_reserve a j durable with
    | (false, j) => (false, j)
    | (true, j) =>
        (true, mk_journal (splice 0 (take (Z.to_nat durable) log) (j_buf j)) durable durable
                 next_lsn (j_cap j) next_lsn (j_incarnation j) (j_store_uuid j)
                 (j_fail_append_in j) (j_fail_next_flush j))
    end.

Definition d1_journal_flush (j : d1_journal) : bool * d1_journal :=
  if j_fail_next_flush j then
    (false, mk_journal (j_buf j) (j_len j) (j_durable j) (j_durable_lsn j) (j_cap j)
              (j_next_lsn j) (j_incarnation j) (j_store_uuid j) (j_fail_append_in j) false)
  else
    (true, mk_journal (j_buf j) (j_len j) (j_len j) (j_next_lsn j) (j_cap j) (j_next_lsn j)
             (j_incarnation j) (j_store_uuid j) (j_fail_append_in j) (j_fail_next_flush j)).

Definition d1_journal_rollback (j : d1_journal) : d1_journal :=
  mk_journal (j_buf j) (j_durable j) (j_durable j) (j_durable_lsn j) (j_cap j) (j_durable_lsn j)
    (j_incarnation j) (j_store_uuid j) (j_fail_append_in j) (j_fail_next_flush j).

(** ** The reader *)

Inductive d1_journal_read :=
  | D1_JOURNAL_RECORD (type lsn incarnation : Z) (body : list byte)
  | D1_JOURNAL_CLEAN_END
  | D1_JOURNAL_CORRUPT.

Record d1_journal_cursor := mk_jcur {
  jc_buf : list byte;
  jc_durable : Z;
  jc_at : Z;
  jc_expect_uuid : list byte;
  jc_last_lsn : Z;
}.

Definition d1_journal_cursor_init (buf : list byte) (durable : Z) (expect_uuid : list byte)
    : d1_journal_cursor := mk_jcur buf durable 0 expect_uuid 0.

(** The header, every field checked: the type, the total length, the LSN and the
    incarnation. *)
Definition dec_header (remaining : Z) (expect_uuid : list byte) (last_lsn : Z)
    : dec (Z * Z * Z * Z) :=
  magic ← d1_dec_u32;
  _ ← dec_require (magic =? D1_JOURNAL_MAGIC)%Z;
  format ← d1_dec_u16;
  _ ← dec_require (format =? D1_JOURNAL_FORMAT)%Z;
  rtype ← d1_dec_u16;
  _ ← dec_require (negb ((rtype <? D1_REC_START)%Z || (D1_REC_COHORT <? rtype)%Z));
  header_bytes ← d1_dec_u32;
  _ ← dec_require (header_bytes =? D1_JOURNAL_HEADER_BYTES)%Z;
  total ← d1_dec_u32;
  complement ← d1_dec_u32;
  _ ← dec_require (complement =? u32w (Z.lnot total))%Z;
  _ ← dec_require (negb ((total <? D1_JOURNAL_HEADER_BYTES + D1_JOURNAL_TRAILER_BYTES)%Z
                         || (D1_JOURNAL_RECORD_MAX <? total)%Z || (remaining <? total)%Z));
  uuid ← d1_dec_uuid;
  _ ← dec_require (bool_decide (uuid = expect_uuid));
  rlsn ← d1_dec_u64;
  rinc ← d1_dec_u64;
  reserved ← d1_dec_u32;
  _ ← dec_require (reserved =? 0)%Z;
  _ ← dec_require (rlsn =? u64w (last_lsn + 1))%Z;
  mret (rtype, total, rlsn, rinc).

Definition stored_crc (trailer : list byte) : Z :=
  Z.lor (Z.lor (Z.lor (u32w (Z.shiftl (bz (rd x00 trailer 0)) 24))
                      (u32w (Z.shiftl (bz (rd x00 trailer 1)) 16)))
               (u32w (Z.shiftl (bz (rd x00 trailer 2)) 8)))
        (bz (rd x00 trailer 3)).

Definition d1_journal_next (c : d1_journal_cursor) : d1_journal_read * d1_journal_cursor :=
  let remaining := u64w (jc_durable c - jc_at c) in
  let p := drop (Z.to_nat (jc_at c)) (jc_buf c) in
  if (jc_at c =? jc_durable c)%Z then (D1_JOURNAL_CLEAN_END, c)
  else if (remaining <? D1_JOURNAL_HEADER_BYTES + D1_JOURNAL_TRAILER_BYTES)%Z
  then (D1_JOURNAL_CORRUPT, c)
  else
    match dec_header remaining (jc_expect_uuid c) (jc_last_lsn c)
            (d1_dec_init (take (Z.to_nat remaining) p)) with
    | (None, _) => (D1_JOURNAL_CORRUPT, c)
    | (Some (rtype, total, rlsn, rinc), _) =>
        let data := Z.to_nat (total - D1_JOURNAL_TRAILER_BYTES) in
        let stored := stored_crc (take 4 (drop data p)) in
        if negb (d1_crc32c (take data p) =? stored)%Z then (D1_JOURNAL_CORRUPT, c)
        else
          let len := Z.to_nat (total - D1_JOURNAL_HEADER_BYTES - D1_JOURNAL_TRAILER_BYTES) in
          (D1_JOURNAL_RECORD rtype rlsn rinc
             (take len (drop (Z.to_nat D1_JOURNAL_HEADER_BYTES) p)),
           mk_jcur (jc_buf c) (jc_durable c) (jc_at c + total) (jc_expect_uuid c) rlsn)
    end.

End Journal.
