(* ===== verification/JournalCorrect.v ===== *)
(** * The journal keeps whole records

    [by_record] is the only layout of a record: the append writes it and the
    reader accepts nothing else.  [j_repr] relates the vector to the records
    claimed durable and the records appended since. *)

From S2P Require Import Prelude.
From S2P Require Import Words.
From S2P Require Import Wire.
From S2P Require Import WireCorrect.
From S2P Require Import Digest.
From S2P Require Import DigestCorrect.
From S2P Require Import Journal.
Import Words Wire WireCorrect Digest DigestCorrect Journal.

Module JournalCorrect.

(** ** One record *)

Record jrec := mk_jrec { jr_type : Z; jr_inc : Z; jr_body : list byte }.

Definition rec_total (r : jrec) : Z :=
  (D1_JOURNAL_HEADER_BYTES + zlen (jr_body r) + D1_JOURNAL_TRAILER_BYTES)%Z.

Definition rec_wf (r : jrec) : Prop :=
  (D1_REC_START <= jr_type r <= D1_REC_COHORT)%Z ∧ in_width 64 (jr_inc r) ∧
  (rec_total r <= D1_JOURNAL_RECORD_MAX)%Z.

Definition by_header (uuid : list byte) (type total lsn inc : Z) : list byte :=
  be_split 4 D1_JOURNAL_MAGIC ++ be_split 2 D1_JOURNAL_FORMAT ++ be_split 2 type ++
  be_split 4 D1_JOURNAL_HEADER_BYTES ++ be_split 4 total ++ be_split 4 (u32w (Z.lnot total)) ++
  id_bytes uuid ++ be_split 8 lsn ++ be_split 8 inc ++ be_split 4 0.

Definition by_data (uuid : list byte) (lsn : Z) (r : jrec) : list byte :=
  by_header uuid (jr_type r) (rec_total r) lsn (jr_inc r) ++ jr_body r.

Definition by_record (uuid : list byte) (lsn : Z) (r : jrec) : list byte :=
  by_data uuid lsn r ++ be_split 4 (d1_crc32c (by_data uuid lsn r)).

Lemma zlen_be_split n v : zlen (be_split n v) = Z.of_nat n.
Proof. unfold zlen. by rewrite length_be_split. Qed.

Lemma zlen_nonneg l : (0 <= zlen l)%Z.
Proof. unfold zlen. lia. Qed.

Lemma stored_crc_spec l : length l = 4%nat → stored_crc l = be_combine l.
Proof. apply be_combine_4. Qed.

Lemma crc_split d : be_combine (be_split 4 (d1_crc32c d)) = d1_crc32c d.
Proof. apply be_combine_split. exact (crc32c_range d). Qed.

(** The bytes a header announces are header, body and trailer. *)
Lemma split_announced (h tl : list byte) total :
  zlen h = 56%Z → (60 <= total <= zlen (h ++ tl))%Z →
  ∃ body tr tl', tl = body ++ tr ++ tl' ∧ zlen body = (total - 60)%Z ∧ length tr = 4%nat.
Proof.
  intros Hh Ht. rewrite zlen_app, Hh in Ht. unfold zlen in *.
  exists (take (Z.to_nat (total - 60)) tl), (take 4 (drop (Z.to_nat (total - 60)) tl)),
    (drop 4 (drop (Z.to_nat (total - 60)) tl)).
  rewrite !take_drop, !length_take, length_drop. split; [done|]. lia.
Qed.

Lemma take_mid (a b c : list byte) n m :
  n = length a → m = length b → take m (drop n (a ++ b ++ c)) = b.
Proof. intros -> ->. by rewrite drop_app_length, take_app_length. Qed.

(** The complement of a word, byte by byte. *)
Definition bnot (b : byte) : byte := zb (255 - bz b).

Lemma le_split_complement n v :
  (0 <= v < 256 ^ Z.of_nat n)%Z →
  le_split n (256 ^ Z.of_nat n - 1 - v) = map bnot (le_split n v).
Proof.
  revert v. induction n as [|n IH]; intros v Hv; [done|].
  rewrite Nat2Z.inj_succ, Z.pow_succ_r in * by lia. cbn [le_split map].
  pose proof (Z_div_mod_eq_full v 256) as E. pose proof (Z.mod_pos_bound v 256 ltac:(lia)) as Hr.
  rewrite <-IH by (split; [apply Z.div_pos|apply Z.div_lt_upper_bound]; lia). f_equal.
  - apply bz_inj. unfold bnot. rewrite !bz_zb.
    replace (256 * 256 ^ Z.of_nat n - 1 - v)%Z
      with (255 - v mod 256 + (256 ^ Z.of_nat n - 1 - v / 256) * 256)%Z by lia.
    apply Z.mod_add. lia.
  - f_equal. symmetry. apply (Z.div_unique _ _ _ (255 - v mod 256)); lia.
Qed.

Lemma be_split_complement v :
  in_width 32 v → be_split 4 (u32w (Z.lnot v)) = map bnot (be_split 4 v).
Proof.
  intros Hv. unfold in_width in Hv. unfold be_split. rewrite map_rev. f_equal.
  rewrite <-le_split_complement by lia. f_equal. unfold u32w, wrap, Z.lnot.
  symmetry. apply (Z.mod_unique _ _ (-1)); lia.
Qed.

Lemma bnot_inj a b : bnot a = bnot b → a = b.
Proof.
  intros H. apply bz_inj. apply (f_equal bz) in H. unfold bnot in H. rewrite !bz_zb in H.
  pose proof (bz_range a). pose proof (bz_range b). rewrite !Z.mod_small in H by lia. lia.
Qed.

Lemma rd_outside (a w w' b : list byte) i :
  length w = length w' → ¬ (length a <= i < length a + length w)%nat →
  rd x00 (a ++ w ++ b) i = rd x00 (a ++ w' ++ b) i.
Proof.
  intros Hl Hi. rewrite !rd_app, Hl. repeat case_decide; done || lia.
Qed.

Section Record_bytes.
Context (uuid : list byte) (Huuid : length uuid = D1_UUID_BYTES).

Lemma zlen_header type total lsn inc :
  zlen (by_header uuid type total lsn inc) = D1_JOURNAL_HEADER_BYTES.
Proof using Huuid.
  unfold by_header. rewrite !zlen_app, !zlen_be_split. unfold zlen, id_bytes. by rewrite Huuid.
Qed.

Lemma zlen_data lsn r :
  zlen (by_data uuid lsn r) = (rec_total r - D1_JOURNAL_TRAILER_BYTES)%Z.
Proof using Huuid. unfold by_data, rec_total. rewrite zlen_app, zlen_header. lia. Qed.

Lemma zlen_record lsn r : zlen (by_record uuid lsn r) = rec_total r.
Proof using Huuid.
  unfold by_record. rewrite zlen_app, zlen_data, zlen_be_split. unfold D1_JOURNAL_TRAILER_BYTES. lia.
Qed.

(** What the reader asks of a header. *)
Definition header_wf (remaining last_lsn type total lsn inc : Z) : Prop :=
  (D1_REC_START <= type <= D1_REC_COHORT)%Z ∧
  (D1_JOURNAL_HEADER_BYTES + D1_JOURNAL_TRAILER_BYTES <= total <= D1_JOURNAL_RECORD_MAX)%Z ∧
  (total <= remaining)%Z ∧ in_width 64 inc ∧ lsn = u64w (last_lsn + 1).

Lemma exact_header remaining last_lsn :
  exact_on (dec_header remaining uuid last_lsn)
    (λ v bs, let '(type, total, lsn, inc) := v in
       header_wf remaining last_lsn type total lsn inc ∧ bs = by_header uuid type total lsn inc).
Proof using Huuid.
  eapply exact_iff.
  - repeat first [ eapply exact_field; [apply co_exact|intros ? ?]
                 | apply exact_required; intros _ ]. apply exact_ret.
  - unfold header_wf, by_header. intros [[[type total] lsn] inc] bs. split.
    + intros H. destruct_hyps. bool_prop. simplify_eq. rewrite ?app_nil_r. 
      match goal with H : bool_decide _ = true |- _ => apply bool_decide_eq_true in H; subst end.
      split_and!; done || lia.
    + intros [(H1 & H2 & H3 & H4 & ->) ->].
      assert (in_width 16 type)
        by (unfold in_width, D1_REC_START, D1_REC_COHORT in *; lia).
      assert (in_width 32 total)
        by (unfold in_width, D1_JOURNAL_RECORD_MAX, D1_JOURNAL_HEADER_BYTES, D1_JOURNAL_TRAILER_BYTES in *; lia).
      rewrite <-(app_nil_r (be_split 4 0)).
      repeat first [ eexists; eexists; split; [|split; [|reflexivity]]
                   | match goal with |- (_ ∧ _) ∧ _ => split end
                   | match goal with |- (∃ _, _) ∧ _ => split end
                   | match goal with |- (_ = _ ∧ _ = []) => done end ].
      all: try done; try (by apply Z.eqb_refl); try (by apply wrap_in_width); try (by apply bool_decide_eq_true).
      all: apply negb_true_iff; rewrite ?orb_false_iff, ?Z.ltb_ge; lia.
Qed.
Lemma header_reads remaining last_lsn p type total lsn inc :
  fst (dec_header remaining uuid last_lsn (d1_dec_init p)) = Some (type, total, lsn, inc) ↔
  header_wf remaining last_lsn type total lsn inc ∧
  ∃ tl, p = by_header uuid type total lsn inc ++ tl.
Proof using Huuid.
  destruct (dec_init_ok p) as [Hd Hr]. destruct (exact_header remaining last_lsn) as [D1 D2]. split.
  - destruct (dec_header _ _ _ _) as [v c'] eqn:E. cbn [fst]. intros ->.
    destruct (D2 _ _ _ Hd E) as (bs & tl & [H ->] & Hp & _). split; [done|]. exists tl. congruence.
  - intros [H [tl Hp]].
    by rewrite (D1 _ (type, total, lsn, inc) (by_header uuid type total lsn inc) tl); try congruence.
Qed.

(** ** The reader *)

Record jcur_wf (c : d1_journal_cursor) : Prop := {
  jw_at : (0 <= jc_at c <= jc_durable c)%Z;
  jw_buf : (jc_durable c <= zlen (jc_buf c))%Z;
  jw_width : in_width 64 (jc_durable c);
  jw_uuid : jc_expect_uuid c = uuid;
}.

(** The durable bytes not yet read. *)
Definition unread (c : d1_journal_cursor) : list byte :=
  take (Z.to_nat (jc_durable c - jc_at c)) (drop (Z.to_nat (jc_at c)) (jc_buf c)).

Definition past (c : d1_journal_cursor) (lsn n : Z) : d1_journal_cursor :=
  mk_jcur (jc_buf c) (jc_durable c) (jc_at c + n) (jc_expect_uuid c) lsn.

Lemma zlen_unread c : jcur_wf c → zlen (unread c) = (jc_durable c - jc_at c)%Z.
Proof using Huuid.
  intros [H1 H2 _ _]. unfold unread, zlen in *. rewrite length_take, length_drop. lia.
Qed.

Lemma unread_past c lsn bs tl :
  jcur_wf c → unread c = bs ++ tl →
  jcur_wf (past c lsn (zlen bs)) ∧ unread (past c lsn (zlen bs)) = tl.
Proof using Huuid.
  intros Hw E. pose proof (zlen_unread _ Hw) as Hl. rewrite E, zlen_app in Hl.
  pose proof (zlen_nonneg bs). pose proof (zlen_nonneg tl). destruct Hw as [H1 H2 H3 H4]. split.
  - constructor; cbn; done || lia.
  - unfold unread, past in *. cbn [jc_durable jc_at jc_buf].
    rewrite Z2Nat.inj_add, <-drop_drop by lia.
    replace (Z.to_nat (jc_durable c - (jc_at c + zlen bs)))
      with (Z.to_nat (jc_durable c - jc_at c) - Z.to_nat (zlen bs))%nat by lia.
    rewrite <-skipn_firstn_comm, E. unfold zlen. rewrite Nat2Z.id. apply drop_app_length.
Qed.

(** Inside a record the reader's pointer and the durable bytes agree. *)
Lemma unread_slice c n k :
  (Z.of_nat (n + k) <= jc_durable c - jc_at c)%Z →
  take k (drop n (drop (Z.to_nat (jc_at c)) (jc_buf c))) = take k (drop n (unread c)).
Proof using Huuid.
  intros H. unfold unread. rewrite skipn_firstn_comm, take_take. f_equal. lia.
Qed.

(** What the reader answers once the header is good. *)
Lemma next_checked c type total lsn inc body tr tl :
  jcur_wf c → header_wf (jc_durable c - jc_at c) (jc_last_lsn c) type total lsn inc →
  zlen body = (total - 60)%Z → length tr = 4%nat →
  unread c = by_header uuid type total lsn inc ++ body ++ tr ++ tl →
  d1_journal_next c =
  if (d1_crc32c (by_header uuid type total lsn inc ++ body) =? be_combine tr)%Z
  then (D1_JOURNAL_RECORD type lsn inc body, past c lsn total) else (D1_JOURNAL_CORRUPT, c).
Proof using Huuid.
  intros Hw Hh Hb Ht E. pose proof (zlen_unread _ Hw) as Hl. pose proof Hh as (_ & H2 & H3 & _).
  destruct Hw as [W1 W2 W3 W4]. unfold d1_journal_next. cbv zeta.
  change D1_JOURNAL_HEADER_BYTES with 56%Z in *. change D1_JOURNAL_TRAILER_BYTES with 4%Z in *.
  pose proof (zlen_header type total lsn inc) as Hz.
  rewrite (proj2 (Z.eqb_neq _ _)) by lia.
  rewrite wrap_small by (unfold in_width in *; lia). rewrite (proj2 (Z.ltb_ge _ _)) by lia.
  fold (unread c). rewrite W4.
  pose proof (proj2 (header_reads (jc_durable c - jc_at c) (jc_last_lsn c) (unread c)
    type total lsn inc) (conj Hh (ex_intro _ _ E))) as Hx.
  destruct (dec_header _ _ _ _) as [v ?]. cbn [fst] in Hx. subst v. cbv beta iota.
  set (h := by_header uuid type total lsn inc) in *. unfold zlen, D1_JOURNAL_HEADER_BYTES in *.
  rewrite <-(drop_0 (drop (Z.to_nat (jc_at c)) (jc_buf c))) at 1.
  rewrite !unread_slice by lia. rewrite drop_0, E.
  rewrite (take_mid h body _ (Z.to_nat 56)) by lia.
  rewrite (app_assoc h body), (take_mid (h ++ body) tr) by (rewrite ?length_app; lia).
  rewrite take_app_le, take_ge by (rewrite length_app; lia). rewrite stored_crc_spec by done.
  unfold past. rewrite W4. by destruct (_ =? _)%Z.
Qed.

(** A record at the front of the unread bytes is handed back. *)
Lemma next_reads c r tl (lsn := u64w (jc_last_lsn c + 1)) :
  jcur_wf c → rec_wf r → unread c = by_record uuid lsn r ++ tl →
  d1_journal_next c = (D1_JOURNAL_RECORD (jr_type r) lsn (jr_inc r) (jr_body r),
                       past c lsn (rec_total r)).
Proof using Huuid.
  intros Hw (R1 & R2 & R3) E. pose proof (zlen_unread _ Hw) as Hl.
  rewrite E, zlen_app, zlen_record in Hl. pose proof (zlen_nonneg tl).
  pose proof (zlen_nonneg (jr_body r)). unfold by_record, by_data in E. rewrite <-!app_assoc in E.
  etransitivity; [eapply next_checked; [done| | |apply length_be_split|exact E]|].
  - unfold header_wf, rec_total, D1_JOURNAL_HEADER_BYTES, D1_JOURNAL_TRAILER_BYTES in *.
    split_and!; done || lia.
  - unfold rec_total, D1_JOURNAL_HEADER_BYTES, D1_JOURNAL_TRAILER_BYTES. lia.
  - by rewrite crc_split, Z.eqb_refl.
Qed.

(** Nothing else is: what comes back was a whole record in that place. *)
Lemma next_inv c type lsn inc body c' :
  jcur_wf c → d1_journal_next c = (D1_JOURNAL_RECORD type lsn inc body, c') →
  let r := mk_jrec type inc body in
  rec_wf r ∧ lsn = u64w (jc_last_lsn c + 1) ∧ c' = past c lsn (rec_total r) ∧
  ∃ tl, unread c = by_record uuid lsn r ++ tl.
Proof using Huuid.
  intros Hw H. pose proof (zlen_unread _ Hw) as Hl.
  assert (Hh : ∃ type total lsn inc tl,
    header_wf (jc_durable c - jc_at c) (jc_last_lsn c) type total lsn inc ∧
    unread c = by_header uuid type total lsn inc ++ tl).
  { destruct Hw as [W1 W2 W3 W4]. unfold d1_journal_next in H. cbv zeta in H.
    rewrite wrap_small in H by (unfold in_width in *; lia). fold (unread c) in H. rewrite W4 in H.
    case_match; [done|]. case_match; [done|].
    destruct (dec_header _ _ _ _) as [[[[[t0 n0] l0] i0]|] ?] eqn:E; [|done].
    apply (f_equal fst) in E. apply header_reads in E as (Hh & tl & E). by exists t0, n0, l0, i0, tl. }
  destruct Hh as (t0 & n0 & l0 & i0 & tl & Hh & E). pose proof Hh as (H1 & H2 & H3 & H4 & H5).
  unfold D1_JOURNAL_HEADER_BYTES, D1_JOURNAL_TRAILER_BYTES in H2.
  destruct (split_announced _ _ n0 (zlen_header t0 n0 l0 i0) ltac:(rewrite <-E; lia))
    as (b0 & tr & tl' & -> & Hb & Ht).
  erewrite next_checked in H; [|done..]. case_match eqn:Hc; [|done]. simplify_eq.
  apply Z.eqb_eq in Hc. intros r.
  assert (Hn : rec_total r = n0)
    by (unfold rec_total, r, D1_JOURNAL_HEADER_BYTES, D1_JOURNAL_TRAILER_BYTES; cbn; lia).
  split; [unfold rec_wf; rewrite Hn; split; [exact H1|split; [exact H4|lia]]|].
  split; [done|]. split; [by rewrite Hn|]. exists tl'.
  unfold by_record, by_data. rewrite Hn. cbn [r jr_type jr_inc jr_body]. rewrite E, Hc.
  rewrite <-Ht, be_split_combine. by rewrite <-!app_assoc.
Qed.

(** ** Whole logs *)

Fixpoint by_log (lsn : Z) (rs : list jrec) : list byte :=
  match rs with
  | [] => []
  | r :: rs => by_record uuid lsn r ++ by_log (lsn + 1) rs
  end.

Lemma by_log_app lsn rs rs' :
  by_log lsn (rs ++ rs') = by_log lsn rs ++ by_log (lsn + Z.of_nat (length rs)) rs'.
Proof using Huuid.
  revert lsn. induction rs as [|r rs IH]; intros lsn; cbn [app by_log length].
  - by rewrite Z.add_0_r.
  - rewrite IH, <-app_assoc. do 3 f_equal. lia.
Qed.

(** The records with their LSNs, as the reader reports them. *)
Fixpoint numbered (lsn : Z) (rs : list jrec) : list (Z * jrec) :=
  match rs with
  | [] => []
  | r :: rs => (lsn, r) :: numbered (lsn + 1) rs
  end.

(** The loop every reader of a log runs: records until the first answer that is
    not one; [true] is the clean end and [false] is corruption. *)
Fixpoint read_log (fuel : nat) (c : d1_journal_cursor) : option (list (Z * jrec) * bool) :=
  match fuel with
  | O => None
  | S fuel =>
      match d1_journal_next c with
      | (D1_JOURNAL_RECORD type lsn inc body, c) =>
          '(rs, e) ← read_log fuel c; Some ((lsn, mk_jrec type inc body) :: rs, e)
      | (D1_JOURNAL_CLEAN_END, _) => Some ([], true)
      | (D1_JOURNAL_CORRUPT, _) => Some ([], false)
      end
  end.

Lemma next_end c : jcur_wf c → unread c = [] → d1_journal_next c = (D1_JOURNAL_CLEAN_END, c).
Proof using Huuid.
  intros Hw E. pose proof (zlen_unread _ Hw) as Hl. rewrite E in Hl.
  change (zlen []) with 0%Z in Hl.
  unfold d1_journal_next. cbv zeta. by rewrite (proj2 (Z.eqb_eq _ _)) by lia.
Qed.

Lemma next_not_end c c' : jcur_wf c → d1_journal_next c = (D1_JOURNAL_CLEAN_END, c') → unread c = [].
Proof using Huuid.
  intros Hw H. pose proof (zlen_unread _ Hw) as Hl. unfold d1_journal_next in H. cbv zeta in H.
  case_match eqn:E.
  - apply Z.eqb_eq in E. apply length_zero_iff_nil. unfold zlen in Hl. lia.
  - case_match; [done|].
    destruct (dec_header _ _ _ _) as [[[[[? ?] ?] ?]|] ?]; [|done]. by case_match.
Qed.

(** Every record takes bytes, so the loop ends. *)
Lemma read_log_total fuel c :
  jcur_wf c → (length (unread c) < fuel)%nat → is_Some (read_log fuel c).
Proof using Huuid.
  revert c. induction fuel as [|fuel IH]; intros c Hw Hf; [lia|]. cbn [read_log].
  destruct (d1_journal_next c) as [[type lsn inc body| |] c'] eqn:E; [|done..].
  apply next_inv in E as (Hr & _ & -> & tl & E); [|done].
  rewrite <-(zlen_record lsn (mk_jrec type inc body)) in *.
  destruct (unread_past c lsn _ _ Hw E) as [Hw' E'].
  rewrite E, length_app in Hf. pose proof (zlen_record lsn (mk_jrec type inc body)) as Hz.
  pose proof (zlen_nonneg body).
  unfold zlen, rec_total, D1_JOURNAL_HEADER_BYTES, D1_JOURNAL_TRAILER_BYTES in Hz. cbn in Hz.
  destruct (IH _ Hw') as [[rs e] ->]; [rewrite E'; lia|done].
Qed.

(** Reading past whole records. *)
Lemma read_log_records rs fuel c tl :
  jcur_wf c → Forall rec_wf rs → (0 <= jc_last_lsn c)%Z →
  (jc_last_lsn c + Z.of_nat (length rs) <= UINT64_MAX)%Z →
  unread c = by_log (jc_last_lsn c + 1) rs ++ tl →
  ∃ c', jcur_wf c' ∧ unread c' = tl ∧
    jc_last_lsn c' = (jc_last_lsn c + Z.of_nat (length rs))%Z ∧
    read_log (length rs + fuel) c =
    ('(l, e) ← read_log fuel c'; Some (numbered (jc_last_lsn c + 1) rs ++ l, e)).
Proof using Huuid.
  revert c. induction rs as [|r rs IH]; intros c Hw Hrs H0 Hmax E.
  { exists c. cbn in *. split_and!; try done; [lia|]. by destruct (read_log fuel c) as [[]|]. }
  apply list.Forall_cons in Hrs as [Hr Hrs]. cbn [by_log length] in *.
  assert (Hl : u64w (jc_last_lsn c + 1) = (jc_last_lsn c + 1)%Z)
    by (apply wrap_small; unfold in_width, UINT64_MAX in *; lia).
  rewrite <-app_assoc in E.
  pose proof (λ tl, next_reads c r tl Hw Hr) as Hn. rewrite Hl in Hn. specialize (Hn _ E).
  rewrite <-(zlen_record (jc_last_lsn c + 1)) in Hn.
  destruct (unread_past c (jc_last_lsn c + 1) _ _ Hw E) as [Hw' E'].
  destruct (IH _ Hw' Hrs) as (c' & Hc' & Hu & Hlast & Hread); cbn [past jc_last_lsn] in *; [lia..|done|].
  exists c'. split; [done|]. split; [done|]. split; [lia|].
  cbn [Nat.add read_log]. rewrite Hn, Hread. cbn [numbered app].
  destruct r. by destruct (read_log fuel c') as [[]|].
Qed.

(** ** Damage *)

(** The length field and its complement. *)
Lemma rd_total lsn r tl i :
  rec_wf r → (i < 4)%nat →
  rd x00 (by_record uuid lsn r ++ tl) (12 + i) = rd x00 (be_split 4 (rec_total r)) i ∧
  rd x00 (by_record uuid lsn r ++ tl) (16 + i) = bnot (rd x00 (be_split 4 (rec_total r)) i).
Proof using Huuid.
  intros (_ & _ & Hr) Hi. pose proof (zlen_nonneg (jr_body r)).
  assert (Hw : in_width 32 (rec_total r))
    by (unfold in_width, D1_JOURNAL_RECORD_MAX, rec_total, D1_JOURNAL_HEADER_BYTES,
          D1_JOURNAL_TRAILER_BYTES in *; lia).
  set (pre := be_split 4 D1_JOURNAL_MAGIC ++ be_split 2 D1_JOURNAL_FORMAT ++
    be_split 2 (jr_type r) ++ be_split 4 D1_JOURNAL_HEADER_BYTES).
  assert (Hp : length pre = 12%nat) by (unfold pre; by rewrite !length_app, !length_be_split).
  assert (E : ∃ post, by_record uuid lsn r ++ tl =
    pre ++ be_split 4 (rec_total r) ++ map bnot (be_split 4 (rec_total r)) ++ post).
  { unfold by_record, by_data, by_header. rewrite (be_split_complement _ Hw).
    unfold pre. rewrite <-!app_assoc. by eexists. }
  destruct E as [post ->]. rewrite !rd_app, !length_map, !length_be_split, Hp.
  repeat case_decide; try lia. split; [f_equal; lia|].
  rewrite (rd_map x00) by (rewrite length_be_split; lia). do 2 f_equal. lia.
Qed.

(** Damage of up to four consecutive bytes does not change the length a reader
    accepts: of a byte and its complement one is outside. *)
Lemma damage_keeps_total lsn r r' a w w' b tl tl' :
  rec_wf r → rec_wf r' → length w = length w' → (length w <= 4)%nat →
  by_record uuid lsn r = a ++ w ++ b →
  (a ++ w' ++ b) ++ tl = by_record uuid lsn r' ++ tl' → rec_total r' = rec_total r.
Proof using Huuid.
  intros Hr Hr' Hl H4 E E'.
  assert (Eb : be_split 4 (rec_total r') = be_split 4 (rec_total r)).
  { apply (rd_ext x00); rewrite !length_be_split; [done|]. intros i Hi.
    destruct (rd_total lsn r tl i Hr Hi) as [A1 A2].
    destruct (rd_total lsn r' tl' i Hr' Hi) as [B1 B2].
    rewrite E in A1, A2. rewrite <-E' in B1, B2. rewrite <-!app_assoc in *.
    destruct (decide (length a <= 12 + i < length a + length w)%nat).
    - apply bnot_inj. rewrite <-A2, <-B2. symmetry. apply rd_outside; lia.
    - rewrite <-A1, <-B1. symmetry. by apply rd_outside. }
  apply (f_equal be_combine) in Eb. destruct Hr as (_ & _ & Hr), Hr' as (_ & _ & Hr').
  pose proof (zlen_nonneg (jr_body r)). pose proof (zlen_nonneg (jr_body r')).
  unfold rec_total, D1_JOURNAL_RECORD_MAX, D1_JOURNAL_HEADER_BYTES, D1_JOURNAL_TRAILER_BYTES in *.
  rewrite !be_combine_split in Eb by lia. lia.
Qed.

(** The damage the format promises to catch: up to four consecutive bytes,
    all of them checksummed or all of them checksum. *)
Definition damage (lsn : Z) (r : jrec) (a w w' b : list byte) : Prop :=
  by_record uuid lsn r = a ++ w ++ b ∧ length w = length w' ∧ (length w <= 4)%nat ∧ w ≠ w' ∧
  (zlen (a ++ w) <= rec_total r - D1_JOURNAL_TRAILER_BYTES ∨
   rec_total r - D1_JOURNAL_TRAILER_BYTES <= zlen a)%Z.

Lemma damaged_not_record lsn r r' a w w' b :
  damage lsn r a w w' b → rec_total r' = rec_total r → a ++ w' ++ b ≠ by_record uuid lsn r'.
Proof using Huuid.
  intros (E & Hl & H4 & Hne & Hin) Ht E'. unfold by_record in E, E'.
  pose proof (zlen_data lsn r) as D. pose proof (zlen_data lsn r') as D'.
  set (d := by_data uuid lsn r) in *. set (d' := by_data uuid lsn r') in *.
  rewrite Ht, <-D in D'. rewrite zlen_app, <-D in Hin. unfold zlen in *.
  destruct Hin as [Hin|Hin].
  - assert (Ed : d = a ++ w ++ take (length d - length (a ++ w)) b).
    { apply (f_equal (take (length d))) in E. rewrite take_app_length in E. rewrite E at 1.
      rewrite (app_assoc a w), take_app_ge by (rewrite length_app; lia). by rewrite <-app_assoc. }
    assert (Ed' : d' = a ++ w' ++ take (length d - length (a ++ w)) b).
    { apply (f_equal (take (length d))) in E'. rewrite <-(take_app_length d' (be_split 4 (d1_crc32c d'))).
      replace (length d') with (length d) by lia. rewrite <-E', (app_assoc a w').
      rewrite take_app_ge by (rewrite length_app; lia). rewrite <-app_assoc.
      do 3 f_equal. rewrite !length_app. lia. }
    apply (crc32c_burst a w w' (take (length d - length (a ++ w)) b)); [done..|].
    rewrite <-Ed, <-Ed', <-(crc_split d), <-(crc_split d'). f_equal.
    apply (f_equal (drop (length d))) in E. apply (f_equal (drop (length d))) in E'.
    rewrite drop_app_length in E. replace (length d) with (length d') in E' at 2 by lia.
    rewrite drop_app_length in E'. rewrite E, <-E', !app_assoc.
    rewrite !(drop_app_ge (_ ++ _)) by (rewrite length_app; lia). by rewrite !length_app, Hl.
  - assert (Ed : d = d').
    { apply (f_equal (take (length d))) in E. apply (f_equal (take (length d))) in E'.
      rewrite take_app_length in E. replace (length d) with (length d') in E' at 2 by lia.
      rewrite take_app_length in E'. rewrite take_app_le in E, E' by lia. congruence. }
    rewrite <-Ed, E in E'. apply app_inv_head, app_inv_tail in E'. by apply Hne.
Qed.

(** A damaged record is corruption, whatever follows it. *)
Lemma next_damaged c r a w w' b tl :
  jcur_wf c → rec_wf r → damage (u64w (jc_last_lsn c + 1)) r a w w' b →
  unread c = (a ++ w' ++ b) ++ tl → d1_journal_next c = (D1_JOURNAL_CORRUPT, c).
Proof using Huuid.
  intros Hw Hr Hd E. pose proof Hd as (Er & Hl & H4 & Hne & _).
  destruct (d1_journal_next c) as [[type lsn inc body| |] c'] eqn:En.
  - apply next_inv in En as (Hr' & -> & _ & tl' & E'); [|done]. exfalso.
    assert (Ht := damage_keeps_total _ _ _ _ _ _ _ tl tl' Hr Hr' Hl H4 Er ltac:(congruence)).
    apply (damaged_not_record _ _ _ _ _ _ _ Hd Ht).
    rewrite E' in E. apply app_inj_1 in E as [E _]; [done|].
    pose proof (zlen_record (u64w (jc_last_lsn c + 1)) r) as Z1.
    pose proof (zlen_record (u64w (jc_last_lsn c + 1)) (mk_jrec type inc body)) as Z2.
    rewrite Er in Z1. unfold zlen in *. rewrite !length_app in *. lia.
  - apply next_not_end in En; [|done]. rewrite En in E. destruct w'; [|by destruct a].
    by destruct w.
  - unfold d1_journal_next in *. cbv zeta in *.
    repeat (case_match; simplify_eq; try done).
Qed.
End Record_bytes.
End JournalCorrect.
