(* ===== verification/JournalVector.v ===== *)
(** * The append vector implements a log of records

    [alog] is what the journal promises: records claimed durable, records
    appended since, the current incarnation.  [j_repr] relates it to the byte
    vector, and every operation keeps the relation. *)

From S2P Require Import Prelude.
From S2P Require Import Words.
From S2P Require Import Wire.
From S2P Require Import WireCorrect.
From S2P Require Import Digest.
From S2P Require Import DigestCorrect.
From S2P Require Import Journal.
From S2P Require Import JournalCorrect.
Import Words Wire WireCorrect Digest DigestCorrect Journal JournalCorrect.

Module JournalVector.

#[local] Opaque d1_crc32c.

(** ** Growing the vector *)

Definition pow_cap (cap : Z) : Prop := ∃ k, (0 <= k <= 51)%Z ∧ cap = (4096 * 2 ^ k)%Z.

Lemma pow_cap_range cap : pow_cap cap → (4096 <= cap <= 2 ^ 63)%Z.
Proof.
  intros (k & Hk & ->). assert (2 ^ 0 <= 2 ^ k <= 2 ^ 51)%Z
    by (split; apply Z.pow_le_mono_r; lia). lia.
Qed.

(** Fifty-one doublings reach 2^63, after which the loop gives up. *)
Lemma reserve_loop_spec fuel want target :
  (∃ k, (0 <= k <= 51)%Z ∧ want = (4096 * 2 ^ k)%Z ∧ (51 - k <= Z.of_nat fuel)%Z) →
  match reserve_loop fuel want target with
  | Some w => pow_cap w ∧ (target <= w)%Z ∧ (want <= w)%Z
  | None => (2 ^ 63 < target)%Z
  end.
Proof.
  revert want. induction fuel as [|fuel IH]; intros want (k & Hk & Hw & Hf); cbn [reserve_loop];
    destruct (Z.ltb_spec want target) as [Ht|Ht].
  1: { assert (k = 51)%Z as -> by lia. lia. }
  1,3: split; [by exists k|lia].
  change (SIZE_MAX / 2)%Z with (2 ^ 63 - 1)%Z.
  destruct (Z.ltb_spec (2 ^ 63 - 1) want) as [Hm|Hm].
  - assert (k <= 51)%Z by lia. assert (2 ^ k <= 2 ^ 51)%Z by (apply Z.pow_le_mono_r; lia). lia.
  - assert (Hk' : (k < 51)%Z).
    { destruct (Z.eq_dec k 51%Z) as [->|]; lia. }
    rewrite wrap_small by (unfold in_width; lia).
    specialize (IH (want * 2)%Z). destruct (reserve_loop fuel (want * 2) target).
    + destruct IH as (? & ? & ?); [|split_and!; done || lia].
      exists (k + 1)%Z. rewrite Z.pow_add_r by lia. lia.
    + apply IH. exists (k + 1)%Z. rewrite Z.pow_add_r by lia. lia.
Qed.

(** The bytes in use, and what every operation keeps. *)
Definition contents (j : d1_journal) : list byte := take (Z.to_nat (j_len j)) (j_buf j).

Record vec_wf (j : d1_journal) : Prop := {
  vw_cap : pow_cap (j_cap j);
  vw_buf : zlen (j_buf j) = j_cap j;
  vw_len : (0 <= j_len j <= j_cap j)%Z;
}.

Lemma zlen_contents j : vec_wf j → zlen (contents j) = j_len j.
Proof. intros [H1 H2 H3]. unfold contents, zlen in *. rewrite length_take. lia. Qed.

(** [j'] is [j] with a larger buffer. *)
Definition regrown (j j' : d1_journal) : Prop :=
  j' = mk_journal (j_buf j') (j_len j) (j_durable j) (j_durable_lsn j) (j_cap j') (j_next_lsn j)
         (j_incarnation j) (j_store_uuid j) (j_fail_append_in j) (j_fail_next_flush j).

Lemma reserve_spec a j need ok j' :
  vec_wf j → (0 <= need)%Z → (j_len j + need < 2 ^ 64)%Z →
  d1_journal_reserve a j need = (ok, j') →
  vec_wf j' ∧ regrown j j' ∧ contents j' = contents j ∧
  (ok = true → (j_len j + need <= j_cap j')%Z) ∧ (ok = false → j' = j) ∧
  ((∀ n, a_grants a n = true) → (j_len j + need <= 2 ^ 63)%Z → ok = true).
Proof.
  intros Hw Hn Hs H. unfold d1_journal_reserve in H. pose proof Hw as [W1 W2 W3].
  assert (Hself : regrown j j) by (unfold regrown; by destruct j).
  rewrite wrap_small in H by (unfold in_width; lia).
  destruct (Z.leb_spec (j_len j + need) (j_cap j)) as [Hle|Hle]; [by simplify_eq|].
  pose proof (reserve_loop_spec 64 (j_cap j) (j_len j + need)) as Hloop.
  destruct (reserve_loop _ _ _) as [want|].
  - destruct Hloop as (P1 & P2 & P3).
    { destruct W1 as (k & Hk & E). exists k. lia. }
    unfold realloc in H. destruct (a_grants a want) eqn:G.
    + simplify_eq. cbn [j_cap j_len]. unfold contents, zlen in *. cbn.
      split; [|split; [done|split; [|split; [done|by split]]]].
      * constructor; unfold zlen; cbn; [done| |lia].
        rewrite length_app, length_map, length_seq. lia.
      * rewrite take_app_le by lia. done.
    + simplify_eq. split_and!; try done. intros Hg. by rewrite Hg in G.
  - simplify_eq. split_and!; try done. intros _ ?.
    assert (2 ^ 63 < j_len j' + need)%Z; [|lia]. apply Hloop.
    destruct W1 as (k & Hk & E). exists k. lia.
Qed.

(** ** Appending *)

(** What no append or flush touches. *)
Definition framed (j j' : d1_journal) : Prop :=
  j_durable j' = j_durable j ∧ j_durable_lsn j' = j_durable_lsn j ∧
  j_incarnation j' = j_incarnation j ∧ j_store_uuid j' = j_store_uuid j.

(** A cursor with room for exactly the bytes of [f] and a 32-bit trailer. *)
Lemma framed_writes f data total crc c0 :
  emits f data → cur_wf c0 → c_cap c0 = total → c_len c0 = 0%Z → c_bad c0 = false →
  zlen data = (total - 4)%Z →
  c_bad (f c0) = false ∧ c_len (f c0) = (total - 4)%Z ∧
  take (Z.to_nat (c_len (f c0))) (c_buf (f c0)) = data ∧
  c_bad (d1_enc_u32 crc (f c0)) = false ∧ c_cap (d1_enc_u32 crc (f c0)) = total ∧
  take (Z.to_nat total) (c_buf (d1_enc_u32 crc (f c0))) = data ++ be_split 4 crc.
Proof.
  intros Hf H0 Hc Hl Hb Hd. destruct (Hf c0 H0) as (F1 & F2 & _ & F4). specialize (F4 Hb).
  rewrite decide_True in F4 by lia. destruct F4 as [F4 F5].
  unfold written in F5 at 2. rewrite Hl, take_0 in F5. cbn [app] in F5.
  assert (Hlen : c_len (f c0) = zlen data) by (rewrite <-F5; symmetry; by apply zlen_written).
  split; [done|]. split; [lia|]. split; [done|].
  destruct (emits_u32 crc (f c0) F1) as (G1 & G2 & _ & G4). specialize (G4 F4).
  rewrite zlen_be_split, decide_True in G4 by lia.
  destruct G4 as [G4 G5]. split; [done|]. split; [congruence|].
  assert (Hn : c_len (d1_enc_u32 crc (f c0)) = total)
    by (rewrite <-zlen_written, G5, F5, zlen_app, zlen_be_split by done; lia).
  unfold written in G5 at 1. rewrite Hn, F5 in G5. done.
Qed.

Section Append.
Context (j : d1_journal) (type : Z) (body : list byte) (total : Z).
Context (Hw : vec_wf j) (Huuid : length (j_store_uuid j) = D1_UUID_BYTES)
  (Hlsn : in_width 64 (j_next_lsn j)) (Hinc : in_width 64 (j_incarnation j)).
Context (Htype : (D1_REC_START <= type <= D1_REC_COHORT)%Z)
  (Htotal : total = (D1_JOURNAL_HEADER_BYTES + zlen body + D1_JOURNAL_TRAILER_BYTES)%Z)
  (Hmax : (total <= D1_JOURNAL_RECORD_MAX)%Z)
  (Hroom : (j_len j + total <= j_cap j)%Z).

Let r := mk_jrec type (j_incarnation j) body.
Let data := by_data (j_store_uuid j) (j_next_lsn j) r.

Lemma emits_record : emits (enc_record j type total body) data.
Proof using Huuid Hlsn Hinc Htype Htotal Hmax.
  pose proof (zlen_nonneg body). unfold enc_record, data, by_data, by_header. cbv zeta.
  cbn [r jr_type jr_inc jr_body]. change (rec_total r) with
    (D1_JOURNAL_HEADER_BYTES + zlen body + D1_JOURNAL_TRAILER_BYTES)%Z. rewrite <-Htotal.
  unfold D1_REC_START, D1_REC_COHORT, D1_JOURNAL_RECORD_MAX, D1_JOURNAL_HEADER_BYTES,
    D1_JOURNAL_TRAILER_BYTES in *.
  rewrite (wrap_small 16 type), (wrap_small 32 total) by (unfold in_width; lia).
  emits_chain; try apply emits_u32; try apply emits_u16; try apply emits_u64; apply emits_raw.
Qed.

(** The cursor after the record and after the trailer. *)
Lemma record_written (cur := enc_record j type total body
    (d1_enc_init (drop (Z.to_nat (j_len j)) (j_buf j)) total)) :
  c_bad cur = false ∧ c_len cur = (total - D1_JOURNAL_TRAILER_BYTES)%Z ∧
  take (Z.to_nat (c_len cur)) (c_buf cur) = data ∧
  let cur' := d1_enc_u32 (d1_crc32c data) cur in
  c_bad cur' = false ∧ c_cap cur' = total ∧
  take (Z.to_nat total) (c_buf cur') = by_record (j_store_uuid j) (j_next_lsn j) r.
Proof using All.
  destruct Hw as [W1 W2 W3]. pose proof (zlen_nonneg body).
  apply framed_writes; [exact emits_record| |done..|].
  - constructor; cbn; unfold zlen, D1_JOURNAL_HEADER_BYTES, D1_JOURNAL_TRAILER_BYTES in *;
      rewrite ?length_drop; lia.
  - unfold data. rewrite zlen_data by done. rewrite Htotal. done.
Qed.

Lemma append_written :
  let cur := enc_record j type total body
    (d1_enc_init (drop (Z.to_nat (j_len j)) (j_buf j)) total) in
  let j' := appended (set_tail j (d1_enc_u32 (d1_crc32c data) cur)) total in
  vec_wf j' ∧ contents j' = contents j ++ by_record (j_store_uuid j) (j_next_lsn j) r.
Proof using All.
  intros cur j'. destruct record_written as (_ & _ & _ & _ & Hc & Ht). cbv zeta in Hc, Ht.
  fold cur in Hc, Ht. destruct Hw as [W1 W2 W3]. pose proof (pow_cap_range _ W1).
  pose proof (zlen_nonneg body).
  assert (Hn : (60 <= total)%Z)
    by (unfold D1_JOURNAL_HEADER_BYTES, D1_JOURNAL_TRAILER_BYTES in *; lia).
  assert (Hl : j_len j' = (j_len j + total)%Z)
    by (cbn; apply wrap_small; unfold in_width; lia).
  assert (Hb : j_buf j' = splice (Z.to_nat (j_len j)) (by_record (j_store_uuid j) (j_next_lsn j) r)
    (j_buf j)) by (cbn -[d1_enc_u32]; by rewrite Hc, Ht).
  pose proof (zlen_record (j_store_uuid j) Huuid (j_next_lsn j) r) as Hz.
  change (rec_total r) with (D1_JOURNAL_HEADER_BYTES + zlen body + D1_JOURNAL_TRAILER_BYTES)%Z in Hz.
  rewrite <-Htotal in Hz. unfold zlen in *. split.
  - constructor; [done| |rewrite Hl; change (j_cap j') with (j_cap j); lia].
    unfold zlen. rewrite Hb, length_splice by lia. done.
  - unfold contents. rewrite Hl, Hb. unfold splice. rewrite app_assoc, take_app_le, take_ge;
      rewrite ?length_app, ?length_take; try lia. done.
Qed.

(** The encoder finds exactly the room it reserved. *)
Lemma write_record_spec :
  j_next_lsn j ≠ UINT64_MAX →
  ∃ j', write_record j type total body = (true, j') ∧ vec_wf j' ∧ framed j j' ∧
    j_fail_append_in j' = j_fail_append_in j ∧ j_fail_next_flush j' = j_fail_next_flush j ∧
    contents j' = contents j ++ by_record (j_store_uuid j) (j_next_lsn j) r ∧
    j_next_lsn j' = (j_next_lsn j + 1)%Z.
Proof using All.
  intros Hne. destruct record_written as (B1 & B2 & B3 & B4 & _).
  destruct append_written as [V1 V2]. cbv zeta in *. unfold write_record.
  rewrite B1, B2, Z.eqb_refl. cbn [negb orb]. rewrite B2 in B3. rewrite B3, B4. eexists.
  split; [reflexivity|]. split; [done|]. split; [done|]. split; [done|]. split; [done|].
  split; [done|]. apply wrap_small. unfold in_width, UINT64_MAX in *. lia.
Qed.
End Append.

Record j_typed (j : d1_journal) : Prop := {
  jt_vec : vec_wf j;
  jt_uuid : length (j_store_uuid j) = D1_UUID_BYTES;
  jt_lsn : in_width 64 (j_next_lsn j);
  jt_inc : in_width 64 (j_incarnation j);
}.

(** What makes an append acceptable, whatever the allocator says. *)
Definition appendable (j : d1_journal) (type : Z) (body : list byte) : Prop :=
  (D1_REC_START <= type <= D1_REC_COHORT)%Z ∧
  (rec_total (mk_jrec type (j_incarnation j) body) <= D1_JOURNAL_RECORD_MAX)%Z ∧
  j_next_lsn j ≠ UINT64_MAX.

Definition kept (j j' : d1_journal) : Prop :=
  j_typed j' ∧ framed j j' ∧ contents j' = contents j ∧ j_next_lsn j' = j_next_lsn j ∧
  j_len j' = j_len j.
Definition extended (j j' : d1_journal) (r : jrec) : Prop :=
  j_typed j' ∧ framed j j' ∧
  contents j' = contents j ++ by_record (j_store_uuid j) (j_next_lsn j) r ∧
  j_next_lsn j' = (j_next_lsn j + 1)%Z.

Lemma append_record_spec a j type body (r := mk_jrec type (j_incarnation j) body) ok j' :
  j_typed j → append_record a j type body = (ok, j') →
  (if ok then appendable j type body ∧ extended j j' r else kept j j') ∧
  j_fail_append_in j' = j_fail_append_in j ∧ j_fail_next_flush j' = j_fail_next_flush j ∧
  (appendable j type body → (∀ n, a_grants a n = true) →
   (j_len j + rec_total r <= 2 ^ 63)%Z → ok = true).
Proof.
  intros Hj H. pose proof Hj as [Hw Hu Hl Hi]. pose proof (zlen_nonneg body).
  assert (Hsame : kept j j) by done.
  unfold append_record in H. cbv zeta in H.
  change (D1_JOURNAL_HEADER_BYTES + Z.of_nat (length body) + D1_JOURNAL_TRAILER_BYTES)%Z
    with (rec_total r) in H.
  unfold appendable. fold r.
  case_match eqn:E1.
  { simplify_eq; split; [done|]. split; [done|]. split; [done|]. intros (? & _).
    rewrite orb_true_iff, !Z.ltb_lt in E1. lia. }
  case_match eqn:E2.
  { simplify_eq; split; [done|]. split; [done|]. split; [done|]. intros (_ & ? & _).
    rewrite orb_true_iff, !Z.ltb_lt in E2. unfold D1_JOURNAL_RECORD_MAX, UINT32_MAX in *. lia. }
  case_match eqn:E3; bool_prop.
  { simplify_eq; split; [done|]. split; [done|]. split; [done|]. by intros (_ & _ & ?). }
  assert (Hcap : (j_len j <= 2 ^ 63)%Z) by (destruct Hw as [W1 _ W3]; apply pow_cap_range in W1; lia).
  assert (Ht : (0 <= rec_total r)%Z)
    by (unfold rec_total, D1_JOURNAL_HEADER_BYTES, D1_JOURNAL_TRAILER_BYTES; cbn; lia).
  destruct (d1_journal_reserve a j (rec_total r)) as [ok1 j1] eqn:Er.
  apply reserve_spec in Er as (R1 & R2 & R3 & R4 & R5 & R6);
    [|done|done|unfold D1_JOURNAL_RECORD_MAX in *; lia].
  destruct ok1; simplify_eq.
  2: { rewrite R5 in * by done. split; [done|]. split; [done|]. split; [done|].
       intros _ Ha Hs. by apply R6. }
  assert (Hf : framed j j1 ∧ j_next_lsn j1 = j_next_lsn j ∧ j_fail_append_in j1 = j_fail_append_in j ∧
    j_fail_next_flush j1 = j_fail_next_flush j ∧ j_len j1 = j_len j)
    by (rewrite R2; done).
  destruct Hf as (Hf & Hn & Hfa & Hff & Hlen). pose proof Hf as (D1 & D2 & D3 & D4).
  destruct (write_record_spec j1 type body (rec_total r)) as (j2 & W & V & F & A1 & A2 & C & N).
  all: rewrite ?Hn, ?D3, ?D4, ?Hlen; try done; try (by apply R4).
  rewrite W in H. simplify_eq. rewrite Hn, D3, D4, R3 in *.
  assert (framed j j') by (unfold framed in *; intuition congruence).
  split; [|split; [congruence|split; [congruence|done]]].
  split; [split_and!; done || lia|]. split; [|done].
  destruct F as (_ & _ & F3 & F4).
  constructor; [done|..]; rewrite ?F3, ?F4, ?D3, ?D4, ?N; try done.
  unfold in_width, UINT64_MAX in *. lia.
Qed.

(** ** The promised log *)

Record alog := mk_alog { al_durable : list jrec; al_pending : list jrec; al_inc : Z }.

Record j_repr (j : d1_journal) (l : alog) : Prop := {
  jr_typed : j_typed j;
  jr_wf : Forall rec_wf (al_durable l ++ al_pending l);
  jr_bytes : contents j = by_log (j_store_uuid j) 1 (al_durable l ++ al_pending l);
  jr_next : j_next_lsn j = (1 + Z.of_nat (length (al_durable l ++ al_pending l)))%Z;
  jr_durable : j_durable j = zlen (by_log (j_store_uuid j) 1 (al_durable l));
  jr_durable_lsn : j_durable_lsn j = (1 + Z.of_nat (length (al_durable l)))%Z;
  jr_inc : j_incarnation j = al_inc l;
}.

Inductive jop :=
  | OpAppend (a : allocator) (type : Z) (body : list byte)
  | OpFlush
  | OpRollback
  | OpSetIncarnation (incarnation : Z)
  | OpFailAppendIn (n : Z)
  | OpFailNextFlush.

Definition jop_typed (o : jop) : Prop :=
  match o with OpSetIncarnation i => in_width 64 i | _ => True end.

(** The operation on the vector; the two fault arms are the fixture's writes. *)
Definition j_exec (o : jop) (j : d1_journal) : bool * d1_journal :=
  match o with
  | OpAppend a type body => d1_journal_append a j type body
  | OpFlush => d1_journal_flush j
  | OpRollback => (true, d1_journal_rollback j)
  | OpSetIncarnation i => (true, d1_journal_set_incarnation j i)
  | OpFailAppendIn n => (true, set_fail_append j n)
  | OpFailNextFlush =>
      (true, mk_journal (j_buf j) (j_len j) (j_durable j) (j_durable_lsn j) (j_cap j)
               (j_next_lsn j) (j_incarnation j) (j_store_uuid j) (j_fail_append_in j) true)
  end.

(** What the operation means, given its answer: refused is unchanged. *)
Definition al_exec (o : jop) (ok : bool) (l : alog) : alog :=
  match o, ok with
  | OpAppend _ type body, true =>
      mk_alog (al_durable l) (al_pending l ++ [mk_jrec type (al_inc l) body]) (al_inc l)
  | OpFlush, true => mk_alog (al_durable l ++ al_pending l) [] (al_inc l)
  | OpRollback, _ => mk_alog (al_durable l) [] (al_inc l)
  | OpSetIncarnation i, _ => mk_alog (al_durable l) (al_pending l) i
  | _, _ => l
  end.

Lemma repr_kept j j' l : j_repr j l → kept j j' → j_repr j' l.
Proof.
  intros [R1 R2 R3 R4 R5 R6 R7] (K1 & (K2 & K3 & K4 & K5) & K6 & K7 & _).
  constructor; try done; congruence.
Qed.

Lemma repr_extended j j' l type body :
  j_repr j l → appendable j type body → extended j j' (mk_jrec type (j_incarnation j) body) →
  j_repr j' (mk_alog (al_durable l) (al_pending l ++ [mk_jrec type (al_inc l) body]) (al_inc l)).
Proof.
  intros [R1 R2 R3 R4 R5 R6 R7] (A1 & A2 & _) (E1 & (E2 & E3 & E4 & E5) & E6 & E7).
  rewrite R7 in E6. constructor; cbn [al_durable al_pending al_inc]; try done.
  - rewrite app_assoc. apply list.Forall_app. split; [done|]. apply list.Forall_singleton.
    split; [done|]. rewrite <-R7. split; [apply R1|done].
  - rewrite E6, E5, R3, app_assoc, (by_log_app _ (jt_uuid _ R1) _ (_ ++ _)). cbn [by_log].
    by rewrite app_nil_r, <-R4.
  - rewrite E7, R4, app_assoc, (length_app (_ ++ _)). cbn. lia.
  - congruence.
  - congruence.
  - congruence.
Qed.

Lemma repr_rollback j l :
  j_repr j l → j_repr (d1_journal_rollback j) (mk_alog (al_durable l) [] (al_inc l)).
Proof.
  intros [R1 R2 R3 R4 R5 R6 R7]. destruct R1 as [V U L I]. pose proof (zlen_contents _ V) as Hz.
  rewrite R3, by_log_app, zlen_app in Hz by done. apply list.Forall_app in R2 as [R2 _].
  pose proof (zlen_nonneg (by_log (j_store_uuid j) 1 (al_durable l))).
  set (n := by_log (j_store_uuid j) (1 + _) (al_pending l)) in *.
  pose proof (zlen_nonneg n). destruct V as [V1 V2 V3].
  constructor; cbn [al_durable al_pending al_inc]; rewrite ?app_nil_r; try done.
  - constructor; try done; [constructor; cbn; done || lia|].
    cbn. rewrite R6. rewrite R4, length_app in L. unfold in_width in *. lia.
  - unfold contents in *. cbn. rewrite by_log_app in R3 by done.
    apply (f_equal (take (Z.to_nat (j_durable j)))) in R3.
    rewrite take_take, Nat.min_l in R3 by lia. rewrite R3, R5. unfold zlen. rewrite Nat2Z.id.
    apply take_app_length.
Qed.

(** The vector and its records are as they were. *)
Ltac same_vector R :=
  destruct R as [[? ? ?] ? ? ?]; constructor; [constructor; [by constructor|done..]|done..].

Lemma j_exec_repr o j l ok j' :
  jop_typed o → j_repr j l → j_exec o j = (ok, j') → j_repr j' (al_exec o ok l).
Proof.
  intros Ho HR H. pose proof HR as [R1 R2 R3 R4 R5 R6 R7]. destruct o; cbn in H |- *.
  - unfold d1_journal_append in H. cbv zeta in H.
    set (j0 := set_fail_append j _) in H.
    assert (H0 : j_repr j0 l) by (same_vector R1).
    assert (Happ : ∀ j, j_repr j l → append_record a j type body = (ok, j') →
      j_repr j' (if ok then mk_alog (al_durable l) (al_pending l ++ [mk_jrec type (al_inc l) body])
        (al_inc l) else l)).
    { intros j2 HR2 H2. apply append_record_spec in H2 as (H2 & _); [|apply HR2].
      destruct ok; [destruct H2; by eapply repr_extended|by eapply repr_kept]. }
    destruct (negb _); [|exact (Happ j HR H)].
    destruct (j_fail_append_in j0 =? 0)%Z; [injection H as <- <-; exact H0|exact (Happ j0 H0 H)].
  - unfold d1_journal_flush in H. case_match; simplify_eq; [same_vector R1|].
    pose proof (zlen_contents _ (jt_vec _ R1)) as Hz.
    destruct R1 as [[? ? ?] ? ? ?].
    constructor; cbn [al_durable al_pending al_inc j_store_uuid j_durable];
      rewrite ?app_nil_r; try done; by rewrite <-R3.
  - simplify_eq. by apply repr_rollback.
  - simplify_eq. same_vector R1.
  - simplify_eq. same_vector R1.
  - simplify_eq. same_vector R1.
Qed.

(** A run of operations on the vector beside the log it stands for. *)
Fixpoint j_run (ops : list jop) (j : d1_journal) (l : alog) : d1_journal * alog :=
  match ops with
  | [] => (j, l)
  | o :: ops => let '(ok, j') := j_exec o j in j_run ops j' (al_exec o ok l)
  end.

Lemma j_run_repr ops j l :
  Forall jop_typed ops → j_repr j l → j_repr (fst (j_run ops j l)) (snd (j_run ops j l)).
Proof.
  revert j l. induction ops as [|o ops IH]; intros j l Ho HR; [done|]. cbn [j_run].
  apply list.Forall_cons in Ho as [Ho Hops]. destruct (j_exec o j) as [ok j'] eqn:E.
  by eapply IH, j_exec_repr.
Qed.

Lemma init_repr granted uuid j :
  length uuid = D1_UUID_BYTES → d1_journal_init granted uuid = (true, j) → j_repr j (mk_alog [] [] 0).
Proof.
  intros Hu. destruct granted; intros [= <-]. constructor; cbn; try done. constructor; cbn; try (done || (unfold in_width; lia)).
  constructor; cbn; [by exists 0%Z|done|unfold INITIAL_CAP; lia].
Qed.

(** A prefix that is a log is continued. *)
Lemma adopt_repr a j l log durable next_lsn rs ok j' :
  j_repr j l → Forall rec_wf rs → in_width 64 durable →
  take (Z.to_nat durable) log = by_log (j_store_uuid j) 1 rs → (durable <= zlen log)%Z →
  next_lsn = (1 + Z.of_nat (length rs))%Z → in_width 64 next_lsn →
  d1_journal_adopt a j log durable next_lsn = (ok, j') →
  j_repr j' (if ok then mk_alog rs [] (al_inc l) else l).
Proof.
  intros HR Hrs Hd Hlog Hle Hn Hw H. unfold d1_journal_adopt in H. pose proof HR as [R1 R2 R3 R4 R5 R6 R7].
  case_match eqn:E; [by simplify_eq|]. bool_prop. destruct R1 as [V U L I].
  destruct (d1_journal_reserve a j durable) as [ok1 j1] eqn:Er. unfold in_width in Hd.
  apply reserve_spec in Er as (S1 & S2 & S3 & S4 & S5 & _); [|done|lia|lia].
  destruct ok1; simplify_eq; [|by rewrite S5].
  specialize (S4 eq_refl). destruct S1 as [V1 V2 V3]. unfold zlen in *.
  assert (Hj : j_incarnation j1 = j_incarnation j ∧ j_store_uuid j1 = j_store_uuid j)
    by (rewrite S2; done). destruct Hj as [Hj1 Hj2].
  assert (Hlen : length (by_log (j_store_uuid j) 1 rs) = Z.to_nat durable)
    by (rewrite <-Hlog, length_take; lia).
  constructor; cbn [al_durable al_pending al_inc]; rewrite ?app_nil_r; try done.
  - constructor; cbn; try congruence; try done. constructor; cbn; [done| |lia].
    unfold zlen. rewrite Hlog, length_splice by lia. done.
  - unfold contents. cbn [j_len j_buf j_store_uuid]. rewrite Hj2, Hlog, <-Hlen. apply take_splice.
  - cbn. rewrite Hj2. unfold zlen. lia.
  - cbn. congruence.
Qed.

(** Reading back what is claimed. *)
Definition reader (j : d1_journal) : d1_journal_cursor :=
  d1_journal_cursor_init (j_buf j) (j_durable j) (j_store_uuid j).

Lemma reader_ok j l :
  j_repr j l → jcur_wf (j_store_uuid j) (reader j) ∧
  unread (reader j) = by_log (j_store_uuid j) 1 (al_durable l).
Proof.
  intros HR. pose proof (repr_rollback _ _ HR) as [R1 _ R3 _ R5 _ _].
  cbn [al_durable al_pending al_inc] in *. rewrite app_nil_r in *.
  destruct R1 as [[V1 V2 V3] _ _ _]. cbn in *. apply pow_cap_range in V1. split.
  - constructor; cbn; unfold in_width; done || lia.
  - unfold unread. cbn. rewrite Z.sub_0_r. exact R3.
Qed.

Lemma read_durable j l fuel :
  j_repr j l → (length (al_durable l) < fuel)%nat →
  read_log fuel (reader j) = Some (numbered 1 (al_durable l), true).
Proof.
  intros HR Hf. pose proof HR as [[_ U L _] R2 _ R4 _ _ _]. destruct (reader_ok _ _ HR) as [Hc Hu].
  apply list.Forall_app in R2 as [R2 _]. rewrite R4, length_app in L. unfold in_width in L.
  destruct (read_log_records (j_store_uuid j) U (al_durable l) (fuel - length (al_durable l))
    (reader j) []) as (c' & Hc' & Hu' & _ & Hr); try done.
  - cbn. unfold UINT64_MAX. lia.
  - by rewrite app_nil_r, Hu.
  - replace (length (al_durable l) + (fuel - length (al_durable l)))%nat with fuel in Hr by lia.
    rewrite Hr. destruct (fuel - length (al_durable l))%nat as [|f] eqn:Ef; [lia|].
    cbn [read_log]. rewrite (next_end (j_store_uuid j) U) by done. cbn. by rewrite app_nil_r.
Qed.

(** ... and reading a log in which a claimed record was damaged. *)
Lemma read_damaged uuid pre r post a w w' b fuel :
  length uuid = D1_UUID_BYTES → Forall rec_wf (pre ++ [r]) →
  (Z.of_nat (length pre) < UINT64_MAX)%Z →
  damage uuid (1 + Z.of_nat (length pre)) r a w w' b →
  let log := by_log uuid 1 pre ++ (a ++ w' ++ b) ++ post in
  in_width 64 (zlen log) → (length pre < fuel)%nat →
  read_log fuel (d1_journal_cursor_init log (zlen log) uuid) = Some (numbered 1 pre, false).
Proof.
  intros Hu Hwf Hmax Hd log Hlog Hf. apply list.Forall_app in Hwf as [Hpre Hr].
  apply list.Forall_cons in Hr as [Hr _]. set (c := d1_journal_cursor_init log (zlen log) uuid).
  assert (Hc : jcur_wf uuid c) by (constructor; cbn; done || (unfold zlen; lia)).
  assert (Eu : unread c = log) by (unfold unread, c; cbn; rewrite Z.sub_0_r; apply take_ge; unfold zlen; lia).
  destruct (read_log_records uuid Hu pre (fuel - length pre) c ((a ++ w' ++ b) ++ post))
    as (c' & Hc' & Hu' & Hl & Hread); try done. { cbn. lia. }
  cbn [c d1_journal_cursor_init jc_last_lsn] in Hl, Hread. rewrite Z.add_0_l in *.
  replace (length pre + (fuel - length pre))%nat with fuel in Hread by lia.
  rewrite Hread. destruct (fuel - length pre)%nat as [|f] eqn:Ef; [lia|]. cbn [read_log].
  assert (Hlsn : u64w (jc_last_lsn c' + 1) = (1 + Z.of_nat (length pre))%Z)
    by (rewrite Hl, Z.add_comm; apply wrap_small; unfold in_width, UINT64_MAX in *; lia).
  rewrite (next_damaged uuid Hu c' r a w w' b post); [|exact Hc'|exact Hr|by rewrite Hlsn|exact Hu'].
  cbn. by rewrite app_nil_r.
Qed.

End JournalVector.
