(* ===== verification/D1Theorems.v ===== *)
(** * What the D1 store's formats and journal guarantee

    The canonical encodings, the digests that name requests and protect
    payloads, and the journal: each theorem with an instance. *)

From S2P Require Import Prelude.
From S2P Require Import Words.
From S2P Require Import Wire.
From S2P Require Import WireCorrect.
From S2P Require Import Digest.
From S2P Require Import DigestCorrect.
From S2P Require Import Envelope.
From S2P Require Import EnvelopeCorrect.
From S2P Require Import Control.
From S2P Require Import ControlCorrect.
From S2P Require Import Journal.
From S2P Require Import JournalCorrect.
From S2P Require Import JournalVector.
Import Words Wire WireCorrect Digest DigestCorrect Envelope EnvelopeCorrect Control ControlCorrect.
Import Journal JournalCorrect JournalVector.

Module D1Theorems.

#[local] Opaque d1_crc32c d1_crc32 d1_request_digest sha_ref.

(** ** Envelopes *)

(** What a typed envelope encodes to. *)
Lemma encode_typed env buf cap :
  env_typed env → (0 <= cap <= Z.of_nat (length buf))%Z →
  d1_envelope_encode env buf cap =
  if d1_envelope_validate env
  then if decide (zlen (by_env env) <= cap)%Z then Some (by_env env) else None
  else None.
Proof.
  intros Ht Hc. destruct (d1_envelope_validate env) eqn:Hv.
  - by apply envelope_encode_spec; [apply typed_validate_shape|..].
  - unfold d1_envelope_encode. by rewrite Hv.
Qed.

(** No decoder accepts the bytes of a repair over the batch limit. *)
Lemma over_limit_unreadable env :
  env_typed env → d1_envelope_validate env = true →
  (D1_BATCH_PAYLOAD_MAX < repair_payload (ev_body env))%Z → d1_envelope_decode (by_env env) = None.
Proof.
  intros Ht Hv Hp. destruct (d1_envelope_decode (by_env env)) as [e|] eqn:E; [|done].
  apply envelope_decode_spec in E as (E1 & E2 & E3). exfalso.
  assert (Hs : env_shape env) by (by apply typed_validate_shape).
  apply by_env_inj in E3; [|done|by apply wf_shape]. subst e. apply (shape_wf env Hs) in E1. lia.
Qed.

(** C14: An envelope whose fields are in range is encoded exactly when it is valid
    and fits, and decoding the bytes gives it back, unless it is a repair whose
    payloads add up to more than the batch limit: that is encoded too, and the
    decoder refuses the bytes. *)
Theorem envelope_roundtrip env buf cap :
  env_typed env → (0 <= cap <= Z.of_nat (length buf))%Z →
  match d1_envelope_encode env buf cap with
  | Some bs =>
      d1_envelope_validate env = true ∧
      d1_envelope_decode bs =
        if (repair_payload (ev_body env) <=? D1_BATCH_PAYLOAD_MAX)%Z then Some env else None
  | None => d1_envelope_validate env = false ∨ (cap < zlen (by_env env))%Z
  end.
Proof.
  intros Ht Hc. rewrite encode_typed by done.
  destruct (d1_envelope_validate env) eqn:Hv; [|by left].
  case_decide as Hd; [|right; lia]. split; [done|]. destruct (Z.leb_spec (repair_payload (ev_body env)) D1_BATCH_PAYLOAD_MAX).
  - apply envelope_decode_spec. split; [|done]. apply shape_wf; [|done]. by apply typed_validate_shape.
  - by apply over_limit_unreadable.
Qed.

Definition ex_uuid (b : byte) : list byte := replicate 16 b.
Definition ex_owner : d1_owner := mk_d1_owner 7 3 1.
Definition ex_sum : d1_checksum := mk_checksum 2 4 [x01; x02; x03; x04].
Definition ex_write : d1_envelope :=
  mk_envelope (mk_objkey (ex_uuid x01) (ex_uuid x02)) 5 1 (mk_opkey (ex_uuid x03) 9 0)
    D1_OP_WRITE_BATCH
    (Body_write (mk_write_batch
       [mk_write_entry 0 1 ex_owner None [xaa; xbb] ex_sum;
        mk_write_entry 4 2 ex_owner (Some (mk_guard 1 3 false)) [xcc] ex_sum] 2 true)).

Lemma ex_write_typed : env_typed ex_write.
Proof. repeat constructor; unfold in_width; cbn; lia || done. Qed.

Lemma envelope_roundtrip_witness :
  ∃ bs, d1_envelope_encode ex_write (replicate 400 x00) 400 = Some bs ∧
        d1_envelope_decode bs = Some ex_write.
Proof.
  pose proof (envelope_roundtrip ex_write (replicate 400 x00) 400 ex_write_typed
    ltac:(rewrite length_replicate; lia)) as H.
  destruct (d1_envelope_encode ex_write (replicate 400 x00) 400) as [bs|] eqn:E.
  - exists bs. split; [reflexivity|]. apply H.
  - vm_compute in E. discriminate.
Defined.

(** C26: Decoding accepts only valid envelopes, and only the bytes the encoder
    writes for them: an envelope has one encoding. *)
Theorem envelope_canonical bs env buf cap :
  d1_envelope_decode bs = Some env → (zlen bs <= cap <= Z.of_nat (length buf))%Z →
  d1_envelope_validate env = true ∧ d1_envelope_encode env buf cap = Some bs.
Proof.
  intros H Hc. apply envelope_decode_spec in H as (H1 & H2 & ->). split; [done|].
  pose proof (zlen_nonneg (by_env env)).
  apply wf_shape in H1. rewrite envelope_encode_spec by (done || lia).
  by rewrite decide_True by lia.
Qed.

Lemma envelope_canonical_witness :
  d1_envelope_validate ex_write = true ∧
  d1_envelope_encode ex_write (replicate 300 x00) 300 = Some (by_env ex_write).
Proof.
  apply (envelope_canonical (by_env ex_write) ex_write (replicate 300 x00) 300).
  - vm_compute. reflexivity.
  - split; vm_compute; discriminate.
Defined.

(** The shape test does not bound the payload of a repair, so a repair over
    the batch limit is encoded, and no decoder accepts the bytes. *)
Theorem repair_over_limit_unreadable env buf cap :
  env_typed env → d1_envelope_validate env = true →
  (D1_BATCH_PAYLOAD_MAX < repair_payload (ev_body env))%Z →
  (zlen (by_env env) <= cap <= Z.of_nat (length buf))%Z →
  ∃ bs, d1_envelope_encode env buf cap = Some bs ∧ d1_envelope_decode bs = None.
Proof.
  intros Ht Hv Hp Hc. exists (by_env env). pose proof (zlen_nonneg (by_env env)).
  rewrite encode_typed, Hv, decide_True by (done || lia). split; [done|]. by apply over_limit_unreadable.
Qed.

(** A repair of four full chunks and one more byte. *)
Definition ex_repair_entry (i : Z) (p : list byte) : d1_repair_entry :=
  mk_repair_entry i 0 ex_owner (Some (10 + i)%Z) None None None None (Some (p, ex_sum)).
Definition ex_repair (p q : list byte) : d1_envelope :=
  mk_envelope (mk_objkey (ex_uuid x01) (ex_uuid x02)) 5 1 (mk_opkey (ex_uuid x03) 9 0)
    D1_OP_PREPARE_REPAIR
    (Body_repair (mk_repair_batch 0 5
       [ex_repair_entry 0 p; ex_repair_entry 1 p; ex_repair_entry 2 p; ex_repair_entry 3 p;
        ex_repair_entry 4 q] (Some 2%Z) None None None None)).

Lemma chunk_of_size n : (0 <= n)%Z → ∃ p : list byte, zlen p = n.
Proof. intros Hn. exists (replicate (Z.to_nat n) x00). unfold zlen. rewrite length_replicate. lia. Qed.

Lemma ex_repair_typed p q : env_typed (ex_repair p q).
Proof. repeat constructor; unfold in_width; cbn; lia || done. Qed.

Lemma ex_repair_valid p q :
  zlen p = D1_CHUNK_BYTES_MAX → zlen q = 1%Z → d1_envelope_validate (ex_repair p q) = true.
Proof.
  intros Hp Hq. assert (Pp : payload_ok p = true)
    by (unfold payload_ok, count; change (Z.of_nat (length p)) with (zlen p); by rewrite Hp).
  assert (Pq : payload_ok q = true)
    by (unfold payload_ok, count; change (Z.of_nat (length q)) with (zlen q); by rewrite Hq).
  cbv -[payload_ok]. rewrite Pp. cbv -[payload_ok]. by rewrite Pq.
Qed.

Lemma ex_repair_size p q :
  zlen p = D1_CHUNK_BYTES_MAX → zlen q = 1%Z →
  (zlen (by_env (ex_repair p q)) <= D1_ENVELOPE_MAX)%Z.
Proof.
  intros Hp Hq. assert (Hu : ∀ v, zlen (by_u8 v) = 1%Z) by done.
  assert (He : ∀ i r, zlen (by_repair_entry (ex_repair_entry i r)) = (58 + zlen r)%Z).
  { intros i r. unfold by_repair_entry, ex_repair_entry, by_owner. cbn [re_index re_mode
      re_owner re_txn re_custody re_postcond re_successor re_predecessor re_payload].
    unfold by_opt, by_payload, by_checksum, by_bytes. cbn [fst snd].
    rewrite !zlen_app, !Hu, !zlen_be_split.
    change (zlen (take (Z.to_nat (s_len ex_sum)) (s_digest ex_sum))) with 4%Z. lia. }
  unfold by_env, by_body, by_repair, by_objkey, by_opkey, count_bytes, ex_repair, by_opt.
  cbn [ev_body ev_object ev_admission ev_incarnation ev_key ev_op rp_entries map concat
    rp_range_begin rp_range_end rp_cohort rp_episode rp_phase rp_prior_verifier rp_certificate].
  rewrite !zlen_app, !Hu, !zlen_be_split, !He, Hp, Hq. vm_compute. discriminate.
Qed.

Lemma repair_over_limit_unreadable_witness :
  ∃ env buf bs, d1_envelope_validate env = true ∧
    d1_envelope_encode env buf D1_ENVELOPE_MAX = Some bs ∧ d1_envelope_decode bs = None.
Proof.
  destruct (chunk_of_size D1_CHUNK_BYTES_MAX) as [p Hp]; [unfold D1_CHUNK_BYTES_MAX; lia|].
  destruct (chunk_of_size 1) as [q Hq]; [lia|].
  destruct (chunk_of_size D1_ENVELOPE_MAX) as [buf Hb]; [unfold D1_ENVELOPE_MAX, D1_BATCH_PAYLOAD_MAX; lia|].
  pose proof (ex_repair_valid p q Hp Hq) as Hv.
  destruct (repair_over_limit_unreadable (ex_repair p q) buf D1_ENVELOPE_MAX) as (bs & E & D).
  - apply ex_repair_typed.
  - exact Hv.
  - unfold repair_payload. cbn [ev_body ex_repair rp_entries total repair_size ex_repair_entry re_payload].
    unfold count. change (Z.of_nat (length p)) with (zlen p). change (Z.of_nat (length q)) with (zlen q).
    rewrite Hp, Hq. reflexivity.
  - split; [by apply ex_repair_size|]. unfold zlen in Hb. rewrite Hb. reflexivity.
  - exists (ex_repair p q), buf, bs. exact (conj Hv (conj E D)).
Defined.

(** ** Controls and results *)

(** The bytes of a control request decode to [r] exactly when [r] is a
    request whose unused fields are clear and the encoder writes those bytes:
    round trip and canonical form at once. *)
Theorem control_request_canonical bs r buf cap :
  (zlen bs <= cap <= Z.of_nat (length buf))%Z →
  d1_control_request_decode bs = Some r ↔
  request_wf r ∧ d1_control_request_encode r buf cap = Some bs.
Proof.
  intros Hc. pose proof (zlen_nonneg bs). rewrite request_decode_spec. split.
  - intros [H1 ->]. split; [done|]. rewrite request_encode_spec by (done || lia).
    by rewrite decide_True by lia.
  - intros [H1 H2]. rewrite request_encode_spec in H2 by (done || lia).
    case_decide; [|done]. by simplify_eq.
Qed.

Definition ex_revoke : d1_control_request :=
  mk_request D1_CTL_REVOKE (mk_objkey (ex_uuid x01) (ex_uuid x02)) zero_auth 12 0 None.

Lemma control_request_canonical_witness :
  d1_control_request_decode (by_request ex_revoke) = Some ex_revoke ↔
  request_wf ex_revoke ∧
  d1_control_request_encode ex_revoke (replicate 64 x00) 64 = Some (by_request ex_revoke).
Proof.
  apply (control_request_canonical (by_request ex_revoke) ex_revoke (replicate 64 x00) 64).
  split; vm_compute; discriminate.
Defined.

(** A result with the field no record carries cleared. *)
Definition clear_disposition (r : d1_complete_result) : d1_complete_result :=
  let e := co_entry r in
  mk_complete (co_key r) (co_index_epoch r) (co_eof r) (co_disposition r)
    (mk_entry_result (er_status e) (er_version e) (er_txn e) (er_cohort e) (er_member_txn e)
       (er_postcond e) (er_episode e) (er_member e) (er_guard e) (er_owner e) (er_stability e)
       (er_activated e) (er_phase e) (er_verifier e) 0).

Lemma cleared_decodes r :
  complete_typed r → d1_complete_result_decode (by_complete r) = Some (clear_disposition r).
Proof.
  intros H. apply complete_decode_spec. split; [|done]. by split.
Qed.

Lemma same_result_bytes a b :
  complete_typed a → complete_typed b → same_result a b ↔ by_complete a = by_complete b.
Proof.
  intros Ha Hb. split.
  - intros (E1 & E2 & E3 & E4 & d & E5). unfold by_complete, by_tail.
    rewrite <-E5. cbn. by rewrite E1, E2, E3, E4.
  - intros E. pose proof (cleared_decodes a Ha) as Da. pose proof (cleared_decodes b Hb) as Db.
    rewrite E, Db in Da. injection Da as E1 E2 E3 E4 E5.
    unfold same_result. split; [done|]. split; [done|]. split; [done|]. split; [done|].
    exists (er_disposition (co_entry b)). destruct (co_entry a), (co_entry b). cbn in *. by simplify_eq.
Qed.

(** A stored result is read back as it was, and two results compare equal
    exactly when their records are the same bytes, so recovery's comparison
    misses no field that is stored and looks at none that is not. *)
Theorem complete_result_identity a b buf cap x y :
  complete_typed a → complete_typed b → (0 <= cap <= Z.of_nat (length buf))%Z →
  d1_complete_result_encode a buf cap = Some x → d1_complete_result_encode b buf cap = Some y →
  d1_complete_result_decode x = Some (clear_disposition a) ∧
  (d1_complete_result_equal a b = true ↔ x = y).
Proof.
  intros Ha Hb Hc Hx Hy. rewrite complete_encode_spec in Hx, Hy by done.
  repeat case_decide; try done. simplify_eq. split; [by apply cleared_decodes|].
  by rewrite complete_result_equal_spec, same_result_bytes.
Qed.

Definition ex_result (status : Z) : d1_complete_result :=
  mk_complete (mk_opkey (ex_uuid x03) 9 0) 4 8192 1
    (mk_entry_result status (Some 3%Z) None None [11; 12]%Z None None (Some 1%Z)
       (mk_guard 1 3 false) ex_owner 2 true 1 (replicate 8 x05) 2).

Lemma ex_result_typed status : in_width 32 status → complete_typed (ex_result status).
Proof.
  intros H. unfold complete_typed, entry_wf, opkey_wf, guard_wf, owner_wf.
  cbn -[in_width]. split_and!; try done; try (unfold in_width; cbn; lia).
  repeat constructor; cbn; lia.
Qed.

Lemma complete_result_identity_witness :
  ∃ x y, d1_complete_result_decode x = Some (clear_disposition (ex_result 0)) ∧
    (d1_complete_result_equal (ex_result 0) (ex_result 5) = true ↔ x = y).
Proof.
  exists (by_complete (ex_result 0)), (by_complete (ex_result 5)).
  apply (complete_result_identity (ex_result 0) (ex_result 5) (replicate 300 x00) 300).
  - apply ex_result_typed. unfold in_width. lia.
  - apply ex_result_typed. unfold in_width. lia.
  - rewrite length_replicate. lia.
  - vm_compute. reflexivity.
  - vm_compute. reflexivity.
Defined.

(** ** Digests *)

(** The digest that names a request is SHA-256, computed block by block as
    FIPS 180-4 defines it, of the domain string followed by the canonical bytes:
    it does not depend on the scratch buffer or on how the context was fed. *)
Theorem envelope_digest_is_sha256 env scratch cap :
  env_typed env → (0 <= cap <= Z.of_nat (length scratch))%Z →
  d1_envelope_digest env scratch cap =
  if d1_envelope_validate env && bool_decide (zlen (by_env env) <= cap)%Z
  then Some (sha_ref (D1_DIGEST_DOMAIN ++ by_env env)) else None.
Proof.
  intros Ht Hc. unfold d1_envelope_digest. rewrite encode_typed by done.
  destruct (d1_envelope_validate env); [|done]. cbn [andb].
  case_decide as Hd.
  - rewrite bool_decide_eq_true_2 by done. by rewrite request_digest_ref.
  - by rewrite bool_decide_eq_false_2 by done.
Qed.

Lemma envelope_digest_is_sha256_witness :
  d1_envelope_digest ex_write (replicate 300 x00) 300 =
  if d1_envelope_validate ex_write && bool_decide (zlen (by_env ex_write) <= 300)%Z
  then Some (sha_ref (D1_DIGEST_DOMAIN ++ by_env ex_write)) else None.
Proof.
  apply (envelope_digest_is_sha256 ex_write (replicate 300 x00) 300).
  - exact ex_write_typed.
  - rewrite length_replicate. lia.
Defined.

(** A payload verifies against its own checksum, and no payload that differs
    from it inside four consecutive bytes does, for either algorithm. *)
Theorem checksum_detects_damage alg pre w w' post s :
  d1_checksum_compute alg (pre ++ w ++ post) = Some s →
  length w = length w' → (length w <= 4)%nat → w ≠ w' →
  d1_checksum_verify s (pre ++ w ++ post) = true ∧
  d1_checksum_verify s (pre ++ w' ++ post) = false.
Proof.
  intros H Hl H4 Hne. split; [by eapply checksum_of_data|]. by eapply checksum_burst.
Qed.

Lemma checksum_detects_damage_witness :
  ∃ s, d1_checksum_verify s ([x31] ++ [x32; x33] ++ [x34]) = true ∧
       d1_checksum_verify s ([x31] ++ [x32; x00] ++ [x34]) = false.
Proof.
  eexists. eapply (checksum_detects_damage 2 [x31] [x32; x33] [x32; x00] [x34]).
  - reflexivity.
  - reflexivity.
  - cbn. lia.
  - discriminate.
Defined.

(** ** The journal *)

(** C8: Whatever appends, flushes, rollbacks, incarnation changes and armed
    faults a new journal goes through, and whatever the allocator grants, its bytes
    stand for a log of claimed and pending records: an accepted append adds one
    record, a flush claims all of them, a rollback drops the unclaimed ones and a
    refusal changes nothing; and reading the claimed bytes returns exactly the
    claimed records, with LSNs from one, and then the clean end. *)
Theorem journal_refines granted uuid j0 ops :
  length uuid = D1_UUID_BYTES → d1_journal_init granted uuid = (true, j0) → Forall jop_typed ops →
  let '(j, l) := j_run ops j0 (mk_alog [] [] 0) in
  j_repr j l ∧
  ∀ fuel, (length (al_durable l) < fuel)%nat →
    read_log fuel (reader j) = Some (numbered 1 (al_durable l), true).
Proof.
  intros Hu Hj Ho. pose proof (j_run_repr ops _ _ Ho (init_repr granted uuid j0 Hu Hj)) as HR.
  destruct (j_run ops _ _) as [j l]. split; [done|]. intros fuel. by apply read_durable.
Qed.

Definition ex_alloc : allocator := mk_alloc (λ _, true) (λ _, xee).
Definition ex_ops : list jop :=
  [OpSetIncarnation 1; OpAppend ex_alloc 1 [x01]; OpFlush; OpAppend ex_alloc 3 [x02; x03];
   OpRollback; OpFailAppendIn 2; OpAppend ex_alloc 2 []; OpAppend ex_alloc 2 []; OpFlush].

(** A journal of the store. *)
Definition new_journal (uuid : list byte) : d1_journal := snd (d1_journal_init true uuid).

Lemma journal_refines_witness :
  let '(j, l) := j_run ex_ops (new_journal (ex_uuid x07)) (mk_alog [] [] 0) in
  j_repr j l ∧
  ∀ fuel, (length (al_durable l) < fuel)%nat →
    read_log fuel (reader j) = Some (numbered 1 (al_durable l), true).
Proof.
  apply (journal_refines true (ex_uuid x07) (new_journal (ex_uuid x07)) ex_ops).
  - reflexivity.
  - reflexivity.
  - repeat constructor; cbn; lia.
Defined.

(** Reopening a store copies the claimed bytes into a fresh journal at the
    LSN after the last one read: the new journal stands for the claimed records
    with nothing pending, and a refused adoption leaves it empty. *)
Theorem journal_reopen_continues uuid a j l j0 ok j' :
  j_repr j l → j_store_uuid j = uuid → d1_journal_init true uuid = (true, j0) →
  d1_journal_adopt a j0 (j_buf j) (j_durable j)
    (u64w (Z.of_nat (length (al_durable l)) + 1)) = (ok, j') →
  j_repr j' (if ok then mk_alog (al_durable l) [] 0 else mk_alog [] [] 0).
Proof.
  intros HR <- Hj0 H. injection Hj0 as <-. pose proof (repr_rollback _ _ HR) as [[[V1 V2 V3] U L I] R2 R3 R4 R5 _ _].
  cbn [al_durable al_pending al_inc] in *. rewrite app_nil_r in *. cbn in U, V3.
  apply pow_cap_range in V1. rewrite R4 in L. cbn in L, V1, V2.
  eapply (adopt_repr _ _ (mk_alog [] [] 0)); [by apply (init_repr true (j_store_uuid j))|exact R2| | | | |
    |rewrite wrap_small in H; [exact H|]]; try done; unfold in_width in *; lia.
Qed.

Definition ex_journal : d1_journal * alog :=
  j_run [OpAppend ex_alloc 1 []; OpFlush] (new_journal (ex_uuid x07)) (mk_alog [] [] 0).

Lemma ex_journal_repr : j_repr (fst ex_journal) (snd ex_journal).
Proof.
  apply (j_run_repr [OpAppend ex_alloc 1 []; OpFlush] (new_journal (ex_uuid x07)) (mk_alog [] [] 0)).
  - repeat constructor.
  - by apply (init_repr true (ex_uuid x07)).
Qed.

Lemma journal_reopen_continues_witness :
  ∃ (ok : bool) j', j_repr j' (if ok then mk_alog (al_durable (snd ex_journal)) [] 0 else mk_alog [] [] 0).
Proof.
  destruct (d1_journal_adopt ex_alloc (new_journal (j_store_uuid (fst ex_journal)))
    (j_buf (fst ex_journal)) (j_durable (fst ex_journal))
    (u64w (Z.of_nat (length (al_durable (snd ex_journal))) + 1))) as [ok j'] eqn:E.
  exists ok, j'. apply (journal_reopen_continues (j_store_uuid (fst ex_journal)) ex_alloc (fst ex_journal) (snd ex_journal)
    (new_journal (j_store_uuid (fst ex_journal))) ok j').
  - exact ex_journal_repr.
  - reflexivity.
  - reflexivity.
  - exact E.
Defined.

(** An append is accepted exactly when no armed fault fires, the type is
    known, the record is within the limit, an LSN is left and the allocator
    grants the room; an armed fault is consumed once; and a refused append leaves
    the log, its LSN and the claimed length as they were. *)
Theorem journal_append_outcome a j l type body ok j' :
  j_repr j l → in_width 32 (j_fail_append_in j) → d1_journal_append a j type body = (ok, j') →
  (ok = true → j_fail_append_in j ≠ 1%Z ∧ appendable j type body) ∧
  (j_fail_append_in j ≠ 1%Z → appendable j type body → (∀ n, a_grants a n = true) →
   (j_len j + rec_total (mk_jrec type (j_incarnation j) body) <= 2 ^ 63)%Z → ok = true) ∧
  j_fail_append_in j' = Z.max 0 (j_fail_append_in j - 1) ∧
  (ok = false → contents j' = contents j ∧ j_next_lsn j' = j_next_lsn j ∧
                j_durable j' = j_durable j ∧ j_repr j' l).
Proof.
  intros HR Hf H. unfold in_width in Hf.
  assert (HR' : j_repr j' (al_exec (OpAppend a type body) ok l))
    by (by apply (j_exec_repr (OpAppend a type body) j)).
  pose proof (jr_typed _ _ HR) as Hj. unfold d1_journal_append in H. cbv zeta in H.
  set (j0 := set_fail_append j _) in H.
  assert (Hj0 : j_typed j0) by (destruct Hj as [[? ? ?] ? ? ?]; constructor; [by constructor|done..]).
  change (j_fail_append_in j0) with (j_fail_append_in j - 1)%Z in H.
  destruct (Z.eqb_spec (j_fail_append_in j) 0) as [E0|E0]; cbn [negb] in H.
  - apply append_record_spec in H as (H1 & H2 & _ & H4); [|done].
    split; [intros ->; split; [lia|by destruct H1]|]. split; [auto|]. split; [lia|].
    intros ->. destruct H1 as (_ & (K1 & _) & K2 & K3 & _). done.
  - destruct (Z.eqb_spec (j_fail_append_in j - 1) 0) as [E1|E1].
    + injection H as <- <-. split; [done|]. split; [lia|]. split; [cbn; lia|]. done.
    + apply append_record_spec in H as (H1 & H2 & _ & H4); [|done].
      split; [intros ->; split; [lia|by destruct H1]|]. split; [auto|].
      split; [rewrite H2; cbn; lia|].
      intros ->. destruct H1 as (_ & (K1 & _) & K2 & K3 & _). done.
Qed.

Lemma journal_append_outcome_witness :
  ∃ ok j', d1_journal_append ex_alloc (fst ex_journal) 9 [] = (ok, j') ∧
    (ok = true → j_fail_append_in (fst ex_journal) ≠ 1%Z ∧ appendable (fst ex_journal) 9 []).
Proof.
  destruct (d1_journal_append ex_alloc (fst ex_journal) 9 []) as [ok j'] eqn:E.
  exists ok, j'. split; [reflexivity|].
  apply (journal_append_outcome ex_alloc (fst ex_journal) (snd ex_journal) 9 [] ok j').
  - exact ex_journal_repr.
  - split; [reflexivity|reflexivity].
  - exact E.
Defined.

(** C36: Reading a log ends, whatever the bytes are: every record takes some of them,
    so the loop returns within one turn more than there are claimed bytes. *)
Theorem journal_read_terminates buf durable uuid :
  length uuid = D1_UUID_BYTES → (0 <= durable <= zlen buf)%Z → in_width 64 durable →
  ∃ records clean,
    read_log (S (Z.to_nat durable)) (d1_journal_cursor_init buf durable uuid) = Some (records, clean).
Proof.
  intros Hu Hd Hw. set (c := d1_journal_cursor_init buf durable uuid).
  assert (Hc : jcur_wf uuid c) by (constructor; cbn; done || lia).
  destruct (read_log_total uuid Hu (S (Z.to_nat durable)) c Hc) as [[rs e] E]; [|by exists rs, e].
  pose proof (zlen_unread uuid Hu c Hc) as Hz. unfold zlen in Hz. cbn in Hz. lia.
Qed.

Lemma journal_read_terminates_witness :
  ∃ records clean,
    read_log (S (Z.to_nat 70)) (d1_journal_cursor_init (replicate 80 xff) 70 (ex_uuid x07)) =
    Some (records, clean).
Proof.
  apply (journal_read_terminates (replicate 80 xff) 70 (ex_uuid x07)).
  - reflexivity.
  - unfold zlen. rewrite length_replicate. lia.
  - unfold in_width. lia.
Defined.

(** C15: A claimed record damaged in up to four consecutive bytes that lie all in the
    checksummed part (the length field and its complement included) or all in the
    stored checksum is reported as corruption after the records before it: it is
    neither skipped nor taken for the end, whatever follows.  Damage across the
    boundary between the two is not covered. *)
Theorem journal_damage_detected uuid pre r post a w w' b fuel :
  length uuid = D1_UUID_BYTES → Forall rec_wf (pre ++ [r]) →
  (Z.of_nat (length pre) < UINT64_MAX)%Z →
  damage uuid (1 + Z.of_nat (length pre)) r a w w' b →
  let log := by_log uuid 1 pre ++ (a ++ w' ++ b) ++ post in
  in_width 64 (zlen log) → (length pre < fuel)%nat →
  read_log fuel (d1_journal_cursor_init log (zlen log) uuid) = Some (numbered 1 pre, false).
Proof. apply read_damaged. Qed.

Definition ex_rec : jrec := mk_jrec 1 1 [x41; x42].

Lemma ex_rec_wf : rec_wf ex_rec.
Proof. split; [split; discriminate|]. split; [split; [discriminate|reflexivity]|discriminate]. Qed.

(** The type of the second record changed from one to two. *)
Lemma journal_damage_detected_witness :
  ∃ log, read_log 5 (d1_journal_cursor_init log (zlen log) (ex_uuid x07)) =
         Some (numbered 1 [ex_rec], false).
Proof.
  pose (d := by_data (ex_uuid x07) 2 ex_rec).
  pose (b := drop 8 d ++ be_split 4 (d1_crc32c d)).
  eexists (by_log (ex_uuid x07) 1 [ex_rec] ++ (take 7 d ++ [x02] ++ b) ++ []).
  apply (journal_damage_detected (ex_uuid x07) [ex_rec] ex_rec [] (take 7 d) [x01] [x02] b 5).
  - reflexivity.
  - constructor; [exact ex_rec_wf|constructor; [exact ex_rec_wf|constructor]].
  - reflexivity.
  - split; [|split; [|split; [|split]]]; [|reflexivity|cbn; lia|discriminate|left].
    + unfold by_record, b. rewrite !app_assoc. reflexivity.
    + vm_compute. discriminate.
  - cbv zeta. unfold b. rewrite !zlen_app, zlen_be_split. vm_compute. split; [discriminate|reflexivity].
  - cbn. lia.
Defined.

End D1Theorems.
