(* ===== verification/Posix.v ===== *)
(** * Files and the system calls used on them

    The part of POSIX that the persistence code calls.  A file is its bytes and
    whether they are known to be on stable storage.  What each call answers is
    taken from a list of outcomes; every change of the file system is recorded,
    so that a crash can be placed between any two of them. *)

From S2P Require Import Prelude.
From stdpp Require Import gmap strings.

Module Posix.

Definition EEXIST : Z := 17.
Definition ENAMETOOLONG : Z := 36.
Definition ENOENT : Z := 2.

Record file := mk_file { f_bytes : list byte; f_synced : bool }.
Abbreviation files := (gmap string file).

(** Success, failure with [errno], or a transfer cut after so many bytes. *)
Inductive outcome := Good | Fails (errno : positive) | Partial (n : nat).

(** [now] is the file system, [past] the states it went through, newest first. *)
Record sys := mk_sys { now : files; past : list files; outs : list outcome }.

Definition next_outcome (s : sys) : outcome * sys :=
  match outs s with
  | [] => (Good, s)
  | o :: os => (o, mk_sys (now s) (past s) os)
  end.

Definition change (f : files → files) (s : sys) : sys :=
  mk_sys (f (now s)) (now s :: past s) (outs s).

(** Answers are as in C: negative is [-errno]. *)

Definition sys_mkdir (s : sys) : Z * sys :=
  match next_outcome s with
  | (Fails e, s) => ((Z.neg e), s)
  | (_, s) => (0%Z, s)
  end.

(** [open(path, O_WRONLY | O_CREAT | O_TRUNC)] *)
Definition sys_create (path : string) (s : sys) : Z * sys :=
  match next_outcome s with
  | (Fails e, s) => ((Z.neg e), s)
  | (_, s) => (0%Z, change <[path := mk_file [] false]> s)
  end.

Definition append_to (path : string) (bs : list byte) : files → files :=
  alter (λ f, mk_file (f_bytes f ++ bs) false) path.

(** [write(fd, bs, n)] at the end of the file open at [path]. *)
Definition sys_write (path : string) (bs : list byte) (s : sys) : Z * sys :=
  match next_outcome s with
  | (Fails e, s) => ((Z.neg e), s)
  | (Partial n, s) =>
      (Z.of_nat (length (take n bs)), change (append_to path (take n bs)) s)
  | (Good, s) => (Z.of_nat (length bs), change (append_to path bs) s)
  end.

Definition sys_fdatasync (path : string) (s : sys) : Z * sys :=
  match next_outcome s with
  | (Fails e, s) => ((Z.neg e), s)
  | (_, s) => (0%Z, change (alter (λ f, mk_file (f_bytes f) true) path) s)
  end.

Definition sys_close (s : sys) : Z * sys :=
  match next_outcome s with
  | (Fails e, s) => ((Z.neg e), s)
  | (_, s) => (0%Z, s)
  end.

Definition sys_rename (from to : string) (s : sys) : Z * sys :=
  match next_outcome s with
  | (Fails e, s) => ((Z.neg e), s)
  | (_, s) =>
      match now s !! from with
      | None => ((- ENOENT)%Z, s)
      | Some f => (0%Z, change (λ fs, <[to := f]> (delete from fs)) s)
      end
  end.

Definition sys_unlink (path : string) (s : sys) : sys :=
  match next_outcome s with
  | (Fails _, s) => s
  | (_, s) => change (delete path) s
  end.

(** [open(path, O_RDONLY)]: the bytes not yet read. *)
Definition sys_open (path : string) (s : sys) : (Z + list byte) * sys :=
  match next_outcome s with
  | (Fails e, s) => (inl (Z.neg e), s)
  | (_, s) =>
      match now s !! path with
      | None => (inl (- ENOENT)%Z, s)
      | Some f => (inr (f_bytes f), s)
      end
  end.

(** [read(fd, buf, n)]: the answer, the bytes delivered, and what is left. *)
Definition sys_read (n : nat) (fd : list byte) (s : sys) : Z * list byte * list byte * sys :=
  match next_outcome s with
  | (Fails e, s) => ((Z.neg e), [], fd, s)
  | (Partial k, s) =>
      let m := Nat.min k n in
      (Z.of_nat (length (take m fd)), take m fd, drop m fd, s)
  | (Good, s) => (Z.of_nat (length (take n fd)), take n fd, drop n fd, s)
  end.

End Posix.
