(* ===== verification/ChunkStore.v ===== *)
(** * The chunk store of a data server ([src/lib/nfs4/server/chunk_store.c])

    Per-block metadata of an inode and its state transitions in memory; the
    metadata file is in [ChunkDisk].  [calloc] and [realloc] are a predicate on
    the kind and the number of the elements asked for. *)

From S2P Require Import Prelude.

Module ChunkStore.

(** ** Types ([chunk_store.h]) *)

Definition CHUNK_STATE_EMPTY : Z := 0.
Definition CHUNK_STATE_PENDING : Z := 1.
Definition CHUNK_STATE_FINALIZED : Z := 2.
Definition CHUNK_STATE_COMMITTED : Z := 3.

Definition CHUNK_BLOCK_LOCKED : Z := 1.
Definition CHUNK_BLOCK_ESCROW : Z := 8.
Definition CHUNK_LOCK_STATEID_SIZE : nat := 16.
Definition CHUNK_LOCK_ESCROW_ID_SIZE : nat := 16.
Definition CHUNK_VALUE_MAX : nat := 64.

Record chunk_block := mk_block {
  cb_state : Z;
  cb_flags : Z;
  cb_gen_id : Z;
  cb_client_id : Z;
  cb_cohort_id : Z;
  cb_owner_id : Z;
  cb_payload_id : Z;
  cb_checksum_algorithm : Z;
  cb_checksum_len : Z;
  cb_checksum_value : list byte;
  cb_chunk_size : Z;
  cb_writer_clientid : Z;
  cb_lock_cohort_id : Z;
  cb_lock_client_id : Z;
  cb_lock_owner_id : Z;
  cb_lock_offset : Z;
  cb_lock_count : Z;
  cb_lock_flags : Z;
  cb_lock_stateid : list byte;
  cb_lock_escrow_id : list byte;
}.

Definition CHUNK_STORE_MAGIC : Z := 0x434B5354.
Definition CHUNK_STORE_VERSION : Z := 3.
Definition CHUNK_STORE_MAX_ESCROWS : Z := 4096.
Definition CHUNK_STORE_INIT_BLOCKS : Z := 64.
Definition CHUNK_STORE_MAX_BLOCKS : Z := 1024 * 1024.

Record chunk_escrow_range := mk_range {
  cer_offset : Z;
  cer_count : Z;
  cer_id : list byte;
}.

Record chunk_store_header := mk_header {
  csh_magic : Z;
  csh_version : Z;
  csh_nblocks : Z;
  csh_inode_ino : Z;
  csh_chunk_size : Z;
  csh_checksum_algorithm : Z;
  csh_escrow_count : Z;
  csh_escrow_record_size : Z;
}.

Record chunk_escrow_range_disk := mk_range_disk {
  cerd_offset : Z;
  cerd_count : Z;
  cerd_pad : Z;
  cerd_id : list byte;
}.

Record chunk_block_disk := mk_block_disk {
  cbd_state : Z;
  cbd_flags : Z;
  cbd_gen_id : Z;
  cbd_client_id : Z;
  cbd_owner_id : Z;
  cbd_payload_id : Z;
  cbd_checksum_algorithm : Z;
  cbd_checksum_len : Z;
  cbd_checksum_value : list byte;
  cbd_chunk_size : Z;
  cbd_pad : Z;
  cbd_writer_clientid : Z;
  cbd_cohort_id : Z;
  cbd_lock_cohort_id : Z;
  cbd_lock_client_id : Z;
  cbd_lock_owner_id : Z;
  cbd_lock_offset : Z;
  cbd_lock_count : Z;
  cbd_lock_flags : Z;
  cbd_lock_stateid : list byte;
  cbd_lock_escrow_id : list byte;
}.

(** [cs_escrows] with its count is the list of ranges. *)
Record chunk_store := mk_store {
  cs_blocks : list chunk_block;
  cs_nblocks : Z;
  cs_high_water : Z;
  cs_chunk_size : Z;
  cs_checksum_algorithm : Z;
  cs_escrows : list chunk_escrow_range;
  cs_escrow_cap : Z;
  cs_dirty : bool;
}.

(** What an allocation is an array of. *)
Inductive elem := Store | Blocks | Ranges.

Definition zero_bytes (n : nat) : list byte := replicate n x00.
(** What [calloc] leaves in an element. *)
Definition zero_block : chunk_block :=
  mk_block 0 0 0 0 0 0 0 0 0 (zero_bytes CHUNK_VALUE_MAX) 0 0 0 0 0 0 0 0
    (zero_bytes CHUNK_LOCK_STATEID_SIZE) (zero_bytes CHUNK_LOCK_ESCROW_ID_SIZE).

Definition set_cb_state (b : chunk_block) (s : Z) : chunk_block :=
  mk_block s (cb_flags b) (cb_gen_id b) (cb_client_id b) (cb_cohort_id b) (cb_owner_id b)
    (cb_payload_id b) (cb_checksum_algorithm b) (cb_checksum_len b) (cb_checksum_value b)
    (cb_chunk_size b) (cb_writer_clientid b) (cb_lock_cohort_id b) (cb_lock_client_id b)
    (cb_lock_owner_id b) (cb_lock_offset b) (cb_lock_count b) (cb_lock_flags b)
    (cb_lock_stateid b) (cb_lock_escrow_id b).

Definition set_blocks (cs : chunk_store) (blocks : list chunk_block) (dirty : bool) : chunk_store :=
  mk_store blocks (cs_nblocks cs) (cs_high_water cs) (cs_chunk_size cs)
    (cs_checksum_algorithm cs) (cs_escrows cs) (cs_escrow_cap cs) dirty.

Definition blk_at (cs : chunk_store) (off : Z) : chunk_block :=
  rd zero_block (cs_blocks cs) (Z.to_nat off).

Definition has_flag (flags bit : Z) : bool := negb (Z.land flags bit =? 0)%Z.

(** ** Escrows *)

Definition escrow_id_is_zero (id : list byte) : bool :=
  bool_decide (id = zero_bytes CHUNK_LOCK_ESCROW_ID_SIZE).

Definition chunk_block_has_escrow_custody (blk : chunk_block) : bool :=
  has_flag (cb_flags blk) CHUNK_BLOCK_LOCKED && negb (escrow_id_is_zero (cb_lock_escrow_id blk)).

Definition escrow_range_to_disk (range : chunk_escrow_range) : chunk_escrow_range_disk :=
  mk_range_disk (cer_offset range) (cer_count range) 0 (cer_id range).

Definition escrow_range_from_disk (dsk : chunk_escrow_range_disk) : chunk_escrow_range :=
  mk_range (cerd_offset dsk) (cerd_count dsk) (cerd_id dsk).

Definition escrow_range_valid (offset count : Z) (id : list byte) : bool :=
  negb (count =? 0)%Z && (offset <=? UINT64_MAX - count)%Z && negb (escrow_id_is_zero id).

Definition escrow_range_equal (a : chunk_escrow_range) (offset count : Z) (id : list byte) : bool :=
  (cer_offset a =? offset)%Z && (cer_count a =? count)%Z && bool_decide (cer_id a = id).

(** One turn of the scan: the ranges so far and their capacity. *)
Definition refresh_one (grants : elem → Z → bool) (blk : chunk_block)
    (s : list chunk_escrow_range * Z) : (list chunk_escrow_range * Z) + Z :=
  let '(ranges, cap) := s in
  let nranges := Z.of_nat (length ranges) in
  if negb (has_flag (cb_flags blk) CHUNK_BLOCK_ESCROW) then inl s
  else if negb (escrow_range_valid (cb_lock_offset blk) (cb_lock_count blk) (cb_lock_escrow_id blk))
  then inr (- EINVAL)%Z
  else if existsb (λ r, escrow_range_equal r (cb_lock_offset blk) (cb_lock_count blk)
                          (cb_lock_escrow_id blk)) ranges
  then inl s
  else if (nranges =? CHUNK_STORE_MAX_ESCROWS)%Z then inr (- E2BIG)%Z
  else
    let grown :=
      if (nranges =? cap)%Z then
        let new_cap := if (cap =? 0)%Z then 16%Z else u32w (cap * 2) in
        let new_cap := if (CHUNK_STORE_MAX_ESCROWS <? new_cap)%Z then CHUNK_STORE_MAX_ESCROWS
                       else new_cap in
        if grants Ranges new_cap then Some new_cap else None
      else Some cap in
    match grown with
    | None => inr (- ENOMEM)%Z
    | Some cap =>
        inl (ranges ++ [mk_range (cb_lock_offset blk) (cb_lock_count blk) (cb_lock_escrow_id blk)],
             cap)
    end.

Definition chunk_store_refresh_escrows (grants : elem → Z → bool) (cs : chunk_store) : Z * chunk_store :=
  match for_break 0 (Z.to_nat (cs_high_water cs))
          (λ off s, refresh_one grants (rd zero_block (cs_blocks cs) off) s) ([], 0%Z) with
  | inr ret => (ret, cs)
  | inl (ranges, cap) =>
      (0%Z, mk_store (cs_blocks cs) (cs_nblocks cs) (cs_high_water cs) (cs_chunk_size cs)
              (cs_checksum_algorithm cs) ranges cap (cs_dirty cs))
  end.

Definition chunk_store_has_escrow (cs : option chunk_store) (offset count : Z) (id : list byte)
    : bool :=
  match cs with
  | None => false
  | Some cs =>
      if negb (escrow_range_valid offset count id) then false
      else existsb (λ r, escrow_range_equal r offset count id) (cs_escrows cs)
  end.

(** ** In-memory operations *)

Definition chunk_store_lookup_any (cs : option chunk_store) (offset : Z) : option chunk_block :=
  match cs with
  | None => None
  | Some cs => if (cs_nblocks cs <=? offset)%Z then None else Some (blk_at cs offset)
  end.

Definition chunk_store_lookup (cs : option chunk_store) (offset : Z) : option chunk_block :=
  match chunk_store_lookup_any cs offset with
  | Some blk => if (cb_state blk =? CHUNK_STATE_EMPTY)%Z then None else Some blk
  | None => None
  end.

(** [while (cap <= new_cap) cap *= 2;] *)
Fixpoint grow_loop (fuel : nat) (cap new_cap : Z) : Z :=
  match fuel with
  | O => cap
  | S fuel => if (cap <=? new_cap)%Z then grow_loop fuel (u64w (cap * 2)) new_cap else cap
  end.

Definition chunk_store_grow (grants : elem → Z → bool) (cs : chunk_store) (new_cap : Z)
    : Z * chunk_store :=
  if (CHUNK_STORE_MAX_BLOCKS <? new_cap)%Z then ((- ENOMEM)%Z, cs)
  else
    let cap := if (cs_nblocks cs =? 0)%Z then CHUNK_STORE_INIT_BLOCKS else cs_nblocks cs in
    let cap := grow_loop 64 cap new_cap in
    if negb (grants Blocks cap) then ((- ENOMEM)%Z, cs)
    else
      let nb := replicate (Z.to_nat cap) zero_block in
      let nb := splice 0 (take (Z.to_nat (cs_nblocks cs)) (cs_blocks cs)) nb in
      (0%Z, mk_store nb cap (cs_high_water cs) (cs_chunk_size cs) (cs_checksum_algorithm cs)
              (cs_escrows cs) (cs_escrow_cap cs) (cs_dirty cs)).

(** Room for [offset]: the part [write] and [touch] share. *)
Definition chunk_store_room (grants : elem → Z → bool) (cs : chunk_store) (offset : Z)
    : Z * chunk_store :=
  if (cs_nblocks cs <=? offset)%Z then chunk_store_grow grants cs offset else (0%Z, cs).

Definition raise_high_water (cs : chunk_store) (offset : Z) (blocks : list chunk_block)
    : chunk_store :=
  mk_store blocks (cs_nblocks cs)
    (if (cs_high_water cs <? u64w (offset + 1))%Z then u64w (offset + 1) else cs_high_water cs)
    (cs_chunk_size cs) (cs_checksum_algorithm cs) (cs_escrows cs) (cs_escrow_cap cs) true.

Definition chunk_store_write (grants : elem → Z → bool) (cs : chunk_store) (offset : Z)
    (blk : chunk_block) : Z * chunk_store :=
  let '(ret, cs) := chunk_store_room grants cs offset in
  if negb (ret =? 0)%Z then (ret, cs)
  else (0%Z, raise_high_water cs offset (wr (cs_blocks cs) (Z.to_nat offset) blk)).

Definition chunk_store_touch (grants : elem → Z → bool) (cs : chunk_store) (offset : Z)
    : Z * chunk_store :=
  let '(ret, cs) := chunk_store_room grants cs offset in
  if negb (ret =? 0)%Z then (ret, cs) else (0%Z, raise_high_water cs offset (cs_blocks cs)).

Definition owned_by (blk : chunk_block) (cohort_id client_id owner_id : Z) : bool :=
  negb (negb (cb_cohort_id blk =? cohort_id)%Z || negb (cb_client_id blk =? client_id)%Z
        || negb (cb_owner_id blk =? owner_id)%Z).

(** The first block of the range that belongs to the owner decides the answer. *)
Definition chunk_store_transition (cs : chunk_store) (offset count cohort_id client_id owner_id
    from_state to_state : Z) : Z * chunk_store :=
  match for_break 0 (Z.to_nat count) (λ i (_ : unit),
          let off := u64w (offset + Z.of_nat i) in
          if (cs_nblocks cs <=? off)%Z then inr ((- EINVAL)%Z, cs)
          else
            let blk := blk_at cs off in
            if (cb_state blk =? CHUNK_STATE_EMPTY)%Z then inl tt
            else if negb (owned_by blk cohort_id client_id owner_id) then inl tt
            else if negb (cb_state blk =? from_state)%Z then inr ((- EINVAL)%Z, cs)
            else inr (0%Z, set_blocks cs
                   (wr (cs_blocks cs) (Z.to_nat off) (set_cb_state blk to_state)) true)) tt with
  | inr r => r
  | inl _ => ((- EINVAL)%Z, cs)
  end.

Definition chunk_store_rollback (cs : chunk_store) (offset count cohort_id client_id owner_id : Z)
    : Z * chunk_store :=
  match for_break 0 (Z.to_nat count) (λ i (_ : unit),
          let off := u64w (offset + Z.of_nat i) in
          if (cs_nblocks cs <=? off)%Z then inr ((- EINVAL)%Z, cs)
          else
            let blk := blk_at cs off in
            if (cb_state blk =? CHUNK_STATE_EMPTY)%Z then inl tt
            else if negb (owned_by blk cohort_id client_id owner_id) then inl tt
            else if (cb_state blk =? CHUNK_STATE_PENDING)%Z
                    || (cb_state blk =? CHUNK_STATE_FINALIZED)%Z
            then inr (0%Z, set_blocks cs
                   (wr (cs_blocks cs) (Z.to_nat off) (set_cb_state blk CHUNK_STATE_EMPTY)) true)
            else if (cb_state blk =? CHUNK_STATE_COMMITTED)%Z then inr ((- ENOTSUP)%Z, cs)
            else inr ((- EINVAL)%Z, cs)) tt with
  | inr r => r
  | inl _ => ((- EINVAL)%Z, cs)
  end.

(** Adopted custody goes back to the metadata server. *)
Definition return_custody (b : chunk_block) : chunk_block :=
  mk_block (cb_state b) (Z.lor (cb_flags b) CHUNK_BLOCK_ESCROW) (cb_gen_id b) (cb_client_id b)
    (cb_cohort_id b) (cb_owner_id b) (cb_payload_id b) (cb_checksum_algorithm b)
    (cb_checksum_len b) (cb_checksum_value b) (cb_chunk_size b) 0 0 UINT32_MAX 0
    (cb_lock_offset b) (cb_lock_count b) 0 (zero_bytes CHUNK_LOCK_STATEID_SIZE)
    (cb_lock_escrow_id b).

(** The block after the sweep, when it changes. *)
Definition sweep_one (writer_clientid : Z) (blk : chunk_block) : option chunk_block :=
  if negb (cb_writer_clientid blk =? writer_clientid)%Z then None
  else if has_flag (cb_flags blk) CHUNK_BLOCK_ESCROW then None
  else if chunk_block_has_escrow_custody blk then Some (return_custody blk)
  else if (cb_state blk =? CHUNK_STATE_PENDING)%Z || (cb_state blk =? CHUNK_STATE_FINALIZED)%Z
  then Some (set_cb_state blk CHUNK_STATE_EMPTY)
  else None.

Definition sweep_store (cs : chunk_store) (writer_clientid : Z) : Z * chunk_store :=
  let '(blocks, n) :=
    for_range 0 (Z.to_nat (cs_nblocks cs)) (λ off '(blocks, n),
      match sweep_one writer_clientid (rd zero_block blocks off) with
      | Some b => (wr blocks off b, u32w (n + 1))
      | None => (blocks, n)
      end) (cs_blocks cs, 0%Z) in
  (n, set_blocks cs blocks (if (0 <? n)%Z then true else cs_dirty cs)).

Definition chunk_store_rollback_for_client (cs : option chunk_store) (writer_clientid : Z)
    : Z * option chunk_store :=
  match cs with
  | None => (0%Z, None)
  | Some cs => let '(n, cs) := sweep_store cs writer_clientid in (n, Some cs)
  end.

Definition clear_store (cs : chunk_store) : chunk_store :=
  mk_store (replicate (Z.to_nat (cs_nblocks cs)) zero_block) (cs_nblocks cs) 0 0 0 [] 0 true.

Definition chunk_store_clear (cs : option chunk_store) : option chunk_store :=
  match cs with None => None | Some cs => Some (clear_store cs) end.

Definition occupied (blk : chunk_block) : bool := negb (cb_state blk =? CHUNK_STATE_EMPTY)%Z.

Definition chunk_store_count_runs (cs : option chunk_store) : Z :=
  match cs with
  | None => 0
  | Some cs =>
      if (cs_nblocks cs =? 0)%Z then 0%Z else
      fst (for_range 0 (Z.to_nat (cs_nblocks cs)) (λ off '(runs, in_run),
             let o := occupied (rd zero_block (cs_blocks cs) off) in
             if o && negb in_run then (u64w (runs + 1), true)
             else if negb o then (runs, false)
             else (runs, in_run)) (0%Z, false))
  end.

End ChunkStore.
