(* ===== verification/ChunkDisk.v ===== *)
(** * The files of a data server's chunk store ([src/lib/nfs4/server/chunk_store.c])

    The metadata file of an inode, the record of the metadata server's epoch, and
    how both are replaced and read.  A file is the bytes of the C structures, in
    their order, on a little-endian machine; they have no implicit padding. *)

From S2P Require Import Prelude.
From S2P Require Import Words.
From S2P Require Import Posix.
From S2P Require Import ChunkStore.
From stdpp Require Import gmap strings pretty.
Import Words Posix ChunkStore.

Module ChunkDisk.

(** ** The structures as bytes *)

Definition le32 (z : Z) : list byte := le_split 4 z.
Definition le64 (z : Z) : list byte := le_split 8 z.

Definition header_bytes (h : chunk_store_header) : list byte :=
  le32 (csh_magic h) ++ le32 (csh_version h) ++ le64 (csh_nblocks h) ++
  le64 (csh_inode_ino h) ++ le32 (csh_chunk_size h) ++ le32 (csh_checksum_algorithm h) ++
  le32 (csh_escrow_count h) ++ le32 (csh_escrow_record_size h).

Definition range_bytes (r : chunk_escrow_range_disk) : list byte :=
  le64 (cerd_offset r) ++ le32 (cerd_count r) ++ le32 (cerd_pad r) ++ cerd_id r.

Definition block_bytes (d : chunk_block_disk) : list byte :=
  le32 (cbd_state d) ++ le32 (cbd_flags d) ++ le32 (cbd_gen_id d) ++ le32 (cbd_client_id d) ++
  le32 (cbd_owner_id d) ++ le32 (cbd_payload_id d) ++ le32 (cbd_checksum_algorithm d) ++
  le32 (cbd_checksum_len d) ++ cbd_checksum_value d ++ le32 (cbd_chunk_size d) ++
  le32 (cbd_pad d) ++ le64 (cbd_writer_clientid d) ++ le64 (cbd_cohort_id d) ++
  le64 (cbd_lock_cohort_id d) ++ le32 (cbd_lock_client_id d) ++ le32 (cbd_lock_owner_id d) ++
  le64 (cbd_lock_offset d) ++ le32 (cbd_lock_count d) ++ le32 (cbd_lock_flags d) ++
  cbd_lock_stateid d ++ cbd_lock_escrow_id d.

Definition HEADER_SIZE : nat := 40.
Definition BLOCK_SIZE : nat := 184.
Definition RANGE_SIZE : nat := 32.

(** The field of [n] bytes at the front, and the rest. *)
Definition raw (n : nat) (bs : list byte) : list byte * list byte := (take n bs, drop n bs).
Definition num (n : nat) (bs : list byte) : Z * list byte := (le_combine (take n bs), drop n bs).

Definition header_of (bs : list byte) : chunk_store_header :=
  let '(magic, bs) := num 4 bs in
  let '(version, bs) := num 4 bs in
  let '(nblocks, bs) := num 8 bs in
  let '(ino, bs) := num 8 bs in
  let '(chunk_size, bs) := num 4 bs in
  let '(algorithm, bs) := num 4 bs in
  let '(escrow_count, bs) := num 4 bs in
  let '(record_size, bs) := num 4 bs in
  mk_header magic version nblocks ino chunk_size algorithm escrow_count record_size.

Definition range_of (bs : list byte) : chunk_escrow_range_disk :=
  let '(offset, bs) := num 8 bs in
  let '(count, bs) := num 4 bs in
  let '(pad, bs) := num 4 bs in
  let '(id, bs) := raw 16 bs in
  mk_range_disk offset count pad id.

Definition block_of (bs : list byte) : chunk_block_disk :=
  let '(state, bs) := num 4 bs in
  let '(flags, bs) := num 4 bs in
  let '(gen_id, bs) := num 4 bs in
  let '(client_id, bs) := num 4 bs in
  let '(owner_id, bs) := num 4 bs in
  let '(payload_id, bs) := num 4 bs in
  let '(algorithm, bs) := num 4 bs in
  let '(len, bs) := num 4 bs in
  let '(value, bs) := raw 64 bs in
  let '(chunk_size, bs) := num 4 bs in
  let '(pad, bs) := num 4 bs in
  let '(writer, bs) := num 8 bs in
  let '(cohort, bs) := num 8 bs in
  let '(lock_cohort, bs) := num 8 bs in
  let '(lock_client, bs) := num 4 bs in
  let '(lock_owner, bs) := num 4 bs in
  let '(lock_offset, bs) := num 8 bs in
  let '(lock_count, bs) := num 4 bs in
  let '(lock_flags, bs) := num 4 bs in
  let '(stateid, bs) := raw 16 bs in
  let '(escrow_id, bs) := raw 16 bs in
  mk_block_disk state flags gen_id client_id owner_id payload_id algorithm len value
    chunk_size pad writer cohort lock_cohort lock_client lock_owner lock_offset lock_count
    lock_flags stateid escrow_id.

Definition block_to_disk (blk : chunk_block) : chunk_block_disk :=
  mk_block_disk (cb_state blk) (cb_flags blk) (cb_gen_id blk) (cb_client_id blk)
    (cb_owner_id blk) (cb_payload_id blk) (cb_checksum_algorithm blk) (cb_checksum_len blk)
    (cb_checksum_value blk) (cb_chunk_size blk) 0 (cb_writer_clientid blk) (cb_cohort_id blk)
    (cb_lock_cohort_id blk) (cb_lock_client_id blk) (cb_lock_owner_id blk) (cb_lock_offset blk)
    (cb_lock_count blk) (cb_lock_flags blk) (cb_lock_stateid blk) (cb_lock_escrow_id blk).

Definition disk_to_block (dsk : chunk_block_disk) : chunk_block :=
  let len := cbd_checksum_len dsk in
  let len := if (Z.of_nat CHUNK_VALUE_MAX <? len)%Z then Z.of_nat CHUNK_VALUE_MAX else len in
  mk_block (cbd_state dsk) (cbd_flags dsk) (cbd_gen_id dsk) (cbd_client_id dsk)
    (cbd_cohort_id dsk) (cbd_owner_id dsk) (cbd_payload_id dsk) (cbd_checksum_algorithm dsk)
    len (cbd_checksum_value dsk) (cbd_chunk_size dsk) (cbd_writer_clientid dsk)
    (cbd_lock_cohort_id dsk) (cbd_lock_client_id dsk) (cbd_lock_owner_id dsk)
    (cbd_lock_offset dsk) (cbd_lock_count dsk) (cbd_lock_flags dsk) (cbd_lock_stateid dsk)
    (cbd_lock_escrow_id dsk).

(** ** Paths *)

(** [snprintf] into a buffer of [bufsz] bytes that must hold all of it. *)
Definition snprintf_fits (bufsz : Z) (text : string) : Z + string :=
  if (bufsz <=? Z.of_nat (String.length text))%Z then inl (- ENAMETOOLONG)%Z else inr text.

Definition chunk_meta_path (bufsz : Z) (state_dir : string) (inode_ino : Z) : Z + string :=
  snprintf_fits bufsz (state_dir +:+ "/chunks/" +:+ pretty inode_ino +:+ ".meta").

Definition ensure_chunks_dir (state_dir : string) (s : sys) : Z * sys :=
  match snprintf_fits 512 (state_dir +:+ "/chunks") with
  | inl ret => (ret, s)
  | inr _ =>
      let '(ret, s) := sys_mkdir s in
      if negb (ret =? 0)%Z && negb (ret =? - EEXIST)%Z then (ret, s) else (0%Z, s)
  end.

Definition chunk_mds_epoch_path (bufsz : Z) (state_dir : option string) : Z + string :=
  match state_dir with
  | None => inl (- EINVAL)%Z
  | Some dir => snprintf_fits bufsz (dir +:+ "/chunk_mds_epoch")
  end.

(** ** Writing *)

(** A [write] that must take all of [bs]: 0, or the error it leads to. *)
Definition put (path : string) (bs : list byte) (s : sys) : Z * sys :=
  let '(n, s) := sys_write path bs s in
  if (n =? Z.of_nat (length bs))%Z then (0%Z, s)
  else ((if (n <? 0)%Z then n else (- EIO)%Z), s).

Definition put_loop (path : string) (n : nat) (item : nat → list byte) (s : sys) : sys + Z * sys :=
  for_break 0 n (λ i s,
    let '(ret, s) := put path (item i) s in
    if (ret =? 0)%Z then inl s else inr (ret, s)) s.

Definition store_header (cs : chunk_store) (inode_ino : Z) : chunk_store_header :=
  mk_header CHUNK_STORE_MAGIC CHUNK_STORE_VERSION (cs_high_water cs) inode_ino
    (cs_chunk_size cs) (cs_checksum_algorithm cs) (Z.of_nat (length (cs_escrows cs)))
    (Z.of_nat RANGE_SIZE).

Definition zero_range : chunk_escrow_range := mk_range 0 0 (zero_bytes CHUNK_LOCK_ESCROW_ID_SIZE).

(** Everything up to and including [fdatasync]. *)
Definition write_store (cs : chunk_store) (tmp : string) (inode_ino : Z) (s : sys) : Z * sys :=
  let '(ret, s) := put tmp (header_bytes (store_header cs inode_ino)) s in
  if negb (ret =? 0)%Z then (ret, s)
  else
    match put_loop tmp (Z.to_nat (cs_high_water cs))
            (λ i, block_bytes (block_to_disk (rd zero_block (cs_blocks cs) i))) s with
    | inr e => e
    | inl s =>
        match put_loop tmp (length (cs_escrows cs))
                (λ i, range_bytes (escrow_range_to_disk (rd zero_range (cs_escrows cs) i))) s with
        | inr e => e
        | inl s => sys_fdatasync tmp s
        end
    end.

Definition set_clean (cs : chunk_store) : chunk_store := set_blocks cs (cs_blocks cs) false.

Definition chunk_store_persist (grants : elem → Z → bool) (cs : option chunk_store)
    (state_dir : string) (inode_ino : Z) (s : sys) : Z * option chunk_store * sys :=
  match cs with
  | None => (0%Z, None, s)
  | Some cs =>
      if negb (cs_dirty cs) then (0%Z, Some cs, s)
      else
        let '(ret, cs) := chunk_store_refresh_escrows grants cs in
        if negb (ret =? 0)%Z then (ret, Some cs, s)
        else
          let '(ret, s) := ensure_chunks_dir state_dir s in
          if negb (ret =? 0)%Z then (ret, Some cs, s)
          else
            match chunk_meta_path 512 state_dir inode_ino with
            | inl ret => (ret, Some cs, s)
            | inr path =>
                match snprintf_fits 520 (path +:+ ".tmp") with
                | inl ret => (ret, Some cs, s)
                | inr tmp =>
                    let '(fd, s) := sys_create tmp s in
                    if (fd <? 0)%Z then (fd, Some cs, s)
                    else
                      let '(ret, s) := write_store cs tmp inode_ino s in
                      let '(_, s) := sys_close s in
                      if negb (ret =? 0)%Z then (ret, Some cs, sys_unlink tmp s)
                      else
                        let '(ret, s) := sys_rename tmp path s in
                        if negb (ret =? 0)%Z then (ret, Some cs, sys_unlink tmp s)
                        else (0%Z, Some (set_clean cs), s)
                end
            end
  end.

(** ** Reading *)

(** [calloc] leaves zeros; the loop stores what each record decodes to. *)
Definition load_blocks (nblocks : nat) (blocks : list chunk_block) (fd : list byte) (s : sys)
    : list chunk_block * list byte * sys + sys :=
  for_break 0 nblocks (λ i '(blocks, fd, s),
    let '(n, buf, fd, s) := sys_read BLOCK_SIZE fd s in
    if negb (n =? Z.of_nat BLOCK_SIZE)%Z then inr s
    else inl (wr blocks i (disk_to_block (block_of buf)), fd, s)) (blocks, fd, s).

Definition load_ranges (nblocks : Z) (ranges : list chunk_escrow_range) (fd : list byte) (s : sys)
    : list chunk_escrow_range * list byte * sys + sys :=
  for_break 0 (length ranges) (λ i '(ranges, fd, s),
    let '(n, buf, fd, s) := sys_read RANGE_SIZE fd s in
    if negb (n =? Z.of_nat RANGE_SIZE)%Z then inr s
    else
      let range := escrow_range_from_disk (range_of buf) in
      if negb (escrow_range_valid (cer_offset range) (cer_count range) (cer_id range))
         || (nblocks <? cer_offset range)%Z || (nblocks - cer_offset range <? cer_count range)%Z
      then inr s
      else inl (wr ranges i range, fd, s)) (ranges, fd, s).

Definition header_bad (n : Z) (hdr : chunk_store_header) (inode_ino : Z) : bool :=
  negb (n =? Z.of_nat HEADER_SIZE)%Z || negb (csh_magic hdr =? CHUNK_STORE_MAGIC)%Z
  || negb (csh_version hdr =? CHUNK_STORE_VERSION)%Z || negb (csh_inode_ino hdr =? inode_ino)%Z
  || (CHUNK_STORE_MAX_BLOCKS <? csh_nblocks hdr)%Z
  || (CHUNK_STORE_MAX_ESCROWS <? csh_escrow_count hdr)%Z
  || negb (csh_escrow_record_size hdr =? Z.of_nat RANGE_SIZE)%Z.

(** The store from an open file: every exit closes it. *)
Definition load_store (grants : elem → Z → bool) (inode_ino : Z) (fd : list byte) (s : sys)
    : option chunk_store * sys :=
  let '(n, buf, fd, s) := sys_read HEADER_SIZE fd s in
  let hdr := header_of buf in
  let nblocks := csh_nblocks hdr in
  let alloc := if (nblocks <? CHUNK_STORE_INIT_BLOCKS)%Z then CHUNK_STORE_INIT_BLOCKS else nblocks in
  let nescrows := csh_escrow_count hdr in
  if header_bad n hdr inode_ino then (None, s)
  else if negb (grants Store 1%Z) then (None, s)
  else if negb (grants Blocks alloc) then (None, s)
  else if negb (nescrows =? 0)%Z && negb (grants Ranges nescrows) then (None, s)
  else
    match load_blocks (Z.to_nat nblocks) (replicate (Z.to_nat alloc) zero_block) fd s with
    | inr s => (None, s)
    | inl (blocks, fd, s) =>
        match load_ranges nblocks (replicate (Z.to_nat nescrows) zero_range) fd s with
        | inr s => (None, s)
        | inl (ranges, _, s) =>
            (Some (mk_store blocks alloc nblocks (csh_chunk_size hdr)
                     (csh_checksum_algorithm hdr) ranges nescrows false), s)
        end
    end.

Definition chunk_store_load (grants : elem → Z → bool) (state_dir : string) (inode_ino : Z)
    (s : sys) : option chunk_store * sys :=
  match chunk_meta_path 512 state_dir inode_ino with
  | inl _ => (None, s)
  | inr path =>
      match sys_open path s with
      | (inl _, s) => (None, s)
      | (inr fd, s) =>
          let '(cs, s) := load_store grants inode_ino fd s in
          (cs, snd (sys_close s))
      end
  end.

(** [i_chunk_store] of the inode goes in and comes out. *)
Definition chunk_store_get (grants : elem → Z → bool) (i_chunk_store : option chunk_store)
    (i_ino : Z) (state_dir : option string) (s : sys) : option chunk_store * sys :=
  match i_chunk_store with
  | Some cs => (Some cs, s)
  | None =>
      let '(loaded, s) := match state_dir with
                          | Some dir => chunk_store_load grants dir i_ino s
                          | None => (None, s)
                          end in
      match loaded with
      | Some cs => (Some cs, s)
      | None =>
          if negb (grants Store 1%Z) then (None, s)
          else if negb (grants Blocks CHUNK_STORE_INIT_BLOCKS) then (None, s)
          else (Some (mk_store (replicate (Z.to_nat CHUNK_STORE_INIT_BLOCKS) zero_block)
                        CHUNK_STORE_INIT_BLOCKS 0 0 0 [] 0 false), s)
      end
  end.

(** ** The metadata server's epoch *)

Definition CHUNK_MDS_EPOCH_MAGIC : Z := 0x43455048.
Definition CHUNK_MDS_EPOCH_VERSION : Z := 1.
Definition EPOCH_SIZE : nat := 32.

Record chunk_mds_epoch := mk_epoch {
  epoch : Z;
  expires_at_ns : Z;
  issuer_clientid : Z;
}.

Record chunk_mds_epoch_disk := mk_epoch_disk {
  ep_magic : Z;
  ep_version : Z;
  ep_value : chunk_mds_epoch;
}.

Definition epoch_bytes (d : chunk_mds_epoch_disk) : list byte :=
  le32 (ep_magic d) ++ le32 (ep_version d) ++ le64 (epoch (ep_value d)) ++
  le64 (expires_at_ns (ep_value d)) ++ le64 (issuer_clientid (ep_value d)).

Definition epoch_of (bs : list byte) : chunk_mds_epoch_disk :=
  let '(magic, bs) := num 4 bs in
  let '(version, bs) := num 4 bs in
  let '(e, bs) := num 8 bs in
  let '(expires, bs) := num 8 bs in
  let '(issuer, bs) := num 8 bs in
  mk_epoch_disk magic version (mk_epoch e expires issuer).

Definition chunk_mds_epoch_load (state_dir : option string) (s : sys)
    : (Z + chunk_mds_epoch) * sys :=
  match chunk_mds_epoch_path 512 state_dir with
  | inl _ => (inl (- EINVAL)%Z, s)
  | inr path =>
      match sys_open path s with
      | (inl e, s) => (inl e, s)
      | (inr fd, s) =>
          let '(n, buf, _, s) := sys_read EPOCH_SIZE fd s in
          let s := snd (sys_close s) in
          let disk := epoch_of buf in
          if negb (n =? Z.of_nat EPOCH_SIZE)%Z || negb (ep_magic disk =? CHUNK_MDS_EPOCH_MAGIC)%Z
             || negb (ep_version disk =? CHUNK_MDS_EPOCH_VERSION)%Z
          then (inl (- EINVAL)%Z, s)
          else (inr (ep_value disk), s)
      end
  end.

Definition chunk_mds_epoch_persist (state_dir : option string) (value : option chunk_mds_epoch)
    (s : sys) : Z * sys :=
  match value with
  | None => ((- EINVAL)%Z, s)
  | Some value =>
      let disk := mk_epoch_disk CHUNK_MDS_EPOCH_MAGIC CHUNK_MDS_EPOCH_VERSION value in
      match chunk_mds_epoch_path 512 state_dir with
      | inl _ => ((- EINVAL)%Z, s)
      | inr path =>
          match snprintf_fits 520 (path +:+ ".tmp") with
          | inl ret => (ret, s)
          | inr tmp =>
              let '(fd, s) := sys_create tmp s in
              if (fd <? 0)%Z then (fd, s)
              else
                let '(ret, s) := put tmp (epoch_bytes disk) s in
                if negb (ret =? 0)%Z then (ret, sys_unlink tmp (snd (sys_close s)))
                else
                  let '(ret, s) := sys_fdatasync tmp s in
                  if negb (ret =? 0)%Z then (ret, sys_unlink tmp (snd (sys_close s)))
                  else
                    let '(ret, s) := sys_close s in
                    if negb (ret =? 0)%Z then (ret, sys_unlink tmp s)
                    else
                      let '(ret, s) := sys_rename tmp path s in
                      if negb (ret =? 0)%Z then (ret, sys_unlink tmp s) else (0%Z, s)
          end
      end
  end.

End ChunkDisk.
