(* ===== verification/ChunkCorrect.v ===== *)
(** * The chunk store in memory: its invariant and what each operation does

    Structure of the store ([store_ok]), escrow custody ([custody_ok]), growth,
    writes, and the search for an owner's block in transitions and rollbacks. *)

From S2P Require Import Prelude.
From S2P Require Import ChunkStore.
Import ChunkStore.

Module ChunkCorrect.

(** ** Well-formed blocks and stores *)

Record block_ok (b : chunk_block) : Prop := {
  ok_state : in_width 32 (cb_state b);
  ok_flags : in_width 32 (cb_flags b);
  ok_gen_id : in_width 32 (cb_gen_id b);
  ok_client_id : in_width 32 (cb_client_id b);
  ok_cohort_id : in_width 64 (cb_cohort_id b);
  ok_owner_id : in_width 32 (cb_owner_id b);
  ok_payload_id : in_width 32 (cb_payload_id b);
  ok_algorithm : in_width 32 (cb_checksum_algorithm b);
  ok_checksum_len : (0 <= cb_checksum_len b <= 64)%Z;
  ok_checksum_value : length (cb_checksum_value b) = CHUNK_VALUE_MAX;
  ok_chunk_size : in_width 32 (cb_chunk_size b);
  ok_writer : in_width 64 (cb_writer_clientid b);
  ok_lock_cohort : in_width 64 (cb_lock_cohort_id b);
  ok_lock_client : in_width 32 (cb_lock_client_id b);
  ok_lock_owner : in_width 32 (cb_lock_owner_id b);
  ok_lock_offset : in_width 64 (cb_lock_offset b);
  ok_lock_count : in_width 32 (cb_lock_count b);
  ok_lock_flags : in_width 32 (cb_lock_flags b);
  ok_stateid : length (cb_lock_stateid b) = CHUNK_LOCK_STATEID_SIZE;
  ok_escrow_id : length (cb_lock_escrow_id b) = CHUNK_LOCK_ESCROW_ID_SIZE;
}.

Record range_ok (r : chunk_escrow_range) : Prop := {
  ok_offset : in_width 64 (cer_offset r);
  ok_count : in_width 32 (cer_count r);
  ok_id : length (cer_id r) = CHUNK_LOCK_ESCROW_ID_SIZE;
  ok_valid : escrow_range_valid (cer_offset r) (cer_count r) (cer_id r) = true;
}.

(** A block held in escrow, or whose holder adopted an escrow. *)
Definition in_escrow (b : chunk_block) : bool :=
  has_flag (cb_flags b) CHUNK_BLOCK_ESCROW || chunk_block_has_escrow_custody b.

(** Above the high-water mark a block can be locked, and no more. *)
Definition idle (b : chunk_block) : Prop :=
  cb_state b = CHUNK_STATE_EMPTY ∧ in_escrow b = false.

Record store_ok (cs : chunk_store) : Prop := {
  ok_length : Z.of_nat (length (cs_blocks cs)) = cs_nblocks cs;
  ok_nblocks : (CHUNK_STORE_INIT_BLOCKS <= cs_nblocks cs <= 2 * CHUNK_STORE_MAX_BLOCKS)%Z;
  ok_high : (0 <= cs_high_water cs <= cs_nblocks cs)%Z;
  ok_blocks : ∀ off, block_ok (blk_at cs off);
  ok_above : ∀ off, (cs_high_water cs <= off)%Z → idle (blk_at cs off);
  ok_nominal : in_width 32 (cs_chunk_size cs);
  ok_file_algorithm : in_width 32 (cs_checksum_algorithm cs);
  ok_escrows : Forall range_ok (cs_escrows cs);
  ok_escrow_cap : (Z.of_nat (length (cs_escrows cs)) <= cs_escrow_cap cs <= CHUNK_STORE_MAX_ESCROWS)%Z;
}.

(** Such a block names a range of the store. *)
Definition custody_in (high : Z) (b : chunk_block) : Prop :=
  in_escrow b = true →
  escrow_range_valid (cb_lock_offset b) (cb_lock_count b) (cb_lock_escrow_id b) = true ∧
  (cb_lock_offset b + cb_lock_count b <= high)%Z.

Definition custody_ok (cs : chunk_store) : Prop :=
  ∀ off, custody_in (cs_high_water cs) (blk_at cs off).

(** The four states of the lifecycle. *)
Definition state_ok (b : chunk_block) : Prop :=
  (CHUNK_STATE_EMPTY <= cb_state b <= CHUNK_STATE_COMMITTED)%Z.

Definition states_ok (cs : chunk_store) : Prop := ∀ off, state_ok (blk_at cs off).

Lemma zero_block_ok : block_ok zero_block.
Proof. by split. Qed.

Lemma zero_block_custody high : custody_in high zero_block.
Proof. done. Qed.

Lemma zero_state_ok : state_ok zero_block.
Proof. done. Qed.

Lemma zero_idle : idle zero_block.
Proof. done. Qed.

Lemma idle_custody high b : idle b → custody_in high b.
Proof. intros [_ H] He. congruence. Qed.

Lemma idle_state b : idle b → state_ok b.
Proof. intros [H _]. unfold state_ok. by rewrite H. Qed.

#[export] Hint Resolve zero_block_ok zero_block_custody zero_state_ok zero_idle idle_custody
  idle_state : reffs.

(** ** Blocks of an updated store *)

Lemma blk_at_wr cs off b blocks i :
  blocks = wr (cs_blocks cs) (Z.to_nat off) b →
  (0 <= off < Z.of_nat (length (cs_blocks cs)))%Z → (0 <= i)%Z →
  rd zero_block blocks (Z.to_nat i) = if (i =? off)%Z then b else blk_at cs i.
Proof.
  intros -> H Hi. rewrite rd_wr by lia. unfold blk_at.
  destruct (Z.eqb_spec i off) as [->|]; case_decide; done || lia.
Qed.

Lemma blk_at_neg cs i : (i < 0)%Z → blk_at cs i = blk_at cs 0.
Proof. intros H. unfold blk_at. by replace (Z.to_nat i) with (Z.to_nat 0) by lia. Qed.

(** A property of all blocks holds when it holds at the offsets of the code. *)
Lemma at_nonneg (P : chunk_block → Prop) cs :
  (∀ i, (0 <= i)%Z → P (blk_at cs i)) → ∀ i, P (blk_at cs i).
Proof.
  intros H i. destruct (Z.lt_ge_cases i 0); [|by apply H]. rewrite blk_at_neg by done. by apply H.
Qed.

(** [cs'] is [cs] with the block at [off] replaced by [b]. *)
Lemma set_block_ok cs off b dirty :
  store_ok cs → (0 <= off < cs_high_water cs)%Z → block_ok b →
  store_ok (set_blocks cs (wr (cs_blocks cs) (Z.to_nat off) b) dirty).
Proof.
  intros [] Hoff Hb. split; simpl; try done.
  - by rewrite length_wr.
  - intros i. apply (at_nonneg block_ok (set_blocks _ _ _)). intros j Hj. unfold blk_at. simpl.
    rewrite (blk_at_wr cs off b _ j eq_refl) by lia. case_if; auto.
  - intros i Hi. unfold blk_at. simpl.
    rewrite (blk_at_wr cs off b _ i eq_refl) by lia. case_if; bool_prop; [lia|auto].
Qed.

Lemma set_block_at (P : chunk_block → Prop) cs off b dirty :
  store_ok cs → (0 <= off < cs_nblocks cs)%Z → (∀ i, P (blk_at cs i)) → P b →
  ∀ i, P (blk_at (set_blocks cs (wr (cs_blocks cs) (Z.to_nat off) b) dirty) i).
Proof.
  intros [] Hoff H Hb. apply at_nonneg. intros i Hi. unfold blk_at. simpl.
  rewrite (blk_at_wr cs off b _ i eq_refl) by lia. case_if; auto.
Qed.

(** ** Growth *)

Lemma grow_loop_spec fuel cap new_cap :
  (0 < cap)%Z → (new_cap <= CHUNK_STORE_MAX_BLOCKS)%Z → (new_cap < cap * 2 ^ Z.of_nat fuel)%Z →
  (new_cap < grow_loop fuel cap new_cap)%Z ∧
  (cap <= grow_loop fuel cap new_cap <= Z.max cap (2 * new_cap))%Z.
Proof.
  unfold CHUNK_STORE_MAX_BLOCKS. revert cap. induction fuel as [|fuel IH]; intros cap H0 Hm Hf.
  - simpl. lia.
  - cbn [grow_loop]. case_if; bool_prop; [|lia].
    rewrite wrap_small by (unfold in_width; lia).
    rewrite Nat2Z.inj_succ, Z.pow_succ_r in Hf by lia.
    destruct (IH (cap * 2)%Z) as [??]; lia.
Qed.

Section Growth.

Context (grants : elem → Z → bool).

(** After room was made the store is as before, with the offset inside. *)
Lemma room_spec cs offset ret cs' :
  store_ok cs → (0 <= offset)%Z → chunk_store_room grants cs offset = (ret, cs') →
  (∀ i, blk_at cs' i = blk_at cs i) ∧
  (cs' = cs ∧ ret = (- ENOMEM)%Z ∨
   ret = 0%Z ∧ (offset < cs_nblocks cs')%Z ∧ store_ok cs' ∧ cs_high_water cs' = cs_high_water cs).
Proof.
  intros Hok Hoff. unfold chunk_store_room, chunk_store_grow.
  case_if; bool_prop; [|intros [= <- <-]; auto 10].
  case_if; bool_prop; [intros [= <- <-]; auto|].
  pose proof (ok_nblocks _ Hok) as Hn. pose proof (ok_length _ Hok) as Hl.
  unfold CHUNK_STORE_INIT_BLOCKS in Hn.
  destruct (Z.eqb_spec (cs_nblocks cs) 0); [lia|].
  destruct (grow_loop_spec 64 (cs_nblocks cs) offset) as [Hlo Hhi]; [lia|done| |].
  { unfold CHUNK_STORE_MAX_BLOCKS in *. lia. }
  set (cap := grow_loop 64 (cs_nblocks cs) offset) in *. clearbody cap.
  case_if; [intros [= <- <-]; auto|]. intros [= <- <-].
  set (cs' := mk_store _ _ _ _ _ _ _ _).
  assert (Hlen : length (take (Z.to_nat (cs_nblocks cs)) (cs_blocks cs)) = length (cs_blocks cs))
    by (rewrite length_take; lia).
  assert (Hat : ∀ i, blk_at cs' i = blk_at cs i).
  { intros i. unfold blk_at, cs'. cbn [cs_blocks].
    rewrite rd_splice by (rewrite Hlen, length_replicate; lia). rewrite Hlen.
    case_decide; [rewrite rd_take, Nat.sub_0_r by lia; done|].
    rewrite rd_replicate, rd_ge by lia. done. }
  split; [done|]. right. split_and!; [done|done| |done].
  destruct Hok. split; try done.
  - unfold cs'. cbn [cs_blocks cs_nblocks].
    rewrite length_splice; rewrite ?Hlen, length_replicate; lia.
  - unfold cs'. cbn [cs_nblocks]. unfold CHUNK_STORE_INIT_BLOCKS. lia.
  - unfold cs'. cbn. lia.
  - intros i. rewrite Hat. auto.
  - intros i. rewrite Hat. auto.
Qed.

(** The high-water mark only rises, and stays inside the array. *)
Lemma raise_ok cs offset blocks :
  store_ok cs → (0 <= offset < cs_nblocks cs)%Z →
  length blocks = length (cs_blocks cs) →
  (∀ i, block_ok (rd zero_block blocks (Z.to_nat i))) →
  (∀ i, (0 <= i)%Z → i ≠ offset → rd zero_block blocks (Z.to_nat i) = blk_at cs i) →
  store_ok (raise_high_water cs offset blocks) ∧
  cs_high_water (raise_high_water cs offset blocks) = Z.max (cs_high_water cs) (offset + 1).
Proof.
  intros [] Hoff Hlen Hb Hi. unfold CHUNK_STORE_MAX_BLOCKS, raise_high_water in *.
  rewrite wrap_small by (unfold in_width; lia).
  assert (Hh : (if (cs_high_water cs <? offset + 1)%Z then (offset + 1)%Z else cs_high_water cs)
               = Z.max (cs_high_water cs) (offset + 1)) by (case_if; bool_prop; lia).
  rewrite Hh. split; [|done].
  split; simpl; try done; unfold CHUNK_STORE_MAX_BLOCKS; try lia.
  intros i Hge. unfold blk_at. simpl. rewrite Hi by lia. apply ok_above0. lia.
Qed.

(** What [write] and [touch] do: room is made, then the mark is raised. *)
Lemma write_spec cs offset blk ret cs' :
  store_ok cs → (0 <= offset)%Z → block_ok blk →
  chunk_store_write grants cs offset blk = (ret, cs') →
  ret = (- ENOMEM)%Z ∧ cs' = cs ∨
  ret = 0%Z ∧ store_ok cs' ∧ cs_dirty cs' = true ∧
  cs_high_water cs' = Z.max (cs_high_water cs) (offset + 1) ∧
  ∀ i, (0 <= i)%Z → blk_at cs' i = if (i =? offset)%Z then blk else blk_at cs i.
Proof.
  intros Hok Hoff Hb. unfold chunk_store_write.
  destruct (chunk_store_room grants cs offset) as [r c] eqn:E.
  destruct (room_spec _ _ _ _ Hok Hoff E) as [Hat [[-> ->]|(-> & Hin & Hc & Hh)]];
    cbn [Z.opp Z.eqb negb ENOMEM]; intros [= <- <-]; [auto|]. right.
  pose proof (ok_length _ Hc) as Hl.
  assert (Hrd : ∀ i, (0 <= i)%Z →
    rd zero_block (wr (cs_blocks c) (Z.to_nat offset) blk) (Z.to_nat i)
    = if (i =? offset)%Z then blk else blk_at cs i).
  { intros i Hi. rewrite (blk_at_wr c offset blk _ i eq_refl), Hat by lia. done. }
  destruct (raise_ok c offset (wr (cs_blocks c) (Z.to_nat offset) blk)) as [Hr Hw];
    [done|lia|by rewrite length_wr| | |].
  - intros i. replace (Z.to_nat i) with (Z.to_nat (Z.max 0 i)) by lia.
    rewrite Hrd by lia. case_if; [done|]. apply (ok_blocks _ Hok).
  - intros i Hi Hne. rewrite Hrd, Hat by done. by destruct (Z.eqb_spec i offset).
  - split_and!; [done|done|done|by rewrite Hw, Hh|exact Hrd].
Qed.

Lemma touch_spec cs offset ret cs' :
  store_ok cs → (0 <= offset)%Z → chunk_store_touch grants cs offset = (ret, cs') →
  ret = (- ENOMEM)%Z ∧ cs' = cs ∨
  ret = 0%Z ∧ store_ok cs' ∧ cs_dirty cs' = true ∧
  cs_high_water cs' = Z.max (cs_high_water cs) (offset + 1) ∧
  ∀ i, blk_at cs' i = blk_at cs i.
Proof.
  intros Hok Hoff. unfold chunk_store_touch.
  destruct (chunk_store_room grants cs offset) as [r c] eqn:E.
  destruct (room_spec _ _ _ _ Hok Hoff E) as [Hat [[-> ->]|(-> & Hin & Hc & Hh)]];
    cbn [Z.opp Z.eqb negb ENOMEM]; intros [= <- <-]; [auto|]. right.
  destruct (raise_ok c offset (cs_blocks c)) as [Hr Hw]; [done|lia|done|apply (ok_blocks _ Hc)|done|].
  split_and!; [done|done|done|by rewrite Hw, Hh|exact Hat].
Qed.

End Growth.

(** ** The owner's block *)

(** The offsets of the request that lie in the array, and the first that holds a
    written block of the owner. *)
Definition window (cs : chunk_store) (offset count : Z) : list Z :=
  seqZ offset (Z.min count (cs_nblocks cs - offset)).

Definition mine (cs : chunk_store) (cohort_id client_id owner_id off : Z) : bool :=
  occupied (blk_at cs off) && owned_by (blk_at cs off) cohort_id client_id owner_id.

Definition owners_block (cs : chunk_store) (offset count cohort_id client_id owner_id : Z)
    : option Z :=
  find (mine cs cohort_id client_id owner_id) (window cs offset count).

Lemma window_end cs offset count : (cs_nblocks cs <= offset)%Z → window cs offset count = [].
Proof. intros H. apply seqZ_nil. lia. Qed.

Lemma window_cons cs offset count :
  (offset < cs_nblocks cs)%Z → (0 < count)%Z →
  window cs offset count = offset :: window cs (offset + 1) (count - 1).
Proof.
  intros H1 H2. unfold window. rewrite seqZ_cons by lia. f_equal. f_equal; lia.
Qed.

Lemma owners_block_in cs offset count cohort_id client_id owner_id off :
  owners_block cs offset count cohort_id client_id owner_id = Some off →
  (offset <= off < offset + count)%Z ∧ (off < cs_nblocks cs)%Z ∧
  mine cs cohort_id client_id owner_id off = true.
Proof.
  intros H. apply find_some in H as [Hin Hm]. apply list_elem_of_In, elem_of_seqZ in Hin.
  split_and!; [lia|lia|lia|done].
Qed.

(** The loop of [transition] and of [rollback] is that search; [act] is what
    happens to the block found. *)
Lemma owner_search cs offset cohort_id client_id owner_id act n lo :
  (cs_nblocks cs < 2 ^ 64 - 1)%Z → in_width 64 (offset + Z.of_nat lo) →
  match for_break lo n (λ i (_ : unit),
          let off := u64w (offset + Z.of_nat i) in
          if (cs_nblocks cs <=? off)%Z then inr ((- EINVAL)%Z, cs)
          else
            let blk := blk_at cs off in
            if (cb_state blk =? CHUNK_STATE_EMPTY)%Z then inl tt
            else if negb (owned_by blk cohort_id client_id owner_id) then inl tt
            else inr (act off blk)) tt with
  | inr r => r
  | inl _ => ((- EINVAL)%Z, cs)
  end =
  match owners_block cs (offset + Z.of_nat lo) (Z.of_nat n) cohort_id client_id owner_id with
  | Some off => act off (blk_at cs off)
  | None => ((- EINVAL)%Z, cs)
  end.
Proof.
  intros Hn. unfold owners_block. revert lo.
  induction n as [|n IH]; intros lo Hw.
  - unfold window. by rewrite seqZ_nil by lia.
  - cbn [for_break]. rewrite wrap_small by done. case_if; bool_prop.
    { by rewrite window_end by done. }
    rewrite window_cons by lia. cbn [find]. unfold mine at 1, occupied at 1.
    replace (Z.of_nat (S n) - 1)%Z with (Z.of_nat n) by lia.
    replace (offset + Z.of_nat lo + 1)%Z with (offset + Z.of_nat (S lo))%Z by lia.
    destruct (_ =? CHUNK_STATE_EMPTY)%Z; cbn [negb andb];
      [|destruct (owned_by _ _ _ _); cbn [negb]; [done|]];
      apply IH; unfold in_width in *; lia.
Qed.

Lemma transition_search cs offset count cohort_id client_id owner_id from_state to_state :
  store_ok cs → in_width 64 offset → (0 <= count)%Z →
  chunk_store_transition cs offset count cohort_id client_id owner_id from_state to_state
  = match owners_block cs offset count cohort_id client_id owner_id with
    | Some off =>
        if (cb_state (blk_at cs off) =? from_state)%Z
        then (0%Z, set_blocks cs (wr (cs_blocks cs) (Z.to_nat off)
                     (set_cb_state (blk_at cs off) to_state)) true)
        else ((- EINVAL)%Z, cs)
    | None => ((- EINVAL)%Z, cs)
    end.
Proof.
  intros Hok Hw Hc. pose proof (ok_nblocks _ Hok). unfold CHUNK_STORE_MAX_BLOCKS in *.
  pose proof (owner_search cs offset cohort_id client_id owner_id
    (λ off blk, if negb (cb_state blk =? from_state)%Z then ((- EINVAL)%Z, cs)
                else (0%Z, set_blocks cs
                   (wr (cs_blocks cs) (Z.to_nat off) (set_cb_state blk to_state)) true))
    (Z.to_nat count) 0) as H'.
  rewrite Z.add_0_r, Z2Nat.id in H' by done. specialize (H' ltac:(lia) Hw).
  transitivity (match owners_block cs offset count cohort_id client_id owner_id with
    | Some off => if negb (cb_state (blk_at cs off) =? from_state)%Z then ((- EINVAL)%Z, cs)
        else (0%Z, set_blocks cs (wr (cs_blocks cs) (Z.to_nat off)
                     (set_cb_state (blk_at cs off) to_state)) true)
    | None => ((- EINVAL)%Z, cs) end).
  - rewrite <-H'. unfold chunk_store_transition.
    erewrite for_break_ext; [reflexivity|]. intros i []. cbn zeta. by repeat case_if.
  - destruct (owners_block _ _ _ _ _ _) as [off|]; [|done]. by destruct (_ =? from_state)%Z.
Qed.

Lemma rollback_search cs offset count cohort_id client_id owner_id :
  store_ok cs → in_width 64 offset → (0 <= count)%Z →
  chunk_store_rollback cs offset count cohort_id client_id owner_id
  = match owners_block cs offset count cohort_id client_id owner_id with
    | Some off =>
        if (cb_state (blk_at cs off) =? CHUNK_STATE_PENDING)%Z
           || (cb_state (blk_at cs off) =? CHUNK_STATE_FINALIZED)%Z
        then (0%Z, set_blocks cs (wr (cs_blocks cs) (Z.to_nat off)
                     (set_cb_state (blk_at cs off) CHUNK_STATE_EMPTY)) true)
        else if (cb_state (blk_at cs off) =? CHUNK_STATE_COMMITTED)%Z then ((- ENOTSUP)%Z, cs)
        else ((- EINVAL)%Z, cs)
    | None => ((- EINVAL)%Z, cs)
    end.
Proof.
  intros Hok Hw Hc. pose proof (ok_nblocks _ Hok). unfold CHUNK_STORE_MAX_BLOCKS in *.
  pose proof (owner_search cs offset cohort_id client_id owner_id
    (λ off blk,
       if (cb_state blk =? CHUNK_STATE_PENDING)%Z || (cb_state blk =? CHUNK_STATE_FINALIZED)%Z
       then (0%Z, set_blocks cs
              (wr (cs_blocks cs) (Z.to_nat off) (set_cb_state blk CHUNK_STATE_EMPTY)) true)
       else if (cb_state blk =? CHUNK_STATE_COMMITTED)%Z then ((- ENOTSUP)%Z, cs)
       else ((- EINVAL)%Z, cs))
    (Z.to_nat count) 0) as H'.
  rewrite Z.add_0_r, Z2Nat.id in H' by done. specialize (H' ltac:(lia) Hw).
  rewrite <-H'. unfold chunk_store_rollback.
  erewrite for_break_ext; [reflexivity|]. intros i []. cbn zeta. by repeat case_if.
Qed.

End ChunkCorrect.
