(* ===== verification/ChunkSteps.v ===== *)
(** * The chunk store in memory: sweeps, the escrow index, and reachable stores

    What the lease sweep, the rebuilding of the escrow index and the count of runs
    compute, and that every sequence of operations keeps the store well formed. *)

From S2P Require Import Prelude.
From S2P Require Import ChunkStore.
From S2P Require Import ChunkCorrect.
Import ChunkStore ChunkCorrect.

Module ChunkSteps.

(** ** Flags *)

Lemma lor_in_width w a b :
  (0 <= w)%Z → in_width w a → in_width w b → in_width w (Z.lor a b).
Proof.
  intros Hw Ha Hb. rewrite <-(wrap_small w a), <-(wrap_small w b) by done. unfold wrap.
  rewrite <-!Z.land_ones, <-Z.land_lor_distr_l, Z.land_ones by done. by apply wrap_in_width.
Qed.

Lemma has_flag_lor f bit : bit ≠ 0%Z → has_flag (Z.lor f bit) bit = true.
Proof.
  intros H. unfold has_flag. apply negb_true_iff, Z.eqb_neq. rewrite Z.land_lor_distr_l.
  rewrite Z.land_diag. rewrite Z.lor_eq_0_iff. tauto.
Qed.

(** ** The lease sweep *)

Definition swept (w : Z) (b : chunk_block) : chunk_block := default b (sweep_one w b).

(** How many blocks of [l] the sweep changes. *)
Fixpoint nswept (w : Z) (l : list chunk_block) : Z :=
  match l with
  | [] => 0
  | b :: l => (match sweep_one w b with Some _ => 1 | None => 0 end + nswept w l)%Z
  end.

Lemma nswept_app w a b : nswept w (a ++ b) = (nswept w a + nswept w b)%Z.
Proof. induction a as [|x a IH]; simpl; [done|]. lia. Qed.

Lemma nswept_range w l : (0 <= nswept w l <= Z.of_nat (length l))%Z.
Proof. induction l as [|x l IH]; simpl; [done|]. destruct (sweep_one w x); lia. Qed.

Lemma sweep_zero w : sweep_one w zero_block = None.
Proof. unfold sweep_one. by case_if. Qed.

Lemma swept_zero w : swept w zero_block = zero_block.
Proof. unfold swept. by rewrite sweep_zero. Qed.

(** A swept block is left alone by the next sweep. *)
Lemma sweep_swept w b : sweep_one w (swept w b) = None.
Proof.
  unfold swept. destruct (sweep_one w b) as [b'|] eqn:E; [|done]. simpl.
  unfold sweep_one in E. repeat case_match; simplify_eq; unfold sweep_one;
    cbn [return_custody set_cb_state cb_writer_clientid cb_flags cb_state].
  - by rewrite has_flag_lor; [case_if|].
  - change (chunk_block_has_escrow_custody (set_cb_state b CHUNK_STATE_EMPTY))
      with (chunk_block_has_escrow_custody b).
    bool_prop. by repeat case_if; bool_prop; try congruence.
Qed.

(** What remains of the writer after the sweep is committed, empty or in escrow. *)
Lemma swept_released w b :
  cb_writer_clientid (swept w b) = w →
  has_flag (cb_flags (swept w b)) CHUNK_BLOCK_ESCROW = false →
  cb_state (swept w b) ≠ CHUNK_STATE_PENDING ∧ cb_state (swept w b) ≠ CHUNK_STATE_FINALIZED.
Proof.
  intros Hw Hf. pose proof (sweep_swept w b) as H. unfold sweep_one in H.
  rewrite Hw, Z.eqb_refl, Hf in H. cbn [negb] in H.
  repeat case_match; try done. bool_prop. by split.
Qed.

(** The sweep touches neither data nor the committed state. *)
Lemma swept_keeps w b :
  cb_state b = CHUNK_STATE_COMMITTED ∨ cb_state b = CHUNK_STATE_EMPTY →
  cb_state (swept w b) = cb_state b.
Proof.
  intros H. unfold swept, sweep_one.
  repeat case_if; simpl; try done. bool_prop. by destruct H as [H|H]; rewrite H in *.
Qed.

(** Nothing is taken from a block above the mark. *)
Lemma swept_idle w b : idle b → swept w b = b.
Proof.
  intros [He Hc]. unfold swept, sweep_one. apply orb_false_iff in Hc as [-> ->]. rewrite He.
  by destruct (negb _).
Qed.

Lemma swept_other w b : cb_writer_clientid b ≠ w → swept w b = b.
Proof.
  intros H. unfold swept, sweep_one. by destruct (Z.eqb_spec (cb_writer_clientid b) w).
Qed.

Lemma swept_ok w b : block_ok b → block_ok (swept w b).
Proof.
  intros Hb. unfold swept, sweep_one. repeat case_if; simpl; try done.
  - destruct Hb. split; simpl; try done. by apply lor_in_width.
  - by destruct Hb; split.
Qed.

Lemma swept_custody w high b : custody_in high b → custody_in high (swept w b).
Proof.
  intros Hb. unfold swept, sweep_one. repeat case_if; simpl; try done.
  intros _. apply Hb. unfold in_escrow. bool_prop. by apply orb_true_iff; right.
Qed.

Lemma swept_state w b : state_ok b → state_ok (swept w b).
Proof. intros Hb. unfold swept, sweep_one. by repeat case_if. Qed.

Lemma sweep_loop w bs :
  (Z.of_nat (length bs) < 2 ^ 32)%Z →
  for_range 0 (length bs) (λ off '(blocks, n),
    match sweep_one w (rd zero_block blocks off) with
    | Some b => (wr blocks off b, u32w (n + 1))
    | None => (blocks, n)
    end) (bs, 0%Z) = (map (swept w) bs, nswept w bs).
Proof.
  intros Hlen.
  pose (I (i : nat) (s : list chunk_block * Z) :=
    s = (map (swept w) (take i bs) ++ drop i bs, nswept w (take i bs))).
  assert (H : I (length bs) (for_range 0 (length bs) (λ off '(blocks, n),
    match sweep_one w (rd zero_block blocks off) with
    | Some b => (wr blocks off b, u32w (n + 1))
    | None => (blocks, n)
    end) (bs, 0%Z))).
  2: { unfold I in H. rewrite H, firstn_all, drop_all, app_nil_r. done. }
  apply for0_ind; [done|]. intros i s Hi ->. unfold I.
  pose proof (rd_lt zero_block bs i Hi) as Hx. set (x := rd zero_block bs i) in *.
  assert (Hl : length (map (swept w) (take i bs)) = i) by (rewrite length_map, length_take; lia).
  rewrite (drop_S _ _ _ Hx), (take_S_r _ _ _ Hx).
  rewrite rd_app, Hl. case_decide; [lia|]. rewrite Nat.sub_diag.
  change (rd zero_block (x :: _) 0) with x.
  rewrite map_app, nswept_app, <-app_assoc. cbn [map nswept app].
  change (swept w x) with (default x (sweep_one w x)).
  destruct (sweep_one w x) as [b|]; cbn [default from_option id].
  - apply (f_equal2 pair).
    + unfold wr. rewrite insert_app_r_alt by lia. by rewrite Hl, Nat.sub_diag.
    + pose proof (nswept_range w (take i bs)) as Hr. rewrite length_take in Hr.
      rewrite wrap_small by (unfold in_width; lia). lia.
  - apply (f_equal2 pair); [done|lia].
Qed.

Lemma blk_at_map f cs blocks i :
  f zero_block = zero_block → blocks = map f (cs_blocks cs) →
  rd zero_block blocks (Z.to_nat i) = f (blk_at cs i).
Proof.
  intros Hz ->. unfold blk_at. destruct (le_lt_dec (length (cs_blocks cs)) (Z.to_nat i)) as [H|H].
  - rewrite !rd_ge by (rewrite ?length_map; done). done.
  - by apply rd_map.
Qed.

Lemma sweep_store_spec cs w n cs' :
  store_ok cs → sweep_store cs w = (n, cs') →
  n = nswept w (cs_blocks cs) ∧ store_ok cs' ∧ cs_high_water cs' = cs_high_water cs ∧
  cs_dirty cs' = ((0 <? n)%Z || cs_dirty cs) ∧
  ∀ i, blk_at cs' i = swept w (blk_at cs i).
Proof.
  intros Hok. unfold sweep_store.
  pose proof (ok_length _ Hok) as Hl. pose proof (ok_nblocks _ Hok) as Hn.
  unfold CHUNK_STORE_MAX_BLOCKS in Hn.
  replace (Z.to_nat (cs_nblocks cs)) with (length (cs_blocks cs)) by lia.
  rewrite sweep_loop by lia. intros [= <- <-].
  assert (Hat : ∀ i, blk_at (set_blocks cs (map (swept w) (cs_blocks cs))
    (if (0 <? nswept w (cs_blocks cs))%Z then true else cs_dirty cs)) i = swept w (blk_at cs i)).
  { intros i. apply (blk_at_map (swept w) cs); [apply swept_zero|done]. }
  split; [done|]. split; [|split; [done|split; [|exact Hat]]].
  - destruct Hok. split; try done.
    + cbn. by rewrite length_map.
    + intros i. rewrite Hat. by apply swept_ok.
    + intros i Hi. rewrite Hat, swept_idle; by apply ok_above.
  - cbn. by destruct (0 <? _)%Z.
Qed.

(** ** The escrow index *)

#[export] Instance range_eq_decision : EqDecision chunk_escrow_range.
Proof. solve_decision. Defined.

Definition block_range (b : chunk_block) : chunk_escrow_range :=
  mk_range (cb_lock_offset b) (cb_lock_count b) (cb_lock_escrow_id b).

Definition flagged (b : chunk_block) : bool := has_flag (cb_flags b) CHUNK_BLOCK_ESCROW.

(** [r] is the range of an escrowed block below [n]. *)
Definition held (cs : chunk_store) (n : Z) (r : chunk_escrow_range) : Prop :=
  ∃ off, (0 <= off < n)%Z ∧ flagged (blk_at cs off) = true ∧ block_range (blk_at cs off) = r.

Definition range_valid (r : chunk_escrow_range) : bool :=
  escrow_range_valid (cer_offset r) (cer_count r) (cer_id r).

Lemma escrow_range_equal_iff r offset count id :
  escrow_range_equal r offset count id = true ↔ r = mk_range offset count id.
Proof.
  unfold escrow_range_equal. destruct r as [o c i]. simpl.
  rewrite !andb_true_iff, !Z.eqb_eq, bool_decide_eq_true. split.
  - by intros [[-> ->] ->].
  - by intros [= -> -> ->].
Qed.

Lemma existsb_range l offset count id :
  existsb (λ r, escrow_range_equal r offset count id) l = true ↔ mk_range offset count id ∈ l.
Proof.
  rewrite existsb_exists. split.
  - intros (r & Hin & Hr). apply escrow_range_equal_iff in Hr as ->. by apply list_elem_of_In.
  - intros H. eexists. split; [by apply list_elem_of_In|]. by apply escrow_range_equal_iff.
Qed.

Lemma held_S cs (n : nat) r :
  held cs (Z.of_nat (S n)) r ↔
  held cs (Z.of_nat n) r ∨
  flagged (blk_at cs (Z.of_nat n)) = true ∧ block_range (blk_at cs (Z.of_nat n)) = r.
Proof.
  split.
  - intros (off & Hoff & Hf & Hr). destruct (Z.eq_dec off (Z.of_nat n)) as [->|]; [by right|].
    left. exists off. split; [lia|done].
  - intros [(off & Hoff & H)|H]; eexists; (split; [|exact H]); lia.
Qed.

(** What the ranges collected from the first [i] blocks are. *)
Definition index_at (cs : chunk_store) (i : nat) (s : list chunk_escrow_range * Z) : Prop :=
  NoDup (fst s) ∧ (∀ r, r ∈ fst s ↔ held cs (Z.of_nat i) r) ∧
  (∀ r, held cs (Z.of_nat i) r → range_valid r = true) ∧
  (Z.of_nat (length (fst s)) <= snd s <= CHUNK_STORE_MAX_ESCROWS)%Z.

(** Why the index could not be rebuilt. *)
Definition index_error (grants : elem → Z → bool) (cs : chunk_store) (ret : Z) : Prop :=
  (ret = - EINVAL)%Z ∧ (∃ r, held cs (cs_high_water cs) r ∧ range_valid r = false) ∨
  (ret = - E2BIG)%Z ∧ (∃ l, NoDup l ∧ (∀ r, r ∈ l → held cs (cs_high_water cs) r) ∧
                            (CHUNK_STORE_MAX_ESCROWS < Z.of_nat (length l))%Z) ∨
  (ret = - ENOMEM)%Z ∧ (∃ n, (0 < n <= CHUNK_STORE_MAX_ESCROWS)%Z ∧ grants Ranges n = false).

Lemma held_mono cs n m r : (n <= m)%Z → held cs n r → held cs m r.
Proof. intros H (off & Ho & Hr). exists off. split; [lia|done]. Qed.

(** A block without the flag, or whose range is known, adds nothing. *)
Lemma index_skip cs i ranges cap :
  index_at cs i (ranges, cap) →
  (flagged (blk_at cs (Z.of_nat i)) = true → block_range (blk_at cs (Z.of_nat i)) ∈ ranges) →
  index_at cs (S i) (ranges, cap).
Proof.
  intros (Hnd & Hin & Hv & Hc) Hk. simpl in *.
  assert (Hs : ∀ r, held cs (Z.of_nat (S i)) r ↔ held cs (Z.of_nat i) r).
  { intros r. rewrite held_S. split; [|by left]. intros [Hr|[Hf <-]]; [done|]. by apply Hin, Hk. }
  split; [done|]. split; [intros r; by rewrite Hin, Hs|].
  split; [intros r Hr; by apply Hv, Hs|done].
Qed.

(** A new valid range is appended, when the capacity allows. *)
Lemma index_add cs i ranges cap cap' :
  let b := blk_at cs (Z.of_nat i) in
  index_at cs i (ranges, cap) → flagged b = true → range_valid (block_range b) = true →
  block_range b ∉ ranges →
  NoDup (ranges ++ [block_range b]) ∧
  (∀ r, r ∈ ranges ++ [block_range b] ↔ held cs (Z.of_nat (S i)) r) ∧
  ((Z.of_nat (length ranges) < cap' <= CHUNK_STORE_MAX_ESCROWS)%Z →
   index_at cs (S i) (ranges ++ [block_range b], cap')).
Proof.
  intros b (Hnd & Hin & Hv & Hc) Hf Hval Hnew. simpl in *.
  assert (Hadd : NoDup (ranges ++ [block_range b])).
  { apply NoDup_app. split_and!; [done| |apply NoDup_singleton].
    intros x Hx ->%list_elem_of_singleton. done. }
  assert (Hadd' : ∀ r, r ∈ ranges ++ [block_range b] ↔ held cs (Z.of_nat (S i)) r).
  { intros r. rewrite elem_of_app, list_elem_of_singleton, Hin, held_S. fold b. naive_solver. }
  split; [done|]. split; [done|]. intros Hcap. split; [done|]. split; [done|]. split.
  - intros r [Hr|[_ <-]]%held_S; [by apply Hv|done].
  - cbn [fst snd]. rewrite length_app. simpl. lia.
Qed.

(** The capacity asked for is larger and within the limit. *)
Lemma next_cap cap :
  (0 <= cap < CHUNK_STORE_MAX_ESCROWS)%Z →
  let nc := if (cap =? 0)%Z then 16%Z else u32w (cap * 2) in
  let nc' := if (CHUNK_STORE_MAX_ESCROWS <? nc)%Z then CHUNK_STORE_MAX_ESCROWS else nc in
  (cap < nc' <= CHUNK_STORE_MAX_ESCROWS)%Z.
Proof.
  intros H nc. cbn zeta. unfold CHUNK_STORE_MAX_ESCROWS in *.
  assert (Hnc : (cap < nc <= 8192)%Z).
  { unfold nc. destruct (Z.eqb_spec cap 0); [lia|]. rewrite wrap_small; [lia|]. unfold in_width; lia. }
  clearbody nc. case_if; bool_prop; lia.
Qed.

Lemma refresh_step grants cs i s :
  (Z.of_nat i < cs_high_water cs)%Z → index_at cs i s →
  match refresh_one grants (rd zero_block (cs_blocks cs) i) s with
  | inl s' => index_at cs (S i) s'
  | inr ret => index_error grants cs ret
  end.
Proof.
  intros Hi. destruct s as [ranges cap]. intros Hidx. pose proof Hidx as (_ & _ & _ & Hc). simpl in Hc.
  assert (Hb : rd zero_block (cs_blocks cs) i = blk_at cs (Z.of_nat i))
    by (unfold blk_at; by rewrite Nat2Z.id).
  rewrite Hb. set (b := blk_at cs (Z.of_nat i)) in *. unfold refresh_one. fold (block_range b).
  change (has_flag (cb_flags b) CHUNK_BLOCK_ESCROW) with (flagged b).
  change (escrow_range_valid _ _ _) with (range_valid (block_range b)).
  assert (Hup : ∀ r, held cs (Z.of_nat (S i)) r → held cs (cs_high_water cs) r)
    by (intros r; apply held_mono; lia).
  destruct (flagged b) eqn:Hf; cbn [negb]; [|apply index_skip; [done|by fold b; rewrite Hf]].
  destruct (range_valid (block_range b)) eqn:Hval; cbn [negb].
  2: { left. split; [done|]. exists (block_range b). split; [|done].
       apply Hup, held_S. by right. }
  destruct (existsb _ ranges) eqn:Hex; [apply existsb_range in Hex; by apply index_skip|].
  assert (Hnew : block_range b ∉ ranges) by (intros H; apply existsb_range in H; congruence).
  case_if; bool_prop.
  { destruct (index_add cs i ranges cap cap Hidx Hf Hval Hnew) as (Hnd & Hin & _).
    right; left. split; [done|]. exists (ranges ++ [block_range b]). split; [done|]. split.
    - intros r Hr. by apply Hup, Hin.
    - rewrite length_app. simpl. lia. }
  destruct (Z.eqb_spec (Z.of_nat (length ranges)) cap) as [Hcap|Hcap].
  - pose proof (next_cap cap ltac:(lia)) as Hn. cbn zeta in Hn. cbn zeta.
    set (nc := if (CHUNK_STORE_MAX_ESCROWS <? _)%Z then _ else _) in *. clearbody nc.
    destruct (grants Ranges nc) eqn:Hg.
    + apply (index_add cs i ranges cap nc); [done..|lia].
    + right; right. split; [done|]. exists nc. split; [lia|done].
  - apply (index_add cs i ranges cap cap); [done..|lia].
Qed.

Lemma index_nil cs : index_at cs 0 ([], 0%Z).
Proof.
  split; [apply NoDup_nil_2|]. cbn. split; [|split; [|done]].
  - intros r. split; [by intros ?%elem_of_nil|]. intros (? & ? & ?). lia.
  - intros r (? & ? & ?). lia.
Qed.

(** Rebuilding the index leaves the blocks alone; the index is exact, or the
    store is as before and the answer says why. *)
Lemma refresh_spec grants cs ret cs' :
  store_ok cs → chunk_store_refresh_escrows grants cs = (ret, cs') →
  cs' = mk_store (cs_blocks cs) (cs_nblocks cs) (cs_high_water cs) (cs_chunk_size cs)
          (cs_checksum_algorithm cs) (cs_escrows cs') (cs_escrow_cap cs') (cs_dirty cs) ∧
  (cs' = cs ∧ index_error grants cs ret ∨
   ret = 0%Z ∧ index_at cs (Z.to_nat (cs_high_water cs)) (cs_escrows cs', cs_escrow_cap cs')).
Proof.
  intros Hok. unfold chunk_store_refresh_escrows.
  pose proof (ok_high _ Hok) as Hh.
  pose proof (for_break_ind (index_at cs) (index_error grants cs) 0 (Z.to_nat (cs_high_water cs))
    (λ off s, refresh_one grants (rd zero_block (cs_blocks cs) off) s) ([], 0%Z)) as H.
  specialize (H (index_nil cs) (λ i s Hi, refresh_step grants cs i s ltac:(lia))).
  destruct (for_break _ _ _ _) as [[ranges cap]|r]; intros [= <- <-]; (split; [by destruct cs|]);
    auto.
Qed.

(** ** Runs *)

(** A run starts at a written block whose predecessor is not one. *)
Definition run_start (cs : chunk_store) (i : nat) : bool :=
  occupied (rd zero_block (cs_blocks cs) i) &&
  match i with O => true | S j => negb (occupied (rd zero_block (cs_blocks cs) j)) end.

Definition runs_ref (cs : chunk_store) : Z :=
  Z.of_nat (length (List.filter (run_start cs) (seq 0 (Z.to_nat (cs_nblocks cs))))).

Lemma count_runs_spec cs : store_ok cs → chunk_store_count_runs (Some cs) = runs_ref cs.
Proof.
  intros Hok. pose proof (ok_nblocks _ Hok) as Hn.
  unfold CHUNK_STORE_INIT_BLOCKS, CHUNK_STORE_MAX_BLOCKS in Hn. unfold chunk_store_count_runs.
  destruct (Z.eqb_spec (cs_nblocks cs) 0) as [|_]; [lia|]. unfold runs_ref.
  set (n := Z.to_nat (cs_nblocks cs)).
  pose (I (i : nat) (s : Z * bool) :=
    s = (Z.of_nat (length (List.filter (run_start cs) (seq 0 i))),
         match i with O => false | S j => occupied (rd zero_block (cs_blocks cs) j) end)).
  match goal with |- fst ?l = _ => assert (H : I n l) end; [|unfold I in H; by rewrite H].
  apply for0_ind; [done|]. intros i s Hi ->. unfold I.
  rewrite seq_S, List.filter_app. cbn [Nat.add List.filter].
  assert (Hlen : (length (List.filter (run_start cs) (seq 0 i)) <= i)%nat).
  { etransitivity; [apply filter_length_le|]. by rewrite length_seq. }
  assert (Hr : run_start cs i = occupied (rd zero_block (cs_blocks cs) i) &&
    match i with O => true | S j => negb (occupied (rd zero_block (cs_blocks cs) j)) end) by done.
  rewrite Hr. clear Hr. destruct (occupied (rd zero_block (cs_blocks cs) i)); cbn [andb negb].
  - destruct i as [|i]; cbn [negb]; [done|].
    destruct (occupied (rd zero_block (cs_blocks cs) i)); cbn [negb].
    + by rewrite app_nil_r.
    + rewrite length_app. cbn [length]. apply (f_equal2 pair); [|done].
      rewrite wrap_small by (unfold in_width; lia). lia.
  - by rewrite app_nil_r.
Qed.

(** ** Sequences of operations *)

(** The calls of [chunk_store.h] that change a store in memory. *)
Inductive chunk_op :=
  | OpWrite (offset : Z) (blk : chunk_block)
  | OpTouch (offset : Z)
  | OpTransition (offset count cohort_id client_id owner_id from_state to_state : Z)
  | OpRollback (offset count cohort_id client_id owner_id : Z)
  | OpSweep (writer_clientid : Z)
  | OpRefresh
  | OpClear.

Definition chunk_exec (grants : elem → Z → bool) (op : chunk_op) (cs : chunk_store)
    : Z * chunk_store :=
  match op with
  | OpWrite offset blk => chunk_store_write grants cs offset blk
  | OpTouch offset => chunk_store_touch grants cs offset
  | OpTransition offset count c l o from to => chunk_store_transition cs offset count c l o from to
  | OpRollback offset count c l o => chunk_store_rollback cs offset count c l o
  | OpSweep w => sweep_store cs w
  | OpRefresh => chunk_store_refresh_escrows grants cs
  | OpClear => (0%Z, clear_store cs)
  end.

(** What the caller passes: values of the C types, and blocks that are a state of
    the lifecycle and whose escrow, if any, names a range of the file. *)
Definition op_ok (cs : chunk_store) (op : chunk_op) : Prop :=
  match op with
  | OpWrite offset blk =>
      in_width 64 offset ∧ block_ok blk ∧ state_ok blk ∧
      custody_in (Z.max (cs_high_water cs) (offset + 1)) blk
  | OpTouch offset => in_width 64 offset
  | OpTransition offset count _ _ _ _ to =>
      in_width 64 offset ∧ in_width 32 count ∧ (0 <= to <= 3)%Z
  | OpRollback offset count _ _ _ => in_width 64 offset ∧ in_width 32 count
  | OpSweep _ | OpRefresh | OpClear => True
  end.

Record store_inv (cs : chunk_store) : Prop := {
  inv_ok : store_ok cs;
  inv_custody : custody_ok cs;
  inv_states : states_ok cs;
}.

Definition fresh_store : chunk_store :=
  mk_store (replicate (Z.to_nat CHUNK_STORE_INIT_BLOCKS) zero_block) CHUNK_STORE_INIT_BLOCKS
    0 0 0 [] 0 false.

Inductive reachable (grants : elem → Z → bool) : chunk_store → Prop :=
  | reach_fresh : reachable grants fresh_store
  | reach_step cs op :
      reachable grants cs → op_ok cs op → reachable grants (snd (chunk_exec grants op cs)).

Lemma custody_mono high high' b : (high <= high')%Z → custody_in high b → custody_in high' b.
Proof. intros Hle Hb He. destruct (Hb He) as [Hv ?]. split; [done|lia]. Qed.

(** Replacing the state of one occupied block keeps the invariant. *)
Lemma set_state_inv cs off st :
  store_inv cs → (0 <= off < cs_nblocks cs)%Z → occupied (blk_at cs off) = true → (0 <= st <= 3)%Z →
  store_inv (set_blocks cs (wr (cs_blocks cs) (Z.to_nat off)
               (set_cb_state (blk_at cs off) st)) true).
Proof.
  intros [Hok Hc Hs] Hoff Ho Hst.
  assert (Hh : (0 <= off < cs_high_water cs)%Z).
  { split; [lia|]. apply Z.nle_gt. intros Hge. destruct (ok_above _ Hok off Hge) as [He _].
    unfold occupied in Ho. by rewrite He in Ho. }
  split.
  - apply set_block_ok; [done|done|]. destruct (ok_blocks _ Hok off). split; try done.
    unfold in_width. cbn. lia.
  - exact (set_block_at (custody_in (cs_high_water cs)) cs off
             (set_cb_state (blk_at cs off) st) true Hok Hoff Hc (Hc off)).
  - exact (set_block_at state_ok cs off (set_cb_state (blk_at cs off) st) true Hok Hoff Hs Hst).
Qed.

(** A store that was given new blocks, each the old one or [b]. *)
Lemma blocks_inv cs cs' :
  store_inv cs → store_ok cs' → (cs_high_water cs <= cs_high_water cs')%Z →
  (∀ i, (0 <= i)%Z → blk_at cs' i = blk_at cs i ∨
        custody_in (cs_high_water cs') (blk_at cs' i) ∧ state_ok (blk_at cs' i)) →
  store_inv cs'.
Proof.
  intros [Hok Hc Hs] Hok' Hh Hb. split; [done| |]; unfold custody_ok, states_ok;
    apply (at_nonneg _ cs'); intros i Hi; destruct (Hb i Hi) as [->|[??]]; try done.
  - by eapply custody_mono.
Qed.

Lemma fresh_inv : store_inv fresh_store.
Proof.
  assert (Hz : ∀ i, blk_at fresh_store i = zero_block) by (intros i; apply rd_replicate).
  split; [split|..]; try done; try (intros i; rewrite Hz; auto with reffs); by constructor.
Qed.

Lemma clear_inv cs : store_inv cs → store_inv (clear_store cs).
Proof.
  intros [[] _ _].
  assert (Hz : ∀ i, blk_at (clear_store cs) i = zero_block) by (intros i; apply rd_replicate).
  split; [split|..]; try done; try (intros i; rewrite Hz; auto with reffs).
  - cbn. rewrite length_replicate. lia.
  - cbn. lia.
Qed.

Lemma refresh_inv grants cs ret cs' :
  store_inv cs → chunk_store_refresh_escrows grants cs = (ret, cs') → store_inv cs'.
Proof.
  intros Hinv E. pose proof Hinv as [Hok _ _].
  destruct (refresh_spec grants cs ret cs' Hok E) as [Hcs [[-> _]|[_ (Hnd & Hin & Hv & Hcap)]]];
    [done|]. cbn [fst snd] in *. pose proof (ok_high _ Hok).
  rewrite Z2Nat.id in * by lia. rewrite Hcs.
  apply (blocks_inv cs); [done| |done|intros i Hi; by left].
  destruct Hok. split; try done. cbn. apply list.Forall_forall. intros r Hr.
  apply Hin in Hr. pose proof (Hv r Hr) as Hval. destruct Hr as (off & _ & _ & <-).
  destruct (ok_blocks0 off). by split.
Qed.

Lemma exec_inv grants op cs :
  store_inv cs → op_ok cs op → store_inv (snd (chunk_exec grants op cs)).
Proof.
  intros Hinv Hop. pose proof Hinv as [Hok Hc Hs].
  destruct op as [offset blk|offset|offset count c l o from to|offset count c l o|w| |]; cbn in *.
  - destruct Hop as ([Hlo Hhi] & Hb & Hst & Hcu).
    destruct (chunk_store_write grants cs offset blk) as [r cs'] eqn:E. cbn.
    destruct (write_spec grants _ _ _ _ _ Hok Hlo Hb E) as [[_ ->]|(_ & Hok' & _ & Hh & Hat)]; [done|].
    apply (blocks_inv cs); [done|done|lia|]. intros i Hi. rewrite (Hat i Hi), Hh.
    case_if; [right|left]; done.
  - destruct (chunk_store_touch grants cs offset) as [r cs'] eqn:E. cbn.
    destruct (touch_spec grants _ _ _ _ Hok (proj1 Hop) E) as [[_ ->]|(_ & Hok' & _ & Hh & Hat)]; [done|].
    apply (blocks_inv cs); [done|done|lia|]. intros i Hi. by left.
  - destruct Hop as (Hw & [Hcnt _] & Hto). rewrite transition_search by done.
    destruct (owners_block _ _ _ _ _ _) as [off|] eqn:E; [|done]. case_if; [|done].
    apply owners_block_in in E as (H1 & H2 & [H3 _]%andb_true_iff). destruct Hw.
    apply set_state_inv; [done|lia|done|done].
  - destruct Hop as (Hw & [Hcnt _]). rewrite rollback_search by done.
    destruct (owners_block _ _ _ _ _ _) as [off|] eqn:E; [|done]. repeat case_if; try done.
    apply owners_block_in in E as (H1 & H2 & [H3 _]%andb_true_iff). destruct Hw.
    by apply set_state_inv; [|lia|..].
  - destruct (sweep_store cs w) as [n cs'] eqn:E. cbn.
    destruct (sweep_store_spec _ _ _ _ Hok E) as (_ & Hok' & Hh & _ & Hat).
    split; [done| |]; intros i; rewrite Hat, ?Hh; [by apply swept_custody|by apply swept_state].
  - destruct (chunk_store_refresh_escrows grants cs) as [r cs'] eqn:E. by eapply refresh_inv.
  - by apply clear_inv.
Qed.

Lemma reachable_inv grants cs : reachable grants cs → store_inv cs.
Proof. induction 1; [apply fresh_inv|by apply exec_inv]. Qed.

End ChunkSteps.
