(* ===== verification/ChunkDiskCorrect.v ===== *)
(** * The chunk store's files: formats

    Each structure is read back as it was written, and any bytes of the length of
    a block record decode to a well-formed block. *)

From S2P Require Import Prelude.
From S2P Require Import Words.
From S2P Require Import Posix.
From S2P Require Import ChunkStore.
From S2P Require Import ChunkDisk.
From S2P Require Import ChunkCorrect.
From S2P Require Import ChunkSteps.
From stdpp Require Import gmap strings pretty.
Import Words Posix ChunkStore ChunkDisk ChunkCorrect ChunkSteps.

Module ChunkDiskCorrect.

#[local] Arguments num : simpl never.
#[local] Arguments raw : simpl never.
#[local] Arguments le32 : simpl never.
#[local] Arguments le64 : simpl never.

(** ** Fields *)

Lemma num_put n z rest :
  in_width (8 * Z.of_nat n) z → num n (le_split n z ++ rest) = (z, rest).
Proof.
  intros Hz. unfold num.
  rewrite take_app_length', drop_app_length' by (by rewrite length_le_split).
  rewrite le_combine_split. f_equal. apply Z.mod_small.
  change 256%Z with (2 ^ 8)%Z. by rewrite <-Z.pow_mul_r by lia.
Qed.

Lemma num32 z rest : in_width 32 z → num 4 (le32 z ++ rest) = (z, rest).
Proof. apply (num_put 4). Qed.

Lemma num64 z rest : in_width 64 z → num 8 (le64 z ++ rest) = (z, rest).
Proof. apply (num_put 8). Qed.

Lemma raw_put n l rest : length l = n → raw n (l ++ rest) = (l, rest).
Proof. intros H. unfold raw. by rewrite take_app_length', drop_app_length'. Qed.

Lemma num_width n bs : in_width (8 * Z.of_nat n) (fst (num n bs)).
Proof.
  unfold num, in_width. cbn [fst]. pose proof (le_combine_range (take n bs)) as H.
  rewrite length_take in H. rewrite Z.pow_mul_r by lia. change (2 ^ 8)%Z with 256%Z.
  split; [lia|]. eapply Z.lt_le_trans; [apply H|]. apply Z.pow_le_mono_r; lia.
Qed.

Lemma length_le32 z : length (le32 z) = 4%nat.
Proof. apply length_le_split. Qed.

Lemma length_le64 z : length (le64 z) = 8%nat.
Proof. apply length_le_split. Qed.

#[export] Hint Rewrite length_le32 length_le64 : reffs_len.

(** The last field of a structure has no tail. *)
Lemma num32_end z : in_width 32 z → num 4 (le32 z) = (z, []).
Proof. intros H. rewrite <-(app_nil_r (le32 z)). by apply num32. Qed.

Lemma num64_end z : in_width 64 z → num 8 (le64 z) = (z, []).
Proof. intros H. rewrite <-(app_nil_r (le64 z)). by apply num64. Qed.

Lemma raw_end n l : length l = n → raw n l = (l, []).
Proof. intros H. rewrite <-(app_nil_r l) at 1. by apply raw_put. Qed.

Ltac read_fields :=
  repeat first
    [ rewrite num32 by done | rewrite num64 by done | rewrite raw_put by done
    | rewrite num32_end by done | rewrite num64_end by done | rewrite raw_end by done ];
  cbv beta iota.

Lemma block_back b :
  block_ok b → disk_to_block (block_of (block_bytes (block_to_disk b))) = b.
Proof.
  intros []. assert (Hl : in_width 32 (cb_checksum_len b)) by (unfold in_width; lia).
  unfold block_of, block_bytes. destruct b. cbn in *. read_fields.
  unfold disk_to_block. change (Z.of_nat CHUNK_VALUE_MAX) with 64%Z. cbn -[Z.ltb].
  case_if; bool_prop; [lia|done].
Qed.

Lemma length_block_bytes b : block_ok b → length (block_bytes (block_to_disk b)) = BLOCK_SIZE.
Proof.
  intros []. unfold block_bytes. cbn. autorewrite with reffs_len.
  by rewrite ok_checksum_value0, ok_stateid0, ok_escrow_id0.
Qed.

Lemma range_back r :
  range_ok r → escrow_range_from_disk (range_of (range_bytes (escrow_range_to_disk r))) = r.
Proof.
  intros []. unfold range_of, range_bytes. destruct r. cbn in *. read_fields. done.
Qed.

Lemma length_range_bytes r : range_ok r → length (range_bytes (escrow_range_to_disk r)) = RANGE_SIZE.
Proof.
  intros []. unfold range_bytes. cbn. autorewrite with reffs_len. by rewrite ok_id0.
Qed.

Record header_ok (h : chunk_store_header) : Prop := {
  hd_magic : in_width 32 (csh_magic h);
  hd_version : in_width 32 (csh_version h);
  hd_nblocks : in_width 64 (csh_nblocks h);
  hd_ino : in_width 64 (csh_inode_ino h);
  hd_size : in_width 32 (csh_chunk_size h);
  hd_algorithm : in_width 32 (csh_checksum_algorithm h);
  hd_count : in_width 32 (csh_escrow_count h);
  hd_record : in_width 32 (csh_escrow_record_size h);
}.

Lemma header_back h : header_ok h → header_of (header_bytes h) = h.
Proof. intros []. unfold header_of, header_bytes. destruct h. cbn in *. by read_fields. Qed.

Lemma length_header_bytes h : length (header_bytes h) = HEADER_SIZE.
Proof. unfold header_bytes. by autorewrite with reffs_len. Qed.

Record epoch_ok (e : chunk_mds_epoch) : Prop := {
  ep_epoch : in_width 64 (epoch e);
  ep_expires : in_width 64 (expires_at_ns e);
  ep_issuer : in_width 64 (issuer_clientid e);
}.

Definition epoch_record (e : chunk_mds_epoch) : chunk_mds_epoch_disk :=
  mk_epoch_disk CHUNK_MDS_EPOCH_MAGIC CHUNK_MDS_EPOCH_VERSION e.

Lemma epoch_back e : epoch_ok e → epoch_of (epoch_bytes (epoch_record e)) = epoch_record e.
Proof.
  intros []. unfold epoch_of, epoch_bytes. destruct e. cbn in *. by read_fields.
Qed.

Lemma length_epoch_bytes d : length (epoch_bytes d) = EPOCH_SIZE.
Proof. unfold epoch_bytes. by autorewrite with reffs_len. Qed.

(** Any record of the right length is a well-formed block. *)
Lemma any_block_ok buf : length buf = BLOCK_SIZE → block_ok (disk_to_block (block_of buf)).
Proof.
  intros Hl.
  assert (Hw4 : ∀ bs, in_width 32 (le_combine (take 4 bs))) by (intros bs; apply (num_width 4)).
  assert (Hw8 : ∀ bs, in_width 64 (le_combine (take 8 bs))) by (intros bs; apply (num_width 8)).
  split; unfold disk_to_block, block_of, num, raw;
    cbv beta iota delta [cb_state]; cbn -[take drop le_combine]; try done.
  - case_if; bool_prop; [done|]. split; [apply Hw4|done].
  - rewrite length_take, !length_drop, Hl. done.
  - rewrite length_take, !length_drop, Hl. done.
  - rewrite length_take, !length_drop, Hl. done.
Qed.

End ChunkDiskCorrect.
