(* ===== verification/Replace.v ===== *)
(** * Replacing a file by write, sync and rename

    The states a file system goes through while a temporary file is written and
    renamed over another, whatever each call answers, and what is left of them
    after a crash. *)

From S2P Require Import Prelude.
From S2P Require Import Posix.
From S2P Require Import ChunkDisk.
From stdpp Require Import gmap strings.
Import Posix ChunkDisk.

Module Replace.

(** ** The states between two moments *)

(** [P] holds of the file system at the end, and of every state it went through
    since [s]. *)
Definition visits (P : files → Prop) (s s' : sys) : Prop :=
  P (now s') ∧ ∃ l, past s' = l ++ past s ∧ Forall P l.

Lemma visits_refl (P : files → Prop) s : P (now s) → visits P s s.
Proof. intros H. split; [done|]. exists []. by split; [|constructor]. Qed.

Lemma visits_trans P s1 s2 s3 : visits P s1 s2 → visits P s2 s3 → visits P s1 s3.
Proof.
  intros [_ (l1 & H1 & F1)] [Hn (l2 & H2 & F2)]. split; [done|].
  exists (l2 ++ l1). rewrite H2, H1, app_assoc. split; [done|]. by apply list.Forall_app.
Qed.

Lemma visits_mono (P Q : files → Prop) s s' :
  (∀ fs, P fs → Q fs) → visits P s s' → visits Q s s'.
Proof.
  intros HPQ [Hn (l & Hl & F)]. split; [by apply HPQ|]. exists l. split; [done|].
  by eapply list.Forall_impl.
Qed.

Lemma visits_end P s s' : visits P s s' → P (now s').
Proof. by intros [? _]. Qed.

Lemma visits_change (P : files → Prop) f s :
  P (now s) → P (f (now s)) → visits P s (change f s).
Proof. intros H1 H2. split; [done|]. exists [now s]. split; [done|]. by repeat constructor. Qed.

Lemma next_outcome_frame s o s' :
  next_outcome s = (o, s') → now s' = now s ∧ past s' = past s.
Proof. unfold next_outcome. destruct (outs s); by intros [= <- <-]. Qed.

Lemma visits_outcome (P : files → Prop) s o s0 s' :
  next_outcome s = (o, s0) → visits P s0 s' → visits P s s'.
Proof.
  intros [_ Hp]%next_outcome_frame [Hn (l & Hl & F)]. split; [done|].
  exists l. by rewrite Hl, Hp.
Qed.

(** ** Calls on the temporary file *)

(** [P] says nothing about the file [tmp]. *)
Definition ignores (tmp : string) (P : files → Prop) : Prop :=
  ∀ f fs, P fs → P (partial_alter f tmp fs).

Section Calls.

Context (tmp : string) (P : files → Prop) (HP : ignores tmp P).

(** Resolve the outcome of the call and go to the state it is made in. *)
Ltac call s :=
  destruct (next_outcome s) as [o s0] eqn:Eo;
  pose proof (next_outcome_frame _ _ _ Eo) as [Hnow Hpast];
  rewrite <-Hnow in *.

Lemma sys_mkdir_frame s ret s' :
  P (now s) → sys_mkdir s = (ret, s') → visits P s s' ∧ now s' = now s.
Proof using.
  intros H. unfold sys_mkdir. call s.
  destruct o; intros [= <- <-]; (split; [|done]);
    by eapply visits_outcome; [done|apply visits_refl].
Qed.

Lemma sys_close_frame s ret s' :
  P (now s) → sys_close s = (ret, s') → visits P s s' ∧ now s' = now s.
Proof using.
  intros H. unfold sys_close. call s.
  destruct o; intros [= <- <-]; (split; [|done]);
    by eapply visits_outcome; [done|apply visits_refl].
Qed.

Lemma sys_create_frame s ret s' :
  P (now s) → sys_create tmp s = (ret, s') →
  visits P s s' ∧ (ret = 0%Z ∧ now s' !! tmp = Some (mk_file [] false) ∨
                   (ret < 0)%Z ∧ now s' = now s).
Proof using HP.
  intros H. unfold sys_create. call s.
  destruct o; intros [= <- <-];
    (split; [eapply visits_outcome; [done|]|]);
    first [by apply visits_refl | apply visits_change; [done|by apply HP]
          | left; split; [done|apply lookup_insert_eq] | right; split; [lia|done]].
Qed.

Lemma append_visits s bs : P (now s) → visits P s (change (append_to tmp bs) s).
Proof using HP. intros H. apply visits_change; [done|]. by apply HP. Qed.

Lemma append_lookup fs bs b syn :
  fs !! tmp = Some (mk_file b syn) → append_to tmp bs fs !! tmp = Some (mk_file (b ++ bs) false).
Proof using. intros H. unfold append_to. by rewrite lookup_alter_eq, H. Qed.

Lemma put_frame bs s ret s' b syn :
  P (now s) → now s !! tmp = Some (mk_file b syn) → put tmp bs s = (ret, s') →
  visits P s s' ∧ (ret = 0%Z → now s' !! tmp = Some (mk_file (b ++ bs) false)).
Proof using HP.
  intros H Hb. unfold put, sys_write. call s. destruct o as [|e|n].
  - rewrite Z.eqb_refl. intros [= <- <-]. split.
    + eapply visits_outcome; [done|by apply append_visits].
    + intros _. by eapply append_lookup.
  - destruct (Z.eqb_spec (Z.neg e) (Z.of_nat (length bs))); [lia|]. intros [= <- <-].
    split; [eapply visits_outcome; [done|by apply visits_refl]|done].
  - case_if; bool_prop.
    + intros [= <- <-]. rewrite length_take in *. rewrite take_ge by lia. split.
      * eapply visits_outcome; [done|by apply append_visits].
      * intros _. by eapply append_lookup.
    + intros [= <- <-].
      split; [eapply visits_outcome; [done|by apply append_visits]|].
      intros He. destruct (_ <? 0)%Z eqn:El; [bool_prop; lia|done].
Qed.

Lemma sys_fdatasync_frame s ret s' b syn :
  P (now s) → now s !! tmp = Some (mk_file b syn) → sys_fdatasync tmp s = (ret, s') →
  visits P s s' ∧ (ret = 0%Z → now s' !! tmp = Some (mk_file b true)).
Proof using HP.
  intros H Hb. unfold sys_fdatasync. call s.
  destruct o as [|e|n]; intros [= <- <-];
    (split; [eapply visits_outcome; [done|]|]);
    first [by apply visits_refl | apply visits_change; [done|by apply HP]
          | intros _; cbn; by rewrite lookup_alter_eq, Hb | done].
Qed.

Lemma sys_unlink_frame s : P (now s) → visits P s (sys_unlink tmp s).
Proof using HP.
  intros H. unfold sys_unlink. call s.
  destruct o; (eapply visits_outcome; [done|]);
    first [by apply visits_refl | apply visits_change; [done|by apply HP]].
Qed.

(** The bytes of the first [n] items. *)
Definition written (n : nat) (item : nat → list byte) : list byte := concat (map item (seq 0 n)).

Lemma written_S n item : written (S n) item = written n item ++ item n.
Proof using. unfold written. rewrite seq_S, map_app, concat_app. cbn. by rewrite app_nil_r. Qed.

Lemma put_loop_frame n item s b syn :
  P (now s) → now s !! tmp = Some (mk_file b syn) →
  match put_loop tmp n item s with
  | inl s' => visits P s s' ∧ ∃ syn', now s' !! tmp = Some (mk_file (b ++ written n item) syn')
  | inr (ret, s') => visits P s s' ∧ ret ≠ 0%Z
  end.
Proof using HP.
  intros H Hb. unfold put_loop.
  apply (for_break_ind
    (λ i s', visits P s s' ∧ ∃ syn', now s' !! tmp = Some (mk_file (b ++ written i item) syn'))
    (λ '(ret, s'), visits P s s' ∧ ret ≠ 0%Z)).
  - split; [by apply visits_refl|]. exists syn. by rewrite app_nil_r.
  - intros i s1 Hi (Hv & syn1 & Hb1). destruct (put tmp (item i) s1) as [ret s2] eqn:E.
    destruct (put_frame _ _ _ _ _ _ (visits_end _ _ _ Hv) Hb1 E) as [Hv2 Hok].
    case_if; bool_prop; (split; [by eapply visits_trans|]); [|done].
    exists false. rewrite written_S, app_assoc. by apply Hok.
Qed.

End Calls.

(** ** The replacement *)

(** Only [tmp] may differ from [fs0]. *)
Definition untouched (tmp : string) (fs0 fs : files) : Prop :=
  ∀ q, q ≠ tmp → fs !! q = fs0 !! q.

(** Every file but [tmp] is the old one, or it is [path] with all of [img], synced. *)
Definition old_or_new (path tmp : string) (img : list byte) (fs0 fs : files) : Prop :=
  ∀ q, q ≠ tmp → fs !! q = fs0 !! q ∨ q = path ∧ fs !! q = Some (mk_file img true).

Lemma untouched_ignores tmp fs0 : ignores tmp (untouched tmp fs0).
Proof. intros f fs H q Hq. rewrite lookup_partial_alter_ne by done. by apply H. Qed.

Lemma old_or_new_ignores path tmp img fs0 : ignores tmp (old_or_new path tmp img fs0).
Proof. intros f fs H q Hq. rewrite lookup_partial_alter_ne by done. by apply H. Qed.

Lemma untouched_old path tmp img fs0 fs : untouched tmp fs0 fs → old_or_new path tmp img fs0 fs.
Proof. intros H q Hq. left. by apply H. Qed.

Lemma untouched_visits path tmp img fs0 s s' :
  visits (untouched tmp fs0) s s' → visits (old_or_new path tmp img fs0) s s'.
Proof. apply visits_mono. intros fs. apply untouched_old. Qed.

Lemma sys_rename_frame path tmp img fs0 s ret s' :
  untouched tmp fs0 (now s) → now s !! tmp = Some (mk_file img true) →
  sys_rename tmp path s = (ret, s') →
  ret = 0%Z ∧ visits (old_or_new path tmp img fs0) s s' ∧
    now s' !! path = Some (mk_file img true) ∨
  ret ≠ 0%Z ∧ visits (untouched tmp fs0) s s'.
Proof.
  intros Hu Hf. unfold sys_rename. destruct (next_outcome s) as [o s0] eqn:Eo.
  pose proof (next_outcome_frame _ _ _ Eo) as [Hnow _]. rewrite <-Hnow in *.
  assert (Hv : visits (untouched tmp fs0) s s0)
    by (eapply visits_outcome; [done|by apply visits_refl]).
  assert (Hgood : visits (old_or_new path tmp img fs0) s
      (change (λ fs, <[path := mk_file img true]> (delete tmp fs)) s0)).
  { eapply visits_trans; [by apply untouched_visits|].
    apply visits_change; [by apply untouched_old|]. intros q Hq.
    destruct (decide (q = path)) as [->|Hp].
    - right. split; [done|]. apply lookup_insert_eq.
    - left. rewrite lookup_insert_ne, lookup_delete_ne by done. by apply Hu. }
  rewrite Hf. destruct o; intros [= <- <-];
    first [by right | left; split; [done|split; [done|apply lookup_insert_eq]]].
Qed.

(** What a writer of [path] promises: it succeeds, every state has the old file or
    all of the new one, and the new one is there at the end; or it fails, and no
    state has anything but the old one. *)
Definition replaced (path tmp : string) (img : list byte) (ret : Z) (s s' : sys) : Prop :=
  ret = 0%Z ∧ visits (old_or_new path tmp img (now s)) s s' ∧
    now s' !! path = Some (mk_file img true) ∨
  ret ≠ 0%Z ∧ visits (untouched tmp (now s)) s s'.

Section Writer.

Context (path tmp : string) (img : list byte) (s : sys).

Lemma stopped ret s1 :
  visits (untouched tmp (now s)) s s1 → ret ≠ 0%Z → replaced path tmp img ret s s1.
Proof using. intros Hv Hr. by right. Qed.

Lemma dropped ret s1 :
  visits (untouched tmp (now s)) s s1 → ret ≠ 0%Z → replaced path tmp img ret s (sys_unlink tmp s1).
Proof using.
  intros Hv Hr. apply stopped; [|done]. eapply visits_trans; [done|].
  apply (sys_unlink_frame tmp _ (untouched_ignores tmp (now s))). by apply visits_end in Hv.
Qed.

Lemma closed ret s1 :
  visits (untouched tmp (now s)) s s1 → ret ≠ 0%Z →
  replaced path tmp img ret s (sys_unlink tmp (snd (sys_close s1))).
Proof using.
  intros Hv Hr. destruct (sys_close s1) as [r s2] eqn:E. apply dropped; [|done].
  eapply visits_trans; [done|]. eapply sys_close_frame; [by apply visits_end in Hv|done].
Qed.

(** [rename], and [unlink] when it fails: the end of both writers. *)
Lemma renamed s1 ret s2 :
  visits (untouched tmp (now s)) s s1 → now s1 !! tmp = Some (mk_file img true) →
  sys_rename tmp path s1 = (ret, s2) →
  replaced path tmp img ret s (if (ret =? 0)%Z then s2 else sys_unlink tmp s2).
Proof using.
  intros Hv Hf E.
  destruct (sys_rename_frame path tmp img (now s) s1 ret s2 (visits_end _ _ _ Hv) Hf E)
    as [(-> & Hv2 & Hp)|[Hr Hv2]].
  - left. split; [done|]. split; [|done]. eapply visits_trans; [by apply untouched_visits|done].
  - destruct (Z.eqb_spec ret 0) as [|_]; [done|].
    apply dropped; [by eapply visits_trans|done].
Qed.

End Writer.

(** ** Crashes *)

(** What a crash leaves, from the states the file system went through since the
    machine started, the newest first.  No caller syncs a directory, so a rename
    that returned may still be undone: each name has what it had at one of these
    moments, whole if it was synced by then and of any content otherwise. *)
Definition after_crash (hist : list files) (fs' : files) : Prop :=
  ∀ q, ∃ fs, fs ∈ hist ∧
    match fs !! q with
    | None => fs' !! q = None
    | Some f => ∃ f', fs' !! q = Some f' ∧ (f_synced f = true → f' = f)
    end.

(** What the file system went through until a moment between [s] and [s'], the end
    included. *)
Definition during (s s' : sys) (hist : list files) : Prop :=
  ∃ l l', now s' :: past s' = l ++ hist ∧ hist = l' ++ past s ∧ l' ≠ [].

Lemma visits_during P s s' hist :
  visits P s s' → during s s' hist → ∃ l, hist = l ++ past s ∧ Forall P l.
Proof.
  intros [Hn (l & Hl & F)] (l1 & l2 & E & -> & _). exists l2. split; [done|].
  rewrite Hl, app_comm_cons, app_assoc in E. apply app_inv_tail in E.
  assert (Forall P (l1 ++ l2)) as [_ H]%list.Forall_app; [|done].
  rewrite <-E. by apply list.Forall_cons.
Qed.

Lemma visits_past P s s' : visits P s s' → Forall P (past s) → Forall P (past s').
Proof. intros [_ (l & -> & F)] H. by apply list.Forall_app. Qed.

Lemma during_end s s' : visits (λ _, True) s s' → during s s' (now s' :: past s').
Proof. intros [_ (l & Hl & _)]. exists [], (now s' :: l). by rewrite Hl. Qed.

(** A name that was synced all along is found as it was at one of the moments. *)
Lemma crash_lookup hist fs' path :
  after_crash hist fs' → (∀ fs f, fs ∈ hist → fs !! path = Some f → f_synced f = true) →
  ∃ fs, fs ∈ hist ∧ fs' !! path = fs !! path.
Proof.
  intros Hc Hs. destruct (Hc path) as (fs & Hin & H). exists fs. split; [done|].
  destruct (fs !! path) as [f|] eqn:E; [|done]. destruct H as (f' & -> & Hsame).
  by rewrite Hsame by (by eapply Hs).
Qed.

(** Once everything has reached the disk. *)
Lemma crash_now fs fs' path f :
  after_crash [fs] fs' → fs !! path = Some f → f_synced f = true → fs' !! path = Some f.
Proof.
  intros Hc E Hs. destruct (crash_lookup [fs] fs' path Hc) as (fs0 & ->%list_elem_of_singleton & ->); [|done].
  intros fs0 f0 ->%list_elem_of_singleton. congruence.
Qed.

(** The file system may be found as it was at one moment. *)
Lemma crash_back fs hist : fs ∈ hist → after_crash hist fs.
Proof.
  intros Hin q. exists fs. split; [done|]. destruct (fs !! q) as [f|]; [by exists f|done].
Qed.

Lemma crash_refl fs hist : after_crash (fs :: hist) fs.
Proof. apply crash_back. by constructor. Qed.

(** A crash while [path] is being replaced: it is as it was at some moment before, or
    new. *)
Lemma crash_replaced path tmp img ret s s' hist fs' :
  path ≠ tmp → (∀ fs f, fs ∈ now s :: past s → fs !! path = Some f → f_synced f = true) →
  replaced path tmp img ret s s' → during s s' hist → after_crash hist fs' →
  (∃ fs, fs ∈ now s :: past s ∧ fs' !! path = fs !! path) ∨
  ret = 0%Z ∧ fs' !! path = Some (mk_file img true).
Proof.
  intros Hne Hsync Hrep Hd Hc.
  assert (∃ l, hist = l ++ past s ∧ Forall (λ fs, fs !! path = now s !! path ∨
            ret = 0%Z ∧ fs !! path = Some (mk_file img true)) l) as (l & -> & F).
  { destruct Hrep as [(-> & Hv & _)|[Hr Hv]]; (eapply visits_during; [|exact Hd]);
      (eapply visits_mono; [|exact Hv]); intros fs Hfs; specialize (Hfs path Hne); [|by left].
    destruct Hfs as [?|[_ ?]]; [by left|by right]. }
  rewrite list.Forall_forall in F.
  destruct (crash_lookup _ _ path Hc) as (fs & [Hin|Hin]%elem_of_app & He).
  - intros fs f [Hin|Hin]%elem_of_app Hf; [|eapply Hsync; [by right|done]].
    destruct (F _ Hin) as [Ho|[_ Ho]]; rewrite Ho in Hf; [|by injection Hf as <-].
    eapply Hsync; [by left|done].
  - rewrite He. destruct (F _ Hin) as [->|?]; [left|by right]. exists (now s). split; [by left|done].
  - left. exists fs. split; [by right|done].
Qed.

End Replace.
