(* ===== verification/ChunkPersist.v ===== *)
(** * Persisting and loading the chunk store and the epoch record

    [chunk_store_persist] and [chunk_mds_epoch_persist] against the states of the
    file system, and [chunk_store_load] on the image they leave. *)

From S2P Require Import Prelude.
From S2P Require Import Words.
From S2P Require Import Posix.
From S2P Require Import ChunkStore.
From S2P Require Import ChunkDisk.
From S2P Require Import ChunkCorrect.
From S2P Require Import ChunkSteps.
From S2P Require Import ChunkDiskCorrect.
From S2P Require Import Replace.
From stdpp Require Import gmap strings pretty.
Import Words Posix ChunkStore ChunkDisk ChunkCorrect ChunkSteps ChunkDiskCorrect Replace.

Module ChunkPersist.

(** ** The image of a store *)

Definition block_item (cs : chunk_store) (i : nat) : list byte :=
  block_bytes (block_to_disk (rd zero_block (cs_blocks cs) i)).
Definition range_item (cs : chunk_store) (i : nat) : list byte :=
  range_bytes (escrow_range_to_disk (rd zero_range (cs_escrows cs) i)).

Definition image (cs : chunk_store) (ino : Z) : list byte :=
  header_bytes (store_header cs ino) ++ written (Z.to_nat (cs_high_water cs)) (block_item cs) ++
  written (length (cs_escrows cs)) (range_item cs).

Lemma write_store_frame cs tmp ino s ret s' (P : files → Prop) :
  ignores tmp P → P (now s) → now s !! tmp = Some (mk_file [] false) →
  write_store cs tmp ino s = (ret, s') →
  visits P s s' ∧ (ret = 0%Z → now s' !! tmp = Some (mk_file (image cs ino) true)).
Proof.
  intros HP H Hb. unfold write_store, image.
  destruct (put tmp _ s) as [r1 s1] eqn:E1.
  destruct (put_frame tmp P HP _ _ _ _ _ _ H Hb E1) as [Hv1 Hb1].
  destruct (Z.eqb_spec r1 0) as [->|]; cbn [negb]; [|by intros [= <- <-]].
  specialize (Hb1 eq_refl). cbn [app] in Hb1.
  pose proof (put_loop_frame tmp P HP (Z.to_nat (cs_high_water cs)) (block_item cs) s1 _ _
    (visits_end _ _ _ Hv1) Hb1) as H2. unfold block_item at 1 in H2.
  destruct (put_loop _ _ _ s1) as [s2|[r s2]]; destruct H2 as [Hv2 Hb2];
    [|intros [= <- <-]; split; [by eapply visits_trans|done]].
  destruct Hb2 as (syn2 & Hb2). pose proof (visits_trans _ _ _ _ Hv1 Hv2) as Hv12.
  pose proof (put_loop_frame tmp P HP (length (cs_escrows cs)) (range_item cs) s2 _ _
    (visits_end _ _ _ Hv2) Hb2) as H3. unfold range_item at 1 in H3.
  destruct (put_loop _ _ _ s2) as [s3|[r s3]]; destruct H3 as [Hv3 Hb3];
    [|intros [= <- <-]; split; [by eapply visits_trans|done]].
  destruct Hb3 as (syn3 & Hb3). intros E4.
  destruct (sys_fdatasync_frame tmp P HP _ _ _ _ _ (visits_end _ _ _ Hv3) Hb3 E4) as [Hv4 Hb4].
  split; [by eapply visits_trans; [|eapply visits_trans]|]. intros Hr.
  rewrite (Hb4 Hr), <-app_assoc. done.
Qed.

(** ** Paths *)

Lemma slen_app a b : String.length (a +:+ b) = (String.length a + String.length b)%nat.
Proof. induction a as [|c a IH]; [done|]. cbn. by rewrite <-IH. Qed.

Lemma tmp_ne path : path ≠ (path +:+ ".tmp")%string.
Proof.
  intros H. apply (f_equal String.length) in H. rewrite slen_app in H. cbn in H. lia.
Qed.

Lemma fits_inv bufsz text path : snprintf_fits bufsz text = inr path → path = text ∧
  (Z.of_nat (String.length path) < bufsz)%Z.
Proof. unfold snprintf_fits. case_if; bool_prop; [done|]. by intros [= <-]. Qed.

(** A path that fits its buffer leaves room for the suffix in the larger one. *)
Lemma tmp_fits bufsz text path :
  (bufsz <= 512)%Z → snprintf_fits bufsz text = inr path →
  snprintf_fits 520 (path +:+ ".tmp") = inr (path +:+ ".tmp").
Proof.
  intros Hb [_ Hl]%fits_inv. unfold snprintf_fits. case_if; bool_prop; [|done].
  rewrite slen_app in *. cbn in *. lia.
Qed.

Lemma dir_fits dir ino path :
  chunk_meta_path 512 dir ino = inr path →
  snprintf_fits 512 (dir +:+ "/chunks") = inr (dir +:+ "/chunks")%string.
Proof.
  intros [-> Hl]%fits_inv. unfold snprintf_fits. case_if; bool_prop; [|done].
  rewrite !slen_app in *. cbn in *. lia.
Qed.

(** ** The store *)

(** The same blocks and parameters; the index and the dirty mark may differ. *)
Definition same_data (cs cs' : chunk_store) : Prop :=
  cs_blocks cs' = cs_blocks cs ∧ cs_nblocks cs' = cs_nblocks cs ∧
  cs_high_water cs' = cs_high_water cs ∧ cs_chunk_size cs' = cs_chunk_size cs ∧
  cs_checksum_algorithm cs' = cs_checksum_algorithm cs.

(** The index lists exactly the ranges of the escrowed blocks. *)
Definition index_exact (cs : chunk_store) : Prop :=
  ∀ r, r ∈ cs_escrows cs ↔ held cs (cs_high_water cs) r.

Lemma refresh_exact grants cs ret cs' :
  store_inv cs → chunk_store_refresh_escrows grants cs = (ret, cs') →
  same_data cs cs' ∧ cs_dirty cs' = cs_dirty cs ∧ store_inv cs' ∧ (ret = 0%Z → index_exact cs').
Proof.
  intros Hinv E. pose proof (refresh_inv _ _ _ _ Hinv E) as Hinv'.
  destruct (refresh_spec grants cs ret cs' (inv_ok _ Hinv) E) as [Hc Hr].
  assert (Hs : same_data cs cs' ∧ cs_dirty cs' = cs_dirty cs) by (by rewrite Hc).
  destruct Hs as [Hs Hd]. split; [done|]. split; [done|]. split; [done|]. intros ->.
  destruct Hr as [[_ [[? _]|[[? _]|[? _]]]]|[_ (_ & Hin & _)]]; [done..|].
  pose proof (ok_high _ (inv_ok _ Hinv)). intros r. cbn [fst] in Hin.
  rewrite Hin, Z2Nat.id by lia. destruct Hs as (Hb & _ & Hh & _).
  unfold held, blk_at. by rewrite Hb, Hh.
Qed.

Lemma clean_inv cs : store_inv cs → store_inv (set_clean cs).
Proof. by intros [[] ??]; split; [split| |]. Qed.

Lemma image_clean cs ino : image (set_clean cs) ino = image cs ino.
Proof. done. Qed.

Lemma persist_spec grants cs dir ino s path ret ocs s' :
  store_inv cs → cs_dirty cs = true → chunk_meta_path 512 dir ino = inr path →
  chunk_store_persist grants (Some cs) dir ino s = (ret, ocs, s') →
  ∃ cs', ocs = Some cs' ∧ same_data cs cs' ∧ store_inv cs' ∧
    replaced path (path +:+ ".tmp") (image cs' ino) ret s s' ∧
    (ret = 0%Z → cs_dirty cs' = false ∧ index_exact cs') ∧ (ret ≠ 0%Z → cs_dirty cs' = true).
Proof.
  intros Hinv Hd Hp. unfold chunk_store_persist. rewrite Hd. cbn [negb].
  destruct (chunk_store_refresh_escrows grants cs) as [r0 c] eqn:E0.
  destruct (refresh_exact grants cs r0 c Hinv E0) as (Hsame & Hdc & Hic & Hex).
  rewrite Hd in Hdc.
  set (tmp := (path +:+ ".tmp")%string) in *.
  pose proof (untouched_ignores tmp (now s)) as HP.
  assert (Hstop : ∀ r s1, replaced path tmp (image c ino) r s s1 → r ≠ 0%Z →
    ∃ cs', Some c = Some cs' ∧ same_data cs cs' ∧ store_inv cs' ∧
      replaced path tmp (image cs' ino) r s s1 ∧
      (r = 0%Z → cs_dirty cs' = false ∧ index_exact cs') ∧ (r ≠ 0%Z → cs_dirty cs' = true))
    by (intros r s1 Hv Hr; by exists c).
  destruct (Z.eqb_spec r0 0) as [Hr0|Hr]; cbn [negb];
    [|intros [= <- <- <-]; by apply Hstop; [apply stopped; [apply visits_refl|]|]].
  unfold ensure_chunks_dir. rewrite (dir_fits _ _ _ Hp).
  destruct (sys_mkdir s) as [r1 s1] eqn:E1.
  destruct (sys_mkdir_frame (untouched tmp (now s)) _ _ _ (λ q _, eq_refl) E1) as [Hv1 _].
  destruct (negb (r1 =? 0)%Z && _) eqn:Em.
  { bool_prop. destruct (Z.eqb_spec r1 0); [done|]. cbn [negb]. intros [= <- <- <-].
    by apply Hstop; [apply stopped|]. }
  cbn [Z.eqb negb]. rewrite Hp, (tmp_fits 512 _ _ ltac:(done) Hp). fold tmp.
  destruct (sys_create tmp s1) as [r2 s2] eqn:E2.
  destruct (sys_create_frame tmp _ HP _ _ _ (visits_end _ _ _ Hv1) E2) as [Hv2 [[-> Hf]|[Hlt _]]];
    pose proof (visits_trans _ _ _ _ Hv1 Hv2) as Hv12.
  2: { destruct (Z.ltb_spec r2 0); [|lia]. intros [= <- <- <-].
       apply Hstop; [apply stopped; [done|lia]|lia]. }
  cbn [Z.ltb Z.compare]. destruct (write_store c tmp ino s2) as [r3 s3] eqn:E3.
  destruct (write_store_frame _ _ _ _ _ _ _ HP (visits_end _ _ _ Hv2) Hf E3) as [Hv3 Hf3].
  destruct (sys_close s3) as [r4 s4] eqn:E4.
  destruct (sys_close_frame _ _ _ _ (visits_end _ _ _ Hv3) E4) as [Hv4 Hn4].
  pose proof (visits_trans _ _ _ _ (visits_trans _ _ _ _ Hv12 Hv3) Hv4) as Hv14.
  destruct (Z.eqb_spec r3 0) as [Hr3|Hr3]; cbn [negb];
    [|intros [= <- <- <-]; by apply Hstop; [apply dropped|]].
  destruct (sys_rename tmp path s4) as [r5 s5] eqn:E5. rewrite <-Hn4 in Hf3.
  pose proof (renamed path tmp (image c ino) s s4 r5 s5 Hv14 (Hf3 Hr3) E5) as H.
  destruct (Z.eqb_spec r5 0) as [->|Hr5]; cbn [negb]; intros [= <- <- <-]; [|by apply Hstop].
  exists (set_clean c). rewrite image_clean. split; [done|]. split; [done|].
  split; [by apply clean_inv|]. split; [done|]. split; [|done]. split; [done|by apply Hex].
Qed.

(** ** Reading an image *)

Lemma sys_read_good n fd s :
  outs s = [] → sys_read n fd s = (Z.of_nat (length (take n fd)), take n fd, drop n fd, s).
Proof. intros H. unfold sys_read, next_outcome. by rewrite H. Qed.

Lemma read_item n item rest s :
  outs s = [] → length item = n →
  sys_read n (item ++ rest) s = (Z.of_nat n, item, rest, s).
Proof.
  intros Ho Hl. rewrite sys_read_good by done. by rewrite take_app_length', drop_app_length', Hl.
Qed.

(** The items from [i] on. *)
Definition items_from (i n : nat) (item : nat → list byte) : list byte :=
  concat (map item (seq i (n - i))).

Lemma items_from_S i n item : (i < n)%nat → items_from i n item = item i ++ items_from (S i) n item.
Proof. intros H. unfold items_from. replace (n - i)%nat with (S (n - S i)) by lia. done. Qed.

Lemma items_from_end n item : items_from n n item = [].
Proof. unfold items_from. by rewrite Nat.sub_diag. Qed.

Lemma items_from_0 n item : items_from 0 n item = written n item.
Proof. unfold items_from, written. by rewrite Nat.sub_0_r. Qed.

(** The loop of both readers: a record of [size] bytes is decoded and stored,
    unless it is short or [bad]. *)
Definition read_loop {A} (size : nat) (decode : list byte → A) (bad : A → bool) (n : nat)
    (arr : list A) (fd : list byte) (s : sys) : list A * list byte * sys + sys :=
  for_break 0 n (λ i '(arr, fd, s),
    let '(k, buf, fd, s) := sys_read size fd s in
    if negb (k =? Z.of_nat size)%Z then inr s
    else if bad (decode buf) then inr s
    else inl (wr arr i (decode buf), fd, s)) (arr, fd, s).

Section ReadLoop.

Context {A : Type} (d : A) (size : nat) (decode : list byte → A) (bad : A → bool).

(** On the bytes of [n] good items it stores them. *)
Lemma read_loop_back n arr item g rest s :
  outs s = [] → (n <= length arr)%nat →
  (∀ i, (i < n)%nat → length (item i) = size ∧ decode (item i) = g i ∧ bad (g i) = false) →
  ∃ arr', read_loop size decode bad n arr (written n item ++ rest) s = inl (arr', rest, s) ∧
    length arr' = length arr ∧
    ∀ j, rd d arr' j = if decide (j < n)%nat then g j else rd d arr j.
Proof using.
  intros Ho Hn Hit. unfold read_loop. rewrite <-items_from_0.
  set (I (i : nat) (st : list A * list byte * sys) := ∃ arr',
    st = (arr', items_from i n item ++ rest, s) ∧ length arr' = length arr ∧
    ∀ j, rd d arr' j = if decide (j < i)%nat then g j else rd d arr j).
  match goal with |- ∃ _, ?l = _ ∧ _ => assert (H : match l with inl st => I n st | inr _ => False end) end.
  { apply (for_break_ind I (λ _ : sys, False)); [by exists arr|].
    intros i st Hi (arr' & -> & Hl & Hrd). destruct (Hit i ltac:(lia)) as (Hsz & Hdec & Hb).
    rewrite items_from_S, <-app_assoc by lia. rewrite read_item by done.
    rewrite Z.eqb_refl, Hdec, Hb. cbn [negb]. exists (wr arr' i (g i)). split; [done|].
    rewrite length_wr. split; [done|]. intros j. rewrite rd_wr by lia.
    repeat case_decide; subst; try lia; try done; rewrite Hrd; case_decide; done || lia. }
  destruct (for_break _ _ _ _) as [st|]; [|done]. destruct H as (arr' & -> & Hl & Hrd).
  exists arr'. by rewrite items_from_end.
Qed.

(** Whatever the bytes and the answers, what it stores was accepted. *)
Lemma read_loop_ok (Q : A → Prop) n arr fd s arr' fd' s' :
  (∀ buf, length buf = size → bad (decode buf) = false → Q (decode buf)) →
  (n <= length arr)%nat →
  read_loop size decode bad n arr fd s = inl (arr', fd', s') →
  length arr' = length arr ∧ (∀ j, (j < n)%nat → Q (rd d arr' j)) ∧
  (∀ j, (n <= j)%nat → rd d arr' j = rd d arr j).
Proof using.
  intros HQ Hn. unfold read_loop.
  set (I (i : nat) (st : list A * list byte * sys) :=
    length (st.1.1) = length arr ∧ (∀ j, (j < i)%nat → Q (rd d (st.1.1) j)) ∧
    (∀ j, (i <= j)%nat → rd d (st.1.1) j = rd d arr j)).
  match goal with |- ?l = _ → _ => assert (H : match l with inl st => I n st | inr _ => True end) end.
  { apply (for_break_ind I (λ _ : sys, True)); [by split_and!; intros; [|lia|]|].
    intros i [[a f] s1] Hi (Hl & H1 & H2). cbn [fst snd] in *.
    destruct (sys_read size f s1) as [[[k buf] f'] s2] eqn:E. case_if; bool_prop; [done|].
    destruct (bad (decode buf)) eqn:Hb; [done|].
    assert (Hbuf : length buf = size).
    { unfold sys_read in E. destruct (next_outcome s1) as [[]]; simplify_eq/=; lia. }
    split_and!; cbn [fst].
    - by rewrite length_wr.
    - intros j Hj. rewrite rd_wr by lia. case_decide; [by apply HQ|]. apply H1. lia.
    - intros j Hj. rewrite rd_wr by lia. case_decide; [lia|]. apply H2. lia. }
  intros E. rewrite E in H. done.
Qed.

End ReadLoop.

Definition bad_range (nblocks : Z) (r : chunk_escrow_range) : bool :=
  negb (escrow_range_valid (cer_offset r) (cer_count r) (cer_id r))
  || (nblocks <? cer_offset r)%Z || (nblocks - cer_offset r <? cer_count r)%Z.

Lemma load_blocks_loop n blocks fd s :
  load_blocks n blocks fd s
  = read_loop BLOCK_SIZE (λ buf, disk_to_block (block_of buf)) (λ _, false) n blocks fd s.
Proof. done. Qed.

Lemma load_ranges_loop nblocks ranges fd s :
  load_ranges nblocks ranges fd s
  = read_loop RANGE_SIZE (λ buf, escrow_range_from_disk (range_of buf)) (bad_range nblocks)
      (length ranges) ranges fd s.
Proof. done. Qed.

Lemma any_range_ok nblocks buf :
  length buf = RANGE_SIZE → bad_range nblocks (escrow_range_from_disk (range_of buf)) = false →
  let r := escrow_range_from_disk (range_of buf) in
  range_ok r ∧ (cer_offset r + cer_count r <= nblocks)%Z.
Proof.
  intros Hl Hb r. unfold bad_range in Hb. fold r in Hb. bool_prop. split; [|lia]. split; try done.
  - apply (num_width 8).
  - apply (num_width 4).
  - unfold r, escrow_range_from_disk, range_of, num, raw. cbn -[take drop].
    by rewrite length_take, !length_drop, Hl.
Qed.

(** Whatever the file holds, a store that is loaded is well formed. *)
Lemma load_store_ok grants ino fd s cs s' :
  load_store grants ino fd s = (Some cs, s') →
  store_ok cs ∧ (cs_high_water cs <= CHUNK_STORE_MAX_BLOCKS)%Z ∧ cs_dirty cs = false ∧
  ∀ r, r ∈ cs_escrows cs → (cer_offset r + cer_count r <= cs_high_water cs)%Z.
Proof.
  unfold load_store. destruct (sys_read HEADER_SIZE fd s) as [[[n buf] fd1] s1].
  assert (Hw4 : ∀ bs, in_width 32 (le_combine (take 4 bs))) by (intros bs; apply (num_width 4)).
  assert (Hn0 : in_width 64 (csh_nblocks (header_of buf))) by apply (num_width 8).
  set (nblocks := csh_nblocks (header_of buf)) in *.
  set (alloc := if (nblocks <? CHUNK_STORE_INIT_BLOCKS)%Z then _ else _).
  assert (Ha : (Z.max nblocks CHUNK_STORE_INIT_BLOCKS = alloc)%Z)
    by (unfold alloc; case_if; bool_prop; lia).
  clearbody alloc. destruct (header_bad n (header_of buf) ino) eqn:Hbad; [done|].
  unfold header_bad in Hbad. fold nblocks in Hbad. bool_prop.
  assert (He : in_width 32 (csh_escrow_count (header_of buf))) by apply Hw4.
  set (nesc := csh_escrow_count (header_of buf)) in *.
  clearbody nblocks nesc. do 3 (case_if; [done|]).
  destruct Hn0 as [Hn0 _]. unfold CHUNK_STORE_INIT_BLOCKS, CHUNK_STORE_MAX_BLOCKS in *.
  rewrite load_blocks_loop. destruct (read_loop _ _ _ _ _ _ _) as [[[blocks fd2] s2]|] eqn:E1; [|done].
  apply (read_loop_ok zero_block _ _ _ block_ok) in E1 as (Hl1 & Hb1 & Hz1);
    [|intros b Hb _; by apply any_block_ok|rewrite length_replicate; lia].
  rewrite load_ranges_loop. destruct (read_loop _ _ _ _ _ _ _) as [[[ranges fd3] s3]|] eqn:E2; [|done].
  apply (read_loop_ok zero_range _ _ _ (λ r, range_ok r ∧ (cer_offset r + cer_count r <= nblocks)%Z))
    in E2 as (Hl2 & Hr2 & _); [|apply any_range_ok|lia].
  rewrite length_replicate in Hl1. rewrite length_replicate in Hl2, Hr2. intros [= <- <-].
  assert (Hr : Forall (λ r, range_ok r ∧ (cer_offset r + cer_count r <= nblocks)%Z) ranges).
  { apply list.Forall_lookup. intros i r Hir. rewrite <-(rd_lookup zero_range _ _ _ Hir).
    apply Hr2. apply lookup_lt_Some in Hir. lia. }
  split; [|split; [cbn; lia|split; [done|]]].
  - split; cbn -[header_of]; unfold CHUNK_STORE_INIT_BLOCKS, CHUNK_STORE_MAX_BLOCKS; try lia.
    + intros i. unfold blk_at. cbn. destruct (le_lt_dec (Z.to_nat nblocks) (Z.to_nat i)); [|auto].
      rewrite Hz1, rd_replicate by done. apply zero_block_ok.
    + intros i Hi. unfold blk_at. cbn. by rewrite Hz1, rd_replicate by lia.
    + apply Hw4.
    + apply Hw4.
    + eapply list.Forall_impl; [done|]. by intros r [? _].
    + destruct He. lia.
  - intros r Hir. rewrite list.Forall_forall in Hr. by apply Hr.
Qed.

(** ** Stores that hold the same *)

Record same_store (cs cs' : chunk_store) : Prop := {
  same_high : cs_high_water cs' = cs_high_water cs;
  same_size : cs_chunk_size cs' = cs_chunk_size cs;
  same_algorithm : cs_checksum_algorithm cs' = cs_checksum_algorithm cs;
  same_escrows : cs_escrows cs' = cs_escrows cs;
  same_blocks : ∀ i, (0 <= i < cs_high_water cs)%Z → blk_at cs' i = blk_at cs i;
}.

#[export] Instance same_store_equiv : Equivalence same_store.
Proof.
  split.
  - by intros cs; split.
  - intros a b []; split; try done. intros i Hi. symmetry. apply same_blocks0. lia.
  - intros a b c [] []; split; try congruence. intros i Hi.
    rewrite same_blocks1 by lia. by apply same_blocks0.
Qed.

(** Data-path callers cannot tell such stores apart. *)
Lemma lookup_occupied cs off :
  store_ok cs → (0 <= off)%Z →
  chunk_store_lookup (Some cs) off
  = if occupied (blk_at cs off) then Some (blk_at cs off) else None.
Proof.
  intros Hok Hoff. unfold chunk_store_lookup, chunk_store_lookup_any, occupied.
  case_if; bool_prop; [|by destruct (_ =? CHUNK_STATE_EMPTY)%Z].
  pose proof (ok_high _ Hok). destruct (ok_above _ Hok off ltac:(lia)) as [-> _]. done.
Qed.

Lemma same_store_lookup cs cs' off :
  store_ok cs → store_ok cs' → (0 <= off)%Z → same_store cs cs' →
  chunk_store_lookup (Some cs') off = chunk_store_lookup (Some cs) off.
Proof.
  intros H1 H2 Hoff H. rewrite !lookup_occupied by done. unfold occupied.
  destruct (Z.lt_ge_cases off (cs_high_water cs)); [by rewrite (same_blocks _ _ H) by lia|].
  destruct (ok_above _ H1 off ltac:(lia)) as [-> _].
  by destruct (ok_above _ H2 off ltac:(rewrite (same_high _ _ H); lia)) as [-> _].
Qed.

#[export] Instance has_escrow_proper :
  Proper (same_store ==> eq ==> eq ==> eq ==> eq) (λ cs, chunk_store_has_escrow (Some cs)).
Proof. intros a b H o ? <- c ? <- id ? <-. cbn. by rewrite (same_escrows _ _ H). Qed.

Lemma header_of_store cs ino :
  store_ok cs → in_width 64 ino → header_ok (store_header cs ino).
Proof.
  intros [] Hino. unfold CHUNK_STORE_MAX_BLOCKS, CHUNK_STORE_MAX_ESCROWS in *.
  split; cbn; try done; unfold in_width; lia.
Qed.

Lemma exact_inside cs r :
  store_inv cs → index_exact cs → r ∈ cs_escrows cs →
  bad_range (cs_high_water cs) r = false.
Proof.
  intros Hinv Hex Hr. apply Hex in Hr as (off & Hoff & Hf & <-).
  destruct (inv_custody _ Hinv off) as [Hv Hle].
  { unfold in_escrow. unfold flagged in Hf. by rewrite Hf. }
  destruct (ok_blocks _ (inv_ok _ Hinv) off). destruct ok_lock_offset0, ok_lock_count0.
  unfold bad_range. cbn. rewrite Hv. cbn [negb orb].
  apply orb_false_iff. split; apply Z.ltb_ge; lia.
Qed.

Lemma load_blocks_back cs alloc rest s :
  store_ok cs → outs s = [] → (cs_high_water cs <= alloc)%Z →
  ∃ blocks,
    load_blocks (Z.to_nat (cs_high_water cs)) (replicate (Z.to_nat alloc) zero_block)
      (written (Z.to_nat (cs_high_water cs)) (block_item cs) ++ rest) s = inl (blocks, rest, s) ∧
    ∀ i, (0 <= i < cs_high_water cs)%Z → rd zero_block blocks (Z.to_nat i) = blk_at cs i.
Proof.
  intros Hok Ho Ha. rewrite load_blocks_loop. pose proof (ok_high _ Hok) as Hh.
  destruct (read_loop_back zero_block BLOCK_SIZE (λ buf, disk_to_block (block_of buf)) (λ _, false)
    (Z.to_nat (cs_high_water cs)) (replicate (Z.to_nat alloc) zero_block) (block_item cs)
    (rd zero_block (cs_blocks cs)) rest s Ho) as (blocks & E & _ & Hb).
  - rewrite length_replicate. lia.
  - intros i _. pose proof (ok_blocks _ Hok (Z.of_nat i)) as Hb. unfold blk_at in Hb.
    rewrite Nat2Z.id in Hb. split; [by apply length_block_bytes|]. split; [by apply block_back|done].
  - exists blocks. split; [done|]. intros i Hi. rewrite Hb. case_decide; [done|lia].
Qed.

Lemma load_ranges_back cs s :
  store_inv cs → index_exact cs → outs s = [] →
  load_ranges (cs_high_water cs) (replicate (length (cs_escrows cs)) zero_range)
    (written (length (cs_escrows cs)) (range_item cs)) s = inl (cs_escrows cs, [], s).
Proof.
  intros Hinv Hex Ho. rewrite load_ranges_loop, length_replicate.
  destruct (read_loop_back zero_range RANGE_SIZE (λ buf, escrow_range_from_disk (range_of buf))
    (bad_range (cs_high_water cs)) (length (cs_escrows cs))
    (replicate (length (cs_escrows cs)) zero_range) (range_item cs)
    (rd zero_range (cs_escrows cs)) [] s Ho) as (ranges & E & Hl & Hr).
  - by rewrite length_replicate.
  - intros i Hi. pose proof (rd_lt zero_range _ _ Hi) as Hx.
    pose proof (ok_escrows _ (inv_ok _ Hinv)) as Hf. rewrite list.Forall_lookup in Hf.
    specialize (Hf _ _ Hx). split; [by apply length_range_bytes|]. split; [by apply range_back|].
    apply exact_inside; [done|done|]. by eapply list_elem_of_lookup_2.
  - rewrite app_nil_r in E. rewrite E. rewrite length_replicate in Hl.
    replace ranges with (cs_escrows cs); [done|].
    apply (rd_ext zero_range); [done|]. intros i Hi. rewrite Hr. by case_decide.
Qed.

(** The image of a store, with an exact index and within the limit, loads as that
    store. *)
Lemma load_image grants cs ino s :
  store_inv cs → index_exact cs → (cs_high_water cs <= CHUNK_STORE_MAX_BLOCKS)%Z →
  in_width 64 ino → (∀ k n, grants k n = true) → outs s = [] →
  ∃ cs2, load_store grants ino (image cs ino) s = (Some cs2, s) ∧ same_store cs cs2.
Proof.
  intros Hinv Hex Hm Hino Hg Ho. pose proof (inv_ok _ Hinv) as Hok. unfold load_store, image.
  rewrite read_item by (done || apply length_header_bytes).
  rewrite header_back by (by apply header_of_store). unfold header_bad, store_header.
  cbn [csh_magic csh_version csh_nblocks csh_inode_ino csh_chunk_size csh_checksum_algorithm
       csh_escrow_count csh_escrow_record_size].
  rewrite !Z.eqb_refl, !Hg. cbn [negb orb]. rewrite andb_false_r.
  destruct (Z.ltb_spec CHUNK_STORE_MAX_BLOCKS (cs_high_water cs)); [lia|].
  pose proof (ok_escrow_cap _ Hok).
  destruct (Z.ltb_spec CHUNK_STORE_MAX_ESCROWS (Z.of_nat (length (cs_escrows cs)))); [lia|].
  cbn [orb].
  set (alloc := if (cs_high_water cs <? CHUNK_STORE_INIT_BLOCKS)%Z then _ else _).
  assert (Ha : (cs_high_water cs <= alloc)%Z) by (unfold alloc; case_if; bool_prop; lia).
  clearbody alloc.
  destruct (load_blocks_back cs alloc (written (length (cs_escrows cs)) (range_item cs)) s Hok Ho Ha)
    as (blocks & -> & Hb).
  rewrite Nat2Z.id, load_ranges_back by done. eexists. split; [done|]. by split.
Qed.

(** A file system that holds the image, and the whole of [load]. *)
Lemma load_persisted grants cs dir ino path s syn :
  store_inv cs → index_exact cs → (cs_high_water cs <= CHUNK_STORE_MAX_BLOCKS)%Z →
  in_width 64 ino → (∀ k n, grants k n = true) → outs s = [] →
  chunk_meta_path 512 dir ino = inr path → now s !! path = Some (mk_file (image cs ino) syn) →
  ∃ cs2, chunk_store_load grants dir ino s = (Some cs2, s) ∧ same_store cs cs2.
Proof.
  intros Hinv Hex Hm Hino Hg Ho Hp Hf. unfold chunk_store_load, sys_open, sys_close, next_outcome.
  rewrite Hp, Ho, Hf. cbn [f_bytes].
  destruct (load_image grants cs ino s Hinv Hex Hm Hino Hg Ho) as (cs2 & -> & Hs).
  exists cs2. by rewrite Ho.
Qed.

(** ** When no call fails *)

Lemma put_good path bs s : outs s = [] → ∃ s', put path bs s = (0%Z, s') ∧ outs s' = [].
Proof.
  intros H. unfold put, sys_write, next_outcome. rewrite H, Z.eqb_refl. eexists. by split.
Qed.

Lemma put_loop_good path n item s :
  outs s = [] → ∃ s', put_loop path n item s = inl s' ∧ outs s' = [].
Proof.
  intros H. unfold put_loop.
  match goal with |- ∃ _, ?l = _ ∧ _ =>
    assert (Hl : match l with inl s' => outs s' = [] | inr _ => False end) end.
  { apply (for_break_ind (λ _ s', outs s' = []) (λ _, False)); [done|]. intros i s1 _ H1.
    by destruct (put_good path (item i) s1 H1) as (s2 & -> & H2). }
  destruct (for_break _ _ _ _) as [s'|]; [|done]. by exists s'.
Qed.

Lemma write_store_good cs tmp ino s :
  outs s = [] → ∃ s', write_store cs tmp ino s = (0%Z, s') ∧ outs s' = [].
Proof.
  intros H. unfold write_store.
  destruct (put_good tmp (header_bytes (store_header cs ino)) s H) as (s1 & -> & H1). cbn [Z.eqb negb].
  destruct (put_loop_good tmp (Z.to_nat (cs_high_water cs))
    (λ i, block_bytes (block_to_disk (rd zero_block (cs_blocks cs) i))) s1 H1) as (s2 & -> & H2).
  destruct (put_loop_good tmp (length (cs_escrows cs))
    (λ i, range_bytes (escrow_range_to_disk (rd zero_range (cs_escrows cs) i))) s2 H2)
    as (s3 & -> & H3).
  unfold sys_fdatasync, next_outcome. rewrite H3. eexists. by split.
Qed.

(** No more escrowed ranges than the index can hold. *)
Definition index_fits (cs : chunk_store) : Prop :=
  ∀ l, NoDup l → (∀ r, r ∈ l → held cs (cs_high_water cs) r) →
       (Z.of_nat (length l) <= CHUNK_STORE_MAX_ESCROWS)%Z.

Lemma refresh_good grants cs :
  store_inv cs → index_fits cs → (∀ k n, grants k n = true) →
  ∃ cs', chunk_store_refresh_escrows grants cs = (0%Z, cs').
Proof.
  intros Hinv Hfit Hg. destruct (chunk_store_refresh_escrows grants cs) as [r c] eqn:E.
  destruct (refresh_spec grants cs r c (inv_ok _ Hinv) E) as [_ [[_ He]|[-> _]]]; [|by exists c].
  destruct He as [[_ (x & (off & _ & Hf & <-) & Hv)]|[[_ (l & Hnd & Hl & Hn)]|[_ (n & _ & Hn)]]].
  - destruct (inv_custody _ Hinv off) as [Hv' _].
    { unfold in_escrow. unfold flagged in Hf. by rewrite Hf. }
    unfold range_valid in Hv. cbn in Hv. congruence.
  - specialize (Hfit l Hnd Hl). lia.
  - by rewrite Hg in Hn.
Qed.

Lemma persist_good grants cs dir ino s path :
  store_inv cs → cs_dirty cs = true → index_fits cs → (∀ k n, grants k n = true) → outs s = [] →
  chunk_meta_path 512 dir ino = inr path →
  ∃ cs' s', chunk_store_persist grants (Some cs) dir ino s = (0%Z, Some cs', s') ∧ outs s' = [].
Proof.
  intros Hinv Hd Hfit Hg Ho Hp. unfold chunk_store_persist. rewrite Hd. cbn [negb].
  destruct (refresh_good grants cs Hinv Hfit Hg) as (c & ->). cbn [Z.eqb negb].
  unfold ensure_chunks_dir. rewrite (dir_fits _ _ _ Hp).
  unfold sys_mkdir, next_outcome at 1. rewrite Ho. cbn [Z.eqb negb andb].
  rewrite Hp, (tmp_fits 512 _ _ ltac:(done) Hp). set (tmp := (path +:+ ".tmp")%string).
  destruct (sys_create tmp s) as [fd s1] eqn:E1.
  assert (H1 : fd = 0%Z ∧ outs s1 = [] ∧ now s1 !! tmp = Some (mk_file [] false)).
  { unfold sys_create, next_outcome in E1. rewrite Ho in E1. simplify_eq/=.
    by rewrite lookup_insert_eq. }
  destruct H1 as (-> & Ho1 & Hf). cbn [Z.ltb Z.compare].
  destruct (write_store_good c tmp ino s1 Ho1) as (s2 & E2 & Ho2). rewrite E2.
  unfold sys_close, next_outcome. rewrite Ho2. cbn [Z.eqb negb].
  destruct (write_store_frame c tmp ino s1 0 s2 (λ _, True) (λ _ _ _, I) I Hf E2) as [_ Hf2].
  unfold sys_rename, next_outcome. rewrite Ho2, (Hf2 eq_refl). cbn [Z.eqb negb].
  do 2 eexists. by split.
Qed.

(** ** The epoch record *)

(** As for the store, but the answer of [close] counts as well. *)
Lemma epoch_persist_spec dir e s path ret s' :
  chunk_mds_epoch_path 512 dir = inr path →
  chunk_mds_epoch_persist dir (Some e) s = (ret, s') →
  replaced path (path +:+ ".tmp") (epoch_bytes (epoch_record e)) ret s s'.
Proof.
  intros Hp. unfold chunk_mds_epoch_persist. fold (epoch_record e). rewrite Hp.
  assert (Ht : snprintf_fits 520 (path +:+ ".tmp") = inr (path +:+ ".tmp")%string).
  { destruct dir as [d|]; [|done]. by apply (tmp_fits 512 _ path) in Hp. }
  rewrite Ht. set (tmp := (path +:+ ".tmp")%string) in *.
  set (img := epoch_bytes (epoch_record e)). pose proof (untouched_ignores tmp (now s)) as HP.
  destruct (sys_create tmp s) as [r1 s1] eqn:E1.
  destruct (sys_create_frame tmp _ HP _ _ _ (λ q _, eq_refl) E1) as [Hv1 [[-> Hf]|[Hlt _]]].
  2: { destruct (Z.ltb_spec r1 0); [|lia]. intros [= <- <-]. apply stopped; [done|lia]. }
  cbn [Z.ltb Z.compare]. destruct (put tmp img s1) as [r2 s2] eqn:E2.
  destruct (put_frame tmp _ HP _ _ _ _ _ _ (visits_end _ _ _ Hv1) Hf E2) as [Hv2 Hf2].
  pose proof (visits_trans _ _ _ _ Hv1 Hv2) as Hv12.
  destruct (Z.eqb_spec r2 0) as [Hr2|]; cbn [negb]; [|intros [= <- <-]; by apply closed].
  specialize (Hf2 Hr2). cbn [app] in Hf2. destruct (sys_fdatasync tmp s2) as [r3 s3] eqn:E3.
  destruct (sys_fdatasync_frame tmp _ HP _ _ _ _ _ (visits_end _ _ _ Hv2) Hf2 E3) as [Hv3 Hf3].
  pose proof (visits_trans _ _ _ _ Hv12 Hv3) as Hv13.
  destruct (Z.eqb_spec r3 0) as [Hr3|]; cbn [negb]; [|intros [= <- <-]; by apply closed].
  destruct (sys_close s3) as [r4 s4] eqn:E4.
  destruct (sys_close_frame _ _ _ _ (visits_end _ _ _ Hv3) E4) as [Hv4 Hn4].
  pose proof (visits_trans _ _ _ _ Hv13 Hv4) as Hv14.
  destruct (Z.eqb_spec r4 0) as [Hr4|]; cbn [negb]; [|intros [= <- <-]; by apply dropped].
  specialize (Hf3 Hr3). rewrite <-Hn4 in Hf3.
  destruct (sys_rename tmp path s4) as [r5 s5] eqn:E5.
  pose proof (renamed path tmp img s s4 r5 s5 Hv14 Hf3 E5) as H.
  destruct (Z.eqb_spec r5 0) as [->|Hr5]; cbn [negb]; by intros [= <- <-].
Qed.

Lemma epoch_load_back dir e path s syn :
  epoch_ok e → chunk_mds_epoch_path 512 dir = inr path → outs s = [] →
  now s !! path = Some (mk_file (epoch_bytes (epoch_record e)) syn) →
  chunk_mds_epoch_load dir s = (inr e, s).
Proof.
  intros He Hp Ho Hf. unfold chunk_mds_epoch_load, sys_open, sys_close, next_outcome.
  rewrite Hp, Ho, Hf. cbn [f_bytes]. rewrite sys_read_good by done.
  rewrite take_ge, length_epoch_bytes, epoch_back, Ho by (done || by rewrite length_epoch_bytes). done.
Qed.

End ChunkPersist.
