(* ===== verification/ChunkTheorems.v ===== *)
(** * The chunk store: what it promises

    Reachable stores, the lease sweep, the owner's block, the escrow index, crash
    safety of both files, round trips through them, and what loading checks. *)

From S2P Require Import Prelude.
From S2P Require Import Posix.
From S2P Require Import ChunkStore.
From S2P Require Import ChunkDisk.
From S2P Require Import ChunkCorrect.
From S2P Require Import ChunkSteps.
From S2P Require Import ChunkDiskCorrect.
From S2P Require Import Replace.
From S2P Require Import ChunkPersist.
From stdpp Require Import gmap strings pretty.
Import Posix ChunkStore ChunkDisk ChunkCorrect ChunkSteps ChunkDiskCorrect Replace ChunkPersist.

Module ChunkTheorems.

(** ** A concrete store *)

Definition all_granted : elem → Z → bool := λ _ _, true.

(** Written by client 9 and locked with an escrow identity over blocks 2 and 3. *)
Definition sample_block : chunk_block :=
  mk_block CHUNK_STATE_PENDING CHUNK_BLOCK_ESCROW 1 5 8 6 2 1 4 (zero_bytes CHUNK_VALUE_MAX)
    4096 9 0 UINT32_MAX 0 2 2 0 (zero_bytes CHUNK_LOCK_STATEID_SIZE)
    (replicate CHUNK_LOCK_ESCROW_ID_SIZE x07).

(** The same block without escrow. *)
Definition plain_block : chunk_block :=
  mk_block CHUNK_STATE_PENDING 0 1 5 8 6 2 1 4 (zero_bytes CHUNK_VALUE_MAX)
    4096 9 0 0 0 0 0 0 (zero_bytes CHUNK_LOCK_STATEID_SIZE) (zero_bytes CHUNK_LOCK_ESCROW_ID_SIZE).

Definition sample_store : chunk_store :=
  snd (chunk_exec all_granted (OpWrite 4 plain_block)
         (snd (chunk_exec all_granted (OpWrite 3 sample_block) fresh_store))).

Lemma sample_block_ok : block_ok sample_block.
Proof. by split. Qed.

Lemma plain_block_ok : block_ok plain_block.
Proof. by split. Qed.

Lemma sample_reachable : reachable all_granted sample_store.
Proof.
  apply reach_step; [apply reach_step; [constructor|]|].
  - split; [done|]. split; [apply sample_block_ok|]. split; [done|]. intros _. by vm_compute.
  - split; [done|]. split; [apply plain_block_ok|]. split; [done|]. intros H. by vm_compute in H.
Qed.

Lemma sample_inv : store_inv sample_store.
Proof. apply (reachable_inv all_granted), sample_reachable. Qed.

Definition sample_sys : sys := mk_sys ∅ [] [].

Lemma sample_path : chunk_meta_path 512 "s" 7 = inr "s/chunks/7.meta".
Proof. by vm_compute. Qed.

(** ** Reachable stores *)

(** C28: In every store that a sequence of writes, touches, transitions, rollbacks,
    sweeps, index rebuilds and clears reaches from a fresh one, whatever the
    allocator answers, the array has the recorded size, the high-water mark is in
    it, no block at or above the mark is occupied or in escrow, every field has its C
    width, every block is in one of the four states, and every block in escrow
    names a valid range below the mark. *)
Theorem chunk_store_invariant grants cs : reachable grants cs → store_inv cs.
Proof. apply reachable_inv. Qed.

Lemma chunk_store_invariant_witness : store_inv sample_store.
Proof. apply (chunk_store_invariant all_granted), sample_reachable. Defined.

(** ** The lease sweep *)

#[export] Instance block_eq_decision : EqDecision chunk_block.
Proof. solve_decision. Defined.

Lemma sweep_changes w b b' : sweep_one w b = Some b' → b' ≠ b.
Proof.
  unfold sweep_one. repeat case_if; try done; intros [= <-] He; bool_prop.
  - apply (f_equal cb_flags) in He. cbn [return_custody cb_flags] in He.
    pose proof (has_flag_lor (cb_flags b) CHUNK_BLOCK_ESCROW ltac:(done)) as Hf.
    rewrite He in Hf. congruence.
  - apply (f_equal cb_state) in He. cbn in He. by rewrite <-He in *.
Qed.

Definition is_changed (w : Z) (b : chunk_block) : bool := negb (bool_decide (swept w b = b)).

Lemma nswept_changed w l : nswept w l = Z.of_nat (length (List.filter (is_changed w) l)).
Proof.
  induction l as [|b l IH]; [done|]. cbn [nswept List.filter]. unfold is_changed at 1, swept.
  destruct (sweep_one w b) as [b'|] eqn:E; cbn [default from_option id].
  - rewrite bool_decide_eq_false_2 by (by eapply sweep_changes). cbn. lia.
  - rewrite bool_decide_eq_true_2 by done. cbn. lia.
Qed.

Lemma nswept_swept w l : nswept w (map (swept w) l) = 0%Z.
Proof. induction l as [|b l IH]; [done|]. cbn. by rewrite sweep_swept, IH. Qed.

Lemma swept_committed w b :
  cb_state b = CHUNK_STATE_COMMITTED →
  swept w b = b ∨ cb_writer_clientid b = w ∧ chunk_block_has_escrow_custody b = true ∧
                  swept w b = return_custody b.
Proof.
  intros Hs. unfold swept, sweep_one. rewrite Hs. cbn [Z.eqb orb].
  destruct (Z.eqb_spec (cb_writer_clientid b) w); cbn [negb]; [|by left].
  destruct (has_flag _ _); [by left|]. destruct (chunk_block_has_escrow_custody b); [by right|by left].
Qed.

(** C29: When a writer's lease expires the sweep leaves every other writer's blocks
    as they were.  A committed block stays committed and as it was, unless the
    writer holds it under an escrow it adopted: then its lock and flags, and its
    writer, go back to the metadata server and its payload stays.  None of the
    writer's blocks is left pending or finalized unless the metadata server holds
    it in escrow.  The sweep returns how many blocks it changed and marks the store
    dirty if there are any; a second sweep changes nothing. *)
Theorem chunk_lease_sweep cs w n cs' :
  store_ok cs → chunk_store_rollback_for_client (Some cs) w = (n, Some cs') →
  (∀ i, cb_writer_clientid (blk_at cs i) ≠ w → blk_at cs' i = blk_at cs i) ∧
  (∀ i, cb_state (blk_at cs i) = CHUNK_STATE_COMMITTED →
        cb_state (blk_at cs' i) = CHUNK_STATE_COMMITTED ∧
        (blk_at cs' i = blk_at cs i ∨
         cb_writer_clientid (blk_at cs i) = w ∧ chunk_block_has_escrow_custody (blk_at cs i) = true ∧
         blk_at cs' i = return_custody (blk_at cs i))) ∧
  (∀ i, cb_writer_clientid (blk_at cs' i) = w →
        has_flag (cb_flags (blk_at cs' i)) CHUNK_BLOCK_ESCROW = false →
        cb_state (blk_at cs' i) ≠ CHUNK_STATE_PENDING ∧
        cb_state (blk_at cs' i) ≠ CHUNK_STATE_FINALIZED) ∧
  n = Z.of_nat (length (List.filter (is_changed w) (cs_blocks cs))) ∧
  cs_dirty cs' = ((0 <? n)%Z || cs_dirty cs) ∧
  fst (chunk_store_rollback_for_client (Some cs') w) = 0%Z.
Proof.
  intros Hok. cbn. destruct (sweep_store cs w) as [n0 c] eqn:E. intros [= -> ->].
  destruct (sweep_store_spec _ _ _ _ Hok E) as (Hn & Hok' & _ & Hd & Hat).
  split; [intros i Hi; rewrite Hat; by apply swept_other|].
  split.
  { intros i Hi. rewrite Hat. split; [rewrite <-Hi; apply swept_keeps; by left|by apply swept_committed]. }
  split; [intros i; rewrite Hat; apply swept_released|].
  split; [by rewrite <-nswept_changed|]. split; [done|].
  destruct (sweep_store cs' w) as [n2 c2] eqn:E2. cbn.
  destruct (sweep_store_spec _ _ _ _ Hok' E2) as (-> & _).
  replace (cs_blocks cs') with (map (swept w) (cs_blocks cs)); [apply nswept_swept|].
  pose proof (ok_length _ Hok). pose proof (ok_length _ Hok').
  assert (cs_nblocks cs' = cs_nblocks cs) as Hnb
    by (unfold sweep_store in E; destruct (for_range _ _ _ _); by simplify_eq/=).
  apply (rd_ext zero_block); [rewrite length_map; lia|]. rewrite length_map. intros i Hi.
  specialize (Hat (Z.of_nat i)). unfold blk_at in Hat. rewrite Nat2Z.id in Hat.
  by rewrite Hat, (rd_map zero_block).
Qed.

Lemma chunk_lease_sweep_witness :
  ∃ cs', chunk_store_rollback_for_client (Some sample_store) 9 = (1%Z, Some cs') ∧
         fst (chunk_store_rollback_for_client (Some cs') 9) = 0%Z.
Proof.
  destruct (chunk_store_rollback_for_client (Some sample_store) 9) as [n [cs'|]] eqn:E;
    [|by vm_compute in E].
  exists cs'. assert (n = 1%Z) as -> by (vm_compute in E; congruence). split; [done|].
  apply (chunk_lease_sweep sample_store 9 1 cs' (inv_ok _ sample_inv) E).
Defined.

(** ** The owner's block *)

(** A state transition and a rollback act on one block only: the first written
    block of the owner among the requested offsets that lie in the store.  The
    transition moves it if it is in the expected state and fails otherwise; the
    rollback empties it if it is pending or finalized and refuses a committed one;
    without such a block both fail.  A failure changes nothing. *)
Theorem chunk_owner_block cs offset count cohort_id client_id owner_id from_state to_state :
  store_ok cs → in_width 64 offset → in_width 32 count →
  let found := owners_block cs offset count cohort_id client_id owner_id in
  let put off st := set_blocks cs (wr (cs_blocks cs) (Z.to_nat off)
                                     (set_cb_state (blk_at cs off) st)) true in
  chunk_store_transition cs offset count cohort_id client_id owner_id from_state to_state
  = match found with
    | Some off => if (cb_state (blk_at cs off) =? from_state)%Z then (0%Z, put off to_state)
                  else ((- EINVAL)%Z, cs)
    | None => ((- EINVAL)%Z, cs)
    end ∧
  chunk_store_rollback cs offset count cohort_id client_id owner_id
  = match found with
    | Some off =>
        if (cb_state (blk_at cs off) =? CHUNK_STATE_PENDING)%Z
           || (cb_state (blk_at cs off) =? CHUNK_STATE_FINALIZED)%Z
        then (0%Z, put off CHUNK_STATE_EMPTY)
        else if (cb_state (blk_at cs off) =? CHUNK_STATE_COMMITTED)%Z then ((- ENOTSUP)%Z, cs)
        else ((- EINVAL)%Z, cs)
    | None => ((- EINVAL)%Z, cs)
    end.
Proof.
  intros Hok Hoff [Hc _]. split; [by apply transition_search|by apply rollback_search].
Qed.

Lemma chunk_owner_block_witness :
  owners_block sample_store 0 10 8 5 6 = Some 3%Z ∧
  fst (chunk_store_transition sample_store 0 10 8 5 6 CHUNK_STATE_PENDING CHUNK_STATE_FINALIZED)
  = 0%Z.
Proof.
  assert (E : owners_block sample_store 0 10 8 5 6 = Some 3%Z) by (by vm_compute).
  split; [done|].
  destruct (chunk_owner_block sample_store 0 10 8 5 6 CHUNK_STATE_PENDING CHUNK_STATE_FINALIZED
    (inv_ok _ sample_inv) ltac:(done) ltac:(done)) as [Ht _].
  rewrite Ht, E. by vm_compute.
Defined.

(** ** The escrow index *)

(** C35: Rebuilding the escrow index succeeds with an index that answers exactly
    whether some block below the high-water mark is flagged as escrowed with that
    range, each range once; or it fails, the store is unchanged, and the error
    tells which of the reasons holds: an invalid range, more than 4096 distinct
    ones, or a refused allocation. *)
Theorem chunk_escrow_index grants cs ret cs' :
  store_inv cs → chunk_store_refresh_escrows grants cs = (ret, cs') →
  ret = 0%Z ∧ same_data cs cs' ∧ NoDup (cs_escrows cs') ∧
    (∀ offset count id,
       chunk_store_has_escrow (Some cs') offset count id = true ↔
       held cs (cs_high_water cs) (mk_range offset count id)) ∨
  ret ≠ 0%Z ∧ cs' = cs ∧ index_error grants cs ret.
Proof.
  intros Hinv E. destruct (refresh_exact grants cs ret cs' Hinv E) as (Hs & _ & _ & Hex).
  destruct (refresh_spec grants cs ret cs' (inv_ok _ Hinv) E)
    as [_ [[-> He]|[-> (Hnd & Hin & Hv & _)]]].
  - right. split; [|done]. by destruct He as [[-> _]|[[-> _]|[-> _]]].
  - left. split; [done|]. split; [done|]. split; [done|]. intros offset count id.
    pose proof (ok_high _ (inv_ok _ Hinv)). cbn [fst] in *. rewrite Z2Nat.id in * by lia.
    cbn [chunk_store_has_escrow].
    destruct (escrow_range_valid offset count id) eqn:Hval; cbn [negb].
    + by rewrite existsb_range, Hin.
    + split; [done|]. intros Hh. apply Hv in Hh. unfold range_valid in Hh. cbn in Hh. congruence.
Qed.

Lemma chunk_escrow_index_witness :
  ∃ cs', chunk_store_refresh_escrows all_granted sample_store = (0%Z, cs') ∧
         chunk_store_has_escrow (Some cs') 2 2 (replicate CHUNK_LOCK_ESCROW_ID_SIZE x07) = true.
Proof.
  destruct (chunk_store_refresh_escrows all_granted sample_store) as [ret cs'] eqn:E.
  assert (ret = 0%Z) as -> by (vm_compute in E; congruence).
  exists cs'. split; [done|].
  destruct (chunk_escrow_index all_granted sample_store 0 cs' sample_inv E)
    as [(_ & _ & _ & H)|[H _]]; [|done].
  apply H. exists 3%Z. split; [by vm_compute|]. by split.
Defined.

(** ** Crashes *)

(** C11: Persisting a store whose high-water mark is within the limit of 1048576
    blocks, whatever its system calls answer.  A crash at any point, in which a
    rename may or may not have reached the disk, leaves the metadata file as it was
    at some moment before the call, or, only if the call succeeds, a file that
    loads as the store that was persisted; when the call has succeeded and its
    rename is on disk it is the latter.  No other file but the temporary one is
    ever touched. *)
Theorem chunk_persist_crash_safe grants cs dir ino s path ret ocs s' :
  store_inv cs → cs_dirty cs = true → (cs_high_water cs <= CHUNK_STORE_MAX_BLOCKS)%Z →
  in_width 64 ino → chunk_meta_path 512 dir ino = inr path →
  (∀ fs f, fs ∈ now s :: past s → fs !! path = Some f → f_synced f = true) →
  chunk_store_persist grants (Some cs) dir ino s = (ret, ocs, s') →
  let loads fs' := ret = 0%Z ∧ ∃ cs', ocs = Some cs' ∧ ∃ cs2,
    chunk_store_load all_granted dir ino (mk_sys fs' [] []) = (Some cs2, mk_sys fs' [] []) ∧
    same_store cs' cs2 ∧
    ∀ i, (0 <= i < cs_high_water cs)%Z → blk_at cs2 i = blk_at cs i in
  (∀ hist fs', during s s' hist → after_crash hist fs' →
     (∃ fs, fs ∈ now s :: past s ∧ fs' !! path = fs !! path) ∨ loads fs') ∧
  (∀ fs', ret = 0%Z → after_crash [now s'] fs' → loads fs') ∧
  visits (λ fs, ∀ q, q ≠ path → q ≠ (path +:+ ".tmp")%string → fs !! q = now s !! q) s s'.
Proof.
  intros Hinv Hd Hm Hino Hp Hsync E loads.
  destruct (persist_spec _ _ _ _ _ _ _ _ _ Hinv Hd Hp E)
    as (cs' & Hocs & (Hb & _ & Hh & _) & Hinv' & Hrep & Hclean & _).
  assert (Hload : ∀ fs', ret = 0%Z → fs' !! path = Some (mk_file (image cs' ino) true) → loads fs').
  { intros fs' Hr Hf. split; [done|]. exists cs'. split; [done|]. destruct (Hclean Hr) as [_ Hex].
    destruct (load_persisted all_granted cs' dir ino path (mk_sys fs' [] []) true)
      as (cs2 & HE & Hs); [done|done|lia|done|done|done|done|done|].
    exists cs2. split; [done|]. split; [done|]. intros i Hi. rewrite (same_blocks _ _ Hs) by lia.
    unfold blk_at. by rewrite Hb. }
  pose proof (tmp_ne path) as Hne. split_and!.
  - intros hist fs' Hdur Hcr.
    destruct (crash_replaced _ _ _ _ _ _ _ _ Hne Hsync Hrep Hdur Hcr) as [?|[Hr Hf]]; [by left|].
    right. by apply Hload.
  - intros fs' Hr Hcr. apply Hload; [done|]. destruct Hrep as [(_ & _ & Hnew)|[? _]]; [|done].
    by eapply crash_now.
  - destruct Hrep as [(_ & Hv & _)|[_ Hv]]; (eapply visits_mono; [|exact Hv]); intros fs Hfs q Hq1 Hq2.
    + by destruct (Hfs q Hq2) as [?|[? _]].
    + by apply Hfs.
Qed.

Lemma chunk_persist_crash_safe_witness :
  ∃ ocs s' cs2, chunk_store_persist all_granted (Some sample_store) "s" 7 sample_sys = (0%Z, ocs, s') ∧
    chunk_store_load all_granted "s" 7 (mk_sys (now s') [] []) = (Some cs2, mk_sys (now s') [] []) ∧
    ∀ i, (0 <= i < 5)%Z → blk_at cs2 i = blk_at sample_store i.
Proof.
  destruct (chunk_store_persist all_granted (Some sample_store) "s" 7 sample_sys)
    as [[ret ocs] s'] eqn:E.
  assert (ret = 0%Z) as -> by (vm_compute in E; congruence).
  destruct (chunk_persist_crash_safe all_granted sample_store "s" 7 sample_sys "s/chunks/7.meta"
    0 ocs s') as (_ & H & _);
    [apply sample_inv|by vm_compute|by vm_compute|done|apply sample_path| |done|].
  { intros fs f [->|[]%not_elem_of_nil]%elem_of_cons Hf. discriminate Hf. }
  destruct (H (now s') eq_refl (crash_refl _ _)) as (_ & cs' & _ & cs2 & Hl & _ & Hb).
  exists ocs, s', cs2. split; [done|]. split; [done|]. exact Hb.
Defined.

(** ** Round trips *)

Lemma load_ok grants dir ino s cs s' :
  chunk_store_load grants dir ino s = (Some cs, s') →
  store_ok cs ∧ (cs_high_water cs <= CHUNK_STORE_MAX_BLOCKS)%Z ∧ cs_dirty cs = false ∧
  ∀ r, r ∈ cs_escrows cs → (cer_offset r + cer_count r <= cs_high_water cs)%Z.
Proof.
  unfold chunk_store_load. destruct (chunk_meta_path 512 dir ino) as [|path]; [done|].
  destruct (sys_open path s) as [[|fd] s1]; [done|].
  destruct (load_store grants ino fd s1) as [ocs s2] eqn:E. intros [= -> _].
  by apply load_store_ok in E.
Qed.

(** C21: When no system call and no allocation fails, a store whose high-water mark
    and number of escrows are within the limits is persisted, and loading it again
    gives a store with the same parameters in which every lookup and every escrow
    query answers as the blocks of the first one say. *)
Theorem chunk_persist_load grants cs dir ino s path :
  store_inv cs → cs_dirty cs = true → (cs_high_water cs <= CHUNK_STORE_MAX_BLOCKS)%Z →
  index_fits cs → (∀ k n, grants k n = true) → outs s = [] → in_width 64 ino →
  chunk_meta_path 512 dir ino = inr path →
  ∃ cs' s' cs2,
    chunk_store_persist grants (Some cs) dir ino s = (0%Z, Some cs', s') ∧
    chunk_store_load grants dir ino s' = (Some cs2, s') ∧
    cs_high_water cs2 = cs_high_water cs ∧ cs_chunk_size cs2 = cs_chunk_size cs ∧
    cs_checksum_algorithm cs2 = cs_checksum_algorithm cs ∧ cs_dirty cs2 = false ∧
    (∀ off, (0 <= off)%Z →
       chunk_store_lookup (Some cs2) off = chunk_store_lookup (Some cs) off) ∧
    (∀ offset count id,
       chunk_store_has_escrow (Some cs2) offset count id = true ↔
       held cs (cs_high_water cs) (mk_range offset count id)).
Proof.
  intros Hinv Hd Hm Hfit Hg Ho Hino Hp.
  destruct (persist_good grants cs dir ino s path Hinv Hd Hfit Hg Ho Hp) as (cs' & s' & E & Ho').
  destruct (persist_spec _ _ _ _ _ _ _ _ _ Hinv Hd Hp E)
    as (c & [= <-] & (Hb & _ & Hh & Hsz & Ha) & Hinv' & [(_ & _ & Hf)|[? _]] & Hclean & _); [|done].
  destruct (Hclean eq_refl) as [_ Hex].
  destruct (load_persisted grants cs' dir ino path s' true Hinv' Hex) as (cs2 & E2 & Hs);
    [lia|done|done|done|done|done|].
  pose proof (load_ok _ _ _ _ _ _ E2) as (Hok2 & _ & Hd2 & _). exists cs', s', cs2.
  split; [done|]. split; [done|].
  rewrite (same_high _ _ Hs), (same_size _ _ Hs), (same_algorithm _ _ Hs).
  do 4 (split; [done|]).
  assert (Hat : ∀ i, blk_at cs' i = blk_at cs i) by (intros i; unfold blk_at; by rewrite Hb).
  split.
  - intros off Hoff. rewrite (same_store_lookup cs' cs2) by (done || apply Hinv').
    rewrite !lookup_occupied, Hat by (done || apply Hinv || apply Hinv'). done.
  - intros offset count id. rewrite <-(has_escrow_proper cs' cs2 Hs _ _ eq_refl _ _ eq_refl _ _ eq_refl).
    assert (Hheld : held cs (cs_high_water cs) (mk_range offset count id)
                    ↔ held cs' (cs_high_water cs') (mk_range offset count id)).
    { unfold held, blk_at. by rewrite Hb, Hh. }
    rewrite Hheld, <-(Hex (mk_range offset count id)). cbn [chunk_store_has_escrow].
    destruct (escrow_range_valid offset count id) eqn:Hv; cbn [negb].
    + by rewrite existsb_range.
    + split; [done|]. intros Hr. pose proof (ok_escrows _ (inv_ok _ Hinv')) as Hf'.
      rewrite list.Forall_forall in Hf'. destruct (Hf' _ Hr) as [_ _ _ Hv']. cbn in Hv'. congruence.
Qed.

(** Two escrowed blocks at most, since only block 3 of the sample is escrowed. *)
Lemma sample_fits : index_fits sample_store.
Proof.
  intros l Hnd Hl.
  assert (Hone : ∀ r, r ∈ l → r = block_range sample_block).
  { intros r Hr. destruct (Hl r Hr) as (off & Hoff & Hf & <-).
    assert (Hoff' : (0 <= off < 5)%Z) by (by vm_compute in Hoff).
    assert (Hc : (off = 0 ∨ off = 1 ∨ off = 2 ∨ off = 3 ∨ off = 4)%Z) by lia.
    destruct Hc as [->|[->|[->|[->| ->]]]]; by vm_compute in Hf. }
  destruct l as [|a [|b l]]; [done|done|]. exfalso.
  apply list.NoDup_cons in Hnd as [Hn _]. apply Hn.
  rewrite (Hone a), (Hone b) by (by repeat constructor). constructor.
Qed.

Lemma chunk_persist_load_witness :
  ∃ cs' s' cs2,
    chunk_store_persist all_granted (Some sample_store) "s" 7 sample_sys = (0%Z, Some cs', s') ∧
    chunk_store_load all_granted "s" 7 s' = (Some cs2, s') ∧ cs_high_water cs2 = 5%Z.
Proof.
  destruct (chunk_persist_load all_granted sample_store "s" 7 sample_sys "s/chunks/7.meta")
    as (cs' & s' & cs2 & H1 & H2 & H3 & _);
    [apply sample_inv|by vm_compute|by vm_compute|apply sample_fits|done|done|done|apply sample_path|].
  exists cs', s', cs2. split; [done|]. split; [done|]. rewrite H3. by vm_compute.
Defined.

(** C31: Whatever bytes the metadata file holds and whatever the reads answer, a
    store that loading returns has an array of the recorded size within the
    limits, idle blocks above the high-water mark, fields of their C width, a
    checksum length within its buffer, and only valid escrow ranges below the
    mark. *)
Theorem chunk_load_wellformed grants dir ino s cs s' :
  chunk_store_load grants dir ino s = (Some cs, s') →
  store_ok cs ∧ (cs_high_water cs <= CHUNK_STORE_MAX_BLOCKS)%Z ∧ cs_dirty cs = false ∧
  ∀ r, r ∈ cs_escrows cs → (cer_offset r + cer_count r <= cs_high_water cs)%Z.
Proof. apply load_ok. Qed.

(** A file that holds the image of a fresh store. *)
Definition fresh_sys : sys :=
  mk_sys {[ "s/chunks/7.meta"%string := mk_file (image fresh_store 7) true ]} [] [].

Lemma chunk_load_wellformed_witness :
  ∃ cs, chunk_store_load all_granted "s" 7 fresh_sys = (Some cs, fresh_sys) ∧ store_ok cs.
Proof.
  destruct (chunk_store_load all_granted "s" 7 fresh_sys) as [[cs|] s'] eqn:E; [|by vm_compute in E].
  exists cs. split; [|by apply (chunk_load_wellformed _ _ _ _ _ _ E)].
  f_equal. by vm_compute in E; simplify_eq.
Defined.

(** ** The limit *)

Lemma load_over_limit grants cs ino s :
  store_ok cs → in_width 64 ino → outs s = [] → (CHUNK_STORE_MAX_BLOCKS < cs_high_water cs)%Z →
  fst (load_store grants ino (image cs ino) s) = None.
Proof.
  intros Hok Hino Ho Hm. unfold load_store, image.
  rewrite read_item by (done || apply length_header_bytes).
  rewrite header_back by (by apply header_of_store). unfold header_bad, store_header.
  cbn [csh_magic csh_version csh_nblocks csh_inode_ino csh_chunk_size csh_checksum_algorithm
       csh_escrow_count csh_escrow_record_size].
  destruct (Z.ltb_spec CHUNK_STORE_MAX_BLOCKS (cs_high_water cs)); [|lia].
  by rewrite orb_true_r, !orb_true_l.
Qed.

(** A block that is not in escrow adds nothing to the index. *)
Lemma write_fits grants cs off blk ret cs' :
  store_ok cs → (0 <= off)%Z → block_ok blk → in_escrow blk = false → index_fits cs →
  chunk_store_write grants cs off blk = (ret, cs') → index_fits cs'.
Proof.
  intros Hok Hoff Hb Hne Hfit E.
  destruct (write_spec grants cs off blk ret cs' Hok Hoff Hb E) as [[_ ->]|(_ & Hok' & _ & _ & Hat)]; [done|].
  intros l Hnd Hl. apply Hfit; [done|]. intros r Hr. destruct (Hl r Hr) as (i & Hi & Hf & He).
  unfold flagged in Hf. unfold in_escrow in Hne. apply orb_false_iff in Hne as [Hne _].
  rewrite Hat in Hf, He by lia. destruct (Z.eqb_spec i off) as [->|_]; [congruence|].
  exists i. split; [|done]. split; [lia|]. destruct (Z.lt_ge_cases i (cs_high_water cs)) as [|Hge]; [done|].
  destruct (ok_above _ Hok i Hge) as [_ Hidle]. unfold in_escrow in Hidle. by rewrite Hf in Hidle.
Qed.

(** C38: A write at the offset equal to the limit of 1048576 blocks is accepted and,
    when nothing fails, the store is persisted with it; but the file is refused
    when it is loaded again: the inode comes back with a fresh store, and every
    block that was in the file is gone. *)
Theorem chunk_write_at_limit_lost grants cs blk ino dir path s :
  store_inv cs → index_fits cs → block_ok blk → state_ok blk → in_escrow blk = false →
  (∀ k n, grants k n = true) → outs s = [] → in_width 64 ino → chunk_meta_path 512 dir ino = inr path →
  ∃ cs1 cs2 s2,
    chunk_store_write grants cs CHUNK_STORE_MAX_BLOCKS blk = (0%Z, cs1) ∧
    (∀ i, (0 <= i)%Z →
       blk_at cs1 i = if (i =? CHUNK_STORE_MAX_BLOCKS)%Z then blk else blk_at cs i) ∧
    chunk_store_persist grants (Some cs1) dir ino s = (0%Z, Some cs2, s2) ∧
    fst (chunk_store_get grants None ino (Some dir) s2) = Some fresh_store.
Proof.
  intros Hinv Hfit Hb Hst Hne Hg Ho Hino Hp. pose proof (inv_ok _ Hinv) as Hok.
  destruct (chunk_store_write grants cs CHUNK_STORE_MAX_BLOCKS blk) as [ret cs1] eqn:E.
  pose proof (exec_inv grants (OpWrite CHUNK_STORE_MAX_BLOCKS blk) cs Hinv) as Hinv1.
  cbn [chunk_exec op_ok] in Hinv1. rewrite E in Hinv1. cbn [snd] in Hinv1.
  pose proof (write_fits grants cs CHUNK_STORE_MAX_BLOCKS blk ret cs1 Hok ltac:(done) Hb Hne Hfit E) as Hfit1.
  destruct (write_spec grants cs CHUNK_STORE_MAX_BLOCKS blk ret cs1 Hok ltac:(done) Hb E)
    as [[-> ->]|(-> & Hok1 & Hd & Hh & Hat)].
  { exfalso. unfold chunk_store_write, chunk_store_room, chunk_store_grow in E.
    rewrite Z.ltb_irrefl, !Hg in E. by destruct (_ <=? _)%Z. }
  assert (Hinv2 : store_inv cs1) by (apply Hinv1; split_and!; try done; congruence).
  destruct (persist_good grants cs1 dir ino s path Hinv2 Hd Hfit1 Hg Ho Hp) as (cs2 & s2 & Ep & Ho2).
  exists cs1, cs2, s2. do 3 (split; [done|]).
  destruct (persist_spec _ _ _ _ _ _ _ _ _ Hinv2 Hd Hp Ep)
    as (c & [= <-] & (_ & _ & Hh2 & _) & [Hok2 _ _] & [(_ & _ & Hf)|[? _]] & _); [|done].
  pose proof (load_over_limit grants cs2 ino s2 Hok2 Hino Ho2 ltac:(lia)) as Hl.
  unfold chunk_store_get, chunk_store_load, sys_open, next_outcome. rewrite Ho2, Hp, Hf. cbn [f_bytes].
  destruct (load_store grants ino (image cs2 ino) s2) as [ocs s3]. cbn [fst] in Hl. subst ocs.
  by rewrite !Hg.
Qed.

Lemma chunk_write_at_limit_lost_witness :
  ∃ cs1 cs2 s2,
    chunk_store_write all_granted sample_store CHUNK_STORE_MAX_BLOCKS plain_block = (0%Z, cs1) ∧
    chunk_store_persist all_granted (Some cs1) "s" 7 sample_sys = (0%Z, Some cs2, s2) ∧
    fst (chunk_store_get all_granted None 7 (Some "s"%string) s2) = Some fresh_store.
Proof.
  destruct (chunk_write_at_limit_lost all_granted sample_store plain_block 7 "s" "s/chunks/7.meta" sample_sys)
    as (cs1 & cs2 & s2 & H1 & _ & H2 & H3);
    [apply sample_inv|apply sample_fits|apply plain_block_ok|done|done|done|done|done|apply sample_path|].
  by exists cs1, cs2, s2.
Defined.

(** ** The epoch record *)

(** A crash at any point of replacing the metadata server's epoch record leaves the
    record as it was at some moment before, or, only if the call succeeds, one that
    loads as the new epoch; when the call has succeeded and its rename is on disk
    it is the latter. *)
Theorem chunk_epoch_crash_safe dir e s path ret s' :
  epoch_ok e → chunk_mds_epoch_path 512 dir = inr path →
  (∀ fs f, fs ∈ now s :: past s → fs !! path = Some f → f_synced f = true) →
  chunk_mds_epoch_persist dir (Some e) s = (ret, s') →
  let loads fs' := ret = 0%Z ∧ fst (chunk_mds_epoch_load dir (mk_sys fs' [] [])) = inr e in
  (∀ hist fs', during s s' hist → after_crash hist fs' →
     (∃ fs, fs ∈ now s :: past s ∧ fs' !! path = fs !! path) ∨ loads fs') ∧
  (∀ fs', ret = 0%Z → after_crash [now s'] fs' → loads fs').
Proof.
  intros He Hp Hsync E loads.
  assert (Hload : ∀ fs', ret = 0%Z →
            fs' !! path = Some (mk_file (epoch_bytes (epoch_record e)) true) → loads fs').
  { intros fs' Hr Hf. split; [done|].
    by rewrite (epoch_load_back dir e path (mk_sys fs' [] []) true He Hp eq_refl Hf). }
  pose proof (epoch_persist_spec _ _ _ _ _ _ Hp E) as Hrep. split.
  - intros hist fs' Hdur Hcr.
    destruct (crash_replaced _ _ _ _ _ _ _ _ (tmp_ne path) Hsync Hrep Hdur Hcr) as [?|[Hr Hf]]; [by left|].
    right. by apply Hload.
  - intros fs' Hr Hcr. apply Hload; [done|]. destruct Hrep as [(_ & _ & Hnew)|[? _]]; [|done].
    by eapply crash_now.
Qed.

Lemma chunk_epoch_crash_safe_witness :
  ∃ s', chunk_mds_epoch_persist (Some "s"%string) (Some (mk_epoch 3 4 5)) sample_sys = (0%Z, s') ∧
        fst (chunk_mds_epoch_load (Some "s"%string) (mk_sys (now s') [] [])) = inr (mk_epoch 3 4 5).
Proof.
  destruct (chunk_mds_epoch_persist (Some "s"%string) (Some (mk_epoch 3 4 5)) sample_sys)
    as [ret s'] eqn:E.
  assert (ret = 0%Z) as -> by (vm_compute in E; congruence). exists s'. split; [done|].
  apply (chunk_epoch_crash_safe (Some "s"%string) (mk_epoch 3 4 5) sample_sys "s/chunk_mds_epoch" 0 s');
    [by split|by vm_compute| |done|done|apply crash_refl].
  intros fs f [->|[]%not_elem_of_nil]%elem_of_cons Hf. discriminate Hf.
Defined.

End ChunkTheorems.
