(* ===== verification/Utf8.v ===== *)
(** * UTF-8 strings of the protocol ([src/lib/utils/utf8string.c])

    A [utf8string] is a length and a buffer, which may be absent.  A pointer to one
    that may be [NULL] is an option; what a call writes through [dst] is part of its
    result.  [calloc] is a predicate on the size asked for.  Pointers into the
    buffer are the bytes from there to the end. *)

From S2P Require Import Prelude.

Module Utf8.

Definition ERANGE : Z := 34.
Definition ENAMETOOLONG : Z := 36.
Definition EBADNAME : Z := 1024 + 4.

Record utf8string := mk_utf8 {
  utf8string_len : Z;
  utf8string_val : option (list byte);
}.

Definition utf8_null : utf8string := mk_utf8 0 None.

(** The string's own bytes, without the pad. *)
Definition utf8_bytes (u : utf8string) : list byte :=
  match utf8string_val u with
  | Some v => take (Z.to_nat (utf8string_len u)) v
  | None => []
  end.

(** ** Lifecycle *)

Definition utf8string_alloc (grants : Z → bool) (u : utf8string) (len : Z) : Z * utf8string :=
  if grants (len + 1)%Z then (0%Z, mk_utf8 len (Some (replicate (Z.to_nat (len + 1)) x00)))
  else ((- ENOMEM)%Z, u).

Definition utf8string_free (u : utf8string) : utf8string := utf8_null.

(** [memcpy] of the first [len] bytes into a fresh buffer. *)
Definition alloc_copy (grants : Z → bool) (dst : utf8string) (len : Z) (src : list byte)
    : Z * utf8string :=
  let '(rc, dst) := utf8string_alloc grants dst len in
  if negb (rc =? 0)%Z then (rc, dst)
  else
    match utf8string_val dst with
    | Some v => (0%Z, mk_utf8 (utf8string_len dst) (Some (splice 0 (take (Z.to_nat len) src) v)))
    | None => (0%Z, dst)
    end.

Definition utf8string_from_wire (grants : Z → bool) (dst : utf8string) (wire : option utf8string)
    : Z * utf8string :=
  let dst := utf8string_free dst in
  match wire with
  | None => (0%Z, dst)
  | Some wire =>
      if (utf8string_len wire =? 0)%Z then (0%Z, dst)
      else
        match utf8string_val wire with
        | None => ((- EINVAL)%Z, dst)
        | Some v => alloc_copy grants dst (utf8string_len wire) v
        end
  end.

(** ** Validation *)

Definition utf8_sequence_len (b : byte) : nat :=
  if (bz b <? 0x80)%Z then 1
  else if (bz b <? 0xC0)%Z then 0
  else if (bz b <? 0xE0)%Z then 2
  else if (bz b <? 0xF0)%Z then 3
  else if (bz b <? 0xF8)%Z then 4
  else 0.

Definition low (b : byte) (mask : Z) : Z := Z.land (bz b) mask.
Definition at_ (p : list byte) (i : nat) : byte := rd x00 p i.

(** The [switch] on the sequence length: the code point, unless it is refused. *)
Definition decode_cp (seqlen : nat) (p : list byte) : option Z :=
  match seqlen with
  | 1%nat => Some (low (at_ p 0) 0x7F)
  | 2%nat =>
      let cp := Z.lor (Z.shiftl (low (at_ p 0) 0x1F) 6) (low (at_ p 1) 0x3F) in
      if (cp <? 0x80)%Z then None else Some cp
  | 3%nat =>
      let cp := Z.lor (Z.lor (Z.shiftl (low (at_ p 0) 0x0F) 12) (Z.shiftl (low (at_ p 1) 0x3F) 6))
                      (low (at_ p 2) 0x3F) in
      if (cp <? 0x800)%Z then None
      else if (0xD800 <=? cp)%Z && (cp <=? 0xDFFF)%Z then None
      else if (cp =? 0xFFFE)%Z || (cp =? 0xFFFF)%Z then None
      else Some cp
  | _ =>
      let cp := Z.lor (Z.lor (Z.lor (Z.shiftl (low (at_ p 0) 0x07) 18)
                                    (Z.shiftl (low (at_ p 1) 0x3F) 12))
                             (Z.shiftl (low (at_ p 2) 0x3F) 6))
                      (low (at_ p 3) 0x3F) in
      if (cp <? 0x10000)%Z then None else if (0x10FFFF <? cp)%Z then None else Some cp
  end.

(** One turn of the scan at [p]: the code point and the length of its sequence. *)
Definition decode_seq (p : list byte) : option (Z * nat) :=
  let seqlen := utf8_sequence_len (at_ p 0) in
  if (seqlen =? 0)%nat then None
  else if (length p <? seqlen)%nat then None
  else if negb (forallb (λ i, (low (at_ p i) 0xC0 =? 0x80)%Z) (seq 1 (seqlen - 1))) then None
  else
    match decode_cp seqlen p with
    | Some cp => Some (cp, seqlen)
    | None => None
    end.

Fixpoint validate_loop (fuel : nat) (p : list byte) : Z :=
  match fuel, p with
  | S fuel, _ :: _ =>
      match decode_seq p with
      | None => (- EILSEQ)%Z
      | Some (_, seqlen) => validate_loop fuel (drop seqlen p)
      end
  | _, _ => 0%Z
  end.

Definition utf8string_validate (u : option utf8string) : Z :=
  match u with
  | None => (- EINVAL)%Z
  | Some u =>
      if (utf8string_len u =? 0)%Z then 0%Z
      else
        match utf8string_val u with
        | None => (- EINVAL)%Z
        | Some _ => validate_loop (length (utf8_bytes u)) (utf8_bytes u)
        end
  end.

Definition utf8string_from_wire_validated (grants : Z → bool) (dst : utf8string)
    (wire : option utf8string) : Z * utf8string :=
  let '(rc, dst) := utf8string_from_wire grants dst wire in
  if negb (rc =? 0)%Z then (rc, dst)
  else
    let rc := utf8string_validate (Some dst) in
    if negb (rc =? 0)%Z then (rc, utf8string_free dst) else (0%Z, dst).

Definition utf8string_is_null (u : option utf8string) : bool :=
  match u with None => true | Some u => (utf8string_len u =? 0)%Z end.

(** [dst] and [src] are different objects. *)
Definition utf8string_copy (grants : Z → bool) (dst : utf8string) (src : option utf8string)
    : Z * utf8string :=
  let dst := utf8string_free dst in
  match src with
  | None => (0%Z, dst)
  | Some s =>
      if utf8string_is_null (Some s) then (0%Z, dst)
      else alloc_copy grants dst (utf8string_len s) (default [] (utf8string_val s))
  end.

Definition utf8string_move (dst src : utf8string) : utf8string * utf8string :=
  (mk_utf8 (utf8string_len src) (utf8string_val src), mk_utf8 0 None).

(** ** Comparison *)

(** [strncmp] and [strncasecmp]: up to [n] bytes, not past a terminator. *)
Fixpoint strncmp_by (f : byte → Z) (n : nat) (a b : list byte) : Z :=
  match n with
  | O => 0%Z
  | S n =>
      let x := at_ a 0 in
      let y := at_ b 0 in
      if negb (f x =? f y)%Z then (f x - f y)%Z
      else if (bz x =? 0)%Z then 0%Z
      else strncmp_by f n (drop 1 a) (drop 1 b)
  end.

(** [tolower] of the C locale. *)
Definition tolower (b : byte) : Z :=
  if (0x41 <=? bz b)%Z && (bz b <=? 0x5A)%Z then (bz b + 0x20)%Z else bz b.

Definition strncmp : nat → list byte → list byte → Z := strncmp_by bz.
Definition strncasecmp : nat → list byte → list byte → Z := strncmp_by tolower.

Definition utf8_val_or_empty (u : utf8string) : list byte := default [x00] (utf8string_val u).

(** The same pointer twice gives 0 by the test on pointers, and by the bytes. *)
Definition utf8_cmp (cmpfn : nat → list byte → list byte → Z) (a b : option utf8string) : Z :=
  match a, b with
  | None, None => 0%Z
  | None, Some _ => (- 1)%Z
  | Some _, None => 1%Z
  | Some a, Some b =>
      let minlen := if (utf8string_len a <? utf8string_len b)%Z then utf8string_len a
                    else utf8string_len b in
      let rc := cmpfn (Z.to_nat minlen) (utf8_val_or_empty a) (utf8_val_or_empty b) in
      if negb (rc =? 0)%Z then rc
      else if (utf8string_len a <? utf8string_len b)%Z then (- 1)%Z
      else if (utf8string_len b <? utf8string_len a)%Z then 1%Z
      else 0%Z
  end.

Definition utf8string_cmp := utf8_cmp strncmp.
Definition utf8string_casecmp := utf8_cmp strncasecmp.
Definition utf8string_eq (a b : option utf8string) : bool := (utf8string_cmp a b =? 0)%Z.
Definition utf8string_caseeq (a b : option utf8string) : bool := (utf8string_casecmp a b =? 0)%Z.

(** ** C strings *)

(** The bytes before the terminator. *)
Fixpoint strlen (s : list byte) : nat :=
  match s with
  | [] => O
  | b :: s => if (bz b =? 0)%Z then O else S (strlen s)
  end.

Definition cstr_to_utf8string (grants : Z → bool) (dst : utf8string) (cstr : option (list byte))
    : Z * utf8string :=
  let dst := utf8string_free dst in
  match cstr with
  | None => (0%Z, dst)
  | Some s =>
      if (bz (at_ s 0) =? 0)%Z then (0%Z, dst)
      else
        let len := Z.of_nat (strlen s) in
        if (UINT32_MAX <? len)%Z then ((- EINVAL)%Z, dst) else alloc_copy grants dst len s
  end.

Definition utf8_cmp_cstr (cmpfn : nat → list byte → list byte → Z) (u : option utf8string)
    (cstr : option (list byte)) : Z :=
  let cstr := default [x00] cstr in
  let clen := Z.of_nat (strlen cstr) in
  let ulen := match u with Some u => utf8string_len u | None => 0%Z end in
  let uval := match u with Some u => utf8_val_or_empty u | None => [x00] end in
  let rc := cmpfn (Z.to_nat (if (ulen <? clen)%Z then ulen else clen)) uval cstr in
  if negb (rc =? 0)%Z then rc
  else if (ulen <? u32w clen)%Z then (- 1)%Z
  else if (u32w clen <? ulen)%Z then 1%Z
  else 0%Z.

Definition utf8string_cmp_cstr := utf8_cmp_cstr strncmp.
Definition utf8string_casecmp_cstr := utf8_cmp_cstr strncasecmp.
Definition utf8string_eq_cstr (u : option utf8string) (cstr : option (list byte)) : bool :=
  (utf8string_cmp_cstr u cstr =? 0)%Z.
Definition utf8string_caseeq_cstr (u : option utf8string) (cstr : option (list byte)) : bool :=
  (utf8string_casecmp_cstr u cstr =? 0)%Z.

(** ** Numeric owners *)

Definition digit (d : Z) : byte := zb (0x30 + d).

(** [snprintf("%ju")]: the decimal digits, at most [fuel] of them. *)
Fixpoint decimal (fuel : nat) (n : Z) : list byte :=
  match fuel with
  | O => []
  | S fuel => if (n <? 10)%Z then [digit n] else decimal fuel (n / 10) ++ [digit (n mod 10)]
  end.

Definition id_to_utf8string (grants : Z → bool) (dst : utf8string) (id : Z) : Z * utf8string :=
  let text := decimal 20 id in
  if (21 <=? length text)%nat then ((- EINVAL)%Z, dst)
  else cstr_to_utf8string grants dst (Some (text ++ [x00])).

Definition utf8string_from_uid (grants : Z → bool) (dst : utf8string) (uid : Z) : Z * utf8string :=
  id_to_utf8string grants dst uid.
Definition utf8string_from_gid (grants : Z → bool) (dst : utf8string) (gid : Z) : Z * utf8string :=
  id_to_utf8string grants dst gid.

Definition isdigit (b : byte) : bool := (0x30 <=? bz b)%Z && (bz b <=? 0x39)%Z.

Definition utf8string_to_id (u : option utf8string) (max_val : Z) : Z + Z :=
  match u with
  | None => inl (- EINVAL)%Z
  | Some u =>
      if utf8string_is_null (Some u) then inl (- EINVAL)%Z
      else
        let p := default [] (utf8string_val u) in
        if (1 <? utf8string_len u)%Z && (bz (at_ p 0) =? 0x30)%Z then inl (- EINVAL)%Z
        else
          match for_break 0 (Z.to_nat (utf8string_len u)) (λ i val,
                  if negb (isdigit (at_ p i)) then inr (- EINVAL)%Z
                  else
                    let digit := (bz (at_ p i) - 0x30)%Z in
                    if ((max_val - digit) / 10 <? val)%Z then inr (- ERANGE)%Z
                    else inl (u64w (val * 10 + digit))) 0%Z with
          | inr rc => inl rc
          | inl val => inr val
          end
  end.

Definition utf8string_to_uid (u : option utf8string) : Z + Z := utf8string_to_id u UINT32_MAX.
Definition utf8string_to_gid (u : option utf8string) : Z + Z := utf8string_to_id u UINT32_MAX.

(** ** Path components *)

Definition is_forbidden_codepoint (cp : Z) : bool :=
  if (cp =? 0x0000)%Z then true
  else if (cp <=? 0x001F)%Z then true
  else if (cp =? 0x002F)%Z then true
  else if (cp =? 0x007F)%Z then true
  else if (0x0080 <=? cp)%Z && (cp <=? 0x009F)%Z then true
  else false.

Fixpoint component_loop (fuel : nat) (p : list byte) : Z :=
  match fuel, p with
  | S fuel, _ :: _ =>
      match decode_seq p with
      | None => (- EILSEQ)%Z
      | Some (cp, seqlen) =>
          if is_forbidden_codepoint cp then (- EBADNAME)%Z
          else component_loop fuel (drop seqlen p)
      end
  | _, _ => 0%Z
  end.

Definition utf8string_validate_component (u : option utf8string) (name_max : Z) : Z :=
  match u with
  | None => (- EINVAL)%Z
  | Some u =>
      if utf8string_is_null (Some u) then (- EINVAL)%Z
      else
        match utf8string_val u with
        | None => (- EINVAL)%Z
        | Some v =>
            let name_max := if (name_max =? 0)%Z then 255%Z else name_max in
            if (name_max <? utf8string_len u)%Z then (- ENAMETOOLONG)%Z
            else if (utf8string_len u =? 1)%Z && (bz (at_ v 0) =? 0x2E)%Z then (- EBADNAME)%Z
            else if (utf8string_len u =? 2)%Z && (bz (at_ v 0) =? 0x2E)%Z
                    && (bz (at_ v 1) =? 0x2E)%Z then (- EBADNAME)%Z
            else component_loop (length (utf8_bytes u)) (utf8_bytes u)
        end
  end.

End Utf8.
