(* ===== verification/Utf8Correct.v ===== *)
(** * What the UTF-8 validator accepts, and the decimal form of identities

    The encoding of RFC 3629 as a reference, the scan of one sequence as its
    inverse, and the decimal digits of a number against the parser. *)

From S2P Require Import Prelude.
From S2P Require Import Utf8.
Import Utf8.

Module Utf8Correct.

(** ** The reference encoding *)

(** Code points the validator admits: Unicode scalar values but U+FFFE and U+FFFF. *)
Definition scalar (cp : Z) : Prop :=
  (0 <= cp <= 0x10FFFF)%Z ∧ ¬ (0xD800 <= cp <= 0xDFFF)%Z ∧ cp ≠ 0xFFFE%Z ∧ cp ≠ 0xFFFF%Z.

Definition utf8_encode (cp : Z) : list byte :=
  if (cp <? 0x80)%Z then [zb cp]
  else if (cp <? 0x800)%Z then [zb (0xC0 + cp / 64); zb (0x80 + cp mod 64)]
  else if (cp <? 0x10000)%Z then
    [zb (0xE0 + cp / 4096); zb (0x80 + cp / 64 mod 64); zb (0x80 + cp mod 64)]
  else [zb (0xF0 + cp / 262144); zb (0x80 + cp / 4096 mod 64); zb (0x80 + cp / 64 mod 64);
        zb (0x80 + cp mod 64)].

Definition encode_all (cps : list Z) : list byte := concat (map utf8_encode cps).

(** ** Masks and shifts *)

Lemma lor_shift a n b : (0 <= n)%Z → (0 <= b < 2 ^ n)%Z → Z.lor (Z.shiftl a n) b = (a * 2 ^ n + b)%Z.
Proof.
  intros Hn Hb. rewrite <-Z.shiftl_mul_pow2 by done. symmetry.
  rewrite <-Z.lxor_lor, Z.add_nocarry_lxor; [done| |];
    apply Z.bits_inj'; intros k Hk; rewrite Z.land_spec, Z.bits_0;
    destruct (Z.lt_ge_cases k n) as [H|H];
    try (rewrite Z.shiftl_spec_low by done; done);
    rewrite andb_comm; apply andb_false_iff; left;
    rewrite <-(Z.mod_small b (2 ^ n)) by done; apply Z.mod_pow2_bits_high; lia.
Qed.

Lemma low_ones b k : (0 <= k)%Z → low b (Z.ones k) = (bz b mod 2 ^ k)%Z.
Proof. intros H. unfold low. by rewrite Z.land_ones. Qed.

Lemma low_7F b : low b 0x7F = (bz b mod 128)%Z.
Proof. apply (low_ones b 7). done. Qed.
Lemma low_3F b : low b 0x3F = (bz b mod 64)%Z.
Proof. apply (low_ones b 6). done. Qed.
Lemma low_1F b : low b 0x1F = (bz b mod 32)%Z.
Proof. apply (low_ones b 5). done. Qed.
Lemma low_0F b : low b 0x0F = (bz b mod 16)%Z.
Proof. apply (low_ones b 4). done. Qed.
Lemma low_07 b : low b 0x07 = (bz b mod 8)%Z.
Proof. apply (low_ones b 3). done. Qed.

(** A continuation byte is 10xxxxxx. *)
Lemma continuation b : (low b 0xC0 =? 0x80)%Z = ((0x80 <=? bz b) && (bz b <? 0xC0))%Z.
Proof.
  apply Bool.eqb_prop.
  apply (byte_forall1 (λ b, Bool.eqb (low b 0xC0 =? 0x80)%Z ((0x80 <=? bz b) && (bz b <? 0xC0))%Z)).
  by vm_compute.
Qed.

(** ** One sequence *)

Ltac Zify.zify_post_hook ::= Z.to_euclidean_division_equations.

Lemma zb_of b z : z = bz b → zb z = b.
Proof. intros ->. apply zb_bz. Qed.

(** The value of each length, as arithmetic. *)
Lemma decode_cp_2 b0 b1 r :
  decode_cp 2 (b0 :: b1 :: r) =
  let cp := (bz b0 mod 32 * 64 + bz b1 mod 64)%Z in if (cp <? 0x80)%Z then None else Some cp.
Proof.
  unfold decode_cp, at_, rd. cbn [nth]. rewrite low_1F, low_3F.
  rewrite lor_shift; [done|done|]. change (2 ^ 6)%Z with 64%Z. lia.
Qed.

Lemma decode_cp_3 b0 b1 b2 r :
  decode_cp 3 (b0 :: b1 :: b2 :: r) =
  let cp := (bz b0 mod 16 * 4096 + bz b1 mod 64 * 64 + bz b2 mod 64)%Z in
  if (cp <? 0x800)%Z then None
  else if (0xD800 <=? cp)%Z && (cp <=? 0xDFFF)%Z then None
  else if (cp =? 0xFFFE)%Z || (cp =? 0xFFFF)%Z then None
  else Some cp.
Proof.
  unfold decode_cp, at_, rd. cbn [nth]. rewrite low_0F, !low_3F.
  replace (Z.lor (Z.lor _ _) _)
    with (bz b0 mod 16 * 4096 + bz b1 mod 64 * 64 + bz b2 mod 64)%Z; [done|].
  rewrite <-Z.lor_assoc, (lor_shift _ 6), (lor_shift _ 12); try done;
    change (2 ^ 6)%Z with 64%Z; change (2 ^ 12)%Z with 4096%Z; lia.
Qed.

Lemma decode_cp_4 b0 b1 b2 b3 r :
  decode_cp 4 (b0 :: b1 :: b2 :: b3 :: r) =
  let cp := (bz b0 mod 8 * 262144 + bz b1 mod 64 * 4096 + bz b2 mod 64 * 64 + bz b3 mod 64)%Z in
  if (cp <? 0x10000)%Z then None else if (0x10FFFF <? cp)%Z then None else Some cp.
Proof.
  unfold decode_cp, at_, rd. cbn [nth]. rewrite low_07, !low_3F.
  replace (Z.lor (Z.lor (Z.lor _ _) _) _)
    with (bz b0 mod 8 * 262144 + bz b1 mod 64 * 4096 + bz b2 mod 64 * 64 + bz b3 mod 64)%Z; [done|].
  rewrite <-!Z.lor_assoc, (lor_shift _ 6), (lor_shift _ 12), (lor_shift _ 18); try done;
    change (2 ^ 6)%Z with 64%Z; change (2 ^ 12)%Z with 4096%Z; change (2 ^ 18)%Z with 262144%Z; lia.
Qed.

(** The sequence length by the range of the first byte. *)
Lemma sequence_len_cases b :
  (utf8_sequence_len b = 1%nat ∧ bz b < 0x80 ∨
   utf8_sequence_len b = 2%nat ∧ 0xC0 <= bz b < 0xE0 ∨
   utf8_sequence_len b = 3%nat ∧ 0xE0 <= bz b < 0xF0 ∨
   utf8_sequence_len b = 4%nat ∧ 0xF0 <= bz b < 0xF8 ∨
   utf8_sequence_len b = 0%nat)%Z.
Proof. unfold utf8_sequence_len. repeat case_if; bool_prop; auto 10 with lia. Qed.

(** Bytes [1 .. n - 1] are continuation bytes. *)
Definition conts (l : list byte) : Prop := Forall (λ b, 0x80 <= bz b < 0xC0)%Z l.

(** The scan at a first byte of a sequence of [S n] bytes. *)
Lemma decode_seq_at b0 n l r :
  utf8_sequence_len b0 = S n → length l = n →
  decode_seq (b0 :: l ++ r) =
  if forallb (λ b, (0x80 <=? bz b) && (bz b <? 0xC0))%Z l then
    match decode_cp (S n) (b0 :: l ++ r) with Some cp => Some (cp, S n) | None => None end
  else None.
Proof.
  intros Hs Hl. unfold decode_seq. change (at_ (b0 :: l ++ r) 0) with b0. rewrite Hs.
  change (S n =? 0)%nat with false. cbn [length].
  destruct (Nat.ltb_spec (S (length (l ++ r))) (S n)) as [Hlt|_];
    [rewrite length_app in Hlt; lia|]. cbn [Nat.sub]. rewrite Nat.sub_0_r.
  assert (Hf : ∀ m k, (m + k = length l)%nat →
    forallb (λ i, (low (at_ (b0 :: l ++ r) i) 0xC0 =? 0x80)%Z) (seq (S m) k)
    = forallb (λ b, (0x80 <=? bz b) && (bz b <? 0xC0))%Z (drop m l)).
  { intros m k. revert m. induction k as [|k IH]; intros m Hm.
    - by rewrite drop_ge by lia.
    - pose proof (rd_lt x00 l m ltac:(lia)) as Hx. rewrite (drop_S _ _ _ Hx). cbn [seq forallb].
      rewrite IH, continuation by lia. f_equal.
      replace (at_ (b0 :: l ++ r) (S m)) with (rd x00 l m); [done|].
      change (at_ (b0 :: l ++ r) (S m)) with (rd x00 (l ++ r) m). rewrite rd_app.
      case_decide; [done|lia]. }
  rewrite (Hf 0%nat n (eq_sym Hl)). by destruct (forallb _ _).
Qed.

Lemma conts_forallb l :
  forallb (λ b, (0x80 <=? bz b) && (bz b <? 0xC0))%Z l = true ↔ conts l.
Proof.
  unfold conts. rewrite forallb_forall, list.Forall_forall. setoid_rewrite list_elem_of_In.
  split; intros H b Hb; specialize (H b Hb); [bool_prop; lia|]. apply andb_true_iff; lia.
Qed.

Lemma decode_seq_app b0 n l r :
  utf8_sequence_len b0 = S n → length l = n → conts l →
  decode_seq ((b0 :: l) ++ r) =
  match decode_cp (S n) (b0 :: l ++ r) with Some cp => Some (cp, S n) | None => None end.
Proof.
  intros Hs Hl Hc. apply conts_forallb in Hc.
  change ((b0 :: l) ++ r) with (b0 :: l ++ r). by rewrite (decode_seq_at b0 n), Hc.
Qed.

(** What a scan that succeeds has seen. *)
Lemma decode_seq_split b0 p cp m :
  decode_seq (b0 :: p) = Some (cp, m) →
  ∃ n l r, utf8_sequence_len b0 = S n ∧ p = l ++ r ∧ length l = n ∧ m = S n ∧ conts l ∧
           decode_cp (S n) (b0 :: l ++ r) = Some cp.
Proof.
  intros H. destruct (utf8_sequence_len b0) as [|n] eqn:E.
  { unfold decode_seq in H. change (at_ (b0 :: p) 0) with b0 in H. by rewrite E in H. }
  destruct (le_lt_dec n (length p)) as [Hn|Hn].
  - exists n, (take n p), (drop n p). rewrite take_drop.
    rewrite <-(take_drop n p), (decode_seq_at b0 n) in H by (rewrite ?length_take; lia || done).
    rewrite take_drop in H. destruct (forallb _ _) eqn:Hf; [|done].
    apply conts_forallb in Hf. destruct (decode_cp (S n) (b0 :: p)) as [c|] eqn:Ec; [|done].
    simplify_eq. split_and!; try done. rewrite length_take. lia.
  - exfalso. unfold decode_seq in H. change (at_ (b0 :: p) 0) with b0 in H. rewrite E in H.
    change (S n =? 0)%nat with false in H. cbn [length] in H.
    destruct (Nat.ltb_spec (S (length p)) (S n)); [done|lia].
Qed.

(** What the scan accepts is the encoding of the code point it reads. *)
Lemma decode_seq_sound b0 p cp n :
  decode_seq (b0 :: p) = Some (cp, n) →
  scalar cp ∧ n = length (utf8_encode cp) ∧ ∃ r, b0 :: p = utf8_encode cp ++ r.
Proof.
  intros (m & l & r & E & -> & Hl & -> & Hc & Hd)%decode_seq_split.
  pose proof (bz_range b0) as Hb0. unfold conts in Hc.
  destruct (sequence_len_cases b0) as [[E' R]|[[E' R]|[[E' R]|[[E' R]|E']]]];
    rewrite E in E'; try done; injection E' as ->.
  - destruct l; [|done]. unfold decode_cp, at_, rd in Hd. cbn [nth app] in Hd.
    rewrite low_7F in Hd. injection Hd as <-. unfold scalar, utf8_encode. destruct (Z.ltb_spec (bz b0 mod 128) 0x80); [|lia].
    rewrite (zb_of b0) by lia. split; [lia|]. split; [done|]. by exists r.
  - destruct l as [|b1 [|]]; try done. rewrite !list.Forall_cons in Hc. cbn [app] in *.
    rewrite decode_cp_2 in Hd. cbn zeta in Hd. case_match; bool_prop; [done|]. injection Hd as <-. unfold scalar, utf8_encode.
    split; [lia|]. repeat (case_if; bool_prop; try lia).
    rewrite (zb_of b0), (zb_of b1) by lia. by split; [|exists r].
  - destruct l as [|b1 [|b2 [|]]]; try done. rewrite !list.Forall_cons in Hc. cbn [app] in *.
    rewrite decode_cp_3 in Hd. cbn zeta in Hd. repeat (case_match; bool_prop; try done).
    injection Hd as <-. unfold scalar, utf8_encode. apply andb_false_iff in H0.
    split; [destruct H0; bool_prop; lia|]. repeat (case_if; bool_prop; try lia).
    rewrite (zb_of b0), (zb_of b1), (zb_of b2) by lia. by split; [|exists r].
  - destruct l as [|b1 [|b2 [|b3 [|]]]]; try done. rewrite !list.Forall_cons in Hc. cbn [app] in *.
    rewrite decode_cp_4 in Hd. cbn zeta in Hd. repeat (case_match; bool_prop; try done).
    injection Hd as <-. unfold scalar, utf8_encode. split; [lia|]. repeat (case_if; bool_prop; try lia).
    rewrite (zb_of b0), (zb_of b1), (zb_of b2), (zb_of b3) by lia. by split; [|exists r].
Qed.

Lemma bz_small z : (0 <= z < 256)%Z → bz (zb z) = z.
Proof. intros H. rewrite bz_zb. by apply Z.mod_small. Qed.

(** Compute the length of a sequence from its first byte [zb z]. *)
Ltac seq_len := unfold utf8_sequence_len; rewrite !bz_small by lia; repeat (case_if; bool_prop); lia || done.

(** The scan reads back the encoding of every admitted code point. *)
Lemma decode_seq_encode cp r :
  scalar cp → decode_seq (utf8_encode cp ++ r) = Some (cp, length (utf8_encode cp)).
Proof.
  intros (H1 & H2 & H3 & H4). unfold utf8_encode.
  destruct (Z.ltb_spec cp 0x80); [|destruct (Z.ltb_spec cp 0x800); [|destruct (Z.ltb_spec cp 0x10000)]];
    cbn [length].
  - rewrite (decode_seq_app _ 0) by (seq_len || done || constructor).
    unfold decode_cp, at_, rd. cbn [nth app]. rewrite low_7F, bz_small by lia.
    do 2 f_equal. lia.
  - rewrite (decode_seq_app _ 1) by (seq_len || done || (repeat constructor; rewrite bz_small; lia)).
    cbn [app]. rewrite decode_cp_2, !bz_small by lia. cbn zeta.
    case_if; bool_prop; [lia|]. do 2 f_equal. lia.
  - rewrite (decode_seq_app _ 2) by (seq_len || done || (repeat constructor; rewrite bz_small; lia)).
    cbn [app]. rewrite decode_cp_3, !bz_small by lia. cbn zeta.
    match goal with |- context [(?x <? 0x800)%Z] => replace x with cp by lia end.
    by repeat (case_if; bool_prop; try lia).
  - rewrite (decode_seq_app _ 3) by (seq_len || done || (repeat constructor; rewrite bz_small; lia)).
    cbn [app]. rewrite decode_cp_4, !bz_small by lia. cbn zeta.
    match goal with |- context [(?x <? 0x10000)%Z] => replace x with cp by lia end.
    by repeat (case_if; bool_prop; try lia).
Qed.

(** ** Strings *)

Lemma encode_nonempty cp : utf8_encode cp ≠ [].
Proof. unfold utf8_encode. by repeat case_if. Qed.

(** The scan of a whole string: the code points up to the first bad sequence. *)
Lemma validate_loop_spec fuel p :
  (length p <= fuel)%nat →
  (validate_loop fuel p = 0%Z ∧ ∃ cps, Forall scalar cps ∧ p = encode_all cps) ∨
  (validate_loop fuel p = (- EILSEQ)%Z ∧ ¬ ∃ cps, Forall scalar cps ∧ p = encode_all cps).
Proof.
  revert p. induction fuel as [|fuel IH]; intros p Hl.
  { left. destruct p; [|cbn in Hl; lia]. split; [done|]. exists []. by split. }
  destruct p as [|b0 p]; [left; split; [done|]; exists []; by split|]. cbn [validate_loop].
  destruct (decode_seq (b0 :: p)) as [[cp n]|] eqn:E.
  - destruct (decode_seq_sound _ _ _ _ E) as (Hs & -> & r & Hp). rewrite Hp, drop_app_length.
    assert (Hr : (length r <= fuel)%nat).
    { apply (f_equal length) in Hp. rewrite length_app in Hp. cbn in Hp, Hl.
      pose proof (encode_nonempty cp). destruct (utf8_encode cp); [done|]. cbn in Hp. lia. }
    destruct (IH r Hr) as [[-> (cps & Hf & Hc)]|[-> Hn]].
    + left. split; [done|]. exists (cp :: cps). split; [by constructor|]. by rewrite Hc.
    + right. split; [done|]. intros (cps & Hf & Hc). destruct cps as [|c cps].
      { apply app_eq_nil in Hc as [Hc _]. by apply encode_nonempty in Hc. }
      apply list.Forall_cons in Hf as [Hsc Hf]. cbn in Hc. rewrite Hp in E.
      assert (E' : decode_seq (utf8_encode cp ++ r) = Some (c, length (utf8_encode c)))
        by (rewrite Hc; by apply decode_seq_encode).
      assert (c = cp) as -> by congruence. apply app_inv_head in Hc. apply Hn. by exists cps.
  - right. split; [done|]. intros (cps & Hf & Hc). destruct cps as [|c cps]; [done|].
    apply list.Forall_cons in Hf as [Hsc Hf]. cbn in Hc. rewrite Hc in E.
    rewrite decode_seq_encode in E by done. done.
Qed.

(** As the validation, with the forbidden characters looked for on the way. *)
Lemma component_loop_spec fuel p :
  (length p <= fuel)%nat →
  component_loop fuel p = 0%Z ↔
  ∃ cps, Forall (λ cp, scalar cp ∧ is_forbidden_codepoint cp = false) cps ∧ p = encode_all cps.
Proof.
  revert p. induction fuel as [|fuel IH]; intros p Hl.
  { destruct p; [|cbn in Hl; lia]. split; [|done]. intros _. exists []. by split. }
  destruct p as [|b0 p]; [split; [|done]; intros _; exists []; by split|]. cbn [component_loop].
  destruct (decode_seq (b0 :: p)) as [[cp n]|] eqn:E.
  - destruct (decode_seq_sound _ _ _ _ E) as (Hs & -> & r & Hp). rewrite Hp, drop_app_length.
    assert (Hr : (length r <= fuel)%nat).
    { apply (f_equal length) in Hp. rewrite length_app in Hp. cbn in Hp, Hl.
      pose proof (encode_nonempty cp). destruct (utf8_encode cp); [done|]. cbn in Hp. lia. }
    assert (Huniq : ∀ c cps, scalar c → utf8_encode cp ++ r = utf8_encode c ++ cps → c = cp ∧ r = cps).
    { intros c cps Hsc Hc. rewrite Hp, Hc, decode_seq_encode in E by done.
      assert (c = cp) as -> by congruence. split; [done|]. by apply app_inv_head in Hc. }
    destruct (is_forbidden_codepoint cp) eqn:Hf.
    + split; [done|]. intros ([|c cps] & Hall & Hc).
      { apply app_eq_nil in Hc as [Hc _]. by apply encode_nonempty in Hc. }
      apply list.Forall_cons in Hall as [[Hsc Hfc] _]. apply Huniq in Hc as [-> _]; [|done]. congruence.
    + rewrite IH by done. split.
      * intros (cps & Hall & ->). exists (cp :: cps). split; [by constructor|done].
      * intros ([|c cps] & Hall & Hc).
        { apply app_eq_nil in Hc as [Hc _]. by apply encode_nonempty in Hc. }
        apply list.Forall_cons in Hall as [[Hsc Hfc] Hall]. apply Huniq in Hc as [-> ->]; [|done].
        by exists cps.
  - split; [done|]. intros ([|c cps] & Hall & Hc); [done|].
    apply list.Forall_cons in Hall as [[Hsc _] _]. cbn in Hc. rewrite Hc in E.
    rewrite decode_seq_encode in E by done. done.
Qed.

(** ** Comparison *)

(** Without a terminator among them, [strncmp] compares all the bytes. *)
Lemma strncmp_eq n a b :
  (n <= length a)%nat → (n <= length b)%nat → Forall (λ x, x ≠ x00) (take n a) →
  strncmp n a b = 0%Z ↔ take n a = take n b.
Proof.
  unfold strncmp. revert a b. induction n as [|n IH]; intros a b Ha Hb Hz; [by rewrite !take_0|].
  destruct a as [|x a]; [cbn in Ha; lia|]. destruct b as [|y b]; [cbn in Hb; lia|].
  cbn [strncmp_by take drop at_] in *. unfold at_. rewrite !drop_0.
  change (rd x00 (x :: a) 0) with x. change (rd x00 (y :: b) 0) with y.
  apply list.Forall_cons in Hz as [Hx Hz]. cbn in Ha, Hb.
  destruct (Z.eqb_spec (bz x) (bz y)) as [Hxy|Hxy]; cbn [negb].
  - apply bz_inj in Hxy as ->. destruct (Z.eqb_spec (bz y) 0) as [H0|_].
    { exfalso. apply Hx. apply bz_inj. by rewrite H0. }
    rewrite IH by (done || lia). split; [by intros ->|]. by intros [= ->].
  - split; [lia|]. intros [= -> _]. done.
Qed.

(** ** Decimal numbers *)

Definition dig (b : byte) : Z := (bz b - 0x30)%Z.

(** The number a list of digits continues to from [v]. *)
Definition val_from (v : Z) (l : list byte) : Z := fold_left (λ v b, (v * 10 + dig b)%Z) l v.

Definition digits (l : list byte) : Prop := Forall (λ b, isdigit b = true) l.

Lemma isdigit_range b : isdigit b = true → (0 <= dig b <= 9)%Z.
Proof. unfold isdigit, dig. intros H. bool_prop. lia. Qed.

Lemma val_from_app v l b : val_from v (l ++ [b]) = (val_from v l * 10 + dig b)%Z.
Proof. unfold val_from. by rewrite fold_left_app. Qed.

Lemma val_from_ge v l : (0 <= v)%Z → digits l → (v <= val_from v l)%Z.
Proof.
  revert v. induction l as [|b l IH]; intros v Hv Hd; [done|].
  apply list.Forall_cons in Hd as [Hb Hd]. apply isdigit_range in Hb. cbn.
  specialize (IH (v * 10 + dig b)%Z ltac:(lia) Hd). unfold val_from in IH. lia.
Qed.

(** The parser's loop over a list. *)
Fixpoint parse_digits (max_val : Z) (l : list byte) (val : Z) : Z + Z :=
  match l with
  | [] => inl val
  | b :: l =>
      if negb (isdigit b) then inr (- EINVAL)%Z
      else if ((max_val - dig b) / 10 <? val)%Z then inr (- ERANGE)%Z
      else parse_digits max_val l (u64w (val * 10 + dig b))
  end.

Lemma parse_loop max_val p lo n val :
  (lo + n <= length p)%nat →
  for_break lo n (λ i val,
    if negb (isdigit (at_ p i)) then inr (- EINVAL)%Z
    else
      let digit := (bz (at_ p i) - 0x30)%Z in
      if ((max_val - digit) / 10 <? val)%Z then inr (- ERANGE)%Z
      else inl (u64w (val * 10 + digit))) val
  = parse_digits max_val (take n (drop lo p)) val.
Proof.
  revert lo val. induction n as [|n IH]; intros lo val Hn; [done|].
  pose proof (rd_lt x00 p lo ltac:(lia)) as Hx. rewrite (drop_S _ _ _ Hx).
  cbn [for_break take parse_digits]. unfold at_ at 1 2 3. cbn zeta. fold (dig (rd x00 p lo)).
  do 2 (case_if; [done|]). apply IH. lia.
Qed.

Lemma parse_digits_spec max_val l v w :
  (9 <= max_val)%Z → in_width 64 max_val → (0 <= v)%Z →
  parse_digits max_val l v = inl w ↔
  digits l ∧ w = val_from v l ∧ (l = [] ∨ w <= max_val)%Z.
Proof.
  intros H9 [_ Hw]. revert v. induction l as [|b l IH]; intros v Hv; cbn [parse_digits].
  - split; [intros [= <-]; split; [constructor|auto]|]. by intros (_ & -> & _).
  - unfold digits. rewrite list.Forall_cons.
    destruct (isdigit b) eqn:Hb; cbn [negb]; [|split; [done|]; by intros [[? _] _]].
    pose proof (isdigit_range b Hb) as Hr. destruct (Z.ltb_spec ((max_val - dig b) / 10) v) as [Hlt|Hle].
    + split; [done|]. intros ([_ Hd] & -> & [?|Hle]); [done|]. exfalso.
      pose proof (val_from_ge (v * 10 + dig b) l ltac:(lia) Hd) as Hge. cbn in Hle.
      fold (val_from (v * 10 + dig b) l) in Hle. lia.
    + rewrite wrap_small by (unfold in_width; lia). rewrite IH by lia. cbn [val_from fold_left].
      fold (val_from (v * 10 + dig b) l). split.
      * intros (Hd & -> & Hor). split; [done|]. split; [done|]. right.
        destruct Hor as [->|?]; [cbn; lia|done].
      * intros ([_ Hd] & -> & [?|?]); [done|]. auto.
Qed.

(** Canonical decimal: a digit at least, and no leading zero but in "0". *)
Definition canonical (l : list byte) : Prop :=
  digits l ∧ l ≠ [] ∧ ((1 < length l)%nat → bz (at_ l 0) ≠ 0x30%Z).

Lemma dig_digit d : (0 <= d <= 9)%Z → isdigit (digit d) = true ∧ dig (digit d) = d.
Proof.
  intros H. unfold isdigit, dig, digit. rewrite bz_small by lia. split; [|lia].
  apply andb_true_iff. split; apply Z.leb_le; lia.
Qed.

Lemma digit_dig b : isdigit b = true → digit (dig b) = b.
Proof. intros H. unfold digit, dig. apply zb_of. lia. Qed.

(** The printer writes the canonical decimal of the number. *)
Lemma decimal_spec f n :
  (0 <= n < 10 ^ Z.of_nat (S f))%Z →
  canonical (decimal (S f) n) ∧ val_from 0 (decimal (S f) n) = n ∧
  (length (decimal (S f) n) <= S f)%nat ∧ (0 < n → bz (at_ (decimal (S f) n) 0) ≠ 0x30)%Z.
Proof.
  revert n. induction f as [|f IH]; intros n Hn; cbn [decimal].
  - destruct (Z.ltb_spec n 10); [|cbn in Hn; lia]. destruct (dig_digit n) as [H1 H2]; [lia|].
    split; [|split; [cbn; rewrite H2; lia|split; [done|]]].
    + split; [by repeat constructor|]. split; [done|]. cbn. lia.
    + intros Hp He. unfold dig in H2. change (at_ [digit n] 0) with (digit n) in He. lia.
  - destruct (Z.ltb_spec n 10) as [Hlt|Hge].
    { destruct (dig_digit n) as [H1 H2]; [lia|].
      split; [|split; [cbn; rewrite H2; lia|split; [cbn; lia|]]].
      - split; [by repeat constructor|]. split; [done|]. cbn. lia.
      - intros Hp He. unfold dig in H2. change (at_ [digit n] 0) with (digit n) in He. lia. }
    rewrite Nat2Z.inj_succ, Z.pow_succ_r in Hn by lia.
    destruct (IH (n / 10)%Z) as ((Hd & Hne & Hz) & Hv & Hl & Hp); [lia|].
    destruct (dig_digit (n mod 10)) as [H1 H2]; [lia|].
    change (if (n / 10 <? 10)%Z then [digit (n / 10)]
            else decimal f (n / 10 / 10) ++ [digit (n / 10 mod 10)]) with (decimal (S f) (n / 10)).
    set (l := decimal (S f) (n / 10)) in *.
    assert (Hhd : at_ (l ++ [digit (n mod 10)]) 0 = at_ l 0) by (by destruct l).
    rewrite val_from_app, Hv, H2, length_app, Hhd. cbn [length].
    split; [|split; [lia|split; [lia|intros _; apply Hp; lia]]].
    split; [apply list.Forall_app; split; [done|by repeat constructor]|].
    split; [by destruct l|]. rewrite Hhd. intros _. apply Hp. lia.
Qed.

(** Every canonical decimal is what the printer writes for its value. *)
Lemma decimal_unique f l :
  canonical l → (val_from 0 l < 10 ^ Z.of_nat (S f))%Z → decimal (S f) (val_from 0 l) = l.
Proof.
  revert f. induction l as [|b l IH] using rev_ind; intros f (Hd & Hne & Hz) Hlt; [done|].
  apply list.Forall_app in Hd as [Hd Hb]. apply list.Forall_cons in Hb as [Hb _].
  pose proof (isdigit_range b Hb) as Hr. rewrite val_from_app in *.
  destruct l as [|x l].
  { replace (val_from 0 [] * 10 + dig b)%Z with (dig b) by (cbn; lia). cbn [decimal app].
    destruct (Z.ltb_spec (dig b) 10); [|lia]. by rewrite digit_dig. }
  assert (Hx : bz x ≠ 0x30%Z) by (apply Hz; rewrite length_app; cbn; lia).
  assert (Hpos : (0 < val_from 0 (x :: l))%Z).
  { apply list.Forall_cons in Hd as [Hxd Hd]. pose proof (isdigit_range x Hxd). unfold dig in *.
    eapply Z.lt_le_trans; [|apply (val_from_ge (0 * 10 + dig x) l); [unfold dig; lia|done]].
    unfold dig. lia. }
  cbn [decimal]. destruct (Z.ltb_spec (val_from 0 (x :: l) * 10 + dig b) 10); [lia|].
  rewrite Nat2Z.inj_succ, Z.pow_succ_r in Hlt by lia.
  replace ((val_from 0 (x :: l) * 10 + dig b) / 10)%Z with (val_from 0 (x :: l)) by lia.
  replace ((val_from 0 (x :: l) * 10 + dig b) mod 10)%Z with (dig b) by lia.
  destruct f as [|f]; [change (10 ^ Z.of_nat 0)%Z with 1%Z in Hlt; lia|].
  rewrite IH, digit_dig; [done|done| |lia]. split; [done|]. split; [done|]. by intros _.
Qed.

End Utf8Correct.
