(* ===== verification/Utf8Theorems.v ===== *)
(** * What the protocol strings promise

    Strings taken from the wire, path components, numeric owners and comparison. *)

From S2P Require Import Prelude.
From S2P Require Import Utf8.
From S2P Require Import Utf8Correct.
Import Utf8 Utf8Correct.

Module Utf8Theorems.

(** The length is that of a C [u_int], and lies in the buffer when there is one. *)
Definition utf8_wf (u : utf8string) : Prop :=
  in_width 32 (utf8string_len u) ∧
  match utf8string_val u with
  | Some v => (utf8string_len u <= Z.of_nat (length v))%Z
  | None => True
  end.

(** Local storage: the buffer holds the bytes and one terminator. *)
Definition padded (u : utf8string) (bs : list byte) : Prop :=
  u = if decide (bs = []) then utf8_null else mk_utf8 (Z.of_nat (length bs)) (Some (bs ++ [x00])).

Definition valid_utf8 (bs : list byte) : Prop :=
  ∃ cps, Forall scalar cps ∧ bs = encode_all cps.

Lemma length_utf8_bytes u v :
  utf8_wf u → utf8string_val u = Some v → Z.of_nat (length (utf8_bytes u)) = utf8string_len u.
Proof.
  intros [[H0 _] Hv] E. unfold utf8_bytes. rewrite E in *. rewrite length_take. lia.
Qed.

Lemma padded_bytes u bs : padded u bs → utf8_bytes u = bs.
Proof.
  intros ->. case_decide as H; [by rewrite H|]. unfold utf8_bytes. cbn.
  by rewrite Nat2Z.id, take_app_length.
Qed.

Lemma alloc_copy_spec grants dst len src :
  (0 < len <= Z.of_nat (length src))%Z →
  alloc_copy grants dst len src =
  if grants (len + 1)%Z
  then (0%Z, mk_utf8 len (Some (take (Z.to_nat len) src ++ [x00]))) else ((- ENOMEM)%Z, dst).
Proof.
  intros H. unfold alloc_copy, utf8string_alloc. destruct (grants (len + 1)%Z); [|done]. cbn.
  unfold splice. cbn [take app]. rewrite Nat.add_0_l, drop_replicate, length_take.
  replace (Z.to_nat (len + 1) - _)%nat with 1%nat by lia. done.
Qed.

Lemma validate_bytes u :
  utf8_wf u → (utf8string_val u = None → utf8string_len u = 0%Z) →
  (utf8string_validate (Some u) = 0%Z ∧ valid_utf8 (utf8_bytes u)) ∨
  (utf8string_validate (Some u) = (- EILSEQ)%Z ∧ ¬ valid_utf8 (utf8_bytes u)).
Proof.
  intros Hwf Hn. unfold utf8string_validate. case_if; bool_prop.
  - left. split; [done|]. exists []. split; [done|]. unfold utf8_bytes.
    rewrite Heqb. by destruct (utf8string_val u).
  - destruct (utf8string_val u) as [v|] eqn:Ev; [|by specialize (Hn eq_refl)].
    by apply validate_loop_spec.
Qed.

(** C33: A string taken from the wire with validation is accepted exactly when its
    bytes are the RFC 3629 encoding of Unicode scalar values other than U+FFFE and
    U+FFFF; the local copy then holds those bytes and a terminator, and otherwise
    the destination is left null, with the error that says why: no buffer, no
    memory, or an ill-formed sequence. *)
Theorem utf8_wire_validated grants dst wire :
  utf8_wf wire →
  let '(rc, dst') := utf8string_from_wire_validated grants dst (Some wire) in
  (rc = 0%Z ∧ padded dst' (utf8_bytes wire) ∧ valid_utf8 (utf8_bytes wire)) ∨
  (rc ≠ 0%Z ∧ dst' = utf8_null ∧
   ((rc = - EINVAL)%Z ∧ utf8string_val wire = None ∨
    (rc = - ENOMEM)%Z ∧ grants (utf8string_len wire + 1)%Z = false ∨
    (rc = - EILSEQ)%Z ∧ ¬ valid_utf8 (utf8_bytes wire))).
Proof.
  intros Hwf. pose proof Hwf as [[H0 H32] Hv]. unfold utf8string_from_wire_validated, utf8string_from_wire.
  destruct (Z.eqb_spec (utf8string_len wire) 0) as [Hz|Hz].
  { cbn. left. assert (Hb : utf8_bytes wire = []) by
      (unfold utf8_bytes; rewrite Hz; by destruct (utf8string_val wire)).
    rewrite Hb. split; [done|]. split; [done|]. by exists []. }
  destruct (utf8string_val wire) as [v|] eqn:Ev; [|cbn; right; auto].
  pose proof (length_utf8_bytes _ _ Hwf Ev) as Hl. rewrite alloc_copy_spec by lia.
  assert (Hb : take (Z.to_nat (utf8string_len wire)) v = utf8_bytes wire)
    by (unfold utf8_bytes; by rewrite Ev).
  rewrite Hb. destruct (grants _) eqn:Hg; [|cbn; right; auto 10]. cbn [Z.eqb negb].
  set (d := mk_utf8 _ _). assert (Hp : padded d (utf8_bytes wire)).
  { unfold padded, d. case_decide as He; [rewrite He in Hl; cbn in Hl; lia|]. by rewrite Hl. }
  assert (Hd : utf8_wf d).
  { split; [done|]. cbn. rewrite length_app. lia. }
  destruct (validate_bytes d Hd ltac:(done)) as [[-> Hval]|[-> Hval]];
    rewrite (padded_bytes _ _ Hp) in Hval; cbn; [by left|right; auto 10].
Qed.

(** "e" with an acute accent, U+00E9, then "/". *)
Definition sample_utf8 : utf8string := mk_utf8 3 (Some [xc3; xa9; x2f; xff]).

Lemma sample_wf : utf8_wf sample_utf8.
Proof. by split. Qed.

Lemma utf8_wire_validated_witness :
  padded (snd (utf8string_from_wire_validated (λ _, true) utf8_null (Some sample_utf8))) [xc3; xa9; x2f].
Proof.
  pose proof (utf8_wire_validated (λ _, true) utf8_null sample_utf8 sample_wf) as H.
  destruct (utf8string_from_wire_validated (λ _, true) utf8_null (Some sample_utf8)) as [rc d] eqn:E.
  assert (rc = 0%Z) as -> by (vm_compute in E; congruence).
  destruct H as [(_ & H & _)|[H _]]; [exact H|done].
Defined.

Lemma is_dot b : (bz b =? 0x2E)%Z = true ↔ b = x2e.
Proof. rewrite Z.eqb_eq. split; [|by intros ->]. intros E. by apply bz_inj. Qed.

(** The tests for the two reserved names. *)
Lemma one_dot v len :
  (0 <= len <= Z.of_nat (length v))%Z →
  (len =? 1)%Z && (bz (at_ v 0) =? 0x2E)%Z = true ↔ take (Z.to_nat len) v = [x2e].
Proof.
  intros H. rewrite andb_true_iff, is_dot, Z.eqb_eq. split.
  - intros [-> Hx]. destruct v as [|x v]; [cbn in H; lia|].
    change (at_ (x :: v) 0) with x in Hx. by rewrite Hx.
  - intros He. pose proof (f_equal length He) as Hl. rewrite length_take in Hl. cbn in Hl.
    assert (len = 1%Z) as -> by lia. split; [done|]. destruct v as [|x v]; [done|].
    by injection He as ->.
Qed.

Lemma two_dots v len :
  (0 <= len <= Z.of_nat (length v))%Z →
  (len =? 2)%Z && (bz (at_ v 0) =? 0x2E)%Z && (bz (at_ v 1) =? 0x2E)%Z = true
  ↔ take (Z.to_nat len) v = [x2e; x2e].
Proof.
  intros H. rewrite !andb_true_iff, !is_dot, Z.eqb_eq. split.
  - intros [[-> Hx] Hy]. destruct v as [|x [|y v]]; [cbn in H; lia..|].
    change (at_ (x :: y :: v) 0) with x in Hx. change (at_ (x :: y :: v) 1) with y in Hy.
    by rewrite Hx, Hy.
  - intros He. pose proof (f_equal length He) as Hl. rewrite length_take in Hl. cbn in Hl.
    assert (len = 2%Z) as -> by lia. destruct v as [|x [|y v]]; try done.
    by injection He as -> ->.
Qed.

(** C32: A path component is accepted exactly when it has a buffer, is not empty,
    is no longer than the limit (255 if none is given), is neither "." nor "..",
    and is valid UTF-8 of code points none of which is a control, a slash or DEL. *)
Theorem utf8_component_exact u name_max :
  utf8_wf u → in_width 32 name_max →
  utf8string_validate_component (Some u) name_max = 0%Z ↔
  is_Some (utf8string_val u) ∧ utf8_bytes u ≠ [] ∧
  (Z.of_nat (length (utf8_bytes u)) <= if (name_max =? 0)%Z then 255 else name_max)%Z ∧
  utf8_bytes u ≠ [x2e] ∧ utf8_bytes u ≠ [x2e; x2e] ∧
  ∃ cps, Forall (λ cp, scalar cp ∧ is_forbidden_codepoint cp = false) cps ∧
         utf8_bytes u = encode_all cps.
Proof.
  intros Hwf Hm. pose proof Hwf as [[H0 _] Hv].
  unfold utf8string_validate_component, utf8string_is_null.
  destruct (utf8string_val u) as [v|] eqn:Ev.
  2: { split; [by case_if|]. by intros [[] _]. }
  pose proof (length_utf8_bytes _ _ Hwf Ev) as Hl.
  assert (Hb : utf8_bytes u = take (Z.to_nat (utf8string_len u)) v) by (unfold utf8_bytes; by rewrite Ev).
  destruct (Z.eqb_spec (utf8string_len u) 0) as [Hz|Hz].
  { split; [done|]. intros (_ & Hne & _). destruct (utf8_bytes u); [done|]. cbn in Hl. lia. }
  rewrite Hl. destruct (Z.ltb_spec (if (name_max =? 0)%Z then 255%Z else name_max) (utf8string_len u)).
  { split; [done|]. intros (_ & _ & ? & _). lia. }
  pose proof (one_dot v (utf8string_len u) ltac:(lia)) as Hd1.
  pose proof (two_dots v (utf8string_len u) ltac:(lia)) as Hd2. rewrite <-Hb in Hd1, Hd2.
  destruct ((utf8string_len u =? 1)%Z && _); [split; [done|]; intros (_ & _ & _ & Hd & _); by destruct Hd; apply Hd1|].
  destruct ((utf8string_len u =? 2)%Z && _ && _);
    [split; [done|]; intros (_ & _ & _ & _ & Hd & _); by destruct Hd; apply Hd2|].
  rewrite component_loop_spec by done. split; [|naive_solver]. intros Hc.
  split; [done|]. split; [intros He; rewrite He in Hl; cbn in Hl; lia|]. split; [lia|].
  split; [by intros He; apply Hd1 in He|]. split; [by intros He; apply Hd2 in He|done].
Qed.

(** "caf" and U+00E9. *)
Definition sample_name : utf8string := mk_utf8 5 (Some [x63; x61; x66; xc3; xa9; x00]).

Lemma utf8_component_exact_witness :
  utf8_bytes sample_name ≠ [] ∧ utf8_bytes sample_name ≠ [x2e].
Proof.
  destruct (proj1 (utf8_component_exact sample_name 0 ltac:(by split) ltac:(done)))
    as (_ & H1 & _ & H2 & _); [by vm_compute|by split].
Defined.

(** ** Numeric owners *)

Lemma strlen_digits l : digits l → strlen (l ++ [x00]) = length l.
Proof.
  induction l as [|b l IH]; intros Hd; [done|]. apply list.Forall_cons in Hd as [Hb Hd]. cbn.
  unfold isdigit in Hb. bool_prop. destruct (Z.eqb_spec (bz b) 0); [lia|]. by rewrite IH.
Qed.

Lemma to_id_spec u v max_val n :
  utf8_wf u → utf8string_val u = Some v → (9 <= max_val)%Z → in_width 64 max_val →
  utf8string_to_id (Some u) max_val = inr n ↔
  canonical (utf8_bytes u) ∧ n = val_from 0 (utf8_bytes u) ∧ (n <= max_val)%Z.
Proof.
  intros Hwf Ev H9 Hw. pose proof Hwf as [[H0 _] Hv]. rewrite Ev in Hv.
  pose proof (length_utf8_bytes _ _ Hwf Ev) as Hl.
  assert (Hb : utf8_bytes u = take (Z.to_nat (utf8string_len u)) (drop 0 v))
    by (unfold utf8_bytes; by rewrite Ev).
  unfold utf8string_to_id, utf8string_is_null. rewrite Ev. cbn [default from_option id].
  destruct (Z.eqb_spec (utf8string_len u) 0) as [Hz|Hz].
  { split; [done|]. intros [(_ & Hne & _) _]. destruct (utf8_bytes u); [done|]. cbn in Hl. lia. }
  assert (Hne : utf8_bytes u ≠ []) by (intros He; rewrite He in Hl; cbn in Hl; lia).
  assert (Hhd : at_ v 0 = at_ (utf8_bytes u) 0).
  { rewrite Hb, drop_0. unfold at_. by rewrite rd_take by lia. }
  rewrite parse_loop, <-Hb, Hhd by lia.
  pose proof (parse_digits_spec max_val (utf8_bytes u) 0 n H9 Hw ltac:(done)) as Hp.
  destruct ((1 <? utf8string_len u)%Z && _) eqn:E.
  { bool_prop. split; [done|]. intros [(_ & _ & Hc) _]. exfalso. apply Hc; [lia|done]. }
  assert (Hcan : digits (utf8_bytes u) → canonical (utf8_bytes u)).
  { intros Hd. split; [done|]. split; [done|]. intros Hlen He. apply andb_false_iff in E.
    destruct E; bool_prop; lia. }
  destruct (parse_digits _ _ _) as [w|e].
  - split.
    + intros [= ->]. destruct (proj1 Hp eq_refl) as (Hd & -> & [?|?]); [done|].
      by split; [apply Hcan|].
    + intros ((Hd & _) & Hn & Hle).
      pose proof (proj2 Hp (conj Hd (conj Hn (or_intror Hle)))). congruence.
  - split; [done|]. intros ((Hd & _) & Hn & Hle).
    by pose proof (proj2 Hp (conj Hd (conj Hn (or_intror Hle)))).
Qed.

(** Formatting a 32-bit identity and parsing the string gives it back, and the
    parser accepts nothing but the strings the formatter writes: every other
    spelling of a number, and every number above the type, is refused. *)
Theorem utf8_uid_roundtrip grants dst :
  (∀ n, grants n = true) →
  (∀ uid, in_width 32 uid →
     ∃ u, utf8string_from_uid grants dst uid = (0%Z, u) ∧ utf8string_to_uid (Some u) = inr uid) ∧
  (∀ u n, utf8_wf u → is_Some (utf8string_val u) → utf8string_to_uid (Some u) = inr n →
     in_width 32 n ∧
     ∃ u', utf8string_from_uid grants dst n = (0%Z, u') ∧ utf8_bytes u' = utf8_bytes u).
Proof.
  intros Hg. assert (Hfrom : ∀ uid, in_width 32 uid →
    utf8string_from_uid grants dst uid
    = (0%Z, mk_utf8 (Z.of_nat (length (decimal 20 uid))) (Some (decimal 20 uid ++ [x00])))).
  { intros uid [H0 H1].
    destruct (decimal_spec 19 uid) as ((Hd & Hne & _) & _ & Hlen & _); [lia|].
    set (l := decimal 20 uid) in *. unfold utf8string_from_uid, id_to_utf8string. fold l.
    destruct (Nat.leb_spec 21 (length l)); [lia|]. unfold cstr_to_utf8string.
    rewrite strlen_digits by done. destruct l as [|b l]; [done|].
    change (at_ ((b :: l) ++ [x00]) 0) with b. apply list.Forall_cons in Hd as [Hb _].
    unfold isdigit in Hb. bool_prop. destruct (Z.eqb_spec (bz b) 0); [lia|].
    destruct (Z.ltb_spec UINT32_MAX (Z.of_nat (length (b :: l)))) as [Hx|_].
    { unfold UINT32_MAX in Hx. lia. }
    rewrite alloc_copy_spec by (rewrite ?length_app; cbn [length]; lia).
    by rewrite Hg, Nat2Z.id, take_app_length. }
  split.
  - intros uid Huid. eexists. split; [by apply Hfrom|]. pose proof Huid as [H0 H1].
    destruct (decimal_spec 19 uid) as (Hc & Hv & Hlen & _); [lia|].
    set (l := decimal 20 uid) in *. set (u := mk_utf8 _ _).
    assert (Hb : utf8_bytes u = l) by (unfold utf8_bytes, u; cbn; by rewrite Nat2Z.id, take_app_length).
    apply (to_id_spec u (l ++ [x00])); [|done|done|done|rewrite Hb; unfold UINT32_MAX; split_and!; [done|done|lia]].
    split; cbn [u utf8string_len utf8string_val]; [unfold in_width|rewrite length_app; cbn [length]]; lia.
  - intros u n Hwf [v Ev] Hp. apply (to_id_spec u v) in Hp as (Hc & -> & Hle); [|done..].
    assert (Hn : in_width 32 (val_from 0 (utf8_bytes u))).
    { split; [apply (val_from_ge 0); [done|apply Hc]|]. unfold UINT32_MAX in Hle. lia. }
    split; [done|]. eexists. split; [by apply Hfrom|].
    rewrite (decimal_unique 19) by (done || (unfold UINT32_MAX in Hle; lia)).
    unfold utf8_bytes at 1. cbn. by rewrite Nat2Z.id, take_app_length.
Qed.

Lemma utf8_uid_roundtrip_witness :
  ∃ u, utf8string_from_uid (λ _, true) utf8_null 65534 = (0%Z, u) ∧
       utf8string_to_uid (Some u) = inr 65534%Z.
Proof. apply (utf8_uid_roundtrip (λ _, true) utf8_null); done. Defined.

(** ** Comparison *)

(** [strncmp] looks no further than a common terminator. *)
Lemma strncmp_nul n a b p x y :
  take n a = p ++ x00 :: x → take n b = p ++ x00 :: y → strncmp n a b = 0%Z.
Proof.
  unfold strncmp. revert n a b. induction p as [|c p IH]; intros n a b Ha Hb;
    (destruct n as [|n]; [done|]); destruct a as [|u a], b as [|w b]; try done;
    cbn in Ha, Hb; injection Ha as -> Ha; injection Hb as -> Hb; cbn [strncmp_by drop];
    unfold at_, rd; cbn [nth]; rewrite Z.eqb_refl; cbn [negb]; [done|].
  case_if; [done|]. rewrite !drop_0. by apply IH.
Qed.

Lemma eq_same_len a b va vb :
  utf8_wf a → utf8_wf b → utf8string_val a = Some va → utf8string_val b = Some vb →
  utf8string_eq (Some a) (Some b) = true ↔
  utf8string_len a = utf8string_len b ∧ strncmp (Z.to_nat (utf8string_len a)) va vb = 0%Z.
Proof.
  intros Ha Hb Ea Eb. unfold utf8string_eq, utf8string_cmp, utf8_cmp, utf8_val_or_empty.
  rewrite Ea, Eb. cbn [default from_option id]. rewrite Z.eqb_eq.
  destruct (Z.ltb_spec (utf8string_len a) (utf8string_len b)) as [Hlt|Hge].
  - case_if; bool_prop; split; lia.
  - destruct (Z.ltb_spec (utf8string_len b) (utf8string_len a)) as [Hlt|Hge'].
    + case_if; bool_prop; split; lia.
    + assert (He : utf8string_len b = utf8string_len a) by lia. rewrite He.
      case_if; bool_prop; [split; lia|]. by split.
Qed.

(** Two strings that agree up to and including a NUL compare equal whatever
    follows it, as long as they have the same length; when one of them has no NUL,
    they compare equal exactly if their bytes are the same. *)
Theorem utf8_eq_stops_at_nul a b va vb :
  utf8_wf a → utf8_wf b → utf8string_val a = Some va → utf8string_val b = Some vb →
  (Forall (λ x, x ≠ x00) (utf8_bytes a) →
   utf8string_eq (Some a) (Some b) = true ↔ utf8_bytes a = utf8_bytes b) ∧
  (∀ p x y, utf8_bytes a = p ++ x00 :: x → utf8_bytes b = p ++ x00 :: y →
   length x = length y → utf8string_eq (Some a) (Some b) = true).
Proof.
  intros Ha Hb Ea Eb. pose proof (eq_same_len a b va vb Ha Hb Ea Eb) as Heq.
  pose proof (length_utf8_bytes _ _ Ha Ea) as Hla. pose proof (length_utf8_bytes _ _ Hb Eb) as Hlb.
  assert (Hta : utf8_bytes a = take (Z.to_nat (utf8string_len a)) va) by (unfold utf8_bytes; by rewrite Ea).
  assert (Htb : utf8_bytes b = take (Z.to_nat (utf8string_len b)) vb) by (unfold utf8_bytes; by rewrite Eb).
  destruct Ha as [_ Hva], Hb as [_ Hvb]. rewrite Ea in Hva. rewrite Eb in Hvb. split.
  - intros Hz. rewrite Heq. split.
    + intros [Hlen Hs]. rewrite Hta, Htb, <-Hlen. apply strncmp_eq in Hs; [done|lia|lia|by rewrite <-Hta].
    + intros He. assert (Hlen : utf8string_len a = utf8string_len b) by (rewrite <-Hla, <-Hlb; by rewrite He).
      split; [done|]. apply strncmp_eq; [lia|lia|by rewrite <-Hta|].
      rewrite Hlen at 2. by rewrite <-Hta, <-Htb.
  - intros p x y Hx Hy Hxy. apply Heq.
    assert (Hlen : utf8string_len a = utf8string_len b).
    { rewrite <-Hla, <-Hlb, Hx, Hy, !length_app. cbn. lia. }
    split; [done|]. apply (strncmp_nul _ _ _ p x y); [by rewrite <-Hta|]. by rewrite Hlen, <-Htb.
Qed.

(** The owners "a NUL b" and "a NUL c". *)
Lemma utf8_eq_stops_at_nul_witness :
  utf8string_eq (Some (mk_utf8 3 (Some [x61; x00; x62]))) (Some (mk_utf8 3 (Some [x61; x00; x63]))) = true.
Proof.
  destruct (utf8_eq_stops_at_nul (mk_utf8 3 (Some [x61; x00; x62])) (mk_utf8 3 (Some [x61; x00; x63]))
    [x61; x00; x62] [x61; x00; x63]) as [_ H]; [by split|by split|done|done|].
  by apply (H [x61] [x62] [x63]).
Defined.

End Utf8Theorems.
