(* ===== verification/Mojette.v ===== *)
(** * The Mojette transform
      ([src/lib/ec/mojette.h], [src/lib/ec/mojette.c])

    The forward transform with its SIMD row kernels and the scalar path, the
    two corner-peeling inverses, the two geometry-driven inverses and the
    dispatchers.  A [uint64_t] is a [Z]; the only operation on it is XOR.
    Grid dimensions, counts and array positions that are never negative are
    [nat], slopes and bin arithmetic are [Z].  Allocations succeed, and the
    [assert] of the fast path is that of a release build. *)

From S2P Require Import Prelude.
From stdpp Require Import sorting.

Module Mojette.

Definition ENOSYS : Z := 38.

Definition MOJ_MAX_STRIPE_WIDTH : Z := 64.

Record moj_direction := mk_dir { md_p : Z; md_q : Z }.
Record moj_projection := mk_proj { mp_bins : list Z; mp_nbins : nat }.

(** The directions an array of them answers outside its range; never read. *)
Definition no_dir : moj_direction := mk_dir 0 0.
Definition no_proj : moj_projection := mk_proj [] 0.

Definition dir (dirs : list moj_direction) (i : nat) : moj_direction := rd no_dir dirs i.
Definition proj (projs : list moj_projection) (i : nat) : moj_projection := rd no_proj projs i.

(** ** Sizes and offsets *)

Definition moj_projection_size (p q : Z) (P Q : nat) : Z :=
  let abs_p := (if p <? 0 then - p else p)%Z in
  let abs_q := (if q <? 0 then - q else q)%Z in
  (abs_p * (Z.of_nat Q - 1) + abs_q * (Z.of_nat P - 1) + 1)%Z.

Definition moj_bin_offset (p q : Z) (P Q : nat) : Z :=
  let min_b := 0%Z in
  let min_b := if (p <? 0)%Z then (min_b + p * (Z.of_nat Q - 1))%Z else min_b in
  let min_b := if (q <? 0)%Z then (min_b + q * (Z.of_nat P - 1))%Z else min_b in
  min_b.

(** [calloc] gives zeroed bins. *)
Definition moj_projection_create (nbins : Z) : moj_projection :=
  mk_proj (replicate (Z.to_nat nbins) 0%Z) (Z.to_nat nbins).

(** ** Directions and the Katz test *)

Definition moj_directions_generate (n : nat) : list moj_direction :=
  let half := (n / 2)%nat in
  let d := replicate n no_dir in
  let '(d, idx) := for_range 0 half (λ j '(d, idx),
    let i := (half - j)%nat in
    (wr d idx (mk_dir (- Z.of_nat i) 1), S idx)) (d, O) in
  let '(d, _) := for_range 1 (n - idx) (λ i '(d, idx),
    (wr d idx (mk_dir (Z.of_nat i) 1), S idx)) (d, idx) in
  d.

Definition moj_katz_check (dirs : list moj_direction) (n P Q : nat) : bool :=
  let '(sum_abs_p, sum_abs_q) := for_range 0 n (λ i '(sp, sq),
    let ap := md_p (dir dirs i) in
    let aq := md_q (dir dirs i) in
    ((sp + (if ap <? 0 then - ap else ap))%Z, (sq + (if aq <? 0 then - aq else aq))%Z))
    (0%Z, 0%Z) in
  ((Z.of_nat P <=? sum_abs_p) || (Z.of_nat Q <=? sum_abs_q))%Z.

(** ** Forward transform: the row kernels

    [fwd_row_seq isa src P bins o] is [moj_fwd_row_seq(src, P, bins + o)] of the
    instruction set the file is compiled for.  A vector register is the list
    of its 64-bit lanes. *)

Inductive isa := NEON | AVX2 | SSE2 | NoSimd.

Definition vload (lanes : nat) (a : list Z) (i : nat) : list Z := take lanes (drop i a).
Definition vxor (a b : list Z) : list Z := zip_with Z.lxor a b.
Definition vstore (a : list Z) (i : nat) (v : list Z) : list Z := splice i v a.

(** [for (; col + w <= P; col += w) body(col)], with the final [col]. *)
Definition col_loop (w P : nat) (body : nat → list Z → list Z) (s : nat * list Z)
    : nat * list Z :=
  let '(col, bins) := s in
  let turns := ((P - col) / w)%nat in
  ((col + w * turns)%nat, for_range 0 turns (λ j bins, body (col + w * j)%nat bins) bins).

(** One register: [dst[col..] ^= src[col..]]. *)
Definition vxor_at (lanes : nat) (src : list Z) (o col : nat) (bins : list Z) : list Z :=
  let dv := vload lanes bins (o + col) in
  let sv := vload lanes src col in
  vstore bins (o + col) (vxor dv sv).

(** Two registers loaded before either is stored. *)
Definition vxor2_at (lanes : nat) (src : list Z) (o col : nat) (bins : list Z) : list Z :=
  let d0 := vload lanes bins (o + col) in
  let d1 := vload lanes bins (o + col + lanes) in
  let s0 := vload lanes src col in
  let s1 := vload lanes src (col + lanes) in
  let bins := vstore bins (o + col) (vxor d0 s0) in
  vstore bins (o + col + lanes) (vxor d1 s1).

(** [for (; col < P; col++) dst[col] ^= src[col]]. *)
Definition xor_tail (src : list Z) (o col : nat) (bins : list Z) : list Z :=
  wr bins (o + col) (Z.lxor (rd 0%Z bins (o + col)) (rd 0%Z src col)).

Definition fwd_row_seq_neon (src : list Z) (P : nat) (bins : list Z) (o : nat) : list Z :=
  let s := col_loop 4 P (vxor2_at 2 src o) (O, bins) in
  snd (col_loop 1 P (xor_tail src o) s).

Definition fwd_row_seq_avx2 (src : list Z) (P : nat) (bins : list Z) (o : nat) : list Z :=
  let s := col_loop 8 P (vxor2_at 4 src o) (O, bins) in
  let s := col_loop 4 P (vxor_at 4 src o) s in
  let s := col_loop 2 P (vxor_at 2 src o) s in
  snd (col_loop 1 P (xor_tail src o) s).

Definition fwd_row_seq_sse2 (src : list Z) (P : nat) (bins : list Z) (o : nat) : list Z :=
  let s := col_loop 4 P (vxor2_at 2 src o) (O, bins) in
  snd (col_loop 1 P (xor_tail src o) s).

Definition moj_fwd_row_seq (arch : isa) (src : list Z) (P : nat) (bins : list Z) (o : nat)
    : list Z :=
  match arch with
  | NEON => fwd_row_seq_neon src P bins o
  | AVX2 => fwd_row_seq_avx2 src P bins o
  | SSE2 => fwd_row_seq_sse2 src P bins o
  | NoSimd => bins
  end.

(** ** Forward transform *)

(** The bin of a pixel: [row * p + col * q - off]. *)
Definition bin_index (p q off : Z) (row col : nat) : Z :=
  (Z.of_nat row * p + Z.of_nat col * q - off)%Z.

(** [scalar_fallback]: clear the declared bins, then scatter every pixel. *)
Definition forward_scalar (rows : list (list Z)) (P Q : nat) (p q off : Z)
    (prj : moj_projection) : moj_projection :=
  let bins := splice 0 (replicate (mp_nbins prj) 0%Z) (mp_bins prj) in
  let bins := for_range 0 Q (λ row bins,
    let src := rd [] rows row in
    for_range 0 P (λ col bins,
      let b := Z.to_nat (bin_index p q off row col) in
      wr bins b (Z.lxor (rd 0%Z bins b) (rd 0%Z src col))) bins) bins in
  mk_proj bins (mp_nbins prj).

(** The fast path of [q == 1]; [inr tt] is the jump to [scalar_fallback]. *)
Definition forward_simd (arch : isa) (rows : list (list Z)) (P Q : nat) (p off : Z)
    (prj : moj_projection) : list Z + unit :=
  for_break 0 Q (λ row bins,
    let src := rd [] rows row in
    let dst := (Z.of_nat row * p - off)%Z in
    if (row =? 0)%nat then
      let before := Z.to_nat dst in
      let after_s := (Z.of_nat (mp_nbins prj) - (dst + Z.of_nat P))%Z in
      if (after_s <? 0)%Z then inr tt
      else
        let bins := splice 0 (replicate before 0%Z) bins in
        let bins := splice (Z.to_nat dst) (take P src) bins in
        inl (splice (Z.to_nat dst + P) (replicate (Z.to_nat after_s) 0%Z) bins)
    else inl (moj_fwd_row_seq arch src P bins (Z.to_nat dst))) (mp_bins prj).

Definition has_simd (arch : isa) : bool :=
  match arch with NoSimd => false | _ => true end.

Definition moj_forward_impl (arch : isa) (moj_scalar_only : bool) (rows : list (list Z))
    (P Q : nat) (dirs : list moj_direction) (n : nat) (projs : list moj_projection)
    : list moj_projection :=
  for_range 0 n (λ i projs,
    let p := md_p (dir dirs i) in
    let q := md_q (dir dirs i) in
    let off := moj_bin_offset p q P Q in
    let prj := proj projs i in
    if has_simd arch && negb moj_scalar_only && (q =? 1)%Z then
      match forward_simd arch rows P Q p off prj with
      | inl bins => wr projs i (mk_proj bins (mp_nbins prj))
      | inr _ => wr projs i (forward_scalar rows P Q p q off prj)
      end
    else wr projs i (forward_scalar rows P Q p q off prj)) projs.

Definition grid_rows (grid : list Z) (P Q : nat) : list (list Z) :=
  map (λ r, drop (r * P) grid) (seq 0 Q).

Definition moj_forward (arch : isa) (moj_scalar_only : bool) (grid : list Z) (P Q : nat)
    (dirs : list moj_direction) (n : nat) (projs : list moj_projection)
    : list moj_projection :=
  moj_forward_impl arch moj_scalar_only (grid_rows grid P Q) P Q dirs n projs.

Definition moj_forward_rows (arch : isa) (moj_scalar_only : bool) (rows : list (list Z))
    (P Q : nat) (dirs : list moj_direction) (n : nat) (projs : list moj_projection)
    : list moj_projection :=
  moj_forward_impl arch moj_scalar_only rows P Q dirs n projs.

(** ** Corner peeling

    The locals of the peeling loop.  [moj_inverse_peel] and
    [moj_inverse_peel_sparse] run the same loop; the second does not look for
    unknown pixels in the rows it skips. *)

Record peel_st := mk_peel {
  ps_grid : list Z;
  ps_known : list bool;
  ps_recovered : Z;
  ps_progress : bool;
  ps_projs : list moj_projection;
  ps_count : list (list Z)
}.

Definition peel_offsets (dirs : list moj_direction) (n P Q : nat) : list Z :=
  map (λ i, moj_bin_offset (md_p (dir dirs i)) (md_q (dir dirs i)) P Q) (seq 0 n).

(** The bin of a pixel in projection [i]. *)
Definition pixel_bin (dirs : list moj_direction) (offsets : list Z) (i row col : nat) : nat :=
  Z.to_nat (bin_index (md_p (dir dirs i)) (md_q (dir dirs i)) (rd 0%Z offsets i) row col).

(** The first unknown pixel of bin [b], in row-major order ([goto found]). *)
Definition peel_find (skip_row : nat → bool) (known : list bool) (P Q : nat) (p q off : Z)
    (b : nat) : option (nat * nat) :=
  match for_break 0 Q (λ row (_ : unit),
    if skip_row row then inl tt
    else for_break 0 P (λ col (_ : unit),
      if rd false known (row * P + col) then inl tt
      else
        let bb := bin_index p q off row col in
        if (bb =? Z.of_nat b)%Z then inr (row, col) else inl tt) tt) tt with
  | inl _ => None
  | inr px => Some px
  end.

(** XOR a recovered pixel out of every projection and decrement the counts. *)
Definition peel_remove (dirs : list moj_direction) (offsets : list Z) (n : nat)
    (u_row u_col : nat) (val : Z) (s : list moj_projection * list (list Z))
    : list moj_projection * list (list Z) :=
  for_range 0 n (λ j '(projs, count),
    let bj := pixel_bin dirs offsets j u_row u_col in
    let prj := proj projs j in
    (wr projs j (mk_proj (wr (mp_bins prj) bj (Z.lxor (rd 0%Z (mp_bins prj) bj) val))
                         (mp_nbins prj)),
     let cj := rd [] count j in
     wr count j (wr cj bj (rd 0%Z cj bj - 1)%Z))) s.

(** The body of the scan for bin [b] of projection [i]. *)
Definition peel_bin (skip_row : nat → bool) (P Q : nat) (dirs : list moj_direction)
    (offsets : list Z) (n i b : nat) (s : peel_st) : peel_st :=
  let p := md_p (dir dirs i) in
  let q := md_q (dir dirs i) in
  let off := rd 0%Z offsets i in
  if negb (rd 0%Z (rd [] (ps_count s) i) b =? 1)%Z then s
  else
    match peel_find skip_row (ps_known s) P Q p q off b with
    | None => s
    | Some (u_row, u_col) =>
        let val := rd 0%Z (mp_bins (proj (ps_projs s) i)) b in
        let '(projs, count) :=
          peel_remove dirs offsets n u_row u_col val (ps_projs s, ps_count s) in
        mk_peel (wr (ps_grid s) (u_row * P + u_col) val)
                (wr (ps_known s) (u_row * P + u_col) true)
                (ps_recovered s + 1) true projs count
    end.

(** One pass over all bins of all projections. *)
Definition peel_pass (skip_row : nat → bool) (P Q : nat) (dirs : list moj_direction)
    (offsets : list Z) (n : nat) (s : peel_st) : peel_st :=
  for_range 0 n (λ i s,
    for_range 0 (mp_nbins (proj (ps_projs s) i))
      (λ b s, peel_bin skip_row P Q dirs offsets n i b s) s) s.

(** [while (recovered < total)]; [None] when the fuel runs out. *)
Fixpoint peel_loop (fuel : nat) (skip_row : nat → bool) (P Q : nat)
    (dirs : list moj_direction) (offsets : list Z) (n : nat) (s : peel_st)
    : option peel_st :=
  if (ps_recovered s <? Z.of_nat (P * Q))%Z then
    match fuel with
    | O => None
    | S fuel =>
        let s := peel_pass skip_row P Q dirs offsets n
                   (mk_peel (ps_grid s) (ps_known s) (ps_recovered s) false
                            (ps_projs s) (ps_count s)) in
        if negb (ps_progress s) then Some s
        else peel_loop fuel skip_row P Q dirs offsets n s
    end
  else Some s.

(** [ret = recovered == total ? 0 : -EIO], with the grid and the projections
    the caller passed in. *)
Definition peel_result (P Q : nat) (s : peel_st) : Z * list Z * list moj_projection :=
  ((if (ps_recovered s =? Z.of_nat (P * Q))%Z then 0 else - EIO)%Z,
   ps_grid s, ps_projs s).

Definition zero_counts (projs : list moj_projection) (n : nat) : list (list Z) :=
  map (λ i, replicate (mp_nbins (proj projs i)) 0%Z) (seq 0 n).

(** [count[i][b]++]. *)
Definition count_inc (count : list (list Z)) (i b : nat) : list (list Z) :=
  let ci := rd [] count i in wr count i (wr ci b (rd 0%Z ci b + 1)%Z).

Definition moj_inverse_peel (grid : list Z) (P Q : nat) (dirs : list moj_direction)
    (n : nat) (projs : list moj_projection) : option (Z * list Z * list moj_projection) :=
  let total := (P * Q)%nat in
  let grid := splice 0 (replicate total 0%Z) grid in
  let known := replicate total false in
  let offsets := peel_offsets dirs n P Q in
  let count := zero_counts projs n in
  let count := for_range 0 Q (λ row count, for_range 0 P (λ col count,
    for_range 0 n (λ i count, count_inc count i (pixel_bin dirs offsets i row col)) count)
    count) count in
  option_map (peel_result P Q)
    (peel_loop (S total) (λ _, false) P Q dirs offsets n
       (mk_peel grid known 0 false projs count)).

(** The rows of [missing] marked; [inr] is the early [-EINVAL]. *)
Definition mark_missing (Q : nat) (missing : list Z) (n_missing : nat) : list bool + Z :=
  for_break 0 n_missing (λ i missing_row,
    let m := rd 0%Z missing i in
    if ((m <? 0) || (Z.of_nat Q <=? m))%Z then inr (- EINVAL)%Z
    else inl (wr missing_row (Z.to_nat m) true)) (replicate Q false).

(** [missing] is [None] for a null pointer. *)
Definition moj_inverse_peel_sparse (grid : list Z) (P Q : nat) (dirs : list moj_direction)
    (n : nat) (projs : list moj_projection) (missing : option (list Z)) (n_missing : nat)
    : option (Z * list Z * list moj_projection) :=
  let total := (P * Q)%nat in
  match missing with
  | None => Some ((- EINVAL)%Z, grid, projs)
  | Some missing =>
      if (n_missing <? 1)%nat || (Q <? n_missing)%nat then Some ((- EINVAL)%Z, grid, projs)
      else
        match mark_missing Q missing n_missing with
        | inr e => Some (e, grid, projs)
        | inl missing_row =>
            let known := for_range 0 Q (λ row known,
              if rd false missing_row row then known
              else for_range 0 P (λ col known, wr known (row * P + col) true) known)
              (replicate total false) in
            let n_unknown := (n_missing * P)%nat in
            let recovered := (Z.of_nat total - Z.of_nat n_unknown)%Z in
            let offsets := peel_offsets dirs n P Q in
            let '(projs, count) :=
              for_range 0 Q (λ row s, for_range 0 P (λ col s,
                let is_known := negb (rd false missing_row row) in
                for_range 0 n (λ i '(projs, count),
                  let b := pixel_bin dirs offsets i row col in
                  if is_known then
                    let prj := proj projs i in
                    (wr projs i (mk_proj (wr (mp_bins prj) b
                       (Z.lxor (rd 0%Z (mp_bins prj) b) (rd 0%Z grid (row * P + col))))
                       (mp_nbins prj)), count)
                  else (projs, count_inc count i b)) s) s)
                (projs, zero_counts projs n) in
            option_map (peel_result P Q)
              (peel_loop (S total) (λ row, negb (rd false missing_row row)) P Q dirs
                 offsets n (mk_peel grid known recovered false projs count))
        end
  end.

(** ** Geometry-driven inverse *)

Record moj_gd_pair := mk_pair { gp_p : Z; gp_q : Z; gp_idx : nat }.

(** The slopes [p/q] are compared as doubles; every pair that is sorted has
    [q == 1], where the quotient is [p] itself and the test is exact. *)
Definition moj_gd_pair_cmp (pa pb : moj_gd_pair) : Z :=
  let sa := (gp_p pa * gp_q pb)%Z in
  let sb := (gp_p pb * gp_q pa)%Z in
  if (sb <? sa)%Z then (-1)%Z else if (sa <? sb)%Z then 1%Z else 0%Z.

Definition gd_le (pa pb : moj_gd_pair) : Prop := (moj_gd_pair_cmp pa pb <= 0)%Z.

#[export] Instance gd_le_dec : RelDecision gd_le.
Proof. intros a b. unfold gd_le. apply _. Defined.

(** [qsort] with that comparison: some sorted rearrangement. *)
Definition gd_sort (dirs : list moj_direction) (np : nat) : list moj_gd_pair :=
  merge_sort gd_le
    (map (λ i, mk_pair (md_p (dir dirs i)) (md_q (dir dirs i)) i) (seq 0 np)).

Definition no_pair : moj_gd_pair := mk_pair 0 0 0.

Definition gd_sorted_idx (pairs : list moj_gd_pair) (l : nat) : nat :=
  gp_idx (rd no_pair pairs l).
Definition gd_sorted_p (pairs : list moj_gd_pair) (l : nat) : Z :=
  gp_p (rd no_pair pairs l).
Definition gd_off (dirs : list moj_direction) (pairs : list moj_gd_pair) (P Q l : nat) : Z :=
  let d := dir dirs (gd_sorted_idx pairs l) in
  moj_bin_offset (md_p d) (md_q d) P Q.

(** The last offset of the recurrence. *)
Definition gd_k_last (sorted_p : nat → Z) (np : nat) : Z :=
  let '(s_minus, s_plus) := for_range 1 (np - 2) (λ i '(s_minus, s_plus),
    let p := sorted_p i in
    ((s_minus + (if p <? 0 then - p else 0))%Z, (s_plus + (if 0 <? p then p else 0))%Z))
    (0%Z, 0%Z) in
  let p_last := sorted_p (np - 1)%nat in
  let neg_term := ((if p_last <? 0 then - p_last else 0) + s_minus)%Z in
  let pos_term := ((if 0 <? p_last then p_last else 0) + s_plus)%Z in
  if (pos_term <? neg_term)%Z then neg_term else pos_term.

Definition gd_k_off_single (sorted_p : nat → Z) : list Z :=
  let p0 := sorted_p O in [(if p0 <? 0 then - p0 else p0)%Z].

(** [k_off] for dense failures. *)
Definition gd_k_off (sorted_p : nat → Z) (np : nat) : list Z :=
  if (np =? 1)%nat then gd_k_off_single sorted_p
  else
    let k_off := wr (replicate np 0%Z) (np - 1) (gd_k_last sorted_p np) in
    for_range 0 (np - 1) (λ j k_off,
      let i := (np - 2 - j)%nat in
      wr k_off i (rd 0 k_off (i + 1) + sorted_p (i + 1)%nat)%Z) k_off.

(** [k_off] with the correction for the known rows between missing ones. *)
Definition gd_k_off_sparse (sorted_p : nat → Z) (missing : list Z) (np : nat) : list Z :=
  if (np =? 1)%nat then gd_k_off_single sorted_p
  else
    let k_off := wr (replicate np 0%Z) (np - 1) (gd_k_last sorted_p np) in
    for_range 0 (np - 1) (λ j k_off,
      let i := (np - 2 - j)%nat in
      let k_off := wr k_off i (rd 0 k_off (i + 1) + sorted_p (i + 1)%nat)%Z in
      let gap := (rd 0 missing (i + 1)%nat - rd 0 missing i - 1)%Z in
      if (0 <? gap)%Z then
        let corr := (gap * sorted_p (i + 1)%nat)%Z in
        for_range (i + 1) (np - (i + 1)) (λ j k_off, wr k_off j (rd 0 k_off j - corr)%Z) k_off
      else k_off) k_off.

Definition gd_m_off (k_off : list Z) (np : nat) : Z :=
  for_range 1 (np - 1) (λ l m_off, if (rd 0 k_off l <? m_off)%Z then rd 0%Z k_off l else m_off)
    (rd 0%Z k_off 0).

Definition gd_k_lo (k_off : list Z) (np : nat) : Z :=
  let k_lo_neg := rd 0%Z k_off 0 in
  let k_hi_neg := rd 0%Z k_off (np - 1) in
  (- (if k_hi_neg <? k_lo_neg then k_lo_neg else k_hi_neg))%Z.

(** The walk up the line of slope [p] through [(ytop, xtop)]. *)
Fixpoint gd_walk_up (grid : list Z) (P : nat) (p : Z) (ytop : nat) (xtop pixel : Z) : Z :=
  match ytop with
  | O => pixel
  | S y =>
      let x := (xtop + p)%Z in
      if ((0 <=? x) && (x <? Z.of_nat P))%Z then
        gd_walk_up grid P p y x (Z.lxor pixel (rd 0%Z grid (y * P + Z.to_nat x)))
      else pixel
  end.

(** The walk down; [rest] rows are below [ydn]. *)
Fixpoint gd_walk_down (grid : list Z) (P : nat) (p : Z) (rest ydn : nat) (xdn pixel : Z) : Z :=
  match rest with
  | O => pixel
  | S rest =>
      let x := (xdn - p)%Z in
      if ((0 <=? x) && (x <? Z.of_nat P))%Z then
        gd_walk_down grid P p rest (S ydn) x
          (Z.lxor pixel (rd 0%Z grid (S ydn * P + Z.to_nat x)))
      else pixel
  end.

Definition gd_others (grid : list Z) (P Q : nat) (p : Z) (y : nat) (x : Z) : Z :=
  if negb (p =? 0)%Z then
    gd_walk_down grid P p (Q - 1 - y) y x (gd_walk_up grid P p y x 0)
  else
    for_range 0 Q (λ i pixel,
      if negb (i =? y)%nat then Z.lxor pixel (rd 0%Z grid (i * P + Z.to_nat x)) else pixel) 0%Z.

(** The body of the sweep: row [row_of l], column [k + k_off[l]]. *)
Definition gd_step (dirs : list moj_direction) (pairs : list moj_gd_pair) (k_off : list Z)
    (row_of : nat → nat) (projs : list moj_projection) (P Q : nat) (k : Z) (l : nat)
    (grid : list Z) : list Z :=
  let x := (k + rd 0 k_off l)%Z in
  let y := row_of l in
  if ((x <? 0) || (Z.of_nat P <=? x))%Z then grid
  else
    let orig := gd_sorted_idx pairs l in
    let p := gd_sorted_p pairs l in
    let pixel := gd_others grid P Q p y x in
    let b := Z.to_nat (Z.of_nat y * p + x - gd_off dirs pairs P Q l) in
    wr grid (y * P + Z.to_nat x) (Z.lxor (rd 0%Z (mp_bins (proj projs orig)) b) pixel).

Definition gd_sweep (dirs : list moj_direction) (pairs : list moj_gd_pair) (k_off : list Z)
    (row_of : nat → nat) (projs : list moj_projection) (P Q np : nat) (grid : list Z)
    : list Z :=
  let k_lo := gd_k_lo k_off np in
  let k_hi := (Z.of_nat P - gd_m_off k_off np)%Z in
  for_range 0 (Z.to_nat (k_hi - k_lo)) (λ j grid,
    for_range 0 np (λ l grid,
      gd_step dirs pairs k_off row_of projs P Q (k_lo + Z.of_nat j) l grid) grid) grid.

Definition q_all_one (dirs : list moj_direction) (n : nat) : bool :=
  match for_break 0 n (λ i (_ : unit),
    if negb (md_q (dir dirs i) =? 1)%Z then inr tt else inl tt) tt with
  | inl _ => true
  | inr _ => false
  end.

Definition moj_inverse_gd (grid : list Z) (P Q : nat) (dirs : list moj_direction) (n : nat)
    (projs : list moj_projection) : Z * list Z :=
  let np := n in
  if negb (np =? Q)%nat || (P <? 1)%nat || (Q <? 1)%nat then ((- EINVAL)%Z, grid)
  else if negb (q_all_one dirs np) then ((- EINVAL)%Z, grid)
  else
    let grid := splice 0 (replicate (P * Q) 0%Z) grid in
    let pairs := gd_sort dirs np in
    let k_off := gd_k_off (gd_sorted_p pairs) np in
    (0%Z, gd_sweep dirs pairs k_off (λ l, l) projs P Q np grid).

(** [missing] in range and strictly ascending. *)
Definition gd_missing_ok (missing : list Z) (n_missing Q : nat) : bool :=
  match for_break 0 n_missing (λ i (_ : unit),
    let m := rd 0%Z missing i in
    if ((m <? 0) || (Z.of_nat Q <=? m))%Z then inr tt
    else if (0 <? i)%nat && (m <=? rd 0 missing (i - 1)%nat)%Z then inr tt
    else inl tt) tt with
  | inl _ => true
  | inr _ => false
  end.

Definition moj_inverse_gd_sparse (grid : list Z) (P Q : nat) (dirs : list moj_direction)
    (n : nat) (projs : list moj_projection) (missing : list Z) (n_missing : nat)
    : Z * list Z :=
  let np := n in
  if negb (np =? n_missing)%nat || (P <? 1)%nat || (Q <? 1)%nat || (n_missing <? 1)%nat
     || (Q <? n_missing)%nat then ((- EINVAL)%Z, grid)
  else if negb (q_all_one dirs np) then ((- EINVAL)%Z, grid)
  else if negb (gd_missing_ok missing n_missing Q) then ((- EINVAL)%Z, grid)
  else
    let pairs := gd_sort dirs np in
    let k_off := gd_k_off_sparse (gd_sorted_p pairs) missing np in
    (0%Z, gd_sweep dirs pairs k_off (λ l, Z.to_nat (rd 0%Z missing l)) projs P Q np grid).

(** ** Dispatchers *)

Definition moj_inverse (moj_gd_enabled : bool) (grid : list Z) (P Q : nat)
    (dirs : list moj_direction) (n : nat) (projs : list moj_projection)
    : option (Z * list Z * list moj_projection) :=
  let peel grid := moj_inverse_peel grid P Q dirs n projs in
  if moj_gd_enabled && (n =? Q)%nat then
    if q_all_one dirs n then
      let '(ret, grid) := moj_inverse_gd grid P Q dirs n projs in
      if negb (ret =? - ENOSYS)%Z && negb (ret =? - EINVAL)%Z then Some (ret, grid, projs)
      else peel grid
    else peel grid
  else peel grid.

Definition moj_inverse_sparse (moj_gd_enabled : bool) (grid : list Z) (P Q : nat)
    (dirs : list moj_direction) (n : nat) (projs : list moj_projection)
    (missing : list Z) (n_missing : nat) : option (Z * list Z * list moj_projection) :=
  let peel grid := moj_inverse_peel_sparse grid P Q dirs n projs (Some missing) n_missing in
  if moj_gd_enabled && (n =? n_missing)%nat then
    if q_all_one dirs n then
      let '(ret, grid) := moj_inverse_gd_sparse grid P Q dirs n projs missing n_missing in
      if negb (ret =? - ENOSYS)%Z && negb (ret =? - EINVAL)%Z then Some (ret, grid, projs)
      else peel grid
    else peel grid
  else peel grid.

End Mojette.
