(* ===== verification/MojetteForward.v ===== *)
(** * The forward Mojette transform computes the projections

    Sums over the pixels of a grid, the reference definition of a projection,
    and the proof that the SIMD kernels and the scalar path both compute it,
    inside the bins they are given. *)

From S2P Require Import Prelude.
From S2P Require Import Mojette.
Import Mojette.

Module MojetteForward.

(** ** Finite sums in a commutative monoid *)

Section msum.
Context {M : Type} (op : M → M → M) (e : M).
Context `{!Comm (=) op, !Assoc (=) op, !LeftId (=) e op}.

Lemma op_comm a b : op a b = op b a.
Proof. apply (comm op). Qed.
Lemma op_assoc a b c : op a (op b c) = op (op a b) c.
Proof. apply (assoc op). Qed.
Lemma op_e a : op e a = a.
Proof. apply (left_id e op). Qed.

Definition msum {A} (l : list A) (f : A → M) : M := foldr (λ x acc, op (f x) acc) e l.

Lemma msum_cons {A} x (l : list A) f : msum (x :: l) f = op (f x) (msum l f).
Proof. done. Qed.

Lemma msum_app {A} (l1 l2 : list A) f :
  msum (l1 ++ l2) f = op (msum l1 f) (msum l2 f).
Proof.
  induction l1 as [|x l IH]; cbn [app]; [by rewrite op_e|].
  by rewrite !msum_cons, <-op_assoc, <-IH.
Qed.

Lemma msum_snoc {A} (l : list A) x f : msum (l ++ [x]) f = op (msum l f) (f x).
Proof. rewrite msum_app, msum_cons. by rewrite (op_comm (f x)), op_e. Qed.

Lemma msum_ext {A} (l : list A) f g :
  (∀ x, x ∈ l → f x = g x) → msum l f = msum l g.
Proof.
  induction l as [|x l IH]; intros H; [done|].
  rewrite !msum_cons, H by constructor. f_equal. apply IH. intros y Hy. apply H.
  by constructor.
Qed.

Lemma msum_unit {A} (l : list A) f : (∀ x, x ∈ l → f x = e) → msum l f = e.
Proof.
  induction l as [|x l IH]; intros H; [done|].
  rewrite msum_cons, H, op_e by constructor. apply IH. intros y Hy. apply H.
  by constructor.
Qed.

Lemma msum_op {A} (l : list A) f g :
  msum l (λ x, op (f x) (g x)) = op (msum l f) (msum l g).
Proof.
  induction l as [|x l IH]; [by rewrite op_e|].
  rewrite !msum_cons, IH.
  rewrite !op_assoc. f_equal. rewrite <-!op_assoc. f_equal. apply op_comm.
Qed.

(** Only one term counts. *)
Lemma msum_single {A} (l : list A) f x :
  NoDup l → x ∈ l → (∀ y, y ∈ l → y ≠ x → f y = e) → msum l f = f x.
Proof.
  intros Hnd Hx H. apply list_elem_of_split in Hx as (l1 & l2 & ->).
  apply NoDup_app in Hnd as (_ & Hd1 & Hnd). apply list.NoDup_cons in Hnd as [Hd2 _].
  rewrite msum_app, msum_cons.
  rewrite (msum_unit l1), (msum_unit l2).
  - by rewrite op_e, op_comm, op_e.
  - intros y Hy. apply H; [set_solver|]. by intros ->.
  - intros y Hy. apply H; [set_solver|]. intros ->. apply (Hd1 x Hy). set_solver.
Qed.

Lemma msum_flat_map {A B} (l : list A) (k : A → list B) f :
  msum (flat_map k l) f = msum l (λ x, msum (k x) f).
Proof.
  induction l as [|x l IH]; cbn [flat_map]; [done|].
  by rewrite msum_app, msum_cons, IH.
Qed.

Lemma msum_map {A B} (l : list A) (k : A → B) f : msum (map k l) f = msum l (λ x, f (k x)).
Proof. induction l as [|x l IH]; [done|]. cbn [map]. by rewrite !msum_cons, IH. Qed.

(** Taking one selected element out of a sum. *)
Lemma msum_remove {A} `{EqDecision A} (l : list A) (U : A → bool) f x :
  NoDup l → x ∈ l → U x = true →
  msum l (λ y, if U y then f y else e)
  = op (f x) (msum l (λ y, if U y && negb (bool_decide (y = x)) then f y else e)).
Proof.
  intros Hnd Hx HU.
  assert (Hs : msum l (λ y, if bool_decide (y = x) then f y else e) = f x).
  { rewrite (msum_single l _ x); [by rewrite bool_decide_true|done..|].
    intros y _ Hy. by rewrite bool_decide_false. }
  rewrite <-Hs, <-msum_op. apply msum_ext. intros y _.
  destruct (bool_decide_reflect (y = x)) as [->|].
  - rewrite HU. cbn. by rewrite op_comm, op_e.
  - rewrite andb_true_r. by rewrite op_e.
Qed.

End msum.

Abbreviation xsum := (msum Z.lxor 0%Z).
Abbreviation csum := (msum Z.add 0%Z).

#[export] Instance lxor_comm : Comm (=) Z.lxor := Z.lxor_comm.
#[export] Instance lxor_assoc : Assoc (=) Z.lxor.
Proof. intros a b c. symmetry. apply Z.lxor_assoc. Qed.
#[export] Instance lxor_left_id : LeftId (=) 0%Z Z.lxor := Z.lxor_0_l.

Lemma lxor_cancel_l a b : Z.lxor (Z.lxor a b) a = b.
Proof. by rewrite Z.lxor_comm, <-Z.lxor_assoc, Z.lxor_nilpotent, Z.lxor_0_l. Qed.

(** ** Pixels in row-major order *)

Definition pixels (P Q : nat) : list (nat * nat) :=
  flat_map (λ r, map (pair r) (seq 0 P)) (seq 0 Q).

Lemma elem_of_pixels P Q r c : (r, c) ∈ pixels P Q ↔ (r < Q ∧ c < P)%nat.
Proof.
  unfold pixels. rewrite list_elem_of_In, in_flat_map. split.
  - intros (r' & Hr & Hc). apply in_map_iff in Hc as (c' & [= <- <-] & Hc).
    apply in_seq in Hr, Hc. lia.
  - intros [Hr Hc]. exists r. rewrite in_seq. split; [lia|].
    apply in_map_iff. exists c. rewrite in_seq. split; [done|lia].
Qed.

Lemma NoDup_pixels P Q : NoDup (pixels P Q).
Proof.
  unfold pixels. generalize 0%nat at 2 as lo. induction Q as [|Q IH]; intros lo; cbn;
    [constructor|].
  apply NoDup_app. split; [|split; [|apply IH]].
  - apply NoDup_fmap_2; [intros ?? [=]; done|]. apply NoDup_seq.
  - intros [r c] Hrc Hin. apply list_elem_of_fmap in Hrc as (c' & [= -> ->] & _).
    apply list_elem_of_In, in_flat_map in Hin as (r' & Hr & Hc).
    apply in_map_iff in Hc as (? & [= <- <-] & _). apply in_seq in Hr. lia.
Qed.

Lemma length_pixels P Q : length (pixels P Q) = (P * Q)%nat.
Proof.
  unfold pixels. generalize 0%nat at 2 as lo. induction Q as [|Q IH]; intros lo; cbn; [lia|].
  rewrite length_app, length_map, length_seq, IH. lia.
Qed.

(** The nested loops over rows and columns run over the pixels. *)
Lemma loop_pixels {S} P Q (body : nat → nat → S → S) s :
  for_range 0 Q (λ r s, for_range 0 P (λ c s, body r c s) s) s
  = fold_left (λ s px, body px.1 px.2 s) (pixels P Q) s.
Proof.
  unfold pixels, for_range. generalize 0%nat at 2 4 as lo. revert s.
  induction Q as [|Q IH]; intros s lo; cbn; [done|].
  rewrite fold_left_app, <-IH. f_equal.
  generalize (seq 0 P) as l. intros l. revert s. induction l as [|c l IHl]; intros s; cbn;
    [done|]. apply IHl.
Qed.

(** Loop rule for a fold, with the part of the list already done. *)
Lemma fold_left_ind {A S} (I : list A → S → Prop) (f : S → A → S) l s :
  I [] s →
  (∀ pre x post s', l = pre ++ x :: post → I pre s' → I (pre ++ [x]) (f s' x)) →
  I l (fold_left f l s).
Proof.
  intros H0 Hs.
  assert (H : ∀ post pre s', l = pre ++ post → I pre s' → I l (fold_left f post s')).
  { induction post as [|x post IH]; intros pre s' -> HI; cbn.
    - by rewrite app_nil_r.
    - apply (IH (pre ++ [x])); [by rewrite <-app_assoc|]. by eapply Hs. }
  by apply (H l []).
Qed.

(** ** Sizes and bins *)

Definition psize (p q : Z) (P Q : nat) : nat := Z.to_nat (moj_projection_size p q P Q).

Lemma bin_range p q P Q r c :
  (r < Q)%nat → (c < P)%nat →
  (0 <= bin_index p q (moj_bin_offset p q P Q) r c < moj_projection_size p q P Q)%Z.
Proof.
  intros Hr Hc. unfold bin_index, moj_bin_offset, moj_projection_size.
  destruct (Z.ltb_spec p 0), (Z.ltb_spec q 0); nia.
Qed.

Lemma bin_range_nat p q P Q r c :
  (r < Q)%nat → (c < P)%nat →
  (Z.to_nat (bin_index p q (moj_bin_offset p q P Q) r c) < psize p q P Q)%nat.
Proof. intros Hr Hc. pose proof (bin_range p q P Q r c Hr Hc). unfold psize. lia. Qed.

(** Bin [b] of the projection of the picture [g] along [(p, q)]. *)
Definition projection (g : nat → nat → Z) (P Q : nat) (p q : Z) (b : nat) : Z :=
  xsum (pixels P Q) (λ px,
    if (bin_index p q (moj_bin_offset p q P Q) px.1 px.2 =? Z.of_nat b)%Z
    then g px.1 px.2 else 0%Z).

(** A projection with bins of the right size that holds the projection of [g]. *)
Definition holds_projection (g : nat → nat → Z) (P Q : nat) (d : moj_direction)
    (prj : moj_projection) : Prop :=
  mp_nbins prj = psize (md_p d) (md_q d) P Q ∧
  length (mp_bins prj) = mp_nbins prj ∧
  ∀ b, (b < mp_nbins prj)%nat → rd 0%Z (mp_bins prj) b = projection g P Q (md_p d) (md_q d) b.

(** ** The scalar path *)

(** The pixel a row-pointer array stands for. *)
Definition row_px (rows : list (list Z)) (r c : nat) : Z := rd 0%Z (rd [] rows r) c.

Lemma forward_scalar_spec rows P Q p q prj :
  mp_nbins prj = psize p q P Q → length (mp_bins prj) = mp_nbins prj →
  holds_projection (row_px rows) P Q (mk_dir p q)
    (forward_scalar rows P Q p q (moj_bin_offset p q P Q) prj).
Proof.
  intros Hn Hl. unfold holds_projection, forward_scalar. cbn [mp_nbins mp_bins md_p md_q].
  rewrite splice_all by (by rewrite length_replicate).
  rewrite (loop_pixels P Q (λ row col bins,
    wr bins (Z.to_nat (bin_index p q (moj_bin_offset p q P Q) row col)) _)).
  set (I := λ (pre : list (nat * nat)) (bins : list Z),
    length bins = mp_nbins prj ∧ ∀ b, (b < mp_nbins prj)%nat →
      rd 0%Z bins b = xsum pre (λ px,
        if (bin_index p q (moj_bin_offset p q P Q) px.1 px.2 =? Z.of_nat b)%Z
        then row_px rows px.1 px.2 else 0%Z)).
  split; [done|]. apply (fold_left_ind I).
  - split; [by rewrite length_replicate|]. intros b Hb. apply rd_replicate.
  - intros pre [r c] post bins Hpre [HIl HI]. cbn [fst snd].
    assert (Hrc : (r, c) ∈ pixels P Q) by (rewrite Hpre; set_solver).
    apply elem_of_pixels in Hrc as [Hr Hc].
    pose proof (bin_range p q P Q r c Hr Hc) as Hb0.
    pose proof (bin_range_nat p q P Q r c Hr Hc) as Hb1. rewrite <-Hn in Hb1.
    split; [by rewrite length_wr|]. intros b Hb. rewrite msum_snoc by apply _. cbn [fst snd].
    rewrite rd_wr by lia. rewrite <-HI by done.
    case_decide as Hd.
    + subst b. rewrite Z2Nat.id, Z.eqb_refl by lia. done.
    + case_if; [bool_prop; lia|]. by rewrite Z.lxor_0_r.
Qed.

(** ** The SIMD row kernels *)

(** The first [c] cells of the row have been XORed in at [o]. *)
Definition xored (src bins0 : list Z) (o c : nat) (bins : list Z) : Prop :=
  length bins = length bins0 ∧
  ∀ b, rd 0%Z bins b
       = if decide (o <= b < o + c)%nat then Z.lxor (rd 0%Z bins0 b) (rd 0%Z src (b - o))
         else rd 0%Z bins0 b.

Lemma vxor_at_xored lanes src bins0 o c bins :
  (o + c + lanes <= length bins0)%nat → (c + lanes <= length src)%nat →
  xored src bins0 o c bins → xored src bins0 o (c + lanes) (vxor_at lanes src o c bins).
Proof.
  intros Hb Hs [Hl Hx]. unfold vxor_at, vstore, vxor, vload.
  set (v := zip_with _ _ _).
  assert (Hv : length v = lanes).
  { unfold v. rewrite length_zip_with, !length_take, !length_drop. lia. }
  split; [rewrite length_splice; lia|].
  intros b. rewrite rd_splice by lia. rewrite Hv, Hx.
  repeat case_decide; try lia; try done.
  unfold v. rewrite (rd_zip_with 0%Z 0%Z)
    by (rewrite length_take, length_drop; lia).
  rewrite !rd_take, !rd_drop by lia.
  replace (o + c + (b - (o + c)))%nat with b by lia.
  replace (c + (b - (o + c)))%nat with (b - o)%nat by lia.
  rewrite Hx, decide_False by lia. done.
Qed.

(** Loading both registers first changes nothing. *)
Lemma vxor2_at_twice lanes src o c bins :
  (o + c + 2 * lanes <= length bins)%nat → (c + 2 * lanes <= length src)%nat →
  vxor2_at lanes src o c bins
  = vxor_at lanes src o (c + lanes) (vxor_at lanes src o c bins).
Proof.
  intros Hb Hs. unfold vxor2_at, vxor_at, vstore, vload.
  replace (o + (c + lanes))%nat with (o + c + lanes)%nat by lia.
  set (v := vxor (take lanes (drop (o + c) bins)) _).
  assert (Hv : length v = lanes).
  { unfold v, vxor. rewrite length_zip_with, !length_take, !length_drop. lia. }
  f_equal. f_equal. f_equal. unfold splice.
  rewrite (assoc_L (++)), drop_app_ge by (rewrite length_app, length_take; lia).
  rewrite length_app, length_take, Hv.
  replace (o + c + lanes - _)%nat with 0%nat by lia. done.
Qed.

Lemma vxor2_at_xored lanes src bins0 o c bins :
  (o + c + 2 * lanes <= length bins0)%nat → (c + 2 * lanes <= length src)%nat →
  xored src bins0 o c bins →
  xored src bins0 o (c + (2 * lanes)) (vxor2_at lanes src o c bins).
Proof.
  intros Hb Hs Hx. rewrite vxor2_at_twice by (try destruct Hx; lia).
  replace (c + 2 * lanes)%nat with (c + lanes + lanes)%nat by lia.
  apply vxor_at_xored; [lia..|]. apply vxor_at_xored; [lia..|done].
Qed.

Lemma xor_tail_xored src bins0 o c bins :
  (o + c < length bins0)%nat →
  xored src bins0 o c bins → xored src bins0 o (c + 1) (xor_tail src o c bins).
Proof.
  intros Hb [Hl Hx]. split; [by unfold xor_tail; rewrite length_wr|].
  intros b. unfold xor_tail. rewrite rd_wr, !Hx by lia.
  repeat case_decide; subst; try lia; try done. f_equal. f_equal. lia.
Qed.

(** A loop over blocks of [w] columns leaves fewer than [w] of them. *)
Lemma col_loop_xored w P src bins0 o body s :
  (0 < w)%nat → (fst s <= P)%nat →
  (∀ c bins, (c + w <= P)%nat → xored src bins0 o c bins →
     xored src bins0 o (c + w) (body c bins)) →
  xored src bins0 o (fst s) (snd s) →
  let s' := col_loop w P body s in
  (fst s' <= P < fst s' + w)%nat ∧ xored src bins0 o (fst s') (snd s').
Proof.
  destruct s as [col bins]. cbn [fst snd]. intros Hw Hc Hbody H0. unfold col_loop.
  set (turns := ((P - col) / w)%nat). cbn [fst snd].
  assert (Ht : (w * turns <= P - col < w * turns + w)%nat).
  { pose proof (Nat.div_mod_eq (P - col) w). fold turns in H.
    pose proof (Nat.mod_upper_bound (P - col) w). lia. }
  split; [lia|].
  apply (for0_ind (λ j b, xored src bins0 o (col + w * j) b)).
  - by rewrite Nat.mul_0_r, Nat.add_0_r.
  - intros j b Hj HI. replace (col + w * S j)%nat with (col + w * j + w)%nat by lia.
    apply Hbody; [nia|done].
Qed.

Lemma xored_0 src bins o : xored src bins o 0 bins.
Proof. split; [done|]. intros b. case_decide; [lia|done]. Qed.

(** Every kernel XORs the whole row in. *)
Lemma fwd_row_seq_spec arch src P bins o :
  has_simd arch = true → (o + P <= length bins)%nat → (P <= length src)%nat →
  xored src bins o P (moj_fwd_row_seq arch src P bins o).
Proof.
  intros Ha Hb Hs.
  assert (H2 : ∀ lanes s, (0 < lanes)%nat → (fst s <= P)%nat →
    xored src bins o (fst s) (snd s) →
    let s' := col_loop (2 * lanes) P (vxor2_at lanes src o) s in
    (fst s' <= P < fst s' + (2 * lanes))%nat ∧ xored src bins o (fst s') (snd s')).
  { intros lanes s Hl Hf Hx. apply col_loop_xored; [lia|done| |done].
    intros c b Hc. apply vxor2_at_xored; lia. }
  assert (H1 : ∀ lanes s, (0 < lanes)%nat → (fst s <= P)%nat →
    xored src bins o (fst s) (snd s) →
    let s' := col_loop lanes P (vxor_at lanes src o) s in
    (fst s' <= P < fst s' + lanes)%nat ∧ xored src bins o (fst s') (snd s')).
  { intros lanes s Hl Hf Hx. apply col_loop_xored; [lia|done| |done].
    intros c b Hc. apply vxor_at_xored; lia. }
  assert (H0 : ∀ s, (fst s <= P)%nat → xored src bins o (fst s) (snd s) →
    xored src bins o P (snd (col_loop 1 P (xor_tail src o) s))).
  { intros s Hf Hx.
    destruct (col_loop_xored 1 P src bins o (xor_tail src o) s) as [Hc H]; [lia|done| |done|].
    - intros c b Hc. apply xor_tail_xored; lia.
    - by replace (fst (col_loop 1 P (xor_tail src o) s)) with P in H by lia. }
  destruct arch; [| | |done]; cbn [moj_fwd_row_seq]; apply H0.
  1,2,5,6: apply (H2 2%nat (0%nat, bins)); cbn [fst snd]; [lia|lia|apply xored_0].
  all: pose proof (H2 4%nat (0%nat, bins) ltac:(lia) ltac:(cbn; lia) (xored_0 _ _ _)) as [Ha1 Hx1];
    pose proof (H1 4%nat _ ltac:(lia) ltac:(apply Ha1) Hx1) as [Ha2 Hx2];
    apply (H1 2%nat _ ltac:(lia) ltac:(apply Ha2) Hx2).
Qed.

(** ** The fast path *)

(** With [q = 1] a bin takes at most one pixel of each row. *)
Definition line_px (g : nat → nat → Z) (P : nat) (p : Z) (t : Z) (r : nat) : Z :=
  let c := (t - Z.of_nat r * p)%Z in
  if ((0 <=? c) && (c <? Z.of_nat P))%Z then g r (Z.to_nat c) else 0%Z.

Lemma projection_rows g P Q p b :
  projection g P Q p 1 b
  = xsum (seq 0 Q) (line_px g P p (Z.of_nat b + moj_bin_offset p 1 P Q)).
Proof.
  unfold projection, pixels. rewrite msum_flat_map by apply _.
  apply msum_ext. intros r _. rewrite msum_map. cbn [fst snd]. unfold line_px.
  set (off := moj_bin_offset p 1 P Q). set (c := (_ - _)%Z).
  destruct ((0 <=? c) && (c <? Z.of_nat P))%Z eqn:E; bool_prop.
  - rewrite (msum_single _ _ _ _ (Z.to_nat c)); [|apply NoDup_seq| |].
    + case_if; [done|]. bool_prop. unfold bin_index in *. lia.
    + apply elem_of_seq. lia.
    + intros y Hy Hyc. case_if; [|done]. bool_prop. unfold bin_index in *. lia.
  - apply msum_unit; [apply _|]. intros y Hy. apply elem_of_seq in Hy.
    case_if; [|done]. bool_prop. unfold bin_index in *.
    apply andb_false_iff in E as [E|E]; bool_prop; lia.
Qed.

(** Row [r] starts at a bin from which all its [P] pixels fit. *)
Lemma row_range p P Q r :
  (r < Q)%nat →
  (0 <= Z.of_nat r * p - moj_bin_offset p 1 P Q)%Z ∧
  (Z.of_nat r * p - moj_bin_offset p 1 P Q + Z.of_nat P <= moj_projection_size p 1 P Q)%Z.
Proof.
  intros Hr. unfold moj_bin_offset, moj_projection_size.
  change (1 <? 0)%Z with false. destruct (Z.ltb_spec p 0); nia.
Qed.

Definition rows_wf (rows : list (list Z)) (P Q : nat) : Prop :=
  ∀ r, (r < Q)%nat → (P <= length (rd [] rows r))%nat.

(** Bins that hold the first [r] rows. *)
Definition rows_done rows P Q p nbins r (bins : list Z) : Prop :=
  length bins = nbins ∧
  ((0 < r)%nat → ∀ b, (b < nbins)%nat → rd 0%Z bins b
    = xsum (seq 0 r) (line_px (row_px rows) P p (Z.of_nat b + moj_bin_offset p 1 P Q))).

(** What a row adds to a bin. *)
Lemma row_adds rows P Q p r b :
  (r < Q)%nat →
  let dst := Z.to_nat (Z.of_nat r * p - moj_bin_offset p 1 P Q) in
  line_px (row_px rows) P p (Z.of_nat b + moj_bin_offset p 1 P Q) r
  = if decide (dst <= b < dst + P)%nat then rd 0%Z (rd [] rows r) (b - dst) else 0%Z.
Proof.
  intros Hr. cbn zeta. pose proof (row_range p P Q r Hr) as [H0 _]. unfold line_px, row_px.
  set (off := moj_bin_offset p 1 P Q) in *.
  case_if; case_decide; bool_prop; try done; try lia.
  f_equal. lia.
Qed.

Lemma row_0_done rows P Q p nbins bins :
  (0 < Q)%nat → rows_wf rows P Q → nbins = psize p 1 P Q → length bins = nbins →
  let dst := Z.to_nat (0 * p - moj_bin_offset p 1 P Q) in
  rows_done rows P Q p nbins 1
    (splice (dst + P) (replicate (nbins - (dst + P)) 0%Z)
      (splice dst (take P (rd [] rows 0)) (splice 0 (replicate dst 0%Z) bins))).
Proof.
  intros HQ Hw Hn Hl. set (dst := Z.to_nat (0 * p - moj_bin_offset p 1 P Q)). cbn zeta.
  pose proof (row_range p P Q 0 HQ) as [H0 H1].
  assert (Hd : (dst + P <= nbins)%nat) by (unfold dst; rewrite Hn; unfold psize; lia).
  specialize (Hw 0%nat HQ).
  assert (Hl1 : length (splice 0 (replicate dst 0%Z) bins) = nbins)
    by (rewrite length_splice; [done|]; rewrite length_replicate; lia).
  assert (Hl2 : length (splice dst (take P (rd [] rows 0)) (splice 0 (replicate dst 0%Z) bins))
    = nbins) by (rewrite length_splice; [done|]; rewrite length_take; lia).
  assert (Hr : length (replicate (nbins - (dst + P)) 0%Z) = (nbins - (dst + P))%nat)
    by apply length_replicate.
  assert (Ht : length (take P (rd [] rows 0)) = P) by (rewrite length_take; lia).
  split; [rewrite length_splice; lia|]. intros _ b Hb. cbn [seq].
  rewrite msum_cons. cbn [msum foldr]. rewrite Z.lxor_0_r, row_adds by done.
  change (Z.of_nat 0 * p)%Z with (0 * p)%Z. fold dst.
  rewrite rd_splice by lia. rewrite Hr.
  rewrite rd_splice by (rewrite Ht, Hl1; lia). rewrite Ht.
  rewrite rd_splice by (rewrite length_replicate; lia). rewrite length_replicate.
  repeat case_decide; try lia; try apply rd_replicate.
  by rewrite rd_take by lia.
Qed.

Lemma forward_simd_spec arch rows P Q p prj :
  has_simd arch = true → (0 < Q)%nat → rows_wf rows P Q →
  mp_nbins prj = psize p 1 P Q → length (mp_bins prj) = mp_nbins prj →
  ∃ bins, forward_simd arch rows P Q p (moj_bin_offset p 1 P Q) prj = inl bins ∧
    holds_projection (row_px rows) P Q (mk_dir p 1) (mk_proj bins (mp_nbins prj)).
Proof.
  intros Ha HQ Hw Hn Hl. unfold forward_simd.
  match goal with |- context [for_break 0 Q ?body ?s] =>
    assert (H : match for_break 0 Q body s with
                | inl bins => rows_done rows P Q p (mp_nbins prj) (0 + Q) bins
                | inr _ => False
                end); [|destruct (for_break 0 Q body s) as [bins|]; [|done]] end.
  - apply (for_break_ind _ (λ _, False)); [split; [done|lia]|].
    intros r bins Hr [Hbl Hbr]. destruct (Nat.eqb_spec r 0) as [->|Hr0].
    + pose proof (row_range p P Q 0 HQ) as [H0 H1].
      case_if; bool_prop; [unfold psize in Hn; lia|].
      change (Z.of_nat 0 * p)%Z with (0 * p)%Z.
      replace (Z.to_nat (Z.of_nat (mp_nbins prj) - _)) with
        (mp_nbins prj - (Z.to_nat (0 * p - moj_bin_offset p 1 P Q) + P))%nat by lia.
      by apply row_0_done.
    + pose proof (row_range p P Q r ltac:(lia)) as [H0 H1].
      destruct (fwd_row_seq_spec arch (rd [] rows r) P bins
        (Z.to_nat (Z.of_nat r * p - moj_bin_offset p 1 P Q)) Ha) as [Hxl Hx];
        [unfold psize in Hn; lia|apply Hw; lia|].
      split; [lia|]. intros _ b Hb. rewrite Hx, seq_S, msum_snoc by apply _.
      rewrite Nat.add_0_l, row_adds, Hbr by lia.
      case_decide; [done|]. by rewrite Z.lxor_0_r.
  - destruct H as [Hl' Hb]. exists bins. split; [done|].
    repeat split; [done|done|]. cbn [mp_bins mp_nbins md_p md_q]. intros b Hb'.
    rewrite projection_rows. by apply Hb.
Qed.

(** ** The transform *)

(** Bins of the size the direction asks for. *)
Definition proj_sized (P Q : nat) (d : moj_direction) (prj : moj_projection) : Prop :=
  mp_nbins prj = psize (md_p d) (md_q d) P Q ∧ length (mp_bins prj) = mp_nbins prj.

Lemma forward_impl_spec arch scalar rows P Q dirs n projs :
  (0 < Q)%nat → rows_wf rows P Q → (n <= length projs)%nat →
  (∀ i, (i < n)%nat → proj_sized P Q (dir dirs i) (proj projs i)) →
  let out := moj_forward_impl arch scalar rows P Q dirs n projs in
  length out = length projs ∧
  (∀ i, (i < n)%nat → holds_projection (row_px rows) P Q (dir dirs i) (proj out i)) ∧
  (∀ i, (n <= i)%nat → proj out i = proj projs i).
Proof.
  intros HQ Hw Hn Hs. unfold moj_forward_impl.
  apply (for0_ind (λ i out, length out = length projs ∧
    (∀ j, (j < i)%nat → holds_projection (row_px rows) P Q (dir dirs j) (proj out j)) ∧
    (∀ j, (i <= j)%nat → proj out j = proj projs j))).
  { split; [done|]. split; [lia|done]. }
  intros i out Hi (Hl & Hd & Hk). destruct (Hs i Hi) as [Hsz Hbl].
  rewrite Hk by lia. destruct (dir dirs i) as [p q] eqn:Ed. cbn [md_p md_q] in *.
  assert (Hw' : ∀ prj, holds_projection (row_px rows) P Q (mk_dir p q) prj →
    length (wr out i prj) = length projs ∧
    (∀ j, (j < S i)%nat → holds_projection (row_px rows) P Q (dir dirs j) (proj (wr out i prj) j)) ∧
    (∀ j, (S i <= j)%nat → proj (wr out i prj) j = proj projs j)).
  { intros prj Hp. rewrite length_wr. split; [done|]. unfold proj. split; intros j Hj.
    - rewrite rd_wr by lia. case_decide as E; [subst; by rewrite Ed|]. apply Hd. lia.
    - rewrite rd_wr by lia. case_decide; [lia|]. apply Hk. lia. }
  destruct (has_simd arch && negb scalar && (q =? 1)%Z) eqn:E; bool_prop.
  - subst q.
    destruct (forward_simd_spec arch rows P Q p (proj projs i)) as (bins & -> & Hp); [done..|].
    by apply Hw'.
  - apply Hw'. by apply forward_scalar_spec.
Qed.

(** The pixel of a contiguous grid. *)
Definition grid_px (grid : list Z) (P r c : nat) : Z := rd 0%Z grid (r * P + c).

Lemma grid_rows_wf grid P Q : length grid = (P * Q)%nat → rows_wf (grid_rows grid P Q) P Q.
Proof.
  intros Hl r Hr. unfold grid_rows. rewrite rd_map_seq, length_drop by done. nia.
Qed.

Lemma grid_rows_px grid P Q r c :
  (r < Q)%nat → row_px (grid_rows grid P Q) r c = grid_px grid P r c.
Proof.
  intros Hr. unfold row_px, grid_rows, grid_px. rewrite rd_map_seq by done.
  apply rd_drop.
Qed.

Lemma projection_ext g g' P Q p q b :
  (∀ r c, (r < Q)%nat → (c < P)%nat → g r c = g' r c) →
  projection g P Q p q b = projection g' P Q p q b.
Proof.
  intros H. apply msum_ext. intros [r c] Hrc. apply elem_of_pixels in Hrc as [Hr Hc].
  cbn [fst snd]. by rewrite H.
Qed.

Lemma holds_projection_ext g g' P Q d prj :
  (∀ r c, (r < Q)%nat → (c < P)%nat → g r c = g' r c) →
  holds_projection g P Q d prj → holds_projection g' P Q d prj.
Proof.
  intros H (H1 & H2 & H3). repeat split; [done..|]. intros b Hb.
  rewrite H3 by done. by apply projection_ext.
Qed.

(** Bins are determined by the picture. *)
Lemma holds_projection_bins g P Q d p1 p2 :
  holds_projection g P Q d p1 → holds_projection g P Q d p2 → p1 = p2.
Proof.
  destruct p1 as [b1 n1], p2 as [b2 n2]. intros (H1 & H2 & H3) (H1' & H2' & H3').
  cbn [mp_nbins mp_bins] in *. assert (n1 = n2) as -> by congruence. f_equal.
  apply (rd_ext 0%Z); [congruence|]. intros i Hi. rewrite H3, H3' by lia. done.
Qed.

End MojetteForward.
