(* ===== verification/MojetteKatz.v ===== *)
(** * Why peeling does not stall

    The geometric content of the Katz criterion.  If every line of every
    direction that meets a set of pixels meets it at least twice, then the
    lowest line of a direction [(p, q)] carries two pixels at least [|q|] rows
    apart, and those spans of rows are disjoint for directions that are not
    parallel.  So the spans add up to less than the height of the grid, and,
    for columns, to less than its width. *)

From S2P Require Import Prelude.
From S2P Require Import MojetteForward.
Import MojetteForward.

Module MojetteKatz.

Open Scope Z_scope.

(** A function picked from finitely many existentials. *)
Lemma finite_choice {A} (d : A) (R : nat → A → Prop) n :
  (∀ i, (i < n)%nat → ∃ x, R i x) → ∃ f : nat → A, ∀ i, (i < n)%nat → R i (f i).
Proof.
  induction n as [|n IH]; intros H.
  - exists (λ _, d). lia.
  - destruct IH as [f Hf]; [intros; apply H; lia|]. destruct (H n ltac:(lia)) as [x Hx].
    exists (λ i, if (i =? n)%nat then x else f i). intros i Hi.
    destruct (Nat.eqb_spec i n) as [->|]; [done|]. apply Hf. lia.
Qed.

(** A least element of a finite non-empty set. *)
Lemma list_argmin {A} (f : A → Z) (l : list A) :
  l ≠ [] → ∃ x, x ∈ l ∧ ∀ y, y ∈ l → f x <= f y.
Proof.
  induction l as [|a l IH]; [done|]. intros _. destruct l as [|b l].
  - exists a. split; [by constructor|]. intros y ->%list_elem_of_singleton. lia.
  - destruct IH as (x & Hx & Hm); [done|]. destruct (Z.le_gt_cases (f a) (f x)).
    + exists a. split; [by constructor|]. intros y [->|Hy]%list.elem_of_cons; [lia|].
      specialize (Hm y Hy). lia.
    + exists x. split; [by constructor|]. intros y [->|Hy]%list.elem_of_cons; [lia|]. auto.
Qed.

(** The value a line of direction [(p, q)] has at a pixel. *)
Definition line (d : Z * Z) (px : nat * nat) : Z :=
  Z.of_nat px.1 * d.1 + Z.of_nat px.2 * d.2.

Definition parallel (d d' : Z * Z) : Prop := d.1 * d'.2 = d'.1 * d.2.

(** No line of the direction meets the set in a single pixel. *)
Definition no_singleton (L : list (nat * nat)) (d : Z * Z) : Prop :=
  ∀ px, px ∈ L → ∃ px', px' ∈ L ∧ px' ≠ px ∧ line d px' = line d px.

(** Two pixels of [L] on its lowest line, with their rows. *)
Definition low_edge (L : list (nat * nat)) (d : Z * Z) (a b : nat) : Prop :=
  Z.of_nat a + Z.abs d.2 <= Z.of_nat b ∧
  ∃ ca cb, (a, ca) ∈ L ∧ (b, cb) ∈ L ∧
    (∀ px, px ∈ L → Z.sgn d.2 * line d (a, ca) <= Z.sgn d.2 * line d px) ∧
    line d (a, ca) = line d (b, cb).

(** Distinct pixels of one line are at least [|q|] rows apart. *)
Lemma rows_apart d r c r' c' :
  d.2 ≠ 0 → Z.gcd d.1 d.2 = 1 → (r, c) ≠ (r', c') →
  line d (r, c) = line d (r', c') → Z.abs d.2 <= Z.abs (Z.of_nat r - Z.of_nat r').
Proof.
  destruct d as [p q]. unfold line. cbn [fst snd]. intros Hq Hg Hne Hl.
  assert (Hr : r ≠ r').
  { intros ->. apply Hne. f_equal. apply Nat2Z.inj. apply (Z.mul_reg_r _ _ q); lia. }
  assert (Hd : (q | p * (Z.of_nat r - Z.of_nat r'))).
  { exists (Z.of_nat c' - Z.of_nat c). lia. }
  apply Z.gauss in Hd; [|by rewrite Z.gcd_comm].
  apply Z.divide_abs_l, Z.divide_abs_r in Hd.
  apply Z.divide_pos_le in Hd; lia.
Qed.

Lemma low_edge_exists L d :
  L ≠ [] → d.2 ≠ 0 → Z.gcd d.1 d.2 = 1 → no_singleton L d → ∃ a b, low_edge L d a b.
Proof.
  intros HL Hq Hg Hs.
  destruct (list_argmin (λ px, Z.sgn d.2 * line d px) L HL) as ([r c] & Hin & Hmin).
  destruct (Hs _ Hin) as ([r' c'] & Hin' & Hne & Hl).
  pose proof (rows_apart d r' c' r c Hq Hg Hne Hl) as Hab.
  destruct (Z.le_gt_cases (Z.of_nat r) (Z.of_nat r')).
  - exists r, r'. split; [lia|]. exists c, c'. done.
  - exists r', r. split; [lia|]. exists c', c. split; [done|]. split; [done|].
    split; [|done]. intros px Hpx. rewrite Hl. by apply Hmin.
Qed.

(** The lowest lines of a steeper direction touch lower rows. *)
Lemma low_rows_ordered (L : list (nat * nat)) d d' r c r' c' :
  (∀ px, px ∈ L → Z.sgn d.2 * line d (r, c) <= Z.sgn d.2 * line d px) →
  (∀ px, px ∈ L → Z.sgn d'.2 * line d' (r', c') <= Z.sgn d'.2 * line d' px) →
  (r, c) ∈ L → (r', c') ∈ L → d.2 ≠ 0 → d'.2 ≠ 0 →
  Z.sgn d.2 * Z.sgn d'.2 * (d.1 * d'.2 - d'.1 * d.2) < 0 → (r' <= r)%nat.
Proof.
  destruct d as [p q], d' as [p' q']. unfold line. cbn [fst snd].
  intros H H' Hin Hin' Hq Hq' Hlt. specialize (H _ Hin'). specialize (H' _ Hin).
  cbn [fst snd] in *.
  set (R := Z.of_nat r) in *. set (R' := Z.of_nat r') in *.
  set (C := Z.of_nat c) in *. set (C' := Z.of_nat c') in *.
  assert (HR : R' <= R); [|lia].
  destruct (Z.lt_ge_cases 0 q) as [Hq0|Hq0]; destruct (Z.lt_ge_cases 0 q') as [Hq1|Hq1];
    rewrite ?(Z.sgn_pos q), ?(Z.sgn_neg q), ?(Z.sgn_pos q'), ?(Z.sgn_neg q') in * by lia;
    nia.
Qed.

Lemma low_edges_disjoint L d d' a b a' b' :
  low_edge L d a b → low_edge L d' a' b' → d.2 ≠ 0 → d'.2 ≠ 0 → ¬ parallel d d' →
  (b <= a')%nat ∨ (b' <= a)%nat.
Proof.
  intros (_ & ca & cb & Ha & Hb & Hm & He) (_ & ca' & cb' & Ha' & Hb' & Hm' & He') Hq Hq' Hp.
  unfold parallel in Hp.
  assert (Hs : Z.sgn d.2 * Z.sgn d'.2 * (d.1 * d'.2 - d'.1 * d.2) < 0 ∨
               Z.sgn d'.2 * Z.sgn d.2 * (d'.1 * d.2 - d.1 * d'.2) < 0).
  { assert (Z.sgn d.2 * Z.sgn d'.2 ≠ 0) by lia. nia. }
  destruct Hs as [Hs|Hs]; [right|left].
  - apply (low_rows_ordered L d d' a ca b' cb'); try done. intros px Hpx.
    rewrite <-He'. by apply Hm'.
  - apply (low_rows_ordered L d' d a' ca' b cb); try done. intros px Hpx.
    rewrite <-He. by apply Hm.
Qed.

Section katz.
Context (L : list (nat * nat)) (dirs : nat → Z * Z) (n : nat).
Context (L_some : L ≠ []).
Context (primitive : ∀ i, (i < n)%nat → Z.gcd (dirs i).1 (dirs i).2 = 1).
Context (not_parallel : ∀ i j, (i < n)%nat → (j < n)%nat → i ≠ j →
           ¬ parallel (dirs i) (dirs j)).
Context (stalled : ∀ i, (i < n)%nat → no_singleton L (dirs i)).

(** One low edge for every direction that is not horizontal. *)
Lemma low_edges :
  ∃ ab : nat → nat * nat, ∀ i, (i < n)%nat →
    (dirs i).2 ≠ 0 → low_edge L (dirs i) (ab i).1 (ab i).2.
Proof.
  apply (finite_choice (0%nat, 0%nat)
    (λ i ab, (dirs i).2 ≠ 0 → low_edge L (dirs i) ab.1 ab.2)). intros i Hi.
  destruct (decide ((dirs i).2 = 0)) as [|Hq]; [by exists (0%nat, 0%nat)|].
  destruct (low_edge_exists L (dirs i)) as (a & b & H); [done|done|auto..|].
  by exists (a, b).
Qed.

(** The heights of the directions add up to less than the rows in use. *)
Lemma katz_rows Q :
  (∀ px, px ∈ L → (px.1 < Q)%nat) →
  csum (seq 0 n) (λ i, Z.abs (dirs i).2) < Z.of_nat Q.
Proof.
  intros HQ. destruct low_edges as [ab Hab].
  set (span := λ i, seq (ab i).1 (Z.to_nat (Z.abs (dirs i).2))).
  assert (Hin : ∀ i y, i ∈ seq 0 n → y ∈ span i →
    (i < n)%nat ∧ (dirs i).2 ≠ 0 ∧ ((ab i).1 <= y < (ab i).2)%nat).
  { intros i y Hi%elem_of_seq Hy%elem_of_seq. split; [lia|].
    assert (Hq : (dirs i).2 ≠ 0) by lia. split; [done|].
    destruct (Hab i ltac:(lia) Hq) as [H _]. lia. }
  assert (Hnd : NoDup (seq 0 n ≫= span)).
  { apply NoDup_bind; [|intros; apply NoDup_seq|apply NoDup_seq].
    intros i j y Hi Hj Hyi Hyj. destruct (Hin i y Hi Hyi) as (Hi' & Hqi & Hri).
    destruct (Hin j y Hj Hyj) as (Hj' & Hqj & Hrj).
    destruct (decide (i = j)) as [|Hij]; [done|exfalso].
    destruct (low_edges_disjoint L (dirs i) (dirs j) (ab i).1 (ab i).2 (ab j).1 (ab j).2);
      auto; lia. }
  assert (Hincl : ∀ y, y ∈ seq 0 n ≫= span → y ∈ seq 0 (Q - 1)).
  { intros y (i & Hy & Hi)%list_elem_of_bind. destruct (Hin i y Hi Hy) as (Hi' & Hq & Hr).
    destruct (Hab i Hi' Hq) as (_ & ca & cb & _ & Hb & _). apply HQ in Hb. cbn in Hb.
    apply elem_of_seq. lia. }
  assert (Hlen : (length (seq 0 n ≫= span) <= Q - 1)%nat).
  { rewrite <-(length_seq (Q - 1) 0). apply submseteq_length.
    by apply NoDup_submseteq. }
  assert (Hsum : Z.of_nat (length (seq 0 n ≫= span))
    = csum (seq 0 n) (λ i, Z.abs (dirs i).2)).
  { generalize (seq 0 n) as l. induction l as [|i l IH]; [done|].
    rewrite msum_cons, bind_cons, length_app, Nat2Z.inj_add, IH.
    unfold span. rewrite length_seq. lia. }
  assert ((0 < Q)%nat).
  { destruct L as [|px l]; [done|]. specialize (HQ px ltac:(by constructor)). lia. }
  lia.
Qed.

(** With unit heights, there are more rows in use than directions. *)
Lemma katz_row_set M :
  (∀ i, (i < n)%nat → (dirs i).2 ≠ 0) → (∀ px, px ∈ L → px.1 ∈ M) → (n < length M)%nat.
Proof.
  intros Hq HM. destruct low_edges as [ab Hab].
  destruct (list_argmin (λ px, - Z.of_nat px.1) L L_some) as ([rmax cmax] & Hmax & Hmin).
  cbn [fst] in Hmin.
  assert (Hnd : NoDup (rmax :: map (λ i, (ab i).1) (seq 0 n))).
  { apply list.NoDup_cons. split.
    - intros (i & Hi & Hin)%list_elem_of_fmap. apply elem_of_seq in Hin.
      destruct (Hab i ltac:(lia) (Hq i ltac:(lia))) as (Hlt & ca & cb & _ & Hb & _).
      apply Hmin in Hb. cbn [fst] in Hb. specialize (Hq i ltac:(lia)). lia.
    - apply NoDup_fmap_2_strong; [|apply NoDup_seq]. intros i j Hi%elem_of_seq Hj%elem_of_seq He.
      destruct (decide (i = j)) as [|Hij]; [done|exfalso].
      pose proof (Hab i ltac:(lia) (Hq i ltac:(lia))) as Ei.
      pose proof (Hab j ltac:(lia) (Hq j ltac:(lia))) as Ej.
      pose proof (Hq i ltac:(lia)). pose proof (Hq j ltac:(lia)).
      assert (Hp : ¬ parallel (dirs i) (dirs j)) by (apply not_parallel; [lia|lia|done]).
      destruct (low_edges_disjoint L _ _ _ _ _ _ Ei Ej) as [?|?]; [done..| |];
        destruct Ei as [Ei _], Ej as [Ej _]; lia. }
  assert (Hlen : (length (rmax :: map (λ i, (ab i).1) (seq 0 n)) <= length M)%nat).
  { apply submseteq_length, NoDup_submseteq; [done|].
    intros y [->|Hy]%list.elem_of_cons; [by apply (HM (rmax, cmax))|].
    apply list_elem_of_fmap in Hy as (i & -> & Hi%elem_of_seq).
    destruct (Hab i ltac:(lia) (Hq i ltac:(lia))) as (_ & ca & cb & Ha & _). by apply HM in Ha. }
  cbn [length] in Hlen. rewrite length_map, length_seq in Hlen. lia.
Qed.

End katz.

(** The same for columns, by exchanging the axes. *)
Lemma katz_cols L dirs n P :
  L ≠ [] → (∀ i, (i < n)%nat → Z.gcd (dirs i).1 (dirs i).2 = 1) →
  (∀ i j, (i < n)%nat → (j < n)%nat → i ≠ j → ¬ parallel (dirs i) (dirs j)) →
  (∀ i, (i < n)%nat → no_singleton L (dirs i)) →
  (∀ px, px ∈ L → (px.2 < P)%nat) →
  csum (seq 0 n) (λ i, Z.abs (dirs i).1) < Z.of_nat P.
Proof.
  intros HL Hg Hp Hs HP.
  apply (katz_rows (map (λ px, (px.2, px.1)) L) (λ i, ((dirs i).2, (dirs i).1))).
  - by destruct L.
  - intros i Hi. cbn [fst snd]. rewrite Z.gcd_comm. auto.
  - intros i j Hi Hj Hij. unfold parallel. cbn [fst snd]. intros H.
    apply (Hp i j Hi Hj Hij). unfold parallel. lia.
  - intros i Hi px (px0 & -> & Hin)%list_elem_of_fmap.
    destruct (Hs i Hi px0 Hin) as (px1 & Hin1 & Hne & Hl). exists (px1.2, px1.1).
    split; [apply list_elem_of_fmap; eauto|]. split.
    + intros [= ??]. apply Hne. destruct px0, px1. cbn in *. congruence.
    + unfold line in *. cbn [fst snd]. lia.
  - intros px (px0 & -> & Hin)%list_elem_of_fmap. cbn. auto.
Qed.

End MojetteKatz.
