(* ===== verification/MojettePeel.v ===== *)
(** * Corner peeling

    The loop invariant of the peeling loop (a bin is the XOR of the unknown
    pixels on its line, its count is their number), termination on any input,
    soundness of what is recovered, and success whenever the geometry of
    [MojetteKatz] excludes a stall. *)

From S2P Require Import Prelude.
From S2P Require Import Mojette.
From S2P Require Import MojetteForward.
From S2P Require Import MojetteKatz.
Import Mojette MojetteForward MojetteKatz.

Module MojettePeel.

(** ** Grid cells *)

Lemma cell_lt P Q r c : (r < Q)%nat → (c < P)%nat → (r * P + c < P * Q)%nat.
Proof. nia. Qed.

Lemma cell_inj P r c r' c' :
  (c < P)%nat → (c' < P)%nat → (r * P + c = r' * P + c')%nat → r = r' ∧ c = c'.
Proof.
  intros Hc Hc' H. assert (r = r') as ->; [|lia].
  destruct (Nat.lt_trichotomy r r') as [Hr|[Hr|Hr]]; nia.
Qed.

Lemma cell_of P Q j : (j < P * Q)%nat → ∃ r c, (r < Q)%nat ∧ (c < P)%nat ∧ j = (r * P + c)%nat.
Proof.
  intros Hj. assert (HP : P ≠ 0%nat) by nia. exists (j / P)%nat, (j mod P)%nat.
  pose proof (Nat.div_mod_eq j P). pose proof (Nat.mod_upper_bound j P HP).
  split; [|split; [done|lia]]. apply Nat.Div0.div_lt_upper_bound. lia.
Qed.

#[local] Hint Resolve cell_lt : core.

(** ** Counting *)

Lemma csum_nonneg {A} (l : list A) f : (∀ x, x ∈ l → 0 <= f x)%Z → (0 <= csum l f)%Z.
Proof.
  induction l as [|x l IH]; intros H; [done|]. rewrite msum_cons.
  pose proof (H x ltac:(by constructor)). assert (0 <= csum l f)%Z; [|lia].
  apply IH. intros y Hy. apply H. by constructor.
Qed.

Lemma csum_zero {A} (l : list A) (U : A → bool) x :
  (csum l (λ y, if U y then 1 else 0) <= 0)%Z → x ∈ l → U x = false.
Proof.
  induction l as [|a l IH]; intros H Hx; [by apply not_elem_of_nil in Hx|].
  rewrite msum_cons in H.
  assert (0 <= csum l (λ y, if U y then 1 else 0))%Z.
  { apply csum_nonneg. intros y _. by destruct (U y). }
  apply list.elem_of_cons in Hx as [->|Hx].
  - destruct (U a); [lia|done].
  - apply IH; [|done]. destruct (U a); lia.
Qed.

(** If one element is selected, and only one, it is the one we see. *)
Lemma csum_one {A} `{EqDecision A} (l : list A) (U : A → bool) x y :
  NoDup l → csum l (λ y, if U y then 1 else 0)%Z = 1%Z →
  x ∈ l → U x = true → y ∈ l → U y = true → y = x.
Proof.
  intros Hnd H1 Hx HUx Hy HUy. rewrite (msum_remove _ _ l U (λ _, 1%Z) x) in H1 by done.
  assert (Hz : U y && negb (bool_decide (y = x)) = false).
  { apply (csum_zero l (λ z, U z && negb (bool_decide (z = x))) y); [lia|done]. }
  rewrite HUy in Hz. by destruct (bool_decide_reflect (y = x)).
Qed.

(** ** The search for the unknown pixel of a bin *)

Lemma peel_find_spec skip known P Q p q off b :
  match peel_find skip known P Q p q off b with
  | Some (r, c) => (r < Q)%nat ∧ (c < P)%nat ∧ rd false known (r * P + c) = false ∧
                   bin_index p q off r c = Z.of_nat b
  | None => ∀ r c, (r < Q)%nat → (c < P)%nat → skip r = false →
              rd false known (r * P + c) = false → bin_index p q off r c ≠ Z.of_nat b
  end.
Proof.
  unfold peel_find.
  set (hit := λ px : nat * nat, (px.1 < Q)%nat ∧ (px.2 < P)%nat ∧
    rd false known (px.1 * P + px.2) = false ∧ bin_index p q off px.1 px.2 = Z.of_nat b).
  set (clear := λ r c, rd false known (r * P + c) = false →
    bin_index p q off r c ≠ Z.of_nat b).
  match goal with |- context [for_break 0 Q ?body tt] =>
    assert (H : match for_break 0 Q body tt with
      | inl _ => ∀ r c, (r < 0 + Q)%nat → (c < P)%nat → skip r = false → clear r c
      | inr px => hit px end) end.
  { apply (for_break_ind (λ k _, ∀ r c, (r < k)%nat → (c < P)%nat → skip r = false → clear r c) hit);
      [lia|].
    intros row [] Hrow Hbefore. destruct (skip row) eqn:Esk.
    { intros r c Hr Hc Hs. destruct (decide (r = row)) as [->|]; [congruence|].
      apply Hbefore; [lia|done..]. }
    match goal with |- context [for_break 0 P ?body tt] =>
      assert (H : match for_break 0 P body tt with
        | inl _ => ∀ c, (c < 0 + P)%nat → clear row c
        | inr px => hit px end) end.
    { apply (for_break_ind (λ k _, ∀ c, (c < k)%nat → clear row c) hit); [lia|].
      intros col [] Hcol Hbef. destruct (rd false known (row * P + col)) eqn:Ek.
      - intros c Hc. destruct (decide (c = col)) as [->|]; [|apply Hbef; lia].
        intros Hf. congruence.
      - case_if; bool_prop.
        + repeat split; [cbn; lia|cbn; lia|done|done].
        + intros c Hc. destruct (decide (c = col)) as [->|]; [by intros _|apply Hbef; lia]. }
    destruct (for_break 0 P _ tt) as [|px]; [|done].
    intros r c Hr Hc Hs. destruct (decide (r = row)) as [->|]; [apply H; lia|].
    apply Hbefore; [lia|done..]. }
  destruct (for_break 0 Q _ tt) as [|[r c]]; [|done]. intros r c Hr. apply H. lia.
Qed.

(** ** The number of unknown pixels, and termination *)

Definition unk (P Q : nat) (known : list bool) : Z :=
  csum (seq 0 (P * Q)) (λ j, if negb (rd false known j) then 1%Z else 0%Z).

Lemma unk_nonneg P Q known : (0 <= unk P Q known)%Z.
Proof. apply csum_nonneg. intros j _. by destruct (rd false known j). Qed.

Lemma unk_wr P Q known j :
  length known = (P * Q)%nat → (j < P * Q)%nat → rd false known j = false →
  (unk P Q (wr known j true) = unk P Q known - 1)%Z.
Proof.
  intros Hl Hj Hf. unfold unk.
  rewrite (msum_remove _ _ (seq 0 (P * Q)) (λ j, negb (rd false known j)) (λ _, 1%Z) j);
    [|apply NoDup_seq|apply elem_of_seq; lia|by rewrite Hf].
  rewrite Z.add_simpl_l. apply msum_ext. intros y _. rewrite rd_wr by lia.
  case_decide as E.
  - rewrite bool_decide_true by done. by rewrite andb_false_r.
  - rewrite bool_decide_false by done. by rewrite andb_true_r.
Qed.

Lemma unk_le P Q known : (unk P Q known <= Z.of_nat (P * Q))%Z.
Proof.
  unfold unk. generalize 0%nat as lo. induction (P * Q)%nat as [|k IH]; intros lo; [done|].
  cbn [seq]. rewrite msum_cons. specialize (IH (S lo)). case_if; lia.
Qed.

Lemma unk_all_known P Q known :
  (∀ r c, (r < Q)%nat → (c < P)%nat → rd false known (r * P + c) = true) →
  unk P Q known = 0%Z.
Proof.
  intros H. apply msum_unit; [apply _|]. intros j Hj%elem_of_seq.
  destruct (cell_of P Q j) as (r & c & Hr & Hc & ->); [lia|]. by rewrite H.
Qed.

Lemma unk_zero P Q known r c :
  unk P Q known = 0%Z → (r < Q)%nat → (c < P)%nat → rd false known (r * P + c) = true.
Proof.
  intros H Hr Hc. apply negb_false_iff.
  apply (csum_zero (seq 0 (P * Q)) (λ j, negb (rd false known j))).
  - unfold unk in H. lia.
  - apply elem_of_seq. pose proof (cell_lt P Q r c Hr Hc). lia.
Qed.

Lemma unk_replicate P Q : unk P Q (replicate (P * Q) false) = Z.of_nat (P * Q).
Proof.
  unfold unk. rewrite (msum_ext _ _ _ _ (λ _, 1%Z)) by (intros; by rewrite rd_replicate).
  generalize 0%nat as lo. induction (P * Q)%nat as [|k IH]; intros lo; [done|].
  cbn [seq]. rewrite msum_cons, IH. lia.
Qed.

(** What every step of the loop keeps, whatever the projections hold. *)
Definition peel_moves (P Q : nat) (s s' : peel_st) : Prop :=
  length (ps_known s') = length (ps_known s) ∧
  (ps_recovered s' + unk P Q (ps_known s') = ps_recovered s + unk P Q (ps_known s))%Z ∧
  (ps_progress s = true → ps_progress s' = true) ∧
  (s' = s ∨ (unk P Q (ps_known s') < unk P Q (ps_known s))%Z ∧ ps_progress s' = true).

Lemma peel_moves_refl P Q s : peel_moves P Q s s.
Proof. repeat split; auto. Qed.

Lemma peel_moves_trans P Q s1 s2 s3 :
  peel_moves P Q s1 s2 → peel_moves P Q s2 s3 → peel_moves P Q s1 s3.
Proof.
  intros (Hl & Hr & Hp & Hm) (Hl' & Hr' & Hp' & Hm').
  split; [congruence|]. split; [lia|]. split; [auto|].
  destruct Hm as [->|[Hm Hm1]]; [done|]. destruct Hm' as [->|[Hm' Hm1']]; [by right|].
  right. split; [lia|done].
Qed.

Lemma peel_bin_moves skip P Q dirs offs n i b s :
  length (ps_known s) = (P * Q)%nat →
  peel_moves P Q s (peel_bin skip P Q dirs offs n i b s).
Proof.
  intros Hl. unfold peel_bin. case_if; [apply peel_moves_refl|].
  pose proof (peel_find_spec skip (ps_known s) P Q (md_p (dir dirs i)) (md_q (dir dirs i))
    (rd 0%Z offs i) b) as Hf.
  destruct (peel_find _ _ _ _ _ _ _ _) as [[r c]|]; [|apply peel_moves_refl].
  destruct Hf as (Hr & Hc & Hk & _). destruct (peel_remove _ _ _ _ _ _ _) as [pj cj].
  pose proof (unk_wr P Q (ps_known s) (r * P + c) Hl (cell_lt P Q r c Hr Hc) Hk) as Hu.
  unfold peel_moves. cbn [ps_known ps_recovered ps_progress].
  rewrite length_wr, Hu. split; [done|]. split; [lia|]. split; [done|].
  right. split; [lia|done].
Qed.

Lemma peel_pass_moves skip P Q dirs offs n s :
  length (ps_known s) = (P * Q)%nat →
  peel_moves P Q s (peel_pass skip P Q dirs offs n s).
Proof.
  intros Hl. unfold peel_pass.
  apply (for0_ind (λ _ s', peel_moves P Q s s')); [apply peel_moves_refl|].
  intros i s1 _ H1.
  apply (for0_ind (λ _ s', peel_moves P Q s s')); [done|].
  intros b s2 _ H2. eapply peel_moves_trans; [done|].
  apply peel_bin_moves. by rewrite (proj1 H2).
Qed.

(** Each pass that goes on leaves fewer unknown pixels, so the fuel lasts. *)
Lemma peel_loop_total fuel skip P Q dirs offs n s :
  length (ps_known s) = (P * Q)%nat → (unk P Q (ps_known s) < Z.of_nat fuel)%Z →
  is_Some (peel_loop fuel skip P Q dirs offs n s).
Proof.
  revert s. induction fuel as [|fuel IH]; intros s Hl Hf.
  { pose proof (unk_nonneg P Q (ps_known s)). lia. }
  cbn [peel_loop]. case_if; [|by eexists].
  set (s0 := mk_peel _ _ _ _ _ _).
  pose proof (peel_pass_moves skip P Q dirs offs n s0 Hl) as (Hl' & _ & _ & Hm).
  set (s1 := peel_pass _ _ _ _ _ _ s0) in *. case_if; [by eexists|].
  apply IH; [by rewrite Hl'|]. cbn [ps_known s0] in Hm.
  destruct Hm as [->|[Hm _]]; [done|]. change (ps_known s0) with (ps_known s) in Hm. lia.
Qed.

Section peel.
Context (g : nat → nat → Z) (P Q : nat) (dirs : list moj_direction) (n : nat).

Let offs := peel_offsets dirs n P Q.

(** ** Projections and counts of a set of unknown pixels *)

Definition pbin (i : nat) (px : nat * nat) : nat := pixel_bin dirs offs i px.1 px.2.

Lemma rd_offs i : (i < n)%nat →
  rd 0%Z offs i = moj_bin_offset (md_p (dir dirs i)) (md_q (dir dirs i)) P Q.
Proof. intros Hi. unfold offs, peel_offsets. by rewrite rd_map_seq. Qed.

Lemma pbin_index i r c : (i < n)%nat → (r < Q)%nat → (c < P)%nat →
  let d := dir dirs i in
  Z.of_nat (pbin i (r, c)) = bin_index (md_p d) (md_q d) (rd 0%Z offs i) r c ∧
  (pbin i (r, c) < psize (md_p d) (md_q d) P Q)%nat.
Proof.
  intros Hi Hr Hc d. unfold pbin, pixel_bin. cbn [fst snd]. rewrite rd_offs by done.
  pose proof (bin_range (md_p d) (md_q d) P Q r c Hr Hc). unfold psize. fold d. lia.
Qed.

Definition table_ok (U : nat * nat → bool) (i : nat) (prj : moj_projection) (cnt : list Z)
    : Prop :=
  proj_sized P Q (dir dirs i) prj ∧ length cnt = mp_nbins prj ∧
  ∀ b, (b < mp_nbins prj)%nat →
    rd 0%Z (mp_bins prj) b
      = xsum (pixels P Q) (λ px, if U px && (pbin i px =? b)%nat then g px.1 px.2 else 0%Z) ∧
    rd 0%Z cnt b
      = csum (pixels P Q) (λ px, if U px && (pbin i px =? b)%nat then 1%Z else 0%Z).

Definition tables (U : nat → nat * nat → bool) (projs : list moj_projection)
    (count : list (list Z)) : Prop :=
  (n <= length projs)%nat ∧ (n <= length count)%nat ∧
  ∀ i, (i < n)%nat → table_ok (U i) i (proj projs i) (rd [] count i).

Lemma table_ok_ext U U' i prj cnt :
  (∀ px, px ∈ pixels P Q → U px = U' px) → table_ok U i prj cnt → table_ok U' i prj cnt.
Proof.
  intros H (Hs & Hl & Hb). split; [done|]. split; [done|]. intros b Hb'.
  destruct (Hb b Hb') as [-> ->].
  split; apply msum_ext; intros px Hpx; by rewrite (H px Hpx).
Qed.

Definition without (U : nat * nat → bool) (px y : nat * nat) : bool :=
  U y && negb (bool_decide (y = px)).

(** Removing a pixel from the sum of the cells a test selects. *)
Lemma select_without {M} (op : M → M → M) e `{!Comm (=) op, !Assoc (=) op, !LeftId (=) e op}
    (U : nat * nat → bool) px (f : nat * nat → M) i b :
  px ∈ pixels P Q → U px = true →
  msum op e (pixels P Q) (λ y, if U y && (pbin i y =? b)%nat then f y else e)
  = if (pbin i px =? b)%nat
    then op (f px) (msum op e (pixels P Q)
           (λ y, if without U px y && (pbin i y =? b)%nat then f y else e))
    else msum op e (pixels P Q) (λ y, if without U px y && (pbin i y =? b)%nat then f y else e).
Proof.
  intros Hpx HU. destruct (Nat.eqb_spec (pbin i px) b) as [Hb|Hb].
  - rewrite (msum_remove op e (pixels P Q) (λ y, U y && (pbin i y =? b)%nat) f px);
      [|apply NoDup_pixels|done|by rewrite HU, Hb, Nat.eqb_refl].
    f_equal. apply msum_ext. intros y _. unfold without.
    by destruct (U y), (pbin i y =? b)%nat, (bool_decide (y = px)).
  - apply msum_ext. intros y _. unfold without.
    destruct (bool_decide_reflect (y = px)) as [->|]; [|by rewrite andb_true_r].
    rewrite HU. cbn. by destruct (Nat.eqb_spec (pbin i px) b).
Qed.

Lemma table_remove U i prj cnt r c :
  (i < n)%nat → (r < Q)%nat → (c < P)%nat → U (r, c) = true → table_ok U i prj cnt →
  let bj := pbin i (r, c) in
  table_ok (without U (r, c)) i
    (mk_proj (wr (mp_bins prj) bj (Z.lxor (rd 0%Z (mp_bins prj) bj) (g r c))) (mp_nbins prj))
    (wr cnt bj (rd 0%Z cnt bj - 1)%Z).
Proof.
  intros Hi Hr Hc HU ([Hn Hbl] & Hl & Hb) bj.
  assert (Hpx : (r, c) ∈ pixels P Q) by (by apply elem_of_pixels).
  pose proof (pbin_index i r c Hi Hr Hc) as [_ Hlt]. fold bj in Hlt.
  rewrite <-Hn in Hlt.
  split; [split; cbn; [done|by rewrite length_wr]|]. cbn [mp_bins mp_nbins].
  split; [by rewrite length_wr|]. intros b Hb'. rewrite !rd_wr by lia.
  destruct (Hb b Hb') as [Hx Hcnt].
  rewrite (select_without Z.lxor 0%Z U (r, c) _ i b Hpx HU) in Hx.
  rewrite (select_without Z.add 0%Z U (r, c) _ i b Hpx HU) in Hcnt.
  fold bj in Hx, Hcnt. cbn [fst snd] in Hx.
  case_decide as Hd.
  - subst b. rewrite Nat.eqb_refl in Hx, Hcnt. rewrite Hx, Hcnt.
    split; [by rewrite lxor_cancel_l|lia].
  - destruct (Nat.eqb_spec bj b); [done|]. by split.
Qed.

Lemma peel_remove_spec U projs count r c :
  (r < Q)%nat → (c < P)%nat → U (r, c) = true → tables (λ _, U) projs count →
  let s := peel_remove dirs offs n r c (g r c) (projs, count) in
  tables (λ _, without U (r, c)) s.1 s.2 ∧
  ∀ i, mp_nbins (proj s.1 i) = mp_nbins (proj projs i).
Proof.
  intros Hr Hc HU Ht. unfold peel_remove.
  set (I := λ j (s : list moj_projection * list (list Z)),
    tables (λ i, if (i <? j)%nat then without U (r, c) else U) s.1 s.2 ∧
    ∀ i, mp_nbins (proj s.1 i) = mp_nbins (proj projs i)).
  match goal with |- context [for_range 0 n ?body ?s0] =>
    assert (H : I n (for_range 0 n body s0)) end.
  { apply (for0_ind I).
    - destruct Ht as (? & ? & ?). split; [|done]. split; [done|]. by split.
    - intros j [pj cj] Hj [(Hp & Hcl & Ht') Hnb]. cbn [fst snd] in *.
      assert (Htj : table_ok U j (proj pj j) (rd [] cj j)).
      { specialize (Ht' j Hj). by rewrite Nat.ltb_irrefl in Ht'. }
      pose proof (table_remove U j _ _ r c Hj Hr Hc HU Htj) as Hnew. cbn zeta in Hnew.
      change (pixel_bin dirs offs j r c) with (pbin j (r, c)).
      unfold I, tables. cbn [fst snd].
      split; [split; [by rewrite length_wr|]; split; [by rewrite length_wr|]|].
      + intros i Hi. unfold proj. rewrite !rd_wr by lia.
        destruct (decide (i = j)) as [->|Hij].
        * destruct (Nat.ltb_spec j (S j)); [done|lia].
        * specialize (Ht' i Hi). unfold proj in Ht'.
          destruct (Nat.ltb_spec i (S j)), (Nat.ltb_spec i j); (done || lia).
      + intros i. unfold proj. rewrite rd_wr by lia. case_decide; [|apply Hnb].
        subst. cbn [mp_nbins]. apply Hnb. }
  destruct H as [(Hp & Hcl & H) Hnb]. split; [|done]. split; [done|]. split; [done|].
  intros i Hi. specialize (H i Hi). cbn beta in H.
  destruct (Nat.ltb_spec i n); [done|lia].
Qed.

(** ** The loop invariant *)

Context (skip : nat → bool).

Definition unknown (known : list bool) (px : nat * nat) : bool :=
  negb (rd false known (px.1 * P + px.2)).

Record peel_inv (s : peel_st) : Prop := {
  pi_known_len : length (ps_known s) = (P * Q)%nat;
  pi_grid_len : length (ps_grid s) = (P * Q)%nat;
  pi_grid : ∀ r c, (r < Q)%nat → (c < P)%nat → rd false (ps_known s) (r * P + c) = true →
              grid_px (ps_grid s) P r c = g r c;
  pi_skip : ∀ r c, (r < Q)%nat → (c < P)%nat → skip r = true →
              rd false (ps_known s) (r * P + c) = true;
  pi_tables : tables (λ _, unknown (ps_known s)) (ps_projs s) (ps_count s)
}.

Definition count_at (s : peel_st) (i b : nat) : Z := rd 0%Z (rd [] (ps_count s) i) b.

(** A bin with count one holds the pixel the search finds. *)
Lemma lone_pixel s i b r c :
  peel_inv s → (i < n)%nat → (b < mp_nbins (proj (ps_projs s) i))%nat →
  count_at s i b = 1%Z → (r < Q)%nat → (c < P)%nat →
  rd false (ps_known s) (r * P + c) = false → pbin i (r, c) = b →
  rd 0%Z (mp_bins (proj (ps_projs s) i)) b = g r c.
Proof.
  intros [_ _ _ _ (_ & _ & Ht)] Hi Hb Hcnt Hr Hc Hk Hpb.
  destruct (Ht i Hi) as (_ & _ & Hbin). destruct (Hbin b Hb) as [Hx Hn].
  unfold count_at in Hcnt. rewrite Hcnt in Hn.
  assert (Hpx : (r, c) ∈ pixels P Q) by (by apply elem_of_pixels).
  assert (HU : unknown (ps_known s) (r, c) && (pbin i (r, c) =? b)%nat = true).
  { unfold unknown. cbn [fst snd]. by rewrite Hk, Hpb, Nat.eqb_refl. }
  rewrite Hx, (msum_single _ _ _ _ (r, c)); [by rewrite HU|apply NoDup_pixels|done|].
  intros y Hy Hne. case_if; [|done]. exfalso. apply Hne.
  by apply (csum_one (pixels P Q)
    (λ px, unknown (ps_known s) px && (pbin i px =? b)%nat) (r, c) y (NoDup_pixels P Q)).
Qed.

Lemma unknown_wr known r c px :
  length known = (P * Q)%nat → (r < Q)%nat → (c < P)%nat → px ∈ pixels P Q →
  without (unknown known) (r, c) px = unknown (wr known (r * P + c) true) px.
Proof.
  intros Hl Hr Hc Hpx. destruct px as [r' c']. apply elem_of_pixels in Hpx as [Hr' Hc'].
  pose proof (cell_lt P Q r c Hr Hc). unfold without, unknown. cbn [fst snd].
  rewrite rd_wr by lia. case_decide as E.
  - apply cell_inj in E as [-> ->]; [|done..]. rewrite bool_decide_true by done.
    by rewrite andb_false_r.
  - rewrite bool_decide_false by (by intros [= -> ->]). by rewrite andb_true_r.
Qed.

Lemma peel_found_inv s r c :
  peel_inv s → (r < Q)%nat → (c < P)%nat → rd false (ps_known s) (r * P + c) = false →
  let t := peel_remove dirs offs n r c (g r c) (ps_projs s, ps_count s) in
  peel_inv (mk_peel (wr (ps_grid s) (r * P + c) (g r c)) (wr (ps_known s) (r * P + c) true)
              (ps_recovered s + 1) true t.1 t.2).
Proof.
  intros [Hkl Hgl Hg Hs Ht] Hr Hc Hk t. pose proof (cell_lt P Q r c Hr Hc) as Hlt.
  destruct (peel_remove_spec (unknown (ps_known s)) (ps_projs s) (ps_count s) r c Hr Hc)
    as [Ht' _]; [|done|].
  { unfold unknown. cbn [fst snd]. by rewrite Hk. }
  fold t in Ht'. split; cbn [ps_known ps_grid ps_projs ps_count]; rewrite ?length_wr; [done..| | |].
  - intros r' c' Hr' Hc'. unfold grid_px. rewrite !rd_wr by lia.
    case_decide as E; [|by apply Hg]. intros _. by apply cell_inj in E as [-> ->].
  - intros r' c' Hr' Hc' Hsk. rewrite rd_wr by lia. case_decide; [done|]. by apply Hs.
  - destruct Ht' as (Hp & Hc' & Ht'). split; [done|]. split; [done|]. intros i Hi.
    eapply table_ok_ext; [|by apply Ht']. intros px Hpx. by apply unknown_wr.
Qed.

Lemma peel_bin_inv s i b :
  peel_inv s → (i < n)%nat → (b < mp_nbins (proj (ps_projs s) i))%nat →
  let s' := peel_bin skip P Q dirs offs n i b s in
  peel_inv s' ∧ (∀ j, mp_nbins (proj (ps_projs s') j) = mp_nbins (proj (ps_projs s) j)) ∧
  (ps_progress s' = true ∨ s' = s ∧ count_at s i b ≠ 1%Z).
Proof.
  intros Hinv Hi Hb. unfold peel_bin. fold (count_at s i b).
  destruct (Z.eqb_spec (count_at s i b) 1) as [H1|H1]; cbn [negb]; [|by auto].
  pose proof (peel_find_spec skip (ps_known s) P Q (md_p (dir dirs i)) (md_q (dir dirs i))
    (rd 0%Z offs i) b) as Hf.
  destruct (peel_find _ _ _ _ _ _ _ _) as [[r c]|].
  - destruct Hf as (Hr & Hc & Hk & Hbin).
    assert (Hpb : pbin i (r, c) = b).
    { destruct (pbin_index i r c Hi Hr Hc) as [Hz _]. apply Nat2Z.inj. congruence. }
    rewrite (lone_pixel s i b r c) by done.
    pose proof (peel_found_inv s r c Hinv Hr Hc Hk) as Hnew. cbn zeta in Hnew.
    destruct (peel_remove_spec (unknown (ps_known s)) (ps_projs s) (ps_count s) r c Hr Hc)
      as [_ Hnb]; [unfold unknown; cbn; by rewrite Hk|by destruct Hinv|].
    destruct (peel_remove dirs offs n r c (g r c) (ps_projs s, ps_count s)) as [pj cj].
    split; [done|]. split; [done|by left].
  - exfalso. destruct Hinv as [_ _ _ Hs (_ & _ & Ht)].
    destruct (Ht i Hi) as (_ & _ & Ht'). destruct (Ht' b Hb) as [_ Hcnt].
    unfold count_at in H1. rewrite H1 in Hcnt.
    rewrite msum_unit in Hcnt; [done|apply _|]. intros [r c] Hpx.
    apply elem_of_pixels in Hpx as [Hr Hc]. case_if; [|done]. exfalso. bool_prop.
    unfold unknown in *. cbn [fst snd] in *. bool_prop.
    destruct (skip r) eqn:Esk; [by rewrite (Hs r c Hr Hc Esk) in *|].
    apply (Hf r c Hr Hc Esk); [done|].
    destruct (pbin_index i r c Hi Hr Hc) as [<- _]. by f_equal.
Qed.

(** No bin of any projection has count one. *)
Definition stuck_before (s : peel_st) (i : nat) : Prop :=
  ∀ j b, (j < i)%nat → (b < mp_nbins (proj (ps_projs s) j))%nat → count_at s j b ≠ 1%Z.

Lemma peel_pass_inv s :
  peel_inv s → ps_progress s = false →
  let s' := peel_pass skip P Q dirs offs n s in
  peel_inv s' ∧ (ps_progress s' = true ∨ s' = s ∧ stuck_before s n).
Proof.
  intros Hinv Hp. unfold peel_pass.
  apply (for0_ind (λ i s', peel_inv s' ∧ (ps_progress s' = true ∨ s' = s ∧ stuck_before s i))).
  { split; [done|]. right. split; [done|]. intros j b Hj. lia. }
  intros i s1 Hi [Hinv1 Hs1].
  set (nb := mp_nbins (proj (ps_projs s1) i)).
  match goal with |- context [for_range 0 nb ?body s1] =>
    assert (H : (λ k s', peel_inv s' ∧ mp_nbins (proj (ps_projs s') i) = nb ∧
      (ps_progress s' = true ∨ s' = s ∧ stuck_before s i ∧
         ∀ b, (b < k)%nat → count_at s i b ≠ 1%Z)) nb (for_range 0 nb body s1)) end.
  { apply (for0_ind (λ k s', peel_inv s' ∧ mp_nbins (proj (ps_projs s') i) = nb ∧
      (ps_progress s' = true ∨ s' = s ∧ stuck_before s i ∧
         ∀ b, (b < k)%nat → count_at s i b ≠ 1%Z))).
    - split; [done|]. split; [done|]. destruct Hs1 as [|[-> ?]]; [by left|].
      right. repeat split; [done|]. lia.
    - intros b s2 Hb (Hinv2 & Hnb & Hs2). rewrite <-Hnb in Hb.
      destruct (peel_bin_inv s2 i b Hinv2 Hi Hb) as (Hinv3 & Hnb3 & Hs3).
      split; [done|]. split; [by rewrite Hnb3|].
      destruct Hs3 as [|[-> Hne]]; [by left|].
      destruct Hs2 as [|(-> & Hst & Hall)]; [by left|]. right. repeat split; [done|].
      intros b' Hb'. destruct (decide (b' = b)) as [->|]; [done|]. apply Hall. lia. }
  destruct H as (HI & _ & HP). split; [done|]. destruct HP as [|(He & Hst & Hall)]; [by left|].
  right. split; [done|]. intros j b Hj Hb. destruct (decide (j = i)) as [->|].
  - apply Hall. unfold nb. destruct Hs1 as [Hs1|[-> _]]; [|done].
    destruct Hinv1 as [_ _ _ _ (_ & _ & Ht1)], Hinv as [_ _ _ _ (_ & _ & Ht0)].
    destruct (Ht1 i Hi) as ((-> & _) & _). destruct (Ht0 i Hi) as ((<- & _) & _). done.
  - apply Hst; [lia|done].
Qed.

Lemma peel_loop_inv fuel s s' :
  peel_inv s → peel_loop fuel skip P Q dirs offs n s = Some s' →
  peel_inv s' ∧
  (ps_recovered s' + unk P Q (ps_known s') = ps_recovered s + unk P Q (ps_known s))%Z ∧
  ((Z.of_nat (P * Q) <= ps_recovered s')%Z ∨ stuck_before s' n).
Proof.
  revert s. induction fuel as [|fuel IH]; intros s Hinv; cbn [peel_loop];
    destruct (Z.ltb_spec (ps_recovered s) (Z.of_nat (P * Q))); try done.
  1,3: intros [= <-]; split; [done|]; split; [done|]; by left.
  set (s0 := mk_peel _ _ _ _ _ _).
  assert (Hinv0 : peel_inv s0) by (by destruct Hinv).
  pose proof (peel_pass_inv s0 Hinv0 eq_refl) as [Hinv1 Hst].
  pose proof (peel_pass_moves skip P Q dirs offs n s0 (pi_known_len _ Hinv0)) as (_ & Hrec & _).
  set (s1 := peel_pass _ _ _ _ _ _ s0) in *.
  change (ps_known s0) with (ps_known s) in Hrec.
  change (ps_recovered s0) with (ps_recovered s) in Hrec.
  destruct (ps_progress s1) eqn:Ep; cbn [negb].
  - intros Hl. destruct (IH s1 Hinv1 Hl) as (H1 & H2 & H3). split; [done|]. split; [lia|done].
  - intros [= <-]. split; [done|]. split; [done|]. right.
    destruct Hst as [|[-> ?]]; done.
Qed.

(** ** A stalled loop breaks the Katz bound *)

Definition slope (i : nat) : Z * Z := (md_p (dir dirs i), md_q (dir dirs i)).

Definition unknowns (known : list bool) : list (nat * nat) :=
  filter (λ px, unknown known px = true) (pixels P Q).

Lemma same_line i r c r' c' :
  (i < n)%nat → (r < Q)%nat → (c < P)%nat → (r' < Q)%nat → (c' < P)%nat →
  pbin i (r, c) = pbin i (r', c') ↔ line (slope i) (r, c) = line (slope i) (r', c').
Proof.
  intros Hi Hr Hc Hr' Hc'.
  destruct (pbin_index i r c Hi Hr Hc) as [H _]. destruct (pbin_index i r' c' Hi Hr' Hc') as [H' _].
  unfold bin_index in *. unfold line, slope. cbn [fst snd]. lia.
Qed.

Lemma stuck_no_singleton s i :
  peel_inv s → stuck_before s n → (i < n)%nat →
  no_singleton (unknowns (ps_known s)) (slope i).
Proof.
  intros Hinv Hst Hi [r c] Hin. apply list_elem_of_filter in Hin as [HU Hin].
  pose proof Hin as Hrc. apply elem_of_pixels in Hrc as [Hr Hc].
  set (b := pbin i (r, c)).
  destruct (decide (Exists (λ px', px' ≠ (r, c) ∧ line (slope i) px' = line (slope i) (r, c))
    (unknowns (ps_known s)))) as [He|Hno].
  { apply list.Exists_exists in He as (px' & Hin' & Hne & Hl). eauto. }
  exfalso. destruct Hinv as [_ _ _ _ (_ & _ & Ht)]. destruct (Ht i Hi) as ((Hn & _) & _ & Hb).
  assert (Hlt : (b < mp_nbins (proj (ps_projs s) i))%nat).
  { rewrite Hn. by apply pbin_index. }
  apply (Hst i b Hi Hlt). destruct (Hb b Hlt) as [_ Hcnt]. unfold count_at. rewrite Hcnt.
  rewrite (msum_single _ _ _ _ (r, c)); [|apply NoDup_pixels|done|].
  - unfold b. by rewrite HU, Nat.eqb_refl.
  - intros [r' c'] Hin' Hne. case_if; [|done]. exfalso. bool_prop.
    pose proof Hin' as Hrc'. apply elem_of_pixels in Hrc' as [Hr' Hc'].
    apply Hno, list.Exists_exists. exists (r', c').
    split; [by apply list_elem_of_filter|]. split; [done|]. by apply same_line.
Qed.

(** The geometry excludes a stall. *)
Definition no_stall : Prop :=
  ∀ L, L ≠ [] → (∀ px, px ∈ L → px ∈ pixels P Q ∧ skip px.1 = false) →
    (∀ i, (i < n)%nat → no_singleton L (slope i)) → False.

(** Then the loop recovers every pixel. *)
Lemma peel_recovers s :
  no_stall → peel_inv s →
  (ps_recovered s + unk P Q (ps_known s) = Z.of_nat (P * Q))%Z →
  ∃ s', peel_loop (S (P * Q)) skip P Q dirs offs n s = Some s' ∧
    ps_recovered s' = Z.of_nat (P * Q) ∧ length (ps_grid s') = (P * Q)%nat ∧
    ∀ r c, (r < Q)%nat → (c < P)%nat → grid_px (ps_grid s') P r c = g r c.
Proof.
  intros Hgeo Hinv Htot. pose proof (unk_le P Q (ps_known s)) as Hle.
  destruct (peel_loop_total (S (P * Q)) skip P Q dirs offs n s) as [s' Hs'];
    [apply Hinv|lia|].
  exists s'. split; [done|]. destruct (peel_loop_inv _ s s' Hinv Hs') as (Hinv' & Hrec & Hend).
  pose proof (unk_nonneg P Q (ps_known s')) as Hnn.
  assert (Hz : unk P Q (ps_known s') = 0%Z).
  { destruct Hend as [|Hst]; [lia|].
    destruct (decide (unknowns (ps_known s') = [])) as [He|Hne].
    - apply unk_all_known. intros r c Hr Hc. destruct (rd false _ _) eqn:E; [done|exfalso].
      assert (Hin : (r, c) ∈ unknowns (ps_known s')); [|rewrite He in Hin; by apply not_elem_of_nil in Hin].
      apply list_elem_of_filter. split; [unfold unknown; cbn; by rewrite E|].
      by apply elem_of_pixels.
    - exfalso. apply (Hgeo (unknowns (ps_known s')) Hne).
      + intros [r c] Hin. apply list_elem_of_filter in Hin as [HU Hin]. split; [done|].
        apply elem_of_pixels in Hin as [Hr Hc]. cbn [fst]. destruct (skip r) eqn:Esk; [|done].
        unfold unknown in HU. cbn [fst snd] in HU.
        by rewrite (pi_skip _ Hinv' r c Hr Hc Esk) in HU.
      + intros i Hi. by apply stuck_no_singleton. }
  split; [lia|]. split; [apply Hinv'|]. intros r c Hr Hc.
  apply (pi_grid _ Hinv'); [done..|]. by apply (unk_zero P Q).
Qed.

(** ** Filling the counts *)

Lemma count_pixel_len count px :
  (n <= length count)%nat →
  length (for_range 0 n (λ i count, count_inc count i (pbin i px)) count) = length count.
Proof.
  intros Hl.
  exact (proj1 (update_loop [] (λ i ci, wr ci (pbin i px) (rd 0%Z ci (pbin i px) + 1)%Z)
    n count Hl)).
Qed.

Lemma count_pixel_spec count px i b :
  (n <= length count)%nat → (i < n)%nat →
  let count' := for_range 0 n (λ i count, count_inc count i (pbin i px)) count in
  length (rd [] count' i) = length (rd [] count i) ∧
  ((pbin i px < length (rd [] count i))%nat →
   rd 0%Z (rd [] count' i) b
   = (rd 0%Z (rd [] count i) b + if (pbin i px =? b)%nat then 1 else 0)%Z).
Proof.
  intros Hl Hi.
  destruct (update_loop [] (λ i ci, wr ci (pbin i px) (rd 0%Z ci (pbin i px) + 1)%Z) n count Hl)
    as [_ Hr]. cbn zeta. unfold count_inc.
  rewrite (Hr i), decide_True by done. split; [by rewrite length_wr|]. intros Hb.
  rewrite rd_wr by done. destruct (Nat.eqb_spec (pbin i px) b) as [->|].
  - by rewrite decide_True.
  - rewrite decide_False by done. by rewrite Z.add_0_r.
Qed.

Lemma zero_counts_spec projs i :
  (i < n)%nat → rd [] (zero_counts projs n) i = replicate (mp_nbins (proj projs i)) 0%Z.
Proof. intros Hi. unfold zero_counts. by rewrite rd_map_seq. Qed.

(** The counts after the pixels of [pre]. *)
Definition counts_ok (projs : list moj_projection) (U : nat * nat → bool)
    (pre : list (nat * nat)) (count : list (list Z)) : Prop :=
  length count = n ∧
  ∀ i, (i < n)%nat → length (rd [] count i) = mp_nbins (proj projs i) ∧
    ∀ b, (b < mp_nbins (proj projs i))%nat →
      rd 0%Z (rd [] count i) b
      = csum pre (λ px, if U px && (pbin i px =? b)%nat then 1 else 0)%Z.

Lemma counts_ok_zero projs U : counts_ok projs U [] (zero_counts projs n).
Proof.
  split; [unfold zero_counts; by rewrite length_map, length_seq|]. intros i Hi.
  rewrite zero_counts_spec by done. split; [by rewrite length_replicate|].
  intros b Hb. apply rd_replicate.
Qed.

Lemma counts_ok_step projs U pre r c count :
  (∀ i, (i < n)%nat → proj_sized P Q (dir dirs i) (proj projs i)) →
  (r < Q)%nat → (c < P)%nat → counts_ok projs U pre count →
  counts_ok projs U (pre ++ [(r, c)])
    (if U (r, c) then for_range 0 n (λ i count, count_inc count i (pbin i (r, c))) count
     else count).
Proof.
  intros Hsz Hr Hc [Hl Hcnt]. split.
  { case_if; [|done]. rewrite count_pixel_len; [done|lia]. }
  intros i Hi. destruct (Hcnt i Hi) as [Hli Hci]. case_if.
  - destruct (count_pixel_spec count (r, c) i 0) as (-> & _); [lia|done|].
    split; [done|]. intros b Hb.
    destruct (count_pixel_spec count (r, c) i b) as (_ & Hnew); [lia|done|].
    rewrite Hnew by (rewrite Hli; destruct (Hsz i Hi) as [-> _]; by apply pbin_index).
    rewrite Hci, msum_snoc by (apply _ || done). by rewrite Heqb.
  - split; [done|]. intros b Hb. rewrite Hci, msum_snoc by (apply _ || done).
    rewrite Heqb. cbn. by rewrite Z.add_0_r.
Qed.

Lemma projection_pbin i b :
  (i < n)%nat →
  projection g P Q (md_p (dir dirs i)) (md_q (dir dirs i)) b
  = xsum (pixels P Q) (λ px, if (pbin i px =? b)%nat then g px.1 px.2 else 0%Z).
Proof.
  intros Hi. apply msum_ext. intros [r c] Hin. apply elem_of_pixels in Hin as [Hr Hc].
  destruct (pbin_index i r c Hi Hr Hc) as [He _]. rewrite rd_offs in He by done.
  cbn [fst snd]. rewrite <-He.
  destruct (Nat.eqb_spec (pbin i (r, c)) b), (Z.eqb_spec (Z.of_nat (pbin i (r, c))) (Z.of_nat b));
    (done || lia).
Qed.

End peel.

(** ** The dense inverse *)

Definition holds_all (g : nat → nat → Z) (P Q : nat) (dirs : list moj_direction) (n : nat)
    (projs : list moj_projection) : Prop :=
  (n <= length projs)%nat ∧
  ∀ i, (i < n)%nat → holds_projection g P Q (dir dirs i) (proj projs i).

Lemma holds_sized g P Q d prj : holds_projection g P Q d prj → proj_sized P Q d prj.
Proof. by intros (? & ? & _). Qed.

(** The state in which the dense loop starts. *)
Lemma peel_start g P Q dirs n projs grid :
  holds_all g P Q dirs n projs → length grid = (P * Q)%nat →
  let offsets := peel_offsets dirs n P Q in
  let count := for_range 0 Q (λ row count, for_range 0 P (λ col count,
    for_range 0 n (λ i count, count_inc count i (pixel_bin dirs offsets i row col)) count)
    count) (zero_counts projs n) in
  peel_inv g P Q dirs n (λ _, false)
    (mk_peel (splice 0 (replicate (P * Q) 0%Z) grid) (replicate (P * Q) false) 0 false
       projs count).
Proof.
  intros [Hn Hp] Hl offsets count.
  assert (Hc : counts_ok P Q dirs n projs (λ _, true) (pixels P Q) count).
  { unfold count. rewrite (loop_pixels P Q (λ row col count, for_range 0 n _ count)).
    apply (fold_left_ind (counts_ok P Q dirs n projs (λ _, true))); [apply counts_ok_zero|].
    intros pre [r c] post cnt Hpre Hcnt.
    assert (Hin : (r, c) ∈ pixels P Q) by (rewrite Hpre; set_solver).
    apply elem_of_pixels in Hin as [Hr Hc].
    exact (counts_ok_step P Q dirs n projs (λ _, true) pre r c cnt
      (λ i Hi, holds_sized _ _ _ _ _ (Hp i Hi)) Hr Hc Hcnt). }
  split; cbn [ps_known ps_grid ps_projs ps_count].
  - by rewrite length_replicate.
  - rewrite length_splice by (rewrite length_replicate; lia). done.
  - intros r c _ _. by rewrite rd_replicate.
  - done.
  - destruct Hc as [Hcl Hc]. split; [done|]. split; [lia|]. intros i Hi.
    destruct (Hp i Hi) as (Hs1 & Hs2 & Hb), (Hc i Hi) as [Hli Hci].
    split; [by split|]. split; [done|]. intros b Hb'. rewrite Hb, Hci by done.
    rewrite (projection_pbin g P Q dirs n) by done.
    split; apply msum_ext; intros px _; unfold unknown; by rewrite rd_replicate.
Qed.

Lemma inverse_peel_total grid P Q dirs n projs :
  is_Some (moj_inverse_peel grid P Q dirs n projs).
Proof.
  unfold moj_inverse_peel. apply fmap_is_Some. apply peel_loop_total; cbn [ps_known].
  - apply length_replicate.
  - rewrite unk_replicate. lia.
Qed.

(** Whatever the directions, a reported success is the original grid. *)
Lemma inverse_peel_sound g P Q dirs n projs grid ret grid' projs' :
  holds_all g P Q dirs n projs → length grid = (P * Q)%nat →
  moj_inverse_peel grid P Q dirs n projs = Some (ret, grid', projs') →
  (ret = 0 ∨ ret = - EIO)%Z ∧ length grid' = (P * Q)%nat ∧
  (ret = 0%Z → ∀ r c, (r < Q)%nat → (c < P)%nat → grid_px grid' P r c = g r c).
Proof.
  intros Hp Hl. unfold moj_inverse_peel.
  pose proof (peel_start g P Q dirs n projs grid Hp Hl) as Hinv. cbn zeta in Hinv.
  destruct (peel_loop _ _ _ _ _ _ _ _) as [s'|] eqn:El; [|done].
  destruct (peel_loop_inv g P Q dirs n _ _ _ s' Hinv El) as (Hinv' & Hrec & _).
  cbn [ps_recovered ps_known] in Hrec. rewrite unk_replicate in Hrec.
  intros [= <- <- <-]. split; [case_if; auto|]. split; [by apply Hinv'|].
  case_if; [|done]. bool_prop. intros _ r c Hr Hc. apply (pi_grid _ _ _ _ _ _ _ Hinv'); [done..|].
  apply (unk_zero P Q); [lia|done..].
Qed.

Lemma inverse_peel_complete g P Q dirs n projs grid :
  holds_all g P Q dirs n projs → length grid = (P * Q)%nat →
  no_stall P Q dirs n (λ _, false) →
  ∃ grid' projs', moj_inverse_peel grid P Q dirs n projs = Some (0%Z, grid', projs') ∧
    length grid' = (P * Q)%nat ∧
    ∀ r c, (r < Q)%nat → (c < P)%nat → grid_px grid' P r c = g r c.
Proof.
  intros Hp Hl Hgeo. unfold moj_inverse_peel.
  pose proof (peel_start g P Q dirs n projs grid Hp Hl) as Hinv. cbn zeta in Hinv.
  destruct (peel_recovers g P Q dirs n _ _ Hgeo Hinv) as (s' & -> & Hr & Hgl & Hg).
  { cbn [ps_recovered ps_known]. rewrite unk_replicate. lia. }
  exists (ps_grid s'), (ps_projs s'). split; [|done].
  cbn [option_map]. unfold peel_result. by rewrite Hr, Z.eqb_refl.
Qed.

End MojettePeel.
