(* ===== verification/MojetteSparse.v ===== *)
(** * Peeling a partially known grid, and when peeling cannot stall

    [moj_inverse_peel_sparse] XORs the known rows out of the projections and
    then peels; the Katz test and the generated directions give the geometric
    condition of [MojettePeel]. *)

From S2P Require Import Prelude.
From S2P Require Import Mojette.
From S2P Require Import MojetteForward.
From S2P Require Import MojetteKatz.
From S2P Require Import MojettePeel.
Import Mojette MojetteForward MojetteKatz MojettePeel.

Module MojetteSparse.

(** A loop that only touches one half of its state. *)
Lemma for_range_fst {A B} lo n (f : nat → A → A) (a : A) (b : B) :
  for_range lo n (λ i '(a, b), (f i a, b)) (a, b) = (for_range lo n f a, b).
Proof. induction n as [|n IH]; [done|]. by rewrite !for_range_S, IH. Qed.

Lemma for_range_snd {A B} lo n (f : nat → B → B) (a : A) (b : B) :
  for_range lo n (λ i '(a, b), (a, f i b)) (a, b) = (a, for_range lo n f b).
Proof. induction n as [|n IH]; [done|]. by rewrite !for_range_S, IH. Qed.

(** ** The set of missing rows *)

(** In range and without repetition. *)
Definition missing_ok (Q : nat) (missing : list Z) (n_missing : nat) : Prop :=
  (1 <= n_missing <= Q)%nat ∧
  (∀ i, (i < n_missing)%nat → 0 <= rd 0 missing i < Z.of_nat Q)%Z ∧
  (∀ i j, (i < j < n_missing)%nat → rd 0%Z missing i ≠ rd 0%Z missing j).

(** Row [r] is one of them. *)
Definition is_missing (missing : list Z) (n_missing r : nat) : bool :=
  existsb (λ i, (rd 0 missing i =? Z.of_nat r)%Z) (seq 0 n_missing).

Lemma is_missing_true missing n_missing r :
  is_missing missing n_missing r = true ↔
  ∃ i, (i < n_missing)%nat ∧ rd 0%Z missing i = Z.of_nat r.
Proof.
  unfold is_missing. rewrite existsb_exists. split.
  - intros (i & Hi%in_seq & He). bool_prop. exists i. split; [lia|done].
  - intros (i & Hi & He). exists i. rewrite in_seq. split; [lia|]. by apply Z.eqb_eq.
Qed.

Lemma is_missing_S missing k r :
  is_missing missing (S k) r
  = is_missing missing k r || (rd 0 missing k =? Z.of_nat r)%Z.
Proof.
  unfold is_missing. rewrite seq_S, existsb_app. cbn. by rewrite orb_false_r.
Qed.

Lemma mark_missing_spec Q missing n_missing :
  missing_ok Q missing n_missing →
  ∃ mr, mark_missing Q missing n_missing = inl mr ∧ length mr = Q ∧
    ∀ r, (r < Q)%nat → rd false mr r = is_missing missing n_missing r.
Proof.
  intros (_ & Hr & _). unfold mark_missing.
  match goal with |- context [for_break 0 n_missing ?body ?s] =>
    assert (H : match for_break 0 n_missing body s with
      | inl mr => length mr = Q ∧
          ∀ r, (r < Q)%nat → rd false mr r = is_missing missing (0 + n_missing) r
      | inr _ => False end); [|destruct (for_break 0 n_missing body s); [by eexists|done]] end.
  apply (for_break_ind (λ k mr, length mr = Q ∧
    ∀ r, (r < Q)%nat → rd false mr r = is_missing missing k r) (λ _, False)).
  - split; [by rewrite length_replicate|]. intros r _. apply rd_replicate.
  - intros i mr Hi [Hl Hmr]. specialize (Hr i ltac:(lia)).
    case_if.
    { apply orb_true_iff in Heqb as [E|E]; bool_prop; lia. }
    split; [by rewrite length_wr|]. intros r Hr'. rewrite rd_wr, is_missing_S, Hmr by lia.
    case_decide as E.
    + subst. rewrite Z2Nat.id by lia. by rewrite Z.eqb_refl, orb_true_r.
    + destruct (Z.eqb_spec (rd 0 missing i) (Z.of_nat r)); [lia|]. by rewrite orb_false_r.
Qed.

(** Out-of-range rows are refused before anything is changed. *)
Lemma mark_missing_refuses Q missing n_missing e :
  mark_missing Q missing n_missing = inr e → e = (- EINVAL)%Z.
Proof.
  unfold mark_missing. intros H.
  match type of H with for_break ?lo ?m ?body ?s = _ =>
    pose proof (for_break_ind (λ _ _, True) (λ e, e = (- EINVAL)%Z) lo m body s I) as Hi end.
  rewrite H in Hi. apply Hi. intros i s' _ _. by case_if.
Qed.

(** The distinct missing rows are [n_missing] many. *)
Lemma missing_count Q missing n_missing :
  missing_ok Q missing n_missing →
  csum (seq 0 Q) (λ r, if is_missing missing n_missing r then 1 else 0)%Z = Z.of_nat n_missing.
Proof.
  intros (_ & Hr & Hd).
  assert (H : ∀ k, (k <= n_missing)%nat →
    csum (seq 0 Q) (λ r, if is_missing missing k r then 1 else 0)%Z = Z.of_nat k);
    [|by apply H].
  induction k as [|k IH]; intros Hk.
  { apply msum_unit; [apply _|done]. }
  specialize (Hr k ltac:(lia)). set (m := Z.to_nat (rd 0%Z missing k)).
  rewrite (msum_remove _ _ (seq 0 Q) (λ r, is_missing missing (S k) r) (λ _, 1%Z) m);
    [|apply NoDup_seq|apply elem_of_seq; lia|].
  - rewrite Nat2Z.inj_succ, <-(IH ltac:(lia)), Z.add_comm, <-Z.add_1_r. f_equal.
    apply msum_ext. intros r _. rewrite is_missing_S.
    destruct (bool_decide_reflect (r = m)) as [->|Hne].
    + rewrite andb_false_r. case_if; [|done]. exfalso.
      apply is_missing_true in Heqb as (i & Hi & He). apply (Hd i k); [lia|]. lia.
    + rewrite andb_true_r. destruct (Z.eqb_spec (rd 0 missing k) (Z.of_nat r)); [lia|].
      by rewrite orb_false_r.
  - rewrite is_missing_S. apply orb_true_iff. right. apply Z.eqb_eq. lia.
Qed.

(** ** Cells and pixels *)

Lemma map_cells P Q : map (λ px, px.1 * P + px.2)%nat (pixels P Q) = seq 0 (P * Q).
Proof.
  unfold pixels.
  assert (H : ∀ lo, map (λ px, px.1 * P + px.2)%nat
    (flat_map (λ r, map (pair r) (seq 0 P)) (seq lo Q)) = seq (lo * P) (P * Q)).
  { induction Q as [|Q IH]; intros lo; [by rewrite Nat.mul_0_r|].
    cbn [seq flat_map]. rewrite map_app, IH, map_map. cbn [fst snd].
    rewrite Nat.mul_succ_r, Nat.add_comm, seq_app. f_equal; [|f_equal; lia].
    pose proof (fmap_add_seq (lo * P) 0 P) as Hs. by rewrite Nat.add_0_r in Hs. }
  rewrite H. done.
Qed.

Lemma unk_pixels P Q known :
  unk P Q known = csum (pixels P Q) (λ px, if negb (rd false known (px.1 * P + px.2)) then 1 else 0)%Z.
Proof. unfold unk. by rewrite <-map_cells, msum_map. Qed.

Lemma csum_const {A} (l : list A) (k : Z) : csum l (λ _, k) = (Z.of_nat (length l) * k)%Z.
Proof.
  induction l as [|x l IH]; [done|]. rewrite msum_cons, IH. cbn [length]. lia.
Qed.

Lemma csum_scale {A} (l : list A) (U : A → bool) (k : Z) :
  csum l (λ x, if U x then k else 0)%Z = (k * csum l (λ x, if U x then 1 else 0))%Z.
Proof.
  induction l as [|x l IH]; [cbn; lia|]. rewrite !msum_cons, IH. destruct (U x); lia.
Qed.

(** The known array of the sparse inverse. *)
Lemma known_rows_spec P Q (mr : list bool) :
  let known := for_range 0 Q (λ row known,
    if rd false mr row then known
    else for_range 0 P (λ col known, wr known (row * P + col) true) known)
    (replicate (P * Q) false) in
  length known = (P * Q)%nat ∧
  ∀ r c, (r < Q)%nat → (c < P)%nat → rd false known (r * P + c) = negb (rd false mr r).
Proof.
  intros known.
  assert (H : (λ k known, length known = (P * Q)%nat ∧
    ∀ r c, (r < Q)%nat → (c < P)%nat →
      rd false known (r * P + c) = if (r <? k)%nat then negb (rd false mr r) else false) Q known).
  { unfold known. apply (for0_ind (λ k known, length known = (P * Q)%nat ∧
      ∀ r c, (r < Q)%nat → (c < P)%nat →
        rd false known (r * P + c) = if (r <? k)%nat then negb (rd false mr r) else false)).
    { split; [by rewrite length_replicate|]. intros r c _ _. by rewrite rd_replicate. }
    intros row kn Hrow [Hl Hk].
    assert (Hlast : ∀ r, (r <? S row)%nat = (r <? row)%nat || (r =? row)%nat).
    { intros r. destruct (Nat.ltb_spec r (S row)), (Nat.ltb_spec r row), (Nat.eqb_spec r row);
        (done || lia). }
    destruct (rd false mr row) eqn:Em.
    - split; [done|]. intros r c Hr Hc. rewrite Hk, Hlast by done.
      destruct (Nat.eqb_spec r row) as [->|]; [by rewrite Em, Nat.ltb_irrefl|].
      by rewrite orb_false_r.
    - destruct (fill_loop false (λ _, true) (row * P) 0 P kn) as [Hfl Hf]; [nia|].
      split; [by rewrite Hfl|]. intros r c Hr Hc. rewrite Hf, Hk, Hlast by done.
      destruct (Nat.eqb_spec r row) as [->|].
      + rewrite decide_True by lia. by rewrite orb_true_r, Em.
      + rewrite decide_False, orb_false_r; [done|]. intros Hin.
        destruct (Nat.lt_ge_cases r row); nia. }
  destruct H as [Hl Hk]. split; [done|]. intros r c Hr Hc. rewrite Hk by done.
  destruct (Nat.ltb_spec r Q); [done|lia].
Qed.

(** ** XORing the known rows out *)

Section sparse.
Context (g : nat → nat → Z) (P Q : nat) (dirs : list moj_direction) (n : nat).
Context (projs0 : list moj_projection) (holds : holds_all g P Q dirs n projs0).
Context (U : nat * nat → bool).

Definition xor_pixel (v : Z) (b : nat) (prj : moj_projection) : moj_projection :=
  mk_proj (wr (mp_bins prj) b (Z.lxor (rd 0%Z (mp_bins prj) b) v)) (mp_nbins prj).

(** The projections after the known pixels of [pre] are out. *)
Definition projs_ok (pre : list (nat * nat)) (projs : list moj_projection) : Prop :=
  length projs = length projs0 ∧
  ∀ i, (i < n)%nat →
    mp_nbins (proj projs i) = mp_nbins (proj projs0 i) ∧
    length (mp_bins (proj projs i)) = mp_nbins (proj projs0 i) ∧
    ∀ b, (b < mp_nbins (proj projs0 i))%nat →
      rd 0%Z (mp_bins (proj projs i)) b
      = Z.lxor (rd 0%Z (mp_bins (proj projs0 i)) b)
          (xsum pre (λ px, if negb (U px) && (pbin P Q dirs n i px =? b)%nat
                           then g px.1 px.2 else 0%Z)).

Lemma projs_ok_start : projs_ok [] projs0.
Proof.
  split; [done|]. intros i Hi. destruct holds as [_ Hh]. destruct (Hh i Hi) as (_ & Hl & _).
  split; [done|]. split; [done|]. intros b Hb. cbn. by rewrite Z.lxor_0_r.
Qed.

Lemma projs_ok_step pre r c projs :
  (r < Q)%nat → (c < P)%nat → projs_ok pre projs →
  projs_ok (pre ++ [(r, c)])
    (if U (r, c) then projs
     else for_range 0 n (λ i projs,
       wr projs i (xor_pixel (g r c) (pbin P Q dirs n i (r, c)) (proj projs i))) projs).
Proof.
  intros Hr Hc [Hl Hp]. destruct holds as [Hn Hh]. destruct (U (r, c)) eqn:EU.
  - split; [done|]. intros i Hi. destruct (Hp i Hi) as (H1 & H2 & H3).
    split; [done|]. split; [done|]. intros b Hb. rewrite H3, msum_snoc by (apply _ || done).
    rewrite EU. cbn. by rewrite Z.lxor_0_r.
  - set (out := for_range 0 n _ projs).
    assert (Hu : length out = length projs ∧ ∀ i, proj out i
      = if decide (i < n)%nat then xor_pixel (g r c) (pbin P Q dirs n i (r, c)) (proj projs i)
        else proj projs i).
    { apply (update_loop no_proj
        (λ i prj, xor_pixel (g r c) (pbin P Q dirs n i (r, c)) prj) n projs). lia. }
    destruct Hu as [Hul Hu]. split; [congruence|]. intros i Hi.
    destruct (Hp i Hi) as (H1 & H2 & H3). destruct (Hh i Hi) as (Hsz & _).
    rewrite !Hu, decide_True by done. unfold xor_pixel. cbn [mp_nbins mp_bins].
    rewrite length_wr. split; [done|]. split; [done|]. intros b Hb.
    assert (Hb' : (pbin P Q dirs n i (r, c) < mp_nbins (proj projs0 i))%nat).
    { rewrite Hsz. by apply pbin_index. }
    rewrite rd_wr, msum_snoc by (apply _ || lia). rewrite EU. cbn [negb andb fst snd].
    case_decide as E.
    + rewrite E, Nat.eqb_refl, <-E. rewrite H3 by done. by rewrite Z.lxor_assoc.
    + rewrite H3 by done. destruct (Nat.eqb_spec (pbin P Q dirs n i (r, c)) b); [done|].
      by rewrite Z.lxor_0_r.
Qed.

(** What is left is the sum of the unknown pixels. *)
Lemma projs_ok_unknown projs count :
  projs_ok (pixels P Q) projs → counts_ok P Q dirs n projs0 U (pixels P Q) count →
  tables g P Q dirs n (λ _, U) projs count.
Proof.
  intros [Hl Hp] [Hcl Hc]. destruct holds as [Hn Hh].
  split; [lia|]. split; [lia|]. intros i Hi.
  destruct (Hp i Hi) as (H1 & H2 & H3), (Hc i Hi) as [H4 H5], (Hh i Hi) as (Hs & Hbl & Hb).
  split; [split; congruence|]. split; [congruence|]. rewrite H1. intros b Hb'.
  split; [|by apply H5]. rewrite H3, Hb by done.
  rewrite (projection_pbin g P Q dirs n), <-msum_op by (apply _ || done). apply msum_ext.
  intros px _. destruct (U px), (pbin P Q dirs n i px =? b)%nat; cbn; try done.
  - apply Z.lxor_0_r.
  - apply Z.lxor_nilpotent.
Qed.

(** The initialising loop of the sparse inverse. *)
Definition sparse_init (grid : list Z) (mr : list bool) (projs : list moj_projection)
    : list moj_projection * list (list Z) :=
  let offsets := peel_offsets dirs n P Q in
  for_range 0 Q (λ row s, for_range 0 P (λ col s,
    let is_known := negb (rd false mr row) in
    for_range 0 n (λ i '(projs, count),
      let b := pixel_bin dirs offsets i row col in
      if is_known then
        let prj := proj projs i in
        (wr projs i (mk_proj (wr (mp_bins prj) b
           (Z.lxor (rd 0%Z (mp_bins prj) b) (rd 0%Z grid (row * P + col))))
           (mp_nbins prj)), count)
      else (projs, count_inc count i b)) s) s) (projs, zero_counts projs n).

Lemma sparse_init_spec grid mr :
  (∀ r c, (r < Q)%nat → (c < P)%nat → U (r, c) = rd false mr r) →
  (∀ r c, (r < Q)%nat → (c < P)%nat → rd false mr r = false → grid_px grid P r c = g r c) →
  let s := sparse_init grid mr projs0 in tables g P Q dirs n (λ _, U) s.1 s.2.
Proof.
  intros HU Hg. unfold sparse_init. cbn zeta.
  rewrite (loop_pixels P Q (λ row col s, for_range 0 n (λ i '(projs, count),
    if negb (rd false mr row) then _ else _) s)).
  set (I := λ pre (s : list moj_projection * list (list Z)),
    projs_ok pre s.1 ∧ counts_ok P Q dirs n projs0 U pre s.2).
  match goal with |- context [fold_left ?f (pixels P Q) ?s0] =>
    assert (H : I (pixels P Q) (fold_left f (pixels P Q) s0)) end.
  { apply (fold_left_ind I); [split; [apply projs_ok_start|apply counts_ok_zero]|].
    intros pre [r c] post [projs count] Hpre [Hp Hc]. cbn [fst snd] in *.
    assert (Hin : (r, c) ∈ pixels P Q) by (rewrite Hpre; set_solver).
    apply elem_of_pixels in Hin as [Hr Hcc].
    pose proof (projs_ok_step pre r c projs Hr Hcc Hp) as Hp'.
    pose proof (counts_ok_step P Q dirs n projs0 U pre r c count
      (λ i Hi, holds_sized _ _ _ _ _ (proj2 holds i Hi)) Hr Hcc Hc) as Hc'.
    rewrite HU in Hp', Hc' by done. unfold I. destruct (rd false mr r) eqn:Em; cbn [negb].
    - rewrite (for_range_snd 0 n (λ i count, count_inc count i _)). by split.
    - rewrite (for_range_fst 0 n (λ i projs, wr projs i _)).
      cbn [fst snd]. split; [|done]. specialize (Hg r c Hr Hcc Em). unfold grid_px in Hg.
      rewrite Hg. exact Hp'. }
  destruct H as [Hp Hc]. by apply projs_ok_unknown.
Qed.

End sparse.

(** ** The sparse inverse *)

Definition known_match (g : nat → nat → Z) (P Q : nat) (missing : list Z) (n_missing : nat)
    (grid : list Z) : Prop :=
  length grid = (P * Q)%nat ∧
  ∀ r c, (r < Q)%nat → (c < P)%nat → is_missing missing n_missing r = false →
    grid_px grid P r c = g r c.

(** Past the checks, the sparse inverse is the peeling loop on this state. *)
Definition sparse_state (P Q : nat) (dirs : list moj_direction) (n : nat)
    (projs : list moj_projection) (mr : list bool) (n_missing : nat) (grid : list Z) : peel_st :=
  let known := for_range 0 Q (λ row known,
    if rd false mr row then known
    else for_range 0 P (λ col known, wr known (row * P + col) true) known)
    (replicate (P * Q) false) in
  let s := sparse_init P Q dirs n grid mr projs in
  mk_peel grid known (Z.of_nat (P * Q) - Z.of_nat (n_missing * P)) false s.1 s.2.

Lemma peel_sparse_unfold grid P Q dirs n projs missing n_missing mr :
  (1 <= n_missing <= Q)%nat → mark_missing Q missing n_missing = inl mr →
  moj_inverse_peel_sparse grid P Q dirs n projs (Some missing) n_missing
  = option_map (peel_result P Q)
      (peel_loop (S (P * Q)) (λ row, negb (rd false mr row)) P Q dirs
         (peel_offsets dirs n P Q) n (sparse_state P Q dirs n projs mr n_missing grid)).
Proof.
  intros Hn Hm. unfold moj_inverse_peel_sparse. rewrite Hm.
  destruct (Nat.ltb_spec n_missing 1); [lia|]. destruct (Nat.ltb_spec Q n_missing); [lia|].
  cbn [orb]. unfold sparse_state, sparse_init. cbn zeta.
  by destruct (for_range 0 Q _ (projs, zero_counts projs n)).
Qed.

Lemma sparse_state_inv g P Q dirs n projs missing n_missing grid mr :
  holds_all g P Q dirs n projs → known_match g P Q missing n_missing grid →
  missing_ok Q missing n_missing → length mr = Q →
  (∀ r, (r < Q)%nat → rd false mr r = is_missing missing n_missing r) →
  let s := sparse_state P Q dirs n projs mr n_missing grid in
  peel_inv g P Q dirs n (λ row, negb (rd false mr row)) s ∧
  (ps_recovered s + unk P Q (ps_known s) = Z.of_nat (P * Q))%Z.
Proof.
  intros Hh [Hgl Hg] Hm Hmrl Hmr s.
  destruct (known_rows_spec P Q mr) as [Hkl Hk]. fold (ps_known s) in Hkl, Hk.
  split.
  - split; [done|done| | |].
    + intros r c Hr Hc. rewrite Hk by done. intros Hn%negb_true_iff.
      apply Hg; [done..|]. by rewrite <-Hmr.
    + intros r c Hr Hc Hs. by rewrite Hk.
    + apply sparse_init_spec; [done| |].
      * intros r c Hr Hc. unfold unknown. cbn [fst snd]. by rewrite Hk, negb_involutive.
      * intros r c Hr Hc Hf. apply Hg; [done..|]. by rewrite <-Hmr.
  - change (ps_recovered s) with (Z.of_nat (P * Q) - Z.of_nat (n_missing * P))%Z.
    assert (Hu : unk P Q (ps_known s) = Z.of_nat (n_missing * P)); [|lia].
    rewrite unk_pixels. unfold pixels. rewrite msum_flat_map by apply _.
    transitivity (csum (seq 0 Q) (λ r, if is_missing missing n_missing r then Z.of_nat P else 0)%Z).
    + apply msum_ext. intros r Hr%elem_of_seq. rewrite msum_map.
      rewrite (msum_ext _ _ _ _ (λ _, if is_missing missing n_missing r then 1 else 0)%Z).
      * rewrite csum_const, length_seq. case_if; lia.
      * intros c Hc%elem_of_seq. cbn [fst snd]. rewrite Hk, Hmr by lia.
        by rewrite negb_involutive.
    + rewrite csum_scale, (missing_count Q) by done. lia.
Qed.

Lemma inverse_peel_sparse_total grid P Q dirs n projs missing n_missing :
  is_Some (moj_inverse_peel_sparse grid P Q dirs n projs missing n_missing).
Proof.
  destruct missing as [missing|]; [|by eexists].
  destruct (decide (1 <= n_missing <= Q)%nat) as [Hn|Hn].
  - destruct (mark_missing Q missing n_missing) as [mr|e] eqn:Em.
    + rewrite (peel_sparse_unfold _ _ _ _ _ _ _ _ mr) by done. apply fmap_is_Some.
      apply peel_loop_total; [apply known_rows_spec|].
      match goal with |- (unk P Q ?k < _)%Z => pose proof (unk_le P Q k) end. lia.
    + unfold moj_inverse_peel_sparse. rewrite Em. case_if; by eexists.
  - unfold moj_inverse_peel_sparse.
    destruct (Nat.ltb_spec n_missing 1), (Nat.ltb_spec Q n_missing); cbn [orb]; try by eexists.
    lia.
Qed.

(** Success is never reported with a wrong pixel. *)
Lemma inverse_peel_sparse_sound g P Q dirs n projs missing n_missing grid ret grid' projs' :
  holds_all g P Q dirs n projs → known_match g P Q missing n_missing grid →
  missing_ok Q missing n_missing →
  moj_inverse_peel_sparse grid P Q dirs n projs (Some missing) n_missing
    = Some (ret, grid', projs') →
  (ret = 0 ∨ ret = - EIO)%Z ∧ length grid' = (P * Q)%nat ∧
  (ret = 0%Z → ∀ r c, (r < Q)%nat → (c < P)%nat → grid_px grid' P r c = g r c).
Proof.
  intros Hh Hk Hm. destruct (mark_missing_spec Q missing n_missing Hm) as (mr & Hmr & Hl & Hr).
  rewrite (peel_sparse_unfold _ _ _ _ _ _ _ _ mr (proj1 Hm) Hmr).
  destruct (sparse_state_inv g P Q dirs n projs missing n_missing grid mr Hh Hk Hm Hl Hr)
    as [Hinv Htot].
  set (s := sparse_state _ _ _ _ _ _ _ _) in *.
  destruct (peel_loop _ _ _ _ _ _ _ _) as [s'|] eqn:El; [|done].
  destruct (peel_loop_inv g P Q dirs n _ _ _ s' Hinv El) as (Hinv' & Hrec & _).
  intros [= <- <- <-]. split; [case_if; auto|]. split; [by apply Hinv'|].
  case_if; [|done]. bool_prop. intros _ r c Hr' Hc.
  apply (pi_grid _ _ _ _ _ _ _ Hinv'); [done..|]. apply (unk_zero P Q); [lia|done..].
Qed.

Lemma inverse_peel_sparse_complete g P Q dirs n projs missing n_missing grid :
  holds_all g P Q dirs n projs → known_match g P Q missing n_missing grid →
  missing_ok Q missing n_missing →
  no_stall P Q dirs n (λ r, negb (is_missing missing n_missing r)) →
  ∃ grid' projs',
    moj_inverse_peel_sparse grid P Q dirs n projs (Some missing) n_missing
      = Some (0%Z, grid', projs') ∧ length grid' = (P * Q)%nat ∧
    ∀ r c, (r < Q)%nat → (c < P)%nat → grid_px grid' P r c = g r c.
Proof.
  intros Hh Hk Hm Hgeo.
  destruct (mark_missing_spec Q missing n_missing Hm) as (mr & Hmr & Hl & Hr).
  rewrite (peel_sparse_unfold _ _ _ _ _ _ _ _ mr (proj1 Hm) Hmr).
  destruct (sparse_state_inv g P Q dirs n projs missing n_missing grid mr Hh Hk Hm Hl Hr)
    as [Hinv Htot].
  assert (Hgeo' : no_stall P Q dirs n (λ row, negb (rd false mr row))).
  { intros L HL Hin. apply Hgeo; [done|]. intros [r c] Hpx.
    destruct (Hin _ Hpx) as [Hp Hs]. split; [done|]. cbn [fst] in *.
    apply elem_of_pixels in Hp as [Hr' _]. by rewrite <-Hr. }
  destruct (peel_recovers g P Q dirs n _ _ Hgeo' Hinv Htot) as (s' & -> & Hrec & Hgl & Hg).
  exists (ps_grid s'), (ps_projs s'). split; [|done].
  cbn [option_map]. unfold peel_result. by rewrite Hrec, Z.eqb_refl.
Qed.

(** ** When the geometry excludes a stall *)

(** Primitive directions, no two of them parallel. *)
Definition dirs_ok (dirs : list moj_direction) (n : nat) : Prop :=
  (∀ i, (i < n)%nat → Z.gcd (md_p (dir dirs i)) (md_q (dir dirs i)) = 1%Z) ∧
  (∀ i j, (i < j < n)%nat → (md_p (dir dirs i) * md_q (dir dirs j)
                             ≠ md_p (dir dirs j) * md_q (dir dirs i))%Z).

Lemma dirs_ok_not_parallel dirs n :
  dirs_ok dirs n → ∀ i j, (i < n)%nat → (j < n)%nat → i ≠ j →
  ¬ parallel (slope dirs i) (slope dirs j).
Proof.
  intros [_ Hp] i j Hi Hj Hij. unfold parallel, slope. cbn [fst snd].
  destruct (Nat.lt_ge_cases i j) as [Hlt|Hge].
  - apply Hp. lia.
  - intros He. apply (Hp j i); [lia|]. lia.
Qed.

Lemma katz_check_spec dirs n P Q :
  moj_katz_check dirs n P Q = true ↔
  (Z.of_nat P <= csum (seq 0 n) (λ i, Z.abs (md_p (dir dirs i))) ∨
   Z.of_nat Q <= csum (seq 0 n) (λ i, Z.abs (md_q (dir dirs i))))%Z.
Proof.
  unfold moj_katz_check.
  match goal with |- context [for_range 0 n ?body ?s] =>
    assert (H : for_range 0 n body s = (csum (seq 0 n) (λ i, Z.abs (md_p (dir dirs i))),
      csum (seq 0 n) (λ i, Z.abs (md_q (dir dirs i))))) end.
  { induction n as [|k IH]; [done|]. rewrite for_range_S, IH, !seq_S, !msum_snoc by apply _.
    cbn [Nat.add]. f_equal; f_equal; case_if; bool_prop; lia. }
  rewrite H, orb_true_iff, !Z.leb_le. done.
Qed.

(** The Katz test is enough for a full grid. *)
Lemma katz_no_stall P Q dirs n :
  dirs_ok dirs n → moj_katz_check dirs n P Q = true → no_stall P Q dirs n (λ _, false).
Proof.
  intros Hd Hk L HL Hin Hs. pose proof (dirs_ok_not_parallel dirs n Hd) as Hp.
  destruct Hd as [Hg _]. apply katz_check_spec in Hk as [Hk|Hk].
  - pose proof (katz_cols L (slope dirs) n P HL Hg Hp Hs) as Hc.
    unfold slope in Hc at 1. cbn [fst] in Hc. apply Z.le_ngt in Hk. apply Hk, Hc.
    intros [r c] Hpx. apply Hin in Hpx as [Hpx _]. by apply elem_of_pixels in Hpx as [_ ?].
  - pose proof (katz_rows L (slope dirs) n HL Hg Hp Hs Q) as Hc.
    apply Z.le_ngt in Hk. apply Hk, Hc.
    intros [r c] Hpx. apply Hin in Hpx as [Hpx _]. by apply elem_of_pixels in Hpx as [? _].
Qed.

(** As many directions with [q = 1] as there are missing rows are enough. *)
Lemma missing_no_stall P Q dirs n missing n_missing :
  dirs_ok dirs n → (∀ i, (i < n)%nat → md_q (dir dirs i) = 1%Z) → (n_missing <= n)%nat →
  no_stall P Q dirs n (λ r, negb (is_missing missing n_missing r)).
Proof.
  intros Hd Hq Hn L HL Hin Hs. pose proof (dirs_ok_not_parallel dirs n Hd) as Hp.
  assert (H : (n < length (map (λ i, Z.to_nat (rd 0%Z missing i)) (seq 0 n_missing)))%nat).
  { apply (katz_row_set L (slope dirs) n HL (proj1 Hd) Hp Hs).
    - intros i Hi. unfold slope. cbn [snd]. by rewrite Hq.
    - intros [r c] Hpx. destruct (Hin _ Hpx) as [_ Hm]. cbn [fst] in *.
      apply negb_false_iff, is_missing_true in Hm as (i & Hi & He).
      apply list_elem_of_fmap. exists i. split; [lia|]. apply elem_of_seq. lia. }
  rewrite length_map, length_seq in H. lia.
Qed.

End MojetteSparse.
