(* ===== verification/MojetteGd.v ===== *)
(** * The geometry-driven inverse

    The sweep of [moj_inverse_gd] and [moj_inverse_gd_sparse] recovers every
    missing pixel: when it writes a pixel, all the others of the line it reads
    are known or already recovered.  The proof is over the abstract data of the
    sweep (rows in ascending order, slopes in descending order, offsets that
    satisfy the recurrence), which both variants of [k_off] compute. *)

From S2P Require Import Prelude.
From S2P Require Import Mojette.
From S2P Require Import MojetteForward.
From S2P Require Import MojettePeel.
From S2P Require Import MojetteSparse.
From stdpp Require Import sorting.
Import Mojette MojetteForward MojettePeel MojetteSparse.

Module MojetteGd.

Open Scope Z_scope.

(** ** The walk along a line *)

Lemma line_px_at g P p r x :
  0 <= x < Z.of_nat P → line_px g P p (Z.of_nat r * p + x) r = g r (Z.to_nat x).
Proof.
  intros Hx. unfold line_px. rewrite Z.add_simpl_l. case_if; bool_prop; [done|lia].
Qed.

Section walk.
Context (grid : list Z) (P Q : nat).

Lemma walk_up_spec p y x pixel :
  0 <= x < Z.of_nat P → p ≠ 0 →
  gd_walk_up grid P p y x pixel
  = Z.lxor pixel (xsum (seq 0 y) (line_px (grid_px grid P) P p (Z.of_nat y * p + x))).
Proof.
  revert x pixel. induction y as [|y IH]; intros x pixel Hx Hp.
  { cbn. by rewrite Z.lxor_0_r. }
  cbn [gd_walk_up]. replace (Z.of_nat (S y) * p + x) with (Z.of_nat y * p + (x + p)) by lia.
  destruct ((0 <=? x + p) && (x + p <? Z.of_nat P)) eqn:E; bool_prop.
  - rewrite IH by lia. rewrite seq_S, msum_snoc by apply _. cbn [Nat.add].
    rewrite (line_px_at _ _ _ y) by lia.
    rewrite Z.lxor_assoc. f_equal. apply Z.lxor_comm.
  - rewrite msum_unit; [by rewrite Z.lxor_0_r|apply _|]. intros r Hr%elem_of_seq.
    unfold line_px. case_if; [|done]. bool_prop. exfalso.
    apply andb_false_iff in E as [E|E]; bool_prop; nia.
Qed.

Lemma walk_down_spec p rest y x pixel :
  0 <= x < Z.of_nat P → p ≠ 0 →
  gd_walk_down grid P p rest y x pixel
  = Z.lxor pixel (xsum (seq (S y) rest) (line_px (grid_px grid P) P p (Z.of_nat y * p + x))).
Proof.
  revert y x pixel. induction rest as [|rest IH]; intros y x pixel Hx Hp.
  { cbn. by rewrite Z.lxor_0_r. }
  cbn [gd_walk_down]. replace (Z.of_nat y * p + x) with (Z.of_nat (S y) * p + (x - p)) by lia.
  destruct ((0 <=? x - p) && (x - p <? Z.of_nat P)) eqn:E; bool_prop.
  - rewrite IH by lia. cbn [seq]. rewrite msum_cons, (line_px_at _ _ _ (S y)) by lia.
    by rewrite Z.lxor_assoc.
  - rewrite msum_unit; [by rewrite Z.lxor_0_r|apply _|]. intros r Hr%elem_of_seq.
    unfold line_px. case_if; [|done]. bool_prop. exfalso.
    apply andb_false_iff in E as [E|E]; bool_prop; nia.
Qed.

(** The sum of a line without the pixel of row [y]. *)
Definition line_others (g : nat → nat → Z) (p t : Z) (y : nat) : Z :=
  Z.lxor (xsum (seq 0 y) (line_px g P p t)) (xsum (seq (S y) (Q - 1 - y)) (line_px g P p t)).

Lemma line_split g p t y :
  (y < Q)%nat →
  xsum (seq 0 Q) (line_px g P p t) = Z.lxor (line_px g P p t y) (line_others g p t y).
Proof.
  intros Hy. unfold line_others. replace Q with (y + (1 + (Q - 1 - y)))%nat at 1 by lia.
  rewrite seq_app, msum_app by apply _. cbn [Nat.add seq]. rewrite msum_cons.
  rewrite !(assoc Z.lxor). f_equal. apply Z.lxor_comm.
Qed.

Lemma column_others x y k :
  0 <= x < Z.of_nat P →
  for_range 0 k (λ i pixel,
    if negb (i =? y)%nat then Z.lxor pixel (rd 0 grid (i * P + Z.to_nat x)) else pixel) 0
  = xsum (seq 0 k) (λ r, if (r =? y)%nat then 0
                         else line_px (grid_px grid P) P 0 (Z.of_nat y * 0 + x) r).
Proof.
  intros Hx. induction k as [|k IH]; [done|].
  rewrite for_range_S, seq_S, msum_snoc, IH by apply _. cbn [Nat.add].
  destruct (Nat.eqb_spec k y) as [->|]; cbn [negb]; [by rewrite Z.lxor_0_r|].
  f_equal. replace (Z.of_nat y * 0 + x) with (Z.of_nat k * 0 + x) by lia.
  by rewrite line_px_at.
Qed.

Lemma gd_others_spec p y x :
  (y < Q)%nat → 0 <= x < Z.of_nat P →
  gd_others grid P Q p y x = line_others (grid_px grid P) p (Z.of_nat y * p + x) y.
Proof.
  intros Hy Hx. unfold gd_others. destruct (Z.eqb_spec p 0) as [->|Hp]; cbn [negb].
  - rewrite column_others by done. unfold line_others.
    replace Q with (y + (1 + (Q - 1 - y)))%nat at 1 by lia.
    rewrite seq_app, msum_app by apply _. cbn [Nat.add seq].
    rewrite msum_cons, Nat.eqb_refl, Z.lxor_0_l.
    f_equal; apply msum_ext; intros r Hr%elem_of_seq;
      (destruct (Nat.eqb_spec r y); [lia|done]).
  - rewrite walk_down_spec, walk_up_spec by done. by rewrite Z.lxor_0_l.
Qed.

Lemma line_others_ext g g' p t y :
  (∀ r c, (r < Q)%nat → r ≠ y → (c < P)%nat → Z.of_nat c = t - Z.of_nat r * p → g r c = g' r c) →
  (y < Q)%nat → line_others g p t y = line_others g' p t y.
Proof.
  intros H Hy. unfold line_others. f_equal; apply msum_ext; intros r Hr%elem_of_seq;
    unfold line_px; (case_if; [|done]); bool_prop; apply H; lia.
Qed.

End walk.

(** ** The order of the sweep *)

Section order.
Context (np : nat) (m sp k : nat → Z).
Context (m_up : ∀ i, (i + 1 < np)%nat → m i < m (i + 1)%nat).
Context (sp_down : ∀ i j, (i < j < np)%nat → sp j < sp i).
Context (k_rec : ∀ i, (i + 1 < np)%nat →
           k i = k (i + 1)%nat + (m (i + 1)%nat - m i) * sp (i + 1)%nat).

Lemma k_below l d :
  (l + d < np)%nat →
  k l - k (l + d)%nat <= (m (l + d)%nat - m l) * sp l ∧
  ((0 < d)%nat → k l - k (l + d)%nat < (m (l + d)%nat - m l) * sp l) ∧ m l <= m (l + d)%nat.
Proof.
  induction d as [|d IH]; intros Hd.
  { rewrite Nat.add_0_r. lia. }
  destruct IH as (H1 & _ & H3); [lia|].
  pose proof (m_up (l + d) ltac:(lia)) as Hm. pose proof (k_rec (l + d) ltac:(lia)) as Hk.
  pose proof (sp_down l (l + d + 1) ltac:(lia)) as Hs.
  replace (l + S d)%nat with (l + d + 1)%nat by lia. nia.
Qed.

Lemma k_above l d :
  (d <= l)%nat → (l < np)%nat → (m l - m (l - d)%nat) * sp l <= k (l - d)%nat - k l.
Proof.
  intros Hd Hl. induction d as [|d IH].
  { rewrite Nat.sub_0_r. lia. }
  specialize (IH ltac:(lia)).
  pose proof (m_up (l - S d) ltac:(lia)) as Hm. pose proof (k_rec (l - S d) ltac:(lia)) as Hk.
  replace (l - S d + 1)%nat with (l - d)%nat in Hm, Hk by lia.
  assert (Hs : sp l <= sp (l - d)%nat).
  { destruct (decide (d = 0)%nat) as [->|]; [rewrite Nat.sub_0_r; lia|].
    apply Z.lt_le_incl, sp_down. lia. }
  nia.
Qed.

(** A pixel of row [j] on the line of row [l] is swept before it. *)
Lemma swept_before l j :
  (l < np)%nat → (j < np)%nat → j ≠ l →
  (m l - m j) * sp l - k j + k l < 0 ∨
  (m l - m j) * sp l - k j + k l = 0 ∧ (j < l)%nat.
Proof.
  intros Hl Hj Hne. destruct (Nat.lt_ge_cases l j) as [Hlt|Hge].
  - pose proof (k_below l (j - l) ltac:(lia)) as (_ & H & _).
    replace (l + (j - l))%nat with j in H by lia. specialize (H ltac:(lia)). left. lia.
  - pose proof (k_above l (l - j) ltac:(lia) ltac:(lia)) as H.
    replace (l - (l - j))%nat with j in H by lia.
    destruct (Z.lt_trichotomy ((m l - m j) * sp l - k j + k l) 0) as [|[|]]; [by left|right|]; lia.
Qed.

(** The largest offset is at one of the ends. *)
Lemma k_max l : (l < np)%nat → k l <= Z.max (k O) (k (np - 1)%nat).
Proof.
  intros Hl. destruct (Z.lt_ge_cases (sp l) 0) as [Hs|Hs].
  - pose proof (k_below l (np - 1 - l) ltac:(lia)) as (H & _ & H3).
    replace (l + (np - 1 - l))%nat with (np - 1)%nat in H, H3 by lia. nia.
  - pose proof (k_above l l ltac:(lia) Hl) as H. rewrite Nat.sub_diag in H.
    pose proof (k_below 0 l ltac:(lia)) as (_ & _ & H3). rewrite Nat.add_0_l in H3. nia.
Qed.

End order.

(** ** The sweep *)

Section sweep.
Context (g : nat → nat → Z) (P Q np : nat).
Context (dirs : list moj_direction) (pairs : list moj_gd_pair) (projs : list moj_projection).
Context (k_off : list Z) (row_of : nat → nat) (known : nat → bool).

Let sp := gd_sorted_p pairs.
Let k := rd 0 k_off.

Context (rows_lt : ∀ l, (l < np)%nat → (row_of l < Q)%nat).
Context (rows_all : ∀ r, (r < Q)%nat → known r = true ∨ ∃ l, (l < np)%nat ∧ row_of l = r).
Context (rows_up : ∀ i, (i + 1 < np)%nat →
           Z.of_nat (row_of i) < Z.of_nat (row_of (i + 1)%nat)).
Context (sp_down : ∀ i j, (i < j < np)%nat → sp j < sp i).
Context (k_rec : ∀ i, (i + 1 < np)%nat → k i = k (i + 1)%nat
           + (Z.of_nat (row_of (i + 1)%nat) - Z.of_nat (row_of i)) * sp (i + 1)%nat).
Context (lines : ∀ l, (l < np)%nat →
           gd_off dirs pairs P Q l = moj_bin_offset (sp l) 1 P Q ∧
           holds_projection g P Q (mk_dir (sp l) 1) (proj projs (gd_sorted_idx pairs l))).

(** What is right when the sweep is about to do [(t, l)]. *)
Definition swept (t : Z) (l r c : nat) : Prop :=
  known r = true ∨ ∃ j, (j < np)%nat ∧ row_of j = r ∧
    (Z.of_nat c - k j < t ∨ Z.of_nat c - k j = t ∧ (j < l)%nat).

Definition sweep_inv (t : Z) (l : nat) (grid : list Z) : Prop :=
  length grid = (P * Q)%nat ∧
  ∀ r c, (r < Q)%nat → (c < P)%nat → swept t l r c → grid_px grid P r c = g r c.

Lemma rows_ordered i j : (i < j < np)%nat → (row_of i < row_of j)%nat.
Proof.
  intros [Hij Hj]. induction j as [|j IH]; [lia|]. pose proof (rows_up j ltac:(lia)) as H.
  replace (j + 1)%nat with (S j) in H by lia.
  destruct (decide (i = j)) as [->|]; [lia|]. specialize (IH ltac:(lia) ltac:(lia)). lia.
Qed.

Lemma rows_inj i j : (i < np)%nat → (j < np)%nat → row_of i = row_of j → i = j.
Proof.
  intros Hi Hj He. destruct (Nat.lt_trichotomy i j) as [Hlt|[|Hlt]]; [|done|].
  - pose proof (rows_ordered i j ltac:(lia)). lia.
  - pose proof (rows_ordered j i ltac:(lia)). lia.
Qed.

(** The value the sweep computes is the pixel. *)
Lemma gd_pixel t l grid x :
  (l < np)%nat → sweep_inv t l grid → x = t + k l → 0 <= x < Z.of_nat P →
  let y := row_of l in
  Z.lxor (rd 0 (mp_bins (proj projs (gd_sorted_idx pairs l)))
            (Z.to_nat (Z.of_nat y * sp l + x - gd_off dirs pairs P Q l)))
         (gd_others grid P Q (sp l) y x) = g y (Z.to_nat x).
Proof.
  intros Hl [Hgl Hg] Hx Hxr y. pose proof (rows_lt l Hl) as Hy. fold y in Hy.
  destruct (lines l Hl) as [-> (Hn & _ & Hb)]. cbn [md_p md_q] in *.
  pose proof (bin_range (sp l) 1 P Q y (Z.to_nat x) Hy ltac:(lia)) as Hr.
  unfold bin_index in Hr. rewrite Z.mul_1_r, Z2Nat.id in Hr by lia.
  rewrite Hb by (rewrite Hn; unfold psize; lia).
  rewrite projection_rows, Z2Nat.id, Z.sub_add by lia.
  rewrite (line_split P Q _ _ _ y Hy), line_px_at by done.
  rewrite gd_others_spec by done.
  rewrite (line_others_ext P Q (grid_px grid P) g); [|clear Hb|done].
  - rewrite Z.lxor_assoc, Z.lxor_nilpotent. apply Z.lxor_0_r.
  - intros r c Hr' Hry Hc Hcl. apply Hg; [done..|].
    destruct (rows_all r Hr') as [|(j & Hj & <-)]; [by left|]. right. exists j.
    split; [done|]. split; [done|].
    assert (Hjl : j ≠ l) by (intros ->; by apply Hry).
    pose proof (swept_before np (λ i, Z.of_nat (row_of i)) sp k rows_up sp_down k_rec l j
      Hl Hj Hjl) as Hs. cbn beta in Hs. fold y in Hs. lia.
Qed.

Lemma gd_step_inv t l grid :
  (l < np)%nat → sweep_inv t l grid →
  sweep_inv t (S l) (gd_step dirs pairs k_off row_of projs P Q t l grid).
Proof.
  intros Hl Hinv. unfold gd_step. fold k. fold sp. set (x := t + k l).
  pose proof (rows_lt l Hl) as Hy.
  destruct ((x <? 0) || (Z.of_nat P <=? x)) eqn:E.
  - destruct Hinv as [Hgl Hg]. split; [done|]. intros r c Hr Hc Hs. apply Hg; [done..|].
    destruct Hs as [|(j & Hj & Hrow & Ht)]; [by left|]. right. exists j.
    split; [done|]. split; [done|]. destruct Ht as [|[Ht Hjl]]; [by left|]. right.
    split; [done|]. assert (j ≠ l); [|lia]. intros ->. unfold x in E.
    apply orb_true_iff in E as [E|E]; bool_prop; lia.
  - bool_prop. rewrite (gd_pixel t l grid x) by (done || lia).
    destruct Hinv as [Hgl Hg].
    assert (Hcell : (row_of l * P + Z.to_nat x < P * Q)%nat) by (apply cell_lt; lia).
    split; [by rewrite length_wr|]. intros r c Hr Hc Hs. unfold grid_px.
    rewrite rd_wr by lia. case_decide as Ec.
    + apply cell_inj in Ec as [-> ->]; [done|lia..].
    + apply Hg; [done..|]. destruct Hs as [|(j & Hj & Hrow & Ht)]; [by left|].
      right. exists j. split; [done|]. split; [done|].
      destruct Ht as [|[Ht Hjl]]; [by left|]. right. split; [done|].
      assert (j ≠ l); [|lia]. intros ->. apply Ec. subst r. f_equal. lia.
Qed.

Lemma gd_m_off_le l : (l < np)%nat → gd_m_off k_off np <= k l.
Proof.
  intros Hl. unfold gd_m_off. fold k.
  pose proof (for_range_ind (λ i m, ∀ l, (l < i)%nat → m <= k l) 1 (np - 1)
    (λ l m_off, if k l <? m_off then k l else m_off) (k O)) as H.
  cbn beta in H. apply H; [| |lia].
  - intros j Hj. replace j with O by lia. lia.
  - intros i m Hi IH j Hj. destruct (decide (j = i)) as [->|].
    + case_if; bool_prop; lia.
    + specialize (IH j ltac:(lia)). case_if; bool_prop; lia.
Qed.

(** After the sweep every pixel is the original one. *)
Lemma gd_sweep_spec grid :
  length grid = (P * Q)%nat →
  (∀ r c, (r < Q)%nat → (c < P)%nat → known r = true → grid_px grid P r c = g r c) →
  let grid' := gd_sweep dirs pairs k_off row_of projs P Q np grid in
  length grid' = (P * Q)%nat ∧
  ∀ r c, (r < Q)%nat → (c < P)%nat → grid_px grid' P r c = g r c.
Proof.
  intros Hl Hg. unfold gd_sweep. set (k_lo := gd_k_lo k_off np).
  set (turns := Z.to_nat (Z.of_nat P - gd_m_off k_off np - k_lo)).
  assert (Hlo : ∀ l, (l < np)%nat → k_lo <= - k l).
  { intros l Hl'. pose proof (k_max np (λ i, Z.of_nat (row_of i)) sp k rows_up sp_down k_rec l Hl').
    unfold k_lo, gd_k_lo. fold k. change (rd 0 k_off 0) with (k O). case_if; bool_prop; lia. }
  match goal with |- context [for_range 0 turns ?body grid] =>
    assert (H : sweep_inv (k_lo + Z.of_nat turns) 0 (for_range 0 turns body grid)) end.
  { apply (for0_ind (λ j grid, sweep_inv (k_lo + Z.of_nat j) 0 grid)).
    - split; [done|]. intros r c Hr Hc [Hk|(j & Hj & Hrow & Ht)]; [by apply Hg|].
      specialize (Hlo j Hj). lia.
    - intros j s Hj HI.
      match goal with |- context [for_range 0 np ?body s] =>
        assert (H : sweep_inv (k_lo + Z.of_nat j) np (for_range 0 np body s)) end.
      { apply (for0_ind (sweep_inv (k_lo + Z.of_nat j))); [done|].
        intros l s' Hl' HI'. by apply gd_step_inv. }
      destruct H as [Hl' Hg']. split; [done|]. intros r c Hr Hc Hs. apply Hg'; [done..|].
      destruct Hs as [|(i & Hi & Hrow & Ht)]; [by left|]. right. exists i.
      split; [done|]. split; [done|]. lia. }
  destruct H as [Hl' Hg']. split; [done|]. intros r c Hr Hc. apply Hg'; [done..|].
  destruct (rows_all r Hr) as [|(l & Hl2 & Hrow)]; [by left|]. right. exists l.
  split; [done|]. split; [done|]. left. pose proof (gd_m_off_le l Hl2). unfold turns. lia.
Qed.

End sweep.

(** ** Sorting the directions *)

#[export] Instance gd_le_total : Total gd_le.
Proof.
  intros a b. unfold gd_le, moj_gd_pair_cmp.
  destruct (Z.ltb_spec (gp_p b * gp_q a) (gp_p a * gp_q b)),
    (Z.ltb_spec (gp_p a * gp_q b) (gp_p b * gp_q a)); lia.
Qed.

Lemma Sorted_rd {A} (R : A → A → Prop) (d : A) l i :
  Sorted R l → (i + 1 < length l)%nat → R (rd d l i) (rd d l (i + 1)).
Proof.
  intros H. revert i. induction H as [|x l Hs IH Hd]; intros i Hi; [cbn in Hi; lia|].
  destruct i as [|i].
  - destruct Hd as [|y l HR]; [cbn in Hi; lia|exact HR].
  - apply (IH i). cbn in Hi. lia.
Qed.

(** Directions with [q = 1] and distinct slopes. *)
Definition unit_dirs (dirs : list moj_direction) (n : nat) : Prop :=
  (∀ i, (i < n)%nat → md_q (dir dirs i) = 1) ∧
  (∀ i j, (i < j < n)%nat → md_p (dir dirs i) ≠ md_p (dir dirs j)).

Lemma unit_dirs_ok dirs n : unit_dirs dirs n → dirs_ok dirs n.
Proof.
  intros [Hq Hp]. split.
  - intros i Hi. rewrite Hq by done. apply Z.gcd_1_r.
  - intros i j Hij. rewrite !Hq by lia. specialize (Hp i j Hij). lia.
Qed.

Section sorted.
Context (dirs : list moj_direction) (np : nat) (Hd : unit_dirs dirs np).

Let pairs := gd_sort dirs np.
Let unsorted := map (λ i, mk_pair (md_p (dir dirs i)) (md_q (dir dirs i)) i) (seq 0 np).

Lemma gd_sort_perm : pairs ≡ₚ unsorted.
Proof. apply merge_sort_Permutation. Qed.

Lemma gd_sort_length : length pairs = np.
Proof. rewrite gd_sort_perm. unfold unsorted. by rewrite length_map, length_seq. Qed.

Lemma gd_sort_elem l :
  (l < np)%nat → ∃ i, (i < np)%nat ∧
    rd no_pair pairs l = mk_pair (md_p (dir dirs i)) (md_q (dir dirs i)) i.
Proof.
  intros Hl. assert (Hin : rd no_pair pairs l ∈ unsorted).
  { rewrite <-gd_sort_perm. apply (list_elem_of_lookup_2 _ l). apply rd_lt.
    by rewrite gd_sort_length. }
  apply list_elem_of_fmap in Hin as (i & He & Hi%elem_of_seq). exists i. split; [lia|done].
Qed.

Lemma gd_sorted_dir l :
  (l < np)%nat → (gd_sorted_idx pairs l < np)%nat ∧
  dir dirs (gd_sorted_idx pairs l) = mk_dir (gd_sorted_p pairs l) 1.
Proof.
  intros Hl. destruct (gd_sort_elem l Hl) as (i & Hi & He).
  unfold gd_sorted_idx, gd_sorted_p. rewrite He. cbn [gp_idx gp_p]. split; [done|].
  destruct Hd as [Hq _]. specialize (Hq i Hi). destruct (dir dirs i) as [p q]. cbn in *.
  by rewrite Hq.
Qed.

Lemma gd_slopes_distinct i j :
  (i < np)%nat → (j < np)%nat → gd_sorted_p pairs i = gd_sorted_p pairs j → i = j.
Proof.
  intros Hi Hj He.
  assert (Hnd : NoDup (map gp_p pairs)).
  { assert (Hp : map gp_p pairs ≡ₚ map gp_p unsorted) by (apply fmap_Permutation, gd_sort_perm).
    rewrite Hp. unfold unsorted. rewrite map_map. cbn [gp_p].
    apply NoDup_fmap_2_strong; [|apply NoDup_seq]. intros a b Ha%elem_of_seq Hb%elem_of_seq Hab.
    destruct Hd as [_ Hdist]. destruct (Nat.lt_trichotomy a b) as [Hlt|[|Hlt]]; [|done|].
    - by specialize (Hdist a b ltac:(lia)).
    - by specialize (Hdist b a ltac:(lia)). }
  apply (NoDup_lookup _ i j (gd_sorted_p pairs i) Hnd).
  - rewrite list_lookup_fmap, (rd_lt no_pair) by (by rewrite gd_sort_length). done.
  - rewrite list_lookup_fmap, (rd_lt no_pair) by (by rewrite gd_sort_length).
    cbn. f_equal. exact (eq_sym He).
Qed.

Lemma gd_sorted_down i j :
  (i < j < np)%nat → gd_sorted_p pairs j < gd_sorted_p pairs i.
Proof.
  intros [Hij Hj]. induction j as [|j IH]; [lia|].
  assert (Hstep : gd_sorted_p pairs (S j) < gd_sorted_p pairs j).
  { pose proof (Sorted_rd gd_le no_pair pairs j (Sorted_merge_sort _ _)
      ltac:(rewrite gd_sort_length; lia)) as Hle.
    replace (j + 1)%nat with (S j) in Hle by lia.
    destruct (gd_sort_elem j ltac:(lia)) as (a & Ha & Ea).
    destruct (gd_sort_elem (S j) Hj) as (b & Hb & Eb).
    assert (Hne : gd_sorted_p pairs (S j) ≠ gd_sorted_p pairs j).
    { intros He. apply gd_slopes_distinct in He; lia. }
    unfold gd_sorted_p in *. rewrite Ea, Eb in *. cbn [gp_p] in *.
    unfold gd_le, moj_gd_pair_cmp in Hle. cbn [gp_p gp_q] in Hle.
    rewrite !(proj1 Hd) in Hle by done. rewrite !Z.mul_1_r in Hle.
    destruct (Z.ltb_spec (md_p (dir dirs b)) (md_p (dir dirs a))); [done|].
    destruct (Z.ltb_spec (md_p (dir dirs a)) (md_p (dir dirs b))); lia. }
  destruct (decide (i = j)) as [->|]; [done|]. specialize (IH ltac:(lia) ltac:(lia)). lia.
Qed.

End sorted.

(** ** The offsets satisfy the recurrence *)

Lemma gd_k_off_rec sp np i :
  (i + 1 < np)%nat →
  rd 0 (gd_k_off sp np) i = rd 0 (gd_k_off sp np) (i + 1) + sp (i + 1)%nat.
Proof.
  intros Hi. unfold gd_k_off. destruct (Nat.eqb_spec np 1); [lia|].
  set (k0 := wr _ _ _).
  match goal with |- context [for_range 0 (np - 1) ?body k0] =>
    assert (H : (λ j k, length k = np ∧ ∀ i, (np - 1 - j <= i)%nat → (i + 1 < np)%nat →
      rd 0 k i = rd 0 k (i + 1) + sp (i + 1)%nat) (np - 1)%nat (for_range 0 (np - 1) body k0)) end.
  { apply (for0_ind (λ j k, length k = np ∧ ∀ i, (np - 1 - j <= i)%nat → (i + 1 < np)%nat →
      rd 0 k i = rd 0 k (i + 1) + sp (i + 1)%nat)).
    - split; [unfold k0; by rewrite length_wr, length_replicate|]. lia.
    - intros j k Hj [Hl Hk]. split; [by rewrite length_wr|]. intros a Ha Ha'.
      rewrite !rd_wr by lia. repeat case_decide; try lia; [by subst|]. apply Hk; lia. }
  destruct H as [_ H]. apply H; lia.
Qed.

Lemma shift_loop lo n c (t : list Z) :
  (lo + n <= length t)%nat →
  length (for_range lo n (λ j k, wr k j (rd 0 k j - c)) t) = length t ∧
  ∀ j, rd 0 (for_range lo n (λ j k, wr k j (rd 0 k j - c)) t) j
       = if decide (lo <= j < lo + n)%nat then rd 0 t j - c else rd 0 t j.
Proof.
  intros Hn. induction n as [|n IH].
  { split; [done|]. intros j. case_decide; [lia|done]. }
  destruct IH as [IHl IHr]; [lia|]. rewrite for_range_S.
  split; [by rewrite length_wr|]. intros j. rewrite rd_wr, !IHr by lia.
  repeat case_decide; subst; (lia || done).
Qed.

Lemma gd_k_off_sparse_rec sp missing np i :
  (∀ i, (i + 1 < np)%nat → rd 0 missing i < rd 0 missing (i + 1)%nat) →
  (i + 1 < np)%nat →
  let k := gd_k_off_sparse sp missing np in
  rd 0 k i = rd 0 k (i + 1) + (rd 0 missing (i + 1)%nat - rd 0 missing i) * sp (i + 1)%nat.
Proof.
  intros Hm Hi. unfold gd_k_off_sparse. destruct (Nat.eqb_spec np 1); [lia|].
  set (k0 := wr _ _ _). cbn zeta.
  set (I := λ j k, length k = np ∧ ∀ i, (np - 1 - j <= i)%nat → (i + 1 < np)%nat →
    rd 0 k i = rd 0 k (i + 1) + (rd 0 missing (i + 1)%nat - rd 0 missing i) * sp (i + 1)%nat).
  match goal with |- context [for_range 0 (np - 1) ?body k0] =>
    assert (H : I (np - 1)%nat (for_range 0 (np - 1) body k0)) end.
  { apply (for0_ind I).
    - split; [unfold k0; by rewrite length_wr, length_replicate|]. lia.
    - intros j k Hj [Hl Hk]. set (a := (np - 2 - j)%nat).
      specialize (Hm a ltac:(lia)).
      assert (Hw : ∀ b, rd 0 (wr k a (rd 0 k (a + 1) + sp (a + 1)%nat)) b
        = if decide (b = a) then rd 0 k (a + 1) + sp (a + 1)%nat else rd 0 k b)
        by (intros b; apply rd_wr; lia).
      case_if; bool_prop.
      + destruct (shift_loop (a + 1) (np - (a + 1))
          ((rd 0 missing (a + 1)%nat - rd 0 missing a - 1) * sp (a + 1)%nat)
          (wr k a (rd 0 k (a + 1) + sp (a + 1)%nat))) as [Hsl Hs]; [rewrite length_wr; lia|].
        rewrite length_wr in Hsl. split; [lia|]. intros b Hb Hb'. rewrite !Hs, !Hw.
        destruct (decide (b = a)) as [->|Hba].
        * repeat case_decide; try lia.
        * specialize (Hk b ltac:(lia) Hb'). repeat case_decide; try lia.
      + split; [by rewrite length_wr|]. intros b Hb Hb'. rewrite !Hw.
        destruct (decide (b = a)) as [->|Hba].
        * rewrite decide_False by lia. assert (rd 0 missing (a + 1)%nat - rd 0 missing a = 1) by lia.
          nia.
        * rewrite decide_False by lia. apply Hk; lia. }
  destruct H as [_ H]. apply H; lia.
Qed.

(** ** The inverses *)

Lemma for_break_test n (test : nat → bool) :
  match for_break 0 n (λ i (_ : unit), if test i then inr tt else inl tt) tt with
  | inl _ => true
  | inr _ => false
  end = true ↔ ∀ i, (i < n)%nat → test i = false.
Proof.
  match goal with |- context [for_break 0 n ?body tt] =>
    assert (H : match for_break 0 n body tt with
      | inl _ => ∀ i, (i < 0 + n)%nat → test i = false
      | inr _ => ∃ i, (i < n)%nat ∧ test i = true end) end.
  { apply (for_break_ind (λ k _, ∀ i, (i < k)%nat → test i = false)
      (λ _, ∃ i, (i < n)%nat ∧ test i = true)); [lia|].
    intros i [] Hi Hb. destruct (test i) eqn:E.
    - exists i. split; [lia|done].
    - intros j Hj. destruct (decide (j = i)) as [->|]; [done|]. apply Hb. lia. }
  destruct (for_break 0 n _ tt) as [|].
  - split; [done|done].
  - split; [done|]. intros Hall. destruct H as (i & Hi & Ht). by rewrite Hall in Ht.
Qed.

Lemma q_all_one_spec dirs n :
  q_all_one dirs n = true ↔ ∀ i, (i < n)%nat → md_q (dir dirs i) = 1.
Proof.
  unfold q_all_one. rewrite (for_break_test n (λ i, negb (md_q (dir dirs i) =? 1))).
  split; intros H i Hi; specialize (H i Hi); [by bool_prop|].
  apply negb_false_iff. by apply Z.eqb_eq.
Qed.

Definition missing_up (Q : nat) (missing : list Z) (n_missing : nat) : Prop :=
  (∀ i, (i < n_missing)%nat → 0 <= rd 0 missing i < Z.of_nat Q) ∧
  (∀ i, (i + 1 < n_missing)%nat → rd 0 missing i < rd 0 missing (i + 1)%nat).

Lemma gd_missing_ok_spec missing n_missing Q :
  gd_missing_ok missing n_missing Q = true ↔ missing_up Q missing n_missing.
Proof.
  unfold gd_missing_ok.
  rewrite (for_break_ext 0 n_missing _ (λ i (_ : unit),
    if ((rd 0 missing i <? 0) || (Z.of_nat Q <=? rd 0 missing i))
       || ((0 <? i)%nat && (rd 0 missing i <=? rd 0 missing (i - 1)%nat)) then inr tt else inl tt)).
  2: { intros i []. by destruct ((rd 0 missing i <? 0) || _). }
  rewrite (for_break_test n_missing (λ i, _)). split.
  - intros H. split; intros i Hi.
    + specialize (H i Hi). bool_prop. lia.
    + specialize (H (i + 1)%nat Hi). apply orb_false_iff in H as [_ H].
      replace (i + 1 - 1)%nat with i in H by lia.
      destruct (Nat.ltb_spec 0 (i + 1)); [|lia]. cbn [andb] in H. by bool_prop.
  - intros [Hr Hu] i Hi. specialize (Hr i Hi). apply orb_false_iff. split.
    + apply orb_false_iff. split; [apply Z.ltb_ge|apply Z.leb_gt]; lia.
    + destruct (Nat.ltb_spec 0 i); [|done]. cbn [andb]. apply Z.leb_gt.
      specialize (Hu (i - 1)%nat ltac:(lia)). by replace (i - 1 + 1)%nat with i in Hu by lia.
Qed.

Lemma gd_lines g P Q dirs np projs l :
  unit_dirs dirs np → holds_all g P Q dirs np projs → (l < np)%nat →
  let pairs := gd_sort dirs np in
  gd_off dirs pairs P Q l = moj_bin_offset (gd_sorted_p pairs l) 1 P Q ∧
  holds_projection g P Q (mk_dir (gd_sorted_p pairs l) 1) (proj projs (gd_sorted_idx pairs l)).
Proof.
  intros Hd [_ Hh] Hl pairs. destruct (gd_sorted_dir dirs np Hd l Hl) as [Hi He].
  fold pairs in Hi, He. split.
  - unfold gd_off. by rewrite He.
  - rewrite <-He. by apply Hh.
Qed.

Lemma inverse_gd_spec g P Q dirs projs grid :
  (0 < P)%nat → (0 < Q)%nat → unit_dirs dirs Q → holds_all g P Q dirs Q projs →
  length grid = (P * Q)%nat →
  ∃ grid', moj_inverse_gd grid P Q dirs Q projs = (0, grid') ∧ length grid' = (P * Q)%nat ∧
    ∀ r c, (r < Q)%nat → (c < P)%nat → grid_px grid' P r c = g r c.
Proof.
  intros HP HQ Hd Hh Hl. unfold moj_inverse_gd. rewrite Nat.eqb_refl.
  destruct (Nat.ltb_spec P 1); [lia|]. destruct (Nat.ltb_spec Q 1); [lia|]. cbn [negb orb].
  rewrite (proj2 (q_all_one_spec dirs Q)) by apply Hd. cbn [negb].
  eexists. split; [done|]. apply (gd_sweep_spec g P Q Q) with (known := λ _, false); try done.
  - intros r Hr. right. by exists r.
  - intros i Hi. lia.
  - intros i j Hij. by apply gd_sorted_down.
  - intros i Hi. rewrite gd_k_off_rec by done. lia.
  - intros l Hl'. by apply gd_lines.
  - rewrite length_splice by (rewrite length_replicate; lia). done.
Qed.

Lemma inverse_gd_sparse_spec g P Q dirs n projs missing grid :
  (0 < P)%nat → (1 <= n <= Q)%nat → unit_dirs dirs n → holds_all g P Q dirs n projs →
  missing_up Q missing n → known_match g P Q missing n grid →
  ∃ grid', moj_inverse_gd_sparse grid P Q dirs n projs missing n = (0, grid') ∧
    length grid' = (P * Q)%nat ∧
    ∀ r c, (r < Q)%nat → (c < P)%nat → grid_px grid' P r c = g r c.
Proof.
  intros HP Hn Hd Hh Hm [Hl Hk]. unfold moj_inverse_gd_sparse. rewrite Nat.eqb_refl.
  destruct (Nat.ltb_spec P 1); [lia|]. destruct (Nat.ltb_spec Q 1); [lia|].
  destruct (Nat.ltb_spec n 1); [lia|]. destruct (Nat.ltb_spec Q n); [lia|]. cbn [negb orb].
  rewrite (proj2 (q_all_one_spec dirs n)) by apply Hd.
  rewrite (proj2 (gd_missing_ok_spec missing n Q)) by done. cbn [negb].
  destruct Hm as [Hmr Hmu].
  eexists. split; [done|].
  apply (gd_sweep_spec g P Q n) with (known := λ r, negb (is_missing missing n r)); try done.
  - intros l Hl'. specialize (Hmr l Hl'). lia.
  - intros r Hr. destruct (is_missing missing n r) eqn:E; [right|by left].
    apply is_missing_true in E as (i & Hi & He). exists i. split; [done|]. lia.
  - intros i Hi. specialize (Hmu i Hi). pose proof (Hmr i ltac:(lia)).
    pose proof (Hmr (i + 1)%nat Hi). lia.
  - intros i j Hij. by apply gd_sorted_down.
  - intros i Hi. rewrite gd_k_off_sparse_rec by done.
    pose proof (Hmr i ltac:(lia)). pose proof (Hmr (i + 1)%nat Hi).
    rewrite !Z2Nat.id by lia. done.
  - intros l Hl'. by apply gd_lines.
  - intros r c Hr Hc Hn'. apply Hk; [done..|]. by apply negb_true_iff.
Qed.

(** ** The dispatchers *)

Lemma missing_up_ok Q missing n :
  (1 <= n <= Q)%nat → missing_up Q missing n → missing_ok Q missing n.
Proof.
  intros Hn [Hr Hu]. split; [done|]. split; [done|]. intros i j [Hij Hj].
  assert (H : rd 0 missing i < rd 0 missing j); [|lia].
  induction j as [|j IH]; [lia|]. pose proof (Hu j ltac:(lia)) as Hs.
  replace (j + 1)%nat with (S j) in Hs by lia.
  destruct (decide (i = j)) as [->|]; [done|]. specialize (IH ltac:(lia) ltac:(lia)). lia.
Qed.

Lemma unit_dirs_katz dirs n P Q :
  unit_dirs dirs n → (Q <= n)%nat → moj_katz_check dirs n P Q = true.
Proof.
  intros [Hq _] Hn. apply katz_check_spec. right.
  rewrite (msum_ext _ _ _ _ (λ _, 1)), csum_const, length_seq; [lia|].
  intros i Hi%elem_of_seq. rewrite Hq by lia. done.
Qed.

(** A result that is the whole original grid. *)
Definition restored (g : nat → nat → Z) (P Q : nat)
    (res : option (Z * list Z * list moj_projection)) : Prop :=
  ∃ grid' projs', res = Some (0, grid', projs') ∧ length grid' = (P * Q)%nat ∧
    ∀ r c, (r < Q)%nat → (c < P)%nat → grid_px grid' P r c = g r c.

Lemma moj_inverse_restores gd g P Q dirs n projs grid :
  unit_dirs dirs n → (Q <= n)%nat → holds_all g P Q dirs n projs →
  length grid = (P * Q)%nat → restored g P Q (moj_inverse gd grid P Q dirs n projs).
Proof.
  intros Hd Hn Hh Hl.
  assert (Hpeel : restored g P Q (moj_inverse_peel grid P Q dirs n projs)).
  { apply inverse_peel_complete; [done..|]. apply katz_no_stall; [by apply unit_dirs_ok|].
    by apply unit_dirs_katz. }
  unfold moj_inverse. destruct (gd && (n =? Q)%nat) eqn:Eg; [|done]. bool_prop. subst n.
  destruct (q_all_one dirs Q); [|done].
  destruct (decide (0 < P ∧ 0 < Q)%nat) as [[HP HQ]|Hno].
  - destruct (inverse_gd_spec g P Q dirs projs grid) as (grid' & -> & Hgl & Hg); [done..|].
    exists grid', projs. done.
  - assert (E : moj_inverse_gd grid P Q dirs Q projs = (- EINVAL, grid)).
    { unfold moj_inverse_gd. rewrite Nat.eqb_refl.
      destruct (Nat.ltb_spec P 1), (Nat.ltb_spec Q 1); cbn [negb orb]; (done || lia). }
    by rewrite E.
Qed.

Lemma moj_inverse_sparse_restores gd g P Q dirs n projs missing n_missing grid :
  unit_dirs dirs n → (n_missing <= n)%nat → holds_all g P Q dirs n projs →
  missing_ok Q missing n_missing → known_match g P Q missing n_missing grid →
  restored g P Q (moj_inverse_sparse gd grid P Q dirs n projs missing n_missing).
Proof.
  intros Hd Hn Hh Hm Hk.
  assert (Hpeel : restored g P Q
    (moj_inverse_peel_sparse grid P Q dirs n projs (Some missing) n_missing)).
  { apply inverse_peel_sparse_complete; [done..|].
    apply missing_no_stall; [by apply unit_dirs_ok|apply Hd|done]. }
  unfold moj_inverse_sparse. destruct (gd && (n =? n_missing)%nat) eqn:Eg; [|done].
  bool_prop. subst n. destruct (q_all_one dirs n_missing) eqn:Eq; [|done].
  destruct (decide (0 < P)%nat) as [HP|HP].
  - destruct (gd_missing_ok missing n_missing Q) eqn:Em.
    + apply gd_missing_ok_spec in Em.
      destruct (inverse_gd_sparse_spec g P Q dirs n_missing projs missing grid)
        as (grid' & -> & Hgl & Hg); [done|apply Hm|done..|]. by exists grid', projs.
    + unfold moj_inverse_gd_sparse. rewrite Em, Eq. by case_if.
  - unfold moj_inverse_gd_sparse. destruct (Nat.ltb_spec P 1); [|lia].
    by rewrite orb_true_r.
Qed.

(** ** The generated directions *)

Lemma directions_spec n :
  length (moj_directions_generate n) = n ∧
  ∀ i, (i < n)%nat → dir (moj_directions_generate n) i
    = mk_dir (if (i <? n / 2)%nat then Z.of_nat i - Z.of_nat (n / 2)
              else Z.of_nat i - Z.of_nat (n / 2) + 1) 1.
Proof.
  unfold moj_directions_generate. set (half := (n / 2)%nat).
  assert (Hh : (half <= n)%nat) by (unfold half; apply Nat.Div0.div_le_upper_bound; lia).
  set (I := λ j (s : list moj_direction * nat), snd s = j ∧ length (fst s) = n ∧
    ∀ i, (i < j)%nat → dir (fst s) i
      = mk_dir (if (i <? half)%nat then Z.of_nat i - Z.of_nat half
                else Z.of_nat i - Z.of_nat half + 1) 1).
  match goal with |- context [for_range 0 half ?body ?s0] =>
    assert (H1 : I half (for_range 0 half body s0));
    [|destruct (for_range 0 half body s0) as [d idx]; destruct H1 as (E & Hl & Hd)] end.
  { apply (for0_ind I); [split; [done|]; split; [apply length_replicate|lia]|].
    intros j [d idx] Hj (E & Hl & Hd). cbn [fst snd] in *. subst idx.
    split; [done|]. cbn [fst]. split; [by rewrite length_wr|]. intros i Hi. unfold dir.
    rewrite rd_wr by lia. case_decide as E; [|apply Hd; lia]. subst i.
    destruct (Nat.ltb_spec j half); [|lia]. f_equal. lia. }
  cbn [fst snd] in *. subst idx.
  match goal with |- context [for_range 1 (n - half) ?body ?s0] =>
    assert (H2 : (λ k s, I (half + (k - 1))%nat s) (1 + (n - half))%nat
      (for_range 1 (n - half) body s0));
    [|destruct (for_range 1 (n - half) body s0) as [d' idx]] end.
  { apply (for_range_ind (λ k s, I (half + (k - 1))%nat s)).
    - rewrite Nat.sub_diag, Nat.add_0_r. by split.
    - intros k [d' idx] Hk (E & Hl' & Hd'). cbn [fst snd] in *. subst idx.
      split; [cbn; lia|]. cbn [fst]. split; [by rewrite length_wr|]. intros i Hi. unfold dir.
      rewrite rd_wr by lia. case_decide as E; [|apply Hd'; lia]. subst i.
      destruct (Nat.ltb_spec (half + (k - 1)) half); [lia|]. f_equal. lia. }
  destruct H2 as (_ & Hl' & Hd'). cbn [fst] in *. split; [done|]. intros i Hi. apply Hd'. lia.
Qed.

(** They all have [q = 1] and distinct slopes, none of them zero. *)
Lemma directions_unit n : unit_dirs (moj_directions_generate n) n.
Proof.
  destruct (directions_spec n) as [_ Hd]. split.
  - intros i Hi. by rewrite Hd.
  - intros i j Hij. rewrite !Hd by lia. cbn [md_p].
    destruct (Nat.ltb_spec i (n / 2)), (Nat.ltb_spec j (n / 2)); lia.
Qed.

End MojetteGd.
