(* ===== verification/MojetteCode.v ===== *)
(** * The Mojette encodings ([src/lib/ec/mojette_encoding.c])

    The systematic and the non-systematic wrapper of the transform.  A shard is
    a list of bytes and a [uint64_t] buffer is its bytes in little-endian
    order.  Shard lengths are multiples of 8, which the callers check, so that
    [shard_len] bytes are exactly a row of [P] words. *)

From S2P Require Import Prelude.
From S2P Require Import Words.
From S2P Require Import Mojette.
Import Words Mojette.

Module MojetteCode.

(** The build and the process-wide toggles of [mojette.c]. *)
Record moj_config := mk_config {
  cfg_arch : isa;
  moj_scalar_only : bool;
  moj_gd_enabled : bool
}.

(** The parts of [struct ec_encoding] and of its private state. *)
Record moj_encoding := mk_encoding {
  ec_k : nat;
  ec_m : nat;
  mcp_dirs : list moj_direction;
  mcp_systematic : bool
}.

Definition mojette_create (k m : Z) (systematic : bool) : option moj_encoding :=
  let n := (k + m)%Z in
  if ((k <? 1) || (m <? 1))%Z then None
  else if (MOJ_MAX_STRIPE_WIDTH <? n)%Z then None
  else Some (mk_encoding (Z.to_nat k) (Z.to_nat m) (moj_directions_generate (Z.to_nat n))
               systematic).

Definition ec_mojette_sys_create (k m : Z) : option moj_encoding := mojette_create k m true.
Definition ec_mojette_nonsys_create (k m : Z) : option moj_encoding := mojette_create k m false.

(** The columns of a shard, which the source casts to [int]: as a natural number it is
    the value of the cast for shards below 16 GiB; the pipeline takes at most
    [EC_SHARD_SIZE_MAX], which is 1 MiB. *)
Definition grid_P (shard_len : nat) : nat := (shard_len / 8)%nat.

(** A byte buffer read, and written, as [n] 64-bit words. *)
Definition u64s (n : nat) (buf : list byte) : list Z :=
  map (λ j, le_combine (take 8 (drop (8 * j) buf))) (seq 0 n).
Definition u64_bytes (ws : list Z) : list byte := flat_map (le_split 8) ws.

(** The number of bins of direction [i] of the encoding. *)
Definition dir_nbins (enc : moj_encoding) (P i : nat) : Z :=
  moj_projection_size (md_p (dir (mcp_dirs enc) i)) (md_q (dir (mcp_dirs enc) i)) P (ec_k enc).

Definition mojette_shard_size (enc : moj_encoding) (shard_idx data_shard_len : nat) : Z :=
  let P := grid_P data_shard_len in
  if mcp_systematic enc && (shard_idx <? ec_k enc)%nat then Z.of_nat data_shard_len
  else (dir_nbins enc P shard_idx * 8)%Z.

Definition data_rows (enc : moj_encoding) (P : nat) (data : list (list byte)) : list (list Z) :=
  map (λ i, u64s P (rd [] data i)) (seq 0 (ec_k enc)).

(** Projections whose bins are the buffers [bufs], for the directions from [first] on. *)
Definition wrap_projs (enc : moj_encoding) (P first n : nat) (bufs : list (list byte))
    : list moj_projection :=
  map (λ i, let nbins := Z.to_nat (dir_nbins enc P (first + i)) in
            mk_proj (u64s nbins (rd [] bufs i)) nbins) (seq 0 n).

(** The bins as they stand in the buffers afterwards. *)
Definition unwrap_projs (n : nat) (projs : list moj_projection) (bufs : list (list byte))
    : list (list byte) :=
  for_range 0 n (λ i bufs,
    wr bufs i (splice 0 (u64_bytes (mp_bins (proj projs i))) (rd [] bufs i))) bufs.

(** ** Systematic *)

Definition mojette_sys_encode (cfg : moj_config) (enc : moj_encoding)
    (data parity : list (list byte)) (shard_len : nat) : Z * list (list byte) :=
  let k := ec_k enc in
  let m := ec_m enc in
  let P := grid_P shard_len in
  let rows := data_rows enc P data in
  let projs := wrap_projs enc P k m parity in
  let projs := moj_forward_rows (cfg_arch cfg) (moj_scalar_only cfg) rows P k
                 (drop k (mcp_dirs enc)) m projs in
  (0%Z, unwrap_projs m projs parity).

(** The loop that picks the first [lim] present projections among the shards
    [first], [first + 1], ... with their directions. *)
Definition pick_projs (enc : moj_encoding) (P first n lim : nat) (shards : list (list byte))
    (present : list bool) : list moj_direction * list moj_projection * nat :=
  for_range 0 n (λ i s,
    let '(sub_dirs, sub_projs, idx) := s in
    if (idx <? lim)%nat then
      if negb (rd false present (first + i)) then s
      else
        let d := dir (mcp_dirs enc) (first + i) in
        let nbins := moj_projection_size (md_p d) (md_q d) P (ec_k enc) in
        let prj := moj_projection_create nbins in
        let prj := mk_proj (splice 0 (u64s (Z.to_nat nbins) (rd [] shards (first + i)))
                              (mp_bins prj)) (mp_nbins prj) in
        (sub_dirs ++ [d], sub_projs ++ [prj], S idx)
    else s) ([], [], O).

(** Known rows into the grid, the others into [missing_rows]. *)
Definition fill_known (k P : nat) (shards : list (list byte)) (present : list bool)
    : list Z * list Z :=
  for_range 0 k (λ i '(full_grid, missing_rows),
    if rd false present i then (splice (i * P) (u64s P (rd [] shards i)) full_grid, missing_rows)
    else (full_grid, missing_rows ++ [Z.of_nat i])) (replicate (P * k) 0%Z, []).

(** [memcpy(shards[row], grid + row * P, shard_len)]. *)
Definition copy_row (P shard_len : nat) (grid : list Z) (shards : list (list byte)) (row : nat)
    : list (list byte) :=
  wr shards row (splice 0 (take shard_len (u64_bytes (take P (drop (row * P) grid))))
                   (rd [] shards row)).

(** [None] when the fuel of the peeling loop runs out. *)
Definition mojette_sys_decode (cfg : moj_config) (enc : moj_encoding)
    (shards : list (list byte)) (present : list bool) (shard_len : nat)
    : option (Z * list (list byte)) :=
  let k := ec_k enc in
  let m := ec_m enc in
  let n := (k + m)%nat in
  let P := grid_P shard_len in
  let '(missing_data, total_missing) := for_range 0 n (λ i '(md, tm),
    let tm := if negb (rd false present i) then S tm else tm in
    let md := if (i <? k)%nat && negb (rd false present i) then S md else md in
    (md, tm)) (O, O) in
  if (m <? total_missing)%nat then Some ((- EIO)%Z, shards)
  else if (total_missing =? 0)%nat then Some (0%Z, shards)
  else if (missing_data =? 0)%nat then
    let '(ret, parity) := mojette_sys_encode cfg enc shards (drop k shards) shard_len in
    Some (ret, take k shards ++ parity)
  else
    let n_avail_proj := for_range k m (λ i c, if rd false present i then S c else c) O in
    if (n_avail_proj <? missing_data)%nat then Some ((- EIO)%Z, shards)
    else
      let n_inv := missing_data in
      let '(sub_dirs, sub_projs, _) := pick_projs enc P k m n_inv shards present in
      let '(full_grid, missing_rows) := fill_known k P shards present in
      match moj_inverse_sparse (moj_gd_enabled cfg) full_grid P k sub_dirs n_inv sub_projs
              missing_rows missing_data with
      | None => None
      | Some (ret, full_grid, _) =>
          if (ret =? 0)%Z then
            Some (ret, for_range 0 missing_data (λ i shards,
              copy_row P shard_len full_grid shards (Z.to_nat (rd 0%Z missing_rows i))) shards)
          else Some (ret, shards)
      end.

(** ** Non-systematic *)

(** [malloc] leaves the temporaries undefined: [junk] is what they hold. *)
Definition mojette_nonsys_encode (cfg : moj_config) (enc : moj_encoding) (junk : list (list byte))
    (data parity : list (list byte)) (shard_len : nat)
    : Z * list (list byte) * list (list byte) :=
  let k := ec_k enc in
  let m := ec_m enc in
  let P := grid_P shard_len in
  let rows := data_rows enc P data in
  let parity_projs := wrap_projs enc P k m parity in
  let parity_projs := moj_forward_rows (cfg_arch cfg) (moj_scalar_only cfg) rows P k
                        (drop k (mcp_dirs enc)) m parity_projs in
  let parity := unwrap_projs m parity_projs parity in
  let data_projs := wrap_projs enc P 0 k junk in
  let data_projs := moj_forward_rows (cfg_arch cfg) (moj_scalar_only cfg) rows P k
                      (mcp_dirs enc) k data_projs in
  (0%Z, unwrap_projs k data_projs data, parity).

Definition mojette_nonsys_decode (cfg : moj_config) (enc : moj_encoding)
    (shards : list (list byte)) (present : list bool) (shard_len : nat)
    : option (Z * list (list byte)) :=
  let k := ec_k enc in
  let m := ec_m enc in
  let n := (k + m)%nat in
  let P := grid_P shard_len in
  let avail := for_range 0 n (λ i c, if rd false present i then S c else c) O in
  if (avail <? k)%nat then Some ((- EIO)%Z, shards)
  else
    let '(sub_dirs, sub_projs, _) := pick_projs enc P 0 n k shards present in
    let grid := replicate (P * k) 0%Z in
    match moj_inverse (moj_gd_enabled cfg) grid P k sub_dirs k sub_projs with
    | None => None
    | Some (ret, grid, _) =>
        if (ret =? 0)%Z then
          Some (ret, for_range 0 k (λ i shards, copy_row P shard_len grid shards i) shards)
        else Some (ret, shards)
    end.

End MojetteCode.
