(* ===== verification/MojetteCodeCorrect.v ===== *)
(** * The Mojette encodings recover the data

    The bytes each shard of a stripe holds, and the proofs that encoding writes
    them and that decoding gets the data rows back from enough of them. *)

From S2P Require Import Prelude.
From S2P Require Import Words.
From S2P Require Import Mojette.
From S2P Require Import MojetteForward.
From S2P Require Import MojettePeel.
From S2P Require Import MojetteSparse.
From S2P Require Import MojetteGd.
From S2P Require Import MojetteCode.
Import Words Mojette MojetteForward MojettePeel MojetteSparse MojetteGd MojetteCode.

Module MojetteCodeCorrect.

#[local] Arguments le_split : simpl never.
#[local] Arguments le_combine : simpl never.

(** ** Words and bytes *)

Lemma length_u64s n buf : length (u64s n buf) = n.
Proof. unfold u64s. by rewrite length_map, length_seq. Qed.

Lemma length_u64_bytes ws : length (u64_bytes ws) = (8 * length ws)%nat.
Proof.
  unfold u64_bytes. induction ws as [|w ws IH]; [done|].
  cbn [flat_map length]. rewrite length_app, length_le_split, IH. lia.
Qed.

Lemma u64s_S n buf : u64s (S n) buf = le_combine (take 8 buf) :: u64s n (drop 8 buf).
Proof.
  unfold u64s. cbn [seq map]. rewrite Nat.mul_0_r, drop_0. f_equal.
  rewrite <-seq_shift, map_map. apply map_ext. intros j. rewrite drop_drop.
  by replace (8 * S j)%nat with (8 + 8 * j)%nat by lia.
Qed.

Lemma u64s_width n buf : Forall (in_width 64) (u64s n buf).
Proof.
  apply list.Forall_forall. intros w (j & -> & _)%list_elem_of_fmap.
  pose proof (le_combine_range (take 8 (drop (8 * j) buf))) as H. unfold in_width.
  assert (Hl : (length (take 8 (drop (8 * j) buf)) <= 8)%nat) by (rewrite length_take; lia).
  assert (Hp : (256 ^ Z.of_nat (length (take 8 (drop (8 * j) buf))) <= 256 ^ 8)%Z)
    by (apply Z.pow_le_mono_r; lia).
  change (256 ^ 8)%Z with (2 ^ 64)%Z in Hp. lia.
Qed.

Lemma u64s_bytes ws rest :
  Forall (in_width 64) ws → u64s (length ws) (u64_bytes ws ++ rest) = ws.
Proof.
  induction ws as [|w ws IH]; intros Hw; [done|].
  apply list.Forall_cons in Hw as [Hw Hws]. cbn [length]. rewrite u64s_S.
  change (u64_bytes (w :: ws)) with (le_split 8 w ++ u64_bytes ws). rewrite <-app_assoc.
  pose proof (length_le_split 8 w) as Hl.
  rewrite take_app_length' by done. rewrite drop_app_length' by done.
  rewrite IH by done. f_equal. rewrite le_combine_split. apply Z.mod_small. exact Hw.
Qed.

Lemma bytes_u64s n buf :
  (8 * n <= length buf)%nat → u64_bytes (u64s n buf) = take (8 * n) buf.
Proof.
  revert buf. induction n as [|n IH]; intros buf Hl; [done|].
  rewrite u64s_S. change (u64_bytes (?w :: ?ws)) with (le_split 8 w ++ u64_bytes ws).
  rewrite IH by (rewrite length_drop; lia).
  replace (8 * S n)%nat with (8 + 8 * n)%nat by lia.
  rewrite <-take_take_drop. f_equal.
  rewrite <-(le_split_combine (take 8 buf)) at 2. rewrite length_take.
  by replace (8 `min` length buf)%nat with 8%nat by lia.
Qed.

(** Only the first [8 n] bytes are read. *)
Lemma u64s_prefix n a b :
  a `prefix_of` b → (8 * n <= length a)%nat → u64s n b = u64s n a.
Proof.
  intros [rest ->]. revert a. induction n as [|n IH]; intros a Hl; [done|].
  rewrite !u64s_S. rewrite take_app_le, drop_app_le by lia. f_equal. apply IH.
  rewrite length_drop. lia.
Qed.

Lemma splice_prefix {A} (src dst : list A) : src `prefix_of` splice 0 src dst.
Proof. exists (drop (length src) dst). done. Qed.

(** XOR stays in 64 bits. *)
Lemma lxor_width a b : in_width 64 a → in_width 64 b → in_width 64 (Z.lxor a b).
Proof.
  unfold in_width. intros Ha Hb.
  assert (H0 : (0 <= Z.lxor a b)%Z) by (apply Z.lxor_nonneg; lia). split; [done|].
  assert (Hs : Z.shiftr (Z.lxor a b) 64 = 0%Z).
  { rewrite Z.shiftr_lxor, !Z.shiftr_div_pow2 by lia. by rewrite !Z.div_small by lia. }
  rewrite Z.shiftr_div_pow2 in Hs by lia. apply Z.div_small_iff in Hs; lia.
Qed.

Lemma projection_width g P Q p q b :
  (∀ r c, in_width 64 (g r c)) → in_width 64 (projection g P Q p q b).
Proof.
  intros Hg. unfold projection. induction (pixels P Q) as [|px l IH]; [done|].
  rewrite msum_cons. apply lxor_width; [|done]. case_if; [apply Hg|done].
Qed.

(** ** The stripe *)

(** The picture of the data shards. *)
Definition data_px (data : list (list byte)) (P r c : nat) : Z :=
  rd 0%Z (u64s P (rd [] data r)) c.

Lemma data_px_width data P r c : in_width 64 (data_px data P r c).
Proof.
  unfold data_px. destruct (decide (c < P)%nat).
  - pose proof (u64s_width P (rd [] data r)) as H.
    eapply Forall_lookup_1; [exact H|]. apply rd_lt. by rewrite length_u64s.
  - rewrite rd_ge by (rewrite length_u64s; lia). done.
Qed.

(** The bytes of the projection of direction [i]. *)
Definition proj_shard (enc : moj_encoding) (P : nat) (g : nat → nat → Z) (i : nat) : list byte :=
  let d := dir (mcp_dirs enc) i in
  u64_bytes (map (projection g P (ec_k enc) (md_p d) (md_q d))
               (seq 0 (psize (md_p d) (md_q d) P (ec_k enc)))).

Lemma dir_nbins_psize enc P i :
  Z.to_nat (dir_nbins enc P i)
  = psize (md_p (dir (mcp_dirs enc) i)) (md_q (dir (mcp_dirs enc) i)) P (ec_k enc).
Proof. done. Qed.

Lemma length_proj_shard enc P g i :
  length (proj_shard enc P g i) = (8 * Z.to_nat (dir_nbins enc P i))%nat.
Proof. unfold proj_shard. by rewrite length_u64_bytes, length_map, length_seq. Qed.

Lemma holds_projection_bytes enc P g i prj :
  holds_projection g P (ec_k enc) (dir (mcp_dirs enc) i) prj →
  u64_bytes (mp_bins prj) = proj_shard enc P g i.
Proof.
  intros (Hn & Hl & Hb). unfold proj_shard. f_equal. apply (rd_ext 0%Z).
  - by rewrite length_map, length_seq, Hl, Hn.
  - intros b Hb'. rewrite Hl in Hb'. rewrite Hb by done. rewrite rd_map_seq by lia. done.
Qed.

(** Bins read back from a shard hold the projection. *)
Lemma shard_holds enc P g i buf :
  (∀ r c, in_width 64 (g r c)) → proj_shard enc P g i `prefix_of` buf →
  let nb := Z.to_nat (dir_nbins enc P i) in
  holds_projection g P (ec_k enc) (dir (mcp_dirs enc) i) (mk_proj (u64s nb buf) nb).
Proof.
  intros Hg Hp nb. split; [done|]. split; [apply length_u64s|]. cbn [mp_nbins mp_bins].
  intros b Hb. rewrite (u64s_prefix _ (proj_shard enc P g i)) by (done || rewrite length_proj_shard; done).
  unfold proj_shard. set (d := dir (mcp_dirs enc) i). set (ws := map _ _).
  assert (Hlen : nb = length ws) by (unfold ws; by rewrite length_map, length_seq).
  rewrite <-(app_nil_r (u64_bytes ws)), Hlen, u64s_bytes.
  - unfold ws. by rewrite rd_map_seq.
  - apply list.Forall_forall. intros w (j & -> & _)%list_elem_of_fmap. by apply projection_width.
Qed.

(** ** Encoding *)

(** Buffers [0 .. n-1] can hold the projections of the directions from [first] on. *)
Definition bufs_fit (enc : moj_encoding) (P first n : nat) (bufs : list (list byte)) : Prop :=
  length bufs = n ∧
  ∀ i, (i < n)%nat → (8 * Z.to_nat (dir_nbins enc P (first + i)) <= length (rd [] bufs i))%nat.

Lemma data_rows_wf enc P data : rows_wf (data_rows enc P data) P (ec_k enc).
Proof. intros r Hr. unfold data_rows. rewrite rd_map_seq, length_u64s by done. lia. Qed.

Lemma data_rows_px enc P data r c :
  (r < ec_k enc)%nat → row_px (data_rows enc P data) r c = data_px data P r c.
Proof. intros Hr. unfold row_px, data_rows. by rewrite rd_map_seq. Qed.

Lemma wrap_projs_sized enc P first n bufs i :
  (i < n)%nat →
  proj_sized P (ec_k enc) (dir (drop first (mcp_dirs enc)) i) (proj (wrap_projs enc P first n bufs) i).
Proof.
  intros Hi. unfold proj, wrap_projs, dir. rewrite rd_map_seq by done.
  rewrite rd_drop. split; [done|apply length_u64s].
Qed.

Lemma unwrap_projs_spec n projs bufs :
  (n <= length bufs)%nat →
  length (unwrap_projs n projs bufs) = length bufs ∧
  ∀ i, rd [] (unwrap_projs n projs bufs) i
       = if decide (i < n)%nat then splice 0 (u64_bytes (mp_bins (proj projs i))) (rd [] bufs i)
         else rd [] bufs i.
Proof.
  intros Hn.
  exact (update_loop [] (λ i b, splice 0 (u64_bytes (mp_bins (proj projs i))) b) n bufs Hn).
Qed.

(** The transform writes the projections of the data into the buffers. *)
Lemma forward_buffers cfg enc P first n data junk bufs :
  (0 < ec_k enc)%nat → bufs_fit enc P first n bufs →
  let projs := moj_forward_rows (cfg_arch cfg) (moj_scalar_only cfg) (data_rows enc P data) P
                 (ec_k enc) (drop first (mcp_dirs enc)) n (wrap_projs enc P first n junk) in
  let out := unwrap_projs n projs bufs in
  length out = n ∧
  ∀ i, (i < n)%nat →
    rd [] out i = splice 0 (proj_shard enc P (data_px data P) (first + i)) (rd [] bufs i) ∧
    length (rd [] out i) = length (rd [] bufs i).
Proof.
  intros Hk [Hbl Hfit]. cbn zeta. set (projs := moj_forward_rows _ _ _ _ _ _ _ _).
  destruct (forward_impl_spec (cfg_arch cfg) (moj_scalar_only cfg) (data_rows enc P data) P
    (ec_k enc) (drop first (mcp_dirs enc)) n (wrap_projs enc P first n junk))
    as (_ & Hh & _); [done|apply data_rows_wf| |apply wrap_projs_sized|].
  { unfold wrap_projs. rewrite length_map, length_seq. lia. }
  fold (moj_forward_rows (cfg_arch cfg) (moj_scalar_only cfg) (data_rows enc P data) P
    (ec_k enc) (drop first (mcp_dirs enc)) n (wrap_projs enc P first n junk)) in Hh.
  fold projs in Hh. destruct (unwrap_projs_spec n projs bufs) as [Hul Hu]; [lia|].
  split; [lia|]. intros i Hi. rewrite Hu, decide_True by done. specialize (Hh i Hi).
  rewrite (holds_projection_bytes enc P (data_px data P) (first + i)).
  - split; [done|]. apply length_splice. rewrite length_proj_shard. by apply Hfit.
  - replace (dir (drop first (mcp_dirs enc)) i) with (dir (mcp_dirs enc) (first + i)) in Hh
      by (unfold dir; by rewrite rd_drop).
    eapply holds_projection_ext; [|exact Hh]. intros r c Hr _. by apply data_rows_px.
Qed.

(** An encoding as [mojette_create] builds it. *)
Definition enc_ok (enc : moj_encoding) : Prop :=
  (0 < ec_k enc)%nat ∧ (0 < ec_m enc)%nat ∧
  mcp_dirs enc = moj_directions_generate (ec_k enc + ec_m enc).

Lemma mojette_create_ok k m sys enc :
  mojette_create k m sys = Some enc →
  enc_ok enc ∧ Z.of_nat (ec_k enc) = k ∧ Z.of_nat (ec_m enc) = m ∧ mcp_systematic enc = sys.
Proof.
  unfold mojette_create. do 2 (case_if; [done|]). intros [= <-]. bool_prop.
  unfold enc_ok. cbn. replace (Z.to_nat (k + m)) with (Z.to_nat k + Z.to_nat m)%nat by lia.
  repeat split; (lia || done).
Qed.

(** ** Loops of the decoders *)

Lemma count_loop lo n (test : nat → bool) :
  for_range lo n (λ i c, if test i then S c else c) O = length (List.filter test (seq lo n)).
Proof.
  induction n as [|n IH]; [done|]. rewrite for_range_S, IH, seq_S, List.filter_app, length_app.
  cbn [List.filter]. destruct (test (lo + n)%nat); cbn [length]; lia.
Qed.

(** The present projections the decoders use, by position. *)
Definition picked (present : list bool) (first n lim : nat) : list nat :=
  take lim (List.filter (λ i, rd false present (first + i)) (seq 0 n)).

Lemma pick_projs_spec enc P first n lim shards present :
  let idxs := picked present first n lim in
  pick_projs enc P first n lim shards present
  = (map (λ i, dir (mcp_dirs enc) (first + i)) idxs,
     map (λ i, let nb := Z.to_nat (dir_nbins enc P (first + i)) in
               mk_proj (u64s nb (rd [] shards (first + i))) nb) idxs, length idxs).
Proof.
  unfold pick_projs, picked. induction n as [|n IH]; [by destruct lim|].
  rewrite for_range_S, IH, seq_S, List.filter_app. cbn [Nat.add List.filter].
  set (l := List.filter _ _). pose proof (length_take l lim) as Hlt. cbn zeta.
  destruct (Nat.ltb_spec (length (take lim l)) lim).
  - rewrite (take_ge l) by lia. destruct (rd false present (first + n)); cbn [negb].
    + rewrite (take_ge (l ++ [n])) by (rewrite length_app; cbn; lia).
      rewrite !map_app, length_app. cbn [map length]. f_equal; [f_equal; f_equal|].
      * f_equal. unfold moj_projection_create. cbn [mp_bins mp_nbins].
        rewrite splice_all by (by rewrite length_u64s, length_replicate). done.
      * lia.
    + rewrite app_nil_r. by rewrite (take_ge l) by lia.
  - rewrite take_app_le by lia. done.
Qed.

Lemma picked_lookup present first n lim j :
  (j < length (picked present first n lim))%nat →
  let i := rd O (picked present first n lim) j in
  (i < n)%nat ∧ rd false present (first + i) = true.
Proof.
  intros Hj. assert (Hin : picked present first n lim !! j
    = Some (rd O (picked present first n lim) j)) by (by apply rd_lt).
  unfold picked in Hin at 1. apply list_elem_of_lookup_2, elem_of_take in Hin as (i' & Hin & _).
  apply list_elem_of_lookup_2, list_elem_of_In, filter_In in Hin as [Hin Ht].
  apply in_seq in Hin. cbn zeta. split; [lia|done].
Qed.

Lemma picked_NoDup present first n lim : NoDup (picked present first n lim).
Proof.
  unfold picked. eapply sublist_NoDup; [|apply sublist_take].
  apply NoDup_ListNoDup, List.NoDup_filter, seq_NoDup.
Qed.

Lemma picked_length present first n lim :
  (lim <= length (List.filter (λ i, rd false present (first + i)) (seq 0 n)))%nat →
  length (picked present first n lim) = lim.
Proof. intros H. unfold picked. rewrite length_take. lia. Qed.

(** What is picked satisfies the hypotheses of the inverse. *)
Lemma picked_inverse enc P g first n lim shards present :
  enc_ok enc → (∀ r c, in_width 64 (g r c)) → (first + n <= ec_k enc + ec_m enc)%nat →
  (∀ i, (i < n)%nat → rd false present (first + i) = true →
     proj_shard enc P g (first + i) `prefix_of` rd [] shards (first + i)) →
  length (picked present first n lim) = lim →
  let s := pick_projs enc P first n lim shards present in
  unit_dirs s.1.1 lim ∧ holds_all g P (ec_k enc) s.1.1 lim s.1.2.
Proof.
  intros (_ & _ & Hdirs) Hg Hn Hp Hlen. rewrite pick_projs_spec. cbn zeta. cbn [fst snd].
  set (idxs := picked present first n lim) in *.
  assert (Hdir : ∀ j, (j < lim)%nat → dir (map (λ i, dir (mcp_dirs enc) (first + i)) idxs) j
    = dir (mcp_dirs enc) (first + rd O idxs j)).
  { intros j Hj. unfold dir at 1. by rewrite (rd_map O) by lia. }
  assert (Hin : ∀ j, (j < lim)%nat → (rd O idxs j < n)%nat ∧
    rd false present (first + rd O idxs j) = true).
  { intros j Hj. apply picked_lookup. fold idxs. lia. }
  pose proof (directions_unit (ec_k enc + ec_m enc)) as [Hq Hpd]. rewrite <-Hdirs in Hq, Hpd.
  split; [split|split].
  - intros j Hj. rewrite Hdir by done. apply Hq. destruct (Hin j Hj). lia.
  - intros i j Hij. rewrite !Hdir by lia.
    destruct (Hin i ltac:(lia)) as [Hi _], (Hin j ltac:(lia)) as [Hj _].
    assert (Hne : rd O idxs i ≠ rd O idxs j).
    { intros He. assert (i = j); [|lia].
      apply (NoDup_lookup idxs i j (rd O idxs i) (picked_NoDup _ _ _ _)).
      - apply rd_lt. lia.
      - rewrite He. apply rd_lt. lia. }
    destruct (Nat.lt_ge_cases (rd O idxs i) (rd O idxs j)).
    + apply Hpd. lia.
    + apply not_eq_sym, Hpd. lia.
  - rewrite length_map. lia.
  - intros j Hj. rewrite Hdir by done. unfold proj. rewrite (rd_map O) by lia.
    destruct (Hin j Hj) as [Hi Hpr]. apply shard_holds; [done|]. by apply Hp.
Qed.

(** The rows that are not there. *)
Definition absent_rows (present : list bool) (k : nat) : list nat :=
  List.filter (λ i, negb (rd false present i)) (seq 0 k).

Lemma absent_rows_S present k :
  absent_rows present (S k)
  = absent_rows present k ++ (if rd false present k then [] else [k]).
Proof.
  unfold absent_rows. rewrite seq_S, List.filter_app. cbn. by destruct (rd false present k).
Qed.

Lemma absent_rows_NoDup present k : NoDup (absent_rows present k).
Proof. apply NoDup_ListNoDup, List.NoDup_filter, seq_NoDup. Qed.

Lemma elem_of_absent present k r :
  r ∈ absent_rows present k ↔ (r < k)%nat ∧ rd false present r = false.
Proof.
  unfold absent_rows. rewrite list_elem_of_In, filter_In, in_seq, negb_true_iff.
  split; intros [? ?]; (split; [lia|done]).
Qed.

Lemma fill_known_spec k P shards present :
  let s := fill_known k P shards present in
  length s.1 = (P * k)%nat ∧ s.2 = map Z.of_nat (absent_rows present k) ∧
  ∀ r c, (r < k)%nat → (c < P)%nat → rd false present r = true →
    grid_px s.1 P r c = data_px shards P r c.
Proof.
  unfold fill_known.
  set (I := λ j (s : list Z * list Z), length s.1 = (P * k)%nat ∧
    s.2 = map Z.of_nat (absent_rows present j) ∧
    ∀ r c, (r < j)%nat → (c < P)%nat → rd false present r = true →
      grid_px s.1 P r c = data_px shards P r c).
  apply (for0_ind I).
  { split; [cbn; by rewrite length_replicate|]. split; [done|lia]. }
  intros i [grid mr] Hi (Hl & Hmr & Hg). cbn [fst snd] in *. unfold I.
  rewrite absent_rows_S. destruct (rd false present i) eqn:Ep; cbn [fst snd].
  - assert (Hfit : (i * P + length (u64s P (rd [] shards i)) <= length grid)%nat)
      by (rewrite length_u64s; nia).
    split; [by rewrite length_splice|]. split; [by rewrite app_nil_r|].
    intros r c Hr Hc Hpr. unfold grid_px. rewrite rd_splice by done. rewrite length_u64s.
    destruct (decide (r = i)) as [->|Hne].
    + rewrite decide_True by lia. unfold data_px. f_equal. lia.
    + rewrite decide_False by nia. apply Hg; [lia|done..].
  - split; [done|]. split; [by rewrite map_app, Hmr|]. intros r c Hr Hc Hpr.
    destruct (decide (r = i)) as [->|Hne]; [congruence|]. apply Hg; [lia|done..].
Qed.

Lemma absent_is_missing present k r :
  (r < k)%nat →
  is_missing (map Z.of_nat (absent_rows present k)) (length (absent_rows present k)) r
  = negb (rd false present r).
Proof.
  intros Hr. apply eq_true_iff_eq. rewrite is_missing_true, negb_true_iff. split.
  - intros (i & Hi & He). rewrite (rd_map O) in He by done. apply Nat2Z.inj in He.
    assert (Hin : r ∈ absent_rows present k).
    { rewrite <-He. apply (list_elem_of_lookup_2 _ i). by apply rd_lt. }
    by apply elem_of_absent in Hin as [_ ?].
  - intros Hf. assert (Hin : r ∈ absent_rows present k) by (by apply elem_of_absent).
    apply list_elem_of_lookup_1 in Hin as [i Hi]. pose proof (lookup_lt_Some _ _ _ Hi) as Hlt.
    exists i. split; [done|]. rewrite (rd_map O) by done. f_equal. by apply rd_lookup.
Qed.

Lemma absent_missing_ok present k :
  absent_rows present k ≠ [] →
  missing_ok k (map Z.of_nat (absent_rows present k)) (length (absent_rows present k)).
Proof.
  intros Hne. set (l := absent_rows present k) in *.
  assert (Hrd : ∀ i, (i < length l)%nat → rd 0%Z (map Z.of_nat l) i = Z.of_nat (rd O l i)
    ∧ (rd O l i < k)%nat).
  { intros i Hi. rewrite (rd_map O) by done. split; [done|].
    assert (Hin : rd O l i ∈ l) by (apply (list_elem_of_lookup_2 _ i); by apply rd_lt).
    by apply elem_of_absent in Hin as [? _]. }
  split; [split|split].
  - destruct l; [done|cbn; lia].
  - unfold l, absent_rows. etrans; [apply List.filter_length_le|]. by rewrite length_seq.
  - intros i Hi. destruct (Hrd i Hi) as [-> ?]. lia.
  - intros i j Hij. destruct (Hrd i ltac:(lia)) as [-> _], (Hrd j ltac:(lia)) as [-> _].
    intros He%Nat2Z.inj. assert (i = j); [|lia].
    apply (NoDup_lookup l i j (rd O l i) (absent_rows_NoDup _ _)); [apply rd_lt; lia|].
    rewrite He. apply rd_lt. lia.
Qed.

(** ** Copying rows back *)

(** A row of the recovered grid is the bytes of the data shard. *)
Lemma row_bytes data P k grid r :
  length grid = (P * k)%nat → (r < k)%nat → length (rd [] data r) = (8 * P)%nat →
  (∀ c, (c < P)%nat → grid_px grid P r c = data_px data P r c) →
  u64_bytes (take P (drop (r * P) grid)) = rd [] data r.
Proof.
  intros Hl Hr Hd Hg.
  assert (Hrow : take P (drop (r * P) grid) = u64s P (rd [] data r)).
  { apply (rd_ext 0%Z).
    - rewrite length_take, length_drop, length_u64s. nia.
    - intros c Hc. rewrite length_take in Hc. rewrite rd_take, rd_drop by lia.
      apply Hg. lia. }
  rewrite Hrow, bytes_u64s by lia. by rewrite take_ge by lia.
Qed.

Lemma copy_rows_spec data P k L grid shards (row : nat → nat) n :
  L = (8 * P)%nat → length grid = (P * k)%nat → (k <= length shards)%nat →
  (∀ r, (r < k)%nat → length (rd [] data r) = L ∧ (L <= length (rd [] shards r))%nat) →
  (∀ r c, (r < k)%nat → (c < P)%nat → grid_px grid P r c = data_px data P r c) →
  (∀ i, (i < n)%nat → (row i < k)%nat) →
  (∀ i j, (i < n)%nat → (j < n)%nat → row i = row j → i = j) →
  let out := for_range 0 n (λ i shards, copy_row P L grid shards (row i)) shards in
  length out = length shards ∧
  ∀ r, ((∀ i, (i < n)%nat → row i ≠ r) → rd [] out r = rd [] shards r) ∧
       ((∃ i, (i < n)%nat ∧ row i = r) → rd [] out r = splice 0 (rd [] data r) (rd [] shards r)).
Proof.
  intros HL Hgl Hks Hd Hg Hrow Hinj out. unfold out.
  apply (for0_ind (λ j out, length out = length shards ∧ ∀ r,
    ((∀ i, (i < j)%nat → row i ≠ r) → rd [] out r = rd [] shards r) ∧
    ((∃ i, (i < j)%nat ∧ row i = r) →
       rd [] out r = splice 0 (rd [] data r) (rd [] shards r)))).
  { split; [done|]. intros r. split; [done|]. intros (i & Hi & _). lia. }
  intros j o Hj [Hl Ho]. specialize (Hrow j Hj) as Hrj.
  destruct (Hd (row j) Hrj) as [Hdl _].
  unfold copy_row.
  rewrite (row_bytes data P k grid (row j)) by (lia || (intros; apply Hg; lia)).
  rewrite take_ge by lia. split; [by rewrite length_wr|]. intros r. rewrite rd_wr by lia.
  destruct (Ho r) as [Ho1 Ho2]. split.
  - intros Hn. case_decide as E; [exfalso; apply (Hn j); [lia|done]|]. apply Ho1. intros i Hi. apply Hn. lia.
  - intros (i & Hi & He). case_decide as E.
    + clear He Ho1 Ho2. subst r. f_equal. apply (proj1 (Ho (row j))). intros i' Hi' He'.
      apply Hinj in He'; lia.
    + apply Ho2. exists i. split; [|done].
      destruct (decide (i = j)) as [->|]; [congruence|lia].
Qed.

(** Copying back every row that was not present. *)
Lemma copy_absent data P k grid shards present :
  let absent := absent_rows present k in
  let out := for_range 0 (length absent) (λ i shards,
    copy_row P (8 * P) grid shards (Z.to_nat (rd 0%Z (map Z.of_nat absent) i))) shards in
  length grid = (P * k)%nat → (k <= length shards)%nat →
  (∀ r, (r < k)%nat → length (rd [] data r) = (8 * P)%nat ∧
     (8 * P <= length (rd [] shards r))%nat) →
  (∀ r c, (r < k)%nat → (c < P)%nat → grid_px grid P r c = data_px data P r c) →
  (∀ r, (r < k)%nat → rd false present r = true → rd [] data r `prefix_of` rd [] shards r) →
  length out = length shards ∧
  (∀ r, (r < k)%nat → rd [] data r `prefix_of` rd [] out r ∧
     length (rd [] out r) = length (rd [] shards r)) ∧
  (∀ r, (k <= r)%nat → rd [] out r = rd [] shards r).
Proof.
  intros absent out Hgl Hks Hd Hg Hpre.
  assert (Hrow : ∀ i, (i < length absent)%nat →
    Z.to_nat (rd 0%Z (map Z.of_nat absent) i) = rd O absent i ∧ rd O absent i ∈ absent).
  { intros i Hi. rewrite (rd_map O) by done. split; [lia|].
    apply (list_elem_of_lookup_2 _ i). by apply rd_lt. }
  destruct (copy_rows_spec data P k (8 * P) grid shards
    (λ i, Z.to_nat (rd 0%Z (map Z.of_nat absent) i)) (length absent)) as [Hol Ho]; [done..| | |].
  - intros i Hi. destruct (Hrow i Hi) as [-> Hin]. by apply elem_of_absent in Hin as [? _].
  - intros i j Hi Hj. destruct (Hrow i Hi) as [-> _], (Hrow j Hj) as [-> _]. intros He.
    apply (NoDup_lookup absent i j (rd O absent i) (absent_rows_NoDup _ _)); [by apply rd_lt|].
    rewrite He. by apply rd_lt.
  - split; [done|]. split; intros r Hr; destruct (Ho r) as [Ho1 Ho2].
    + destruct (rd false present r) eqn:Ep.
      * unfold out. rewrite Ho1; [by split; [apply Hpre|]|]. intros j Hj He.
        destruct (Hrow j Hj) as [Hrj Hin]. rewrite Hrj in He. subst r.
        apply elem_of_absent in Hin as [_ ?]. congruence.
      * unfold out. rewrite Ho2.
        { split; [apply splice_prefix|]. destruct (Hd r Hr). apply length_splice. lia. }
        assert (Hin : r ∈ absent) by (by apply elem_of_absent).
        apply list_elem_of_lookup_1 in Hin as [j Hj]. exists j.
        pose proof (lookup_lt_Some _ _ _ Hj). split; [done|].
        destruct (Hrow j) as [-> _]; [done|]. by apply rd_lookup.
    + apply Ho1. intros j Hj He. destruct (Hrow j Hj) as [Hrj Hin].
      rewrite Hrj in He. apply elem_of_absent in Hin as [? _]. lia.
Qed.

(** ** Decoding *)

(** Shard [i] of a systematic, and of a non-systematic, stripe. *)
Definition sys_shard (enc : moj_encoding) (P : nat) (data : list (list byte)) (i : nat)
    : list byte :=
  if (i <? ec_k enc)%nat then rd [] data i else proj_shard enc P (data_px data P) i.

Definition nonsys_shard (enc : moj_encoding) (P : nat) (data : list (list byte)) (i : nat)
    : list byte := proj_shard enc P (data_px data P) i.

(** Buffers large enough for every shard, the present ones holding theirs. *)
Definition survives (n : nat) (code : nat → list byte) (shards : list (list byte))
    (present : list bool) : Prop :=
  length shards = n ∧
  ∀ i, (i < n)%nat → (length (code i) <= length (rd [] shards i))%nat ∧
    (rd false present i = true → code i `prefix_of` rd [] shards i).

Definition data_wf (k P : nat) (data : list (list byte)) : Prop :=
  ∀ r, (r < k)%nat → length (rd [] data r) = (8 * P)%nat.

Definition missing_shards (present : list bool) (n : nat) : nat :=
  length (absent_rows present n).

Lemma present_absent lo n present :
  (length (List.filter (λ i, rd false present i) (seq lo n))
   + length (List.filter (λ i, negb (rd false present i)) (seq lo n)) = n)%nat.
Proof.
  revert lo. induction n as [|n IH]; intros lo; [done|]. cbn [seq List.filter].
  specialize (IH (S lo)). destruct (rd false present lo); cbn [negb length]; lia.
Qed.

Lemma missing_shards_split present k m :
  missing_shards present (k + m)
  = (length (absent_rows present k)
     + length (List.filter (λ i, negb (rd false present i)) (seq k m)))%nat.
Proof.
  unfold missing_shards, absent_rows. by rewrite seq_app, List.filter_app, length_app.
Qed.

(** The two counters of the systematic decoder. *)
Lemma loss_counts present k m :
  for_range 0 (k + m) (λ i '(md, tm),
    let tm := if negb (rd false present i) then S tm else tm in
    let md := if (i <? k)%nat && negb (rd false present i) then S md else md in
    (md, tm)) (O, O)
  = (length (absent_rows present k), missing_shards present (k + m)).
Proof.
  assert (H : ∀ j, for_range 0 j (λ i '(md, tm),
    let tm := if negb (rd false present i) then S tm else tm in
    let md := if (i <? k)%nat && negb (rd false present i) then S md else md in
    (md, tm)) (O, O) = (length (absent_rows present (j `min` k)), missing_shards present j)).
  { induction j as [|j IH]; [done|]. rewrite for_range_S, IH. cbn [Nat.add].
    unfold missing_shards. rewrite absent_rows_S, length_app.
    destruct (Nat.ltb_spec j k).
    - replace (S j `min` k)%nat with (S j) by lia. replace (j `min` k)%nat with j by lia.
      rewrite absent_rows_S, length_app.
      destruct (rd false present j); cbn [negb andb length]; f_equal; lia.
    - replace (S j `min` k)%nat with k by lia. replace (j `min` k)%nat with k by lia.
      destruct (rd false present j); cbn [negb andb length]; f_equal; lia. }
  rewrite H. by replace ((k + m) `min` k)%nat with k by lia.
Qed.

Lemma shifted_filter present k m :
  length (List.filter (λ i, rd false present (k + i)) (seq 0 m))
  = length (List.filter (λ i, rd false present i) (seq k m)).
Proof.
  assert (H : ∀ lo, length (List.filter (λ i, rd false present (k + i)) (seq lo m))
    = length (List.filter (λ i, rd false present i) (seq (k + lo) m))).
  { induction m as [|m IH]; intros lo; [done|]. cbn [seq List.filter].
    rewrite <-Nat.add_succ_r. specialize (IH (S lo)).
    destruct (rd false present (k + lo)); cbn [length]; lia. }
  rewrite H. by rewrite Nat.add_0_r.
Qed.

Lemma grid_P_8 P : grid_P (8 * P) = P.
Proof. unfold grid_P. rewrite Nat.mul_comm. by apply Nat.div_mul. Qed.

Lemma data_px_prefix data shards P r c :
  length (rd [] data r) = (8 * P)%nat → rd [] data r `prefix_of` rd [] shards r →
  data_px shards P r c = data_px data P r c.
Proof. intros Hl Hp. unfold data_px. by rewrite (u64s_prefix P (rd [] data r)) by (done || lia). Qed.

Lemma prefix_splice (a dst : list byte) : a `prefix_of` dst → splice 0 a dst = dst.
Proof. intros [rest ->]. unfold splice. cbn [take Nat.add app]. by rewrite drop_app_length. Qed.

(** Encoding data that is already in its stripe, in place. *)
Lemma sys_encode_spec cfg enc data parity P :
  (0 < ec_k enc)%nat → bufs_fit enc P (ec_k enc) (ec_m enc) parity →
  ∃ par, mojette_sys_encode cfg enc data parity (8 * P) = (0%Z, par) ∧
    length par = ec_m enc ∧
    ∀ i, (i < ec_m enc)%nat →
      rd [] par i = splice 0 (proj_shard enc P (data_px data P) (ec_k enc + i)) (rd [] parity i) ∧
      length (rd [] par i) = length (rd [] parity i).
Proof.
  intros Hk Hfit. unfold mojette_sys_encode. rewrite grid_P_8. eexists. split; [done|].
  by apply (forward_buffers cfg enc P (ec_k enc) (ec_m enc) data parity parity).
Qed.

Lemma data_px_ext data data' P r :
  u64s P (rd [] data r) = u64s P (rd [] data' r) → ∀ c, data_px data P r c = data_px data' P r c.
Proof. intros H c. unfold data_px. by rewrite H. Qed.

Lemma proj_shard_ext enc P g g' i :
  (∀ r c, (r < ec_k enc)%nat → (c < P)%nat → g r c = g' r c) →
  proj_shard enc P g i = proj_shard enc P g' i.
Proof.
  intros H. unfold proj_shard. f_equal. apply map_ext. intros b. by apply projection_ext.
Qed.

Section sys_decode.
Context (cfg : moj_config) (enc : moj_encoding) (P : nat).
Context (data shards : list (list byte)) (present : list bool).
Context (Henc : enc_ok enc) (Hdata : data_wf (ec_k enc) P data).
Context (Hs : survives (ec_k enc + ec_m enc) (sys_shard enc P data) shards present).
Context (Hm : (missing_shards present (ec_k enc + ec_m enc) <= ec_m enc)%nat).

Let k := ec_k enc.
Let m := ec_m enc.

Lemma sys_data_shard r :
  (r < k)%nat → length (rd [] data r) = (8 * P)%nat ∧
  (8 * P <= length (rd [] shards r))%nat ∧
  (rd false present r = true → rd [] data r `prefix_of` rd [] shards r).
Proof.
  intros Hr. destruct Hs as [_ Hs']. destruct (Hs' r ltac:(unfold k in Hr; lia)) as [Hl Hp].
  unfold sys_shard in Hl, Hp. destruct (Nat.ltb_spec r (ec_k enc)); [|unfold k in Hr; lia].
  rewrite (Hdata r Hr) in Hl. split; [by apply Hdata|]. split; [lia|done].
Qed.

Lemma sys_parity_shard i :
  (i < m)%nat →
  (length (proj_shard enc P (data_px data P) (k + i)) <= length (rd [] shards (k + i)))%nat ∧
  (rd false present (k + i) = true →
     proj_shard enc P (data_px data P) (k + i) `prefix_of` rd [] shards (k + i)).
Proof.
  intros Hi. destruct Hs as [_ Hs']. specialize (Hs' (k + i)%nat ltac:(unfold k, m in *; lia)).
  unfold sys_shard in Hs'. destruct (Nat.ltb_spec (k + i) (ec_k enc)); [unfold k in *; lia|done].
Qed.

(** No data shard is missing: the parity is computed again. *)
Lemma sys_decode_parity :
  absent_rows present k = [] → missing_shards present (k + m) ≠ O →
  ∃ out, mojette_sys_decode cfg enc shards present (8 * P) = Some (0%Z, out) ∧
    length out = length shards ∧
    ∀ i, (i < k + m)%nat → sys_shard enc P data i `prefix_of` rd [] out i ∧
      length (rd [] out i) = length (rd [] shards i).
Proof.
  intros Hnone Hsome. unfold mojette_sys_decode. fold k. fold m. rewrite loss_counts, Hnone.
  destruct (Nat.ltb_spec m (missing_shards present (k + m))); [unfold k, m in *; lia|].
  destruct (Nat.eqb_spec (missing_shards present (k + m)) 0); [done|]. cbn [length Nat.eqb].
  assert (Hp : ∀ r, (r < k)%nat → rd false present r = true).
  { intros r Hr. destruct (rd false present r) eqn:E; [done|]. exfalso.
    assert (Hin : r ∈ absent_rows present k) by (by apply elem_of_absent).
    rewrite Hnone in Hin. by apply not_elem_of_nil in Hin. }
  destruct (sys_encode_spec cfg enc shards (drop k shards) P) as (par & -> & Hpl & Hpar).
  { apply Henc. }
  { split; [rewrite length_drop, (proj1 Hs); unfold k, m; lia|]. intros i Hi. rewrite rd_drop.
    rewrite <-(length_proj_shard enc P (data_px data P)). by apply sys_parity_shard. }
  assert (Htk : length (take k shards) = k) by (rewrite length_take, (proj1 Hs); unfold k; lia).
  eexists. split; [done|]. split.
  { rewrite length_app, Htk, Hpl, (proj1 Hs). done. }
  intros i Hi. rewrite rd_app, Htk. case_decide as Hik.
  - rewrite rd_take by done. unfold sys_shard. destruct (Nat.ltb_spec i (ec_k enc)); [|unfold k in *; lia].
    split; [|done]. apply sys_data_shard; [done|]. by apply Hp.
  - destruct (Hpar (i - k)%nat) as [Hv Hvl]; [unfold m in Hi; lia|]. fold k in Hv.
    rewrite rd_drop in Hvl. replace (k + (i - k))%nat with i in Hv, Hvl by lia.
    split; [|done]. rewrite Hv. unfold sys_shard.
    destruct (Nat.ltb_spec i (ec_k enc)); [unfold k in *; lia|].
    rewrite (proj_shard_ext enc P (data_px shards P) (data_px data P)); [apply splice_prefix|].
    intros r c Hr _. destruct (sys_data_shard r Hr) as (Hl & _ & Hpre).
    apply data_px_prefix; [done|]. apply Hpre. by apply Hp.
Qed.

(** Nothing is missing: nothing is done. *)
Lemma sys_decode_none :
  missing_shards present (k + m) = O →
  ∃ out, mojette_sys_decode cfg enc shards present (8 * P) = Some (0%Z, out) ∧
    length out = length shards ∧
    ∀ i, (i < k + m)%nat → sys_shard enc P data i `prefix_of` rd [] out i ∧
      length (rd [] out i) = length (rd [] shards i).
Proof.
  intros Hz. exists shards. split.
  { unfold mojette_sys_decode. fold k. fold m. rewrite loss_counts, Hz. done. }
  split; [done|]. intros i Hi. split; [|done]. apply Hs; [done|].
  destruct (rd false present i) eqn:Ep; [done|]. exfalso.
  assert (Hin : i ∈ absent_rows present (k + m)) by (by apply elem_of_absent).
  unfold missing_shards in Hz. apply nil_length_inv in Hz. rewrite Hz in Hin.
  by apply not_elem_of_nil in Hin.
Qed.

Lemma sys_decode_data_there :
  absent_rows present k = [] →
  ∃ out, mojette_sys_decode cfg enc shards present (8 * P) = Some (0%Z, out) ∧
    length out = length shards ∧
    ∀ i, (i < k + m)%nat → sys_shard enc P data i `prefix_of` rd [] out i ∧
      length (rd [] out i) = length (rd [] shards i).
Proof.
  intros Hnone. destruct (decide (missing_shards present (k + m) = O)).
  - by apply sys_decode_none.
  - by apply sys_decode_parity.
Qed.

(** Some data shard is missing: the data comes back, the parity is left as it is. *)
Lemma sys_decode_data :
  absent_rows present k ≠ [] →
  ∃ out, mojette_sys_decode cfg enc shards present (8 * P) = Some (0%Z, out) ∧
    length out = length shards ∧
    (∀ i, (i < k)%nat → rd [] data i `prefix_of` rd [] out i ∧
       length (rd [] out i) = length (rd [] shards i)) ∧
    (∀ i, (k <= i)%nat → rd [] out i = rd [] shards i).
Proof.
  intros Hne. unfold mojette_sys_decode. fold k. fold m. rewrite loss_counts, grid_P_8.
  set (md := length (absent_rows present k)).
  assert (Hmd : (0 < md)%nat) by (unfold md; destruct (absent_rows present k); [done|cbn; lia]).
  pose proof (missing_shards_split present k m) as Hsplit. fold md in Hsplit.
  pose proof (present_absent k m present) as Hpa.
  fold k m in Hm.
  destruct (Nat.ltb_spec m (missing_shards present (k + m))); [lia|].
  destruct (Nat.eqb_spec (missing_shards present (k + m)) 0); [lia|].
  destruct (Nat.eqb_spec md 0); [lia|].
  rewrite (count_loop k m (λ i, rd false present i)).
  destruct (Nat.ltb_spec (length (List.filter (λ i, rd false present i) (seq k m))) md); [lia|].
  assert (Hpick : length (picked present k m md) = md).
  { apply picked_length. rewrite shifted_filter. lia. }
  pose proof (picked_inverse enc P (data_px data P) k m md shards present Henc
    (data_px_width data P) (Nat.le_refl _) (λ i Hi, proj2 (sys_parity_shard i Hi)) Hpick)
    as [Hdirs Hholds].
  destruct (pick_projs enc P k m md shards present) as [[sd sj] idx]. cbn [fst snd] in Hdirs, Hholds.
  pose proof (fill_known_spec k P shards present) as (Hgl & Hmr & Hg).
  destruct (fill_known k P shards present) as [fg mr]. cbn [fst snd] in Hgl, Hmr, Hg. subst mr.
  destruct (moj_inverse_sparse_restores (moj_gd_enabled cfg) (data_px data P) P k sd md sj
    (map Z.of_nat (absent_rows present k)) md fg) as (grid' & pj' & -> & Hgl' & Hg');
    [done|lia|done|by apply absent_missing_ok| |].
  { split; [done|]. intros r c Hr Hc Hmiss. unfold md in Hmiss.
    rewrite absent_is_missing in Hmiss by done. apply negb_false_iff in Hmiss.
    rewrite Hg by done. destruct (sys_data_shard r Hr) as (Hl & _ & Hpre).
    apply data_px_prefix; [done|]. by apply Hpre. }
  cbn [Z.eqb]. eexists. split; [done|].
  apply (copy_absent data P k grid' shards present); [done|by rewrite (proj1 Hs); unfold k; lia| |done|].
  - intros r Hr. destruct (sys_data_shard r Hr) as (? & ? & _). done.
  - intros r Hr. by apply sys_data_shard.
Qed.

End sys_decode.

(** ** Non-systematic *)

Lemma nonsys_encode_spec cfg enc junk data parity P :
  (0 < ec_k enc)%nat → bufs_fit enc P 0 (ec_k enc) data →
  bufs_fit enc P (ec_k enc) (ec_m enc) parity →
  ∃ da par, mojette_nonsys_encode cfg enc junk data parity (8 * P) = (0%Z, da, par) ∧
    length da = ec_k enc ∧ length par = ec_m enc ∧
    ∀ i, (i < ec_k enc + ec_m enc)%nat →
      nonsys_shard enc P data i `prefix_of` rd [] (da ++ par) i ∧
      length (rd [] (da ++ par) i) = length (rd [] (data ++ parity) i).
Proof.
  intros Hk Hd Hp. unfold mojette_nonsys_encode. rewrite grid_P_8.
  pose proof (forward_buffers cfg enc P 0 (ec_k enc) data junk data Hk Hd) as [Hdl Hdd].
  pose proof (forward_buffers cfg enc P (ec_k enc) (ec_m enc) data parity parity Hk Hp) as [Hpl Hpp].
  do 2 eexists. split; [done|]. rewrite drop_0 in Hdl, Hdd. split; [done|]. split; [done|].
  intros i Hi. rewrite !rd_app, Hdl, (proj1 Hd). case_decide as Hik.
  - destruct (Hdd i Hik) as [Hv Hl]. split; [|done]. rewrite Hv. apply splice_prefix.
  - destruct (Hpp (i - ec_k enc)%nat ltac:(lia)) as [Hv Hl]. split; [|done]. rewrite Hv.
    replace (ec_k enc + (i - ec_k enc))%nat with i by lia. apply splice_prefix.
Qed.

Lemma nonsys_decode_spec cfg enc P data shards present :
  enc_ok enc → data_wf (ec_k enc) P data →
  (∀ i, (i < ec_k enc)%nat → (8 * P <= length (rd [] shards i))%nat) →
  survives (ec_k enc + ec_m enc) (nonsys_shard enc P data) shards present →
  (missing_shards present (ec_k enc + ec_m enc) <= ec_m enc)%nat →
  ∃ out, mojette_nonsys_decode cfg enc shards present (8 * P) = Some (0%Z, out) ∧
    length out = length shards ∧
    (∀ i, (i < ec_k enc)%nat → rd [] out i = splice 0 (rd [] data i) (rd [] shards i)) ∧
    (∀ i, (ec_k enc <= i)%nat → rd [] out i = rd [] shards i).
Proof.
  intros Henc Hdata Hroom Hs Hm. unfold mojette_nonsys_decode. rewrite grid_P_8.
  set (k := ec_k enc) in *. set (m := ec_m enc) in *.
  rewrite (count_loop 0 (k + m) (λ i, rd false present i)).
  pose proof (present_absent 0 (k + m) present) as Hpa.
  unfold missing_shards, absent_rows in Hm.
  destruct (Nat.ltb_spec (length (List.filter (λ i, rd false present i) (seq 0 (k + m)))) k);
    [lia|].
  assert (Hpick : length (picked present 0 (k + m) k) = k) by (apply picked_length; cbn; lia).
  pose proof (picked_inverse enc P (data_px data P) 0 (k + m) k shards present Henc
    (data_px_width data P) (Nat.le_refl _) (λ i Hi, proj2 (proj2 Hs i Hi)) Hpick)
    as [Hdirs Hholds].
  destruct (pick_projs enc P 0 (k + m) k shards present) as [[sd sj] idx].
  cbn [fst snd] in Hdirs, Hholds.
  destruct (moj_inverse_restores (moj_gd_enabled cfg) (data_px data P) P k sd k sj
    (replicate (P * k) 0%Z)) as (grid' & pj' & -> & Hgl & Hg);
    [done|lia|done|apply length_replicate|].
  cbn [Z.eqb]. eexists. split; [done|].
  destruct (copy_rows_spec data P k (8 * P) grid' shards (λ i, i) k) as [Hol Ho];
    [done|done|rewrite (proj1 Hs); lia|by split; auto|done|done|done|].
  split; [done|]. split; intros i Hi.
  - apply (Ho i). by exists i.
  - apply (Ho i). intros j Hj ->. lia.
Qed.

(** Too few shards: refused, with nothing written. *)
Lemma sys_decode_refuses cfg enc shards present L :
  (ec_m enc < missing_shards present (ec_k enc + ec_m enc))%nat →
  mojette_sys_decode cfg enc shards present L = Some ((- EIO)%Z, shards).
Proof.
  intros H. unfold mojette_sys_decode. rewrite loss_counts.
  by destruct (Nat.ltb_spec (ec_m enc) (missing_shards present (ec_k enc + ec_m enc))); [|lia].
Qed.

Lemma nonsys_decode_refuses cfg enc shards present L :
  (ec_m enc < missing_shards present (ec_k enc + ec_m enc))%nat →
  mojette_nonsys_decode cfg enc shards present L = Some ((- EIO)%Z, shards).
Proof.
  intros H. unfold mojette_nonsys_decode. unfold missing_shards, absent_rows in H.
  rewrite (count_loop 0 (ec_k enc + ec_m enc) (λ i, rd false present i)).
  pose proof (present_absent 0 (ec_k enc + ec_m enc) present) as Hpa.
  destruct (Nat.ltb_spec (length (List.filter (λ i, rd false present i)
    (seq 0 (ec_k enc + ec_m enc)))) (ec_k enc)); [done|lia].
Qed.

End MojetteCodeCorrect.
