(* ===== verification/MojetteTheorems.v ===== *)
(** * Properties of the Mojette transform and its encodings *)

From S2P Require Import Prelude.
From S2P Require Import Words.
From S2P Require Import Mojette.
From S2P Require Import MojetteForward.
From S2P Require Import MojetteKatz.
From S2P Require Import MojettePeel.
From S2P Require Import MojetteSparse.
From S2P Require Import MojetteGd.
From S2P Require Import MojetteCode.
From S2P Require Import MojetteCodeCorrect.
Import Words Mojette MojetteForward MojettePeel MojetteSparse MojetteGd MojetteCode.
Import MojetteCodeCorrect.

Module MojetteTheorems.

(** ** Sizes *)

(** A projection is never shorter than a row. *)
Lemma nbins_lower enc P i : (0 < ec_k enc)%nat → md_q (dir (mcp_dirs enc) i) = 1%Z →
  (Z.of_nat P <= dir_nbins enc P i)%Z.
Proof.
  intros Hk Hq. unfold dir_nbins, moj_projection_size. rewrite Hq. change (1 <? 0)%Z with false.
  cbn [Z.opp]. case_if; bool_prop; nia.
Qed.

Lemma enc_dir enc i :
  enc_ok enc → (i < ec_k enc + ec_m enc)%nat →
  md_q (dir (mcp_dirs enc) i) = 1%Z ∧
  (Z.abs (md_p (dir (mcp_dirs enc) i)) <= (Z.of_nat (ec_k enc + ec_m enc) + 1) / 2)%Z.
Proof.
  intros (_ & _ & ->) Hi. destruct (directions_spec (ec_k enc + ec_m enc)) as [_ Hd].
  rewrite Hd by done. cbn [md_p md_q]. split; [done|].
  set (n := (ec_k enc + ec_m enc)%nat) in *.
  pose proof (Nat.div_mod_eq n 2). pose proof (Nat.mod_upper_bound n 2).
  case_if; bool_prop; apply Z.div_le_lower_bound; lia.
Qed.

(** Buffers of the size [mojette_shard_size] answers fit the projections. *)
Definition sized_bufs (enc : moj_encoding) (first n L : nat) (bufs : list (list byte)) : Prop :=
  length bufs = n ∧ ∀ i, (i < n)%nat →
    Z.of_nat (length (rd [] bufs i)) = mojette_shard_size enc (first + i) L.

Lemma sized_bufs_fit enc first n P bufs :
  enc_ok enc → (first + n <= ec_k enc + ec_m enc)%nat →
  (mcp_systematic enc = true → (ec_k enc <= first)%nat) →
  sized_bufs enc first n (8 * P) bufs → bufs_fit enc P first n bufs.
Proof.
  intros He Hn Hsys [Hl Hb]. split; [done|]. intros i Hi. specialize (Hb i Hi).
  unfold mojette_shard_size in Hb. rewrite grid_P_8 in Hb.
  destruct (enc_dir enc (first + i) He ltac:(lia)) as [Hq _].
  pose proof (nbins_lower enc P (first + i) (proj1 He) Hq).
  destruct (mcp_systematic enc && (first + i <? ec_k enc)%nat) eqn:E; [|lia]. bool_prop.
  specialize (Hsys ltac:(done)). lia.
Qed.

Lemma prefix_same_length {A} (a b : list A) : a `prefix_of` b → length b = length a → b = a.
Proof.
  intros [rest ->]. rewrite length_app. intros H. destruct rest; [by rewrite app_nil_r|].
  cbn in H. lia.
Qed.

(** Shards of a stripe of which those marked present are intact. *)
Definition intact (stripe shards : list (list byte)) (present : list bool) : Prop :=
  length shards = length stripe ∧
  ∀ i, length (rd [] shards i) = length (rd [] stripe i) ∧
    (rd false present i = true → rd [] shards i = rd [] stripe i).

(** ** A small stripe for the instances: two data shards of two words, two parities *)

Definition w_enc (sys : bool) : moj_encoding := mk_encoding 2 2 (moj_directions_generate 4) sys.
Definition w_cfg : moj_config := mk_config AVX2 false true.
Definition w_data : list (list byte) :=
  [map zb [1; 2; 3; 4; 5; 6; 7; 8; 9; 10; 11; 12; 13; 14; 15; 16]%Z;
   map zb [200; 0; 17; 255; 3; 9; 81; 4; 66; 5; 5; 5; 90; 91; 92; 93]%Z].
Definition w_parity : list (list byte) := [replicate 24 xff; replicate 32 xaa].
Definition w_par : list (list byte) := snd (mojette_sys_encode w_cfg (w_enc true) w_data w_parity 16).
Definition w_shards : list (list byte) :=
  [replicate 16 xee; rd [] w_data 1; replicate 24 xee; rd [] w_par 1].
Definition w_present : list bool := [false; true; false; true].
(** Larger buffers, as the non-systematic encoding asks for. *)
Definition w_bufs : list (list byte) :=
  [rd [] w_data 0 ++ replicate 16 x77; rd [] w_data 1 ++ replicate 8 x77].
Definition w_nonsys : list (list byte) :=
  let '(_, da, par) := mojette_nonsys_encode w_cfg (w_enc false) [] w_bufs w_parity 16 in da ++ par.
Definition w_nonsys_shards : list (list byte) :=
  [replicate 32 xee; rd [] w_nonsys 1; replicate 24 xee; rd [] w_nonsys 3].

(** ** Systematic stripes *)

Section sys.
Context (k m : Z) (enc : moj_encoding) (cfg : moj_config) (P : nat).
Context (data parity shards : list (list byte)) (present : list bool).
Context (Hc : ec_mojette_sys_create k m = Some enc).
Context (Hdl : length data = ec_k enc) (Hd : data_wf (ec_k enc) P data).
Context (Hp : sized_bufs enc (ec_k enc) (ec_m enc) (8 * P) parity).

Let stripe := data ++ snd (mojette_sys_encode cfg enc data parity (8 * P)).

Lemma sys_enc_ok : enc_ok enc ∧ mcp_systematic enc = true.
Proof. by apply mojette_create_ok in Hc as (? & _ & _ & ?). Qed.

(** The stripe that is written holds the shards of the data. *)
Lemma sys_stripe_shards :
  fst (mojette_sys_encode cfg enc data parity (8 * P)) = 0%Z ∧
  length stripe = (ec_k enc + ec_m enc)%nat ∧
  ∀ i, (i < ec_k enc + ec_m enc)%nat → rd [] stripe i = sys_shard enc P data i.
Proof.
  destruct sys_enc_ok as [He Hsys].
  destruct (sys_encode_spec cfg enc data parity P) as (par & E & Hpl & Hpar).
  { apply He. }
  { apply sized_bufs_fit; [done|lia|done|done]. }
  unfold stripe. rewrite E. cbn [fst snd]. split; [done|]. split; [rewrite length_app; lia|].
  intros i Hi. rewrite rd_app, Hdl. unfold sys_shard. case_decide as Hik.
  - destruct (Nat.ltb_spec i (ec_k enc)); [done|lia].
  - destruct (Nat.ltb_spec i (ec_k enc)); [lia|].
    destruct (Hpar (i - ec_k enc)%nat ltac:(lia)) as [-> _].
    replace (ec_k enc + (i - ec_k enc))%nat with i by lia. apply splice_all.
    rewrite length_proj_shard. destruct Hp as [_ Hsz].
    specialize (Hsz (i - ec_k enc)%nat ltac:(lia)).
    replace (ec_k enc + (i - ec_k enc))%nat with i in Hsz by lia.
    unfold mojette_shard_size in Hsz. rewrite grid_P_8, Hsys in Hsz.
    destruct (Nat.ltb_spec i (ec_k enc)); [lia|]. cbn [andb] in Hsz.
    destruct (enc_dir enc i He Hi) as [Hq _]. pose proof (nbins_lower enc P i (proj1 He) Hq). lia.
Qed.

Lemma sys_survives :
  intact stripe shards present →
  survives (ec_k enc + ec_m enc) (sys_shard enc P data) shards present ∧
  ∀ i, (i < ec_k enc + ec_m enc)%nat →
    length (rd [] shards i) = length (sys_shard enc P data i).
Proof.
  intros [Hl Hi]. destruct sys_stripe_shards as (_ & Hsl & Hss).
  split; [split; [congruence|]|]; intros i Hlt; destruct (Hi i) as [Hil Hip];
    rewrite Hss in Hil, Hip by done; [|done].
  split; [lia|]. intros Hpr. by rewrite Hip.
Qed.

End sys.

(** C7: A stripe written by the systematic Mojette encoding survives the loss
    of any [m] shards: whatever the build, the toggles and the buffers of the
    lost shards hold, decoding succeeds and every data shard is as it was
    written; if only parity was lost, the whole stripe is. *)
Theorem mojette_sys_roundtrip k m enc cfg P data parity shards present :
  ec_mojette_sys_create k m = Some enc →
  length data = ec_k enc → data_wf (ec_k enc) P data →
  sized_bufs enc (ec_k enc) (ec_m enc) (8 * P) parity →
  let '(ret, par) := mojette_sys_encode cfg enc data parity (8 * P) in
  ret = 0%Z ∧
  (intact (data ++ par) shards present →
   (missing_shards present (ec_k enc + ec_m enc) <= ec_m enc)%nat →
   ∃ out, mojette_sys_decode cfg enc shards present (8 * P) = Some (0%Z, out) ∧
     (∀ i, (i < ec_k enc)%nat → rd [] out i = rd [] data i) ∧
     ((∀ i, (i < ec_k enc)%nat → rd false present i = true) → out = data ++ par)).
Proof.
  intros Hc Hdl Hd Hp.
  pose proof (sys_stripe_shards k m enc cfg P data parity Hc Hdl Hp) as (Hret & Hsl & Hss).
  pose proof (sys_survives k m enc cfg P data parity shards present Hc Hdl Hp) as Hsurv.
  destruct (sys_enc_ok k m enc Hc) as [He _].
  destruct (mojette_sys_encode cfg enc data parity (8 * P)) as [ret par] eqn:E.
  cbn [fst snd] in *. split; [done|]. intros Hint Hm.
  destruct (Hsurv Hint) as [Hs Hlen]. clear Hsurv.
  assert (Hdata : ∀ i, (i < ec_k enc)%nat → sys_shard enc P data i = rd [] data i).
  { intros i Hi. unfold sys_shard. by destruct (Nat.ltb_spec i (ec_k enc)); [|lia]. }
  destruct (decide (absent_rows present (ec_k enc) = [])) as [Hnone|Hsome].
  - destruct (sys_decode_data_there cfg enc P data shards present He Hd Hs Hm Hnone)
      as (out & Hdec & Hol & Ho). exists out. split; [done|].
    assert (Heq : ∀ i, (i < ec_k enc + ec_m enc)%nat → rd [] out i = sys_shard enc P data i).
    { intros i Hi. destruct (Ho i Hi) as [Hpre Hil]. apply prefix_same_length; [done|].
      rewrite Hil. by apply Hlen. }
    split; [intros i Hi; rewrite Heq by lia; by apply Hdata|]. intros _.
    apply (rd_ext []); [rewrite Hol, (proj1 Hs); lia|]. intros i Hi.
    rewrite Hol, (proj1 Hs) in Hi. by rewrite Heq, Hss.
  - destruct (sys_decode_data cfg enc P data shards present He Hd Hs Hm Hsome)
      as (out & Hdec & Hol & Ho & _).
    exists out. split; [done|]. split.
    + intros i Hi. destruct (Ho i Hi) as [Hpre Hil]. apply prefix_same_length; [done|].
      rewrite Hil, Hlen by lia. by rewrite Hdata.
    + intros Hpres. exfalso. apply Hsome.
      destruct (absent_rows present (ec_k enc)) as [|r l] eqn:Ea; [done|].
      assert (Hin : r ∈ absent_rows present (ec_k enc)) by (rewrite Ea; by constructor).
      apply elem_of_absent in Hin as [Hr Hf]. by rewrite Hpres in Hf.
Qed.

Lemma w_data_wf : data_wf 2 2 w_data.
Proof. intros [|[|r]] H; [reflexivity|reflexivity|lia]. Qed.

Lemma w_sized : sized_bufs (w_enc true) 2 2 16 w_parity.
Proof. split; [reflexivity|]. intros [|[|i]] H; [reflexivity|reflexivity|lia]. Qed.

Lemma w_intact : intact (w_data ++ w_par) w_shards w_present.
Proof.
  split; [vm_compute; reflexivity|].
  intros [|[|[|[|i]]]]; (split; [vm_compute; reflexivity|]); try discriminate;
    intros _; vm_compute; reflexivity.
Qed.

Lemma mojette_sys_roundtrip_witness :
  ∃ out, mojette_sys_decode w_cfg (w_enc true) w_shards w_present 16 = Some (0%Z, out) ∧
    rd [] out 0 = rd [] w_data 0.
Proof.
  pose proof (mojette_sys_roundtrip 2 2 (w_enc true) w_cfg 2 w_data w_parity w_shards w_present
    eq_refl eq_refl w_data_wf w_sized) as H.
  change (8 * 2)%nat with 16%nat in H.
  assert (E : snd (mojette_sys_encode w_cfg (w_enc true) w_data w_parity 16) = w_par) by reflexivity.
  destruct (mojette_sys_encode w_cfg (w_enc true) w_data w_parity 16) as [ret par].
  cbn [snd] in E. subst par. destruct H as [_ H].
  destruct (H w_intact) as (out & Hd & Ho & _); [vm_compute; lia|].
  exists out. split; [exact Hd|]. apply Ho. cbn. lia.
Defined.

(** When a data shard is missing, a systematic decode that succeeds writes
    no parity shard: a lost one is left as its buffer was, although the
    interface promises every missing shard back and the repair writes it out. *)
Theorem mojette_sys_parity_not_rebuilt k m enc cfg P data parity shards present r :
  ec_mojette_sys_create k m = Some enc →
  length data = ec_k enc → data_wf (ec_k enc) P data →
  sized_bufs enc (ec_k enc) (ec_m enc) (8 * P) parity →
  intact (data ++ snd (mojette_sys_encode cfg enc data parity (8 * P))) shards present →
  (missing_shards present (ec_k enc + ec_m enc) <= ec_m enc)%nat →
  (r < ec_k enc)%nat → rd false present r = false →
  ∃ out, mojette_sys_decode cfg enc shards present (8 * P) = Some (0%Z, out) ∧
    ∀ i, (ec_k enc <= i)%nat → rd [] out i = rd [] shards i.
Proof.
  intros Hc Hdl Hd Hp Hint Hm Hr Hf.
  destruct (sys_survives k m enc cfg P data parity shards present Hc Hdl Hp Hint) as [Hs _].
  destruct (sys_enc_ok k m enc Hc) as [He _].
  destruct (sys_decode_data cfg enc P data shards present He Hd Hs Hm) as (out & Hdec & _ & _ & Ho).
  { intros Hnone. assert (Hin : r ∈ absent_rows present (ec_k enc)) by (by apply elem_of_absent).
    rewrite Hnone in Hin. by apply not_elem_of_nil in Hin. }
  by exists out.
Qed.

Lemma mojette_sys_parity_not_rebuilt_witness :
  ∃ out, mojette_sys_decode w_cfg (w_enc true) w_shards w_present 16 = Some (0%Z, out) ∧
    rd [] out 2 = replicate 24 xee ∧ rd [] w_par 0 ≠ replicate 24 xee.
Proof.
  destruct (mojette_sys_parity_not_rebuilt 2 2 (w_enc true) w_cfg 2 w_data w_parity w_shards
    w_present 0 eq_refl eq_refl w_data_wf w_sized w_intact) as (out & Hd & Ho);
    [vm_compute; lia|cbn; lia|reflexivity|].
  exists out. split; [exact Hd|]. split; [apply (Ho 2%nat); cbn; lia|]. vm_compute. discriminate.
Defined.

(** ** Non-systematic stripes *)

(** The data proper of buffers that are larger than it. *)
Definition head (P : nat) (data : list (list byte)) : list (list byte) := map (take (8 * P)) data.

Lemma rd_head P data r : rd [] (head P data) r = take (8 * P) (rd [] data r).
Proof.
  destruct (Nat.lt_ge_cases r (length data)).
  - unfold head. by rewrite (rd_map []).
  - unfold head. rewrite !rd_ge by (rewrite ?length_map; lia). by rewrite take_nil.
Qed.

Lemma data_px_head data P r c :
  (8 * P <= length (rd [] data r))%nat → data_px (head P data) P r c = data_px data P r c.
Proof.
  intros Hl. unfold data_px. f_equal. symmetry. apply u64s_prefix; rewrite rd_head.
  - exists (drop (8 * P) (rd [] data r)). by rewrite take_drop.
  - rewrite length_take. lia.
Qed.

(** C23: From any [k] shards of a non-systematic Mojette stripe decoding
    returns the original data rows, in the first [k] buffers; the other
    buffers are not written. *)
Theorem mojette_nonsys_roundtrip k m enc cfg junk P data parity shards present :
  ec_mojette_nonsys_create k m = Some enc →
  sized_bufs enc 0 (ec_k enc) (8 * P) data →
  sized_bufs enc (ec_k enc) (ec_m enc) (8 * P) parity →
  let '(ret, da, par) := mojette_nonsys_encode cfg enc junk data parity (8 * P) in
  ret = 0%Z ∧
  (intact (da ++ par) shards present →
   (missing_shards present (ec_k enc + ec_m enc) <= ec_m enc)%nat →
   ∃ out, mojette_nonsys_decode cfg enc shards present (8 * P) = Some (0%Z, out) ∧
     (∀ i, (i < ec_k enc)%nat → take (8 * P) (rd [] out i) = take (8 * P) (rd [] data i)) ∧
     (∀ i, (ec_k enc <= i)%nat → rd [] out i = rd [] shards i)).
Proof.
  intros Hc Hd Hp. destruct (mojette_create_ok k m false enc Hc) as (He & _ & _ & Hsys).
  assert (Hdf : bufs_fit enc P 0 (ec_k enc) data)
    by (apply sized_bufs_fit; [done|lia|congruence|done]).
  assert (Hpf : bufs_fit enc P (ec_k enc) (ec_m enc) parity)
    by (apply sized_bufs_fit; [done|lia|congruence|done]).
  destruct (nonsys_encode_spec cfg enc junk data parity P (proj1 He) Hdf Hpf)
    as (da & par & -> & Hdal & Hpal & Hst). split; [done|]. intros Hint Hm.
  assert (Hroom : ∀ i, (i < ec_k enc + ec_m enc)%nat →
    (8 * P <= length (nonsys_shard enc P data i))%nat).
  { intros i Hi. unfold nonsys_shard. rewrite length_proj_shard.
    destruct (enc_dir enc i He Hi) as [Hq _]. pose proof (nbins_lower enc P i (proj1 He) Hq). lia. }
  assert (Hdata : ∀ r, (r < ec_k enc)%nat → (8 * P <= length (rd [] data r))%nat).
  { intros r Hr. destruct (Hst r ltac:(lia)) as [[rest Hpre] Hl].
    rewrite Hpre, length_app, rd_app, (proj1 Hdf), decide_True in Hl by done.
    specialize (Hroom r ltac:(lia)). lia. }
  assert (Hshard : ∀ i, nonsys_shard enc P (head P data) i = nonsys_shard enc P data i).
  { intros i. apply proj_shard_ext. intros r c Hr _. apply data_px_head. by apply Hdata. }
  assert (Hsv : survives (ec_k enc + ec_m enc) (nonsys_shard enc P (head P data)) shards present).
  { destruct Hint as [Hl Hi]. split; [rewrite Hl, length_app; lia|]. intros i Hlt.
    destruct (Hst i Hlt) as [[rest Hpre] Hsl], (Hi i) as [Hil Hip]. rewrite Hshard. split.
    - rewrite Hil, Hpre, length_app. lia.
    - intros Hpr. rewrite Hip by done. by exists rest. }
  destruct (nonsys_decode_spec cfg enc P (head P data) shards present He) as
    (out & Hdec & _ & Ho & Hrest); [| |done|done|].
  - intros r Hr. rewrite rd_head, length_take. specialize (Hdata r Hr). lia.
  - intros i Hi. destruct Hsv as [_ Hsv]. destruct (Hsv i ltac:(lia)) as [Hl _].
    rewrite Hshard in Hl. specialize (Hroom i ltac:(lia)). lia.
  - exists out. split; [done|]. split; [|done]. intros i Hi. rewrite Ho, rd_head by done.
    specialize (Hdata i Hi). unfold splice. rewrite take_0. cbn [app].
    rewrite take_app_le by (rewrite length_take; lia). rewrite take_take. f_equal. lia.
Qed.

Lemma w_nonsys_sized :
  sized_bufs (w_enc false) 0 2 16 w_bufs ∧ sized_bufs (w_enc false) 2 2 16 w_parity.
Proof.
  split; (split; [reflexivity|]); intros [|[|i]] H; (reflexivity || lia).
Qed.

Lemma mojette_nonsys_roundtrip_witness :
  ∃ out, mojette_nonsys_decode w_cfg (w_enc false) w_nonsys_shards w_present 16 = Some (0%Z, out) ∧
    take 16 (rd [] out 0) = rd [] w_data 0.
Proof.
  pose proof (mojette_nonsys_roundtrip 2 2 (w_enc false) w_cfg [] 2 w_bufs w_parity
    w_nonsys_shards w_present eq_refl (proj1 w_nonsys_sized) (proj2 w_nonsys_sized)) as H.
  change (8 * 2)%nat with 16%nat in H.
  assert (E : (let '(_, da, par) := mojette_nonsys_encode w_cfg (w_enc false) [] w_bufs w_parity 16
    in da ++ par) = w_nonsys) by reflexivity.
  destruct (mojette_nonsys_encode w_cfg (w_enc false) [] w_bufs w_parity 16) as [[ret da] par].
  rewrite E in H. destruct H as [_ H].
  assert (Hi : intact w_nonsys w_nonsys_shards w_present).
  { split; [vm_compute; reflexivity|].
    intros [|[|[|[|i]]]]; (split; [vm_compute; reflexivity|]); try discriminate;
      intros _; vm_compute; reflexivity. }
  destruct (H Hi) as (out & Hd & Ho & _); [vm_compute; lia|].
  exists out. split; [exact Hd|]. rewrite (Ho 0%nat) by (cbn; lia). reflexivity.
Defined.

(** A decoded non-systematic stripe no longer holds the shards that were lost:
    the buffer of shard 0 starts with data, not with its projection. *)
Theorem mojette_nonsys_shard_replaced :
  ∃ out, mojette_nonsys_decode w_cfg (w_enc false) w_nonsys_shards w_present 16 = Some (0%Z, out) ∧
    rd [] out 0 ≠ rd [] w_nonsys 0 ∧ rd [] out 2 ≠ rd [] w_nonsys 2.
Proof.
  eexists. split; [vm_compute; reflexivity|]. split; vm_compute; discriminate.
Qed.

(** ** The transform *)

Lemma forward_spec arch scalar grid P Q dirs n projs :
  (0 < Q)%nat → length grid = (P * Q)%nat → (n <= length projs)%nat →
  (∀ i, (i < n)%nat → proj_sized P Q (dir dirs i) (proj projs i)) →
  let out := moj_forward arch scalar grid P Q dirs n projs in
  length out = length projs ∧
  (∀ i, (i < n)%nat → holds_projection (grid_px grid P) P Q (dir dirs i) (proj out i)) ∧
  (∀ i, (n <= i)%nat → proj out i = proj projs i).
Proof.
  intros HQ Hl Hn Hs.
  destruct (forward_impl_spec arch scalar (grid_rows grid P Q) P Q dirs n projs)
    as (H1 & H2 & H3); [done|by apply grid_rows_wf|done|done|].
  split; [done|]. split; [|done]. intros i Hi. eapply holds_projection_ext; [|by apply H2].
  intros r c Hr _. by apply grid_rows_px.
Qed.

(** A grid of two rows of three words, and projections of it. *)
Definition w_grid : list Z := [11; 22; 33; 44; 55; 66]%Z.
Definition w_dirs : list moj_direction := [mk_dir 2 1; mk_dir (-1) 1].
Definition w_empty : list moj_projection :=
  [mk_proj (replicate 5 7%Z) 5; mk_proj (replicate 4 9%Z) 4].
Definition w_projs : list moj_projection := moj_forward SSE2 false w_grid 3 2 w_dirs 2 w_empty.

Lemma w_empty_sized i : (i < 2)%nat → proj_sized 3 2 (dir w_dirs i) (proj w_empty i).
Proof. intros H. destruct i as [|[|i]]; [split; reflexivity|split; reflexivity|lia]. Qed.

Lemma w_holds : holds_all (grid_px w_grid 3) 3 2 w_dirs 2 w_projs.
Proof.
  destruct (forward_spec SSE2 false w_grid 3 2 w_dirs 2 w_empty) as (Hl & Hh & _);
    [lia|reflexivity|cbn; lia|apply w_empty_sized|]. split; [|exact Hh].
  unfold w_projs. rewrite Hl. cbn. lia.
Qed.

Lemma w_unit : unit_dirs w_dirs 2.
Proof.
  split.
  - intros [|[|i]] H; [reflexivity|reflexivity|lia].
  - intros [|[|i]] [|[|j]] H; try lia. discriminate.
Qed.

(** C24: The forward transform, scalar or with any of the SIMD kernels and
    whatever the bins held, writes in every bin the XOR of the pixels on its
    line and nothing outside the [n] projections. *)
Theorem moj_forward_exact arch scalar grid P Q dirs n projs :
  (0 < Q)%nat → length grid = (P * Q)%nat → (n <= length projs)%nat →
  (∀ i, (i < n)%nat → proj_sized P Q (dir dirs i) (proj projs i)) →
  let out := moj_forward arch scalar grid P Q dirs n projs in
  length out = length projs ∧
  (∀ i, (i < n)%nat → holds_projection (grid_px grid P) P Q (dir dirs i) (proj out i)) ∧
  (∀ i, (n <= i)%nat → proj out i = proj projs i) ∧
  (∀ arch' scalar', moj_forward arch' scalar' grid P Q dirs n projs = out).
Proof.
  intros HQ Hl Hn Hs.
  pose proof (λ a s, forward_spec a s grid P Q dirs n projs HQ Hl Hn Hs) as H.
  destruct (H arch scalar) as (H1 & H2 & H3). split; [done|]. split; [done|]. split; [done|].
  intros a s. destruct (H a s) as (H1' & H2' & H3'). apply (rd_ext no_proj); [congruence|].
  intros i Hi. destruct (Nat.lt_ge_cases i n).
  - eapply holds_projection_bins; [by apply H2'|by apply H2].
  - etrans; [by apply H3'|]. symmetry. by apply H3.
Qed.

Lemma moj_forward_exact_witness :
  moj_forward SSE2 false w_grid 3 2 w_dirs 2 w_empty
  = moj_forward NoSimd true w_grid 3 2 w_dirs 2 w_empty.
Proof.
  symmetry.
  apply (moj_forward_exact SSE2 false w_grid 3 2 w_dirs 2 w_empty);
    [lia|reflexivity|cbn; lia|apply w_empty_sized].
Defined.

(** C22: Peeling from the projections along primitive, pairwise non-parallel
    directions that pass the Katz test restores the grid, whatever the grid
    buffer held. *)
Theorem moj_peel_katz g P Q dirs n projs grid :
  dirs_ok dirs n → moj_katz_check dirs n P Q = true → holds_all g P Q dirs n projs →
  length grid = (P * Q)%nat → restored g P Q (moj_inverse_peel grid P Q dirs n projs).
Proof.
  intros Hd Hk Hh Hl. apply inverse_peel_complete; [done..|]. by apply katz_no_stall.
Qed.

Lemma moj_peel_katz_witness :
  restored (grid_px w_grid 3) 3 2 (moj_inverse_peel (replicate 6 99%Z) 3 2 w_dirs 2 w_projs).
Proof.
  apply (moj_peel_katz (grid_px w_grid 3) 3 2 w_dirs 2 w_projs (replicate 6 99%Z));
    [exact (unit_dirs_ok w_dirs 2 w_unit)|reflexivity|exact w_holds|reflexivity].
Defined.

(** The peeling loops return on every input, whatever the directions and
    the bins; from true projections the answer is 0 or [-EIO], and 0 only with
    the original grid. *)
Theorem moj_peel_returns grid P Q dirs n projs :
  (∃ ret grid' projs', moj_inverse_peel grid P Q dirs n projs = Some (ret, grid', projs') ∧
     ∀ g, holds_all g P Q dirs n projs → length grid = (P * Q)%nat →
       (ret = 0 ∨ ret = - EIO)%Z ∧
       (ret = 0%Z → ∀ r c, (r < Q)%nat → (c < P)%nat → grid_px grid' P r c = g r c)) ∧
  (∀ missing n_missing,
     ∃ ret grid' projs', moj_inverse_peel_sparse grid P Q dirs n projs missing n_missing
       = Some (ret, grid', projs')).
Proof.
  split.
  - destruct (inverse_peel_total grid P Q dirs n projs) as [[[ret grid'] projs'] E].
    exists ret, grid', projs'. split; [done|]. intros g Hh Hl.
    destruct (inverse_peel_sound g P Q dirs n projs grid ret grid' projs' Hh Hl E) as (? & _ & ?).
    done.
  - intros missing n_missing.
    destruct (inverse_peel_sparse_total grid P Q dirs n projs missing n_missing)
      as [[[ret grid'] projs'] E]. by exists ret, grid', projs'.
Qed.

Lemma moj_peel_returns_witness :
  ∃ ret grid' projs',
    moj_inverse_peel (replicate 6 99%Z) 3 2 w_dirs 2 w_projs = Some (ret, grid', projs') ∧
    (ret = 0%Z → grid_px grid' 3 1 2 = 66%Z).
Proof.
  destruct (moj_peel_returns (replicate 6 99%Z) 3 2 w_dirs 2 w_projs) as [(ret & g' & p' & E & H) _].
  exists ret, g', p'. split; [exact E|]. intros Hr.
  destruct (H _ w_holds eq_refl) as [_ Hg]. rewrite Hg by (exact Hr || lia). reflexivity.
Defined.

(** With as many projections of slope [q = 1] and distinct [p] as there are
    missing rows, the geometry-driven sweep and corner peeling restore the same
    grid, the original one, from the known rows, for any distinct missing rows. *)
Theorem moj_inverse_gd_peel gd g P Q dirs n projs missing n_missing grid :
  unit_dirs dirs n → (n_missing <= n)%nat → holds_all g P Q dirs n projs →
  missing_ok Q missing n_missing → known_match g P Q missing n_missing grid →
  restored g P Q (moj_inverse_sparse gd grid P Q dirs n projs missing n_missing).
Proof. apply moj_inverse_sparse_restores. Qed.

Lemma moj_inverse_gd_peel_witness :
  restored (grid_px w_grid 3) 3 2
    (moj_inverse_sparse true (replicate 6 0%Z) 3 2 w_dirs 2 w_projs [0; 1]%Z 2) ∧
  restored (grid_px w_grid 3) 3 2
    (moj_inverse_sparse false (replicate 6 0%Z) 3 2 w_dirs 2 w_projs [0; 1]%Z 2).
Proof.
  assert (Hm : missing_ok 2 [0; 1]%Z 2).
  { split; [lia|]. split.
    - intros [|[|i]] Hi; unfold rd; cbn; lia.
    - intros [|[|i]] [|[|j]] Hij; unfold rd; cbn; lia. }
  assert (Hk : known_match (grid_px w_grid 3) 3 2 [0; 1]%Z 2 (replicate 6 0%Z)).
  { split; [reflexivity|]. intros [|[|r]] c Hr Hc Hf; [discriminate|discriminate|lia]. }
  split; apply moj_inverse_gd_peel; (exact w_unit || exact w_holds || exact Hm || exact Hk || lia).
Defined.

(** Every projection shard is at least as long as a data shard and at most
    15872 bytes longer, for every geometry [mojette_create] accepts. *)
Theorem mojette_shard_size_bounds k m sys enc i L :
  mojette_create k m sys = Some enc → (i < ec_k enc + ec_m enc)%nat → (L `mod` 8 = 0)%nat →
  (Z.of_nat L <= mojette_shard_size enc i L <= Z.of_nat L + 15872)%Z.
Proof.
  intros Hc Hi HL. destruct (mojette_create_ok k m sys enc Hc) as (He & Hk & Hm & Hsys).
  assert (Hw : (ec_k enc + ec_m enc <= 64)%nat).
  { revert Hc. unfold mojette_create, MOJ_MAX_STRIPE_WIDTH. do 2 (case_if; [done|]).
    intros _. bool_prop. lia. }
  pose proof (Nat.div_mod_eq L 8) as HL8. unfold mojette_shard_size, grid_P. case_if; [lia|].
  destruct (enc_dir enc i He Hi) as [Hq Hp].
  pose proof (nbins_lower enc (L / 8) i (proj1 He) Hq) as Hlow.
  split; [lia|]. unfold dir_nbins, moj_projection_size. rewrite Hq. change (1 <? 0)%Z with false.
  assert (Hp32 : (Z.abs (md_p (dir (mcp_dirs enc) i)) <= 32)%Z).
  { etrans; [exact Hp|]. apply Z.lt_succ_r, Z.div_lt_upper_bound; lia. }
  destruct He as (Hk0 & Hm0 & _). case_if; bool_prop; nia.
Qed.

Lemma mojette_shard_size_bounds_witness :
  (16 <= mojette_shard_size (w_enc true) 3 16 <= 16 + 15872)%Z.
Proof. apply (mojette_shard_size_bounds 2 2 true (w_enc true) 3 16); [reflexivity|cbn; lia|reflexivity]. Defined.

(** The Katz test counts a direction twice if it is given twice. *)
Theorem moj_katz_duplicate :
  let d := mk_dir 1 1 in
  moj_katz_check [d; d] 2 2 2 = true ∧
  ∃ g g' : list Z, g ≠ g' ∧ length g = 4%nat ∧ length g' = 4%nat ∧
    ∀ b, projection (grid_px g 2) 2 2 1 1 b = projection (grid_px g' 2) 2 2 1 1 b.
Proof.
  split; [done|]. exists [0; 1; 1; 0]%Z, [0; 0; 0; 0]%Z. split; [done|]. split; [done|].
  split; [done|]. intros b. unfold projection. cbn [pixels flat_map seq map app].
  rewrite !msum_cons. cbn [fst snd msum foldr].
  change (grid_px [0; 1; 1; 0]%Z 2 0 0) with 0%Z. change (grid_px [0; 1; 1; 0]%Z 2 0 1) with 1%Z.
  change (grid_px [0; 1; 1; 0]%Z 2 1 0) with 1%Z. change (grid_px [0; 1; 1; 0]%Z 2 1 1) with 0%Z.
  change (grid_px [0; 0; 0; 0]%Z 2 0 0) with 0%Z. change (grid_px [0; 0; 0; 0]%Z 2 0 1) with 0%Z.
  change (grid_px [0; 0; 0; 0]%Z 2 1 0) with 0%Z. change (grid_px [0; 0; 0; 0]%Z 2 1 1) with 0%Z.
  change (bin_index 1 1 (moj_bin_offset 1 1 2 2) 0 1) with 1%Z.
  change (bin_index 1 1 (moj_bin_offset 1 1 2 2) 1 0) with 1%Z.
  by repeat case_if.
Qed.

End MojetteTheorems.
