(* ===== verification/Handler.v ===== *)
(** * Operation handlers: state, early exits and weakest preconditions

    An NFS operation handler reads and changes the server, and leaves early with
    a status.  It is a function from the state to what it answers and the state
    it leaves; [wp] reasons about it one statement at a time. *)

From S2P Require Import Prelude.

Module Handler.

(** [inl e] is an early exit, [inr a] the value of a statement. *)
Definition M (S E A : Type) : Type := S → (E + A) * S.

#[export] Instance m_ret {S E} : MRet (M S E) := λ A a s, (inr a, s).
#[export] Instance m_bind {S E} : MBind (M S E) := λ A B f m s,
  match m s with
  | (inl e, s) => (inl e, s)
  | (inr a, s) => f a s
  end.

Definition throw {S E A} (e : E) : M S E A := λ s, (inl e, s).
Definition gets {S E A} (f : S → A) : M S E A := λ s, (inr (f s), s).
Definition modify {S E} (f : S → S) : M S E () := λ s, (inr tt, f s).

(** [if (b) { *status = e; return 0; }] *)
Definition reject {S E} (b : bool) (e : E) : M S E () := if b then throw e else mret tt.

Definition when {S E} (b : bool) (m : M S E ()) : M S E () := if b then m else mret tt.

(** [for (i = lo; i < lo + n; i++) a = body(i, a)], which the body can leave. *)
Fixpoint mfor {S E A} (lo n : nat) (body : nat → A → M S E A) (a : A) : M S E A :=
  match n with
  | O => mret a
  | Datatypes.S n => a ← body lo a; mfor (Datatypes.S lo) n body a
  end.

(** ** Weakest preconditions *)

Section Wp.

Context {S E : Type}.

Definition wp {A} (m : M S E A) (Q : E + A → S → Prop) (s : S) : Prop :=
  Q (fst (m s)) (snd (m s)).

(** What is left to do after a statement of the value [a]. *)
Definition andthen {A B} (f : A → M S E B) (Q : E + B → S → Prop) : E + A → S → Prop :=
  λ r s, match r with inl e => Q (inl e) s | inr a => wp (f a) Q s end.

Lemma wp_ret {A} (a : A) Q s : Q (inr a) s → wp (mret a) Q s.
Proof. done. Qed.

Lemma wp_throw {A} (e : E) (Q : E + A → S → Prop) s : Q (inl e) s → wp (throw e) Q s.
Proof. done. Qed.

Lemma wp_gets {A} (f : S → A) Q s : Q (inr (f s)) s → wp (gets f) Q s.
Proof. done. Qed.

Lemma wp_modify (f : S → S) Q s : Q (inr tt) (f s) → wp (modify f) Q s.
Proof. done. Qed.

Lemma wp_bind {A B} (m : M S E A) (f : A → M S E B) Q s :
  wp m (andthen f Q) s → wp (m ≫= f) Q s.
Proof.
  unfold wp, andthen, mbind, m_bind. destruct (m s) as [[e|a] s']; done.
Qed.

Lemma wp_bind_inv {A B} (m : M S E A) (f : A → M S E B) Q s :
  wp (m ≫= f) Q s → wp m (andthen f Q) s.
Proof.
  unfold wp, andthen, mbind, m_bind. destruct (m s) as [[e|a] s']; done.
Qed.

Lemma wp_reject b (e : E) Q s :
  (b = true → Q (inl e) s) → (b = false → Q (inr tt) s) → wp (reject b e) Q s.
Proof. intros H1 H2. destruct b; [by apply H1|by apply H2]. Qed.

Lemma wp_when b (m : M S E ()) Q s :
  (b = true → wp m Q s) → (b = false → Q (inr tt) s) → wp (when b m) Q s.
Proof. intros H1 H2. destruct b; [by apply H1|by apply H2]. Qed.

Lemma wp_mono {A} (m : M S E A) (Q Q' : E + A → S → Prop) s :
  (∀ r s', Q r s' → Q' r s') → wp m Q s → wp m Q' s.
Proof. intros H. apply H. Qed.

(** From the run of a handler to its precondition and back. *)
Lemma wp_run {A} (m : M S E A) (Q : E + A → S → Prop) s r s' :
  wp m Q s → m s = (r, s') → Q r s'.
Proof. unfold wp. intros H Hm. by rewrite Hm in H. Qed.

Lemma wp_of_run {A} (m : M S E A) (Q : E + A → S → Prop) s :
  (∀ r s', m s = (r, s') → Q r s') → wp m Q s.
Proof. intros H. apply H. by destruct (m s). Qed.

(** Loop rule: [I] holds before each turn, an early exit goes to [Q]. *)
Lemma wp_mfor {A} (I : nat → A → S → Prop) lo n (body : nat → A → M S E A) a Q s :
  I lo a s →
  (∀ i a s, (lo <= i < lo + n)%nat → I i a s →
     wp (body i a) (λ r s', match r with inl e => Q (inl e) s' | inr a' => I (Datatypes.S i) a' s' end) s) →
  (∀ a s, I (lo + n)%nat a s → Q (inr a) s) →
  wp (mfor lo n body a) Q s.
Proof.
  revert lo a s. induction n as [|n IH]; intros lo a s H0 Hstep Hend.
  - apply wp_ret, Hend. by rewrite Nat.add_0_r.
  - cbn [mfor]. apply wp_bind. eapply wp_mono; [|apply Hstep; [lia|done]].
    intros [e|a'] s' H'; [done|]. cbn. apply IH; [done| |].
    + intros i a'' s'' Hi HI. apply Hstep; [lia|done].
    + intros a'' s'' HI. apply Hend. by rewrite Nat.add_succ_r.
Qed.

(** ** Runs to the end *)

(** The handler reaches its end, with a value and a state as [Q] says. *)
Definition runs {A} (m : M S E A) (Q : A → S → Prop) (s : S) : Prop :=
  ∃ a s', m s = (inr a, s') ∧ Q a s'.

Lemma runs_ret {A} (a : A) (Q : A → S → Prop) s : Q a s → runs (mret a) Q s.
Proof. by exists a, s. Qed.

Lemma runs_gets {A} (f : S → A) (Q : A → S → Prop) s : Q (f s) s → runs (gets f) Q s.
Proof. by exists (f s), s. Qed.

Lemma runs_modify (f : S → S) (Q : () → S → Prop) s : Q tt (f s) → runs (modify f) Q s.
Proof. by exists tt, (f s). Qed.

Lemma runs_bind {A B} (m : M S E A) (f : A → M S E B) Q s :
  runs m (λ a, runs (f a) Q) s → runs (m ≫= f) Q s.
Proof.
  intros (a & s1 & Hm & b & s2 & Hf & HQ). exists b, s2. split; [|done].
  unfold mbind, m_bind. by rewrite Hm.
Qed.

Lemma runs_bind_inv {A B} (m : M S E A) (f : A → M S E B) Q s :
  runs (m ≫= f) Q s → runs m (λ a, runs (f a) Q) s.
Proof.
  intros (b & s2 & Hm & HQ). unfold mbind, m_bind in Hm.
  destruct (m s) as [[e|a] s1] eqn:E1; [done|]. exists a, s1. split; [done|]. by exists b, s2.
Qed.

Lemma runs_reject b (e : E) (Q : () → S → Prop) s : b = false → Q tt s → runs (reject b e) Q s.
Proof. intros ->. by exists tt, s. Qed.

Lemma runs_reject_inv b (e : E) (Q : () → S → Prop) s : runs (reject b e) Q s → b = false ∧ Q tt s.
Proof. destruct b; intros ([] & s' & [=] & HQ). by subst. Qed.

Lemma runs_mono {A} (m : M S E A) (Q Q' : A → S → Prop) s :
  (∀ a s', Q a s' → Q' a s') → runs m Q s → runs m Q' s.
Proof. intros H (a & s' & Hm & HQ). exists a, s'. split; [done|by apply H]. Qed.

(** What every run ensures, this one ensures. *)
Lemma runs_wp {A} (m : M S E A) (Q : A → S → Prop) R s :
  wp m R s → runs m Q s → runs m (λ a s', Q a s' ∧ R (inr a) s') s.
Proof.
  intros Hw (a & s' & Hm & HQ). exists a, s'. split; [done|]. split; [done|].
  exact (wp_run _ _ _ _ _ Hw Hm).
Qed.

(** A handler whose every answer is a success. *)
Lemma runs_of_wp {A} (m : M S E A) (Q : A → S → Prop) s :
  wp m (λ r s', ∃ a, r = inr a ∧ Q a s') s → runs m Q s.
Proof.
  unfold wp, runs. destruct (m s) as [r s']. cbn. intros (a & -> & HQ). by exists a, s'.
Qed.

(** A loop whose every turn comes to its end. *)
Lemma runs_mfor {A} (I : nat → A → S → Prop) lo n (body : nat → A → M S E A) a (Q : A → S → Prop) s :
  I lo a s →
  (∀ i a s, (lo <= i < lo + n)%nat → I i a s → runs (body i a) (I (Datatypes.S i)) s) →
  (∀ a s, I (lo + n)%nat a s → Q a s) →
  runs (mfor lo n body a) Q s.
Proof.
  revert lo a s. induction n as [|n IH]; intros lo a s H0 Hstep Hend.
  - apply runs_ret, Hend. by rewrite Nat.add_0_r.
  - cbn [mfor]. apply runs_bind. eapply runs_mono; [|apply Hstep; [lia|exact H0]].
    intros a' s' H'. apply IH; [done| |].
    + intros i a2 s2 Hi HI. apply Hstep; [lia|done].
    + intros a2 s2 HI. apply Hend. by rewrite Nat.add_succ_r.
Qed.

End Wp.

#[global] Arguments wp : simpl never.

(** One statement. *)
Ltac wp_step :=
  lazymatch goal with
  | |- wp (mbind _ _) _ _ => apply wp_bind
  | |- wp (mret _) _ _ => apply wp_ret
  | |- wp (throw _) _ _ => apply wp_throw
  | |- wp (gets _) _ _ => apply wp_gets
  | |- wp (modify _) _ _ => apply wp_modify
  | |- wp (reject _ _) _ _ => apply wp_reject; intros
  | |- wp (when _ _) _ _ => apply wp_when; intros
  | |- andthen _ _ _ _ => cbn [andthen]
  | |- wp (if ?b then _ else _) _ _ => destruct b eqn:?
  end.

(** One statement of a run; a condition that stops it is shown false by [tac]. *)
Ltac run_step tac :=
  lazymatch goal with
  | |- runs (mbind _ _) _ _ => apply runs_bind
  | |- runs (mret _) _ _ => apply runs_ret
  | |- runs (gets _) _ _ => apply runs_gets
  | |- runs (modify _) _ _ => apply runs_modify
  | |- runs (reject _ _) _ _ => apply runs_reject; [tac|]
  end; cbv beta.

(** The first statement of a run that is known to reach its end. *)
Ltac run_inv H :=
  apply runs_bind_inv in H;
  lazymatch type of H with
  | runs (reject _ _) _ _ => let Hb := fresh "Hb" in apply runs_reject_inv in H as [Hb H]
  | _ => idtac
  end.

End Handler.
