(* ===== verification/Nfs4.v ===== *)
(** * Types of the NFSv4.2 operations of a data server

    The XDR types of [src/lib/xdr/nfsv42_xdr.x] that the CHUNK and TRUST_STATEID
    operations carry, and what their handlers read of the compound, the session
    and the server. *)

From S2P Require Import Prelude.
From stdpp Require Import strings.

Module Nfs4.

(** ** Status codes *)

Definition NFS4_OK : Z := 0.
Definition NFS4ERR_PERM : Z := 1.
Definition NFS4ERR_NOENT : Z := 2.
Definition NFS4ERR_IO : Z := 5.
Definition NFS4ERR_ACCESS : Z := 13.
Definition NFS4ERR_ISDIR : Z := 21.
Definition NFS4ERR_INVAL : Z := 22.
Definition NFS4ERR_NOSPC : Z := 28.
Definition NFS4ERR_BAD_COOKIE : Z := 10003.
Definition NFS4ERR_NOTSUPP : Z := 10004.
Definition NFS4ERR_SERVERFAULT : Z := 10006.
Definition NFS4ERR_DELAY : Z := 10008.
Definition NFS4ERR_NOFILEHANDLE : Z := 10020.
Definition NFS4ERR_BAD_STATEID : Z := 10025.
Definition NFS4ERR_SYMLINK : Z := 10029.
Definition NFS4ERR_WRONG_TYPE : Z := 10083.
Definition NFS4ERR_PAYLOAD_NOT_ATOMIC : Z := 10098.
Definition NFS4ERR_CHUNK_LOCKED : Z := 10099.
Definition NFS4ERR_NO_ADOPTABLE_LOCK : Z := 10104.
Definition NFS4ERR_STALE_ESCROW : Z := 10105.
Definition NFS4ERR_STALE_MDS_EPOCH : Z := 10106.

(** ** Stateids ([nfs4/stateid.h]) *)

Definition NFS4_OTHER_SIZE : nat := 12.
Definition NFS4_VERIFIER_SIZE : nat := 8.

Record stateid4 := mk_stateid { seqid : Z; other : list byte }.

Definition stateid4_other_is_zero (st : stateid4) : bool :=
  bool_decide (other st = replicate NFS4_OTHER_SIZE x00).
Definition stateid4_other_is_ones (st : stateid4) : bool :=
  bool_decide (other st = replicate NFS4_OTHER_SIZE xff).
Definition stateid4_is_anonymous (st : stateid4) : bool :=
  (seqid st =? 0)%Z && stateid4_other_is_zero st.
Definition stateid4_is_special (st : stateid4) : bool :=
  stateid4_other_is_zero st || stateid4_other_is_ones st.

(** ** Chunks *)

Definition CHUNK_GUARD_CLIENT_ID_NONE : Z := 0.
Definition CHUNK_GUARD_CLIENT_ID_MDS : Z := 0xFFFFFFFF.
Definition CHUNK_MAX_CHUNKS_PER_OP : Z := 4096.
Definition CHUNK_MAX_OWNERS_PER_OP : Z := 4096.
Definition CHUNK_STATE_FLAGS_LOCKED : Z := 1.
Definition CHUNK_LOCK_FLAGS_ADOPT : Z := 1.
Definition CHUNK_LOCK_FLAGS_TAKEOVER : Z := 2.
Definition CHUNK_ESCROW_ENUMERATE_MAX4 : Z := 256.
Definition LAYOUTIOMODE4_READ : Z := 1.
Definition LAYOUTIOMODE4_RW : Z := 2.
Definition UNSTABLE4 : Z := 0.
Definition FILE_SYNC4 : Z := 2.
Definition EXCHGID4_FLAG_USE_PNFS_MDS : Z := 0x00020000.
Definition FFV2_DS_FLAGS_REPAIR : Z := 8.

Record chunk_guard4 := mk_guard { cg_gen_id : Z; cg_client_id : Z }.
Record chunk_owner4 := mk_owner { co_cohort_id : Z; co_client_id : Z; co_id : Z }.

Definition CHECKSUM_ALG_NONE : Z := 0.
Definition CHECKSUM_ALG_CRC32 : Z := 1.
Definition CHECKSUM_ALG_CRC32C : Z := 2.
Definition CHECKSUM_ALG_FLETCHER4 : Z := 3.
Definition CHECKSUM_ALG_SHA256 : Z := 4.
Definition CHECKSUM_ALG_SHA512 : Z := 5.
Definition CHECKSUM_ALG_BLAKE3 : Z := 6.

Record checksum4 := mk_checksum { cs_algorithm : Z; cs_value : list byte }.

Record CHUNK_WRITE4args := mk_write_args {
  cwa_stateid : stateid4;
  cwa_offset : Z;
  cwa_stable : Z;
  cwa_cohort_id : Z;
  cwa_client_id : Z;
  cwa_co_ids : list Z;
  cwa_payload_id : Z;
  cwa_flags : Z;
  cwa_guard : option chunk_guard4;
  cwa_chunk_size : Z;
  cwa_checksums : list checksum4;
  cwa_chunks : list byte;
}.

Record CHUNK_WRITE4resok := mk_write_res {
  cwr_count : Z;
  cwr_committed : Z;
  cwr_writeverf : list byte;
  cwr_block_status : list Z;
  cwr_block_activated : list bool;
  cwr_owners : list chunk_owner4;
}.

Record CHUNK_WRITE_REPAIR4args := mk_repair_args {
  cwra_stateid : stateid4;
  cwra_offset : Z;
  cwra_stable : Z;
  cwra_cohort_id : Z;
  cwra_client_id : Z;
  cwra_co_ids : list Z;
  cwra_payload_id : Z;
  cwra_chunk_size : Z;
  cwra_checksums : list checksum4;
  cwra_chunks : list byte;
}.

Record CHUNK_WRITE_REPAIR4resok := mk_repair_res {
  cwrr_count : Z;
  cwrr_committed : Z;
  cwrr_writeverf : list byte;
  cwrr_status : list Z;
}.

Record CHUNK_READ4args := mk_read_args {
  cra_stateid : stateid4;
  cra_offset : Z;
  cra_count : Z;
}.

Record read_chunk4 := mk_read_chunk {
  cr_checksum : checksum4;
  cr_effective_len : Z;
  cr_owner : chunk_owner4;
  cr_guard : chunk_guard4;
  cr_payload_id : Z;
  cr_locked : Z;
  cr_status : Z;
  cr_chunk : list byte;
}.

Record CHUNK_READ4resok := mk_read_res { crr_eof : bool; crr_chunks : list read_chunk4 }.

Record CHUNK_FINALIZE4args := mk_finalize_args {
  cfa_stateid : stateid4;
  cfa_offset : Z;
  cfa_count : Z;
  cfa_chunks : list chunk_owner4;
}.

Record CHUNK_FINALIZE4resok := mk_finalize_res { cfr_writeverf : list byte; cfr_status : list Z }.

Record CHUNK_COMMIT4args := mk_commit_args {
  cca_stateid : stateid4;
  cca_offset : Z;
  cca_count : Z;
  cca_chunks : list chunk_owner4;
}.

Record CHUNK_COMMIT4resok := mk_commit_res { ccr_writeverf : list byte; ccr_status : list Z }.

Record CHUNK_ROLLBACK4args := mk_rollback_args {
  crb_stateid : stateid4;
  crb_offset : Z;
  crb_count : Z;
  crb_chunks : list chunk_owner4;
}.

Record CHUNK_ROLLBACK4resok := mk_rollback_res { crr_writeverf : list byte }.

Record CHUNK_ERROR4args := mk_error_args {
  cea_stateid : stateid4;
  cea_offset : Z;
  cea_count : Z;
  cea_error : Z;
  cea_owner : chunk_owner4;
}.

Record CHUNK_REPAIRED4args := mk_repaired_args {
  cpa_stateid : stateid4;
  cpa_offset : Z;
  cpa_count : Z;
  cpa_owner : chunk_owner4;
}.

(** [cla_adopt] is the escrow identity when its discriminant is true. *)
Record CHUNK_LOCK4args := mk_lock_args {
  cla_stateid : stateid4;
  cla_offset : Z;
  cla_count : Z;
  cla_flags : Z;
  cla_owner : chunk_owner4;
  cla_adopt : option (list byte);
}.

Record CHUNK_UNLOCK4args := mk_unlock_args {
  cua_stateid : stateid4;
  cua_offset : Z;
  cua_count : Z;
  cua_owner : chunk_owner4;
}.

Record CHUNK_ESCROW_INSTALL4args := mk_install_args {
  ceia_mds_epoch : Z;
  ceia_offset : Z;
  ceia_count : Z;
  ceia_escrow_id : list byte;
}.

Record CHUNK_ESCROW_RELEASE4args := mk_release_args {
  cera_mds_epoch : Z;
  cera_offset : Z;
  cera_count : Z;
  cera_escrow_id : list byte;
}.

Record CHUNK_ESCROW_ENUMERATE4args := mk_enumerate_args {
  ceea_mds_epoch : Z;
  ceea_offset : Z;
  ceea_count : Z;
  ceea_maxcount : Z;
  ceea_cookie : list byte;
}.

Record escrow_enum_entry4 := mk_enum_entry {
  eee_offset : Z;
  eee_count : Z;
  eee_escrow_id : list byte;
}.

Record CHUNK_ESCROW_ENUMERATE4resok := mk_enumerate_res {
  ceer_eof : bool;
  ceer_cookie : list byte;
  ceer_entries : list escrow_enum_entry4;
}.

(** ** The trust table's operations *)

Record nfstime4 := mk_time { seconds : Z; nseconds : Z }.

(** The bytes of [tsa_principal] as the XDR decoder left them. *)
Record TRUST_STATEID4args := mk_trust_args {
  tsa_layout_stateid : stateid4;
  tsa_pnfs_clientid : Z;
  tsa_client_id : Z;
  tsa_iomode : Z;
  tsa_expire : nfstime4;
  tsa_principal : list byte;
}.

Record REVOKE_STATEID4args := mk_revoke_args { rsa_layout_stateid : stateid4 }.
Record BULK_REVOKE_STATEID4args := mk_bulk_args { brsa_clientid : Z }.

(** ** The compound *)

Record network_file_handle := mk_nfh {
  nfh_vers : Z;
  nfh_reserved_1 : Z;
  nfh_reserved_2 : Z;
  nfh_reserved_3 : Z;
  nfh_sb : Z;
  nfh_ino : Z;
}.

Definition network_file_handle_empty (nfh : network_file_handle) : bool :=
  (nfh_sb nfh =? 0)%Z && (nfh_ino nfh =? 0)%Z && (nfh_reserved_1 nfh =? 0)%Z
  && (nfh_reserved_2 nfh =? 0)%Z && (nfh_reserved_3 nfh =? 0)%Z.

Record nfs4_client := mk_client { nc_exchgid_flags : Z; c_id : Z }.

(** What the handlers only read of [server_state]. *)
Record server_state := mk_server_state {
  ss_state_dir : option string;
  ss_uuid : list byte;
  sps_boot_seq : Z;
}.

(** [c_inode] and [c_curr_sb] say whether the pointers are set; [c_now] is what
    [reffs_now_ns] answers, [c_wall] the wall clock. *)
Record compound := mk_compound {
  c_curr_nfh : network_file_handle;
  c_inode : bool;
  c_curr_sb : bool;
  c_gss_principal : option (list byte);
  c_nfs4_client : option nfs4_client;
  c_server_state : server_state;
  c_now : Z;
  c_wall : Z;
}.

Definition server_boot_seq (ss : server_state) : Z := sps_boot_seq ss.

(** [c_nfs4_client ? nfs4_client_to_client(c_nfs4_client)->c_id : 0] *)
Definition client_id_of (c : compound) : Z :=
  match c_nfs4_client c with Some nc => c_id nc | None => 0 end.

#[export] Instance stateid4_eq_decision : EqDecision stateid4.
Proof. solve_decision. Defined.
#[export] Instance chunk_owner4_eq_decision : EqDecision chunk_owner4.
Proof. solve_decision. Defined.
#[export] Instance chunk_guard4_eq_decision : EqDecision chunk_guard4.
Proof. solve_decision. Defined.

End Nfs4.
