(* ===== verification/Checksum.v ===== *)
(** * Chunk checksums ([src/lib/nfs4/common/checksum.c], [chunk_checksum.h])

    The checksum that a chunk carries on the wire: its registered length, how it
    is computed, packed and verified.  zlib's [crc32], OpenSSL's [SHA256] and
    [SHA512] and the BLAKE3 library are parameters; [SHA256] and [SHA512] can
    fail. *)

From S2P Require Import Prelude.
From S2P Require Import Words.
From S2P Require Import Digest.
From S2P Require Import DigestCorrect.
From S2P Require Import Nfs4.
Import Words Digest DigestCorrect Nfs4.

Module Checksum.

Definition EBADMSG : Z := 74.
Definition EOPNOTSUPP : Z := 95.

Record hashes := mk_hashes {
  zlib_crc32 : Z → list byte → Z;
  openssl_SHA256 : list byte → option (list byte);
  openssl_SHA512 : list byte → option (list byte);
  blake3 : list byte → list byte;
}.

Definition put_be32 (value : Z) : list byte :=
  [zb (Z.shiftr value 24); zb (Z.shiftr value 16); zb (Z.shiftr value 8); zb value].

Definition put_be64 (value : Z) : list byte :=
  map (λ i, zb (Z.shiftr value (56 - Z.of_nat i * 8))) (seq 0 8).

Definition get_le32 (data : list byte) : Z :=
  Z.lor (Z.lor (Z.lor (bz (rd x00 data 0)) (Z.shiftl (bz (rd x00 data 1)) 8))
               (Z.shiftl (bz (rd x00 data 2)) 16))
        (Z.shiftl (bz (rd x00 data 3)) 24).

(** [while (len > 0)]: each turn takes at least a byte. *)
Fixpoint crc32_loop (zlib : Z → list byte → Z) (fuel : nat) (crc : Z) (data : list byte) : Z :=
  match fuel, data with
  | S fuel, _ :: _ =>
      if (UINT32_MAX <? Z.of_nat (length data))%Z
      then crc32_loop zlib fuel (zlib crc (take (Z.to_nat UINT32_MAX) data))
             (drop (Z.to_nat UINT32_MAX) data)
      else zlib crc data
  | _, _ => crc
  end.

Definition checksum_crc32 (h : hashes) (data : list byte) : Z :=
  u32w (crc32_loop (zlib_crc32 h) (length data) (zlib_crc32 h 0 []) data).

Definition crc32c_table : list Z :=
  [0x00000000; 0x105ec76f; 0x20bd8ede; 0x30e349b1;
   0x417b1dbc; 0x5125dad3; 0x61c69362; 0x7198540d;
   0x82f63b78; 0x92a8fc17; 0xa24bb5a6; 0xb21572c9;
   0xc38d26c4; 0xd3d3e1ab; 0xe330a81a; 0xf36e6f75]%Z.

Definition crc32c_nibble (crc : Z) : Z :=
  Z.lxor (rd 0%Z crc32c_table (Z.to_nat (Z.land crc 0xf))) (Z.shiftr crc 4).

Definition checksum_crc32c (data : list byte) : Z :=
  Z.lxor (fold_left (λ crc b, crc32c_nibble (crc32c_nibble (Z.lxor crc (bz b)))) data UINT32_MAX)
    UINT32_MAX.

Definition checksum_fletcher4 (data : list byte) : list byte :=
  let '(a, b, c, d) :=
    for_range 0 (length data / 4) (λ i '(a, b, c, d),
      let a := u64w (a + get_le32 (drop (4 * i) data)) in
      let b := u64w (b + a) in
      let c := u64w (c + b) in
      (a, b, c, u64w (d + c))) (0, 0, 0, 0)%Z in
  put_be64 a ++ put_be64 b ++ put_be64 c ++ put_be64 d.

Definition chunk_checksum_expected_len (algorithm : Z) : Z :=
  if (algorithm =? CHECKSUM_ALG_NONE)%Z then 0
  else if (algorithm =? CHECKSUM_ALG_CRC32)%Z then 4
  else if (algorithm =? CHECKSUM_ALG_CRC32C)%Z then 4
  else if (algorithm =? CHECKSUM_ALG_FLETCHER4)%Z then 32
  else if (algorithm =? CHECKSUM_ALG_SHA256)%Z then 32
  else if (algorithm =? CHECKSUM_ALG_SHA512)%Z then 64
  else if (algorithm =? CHECKSUM_ALG_BLAKE3)%Z then 32
  else -1.

Definition chunk_checksum_supported (algorithm : Z) : bool :=
  (0 <=? chunk_checksum_expected_len algorithm)%Z.

(** The error, or the bytes of the value. *)
Definition chunk_checksum_compute (h : hashes) (algorithm : Z) (data : list byte)
    : Z + list byte :=
  if (chunk_checksum_expected_len algorithm <? 0)%Z then inl (- EOPNOTSUPP)%Z
  else if (algorithm =? CHECKSUM_ALG_FLETCHER4)%Z && negb (length data mod 4 =? 0)%nat
  then inl (- EINVAL)%Z
  else if (algorithm =? CHECKSUM_ALG_NONE)%Z then inr []
  else if (algorithm =? CHECKSUM_ALG_CRC32)%Z then inr (put_be32 (checksum_crc32 h data))
  else if (algorithm =? CHECKSUM_ALG_CRC32C)%Z then inr (put_be32 (checksum_crc32c data))
  else if (algorithm =? CHECKSUM_ALG_FLETCHER4)%Z then inr (checksum_fletcher4 data)
  else if (algorithm =? CHECKSUM_ALG_SHA256)%Z then
    match openssl_SHA256 h data with Some v => inr v | None => inl (- EIO)%Z end
  else if (algorithm =? CHECKSUM_ALG_SHA512)%Z then
    match openssl_SHA512 h data with Some v => inr v | None => inl (- EIO)%Z end
  else if (algorithm =? CHECKSUM_ALG_BLAKE3)%Z then inr (blake3 h data)
  else inl (- EOPNOTSUPP)%Z.

(** [granted] is the answer of the allocator for the copy of the value. *)
Definition chunk_checksum_pack (granted : bool) (algorithm : Z) (value : list byte) (len : Z)
    : Z + checksum4 :=
  if (0 <? len)%Z && negb granted then inl (- ENOMEM)%Z
  else inr (mk_checksum algorithm (take (Z.to_nat len) value)).

Definition chunk_checksum_pack_data (h : hashes) (granted : bool) (algorithm : Z)
    (data : list byte) : Z + checksum4 :=
  match chunk_checksum_compute h algorithm data with
  | inl ret => inl ret
  | inr value => chunk_checksum_pack granted algorithm value (chunk_checksum_expected_len algorithm)
  end.

Definition chunk_checksum_verify (h : hashes) (checksum : checksum4) (data : list byte) : Z :=
  let expected_len := chunk_checksum_expected_len (cs_algorithm checksum) in
  if (expected_len <? 0)%Z || negb (Z.of_nat (length (cs_value checksum)) =? u32w expected_len)%Z
  then (- EINVAL)%Z
  else
    match chunk_checksum_compute h (cs_algorithm checksum) data with
    | inl ret => ret
    | inr value =>
        if (expected_len =? 0)%Z then 0
        else if bool_decide (take (Z.to_nat expected_len) value
                             = take (Z.to_nat expected_len) (cs_value checksum))
        then 0 else (- EBADMSG)%Z
    end.

(** [chunk_checksum_pack_crc32] and its inverse. *)
Definition chunk_checksum_pack_crc32 (granted : bool) (crc : Z) : Z + checksum4 :=
  if granted then inr (mk_checksum CHECKSUM_ALG_CRC32 (put_be32 crc)) else inl (- ENOMEM)%Z.

Definition chunk_checksum_unpack_crc32 (cs : checksum4) : Z + Z :=
  if negb (cs_algorithm cs =? CHECKSUM_ALG_CRC32)%Z then inl NFS4ERR_INVAL
  else if negb (length (cs_value cs) =? 4)%nat then inl NFS4ERR_INVAL
  else
    let v i := bz (rd x00 (cs_value cs) i) in
    inr (Z.lor (Z.lor (Z.lor (u32w (Z.shiftl (v 0%nat) 24)) (Z.shiftl (v 1%nat) 16))
                 (Z.shiftl (v 2%nat) 8)) (v 3%nat)).

(** ** What they compute *)

(** What the libraries promise: the lengths of the digests, and that zlib's
    [crc32] starts from 0 and continues from its argument. *)
Class HashesOk (h : hashes) : Prop := {
  sha256_length data v : openssl_SHA256 h data = Some v → length v = 32%nat;
  sha512_length data v : openssl_SHA512 h data = Some v → length v = 64%nat;
  blake3_length data : length (blake3 h data) = 32%nat;
  zlib_start : zlib_crc32 h 0 [] = 0%Z;
  zlib_chain crc a b : zlib_crc32 h (zlib_crc32 h crc a) b = zlib_crc32 h crc (a ++ b);
}.

Lemma crc32_loop_all (zlib : Z → list byte → Z) fuel crc data :
  (∀ crc a b, zlib (zlib crc a) b = zlib crc (a ++ b)) →
  data ≠ [] → (length data <= fuel)%nat → crc32_loop zlib fuel crc data = zlib crc data.
Proof.
  intros Hc. revert crc data. induction fuel as [|fuel IH]; intros crc data Hd Hf.
  - destruct data; simpl in *; [done|lia].
  - destruct data as [|b data]; [done|]. cbn [crc32_loop]. case_if; [|done].
    bool_prop. set (d := b :: data) in *. assert (Hm : (0 < UINT32_MAX)%Z) by done.
    assert (Hlt : (Z.to_nat UINT32_MAX < length d)%nat) by lia.
    rewrite IH, Hc, take_drop; [done| |].
    + intros Hn. apply (f_equal length) in Hn. rewrite length_drop in Hn.
      change (length []) with 0%nat in Hn. lia.
    + rewrite length_drop. lia.
Qed.

(** Splitting the input for zlib's 32-bit lengths does not show. *)
Lemma checksum_crc32_whole h data :
  HashesOk h → checksum_crc32 h data = u32w (zlib_crc32 h 0 data).
Proof.
  intros Hh. unfold checksum_crc32. destruct data as [|b data]; [done|].
  rewrite crc32_loop_all; [|apply zlib_chain|done|done].
  by rewrite zlib_chain.
Qed.

(** Four steps of the bitwise register are one table step. *)
Lemma crc32c_nibble_bits crc :
  in_width 32 crc → crc32c_nibble crc = Nat.iter 4 (crc_bit POLY_CRC32C) crc.
Proof.
  intros [H0 H1]. set (n := Z.land crc 15). set (q := Z.shiftr crc 4).
  assert (Hn : (0 <= n < 16)%Z).
  { unfold n. change 15%Z with (Z.ones 4). rewrite Z.land_ones by lia. apply Z.mod_pos_bound. lia. }
  assert (Hcrc : crc = Z.lxor n (2 ^ 4 * q)).
  { unfold n, q. apply Z.bits_inj'. intros i Hi.
    rewrite Z.lxor_spec, (Z.mul_comm (2 ^ 4)), <-Z.shiftl_mul_pow2 by lia.
    change 15%Z with (Z.ones 4). rewrite Z.land_spec, Z.shiftl_spec, Z.testbit_ones_nonneg by lia.
    destruct (Z.ltb_spec i 4).
    - rewrite (Z.testbit_neg_r _ (i - 4)) by lia. by rewrite andb_true_r, xorb_false_r.
    - rewrite Z.shiftr_spec by lia. replace (i - 4 + 4)%Z with i by lia.
      by rewrite andb_false_r, xorb_false_l. }
  assert (Hq : (0 <= q)%Z) by (unfold q; by apply Z.shiftr_nonneg).
  unfold crc32c_nibble. fold n q. rewrite Hcrc at 1. change (2 ^ 4)%Z with (2 ^ Z.of_nat 4)%Z.
  rewrite (iter_lxor POLY_CRC32C), (iter_double POLY_CRC32C ltac:(done) 4 q) by done. f_equal.
  clear Hcrc. clearbody n.
  assert (Hcase : ∀ k : nat, (k < 16)%nat →
    rd 0%Z crc32c_table k = Nat.iter 4 (crc_bit POLY_CRC32C) (Z.of_nat k)).
  { intros k Hk. do 16 (destruct k as [|k]; [by vm_compute|]). lia. }
  specialize (Hcase (Z.to_nat n) ltac:(lia)). by rewrite Z2Nat.id in Hcase by lia.
Qed.

(** The table-driven loop is the bitwise CRC-32C of the D1 store. *)
Lemma checksum_crc32c_bitwise data : checksum_crc32c data = d1_crc32c data.
Proof.
  unfold checksum_crc32c, d1_crc32c, d1_crc_reflected. change 0xffffffff%Z with UINT32_MAX.
  f_equal. assert (H : in_width 32 UINT32_MAX) by done. revert H. generalize UINT32_MAX.
  induction data as [|b data IH]; intros crc Hc; [done|]. cbn [fold_left].
  assert (Hx : in_width 32 (Z.lxor crc (bz b)))
    by (apply lxor_in_width; [done|done|apply bz_width]).
  rewrite (crc32c_nibble_bits (Z.lxor crc (bz b))) by done.
  assert (Hy : in_width 32 (Nat.iter 4 (crc_bit POLY_CRC32C) (Z.lxor crc (bz b))))
    by (by apply iter_range).
  rewrite crc32c_nibble_bits, <-Nat.iter_add by done. change (4 + 4)%nat with 8%nat.
  rewrite <-crc_byte_iter. apply IH. by apply crc_byte_range.
Qed.

Lemma length_put_be64 v : length (put_be64 v) = 8%nat.
Proof. done. Qed.

Lemma length_fletcher4 data : length (checksum_fletcher4 data) = 32%nat.
Proof. unfold checksum_fletcher4. by destruct (for_range _ _ _ _) as [[[??]?]?]. Qed.

(** Every computed value has the registered length. *)
Lemma compute_length h algorithm data v :
  HashesOk h → chunk_checksum_compute h algorithm data = inr v →
  Z.of_nat (length v) = chunk_checksum_expected_len algorithm.
Proof.
  intros Hh. unfold chunk_checksum_compute, chunk_checksum_expected_len.
  repeat (case_if; bool_prop; subst; try done);
    try (intros [= <-]; rewrite ?length_fletcher4, ?blake3_length; done).
  - destruct (openssl_SHA256 h data) eqn:E; [|done]. intros [= <-]. by rewrite (sha256_length data).
  - destruct (openssl_SHA512 h data) eqn:E; [|done]. intros [= <-]. by rewrite (sha512_length data).
Qed.

Lemma expected_len_range algorithm : (-1 <= chunk_checksum_expected_len algorithm <= 64)%Z.
Proof. unfold chunk_checksum_expected_len. repeat case_if; lia. Qed.

(** A checksum verifies exactly when it is the one computed from the data. *)
Lemma verify_iff h cs data :
  HashesOk h →
  chunk_checksum_verify h cs data = 0%Z ↔
  chunk_checksum_compute h (cs_algorithm cs) data = inr (cs_value cs).
Proof.
  intros Hh. unfold chunk_checksum_verify.
  pose proof (expected_len_range (cs_algorithm cs)) as Hr.
  destruct (chunk_checksum_compute h (cs_algorithm cs) data) as [ret|v] eqn:E.
  - split; [|done]. case_if; [done|]. intros ->. exfalso. revert E.
    unfold chunk_checksum_compute. repeat case_if; try done; by case_match.
  - pose proof (compute_length h _ _ _ Hh E) as Hl.
    set (n := chunk_checksum_expected_len (cs_algorithm cs)) in *. clearbody n.
    rewrite wrap_small by (unfold in_width; lia).
    destruct (Z.ltb_spec n 0); [lia|]. cbn [orb].
    destruct (Z.eqb_spec (Z.of_nat (length (cs_value cs))) n) as [Hn|Hn]; cbn [negb].
    + destruct (Z.eqb_spec n 0) as [Hz|Hz].
      * split; [intros _|done]. destruct v, (cs_value cs); simpl in *; done || lia.
      * rewrite !firstn_all2 by lia. case_bool_decide; [by subst|]. split; [done|].
        by intros [= ->].
    + split; [done|]. intros [= ->]. done.
Qed.

End Checksum.
