(* ===== verification/Trust.v ===== *)
(** * The trust table of a data server ([src/lib/nfs4/server/trust_stateid.c])

    The metadata server registers the layout stateids that clients may present;
    the CHUNK operations look them up.  The hash table is the list of its entries:
    an entry is hashed by its stateid and every lookup compares it, so that the
    order only matters for the lookups by stateid alone.  Each call is one step;
    the references that keep an entry alive across threads are not modelled. *)

From S2P Require Import Prelude.
From S2P Require Import Nfs4.
Import Nfs4.

Module Trust.

Definition TRUST_PRINCIPAL_MAX : nat := 256.
Definition TRUST_ACTIVE : Z := 1.
Definition TRUST_PENDING : Z := 2.

(** [te_principal] up to its terminator. *)
Record trust_entry := mk_entry {
  te_other : list byte;
  te_sb : Z;
  te_ino : Z;
  te_issuer_clientid : Z;
  te_target_clientid : Z;
  te_iomode : Z;
  te_expire_ns : Z;
  te_flags : Z;
  te_principal : list byte;
  te_client_id : Z;
}.

Inductive trust_validation_outcome :=
  | TRUST_VALIDATE_SPECIAL
  | TRUST_VALIDATE_OK
  | TRUST_VALIDATE_NO_ENTRY
  | TRUST_VALIDATE_EXPIRED
  | TRUST_VALIDATE_PENDING
  | TRUST_VALIDATE_IOMODE
  | TRUST_VALIDATE_IDENTITY.

#[export] Instance outcome_eq_decision : EqDecision trust_validation_outcome.
Proof. solve_decision. Defined.

Record trust_stateid_stats := mk_tstats {
  ts_registers : Z;
  ts_renewals : Z;
  ts_revokes : Z;
  ts_bulk_revokes : Z;
  ts_expired : Z;
  ts_lookups : Z;
  ts_lookup_misses : Z;
  ts_validate : trust_validation_outcome → Z;
}.

(** [trust_ht] is [None] before [trust_stateid_init] and after
    [trust_stateid_fini]. *)
Record trust := mk_trust { trust_ht : option (list trust_entry); ts_stats : trust_stateid_stats }.

(** ** Start and end *)

(** [table] and [thread] are the answers of [cds_lfht_new] and of
    [pthread_create]. *)
Definition trust_stateid_init (table : bool) (thread : Z) (t : trust) : Z * trust :=
  if negb table then ((-1)%Z, mk_trust None (ts_stats t))
  else if negb (thread =? 0)%Z then ((- thread)%Z, mk_trust None (ts_stats t))
  else (0%Z, mk_trust (Some []) (ts_stats t)).

Definition trust_stateid_fini (t : trust) : trust := mk_trust None (ts_stats t).

(** ** Counters *)

Definition ts_bump (n : Z) : Z := u64w (n + 1).

Definition map_stats (f : trust_stateid_stats → trust_stateid_stats) (t : trust) : trust :=
  mk_trust (trust_ht t) (f (ts_stats t)).

Definition bump_registers (s : trust_stateid_stats) : trust_stateid_stats :=
  mk_tstats (ts_bump (ts_registers s)) (ts_renewals s) (ts_revokes s) (ts_bulk_revokes s)
    (ts_expired s) (ts_lookups s) (ts_lookup_misses s) (ts_validate s).
Definition bump_renewals (s : trust_stateid_stats) : trust_stateid_stats :=
  mk_tstats (ts_registers s) (ts_bump (ts_renewals s)) (ts_revokes s) (ts_bulk_revokes s)
    (ts_expired s) (ts_lookups s) (ts_lookup_misses s) (ts_validate s).
Definition bump_revokes (s : trust_stateid_stats) : trust_stateid_stats :=
  mk_tstats (ts_registers s) (ts_renewals s) (ts_bump (ts_revokes s)) (ts_bulk_revokes s)
    (ts_expired s) (ts_lookups s) (ts_lookup_misses s) (ts_validate s).
Definition bump_bulk_revokes (s : trust_stateid_stats) : trust_stateid_stats :=
  mk_tstats (ts_registers s) (ts_renewals s) (ts_revokes s) (ts_bump (ts_bulk_revokes s))
    (ts_expired s) (ts_lookups s) (ts_lookup_misses s) (ts_validate s).
Definition bump_expired (s : trust_stateid_stats) : trust_stateid_stats :=
  mk_tstats (ts_registers s) (ts_renewals s) (ts_revokes s) (ts_bulk_revokes s)
    (ts_bump (ts_expired s)) (ts_lookups s) (ts_lookup_misses s) (ts_validate s).
Definition bump_lookups (s : trust_stateid_stats) : trust_stateid_stats :=
  mk_tstats (ts_registers s) (ts_renewals s) (ts_revokes s) (ts_bulk_revokes s)
    (ts_expired s) (ts_bump (ts_lookups s)) (ts_lookup_misses s) (ts_validate s).
Definition bump_misses (s : trust_stateid_stats) : trust_stateid_stats :=
  mk_tstats (ts_registers s) (ts_renewals s) (ts_revokes s) (ts_bulk_revokes s)
    (ts_expired s) (ts_lookups s) (ts_bump (ts_lookup_misses s)) (ts_validate s).

Definition trust_stateid_count_validation (outcome : trust_validation_outcome) (t : trust) : trust :=
  map_stats (λ s,
    mk_tstats (ts_registers s) (ts_renewals s) (ts_revokes s) (ts_bulk_revokes s)
      (ts_expired s) (ts_lookups s) (ts_lookup_misses s)
      (λ o, if decide (o = outcome) then ts_bump (ts_validate s o) else ts_validate s o)) t.

(** The counters and the number of live entries. *)
Definition trust_stateid_get_stats (t : trust) : trust_stateid_stats * Z :=
  (ts_stats t, match trust_ht t with Some l => Z.of_nat (length l) | None => 0%Z end).

(** ** Lookup *)

Definition trust_match (key : list byte) (te : trust_entry) : bool :=
  bool_decide (te_other te = key).

Definition trust_match_fh (key : list byte) (sb ino : Z) (te : trust_entry) : bool :=
  bool_decide (te_other te = key) && (te_sb te =? sb)%Z && (te_ino te =? ino)%Z.

Definition trust_match_fh_legacy (key : list byte) (ino : Z) (te : trust_entry) : bool :=
  bool_decide (te_other te = key) && (te_sb te =? 0)%Z && (te_ino te =? ino)%Z.

Definition count_miss (te : option trust_entry) (t : trust) : trust :=
  match te with Some _ => t | None => map_stats bump_misses t end.

Definition trust_stateid_find (stateid : stateid4) (t : trust) : option trust_entry * trust :=
  match trust_ht t with
  | None => (None, t)
  | Some l =>
      let t := map_stats bump_lookups t in
      let te := find (trust_match (other stateid)) l in
      (te, count_miss te t)
  end.

(** The entry of the file, or one registered without a superblock. *)
Definition lookup_fh (key : list byte) (sb ino : Z) (l : list trust_entry) : option trust_entry :=
  match find (trust_match_fh key sb ino) l with
  | Some te => Some te
  | None => if negb (sb =? 0)%Z then find (trust_match_fh_legacy key ino) l else None
  end.

Definition trust_stateid_find_fh (stateid : stateid4) (sb ino : Z) (t : trust)
    : option trust_entry * trust :=
  match trust_ht t with
  | None => (None, t)
  | Some l =>
      let t := map_stats bump_lookups t in
      let te := lookup_fh (other stateid) sb ino l in
      (te, count_miss te t)
  end.

(** ** Registration *)

(** Change or remove the first entry that matches. *)
Fixpoint update_first (p : trust_entry → bool) (f : trust_entry → trust_entry)
    (l : list trust_entry) : list trust_entry :=
  match l with
  | [] => []
  | te :: l => if p te then f te :: l else te :: update_first p f l
  end.

Fixpoint remove_first (p : trust_entry → bool) (l : list trust_entry) : list trust_entry :=
  match l with
  | [] => []
  | te :: l => if p te then l else te :: remove_first p l
  end.

(** The bytes at [p] before the first NUL. *)
Fixpoint cstring (p : list byte) : list byte :=
  match p with
  | [] => []
  | b :: p => if byte_eqb b x00 then [] else b :: cstring p
  end.

Definition renew_entry (sb iomode expire_mono_ns : Z) (te : trust_entry) : trust_entry :=
  mk_entry (te_other te) (if (te_sb te =? 0)%Z && negb (sb =? 0)%Z then sb else te_sb te)
    (te_ino te) (te_issuer_clientid te) (te_target_clientid te) iomode expire_mono_ns
    TRUST_ACTIVE (te_principal te) (te_client_id te).

(** [granted] is the answer of [calloc]; [principal] the memory it points to. *)
Definition trust_stateid_register_fh (granted : bool) (stateid : stateid4)
    (sb ino issuer_clientid target_clientid client_id iomode expire_mono_ns : Z)
    (principal : option (list byte)) (t : trust) : Z * trust :=
  match trust_ht t with
  | None => ((- EINVAL)%Z, t)
  | Some l =>
      let match_fh := trust_match_fh (other stateid) sb ino in
      match find match_fh l with
      | Some te =>
          if negb (te_ino te =? ino)%Z
             || (negb (te_sb te =? 0)%Z && negb (te_sb te =? sb)%Z)
             || negb (te_issuer_clientid te =? issuer_clientid)%Z
             || negb (te_target_clientid te =? target_clientid)%Z
             || negb (te_client_id te =? client_id)%Z
          then ((- EINVAL)%Z, t)
          else (0%Z, mk_trust (Some (update_first match_fh (renew_entry sb iomode expire_mono_ns) l))
                       (bump_renewals (ts_stats t)))
      | None =>
          if negb granted then ((- ENOMEM)%Z, t)
          else
            let te_principal :=
              match principal with
              | Some p => take (TRUST_PRINCIPAL_MAX - 1) (cstring p)
              | None => []
              end in
            (0%Z, mk_trust (Some (mk_entry (other stateid) sb ino issuer_clientid target_clientid
                                    iomode expire_mono_ns TRUST_ACTIVE te_principal client_id :: l))
                    (bump_registers (ts_stats t)))
      end
  end.

Definition trust_stateid_register (granted : bool) (stateid : stateid4)
    (ino clientid client_id iomode expire_mono_ns : Z) (principal : option (list byte))
    (t : trust) : Z * trust :=
  trust_stateid_register_fh granted stateid 0 ino clientid 0 client_id iomode expire_mono_ns
    principal t.

(** ** Revocation *)

Definition trust_stateid_revoke_match (stateid : stateid4) (sb ino issuer : Z)
    (check_issuer : bool) (t : trust) : trust :=
  match trust_ht t with
  | None => t
  | Some l =>
      let key := other stateid in
      let first := if negb (sb =? 0)%Z || negb (ino =? 0)%Z then trust_match_fh key sb ino
                   else trust_match key in
      let p := match find first l with
               | Some _ => first
               | None => if negb (sb =? 0)%Z then trust_match_fh_legacy key ino else first
               end in
      match find p l with
      | None => t
      | Some te =>
          if (negb (sb =? 0)%Z && negb (te_sb te =? sb)%Z)
             || (negb (ino =? 0)%Z && negb (te_ino te =? ino)%Z)
             || (check_issuer && negb (te_issuer_clientid te =? issuer)%Z)
          then t
          else mk_trust (Some (remove_first p l)) (bump_revokes (ts_stats t))
      end
  end.

Definition trust_stateid_revoke_fh (stateid : stateid4) (sb ino issuer : Z) (t : trust) : trust :=
  trust_stateid_revoke_match stateid sb ino issuer true t.

Definition trust_stateid_revoke (stateid : stateid4) (t : trust) : trust :=
  trust_stateid_revoke_match stateid 0 0 0 false t.

Definition BULK_BATCH : nat := 64.

Definition revocable (issuer target : Z) (te : trust_entry) : bool :=
  let clear_all := (target =? 0)%Z in
  negb (negb (te_issuer_clientid te =? issuer)%Z
        || (negb clear_all && negb (te_target_clientid te =? target)%Z)).

(** One pass: the entries left when [n] more fit in the batch, and whether it
    filled up. *)
Fixpoint bulk_pass (issuer target : Z) (n : nat) (l : list trust_entry) : list trust_entry * bool :=
  match l with
  | [] => ([], false)
  | te :: l =>
      if revocable issuer target te then
        match n with
        | S (S n) => bulk_pass issuer target (S n) l
        | _ => (l, true)
        end
      else
        let '(l, full) := bulk_pass issuer target n l in
        (te :: l, full)
  end.

(** [goto restart] after a full batch. *)
Fixpoint bulk_loop (issuer target : Z) (fuel : nat) (l : list trust_entry) : list trust_entry :=
  match fuel with
  | O => l
  | S fuel =>
      let '(l, full) := bulk_pass issuer target BULK_BATCH l in
      if full then bulk_loop issuer target fuel l else l
  end.

Definition trust_stateid_bulk_revoke_scoped (issuer target : Z) (t : trust) : trust :=
  match trust_ht t with
  | None => t
  | Some l =>
      mk_trust (Some (bulk_loop issuer target (S (length l)) l)) (bump_bulk_revokes (ts_stats t))
  end.

(** ** Expiry *)

(** The expiry pass of the reaper thread. *)
Definition reap_expired (now : Z) (t : trust) : trust :=
  match trust_ht t with
  | None => t
  | Some l =>
      let dead te := negb ((te_expire_ns te =? 0)%Z || (now <? te_expire_ns te)%Z) in
      mk_trust (Some (List.filter (λ te, negb (dead te)) l))
        (Nat.iter (length (List.filter dead l)) bump_expired (ts_stats t))
  end.

Definition set_expire (te : trust_entry) (expire : Z) : trust_entry :=
  mk_entry (te_other te) (te_sb te) (te_ino te) (te_issuer_clientid te) (te_target_clientid te)
    (te_iomode te) expire (te_flags te) (te_principal te) (te_client_id te).

Definition trust_stateid_renewal_scan (now lease_sec : Z) (t : trust) : trust :=
  match trust_ht t with
  | None => t
  | Some l =>
      let threshold_ns := (u64w (lease_sec * 1000000000) / 2)%Z in
      let new_lifetime_ns := u64w (lease_sec * 1000000000) in
      mk_trust (Some (map (λ te,
        let exp := te_expire_ns te in
        if (exp =? 0)%Z || (exp <=? now)%Z || (threshold_ns <=? exp - now)%Z then te
        else set_expire te (u64w (now + new_lifetime_ns))) l)) (ts_stats t)
  end.

(** [seconds] is signed; the product and the sum are 64-bit. *)
Definition trust_stateid_convert_expire (expire : nfstime4) (now_wall_ns now_mono_ns : Z) : Z :=
  if (1000000000 <=? nseconds expire)%Z then 0
  else if (seconds expire <=? 0)%Z then 0
  else
    let expire_wall_ns := u64w (u64w (seconds expire * 1000000000) + nseconds expire) in
    if (expire_wall_ns <=? now_wall_ns)%Z then 0
    else
      let remaining_ns := (expire_wall_ns - now_wall_ns)%Z in
      if (UINT64_MAX - now_mono_ns <? remaining_ns)%Z then UINT64_MAX
      else (now_mono_ns + remaining_ns)%Z.

End Trust.
