(* ===== verification/DataBlock.v ===== *)
(** * Data blocks ([src/lib/fs/data_block.c]) and the RAM backend
    ([src/lib/backends/ram_data.c])

    The bytes of a file behind the data entries of [reffs_storage_ops].  [None]
    is an access outside the memory of a buffer.  Offsets are signed 64-bit,
    sizes unsigned. *)

From S2P Require Import Prelude.

Module DataBlock.

Definition ENOSPC : Z := 28.
Definition ENOSYS : Z := 38.

(** A value converted to [off_t]. *)
Definition s64 (x : Z) : Z := ((x + 2 ^ 63) mod 2 ^ 64 - 2 ^ 63)%Z.

(** [db_priv] is what [db_storage_private] points to. *)
Record data_block (P : Type) := mk_db { db_size : Z; db_priv : P }.
#[global] Arguments mk_db {P}.
#[global] Arguments db_size {P}.
#[global] Arguments db_priv {P}.

(** The data entries of [reffs_storage_ops]; [db_alloc] is given the size that
    [data_block_alloc] computed. *)
Record storage_ops (P : Type) := mk_ops {
  db_alloc : option (list byte) → Z → Z → Z → option (Z + data_block P);
  db_read : data_block P → Z → Z → option (Z * list byte);
  db_write : data_block P → list byte → Z → option (Z * data_block P);
  db_resize : data_block P → Z → Z * data_block P;
  db_get_size : data_block P → Z;
}.
#[global] Arguments mk_ops {P}.
#[global] Arguments db_alloc {P}.
#[global] Arguments db_read {P}.
#[global] Arguments db_write {P}.
#[global] Arguments db_resize {P}.
#[global] Arguments db_get_size {P}.

Section Blocks.

Context {P : Type} (ops : storage_ops P).

Definition data_block_alloc (granted : bool) (buffer : option (list byte)) (size offset : Z)
    : option (option (data_block P)) :=
  if negb granted then Some None
  else
    match db_alloc ops buffer size offset (u64w (offset + size)) with
    | None => None
    | Some (inl _) => Some None
    | Some (inr db) => Some (Some db)
    end.

Definition data_block_read (db : option (data_block P)) (size offset : Z)
    : option (Z * list byte) :=
  match db with
  | None => Some ((- EINVAL)%Z, [])
  | Some db => db_read ops db size offset
  end.

Definition data_block_write (db : option (data_block P)) (buffer : list byte) (offset : Z)
    : option (Z * option (data_block P)) :=
  match db with
  | None => Some ((- EINVAL)%Z, None)
  | Some db =>
      match db_write ops db buffer offset with
      | None => None
      | Some (ret, db) => Some (ret, Some db)
      end
  end.

Definition data_block_resize (db : option (data_block P)) (size : Z)
    : Z * option (data_block P) :=
  match db with
  | None => (0%Z, None)
  | Some db => let '(ret, db) := db_resize ops db size in (ret, Some db)
  end.

Definition data_block_get_size (db : option (data_block P)) : Z :=
  match db with
  | None => 0
  | Some db => db_get_size ops db
  end.

End Blocks.

(** ** The RAM backend *)

Section Ram.

(** The answer of [calloc] and [realloc] for so many bytes. *)
Context (grants : Z → bool).

Definition ram_block : Type := data_block (list byte).

(** [memcpy] into the buffer, inside it. *)
Definition copy_in (buffer data : list byte) (offset : Z) : option (list byte) :=
  if (0 <=? offset)%Z && (offset + Z.of_nat (length data) <=? Z.of_nat (length buffer))%Z
  then Some (splice (Z.to_nat offset) data buffer)
  else None.

Definition ram_data_db_alloc (buffer : option (list byte)) (size offset size_of_db : Z)
    : option (Z + ram_block) :=
  if negb (grants size_of_db) then Some (inl (- ENOMEM)%Z)
  else
    let rd_buffer := replicate (Z.to_nat size_of_db) x00 in
    match buffer with
    | None => Some (inr (mk_db size_of_db rd_buffer))
    | Some data =>
        match copy_in rd_buffer data offset with
        | Some rd_buffer => Some (inr (mk_db size_of_db rd_buffer))
        | None => None
        end
    end.

Definition ram_data_db_read (db : ram_block) (size offset : Z) : option (Z * list byte) :=
  if (db_size db <=? u64w offset)%Z then Some (0%Z, [])
  else
    let read_len := if (db_size db <? u64w (size + offset))%Z then u64w (db_size db - offset)
                    else size in
    if (0 <=? offset)%Z && (offset + read_len <=? Z.of_nat (length (db_priv db)))%Z
    then Some (read_len, take (Z.to_nat read_len) (drop (Z.to_nat offset) (db_priv db)))
    else None.

(** The bytes that [realloc] adds are zeroed up to the offset and written from
    there on. *)
Definition ram_data_db_write (db : ram_block) (data : list byte) (offset : Z)
    : option (Z * ram_block) :=
  let size := Z.of_nat (length data) in
  let new_total := u64w (u64w offset + size) in
  if (db_size db <? new_total)%Z && negb (grants new_total) then Some ((- ENOSPC)%Z, db)
  else
    let '(rd_buffer, size_of_db) :=
      if (db_size db <? new_total)%Z
      then (db_priv db ++ replicate (Z.to_nat (new_total - db_size db)) x00, new_total)
      else (db_priv db, db_size db) in
    match copy_in rd_buffer data offset with
    | Some rd_buffer => Some (size, mk_db size_of_db rd_buffer)
    | None => None
    end.

Definition ram_data_db_resize (db : ram_block) (size : Z) : Z * ram_block :=
  if (0 <? size)%Z && negb (grants size) then ((- ENOSPC)%Z, db)
  else
    (size, mk_db size (take (Z.to_nat size) (db_priv db)
                       ++ replicate (Z.to_nat (size - db_size db)) x00)).

Definition ram_data_db_get_size (db : ram_block) : Z := db_size db.

Definition ram_ops : storage_ops (list byte) :=
  mk_ops ram_data_db_alloc ram_data_db_read ram_data_db_write ram_data_db_resize
    ram_data_db_get_size.

End Ram.

(** ** What a backend promises *)

(** The content after [data] was written at [offset]. *)
Definition write_at (offset : nat) (data content : list byte) : list byte :=
  take offset (content ++ replicate (offset - length content) x00) ++ data
  ++ drop (offset + length data) content.

(** Inside the range of [off_t]: no access leaves a buffer, a failed call changes
    nothing, and reads see what was written. *)
Class DataOk {P} (ops : storage_ops P) (content : data_block P → list byte)
    (valid : data_block P → Prop) : Prop := {
  alloc_spec data offset :
    (0 <= offset)%Z → (offset + Z.of_nat (length data) < 2 ^ 63)%Z →
    match db_alloc ops (Some data) (Z.of_nat (length data)) offset
            (offset + Z.of_nat (length data)) with
    | None => False
    | Some (inl _) => True
    | Some (inr db) => valid db ∧ content db = write_at (Z.to_nat offset) data []
    end;
  write_spec db data offset :
    valid db → (0 <= offset)%Z → (offset + Z.of_nat (length data) < 2 ^ 63)%Z →
    match db_write ops db data offset with
    | None => False
    | Some (ret, db') =>
        valid db' ∧
        ((ret < 0)%Z ∧ content db' = content db ∨
         ret = Z.of_nat (length data) ∧
         content db' = write_at (Z.to_nat offset) data (content db))
    end;
  read_spec db size offset :
    valid db → (0 <= offset)%Z → (0 <= size)%Z → (offset + size < 2 ^ 63)%Z →
    ∃ n, db_read ops db size offset
         = Some (n, take (Z.to_nat size) (drop (Z.to_nat offset) (content db)));
}.

Lemma write_at_nil offset data : write_at offset data [] = replicate offset x00 ++ data.
Proof.
  unfold write_at. rewrite app_nil_l, Nat.sub_0_r, take_ge by (by rewrite length_replicate).
  by rewrite drop_nil, app_nil_r.
Qed.

(** Writing inside, and beyond the end. *)
Lemma splice_app_zeros offset (data buf : list byte) n :
  (length buf + n = Nat.max (length buf) (offset + length data))%nat →
  splice offset data (buf ++ replicate n x00) = write_at offset data buf.
Proof.
  intros Hn. unfold splice, write_at. f_equal.
  - apply (list_eq_same_length _ _ (Nat.min offset (length buf + n))); rewrite ?length_take, ?length_app, ?length_replicate; [lia|lia|].
    intros i x y Hi Hx Hy. rewrite lookup_take_lt in Hx, Hy by lia.
    destruct (decide (i < length buf)%nat).
    + rewrite lookup_app_l in Hx, Hy by lia. congruence.
    + rewrite lookup_app_r in Hx, Hy by lia.
      apply lookup_replicate in Hx as [-> _]. by apply lookup_replicate in Hy as [-> _].
  - f_equal. rewrite drop_app. destruct (decide (n = 0)%nat) as [->|].
    { cbn [replicate]. by rewrite drop_nil, app_nil_r. }
    rewrite (drop_ge (replicate n x00)); [by rewrite app_nil_r|rewrite length_replicate; lia].
Qed.

Definition ram_valid (db : ram_block) : Prop :=
  Z.of_nat (length (db_priv db)) = db_size db ∧ (db_size db < 2 ^ 63)%Z.

#[export] Instance ram_data_ok (grants : Z → bool) :
  DataOk (ram_ops grants) db_priv ram_valid.
Proof.
  split.
  - intros data offset H0 H1. cbn. unfold ram_data_db_alloc. case_if; [done|].
    unfold copy_in. rewrite length_replicate.
    destruct (Z.leb_spec 0 offset); [|lia]. destruct (Z.leb_spec (offset + Z.of_nat (length data))
      (Z.of_nat (Z.to_nat (offset + Z.of_nat (length data))))); [|lia]. cbn [andb].
    split.
    + split; cbn [db_priv db_size]; [|lia].
      rewrite length_splice; rewrite length_replicate; lia.
    + cbn [db_priv]. rewrite <-(splice_app_zeros _ data [] (Z.to_nat (offset + Z.of_nat (length data))));
        [done|simpl; lia].
  - intros db data offset [Hl Hs] H0 H1. cbn. unfold ram_data_db_write.
    rewrite (wrap_small 64 offset) by (unfold in_width; lia).
    rewrite wrap_small by (unfold in_width; lia).
    set (t := (offset + Z.of_nat (length data))%Z) in *.
    destruct (Z.ltb_spec (db_size db) t) as [Hlt|Hge]; cbn [andb].
    + destruct (grants t) eqn:Hg; cbn [negb]; [|split; [done|by left]].
      unfold copy_in. fold t. rewrite length_app, length_replicate.
      destruct (Z.leb_spec 0 offset); [|lia].
      destruct (Z.leb_spec t (Z.of_nat (length (db_priv db) + Z.to_nat (t - db_size db)))); [|lia].
      cbn [andb]. split; [split; cbn [db_priv db_size]; [|done]|right; split; [done|]].
      * rewrite length_splice; rewrite length_app, length_replicate; lia.
      * cbn [db_priv]. apply splice_app_zeros. lia.
    + unfold copy_in. fold t. destruct (Z.leb_spec 0 offset); [|lia].
      destruct (Z.leb_spec t (Z.of_nat (length (db_priv db)))); [|lia]. cbn [andb].
      split; [split; cbn [db_priv db_size]; [|done]|right; split; [done|]].
      * rewrite length_splice; lia.
      * cbn [db_priv]. rewrite <-(splice_app_zeros _ _ _ 0) by lia. cbn. by rewrite app_nil_r.
  - intros db size offset [Hl Hs] H0 H1 H2. cbn. unfold ram_data_db_read.
    rewrite (wrap_small 64 offset) by (unfold in_width; lia).
    destruct (Z.leb_spec (db_size db) offset).
    { exists 0%Z. rewrite drop_ge by lia. by rewrite take_nil. }
    rewrite (wrap_small 64 (size + offset)) by (unfold in_width; lia).
    destruct (Z.ltb_spec (db_size db) (size + offset)).
    + rewrite wrap_small by (unfold in_width; lia).
      destruct (Z.leb_spec 0 offset); [|lia].
      destruct (Z.leb_spec (offset + (db_size db - offset)) (Z.of_nat (length (db_priv db)))); [|lia].
      cbn [andb]. eexists. do 2 f_equal. rewrite !take_ge; [done|rewrite length_drop; lia..].
    + destruct (Z.leb_spec 0 offset); [|lia].
      destruct (Z.leb_spec (offset + size) (Z.of_nat (length (db_priv db)))); [|lia].
      by eexists.
Qed.

(** What a read of the written range gives back, and what it leaves alone. *)
Lemma read_written offset (data content : list byte) :
  take (length data) (drop offset (write_at offset data content)) = data.
Proof.
  unfold write_at. set (a := take offset _).
  assert (Ha : length a = offset).
  { unfold a. rewrite length_take, length_app, length_replicate. lia. }
  rewrite drop_app_length' by done. by rewrite take_app_length.
Qed.

Lemma rd_write_at offset (data content : list byte) i :
  rd x00 (write_at offset data content) i
  = if decide (offset <= i < offset + length data)%nat then rd x00 data (i - offset)
    else rd x00 content i.
Proof.
  set (n := (Nat.max (length content) (offset + length data) - length content)%nat).
  rewrite <-(splice_app_zeros _ _ _ n) by lia. rewrite rd_splice by (rewrite length_app, length_replicate; lia).
  case_decide; [done|]. rewrite rd_app. case_decide; [done|].
  rewrite (rd_ge _ content) by lia.
  destruct (decide (i - length content < n)%nat); [by rewrite rd_replicate_lt|].
  by rewrite rd_ge by (rewrite length_replicate; lia).
Qed.

End DataBlock.
