(* ===== verification/ChunkOps.v ===== *)
(** * The CHUNK operations of a data server ([src/lib/nfs4/server/chunk.c])

    Writing, reading, finalizing, committing, rolling back, marking as errored
    and confirming a repair, over the chunk store, the trust table and the data
    block of an inode.  Locks and escrows are in [ChunkLock].  Each handler runs
    as one step, as under [i_attr_mutex]. *)

From S2P Require Import Prelude.
From S2P Require Import Words.
From S2P Require Import Posix.
From S2P Require Import ChunkStore.
From S2P Require Import ChunkDisk.
From S2P Require Import Handler.
From S2P Require Import Nfs4.
From S2P Require Import Checksum.
From S2P Require Import Trust.
From S2P Require Import DataBlock.
From stdpp Require Import strings.
Import Words Posix ChunkStore ChunkDisk Handler Nfs4 Checksum Trust DataBlock.

Module ChunkOps.

(** ** State *)

Definition CHUNK_BLOCK_REPAIR_PROVENANCE : Z := 2.
Definition CHUNK_BLOCK_ERROR : Z := 4.

Definition INODE_IS_CHUNKED_DATA_FILE : Z := 64.
Definition INODE_CHUNKED_ATTR_PRESENT : Z := 128.

Record layout_data_file := mk_data_file { ldf_dstore_id : Z; ldf_fh : list byte; ldf_flags : Z }.

(** [ls_files] with its count. *)
Record layout_segment := mk_segment { ls_offset : Z; ls_length : Z; ls_files : list layout_data_file }.

(** [i_saved] is what the last [inode_sync_to_disk] handed to the backend. *)
Record inode (P : Type) := mk_inode {
  i_ino : Z;
  i_mode : Z;
  i_attr_flags : Z;
  i_size : Z;
  i_db : option (data_block P);
  i_chunk_store : option chunk_store;
  i_layout_segments : option (list layout_segment);
  i_saved : Z * option (list layout_segment);
}.
#[global] Arguments mk_inode {P}.
#[global] Arguments i_ino {P}.
#[global] Arguments i_mode {P}.
#[global] Arguments i_attr_flags {P}.
#[global] Arguments i_size {P}.
#[global] Arguments i_db {P}.
#[global] Arguments i_chunk_store {P}.
#[global] Arguments i_layout_segments {P}.
#[global] Arguments i_saved {P}.

Record reffs_chunk_stats := mk_cstats {
  cs_writes : Z;
  cs_rollback_invoked : Z;
  cs_repair_initiated : Z;
  cs_repair_completed : Z;
  cs_blocks_full : Z;
  cs_blocks_partial : Z;
  cs_blocks_first_write : Z;
  cs_blocks_overwrite : Z;
  cs_writes_1block : Z;
  cs_writes_2to7 : Z;
  cs_writes_8to31 : Z;
  cs_writes_32plus : Z;
  cs_chunk_busy_delay : Z;
}.

(** The budgets of [ss_test_chunk_*_count], zero in normal operation. *)
Record budgets := mk_budgets {
  write_delay_count : Z;
  finalize_delay_count : Z;
  commit_delay_count : Z;
  persist_fail_count : Z;
}.

Record server (P : Type) := mk_server {
  s_inode : inode P;
  s_trust : trust;
  s_stats : reffs_chunk_stats;
  s_sys : sys;
  s_budgets : budgets;
}.
#[global] Arguments mk_server {P}.
#[global] Arguments s_inode {P}.
#[global] Arguments s_trust {P}.
#[global] Arguments s_stats {P}.
#[global] Arguments s_sys {P}.
#[global] Arguments s_budgets {P}.

(** How a handler ends early: with a status, with the owner that holds a lock, or
    with an access through a null pointer or outside a buffer. *)
Inductive fail := Status (status : Z) | LockedBy (owner : chunk_owner4) | Fault.

(** The places where a handler allocates. *)
Inductive site :=
  | AllocDataBlock
  | AllocWriteResults
  | AllocReadChunks
  | AllocReadChecksum (i : nat)
  | AllocReadData (i : nat)
  | AllocStatus
  | AllocSaved
  | AllocEntries
  | AllocCookie.

Section Fields.

Context {P : Type}.

Definition H (A : Type) : Type := M (server P) fail A.

Definition set_inode (i : inode P) (s : server P) : server P :=
  mk_server i (s_trust s) (s_stats s) (s_sys s) (s_budgets s).
Definition set_trust (t : trust) (s : server P) : server P :=
  mk_server (s_inode s) t (s_stats s) (s_sys s) (s_budgets s).
Definition set_sys (y : sys) (s : server P) : server P :=
  mk_server (s_inode s) (s_trust s) (s_stats s) y (s_budgets s).
Definition set_budgets (b : budgets) (s : server P) : server P :=
  mk_server (s_inode s) (s_trust s) (s_stats s) (s_sys s) b.
Definition map_cstats (f : reffs_chunk_stats → reffs_chunk_stats) (s : server P) : server P :=
  mk_server (s_inode s) (s_trust s) (f (s_stats s)) (s_sys s) (s_budgets s).

Definition with_store (i : inode P) (cs : option chunk_store) : inode P :=
  mk_inode (i_ino i) (i_mode i) (i_attr_flags i) (i_size i) (i_db i) cs (i_layout_segments i)
    (i_saved i).
Definition with_db (i : inode P) (db : option (data_block P)) : inode P :=
  mk_inode (i_ino i) (i_mode i) (i_attr_flags i) (i_size i) db (i_chunk_store i)
    (i_layout_segments i) (i_saved i).
Definition with_size (i : inode P) (size : Z) : inode P :=
  mk_inode (i_ino i) (i_mode i) (i_attr_flags i) size (i_db i) (i_chunk_store i)
    (i_layout_segments i) (i_saved i).
Definition with_segments (i : inode P) (lss : option (list layout_segment)) : inode P :=
  mk_inode (i_ino i) (i_mode i) (i_attr_flags i) (i_size i) (i_db i) (i_chunk_store i) lss
    (i_saved i).
Definition with_saved (i : inode P) : inode P :=
  mk_inode (i_ino i) (i_mode i) (i_attr_flags i) (i_size i) (i_db i) (i_chunk_store i)
    (i_layout_segments i) (i_size i, i_layout_segments i).

Definition on_inode (f : inode P → inode P) : H () :=
  modify (λ s, set_inode (f (s_inode s)) s).
Definition set_store (cs : chunk_store) : H () := on_inode (λ i, with_store i (Some cs)).
Definition get_store : H (option chunk_store) := gets (λ s, i_chunk_store (s_inode s)).

(** [cs->...] *)
Definition the_store : H chunk_store :=
  cs ← get_store;
  match cs with Some cs => mret cs | None => throw Fault end.

Definition inode_sync_to_disk : H () := on_inode with_saved.

End Fields.

(** ** Counters *)

Definition bump64 (n : Z) : Z := u64w (n + 1).

Definition count_busy (s : reffs_chunk_stats) : reffs_chunk_stats :=
  mk_cstats (cs_writes s) (cs_rollback_invoked s) (cs_repair_initiated s) (cs_repair_completed s)
    (cs_blocks_full s) (cs_blocks_partial s) (cs_blocks_first_write s) (cs_blocks_overwrite s)
    (cs_writes_1block s) (cs_writes_2to7 s) (cs_writes_8to31 s) (cs_writes_32plus s)
    (bump64 (cs_chunk_busy_delay s)).
Definition count_rollback (s : reffs_chunk_stats) : reffs_chunk_stats :=
  mk_cstats (cs_writes s) (bump64 (cs_rollback_invoked s)) (cs_repair_initiated s)
    (cs_repair_completed s) (cs_blocks_full s) (cs_blocks_partial s) (cs_blocks_first_write s)
    (cs_blocks_overwrite s) (cs_writes_1block s) (cs_writes_2to7 s) (cs_writes_8to31 s)
    (cs_writes_32plus s) (cs_chunk_busy_delay s).
Definition count_initiated (s : reffs_chunk_stats) : reffs_chunk_stats :=
  mk_cstats (cs_writes s) (cs_rollback_invoked s) (bump64 (cs_repair_initiated s))
    (cs_repair_completed s) (cs_blocks_full s) (cs_blocks_partial s) (cs_blocks_first_write s)
    (cs_blocks_overwrite s) (cs_writes_1block s) (cs_writes_2to7 s) (cs_writes_8to31 s)
    (cs_writes_32plus s) (cs_chunk_busy_delay s).
Definition count_completed (n : Z) (s : reffs_chunk_stats) : reffs_chunk_stats :=
  mk_cstats (cs_writes s) (cs_rollback_invoked s) (cs_repair_initiated s)
    (u64w (cs_repair_completed s + n)) (cs_blocks_full s) (cs_blocks_partial s)
    (cs_blocks_first_write s) (cs_blocks_overwrite s) (cs_writes_1block s) (cs_writes_2to7 s)
    (cs_writes_8to31 s) (cs_writes_32plus s) (cs_chunk_busy_delay s).

(** A block written: over an older one or not, full or partial. *)
Definition count_block (overwrite full : bool) (s : reffs_chunk_stats) : reffs_chunk_stats :=
  let inc (b : bool) n := if b then bump64 n else n in
  mk_cstats (cs_writes s) (cs_rollback_invoked s) (cs_repair_initiated s) (cs_repair_completed s)
    (inc full (cs_blocks_full s)) (inc (negb full) (cs_blocks_partial s))
    (inc (negb overwrite) (cs_blocks_first_write s)) (inc overwrite (cs_blocks_overwrite s))
    (cs_writes_1block s) (cs_writes_2to7 s) (cs_writes_8to31 s) (cs_writes_32plus s)
    (cs_chunk_busy_delay s).

(** A write of [nchunks] blocks and its bucket. *)
Definition count_write (nchunks : Z) (s : reffs_chunk_stats) : reffs_chunk_stats :=
  let one := (nchunks =? 1)%Z in
  let lt8 := negb one && (nchunks <? 8)%Z in
  let lt32 := negb one && negb (nchunks <? 8)%Z && (nchunks <? 32)%Z in
  let inc (b : bool) n := if b then bump64 n else n in
  mk_cstats (bump64 (cs_writes s)) (cs_rollback_invoked s) (cs_repair_initiated s)
    (cs_repair_completed s) (cs_blocks_full s) (cs_blocks_partial s) (cs_blocks_first_write s)
    (cs_blocks_overwrite s) (inc one (cs_writes_1block s)) (inc lt8 (cs_writes_2to7 s))
    (inc lt32 (cs_writes_8to31 s)) (inc (negb one && negb lt8 && negb lt32) (cs_writes_32plus s))
    (cs_chunk_busy_delay s).

(** ** Helpers *)

Definition S_ISREG (mode : Z) : bool := (Z.land mode 0xf000 =? 0x8000)%Z.

Inductive chunked_state := INODE_CHUNKED_UNIDENTIFIED | INODE_CHUNKED_NO | INODE_CHUNKED_YES.

Definition inode_chunked_state {P} (i : inode P) : chunked_state :=
  if negb (has_flag (i_attr_flags i) INODE_CHUNKED_ATTR_PRESENT) then INODE_CHUNKED_UNIDENTIFIED
  else if has_flag (i_attr_flags i) INODE_IS_CHUNKED_DATA_FILE then INODE_CHUNKED_YES
  else INODE_CHUNKED_NO.

Definition chunk_op_on_non_chunked {P} (c : compound) (i : inode P) : bool :=
  c_inode c && match inode_chunked_state i with INODE_CHUNKED_NO => true | _ => false end.

Definition chunk_write_verf (ss : server_state) : list byte :=
  take (NFS4_VERIFIER_SIZE - 2) (ss_uuid ss) ++ le_split 2 (server_boot_seq ss).

Definition chunk_cid_is_reserved (cid : Z) : bool :=
  (cid =? CHUNK_GUARD_CLIENT_ID_NONE)%Z || (cid =? CHUNK_GUARD_CLIENT_ID_MDS)%Z.

Definition chunk_lock_owner_values_equal (blk : chunk_block) (cohort_id client_id owner_id : Z)
    : bool :=
  (cb_lock_cohort_id blk =? cohort_id)%Z && (cb_lock_client_id blk =? client_id)%Z
  && (cb_lock_owner_id blk =? owner_id)%Z.

Definition chunk_lock_conflict (cs : chunk_store) (offset count cohort_id client_id owner_id : Z)
    : option chunk_block :=
  match for_break 0 (Z.to_nat count) (λ i (_ : unit),
          match chunk_store_lookup_any (Some cs) (u64w (offset + Z.of_nat i)) with
          | Some blk =>
              if has_flag (cb_flags blk) CHUNK_BLOCK_LOCKED
                 && negb (chunk_lock_owner_values_equal blk cohort_id client_id owner_id)
              then inr blk else inl tt
          | None => inl tt
          end) tt with
  | inr blk => Some blk
  | inl _ => None
  end.

Definition is_some {A} (o : option A) : bool := match o with Some _ => true | None => false end.

Definition chunk_lifecycle_check_bounds (chunks_len : Z) : bool :=
  (chunks_len <=? CHUNK_MAX_OWNERS_PER_OP)%Z.

Definition chunk_lifecycle_check_range (offset count : Z) : bool :=
  negb ((count =? 0)%Z || (CHUNK_MAX_CHUNKS_PER_OP <? count)%Z
        || (UINT64_MAX - (count - 1) <? offset)%Z).

(** ** Authorization *)

(** What the entry found says of the request: [None] to go on. *)
Definition trust_verdict (c : compound) (te : trust_entry) (client_id : Z) (require_rw : bool)
    : option (trust_validation_outcome * Z) :=
  let exp := te_expire_ns te in
  if has_flag (te_flags te) TRUST_PENDING then Some (TRUST_VALIDATE_PENDING, NFS4ERR_DELAY)
  else if negb (exp =? 0)%Z && (exp <? c_now c)%Z
  then Some (TRUST_VALIDATE_EXPIRED, NFS4ERR_BAD_STATEID)
  else if negb (has_flag (te_flags te) TRUST_ACTIVE)
  then Some (TRUST_VALIDATE_EXPIRED, NFS4ERR_BAD_STATEID)
  else if require_rw && negb (te_iomode te =? LAYOUTIOMODE4_RW)%Z
  then Some (TRUST_VALIDATE_IOMODE, NFS4ERR_ACCESS)
  else if negb (c_inode c) || negb (te_ino te =? nfh_ino (c_curr_nfh c))%Z
          || (negb (te_sb te =? 0)%Z && negb (te_sb te =? nfh_sb (c_curr_nfh c))%Z)
  then Some (TRUST_VALIDATE_IDENTITY, NFS4ERR_BAD_STATEID)
  else if negb (bool_decide (te_principal te = []))
          && negb (bool_decide (c_gss_principal c = Some (te_principal te)))
  then Some (TRUST_VALIDATE_IDENTITY, NFS4ERR_ACCESS)
  else if negb (te_client_id te =? CHUNK_GUARD_CLIENT_ID_NONE)%Z
          && negb (client_id =? CHUNK_GUARD_CLIENT_ID_NONE)%Z
          && negb (te_client_id te =? client_id)%Z
  then Some (TRUST_VALIDATE_IDENTITY, NFS4ERR_BAD_STATEID)
  else None.

Section Auth.

Context {P : Type}.

Definition on_trust {A} (f : trust → A * trust) : H (P := P) A := λ s,
  let '(a, t) := f (s_trust s) in (inr a, set_trust t s).

Definition count_validation (o : trust_validation_outcome) : H (P := P) () :=
  modify (λ s, set_trust (trust_stateid_count_validation o (s_trust s)) s).

Definition chunk_check_trusted_stateid (c : compound) (stid : stateid4) (client_id : Z)
    (require_rw : bool) : H (P := P) () :=
  if stateid4_is_special stid then
    count_validation TRUST_VALIDATE_SPECIAL;; throw (Status NFS4ERR_BAD_STATEID)
  else
    te ← on_trust (trust_stateid_find_fh stid (nfh_sb (c_curr_nfh c)) (nfh_ino (c_curr_nfh c)));
    match te with
    | None => count_validation TRUST_VALIDATE_NO_ENTRY;; throw (Status NFS4ERR_BAD_STATEID)
    | Some te =>
        match trust_verdict c te client_id require_rw with
        | Some (o, e) => count_validation o;; throw (Status e)
        | None => count_validation TRUST_VALIDATE_OK
        end
    end.

End Auth.

(** ** Payloads *)

(** What CHUNK_WRITE and CHUNK_WRITE_REPAIR carry alike. *)
Record payload := mk_payload {
  pl_offset : Z;
  pl_cohort_id : Z;
  pl_client_id : Z;
  pl_co_ids : list Z;
  pl_payload_id : Z;
  pl_chunk_size : Z;
  pl_checksums : list checksum4;
  pl_chunks : list byte;
}.

Definition payload_of_write (a : CHUNK_WRITE4args) : payload :=
  mk_payload (cwa_offset a) (cwa_cohort_id a) (cwa_client_id a) (cwa_co_ids a) (cwa_payload_id a)
    (cwa_chunk_size a) (cwa_checksums a) (cwa_chunks a).

Definition payload_of_repair (a : CHUNK_WRITE_REPAIR4args) : payload :=
  mk_payload (cwra_offset a) (cwra_cohort_id a) (cwra_client_id a) (cwra_co_ids a)
    (cwra_payload_id a) (cwra_chunk_size a) (cwra_checksums a) (cwra_chunks a).

Definition total_data (p : payload) : Z := Z.of_nat (length (pl_chunks p)).

(** [(total_data + chunk_size - 1) / chunk_size] in 32 bits. *)
Definition nchunks_of (p : payload) : Z :=
  (u32w (u32w (total_data p + pl_chunk_size p) - 1) / pl_chunk_size p)%Z.

(** The last chunk may be shorter. *)
Definition chunk_len (p : payload) (nchunks : Z) (i : nat) : Z :=
  if (Z.of_nat i =? nchunks - 1)%Z && negb (total_data p mod pl_chunk_size p =? 0)%Z
  then (total_data p mod pl_chunk_size p)%Z else pl_chunk_size p.

Definition chunk_data (p : payload) (nchunks : Z) (i : nat) : list byte :=
  take (Z.to_nat (chunk_len p nchunks i)) (drop (i * Z.to_nat (pl_chunk_size p)) (pl_chunks p)).

Definition zero_checksum : checksum4 := mk_checksum 0 [].

(** One algorithm for the payload, at its registered length. *)
Definition checksum_shapes (p : payload) (wire_algo : Z) : bool :=
  forallb (λ cs4, (cs_algorithm cs4 =? wire_algo)%Z
                  && (Z.of_nat (length (cs_value cs4)) =? chunk_checksum_expected_len wire_algo)%Z)
    (pl_checksums p).

Definition checksums_match (h : hashes) (p : payload) (nchunks : Z) : bool :=
  forallb (λ i, (chunk_checksum_verify h (rd zero_checksum (pl_checksums p) i)
                   (chunk_data p nchunks i) =? 0)%Z)
    (seq 0 (length (pl_checksums p))).

(** The algorithm of the payload and the number of its chunks. *)
Definition chunk_write_validate_payload {P} (h : hashes) (c : compound) (i : inode P) (p : payload)
    : Z + Z * Z :=
  if network_file_handle_empty (c_curr_nfh c) then inl NFS4ERR_NOFILEHANDLE
  else if negb (c_inode c) || negb (S_ISREG (i_mode i)) then inl NFS4ERR_INVAL
  else if chunk_op_on_non_chunked c i then inl NFS4ERR_NOTSUPP
  else if (pl_chunk_size p =? 0)%Z || (total_data p =? 0)%Z then inl NFS4ERR_INVAL
  else if chunk_cid_is_reserved (pl_client_id p) then inl NFS4ERR_INVAL
  else
    let nchunks := nchunks_of p in
    let nchecksums := Z.of_nat (length (pl_checksums p)) in
    if (nchunks =? 0)%Z then inl NFS4ERR_INVAL
    else if (0 <? nchecksums)%Z && negb (nchecksums =? nchunks)%Z then inl NFS4ERR_INVAL
    else
      let wire_algo := if (0 <? nchecksums)%Z
                       then cs_algorithm (rd zero_checksum (pl_checksums p) 0) else 0%Z in
      if (0 <? nchecksums)%Z
         && ((chunk_checksum_expected_len wire_algo <? 0)%Z || negb (checksum_shapes p wire_algo))
      then inl NFS4ERR_INVAL
      else if negb (checksums_match h p nchunks) then inl NFS4ERR_INVAL
      else inr (wire_algo, nchunks).

Fixpoint has_duplicate (l : list Z) : bool :=
  match l with
  | [] => false
  | x :: l => existsb (Z.eqb x) l || has_duplicate l
  end.

Definition chunk_validate_co_ids (co_ids : list Z) (nchunks : Z) : bool :=
  (Z.of_nat (length co_ids) =? nchunks)%Z && negb (has_duplicate co_ids).

(** ** The block a write records *)

(** The lock carries over from the entry that was there. *)
Definition keep_lock (lock_blk : option chunk_block) (b : chunk_block) : chunk_block :=
  match lock_blk with
  | Some l =>
      if has_flag (cb_flags l) CHUNK_BLOCK_LOCKED then
        mk_block (cb_state b) (Z.lor (cb_flags b) CHUNK_BLOCK_LOCKED) (cb_gen_id b)
          (cb_client_id b) (cb_cohort_id b) (cb_owner_id b) (cb_payload_id b)
          (cb_checksum_algorithm b) (cb_checksum_len b) (cb_checksum_value b) (cb_chunk_size b)
          (cb_writer_clientid b) (cb_lock_cohort_id l) (cb_lock_client_id l) (cb_lock_owner_id l)
          (cb_lock_offset l) (cb_lock_count l) (cb_lock_flags l) (cb_lock_stateid l)
          (cb_lock_escrow_id l)
      else b
  | None => b
  end.

(** [CHECKSUM_ALG_NONE] and no bytes when the payload carries no checksums. *)
Definition recorded_checksum (p : payload) (i : nat) : Z * Z * list byte :=
  if (i <? length (pl_checksums p))%nat then
    let cs := rd zero_checksum (pl_checksums p) i in
    let len := Z.of_nat (length (cs_value cs)) in
    let len := if (Z.of_nat CHUNK_VALUE_MAX <? len)%Z then Z.of_nat CHUNK_VALUE_MAX else len in
    (cs_algorithm cs, len,
     splice 0 (take (Z.to_nat len) (cs_value cs)) (zero_bytes CHUNK_VALUE_MAX))
  else (CHECKSUM_ALG_NONE, 0%Z, zero_bytes CHUNK_VALUE_MAX).

Definition new_block (c : compound) (flags : Z) (p : payload) (nchunks : Z) (i : nat)
    (old_blk lock_blk : option chunk_block) : chunk_block :=
  let '(algo, len, value) := recorded_checksum p i in
  keep_lock lock_blk
    (mk_block CHUNK_STATE_PENDING flags
       (match old_blk with Some b => u32w (cb_gen_id b + 1) | None => 0 end)
       (pl_client_id p) (pl_cohort_id p) (rd 0%Z (pl_co_ids p) i) (pl_payload_id p)
       algo len value (chunk_len p nchunks i) (client_id_of c)
       0 0 0 0 0 0 (zero_bytes CHUNK_LOCK_STATEID_SIZE) (zero_bytes CHUNK_LOCK_ESCROW_ID_SIZE)).

(** The file's algorithm is set by the first payload with checksums and must match
    from then on; the stride is set by the first write. *)
Definition adopt_policy (cs : chunk_store) (p : payload) (wire_algo : Z) : option chunk_store :=
  let nchecksums := Z.of_nat (length (pl_checksums p)) in
  let set_algo := (0 <? nchecksums)%Z && (cs_checksum_algorithm cs =? 0)%Z in
  if (0 <? nchecksums)%Z && negb (cs_checksum_algorithm cs =? 0)%Z
     && negb (cs_checksum_algorithm cs =? wire_algo)%Z
  then None
  else
    Some (mk_store (cs_blocks cs) (cs_nblocks cs) (cs_high_water cs)
            (if (cs_chunk_size cs =? 0)%Z then pl_chunk_size p else cs_chunk_size cs)
            (if set_algo then wire_algo else cs_checksum_algorithm cs)
            (cs_escrows cs) (cs_escrow_cap cs) (set_algo || cs_dirty cs)).

(** The collision gate: a lock of another owner, a guard that does not match, a
    pending block of another writer; the flag says whether it counts as busy. *)
Definition write_gate (cs : chunk_store) (a : CHUNK_WRITE4args) (nchunks : Z) : option (Z * bool) :=
  match for_break 0 (Z.to_nat nchunks) (λ i (_ : unit),
          let off := u64w (cwa_offset a + Z.of_nat i) in
          let co_id := rd 0%Z (cwa_co_ids a) i in
          let locked :=
            match chunk_store_lookup_any (Some cs) off with
            | Some lockblk =>
                has_flag (cb_flags lockblk) CHUNK_BLOCK_LOCKED
                && negb (chunk_lock_owner_values_equal lockblk (cwa_cohort_id a) (cwa_client_id a)
                           co_id)
            | None => false
            end in
          if locked then inr (NFS4ERR_CHUNK_LOCKED, false)
          else
            match chunk_store_lookup (Some cs) off with
            | None => inl tt
            | Some prev =>
                if match cwa_guard a with
                   | Some guard => negb (cb_gen_id prev =? cg_gen_id guard)%Z
                                   || negb (cb_client_id prev =? cg_client_id guard)%Z
                   | None => false
                   end
                then inr (NFS4ERR_DELAY, true)
                else if negb (cb_state prev =? CHUNK_STATE_PENDING)%Z then inl tt
                else if (cb_cohort_id prev =? cwa_cohort_id a)%Z && (cb_owner_id prev =? co_id)%Z
                        && (cb_client_id prev =? cwa_client_id a)%Z
                then inl tt
                else inr (NFS4ERR_DELAY, true)
            end) tt with
  | inr r => Some r
  | inl _ => None
  end.

(** Overwrites only: the first write of a block is never delayed. *)
Definition write_hits_block (cs : chunk_store) (offset nchunks : Z) : bool :=
  existsb (λ i, is_some (chunk_store_lookup (Some cs) (u64w (offset + Z.of_nat i))))
    (seq 0 (Z.to_nat nchunks)).

(** ** Handlers *)

Section Ops.

Context {P : Type} (ops : storage_ops P) (grants : elem → Z → bool) (callocs : site → bool)
  (h : hashes).

Abbreviation H := (H (P := P)).

(** A test budget: one unit is taken if any is left. *)
Definition take_budget (get : budgets → Z) (put : budgets → Z → budgets) : H bool := λ s,
  let remaining := get (s_budgets s) in
  if (remaining =? 0)%Z then (inr false, s)
  else (inr true, set_budgets (put (s_budgets s) (remaining - 1)%Z) s).

Definition chunk_write_test_delay (guarded : bool) (cs : chunk_store) (offset nchunks : Z)
    : H bool :=
  if negb guarded then mret false
  else if negb (write_hits_block cs offset nchunks) then mret false
  else take_budget write_delay_count
         (λ b n, mk_budgets n (finalize_delay_count b) (commit_delay_count b) (persist_fail_count b)).

Definition chunk_test_persist_failure : H bool :=
  take_budget persist_fail_count
    (λ b n, mk_budgets (write_delay_count b) (finalize_delay_count b) (commit_delay_count b) n).

Definition finalize_test_delay : H bool :=
  take_budget finalize_delay_count
    (λ b n, mk_budgets (write_delay_count b) n (commit_delay_count b) (persist_fail_count b)).

Definition commit_test_delay : H bool :=
  take_budget commit_delay_count
    (λ b n, mk_budgets (write_delay_count b) (finalize_delay_count b) n (persist_fail_count b)).

(** [chunk_store_get(c_inode, ss_state_dir)], which attaches the store it made. *)
Definition attach_store (c : compound) : H (option chunk_store) := λ s,
  let i := s_inode s in
  let '(cs, y) := chunk_store_get grants (i_chunk_store i) (i_ino i)
                    (ss_state_dir (c_server_state c)) (s_sys s) in
  (inr cs, set_sys y (set_inode (with_store i cs) s)).

(** [chunk_store_persist(cs, ss_state_dir, i_ino)]; a null directory prints as
    "(null)". *)
Definition persist (c : compound) : H Z := λ s,
  let i := s_inode s in
  let dir := default "(null)"%string (ss_state_dir (c_server_state c)) in
  let '(ret, cs, y) := chunk_store_persist grants (i_chunk_store i) dir (i_ino i) (s_sys s) in
  (inr ret, set_sys y (set_inode (with_store i cs) s)).

Definition bump_stats (c : compound) (f : reffs_chunk_stats → reffs_chunk_stats) : H () :=
  when (c_curr_sb c) (modify (map_cstats f)).

Definition lift {A} (r : Z + A) : H A :=
  match r with inl e => throw (Status e) | inr a => mret a end.

(** The data of a payload goes into the data block, made when there is none. *)
Definition write_data (p : payload) : H () :=
  let offset := s64 (s64 (pl_offset p) * pl_chunk_size p) in
  db ← gets (λ s, i_db (s_inode s));
  match db with
  | None =>
      match data_block_alloc ops (callocs AllocDataBlock) (Some (pl_chunks p)) (total_data p) offset
      with
      | None => throw Fault
      | Some None => throw (Status NFS4ERR_NOSPC)
      | Some (Some db) => on_inode (λ i, with_db i (Some db))
      end
  | Some _ =>
      match data_block_write ops db (pl_chunks p) offset with
      | None => throw Fault
      | Some (wret, db) =>
          on_inode (λ i, with_db i db);;
          reject (wret <? 0)%Z (Status NFS4ERR_IO)
      end
  end.

Definition grow_size (p : payload) : H () :=
  let new_end := s64 (s64 (s64 (pl_offset p) * pl_chunk_size p) + total_data p) in
  on_inode (λ i, if (i_size i <? new_end)%Z then with_size i new_end else i).

(** The metadata of chunk [i]. *)
Definition record_block (c : compound) (flags : Z) (p : payload) (nchunks : Z) (i : nat) : H () :=
  cs ← the_store;
  let off := u64w (pl_offset p + Z.of_nat i) in
  let old_blk := chunk_store_lookup (Some cs) off in
  let lock_blk := chunk_store_lookup_any (Some cs) off in
  let '(ret, cs) := chunk_store_write grants cs off
                      (new_block c flags p nchunks i old_blk lock_blk) in
  set_store cs;;
  reject (ret <? 0)%Z (Status NFS4ERR_DELAY).

(** *** CHUNK_WRITE *)

(** The counters of chunk [i], before its metadata is recorded. *)
Definition count_chunk (c : compound) (p : payload) (nchunks : Z) (i : nat) : H () :=
  cs ← the_store;
  bump_stats c (count_block
    (is_some (chunk_store_lookup (Some cs) (u64w (pl_offset p + Z.of_nat i))))
    (chunk_len p nchunks i =? pl_chunk_size p)%Z).

(** Past the gate: the data, the size of the file, and the metadata of each chunk. *)
Definition write_chunks (c : compound) (a : CHUNK_WRITE4args) (nchunks : Z) : H CHUNK_WRITE4resok :=
  let p := payload_of_write a in
  write_data p;;
  grow_size p;;
  reject (negb (callocs AllocWriteResults)) (Status NFS4ERR_DELAY);;
  mfor 0 (Z.to_nat nchunks) (λ i _,
    count_chunk c p nchunks i;; record_block c 0 p nchunks i) tt;;
  bump_stats c (count_write nchunks);;
  mret (mk_write_res nchunks
          (if (cwa_stable a =? FILE_SYNC4)%Z then FILE_SYNC4 else UNSTABLE4)
          (chunk_write_verf (c_server_state c))
          (replicate (Z.to_nat nchunks) NFS4_OK)
          (replicate (Z.to_nat nchunks) false)
          (map (λ i, mk_owner (cwa_cohort_id a) (cwa_client_id a)
                       (rd 0%Z (cwa_co_ids a) i)) (seq 0 (Z.to_nat nchunks)))).

Definition nfs4_op_chunk_write (c : compound) (a : CHUNK_WRITE4args) : H CHUNK_WRITE4resok :=
  let p := payload_of_write a in
  i ← gets s_inode;
  '(wire_algo, nchunks) ← lift (chunk_write_validate_payload h c i p);
  reject (negb (chunk_validate_co_ids (cwa_co_ids a) nchunks)) (Status NFS4ERR_INVAL);;
  chunk_check_trusted_stateid c (cwa_stateid a) (cwa_client_id a) false;;
  cs ← attach_store c;
  match cs with
  | None => throw (Status NFS4ERR_DELAY)
  | Some cs =>
      delayed ← chunk_write_test_delay (is_some (cwa_guard a)) cs (cwa_offset a) nchunks;
      reject delayed (Status NFS4ERR_DELAY);;
      match adopt_policy cs p wire_algo with
      | None => throw (Status NFS4ERR_INVAL)
      | Some cs =>
          set_store cs;;
          match write_gate cs a nchunks with
          | Some (e, busy) =>
              when busy (bump_stats c count_busy);; throw (Status e)
          | None => write_chunks c a nchunks
          end
      end
  end.

(** *** CHUNK_WRITE_REPAIR *)

Definition nfs4_op_chunk_write_repair (c : compound) (a : CHUNK_WRITE_REPAIR4args)
    : H CHUNK_WRITE_REPAIR4resok :=
  let p := payload_of_repair a in
  i ← gets s_inode;
  '(wire_algo, nchunks) ← lift (chunk_write_validate_payload h c i p);
  reject (negb (chunk_validate_co_ids (cwra_co_ids a) nchunks)) (Status NFS4ERR_INVAL);;
  reject (stateid4_is_special (cwra_stateid a)) (Status NFS4ERR_BAD_STATEID);;
  chunk_check_trusted_stateid c (cwra_stateid a) (cwra_client_id a) true;;
  bump_stats c count_initiated;;
  cs ← attach_store c;
  match cs with
  | None => throw (Status NFS4ERR_DELAY)
  | Some cs =>
      reject (existsb (λ i, is_some (chunk_lock_conflict cs (u64w (cwra_offset a + Z.of_nat i)) 1
                                       (cwra_cohort_id a) (cwra_client_id a)
                                       (rd 0%Z (cwra_co_ids a) i)))
                (seq 0 (Z.to_nat nchunks))) (Status NFS4ERR_CHUNK_LOCKED);;
      match adopt_policy cs p wire_algo with
      | None => throw (Status NFS4ERR_INVAL)
      | Some cs =>
          set_store cs;;
          write_data p;;
          grow_size p;;
          mfor 0 (Z.to_nat nchunks) (λ i _,
            record_block c CHUNK_BLOCK_REPAIR_PROVENANCE p nchunks i) tt;;
          reject (negb (callocs AllocStatus)) (Status NFS4ERR_DELAY);;
          mret (mk_repair_res nchunks
                  (if (cwra_stable a =? FILE_SYNC4)%Z then FILE_SYNC4 else UNSTABLE4)
                  (chunk_write_verf (c_server_state c))
                  (replicate (Z.to_nat nchunks) NFS4_OK))
      end
  end.

(** *** CHUNK_READ *)

(** The blocks that can be read from the start of the range, and whether a pending
    one ended them. *)
Definition available (cs : chunk_store) (offset count : Z) : Z * bool :=
  match for_break 0 (Z.to_nat count) (λ i (avail : Z),
          match chunk_store_lookup (Some cs) (u64w (offset + Z.of_nat i)) with
          | Some blk =>
              if (CHUNK_STATE_FINALIZED <=? cb_state blk)%Z then inl (avail + 1)%Z
              else inr (avail, (cb_state blk =? CHUNK_STATE_PENDING)%Z)
          | None => inr (avail, false)
          end) 0%Z with
  | inl avail => (avail, false)
  | inr r => r
  end.

(** The answer for a block: its metadata, and its data unless it is in error. *)
Definition read_meta (blk : chunk_block) (checksum : checksum4) (status : Z) (data : list byte)
    : read_chunk4 :=
  mk_read_chunk checksum (cb_chunk_size blk)
    (mk_owner (cb_cohort_id blk) (cb_client_id blk) (cb_owner_id blk))
    (mk_guard (cb_gen_id blk) (cb_client_id blk)) (cb_payload_id blk)
    (if has_flag (cb_flags blk) CHUNK_BLOCK_LOCKED then CHUNK_STATE_FLAGS_LOCKED else 0)
    status data.

(** A zeroed buffer of [size] bytes into which [data_block_read] copied. *)
Definition read_data (db : option (data_block P)) (size offset : Z) : option (list byte) :=
  let buf := replicate (Z.to_nat size) x00 in
  match db with
  | None => Some buf
  | Some _ =>
      match data_block_read ops db size offset with
      | None => None
      | Some (_, bs) => Some (splice 0 bs buf)
      end
  end.

(** One chunk of the reply: go on, stop with what there is, or fail.  A checksum
    that does not match is only logged. *)
Definition read_one (cs : chunk_store) (db : option (data_block P)) (offset : Z) (i : nat)
    (acc : list read_chunk4) : list read_chunk4 + (fail + list read_chunk4) :=
  let off := u64w (offset + Z.of_nat i) in
  match chunk_store_lookup (Some cs) off with
  | None => inr (inl Fault)
  | Some blk =>
      match chunk_checksum_pack (callocs (AllocReadChecksum i)) (cb_checksum_algorithm blk)
              (cb_checksum_value blk) (cb_checksum_len blk) with
      | inl _ => inr (inl (Status NFS4ERR_DELAY))
      | inr checksum =>
          if has_flag (cb_flags blk) CHUNK_BLOCK_ERROR
          then inl (acc ++ [read_meta blk checksum NFS4ERR_PAYLOAD_NOT_ATOMIC []])
          else if negb (callocs (AllocReadData i)) then inr (inr acc)
          else
            match read_data db (cb_chunk_size blk) (s64 (u64w (off * cs_chunk_size cs))) with
            | None => inr (inl Fault)
            | Some data => inl (acc ++ [read_meta blk checksum NFS4_OK data])
            end
      end
  end.

Definition read_chunks (cs : chunk_store) (db : option (data_block P)) (offset avail : Z)
    : fail + list read_chunk4 :=
  match for_break 0 (Z.to_nat avail) (read_one cs db offset) [] with
  | inl acc => inr acc
  | inr r => r
  end.

(** The store in memory, or the one on disk. *)
Definition load_store_for_read (c : compound) : H (option chunk_store) := λ s,
  let i := s_inode s in
  match i_chunk_store i, ss_state_dir (c_server_state c) with
  | None, Some dir =>
      let '(cs, y) := chunk_store_load grants dir (i_ino i) (s_sys s) in
      (inr cs, set_sys y (set_inode (with_store i cs) s))
  | cs, _ => (inr cs, s)
  end.

Definition nfs4_op_chunk_read (c : compound) (a : CHUNK_READ4args) : H CHUNK_READ4resok :=
  i ← gets s_inode;
  reject (network_file_handle_empty (c_curr_nfh c)) (Status NFS4ERR_NOFILEHANDLE);;
  reject (negb (c_inode c) || negb (S_ISREG (i_mode i))) (Status NFS4ERR_INVAL);;
  reject (chunk_op_on_non_chunked c i) (Status NFS4ERR_NOTSUPP);;
  let count := cra_count a in
  if (count =? 0)%Z then mret (mk_read_res true [])
  else
    chunk_check_trusted_stateid c (cra_stateid a) CHUNK_GUARD_CLIENT_ID_NONE false;;
    cs ← load_store_for_read c;
    match cs with
    | None => throw (Status NFS4ERR_NOENT)
    | Some cs =>
        let '(avail, pending_seen) := available cs (cra_offset a) count in
        reject (avail =? 0)%Z (Status (if pending_seen then NFS4ERR_DELAY else NFS4ERR_NOENT));;
        reject (negb (callocs AllocReadChunks)) (Status NFS4ERR_DELAY);;
        db ← gets (λ s, i_db (s_inode s));
        match read_chunks cs db (cra_offset a) avail with
        | inl e => throw e
        | inr chunks =>
            mret (mk_read_res (cs_nblocks cs <=? u64w (cra_offset a + avail))%Z chunks)
        end
    end.

(** *** CHUNK_FINALIZE and CHUNK_COMMIT *)

Definition no_store : H chunk_store :=
  cs ← get_store;
  match cs with Some cs => mret cs | None => throw (Status NFS4ERR_NOENT) end.

(** A lock in the range that one of the owners does not hold. *)
Definition owners_locked_out (cs : chunk_store) (offset count : Z) (owners : list chunk_owner4)
    : bool :=
  existsb (λ co, is_some (chunk_lock_conflict cs offset count (co_cohort_id co) (co_client_id co)
                            (co_id co))) owners.

(** Each owner's block in turn, with the status of each. *)
Definition transition_owners (cs : chunk_store) (offset count from_state to_state : Z)
    (owners : list chunk_owner4) : list Z * chunk_store :=
  fold_left (λ '(statuses, cs) co,
    let '(ret, cs) := chunk_store_transition cs offset count (co_cohort_id co) (co_client_id co)
                        (co_id co) from_state to_state in
    (statuses ++ [if (ret =? 0)%Z then NFS4_OK else NFS4ERR_INVAL], cs)) owners ([], cs).

(** The owners whose status was [NFS4_OK] go back. *)
Definition undo_transitions (cs : chunk_store) (offset count from_state to_state : Z)
    (owners : list chunk_owner4) (statuses : list Z) : chunk_store :=
  fold_left (λ cs '(co, st),
    if (st =? NFS4_OK)%Z
    then snd (chunk_store_transition cs offset count (co_cohort_id co) (co_client_id co) (co_id co)
                to_state from_state)
    else cs) (zip owners statuses) cs.

Definition nfs4_op_chunk_finalize (c : compound) (a : CHUNK_FINALIZE4args)
    : H CHUNK_FINALIZE4resok :=
  i ← gets s_inode;
  reject (network_file_handle_empty (c_curr_nfh c)) (Status NFS4ERR_NOFILEHANDLE);;
  reject (negb (c_inode c)) (Status NFS4ERR_INVAL);;
  reject (chunk_op_on_non_chunked c i) (Status NFS4ERR_NOTSUPP);;
  let count := cfa_count a in
  let nowners := Z.of_nat (length (cfa_chunks a)) in
  reject (nowners =? 0)%Z (Status NFS4ERR_INVAL);;
  reject (negb (chunk_lifecycle_check_range (cfa_offset a) count)) (Status NFS4ERR_INVAL);;
  reject (negb (chunk_lifecycle_check_bounds nowners)) (Status NFS4ERR_INVAL);;
  chunk_check_trusted_stateid c (cfa_stateid a) CHUNK_GUARD_CLIENT_ID_NONE false;;
  reject (existsb (λ co, chunk_cid_is_reserved (co_client_id co)) (cfa_chunks a))
    (Status NFS4ERR_INVAL);;
  cs ← no_store;
  delayed ← finalize_test_delay;
  reject delayed (Status NFS4ERR_DELAY);;
  reject (owners_locked_out cs (cfa_offset a) count (cfa_chunks a)) (Status NFS4ERR_CHUNK_LOCKED);;
  reject (negb (callocs AllocStatus)) (Status NFS4ERR_DELAY);;
  let '(statuses, cs) := transition_owners cs (cfa_offset a) count CHUNK_STATE_PENDING
                           CHUNK_STATE_FINALIZED (cfa_chunks a) in
  set_store cs;;
  ret ← persist c;
  if negb (ret =? 0)%Z then
    cs ← the_store;
    set_store (undo_transitions cs (cfa_offset a) count CHUNK_STATE_PENDING CHUNK_STATE_FINALIZED
                 (cfa_chunks a) statuses);;
    throw (Status NFS4ERR_SERVERFAULT)
  else mret (mk_finalize_res (chunk_write_verf (c_server_state c)) statuses).

Definition nfs4_op_chunk_commit (c : compound) (a : CHUNK_COMMIT4args) : H CHUNK_COMMIT4resok :=
  i ← gets s_inode;
  reject (network_file_handle_empty (c_curr_nfh c)) (Status NFS4ERR_NOFILEHANDLE);;
  reject (negb (c_inode c)) (Status NFS4ERR_INVAL);;
  reject (chunk_op_on_non_chunked c i) (Status NFS4ERR_NOTSUPP);;
  let count := cca_count a in
  let nowners := Z.of_nat (length (cca_chunks a)) in
  reject (nowners =? 0)%Z (Status NFS4ERR_INVAL);;
  reject (negb (chunk_lifecycle_check_range (cca_offset a) count)) (Status NFS4ERR_INVAL);;
  reject (negb (chunk_lifecycle_check_bounds nowners)) (Status NFS4ERR_INVAL);;
  chunk_check_trusted_stateid c (cca_stateid a) CHUNK_GUARD_CLIENT_ID_NONE false;;
  reject (existsb (λ co, chunk_cid_is_reserved (co_client_id co)) (cca_chunks a))
    (Status NFS4ERR_INVAL);;
  cs ← no_store;
  delayed ← commit_test_delay;
  reject delayed (Status NFS4ERR_DELAY);;
  reject (owners_locked_out cs (cca_offset a) count (cca_chunks a)) (Status NFS4ERR_CHUNK_LOCKED);;
  reject (negb (callocs AllocStatus)) (Status NFS4ERR_DELAY);;
  let '(statuses, cs) := transition_owners cs (cca_offset a) count CHUNK_STATE_FINALIZED
                           CHUNK_STATE_COMMITTED (cca_chunks a) in
  set_store cs;;
  ret ← persist c;
  if negb (ret =? 0)%Z then
    cs ← the_store;
    set_store (undo_transitions cs (cca_offset a) count CHUNK_STATE_FINALIZED CHUNK_STATE_COMMITTED
                 (cca_chunks a) statuses);;
    throw (Status NFS4ERR_SERVERFAULT)
  else
    inode_sync_to_disk;;
    mret (mk_commit_res (chunk_write_verf (c_server_state c)) statuses).

(** *** CHUNK_ROLLBACK *)

Definition nfs4_op_chunk_rollback (c : compound) (a : CHUNK_ROLLBACK4args)
    : H CHUNK_ROLLBACK4resok :=
  bump_stats c count_rollback;;
  i ← gets s_inode;
  reject (network_file_handle_empty (c_curr_nfh c)) (Status NFS4ERR_NOFILEHANDLE);;
  reject (negb (c_inode c)) (Status NFS4ERR_INVAL);;
  reject (chunk_op_on_non_chunked c i) (Status NFS4ERR_NOTSUPP);;
  let count := crb_count a in
  let nowners := Z.of_nat (length (crb_chunks a)) in
  reject (nowners =? 0)%Z (Status NFS4ERR_INVAL);;
  reject (negb (chunk_lifecycle_check_range (crb_offset a) count)) (Status NFS4ERR_INVAL);;
  reject (negb (chunk_lifecycle_check_bounds nowners)) (Status NFS4ERR_INVAL);;
  chunk_check_trusted_stateid c (crb_stateid a) CHUNK_GUARD_CLIENT_ID_NONE false;;
  cs ← no_store;
  reject (owners_locked_out cs (crb_offset a) count (crb_chunks a)) (Status NFS4ERR_CHUNK_LOCKED);;
  mfor 0 (length (crb_chunks a)) (λ i _,
    cs ← the_store;
    let co := rd (mk_owner 0 0 0) (crb_chunks a) i in
    let '(ret, cs) := chunk_store_rollback cs (crb_offset a) count (co_cohort_id co)
                        (co_client_id co) (co_id co) in
    set_store cs;;
    reject (ret =? - ENOTSUP)%Z (Status NFS4ERR_NOTSUPP);;
    reject (ret <? 0)%Z (Status NFS4ERR_INVAL)) tt;;
  ret ← persist c;
  reject (negb (ret =? 0)%Z) (Status NFS4ERR_SERVERFAULT);;
  mret (mk_rollback_res (chunk_write_verf (c_server_state c))).

(** *** CHUNK_ERROR, CHUNK_REPAIRED and CHUNK_HEADER_READ *)

Definition set_cb_flags (b : chunk_block) (flags : Z) : chunk_block :=
  mk_block (cb_state b) flags (cb_gen_id b) (cb_client_id b) (cb_cohort_id b) (cb_owner_id b)
    (cb_payload_id b) (cb_checksum_algorithm b) (cb_checksum_len b) (cb_checksum_value b)
    (cb_chunk_size b) (cb_writer_clientid b) (cb_lock_cohort_id b) (cb_lock_client_id b)
    (cb_lock_owner_id b) (cb_lock_offset b) (cb_lock_count b) (cb_lock_flags b)
    (cb_lock_stateid b) (cb_lock_escrow_id b).

(** Replace each block of the range that has an entry and mark the store dirty. *)
Definition edit_range (cs : chunk_store) (offset count : Z) (f : chunk_block → chunk_block)
    : chunk_store :=
  for_range 0 (Z.to_nat count) (λ i cs,
    let off := u64w (offset + Z.of_nat i) in
    if (cs_nblocks cs <=? off)%Z then cs
    else set_blocks cs (wr (cs_blocks cs) (Z.to_nat off) (f (blk_at cs off))) true) cs.

Definition range_all (cs : chunk_store) (offset count : Z) (test : chunk_block → bool) : bool :=
  forallb (λ i, match chunk_store_lookup (Some cs) (u64w (offset + Z.of_nat i)) with
                | Some blk => test blk
                | None => false
                end) (seq 0 (Z.to_nat count)).

Definition committed (blk : chunk_block) : bool := (cb_state blk =? CHUNK_STATE_COMMITTED)%Z.

Definition set_error (blk : chunk_block) : chunk_block :=
  set_cb_flags blk (Z.lor (cb_flags blk) CHUNK_BLOCK_ERROR).
Definition clear_error (blk : chunk_block) : chunk_block :=
  set_cb_flags blk (Z.ldiff (cb_flags blk) CHUNK_BLOCK_ERROR).

Definition reportable (e : Z) : bool :=
  (e =? NFS4ERR_PAYLOAD_NOT_ATOMIC)%Z || (e =? NFS4ERR_IO)%Z || (e =? NFS4ERR_INVAL)%Z.

Definition nfs4_op_chunk_error (c : compound) (a : CHUNK_ERROR4args) : H () :=
  i ← gets s_inode;
  reject (network_file_handle_empty (c_curr_nfh c)) (Status NFS4ERR_NOFILEHANDLE);;
  reject (negb (c_inode c) || negb (S_ISREG (i_mode i))) (Status NFS4ERR_INVAL);;
  reject (chunk_op_on_non_chunked c i) (Status NFS4ERR_NOTSUPP);;
  reject (negb (chunk_lifecycle_check_range (cea_offset a) (cea_count a))
          || chunk_cid_is_reserved (co_client_id (cea_owner a))) (Status NFS4ERR_INVAL);;
  reject (negb (reportable (cea_error a))) (Status NFS4ERR_INVAL);;
  chunk_check_trusted_stateid c (cea_stateid a) (co_client_id (cea_owner a)) false;;
  cs ← no_store;
  reject (negb (range_all cs (cea_offset a) (cea_count a) committed)) (Status NFS4ERR_INVAL);;
  set_store (edit_range cs (cea_offset a) (cea_count a) set_error);;
  ret ← persist c;
  reject (negb (ret =? 0)%Z) (Status NFS4ERR_SERVERFAULT).

Definition repair_flagged (f : layout_data_file) : bool :=
  has_flag (ldf_flags f) FFV2_DS_FLAGS_REPAIR.

Definition clear_repair_flag (f : layout_data_file) : layout_data_file :=
  if repair_flagged f
  then mk_data_file (ldf_dstore_id f) (ldf_fh f) (Z.ldiff (ldf_flags f) FFV2_DS_FLAGS_REPAIR)
  else f.

Definition clear_segment (s : layout_segment) : layout_segment :=
  mk_segment (ls_offset s) (ls_length s) (map clear_repair_flag (ls_files s)).

(** How many mirrors are flagged. *)
Definition flagged_mirrors (lss : list layout_segment) : Z :=
  fold_left (λ n s, u32w (n + Z.of_nat (length (List.filter repair_flagged (ls_files s))))) lss 0%Z.

(** The quarantine of the blocks, when the request names a range. *)
Definition clear_quarantine (c : compound) (a : CHUNK_REPAIRED4args) : H Z :=
  if (0 <? cpa_count a)%Z then
    cs ← get_store;
    match cs with
    | None => throw (Status NFS4ERR_INVAL)
    | Some cs =>
        reject (negb (chunk_lifecycle_check_range (cpa_offset a) (cpa_count a)))
          (Status NFS4ERR_INVAL);;
        reject (negb (range_all cs (cpa_offset a) (cpa_count a)
                        (λ blk, committed blk && has_flag (cb_flags blk) CHUNK_BLOCK_ERROR)))
          (Status NFS4ERR_INVAL);;
        set_store (edit_range cs (cpa_offset a) (cpa_count a) clear_error);;
        ret ← persist c;
        if negb (ret =? 0)%Z then
          cs ← the_store;
          set_store (edit_range cs (cpa_offset a) (cpa_count a) set_error);;
          throw (Status NFS4ERR_SERVERFAULT)
        else mret (cpa_count a)
    end
  else mret 0%Z.

Definition nfs4_op_chunk_repaired (c : compound) (a : CHUNK_REPAIRED4args) : H () :=
  i ← gets s_inode;
  reject (network_file_handle_empty (c_curr_nfh c)) (Status NFS4ERR_NOFILEHANDLE);;
  reject (negb (c_inode c) || negb (S_ISREG (i_mode i))) (Status NFS4ERR_INVAL);;
  reject (chunk_op_on_non_chunked c i) (Status NFS4ERR_NOTSUPP);;
  reject (chunk_cid_is_reserved (co_client_id (cpa_owner a))) (Status NFS4ERR_INVAL);;
  chunk_check_trusted_stateid c (cpa_stateid a) (co_client_id (cpa_owner a)) true;;
  match i_layout_segments i with
  | None | Some [] => throw (Status NFS4ERR_INVAL)
  | Some lss =>
      cleared_chunks ← clear_quarantine c a;
      let cleared := flagged_mirrors lss in
      on_inode (λ i, with_segments i (Some (map clear_segment lss)));;
      when (0 <? cleared)%Z (inode_sync_to_disk;; bump_stats c (count_completed cleared));;
      when (0 <? cleared_chunks)%Z (bump_stats c (count_completed cleared_chunks))
  end.

Definition nfs4_op_chunk_header_read : H () := throw (Status NFS4ERR_NOTSUPP).

End Ops.

End ChunkOps.
