(* ===== verification/ChunkLock.v ===== *)
(** * Chunk locks and escrows ([src/lib/nfs4/server/chunk.c])

    CHUNK_LOCK and CHUNK_UNLOCK, the metadata server's escrow operations, and the
    rollback of everything an expired client left in flight. *)

From S2P Require Import Prelude.
From S2P Require Import Words.
From S2P Require Import Posix.
From S2P Require Import ChunkStore.
From S2P Require Import ChunkDisk.
From S2P Require Import Handler.
From S2P Require Import Nfs4.
From S2P Require Import Checksum.
From S2P Require Import Trust.
From S2P Require Import DataBlock.
From S2P Require Import ChunkOps.
From stdpp Require Import strings.
Import Words Posix ChunkStore ChunkDisk Handler Nfs4 Checksum Trust DataBlock ChunkOps.

Module ChunkLock.

(** ** Helpers *)

Definition chunk_lock_owner_equal (blk : chunk_block) (owner : chunk_owner4) : bool :=
  chunk_lock_owner_values_equal blk (co_cohort_id owner) (co_client_id owner) (co_id owner).

Definition chunk_lock_range_equal (blk : chunk_block) (offset count : Z) : bool :=
  (cb_lock_offset blk =? offset)%Z && (cb_lock_count blk =? count)%Z.

Definition chunk_lock_pack_stateid (stateid : stateid4) : list byte :=
  le_split 4 (seqid stateid) ++ other stateid.

Definition chunk_lock_stateid_equal (blk : chunk_block) (stateid : stateid4) : bool :=
  bool_decide (cb_lock_stateid blk = chunk_lock_pack_stateid stateid).

(** A block with other flags and another lock. *)
Definition set_lock (b : chunk_block) (flags writer cohort_id client_id owner_id offset count lflags : Z)
    (stateid escrow_id : list byte) : chunk_block :=
  mk_block (cb_state b) flags (cb_gen_id b) (cb_client_id b) (cb_cohort_id b) (cb_owner_id b)
    (cb_payload_id b) (cb_checksum_algorithm b) (cb_checksum_len b) (cb_checksum_value b)
    (cb_chunk_size b) writer cohort_id client_id owner_id offset count lflags stateid escrow_id.

(** The escrow identity that an adopted lock came from survives the unlock. *)
Definition chunk_lock_clear (b : chunk_block) : chunk_block :=
  let preserve_escrow := negb (has_flag (cb_flags b) CHUNK_BLOCK_ESCROW)
                         && negb (escrow_id_is_zero (cb_lock_escrow_id b)) in
  let flags := Z.ldiff (cb_flags b) CHUNK_BLOCK_LOCKED in
  set_lock b (if preserve_escrow then flags else Z.ldiff flags CHUNK_BLOCK_ESCROW)
    (cb_writer_clientid b) 0 0 0 0 0 0 (zero_bytes CHUNK_LOCK_STATEID_SIZE)
    (if preserve_escrow then cb_lock_escrow_id b else zero_bytes CHUNK_LOCK_ESCROW_ID_SIZE).

Definition chunk_escrow_id_is_zero (id : list byte) : bool :=
  bool_decide (id = replicate 16 x00).

Definition chunk_mds_control_session (c : compound) : bool :=
  match c_nfs4_client c with
  | Some nc => has_flag (nc_exchgid_flags nc) EXCHGID4_FLAG_USE_PNFS_MDS
  | None => false
  end.

Definition is_locked (blk : chunk_block) : bool := has_flag (cb_flags blk) CHUNK_BLOCK_LOCKED.

Definition chunk_escrow_matches (blk : option chunk_block) (offset count : Z) (id : list byte)
    : bool :=
  match blk with
  | None => false
  | Some blk =>
      (Z.land (cb_flags blk) (Z.lor CHUNK_BLOCK_LOCKED CHUNK_BLOCK_ESCROW)
       =? Z.lor CHUNK_BLOCK_LOCKED CHUNK_BLOCK_ESCROW)%Z
      && (cb_lock_client_id blk =? CHUNK_GUARD_CLIENT_ID_MDS)%Z
      && (cb_lock_cohort_id blk =? 0)%Z && (cb_lock_owner_id blk =? 0)%Z
      && chunk_lock_range_equal blk offset count && bool_decide (cb_lock_escrow_id blk = id)
  end.

(** ** Handlers *)

Section Ops.

Context {P : Type} (grants : elem → Z → bool) (callocs : site → bool).

Abbreviation H := (H (P := P)).

Definition chunk_mds_epoch_check (c : compound) (requested : Z) : H () := λ s,
  let '(r, y) := chunk_mds_epoch_load (ss_state_dir (c_server_state c)) (s_sys s) in
  let s := set_sys y s in
  match r with
  | inl _ => (inl (Status NFS4ERR_STALE_MDS_EPOCH), s)
  | inr e =>
      if negb (epoch e =? requested)%Z || (expires_at_ns e =? 0)%Z
         || (expires_at_ns e <=? c_now c)%Z
      then (inl (Status NFS4ERR_STALE_MDS_EPOCH), s) else (inr tt, s)
  end.

(** [chunk_store_refresh_escrows(cs) != 0] ends with a server fault. *)
Definition refresh_index : H () :=
  cs ← the_store;
  let '(ret, cs) := chunk_store_refresh_escrows grants cs in
  set_store cs;;
  reject (negb (ret =? 0)%Z) (Status NFS4ERR_SERVERFAULT).

(** The entry of an offset, made when the array does not reach it: whether it was
    made, and the block. *)
Definition entry_at (off : Z) : H (bool * chunk_block) :=
  cs ← the_store;
  match chunk_store_lookup_any (Some cs) off with
  | Some blk => mret (false, blk)
  | None =>
      let '(ret, cs) := chunk_store_write grants cs off zero_block in
      set_store cs;;
      reject (negb (ret =? 0)%Z) (Status NFS4ERR_SERVERFAULT);;
      mret (true, blk_at cs off)
  end.

Definition put_block (off : Z) (blk : chunk_block) : H () :=
  cs ← the_store;
  set_store (set_blocks cs (wr (cs_blocks cs) (Z.to_nat off) blk) true).

(** What was there before: whether the entry was made, and the block. *)
Definition saved_blocks : Type := list (bool * chunk_block).

(** The entries go back; those that were made become empty. *)
Definition restore_blocks (cs : chunk_store) (offset : Z) (saved : saved_blocks) : chunk_store :=
  let cs :=
    for_range 0 (length saved) (λ i cs,
      let off := u64w (offset + Z.of_nat i) in
      let '(created, blk) := rd (false, zero_block) saved i in
      if (cs_nblocks cs <=? off)%Z then cs
      else set_blocks cs (wr (cs_blocks cs) (Z.to_nat off)
                            (if created then zero_block else blk)) (cs_dirty cs)) cs in
  set_blocks cs (cs_blocks cs) true.

Definition chunk_escrow_restore_install (offset : Z) (saved : saved_blocks) : H () :=
  cs ← the_store;
  set_store (restore_blocks cs offset saved).

(** [chunk_test_persist_failure(ss) || chunk_store_persist(...) != 0] *)
Definition persist_fails (c : compound) : H bool :=
  injected ← chunk_test_persist_failure (P := P);
  if (injected : bool) then mret true
  else ret ← persist grants c; mret (negb (ret =? 0)%Z).

(** *** CHUNK_LOCK *)

Definition adopting (a : CHUNK_LOCK4args) : bool := has_flag (cla_flags a) CHUNK_LOCK_FLAGS_ADOPT.

Definition lock_flags_bad (a : CHUNK_LOCK4args) : bool :=
  let flags := cla_flags a in
  negb (Z.ldiff flags (Z.lor CHUNK_LOCK_FLAGS_ADOPT CHUNK_LOCK_FLAGS_TAKEOVER) =? 0)%Z
  || (adopting a && negb (is_some (cla_adopt a)))
  || (negb (adopting a) && is_some (cla_adopt a))
  || (adopting a && has_flag flags CHUNK_LOCK_FLAGS_TAKEOVER).

(** [cla_escrow_id] of the union, read when its discriminant is true. *)
Definition lock_escrow_id (a : CHUNK_LOCK4args) : list byte := default [] (cla_adopt a).

(** What the scan of the range finds: go on, or how it ends. *)
Definition lock_scan (cs : chunk_store) (a : CHUNK_LOCK4args) : () + fail :=
  for_break 0 (Z.to_nat (cla_count a)) (λ i (_ : unit),
    let blk := chunk_store_lookup_any (Some cs) (u64w (cla_offset a + Z.of_nat i)) in
    if adopting a then
      if negb (chunk_escrow_matches blk (cla_offset a) (cla_count a) (lock_escrow_id a))
      then inr (Status NFS4ERR_NO_ADOPTABLE_LOCK) else inl tt
    else
      match blk with
      | None => inl tt
      | Some blk =>
          if negb (is_locked blk) then inl tt
          else if negb (chunk_lock_owner_equal blk (cla_owner a))
                  || negb (chunk_lock_range_equal blk (cla_offset a) (cla_count a))
                  || negb (chunk_lock_stateid_equal blk (cla_stateid a))
          then inr (LockedBy (mk_owner (cb_lock_cohort_id blk) (cb_lock_client_id blk)
                                (cb_lock_owner_id blk)))
          else inl tt
      end) tt.

(** The lock of the request on one block. *)
Definition locked_block (c : compound) (a : CHUNK_LOCK4args) (blk : chunk_block)
    : option chunk_block :=
  let o := cla_owner a in
  if adopting a then
    Some (set_lock blk (Z.ldiff (cb_flags blk) CHUNK_BLOCK_ESCROW) (client_id_of c)
            (co_cohort_id o) (co_client_id o) (co_id o) (cla_offset a) (cla_count a) 0
            (chunk_lock_pack_stateid (cla_stateid a)) (cb_lock_escrow_id blk))
  else if is_locked blk then None
  else
    Some (set_lock blk (Z.lor (cb_flags blk) CHUNK_BLOCK_LOCKED) (cb_writer_clientid blk)
            (co_cohort_id o) (co_client_id o) (co_id o) (cla_offset a) (cla_count a)
            (cla_flags a) (chunk_lock_pack_stateid (cla_stateid a))
            (zero_bytes CHUNK_LOCK_ESCROW_ID_SIZE)).

(** The locks of the range, once the store is there: the scan, the loop, and the
    blocks put back when they cannot be persisted. *)
Definition lock_range (c : compound) (a : CHUNK_LOCK4args) : H () :=
  cs ← the_store;
  reject (adopting a
          && negb (chunk_store_has_escrow (Some cs) (cla_offset a) (cla_count a) (lock_escrow_id a)))
    (Status NFS4ERR_NO_ADOPTABLE_LOCK);;
  match lock_scan cs a with
  | inr e => throw e
  | inl _ =>
      saved ← mfor 0 (Z.to_nat (cla_count a)) (λ i (saved : saved_blocks),
        let off := u64w (cla_offset a + Z.of_nat i) in
        '(created, blk) ← entry_at off;
        (match locked_block c a blk with
         | Some blk => put_block off blk
         | None => mret tt
         end);;
        mret (saved ++ [(created, blk)])) [];
      failed ← persist_fails c;
      if (failed : bool) then
        cs ← the_store;
        set_store (restore_blocks cs (cla_offset a) saved);;
        throw (Status NFS4ERR_SERVERFAULT)
      else mret tt
  end.

Definition nfs4_op_chunk_lock (c : compound) (a : CHUNK_LOCK4args) : H () :=
  i ← gets s_inode;
  reject (network_file_handle_empty (c_curr_nfh c)) (Status NFS4ERR_NOFILEHANDLE);;
  reject (negb (c_inode c) || negb (S_ISREG (i_mode i))) (Status NFS4ERR_INVAL);;
  reject (chunk_op_on_non_chunked c i) (Status NFS4ERR_NOTSUPP);;
  reject (chunk_cid_is_reserved (co_client_id (cla_owner a))) (Status NFS4ERR_INVAL);;
  reject (negb (chunk_lifecycle_check_range (cla_offset a) (cla_count a))) (Status NFS4ERR_INVAL);;
  reject (lock_flags_bad a) (Status NFS4ERR_INVAL);;
  reject (has_flag (cla_flags a) CHUNK_LOCK_FLAGS_TAKEOVER) (Status NFS4ERR_NOTSUPP);;
  reject (negb (cla_flags a =? 0)%Z && chunk_escrow_id_is_zero (lock_escrow_id a))
    (Status NFS4ERR_INVAL);;
  chunk_check_trusted_stateid c (cla_stateid a) (co_client_id (cla_owner a)) true;;
  reject (negb (callocs AllocSaved)) (Status NFS4ERR_SERVERFAULT);;
  cs ← attach_store grants c;
  reject (negb (is_some cs)) (Status NFS4ERR_SERVERFAULT);;
  when (adopting a) refresh_index;;
  lock_range c a.

(** *** CHUNK_UNLOCK *)

(** A locked block of the range that another owner or another range holds. *)
Definition unlock_conflict (cs : chunk_store) (a : CHUNK_UNLOCK4args) : bool :=
  existsb (λ i,
    match chunk_store_lookup_any (Some cs) (u64w (cua_offset a + Z.of_nat i)) with
    | Some blk =>
        is_locked blk
        && (negb (chunk_lock_owner_equal blk (cua_owner a))
            || negb (chunk_lock_range_equal blk (cua_offset a) (cua_count a)))
    | None => false
    end) (seq 0 (Z.to_nat (cua_count a))).

(** The blocks that were locked, and the store without their locks. *)
Definition unlock_range (cs : chunk_store) (offset count : Z)
    : list (option chunk_block) * chunk_store :=
  for_range 0 (Z.to_nat count) (λ i '(saved, cs),
    let off := u64w (offset + Z.of_nat i) in
    match chunk_store_lookup_any (Some cs) off with
    | Some blk =>
        if is_locked blk
        then (saved ++ [Some blk],
              set_blocks cs (wr (cs_blocks cs) (Z.to_nat off) (chunk_lock_clear blk)) true)
        else (saved ++ [None], cs)
    | None => (saved ++ [None], cs)
    end) ([], cs).

Definition relock_range (cs : chunk_store) (offset : Z) (saved : list (option chunk_block))
    : chunk_store :=
  let cs :=
    for_range 0 (length saved) (λ i cs,
      match rd None saved i with
      | Some blk => set_blocks cs (wr (cs_blocks cs) (Z.to_nat (u64w (offset + Z.of_nat i))) blk)
                      (cs_dirty cs)
      | None => cs
      end) cs in
  set_blocks cs (cs_blocks cs) true.

Definition nfs4_op_chunk_unlock (c : compound) (a : CHUNK_UNLOCK4args) : H () :=
  i ← gets s_inode;
  reject (network_file_handle_empty (c_curr_nfh c)) (Status NFS4ERR_NOFILEHANDLE);;
  reject (negb (c_inode c) || negb (S_ISREG (i_mode i))) (Status NFS4ERR_INVAL);;
  reject (chunk_op_on_non_chunked c i) (Status NFS4ERR_NOTSUPP);;
  reject (chunk_cid_is_reserved (co_client_id (cua_owner a))) (Status NFS4ERR_INVAL);;
  reject (negb (chunk_lifecycle_check_range (cua_offset a) (cua_count a))) (Status NFS4ERR_INVAL);;
  chunk_check_trusted_stateid c (cua_stateid a) (co_client_id (cua_owner a)) true;;
  cs ← get_store;
  match cs with
  | None => mret tt
  | Some cs =>
      reject (negb (callocs AllocSaved)) (Status NFS4ERR_SERVERFAULT);;
      reject (unlock_conflict cs a) (Status NFS4ERR_INVAL);;
      let '(saved, cs) := unlock_range cs (cua_offset a) (cua_count a) in
      set_store cs;;
      ret ← persist grants c;
      if negb (ret =? 0)%Z then
        cs ← the_store;
        set_store (relock_range cs (cua_offset a) saved);;
        throw (Status NFS4ERR_SERVERFAULT)
      else mret tt
  end.

(** *** Escrows *)

Definition mds_prologue (c : compound) : H () :=
  i ← gets s_inode;
  reject (network_file_handle_empty (c_curr_nfh c)) (Status NFS4ERR_NOFILEHANDLE);;
  reject (negb (c_inode c) || negb (S_ISREG (i_mode i))) (Status NFS4ERR_INVAL);;
  reject (chunk_op_on_non_chunked c i) (Status NFS4ERR_NOTSUPP);;
  reject (negb (chunk_mds_control_session c)) (Status NFS4ERR_PERM).

Definition escrowed_block (a : CHUNK_ESCROW_INSTALL4args) (blk : chunk_block) : chunk_block :=
  set_lock blk (Z.lor (cb_flags blk) (Z.lor CHUNK_BLOCK_LOCKED CHUNK_BLOCK_ESCROW))
    (cb_writer_clientid blk) 0 CHUNK_GUARD_CLIENT_ID_MDS 0 (ceia_offset a) (ceia_count a) 0
    (zero_bytes CHUNK_LOCK_STATEID_SIZE) (ceia_escrow_id a).

Definition install_conflict (cs : chunk_store) (a : CHUNK_ESCROW_INSTALL4args) : bool :=
  existsb (λ i,
    let blk := chunk_store_lookup_any (Some cs) (u64w (ceia_offset a + Z.of_nat i)) in
    match blk with
    | Some b => is_locked b
                && negb (chunk_escrow_matches blk (ceia_offset a) (ceia_count a) (ceia_escrow_id a))
    | None => false
    end) (seq 0 (Z.to_nat (ceia_count a))).

(** [inl] runs when a statement fails: what was done so far is undone. *)
Definition on_fail {A} (m : H A) (cleanup : H ()) : H A := λ s,
  match m s with
  | (inl e, s) => (inl e, snd (cleanup s))
  | r => r
  end.

Definition install_one (a : CHUNK_ESCROW_INSTALL4args) (i : nat) (saved : saved_blocks)
    : H saved_blocks :=
  let off := u64w (ceia_offset a + Z.of_nat i) in
  '(created, blk) ← on_fail (entry_at off) (chunk_escrow_restore_install (ceia_offset a) saved);
  on_fail (cs ← the_store;
           let '(ret, cs) := chunk_store_touch grants cs off in
           set_store cs;;
           reject (negb (ret =? 0)%Z) (Status NFS4ERR_SERVERFAULT))
    (chunk_escrow_restore_install (ceia_offset a) saved);;
  (if chunk_escrow_matches (Some blk) (ceia_offset a) (ceia_count a) (ceia_escrow_id a)
   then mret tt else put_block off (escrowed_block a blk));;
  mret (saved ++ [(created, blk)]).

Definition nfs4_op_chunk_escrow_install (c : compound) (a : CHUNK_ESCROW_INSTALL4args)
    : H (list byte) :=
  mds_prologue c;;
  reject (negb (chunk_lifecycle_check_range (ceia_offset a) (ceia_count a))
          || chunk_escrow_id_is_zero (ceia_escrow_id a)) (Status NFS4ERR_INVAL);;
  chunk_mds_epoch_check c (ceia_mds_epoch a);;
  reject (negb (callocs AllocSaved)) (Status NFS4ERR_SERVERFAULT);;
  cs ← attach_store grants c;
  match cs with
  | None => throw (Status NFS4ERR_SERVERFAULT)
  | Some cs =>
      reject (install_conflict cs a) (Status NFS4ERR_CHUNK_LOCKED);;
      saved ← mfor 0 (Z.to_nat (ceia_count a)) (install_one a) [];
      failed ← persist_fails c;
      if (failed : bool) then
        chunk_escrow_restore_install (ceia_offset a) saved;;
        throw (Status NFS4ERR_SERVERFAULT)
      else mret (ceia_escrow_id a)
  end.

(** The blocks as they were, and the store without the escrow. *)
Definition release_range (cs : chunk_store) (offset count : Z) : saved_blocks * chunk_store :=
  for_range 0 (Z.to_nat count) (λ i '(saved, cs),
    let off := u64w (offset + Z.of_nat i) in
    let blk := blk_at cs off in
    (saved ++ [(false, blk)],
     set_blocks cs (wr (cs_blocks cs) (Z.to_nat off) (chunk_lock_clear blk)) true)) ([], cs).

Definition nfs4_op_chunk_escrow_release (c : compound) (a : CHUNK_ESCROW_RELEASE4args) : H () :=
  mds_prologue c;;
  reject (negb (chunk_lifecycle_check_range (cera_offset a) (cera_count a)))
    (Status NFS4ERR_INVAL);;
  chunk_mds_epoch_check c (cera_mds_epoch a);;
  cs ← get_store;
  reject (negb (is_some cs)) (Status NFS4ERR_STALE_ESCROW);;
  reject (negb (callocs AllocSaved)) (Status NFS4ERR_SERVERFAULT);;
  refresh_index;;
  cs ← the_store;
  reject (negb (chunk_store_has_escrow (Some cs) (cera_offset a) (cera_count a) (cera_escrow_id a)))
    (Status NFS4ERR_STALE_ESCROW);;
  reject (negb (forallb (λ i,
            chunk_escrow_matches (chunk_store_lookup_any (Some cs) (u64w (cera_offset a + Z.of_nat i)))
              (cera_offset a) (cera_count a) (cera_escrow_id a)) (seq 0 (Z.to_nat (cera_count a)))))
    (Status NFS4ERR_STALE_ESCROW);;
  let '(saved, cs) := release_range cs (cera_offset a) (cera_count a) in
  set_store cs;;
  failed ← persist_fails c;
  if (failed : bool) then
    cs ← the_store;
    set_store (restore_blocks cs (cera_offset a) saved);;
    throw (Status NFS4ERR_SERVERFAULT)
  else mret tt.

(** FNV over the boot sequence, the scope and the index. *)
Definition mix (verifier v : Z) : Z := u64w (Z.lxor verifier v * 1099511628211).

Definition enumerate_verifier (boot_seq offset count : Z) (ranges : list chunk_escrow_range) : Z :=
  let v := Z.lxor 1469598103934665603 boot_seq in
  let v := mix v offset in
  let v := mix v count in
  fold_left (λ v r,
    fold_left (λ v b, mix v (bz b)) (cer_id r) (mix (mix v (cer_offset r)) (cer_count r))) ranges v.

Definition in_scope (offset scope_end : Z) (r : chunk_escrow_range) : bool :=
  (offset <=? cer_offset r)%Z && (u64w (cer_offset r + cer_count r) <=? scope_end)%Z.

(** The entries from [position] on, at most [maxcount]; counting stops at the
    maximum, and where the collection stops the next page starts. *)
Fixpoint collect_page (offset scope_end : Z) (ranges : list chunk_escrow_range) (next nentries : nat)
    : list escrow_enum_entry4 * nat :=
  match ranges, nentries with
  | r :: ranges, S n =>
      if in_scope offset scope_end r then
        let '(entries, next) := collect_page offset scope_end ranges (S next) n in
        (mk_enum_entry (cer_offset r) (cer_count r) (cer_id r) :: entries, next)
      else collect_page offset scope_end ranges (S next) nentries
  | _, _ => ([], next)
  end.

Definition count_page (offset scope_end maxcount : Z) (ranges : list chunk_escrow_range) : nat :=
  Nat.min (length (List.filter (in_scope offset scope_end) ranges)) (Z.to_nat maxcount).

Definition nfs4_op_chunk_escrow_enumerate (c : compound) (a : CHUNK_ESCROW_ENUMERATE4args)
    : H CHUNK_ESCROW_ENUMERATE4resok :=
  mds_prologue c;;
  reject (negb (chunk_lifecycle_check_range (ceea_offset a) (ceea_count a)))
    (Status NFS4ERR_INVAL);;
  chunk_mds_epoch_check c (ceea_mds_epoch a);;
  if (ceea_maxcount a =? 0)%Z then mret (mk_enumerate_res true [] [])
  else
    reject (CHUNK_ESCROW_ENUMERATE_MAX4 <? ceea_maxcount a)%Z (Status NFS4ERR_INVAL);;
    let cookie := ceea_cookie a in
    let has_cookie := negb (length cookie =? 0)%nat in
    reject (has_cookie && negb (length cookie =? 16)%nat) (Status NFS4ERR_BAD_COOKIE);;
    let cookie_verifier := if has_cookie then le_combine (take 8 cookie) else 0%Z in
    let position := if has_cookie then le_combine (drop 8 cookie) else 0%Z in
    let scope_end := u64w (ceea_offset a + ceea_count a) in
    reject (scope_end <? ceea_offset a)%Z (Status NFS4ERR_INVAL);;
    cs ← attach_store grants c;
    reject (negb (is_some cs)) (Status NFS4ERR_SERVERFAULT);;
    refresh_index;;
    cs ← the_store;
    let verifier := enumerate_verifier (server_boot_seq (c_server_state c)) (ceea_offset a)
                      (ceea_count a) (cs_escrows cs) in
    reject (has_cookie && negb (cookie_verifier =? verifier)%Z) (Status NFS4ERR_BAD_COOKIE);;
    reject (Z.of_nat (length (cs_escrows cs)) <? position)%Z (Status NFS4ERR_BAD_COOKIE);;
    let rest := drop (Z.to_nat position) (cs_escrows cs) in
    let nentries := count_page (ceea_offset a) scope_end (ceea_maxcount a) rest in
    reject (negb (nentries =? 0)%nat && negb (callocs AllocEntries)) (Status NFS4ERR_SERVERFAULT);;
    let '(entries, next) := collect_page (ceea_offset a) scope_end rest (Z.to_nat position) nentries in
    let more := existsb (in_scope (ceea_offset a) scope_end) (drop next (cs_escrows cs)) in
    reject (more && negb (callocs AllocCookie)) (Status NFS4ERR_SERVERFAULT);;
    mret (mk_enumerate_res (negb more)
            (if more then le_split 8 verifier ++ le_split 8 (Z.of_nat next) else []) entries).

Definition nfs4_op_chunk_escrow_takeover : H () := throw (Status NFS4ERR_NOTSUPP).

End Ops.

(** ** The writer's lease expires *)

Section Expiry.

Context {P : Type} (grants : elem → Z → bool).

Definition CHUNK_ROLLBACK_INITIAL_INODE_CAP : Z := 64.
Definition CHUNK_ROLLBACK_MAX_GROW_RETRIES : nat := 5.

(** One walk over the inodes: the positions collected, and whether the buffer was
    too small.  [active] says whether a reference to the inode can be taken. *)
Definition collect_inodes (active : nat → bool) (cap : Z) (inodes : list (inode P))
    : list nat * bool :=
  fold_left (λ '(acc, overflow) '(k, i),
    if negb (is_some (i_chunk_store i)) then (acc, overflow)
    else if (cap <=? Z.of_nat (length acc))%Z then (acc, true)
    else if negb (active k) then (acc, overflow)
    else (acc ++ [k], overflow)) (imap pair inodes) ([], false).

(** The buffer doubles up to five times; [grants_buffer] is the allocator's answer. *)
Fixpoint collect_loop (grants_buffer : Z → bool) (active : nat → bool) (retries : nat) (cap : Z)
    (inodes : list (inode P)) : option (list nat) :=
  let '(acc, overflow) := collect_inodes active cap inodes in
  if negb overflow then Some acc
  else
    match retries with
    | O => None
    | S retries =>
        let new_cap := u32w (cap * 2) in
        if negb (grants_buffer new_cap) then None
        else collect_loop grants_buffer active retries new_cap inodes
    end.

(** Sweep one inode and persist it when something changed. *)
Definition rollback_inode (writer_clientid : Z) (state_dir : option string) (i : inode P)
    (total : Z) (y : sys) : inode P * Z * sys :=
  match i_chunk_store i with
  | None => (i, total, y)
  | Some cs =>
      let '(n, cs) := chunk_store_rollback_for_client (Some cs) writer_clientid in
      let i := with_store i cs in
      if (0 <? n)%Z then
        match state_dir with
        | Some dir =>
            let '(_, cs, y) := chunk_store_persist grants cs dir (i_ino i) y in
            (with_store i cs, u32w (total + n), y)
        | None => (i, u32w (total + n), y)
        end
      else (i, total, y)
  end.

Definition chunk_rollback_for_client (grants_buffer : Z → bool) (active : nat → bool)
    (writer_clientid : Z) (state_dir : option string) (inodes : list (inode P)) (y : sys)
    : Z * list (inode P) * sys :=
  if negb (grants_buffer CHUNK_ROLLBACK_INITIAL_INODE_CAP) then (0%Z, inodes, y)
  else
    match collect_loop grants_buffer active CHUNK_ROLLBACK_MAX_GROW_RETRIES
            CHUNK_ROLLBACK_INITIAL_INODE_CAP inodes with
    | None => (0%Z, inodes, y)
    | Some acc =>
        fold_left (λ '(total, inodes, y) k,
          match inodes !! k with
          | None => (total, inodes, y)
          | Some i =>
              let '(i, total, y) := rollback_inode writer_clientid state_dir i total y in
              (total, <[k := i]> inodes, y)
          end) acc (0%Z, inodes, y)
    end.

End Expiry.

End ChunkLock.
