(* ===== verification/TrustOps.v ===== *)
(** * The metadata server's control operations on the trust table
      ([src/lib/nfs4/server/trust_stateid_ops.c])

    TRUST_STATEID, REVOKE_STATEID and BULK_REVOKE_STATEID, over the server state
    of [ChunkOps]. *)

From S2P Require Import Prelude.
From S2P Require Import ChunkStore.
From S2P Require Import Handler.
From S2P Require Import Nfs4.
From S2P Require Import Trust.
From S2P Require Import ChunkOps.
Import ChunkStore Handler Nfs4 Trust ChunkOps.

Module TrustOps.

Definition S_ISDIR (mode : Z) : bool := (Z.land mode 0xf000 =? 0x4000)%Z.
Definition S_ISLNK (mode : Z) : bool := (Z.land mode 0xf000 =? 0xa000)%Z.

Section Ops.

Context {P : Type}.

Abbreviation H := (H (P := P)).

(** The client of the session, if it may use these operations. *)
Definition require_mds_client (c : compound) : H nfs4_client :=
  match c_nfs4_client c with
  | None => throw (Status NFS4ERR_PERM)
  | Some nc =>
      reject (negb (has_flag (nc_exchgid_flags nc) EXCHGID4_FLAG_USE_PNFS_MDS))
        (Status NFS4ERR_PERM);;
      mret nc
  end.

Definition reject_special (stid : stateid4) : H () :=
  reject (stateid4_is_special stid)
    (Status (if stateid4_is_anonymous stid then NFS4ERR_INVAL else NFS4ERR_BAD_STATEID)).

(** *** TRUST_STATEID *)

(** The principal that is recorded: the memory from [utf8string_val] on, of which
    [after] follows the string of the request. *)
Definition principal_of (c : compound) (a : TRUST_STATEID4args) (after : list byte)
    : H (list byte) :=
  if (0 <? length (tsa_principal a))%nat then
    reject (negb (is_some (c_gss_principal c))) (Status NFS4ERR_ACCESS);;
    reject (TRUST_PRINCIPAL_MAX <=? length (tsa_principal a))%nat (Status NFS4ERR_INVAL);;
    mret (tsa_principal a ++ after)
  else mret [].

(** [granted] is the allocator's answer for a new entry. *)
Definition nfs4_op_trust_stateid (granted : bool) (after : list byte) (c : compound)
    (a : TRUST_STATEID4args) : H () :=
  reject (network_file_handle_empty (c_curr_nfh c)) (Status NFS4ERR_NOFILEHANDLE);;
  nc ← require_mds_client c;
  reject_special (tsa_layout_stateid a);;
  reject (tsa_pnfs_clientid a =? 0)%Z (Status NFS4ERR_INVAL);;
  reject (negb (tsa_iomode a =? LAYOUTIOMODE4_READ)%Z && negb (tsa_iomode a =? LAYOUTIOMODE4_RW)%Z)
    (Status NFS4ERR_INVAL);;
  reject (1000000000 <=? nseconds (tsa_expire a))%Z (Status NFS4ERR_INVAL);;
  principal ← principal_of c a after;
  let expire_mono_ns := trust_stateid_convert_expire (tsa_expire a) (c_wall c) (c_now c) in
  reject (expire_mono_ns =? 0)%Z (Status NFS4ERR_INVAL);;
  i ← gets s_inode;
  let ino := if c_inode c then i_ino i else 0%Z in
  ret ← on_trust (trust_stateid_register_fh granted (tsa_layout_stateid a)
                    (nfh_sb (c_curr_nfh c)) ino (c_id nc) (tsa_pnfs_clientid a) (tsa_client_id a)
                    (tsa_iomode a) expire_mono_ns (Some principal));
  reject (ret =? - EINVAL)%Z (Status NFS4ERR_INVAL);;
  reject (negb (ret =? 0)%Z) (Status NFS4ERR_SERVERFAULT).

(** *** REVOKE_STATEID *)

Definition nfs4_op_revoke_stateid (c : compound) (a : REVOKE_STATEID4args) : H () :=
  reject (network_file_handle_empty (c_curr_nfh c)) (Status NFS4ERR_NOFILEHANDLE);;
  nc ← require_mds_client c;
  reject (negb (c_inode c)) Fault;;
  i ← gets s_inode;
  reject (S_ISDIR (i_mode i)) (Status NFS4ERR_ISDIR);;
  reject (S_ISLNK (i_mode i)) (Status NFS4ERR_SYMLINK);;
  reject (negb (S_ISREG (i_mode i))) (Status NFS4ERR_WRONG_TYPE);;
  reject (chunk_op_on_non_chunked c i) (Status NFS4ERR_NOTSUPP);;
  reject_special (rsa_layout_stateid a);;
  modify (λ s, set_trust (trust_stateid_revoke_fh (rsa_layout_stateid a) (nfh_sb (c_curr_nfh c))
                            (nfh_ino (c_curr_nfh c)) (c_id nc) (s_trust s)) s).

(** *** BULK_REVOKE_STATEID *)

Definition nfs4_op_bulk_revoke_stateid (c : compound) (a : BULK_REVOKE_STATEID4args) : H () :=
  nc ← require_mds_client c;
  modify (λ s, set_trust (trust_stateid_bulk_revoke_scoped (c_id nc) (brsa_clientid a) (s_trust s))
                 s).

End Ops.

End TrustOps.
