(* ===== verification/TrustCorrect.v ===== *)
(** * Which stateids the trust table admits

    The entries of the table are told apart by stateid and file, revocations remove
    exactly what they name, and the table of a server is explained by the control
    operations it has answered. *)

From S2P Require Import Prelude.
From S2P Require Import ChunkStore.
From S2P Require Import Handler.
From S2P Require Import Nfs4.
From S2P Require Import Trust.
From S2P Require Import ChunkOps.
From S2P Require Import TrustOps.
Import ChunkStore Handler Nfs4 Trust ChunkOps TrustOps.

Module TrustCorrect.

(** ** Keys *)

Definition key (te : trust_entry) : list byte * Z * Z := (te_other te, te_sb te, te_ino te).

Definition unique (l : list trust_entry) : Prop := NoDup (map key l).

Lemma match_fh_key k sb ino te : trust_match_fh k sb ino te = true ↔ key te = (k, sb, ino).
Proof.
  unfold trust_match_fh, key. destruct te as [o s i ? ? ? ? ? ? ?]; cbn. split.
  - intros [[->%bool_decide_eq_true_1 ->%Z.eqb_eq]%andb_true_iff ->%Z.eqb_eq]%andb_true_iff.
    done.
  - intros [= -> -> ->]. by rewrite bool_decide_true, !Z.eqb_refl.
Qed.

Lemma find_match k sb ino l te :
  find (trust_match_fh k sb ino) l = Some te → te ∈ l ∧ key te = (k, sb, ino).
Proof. intros [H1 H2]%find_some. split; [by apply list_elem_of_In|by apply match_fh_key]. Qed.

Lemma find_unique k sb ino l te :
  unique l → te ∈ l → key te = (k, sb, ino) → find (trust_match_fh k sb ino) l = Some te.
Proof.
  unfold unique. induction l as [|a l IH]; intros Hu Hin Hk; [by apply elem_of_nil in Hin|].
  cbn in Hu |- *. apply NoDup_cons in Hu as [Ha Hu].
  destruct (trust_match_fh k sb ino a) eqn:E.
  - apply match_fh_key in E. apply elem_of_cons in Hin as [->|Hin]; [done|].
    destruct Ha. rewrite E, <-Hk. by apply list_elem_of_fmap_2.
  - apply elem_of_cons in Hin as [->|Hin]; [|by apply IH].
    apply match_fh_key in Hk. by rewrite Hk in E.
Qed.

(** ** One entry changed or removed *)

Lemma update_first_keys p f l :
  (∀ te, p te = true → key (f te) = key te) → map key (update_first p f l) = map key l.
Proof.
  intros Hf. induction l as [|a l IH]; [done|]. cbn. destruct (p a) eqn:E; cbn; f_equal; auto.
Qed.

Lemma update_first_in p f l te :
  te ∈ update_first p f l → te ∈ l ∨ ∃ te0, te0 ∈ l ∧ p te0 = true ∧ te = f te0.
Proof.
  induction l as [|a l IH]; cbn; [by left|]. destruct (p a) eqn:E; intros H;
    apply elem_of_cons in H as [->|H].
  - right. exists a. split_and!; [by left|done|done].
  - left. by right.
  - left. by left.
  - destruct (IH H) as [?|(te0 & ? & ? & ?)]; [left; by right|].
    right. exists te0. split_and!; [by right|done|done].
Qed.

Lemma update_first_at p f l te :
  find p l = Some te → f te ∈ update_first p f l.
Proof.
  induction l as [|a l IH]; cbn; [done|]. destruct (p a) eqn:E; [intros [= ->]; by left|].
  intros H. right. by apply IH.
Qed.

Lemma update_first_other p f l te : te ∈ l → p te = false → te ∈ update_first p f l.
Proof.
  induction l as [|a l IH]; cbn; intros Hin Hp; [done|].
  apply elem_of_cons in Hin as [->|Hin]; [rewrite Hp; by left|].
  destruct (p a); right; [done|by apply IH].
Qed.

Lemma remove_first_sub p l te : te ∈ remove_first p l → te ∈ l.
Proof.
  induction l as [|a l IH]; cbn; [done|]. destruct (p a); [by right|].
  intros [->|H]%elem_of_cons; [by left|]. right. by apply IH.
Qed.

Lemma remove_first_other p l te : te ∈ l → p te = false → te ∈ remove_first p l.
Proof.
  induction l as [|a l IH]; cbn; intros Hin Hp; [done|].
  apply elem_of_cons in Hin as [->|Hin]; [rewrite Hp; by left|].
  destruct (p a); [done|]. right. by apply IH.
Qed.

Lemma remove_first_unique p l : unique l → unique (remove_first p l).
Proof.
  unfold unique. induction l as [|a l IH]; cbn; [done|]. intros [Ha Hu]%NoDup_cons.
  destruct (p a); [done|]. cbn. apply NoDup_cons. split; [|by apply IH].
  intros (te & Heq & Hte)%list_elem_of_fmap. destruct Ha. rewrite Heq.
  apply list_elem_of_fmap_2. by eapply remove_first_sub.
Qed.

Lemma remove_first_gone k sb ino l te :
  unique l → te ∈ remove_first (trust_match_fh k sb ino) l → key te ≠ (k, sb, ino).
Proof.
  unfold unique. induction l as [|a l IH]; cbn; intros Hu Hin; [by apply elem_of_nil in Hin|].
  apply NoDup_cons in Hu as [Ha Hu]. destruct (trust_match_fh k sb ino a) eqn:E.
  - apply match_fh_key in E. intros Hk. destruct Ha. rewrite E, <-Hk. by apply list_elem_of_fmap_2.
  - apply elem_of_cons in Hin as [->|Hin]; [|by apply IH].
    intros Hk. apply match_fh_key in Hk. by rewrite Hk in E.
Qed.

Lemma filter_unique (p : trust_entry → bool) l : unique l → unique (List.filter p l).
Proof.
  unfold unique. induction l as [|a l IH]; cbn; [done|]. intros [Ha Hu]%NoDup_cons.
  destruct (p a); cbn; [|by apply IH]. apply NoDup_cons. split; [|by apply IH].
  intros (te & Heq & Hte)%list_elem_of_fmap. destruct Ha. rewrite Heq. apply list_elem_of_fmap_2.
  apply list_elem_of_In in Hte. apply filter_In in Hte as [Hte _]. by apply list_elem_of_In.
Qed.

(** ** Bulk revocation *)

Section Bulk.

Context (issuer target : Z).

Abbreviation kept := (List.filter (λ te, negb (revocable issuer target te))).

(** A pass that filled its batch removed something and only what is revocable. *)
Lemma bulk_pass_spec n l :
  (0 < n)%nat →
  let '(l', full) := bulk_pass issuer target n l in
  kept l' = kept l ∧ (if full then (length l' < length l)%nat else l' = kept l).
Proof using.
  revert n. induction l as [|te l IH]; intros n Hn; [done|]. cbn [bulk_pass].
  destruct (revocable issuer target te) eqn:E.
  - destruct n as [|[|n]]; [lia| |].
    + cbn. rewrite E. cbn. split; [done|lia].
    + specialize (IH (S n) ltac:(lia)). destruct (bulk_pass _ _ _ l) as [l' full].
      cbn. rewrite E. cbn. destruct IH as [IH1 IH2]. split; [done|]. destruct full; [lia|done].
  - specialize (IH n Hn). destruct (bulk_pass _ _ n l) as [l' full]. destruct IH as [IH1 IH2].
    cbn. rewrite E. cbn. rewrite IH1. split; [done|]. destruct full; [lia|by rewrite IH2].
Qed.

Lemma bulk_loop_filter fuel l :
  (length l < fuel)%nat → bulk_loop issuer target fuel l = kept l.
Proof using.
  revert l. induction fuel as [|fuel IH]; intros l Hl; [lia|]. cbn [bulk_loop].
  pose proof (bulk_pass_spec BULK_BATCH l ltac:(unfold BULK_BATCH; lia)) as H.
  destruct (bulk_pass _ _ _ l) as [l' full]. destruct H as [H1 H2]. destruct full; [|done].
  rewrite IH by lia. done.
Qed.

End Bulk.

(** ** Registration and revocation *)

(** The fields that an entry keeps. *)
Definition identity (te : trust_entry) :=
  (key te, te_issuer_clientid te, te_target_clientid te, te_principal te, te_client_id te).

Lemma identity_fields te te' :
  identity te' = identity te →
  key te' = key te ∧ te_issuer_clientid te' = te_issuer_clientid te ∧
  te_target_clientid te' = te_target_clientid te ∧ te_principal te' = te_principal te ∧
  te_client_id te' = te_client_id te.
Proof. unfold identity. intros [[[[? ?]%pair_eq ?]%pair_eq ?]%pair_eq ?]%pair_eq. done. Qed.

Lemma renew_identity sb m ex te k ino :
  key te = (k, sb, ino) → identity (renew_entry sb m ex te) = identity te.
Proof.
  destruct te as [o s i' ? ? ? ? ? ? ?]. intros [= -> -> ->]. unfold identity, key, renew_entry. cbn.
  by destruct (sb =? 0)%Z.
Qed.

(** What a registration that succeeds leaves: the entry of the request, new or with
    the identity it had, and every other entry as it was. *)
Record registered (st : stateid4) (sb ino iss tgt cl m ex : Z) (principal : list byte)
    (l l' : list trust_entry) (te' : trust_entry) : Prop := {
  reg_unique : unique l';
  reg_in : te' ∈ l';
  reg_identity : ∃ pr, identity te' = (other st, sb, ino, iss, tgt, pr, cl);
  reg_mode : te_iomode te' = m ∧ te_expire_ns te' = ex ∧ te_flags te' = TRUST_ACTIVE;
  reg_origin : te_principal te' = principal ∨ ∃ te, te ∈ l ∧ identity te' = identity te;
  reg_principal : te_principal te' = match find (trust_match_fh (other st) sb ino) l with
                                     | Some te => te_principal te
                                     | None => principal
                                     end;
  reg_only : ∀ te, te ∈ l' → te = te' ∨ te ∈ l;
  reg_others : ∀ te, te ∈ l → key te ≠ (other st, sb, ino) → te ∈ l';
}.

Lemma register_spec granted st sb ino iss tgt cl m ex principal t ret t' l :
  trust_ht t = Some l → unique l →
  trust_stateid_register_fh granted st sb ino iss tgt cl m ex (Some principal) t = (ret, t') →
  (ret ≠ 0%Z ∧ t' = t) ∨
  (ret = 0%Z ∧ ∃ l' te', trust_ht t' = Some l' ∧
     registered st sb ino iss tgt cl m ex (take (TRUST_PRINCIPAL_MAX - 1) (cstring principal)) l l' te').
Proof.
  intros Hl Hu. unfold trust_stateid_register_fh. rewrite Hl.
  destruct (find _ l) as [te|] eqn:Ef.
  - pose proof (find_match _ _ _ _ _ Ef) as [Hin Hk]. case_if; [intros [= <- <-]; by left|].
    intros [= <- <-]. right. split; [done|]. bool_prop.
    pose proof (renew_identity sb m ex te _ _ Hk) as Hid.
    exists (update_first (trust_match_fh (other st) sb ino) (renew_entry sb m ex) l),
      (renew_entry sb m ex te).
    split; [done|]. split.
    + unfold unique. rewrite update_first_keys; [done|]. intros te0 Hk0%match_fh_key.
      by pose proof (identity_fields _ _ (renew_identity sb m ex te0 _ _ Hk0)) as (? & _).
    + by apply update_first_at.
    + exists (te_principal te). rewrite Hid. unfold identity. rewrite Hk. congruence.
    + done.
    + right. by exists te.
    + by rewrite Ef.
    + intros te0 [?|(te1 & Hin1 & Hk1%match_fh_key & ->)]%update_first_in; [by right|]. left.
      f_equal. pose proof (find_unique _ _ _ _ _ Hu Hin1 Hk1). congruence.
    + intros te0 Hin0 Hne. apply update_first_other; [done|].
      destruct (trust_match_fh _ _ _ te0) eqn:E; [|done]. by apply match_fh_key in E.
  - destruct granted; cbn [negb]; [|intros [= <- <-]; by left].
    intros [= <- <-]. right. split; [done|]. eexists _, _. split; [done|].
    split; cbn; [|by left|by eexists|done|by left|by rewrite Ef| |].
    + apply NoDup_cons. split; [|done]. intros (te & Hk & Hin)%list_elem_of_fmap.
      symmetry in Hk. by rewrite (find_unique (other st) sb ino _ _ Hu Hin Hk) in Ef.
    + intros te0 H0%elem_of_cons. by destruct H0; [left|right].
    + intros te0 H0 _. by right.
Qed.

Lemma revoke_sub st sb ino iss check t l :
  trust_ht t = Some l →
  ∃ l', trust_ht (trust_stateid_revoke_match st sb ino iss check t) = Some l' ∧
    (unique l → unique l') ∧ ∀ te, te ∈ l' → te ∈ l.
Proof.
  intros Hl. unfold trust_stateid_revoke_match. rewrite Hl. cbn zeta.
  match goal with |- context [remove_first ?p l] => generalize p end. intros p.
  destruct (find p l); [destruct (_ || _)|]; cbn [trust_ht];
    first [exists l; done | exists (remove_first p l)]. split; [done|].
  split; [apply remove_first_unique|]. intros te. apply remove_first_sub.
Qed.

(** A revocation for a file removes the entry it names and no other. *)
Lemma revoke_spec st sb ino iss t l :
  trust_ht t = Some l → unique l → (sb ≠ 0 ∨ ino ≠ 0)%Z →
  ∃ l', trust_ht (trust_stateid_revoke_fh st sb ino iss t) = Some l' ∧ unique l' ∧
    (∀ te, te ∈ l' → te ∈ l ∧ ¬ (key te = (other st, sb, ino) ∧ te_issuer_clientid te = iss)) ∧
    (∀ te, te ∈ l → ¬ (key te = (other st, sb, ino) ∧ te_issuer_clientid te = iss) → te ∈ l').
Proof.
  intros Hl Hu Hn. unfold trust_stateid_revoke_fh, trust_stateid_revoke_match. rewrite Hl.
  assert (negb (sb =? 0)%Z || negb (ino =? 0)%Z = true) as ->.
  { destruct (Z.eqb_spec sb 0), (Z.eqb_spec ino 0); [lia|done..]. }
  destruct (find (trust_match_fh _ _ _) l) as [te|] eqn:Ef.
  - pose proof (find_match _ _ _ _ _ Ef) as [Hin Hk]. rewrite Ef. pose proof Hk as [= Ho Hs Hi].
    rewrite Hs, Hi, !Z.eqb_refl, !andb_false_r. cbn [orb andb].
    destruct (Z.eqb_spec (te_issuer_clientid te) iss) as [Hiss|Hiss]; cbn [negb].
    + eexists. split; [done|]. split; [by apply remove_first_unique|]. split.
      * intros te0 H0. split; [by eapply remove_first_sub|].
        intros [Hk0 _]. by eapply remove_first_gone.
      * intros te0 H0 Hnot. apply remove_first_other; [done|].
        destruct (trust_match_fh _ _ _ te0) eqn:E; [|done]. apply match_fh_key in E.
        pose proof (find_unique _ _ _ _ _ Hu H0 E). destruct Hnot. split; [done|congruence].
    + exists l. split_and!; try done. intros te0 H0. split; [done|]. intros [Hk0 Hi0].
      pose proof (find_unique _ _ _ _ _ Hu H0 Hk0). congruence.
  - exists l. split.
    { destruct (Z.eqb_spec sb 0) as [->|Hsb]; cbn [negb]; [by rewrite Ef|].
      destruct (find (trust_match_fh_legacy _ _) l) as [te|] eqn:E2; [|done].
      apply find_some in E2 as [_ E2]. unfold trust_match_fh_legacy in E2. bool_prop.
      assert ((te_sb te =? sb)%Z = false) as -> by (apply Z.eqb_neq; congruence). done. }
    split; [done|]. split; [|done]. intros te0 H0. split; [done|]. intros [Hk0 _].
    by rewrite (find_unique _ _ _ _ _ Hu H0 Hk0) in Ef.
Qed.

(** ** Control events *)

Section Events.

Context {P : Type}.

(** What changes the table: the three operations, each on the inode of its handle,
    the two passes of the reaper, and a restart of the server. *)
Inductive event :=
  | ETrust (granted : bool) (after : list byte) (i : inode P) (c : compound) (a : TRUST_STATEID4args)
  | ERevoke (i : inode P) (c : compound) (a : REVOKE_STATEID4args)
  | EBulk (c : compound) (a : BULK_REVOKE_STATEID4args)
  | EReap (now : Z)
  | ERenew (now lease_sec : Z)
  | ERestart.

Definition exec (e : event) (s : server P) : (fail + ()) * server P :=
  match e with
  | ETrust granted after i c a => nfs4_op_trust_stateid granted after c a (set_inode i s)
  | ERevoke i c a => nfs4_op_revoke_stateid c a (set_inode i s)
  | EBulk c a => nfs4_op_bulk_revoke_stateid c a s
  | EReap now => (inr tt, set_trust (reap_expired now (s_trust s)) s)
  | ERenew now lease_sec =>
      (inr tt, set_trust (trust_stateid_renewal_scan now lease_sec (s_trust s)) s)
  | ERestart =>
      (inr tt, set_trust (snd (trust_stateid_init true 0 (trust_stateid_fini (s_trust s)))) s)
  end.

(** The events with their replies, the newest first. *)
Definition history : Type := list (event * (fail + ())).

Fixpoint run (es : list event) (s : server P) (h : history) : server P * history :=
  match es with
  | [] => (s, h)
  | e :: es => let '(r, s) := exec e s in run es s ((e, r) :: h)
  end.

(** *** What an entry goes back to *)

(** The session belongs to a metadata server, the client [n]. *)
Definition mds (c : compound) (n : Z) : Prop :=
  ∃ nc, c_nfs4_client c = Some nc ∧ c_id nc = n ∧
        has_flag (nc_exchgid_flags nc) EXCHGID4_FLAG_USE_PNFS_MDS = true.

Definition trust_ino (c : compound) (i : inode P) : Z := if c_inode c then i_ino i else 0%Z.

(** The request is about the entry: same stateid, file, issuer, client and binding. *)
Definition names (i : inode P) (c : compound) (a : TRUST_STATEID4args) (te : trust_entry) : Prop :=
  mds c (te_issuer_clientid te) ∧ stateid4_is_special (tsa_layout_stateid a) = false ∧
  key te = (other (tsa_layout_stateid a), nfh_sb (c_curr_nfh c), trust_ino c i) ∧
  te_target_clientid te = tsa_pnfs_clientid a ∧ te_client_id te = tsa_client_id a.

(** The event takes the entry away. *)
Definition covers (er : event * (fail + ())) (te : trust_entry) : Prop :=
  match er with
  | (ERevoke i c a, inr _) =>
      mds c (te_issuer_clientid te) ∧
      key te = (other (rsa_layout_stateid a), nfh_sb (c_curr_nfh c), nfh_ino (c_curr_nfh c)) ∧
      (te_sb te ≠ 0%Z ∨ te_ino te ≠ 0%Z)
  | (EBulk c a, inr _) =>
      mds c (te_issuer_clientid te) ∧
      (brsa_clientid a = 0%Z ∨ brsa_clientid a = te_target_clientid te)
  | (ERestart, _) => True
  | _ => False
  end.

(** The principal a request binds to, with the memory after it. *)
Definition bound_principal (a : TRUST_STATEID4args) (after : list byte) : list byte :=
  if (0 <? length (tsa_principal a))%nat
  then take (TRUST_PRINCIPAL_MAX - 1) (cstring (tsa_principal a ++ after)) else [].

(** The event trusts the entry, for the first time or again. *)
Definition trusts (er : event * (fail + ())) (te : trust_entry) : Prop :=
  match er with
  | (ETrust _ _ i c a, inr _) => names i c a te
  | _ => False
  end.

(** The deadline a request asks for, on the monotonic clock. *)
Definition granted_deadline (c : compound) (a : TRUST_STATEID4args) : Z :=
  trust_stateid_convert_expire (tsa_expire a) (c_wall c) (c_now c).

(** What a renewal scan makes of a deadline, and a history of them. *)
Definition renewed (now lease_sec exp : Z) : Z :=
  if (exp =? 0)%Z || (exp <=? now)%Z || (u64w (lease_sec * 1000000000) / 2 <=? exp - now)%Z then exp
  else u64w (now + u64w (lease_sec * 1000000000)).

Fixpoint deadline (since : history) (exp : Z) : Z :=
  match since with
  | [] => exp
  | (ERenew now lease_sec, _) :: since => renewed now lease_sec (deadline since exp)
  | _ :: since => deadline since exp
  end.

(** A metadata server trusted the stateid for that file, client and principal, and
    nothing has taken it back since; the mode is that of the last request since then
    that trusts it, and the deadline the one that request gave, which is never 0,
    moved by the renewal scans after it. *)
Definition explained (h : history) (te : trust_entry) : Prop :=
  ∃ later granted after i c a earlier,
    h = later ++ (ETrust granted after i c a, inr tt) :: earlier ∧
    names i c a te ∧ te_principal te = bound_principal a after ∧
    Forall (λ er, ¬ covers er te) later ∧
    ∃ since granted' after' i' c' a' before,
      later ++ [(ETrust granted after i c a, inr tt)]
        = since ++ (ETrust granted' after' i' c' a', inr tt) :: before ∧
      names i' c' a' te ∧ Forall (λ er, ¬ trusts er te) since ∧
      te_iomode te = tsa_iomode a' ∧ granted_deadline c' a' ≠ 0%Z ∧
      te_expire_ns te = deadline since (granted_deadline c' a').

Lemma names_identity i c a te te' : identity te' = identity te → names i c a te → names i c a te'.
Proof.
  intros (Hk & Hi & Ht & Hp & Hc)%identity_fields. unfold names. by rewrite Hk, Hi, Ht, Hc.
Qed.

Lemma covers_identity er te te' : identity te' = identity te → covers er te' → covers er te.
Proof.
  intros (Hk & Hi & Ht & Hp & Hc)%identity_fields. unfold covers.
  pose proof Hk as [= Hk1 Hk2 Hk3]. by rewrite Hk, Hi, Ht, Hk2, Hk3.
Qed.

Lemma trusts_identity er te te' : identity te' = identity te → trusts er te' → trusts er te.
Proof. intros Hid. destruct er as [[] []]; try done. by apply names_identity. Qed.

(** An event that leaves the entry, as it was or with a deadline moved by a scan. *)
Lemma explained_later h er te te' :
  identity te' = identity te → te_iomode te' = te_iomode te →
  te_expire_ns te' = deadline [er] (te_expire_ns te) → ¬ covers er te → ¬ trusts er te →
  explained h te → explained (er :: h) te'.
Proof.
  intros Hid Hm Hx Hc Ht (later & g & af & i & c & a & earlier & -> & Hn & Hp & Hl & R).
  destruct R as (since & g' & af' & i' & c' & a' & before & Heq & Hn' & Hs & Hm' & Hz' & Hx').
  exists (er :: later), g, af, i, c, a, earlier. split; [done|].
  split; [by eapply names_identity|]. split; [apply identity_fields in Hid as (? & ? & ? & ? & ?); congruence|]. split.
  - constructor; [contradict Hc; by eapply covers_identity|].
    eapply list.Forall_impl; [exact Hl|]. intros er' H' H''. apply H'. by eapply covers_identity.
  - exists (er :: since), g', af', i', c', a', before. cbn [app]. split; [by rewrite Heq|].
    split; [by eapply names_identity|]. split.
    + constructor; [contradict Ht; by eapply trusts_identity|].
      eapply list.Forall_impl; [exact Hs|]. intros er' H' H''. apply H'. by eapply trusts_identity.
    + split; [congruence|]. split; [done|]. rewrite Hx, Hx'. by destruct er as [[] []].
Qed.

Lemma explained_renewed h g af i c a te te' :
  identity te' = identity te → names i c a te → te_iomode te' = tsa_iomode a →
  te_expire_ns te' = granted_deadline c a → granted_deadline c a ≠ 0%Z →
  explained h te → explained ((ETrust g af i c a, inr tt) :: h) te'.
Proof.
  intros Hid Hn0 Hm Hx Hz (later & g0 & af0 & i0 & c0 & a0 & earlier & -> & Hn & Hp & Hl & _).
  exists ((ETrust g af i c a, inr tt) :: later), g0, af0, i0, c0, a0, earlier. split; [done|].
  split; [by eapply names_identity|]. split; [apply identity_fields in Hid as (? & ? & ? & ? & ?); congruence|]. split.
  - constructor; [by intros []|].
    eapply list.Forall_impl; [exact Hl|]. intros er' H' H''. apply H'. by eapply covers_identity.
  - exists [], g, af, i, c, a. eexists. split; [done|]. split; [by eapply names_identity|]. by split; [constructor|].
Qed.

Lemma explained_new h g af i c a te :
  names i c a te → te_principal te = bound_principal a af → te_iomode te = tsa_iomode a →
  te_expire_ns te = granted_deadline c a → granted_deadline c a ≠ 0%Z →
  explained ((ETrust g af i c a, inr tt) :: h) te.
Proof.
  intros Hn Hp Hm Hx Hz. exists [], g, af, i, c, a, h. do 4 (split; [done|]).
  exists [], g, af, i, c, a, []. split_and!; try done.
Qed.

(** *** The handlers *)

Lemma register_failed granted st sb ino iss tgt cl m ex pr t ret t' :
  trust_stateid_register_fh granted st sb ino iss tgt cl m ex pr t = (ret, t') →
  ret ≠ 0%Z → t' = t.
Proof.
  unfold trust_stateid_register_fh. destruct (trust_ht t); [|by intros [= <- <-]].
  destruct (find _ _); case_if; by intros [= <- <-].
Qed.

Lemma wp_on_trust {A} (f : trust → A * trust) (Q : fail + A → server P → Prop) s :
  (∀ a t, f (s_trust s) = (a, t) → Q (inr a) (set_trust t s)) → wp (on_trust f) Q s.
Proof. intros H. unfold wp, on_trust. destruct (f (s_trust s)) as [a t] eqn:E. by apply H. Qed.

Lemma wp_require_mds c (Q : fail + nfs4_client → server P → Prop) s :
  Q (inl (Status NFS4ERR_PERM)) s →
  (∀ nc, c_nfs4_client c = Some nc → mds c (c_id nc) → Q (inr nc) s) →
  wp (require_mds_client c) Q s.
Proof.
  intros H1 H2. unfold require_mds_client. destruct (c_nfs4_client c) as [nc|] eqn:E; [|by wp_step].
  wp_step. wp_step; [done|]. cbn. wp_step. apply H2; [done|]. exists nc. split_and!; [done|done|].
  by apply negb_false_iff.
Qed.

Lemma wp_principal_of c a after (Q : fail + list byte → server P → Prop) s :
  (∀ e, Q (inl (Status e)) s) →
  (∀ pr, take (TRUST_PRINCIPAL_MAX - 1) (cstring pr) = bound_principal a after → Q (inr pr) s) →
  wp (principal_of c a after) Q s.
Proof.
  intros H1 H2. unfold principal_of, bound_principal in *.
  destruct (0 <? length (tsa_principal a))%nat; [|by wp_step; apply H2].
  repeat first [wp_step | apply H1 | done]. by apply H2.
Qed.

(** TRUST_STATEID fails and changes nothing, or registers what the request says. *)
Lemma trust_op_spec granted after (i : inode P) c a (s : server P) :
  wp (nfs4_op_trust_stateid granted after c a)
    (λ r s', (∃ e, r = inl e) ∧ s_trust s' = s_trust s ∨
       r = inr tt ∧ ∃ nc pr, mds c (c_id nc) ∧
         stateid4_is_special (tsa_layout_stateid a) = false ∧ granted_deadline c a ≠ 0%Z ∧
         take (TRUST_PRINCIPAL_MAX - 1) (cstring pr) = bound_principal a after ∧
         trust_stateid_register_fh granted (tsa_layout_stateid a) (nfh_sb (c_curr_nfh c))
           (trust_ino c i) (c_id nc) (tsa_pnfs_clientid a) (tsa_client_id a) (tsa_iomode a)
           (trust_stateid_convert_expire (tsa_expire a) (c_wall c) (c_now c)) (Some pr)
           (s_trust s) = (0%Z, s_trust s')) (set_inode i s).
Proof.
  set (Q := λ r s', _). assert (∀ e t, t = s_trust s → Q (inl e) (set_trust t (set_inode i s))) as Hfail.
  { intros e t ->. left. split; [by exists e|done]. }
  assert (∀ e, Q (inl e) (set_inode i s)) as Hf by (intros e; exact (Hfail e _ eq_refl)).
  unfold nfs4_op_trust_stateid. wp_step. wp_step; [apply Hf|]. cbn.
  wp_step. apply wp_require_mds; [apply Hf|]. intros nc Hnc Hmds. cbn.
  wp_step. unfold reject_special. wp_step; [apply Hf|]. cbn.
  do 3 (wp_step; wp_step; [apply Hf|]; cbn).
  wp_step. apply wp_principal_of; [intros; apply Hf|]. intros pr Hpr. cbn.
  wp_step. wp_step; [apply Hf|]. cbn.
  match goal with H : (_ =? 0)%Z = false |- _ => apply Z.eqb_neq in H; rename H into Hexp end. wp_step. wp_step. cbn.
  wp_step. apply wp_on_trust. intros ret t Hr. cbn [andthen].
  wp_step. wp_step; bool_prop.
  { apply Hfail. eapply register_failed; [exact Hr|]. subst. discriminate. }
  cbn. wp_step; bool_prop; [apply Hfail; by eapply register_failed|].
  subst ret. right. split; [done|]. exists nc, pr. split_and!; try done.
Qed.

Lemma revoke_op_spec (i : inode P) c a (s : server P) :
  wp (nfs4_op_revoke_stateid c a)
    (λ r s', (∃ e, r = inl e) ∧ s_trust s' = s_trust s ∨
       r = inr tt ∧ ∃ nc, c_nfs4_client c = Some nc ∧
         s_trust s' = trust_stateid_revoke_fh (rsa_layout_stateid a) (nfh_sb (c_curr_nfh c))
                        (nfh_ino (c_curr_nfh c)) (c_id nc) (s_trust s)) (set_inode i s).
Proof.
  set (Q := λ r s', _). assert (∀ e, Q (inl e) (set_inode i s)) as Hf.
  { intros e. left. split; [by exists e|done]. }
  unfold nfs4_op_revoke_stateid. wp_step. wp_step; [apply Hf|]. cbn.
  wp_step. apply wp_require_mds; [apply Hf|]. intros nc Hnc Hmds. cbn.
  wp_step. wp_step; [apply Hf|]. cbn. wp_step. wp_step. cbn.
  do 4 (wp_step; wp_step; [apply Hf|]; cbn). wp_step. unfold reject_special.
  wp_step; [apply Hf|]. cbn. wp_step. right. split; [done|]. by exists nc.
Qed.

Lemma bulk_op_spec c a (s : server P) :
  wp (nfs4_op_bulk_revoke_stateid c a)
    (λ r s', (∃ e, r = inl e) ∧ s_trust s' = s_trust s ∨
       r = inr tt ∧ ∃ nc, c_nfs4_client c = Some nc ∧
         s_trust s' = trust_stateid_bulk_revoke_scoped (c_id nc) (brsa_clientid a) (s_trust s)) s.
Proof.
  unfold nfs4_op_bulk_revoke_stateid. wp_step. apply wp_require_mds.
  - left. split; [by eexists|done].
  - intros nc Hnc Hmds. cbn. wp_step. right. split; [done|]. by exists nc.
Qed.

(** *** The table after a history *)

Definition inv (h : history) (s : server P) : Prop :=
  ∀ l, trust_ht (s_trust s) = Some l → unique l ∧ ∀ te, te ∈ l → explained h te.

Lemma mds_issuer c nc n : c_nfs4_client c = Some nc → mds c n → c_id nc = n.
Proof. intros H (nc' & H' & <- & _). congruence. Qed.

(** An event that only takes entries away or moves their expiry. *)
Lemma inv_shrink h er s s' :
  (∀ l', trust_ht (s_trust s') = Some l' →
     ∃ l, trust_ht (s_trust s) = Some l ∧ (unique l → unique l' ∧
       ∀ te', te' ∈ l' → ∃ te, te ∈ l ∧ identity te' = identity te ∧ te_iomode te' = te_iomode te ∧
                               te_expire_ns te' = deadline [er] (te_expire_ns te) ∧ ¬ covers er te)) →
  (∀ te, ¬ trusts er te) → inv h s → inv (er :: h) s'.
Proof.
  intros H Hnt Hinv l' Hl'. destruct (H l' Hl') as (l & Hl & Hu). destruct (Hinv l Hl) as [Hu0 Hex].
  destruct (Hu Hu0) as [Hu' Hin]. split; [done|]. intros te' Hte'.
  destruct (Hin te' Hte') as (te & H1 & H2 & H3 & H4 & H5).
  eapply explained_later; [done..|by apply Hnt|]. by apply Hex.
Qed.

Lemma inv_same h er s s' :
  s_trust s' = s_trust s → (∀ d, deadline [er] d = d) → (∀ te, ¬ covers er te) →
  (∀ te, ¬ trusts er te) → inv h s → inv (er :: h) s'.
Proof.
  intros Ht Hd Hc. apply inv_shrink. intros l' Hl'. rewrite Ht in Hl'. exists l'. split; [done|].
  intros Hu. split; [done|]. intros te Hte. exists te. split_and!; done || by rewrite Hd.
Qed.

Lemma trust_inv granted after i c a s r s' h :
  inv h s → nfs4_op_trust_stateid granted after c a (set_inode i s) = (r, s') →
  inv ((ETrust granted after i c a, r) :: h) s'.
Proof.
  intros Hinv Hr. pose proof (wp_run _ _ _ _ _ (trust_op_spec granted after i c a s) Hr) as H.
  destruct H as [[[e ->] Ht]|(-> & nc & pr & Hm & Hsp & Hz & Hpr & Hreg)];
    [by apply (inv_same h _ s); [done|done|intros te []|intros te []|done]|].
  destruct (trust_ht (s_trust s)) as [l|] eqn:Hl;
    [|unfold trust_stateid_register_fh in Hreg; rewrite Hl in Hreg; by injection Hreg].
  destruct (Hinv l Hl) as [Hu Hex].
  destruct (register_spec _ _ _ _ _ _ _ _ _ _ _ _ _ _ Hl Hu Hreg) as [[? _]|(_ & l0 & te' & Hl0 & R)]; [done|].
  intros l' Hl'. assert (l' = l0) as -> by congruence. split; [apply R|]. intros te Hte.
  destruct (reg_identity _ _ _ _ _ _ _ _ _ _ _ _ R) as (p0 & Hid).
  assert (names i c a te') as Hn.
  { unfold identity in Hid. apply pair_eq in Hid as [[[[Hk Hi]%pair_eq Htg]%pair_eq _]%pair_eq Hcl].
    unfold names. by rewrite Hi, Htg, Hcl, Hk. }
  destruct (reg_mode _ _ _ _ _ _ _ _ _ _ _ _ R) as (Hmode & Hexp & _).
  destruct (decide (key te = key te')) as [Hk|Hk].
  2: { destruct (reg_only _ _ _ _ _ _ _ _ _ _ _ _ R te Hte) as [->|Hin]; [done|].
       eapply explained_later; [done|done|done|by intros []| |by apply Hex].
       intros (_ & _ & Hk' & _). destruct Hn as (_ & _ & Hk'' & _). congruence. }
  assert (te = te') as ->.
  { destruct R as [Hu' Hin' _ _ _ _ _ _]. destruct (key te') as [[k0 sb0] ino0] eqn:Ek.
    pose proof (find_unique _ _ _ _ _ Hu' Hte Hk). pose proof (find_unique _ _ _ _ _ Hu' Hin' Ek). congruence. }
  destruct (reg_origin _ _ _ _ _ _ _ _ _ _ _ _ R) as [Hp|(te0 & Hin0 & Hid0)].
  - apply explained_new; [done|by rewrite Hp, Hpr|done..].
  - eapply explained_renewed; [exact Hid0|by eapply names_identity|done..|by apply Hex].
Qed.

Lemma revoke_inv i c a s r s' h :
  inv h s → nfs4_op_revoke_stateid c a (set_inode i s) = (r, s') →
  inv ((ERevoke i c a, r) :: h) s'.
Proof.
  intros Hinv Hr. pose proof (wp_run _ _ _ _ _ (revoke_op_spec i c a s) Hr) as H.
  destruct H as [[[e ->] Ht]|(-> & nc & Hnc & Ht)];
    [by apply (inv_same h _ s); [done|done|intros te []|intros te []|done]|].
  apply (inv_shrink h _ s); [|by intros te []|done]. intros l' Hl'. rewrite Ht in Hl'.
  set (sb := nfh_sb (c_curr_nfh c)) in *. set (ino := nfh_ino (c_curr_nfh c)) in *.
  destruct (trust_ht (s_trust s)) as [l|] eqn:Hl;
    [|unfold trust_stateid_revoke_fh, trust_stateid_revoke_match in Hl'; rewrite Hl in Hl';
      by rewrite Hl in Hl'].
  exists l. split; [done|]. intros Hu.
  destruct (decide (sb ≠ 0 ∨ ino ≠ 0)%Z) as [Hn|Hn].
  - destruct (revoke_spec (rsa_layout_stateid a) sb ino (c_id nc) _ _ Hl Hu Hn)
      as (l1 & Hl1 & Hu1 & Hsub & _).
    assert (l' = l1) as -> by congruence. split; [done|]. intros te Hte.
    destruct (Hsub te Hte) as [Hin Hnot]. exists te. split_and!; try done.
    intros (Hm & Hk & _). apply Hnot. split; [done|]. symmetry. by eapply mds_issuer.
  - destruct (revoke_sub (rsa_layout_stateid a) sb ino (c_id nc) true _ _ Hl) as (l1 & Hl1 & Hu1 & Hsub).
    unfold trust_stateid_revoke_fh in Hl'. assert (l' = l1) as -> by congruence. split.
    + by apply Hu1.
    + intros te Hte. exists te. split_and!; [by apply Hsub|done|done|done|].
      intros (_ & Hk & Hor). injection Hk as _ Hs Hi. lia.
Qed.

Lemma bulk_inv c a s r s' h :
  inv h s → nfs4_op_bulk_revoke_stateid c a s = (r, s') → inv ((EBulk c a, r) :: h) s'.
Proof.
  intros Hinv Hr. pose proof (wp_run _ _ _ _ _ (bulk_op_spec c a s) Hr) as H.
  destruct H as [[[e ->] Ht]|(-> & nc & Hnc & Ht)];
    [by apply (inv_same h _ s); [done|done|intros te []|intros te []|done]|].
  apply (inv_shrink h _ s); [|by intros te []|done]. intros l' Hl'. rewrite Ht in Hl'. revert Hl'.
  unfold trust_stateid_bulk_revoke_scoped.
  destruct (trust_ht (s_trust s)) as [l|] eqn:Hl; [|by rewrite Hl].
  cbn [trust_ht]. rewrite bulk_loop_filter by lia. intros [= <-].
  exists l. split; [done|]. intros Hu. split; [by apply filter_unique|]. intros te Hte.
  apply list_elem_of_In, filter_In in Hte as [Hin Hrev]. exists te.
  split_and!; try done; [by apply list_elem_of_In|]. intros (Hm & Htg).
  unfold revocable in Hrev. rewrite <-(mds_issuer _ _ _ Hnc Hm), Z.eqb_refl in Hrev.
  bool_prop. cbn in Hrev. destruct Htg as [Htg|Htg]; rewrite Htg, ?Z.eqb_refl in Hrev; cbn in Hrev.
  - done.
  - by rewrite andb_false_r in Hrev.
Qed.

Lemma renewal_map now lease t l :
  trust_ht t = Some l →
  ∃ f, trust_ht (trust_stateid_renewal_scan now lease t) = Some (map f l) ∧
    ∀ te, identity (f te) = identity te ∧ te_iomode (f te) = te_iomode te ∧
          te_flags (f te) = te_flags te ∧ te_expire_ns (f te) = renewed now lease (te_expire_ns te) ∧
          ((0 <= now)%Z → (0 <= lease)%Z → (now + lease * 1000000000 < 2 ^ 64)%Z →
           (te_expire_ns te <= te_expire_ns (f te))%Z).
Proof.
  intros Hl. unfold trust_stateid_renewal_scan. rewrite Hl. eexists. split; [done|].
  intros te. cbn beta zeta. unfold renewed. case_if; [done|]. split_and!; [done..|]. intros H1 H2 H3.
  cbn [te_expire_ns set_expire]. bool_prop.
  assert (wrap 64 (lease * 1000000000) = lease * 1000000000)%Z as E
    by (apply wrap_small; unfold in_width; lia).
  rewrite E in *. rewrite wrap_small by (unfold in_width; lia).
  pose proof (Z.mul_div_le (lease * 1000000000) 2 ltac:(lia)). lia.
Qed.

Lemma map_unique f l : (∀ te, identity (f te) = identity te) → unique l → unique (map f l).
Proof.
  intros Hf. unfold unique. rewrite map_map.
  rewrite (map_ext (λ te, key (f te)) key); [done|]. intros te.
  by pose proof (identity_fields _ _ (Hf te)) as (? & _).
Qed.

Lemma event_inv e s r s' h : inv h s → exec e s = (r, s') → inv ((e, r) :: h) s'.
Proof.
  intros Hinv. destruct e as [g af i c a|i c a|c a|now|now lease|]; cbn [exec].
  - by apply trust_inv.
  - by apply revoke_inv.
  - by apply bulk_inv.
  - intros [= <- <-]. apply (inv_shrink h _ s); [|by intros te []|done]. intros l'. cbn.
    unfold reap_expired. destruct (trust_ht (s_trust s)) as [l|] eqn:Hl; [|by rewrite Hl].
    intros [= <-]. exists l. split; [done|]. intros Hu. split; [by apply filter_unique|].
    intros te Hte. apply list_elem_of_In, filter_In in Hte as [Hin _]. exists te.
    split_and!; try done; [by apply list_elem_of_In|by intros []].
  - intros [= <- <-]. apply (inv_shrink h _ s); [|by intros te []|done]. intros l'. cbn.
    destruct (trust_ht (s_trust s)) as [l|] eqn:Hl;
      [|unfold trust_stateid_renewal_scan; rewrite Hl; by rewrite Hl].
    destruct (renewal_map now lease _ _ Hl) as (f & -> & Hf). intros [= <-]. exists l.
    split; [done|]. intros Hu. split; [apply map_unique; [by intros; apply Hf|done]|].
    intros te' (te & -> & Hin)%list_elem_of_fmap. exists te.
    split_and!; [done|by apply Hf|by apply Hf|by apply Hf|by intros []].
  - intros [= <- <-] l' [= <-]. split; [by constructor|]. by intros te Hte%elem_of_nil.
Qed.

Lemma run_inv es s h s' h' : inv h s → run es s h = (s', h') → inv h' s'.
Proof.
  revert s h. induction es as [|e es IH]; intros s h Hinv; [by intros [= <- <-]|]. cbn [run].
  destruct (exec e s) as [r s1] eqn:E. by apply IH, event_inv with s.
Qed.

Lemma inv_empty s h : trust_ht (s_trust s) = Some [] → inv h s.
Proof. intros H l Hl. rewrite H in Hl. injection Hl as <-. split; [constructor|]. by intros te ?%elem_of_nil. Qed.

(** *** The check of the CHUNK operations *)

Definition authorized (c : compound) (stid : stateid4) (client_id : Z) (require_rw : bool) (t : trust)
    : Prop :=
  stateid4_is_special stid = false ∧
  ∃ l te, trust_ht t = Some l ∧
    lookup_fh (other stid) (nfh_sb (c_curr_nfh c)) (nfh_ino (c_curr_nfh c)) l = Some te ∧
    trust_verdict c te client_id require_rw = None.

Lemma if_none {A} (b : bool) (a : A) o : (if b then Some a else o) = None ↔ b = false ∧ o = None.
Proof using. destruct b; naive_solver. Qed.

Lemma verdict_none c te client_id rw :
  trust_verdict c te client_id rw = None ↔
  has_flag (te_flags te) TRUST_PENDING = false ∧ has_flag (te_flags te) TRUST_ACTIVE = true ∧
  (te_expire_ns te = 0 ∨ c_now c <= te_expire_ns te)%Z ∧
  (rw = true → te_iomode te = LAYOUTIOMODE4_RW) ∧
  c_inode c = true ∧ te_ino te = nfh_ino (c_curr_nfh c) ∧
  (te_sb te = 0%Z ∨ te_sb te = nfh_sb (c_curr_nfh c)) ∧
  (te_principal te = [] ∨ c_gss_principal c = Some (te_principal te)) ∧
  (te_client_id te = CHUNK_GUARD_CLIENT_ID_NONE ∨ client_id = CHUNK_GUARD_CLIENT_ID_NONE ∨
   te_client_id te = client_id).
Proof.
  unfold trust_verdict. cbn zeta.
  rewrite !if_none, !orb_false_iff, !andb_false_iff, !negb_false_iff, !bool_decide_eq_true, !Z.eqb_eq,
    Z.ltb_ge. destruct rw; naive_solver.
Qed.

(** The check answers by the table alone, and changes nothing but counters. *)
Lemma wp_check c stid client_id rw (Q : fail + () → server P → Prop) s :
  (∀ t, trust_ht t = trust_ht (s_trust s) → authorized c stid client_id rw (s_trust s) →
     Q (inr tt) (set_trust t s)) →
  (∀ t e, trust_ht t = trust_ht (s_trust s) → ¬ authorized c stid client_id rw (s_trust s) →
     e ≠ NFS4_OK → Q (inl (Status e)) (set_trust t s)) →
  wp (chunk_check_trusted_stateid c stid client_id rw) Q s.
Proof.
  intros Hok Hf. unfold chunk_check_trusted_stateid, authorized in *.
  destruct (stateid4_is_special stid).
  { unfold count_validation. do 4 wp_step. by apply Hf; [|intros [? _]|]. }
  wp_step. apply wp_on_trust. intros te t Hfind. cbn [andthen].
  revert Hfind. unfold trust_stateid_find_fh.
  destruct (trust_ht (s_trust s)) as [l|] eqn:Hl.
  - intros [= <- <-]. destruct (lookup_fh _ _ _ l) as [te|] eqn:El; cbn [count_miss].
    + destruct (trust_verdict c te client_id rw) as [[o e]|] eqn:Ev.
      * unfold count_validation. do 4 wp_step.
        apply (Hf (trust_stateid_count_validation o (map_stats bump_lookups (s_trust s))));
          [done|intros (_ & l' & te' & ? & ? & ?); congruence|].
        revert Ev. unfold trust_verdict. repeat case_if; by intros [= _ <-].
      * unfold count_validation. wp_step.
        apply (Hok (trust_stateid_count_validation TRUST_VALIDATE_OK (map_stats bump_lookups (s_trust s))));
          [done|]. split; [done|]. by exists l, te.
    + unfold count_validation. do 4 wp_step.
      apply (Hf (trust_stateid_count_validation TRUST_VALIDATE_NO_ENTRY
                   (map_stats bump_misses (map_stats bump_lookups (s_trust s)))));
        [done|intros (_ & l' & te' & ? & ? & ?); congruence|done].
  - intros [= <- <-]. unfold count_validation. do 4 wp_step.
    apply (Hf (trust_stateid_count_validation TRUST_VALIDATE_NO_ENTRY (s_trust s)));
      [done|intros (_ & l' & te' & ? & ? & ?); congruence|done].
Qed.

Lemma check_iff c stid client_id rw (s : server P) :
  fst (chunk_check_trusted_stateid c stid client_id rw s) = inr tt ↔
  authorized c stid client_id rw (s_trust s).
Proof.
  pose proof (wp_check c stid client_id rw
    (λ r _, r = inr tt ↔ authorized c stid client_id rw (s_trust s)) s) as H.
  apply H; [done|]. intros t e _ Hn _. by split.
Qed.

(** *** An entry that nothing takes away *)

(** The event neither removes the entry [id], which is good until [d], nor changes
    its mode. *)
Definition spares (te : trust_entry) (d : Z) (e : event) : Prop :=
  match e with
  | ETrust _ _ i c a =>
      (other (tsa_layout_stateid a), nfh_sb (c_curr_nfh c), trust_ino c i) ≠ key te
  | ERevoke _ c a =>
      (nfh_sb (c_curr_nfh c) ≠ 0 ∨ nfh_ino (c_curr_nfh c) ≠ 0)%Z ∧
      ((other (rsa_layout_stateid a), nfh_sb (c_curr_nfh c), nfh_ino (c_curr_nfh c)) ≠ key te ∨
       client_id_of c ≠ te_issuer_clientid te)
  | EBulk c a =>
      client_id_of c ≠ te_issuer_clientid te ∨
      (brsa_clientid a ≠ 0%Z ∧ brsa_clientid a ≠ te_target_clientid te)
  | EReap now => (now < d)%Z
  | ERenew now lease_sec =>
      (0 <= now)%Z ∧ (0 <= lease_sec)%Z ∧ (now + lease_sec * 1000000000 < 2 ^ 64)%Z
  | ERestart => False
  end.

(** The table holds the entry with its identity, mode and flags, good until [d]. *)
Definition holds (te : trust_entry) (d : Z) (s : server P) : Prop :=
  ∃ l te', trust_ht (s_trust s) = Some l ∧ unique l ∧ te' ∈ l ∧ identity te' = identity te ∧
    te_iomode te' = te_iomode te ∧ te_flags te' = te_flags te ∧ (d <= te_expire_ns te')%Z.

Lemma holds_same te d s s' : s_trust s' = s_trust s → holds te d s → holds te d s'.
Proof. unfold holds. by intros ->. Qed.

Lemma trust_holds granted after i c a s r s' te d :
  spares te d (ETrust granted after i c a) → holds te d s →
  nfs4_op_trust_stateid granted after c a (set_inode i s) = (r, s') → holds te d s'.
Proof.
  intros Hsp Hh Hr. pose proof (wp_run _ _ _ _ _ (trust_op_spec granted after i c a s) Hr) as H.
  destruct H as [[_ Ht]|(_ & nc & pr & _ & _ & _ & _ & Hreg)]; [by eapply holds_same|].
  destruct Hh as (l & te' & Hl & Hu & Hin & Hid & Hm & Hf & Hd).
  destruct (register_spec _ _ _ _ _ _ _ _ _ _ _ _ _ _ Hl Hu Hreg) as [[? _]|(_ & l0 & te0 & Hl0 & R)]; [done|].
  exists l0, te'. split_and!; try done; [apply R|]. apply R; [done|].
  pose proof (identity_fields _ _ Hid) as (Hk & _). rewrite Hk. intros Hk'. by apply Hsp.
Qed.

Lemma revoke_holds i c a s r s' te d :
  spares te d (ERevoke i c a) → holds te d s →
  nfs4_op_revoke_stateid c a (set_inode i s) = (r, s') → holds te d s'.
Proof.
  intros [Hn Hsp] Hh Hr. pose proof (wp_run _ _ _ _ _ (revoke_op_spec i c a s) Hr) as H.
  destruct H as [[_ Ht]|(_ & nc & Hnc & Ht)]; [by eapply holds_same|].
  destruct Hh as (l & te' & Hl & Hu & Hin & Hid & Hm & Hf & Hd).
  destruct (revoke_spec (rsa_layout_stateid a) _ _ (c_id nc) _ _ Hl Hu Hn) as (l1 & Hl1 & Hu1 & _ & Hkeep).
  exists l1, te'. rewrite Ht. split_and!; try done. apply Hkeep; [done|].
  pose proof (identity_fields _ _ Hid) as (Hk & Hi & _). rewrite Hk, Hi.
  unfold client_id_of in Hsp. rewrite Hnc in Hsp. intros [Hk' Hi']. destruct Hsp; congruence.
Qed.

Lemma bulk_holds c a s r s' te d :
  spares te d (EBulk c a) → holds te d s →
  nfs4_op_bulk_revoke_stateid c a s = (r, s') → holds te d s'.
Proof.
  intros Hsp Hh Hr. pose proof (wp_run _ _ _ _ _ (bulk_op_spec c a s) Hr) as H.
  destruct H as [[_ Ht]|(_ & nc & Hnc & Ht)]; [by eapply holds_same|].
  destruct Hh as (l & te' & Hl & Hu & Hin & Hid & Hm & Hf & Hd).
  unfold holds. rewrite Ht. unfold trust_stateid_bulk_revoke_scoped. rewrite Hl. cbn [trust_ht].
  rewrite bulk_loop_filter by lia. eexists _, te'. split; [done|]. split; [by apply filter_unique|].
  split; [|done]. apply list_elem_of_In, filter_In. split; [by apply list_elem_of_In|].
  pose proof (identity_fields _ _ Hid) as (_ & Hi & Htg & _). cbn in Hsp.
  unfold client_id_of in Hsp. rewrite Hnc in Hsp. unfold revocable. rewrite Hi, Htg, negb_involutive.
  apply orb_true_iff. destruct Hsp as [Hsp|[H1 H2]].
  - left. apply negb_true_iff, Z.eqb_neq. congruence.
  - right. apply andb_true_iff. split; apply negb_true_iff, Z.eqb_neq; congruence.
Qed.

Lemma exec_holds e s r s' te d :
  spares te d e → holds te d s → exec e s = (r, s') → holds te d s'.
Proof.
  intros Hsp Hh. destruct e as [g af i c a|i c a|c a|now|now lease|]; cbn [exec].
  - by apply trust_holds.
  - by apply revoke_holds.
  - by apply bulk_holds.
  - intros [= <- <-]. destruct Hh as (l & te' & Hl & Hu & Hin & Hid & Hm & Hf & Hd).
    unfold holds, reap_expired. cbn. rewrite Hl. cbn. eexists _, te'. split; [done|].
    split; [by apply filter_unique|]. split; [|done].
    apply list_elem_of_In, filter_In. split; [by apply list_elem_of_In|].
    rewrite negb_involutive. apply orb_true_iff. right. apply Z.ltb_lt. cbn in Hsp. lia.
  - intros [= <- <-]. destruct Hh as (l & te' & Hl & Hu & Hin & Hid & Hm & Hf & Hd).
    destruct (renewal_map now lease _ _ Hl) as (f & Hf1 & Hf2). destruct Hsp as (H1 & H2 & H3).
    destruct (Hf2 te') as (Hi & Hm' & Hfl & _ & Hex). exists (map f l), (f te').
    split; [done|]. split; [apply map_unique; [by intros; apply Hf2|done]|].
    split; [by apply list_elem_of_fmap_2|]. split_and!; [congruence..|].
    specialize (Hex H1 H2 H3). lia.
  - done.
Qed.

Lemma run_holds es s h s' h' te d :
  Forall (spares te d) es → holds te d s → run es s h = (s', h') → holds te d s'.
Proof.
  revert s h. induction es as [|e es IH]; intros s h Hall Hh; [by intros [= <- _]|].
  apply list.Forall_cons in Hall as [He Hall]. cbn [run]. destruct (exec e s) as [r s1] eqn:E.
  apply IH; [done|]. by eapply exec_holds.
Qed.

(** The principal of the entry a request makes or renews: a renewal keeps the one
    recorded first. *)
Definition kept_principal (s : server P) (after : list byte) (i : inode P) (c : compound)
    (a : TRUST_STATEID4args) : list byte :=
  match find (trust_match_fh (other (tsa_layout_stateid a)) (nfh_sb (c_curr_nfh c)) (trust_ino c i))
          (default [] (trust_ht (s_trust s))) with
  | Some te => te_principal te
  | None => bound_principal a after
  end.

(** The entry a request creates or leaves. *)
Definition entry_of (principal : list byte) (i : inode P) (c : compound) (a : TRUST_STATEID4args) : trust_entry :=
  mk_entry (other (tsa_layout_stateid a)) (nfh_sb (c_curr_nfh c)) (trust_ino c i) (client_id_of c)
    (tsa_pnfs_clientid a) (tsa_iomode a) (granted_deadline c a) TRUST_ACTIVE principal (tsa_client_id a).

(** After a grant the table holds its entry. *)
Lemma granted_holds granted after i c a s s1 :
  (∀ l, trust_ht (s_trust s) = Some l → unique l) →
  exec (ETrust granted after i c a) s = (inr tt, s1) →
  let te := entry_of (kept_principal s after i c a) i c a in
  holds te (te_expire_ns te) s1 ∧ stateid4_is_special (tsa_layout_stateid a) = false.
Proof.
  intros Hu Hr te. pose proof (wp_run _ _ _ _ _ (trust_op_spec granted after i c a s) Hr) as H.
  destruct H as [[[e ?] _]|(_ & nc & pr & Hm & Hsp & _ & Hpr & Hreg)]; [done|]. split; [|done].
  destruct (trust_ht (s_trust s)) as [l|] eqn:Hl;
    [|unfold trust_stateid_register_fh in Hreg; rewrite Hl in Hreg; by injection Hreg].
  destruct (register_spec _ _ _ _ _ _ _ _ _ _ _ _ _ _ Hl (Hu l eq_refl) Hreg)
    as [[? _]|(_ & l' & te' & Hl' & R)]; [done|].
  destruct (reg_identity _ _ _ _ _ _ _ _ _ _ _ _ R) as (p0 & Hid).
  destruct (reg_mode _ _ _ _ _ _ _ _ _ _ _ _ R) as (Hmode & Hexp & Hfl).
  exists l', te'. split; [done|]. split; [apply R|]. split; [apply R|].
  split; [|split_and!; [done..|by rewrite Hexp]].
  pose proof (reg_principal _ _ _ _ _ _ _ _ _ _ _ _ R) as Hp. rewrite Hpr in Hp.
  assert (te_principal te = te_principal te') as Hp'.
  { unfold te, kept_principal. cbn [te_principal entry_of]. by rewrite Hl, Hp. }
  assert (client_id_of c = c_id nc) as Hc.
  { destruct Hm as (nc' & Hnc & He & _). unfold client_id_of. by rewrite Hnc. }
  unfold identity in *. rewrite Hp'. injection Hid as Ho Hs Hi H1 H2 H3 H4. unfold key in *. cbn. congruence.
Qed.

End Events.

Lemma special_other st st' : other st = other st' → stateid4_is_special st = stateid4_is_special st'.
Proof. unfold stateid4_is_special, stateid4_other_is_zero, stateid4_other_is_ones. by intros ->. Qed.

Lemma lookup_fh_in k sb ino l te : lookup_fh k sb ino l = Some te → te ∈ l ∧ te_other te = k.
Proof.
  unfold lookup_fh. destruct (find (trust_match_fh _ _ _) l) eqn:E.
  - intros [= <-]. apply find_match in E as [? [= ? _ _]]. done.
  - case_if; [|done]. intros [H1 H2]%find_some. split; [by apply list_elem_of_In|].
    unfold trust_match_fh_legacy in H2. bool_prop. by eapply bool_decide_eq_true.
Qed.

End TrustCorrect.
