(* ===== verification/TrustTheorems.v ===== *)
(** * What the trust table guarantees

    The theorems on the control operations and on the check that gates the CHUNK
    operations. *)

From S2P Require Import Prelude.
From S2P Require Import ChunkStore.
From S2P Require Import Handler.
From S2P Require Import Nfs4.
From S2P Require Import Trust.
From S2P Require Import ChunkOps.
From S2P Require Import TrustOps.
From S2P Require Import TrustCorrect.
From S2P Require Import Posix.
Import Posix ChunkStore Handler Nfs4 Trust ChunkOps TrustOps TrustCorrect.

Module TrustTheorems.

Section Check.

Context {P : Type}.
Implicit Types (s : server P) (i : inode P).

(** C6: after any sequence of control operations, reaper passes and restarts from
    an empty table, a CHUNK request passes the check only if a metadata server
    trusted its stateid, on a session of its own, for the file of the request, and
    no revocation, bulk revocation or restart has covered that since.  The request
    then has the principal and the client binding of that grant, the mode of the
    last one, and comes no later than the deadline that the last grant gave, as the
    renewal scans after it have moved it; a deadline of 0 counts as none, and no
    grant gives one. *)
Theorem trust_check_sound (es : list event) s0 s h c stid client_id rw :
  trust_ht (s_trust s0) = Some [] → run es s0 [] = (s, h) →
  fst (chunk_check_trusted_stateid c stid client_id rw s) = inr tt →
  ∃ te, explained h te ∧
    te_other te = other stid ∧ c_inode c = true ∧ te_ino te = nfh_ino (c_curr_nfh c) ∧
    (te_sb te = 0%Z ∨ te_sb te = nfh_sb (c_curr_nfh c)) ∧
    (rw = true → te_iomode te = LAYOUTIOMODE4_RW) ∧
    (te_principal te = [] ∨ c_gss_principal c = Some (te_principal te)) ∧
    (te_client_id te = 0%Z ∨ client_id = 0%Z ∨ te_client_id te = client_id) ∧
    (te_expire_ns te = 0%Z ∨ (c_now c <= te_expire_ns te)%Z).
Proof.
  intros H0 Hrun (_ & l & te & Hl & Hf & Hv)%check_iff.
  destruct (run_inv _ _ _ _ _ (inv_empty _ [] H0) Hrun l Hl) as [_ Hex].
  apply verdict_none in Hv as (_ & _ & Hexp & Hrw & Hi & Hino & Hsb & Hpr & Hcl).
  destruct (lookup_fh_in _ _ _ _ _ Hf) as [Hin Ho]. exists te. split; [by apply Hex|]. done.
Qed.

(** C19: once a metadata server has trusted a stateid, for the first time or again,
    a CHUNK request with that stateid, for that file, from that client and with the
    recorded principal passes the check until the deadline, whatever other control
    operations and reaper passes come in between that do not name or cover the
    entry; renewal scans must not wrap the clock.  The recorded principal is that
    of the request that made the entry: trusting it again does not replace it. *)
Theorem trust_check_lasts (es0 es : list event) s0 s h granted after i c a s1 s2 h2 c' stid client_id rw :
  trust_ht (s_trust s0) = Some [] → run es0 s0 [] = (s, h) →
  exec (ETrust granted after i c a) s = (inr tt, s1) →
  let te := entry_of (kept_principal s after i c a) i c a in
  Forall (spares te (te_expire_ns te)) es → run es s1 h = (s2, h2) →
  other stid = te_other te → c_inode c' = true →
  nfh_ino (c_curr_nfh c') = te_ino te → nfh_sb (c_curr_nfh c') = te_sb te →
  (c_now c' <= te_expire_ns te)%Z → (rw = true → te_iomode te = LAYOUTIOMODE4_RW) →
  (te_principal te = [] ∨ c_gss_principal c' = Some (te_principal te)) →
  (te_client_id te = 0%Z ∨ client_id = 0%Z ∨ te_client_id te = client_id) →
  fst (chunk_check_trusted_stateid c' stid client_id rw s2) = inr tt.
Proof.
  intros H0 Hrun0 Hex te Hsp Hrun Ho Hi Hino Hsb Hnow Hrw Hpr Hcl.
  assert (holds te (te_expire_ns te) s1 ∧ stateid4_is_special (tsa_layout_stateid a) = false) as [Hh1 Hspec].
  { apply (granted_holds granted after i c a s s1); [|done].
    intros l Hl. by apply (run_inv _ _ _ _ _ (inv_empty _ [] H0) Hrun0 l Hl). }
  pose proof (run_holds _ _ _ _ _ _ _ Hsp Hh1 Hrun) as (l & te' & Hl & Hu & Hin & Hid & Hm & Hf & Hd).
  apply check_iff. split; [by rewrite (special_other _ _ Ho)|]. exists l, te'.
  pose proof (identity_fields _ _ Hid) as (Hk & _ & _ & Hp & Hc).
  split; [done|]. split.
  - unfold lookup_fh. rewrite Ho, Hino, Hsb. by rewrite (find_unique _ _ _ _ _ Hu Hin Hk).
  - apply verdict_none. rewrite Hf, Hm, Hp, Hc. injection Hk as _ Hks Hki. rewrite Hki, Hks.
    split_and!; try done; [right; lia|by right].
Qed.

End Check.

(** ** A small history *)

Definition mds_client : nfs4_client := mk_client EXCHGID4_FLAG_USE_PNFS_MDS 7.
Definition plain_client : nfs4_client := mk_client 0 9.
Definition sample_nfh (ino : Z) : network_file_handle := mk_nfh 1 0 0 0 5 ino.
Definition sample_ss : server_state := mk_server_state None (replicate 16 x01) 3.

Definition sample_compound (nc : nfs4_client) (ino now : Z) : compound :=
  mk_compound (sample_nfh ino) true true None (Some nc) sample_ss now 1000000000.

Definition sample_inode (ino : Z) : inode () :=
  mk_inode ino 0x8000 0 0 None None None (0%Z, None).

Definition no_stats : trust_stateid_stats := mk_tstats 0 0 0 0 0 0 0 (λ _, 0%Z).
Definition no_cstats : reffs_chunk_stats := mk_cstats 0 0 0 0 0 0 0 0 0 0 0 0 0.

Definition sample_server : server () :=
  mk_server (sample_inode 42) (mk_trust (Some []) no_stats) no_cstats (mk_sys ∅ [] [])
    (mk_budgets 0 0 0 0).

Definition sample_stateid : stateid4 := mk_stateid 1 (replicate 12 x07).

(** Good for sixty seconds from the instant 1 s of both clocks. *)
Definition sample_trust : TRUST_STATEID4args :=
  mk_trust_args sample_stateid 9 17 LAYOUTIOMODE4_RW (mk_time 61 0) [].

(** Another file is revoked, another client's entries go, the reaper runs. *)
Definition sample_events : list (event (P := ())) :=
  [ERevoke (sample_inode 43) (sample_compound mds_client 43 2000000000) (mk_revoke_args sample_stateid);
   EBulk (sample_compound mds_client 1 3000000000) (mk_bulk_args 10);
   EReap 4000000000; ERenew 5000000000 90].

Definition sample_grant : event :=
  ETrust true [] (sample_inode 42) (sample_compound mds_client 42 1000000000) sample_trust.

Lemma trust_check_sound_witness :
  ∃ te, explained (snd (run (sample_grant :: sample_events) sample_server [])) te ∧
        te_other te = replicate 12 x07.
Proof.
  destruct (trust_check_sound (sample_grant :: sample_events) sample_server
              (fst (run (sample_grant :: sample_events) sample_server []))
              (snd (run (sample_grant :: sample_events) sample_server []))
              (sample_compound plain_client 42 6000000000) sample_stateid 17 true
              eq_refl ltac:(vm_compute; reflexivity) ltac:(vm_compute; reflexivity))
    as (te & Hex & Ho & _).
  exists te. split; [exact Hex|exact Ho].
Defined.

Lemma trust_check_lasts_witness :
  fst (chunk_check_trusted_stateid (sample_compound plain_client 42 60000000000) sample_stateid 17 true
         (fst (run sample_events (snd (exec sample_grant sample_server)) []))) = inr tt.
Proof.
  refine (trust_check_lasts [] sample_events sample_server sample_server [] true []
            (sample_inode 42) (sample_compound mds_client 42 1000000000) sample_trust
            (snd (exec sample_grant sample_server))
            (fst (run sample_events (snd (exec sample_grant sample_server)) []))
            (snd (run sample_events (snd (exec sample_grant sample_server)) []))
            (sample_compound plain_client 42 60000000000) sample_stateid 17 true
            eq_refl eq_refl _ _ _ _ _ _ _ _ _ _ _).
  - vm_compute. reflexivity.
  - apply Forall_cons_2; [split; [by left|left; vm_compute; congruence]|].
    apply Forall_cons_2; [right; split; vm_compute; congruence|].
    apply Forall_cons_2; [reflexivity|]. apply Forall_cons_2; [|apply Forall_nil_2].
    cbn [spares]. lia.
  - vm_compute. reflexivity.
  - reflexivity.
  - reflexivity.
  - reflexivity.
  - reflexivity.
  - vm_compute. done.
  - intros _. reflexivity.
  - left. reflexivity.
  - right. right. reflexivity.
Defined.

(** ** Deadlines *)

(** C39: a deadline is taken modulo 2^64 nanoseconds.  If what is left has passed
    on the wall clock it is refused, and otherwise it is carried over to the
    monotonic clock, at most the largest value.  So one below 2^64 nanoseconds is
    kept exactly, one from there on up to the current time beyond is refused, and a
    later one is accepted with the 2^64 nanoseconds missing, never capped for being
    too far. *)
Theorem trust_expire_bounds sec nsec wall mono :
  (0 < sec)%Z → (0 <= nsec < 1000000000)%Z → in_width 64 wall → in_width 64 mono →
  let t := (sec * 1000000000 + nsec)%Z in
  let deadline := trust_stateid_convert_expire (mk_time sec nsec) wall mono in
  let carried t := (if t <=? wall then 0 else Z.min (mono + (t - wall)) UINT64_MAX)%Z in
  deadline = carried (t mod 2 ^ 64)%Z ∧
  ((t < 2 ^ 64)%Z → deadline = carried t) ∧
  ((2 ^ 64 <= t <= 2 ^ 64 + wall)%Z → deadline = 0%Z) ∧
  ((2 ^ 64 + wall < t < 2 * 2 ^ 64)%Z →
     deadline = Z.min (mono + (t - 2 ^ 64 - wall)) UINT64_MAX).
Proof.
  intros Hs Hn Hw Hm t deadline carried. unfold in_width in *.
  assert (deadline = carried (t mod 2 ^ 64)%Z) as E.
  { unfold deadline, carried, trust_stateid_convert_expire. cbn [seconds nseconds].
    assert ((1000000000 <=? nsec)%Z = false) as -> by (apply Z.leb_gt; lia).
    assert ((sec <=? 0)%Z = false) as -> by (apply Z.leb_gt; lia).
    assert (wrap 64 (wrap 64 (sec * 1000000000) + nsec) = t mod 2 ^ 64)%Z as ->
      by (unfold wrap; by rewrite Zplus_mod_idemp_l).
    cbn zeta. split_ifs; [done|..]; unfold UINT64_MAX in *; lia. }
  assert (Hover : (2 ^ 64 <= t < 2 * 2 ^ 64)%Z → (t mod 2 ^ 64 = t - 2 ^ 64)%Z).
  { intros Ht. rewrite <-(Z_mod_plus_full t (-1)). apply Z.mod_small. lia. }
  rewrite E. unfold carried. split; [done|]. split; [|split]; intros Ht.
  - by rewrite Z.mod_small by lia.
  - rewrite Hover by lia. by assert ((t - 2 ^ 64 <=? wall)%Z = true) as -> by (apply Z.leb_le; lia).
  - rewrite Hover by lia. by assert ((t - 2 ^ 64 <=? wall)%Z = false) as -> by (apply Z.leb_gt; lia).
Qed.

Lemma trust_expire_bounds_witness :
  trust_stateid_convert_expire (mk_time 18446744074 0) 1790000000000000000 5 = 0%Z.
Proof.
  apply (trust_expire_bounds 18446744074 0 1790000000000000000 5); unfold in_width; lia.
Defined.

End TrustTheorems.
