(* ===== verification/ChunkReload.v ===== *)
(** * Loading a chunk store whatever the calls answer

    A load that succeeds is the load in which no call failed, so that a file written
    by [chunk_store_persist] is read back as the store it holds or not at all; and
    the file system only ever holds such files. *)

From S2P Require Import Prelude.
From S2P Require Import Posix.
From S2P Require Import ChunkStore.
From S2P Require Import ChunkDisk.
From S2P Require Import ChunkCorrect.
From S2P Require Import ChunkSteps.
From S2P Require Import ChunkDiskCorrect.
From S2P Require Import Replace.
From S2P Require Import ChunkPersist.
From stdpp Require Import gmap strings.
Import Posix ChunkStore ChunkDisk ChunkCorrect ChunkSteps ChunkDiskCorrect Replace ChunkPersist.

Module ChunkReload.

(** ** Reads *)

(** The same file system, with every call answered. *)
Definition quiet (s : sys) : sys := mk_sys (now s) (past s) [].

Definition unchanged (s s' : sys) : Prop := now s' = now s ∧ past s' = past s.

Lemma unchanged_refl s : unchanged s s.
Proof. done. Qed.

Lemma unchanged_trans s1 s2 s3 : unchanged s1 s2 → unchanged s2 s3 → unchanged s1 s3.
Proof. intros [? ?] [? ?]. split; congruence. Qed.

Lemma unchanged_visits (P : files → Prop) s s' : P (now s) → unchanged s s' → visits P s s'.
Proof. intros HP [Hn Hp]. split; [by rewrite Hn|]. exists []. by rewrite Hp. Qed.

Lemma unchanged_quiet s s' : unchanged s s' → quiet s' = quiet s.
Proof. intros [Hn Hp]. unfold quiet. by rewrite Hn, Hp. Qed.

Lemma outcome_unchanged s o s' : next_outcome s = (o, s') → unchanged s s'.
Proof. apply next_outcome_frame. Qed.

Lemma read_unchanged n fd s k buf fd' s' : sys_read n fd s = (k, buf, fd', s') → unchanged s s'.
Proof.
  unfold sys_read. destruct (next_outcome s) as [[] s0] eqn:E; intros [= _ _ _ <-];
    by eapply outcome_unchanged.
Qed.

(** A read of all the bytes asked for is a read that nothing disturbed. *)
Lemma read_full n fd s buf fd' s' :
  sys_read n fd s = (Z.of_nat n, buf, fd', s') →
  sys_read n fd (quiet s) = (Z.of_nat n, buf, fd', quiet s').
Proof.
  intros H. pose proof (read_unchanged _ _ _ _ _ _ _ H) as Hu.
  rewrite (unchanged_quiet _ _ Hu). revert H. unfold sys_read at 2. cbn [next_outcome quiet outs].
  unfold sys_read. destruct (next_outcome s) as [[|e|k] s0]; intros H.
  - by injection H as <- <- <- _.
  - injection H. lia.
  - injection H as Hk <- <- _. rewrite length_take in Hk.
    replace (Nat.min k n) with n by lia. rewrite length_take. by rewrite Nat.min_l by lia.
Qed.

Lemma open_spec path s r s' :
  sys_open path s = (r, s') →
  unchanged s s' ∧ ∀ fd, r = inr fd → ∃ f, now s !! path = Some f ∧ fd = f_bytes f.
Proof.
  unfold sys_open. destruct (next_outcome s) as [o s0] eqn:E.
  pose proof (outcome_unchanged _ _ _ E) as [Hn Hp]. rewrite Hn.
  destruct o; [destruct (now s !! path) eqn:Ef| |destruct (now s !! path) eqn:Ef];
    intros [= <- <-]; (split; [done|]); intros fd [= <-]; by eexists.
Qed.

Lemma close_unchanged s : unchanged s (snd (sys_close s)).
Proof.
  unfold sys_close. destruct (next_outcome s) as [o s0] eqn:E.
  pose proof (outcome_unchanged _ _ _ E). by destruct o.
Qed.

Section Loop.

Context {A : Type} (size : nat) (decode : list byte → A) (bad : A → bool).

Lemma loop_quiet n arr fd s :
  match read_loop size decode bad n arr fd s with
  | inl (arr', fd', s') =>
      unchanged s s' ∧ read_loop size decode bad n arr fd (quiet s) = inl (arr', fd', quiet s')
  | inr s' => unchanged s s'
  end.
Proof using.
  unfold read_loop. generalize 0%nat. revert arr fd s.
  induction n as [|n IH]; intros arr fd s lo; cbn [for_break]; [done|].
  destruct (sys_read size fd s) as [[[k buf] fd1] s1] eqn:E.
  pose proof (read_unchanged _ _ _ _ _ _ _ E) as Hu1.
  destruct (Z.eqb_spec k (Z.of_nat size)) as [->|]; cbn [negb]; [|done].
  rewrite (read_full _ _ _ _ _ _ E), Z.eqb_refl. cbn [negb].
  destruct (bad (decode buf)); [done|]. specialize (IH (wr arr lo (decode buf)) fd1 s1 (S lo)).
  destruct (for_break (S lo) n _ _) as [[[arr' fd'] s']|s'].
  - destruct IH as [Hu IH]. split; [by eapply unchanged_trans|done].
  - by eapply unchanged_trans.
Qed.

End Loop.

(** ** Loads *)

Lemma load_blocks_quiet n blocks fd s :
  match load_blocks n blocks fd s with
  | inl (blocks', fd', s') =>
      unchanged s s' ∧ load_blocks n blocks fd (quiet s) = inl (blocks', fd', quiet s')
  | inr s' => unchanged s s'
  end.
Proof. rewrite load_blocks_loop, (load_blocks_loop _ _ _ (quiet s)). apply loop_quiet. Qed.

Lemma load_ranges_quiet nblocks ranges fd s :
  match load_ranges nblocks ranges fd s with
  | inl (ranges', fd', s') =>
      unchanged s s' ∧ load_ranges nblocks ranges fd (quiet s) = inl (ranges', fd', quiet s')
  | inr s' => unchanged s s'
  end.
Proof. rewrite load_ranges_loop, (load_ranges_loop _ _ _ (quiet s)). apply loop_quiet. Qed.

Lemma load_store_quiet grants ino fd s o s' :
  load_store grants ino fd s = (o, s') →
  unchanged s s' ∧
  ∀ cs, o = Some cs → load_store (λ _ _, true) ino fd (quiet s) = (Some cs, quiet s').
Proof.
  unfold load_store. destruct (sys_read HEADER_SIZE fd s) as [[[n buf] fd1] s1] eqn:E1.
  pose proof (read_unchanged _ _ _ _ _ _ _ E1) as Hu1.
  destruct (header_bad n (header_of buf) ino) eqn:Hbad; [intros [= <- <-]; by split|].
  assert (n = Z.of_nat HEADER_SIZE) as -> by (unfold header_bad in Hbad; by bool_prop).
  rewrite (read_full _ _ _ _ _ _ E1), Hbad. cbn [negb andb]. rewrite andb_false_r.
  do 3 (case_if; [intros [= <- <-]; by split|]).
  match goal with |- context [load_blocks ?n ?b fd1 s1] =>
    pose proof (load_blocks_quiet n b fd1 s1) as H1; destruct (load_blocks n b fd1 s1) as [[[bl fd2] s2]|s2] end;
    [|intros [= <- <-]; split; [by eapply unchanged_trans|done]].
  destruct H1 as [Hu2 ->].
  match goal with |- context [load_ranges ?n ?b fd2 s2] =>
    pose proof (load_ranges_quiet n b fd2 s2) as H2; destruct (load_ranges n b fd2 s2) as [[[rs fd3] s3]|s3] end;
    [|intros [= <- <-]; split; [by do 2 eapply unchanged_trans|done]].
  destruct H2 as [Hu3 ->]. intros [= <- <-]. split; [by do 2 eapply unchanged_trans|].
  by intros cs [= <-].
Qed.

(** The image of a store is read back as that store, or not at all. *)
Lemma reload_image grants cs ino s cs2 s' :
  store_inv cs → index_exact cs → in_width 64 ino →
  load_store grants ino (image cs ino) s = (Some cs2, s') → same_store cs cs2.
Proof.
  intros Hinv Hex Hino Hl. apply load_store_quiet in Hl as [_ Hl]. specialize (Hl cs2 eq_refl).
  destruct (Z.le_gt_cases (cs_high_water cs) CHUNK_STORE_MAX_BLOCKS) as [Hm|Hm].
  - destruct (load_image (λ _ _, true) cs ino (quiet s)) as (c & E & Hs); try done. congruence.
  - exfalso. revert Hl. unfold load_store, image.
    rewrite read_item by (done || apply length_header_bytes).
    rewrite header_back by (apply header_of_store; [apply Hinv|done]). unfold header_bad, store_header.
    cbn [csh_magic csh_version csh_nblocks csh_inode_ino csh_chunk_size csh_checksum_algorithm
         csh_escrow_count csh_escrow_record_size].
    assert ((CHUNK_STORE_MAX_BLOCKS <? cs_high_water cs)%Z = true) as -> by (apply Z.ltb_lt; lia).
    by rewrite !Z.eqb_refl.
Qed.

(** ** Stores of a server *)

(** A block in escrow is locked, and the metadata server holds it. *)
Definition escrow_held (b : chunk_block) : Prop :=
  has_flag (cb_flags b) CHUNK_BLOCK_ESCROW = true →
  has_flag (cb_flags b) CHUNK_BLOCK_LOCKED = true ∧ cb_lock_client_id b = UINT32_MAX.

Record store_good (cs : chunk_store) : Prop := {
  good_inv : store_inv cs;
  good_escrow : ∀ off, escrow_held (blk_at cs off);
}.

Lemma idle_escrow b : idle b → escrow_held b.
Proof. intros [_ H] He. unfold in_escrow in H. by rewrite He in H. Qed.

Lemma good_same cs cs2 : store_good cs → store_ok cs2 → same_store cs cs2 → store_good cs2.
Proof.
  intros [Hinv He] Hok Hs. pose proof (same_high _ _ Hs) as Hh.
  assert (Hat : ∀ i, (0 <= i)%Z → blk_at cs2 i = blk_at cs i ∨ idle (blk_at cs2 i)).
  { intros i Hi. destruct (Z.lt_ge_cases i (cs_high_water cs)) as [H|H].
    - left. by rewrite (same_blocks _ _ Hs) by lia.
    - right. apply (ok_above _ Hok). lia. }
  split.
  - apply (blocks_inv cs); [done|done|lia|]. intros i Hi.
    destruct (Hat i Hi) as [?|?]; [by left|]. right. auto with reffs.
  - apply at_nonneg. intros i Hi. destruct (Hat i Hi) as [->|?]; [done|by apply idle_escrow].
Qed.

Lemma fresh_good : store_good fresh_store.
Proof.
  split; [apply fresh_inv|]. intros off. unfold blk_at, fresh_store. cbn [cs_blocks].
  by rewrite rd_replicate.
Qed.

(** What a metadata file holds: all of a good store, synced. *)
Definition file_ok (ino : Z) (f : file) : Prop :=
  f_synced f = true ∧
  ∃ cs, f_bytes f = image cs ino ∧ store_good cs ∧ index_exact cs.

Definition disk_ok (path : string) (ino : Z) (fs : files) : Prop :=
  ∀ f, fs !! path = Some f → file_ok ino f.

Lemma load_good grants dir ino path s o s' :
  in_width 64 ino → chunk_meta_path 512 dir ino = inr path → disk_ok path ino (now s) →
  chunk_store_load grants dir ino s = (o, s') →
  unchanged s s' ∧ ∀ cs, o = Some cs → store_good cs.
Proof.
  intros Hino Hp Hd. unfold chunk_store_load. rewrite Hp.
  destruct (sys_open path s) as [[e|fd] s1] eqn:E1;
    destruct (open_spec _ _ _ _ E1) as [Hu1 Hfd]; [by intros [= <- <-]|].
  destruct (load_store grants ino fd s1) as [cs s2] eqn:El.
  pose proof (load_store_quiet _ _ _ _ _ _ El) as [Hu2 _]. intros [= <- <-]. split.
  - eapply unchanged_trans; [done|]. eapply unchanged_trans; [done|apply close_unchanged].
  - intros c ->. destruct (Hfd fd eq_refl) as (f & Hf & ->).
    destruct (Hd f Hf) as (_ & c0 & Hb & Hg & Hex). rewrite Hb in El.
    pose proof (load_store_ok _ _ _ _ _ _ El) as (Hok & _).
    apply (good_same c0); [done|done|]. eapply reload_image; [apply Hg|done|done|exact El].
Qed.

(** A load that succeeds gives what an undisturbed one would. *)
Lemma load_exact grants dir ino s cs s' :
  chunk_store_load grants dir ino s = (Some cs, s') →
  fst (chunk_store_load (λ _ _, true) dir ino (quiet s)) = Some cs.
Proof.
  unfold chunk_store_load. destruct (chunk_meta_path 512 dir ino) as [|path]; [done|].
  destruct (sys_open path s) as [[e|fd] s1] eqn:E1; [done|].
  destruct (open_spec _ _ _ _ E1) as [Hu Hfd]. destruct (Hfd fd eq_refl) as (f & Hf & ->).
  destruct (load_store grants ino (f_bytes f) s1) as [o s2] eqn:El. intros [= -> _].
  unfold sys_open, next_outcome. cbn [quiet outs now]. rewrite Hf.
  apply load_store_quiet in El as [_ El]. rewrite <-(unchanged_quiet _ _ Hu). by rewrite (El cs eq_refl).
Qed.

(** A crash leaves a file that was there at some moment, whole. *)
Lemma crash_ok path ino hist fs' :
  Forall (disk_ok path ino) hist → after_crash hist fs' → disk_ok path ino fs'.
Proof.
  rewrite list.Forall_forall. intros H Hc. destruct (crash_lookup hist fs' path Hc) as (fs & Hin & He).
  - intros fs f Hin Hf. apply (H fs Hin f Hf).
  - intros f Hf. apply (H fs Hin). congruence.
Qed.

Lemma good_data cs cs' : store_good cs → store_inv cs' → same_data cs cs' → store_good cs'.
Proof. intros [_ He] Hinv (Hb & _). split; [done|]. intros off. unfold blk_at. rewrite Hb. apply He. Qed.

(** The file holds the blocks of the store. *)
Definition stored (path : string) (ino : Z) (cs : chunk_store) (fs : files) : Prop :=
  ∃ f cs1, fs !! path = Some f ∧ f_bytes f = image cs1 ino ∧ store_good cs1 ∧ index_exact cs1 ∧
           same_data cs cs1.

(** Persisting goes from good files to good files, and on success leaves that of the
    store. *)
Lemma persist_disk grants cs dir ino path s ret ocs s' :
  store_good cs → chunk_meta_path 512 dir ino = inr path → disk_ok path ino (now s) →
  chunk_store_persist grants (Some cs) dir ino s = (ret, ocs, s') →
  ∃ cs', ocs = Some cs' ∧ same_data cs cs' ∧ store_good cs' ∧ visits (disk_ok path ino) s s' ∧
         (ret = 0%Z → cs_dirty cs = true → stored path ino cs (now s')).
Proof.
  intros Hg Hp Hd E. destruct (cs_dirty cs) eqn:Edirty.
  - destruct (persist_spec _ _ _ _ _ _ _ _ _ (good_inv _ Hg) Edirty Hp E)
      as (cs' & -> & Hsame & Hinv' & Hrep & Hclean & _).
    pose proof (good_data _ _ Hg Hinv' Hsame) as Hg'. exists cs'.
    do 3 (split; [done|]). pose proof (tmp_ne path) as Hne. split.
    + destruct Hrep as [(Hr & Hv & _)|[_ Hv]]; (eapply visits_mono; [|exact Hv]); intros fs Hfs f Hf.
      * destruct (Hfs path Hne) as [He|[_ He]]; rewrite He in Hf; [by apply Hd|].
        injection Hf as <-. split; [done|]. exists cs'. by destruct (Hclean Hr).
      * rewrite (Hfs path Hne) in Hf. by apply Hd.
    + intros Hr _. destruct Hrep as [(_ & _ & Hf)|[? _]]; [|done].
      eexists _, cs'. split; [done|]. by destruct (Hclean Hr).
  - unfold chunk_store_persist in E. rewrite Edirty in E. injection E as <- <- <-.
    exists cs. split_and!; try done. by apply visits_refl.
Qed.

End ChunkReload.
