(* ===== verification/ChunkEdits.v ===== *)
(** * What the CHUNK handlers do to the blocks of a store

    Each loop of a handler over a range of blocks, described block by block, with
    the invariant it keeps. *)

From S2P Require Import Prelude.
From S2P Require Import ChunkStore.
From S2P Require Import ChunkCorrect.
From S2P Require Import ChunkSteps.
From S2P Require Import ChunkPersist.
From S2P Require Import ChunkReload.
From S2P Require Import Nfs4.
From S2P Require Import ChunkOps.
From S2P Require Import ChunkLock.
Import ChunkStore ChunkCorrect ChunkSteps ChunkPersist ChunkReload Nfs4 ChunkOps ChunkLock.

Module ChunkEdits.

(** ** Stores of one shape *)

(** Only blocks and the dirty mark differ. *)
Record shape (cs cs' : chunk_store) : Prop := {
  sh_length : length (cs_blocks cs') = length (cs_blocks cs);
  sh_nblocks : cs_nblocks cs' = cs_nblocks cs;
  sh_high : cs_high_water cs' = cs_high_water cs;
  sh_size : cs_chunk_size cs' = cs_chunk_size cs;
  sh_algorithm : cs_checksum_algorithm cs' = cs_checksum_algorithm cs;
  sh_escrows : cs_escrows cs' = cs_escrows cs;
  sh_cap : cs_escrow_cap cs' = cs_escrow_cap cs;
}.

#[export] Instance shape_preorder : PreOrder shape.
Proof. split; [by intros cs; split|]. intros a b c [] []. split; congruence. Qed.

(** The same parameters, the high-water mark included. *)
Record dims (cs cs' : chunk_store) : Prop := {
  di_nblocks : cs_nblocks cs' = cs_nblocks cs;
  di_high : cs_high_water cs' = cs_high_water cs;
  di_size : cs_chunk_size cs' = cs_chunk_size cs;
  di_algorithm : cs_checksum_algorithm cs' = cs_checksum_algorithm cs;
}.

#[export] Instance dims_equiv : Equivalence dims.
Proof.
  split; [by intros cs; split|by intros a b []; split|]. intros a b c [] []. split; congruence.
Qed.

Lemma shape_dims cs cs' : shape cs cs' → dims cs cs'.
Proof. intros []. by split. Qed.

Lemma same_data_dims cs cs' : same_data cs cs' → dims cs cs'.
Proof. intros (_ & ? & ? & ? & ?). by split. Qed.

(** What the invariant asks of the block at [off]. *)
Record block_good (high off : Z) (b : chunk_block) : Prop := {
  bg_ok : block_ok b;
  bg_custody : custody_in high b;
  bg_state : state_ok b;
  bg_escrow : escrow_held b;
  bg_above : (high <= off)%Z → idle b;
}.

Lemma good_block cs off : store_good cs → block_good (cs_high_water cs) off (blk_at cs off).
Proof.
  intros [[Hok Hc Hs] He]. split; [apply Hok|apply Hc|apply Hs|apply He|apply (ok_above _ Hok)].
Qed.

Lemma shape_good cs cs' :
  store_good cs → shape cs cs' →
  (∀ j, (0 <= j)%Z → block_good (cs_high_water cs) j (blk_at cs' j)) → store_good cs'.
Proof.
  intros [[Hok Hc Hs] He] Hsh Hb. pose proof Hok as []. destruct Hsh.
  split; [split; [split|..]|]; try congruence.
  - apply at_nonneg. intros i Hi. apply (bg_ok _ _ _ (Hb i Hi)).
  - rewrite sh_high0. intros i Hi. apply (bg_above _ _ _ (Hb i ltac:(lia))). done.
  - unfold custody_ok. rewrite sh_high0. apply at_nonneg. intros i Hi. apply (bg_custody _ _ _ (Hb i Hi)).
  - unfold states_ok. apply at_nonneg. intros i Hi. apply (bg_state _ _ _ (Hb i Hi)).
  - apply at_nonneg. intros i Hi. apply (bg_escrow _ _ _ (Hb i Hi)).
Qed.

Lemma ok_good cs :
  store_ok cs → (∀ j, (0 <= j)%Z → block_good (cs_high_water cs) j (blk_at cs j)) → store_good cs.
Proof.
  intros Hok Hb. split; [split; [done|..]|]; [unfold custody_ok|unfold states_ok|];
    apply at_nonneg; intros j Hj; apply (Hb j Hj).
Qed.

Lemma shape_ok cs cs' :
  store_ok cs → shape cs cs' →
  (∀ j, (0 <= j)%Z → block_ok (blk_at cs' j) ∧ ((cs_high_water cs <= j)%Z → idle (blk_at cs' j))) →
  store_ok cs'.
Proof.
  intros [] [] Hb. split; try congruence.
  - apply at_nonneg. intros i Hi. apply (Hb i Hi).
  - rewrite sh_high0. intros i Hi. apply (Hb i ltac:(lia)). done.
Qed.

(** The same blocks, in a store that may have grown. *)
Lemma rebuilt_good cs cs' :
  store_good cs → store_ok cs' → (cs_high_water cs <= cs_high_water cs')%Z →
  (∀ j, (0 <= j)%Z → blk_at cs' j = blk_at cs j) → store_good cs'.
Proof.
  intros [Hinv He] Hok Hh Hb. split.
  - apply (blocks_inv cs); [done|done|done|]. intros j Hj. left. by apply Hb.
  - apply at_nonneg. intros j Hj. rewrite Hb by done. apply He.
Qed.

Lemma set_block_shape cs off b dirty :
  shape cs (set_blocks cs (wr (cs_blocks cs) (Z.to_nat off) b) dirty).
Proof. split; try done. cbn. by rewrite length_wr. Qed.

Lemma blk_at_set cs off b dirty j :
  store_ok cs → (0 <= off < cs_nblocks cs)%Z → (0 <= j)%Z →
  blk_at (set_blocks cs (wr (cs_blocks cs) (Z.to_nat off) b) dirty) j
  = if (j =? off)%Z then b else blk_at cs j.
Proof.
  intros Hok Hoff Hj. unfold blk_at at 1. cbn [set_blocks cs_blocks].
  apply (blk_at_wr cs off b _ j eq_refl); [|done]. rewrite (ok_length _ Hok). done.
Qed.

Lemma set_block_good cs off b dirty :
  store_good cs → (0 <= off < cs_nblocks cs)%Z → block_good (cs_high_water cs) off b →
  store_good (set_blocks cs (wr (cs_blocks cs) (Z.to_nat off) b) dirty).
Proof.
  intros Hg Hoff Hb. apply (shape_good cs); [done|apply set_block_shape|]. intros j Hj.
  rewrite blk_at_set by (done || apply Hg). case_if; bool_prop; [by subst|by apply good_block].
Qed.

Lemma dirty_good cs dirty : store_good cs → store_good (set_blocks cs (cs_blocks cs) dirty).
Proof.
  intros Hg. apply (shape_good cs); [done|by split|]. intros j Hj. exact (good_block cs j Hg).
Qed.

(** A state change of an occupied block. *)
Lemma set_state_good cs off st :
  store_good cs → (0 <= off < cs_nblocks cs)%Z → occupied (blk_at cs off) = true → (0 <= st <= 3)%Z →
  store_good (set_blocks cs (wr (cs_blocks cs) (Z.to_nat off) (set_cb_state (blk_at cs off) st)) true).
Proof.
  intros Hg Hoff Ho Hst. pose proof Hg as [Hinv He]. split; [by apply set_state_inv|].
  apply at_nonneg. intros j Hj. rewrite blk_at_set by (done || apply Hinv). case_if; [|done].
  exact (He off).
Qed.

(** ** Flags *)

Lemma has_flag_bit f k : (0 <= k)%Z → has_flag f (2 ^ k) = Z.testbit f k.
Proof.
  intros Hk. unfold has_flag. destruct (Z.testbit f k) eqn:E.
  - apply negb_true_iff, Z.eqb_neq. intros H0.
    assert (Z.testbit (Z.land f (2 ^ k)) k = true) as H1.
    { by rewrite Z.land_spec, E, Z.pow2_bits_true. }
    by rewrite H0, Z.bits_0 in H1.
  - apply negb_false_iff, Z.eqb_eq, Z.bits_inj'. intros n Hn. rewrite Z.land_spec, Z.bits_0.
    destruct (decide (n = k)) as [->|]; [by rewrite E|].
    by rewrite Z.pow2_bits_false, andb_false_r by lia.
Qed.

Lemma has_flag_lor_other f a b :
  (0 <= a)%Z → (0 <= b)%Z → a ≠ b → has_flag (Z.lor f (2 ^ a)) (2 ^ b) = has_flag f (2 ^ b).
Proof.
  intros Ha Hb Hne. rewrite !has_flag_bit by done.
  by rewrite Z.lor_spec, Z.pow2_bits_false, orb_false_r by lia.
Qed.

Lemma has_flag_ldiff_other f a b :
  (0 <= a)%Z → (0 <= b)%Z → a ≠ b → has_flag (Z.ldiff f (2 ^ a)) (2 ^ b) = has_flag f (2 ^ b).
Proof.
  intros Ha Hb Hne. rewrite !has_flag_bit by done.
  by rewrite Z.ldiff_spec, Z.pow2_bits_false, andb_true_r by lia.
Qed.

Lemma has_flag_ldiff f a : (0 <= a)%Z → has_flag (Z.ldiff f (2 ^ a)) (2 ^ a) = false.
Proof. intros Ha. by rewrite has_flag_bit, Z.ldiff_spec, Z.pow2_bits_true, andb_false_r. Qed.

(** Setting a bit again that was set. *)
Lemma lor_ldiff f a : (0 <= a)%Z → has_flag f (2 ^ a) = true → Z.lor (Z.ldiff f (2 ^ a)) (2 ^ a) = f.
Proof.
  intros Ha Hf. rewrite has_flag_bit in Hf by done. apply Z.bits_inj'. intros n Hn.
  rewrite Z.lor_spec, Z.ldiff_spec. destruct (decide (n = a)) as [->|].
  - by rewrite Z.pow2_bits_true, orb_true_r.
  - by rewrite Z.pow2_bits_false, andb_true_r, orb_false_r by lia.
Qed.

Lemma ldiff_in_width w f b : (0 <= w)%Z → in_width w f → in_width w (Z.ldiff f b).
Proof.
  intros Hw [H1 H2]. unfold in_width. assert (0 <= Z.ldiff f b)%Z as H0 by (apply Z.ldiff_nonneg; by left).
  split; [done|]. destruct (decide (Z.ldiff f b = 0)%Z) as [->|Hnz]; [by apply Z.pow_pos_nonneg|].
  apply Z.log2_lt_pow2; [lia|]. destruct (decide (f = 0)%Z) as [->|Hf]; [by rewrite Z.ldiff_0_l in Hnz|].
  apply Z.log2_lt_pow2 in H2; [|lia]. apply Z.le_lt_trans with (Z.log2 f); [|done].
  apply Z.nlt_ge. intros Hlt. pose proof (Z.bit_log2 (Z.ldiff f b) ltac:(lia)) as Hb.
  rewrite Z.ldiff_spec, (Z.bits_above_log2 f) in Hb by lia. done.
Qed.

(** ** Ranges of a request *)

Definition in_range (offset count j : Z) : Prop := (offset <= j < offset + count)%Z.

(** A range that [chunk_lifecycle_check_range] accepts does not wrap. *)
Lemma range_checked offset count :
  in_width 64 offset → in_width 32 count → chunk_lifecycle_check_range offset count = true →
  (0 < count <= 4096)%Z ∧ (offset + count <= 2 ^ 64)%Z.
Proof.
  unfold chunk_lifecycle_check_range, CHUNK_MAX_CHUNKS_PER_OP, UINT64_MAX, in_width.
  intros Ho Hc H. bool_prop. lia.
Qed.

Lemma range_index offset count i :
  (0 <= offset)%Z → (offset + count <= 2 ^ 64)%Z → (i < Z.to_nat count)%nat →
  u64w (offset + Z.of_nat i) = (offset + Z.of_nat i)%Z ∧ in_range offset count (offset + Z.of_nat i).
Proof. intros H0 H1 Hi. unfold in_range. split; [apply wrap_small; unfold in_width|]; lia. Qed.

Lemma range_nat offset count j :
  in_range offset count j → ∃ i, (i < Z.to_nat count)%nat ∧ j = (offset + Z.of_nat i)%Z.
Proof. unfold in_range. intros H. exists (Z.to_nat (j - offset)). lia. Qed.

(** ** Locks *)

(** Nobody but [co] holds a lock on the block. *)
Definition free_for (co : chunk_owner4) (b : chunk_block) : Prop :=
  is_locked b = true → chunk_lock_owner_equal b co = true.

(** The test of the handlers, block by block. *)
Lemma lock_conflict_none cs offset count co :
  (0 <= offset)%Z → (offset + count <= 2 ^ 64)%Z →
  is_some (chunk_lock_conflict cs offset count (co_cohort_id co) (co_client_id co) (co_id co)) = false →
  ∀ j, in_range offset count j → (j < cs_nblocks cs)%Z → free_for co (blk_at cs j).
Proof.
  intros H0 H1 Hn j Hj Hjn. unfold chunk_lock_conflict in Hn.
  match type of Hn with context [for_break 0 ?n ?f ?a] => set (body := f) in Hn end.
  assert (H : match for_break 0 (Z.to_nat count) body tt with
              | inl _ => ∀ i, (i < Z.to_nat count)%nat → (offset + Z.of_nat i < cs_nblocks cs)%Z →
                              free_for co (blk_at cs (offset + Z.of_nat i))
              | inr _ => True end).
  { apply (for_break_ind (λ k _, ∀ i, (i < k)%nat → (offset + Z.of_nat i < cs_nblocks cs)%Z →
      free_for co (blk_at cs (offset + Z.of_nat i))) (λ _, True)); [lia|].
    intros k [] Hk HI. unfold body. destruct (range_index offset count k H0 H1 ltac:(lia)) as [-> _].
    cbn [chunk_store_lookup_any]. case_if.
    - bool_prop. intros i Hi Hin. destruct (decide (i = k)) as [->|]; [lia|]. apply HI; [lia|done].
    - destruct (_ && _) eqn:E; [done|]. intros i Hi Hin.
      destruct (decide (i = k)) as [->|]; [|apply HI; [lia|done]].
      intros Hl. unfold is_locked in Hl. rewrite Hl in E. cbn in E. by bool_prop. }
  destruct (range_nat _ _ _ Hj) as (i & Hi & ->).
  destruct (for_break 0 _ body tt); [|done]. by apply H.
Qed.

(** ** Transitions *)

Section Transitions.

Context (cs0 : chunk_store) (offset count from to : Z).
Hypothesis (Hoff : in_width 64 offset) (Hcount : (0 <= count)%Z).
Hypothesis (Hfrom : (0 < from <= 3)%Z) (Hto : (0 < to <= 3)%Z) (Hft : from ≠ to).

(** The block that a request of [co] is about. *)
Definition home (co : chunk_owner4) : option Z :=
  owners_block cs0 offset count (co_cohort_id co) (co_client_id co) (co_id co).

(** The blocks are those of [cs0] up to their states, the same ones occupied. *)
Record alike (cs : chunk_store) : Prop := {
  al_good : store_good cs;
  al_dims : dims cs0 cs;
  al_block : ∀ j, (0 <= j)%Z → blk_at cs j = set_cb_state (blk_at cs0 j) (cb_state (blk_at cs j));
  al_occupied : ∀ j, (0 <= j)%Z → occupied (blk_at cs j) = occupied (blk_at cs0 j);
}.

Lemma alike_home cs co :
  alike cs →
  owners_block cs offset count (co_cohort_id co) (co_client_id co) (co_id co) = home co.
Proof using Hoff.
  intros [_ Hsh Hb Ho]. unfold home, owners_block, window. rewrite (di_nblocks _ _ Hsh).
  assert (Hm : ∀ l, Forall (λ j, 0 <= j)%Z l →
    find (mine cs (co_cohort_id co) (co_client_id co) (co_id co)) l
    = find (mine cs0 (co_cohort_id co) (co_client_id co) (co_id co)) l).
  { induction 1 as [|j l Hj _ IH]; [done|]. cbn [find]. rewrite IH. unfold mine at 1.
    rewrite (Ho j Hj), (Hb j Hj). done. }
  apply Hm, list.Forall_forall. intros j [Hj _]%elem_of_seqZ. destruct Hoff. lia.
Qed.

Lemma home_in co off :
  store_good cs0 → home co = Some off →
  in_range offset count off ∧ (0 <= off < cs_nblocks cs0)%Z ∧
  occupied (blk_at cs0 off) = true ∧
  owned_by (blk_at cs0 off) (co_cohort_id co) (co_client_id co) (co_id co) = true.
Proof using Hoff.
  intros Hg H. apply owners_block_in in H as (H1 & H2 & [H3 H4]%andb_true_iff).
  destruct Hoff. unfold in_range. split_and!; done || lia.
Qed.

(** One transition: the block of the owner, if it is in the state [a]. *)
Lemma alike_step cs co a b ret cs' :
  store_good cs0 → (0 < a <= 3)%Z → (0 < b <= 3)%Z → alike cs →
  chunk_store_transition cs offset count (co_cohort_id co) (co_client_id co) (co_id co) a b
  = (ret, cs') →
  alike cs' ∧
  match home co with
  | Some off =>
      if (cb_state (blk_at cs off) =? a)%Z
      then ret = 0%Z ∧ cs_dirty cs' = true ∧
           ∀ j, (0 <= j)%Z → cb_state (blk_at cs' j) = if (j =? off)%Z then b else cb_state (blk_at cs j)
      else ret ≠ 0%Z ∧ cs' = cs
  | None => ret ≠ 0%Z ∧ cs' = cs
  end.
Proof using Hoff Hcount.
  intros Hg0 Ha Hb Hal. pose proof (al_good _ Hal) as Hg.
  rewrite transition_search by (done || apply Hg). rewrite (alike_home cs co Hal).
  destruct (home co) as [off|] eqn:Eh; [|by intros [= <- <-]].
  destruct (home_in co off Hg0 Eh) as (Hr & Hn & Ho & _).
  destruct (Z.eqb_spec (cb_state (blk_at cs off)) a) as [Hs|Hs]; [|by intros [= <- <-]].
  intros [= <- <-]. pose proof (al_dims _ Hal) as Hsh.
  assert (Hoc : occupied (blk_at cs off) = true) by (rewrite (al_occupied _ Hal) by lia; done).
  assert (Hnb : (0 <= off < cs_nblocks cs)%Z) by (rewrite (di_nblocks _ _ Hsh); done).
  pose proof (shape_dims _ _ (set_block_shape cs off (set_cb_state (blk_at cs off) b) true)) as Hsh'.
  assert (Hat : ∀ j, (0 <= j)%Z → blk_at (set_blocks cs (wr (cs_blocks cs) (Z.to_nat off)
    (set_cb_state (blk_at cs off) b)) true) j
    = if (j =? off)%Z then set_cb_state (blk_at cs off) b else blk_at cs j)
    by (intros j Hj; apply blk_at_set; [apply Hg|done|done]).
  split; [split|split; [done|split; [done|]]].
  - apply set_state_good; [done|done|done|lia].
  - by transitivity cs.
  - intros j Hj. rewrite Hat by done. case_if; bool_prop; [|by apply Hal].
    subst j. by rewrite (al_block _ Hal off) by lia.
  - intros j Hj. rewrite Hat by done. case_if; bool_prop; [|by apply Hal]. subst j.
    rewrite Ho. unfold occupied. cbn. apply negb_true_iff, Z.eqb_neq. unfold CHUNK_STATE_EMPTY. lia.
  - intros j Hj. rewrite Hat by done. by case_if.
Qed.

(** The owner's request changed block [j]. *)
Definition hit (j : Z) (r : chunk_owner4 * Z) : bool :=
  bool_decide (home (fst r) = Some j) && (snd r =? NFS4_OK)%Z.

Lemma transition_owners_cons cs co owners :
  transition_owners cs offset count from to (co :: owners)
  = let '(ret, cs1) := chunk_store_transition cs offset count (co_cohort_id co) (co_client_id co)
                         (co_id co) from to in
    let '(sts, cs2) := transition_owners cs1 offset count from to owners in
    ((if (ret =? 0)%Z then NFS4_OK else NFS4ERR_INVAL) :: sts, cs2).
Proof using.
  unfold transition_owners. cbn [fold_left].
  destruct (chunk_store_transition cs _ _ _ _ _ _ _) as [ret cs1]. cbn [app].
  assert (H : ∀ owners acc sts c,
    fold_left (λ '(statuses, cs) co, let '(ret, cs) := chunk_store_transition cs offset count
        (co_cohort_id co) (co_client_id co) (co_id co) from to in
        (statuses ++ [if (ret =? 0)%Z then NFS4_OK else NFS4ERR_INVAL], cs)) owners (acc ++ sts, c)
    = let '(r, c') := fold_left (λ '(statuses, cs) co, let '(ret, cs) := chunk_store_transition cs
        offset count (co_cohort_id co) (co_client_id co) (co_id co) from to in
        (statuses ++ [if (ret =? 0)%Z then NFS4_OK else NFS4ERR_INVAL], cs)) owners (sts, c) in
      (acc ++ r, c')).
  { clear. induction owners as [|co owners IH]; intros acc sts c; [done|]. cbn [fold_left].
    destruct (chunk_store_transition c _ _ _ _ _ _ _) as [r c']. rewrite <-app_assoc. apply IH. }
  specialize (H owners [if (ret =? 0)%Z then NFS4_OK else NFS4ERR_INVAL] [] cs1).
  rewrite app_nil_r in H. rewrite H. by destruct (fold_left _ owners ([], cs1)).
Qed.

(** The transitions of a request, at block [j]. *)
Lemma transitions_at j owners cs sts cs1 :
  store_good cs0 → (0 <= j)%Z → alike cs →
  transition_owners cs offset count from to owners = (sts, cs1) →
  alike cs1 ∧ length sts = length owners ∧
  cb_state (blk_at cs1 j)
    = (if existsb (hit j) (zip owners sts) then to else cb_state (blk_at cs j)) ∧
  (existsb (hit j) (zip owners sts) = true → cb_state (blk_at cs j) = from) ∧
  (existsb (λ st, st =? NFS4_OK)%Z sts = true → cs_dirty cs1 = true) ∧
  (cs_dirty cs = true → cs_dirty cs1 = true).
Proof using Hoff Hcount Hfrom Hto Hft.
  intros Hg Hj. revert cs sts. induction owners as [|co owners IH]; intros cs sts Hal.
  { intros [= <- <-]. done. }
  rewrite transition_owners_cons.
  destruct (chunk_store_transition cs _ _ _ _ _ _ _) as [ret c1] eqn:E1.
  destruct (alike_step cs co from to ret c1 Hg Hfrom Hto Hal E1) as [Hal1 Hstep].
  destruct (transition_owners c1 _ _ _ _ owners) as [sts' c2] eqn:E2. intros [= <- <-].
  destruct (IH c1 sts' Hal1 E2) as (Hal2 & Hlen & Hst & Hhit & Hdirty & Hmono).
  split; [done|]. split; [by cbn; rewrite Hlen|]. cbn [zip zip_with existsb]. unfold hit at 1 3. cbn [fst snd].
  assert (Hno : ret ≠ 0%Z → c1 = cs → (ret =? 0)%Z = false) by (intros; by apply Z.eqb_neq).
  destruct (home co) as [off|] eqn:Eh.
  - destruct (Z.eqb_spec (cb_state (blk_at cs off)) from) as [Hs|Hs].
    + destruct Hstep as (-> & Hd1 & Hc1). cbn [Z.eqb]. rewrite Z.eqb_refl, andb_true_r.
      rewrite (Hc1 j Hj) in *. split_and!; [| |by auto|by auto].
      * destruct (Z.eqb_spec j off) as [->|]; [|by rewrite bool_decide_false by congruence].
        rewrite bool_decide_true by done. by destruct (existsb _ _).
      * destruct (Z.eqb_spec j off) as [->|]; [done|]. by rewrite bool_decide_false by congruence.
    + destruct Hstep as [Hr ->]. rewrite (Hno Hr eq_refl). cbn. rewrite andb_false_r. cbn. auto.
  - destruct Hstep as [Hr ->]. rewrite (Hno Hr eq_refl). cbn. auto.
Qed.

(** Undoing them, from blocks that are as they were left. *)
Lemma undo_at j owners sts cs :
  store_good cs0 → (0 <= j)%Z → alike cs →
  let cs1 := undo_transitions cs offset count from to owners sts in
  alike cs1 ∧
  cb_state (blk_at cs1 j)
    = (if existsb (hit j) (zip owners sts) && (cb_state (blk_at cs j) =? to)%Z
       then from else cb_state (blk_at cs j)).
Proof using Hoff Hcount Hfrom Hto Hft.
  intros Hg Hj. unfold undo_transitions. generalize (zip owners sts). intros l. revert cs.
  induction l as [|[co st] l IH]; intros cs Hal; cbn [fold_left existsb]; [done|].
  unfold hit at 1. cbn [fst snd]. destruct (Z.eqb_spec st NFS4_OK) as [->|Hst].
  - destruct (chunk_store_transition cs _ _ _ _ _ _ _) as [ret c1] eqn:E1. cbn [snd].
    destruct (alike_step cs co to from ret c1 Hg Hto Hfrom Hal E1) as [Hal1 Hstep].
    destruct (IH c1 Hal1) as [Hal2 Hst2]. split; [done|]. rewrite Hst2, andb_true_r.
    destruct (home co) as [off|] eqn:Eh.
    + destruct (Z.eqb_spec (cb_state (blk_at cs off)) to) as [Hs|Hs].
      * destruct Hstep as (_ & _ & Hc1). rewrite (Hc1 j Hj).
        destruct (Z.eqb_spec j off) as [->|]; [|by rewrite bool_decide_false by congruence].
        rewrite bool_decide_true by done. apply Z.eqb_eq in Hs. rewrite Hs. cbn [orb andb].
        assert ((from =? to)%Z = false) as -> by (by apply Z.eqb_neq). by rewrite andb_false_r.
      * destruct Hstep as [_ ->]. destruct (decide (off = j)) as [->|].
        -- apply Z.eqb_neq in Hs. rewrite Hs, !andb_false_r. done.
        -- by rewrite bool_decide_false by congruence.
    + by destruct Hstep as [_ ->].
  - destruct (IH cs Hal) as [Hal2 Hst2]. by rewrite andb_false_r.
Qed.

Lemma alike_refl cs : store_good cs → cs = cs0 → alike cs.
Proof using.
  intros Hg ->. split; [done|done| |done]. intros j _. by destruct (blk_at cs0 j).
Qed.

Lemma alike_eq cs j :
  alike cs → (0 <= j)%Z → cb_state (blk_at cs j) = cb_state (blk_at cs0 j) →
  blk_at cs j = blk_at cs0 j.
Proof using.
  intros Hal Hj Hs. rewrite (al_block _ Hal j Hj), Hs. by destruct (blk_at cs0 j).
Qed.

(** The whole loop: every block is as it was, or it is the one of an owner and was
    in the first state and is in the second. *)
Lemma transitions_spec owners sts cs1 :
  store_good cs0 → transition_owners cs0 offset count from to owners = (sts, cs1) →
  store_good cs1 ∧ dims cs0 cs1 ∧
  (existsb (λ st, st =? NFS4_OK)%Z sts = true → cs_dirty cs1 = true) ∧
  ∀ j, (0 <= j)%Z → blk_at cs1 j = blk_at cs0 j ∨
    ∃ co, co ∈ owners ∧ home co = Some j ∧ cb_state (blk_at cs0 j) = from ∧
          blk_at cs1 j = set_cb_state (blk_at cs0 j) to.
Proof using Hoff Hcount Hfrom Hto Hft.
  intros Hg E. pose proof (alike_refl cs0 Hg eq_refl) as Hal0.
  destruct (transitions_at 0 owners cs0 sts cs1 Hg ltac:(lia) Hal0 E) as (Hal & _ & _ & _ & Hd & _).
  split; [apply Hal|]. split; [apply Hal|]. split; [done|]. intros j Hj.
  destruct (transitions_at j owners cs0 sts cs1 Hg Hj Hal0 E) as (_ & _ & Hst & Hfr & _).
  destruct (existsb (hit j) _) eqn:Eh; [|left; by apply alike_eq].
  right. apply existsb_exists in Eh as ([co st] & Hin & Hhit). unfold hit in Hhit. cbn in Hhit.
  apply andb_true_iff in Hhit as [Hh%bool_decide_eq_true_1 _].
  exists co. split_and!; [|done|by apply Hfr|by rewrite (al_block _ Hal j Hj), Hst].
  apply list_elem_of_In in Hin. by apply elem_of_zip_l in Hin.
Qed.

(** When the owners have blocks of their own, all in the first state, every one of
    them moves. *)
Lemma transitions_all owners cs sts cs1 :
  store_good cs0 → alike cs → NoDup (map home owners) →
  (∀ co, co ∈ owners → ∃ off, home co = Some off ∧ cb_state (blk_at cs off) = from) →
  transition_owners cs offset count from to owners = (sts, cs1) →
  Forall (eq NFS4_OK) sts ∧
  ∀ j, (0 <= j)%Z → (∃ co, co ∈ owners ∧ home co = Some j) → cb_state (blk_at cs1 j) = to.
Proof using Hoff Hcount Hfrom Hto Hft.
  intros Hg. revert cs sts. induction owners as [|co owners IH]; intros cs sts Hal Hnd Hhome E.
  { injection E as <- <-. split; [done|]. by intros j _ (? & ?%elem_of_nil & _). }
  rewrite transition_owners_cons in E. inversion_clear Hnd as [|? ? Hnew Hnd'].
  destruct (chunk_store_transition cs _ _ _ _ _ _ _) as [ret c1] eqn:E1.
  destruct (alike_step cs co from to ret c1 Hg Hfrom Hto Hal E1) as [Hal1 Hstep].
  destruct (transition_owners c1 _ _ _ _ owners) as [sts' c2] eqn:E2. injection E as <- <-.
  destruct (Hhome co (list_elem_of_here _ _)) as (off & Hh & Hst).
  rewrite Hh, Hst, Z.eqb_refl in Hstep. destruct Hstep as (-> & _ & Hc1). cbn [Z.eqb].
  assert (Hne : ∀ co' off', co' ∈ owners → home co' = Some off' → off' ≠ off).
  { intros co' off' Hin Hh' ->. apply Hnew. rewrite Hh, <-Hh'. apply list_elem_of_In, in_map, list_elem_of_In, Hin. }
  destruct (IH c1 sts' Hal1 Hnd') as [Hall Hto'].
  - intros co' Hin. destruct (Hhome co' (list_elem_of_further _ _ _ Hin)) as (off' & Hh' & Hst').
    exists off'. split; [done|]. destruct (home_in co' off' Hg Hh') as (_ & Hn & _).
    rewrite Hc1 by lia. destruct (Z.eqb_spec off' off); [|done]. by destruct (Hne co' off' Hin Hh').
  - done.
  - split; [by constructor|]. intros j Hj (co' & [->|Hin]%elem_of_cons & Hh'); [|apply Hto'; [done|by exists co']].
    assert (j = off) as -> by congruence.
    destruct (transitions_at off owners c1 sts' c2 Hg Hj Hal1 E2) as (_ & _ & -> & _).
    rewrite Hc1, Z.eqb_refl by done. by destruct (existsb _ _).
Qed.

(** Undone after the store was persisted, every block is as it was. *)
Lemma undo_spec owners sts cs1 cs2 :
  store_good cs0 → transition_owners cs0 offset count from to owners = (sts, cs1) →
  store_good cs2 → same_data cs1 cs2 →
  let cs3 := undo_transitions cs2 offset count from to owners sts in
  store_good cs3 ∧ dims cs0 cs3 ∧ ∀ j, (0 <= j)%Z → blk_at cs3 j = blk_at cs0 j.
Proof using Hoff Hcount Hfrom Hto Hft.
  intros Hg E Hg2 Hsame. cbv zeta. pose proof (alike_refl cs0 Hg eq_refl) as Hal0.
  destruct (transitions_at 0 owners cs0 sts cs1 Hg ltac:(lia) Hal0 E) as (Hal & _).
  assert (Hblk : ∀ j, blk_at cs2 j = blk_at cs1 j)
    by (intros j; unfold blk_at; by destruct Hsame as [-> _]).
  assert (Hal2 : alike cs2).
  { split; [done| |by intros j Hj; rewrite Hblk; apply Hal..].
    transitivity cs1; [apply Hal|by apply same_data_dims]. }
  destruct (undo_at 0 owners sts cs2 Hg ltac:(lia) Hal2) as [Hal3 _].
  split; [apply Hal3|]. split; [apply Hal3|]. intros j Hj. apply alike_eq; [done|done|].
  destruct (undo_at j owners sts cs2 Hg Hj Hal2) as [_ ->]. rewrite Hblk.
  destruct (transitions_at j owners cs0 sts cs1 Hg Hj Hal0 E) as (_ & _ & -> & Hfr & _).
  destruct (existsb (hit j) _); [|done]. rewrite Z.eqb_refl. symmetry. by apply Hfr.
Qed.

End Transitions.

(** ** Rollback *)

(** The block of the owner goes back to empty. *)
Lemma rollback_spec cs offset count co ret cs' :
  store_good cs → in_width 64 offset → (0 <= count)%Z →
  chunk_store_rollback cs offset count (co_cohort_id co) (co_client_id co) (co_id co) = (ret, cs') →
  store_good cs' ∧ dims cs cs' ∧
  ∀ j, (0 <= j)%Z → blk_at cs' j = blk_at cs j ∨
    in_range offset count j ∧ owned_by (blk_at cs j) (co_cohort_id co) (co_client_id co) (co_id co) = true ∧
    (cb_state (blk_at cs j) = CHUNK_STATE_PENDING ∨ cb_state (blk_at cs j) = CHUNK_STATE_FINALIZED) ∧
    (j < cs_nblocks cs)%Z ∧ blk_at cs' j = set_cb_state (blk_at cs j) CHUNK_STATE_EMPTY.
Proof.
  intros Hg Hoff Hc. rewrite rollback_search by (done || apply Hg).
  assert (Hsame : ∀ j : Z, (0 <= j)%Z → blk_at cs j = blk_at cs j ∨ False) by auto.
  destruct (owners_block _ _ _ _ _ _) as [off|] eqn:Eo;
    [|intros [= <- <-]; split_and!; [done|done|by left]].
  apply owners_block_in in Eo as (H1 & H2 & [H3 H4]%andb_true_iff). destruct Hoff as [Hoff _].
  destruct (_ || _) eqn:Es; [|case_if; intros [= <- <-]; split_and!; (done || by left)].
  intros [= <- <-]. split; [apply set_state_good; done || lia|].
  split; [apply shape_dims, set_block_shape|]. intros j Hj.
  rewrite blk_at_set by (done || lia || apply Hg). destruct (Z.eqb_spec j off) as [->|]; [|by left].
  right. apply orb_true_iff in Es. rewrite !Z.eqb_eq in Es. unfold in_range. split_and!; done || lia.
Qed.

(** ** Editing the entries of a range *)

(** Whether [j] is an entry of the range. *)
Definition entry_of (cs : chunk_store) (offset count j : Z) : bool :=
  (offset <=? j)%Z && (j <? offset + count)%Z && (j <? cs_nblocks cs)%Z.

Lemma entry_of_iff cs offset count j :
  entry_of cs offset count j = true ↔ in_range offset count j ∧ (j < cs_nblocks cs)%Z.
Proof. unfold entry_of, in_range. rewrite !andb_true_iff, Z.leb_le, !Z.ltb_lt. lia. Qed.

Lemma entry_of_S cs offset i j :
  (offset + Z.of_nat i < cs_nblocks cs)%Z →
  entry_of cs offset (Z.of_nat (S i)) j
  = entry_of cs offset (Z.of_nat i) j || (j =? offset + Z.of_nat i)%Z.
Proof. intros H. apply eq_true_iff_eq. rewrite orb_true_iff, !entry_of_iff, Z.eqb_eq. unfold in_range. lia. Qed.

Lemma entry_of_end cs offset i j :
  (cs_nblocks cs <= offset + Z.of_nat i)%Z →
  entry_of cs offset (Z.of_nat (S i)) j = entry_of cs offset (Z.of_nat i) j.
Proof. intros H. apply eq_true_iff_eq. rewrite !entry_of_iff. unfold in_range. lia. Qed.

Lemma entry_of_self cs offset i : entry_of cs offset (Z.of_nat i) (offset + Z.of_nat i) = false.
Proof. apply not_true_iff_false. rewrite entry_of_iff. unfold in_range. lia. Qed.

Lemma entry_of_0 cs offset j : entry_of cs offset 0 j = false.
Proof. apply not_true_iff_false. rewrite entry_of_iff. unfold in_range. lia. Qed.

(** A loop over the range whose turn [i] replaces the block there by [g i] of it, or
    leaves the store when there is nothing to replace. *)
Lemma range_update cs offset n step g :
  store_ok cs → (0 <= offset)%Z →
  (∀ i c, (i < n)%nat → shape cs c → blk_at c (offset + Z.of_nat i) = blk_at cs (offset + Z.of_nat i) →
     let off := (offset + Z.of_nat i)%Z in
     step i c = c ∧ ((cs_nblocks cs <= off)%Z ∨ g i (blk_at cs off) = blk_at cs off) ∨
     (off < cs_nblocks cs)%Z ∧
     ∃ d, step i c = set_blocks c (wr (cs_blocks c) (Z.to_nat off) (g i (blk_at c off))) d) →
  let cs' := for_range 0 n step cs in
  shape cs cs' ∧
  ∀ j, (0 <= j)%Z → blk_at cs' j =
    if entry_of cs offset (Z.of_nat n) j then g (Z.to_nat (j - offset)) (blk_at cs j) else blk_at cs j.
Proof.
  intros Hok H0 Hstep. cbv zeta.
  apply (for0_ind (λ i c, shape cs c ∧ ∀ j, (0 <= j)%Z → blk_at c j =
    if entry_of cs offset (Z.of_nat i) j then g (Z.to_nat (j - offset)) (blk_at cs j) else blk_at cs j)).
  { split; [done|]. intros j Hj. by rewrite entry_of_0. }
  intros i c Hi [Hsh Hat]. specialize (Hstep i c Hi Hsh). cbv zeta in Hstep.
  pose proof (entry_of_self cs offset i) as Hnot. pose proof (entry_of_S cs offset i) as HS.
  pose proof (entry_of_end cs offset i) as HE. remember (offset + Z.of_nat i)%Z as off eqn:Eoff.
  assert (Hself : blk_at c off = blk_at cs off) by (rewrite Hat by lia; by rewrite Hnot).
  assert (Hg : Z.to_nat (off - offset) = i) by lia.
  destruct (Hstep Hself) as [[-> Hskip]|(Hlt & d & ->)].
  - split; [done|]. intros j Hj. destruct (Z.le_gt_cases (cs_nblocks cs) off) as [Hle|Hgt].
    { by rewrite HE, Hat. }
    rewrite HS by lia. rewrite Hat by done.
    destruct (Z.eqb_spec j off) as [->|]; [|by rewrite orb_false_r].
    rewrite Hnot, orb_true_r, Hg. destruct Hskip as [?|He]; [lia|done].
  - split; [transitivity c; [done|apply set_block_shape]|]. intros j Hj.
    unfold blk_at at 1. cbn [set_blocks cs_blocks].
    rewrite (blk_at_wr c off _ _ j eq_refl) by (rewrite ?(sh_length _ _ Hsh), ?(ok_length _ Hok); lia).
    rewrite HS, Hself, Hat by done.
    destruct (Z.eqb_spec j off) as [->|]; [|by rewrite orb_false_r]. by rewrite orb_true_r, Hg.
Qed.

Lemma edit_range_spec cs offset count f :
  store_ok cs → (0 <= offset)%Z → (0 <= count)%Z → (offset + count <= 2 ^ 64)%Z →
  let cs' := edit_range cs offset count f in
  shape cs cs' ∧
  ∀ j, (0 <= j)%Z →
    blk_at cs' j = if entry_of cs offset count j then f (blk_at cs j) else blk_at cs j.
Proof.
  intros Hok H0 Hc H1. cbv zeta. unfold edit_range.
  match goal with |- context [for_range 0 _ ?st cs] =>
    pose proof (range_update cs offset (Z.to_nat count) st (λ _, f) Hok H0) as H end.
  rewrite Z2Nat.id in H by done. apply H. clear H.
  intros i c Hi Hsh _. cbv zeta. rewrite wrap_small by (unfold in_width; lia).
  rewrite (sh_nblocks _ _ Hsh). case_if; bool_prop; [left; auto|right; eauto].
Qed.

Lemma set_flags_good high off b flags :
  block_good high off b → in_width 32 flags →
  has_flag flags CHUNK_BLOCK_ESCROW = has_flag (cb_flags b) CHUNK_BLOCK_ESCROW →
  has_flag flags CHUNK_BLOCK_LOCKED = has_flag (cb_flags b) CHUNK_BLOCK_LOCKED →
  block_good high off (set_cb_flags b flags).
Proof.
  intros [Hok Hc Hs He Ha] Hw H1 H2.
  assert (Hin : in_escrow (set_cb_flags b flags) = in_escrow b).
  { unfold in_escrow, chunk_block_has_escrow_custody. cbn. by rewrite H1, H2. }
  split.
  - destruct Hok. by split.
  - unfold custody_in. rewrite Hin. apply Hc.
  - apply Hs.
  - unfold escrow_held. cbn. rewrite H1, H2. apply He.
  - intros Hh. destruct (Ha Hh). split; [done|congruence].
Qed.

Lemma set_error_good high off b : block_good high off b → block_good high off (set_error b).
Proof.
  intros Hb. apply set_flags_good; [done| |by apply (has_flag_lor_other _ 2 3)|by apply (has_flag_lor_other _ 2 0)].
  apply lor_in_width; [done|apply Hb|done].
Qed.

Lemma clear_error_good high off b : block_good high off b → block_good high off (clear_error b).
Proof.
  intros Hb. apply set_flags_good; [done| |by apply (has_flag_ldiff_other _ 2 3)|by apply (has_flag_ldiff_other _ 2 0)].
  apply ldiff_in_width; [done|apply Hb].
Qed.

Lemma set_clear_error b : has_flag (cb_flags b) CHUNK_BLOCK_ERROR = true → set_error (clear_error b) = b.
Proof.
  intros H. unfold set_error, clear_error, set_cb_flags. cbn. rewrite (lor_ldiff _ 2) by done.
  by destruct b.
Qed.

Lemma edit_good cs offset count f :
  store_good cs → (0 <= offset)%Z → (0 <= count)%Z → (offset + count <= 2 ^ 64)%Z →
  (∀ off b, block_good (cs_high_water cs) off b → block_good (cs_high_water cs) off (f b)) →
  store_good (edit_range cs offset count f).
Proof.
  intros Hg H0 Hc H1 Hf. destruct (edit_range_spec cs offset count f (inv_ok _ (good_inv _ Hg)) H0 Hc H1)
    as [Hsh Hat].
  apply (shape_good cs); [done|done|]. intros j Hj. rewrite Hat by done.
  case_if; [apply Hf|]; by apply good_block.
Qed.

(** A range in which every entry is committed. *)
Lemma range_all_spec cs offset count test :
  (0 <= offset)%Z → (offset + count <= 2 ^ 64)%Z → range_all cs offset count test = true →
  ∀ j, in_range offset count j →
    (j < cs_nblocks cs)%Z ∧ occupied (blk_at cs j) = true ∧ test (blk_at cs j) = true.
Proof.
  intros H0 H1 H j Hj. unfold range_all in H. rewrite forallb_forall in H.
  destruct (range_nat _ _ _ Hj) as (i & Hi & ->).
  specialize (H i ltac:(apply in_seq; lia)).
  destruct (range_index offset count i H0 H1 Hi) as [Hw _]. rewrite Hw in H.
  unfold chunk_store_lookup, chunk_store_lookup_any in H.
  destruct (Z.leb_spec (cs_nblocks cs) (offset + Z.of_nat i)); [done|].
  unfold occupied. by destruct (_ =? CHUNK_STATE_EMPTY)%Z.
Qed.

End ChunkEdits.
