(* ===== verification/ChunkFrame.v ===== *)
(** * Reasoning about the CHUNK handlers

    The invariant of a server, memory and disk, and the rule for each statement of
    the handlers: what it leaves of the store, the file system, the trust table and
    the data block. *)

From S2P Require Import Prelude.
From S2P Require Import Posix.
From S2P Require Import ChunkStore.
From S2P Require Import ChunkDisk.
From S2P Require Import ChunkCorrect.
From S2P Require Import ChunkSteps.
From S2P Require Import Replace.
From S2P Require Import ChunkPersist.
From S2P Require Import ChunkReload.
From S2P Require Import Handler.
From S2P Require Import Nfs4.
From S2P Require Import Trust.
From S2P Require Import DataBlock.
From S2P Require Import ChunkOps.
From S2P Require Import ChunkLock.
From S2P Require Import TrustCorrect.
From S2P Require Import ChunkEdits.
From stdpp Require Import gmap strings.
Import Posix ChunkStore ChunkDisk ChunkCorrect ChunkSteps Replace ChunkPersist ChunkReload Handler
  Nfs4 Trust DataBlock ChunkOps ChunkLock TrustCorrect ChunkEdits.

Module ChunkFrame.

(** ** The server *)

Section Frame.

Context {P : Type}.
Implicit Types (s : server P).

(** The directory the metadata file is in, and its name. *)
Record site_of := mk_site { l_ss : server_state; l_ino : Z; l_path : string }.

Definition l_dir (l : site_of) : string := default "(null)"%string (ss_state_dir (l_ss l)).

Record site_ok (l : site_of) : Prop := {
  site_ino : in_width 64 (l_ino l);
  site_path : chunk_meta_path 512 (l_dir l) (l_ino l) = inr (l_path l);
}.

Definition mem s : option chunk_store := i_chunk_store (s_inode s).
Definition db s : option (data_block P) := i_db (s_inode s).

Context (l : site_of).

Abbreviation disk := (disk_ok (l_path l) (l_ino l)).

Record server_ok s : Prop := {
  ok_ino : i_ino (s_inode s) = l_ino l;
  ok_mem : ∀ cs, mem s = Some cs → store_good cs;
  ok_disk : disk (now (s_sys s));
  ok_past : Forall disk (past (s_sys s));
}.

(** What the metadata file holds: the store that is loaded when no call fails, or a
    fresh one where there is none. *)
Definition on_disk (y : sys) : option chunk_store :=
  match ss_state_dir (l_ss l) with
  | Some dir => fst (chunk_store_load (λ _ _, true) dir (l_ino l) (quiet y))
  | None => None
  end.

(** The blocks of the file: those in memory, or those on disk while no request has
    brought them there since the start. *)
Definition view s : chunk_store := default (default fresh_store (on_disk (s_sys s))) (mem s).

(** A load from [y] that finds what is on disk.  A store in memory is not loaded. *)
Definition calm grants (y : sys) s : Prop :=
  mem s = None → ∀ dir, ss_state_dir (l_ss l) = Some dir →
  fst (chunk_store_load grants dir (l_ino l) y) = on_disk (s_sys s).

(** [s] is good, and so were the files at every moment since [s0]; the trust table
    is as it was; without a store in memory nothing was written. *)
Record follows s0 s : Prop := {
  fol_ok : server_ok s;
  fol_disk : visits disk (s_sys s0) (s_sys s);
  fol_trust : trust_ht (s_trust s) = trust_ht (s_trust s0);
  fol_idle : mem s = None → mem s0 = None ∧ unchanged (s_sys s0) (s_sys s);
}.

(** The data block is as it was, too. *)
Record stands s0 s : Prop := { st_fol : follows s0 s; st_db : db s = db s0 }.

Lemma follows_refl s : server_ok s → follows s s.
Proof using. intros H. split; [done| |done|done]. apply visits_refl, H. Qed.

Lemma stands_refl s : server_ok s → stands s s.
Proof using. intros H. split; [by apply follows_refl|done]. Qed.

Lemma follows_trans s1 s2 s3 : follows s1 s2 → follows s2 s3 → follows s1 s3.
Proof using.
  intros [? ? ? H1] [? ? ? H2]. split; [done|by eapply visits_trans|congruence|].
  intros [Hm Hu]%H2. destruct (H1 Hm) as [? ?]. split; [done|by eapply unchanged_trans].
Qed.

(** A step that leaves the files alone and a good store. *)
Lemma stands_step s0 s s' :
  stands s0 s → unchanged (s_sys s) (s_sys s') → i_ino (s_inode s') = i_ino (s_inode s) →
  trust_ht (s_trust s') = trust_ht (s_trust s) → db s' = db s →
  (∀ cs, mem s' = Some cs → store_good cs) → (mem s' = None → mem s = None) → stands s0 s'.
Proof using.
  intros [[[Hi Hm Hd Hp] Hv Ht Hn] Hdb] Hu Hino Htr Hdb' Hg Hmem. split; [|congruence].
  assert (Hd' : disk (now (s_sys s'))) by (destruct Hu as [-> _]; done).
  split; [split; [congruence|done|done|]|eapply visits_trans; [done|by apply unchanged_visits]|congruence|].
  - by destruct Hu as [_ ->].
  - intros [? ?]%Hmem%Hn. split; [done|by eapply unchanged_trans].
Qed.

(** Only counters and budgets differ. *)
Record quietly s s' : Prop := {
  q_inode : s_inode s' = s_inode s;
  q_sys : s_sys s' = s_sys s;
  q_trust : trust_ht (s_trust s') = trust_ht (s_trust s);
}.

Lemma quietly_stands s0 s s' : quietly s s' → stands s0 s → stands s0 s'.
Proof using.
  intros [Hi Hs Ht] H. apply (stands_step s0 s); try done.
  - by rewrite Hs.
  - by rewrite Hi.
  - unfold db. by rewrite Hi.
  - unfold mem. rewrite Hi. apply H.
  - unfold mem. by rewrite Hi.
Qed.

(** ** Rules *)

Lemma authorized_ht c stid client_id rw t t' :
  trust_ht t' = trust_ht t → authorized c stid client_id rw t' → authorized c stid client_id rw t.
Proof using. unfold authorized. by intros ->. Qed.

Lemma wp_trusted_sys c stid client_id rw (Q : fail + () → server P → Prop) s0 s :
  stands s0 s →
  (∀ s', stands s0 s' → mem s' = mem s → s_sys s' = s_sys s →
     authorized c stid client_id rw (s_trust s0) → Q (inr tt) s') →
  (∀ e s', stands s0 s' → mem s' = mem s → Q (inl (Status e)) s') →
  wp (chunk_check_trusted_stateid c stid client_id rw) Q s.
Proof using.
  intros Hs Hok Hf.
  assert (Hq : ∀ t, trust_ht t = trust_ht (s_trust s) → quietly s (set_trust t s)) by done.
  apply wp_check.
  - intros t Ht Ha. apply Hok; [eapply quietly_stands; [by apply Hq|done]|done|done|].
    eapply authorized_ht; [|exact Ha]. by apply Hs.
  - intros t e Ht _ _. apply Hf; [eapply quietly_stands; [by apply Hq|done]|done].
Qed.

Lemma wp_trusted c stid client_id rw (Q : fail + () → server P → Prop) s0 s :
  stands s0 s →
  (∀ s', stands s0 s' → mem s' = mem s → authorized c stid client_id rw (s_trust s0) → Q (inr tt) s') →
  (∀ e s', stands s0 s' → mem s' = mem s → Q (inl (Status e)) s') →
  wp (chunk_check_trusted_stateid c stid client_id rw) Q s.
Proof using. intros Hs Hok Hf. eapply wp_trusted_sys; [exact Hs| |done]. auto. Qed.

Lemma wp_budget get put (Q : fail + bool → server P → Prop) s0 s :
  stands s0 s → (∀ b s', stands s0 s' → mem s' = mem s → Q (inr b) s') →
  wp (take_budget get put) Q s.
Proof using.
  intros Hs H. unfold wp, take_budget. case_if; cbn; apply H; try done.
  by apply (quietly_stands s0 s).
Qed.

Lemma wp_stats_sys c f (Q : fail + () → server P → Prop) s0 s :
  stands s0 s → (∀ s', stands s0 s' → mem s' = mem s → s_sys s' = s_sys s → Q (inr tt) s') →
  wp (bump_stats c f) Q s.
Proof using.
  intros Hs H. unfold bump_stats. wp_step; [wp_step|]; apply H; try done.
  by apply (quietly_stands s0 s).
Qed.

Lemma wp_stats c f (Q : fail + () → server P → Prop) s0 s :
  stands s0 s → (∀ s', stands s0 s' → mem s' = mem s → Q (inr tt) s') → wp (bump_stats c f) Q s.
Proof using. intros Hs H. eapply wp_stats_sys; [exact Hs|]. auto. Qed.

Lemma wp_the_store (Q : fail + chunk_store → server P → Prop) s cs :
  mem s = Some cs → Q (inr cs) s → wp the_store Q s.
Proof using.
  intros Hm H. unfold the_store, get_store. wp_step. wp_step. cbn. fold (mem s). by rewrite Hm.
Qed.

Lemma wp_no_store (Q : fail + chunk_store → server P → Prop) s :
  (mem s = None → Q (inl (Status NFS4ERR_NOENT)) s) →
  (∀ cs, mem s = Some cs → Q (inr cs) s) → wp no_store Q s.
Proof using.
  intros H1 H2. unfold no_store, get_store. wp_step. wp_step. cbn. fold (mem s).
  destruct (mem s); [wp_step; by apply H2|wp_step; by apply H1].
Qed.

Lemma wp_set_store cs (Q : fail + () → server P → Prop) s0 s :
  stands s0 s → store_good cs →
  (∀ s', stands s0 s' → mem s' = Some cs → Q (inr tt) s') → wp (set_store cs) Q s.
Proof using.
  intros Hs Hg H. unfold set_store, on_inode. wp_step. apply H; [|done].
  apply (stands_step s0 s); try done. by intros ? [= <-].
Qed.

(** What [chunk_store_get] gives the server. *)
Lemma get_spec grants s ocs y :
  site_ok l → server_ok s →
  chunk_store_get grants (mem s) (l_ino l) (ss_state_dir (l_ss l)) (s_sys s) = (ocs, y) →
  unchanged (s_sys s) y ∧ (∀ cs, ocs = Some cs → store_good cs) ∧
  (∀ cs, mem s = Some cs → ocs = Some cs) ∧
  (calm grants (s_sys s) s → ∀ cs, ocs = Some cs → cs = view s).
Proof using.
  intros [Hino Hpath] Hok. unfold chunk_store_get, view. destruct (mem s) as [cs0|] eqn:Em.
  { intros [= <- <-]. split; [done|]. split; [|split; [done|by intros _ cs [= <-]]].
    intros cs [= <-]. by apply (ok_mem _ Hok). }
  assert (∀ loaded y', (match ss_state_dir (l_ss l) with Some dir => chunk_store_load grants dir (l_ino l) (s_sys s)
                        | None => (None, s_sys s) end) = (loaded, y') →
            unchanged (s_sys s) y' ∧ (∀ cs, loaded = Some cs → store_good cs) ∧
            (calm grants (s_sys s) s → loaded = on_disk (s_sys s))) as Hl.
  { intros loaded y'. unfold calm, on_disk, l_dir in *. destruct (ss_state_dir (l_ss l)) as [dir|]; cbn in Hpath.
    - intros E. destruct (load_good _ _ _ _ _ _ _ Hino Hpath (ok_disk _ Hok) E) as [Hu Hg].
      split; [done|]. split; [done|]. intros Hcalm. by rewrite <-(Hcalm Em dir eq_refl), E.
    - by intros [= <- <-]. }
  destruct (match ss_state_dir (l_ss l) with Some _ => _ | None => _ end) as [loaded y'].
  destruct (Hl loaded y' eq_refl) as (Hu & Hg & Hv). destruct loaded as [cs|].
  - intros [= <- <-]. split_and!; try done. intros Hcalm c0 [= <-]. by rewrite <-Hv.
  - repeat case_if; intros [= <- <-]; split_and!; try done.
    + intros cs [= <-]. exact fresh_good.
    + intros Hcalm c0 [= <-]. by rewrite <-Hv.
Qed.

(** The store of the inode, read from disk or made. *)
Lemma wp_attach grants c (Q : fail + option chunk_store → server P → Prop) s0 s :
  site_ok l → c_server_state c = l_ss l → stands s0 s →
  (∀ s', stands s0 s' → (∀ cs, mem s = Some cs → mem s' = Some cs) →
     (calm grants (s_sys s) s → ∀ ca, mem s' = Some ca → ca = view s) → Q (inr (mem s')) s') →
  wp (attach_store grants c) Q s.
Proof using.
  intros Hsite Hc Hs H. pose proof (fol_ok _ _ (st_fol _ _ Hs)) as Hok.
  unfold wp, attach_store. rewrite Hc, (ok_ino _ Hok). fold (mem s).
  destruct (chunk_store_get grants (mem s) _ _ (s_sys s)) as [ocs y] eqn:E. cbn.
  destruct (get_spec grants s ocs y Hsite Hok E) as (Hu & Hg & Hk & Hv).
  apply (H (set_sys y (set_inode (with_store (s_inode s) ocs) s))); [|exact Hk|exact Hv].
  apply (stands_step s0 s); try done. cbn. intros ->. destruct (mem s); [by specialize (Hk _ eq_refl)|done].
Qed.

Lemma wp_load_for_read grants c (Q : fail + option chunk_store → server P → Prop) s0 s :
  site_ok l → c_server_state c = l_ss l → stands s0 s →
  (∀ s', stands s0 s' → (∀ cs, mem s = Some cs → mem s' = Some cs) →
     (∀ ca, mem s' = Some ca → ca = view s) → Q (inr (mem s')) s') →
  wp (load_store_for_read grants c) Q s.
Proof using.
  intros [Hino Hpath] Hc Hs H. pose proof (fol_ok _ _ (st_fol _ _ Hs)) as Hok.
  unfold wp, load_store_for_read. rewrite Hc, (ok_ino _ Hok). fold (mem s). unfold view, on_disk in H.
  destruct (mem s) as [cs|] eqn:Em.
  { cbn. rewrite <-Em. apply H; [done| |]; rewrite Em; [done|by intros ca [= <-]]. }
  unfold l_dir in Hpath. destruct (ss_state_dir (l_ss l)) as [dir|]; cbn in Hpath |- *.
  - destruct (chunk_store_load grants dir (l_ino l) (s_sys s)) as [ocs y] eqn:E. cbn.
    destruct (load_good _ _ _ _ _ _ _ Hino Hpath (ok_disk _ Hok) E) as [Hu Hg].
    apply (H (set_sys y (set_inode (with_store (s_inode s) ocs) s))); [by apply (stands_step s0 s)|done|].
    intros ca Hca. cbn in Hca. subst ocs. by rewrite (load_exact _ _ _ _ _ _ E).
  - rewrite <-Em. apply H; [done| |]; rewrite Em; done.
Qed.

Lemma wp_persist grants c (Q : fail + Z → server P → Prop) s0 s cs :
  site_ok l → c_server_state c = l_ss l → stands s0 s → mem s = Some cs →
  (∀ ret cs' s', stands s0 s' → mem s' = Some cs' → same_data cs cs' →
     (ret = 0%Z → cs_dirty cs = true → stored (l_path l) (l_ino l) cs (now (s_sys s'))) →
     Q (inr ret) s') →
  wp (persist grants c) Q s.
Proof using.
  intros [Hino Hpath] Hc [[Hok Hv Ht Hn] Hdb] Hm H. unfold wp, persist. rewrite Hc, (ok_ino _ Hok). fold (mem s).
  rewrite Hm. destruct (chunk_store_persist grants (Some cs) _ _ (s_sys s)) as [[ret ocs] y] eqn:E. cbn.
  destruct (persist_disk _ _ _ _ _ _ _ _ _ (ok_mem _ Hok _ Hm) Hpath (ok_disk _ Hok) E)
    as (cs' & -> & Hsame & Hg & Hvis & Hst).
  apply (H _ cs'); [|done|done|done]. split; [|done]. split; [split|..]; try done.
  - apply Hok.
  - intros c0 [= <-]. done.
  - by apply visits_end in Hvis.
  - eapply visits_past; [done|apply Hok].
  - by eapply visits_trans.
Qed.

(** ** Blocks before and after *)

(** No block moves. *)
Definition unmoved s s' : Prop := ∀ j, (0 <= j)%Z → blk_at (view s') j = blk_at (view s) j.

(** Every block stays, or goes from one to another as [may] says. *)
Definition alters (may : Z → chunk_block → chunk_block → Prop) s s' : Prop :=
  ∀ j, (0 <= j)%Z → blk_at (view s') j = blk_at (view s) j ∨
                    may j (blk_at (view s) j) (blk_at (view s') j).

Lemma view_mem s cs : mem s = Some cs → view s = cs.
Proof using. unfold view. by intros ->. Qed.

Lemma view_same s s' : mem s' = mem s → unchanged (s_sys s) (s_sys s') → view s' = view s.
Proof using. intros Hm Hu. unfold view, on_disk. by rewrite Hm, (unchanged_quiet _ _ Hu). Qed.

Lemma unmoved_alters may s s' : unmoved s s' → alters may s s'.
Proof using. intros H j Hj. left. by apply H. Qed.

(** Nothing came into memory or left it. *)
Lemma view_kept s0 s : stands s0 s → mem s = mem s0 → view s = view s0.
Proof using.
  intros Hs Hm. destruct (mem s) as [cs|] eqn:E; [by rewrite (view_mem s cs), (view_mem s0 cs)|].
  apply view_same; [congruence|]. by apply (fol_idle _ _ (st_fol _ _ Hs)).
Qed.

Lemma view_agree s0 s s' : stands s0 s → stands s0 s' → mem s' = mem s → view s' = view s.
Proof using.
  intros Hs Hs' Hm. destruct (mem s) as [cs|] eqn:E; [by rewrite (view_mem s cs), (view_mem s' cs)|].
  destruct (fol_idle _ _ (st_fol _ _ Hs) E) as [Hm0 _].
  rewrite (view_kept s0 s Hs), (view_kept s0 s' Hs'); congruence.
Qed.

Lemma unmoved_kept s0 s : stands s0 s → mem s = mem s0 → unmoved s0 s.
Proof using. intros Hs Hm j _. by rewrite (view_kept s0 s). Qed.

(** What is in memory at the end came from the blocks that were there. *)
Lemma unmoved_to s s' cs' :
  mem s' = Some cs' → (∀ j, (0 <= j)%Z → blk_at cs' j = blk_at (view s) j) → unmoved s s'.
Proof using. intros Hm Hb. unfold unmoved. by rewrite (view_mem s' cs'). Qed.

Lemma alters_to may s s' cs' :
  mem s' = Some cs' →
  (∀ j, (0 <= j)%Z → blk_at cs' j = blk_at (view s) j ∨ may j (blk_at (view s) j) (blk_at cs' j)) →
  alters may s s'.
Proof using. intros Hm Hb. unfold alters. by rewrite (view_mem s' cs'). Qed.

Lemma alters_weaken (may may' : Z → chunk_block → chunk_block → Prop) s s' :
  (∀ j b b', may j b b' → may' j b b') → alters may s s' → alters may' s s'.
Proof using. intros Hw H j Hj. destruct (H j Hj) as [?|?]; [by left|right; by apply Hw]. Qed.

Lemma alters_none s s' : alters (λ _ _ _, False) s s' → unmoved s s'.
Proof using. intros H j Hj. by destruct (H j Hj). Qed.

(** A refusal: the files are good and nothing has moved. *)
Record refused s0 s : Prop := { ref_stands : stands s0 s; ref_unmoved : unmoved s0 s }.

Lemma refused_mem s0 s : stands s0 s → mem s = mem s0 → refused s0 s.
Proof using. intros Hs Hm. split; [done|by apply unmoved_kept]. Qed.

End Frame.

(** A guard of a handler: the refusal is closed with [tac]. *)
Ltac gate tac := wp_step; wp_step; cbn [andthen]; [tac|].

(** A refusal before anything moved, by [Hf : ∀ e s', refused l s0 s' → Q (inl e) s']. *)
Ltac refuse Hf :=
  intros; cbn [andthen]; apply Hf; apply refused_mem; [eassumption|congruence].

End ChunkFrame.
