(* ===== verification/ChunkLife.v ===== *)
(** * Finalize, commit, rollback, error and repaired

    What each of these handlers does to a good server: nothing when it refuses, and
    otherwise a change of the blocks of its range that the request names. *)

From S2P Require Import Prelude.
From S2P Require Import Posix.
From S2P Require Import ChunkStore.
From S2P Require Import ChunkDisk.
From S2P Require Import ChunkCorrect.
From S2P Require Import ChunkSteps.
From S2P Require Import ChunkPersist.
From S2P Require Import ChunkReload.
From S2P Require Import Handler.
From S2P Require Import Nfs4.
From S2P Require Import ChunkOps.
From S2P Require Import ChunkLock.
From S2P Require Import TrustCorrect.
From S2P Require Import ChunkEdits.
From S2P Require Import ChunkFrame.
Import Posix ChunkStore ChunkDisk ChunkCorrect ChunkSteps ChunkPersist ChunkReload Handler Nfs4
  ChunkOps ChunkLock TrustCorrect ChunkEdits ChunkFrame.

Module ChunkLife.

Section Life.

Context {P : Type} (grants : elem → Z → bool) (callocs : site → bool) (l : site_of).
Hypothesis (Hsite : site_ok l).
Implicit Types (s : server P).

(** ** Transitions and their undoing *)

(** What a request of [owners] that moves blocks from one state to another leaves. *)
Definition moved offset count from to owners s s' sts : Prop :=
  ∃ cs cs1 cs', mem s = Some cs ∧ owners_locked_out cs offset count owners = false ∧
    transition_owners cs offset count from to owners = (sts, cs1) ∧
    mem s' = Some cs' ∧ same_data cs1 cs' ∧
    (existsb (λ st, st =? NFS4_OK)%Z sts = true →
     stored (l_path l) (l_ino l) cs1 (now (s_sys s'))).

(** The end of FINALIZE and of COMMIT. *)
Lemma wp_transitions {A} c offset count from to owners (K : list Z → H (P := P) A)
    (Q : fail + A → server P → Prop) s0 s cs :
  c_server_state c = l_ss l → in_width 64 offset → in_width 32 count →
  (0 < from <= 3)%Z → (0 < to <= 3)%Z → from ≠ to →
  stands l s0 s → mem s0 = Some cs → mem s = Some cs →
  owners_locked_out cs offset count owners = false →
  (∀ sts s', stands l s0 s' → moved offset count from to owners s0 s' sts → wp (K sts) Q s') →
  (∀ e s', refused l s0 s' → Q (inl (Status e)) s') →
  wp (let '(statuses, cs) := transition_owners cs offset count from to owners in
      set_store cs;;
      ret ← persist grants c;
      if negb (ret =? 0)%Z then
        cs ← the_store;
        set_store (undo_transitions cs offset count from to owners statuses);;
        throw (Status NFS4ERR_SERVERFAULT)
      else K statuses) Q s.
Proof using Hsite.
  intros Hc Hoff [Hcnt _] Hfrom Hto Hft Hs Hm0 Hm Hlock HK Hf.
  pose proof (ok_mem _ _ (fol_ok _ _ _ (st_fol _ _ _ Hs)) _ Hm) as Hg.
  destruct (transition_owners cs _ _ _ _ owners) as [sts cs1] eqn:Et.
  destruct (transitions_spec cs offset count from to Hoff Hcnt Hfrom Hto Hft owners sts cs1 Hg Et)
    as (Hg1 & _ & Hdirty & _).
  wp_step. eapply wp_set_store; [exact Hs|exact Hg1|]. intros s1 Hs1 Hm1. cbn [andthen].
  wp_step. eapply wp_persist; [done|done|exact Hs1|exact Hm1|].
  intros ret cs2 s2 Hs2 Hm2 Hsame Hst. cbn [andthen].
  destruct (Z.eqb_spec ret 0) as [->|Hret]; cbn [negb].
  - apply HK; [done|]. exists cs, cs1, cs2. split_and!; try done. intros Hok. by apply Hst, Hdirty.
  - pose proof (ok_mem _ _ (fol_ok _ _ _ (st_fol _ _ _ Hs2)) _ Hm2) as Hg2.
    destruct (undo_spec cs offset count from to Hoff Hcnt Hfrom Hto Hft owners sts cs1 cs2 Hg Et Hg2 Hsame)
      as (Hg3 & Hd3 & Hb3).
    wp_step. eapply wp_the_store; [exact Hm2|]. cbn [andthen].
    wp_step. eapply wp_set_store; [exact Hs2|exact Hg3|]. intros s3 Hs3 Hm3. cbn [andthen].
    wp_step. apply Hf. split; [done|]. eapply unmoved_to; [exact Hm3|]. by rewrite (view_mem l s0 cs).
Qed.

Record finalize_args_ok (a : CHUNK_FINALIZE4args) : Prop := {
  fa_offset : in_width 64 (cfa_offset a);
  fa_count : in_width 32 (cfa_count a);
}.

Lemma finalize_spec c a s :
  c_server_state c = l_ss l → finalize_args_ok a → server_ok l s →
  wp (nfs4_op_chunk_finalize grants callocs c a)
    (λ r s', match r with
             | inl _ => refused l s s'
             | inr res =>
                 stands l s s' ∧ authorized c (cfa_stateid a) 0 false (s_trust s) ∧
                 chunk_lifecycle_check_range (cfa_offset a) (cfa_count a) = true ∧
                 moved (cfa_offset a) (cfa_count a) CHUNK_STATE_PENDING CHUNK_STATE_FINALIZED
                   (cfa_chunks a) s s' (cfr_status res)
             end) s.
Proof using Hsite.
  intros Hc [Hoff Hcnt] Hok. set (Q := λ r s', _). pose proof (stands_refl l s Hok) as Hs.
  assert (Hf : ∀ e s', refused l s s' → Q (inl e) s') by done.
  unfold nfs4_op_chunk_finalize. wp_step. wp_step. cbn [andthen].
  do 6 gate ltac:(refuse Hf). bool_prop.
  wp_step. eapply wp_trusted; [exact Hs| |refuse Hf]. intros s1 Hs1 Hm1 Hauth. cbn [andthen].
  gate ltac:(refuse Hf). wp_step. apply wp_no_store; [refuse Hf|]. intros cs Hcs. cbn [andthen].
  wp_step. eapply wp_budget; [exact Hs1|]. intros b s2 Hs2 Hm2. cbn [andthen].
  do 3 gate ltac:(refuse Hf). by eapply wp_transitions; try done; congruence.
Qed.

Record commit_args_ok (a : CHUNK_COMMIT4args) : Prop := {
  ca_offset : in_width 64 (cca_offset a);
  ca_count : in_width 32 (cca_count a);
}.

Lemma wp_sync (Q : fail + () → server P → Prop) s0 s :
  stands l s0 s → (∀ s', stands l s0 s' → mem s' = mem s → s_sys s' = s_sys s → Q (inr tt) s') →
  wp inode_sync_to_disk Q s.
Proof using.
  intros Hs H. unfold inode_sync_to_disk, on_inode. wp_step. apply H; try done.
  apply (stands_step l s0 s); try done. apply Hs.
Qed.

Lemma commit_spec c a s :
  c_server_state c = l_ss l → commit_args_ok a → server_ok l s →
  wp (nfs4_op_chunk_commit grants callocs c a)
    (λ r s', match r with
             | inl _ => refused l s s'
             | inr res =>
                 stands l s s' ∧ authorized c (cca_stateid a) 0 false (s_trust s) ∧
                 chunk_lifecycle_check_range (cca_offset a) (cca_count a) = true ∧
                 moved (cca_offset a) (cca_count a) CHUNK_STATE_FINALIZED CHUNK_STATE_COMMITTED
                   (cca_chunks a) s s' (ccr_status res)
             end) s.
Proof using Hsite.
  intros Hc [Hoff Hcnt] Hok. set (Q := λ r s', _). pose proof (stands_refl l s Hok) as Hs.
  assert (Hf : ∀ e s', refused l s s' → Q (inl e) s') by done.
  unfold nfs4_op_chunk_commit. wp_step. wp_step. cbn [andthen].
  do 6 gate ltac:(refuse Hf). bool_prop.
  wp_step. eapply wp_trusted; [exact Hs| |refuse Hf]. intros s1 Hs1 Hm1 Hauth. cbn [andthen].
  gate ltac:(refuse Hf). wp_step. apply wp_no_store; [refuse Hf|]. intros cs Hcs. cbn [andthen].
  wp_step. eapply wp_budget; [exact Hs1|]. intros b s2 Hs2 Hm2. cbn [andthen].
  do 3 gate ltac:(refuse Hf).
  eapply (wp_transitions c _ _ _ _ _ (λ sts, inode_sync_to_disk;; mret (mk_commit_res _ sts)));
    try done; [congruence..|].
  intros sts s3 Hs3 (cs0 & cs1 & cs3 & H1' & H2' & H3' & H4' & H5' & H6').
  wp_step. eapply wp_sync; [exact Hs3|]. intros s4 Hs4 Hm4 Hsys. cbn [andthen]. wp_step.
  unfold Q. cbn [ccr_status]. split_and!; try done. exists cs0, cs1, cs3.
  rewrite Hm4, Hsys. done.
Qed.

(** ** Rollback *)

Record rollback_args_ok (a : CHUNK_ROLLBACK4args) : Prop := {
  rb_offset : in_width 64 (crb_offset a);
  rb_count : in_width 32 (crb_count a);
}.

(** A block of one of the owners, pending or finalized, becomes empty. *)
Definition rolled offset count (owners : list chunk_owner4) (j : Z) (b b' : chunk_block) : Prop :=
  in_range offset count j ∧
  (∃ co, co ∈ owners ∧ owned_by b (co_cohort_id co) (co_client_id co) (co_id co) = true) ∧
  (∀ co, co ∈ owners → free_for co b) ∧
  (cb_state b = CHUNK_STATE_PENDING ∨ cb_state b = CHUNK_STATE_FINALIZED) ∧
  b' = set_cb_state b CHUNK_STATE_EMPTY.

Lemma owners_locked_out_none cs offset count owners co :
  (0 <= offset)%Z → (offset + count <= 2 ^ 64)%Z →
  owners_locked_out cs offset count owners = false → co ∈ owners →
  ∀ j, in_range offset count j → (j < cs_nblocks cs)%Z → free_for co (blk_at cs j).
Proof using.
  intros H0 H1 Hl Hin. apply lock_conflict_none; [done|done|].
  apply not_true_iff_false. intros He. rewrite <-not_true_iff_false in Hl. apply Hl.
  apply existsb_exists. exists co. split; [by apply list_elem_of_In|done].
Qed.

Lemma rollback_op_spec c a s :
  c_server_state c = l_ss l → rollback_args_ok a → server_ok l s →
  wp (nfs4_op_chunk_rollback grants c a)
    (λ r s', stands l s s' ∧
             (refused l s s' ∨
              authorized c (crb_stateid a) 0 false (s_trust s) ∧
              alters l (rolled (crb_offset a) (crb_count a) (crb_chunks a)) s s')) s.
Proof using Hsite.
  intros Hc [Hoff Hcnt] Hok. set (Q := λ r s', _). pose proof (stands_refl l s Hok) as Hs.
  assert (Hf : ∀ e s', refused l s s' → Q (inl e) s') by (intros e s' H; split; [apply H|by left]).
  unfold nfs4_op_chunk_rollback. wp_step. eapply wp_stats; [exact Hs|]. intros s0 Hs0 Hm0. cbn [andthen].
  wp_step. wp_step. cbn [andthen]. do 6 gate ltac:(refuse Hf). bool_prop.
  wp_step. eapply wp_trusted; [exact Hs0| |refuse Hf]. intros s1 Hs1 Hm1 Hauth. cbn [andthen].
  wp_step. apply wp_no_store; [refuse Hf|]. intros cs Hcs. cbn [andthen]. gate ltac:(refuse Hf).
  destruct (range_checked _ _ Hoff Hcnt) as [Hcp Hrange]; [done|]. destruct Hoff as [Hoff0 Hoff1].
  assert (Hmem : mem s = Some cs) by congruence.
  pose proof (ok_mem _ _ Hok _ Hmem) as Hg.
  (* after each owner *)
  set (I := λ (cs' : chunk_store), store_good cs' ∧ dims cs cs' ∧ ∀ j, (0 <= j)%Z →
    blk_at cs' j = blk_at cs j ∨
    rolled (crb_offset a) (crb_count a) (crb_chunks a) j (blk_at cs j) (blk_at cs' j)).
  assert (Hend : ∀ s' cs' r, stands l s s' → mem s' = Some cs' → I cs' → Q r s').
  { intros s' cs' r Hs' Hm' (Hg' & Hd' & Hb'). split; [done|]. right. split; [done|].
    eapply alters_to; [exact Hm'|]. by rewrite (view_mem l s cs). }
  wp_step. eapply (wp_mfor (λ _ _ s', stands l s s' ∧ ∃ cs', mem s' = Some cs' ∧ I cs')).
  - split; [done|]. exists cs. split; [done|]. split; [done|]. split; [done|]. by left.
  - intros k [] s2 Hk (Hs2 & cs2 & Hm2 & HI2). wp_step. eapply wp_the_store; [exact Hm2|]. cbn [andthen].
    set (co := rd _ _ k). destruct (chunk_store_rollback cs2 _ _ _ _ _) as [ret cs3] eqn:Er.
    assert (Hco : co ∈ crb_chunks a) by (apply list_elem_of_lookup_2 with k, rd_lt; lia).
    assert (HI3 : I cs3).
    { destruct HI2 as (Hg2 & Hd2 & Hb2).
      destruct (rollback_spec cs2 (crb_offset a) (crb_count a) co ret cs3 Hg2 (conj Hoff0 Hoff1) ltac:(lia) Er) as (Hg3 & Hd3 & Hb3).
      split; [done|]. split; [by transitivity cs2|]. intros j Hj.
      destruct (Hb3 j Hj) as [->|(Hin & Hown & Hst & Hlt & ->)]; [by apply Hb2|].
      destruct (Hb2 j Hj) as [He|(_ & _ & _ & _ & He)];
        [|rewrite He in Hst; cbn in Hst; by destruct Hst].
      rewrite He in *. right. split; [done|]. split; [by exists co|]. split; [|done].
      intros co' Hco'. eapply owners_locked_out_none; [exact Hoff0|exact Hrange|done|done|done|].
      by rewrite <-(di_nblocks _ _ Hd2). }
    wp_step. eapply wp_set_store; [exact Hs2|apply HI3|]. intros s3 Hs3 Hm3. cbn [andthen].
    wp_step. wp_step; cbn [andthen]; [by eapply Hend|]. wp_step; [by eapply Hend|].
    split; [done|]. by exists cs3.
  - intros [] s2 (Hs2 & cs2 & Hm2 & HI2). cbn [andthen].
    wp_step. eapply wp_persist; [done|done|exact Hs2|exact Hm2|].
    intros ret cs3 s3 Hs3 Hm3 Hsame _. cbn [andthen].
    assert (HI3 : I cs3).
    { destruct HI2 as (Hg2 & Hd2 & Hb2). split; [by apply (ok_mem _ _ (fol_ok _ _ _ (st_fol _ _ _ Hs3)))|].
      split; [transitivity cs2; [done|by apply same_data_dims]|].
      intros j Hj. unfold blk_at at 1 4. destruct Hsame as [-> _]. by apply Hb2. }
    wp_step. wp_step; cbn [andthen]; [by eapply Hend|]. wp_step. by eapply Hend.
Qed.

(** ** Quarantine *)

Record error_args_ok (a : CHUNK_ERROR4args) : Prop := {
  ea_offset : in_width 64 (cea_offset a);
  ea_count : in_width 32 (cea_count a);
}.

(** A committed block of the range is marked. *)
Definition marked offset count (mark : chunk_block → chunk_block) (j : Z) (b b' : chunk_block) : Prop :=
  in_range offset count j ∧ cb_state b = CHUNK_STATE_COMMITTED ∧ b' = mark b.

Lemma mark_range cs offset count test f j :
  store_good cs → (0 <= offset)%Z → (0 <= count)%Z → (offset + count <= 2 ^ 64)%Z → (0 <= j)%Z →
  range_all cs offset count test = true → (∀ b, test b = true → cb_state b = CHUNK_STATE_COMMITTED) →
  blk_at (edit_range cs offset count f) j = blk_at cs j ∨
  marked offset count f j (blk_at cs j) (blk_at (edit_range cs offset count f) j).
Proof using.
  intros Hg H0 Hc H1 Hj Hall Ht.
  destruct (edit_range_spec cs offset count f (inv_ok _ (good_inv _ Hg)) H0 Hc H1) as [_ Hat].
  rewrite Hat by done. destruct (entry_of cs offset count j) eqn:E; [|by left]. right.
  apply entry_of_iff in E as [Hin _]. destruct (range_all_spec _ _ _ _ H0 H1 Hall j Hin) as (_ & _ & Htest).
  split; [done|]. split; [by apply Ht|done].
Qed.

Lemma error_spec c a s :
  c_server_state c = l_ss l → error_args_ok a → server_ok l s →
  wp (nfs4_op_chunk_error grants c a)
    (λ r s', stands l s s' ∧
             (refused l s s' ∨
              authorized c (cea_stateid a) (co_client_id (cea_owner a)) false (s_trust s) ∧
              alters l (marked (cea_offset a) (cea_count a) set_error) s s')) s.
Proof using Hsite.
  intros Hc [Hoff Hcnt] Hok. set (Q := λ r s', _). pose proof (stands_refl l s Hok) as Hs.
  assert (Hf : ∀ e s', refused l s s' → Q (inl e) s') by (intros e s' H; split; [apply H|by left]).
  unfold nfs4_op_chunk_error. wp_step. wp_step. cbn [andthen]. do 3 gate ltac:(refuse Hf).
  wp_step. wp_step; cbn [andthen]; [refuse Hf|]. gate ltac:(refuse Hf).
  wp_step. eapply wp_trusted; [exact Hs| |refuse Hf]. intros s1 Hs1 Hm1 Hauth. cbn [andthen].
  wp_step. apply wp_no_store; [refuse Hf|]. intros cs Hcs. cbn [andthen]. gate ltac:(refuse Hf). bool_prop.
  destruct (range_checked _ _ Hoff Hcnt) as [Hcp Hrange]; [done|]. destruct Hoff as [Hoff0 _].
  assert (Hmem : mem s = Some cs) by congruence. pose proof (ok_mem _ _ Hok _ Hmem) as Hg.
  wp_step. eapply wp_set_store; [exact Hs1|apply edit_good; [done|done|lia|done|intros; by apply set_error_good]|].
  intros s2 Hs2 Hm2. cbn [andthen].
  wp_step. eapply wp_persist; [done|done|exact Hs2|exact Hm2|].
  intros ret cs3 s3 Hs3 Hm3 Hsame _. cbn [andthen].
  assert (Hend : ∀ r, Q r s3).
  { intros r. split; [done|]. right. split; [done|]. eapply alters_to; [exact Hm3|].
    rewrite (view_mem l s cs) by done. intros j Hj.
    assert (blk_at cs3 j = blk_at (edit_range cs (cea_offset a) (cea_count a) set_error) j) as ->
      by (unfold blk_at; by destruct Hsame as [-> _]).
    eapply mark_range; [done|done|lia|done|done|done|]. intros b Hb. by apply Z.eqb_eq. }
  wp_step; apply Hend.
Qed.

Record repaired_args_ok (a : CHUNK_REPAIRED4args) : Prop := {
  pa_offset : in_width 64 (cpa_offset a);
  pa_count : in_width 32 (cpa_count a);
}.

(** The range of the request is cleared and stored, or it is empty. *)
Definition cleared a s s' : Prop :=
  cpa_count a = 0%Z ∧ mem s' = mem s ∨
  alters l (marked (cpa_offset a) (cpa_count a) clear_error) s s' ∧
  ∃ cs, mem s = Some cs ∧ range_all cs (cpa_offset a) (cpa_count a)
    (λ blk, committed blk && has_flag (cb_flags blk) CHUNK_BLOCK_ERROR) = true.

Lemma wp_clear_quarantine c a (Q : fail + Z → server P → Prop) s0 s :
  c_server_state c = l_ss l → repaired_args_ok a → stands l s0 s → mem s = mem s0 →
  (∀ n s', stands l s0 s' → cleared a s0 s' → Q (inr n) s') →
  (∀ e s', refused l s0 s' → Q (inl (Status e)) s') →
  wp (clear_quarantine grants c a) Q s.
Proof using Hsite.
  intros Hc [Hoff Hcnt] Hs Hm Hok Hf. unfold clear_quarantine.
  destruct (Z.ltb_spec 0 (cpa_count a)) as [Hpos|Hpos].
  2: { wp_step. apply Hok; [done|]. left. split; [destruct Hcnt; lia|done]. }
  unfold get_store. wp_step. wp_step. cbn [andthen]. fold (mem s).
  destruct (mem s) as [cs|] eqn:Ecs; [|wp_step; apply Hf, refused_mem; congruence].
  do 2 gate ltac:(apply Hf, refused_mem; congruence). bool_prop.
  destruct (range_checked _ _ Hoff Hcnt) as [Hcp Hrange]; [done|]. destruct Hoff as [Hoff0 _].
  pose proof (ok_mem _ _ (fol_ok _ _ _ (st_fol _ _ _ Hs)) _ Ecs) as Hg.
  set (test := λ blk, committed blk && has_flag (cb_flags blk) CHUNK_BLOCK_ERROR) in *.
  assert (Htest : ∀ b, test b = true → cb_state b = CHUNK_STATE_COMMITTED)
    by (intros b [Hb _]%andb_true_iff; by apply Z.eqb_eq).
  assert (Hg1 : store_good (edit_range cs (cpa_offset a) (cpa_count a) clear_error))
    by (apply edit_good; [done|done|lia|done|intros; by apply clear_error_good]).
  destruct (edit_range_spec cs (cpa_offset a) (cpa_count a) clear_error (inv_ok _ (good_inv _ Hg))
    Hoff0 ltac:(lia) Hrange) as [Hsh1 Hat1].
  wp_step. eapply wp_set_store; [exact Hs|exact Hg1|]. intros s2 Hs2 Hm2. cbn [andthen].
  wp_step. eapply wp_persist; [done|done|exact Hs2|exact Hm2|].
  intros ret cs3 s3 Hs3 Hm3 Hsame _. cbn [andthen].
  assert (Hb3 : ∀ j, blk_at cs3 j = blk_at (edit_range cs (cpa_offset a) (cpa_count a) clear_error) j)
    by (intros j; unfold blk_at; by destruct Hsame as [-> _]).
  destruct (Z.eqb_spec ret 0) as [->|Hret]; cbn [negb].
  - wp_step. apply Hok; [done|]. right. split; [|exists cs; by rewrite <-Hm].
    eapply alters_to; [exact Hm3|]. rewrite (view_mem l s0 cs) by congruence. intros j Hj.
    rewrite Hb3. by eapply mark_range; [done|done|lia|..].
  - wp_step. eapply wp_the_store; [exact Hm3|]. cbn [andthen].
    pose proof (ok_mem _ _ (fol_ok _ _ _ (st_fol _ _ _ Hs3)) _ Hm3) as Hg3.
    destruct (edit_range_spec cs3 (cpa_offset a) (cpa_count a) set_error (inv_ok _ (good_inv _ Hg3))
      Hoff0 ltac:(lia) Hrange) as [Hsh4 Hat4].
    wp_step. eapply wp_set_store; [exact Hs3|apply edit_good; [done|done|lia|done|intros; by apply set_error_good]|].
    intros s4 Hs4 Hm4. cbn [andthen]. wp_step. apply Hf. split; [done|].
    eapply unmoved_to; [exact Hm4|]. rewrite (view_mem l s0 cs) by congruence.
    intros j Hj. rewrite Hat4, Hb3, Hat1 by done. unfold entry_of at 1.
      destruct Hsame as (_ & -> & _). rewrite (sh_nblocks _ _ Hsh1). fold (entry_of cs (cpa_offset a) (cpa_count a) j).
      destruct (entry_of cs _ _ j) eqn:E; [|done]. apply entry_of_iff in E as [Hin _].
      destruct (range_all_spec cs _ _ test Hoff0 Hrange ltac:(done) j Hin) as (_ & _ & [_ Ht]%andb_true_iff).
      by apply set_clear_error.
Qed.

Lemma repaired_spec c a s :
  c_server_state c = l_ss l → repaired_args_ok a → server_ok l s →
  wp (nfs4_op_chunk_repaired grants c a)
    (λ r s', match r with
             | inl _ => refused l s s'
             | inr _ => stands l s s' ∧
                 authorized c (cpa_stateid a) (co_client_id (cpa_owner a)) true (s_trust s) ∧
                 cleared a s s'
             end) s.
Proof using Hsite.
  intros Hc Ha Hok. set (Q := λ r s', _). pose proof (stands_refl l s Hok) as Hs.
  assert (Hf : ∀ e s', refused l s s' → Q (inl e) s') by done.
  unfold nfs4_op_chunk_repaired. wp_step. wp_step. cbn [andthen]. do 4 gate ltac:(refuse Hf).
  wp_step. eapply wp_trusted; [exact Hs| |refuse Hf]. intros s1 Hs1 Hm1 Hauth. cbn [andthen].
  destruct (i_layout_segments (s_inode s)) as [[|seg lss]|]; [wp_step; refuse Hf| |wp_step; refuse Hf].
  wp_step. eapply wp_clear_quarantine; [done|done|exact Hs1|done| |intros; cbn [andthen]; by apply Hf].
  intros n s2 Hs2 Hcl. cbn [andthen]. unfold on_inode. wp_step. wp_step. cbn [andthen].
  set (s3 := set_inode _ s2). assert (Hs3 : stands l s s3).
  { apply (stands_step l s s2); try done. apply Hs2. }
  assert (Hdone : ∀ s', stands l s s' → mem s' = mem s3 → Q (inr tt) s').
  { intros s' Hs' Hm'. split; [done|]. split; [done|].
    pose proof (view_agree l s s2 s' Hs2 Hs' Hm') as Hv. unfold cleared, alters in *. rewrite Hv.
    destruct Hcl as [[? ?]|?]; [left; split; [done|by etransitivity]|by right]. }
  assert (Hlast : ∀ s', stands l s s' → mem s' = mem s3 →
    wp (when (0 <? n)%Z (bump_stats c (count_completed n))) Q s').
  { intros s' Hs' Hm'. wp_step; [|by apply Hdone]. eapply wp_stats; [exact Hs'|].
    intros s'' Hs'' Hm''. apply Hdone; [done|congruence]. }
  wp_step. wp_step; cbn [andthen]; [|by apply Hlast].
  wp_step. eapply wp_sync; [exact Hs3|]. intros s4 Hs4 Hm4 _. cbn [andthen].
  eapply wp_stats; [exact Hs4|]. intros s5 Hs5 Hm5. cbn [andthen]. apply Hlast; [done|congruence].
Qed.

End Life.

End ChunkLife.
