(* ===== verification/ChunkIO.v ===== *)
(** * Writing and reading chunks

    What CHUNK_WRITE, CHUNK_WRITE_REPAIR and CHUNK_READ do to a good server. *)

From S2P Require Import Prelude.
From S2P Require Import Posix.
From S2P Require Import ChunkStore.
From S2P Require Import ChunkDisk.
From S2P Require Import ChunkCorrect.
From S2P Require Import ChunkSteps.
From S2P Require Import ChunkPersist.
From S2P Require Import ChunkReload.
From S2P Require Import Replace.
From S2P Require Import Handler.
From S2P Require Import Nfs4.
From S2P Require Import Checksum.
From S2P Require Import Trust.
From S2P Require Import DataBlock.
From S2P Require Import ChunkOps.
From S2P Require Import ChunkLock.
From S2P Require Import TrustCorrect.
From S2P Require Import ChunkEdits.
From S2P Require Import ChunkFrame.
Import Posix ChunkStore ChunkDisk ChunkCorrect ChunkSteps ChunkPersist ChunkReload Replace Handler Nfs4
  Checksum Trust DataBlock ChunkOps ChunkLock TrustCorrect ChunkEdits ChunkFrame.

Module ChunkIO.

(** ** The blocks that are recorded *)

(** Values of the C types. *)
Record payload_ok (p : payload) : Prop := {
  pk_offset : in_width 64 (pl_offset p);
  pk_cohort : in_width 64 (pl_cohort_id p);
  pk_client : in_width 32 (pl_client_id p);
  pk_co_ids : Forall (in_width 32) (pl_co_ids p);
  pk_payload_id : in_width 32 (pl_payload_id p);
  pk_chunk_size : in_width 32 (pl_chunk_size p);
  pk_algorithms : Forall (λ c4, in_width 32 (cs_algorithm c4)) (pl_checksums p);
  pk_total : in_width 32 (total_data p);
}.

(** The block that chunk [i] leaves in place of [b]. *)
Definition rewritten (c : compound) (flags : Z) (p : payload) (nchunks : Z) (i : nat) (b : chunk_block)
    : chunk_block :=
  new_block c flags p nchunks i (if occupied b then Some b else None) (Some b).

Lemma rd_forall {A} (Q : A → Prop) d l i : Q d → Forall Q l → Q (rd d l i).
Proof.
  intros Hd Hl. destruct (decide (i < length l)%nat) as [H|H].
  - rewrite list.Forall_lookup in Hl. eapply Hl. by apply rd_lt.
  - by rewrite rd_ge by lia.
Qed.

Lemma recorded_checksum_ok p i algo len value :
  payload_ok p → recorded_checksum p i = (algo, len, value) →
  in_width 32 algo ∧ (0 <= len <= 64)%Z ∧ length value = CHUNK_VALUE_MAX.
Proof.
  intros Hp. unfold recorded_checksum. case_if.
  - intros [= <- <- <-]. split.
    + apply (rd_forall (λ c4, in_width 32 (cs_algorithm c4))); [done|apply Hp].
    + set (n := length (cs_value _)). assert (CHUNK_VALUE_MAX = 64%nat) as Hm by done.
      set (len := if (_ <? _)%Z then _ else _).
      assert (0 <= len <= 64 ∧ len <= Z.of_nat n)%Z as [H1 H2].
      { unfold len. case_if; bool_prop; lia. }
      split; [done|]. unfold zero_bytes. rewrite length_splice; rewrite length_replicate; [done|].
      rewrite length_take. lia.
  - intros [= <- <- <-]. done.
Qed.

Lemma chunk_len_ok p n i : payload_ok p → pl_chunk_size p ≠ 0%Z → in_width 32 (chunk_len p n i).
Proof.
  intros Hp Hz. unfold chunk_len. pose proof (pk_chunk_size _ Hp) as [H1 H2]. case_if; [|done].
  pose proof (Z.mod_pos_bound (total_data p) (pl_chunk_size p) ltac:(lia)). unfold in_width. lia.
Qed.

(** A recorded block is good wherever the mark reaches. *)
Lemma rewritten_good c flags p n i b high high' off :
  payload_ok p → in_width 64 (client_id_of c) → pl_chunk_size p ≠ 0%Z →
  flags = 0%Z ∨ flags = CHUNK_BLOCK_REPAIR_PROVENANCE →
  block_good high off b → (high <= high')%Z → (off < high')%Z →
  block_good high' off (rewritten c flags p n i b).
Proof.
  intros Hp Hc Hz Hfl Hb Hh Hoff. unfold rewritten, new_block.
  destruct (recorded_checksum p i) as [[algo len] value] eqn:Er.
  destruct (recorded_checksum_ok p i algo len value Hp Er) as (Ha & Hl & Hv).
  pose proof (chunk_len_ok p n i Hp Hz) as Hcl. pose proof Hp as [].
  pose proof (rd_forall (in_width 32) 0%Z (pl_co_ids p) i ltac:(done) pk_co_ids0) as Hco.
  assert (Hgen : in_width 32 (match (if occupied b then Some b else None) with
                              | Some b => u32w (cb_gen_id b + 1) | None => 0%Z end))
    by (destruct (occupied b); [by apply wrap_in_width|done]).
  set (gen := match _ with Some b => _ | None => _ end) in *. clearbody gen.
  set (nb := mk_block _ _ _ _ _ _ _ _ _ _ _ _ _ _ _ _ _ _ _ _).
  assert (Hnb : block_ok nb) by (split; try done; by destruct Hfl as [-> | ->]).
  assert (Hne : has_flag (cb_flags nb) CHUNK_BLOCK_ESCROW = false ∧ in_escrow nb = false)
    by (by destruct Hfl as [-> | ->]).
  unfold keep_lock. destruct (has_flag (cb_flags b) CHUNK_BLOCK_LOCKED) eqn:El.
  - set (kb := mk_block _ _ _ _ _ _ _ _ _ _ _ _ _ _ _ _ _ _ _ _).
    assert (Hesc : has_flag (cb_flags kb) CHUNK_BLOCK_ESCROW = false)
      by (unfold kb, nb; cbn; by destruct Hfl as [-> | ->]).
    split.
    + destruct (bg_ok _ _ _ Hb), Hnb. split; try done. by destruct Hfl as [-> | ->].
    + intros He. assert (in_escrow b = true) as Hin.
      { unfold in_escrow in *. rewrite Hesc in He. cbn [orb] in He. apply orb_true_iff. right.
        unfold chunk_block_has_escrow_custody in *. rewrite El. cbn [andb].
        by apply andb_true_iff in He as [_ He]. }
      destruct (bg_custody _ _ _ Hb Hin) as [? ?]. split; [done|]. cbn. lia.
    + done.
    + intros He. congruence.
    + lia.
  - split; [done|intros He; destruct Hne; congruence|done|intros He; destruct Hne; congruence|lia].
Qed.

(** ** One block written *)

Lemma write_params grants cs off b :
  cs_chunk_size (snd (chunk_store_write grants cs off b)) = cs_chunk_size cs ∧
  cs_checksum_algorithm (snd (chunk_store_write grants cs off b)) = cs_checksum_algorithm cs.
Proof.
  unfold chunk_store_write, chunk_store_room, chunk_store_grow. by repeat case_if.
Qed.

Lemma write_good grants cs off b ret cs' :
  store_good cs → (0 <= off)%Z → block_good (Z.max (cs_high_water cs) (off + 1)) off b →
  chunk_store_write grants cs off b = (ret, cs') →
  (ret < 0)%Z ∧ cs' = cs ∨
  ret = 0%Z ∧ store_good cs' ∧ cs_dirty cs' = true ∧
  cs_high_water cs' = Z.max (cs_high_water cs) (off + 1) ∧
  ∀ j, (0 <= j)%Z → blk_at cs' j = if (j =? off)%Z then b else blk_at cs j.
Proof.
  intros Hg Hoff Hb E.
  destruct (ChunkCorrect.write_spec grants cs off b ret cs' (inv_ok _ (good_inv _ Hg)) Hoff (bg_ok _ _ _ Hb) E)
    as [[-> ->]|(-> & Hok & Hd & Hh & Hat)]; [by left|]. right. split; [done|]. split; [|done].
  split.
  - apply (blocks_inv cs); [apply Hg|done|lia|]. intros i Hi. rewrite Hat, Hh by done.
    destruct (Z.eqb_spec i off) as [->|]; [|by left]. right. split; apply Hb.
  - apply at_nonneg. intros i Hi. rewrite Hat by done. case_if; [apply Hb|apply Hg].
Qed.

(** ** The gate *)

(** The guard of the request, and the writer of a block that is still pending. *)
Definition admits (a : CHUNK_WRITE4args) (i : nat) (b : chunk_block) : Prop :=
  occupied b = true →
  (∀ g, cwa_guard a = Some g → cb_gen_id b = cg_gen_id g ∧ cb_client_id b = cg_client_id g) ∧
  (cb_state b = CHUNK_STATE_PENDING →
   cb_cohort_id b = cwa_cohort_id a ∧ cb_owner_id b = rd 0%Z (cwa_co_ids a) i ∧
   cb_client_id b = cwa_client_id a).

Definition write_owner (a : CHUNK_WRITE4args) (i : nat) : chunk_owner4 :=
  mk_owner (cwa_cohort_id a) (cwa_client_id a) (rd 0%Z (cwa_co_ids a) i).

(** Beyond the array there is nothing to lock. *)
Lemma blk_beyond cs off :
  store_ok cs → (cs_nblocks cs <= off)%Z → blk_at cs off = zero_block.
Proof.
  intros Hok H. unfold blk_at. apply rd_ge. pose proof (ok_length _ Hok). lia.
Qed.

Lemma write_gate_none cs a nchunks i :
  store_ok cs → write_gate cs a nchunks = None → (i < Z.to_nat nchunks)%nat →
  let b := blk_at cs (u64w (cwa_offset a + Z.of_nat i)) in
  free_for (write_owner a i) b ∧ admits a i b.
Proof.
  intros Hok Hn Hi. unfold write_gate in Hn.
  match type of Hn with context [for_break 0 ?n ?f ?a] => set (body := f) in Hn end.
  assert (H : match for_break 0 (Z.to_nat nchunks) body tt with
              | inl _ => ∀ k, (k < Z.to_nat nchunks)%nat →
                  let b := blk_at cs (u64w (cwa_offset a + Z.of_nat k)) in
                  free_for (write_owner a k) b ∧ admits a k b
              | inr _ => True end).
  { apply (for_break_ind (λ n _, ∀ k, (k < n)%nat →
      let b := blk_at cs (u64w (cwa_offset a + Z.of_nat k)) in
      free_for (write_owner a k) b ∧ admits a k b) (λ _, True)); [lia|].
    intros k [] Hk HI. unfold body. set (off := u64w (cwa_offset a + Z.of_nat k)).
    assert (Hoff : (0 <= off)%Z) by (apply (wrap_in_width 64); lia).
    rewrite lookup_occupied by done.
    set (locked := match chunk_store_lookup_any _ off with Some _ => _ | None => _ end).
    destruct locked eqn:El; [done|].
    assert (Hfree : free_for (write_owner a k) (blk_at cs off)).
    { intros Hl. unfold locked, chunk_store_lookup_any in El. destruct (Z.leb_spec (cs_nblocks cs) off) as [Hb|Hb].
      - rewrite (blk_beyond cs off Hok Hb) in Hl. done.
      - unfold is_locked in Hl. rewrite Hl in El. by apply negb_false_iff in El. }
    clearbody locked.
    assert (Hstep : admits a k (blk_at cs off) → ∀ j, (j < S k)%nat →
      let b := blk_at cs (u64w (cwa_offset a + Z.of_nat j)) in
      free_for (write_owner a j) b ∧ admits a j b).
    { intros Had j Hj. destruct (decide (j = k)) as [->|]; [done|]. apply HI. lia. }
    destruct (occupied (blk_at cs off)) eqn:Eo; [|apply Hstep; intros Ho; congruence].
    set (stale := match cwa_guard a with Some _ => _ | None => _ end).
    destruct stale eqn:Es; [done|].
    assert (Hguard : ∀ g, cwa_guard a = Some g →
      cb_gen_id (blk_at cs off) = cg_gen_id g ∧ cb_client_id (blk_at cs off) = cg_client_id g).
    { intros g Hg. unfold stale in Es. rewrite Hg in Es. by bool_prop. }
    destruct (Z.eqb_spec (cb_state (blk_at cs off)) CHUNK_STATE_PENDING) as [Hp|Hp]; cbn [negb].
    - destruct (_ && _) eqn:Eown; [|done]. bool_prop. apply Hstep. by intros _.
    - apply Hstep. intros _. split; [done|]. by intros Hp'. }
  destruct (for_break 0 _ body tt); [|done]. by apply H.
Qed.

(** ** The blocks of a payload *)

Lemma new_block_rewritten c flags p n i cs off :
  store_ok cs → (0 <= off)%Z →
  new_block c flags p n i (chunk_store_lookup (Some cs) off) (chunk_store_lookup_any (Some cs) off)
  = rewritten c flags p n i (blk_at cs off).
Proof.
  intros Hok Hoff. unfold rewritten. rewrite lookup_occupied by done. unfold chunk_store_lookup_any.
  destruct (Z.leb_spec (cs_nblocks cs) off) as [H|H]; [|done].
  rewrite (blk_beyond cs off Hok H). unfold new_block.
  by destruct (recorded_checksum p i) as [[algo len] value].
Qed.

Section Recorded.

Context (c : compound) (flags : Z) (p : payload) (n : Z).

Abbreviation at_ := (λ i : nat, u64w (pl_offset p + Z.of_nat i)).

(** After [k] chunks. *)
Record recorded (k : nat) (cs cs' : chunk_store) : Prop := {
  re_good : store_good cs';
  re_high : (cs_high_water cs <= cs_high_water cs')%Z;
  re_size : cs_chunk_size cs' = cs_chunk_size cs;
  re_algorithm : cs_checksum_algorithm cs' = cs_checksum_algorithm cs;
  re_blocks : ∀ j, (0 <= j)%Z → blk_at cs' j = blk_at cs j ∨
    ∃ i, (i < k)%nat ∧ j = at_ i ∧ blk_at cs' j = rewritten c flags p n i (blk_at cs j);
  re_done : ∀ i, (i < k)%nat → blk_at cs' (at_ i) = rewritten c flags p n i (blk_at cs (at_ i));
}.

Lemma at_inj i k : (Z.of_nat i < 2 ^ 32)%Z → (Z.of_nat k < 2 ^ 32)%Z → at_ i = at_ k → i = k.
Proof using.
  intros Hi Hk H. unfold wrap in H.
  pose proof (Z.div_mod (pl_offset p + Z.of_nat i) (2 ^ 64) ltac:(lia)).
  pose proof (Z.div_mod (pl_offset p + Z.of_nat k) (2 ^ 64) ltac:(lia)). nia.
Qed.

Lemma at_nonneg' i : (0 <= at_ i)%Z.
Proof using. apply (wrap_in_width 64). lia. Qed.

Lemma recorded_0 cs : store_good cs → recorded 0 cs cs.
Proof using. intros Hg. split; try done; [by left|lia]. Qed.

Hypothesis (Hp : payload_ok p) (Hc : in_width 64 (client_id_of c)) (Hz : pl_chunk_size p ≠ 0%Z).
Hypothesis (Hflags : flags = 0%Z ∨ flags = CHUNK_BLOCK_REPAIR_PROVENANCE).

Lemma recorded_S grants k cs cs1 ret cs2 :
  (Z.of_nat k < 2 ^ 32)%Z → recorded k cs cs1 →
  chunk_store_write grants cs1 (at_ k)
    (new_block c flags p n k (chunk_store_lookup (Some cs1) (at_ k))
       (chunk_store_lookup_any (Some cs1) (at_ k))) = (ret, cs2) →
  (ret < 0)%Z ∧ cs2 = cs1 ∨ ret = 0%Z ∧ recorded (S k) cs cs2.
Proof using Hp Hc Hz Hflags.
  intros Hk R E. pose proof (re_good _ _ _ R) as Hg1. pose proof (at_nonneg' k) as Ho.
  rewrite new_block_rewritten in E by (done || apply Hg1).
  assert (Hsame : blk_at cs1 (at_ k) = blk_at cs (at_ k)).
  { destruct (re_blocks _ _ _ R (at_ k) Ho) as [?|(i & Hi & He & _)]; [done|].
    apply at_inj in He; lia. }
  destruct (write_params grants cs1 (at_ k) (rewritten c flags p n k (blk_at cs1 (at_ k)))) as [Hsz Hal].
  rewrite E in Hsz, Hal. cbn [snd] in Hsz, Hal.
  assert (Hb : block_good (Z.max (cs_high_water cs1) (at_ k + 1)) (at_ k)
    (rewritten c flags p n k (blk_at cs1 (at_ k))))
    by (eapply rewritten_good; [done..|by apply good_block|lia|lia]).
  destruct (write_good grants cs1 _ _ ret cs2 Hg1 Ho Hb E) as [?|(-> & Hg2 & _ & Hh & Hat)]; [by left|].
  right. split; [done|]. destruct R. split; [done|lia|congruence|congruence| |].
  - intros j Hj. rewrite Hat by done. destruct (Z.eqb_spec j (at_ k)) as [->|].
    + right. exists k. rewrite Hsame. split_and!; [lia|done|done].
    + destruct (re_blocks0 j Hj) as [?|(i & Hi & ? & ?)]; [by left|]. right. exists i. split_and!; [lia|done|done].
  - intros i Hi. rewrite Hat by apply at_nonneg'. destruct (Z.eqb_spec (at_ i) (at_ k)) as [He|Hne].
    + apply at_inj in He; [|lia|lia]. subst i. by rewrite Hsame.
    + apply re_done0. destruct (decide (i = k)) as [->|]; [done|lia].
Qed.

End Recorded.

(** ** The handlers *)

(** The file's policy is adopted, and no block moves. *)
Lemma adopt_policy_good cs p algo cs0 :
  store_good cs → payload_ok p → in_width 32 algo → adopt_policy cs p algo = Some cs0 →
  store_good cs0 ∧ (∀ j, blk_at cs0 j = blk_at cs j) ∧ cs_nblocks cs0 = cs_nblocks cs ∧
  cs_high_water cs0 = cs_high_water cs ∧
  cs_chunk_size cs0 = if (cs_chunk_size cs =? 0)%Z then pl_chunk_size p else cs_chunk_size cs.
Proof.
  intros [[Hok Hc Hs] He] Hp Ha. unfold adopt_policy. case_if; [done|]. intros [= <-].
  split; [|done]. destruct Hok. split; [split; [split|..]|]; try done; cbn.
  - case_if; [apply Hp|done].
  - case_if; done.
Qed.

Lemma validated {P} h c (i : inode P) p algo n :
  payload_ok p → chunk_write_validate_payload h c i p = inr (algo, n) →
  n = nchunks_of p ∧ pl_chunk_size p ≠ 0%Z ∧ total_data p ≠ 0%Z ∧ in_width 32 algo ∧
  (0 < n < 2 ^ 32)%Z ∧ checksums_match h p n = true ∧
  (pl_checksums p ≠ [] → Z.of_nat (length (pl_checksums p)) = n).
Proof.
  intros Hp. unfold chunk_write_validate_payload. cbv zeta.
  repeat lazymatch goal with
  | |- (if ?b then inl _ else _) = _ → _ => destruct b eqn:?; [done|]
  end.
  intros H. injection H as Ha <-. bool_prop. pose proof (pk_chunk_size _ Hp) as [Hs1 Hs2].
  assert (0 <= nchunks_of p < 2 ^ 32)%Z as Hn.
  { unfold nchunks_of. pose proof (wrap_in_width 32 (u32w (total_data p + pl_chunk_size p) - 1) ltac:(lia)) as [Hw1 Hw2].
    split; [apply Z.div_pos; lia|]. apply Z.div_lt_upper_bound; [lia|]. nia. }
  assert (in_width 32 algo) as Hal.
  { subst algo. case_if; [|done].
    apply (rd_forall (λ c4, in_width 32 (cs_algorithm c4))); [done|apply Hp]. }
  do 4 (split; [done|]). split; [lia|]. split; [done|]. intros Hne.
  assert (0 < length (pl_checksums p))%nat by (destruct (pl_checksums p); [done|cbn; lia]).
  repeat match goal with H : (0 <? _)%Z && _ = false |- _ => revert H end.
  destruct (Z.ltb_spec 0 (Z.of_nat (length (pl_checksums p)))); [|lia]. cbn [andb].
  intros. by bool_prop.
Qed.

Section Write.

Context {P : Type} (ops : storage_ops P) (grants : elem → Z → bool) (callocs : site → bool)
  (h : hashes) (l : site_of).
Hypothesis (Hsite : site_ok l).
Implicit Types (s : server P).

(** What a payload leaves of the data block. *)
Definition data_stored (p : payload) (d d' : option (data_block P)) : Prop :=
  let offset := s64 (s64 (pl_offset p) * pl_chunk_size p) in
  match d with
  | None => data_block_alloc ops (callocs AllocDataBlock) (Some (pl_chunks p)) (total_data p) offset
            = Some d' ∧ d' ≠ None
  | Some _ => ∃ wret, data_block_write ops d (pl_chunks p) offset = Some (wret, d') ∧ (0 <= wret)%Z
  end.

Lemma follows_inode s0 s i :
  follows l s0 s → i_ino i = i_ino (s_inode s) → i_chunk_store i = i_chunk_store (s_inode s) →
  follows l s0 (set_inode i s).
Proof using.
  intros [[Hi Hm Hd Hp] Hv Ht Hn] Hino Hcs. split; [split|done|done|]; try done.
  - by rewrite <-Hi.
  - unfold mem. cbn. rewrite Hcs. apply Hm.
  - unfold mem. cbn. rewrite Hcs. apply Hn.
Qed.

Lemma wp_write_data p (Q : fail + () → server P → Prop) s0 s :
  follows l s0 s →
  (∀ s', follows l s0 s' → mem s' = mem s → data_stored p (db s) (db s') → Q (inr tt) s') →
  (∀ e s', follows l s0 s' → mem s' = mem s → Q (inl e) s') →
  wp (write_data ops callocs p) Q s.
Proof using.
  intros Hs Hok Hf. unfold write_data. wp_step. wp_step. cbn [andthen]. fold (db s).
  unfold data_stored in Hok. destruct (db s) as [d|] eqn:Ed.
  - destruct (data_block_write ops (Some d) _ _) as [[wret d']|] eqn:Ew; [|wp_step; by apply Hf].
    unfold on_inode. wp_step. wp_step. cbn [andthen].
    assert (Hs' : follows l s0 (set_inode (with_db (s_inode s) d') s)) by (by apply follows_inode).
    wp_step; bool_prop; [by apply Hf|]. apply Hok; [done|done|]. by exists wret.
  - destruct (data_block_alloc _ _ _ _ _) as [[d'|]|] eqn:Ea; [|wp_step; by apply Hf..].
    unfold on_inode. wp_step. apply Hok; [by apply follows_inode|done|done].
Qed.

Lemma wp_write_delay guarded cs offset nchunks (Q : fail + bool → server P → Prop) s0 s :
  stands l s0 s → (∀ b s', stands l s0 s' → mem s' = mem s → Q (inr b) s') →
  wp (chunk_write_test_delay guarded cs offset nchunks) Q s.
Proof using.
  intros Hs H. unfold chunk_write_test_delay. repeat case_if; [by wp_step; apply H..|].
  by eapply wp_budget.
Qed.

Lemma wp_grow_size p (Q : fail + () → server P → Prop) s0 s :
  follows l s0 s →
  (∀ s', follows l s0 s' → mem s' = mem s → db s' = db s → Q (inr tt) s') → wp (grow_size p) Q s.
Proof using.
  intros Hs H. unfold grow_size, on_inode. wp_step. apply H; [apply follows_inode|..];
    try done; by case_if.
Qed.

Section Blocks.

Context (c : compound) (flags : Z) (p : payload) (n : Z) (cs : chunk_store).
Hypothesis (Hp : payload_ok p) (Hc : in_width 64 (client_id_of c)) (Hz : pl_chunk_size p ≠ 0%Z).
Hypothesis (Hflags : flags = 0%Z ∨ flags = CHUNK_BLOCK_REPAIR_PROVENANCE) (Hn : (n < 2 ^ 32)%Z).

(** The state of the loop after [k] chunks. *)
Definition recording (s0 : server P) (k : nat) s : Prop :=
  stands l s0 s ∧ ∃ cs', mem s = Some cs' ∧ recorded c flags p n k cs cs'.

Lemma wp_record_block (Q : fail + () → server P → Prop) s0 k s :
  (k < Z.to_nat n)%nat → recording s0 k s →
  (∀ s', recording s0 (S k) s' → Q (inr tt) s') →
  (∀ e s', recording s0 k s' → Q (inl e) s') →
  wp (record_block grants c flags p n k) Q s.
Proof using Hp Hc Hz Hflags Hn.
  intros Hk (Hs & cs1 & Hm1 & R) Hok Hf. unfold record_block.
  wp_step. eapply wp_the_store; [exact Hm1|]. cbn [andthen].
  destruct (chunk_store_write grants cs1 _ _) as [ret cs2] eqn:E.
  destruct (recorded_S c flags p n Hp Hc Hz Hflags grants k cs cs1 ret cs2 ltac:(lia) R E)
    as [[Hlt ->]|[-> R2]].
  - wp_step. eapply wp_set_store; [exact Hs|apply R|]. intros s' Hs' Hm'. cbn [andthen].
    apply Z.ltb_lt in Hlt. rewrite Hlt. wp_step; [|done]. apply Hf. split; [done|]. by exists cs1.
  - wp_step. eapply wp_set_store; [exact Hs|apply R2|]. intros s' Hs' Hm'. cbn [andthen].
    wp_step; [done|]. apply Hok. split; [done|]. by exists cs2.
Qed.

Lemma wp_count_chunk (Q : fail + () → server P → Prop) s0 k i s :
  recording s0 k s → (∀ s', recording s0 k s' → Q (inr tt) s') → wp (count_chunk c p n i) Q s.
Proof using.
  intros (Hs & cs1 & Hm1 & R) H. unfold count_chunk.
  wp_step. eapply wp_the_store; [exact Hm1|]. cbn [andthen]. eapply wp_stats; [exact Hs|].
  intros s' Hs' Hm'. apply H. split; [done|]. exists cs1. split; [congruence|done].
Qed.

End Blocks.

(** Chunk [i] of the request goes over a block that no other owner has locked. *)
Definition overwrites (c : compound) (flags : Z) (p : payload) (owner : nat → chunk_owner4)
    (pre : nat → chunk_block → Prop) (j : Z) (b b' : chunk_block) : Prop :=
  ∃ i, (i < Z.to_nat (nchunks_of p))%nat ∧ j = u64w (pl_offset p + Z.of_nat i) ∧
       free_for (owner i) b ∧ pre i b ∧ b' = rewritten c flags p (nchunks_of p) i b.

(** The store is loaded, if it is, from what is on disk. *)
Abbreviation calm_at s := (calm l grants (s_sys s) s).

(** A write that succeeds: the policy, every block of the payload, and the data. *)
Definition wrote (c : compound) (flags : Z) (p : payload) s s' : Prop :=
  ∃ ca cs0 cs' algo,
    chunk_write_validate_payload h c (s_inode s) p = inr (algo, nchunks_of p) ∧
    store_good ca ∧ (calm_at s → ca = view l s) ∧ adopt_policy ca p algo = Some cs0 ∧
    mem s' = Some cs' ∧ recorded c flags p (nchunks_of p) (Z.to_nat (nchunks_of p)) cs0 cs' ∧
    data_stored p (db s) (db s').

Lemma found_mem s ca cs : (calm_at s → ca = view l s) → mem s = Some cs → ca = cs.
Proof using. intros H Hm. rewrite H; [by apply view_mem|]. intros Hn. congruence. Qed.

(** Blocks recorded over those of the store that the request found. *)
Lemma recording_alters c flags p owner pre cs0 k s s1 s' :
  (∀ j, blk_at cs0 j = blk_at (view l s) j) →
  (k <= Z.to_nat (nchunks_of p))%nat → recording c flags p (nchunks_of p) cs0 s1 k s' →
  (∀ i, (i < Z.to_nat (nchunks_of p))%nat →
     let b := blk_at cs0 (u64w (pl_offset p + Z.of_nat i)) in free_for (owner i) b ∧ pre i b) →
  alters l (overwrites c flags p owner pre) s s'.
Proof using.
  intros Hsame Hk (_ & cs' & Hm' & R) Hall. eapply alters_to; [exact Hm'|]. intros j Hj.
  destruct (re_blocks _ _ _ _ _ _ _ R j Hj) as [He|(i & Hi & -> & He)]; [left; by rewrite He|].
  right. rewrite <-Hsame. exists i. destruct (Hall i ltac:(lia)). split_and!; done || lia.
Qed.

(** The steps of both handlers past their gates. *)
Section Tail.

Context (c : compound) (flags : Z) (p : payload) (owner : nat → chunk_owner4)
  (pre : nat → chunk_block → Prop) (ca cs0 : chunk_store) (s : server P) (algo : Z).
Abbreviation n := (nchunks_of p).
Hypothesis (Hp : payload_ok p) (Hcl : in_width 64 (client_id_of c)).
Hypothesis (Hflags : flags = 0%Z ∨ flags = CHUNK_BLOCK_REPAIR_PROVENANCE).
Hypothesis (Hv : chunk_write_validate_payload h c (s_inode s) p = inr (algo, n)).
Hypothesis (Hga : store_good ca) (Hmem : calm_at s → ca = view l s).
Hypothesis (Hpol : adopt_policy ca p algo = Some cs0).
Hypothesis (Hgate : ∀ i, (i < Z.to_nat n)%nat →
  let b := blk_at cs0 (u64w (pl_offset p + Z.of_nat i)) in free_for (owner i) b ∧ pre i b).

(** What may be seen of the blocks at any exit. *)
Definition partly s' : Prop :=
  follows l s s' ∧ (calm_at s → alters l (overwrites c flags p owner pre) s s').

Lemma policy : store_good cs0 ∧ (∀ j, blk_at cs0 j = blk_at ca j).
Proof using Hp Hga Hpol Hv.
  destruct (validated h c (s_inode s) p algo n Hp Hv) as (_ & _ & _ & Ha & _).
  destruct (adopt_policy_good ca p algo cs0 Hga Hp Ha Hpol) as (? & ? & _). done.
Qed.

Lemma partly_recording k s1 s' :
  (k <= Z.to_nat n)%nat → follows l s s1 → recording c flags p n cs0 s1 k s' → partly s'.
Proof using Hp Hga Hpol Hv Hmem Hgate.
  intros Hk Hf R. split; [eapply follows_trans; [exact Hf|apply R]|].
  intros Hcalm. eapply (recording_alters c flags p owner pre cs0 k s s1 s'); try done.
  rewrite <-(Hmem Hcalm). apply policy.
Qed.

Lemma partly_unmoved s' : follows l s s' → mem s' = Some cs0 → partly s'.
Proof using Hp Hga Hpol Hv Hmem.
  intros Hf Hm. split; [done|]. intros Hcalm. apply unmoved_alters. eapply unmoved_to; [exact Hm|].
  intros j _. rewrite (proj2 policy). by rewrite (Hmem Hcalm).
Qed.

(** The data and the size of the file. *)
Lemma wp_tail_data {A} (K : H (P := P) A) (Q : fail + A → server P → Prop) s3 :
  follows l s s3 → mem s3 = Some cs0 → db s3 = db s →
  (∀ e s', partly s' → Q (inl e) s') →
  (∀ s', follows l s s' → mem s' = Some cs0 → data_stored p (db s) (db s') → wp K Q s') →
  wp (write_data ops callocs p;; grow_size p;; K) Q s3.
Proof using Hp Hga Hpol Hv Hmem.
  intros Hs3 Hm3 Hdb3 Hf HK. wp_step. eapply wp_write_data; [exact Hs3| |].
  2: { intros e' s4 Hs4 Hm4. cbn [andthen]. apply Hf, partly_unmoved; [done|congruence]. }
  intros s4 Hs4 Hm4 Hdata. rewrite Hdb3 in Hdata. cbn [andthen].
  wp_step. eapply wp_grow_size; [exact Hs4|]. intros s5 Hs5 Hm5 Hdb5. cbn [andthen].
  apply HK; [done|congruence|by rewrite Hdb5].
Qed.

(** The blocks: [body] records chunk [i]. *)
Lemma wp_tail_blocks {A} (body : nat → () → H (P := P) ()) (K : H (P := P) A)
    (Q : fail + A → server P → Prop) s5 :
  follows l s s5 → mem s5 = Some cs0 → data_stored p (db s) (db s5) →
  (∀ k s0 s' (Q' : fail + () → server P → Prop), (k < Z.to_nat n)%nat →
     recording c flags p n cs0 s0 k s' →
     (∀ s'', recording c flags p n cs0 s0 (S k) s'' → Q' (inr tt) s'') →
     (∀ e s'', recording c flags p n cs0 s0 k s'' → Q' (inl e) s'') → wp (body k tt) Q' s') →
  (∀ e s', partly s' → Q (inl e) s') →
  (∀ s', partly s' → wrote c flags p s s' → wp K Q s') →
  wp (mfor 0 (Z.to_nat n) body tt;; K) Q s5.
Proof using Hp Hga Hpol Hv Hmem Hgate.
  intros Hs5 Hm5 Hdata Hbody Hf HK.
  assert (R0 : recording c flags p n cs0 s5 0 s5).
  { split; [apply stands_refl, Hs5|]. exists cs0. split; [congruence|]. apply recorded_0, policy. }
  wp_step. eapply (wp_mfor (λ k _ s', recording c flags p n cs0 s5 k s')); [exact R0| |].
  - intros k [] s6 Hk R. apply (Hbody k s5); [lia|done|done|].
    intros e' s7 R'. cbn [andthen]. apply Hf. eapply partly_recording; [|exact Hs5|exact R']. lia.
  - intros [] s6 R. cbn [andthen]. rewrite Nat.add_0_l in R.
    apply HK; [eapply partly_recording; [|exact Hs5|exact R]; lia|].
    destruct R as (Hs6 & cs' & Hm6 & R). exists ca, cs0, cs', algo. split_and!; try done.
    rewrite (st_db _ _ _ Hs6). done.
Qed.

End Tail.

(** The store that the request found. *)
Lemma attached_view s s1 s2 ca :
  mem s1 = mem s → unchanged (s_sys s) (s_sys s1) →
  (calm_at s1 → ∀ ca, mem s2 = Some ca → ca = view l s1) →
  mem s2 = Some ca → calm l grants (s_sys s1) s → ca = view l s.
Proof using.
  intros Hm Hu H H2 Hcalm. rewrite <-(view_same l s s1 Hm Hu).
  apply H; [|done]. unfold calm, on_disk in *. by rewrite Hm, (unchanged_quiet _ _ Hu).
Qed.

Lemma attached s s1 s2 ca :
  mem s1 = mem s → s_sys s1 = s_sys s → (calm_at s1 → ∀ ca, mem s2 = Some ca → ca = view l s1) →
  mem s2 = Some ca → calm_at s → ca = view l s.
Proof using. intros Hm Hy H H2. rewrite <-Hy. by apply (attached_view s s1 s2); [|rewrite Hy|..]. Qed.

Lemma unmoved_attached s s' ca cs' :
  (calm_at s → ca = view l s) → mem s' = Some cs' → (∀ j, blk_at cs' j = blk_at ca j) →
  calm_at s → unmoved l s s'.
Proof using.
  intros Hm Hm' Hb Hcalm. eapply unmoved_to; [exact Hm'|]. intros j _. by rewrite Hb, (Hm Hcalm).
Qed.

Lemma unmoved_lost s s1 s2 :
  stands l s s2 → mem s1 = mem s → (∀ cs, mem s1 = Some cs → mem s2 = Some cs) → mem s2 = None →
  unmoved l s s2.
Proof using.
  intros Hs H1 H2 H3. apply unmoved_kept; [done|]. rewrite H3, <-H1.
  destruct (mem s1) as [cs|]; [|done]. by rewrite (H2 cs eq_refl) in H3.
Qed.

Definition write_post c a s (r : fail + CHUNK_WRITE4resok) s' : Prop :=
  let p := payload_of_write a in
  let auth := authorized c (cwa_stateid a) (cwa_client_id a) false (s_trust s) in
  follows l s s' ∧ (unmoved l s s' ∧ db s' = db s ∨ auth) ∧
  (calm_at s → alters l (overwrites c 0 p (write_owner a) (admits a)) s s') ∧
  match r with
  | inl _ => True
  | inr res => auth ∧ wrote c 0 p s s' ∧ cwr_count res = nchunks_of p ∧
      chunk_validate_co_ids (cwa_co_ids a) (nchunks_of p) = true
  end.

Lemma write_op_spec c a s :
  c_server_state c = l_ss l → payload_ok (payload_of_write a) → in_width 64 (client_id_of c) →
  server_ok l s → wp (nfs4_op_chunk_write ops grants callocs h c a) (write_post c a s) s.
Proof using Hsite.
  intros Hc Hp Hcl Hok. pose proof (stands_refl l s Hok) as Hs. set (p := payload_of_write a) in *.
  assert (Hf0 : ∀ e s', refused l s s' → write_post c a s (inl e) s').
  { intros e s' [[H1 Hd] H2]. split; [done|]. split; [by left|]. split; [by intros _; apply unmoved_alters|done]. }
  unfold nfs4_op_chunk_write. wp_step. wp_step. cbn [andthen]. fold p.
  wp_step. destruct (chunk_write_validate_payload h c (s_inode s) p) as [e|[algo n]] eqn:Ev;
    cbn [lift]; [wp_step; cbn [andthen]; refuse Hf0|].
  destruct (validated h c (s_inode s) p algo n Hp Ev) as (-> & Hz & _ & Ha & Hn & _).
  wp_step. cbn [andthen]. gate ltac:(refuse Hf0).
  match goal with H : negb (chunk_validate_co_ids _ _) = false |- _ => apply negb_false_iff in H end.
  wp_step. eapply wp_trusted_sys; [exact Hs| |refuse Hf0]. intros s1 Hs1 Hm1 Hy1 Hauth. cbn [andthen].
  assert (Hf : ∀ e s', stands l s s' → (calm_at s → unmoved l s s') → write_post c a s (inl e) s').
  { intros e s' [Hfol _] Hum. split; [done|]. split; [by right|]. split; [intros Hcalm; by apply unmoved_alters, Hum|done]. }
  wp_step. eapply wp_attach; [done|done|exact Hs1|]. intros s2 Hs2 Hm2 Hv2. cbn [andthen].
  pose proof (λ ca, attached s s1 s2 ca Hm1 Hy1 Hv2) as Hatt. pose proof (unmoved_lost s s1 s2 Hs2 Hm1 Hm2) as Hlost.
  destruct (mem s2) as [ca|] eqn:Eca; [|wp_step; apply Hf; [apply Hs2|by intros _; apply Hlost]].
  pose proof (ok_mem _ _ (fol_ok _ _ _ (st_fol _ _ _ Hs2)) _ Eca) as Hga.
  pose proof (Hatt ca eq_refl) as Hmem.
  wp_step. eapply wp_write_delay; [exact Hs2|]. intros b s3 Hs3 Hm3. cbn [andthen].
  gate ltac:(apply Hf; [apply Hs3|eapply unmoved_attached; [exact Hmem|rewrite Hm3; exact Eca|done]]).
  destruct (adopt_policy ca p algo) as [cs0|] eqn:Epol;
    [|wp_step; apply Hf; [apply Hs3|eapply unmoved_attached; [exact Hmem|rewrite Hm3; exact Eca|done]]].
  destruct (adopt_policy_good ca p algo cs0 Hga Hp Ha Epol) as (Hg0 & Hb0 & _).
  wp_step. eapply wp_set_store; [exact Hs3|exact Hg0|]. intros s4 Hs4 Hm4. cbn [andthen].
  destruct (write_gate cs0 a (nchunks_of p)) as [[e busy]|] eqn:Egate.
  { wp_step. assert (Hend : ∀ s5, stands l s s5 → mem s5 = mem s4 → write_post c a s (inl (Status e)) s5).
    { intros s5 Hs5 Hm5. apply Hf; [apply Hs5|]. eapply unmoved_attached; [exact Hmem|rewrite Hm5; exact Hm4|done]. }
    wp_step; cbn [andthen]; [|wp_step; by apply Hend].
    eapply wp_stats; [exact Hs4|]. intros s5 Hs5 Hm5. cbn [andthen]. wp_step. by apply Hend. }
  assert (Hgate : ∀ i, (i < Z.to_nat (nchunks_of p))%nat →
    let b := blk_at cs0 (u64w (pl_offset p + Z.of_nat i)) in free_for (write_owner a i) b ∧ admits a i b).
  { intros i Hi. by eapply write_gate_none; [apply Hg0|..]. }
  assert (Hpart : ∀ e s', partly c 0 p (write_owner a) (admits a) s s' → write_post c a s (inl e) s').
  { intros e s' [Hp1 Hp2]. split; [done|]. split; [by right|done]. }
  unfold write_chunks. fold p.
  eapply (wp_tail_data c 0 p (write_owner a) (admits a) ca cs0 s algo); try done; [apply Hs4|apply Hs4|].
  intros s5 Hs5 Hm5 Hdata. gate ltac:(by apply Hpart, (partly_unmoved c 0 p (write_owner a) (admits a) ca cs0 s algo)).
  eapply (wp_tail_blocks c 0 p (write_owner a) (admits a) ca cs0 s algo); try done.
  - intros k s0 s' Q' Hk R HQ1 HQ2. wp_step. eapply wp_count_chunk; [exact R|]. intros s'' R''. cbn [andthen].
    eapply (wp_record_block c 0 p (nchunks_of p) cs0); try done; [by left|lia].
  - intros s6 [Hp1 Hp2] Hw. wp_step. eapply wp_stats; [apply stands_refl, Hp1|]. intros s7 Hs7 Hm7. cbn [andthen].
    wp_step. unfold write_post. fold p.
    assert (wrote c 0 p s s7) as Hw7.
    { destruct Hw as (ca' & c0' & c1' & al & W1 & W2 & W3 & W4 & W5 & W6 & W7). exists ca', c0', c1', al.
      rewrite Hm7, (st_db _ _ _ Hs7). done. }
    split; [eapply follows_trans; [exact Hp1|apply Hs7]|]. split; [by right|]. split; [|done].
    unfold alters in *. by rewrite (view_kept l s6 s7 Hs7 Hm7).
Qed.

(** ** Repair *)

Definition repair_owner (a : CHUNK_WRITE_REPAIR4args) (i : nat) : chunk_owner4 :=
  mk_owner (cwra_cohort_id a) (cwra_client_id a) (rd 0%Z (cwra_co_ids a) i).

Definition repair_post c a s (r : fail + CHUNK_WRITE_REPAIR4resok) s' : Prop :=
  let p := payload_of_repair a in
  let auth := authorized c (cwra_stateid a) (cwra_client_id a) true (s_trust s) in
  follows l s s' ∧ (unmoved l s s' ∧ db s' = db s ∨ auth) ∧
  (calm_at s → alters l (overwrites c CHUNK_BLOCK_REPAIR_PROVENANCE p (repair_owner a) (λ _ _, True)) s s') ∧
  match r with
  | inl _ => True
  | inr res => auth ∧ wrote c CHUNK_BLOCK_REPAIR_PROVENANCE p s s'
  end.

Lemma repair_gate cs (a : CHUNK_WRITE_REPAIR4args) n i :
  store_ok cs →
  existsb (λ i, is_some (chunk_lock_conflict cs (u64w (cwra_offset a + Z.of_nat i)) 1
                           (cwra_cohort_id a) (cwra_client_id a) (rd 0%Z (cwra_co_ids a) i)))
    (seq 0 n) = false → (i < n)%nat →
  free_for (repair_owner a i) (blk_at cs (u64w (cwra_offset a + Z.of_nat i))).
Proof using.
  intros Hok He Hi. set (off := u64w _). pose proof (wrap_in_width 64 (cwra_offset a + Z.of_nat i) ltac:(lia)) as [H0 H1].
  fold off in H0, H1. destruct (Z.le_gt_cases (cs_nblocks cs) off) as [Hb|Hb].
  { by rewrite (blk_beyond cs off Hok Hb). }
  apply (lock_conflict_none cs off 1 (repair_owner a i)); [done|lia| |unfold in_range; lia|lia].
  apply not_true_iff_false. intros Hc. rewrite <-not_true_iff_false in He. apply He.
  apply existsb_exists. exists i. split; [apply in_seq; lia|done].
Qed.

Lemma repair_op_spec c a s :
  c_server_state c = l_ss l → payload_ok (payload_of_repair a) → in_width 64 (client_id_of c) →
  server_ok l s → wp (nfs4_op_chunk_write_repair ops grants callocs h c a) (repair_post c a s) s.
Proof using Hsite.
  intros Hc Hp Hcl Hok. pose proof (stands_refl l s Hok) as Hs. set (p := payload_of_repair a) in *.
  assert (Hf0 : ∀ e s', refused l s s' → repair_post c a s (inl e) s').
  { intros e s' [[H1 Hd] H2]. split; [done|]. split; [by left|]. split; [by intros _; apply unmoved_alters|done]. }
  unfold nfs4_op_chunk_write_repair. wp_step. wp_step. cbn [andthen]. fold p.
  wp_step. destruct (chunk_write_validate_payload h c (s_inode s) p) as [e|[algo n]] eqn:Ev;
    cbn [lift]; [wp_step; cbn [andthen]; refuse Hf0|].
  destruct (validated h c (s_inode s) p algo n Hp Ev) as (-> & Hz & _ & Ha & Hn & _).
  wp_step. cbn [andthen]. do 2 gate ltac:(refuse Hf0).
  wp_step. eapply wp_trusted_sys; [exact Hs| |refuse Hf0]. intros s1 Hs1 Hm1 Hy1 Hauth. cbn [andthen].
  assert (Hf : ∀ e s', stands l s s' → (calm_at s → unmoved l s s') → repair_post c a s (inl e) s').
  { intros e s' [Hfol _] Hum. split; [done|]. split; [by right|]. split; [intros Hcalm; by apply unmoved_alters, Hum|done]. }
  wp_step. eapply wp_stats_sys; [exact Hs1|]. intros s1' Hs1' Hm1' Hy1'. rewrite Hm1 in Hm1'. rewrite Hy1 in Hy1'.
  cbn [andthen]. wp_step. eapply wp_attach; [done|done|exact Hs1'|]. intros s2 Hs2 Hm2 Hv2. cbn [andthen].
  pose proof (λ ca, attached s s1' s2 ca Hm1' Hy1' Hv2) as Hatt.
  pose proof (unmoved_lost s s1' s2 Hs2 Hm1' Hm2) as Hlost.
  destruct (mem s2) as [ca|] eqn:Eca; [|wp_step; apply Hf; [apply Hs2|by intros _; apply Hlost]].
  pose proof (ok_mem _ _ (fol_ok _ _ _ (st_fol _ _ _ Hs2)) _ Eca) as Hga.
  pose proof (Hatt ca eq_refl) as Hmem.
  gate ltac:(apply Hf; [apply Hs2|eapply unmoved_attached; [exact Hmem|exact Eca|done]]).
  destruct (adopt_policy ca p algo) as [cs0|] eqn:Epol;
    [|wp_step; apply Hf; [apply Hs2|eapply unmoved_attached; [exact Hmem|exact Eca|done]]].
  destruct (adopt_policy_good ca p algo cs0 Hga Hp Ha Epol) as (Hg0 & Hb0 & _).
  wp_step. eapply wp_set_store; [exact Hs2|exact Hg0|]. intros s4 Hs4 Hm4. cbn [andthen].
  assert (Hgate : ∀ i, (i < Z.to_nat (nchunks_of p))%nat →
    let b := blk_at cs0 (u64w (pl_offset p + Z.of_nat i)) in free_for (repair_owner a i) b ∧ True).
  { intros i Hi. cbv zeta. rewrite Hb0. split; [|done]. eapply repair_gate; [apply Hga|done|done]. }
  assert (Hpart : ∀ e s', partly c CHUNK_BLOCK_REPAIR_PROVENANCE p (repair_owner a) (λ _ _, True) s s' →
    repair_post c a s (inl e) s').
  { intros e s' [Hp1 Hp2]. split; [done|]. split; [by right|done]. }
  eapply (wp_tail_data c _ p (repair_owner a) (λ _ _, True) ca cs0 s algo);
    try done; [apply Hs4|apply Hs4|].
  intros s5 Hs5 Hm5 Hdata.
  eapply (wp_tail_blocks c CHUNK_BLOCK_REPAIR_PROVENANCE p (repair_owner a) (λ _ _, True) ca cs0 s algo);
    try done.
  - intros k s0 s' Q' Hk R HQ1 HQ2.
    eapply (wp_record_block c CHUNK_BLOCK_REPAIR_PROVENANCE p (nchunks_of p) cs0); try done; [by right|lia].
  - intros s6 [Hp1 Hp2] Hw. gate ltac:(by apply Hpart). wp_step. split; [done|]. split; [by right|done].
Qed.

(** ** Read *)

(** The blocks from the start of the range that can be read. *)
Lemma available_spec cs offset count avail pending :
  store_ok cs → available cs offset count = (avail, pending) →
  (0 <= avail <= Z.max 0 count)%Z ∧
  ∀ i, (Z.of_nat i < avail)%Z →
    (CHUNK_STATE_FINALIZED <= cb_state (blk_at cs (u64w (offset + Z.of_nat i))))%Z.
Proof using.
  intros Hok. unfold available.
  match goal with |- context [for_break 0 ?n ?f ?a] => set (body := f) end.
  set (good (avail : Z) := ∀ i, (Z.of_nat i < avail)%Z →
    (CHUNK_STATE_FINALIZED <= cb_state (blk_at cs (u64w (offset + Z.of_nat i))))%Z).
  assert (H : match for_break 0 (Z.to_nat count) body 0%Z with
    | inl avail => avail = Z.of_nat (Z.to_nat count) ∧ good avail
    | inr (avail, _) => (0 <= avail <= Z.max 0 count)%Z ∧ good avail end).
  { apply (for_break_ind (λ k (avail : Z), avail = Z.of_nat k ∧ good avail)
      (λ '(avail, _), (0 <= avail <= Z.max 0 count)%Z ∧ good avail)).
    - split; [done|]. intros i. lia.
    - intros k avail' Hk [-> HI]. unfold body.
      rewrite lookup_occupied by (done || by apply (wrap_in_width 64)).
      destruct (occupied _); [|split; [lia|done]].
      destruct (Z.leb_spec CHUNK_STATE_FINALIZED (cb_state (blk_at cs (u64w (offset + Z.of_nat k)))));
        [|split; [lia|done]].
      split; [lia|]. intros i Hi. destruct (decide (i = k)) as [->|]; [done|]. apply HI. lia. }
  destruct (for_break 0 _ body 0%Z) as [av|[av pe]]; intros [= <- <-]; destruct H as [H1 H2];
    (split; [lia|done]).
Qed.

Definition read_post c a s (r : fail + CHUNK_READ4resok) s' : Prop :=
  stands l s s' ∧ unmoved l s s' ∧
  match r with
  | inl _ => True
  | inr res =>
      cra_count a = 0%Z ∧ crr_chunks res = [] ∨
      authorized c (cra_stateid a) 0 false (s_trust s) ∧
      ∃ cs avail pending, mem s' = Some cs ∧ cs = view l s ∧
        available cs (cra_offset a) (cra_count a) = (avail, pending) ∧
        read_chunks ops callocs cs (db s) (cra_offset a) avail = inr (crr_chunks res)
  end.

Lemma read_op_spec c a s :
  c_server_state c = l_ss l → server_ok l s →
  wp (nfs4_op_chunk_read ops grants callocs c a) (read_post c a s) s.
Proof using Hsite.
  intros Hc Hok. pose proof (stands_refl l s Hok) as Hs.
  assert (Hf : ∀ e s', stands l s s' → unmoved l s s' → read_post c a s (inl e) s') by done.
  assert (Hf0 : ∀ e s', refused l s s' → read_post c a s (inl e) s') by (intros e s' [H1 H2]; by apply Hf).
  unfold nfs4_op_chunk_read. wp_step. wp_step. cbn [andthen]. do 3 gate ltac:(refuse Hf0).
  case_if; [wp_step; split; [done|]; split; [by apply unmoved_kept|]; left; by bool_prop|].
  wp_step. eapply wp_trusted; [exact Hs| |refuse Hf0]. intros s1 Hs1 Hm1 Hauth. cbn [andthen].
  wp_step. eapply wp_load_for_read; [done|done|exact Hs1|]. intros s2 Hs2 Hm2 Hv2. cbn [andthen].
  rewrite (view_kept l s s1 Hs1 Hm1) in Hv2. pose proof (unmoved_lost s s1 s2 Hs2 Hm1 Hm2) as Hlost.
  destruct (mem s2) as [cs|] eqn:Ecs; [|wp_step; apply Hf; [done|by apply Hlost]].
  assert (Hum : unmoved l s s2) by (eapply unmoved_to; [exact Ecs|]; by rewrite <-(Hv2 cs eq_refl)).
  destruct (available cs (cra_offset a) (cra_count a)) as [avail pending] eqn:Eav.
  do 2 gate ltac:(by apply Hf). wp_step. wp_step. cbn [andthen].
  destruct (read_chunks _ _ _ _ _ _) as [e|chunks] eqn:Er; wp_step; [by apply Hf|].
  split; [done|]. split; [done|]. right. cbn [crr_chunks]. split; [done|].
  exists cs, avail, pending. split_and!; try done; [by apply Hv2|].
  by rewrite <-(st_db _ _ _ Hs2).
Qed.

(** What the reply for block [off] says: its metadata, and its bytes unless it is
    marked as damaged. *)
Definition describes cs d (off : Z) (r : read_chunk4) : Prop :=
  let b := blk_at cs off in
  cr_owner r = mk_owner (cb_cohort_id b) (cb_client_id b) (cb_owner_id b) ∧
  cr_guard r = mk_guard (cb_gen_id b) (cb_client_id b) ∧
  cr_payload_id r = cb_payload_id b ∧ cr_effective_len r = cb_chunk_size b ∧
  if has_flag (cb_flags b) CHUNK_BLOCK_ERROR
  then cr_status r = NFS4ERR_PAYLOAD_NOT_ATOMIC ∧ cr_chunk r = []
  else cr_status r = NFS4_OK ∧
       read_data ops d (cb_chunk_size b) (s64 (u64w (off * cs_chunk_size cs))) = Some (cr_chunk r).

(** The first [k] chunks of the reply. *)
Definition described cs d offset (k : nat) (acc : list read_chunk4) : Prop :=
  length acc = k ∧ ∀ i r, acc !! i = Some r → describes cs d (u64w (offset + Z.of_nat i)) r.

Lemma described_snoc cs d offset k acc r :
  described cs d offset k acc → describes cs d (u64w (offset + Z.of_nat k)) r →
  described cs d offset (S k) (acc ++ [r]).
Proof using.
  intros [Hl Hacc] Hr. split; [rewrite length_app, Hl; cbn; lia|]. intros i r' Hi.
  destruct (decide (i < length acc)%nat).
  - rewrite lookup_app_l in Hi by done. by apply Hacc.
  - rewrite lookup_app_r in Hi by lia. apply list_lookup_singleton_Some in Hi as [Hi <-].
    by replace i with k by lia.
Qed.

Lemma read_one_spec cs d offset k acc :
  store_ok cs → described cs d offset k acc →
  match read_one ops callocs cs d offset k acc with
  | inl acc' => described cs d offset (S k) acc'
  | inr r => ∀ acc', r = inr acc' → described cs d offset k acc'
  end.
Proof using.
  intros Hok Hacc. unfold read_one.
  rewrite lookup_occupied by (done || by apply (wrap_in_width 64)).
  destruct (occupied _); [|done]. unfold chunk_checksum_pack. case_if; [done|].
  destruct (has_flag (cb_flags _) CHUNK_BLOCK_ERROR) eqn:Ef.
  - apply described_snoc; [done|]. unfold describes. cbv zeta. by rewrite Ef.
  - destruct (callocs (AllocReadData k)); cbn [negb]; [|by intros acc' [= <-]].
    destruct (read_data _ _ _ _) as [data|] eqn:Ed; [|done].
    apply described_snoc; [done|]. unfold describes. cbv zeta. by rewrite Ef.
Qed.

Lemma read_chunks_spec cs d offset avail chunks :
  store_ok cs → read_chunks ops callocs cs d offset avail = inr chunks →
  ∃ k, (k <= Z.to_nat avail)%nat ∧ described cs d offset k chunks.
Proof using.
  intros Hok. unfold read_chunks.
  set (E (r : fail + list read_chunk4) := ∀ acc, r = inr acc →
    ∃ k, (k <= Z.to_nat avail)%nat ∧ described cs d offset k acc).
  assert (H : match for_break 0 (Z.to_nat avail) (read_one ops callocs cs d offset) [] with
    | inl acc => described cs d offset (Z.to_nat avail) acc | inr r => E r end).
  { apply (for_break_ind (described cs d offset) E); [by split|]. intros k acc Hk Hacc.
    pose proof (read_one_spec cs d offset k acc Hok Hacc) as Hone.
    destruct (read_one _ _ _ _ _ _ _) as [acc'|r]; [done|]. intros acc' Hr. exists k. split; [lia|by apply Hone]. }
  destruct (for_break 0 _ _ _) as [acc|r]; [intros [= <-]; by exists (Z.to_nat avail)|]. intros ->. by apply H.
Qed.

End Write.

End ChunkIO.
