(* ===== verification/ChunkRanges.v ===== *)
(** * Locking, unlocking and restoring ranges of blocks

    The loops of CHUNK_LOCK, CHUNK_UNLOCK and the escrow handlers, block by block. *)

From S2P Require Import Prelude.
From S2P Require Import Words.
From S2P Require Import ChunkStore.
From S2P Require Import ChunkCorrect.
From S2P Require Import ChunkSteps.
From S2P Require Import ChunkPersist.
From S2P Require Import ChunkReload.
From S2P Require Import Nfs4.
From S2P Require Import ChunkOps.
From S2P Require Import ChunkLock.
From S2P Require Import ChunkEdits.
Import Words ChunkStore ChunkCorrect ChunkSteps ChunkPersist ChunkReload Nfs4 ChunkOps ChunkLock
  ChunkEdits.

Module ChunkRanges.

(** ** Growth *)

(** A store that has grown: the same blocks, a higher mark. *)
Record wider (cs cs' : chunk_store) : Prop := {
  wi_ok : store_ok cs';
  wi_high : (cs_high_water cs <= cs_high_water cs')%Z;
  wi_nblocks : (cs_nblocks cs <= cs_nblocks cs')%Z;
  wi_blocks : ∀ j, (0 <= j)%Z → blk_at cs' j = blk_at cs j;
}.

Lemma wider_refl cs : store_ok cs → wider cs cs.
Proof. intros Hg. split; done || lia. Qed.

Lemma wider_trans cs1 cs2 cs3 : wider cs1 cs2 → wider cs2 cs3 → wider cs1 cs3.
Proof. intros [] []. split; [done|lia|lia|]. intros j Hj. by rewrite wi_blocks1, wi_blocks0. Qed.

Lemma room_nblocks grants cs off ret cs' :
  store_ok cs → (0 <= off)%Z → chunk_store_room grants cs off = (ret, cs') →
  (cs_nblocks cs <= cs_nblocks cs')%Z.
Proof.
  intros Hok Hoff E. destruct (room_spec _ _ _ _ _ Hok Hoff E) as [_ [[-> _]|(_ & H & _)]]; [done|].
  unfold chunk_store_room in E. destruct (Z.leb_spec (cs_nblocks cs) off); [lia|].
  by injection E as _ <-.
Qed.

Lemma write_nblocks grants cs off b ret cs' :
  store_ok cs → (0 <= off)%Z → chunk_store_write grants cs off b = (ret, cs') →
  (cs_nblocks cs <= cs_nblocks cs')%Z.
Proof.
  intros Hok Hoff. unfold chunk_store_write. destruct (chunk_store_room grants cs off) as [r c] eqn:E.
  pose proof (room_nblocks _ _ _ _ _ Hok Hoff E). case_if; by intros [= _ <-].
Qed.

Lemma touch_nblocks grants cs off ret cs' :
  store_ok cs → (0 <= off)%Z → chunk_store_touch grants cs off = (ret, cs') →
  (cs_nblocks cs <= cs_nblocks cs')%Z.
Proof.
  intros Hok Hoff. unfold chunk_store_touch. destruct (chunk_store_room grants cs off) as [r c] eqn:E.
  pose proof (room_nblocks _ _ _ _ _ Hok Hoff E). case_if; by intros [= _ <-].
Qed.

Lemma block_good_mono high high' off b :
  (high <= high')%Z → block_good high off b → block_good high' off b.
Proof.
  intros Hh []. split; try done; [by eapply custody_mono|]. intros H. apply bg_above0. lia.
Qed.

(** A block outside the array: its entry is made, empty. *)
Lemma create_spec grants cs off ret cs' :
  store_ok cs → (0 <= off)%Z → (cs_nblocks cs <= off)%Z →
  chunk_store_write grants cs off zero_block = (ret, cs') →
  ret ≠ 0%Z ∧ cs' = cs ∨ ret = 0%Z ∧ wider cs cs' ∧ (off < cs_nblocks cs')%Z.
Proof.
  intros Hok Hoff Hn E. pose proof (write_nblocks _ _ _ _ _ _ Hok Hoff E) as Hnb.
  destruct (write_spec grants cs off zero_block ret cs' Hok Hoff zero_block_ok E)
    as [[-> ->]|(-> & Hok' & Hd & Hh & Hat)]; [by left|]. right. split; [done|].
  pose proof (ok_high _ Hok').
  assert (Hz : blk_at cs off = zero_block) by (unfold blk_at; apply rd_ge; pose proof (ok_length _ Hok); lia).
  split; [|lia]. split; [done|lia|lia|]. intros j Hj. rewrite Hat by done.
  by destruct (Z.eqb_spec j off) as [->|].
Qed.

Lemma touch_wider grants cs off ret cs' :
  store_ok cs → (0 <= off)%Z → chunk_store_touch grants cs off = (ret, cs') →
  ret ≠ 0%Z ∧ cs' = cs ∨
  ret = 0%Z ∧ wider cs cs' ∧ cs_high_water cs' = Z.max (cs_high_water cs) (off + 1) ∧
  cs_dirty cs' = true.
Proof.
  intros Hok Hoff E. pose proof (touch_nblocks _ _ _ _ _ Hok Hoff E) as Hnb.
  destruct (touch_spec grants cs off ret cs' Hok Hoff E) as [[-> ->]|(-> & Hok' & Hd & Hh & Hat)];
    [by left|]. right. split; [done|]. split; [|done]. split; [done|lia|done|]. by intros.
Qed.

(** ** A range that is being changed *)

(** After [k] turns: the blocks of the range so far are [f] of what they were. *)
Record covered (f : chunk_block → chunk_block) (offset : Z) (k : nat) (cs cs' : chunk_store) : Prop := {
  cv_ok : store_ok cs';
  cv_high : (cs_high_water cs <= cs_high_water cs')%Z;
  cv_nblocks : (cs_nblocks cs <= cs_nblocks cs')%Z;
  cv_end : (0 < k)%nat → (offset + Z.of_nat k <= cs_nblocks cs')%Z;
  cv_blocks : ∀ j, (0 <= j)%Z → blk_at cs' j =
    if (offset <=? j)%Z && (j <? offset + Z.of_nat k)%Z then f (blk_at cs j) else blk_at cs j;
}.

Section Covered.

Context (f : chunk_block → chunk_block) (offset : Z) (H0 : (0 <= offset)%Z) (cs : chunk_store).

Lemma covered_0 : store_ok cs → covered f offset 0 cs cs.
Proof using.
  intros Hok. split; try done; try lia. intros j Hj.
  destruct (Z.leb_spec offset j), (Z.ltb_spec j (offset + Z.of_nat 0)); done || lia.
Qed.

Lemma covered_wider k cs1 cs2 : covered f offset k cs cs1 → wider cs1 cs2 → covered f offset k cs cs2.
Proof using.
  intros [] []. split; [done|lia|lia|intros Hk; specialize (cv_end0 Hk); lia|].
  intros j Hj. by rewrite wi_blocks0, cv_blocks0.
Qed.

(** The block that is next has not changed yet. *)
Lemma covered_next k cs1 :
  covered f offset k cs cs1 → blk_at cs1 (offset + Z.of_nat k) = blk_at cs (offset + Z.of_nat k).
Proof using H0.
  intros H. rewrite (cv_blocks _ _ _ _ _ H) by lia.
  destruct (Z.leb_spec offset (offset + Z.of_nat k)), (Z.ltb_spec (offset + Z.of_nat k) (offset + Z.of_nat k));
    done || lia.
Qed.

Lemma covered_range_S k j :
  ((offset <=? j)%Z && (j <? offset + Z.of_nat (S k))%Z)
  = ((offset <=? j)%Z && (j <? offset + Z.of_nat k)%Z) || (j =? offset + Z.of_nat k)%Z.
Proof using.
  apply eq_true_iff_eq. rewrite orb_true_iff, !andb_true_iff, Z.leb_le, !Z.ltb_lt, Z.eqb_eq. lia.
Qed.

Lemma covered_skip k cs1 :
  covered f offset k cs cs1 → (offset + Z.of_nat k < cs_nblocks cs1)%Z →
  f (blk_at cs (offset + Z.of_nat k)) = blk_at cs (offset + Z.of_nat k) → covered f offset (S k) cs cs1.
Proof using H0.
  intros H Hn Hf. pose proof (covered_next k cs1 H) as Hnext. destruct H. split; try done; [lia|].
  intros j Hj. rewrite covered_range_S. destruct (Z.eqb_spec j (offset + Z.of_nat k)) as [->|].
  - by rewrite orb_true_r, Hnext, Hf.
  - by rewrite orb_false_r, cv_blocks0.
Qed.

Lemma covered_put k cs1 b d :
  covered f offset k cs cs1 → (offset + Z.of_nat k < cs_nblocks cs1)%Z →
  b = f (blk_at cs (offset + Z.of_nat k)) → block_ok b →
  ((cs_high_water cs1 <= offset + Z.of_nat k)%Z → idle b) →
  covered f offset (S k) cs (set_blocks cs1 (wr (cs_blocks cs1) (Z.to_nat (offset + Z.of_nat k)) b) d).
Proof using H0.
  intros [] Hn Hb Hok Hidle.
  assert (Hat : ∀ j, (0 <= j)%Z →
    blk_at (set_blocks cs1 (wr (cs_blocks cs1) (Z.to_nat (offset + Z.of_nat k)) b) d) j
    = if (j =? offset + Z.of_nat k)%Z then b else blk_at cs1 j)
    by (intros j Hj; apply blk_at_set; [done|lia|done]).
  split; try done; [|cbn; lia|].
  - apply (shape_ok cs1); [done|apply set_block_shape|]. intros j Hj. rewrite Hat by done.
    destruct (Z.eqb_spec j (offset + Z.of_nat k)) as [->|]; [done|].
    split; [apply cv_ok0|apply (ok_above _ cv_ok0)].
  - intros j Hj. rewrite Hat, covered_range_S by done. destruct (Z.eqb_spec j (offset + Z.of_nat k)) as [->|].
    + by rewrite orb_true_r.
    + by rewrite orb_false_r, cv_blocks0.
Qed.

End Covered.

(** ** Locks on one block *)

Lemma not_locked_not_escrowed b :
  escrow_held b → is_locked b = false → in_escrow b = false.
Proof.
  unfold is_locked, in_escrow, chunk_block_has_escrow_custody. intros He Hl. rewrite Hl, andb_false_l, orb_false_r.
  destruct (has_flag (cb_flags b) CHUNK_BLOCK_ESCROW) eqn:E; [|done]. destruct (He E). congruence.
Qed.

(** Clearing a lock. *)
Lemma clear_good high off b : block_good high off b → block_good high off (chunk_lock_clear b).
Proof.
  intros [Hok Hc Hs He Ha].
  assert (Hfl : ∀ f, in_width 32 f → in_width 32 (Z.ldiff f CHUNK_BLOCK_ESCROW) ∧ in_width 32 (Z.ldiff f CHUNK_BLOCK_LOCKED))
    by (intros f Hf; split; by apply ldiff_in_width).
  assert (Hl : has_flag (cb_flags (chunk_lock_clear b)) CHUNK_BLOCK_LOCKED = false).
  { unfold chunk_lock_clear. cbn [set_lock cb_flags]. case_if.
    - by apply (has_flag_ldiff _ 0).
    - rewrite (has_flag_ldiff_other _ 3 0) by done. by apply (has_flag_ldiff _ 0). }
  assert (Hx : has_flag (cb_flags (chunk_lock_clear b)) CHUNK_BLOCK_ESCROW = false).
  { unfold chunk_lock_clear. cbn [set_lock cb_flags]. destruct (_ && _) eqn:E.
    - bool_prop. by rewrite (has_flag_ldiff_other _ 0 3) by done.
    - by apply (has_flag_ldiff _ 3). }
  assert (Hin : in_escrow (chunk_lock_clear b) = false).
  { unfold in_escrow, chunk_block_has_escrow_custody. by rewrite Hl, Hx. }
  split.
  - destruct Hok. unfold chunk_lock_clear. cbn zeta.
    destruct (_ && _); split; cbn [set_lock]; try done; by repeat apply Hfl.
  - intros H. congruence.
  - done.
  - intros H. congruence.
  - intros H. destruct (Ha H). split; [done|done].
Qed.

(** What an escrow that matches says of the block. *)
Lemma matches_spec b offset count id :
  chunk_escrow_matches (Some b) offset count id = true →
  is_locked b = true ∧ has_flag (cb_flags b) CHUNK_BLOCK_ESCROW = true ∧
  cb_lock_client_id b = CHUNK_GUARD_CLIENT_ID_MDS ∧
  cb_lock_offset b = offset ∧ cb_lock_count b = count ∧ cb_lock_escrow_id b = id.
Proof.
  unfold chunk_escrow_matches, chunk_lock_range_equal. intros H.
  apply andb_true_iff in H as [H Hid%bool_decide_eq_true_1]. bool_prop.
  assert (Hbit : ∀ k, (0 <= k)%Z → Z.testbit 9 k = true → has_flag (cb_flags b) (2 ^ k) = true).
  { intros k Hk Hb. rewrite has_flag_bit by done.
    assert (Z.testbit (Z.land (cb_flags b) 9) k = true) as Ht; [|by rewrite Z.land_spec, Hb, andb_true_r in Ht].
    assert (Z.land (cb_flags b) 9 = 9%Z) as -> by done. done. }
  split_and!; [by apply (Hbit 0%Z)|by apply (Hbit 3%Z)|done..].
Qed.

Record lock_args_ok (a : CHUNK_LOCK4args) : Prop := {
  la_offset : in_width 64 (cla_offset a);
  la_count : in_width 32 (cla_count a);
  la_flags : in_width 32 (cla_flags a);
  la_cohort : in_width 64 (co_cohort_id (cla_owner a));
  la_client : in_width 32 (co_client_id (cla_owner a));
  la_owner : in_width 32 (co_id (cla_owner a));
  la_stateid : length (other (cla_stateid a)) = NFS4_OTHER_SIZE;
}.

Lemma pack_length st : length (other st) = NFS4_OTHER_SIZE → length (chunk_lock_pack_stateid st) = CHUNK_LOCK_STATEID_SIZE.
Proof. intros H. unfold chunk_lock_pack_stateid. by rewrite length_app, length_le_split, H. Qed.

(** The lock that a request puts on a block it may lock. *)
Definition lockable (a : CHUNK_LOCK4args) (b : chunk_block) : Prop :=
  if adopting a
  then chunk_escrow_matches (Some b) (cla_offset a) (cla_count a) (lock_escrow_id a) = true
  else is_locked b = true → chunk_lock_owner_equal b (cla_owner a) = true ∧
       chunk_lock_range_equal b (cla_offset a) (cla_count a) = true.

Lemma locked_good c a high off b :
  lock_args_ok a → in_width 64 (client_id_of c) → lockable a b → block_good high off b →
  in_range (cla_offset a) (cla_count a) off →
  block_good high off (default b (locked_block c a b)).
Proof.
  intros [] Hc Hl Hb Hr. unfold lockable, locked_block in *. pose proof (pack_length _ la_stateid0) as Hst.
  destruct (adopting a).
  - destruct (matches_spec _ _ _ _ Hl) as (Hlk & Hx & _ & Ho & Hn & Hid). cbn [default].
    assert (Hin : in_escrow b = true) by (unfold in_escrow; by rewrite Hx).
    destruct (bg_custody _ _ _ Hb Hin) as [Hv Hh]. destruct Hb as [[] Hcu Hs He Ha].
    split; [split; try done; by apply ldiff_in_width| |done| |].
    + intros _. cbn. rewrite <-Ho, <-Hn. done.
    + intros H. cbn in H. by rewrite (has_flag_ldiff _ 3) in H by done.
    + intros H. unfold in_range in Hr. lia.
  - destruct (is_locked b) eqn:El; cbn [default]; [done|].
    pose proof (not_locked_not_escrowed b (bg_escrow _ _ _ Hb) El) as Hne.
    assert (Hx : has_flag (cb_flags b) CHUNK_BLOCK_ESCROW = false)
      by (unfold in_escrow in Hne; by apply orb_false_iff in Hne as [? _]).
    destruct Hb as [[] Hcu Hs He Ha].
    match goal with |- block_good _ _ ?nb => set (b' := nb) end.
    assert (Hx' : has_flag (cb_flags b') CHUNK_BLOCK_ESCROW = false)
      by (unfold b'; cbn; by rewrite (has_flag_lor_other _ 0 3)).
    assert (Hne' : in_escrow b' = false).
    { unfold in_escrow, chunk_block_has_escrow_custody. rewrite Hx'.
      assert (escrow_id_is_zero (cb_lock_escrow_id b') = true) as -> by done. by rewrite andb_false_r. }
    split; [split; try done; by apply lor_in_width|intros H; congruence|done|intros H; congruence|].
    intros H. by destruct (Ha H).
Qed.

Record install_args_ok (a : CHUNK_ESCROW_INSTALL4args) : Prop := {
  ia_offset : in_width 64 (ceia_offset a);
  ia_count : in_width 32 (ceia_count a);
  ia_id : length (ceia_escrow_id a) = CHUNK_LOCK_ESCROW_ID_SIZE;
}.

Lemma escrowed_ok a b : install_args_ok a → block_ok b → block_ok (escrowed_block a b).
Proof. intros [Ho Hn Hid] []. split; try done. by apply lor_in_width. Qed.

(** An escrowed block is good once the mark is past the range. *)
Lemma escrowed_good a high off b :
  install_args_ok a → chunk_escrow_id_is_zero (ceia_escrow_id a) = false →
  chunk_lifecycle_check_range (ceia_offset a) (ceia_count a) = true →
  block_good high off b → (ceia_offset a + ceia_count a <= high < 2 ^ 64)%Z → (off < high)%Z →
  block_good high off (escrowed_block a b).
Proof.
  intros [Ho Hn Hid] Hz Hr Hb Hh Hoff. destruct (range_checked _ _ Ho Hn Hr) as [Hcp Hrange].
  split; [by apply escrowed_ok, Hb| |apply Hb| |lia].
  - intros _. cbn. split; [|lia]. unfold escrow_range_valid. rewrite !andb_true_iff, !negb_true_iff.
    split_and!; [apply Z.eqb_neq; lia|apply Z.leb_le; unfold UINT64_MAX; lia|exact Hz].
  - intros _. cbn [escrowed_block set_lock cb_flags]. split; [|done].
    rewrite Z.lor_assoc, (Z.lor_comm _ CHUNK_BLOCK_ESCROW), Z.lor_assoc. by apply has_flag_lor.
Qed.

(** ** Saving and restoring *)

(** What was saved is what [cs0] holds at the offsets; entries that were made were
    empty. *)
Definition saves (cs0 : chunk_store) (offset : Z) (saved : list (bool * chunk_block)) : Prop :=
  ∀ i created b, saved !! i = Some (created, b) →
    b = blk_at cs0 (offset + Z.of_nat i) ∧ (created = true → b = zero_block).

Lemma saves_snoc cs0 offset saved created b :
  saves cs0 offset saved → b = blk_at cs0 (offset + Z.of_nat (length saved)) →
  (created = true → b = zero_block) → saves cs0 offset (saved ++ [(created, b)]).
Proof.
  intros Hs Hb Hz i created' b' Hi. destruct (decide (i < length saved)%nat).
  - rewrite lookup_app_l in Hi by done. by apply Hs in Hi.
  - rewrite lookup_app_r in Hi by lia. apply list_lookup_singleton_Some in Hi as [Hi [= <- <-]].
    assert (i = length saved) as -> by lia. done.
Qed.

Lemma restore_spec cs0 cs offset saved :
  store_good cs0 → store_ok cs → (cs_high_water cs0 <= cs_high_water cs)%Z →
  (0 <= offset)%Z → (offset + Z.of_nat (length saved) <= 2 ^ 64)%Z → saves cs0 offset saved →
  let cs' := restore_blocks cs offset saved in
  shape cs cs' ∧ store_ok cs' ∧
  ∀ j, (0 <= j)%Z → blk_at cs' j =
    if entry_of cs offset (Z.of_nat (length saved)) j then blk_at cs0 j else blk_at cs j.
Proof.
  intros Hg0 Hok Hh H0 H1 Hs. cbv zeta. unfold restore_blocks. cbv zeta.
  match goal with |- context [for_range 0 _ ?st cs] =>
    destruct (range_update cs offset (length saved) st
      (λ i _, blk_at cs0 (offset + Z.of_nat i)) Hok H0) as [Hsh Hat] end.
  { intros i c Hi Hsh _. cbv zeta. rewrite wrap_small by (unfold in_width; lia).
    destruct (rd (false, zero_block) saved i) as [created b] eqn:Er.
    pose proof (rd_lt (false, zero_block) saved i Hi) as Hl. rewrite Er in Hl.
    destruct (Hs i created b Hl) as [-> Hz]. rewrite (sh_nblocks _ _ Hsh).
    case_if; bool_prop; [left; auto|]. right. split; [lia|]. exists (cs_dirty c). do 2 f_equal.
    destruct created; [by rewrite Hz|done]. }
  match goal with |- context [for_range 0 ?n ?st cs] => set (cs1 := for_range 0 n st cs) in * end.
  assert (Hb : ∀ j, (0 <= j)%Z → blk_at cs1 j =
    if entry_of cs offset (Z.of_nat (length saved)) j then blk_at cs0 j else blk_at cs j).
  { intros j Hj. rewrite Hat by done. destruct (entry_of _ _ _ j) eqn:E; [|done].
    apply entry_of_iff in E as [[? ?] _]. f_equal. lia. }
  assert (Hsh' : shape cs (set_blocks cs1 (cs_blocks cs1) true)) by (transitivity cs1; [done|by split]).
  split; [done|]. split; [|exact Hb]. apply (shape_ok cs); [done|done|]. intros j Hj.
  change (blk_at (set_blocks cs1 (cs_blocks cs1) true) j) with (blk_at cs1 j). rewrite Hb by done.
  pose proof (good_block cs0 j Hg0) as Hb0. case_if.
  - split; [apply Hb0|]. intros H. apply Hb0. lia.
  - split; [apply Hok|apply (ok_above _ Hok)].
Qed.

(** When only the range had changed, everything is back. *)
Lemma restore_covered f cs0 cs offset saved :
  store_good cs0 → covered f offset (length saved) cs0 cs → (0 <= offset)%Z →
  (offset + Z.of_nat (length saved) <= 2 ^ 64)%Z → saves cs0 offset saved →
  store_good (restore_blocks cs offset saved) ∧
  ∀ j, (0 <= j)%Z → blk_at (restore_blocks cs offset saved) j = blk_at cs0 j.
Proof.
  intros Hg Hcv H0 H1 Hs.
  destruct (restore_spec cs0 cs offset saved Hg (cv_ok _ _ _ _ _ Hcv) (cv_high _ _ _ _ _ Hcv) H0 H1 Hs)
    as (Hsh & Hok & Hb).
  assert (Hat : ∀ j, (0 <= j)%Z → blk_at (restore_blocks cs offset saved) j = blk_at cs0 j).
  { intros j Hj. rewrite Hb by done. destruct (entry_of _ _ _ j) eqn:E; [done|].
    rewrite (cv_blocks _ _ _ _ _ Hcv j Hj). destruct (_ && _) eqn:E2; [|done].
    rewrite <-not_true_iff_false, entry_of_iff in E. destruct E.
    apply andb_true_iff in E2 as [H2%Z.leb_le H3%Z.ltb_lt].
    pose proof (cv_end _ _ _ _ _ Hcv ltac:(lia)). unfold in_range. lia. }
  split; [|done]. apply (rebuilt_good cs0); [done|done| |done].
  rewrite (sh_high _ _ Hsh). apply Hcv.
Qed.

(** A loop that saves something of each store it goes through. *)
Lemma saving_loop {A} n (f : nat → chunk_store → A) step cs :
  for_range 0 n (λ i '(saved, c), (saved ++ [f i c], step i c)) ([], cs)
  = (map (λ i, f i (for_range 0 i step cs)) (seq 0 n), for_range 0 n step cs).
Proof.
  induction n as [|n IH]; [done|]. rewrite !for_range_S, IH, seq_S, map_app. done.
Qed.

(** ** Unlocking *)

Definition unlock_step (offset : Z) (i : nat) (c : chunk_store) : chunk_store :=
  let off := u64w (offset + Z.of_nat i) in
  match chunk_store_lookup_any (Some c) off with
  | Some blk => if is_locked blk
                then set_blocks c (wr (cs_blocks c) (Z.to_nat off) (chunk_lock_clear blk)) true else c
  | None => c
  end.

Definition unlocked (b : chunk_block) : chunk_block := if is_locked b then chunk_lock_clear b else b.

Lemma unlock_step_spec cs offset n :
  store_ok cs → (0 <= offset)%Z → (offset + Z.of_nat n <= 2 ^ 64)%Z →
  let cs' := for_range 0 n (unlock_step offset) cs in
  shape cs cs' ∧ ∀ j, (0 <= j)%Z → blk_at cs' j =
    if entry_of cs offset (Z.of_nat n) j then unlocked (blk_at cs j) else blk_at cs j.
Proof.
  intros Hok H0 H1. apply (range_update cs offset n (unlock_step offset) (λ _, unlocked) Hok H0).
  intros i c Hi Hsh Hself. cbv zeta. unfold unlock_step. rewrite wrap_small by (unfold in_width; lia).
  cbn [chunk_store_lookup_any]. rewrite (sh_nblocks _ _ Hsh). case_if; bool_prop; [left; auto|].
  unfold unlocked. rewrite Hself. destruct (is_locked _); [right; eauto|left; auto].
Qed.

Lemma unlock_range_spec cs offset count saved cs' :
  store_ok cs → (0 <= offset)%Z → (0 <= count)%Z → (offset + count <= 2 ^ 64)%Z →
  unlock_range cs offset count = (saved, cs') →
  shape cs cs' ∧ length saved = Z.to_nat count ∧
  (∀ j, (0 <= j)%Z → blk_at cs' j =
     if entry_of cs offset count j then unlocked (blk_at cs j) else blk_at cs j) ∧
  ∀ i o, saved !! i = Some o →
    let off := (offset + Z.of_nat i)%Z in
    o = (if (off <? cs_nblocks cs)%Z && is_locked (blk_at cs off) then Some (blk_at cs off) else None).
Proof.
  intros Hok H0 Hc H1 E. unfold unlock_range in E.
  erewrite (for_range_ext 0 _ _ (λ i '(sv, c), (sv ++ [match chunk_store_lookup_any (Some c) (u64w (offset + Z.of_nat i)) with
      | Some blk => if is_locked blk then Some blk else None | None => None end], unlock_step offset i c))) in E.
  2: { intros i [sv c] Hi. unfold unlock_step. destruct (chunk_store_lookup_any _ _) as [blk|]; [|done].
       by destruct (is_locked blk). }
  rewrite saving_loop in E. injection E as <- <-.
  destruct (unlock_step_spec cs offset (Z.to_nat count) Hok H0 ltac:(lia)) as [Hsh Hat].
  rewrite Z2Nat.id in Hat by done. split; [done|]. split; [by rewrite length_map, length_seq|].
  split; [done|]. intros i o Hi. cbv zeta.
  apply list_lookup_fmap_Some in Hi as (k & -> & Hk). apply lookup_seq in Hk as [-> Hlt].
  rewrite Nat.add_0_l. destruct (unlock_step_spec cs offset i Hok H0 ltac:(lia)) as [Hsh' Hat'].
  rewrite wrap_small by (unfold in_width; lia). cbn [chunk_store_lookup_any].
  rewrite (sh_nblocks _ _ Hsh'), Hat', entry_of_self by lia.
  destruct (Z.leb_spec (cs_nblocks cs) (offset + Z.of_nat i)), (Z.ltb_spec (offset + Z.of_nat i) (cs_nblocks cs));
    done || lia.
Qed.

Lemma unlock_good cs cs' offset count :
  store_good cs → shape cs cs' →
  (∀ j, (0 <= j)%Z → blk_at cs' j =
     if entry_of cs offset count j then unlocked (blk_at cs j) else blk_at cs j) → store_good cs'.
Proof.
  intros Hg Hsh Hat. apply (shape_good cs); [done|done|]. intros j Hj. rewrite Hat by done.
  pose proof (good_block cs j Hg) as Hb. case_if; [|done]. unfold unlocked. case_if; [by apply clear_good|done].
Qed.

(** The locks go back, on blocks that are otherwise as they were. *)
Lemma restore_locks_spec cs0 cs offset count (saved : list (option chunk_block)) :
  store_good cs0 → store_good cs → dims cs0 cs → (0 <= offset)%Z → (0 <= count)%Z →
  (offset + count <= 2 ^ 64)%Z → length saved = Z.to_nat count →
  (∀ i o, saved !! i = Some o →
    let off := (offset + Z.of_nat i)%Z in
    o = (if (off <? cs_nblocks cs0)%Z && is_locked (blk_at cs0 off) then Some (blk_at cs0 off) else None)) →
  (∀ j, (0 <= j)%Z → blk_at cs j =
     if entry_of cs0 offset count j then unlocked (blk_at cs0 j) else blk_at cs0 j) →
  let cs' := relock_range cs offset saved in
  dims cs0 cs' ∧ store_good cs' ∧ ∀ j, (0 <= j)%Z → blk_at cs' j = blk_at cs0 j.
Proof.
  intros Hg0 Hg Hd H0 Hc H1 Hlen Hsv Hat. cbv zeta. unfold relock_range. cbv zeta.
  match goal with |- context [for_range 0 _ ?st cs] =>
    destruct (range_update cs offset (length saved) st
      (λ i b, if is_locked (blk_at cs0 (offset + Z.of_nat i)) then blk_at cs0 (offset + Z.of_nat i) else b)
      (inv_ok _ (good_inv _ Hg)) H0) as [Hsh Hb] end.
  { intros i c Hi Hsh _. cbv zeta. rewrite wrap_small by (unfold in_width; lia).
    specialize (Hsv i _ (rd_lt None saved i Hi)). cbv zeta in Hsv. rewrite Hsv, <-(di_nblocks _ _ Hd).
    destruct (Z.ltb_spec (offset + Z.of_nat i) (cs_nblocks cs)); cbn [andb]; [|left; split; [done|left; lia]].
    destruct (is_locked _); [right; split; [done|]; by eexists|left; auto]. }
  match goal with |- context [for_range 0 ?n ?st cs] => set (cs1 := for_range 0 n st cs) in * end.
  assert (Hb' : ∀ j, (0 <= j)%Z → blk_at cs1 j = blk_at cs0 j).
  { intros j Hj. rewrite Hb by done. rewrite Hlen, Z2Nat.id by done.
    assert (entry_of cs offset count j = entry_of cs0 offset count j) as ->
      by (unfold entry_of; by rewrite (di_nblocks _ _ Hd)).
    rewrite Hat by done. destruct (entry_of _ _ _ j) eqn:E; [|done]. apply entry_of_iff in E as [[? ?] _].
    replace (offset + Z.of_nat (Z.to_nat (j - offset)))%Z with j by lia. unfold unlocked. by destruct (is_locked _). }
  split; [|split; [|exact Hb']].
  - transitivity cs; [done|]. transitivity cs1; [by apply shape_dims|by split].
  - apply dirty_good, (shape_good cs); [done|done|]. intros j Hj. rewrite Hb' by done.
    rewrite (di_high _ _ Hd). by apply good_block.
Qed.

(** ** Releasing an escrow *)

Lemma release_range_spec cs offset count saved cs' :
  store_good cs → (0 <= offset)%Z → (0 <= count)%Z → (offset + count <= 2 ^ 64)%Z →
  (offset + count <= cs_nblocks cs)%Z → release_range cs offset count = (saved, cs') →
  shape cs cs' ∧ store_good cs' ∧ length saved = Z.to_nat count ∧ saves cs offset saved ∧
  ((0 < count)%Z → cs_dirty cs' = true) ∧
  ∀ j, (0 <= j)%Z → blk_at cs' j =
    if entry_of cs offset count j then chunk_lock_clear (blk_at cs j) else blk_at cs j.
Proof.
  intros Hg H0 Hc H1 Hn E. unfold release_range in E. pose proof (inv_ok _ (good_inv _ Hg)) as Hok.
  set (step (i : nat) (c : chunk_store) := set_blocks c (wr (cs_blocks c) (Z.to_nat (u64w (offset + Z.of_nat i)))
    (chunk_lock_clear (blk_at c (u64w (offset + Z.of_nat i))))) true).
  assert (Hstep : ∀ n, (n <= Z.to_nat count)%nat →
    shape cs (for_range 0 n step cs) ∧ ∀ j, (0 <= j)%Z → blk_at (for_range 0 n step cs) j =
      if entry_of cs offset (Z.of_nat n) j then chunk_lock_clear (blk_at cs j) else blk_at cs j).
  { intros n Hle. apply (range_update cs offset n step (λ _, chunk_lock_clear) Hok H0).
    intros i c Hi Hsh Hself. cbv zeta. unfold step. rewrite wrap_small by (unfold in_width; lia).
    right. split; [lia|]. by eexists. }
  rewrite (for_range_ext 0 _ _ (λ i '(sv, c), (sv ++ [(false, blk_at c (u64w (offset + Z.of_nat i)))], step i c))) in E
    by (by intros i [sv c]).
  rewrite saving_loop in E. injection E as <- <-.
  destruct (Hstep (Z.to_nat count) ltac:(lia)) as [Hsh Hat]. rewrite Z2Nat.id in Hat by done.
  split; [done|]. split; [|split; [by rewrite length_map, length_seq|split; [|split; [|done]]]].
  - apply (shape_good cs); [done|done|]. intros j Hj. rewrite Hat by done.
    pose proof (good_block cs j Hg). case_if; [by apply clear_good|done].
  - intros i created b Hi. apply list_lookup_fmap_Some in Hi as (k & [= -> ->] & Hk).
    apply lookup_seq in Hk as [-> Hlt]. rewrite Nat.add_0_l in *.
    destruct (Hstep i ltac:(lia)) as [_ Hat']. rewrite wrap_small by (unfold in_width; lia).
    by rewrite Hat', entry_of_self by lia.
  - intros Hpos. destruct (Z.to_nat count) as [|n] eqn:En; [lia|]. by rewrite for_range_S.
Qed.

End ChunkRanges.
