(* ===== verification/ChunkLocks.v ===== *)
(** * Lock, unlock and escrow handlers

    What they do to a good server.  While a range is being escrowed the blocks name
    a range that the high-water mark has not reached yet, so the loops are followed
    on a server whose store is set aside. *)

From S2P Require Import Prelude.
From S2P Require Import Posix.
From S2P Require Import ChunkStore.
From S2P Require Import ChunkDisk.
From S2P Require Import ChunkCorrect.
From S2P Require Import ChunkSteps.
From S2P Require Import ChunkPersist.
From S2P Require Import ChunkReload.
From S2P Require Import Handler.
From S2P Require Import Nfs4.
From S2P Require Import ChunkOps.
From S2P Require Import ChunkLock.
From S2P Require Import TrustCorrect.
From S2P Require Import ChunkEdits.
From S2P Require Import ChunkRanges.
From S2P Require Import ChunkFrame.
From S2P Require Import ChunkIO.
Import Posix ChunkStore ChunkDisk ChunkCorrect ChunkSteps ChunkPersist ChunkReload Handler Nfs4
  ChunkOps ChunkLock TrustCorrect ChunkEdits ChunkRanges ChunkFrame ChunkIO.

Module ChunkLocks.

Section Locks.

Context {P : Type} (grants : elem → Z → bool) (callocs : site → bool) (l : site_of).
Hypothesis (Hsite : site_ok l).
Implicit Types (s : server P).

(** ** The store set aside *)

Definition hollow s : server P := set_inode (with_store (s_inode s) (Some fresh_store)) s.

(** Everything but the store is as it should be, and the store is [cs]. *)
Definition aside s0 s cs : Prop := stands l s0 (hollow s) ∧ mem s = Some cs.

Lemma aside_of s0 s cs : stands l s0 s → mem s = Some cs → aside s0 s cs.
Proof using.
  intros Hs Hm. split; [|done]. apply (stands_step l s0 s); try done.
  intros c [= <-]. apply fresh_good.
Qed.

Lemma aside_good s0 s cs : aside s0 s cs → store_good cs → stands l s0 s.
Proof using.
  intros [Hs Hm] Hg. apply (stands_step l s0 (hollow s)); try done; [|congruence]. intros c Hc. congruence.
Qed.

Lemma wp_the_store_aside (Q : fail + chunk_store → server P → Prop) s0 s cs :
  aside s0 s cs → Q (inr cs) s → wp the_store Q s.
Proof using. intros [_ Hm]. by apply wp_the_store. Qed.

Lemma wp_set_aside cs (Q : fail + () → server P → Prop) s0 s cs0 :
  aside s0 s cs0 → (∀ s', aside s0 s' cs → Q (inr tt) s') → wp (set_store cs) Q s.
Proof using. intros [Hs Hm] H. unfold set_store, on_inode. wp_step. by apply H. Qed.

Lemma wp_entry off (Q : fail + bool * chunk_block → server P → Prop) s0 s cs :
  aside s0 s cs → store_ok cs → (0 <= off)%Z →
  (∀ created b s' cs', aside s0 s' cs' → wider cs cs' → (off < cs_nblocks cs')%Z → b = blk_at cs off →
     (created = true → b = zero_block) → Q (inr (created, b)) s') →
  (∀ e s', aside s0 s' cs → Q (inl e) s') →
  wp (entry_at grants off) Q s.
Proof using.
  intros Ha Hok Hoff H Hf. unfold entry_at. wp_step. eapply wp_the_store_aside; [exact Ha|]. cbn [andthen].
  unfold chunk_store_lookup_any. destruct (Z.leb_spec (cs_nblocks cs) off) as [Hn|Hn].
  - destruct (chunk_store_write grants cs off zero_block) as [ret cs'] eqn:E.
    wp_step. eapply wp_set_aside; [exact Ha|]. intros s' Ha'. cbn [andthen].
    destruct (create_spec grants cs off ret cs' Hok Hoff Hn E) as [[Hr ->]|(-> & Hw & Hlt)].
    + apply Z.eqb_neq in Hr. rewrite Hr. gate ltac:(by apply Hf). done.
    + gate ltac:(done). wp_step. apply (H _ _ _ cs'); try done.
      * apply (wi_blocks _ _ Hw). done.
      * intros _. rewrite (wi_blocks _ _ Hw) by done. by apply blk_beyond.
  - wp_step. by apply (H _ _ _ cs).
Qed.

Lemma wp_put off b (Q : fail + () → server P → Prop) s0 s cs :
  aside s0 s cs →
  (∀ s', aside s0 s' (set_blocks cs (wr (cs_blocks cs) (Z.to_nat off) b) true) → Q (inr tt) s') →
  wp (put_block off b) Q s.
Proof using.
  intros Ha H. unfold put_block. wp_step. eapply wp_the_store_aside; [exact Ha|]. cbn [andthen].
  by eapply wp_set_aside.
Qed.

(** ** Persisting, with the test hook *)

Lemma wp_persist_fails c (Q : fail + bool → server P → Prop) s0 s cs :
  c_server_state c = l_ss l → stands l s0 s → mem s = Some cs →
  (∀ b cs' s', stands l s0 s' → mem s' = Some cs' → same_data cs cs' →
     (b = false → cs_dirty cs = true → stored (l_path l) (l_ino l) cs (now (s_sys s'))) →
     Q (inr b) s') →
  wp (persist_fails grants c) Q s.
Proof using Hsite.
  intros Hc Hs Hm H. unfold persist_fails, chunk_test_persist_failure.
  wp_step. eapply wp_budget; [exact Hs|]. intros b s1 Hs1 Hm1. cbn [andthen].
  destruct b; [wp_step; apply (H true cs s1); try done; congruence|].
  wp_step. eapply wp_persist; [done|done|exact Hs1|by rewrite Hm1|].
  intros ret cs' s2 Hs2 Hm2 Hsame Hst. cbn [andthen]. wp_step. apply (H _ cs'); try done.
  intros Hr. apply Hst. apply negb_false_iff in Hr. by apply Z.eqb_eq.
Qed.

Lemma covered_same_data f offset k cs cs1 cs2 :
  covered f offset k cs cs1 → same_data cs1 cs2 → store_ok cs2 → covered f offset k cs cs2.
Proof using.
  intros [] (Hb & Hn & Hh & _) Hok. split; [done|lia|lia|intros Hk; specialize (cv_end0 Hk); lia|].
  intros j Hj. unfold blk_at at 1. rewrite Hb. by apply cv_blocks0.
Qed.

(** A range that is being changed holds a good store when each new block is good. *)
Lemma covered_good f offset k cs cs' :
  store_good cs → covered f offset k cs cs' →
  (∀ j, in_range offset (Z.of_nat k) j → (0 <= j)%Z →
     block_good (cs_high_water cs') j (f (blk_at cs j))) → store_good cs'.
Proof using.
  intros Hg Hcv Hf. apply ok_good; [apply Hcv|]. intros j Hj.
  rewrite (cv_blocks _ _ _ _ _ Hcv j Hj). destruct (_ && _) eqn:E.
  - apply andb_true_iff in E as [H1%Z.leb_le H2%Z.ltb_lt]. by apply Hf.
  - eapply block_good_mono; [apply (cv_high _ _ _ _ _ Hcv)|]. by apply good_block.
Qed.

Lemma covered_alters (may : Z → chunk_block → chunk_block → Prop) f offset k cs cs' s s' :
  covered f offset k cs cs' → (∀ j, blk_at cs j = blk_at (view l s) j) → mem s' = Some cs' →
  (∀ j, in_range offset (Z.of_nat k) j → may j (blk_at cs j) (f (blk_at cs j))) → alters l may s s'.
Proof using.
  intros Hcv Hm Hm' Hmay. eapply alters_to; [exact Hm'|]. intros j Hj.
  rewrite <-(Hm j), (cv_blocks _ _ _ _ _ Hcv j Hj). destruct (_ && _) eqn:E; [|by left].
  apply andb_true_iff in E as [H1%Z.leb_le H2%Z.ltb_lt]. right. by apply Hmay.
Qed.

Lemma unmoved_same s s' cs cs' :
  (∀ j, blk_at cs j = blk_at (view l s) j) → mem s' = Some cs' →
  (∀ j, (0 <= j)%Z → blk_at cs' j = blk_at cs j) → unmoved l s s'.
Proof using.
  intros Hm Hm' Hb. eapply unmoved_to; [exact Hm'|]. intros j Hj. by rewrite Hb, (Hm j).
Qed.

(** The store that the request found has the blocks of the file. *)
Abbreviation found s cs := (calm l grants (s_sys s) s → ∀ j, blk_at cs j = blk_at (view l s) j).

(** Rebuilding the index leaves the blocks. *)
Lemma wp_refresh (Q : fail + () → server P → Prop) s0 s cs :
  stands l s0 s → mem s = Some cs →
  (∀ cs' s', stands l s0 s' → mem s' = Some cs' → same_data cs cs' →
     chunk_store_refresh_escrows grants cs = (0%Z, cs') → Q (inr tt) s') →
  (∀ e cs' s', stands l s0 s' → mem s' = Some cs' → same_data cs cs' → Q (inl e) s') →
  wp (refresh_index grants) Q s.
Proof using.
  intros Hs Hm H Hf. unfold refresh_index. wp_step. eapply wp_the_store; [exact Hm|]. cbn [andthen].
  pose proof (ok_mem _ _ (fol_ok _ _ _ (st_fol _ _ _ Hs)) _ Hm) as Hg.
  destruct (chunk_store_refresh_escrows grants cs) as [ret cs'] eqn:E.
  destruct (refresh_exact grants cs ret cs' (good_inv _ Hg) E) as (Hsame & _ & Hinv & _).
  wp_step. eapply wp_set_store; [exact Hs|by eapply good_data|]. intros s1 Hs1 Hm1. cbn [andthen].
  wp_step; [by eapply Hf|]. bool_prop. subst ret. by apply (H cs').
Qed.

(** ** CHUNK_LOCK *)

Definition lock_of c a (b : chunk_block) : chunk_block := default b (locked_block c a b).

(** A block of the range that the request may lock is locked. *)
Definition lock_taken c a (j : Z) (b b' : chunk_block) : Prop :=
  in_range (cla_offset a) (cla_count a) j ∧ lockable a b ∧ b' = lock_of c a b.

Lemma lock_scan_ok cs a i :
  store_ok cs → (0 <= cla_offset a)%Z → (cla_offset a + cla_count a <= 2 ^ 64)%Z →
  lock_scan cs a = inl tt → (i < Z.to_nat (cla_count a))%nat →
  lockable a (blk_at cs (cla_offset a + Z.of_nat i)).
Proof using.
  intros Hok H0 H1 Hs Hi. unfold lock_scan in Hs.
  match type of Hs with for_break 0 ?n ?f _ = _ => set (body := f) in Hs end.
  pose proof (for_break_ind (λ k (_ : unit), ∀ i, (i < k)%nat → lockable a (blk_at cs (cla_offset a + Z.of_nat i)))
    (λ _ : fail, True) 0 (Z.to_nat (cla_count a)) body tt) as H.
  rewrite Hs in H. apply H; [lia| |done]. clear H Hs.
  intros k [] Hk HI. unfold body. destruct (range_index _ _ k H0 H1 ltac:(lia)) as [-> _].
  assert (Hstep : lockable a (blk_at cs (cla_offset a + Z.of_nat k)) →
    ∀ i, (i < S k)%nat → lockable a (blk_at cs (cla_offset a + Z.of_nat i))).
  { intros Hl j Hj. destruct (decide (j = k)) as [->|]; [done|]. apply HI. lia. }
  unfold lockable in *. cbn [chunk_store_lookup_any].
  destruct (Z.leb_spec (cs_nblocks cs) (cla_offset a + Z.of_nat k)) as [Hb|Hb].
  - destruct (adopting a); [done|]. apply Hstep. by rewrite (blk_beyond cs _ Hok Hb).
  - destruct (adopting a).
    + destruct (chunk_escrow_matches _ _ _ _) eqn:E; cbn [negb]; [|done]. by apply Hstep.
    + destruct (is_locked _) eqn:El; cbn [negb]; [|by apply Hstep].
      destruct (_ || _) eqn:E; [done|]. bool_prop. by apply Hstep.
Qed.

(** The blocks of the range so far carry the lock, and what they were is saved. *)
Record locking c a (cs : chunk_store) s0 (k : nat) (saved : saved_blocks) s cs' : Prop := {
  lk_aside : aside s0 s cs';
  lk_covered : covered (lock_of c a) (cla_offset a) k cs cs';
  lk_length : length saved = k;
  lk_saves : saves cs (cla_offset a) saved;
}.

Lemma lock_loop c a cs (Q : fail + saved_blocks → server P → Prop) s0 s :
  lock_args_ok a → in_width 64 (client_id_of c) → chunk_lifecycle_check_range (cla_offset a) (cla_count a) = true →
  store_good cs → lock_scan cs a = inl tt → stands l s0 s → mem s = Some cs →
  let n := Z.to_nat (cla_count a) in
  (∀ saved s' cs', locking c a cs s0 n saved s' cs' → Q (inr saved) s') →
  (∀ e k saved s' cs', (k <= n)%nat → locking c a cs s0 k saved s' cs' → Q (inl e) s') →
  wp (mfor 0 n (λ i (saved : saved_blocks),
        let off := u64w (cla_offset a + Z.of_nat i) in
        '(created, blk) ← entry_at grants off;
        (match locked_block c a blk with Some blk => put_block off blk | None => mret tt end);;
        mret (saved ++ [(created, blk)])) []) Q s.
Proof using.
  intros Hargs Hcl Hr Hg Hscan Hs Hm n HQ Hf. pose proof (inv_ok _ (good_inv _ Hg)) as Hok.
  destruct (range_checked _ _ (la_offset _ Hargs) (la_count _ Hargs) Hr) as [Hcp Hrange].
  destruct (la_offset _ Hargs) as [H0 _].
  eapply (wp_mfor (λ k saved s', ∃ cs', locking c a cs s0 k saved s' cs')).
  - exists cs. split; [by apply aside_of|by apply covered_0|done|]. intros i cr b Hi. discriminate Hi.
  - intros k saved s1 Hk (cs1 & [Ha Hcv Hlen Hsv]). cbv zeta.
    destruct (range_index _ _ k H0 Hrange ltac:(lia)) as [-> Hin].
    wp_step. eapply wp_entry; [exact Ha|apply Hcv|lia| |].
    2: { intros e s2 Ha2. cbn [andthen]. apply (Hf e k saved s2 cs1); [lia|done]. }
    intros created b s2 cs2 Ha2 Hw Hlt Hb Hz. cbn [andthen].
    pose proof (covered_wider _ _ _ _ _ _ Hcv Hw) as Hcv2.
    rewrite (covered_next (lock_of c a) _ H0 _ _ _ Hcv) in Hb.
    assert (Hsv' : saves cs (cla_offset a) (saved ++ [(created, b)])) by (apply saves_snoc; [done|by rewrite Hlen|done]).
    assert (Hgood : block_good (cs_high_water cs2) (cla_offset a + Z.of_nat k) (lock_of c a b)).
    { apply locked_good; try done.
      - rewrite Hb. eapply lock_scan_ok; done || lia.
      - rewrite Hb. eapply block_good_mono; [apply (cv_high _ _ _ _ _ Hcv2)|by apply good_block]. }
    wp_step. destruct (locked_block c a b) as [b'|] eqn:El.
    + eapply wp_put; [exact Ha2|]. intros s3 Ha3. cbn [andthen]. wp_step. eexists. split; [exact Ha3| |by rewrite length_app, Hlen; cbn; lia|done].
      assert (b' = lock_of c a b) as -> by (unfold lock_of; by rewrite El).
      apply covered_put; try done; [by rewrite Hb|apply Hgood|apply Hgood].
    + wp_step. cbn [andthen]. wp_step. exists cs2. split; [done| |by rewrite length_app, Hlen; cbn; lia|done].
      apply covered_skip; try done. rewrite <-Hb. unfold lock_of. by rewrite El.
  - intros saved s1 (cs1 & Hl). by eapply HQ.
Qed.

(** Part of the range locked leaves a good store. *)
Lemma locking_good c a cs s0 k saved s cs' :
  lock_args_ok a → in_width 64 (client_id_of c) → chunk_lifecycle_check_range (cla_offset a) (cla_count a) = true →
  store_good cs → lock_scan cs a = inl tt → (k <= Z.to_nat (cla_count a))%nat →
  locking c a cs s0 k saved s cs' →
  store_good cs' ∧ ∀ j, in_range (cla_offset a) (Z.of_nat k) j →
    lock_taken c a j (blk_at cs j) (lock_of c a (blk_at cs j)).
Proof using.
  intros Hargs Hcl Hr Hg Hscan Hk [_ Hcv _ _].
  destruct (range_checked _ _ (la_offset _ Hargs) (la_count _ Hargs) Hr) as [Hcp Hrange].
  destruct (la_offset _ Hargs) as [H0 _].
  assert (Hj : ∀ j, in_range (cla_offset a) (Z.of_nat k) j →
    in_range (cla_offset a) (cla_count a) j ∧ lockable a (blk_at cs j)).
  { intros j Hj. destruct (range_nat _ _ _ Hj) as (i & Hi & ->).
    split; [unfold in_range in *; lia|]. apply lock_scan_ok; try done; [apply Hg|lia]. }
  split; [|by intros j (? & ?)%Hj].
  eapply covered_good; [exact Hg|exact Hcv|]. intros j Hin Hj0. destruct (Hj j Hin).
  apply locked_good; try done. eapply block_good_mono; [apply (cv_high _ _ _ _ _ Hcv)|by apply good_block].
Qed.

Definition lock_post c a s (r : fail + ()) s' : Prop :=
  let auth := authorized c (cla_stateid a) (co_client_id (cla_owner a)) true (s_trust s) in
  stands l s s' ∧ (unmoved l s s' ∨ auth) ∧
  (calm l grants (s_sys s) s → alters l (lock_taken c a) s s') ∧
  match r with
  | inl _ => True
  | inr _ => auth ∧ ∃ cs cs', store_good cs ∧ found s cs ∧
      mem s' = Some cs' ∧ lock_scan cs a = inl tt ∧
      covered (lock_of c a) (cla_offset a) (Z.to_nat (cla_count a)) cs cs'
  end.

(** The end of CHUNK_LOCK: persist, or put the blocks back. *)
Lemma lock_persist c a cs saved cs1 s s1 :
  lock_args_ok a → c_server_state c = l_ss l → in_width 64 (client_id_of c) →
  chunk_lifecycle_check_range (cla_offset a) (cla_count a) = true →
  authorized c (cla_stateid a) (co_client_id (cla_owner a)) true (s_trust s) →
  store_good cs → lock_scan cs a = inl tt → found s cs →
  locking c a cs s (Z.to_nat (cla_count a)) saved s1 cs1 →
  wp (failed ← persist_fails grants c;
      if (failed : bool) then
        cs ← the_store;
        set_store (restore_blocks cs (cla_offset a) saved);;
        throw (Status NFS4ERR_SERVERFAULT)
      else mret tt) (lock_post c a s) s1.
Proof using Hsite.
  intros Hargs Hc Hcl Hr Hauth Hg Hscan Hmem Hl.
  destruct (locking_good _ _ _ _ _ _ _ _ Hargs Hcl Hr Hg Hscan (Nat.le_refl _) Hl) as [Hg1 Htake].
  destruct (range_checked _ _ (la_offset _ Hargs) (la_count _ Hargs) Hr) as [Hcp Hrange].
  destruct (la_offset _ Hargs) as [H0 _]. destruct Hl as [Ha Hcv Hlen Hsv].
  pose proof (aside_good _ _ _ Ha Hg1) as Hs1. destruct Ha as [_ Hm1].
  wp_step. eapply wp_persist_fails; [done|exact Hs1|exact Hm1|]. intros b cs2 s2 Hs2 Hm2 Hsame _. cbn [andthen].
  pose proof (ok_mem _ _ (fol_ok _ _ _ (st_fol _ _ _ Hs2)) _ Hm2) as Hg2.
  pose proof (covered_same_data _ _ _ _ _ _ Hcv Hsame (inv_ok _ (good_inv _ Hg2))) as Hcv2.
  destruct b.
  - wp_step. eapply wp_the_store; [exact Hm2|]. cbn [andthen]. rewrite <-Hlen in Hcv2.
    destruct (restore_covered _ _ _ _ _ Hg Hcv2 H0 ltac:(rewrite Hlen; lia) Hsv) as [Hg3 Hb3].
    wp_step. eapply wp_set_store; [exact Hs2|exact Hg3|]. intros s3 Hs3 Hm3. cbn [andthen]. wp_step.
    split; [done|]. split; [by right|]. split; [|done]. intros Hcalm.
    apply unmoved_alters. eapply unmoved_same; [by apply Hmem|exact Hm3|done].
  - wp_step. split; [done|]. split; [by right|]. split; [intros Hcalm; eapply covered_alters; try done; by apply Hmem|].
    split; [done|]. exists cs, cs2. done.
Qed.

Lemma lock_refuses c a s e s' :
  authorized c (cla_stateid a) (co_client_id (cla_owner a)) true (s_trust s) →
  stands l s s' → (calm l grants (s_sys s) s → unmoved l s s') → lock_post c a s (inl e) s'.
Proof using.
  intros Ha H1 H2. split; [done|]. split; [by right|]. split; [|done]. intros Hcalm. by apply unmoved_alters, H2.
Qed.

Lemma lock_range_spec c a cs s s3 :
  c_server_state c = l_ss l → lock_args_ok a → in_width 64 (client_id_of c) →
  chunk_lifecycle_check_range (cla_offset a) (cla_count a) = true →
  authorized c (cla_stateid a) (co_client_id (cla_owner a)) true (s_trust s) →
  found s cs → stands l s s3 → mem s3 = Some cs →
  wp (lock_range grants c a) (lock_post c a s) s3.
Proof using Hsite.
  intros Hc Hargs Hcl Hr Hauth Hmem Hs3 Hm3.
  assert (Hum : calm l grants (s_sys s) s → unmoved l s s3)
    by (intros Hcalm; eapply unmoved_same; [by apply Hmem|exact Hm3|done]).
  unfold lock_range. wp_step. eapply wp_the_store; [exact Hm3|]. cbn [andthen].
  pose proof (ok_mem _ _ (fol_ok _ _ _ (st_fol _ _ _ Hs3)) _ Hm3) as Hg.
  gate ltac:(by apply lock_refuses).
  destruct (lock_scan cs a) as [[]|e] eqn:Escan; [|wp_step; by apply lock_refuses].
  wp_step. eapply (lock_loop c a cs _ s s3); try done.
  - intros saved s4 cs4 Hl. cbn [andthen]. by eapply lock_persist.
  - intros e k saved s4 cs4 Hk Hl. cbn [andthen].
    destruct (locking_good _ _ _ _ _ _ _ _ Hargs Hcl Hr Hg Escan Hk Hl) as [Hg4 Htake].
    destruct Hl as [Ha Hcv _ _]. split; [by eapply aside_good|]. split; [by right|]. split; [|done].
    intros Hcalm. eapply covered_alters; [exact Hcv|by apply Hmem|apply Ha|done].
Qed.

Lemma lock_op_spec c a s :
  c_server_state c = l_ss l → lock_args_ok a → in_width 64 (client_id_of c) → server_ok l s →
  wp (nfs4_op_chunk_lock grants callocs c a) (lock_post c a s) s.
Proof using Hsite.
  intros Hc Hargs Hcl Hok. pose proof (stands_refl l s Hok) as Hs.
  assert (Hf0 : ∀ e s', refused l s s' → lock_post c a s (inl e) s').
  { intros e s' [Hst Hum]. split; [done|]. split; [by left|]. split; [by intros _; apply unmoved_alters|done]. }
  unfold nfs4_op_chunk_lock. wp_step. wp_step. cbn [andthen]. do 8 gate ltac:(refuse Hf0).
  match goal with H : negb (chunk_lifecycle_check_range _ _) = false |- _ => apply negb_false_iff in H; rename H into Hr end.
  wp_step. eapply wp_trusted_sys; [exact Hs| |refuse Hf0]. intros s1 Hs1 Hm1 Hy1 Hauth. cbn [andthen].
  gate ltac:(refuse Hf0). pose proof (λ e s', lock_refuses c a s e s' Hauth) as Hf.
  wp_step. eapply wp_attach; [done|done|exact Hs1|]. intros s2 Hs2 Hm2 Hv2. cbn [andthen].
  pose proof (λ ca, attached grants l s s1 s2 ca Hm1 Hy1 Hv2) as Hatt.
  pose proof (unmoved_lost l s s1 s2 Hs2 Hm1 Hm2) as Hlost.
  destruct (mem s2) as [ca|] eqn:Eca; cbn [is_some negb];
    [gate ltac:(done)|gate ltac:(apply Hf; [done|by intros _; apply Hlost]); done].
  assert (Hmem : ∀ cs, same_data ca cs → found s cs).
  { intros cs (Hb & _) Hcalm j. unfold blk_at. by rewrite Hb, (Hatt ca eq_refl Hcalm). }
  assert (Hum : ∀ cs s', same_data ca cs → mem s' = Some cs → calm l grants (s_sys s) s → unmoved l s s').
  { intros cs s' Hsame Hm Hcalm. eapply unmoved_same; [by apply Hmem|exact Hm|done]. }
  wp_step. wp_step; cbn [andthen]; [|by apply (lock_range_spec c a ca); try done; apply Hmem].
  eapply wp_refresh; [exact Hs2|exact Eca| |].
  - intros cs s3 Hs3 Hm3 Hsame _. cbn [andthen]. by apply (lock_range_spec c a cs); try done; apply Hmem.
  - intros e cs s3 Hs3 Hm3 Hsame. cbn [andthen]. apply Hf; [done|by eapply Hum].
Qed.

(** ** CHUNK_UNLOCK *)

Record unlock_args_ok (a : CHUNK_UNLOCK4args) : Prop := {
  ua_offset : in_width 64 (cua_offset a);
  ua_count : in_width 32 (cua_count a);
}.

(** A lock of the owner on exactly the range is cleared. *)
Definition lock_dropped (a : CHUNK_UNLOCK4args) (j : Z) (b b' : chunk_block) : Prop :=
  in_range (cua_offset a) (cua_count a) j ∧ is_locked b = true ∧
  chunk_lock_owner_equal b (cua_owner a) = true ∧
  chunk_lock_range_equal b (cua_offset a) (cua_count a) = true ∧ b' = chunk_lock_clear b.

Lemma unlock_conflict_none cs a j :
  (0 <= cua_offset a)%Z → (cua_offset a + cua_count a <= 2 ^ 64)%Z → unlock_conflict cs a = false →
  in_range (cua_offset a) (cua_count a) j → (j < cs_nblocks cs)%Z → is_locked (blk_at cs j) = true →
  lock_dropped a j (blk_at cs j) (chunk_lock_clear (blk_at cs j)).
Proof using.
  intros H0 H1 Hc Hin Hn Hl. destruct (range_nat _ _ _ Hin) as (i & Hi & Hj).
  destruct (range_index _ _ i H0 H1 Hi) as [Hu _].
  assert (Hnot : negb (chunk_lock_owner_equal (blk_at cs j) (cua_owner a))
    || negb (chunk_lock_range_equal (blk_at cs j) (cua_offset a) (cua_count a)) = false).
  { apply not_true_iff_false. intros Hx. apply not_true_iff_false in Hc. apply Hc, existsb_exists.
    exists i. split; [apply in_seq; lia|]. rewrite Hu, <-Hj. cbn [chunk_store_lookup_any].
    destruct (Z.leb_spec (cs_nblocks cs) j); [lia|]. by rewrite Hl, Hx. }
  apply orb_false_iff in Hnot as [?%negb_false_iff ?%negb_false_iff]. done.
Qed.

Definition unlock_post c a s (r : fail + ()) s' : Prop :=
  stands l s s' ∧
  match r with
  | inl _ => unmoved l s s'
  | inr _ =>
      authorized c (cua_stateid a) (co_client_id (cua_owner a)) true (s_trust s) ∧
      alters l (lock_dropped a) s s' ∧
      ∀ cs j, mem s = Some cs → in_range (cua_offset a) (cua_count a) j → (j < cs_nblocks cs)%Z →
        ∃ cs', mem s' = Some cs' ∧ is_locked (blk_at cs' j) = false
  end.

Lemma clear_not_locked b : is_locked (chunk_lock_clear b) = false.
Proof using.
  unfold is_locked, chunk_lock_clear. cbn [set_lock cb_flags]. case_if; [by apply (has_flag_ldiff _ 0)|].
  rewrite (has_flag_ldiff_other _ 3 0) by done. by apply (has_flag_ldiff _ 0).
Qed.

Lemma unlock_op_spec c a s :
  c_server_state c = l_ss l → unlock_args_ok a → server_ok l s →
  wp (nfs4_op_chunk_unlock grants callocs c a) (unlock_post c a s) s.
Proof using Hsite.
  intros Hc [Hoff Hcnt] Hok. pose proof (stands_refl l s Hok) as Hs.
  assert (Hf : ∀ e s', refused l s s' → unlock_post c a s (inl e) s') by (intros e s' [Hst Hum]; done).
  unfold nfs4_op_chunk_unlock. wp_step. wp_step. cbn [andthen]. do 5 gate ltac:(refuse Hf). bool_prop.
  destruct (range_checked _ _ Hoff Hcnt) as [Hcp Hrange]; [done|]. destruct Hoff as [Hlo _].
  wp_step. eapply wp_trusted; [exact Hs| |refuse Hf]. intros s1 Hs1 Hm1 Hauth. cbn [andthen].
  unfold get_store. wp_step. wp_step. cbn [andthen]. fold (mem s1).
  destruct (mem s1) as [cs|] eqn:Ecs.
  2: { wp_step. split; [done|]. split; [done|]. split; [|congruence]. apply unmoved_alters, unmoved_kept; [done|congruence]. }
  gate ltac:(apply Hf, refused_mem; congruence). gate ltac:(apply Hf, refused_mem; congruence).
  pose proof (ok_mem _ _ (fol_ok _ _ _ (st_fol _ _ _ Hs1)) _ Ecs) as Hg.
  destruct (unlock_range cs (cua_offset a) (cua_count a)) as [saved cs1] eqn:Eu.
  destruct (unlock_range_spec cs (cua_offset a) (cua_count a) saved cs1 (inv_ok _ (good_inv _ Hg)) Hlo ltac:(lia) Hrange Eu)
    as (Hsh & Hlen & Hat & Hsv).
  wp_step. eapply wp_set_store; [exact Hs1|by eapply unlock_good|]. intros s2 Hs2 Hm2. cbn [andthen].
  wp_step. eapply wp_persist; [done|done|exact Hs2|exact Hm2|]. intros ret cs3 s3 Hs3 Hm3 Hsame _. cbn [andthen].
  pose proof (ok_mem _ _ (fol_ok _ _ _ (st_fol _ _ _ Hs3)) _ Hm3) as Hg3.
  assert (Hat3 : ∀ j, (0 <= j)%Z → blk_at cs3 j =
    if entry_of cs (cua_offset a) (cua_count a) j then unlocked (blk_at cs j) else blk_at cs j).
  { intros j Hj. rewrite <-Hat by done. unfold blk_at. by destruct Hsame as [-> _]. }
  assert (Hmem : ∀ c0, mem s = Some c0 → c0 = cs) by (intros c0 Hc0; congruence).
  destruct (Z.eqb_spec ret 0) as [->|Hret]; cbn [negb].
  - wp_step. split; [done|]. split; [done|]. split.
    + eapply alters_to; [exact Hm3|]. rewrite (view_mem l s cs) by congruence. intros j Hj. rewrite Hat3 by done.
      destruct (entry_of _ _ _ j) eqn:E; [|by left]. apply entry_of_iff in E as [Hin Hn].
      unfold unlocked. destruct (is_locked (blk_at cs j)) eqn:El; [|by left]. right. apply unlock_conflict_none; done || lia.
    + intros c0 j ->%Hmem Hin Hn. exists cs3. split; [done|]. unfold in_range in Hin. rewrite Hat3 by lia.
      assert (entry_of cs (cua_offset a) (cua_count a) j = true) as -> by (apply entry_of_iff; unfold in_range; lia).
      unfold unlocked. destruct (is_locked (blk_at cs j)) eqn:El; [apply clear_not_locked|done].
  - assert (Hd : dims cs cs3) by (transitivity cs1; [by apply shape_dims|by apply same_data_dims]).
    destruct (restore_locks_spec cs cs3 (cua_offset a) (cua_count a) saved Hg Hg3 Hd Hlo ltac:(lia) Hrange Hlen Hsv Hat3) as (_ & Hg4 & Hb4).
    wp_step. eapply wp_the_store; [exact Hm3|]. cbn [andthen].
    wp_step. eapply wp_set_store; [exact Hs3|exact Hg4|]. intros s4 Hs4 Hm4. cbn [andthen]. wp_step.
    split; [done|]. eapply unmoved_to; [exact Hm4|]. by rewrite (view_mem l s cs) by congruence.
Qed.

End Locks.

End ChunkLocks.
