(* ===== verification/ChunkEscrows.v ===== *)
(** * The metadata server's escrow handlers

    What ESCROW_INSTALL, ESCROW_RELEASE and ESCROW_ENUMERATE do to a good server. *)

From S2P Require Import Prelude.
From S2P Require Import Words.
From S2P Require Import Posix.
From S2P Require Import ChunkStore.
From S2P Require Import ChunkDisk.
From S2P Require Import ChunkCorrect.
From S2P Require Import ChunkSteps.
From S2P Require Import ChunkPersist.
From S2P Require Import ChunkReload.
From S2P Require Import Handler.
From S2P Require Import Nfs4.
From S2P Require Import ChunkOps.
From S2P Require Import ChunkLock.
From S2P Require Import ChunkEdits.
From S2P Require Import ChunkRanges.
From S2P Require Import ChunkFrame.
From S2P Require Import ChunkIO.
From S2P Require Import ChunkLocks.
From stdpp Require Import gmap strings.
Import Words Posix ChunkStore ChunkDisk ChunkCorrect ChunkSteps ChunkPersist ChunkReload Handler Nfs4
  ChunkOps ChunkLock ChunkEdits ChunkRanges ChunkFrame ChunkIO ChunkLocks.

Module ChunkEscrows.

Section Escrows.

Context {P : Type} (grants : elem → Z → bool) (callocs : site → bool) (l : site_of).
Hypothesis (Hsite : site_ok l).
Implicit Types (s : server P).

Lemma stored_same cs1 cs2 fs :
  stored (l_path l) (l_ino l) cs1 fs → same_data cs1 cs2 → stored (l_path l) (l_ino l) cs2 fs.
Proof using.
  intros (f & cs3 & ? & ? & ? & ? & Hs3) Hs. exists f, cs3. split_and!; try done.
  unfold same_data in *. intuition congruence.
Qed.

(** ** Who may call *)

(** The epoch record on disk is the one that the request names, and has not expired. *)
Definition epoch_in_force (c : compound) (requested : Z) (fs : files) : Prop :=
  ∃ path f, chunk_mds_epoch_path 512 (ss_state_dir (c_server_state c)) = inr path ∧ fs !! path = Some f ∧
    let d := epoch_of (take EPOCH_SIZE (f_bytes f)) in
    (EPOCH_SIZE <= length (f_bytes f))%nat ∧
    ep_magic d = CHUNK_MDS_EPOCH_MAGIC ∧ ep_version d = CHUNK_MDS_EPOCH_VERSION ∧
    epoch (ep_value d) = requested ∧ (expires_at_ns (ep_value d) ≠ 0)%Z ∧
    (c_now c < expires_at_ns (ep_value d))%Z.

(** The caller is a metadata server in its epoch. *)
Definition controls (c : compound) (requested : Z) s : Prop :=
  chunk_mds_control_session c = true ∧ epoch_in_force c requested (now (s_sys s)).

Lemma read_bytes n fd y buf fd' y' :
  sys_read n fd y = (Z.of_nat n, buf, fd', y') → buf = take n fd ∧ (n <= length fd)%nat.
Proof using.
  unfold sys_read. destruct (next_outcome y) as [[|e|k] y0]; intros H; injection H as Hk Hb _ _; [|lia|];
    rewrite length_take in Hk; rewrite <-Hb; split; try lia; f_equal; lia.
Qed.

Lemma epoch_load_spec dir y r y' :
  chunk_mds_epoch_load dir y = (r, y') →
  unchanged y y' ∧
  ∀ e, r = inr e → ∃ path f, chunk_mds_epoch_path 512 dir = inr path ∧ now y !! path = Some f ∧
    let d := epoch_of (take EPOCH_SIZE (f_bytes f)) in
    (EPOCH_SIZE <= length (f_bytes f))%nat ∧
    ep_magic d = CHUNK_MDS_EPOCH_MAGIC ∧ ep_version d = CHUNK_MDS_EPOCH_VERSION ∧ ep_value d = e.
Proof using.
  unfold chunk_mds_epoch_load. destruct (chunk_mds_epoch_path 512 dir) as [?|path] eqn:Ep; [by intros [= <- <-]|].
  destruct (sys_open path y) as [[e|fd] y1] eqn:Eo; destruct (open_spec _ _ _ _ Eo) as [Hu1 Hfd];
    [by intros [= <- <-]|]. destruct (Hfd fd eq_refl) as (f & Hf & ->).
  destruct (sys_read EPOCH_SIZE (f_bytes f) y1) as [[[n buf] fd'] y2] eqn:Er.
  pose proof (read_unchanged _ _ _ _ _ _ _ Er) as Hu2. pose proof (close_unchanged y2) as Hu3.
  assert (Hu : unchanged y (snd (sys_close y2))) by (by do 2 eapply unchanged_trans).
  destruct (_ || _) eqn:E; intros [= <- <-]; [done|]. split; [done|]. intros e [= <-]. bool_prop.
  destruct (read_bytes EPOCH_SIZE (f_bytes f) y1 buf fd' y2) as [-> Hlen]; [congruence|].
  exists path, f. done.
Qed.

Lemma wp_prologue c (Q : fail + () → server P → Prop) s :
  (chunk_mds_control_session c = true → Q (inr tt) s) → (∀ e, Q (inl e) s) → wp (mds_prologue c) Q s.
Proof using.
  intros H Hf. unfold mds_prologue. wp_step. wp_step. cbn [andthen]. do 3 gate ltac:(apply Hf).
  wp_step; [apply Hf|]. bool_prop. by apply H.
Qed.

(** The file system after the epoch record is read, and a store loaded from it that is
    what the disk holds. *)
Definition epoch_read c s : sys :=
  snd (chunk_mds_epoch_load (ss_state_dir (c_server_state c)) (s_sys s)).

Abbreviation calm_then c s := (calm l grants (epoch_read c s) s).

Lemma wp_epoch c requested (Q : fail + () → server P → Prop) s :
  server_ok l s →
  (∀ s', stands l s s' → mem s' = mem s → s_sys s' = epoch_read c s ∧ unchanged (s_sys s) (s_sys s') →
     epoch_in_force c requested (now (s_sys s)) → Q (inr tt) s') →
  (∀ e s', stands l s s' → mem s' = mem s → Q (inl (Status e)) s') →
  wp (chunk_mds_epoch_check c requested) Q s.
Proof using.
  intros Hok H Hf. unfold wp, chunk_mds_epoch_check.
  unfold epoch_read in H. destruct (chunk_mds_epoch_load _ (s_sys s)) as [r y] eqn:E.
  destruct (epoch_load_spec _ _ _ _ E) as [Hu Hr].
  assert (Hs : stands l s (set_sys y s)).
  { apply (stands_step l s s); try done; [by apply stands_refl|apply Hok]. }
  destruct r as [e|e]; cbn; [by apply Hf|]. destruct (_ || _) eqn:Eb; cbn; [by apply Hf|]. apply H; [done|done|done|].
  destruct (Hr e eq_refl) as (path & f & H1 & H2 & H3 & H4 & H5 & H6). exists path, f. cbv zeta. rewrite H6.
  apply orb_false_iff in Eb as [[H7%negb_false_iff%Z.eqb_eq H8%Z.eqb_neq]%orb_false_iff H9%Z.leb_gt]. done.
Qed.

Lemma wp_on_fail {A} (m : H (P := P) A) (cleanup : H (P := P) ()) (Q : fail + A → server P → Prop) s :
  wp m (λ r s', match r with
                | inl e => wp cleanup (λ _, Q (inl e)) s'
                | inr a => Q (inr a) s'
                end) s → wp (on_fail m cleanup) Q s.
Proof using. unfold wp, on_fail. by destruct (m s) as [[e|a] s']. Qed.

(** ** ESCROW_INSTALL *)

Definition escrow_of (a : CHUNK_ESCROW_INSTALL4args) (b : chunk_block) : chunk_block :=
  if chunk_escrow_matches (Some b) (ceia_offset a) (ceia_count a) (ceia_escrow_id a) then b
  else escrowed_block a b.

(** A block that nobody has locked goes into escrow. *)
Definition escrow_taken a (j : Z) (b b' : chunk_block) : Prop :=
  in_range (ceia_offset a) (ceia_count a) j ∧ is_locked b = false ∧ b' = escrowed_block a b.

Record installing a (cs : chunk_store) s0 (k : nat) (saved : saved_blocks) s cs' : Prop := {
  in_aside : aside l s0 s cs';
  in_covered : covered (escrow_of a) (ceia_offset a) k cs cs';
  in_high : (0 < k)%nat → (ceia_offset a + Z.of_nat k <= cs_high_water cs')%Z ∧ cs_dirty cs' = true;
  in_length : length saved = k;
  in_saves : saves cs (ceia_offset a) saved;
}.

(** What was done so far is undone. *)
Lemma wp_restore a f cs saved cs' (Q : fail + () → server P → Prop) s0 s :
  store_good cs → (0 <= ceia_offset a)%Z → (ceia_offset a + Z.of_nat (length saved) <= 2 ^ 64)%Z →
  aside l s0 s cs' → covered f (ceia_offset a) (length saved) cs cs' → saves cs (ceia_offset a) saved →
  (∀ s' cs2, stands l s0 s' → mem s' = Some cs2 → (∀ j, (0 <= j)%Z → blk_at cs2 j = blk_at cs j) →
     Q (inr tt) s') →
  wp (chunk_escrow_restore_install (ceia_offset a) saved) Q s.
Proof using.
  intros Hg H0 H1 Ha Hcv Hsv H. unfold chunk_escrow_restore_install.
  wp_step. eapply wp_the_store_aside; [exact Ha|]. cbn [andthen].
  destruct (restore_covered _ _ _ _ _ Hg Hcv H0 H1 Hsv) as [Hg' Hb'].
  eapply wp_set_aside; [exact Ha|]. intros s' Ha'. eapply H; [by eapply aside_good|apply Ha'|done].
Qed.

(** One block of the range. *)
Lemma install_one_spec a cs (Q : fail + saved_blocks → server P → Prop) s0 k saved s cs1 :
  install_args_ok a → store_good cs → (ceia_offset a + ceia_count a <= 2 ^ 64)%Z →
  (k < Z.to_nat (ceia_count a))%nat → installing a cs s0 k saved s cs1 →
  (∀ saved' s' cs', installing a cs s0 (S k) saved' s' cs' → Q (inr saved') s') →
  (∀ e s' cs', stands l s0 s' → mem s' = Some cs' → (∀ j, (0 <= j)%Z → blk_at cs' j = blk_at cs j) →
     Q (inl e) s') →
  wp (install_one grants a k saved) Q s.
Proof using.
  intros Hargs Hg Hrange Hk [Ha Hcv Hhigh Hlen Hsv] HQ Hf. destruct (ia_offset _ Hargs) as [H0 _].
  destruct (range_index _ _ k H0 Hrange Hk) as [Hu Hin].
  unfold install_one. rewrite Hu. wp_step. apply wp_on_fail.
  eapply wp_entry; [exact Ha|apply Hcv|lia| |].
  2: { intros e s2 Ha2. eapply wp_restore; try done; [lia|by rewrite Hlen|]. intros; cbn [andthen]; by eapply Hf. }
  intros created b s2 cs2 Ha2 Hw Hlt Hb Hz. cbn [andthen].
  pose proof (covered_wider _ _ _ _ _ _ Hcv Hw) as Hcv2.
  rewrite (covered_next (escrow_of a) _ H0 _ _ _ Hcv) in Hb.
  wp_step. apply wp_on_fail. wp_step. eapply wp_the_store_aside; [exact Ha2|]. cbn [andthen].
  destruct (chunk_store_touch grants cs2 (ceia_offset a + Z.of_nat k)) as [ret cs3] eqn:Et.
  wp_step. eapply wp_set_aside; [exact Ha2|]. intros s3 Ha3. cbn [andthen].
  destruct (touch_wider grants cs2 (ceia_offset a + Z.of_nat k) ret cs3 (wi_ok _ _ Hw) ltac:(lia) Et) as [[Hr ->]|(-> & Hw3 & Hh3 & Hd3)].
  { apply Z.eqb_neq in Hr. rewrite Hr. cbn [negb]. wp_step; [|done].
    eapply wp_restore; try done; [lia|by rewrite Hlen|]. intros; cbn [andthen]; by eapply Hf. }
  wp_step; [done|]. cbn [andthen]. pose proof (covered_wider _ _ _ _ _ _ Hcv2 Hw3) as Hcv3.
  assert (Hlt3 : (ceia_offset a + Z.of_nat k < cs_nblocks cs3)%Z) by (pose proof (wi_nblocks _ _ Hw3); lia).
  assert (Hsv' : saves cs (ceia_offset a) (saved ++ [(created, b)])) by (apply saves_snoc; [done|by rewrite Hlen|done]).
  assert (Hlen' : length (saved ++ [(created, b)]) = S k) by (rewrite length_app, Hlen; cbn; lia).
  wp_step. destruct (chunk_escrow_matches _ _ _ _) eqn:Em.
  - wp_step. cbn [andthen]. wp_step. apply (HQ _ _ cs3). split; try done; [|intros _; split; [lia|done]].
    apply covered_skip; try done. rewrite <-Hb. unfold escrow_of. by rewrite Em.
  - eapply wp_put; [exact Ha3|]. intros s4 Ha4. cbn [andthen]. wp_step. eapply HQ.
    split; [exact Ha4| |intros _; cbn; split; [lia|done]|done|done].
    assert (escrowed_block a b = escrow_of a b) as -> by (unfold escrow_of; by rewrite Em).
    apply covered_put; try done; [by rewrite Hb| |lia]. unfold escrow_of. rewrite Em.
    apply escrowed_ok; [done|]. rewrite Hb. by apply good_block.
Qed.

Lemma land_lor f m : Z.land (Z.lor f m) m = m.
Proof using.
  apply Z.bits_inj'. intros k Hk. rewrite Z.land_spec, Z.lor_spec. destruct (Z.testbit f k), (Z.testbit m k); done.
Qed.

Lemma escrowed_matches a b :
  chunk_escrow_matches (Some (escrowed_block a b)) (ceia_offset a) (ceia_count a) (ceia_escrow_id a) = true.
Proof using.
  unfold chunk_escrow_matches, escrowed_block, chunk_lock_range_equal. cbn [set_lock cb_flags cb_lock_client_id
    cb_lock_cohort_id cb_lock_owner_id cb_lock_offset cb_lock_count cb_lock_escrow_id].
  by rewrite land_lor, !Z.eqb_refl, bool_decide_true.
Qed.

Lemma install_conflict_none cs a j :
  store_ok cs → (0 <= ceia_offset a)%Z → (ceia_offset a + ceia_count a <= 2 ^ 64)%Z →
  install_conflict cs a = false → in_range (ceia_offset a) (ceia_count a) j →
  escrow_of a (blk_at cs j) = blk_at cs j ∨
  escrow_taken a j (blk_at cs j) (escrow_of a (blk_at cs j)).
Proof using.
  intros Hok H0 H1 Hc Hin. destruct (range_nat _ _ _ Hin) as (i & Hi & Hj).
  destruct (range_index _ _ i H0 H1 Hi) as [Hu _].
  unfold escrow_of. destruct (chunk_escrow_matches (Some (blk_at cs j)) _ _ _) eqn:Em; [by left|].
  right. split; [done|]. split; [|done].
  destruct (Z.le_gt_cases (cs_nblocks cs) j) as [Hb|Hb]; [by rewrite (blk_beyond cs j)|].
  apply not_true_iff_false. intros Hl. apply not_true_iff_false in Hc. apply Hc, existsb_exists.
  exists i. split; [apply in_seq; lia|]. cbv zeta. rewrite Hu, <-Hj. cbn [chunk_store_lookup_any].
  destruct (Z.leb_spec (cs_nblocks cs) j); [lia|]. by rewrite Hl, Em.
Qed.

Definition install_post c a s (r : fail + list byte) s' : Prop :=
  stands l s s' ∧
  match r with
  | inl _ => calm_then c s → unmoved l s s'
  | inr id =>
      id = ceia_escrow_id a ∧ controls c (ceia_mds_epoch a) s ∧
      (calm_then c s → alters l (escrow_taken a) s s') ∧
      ∃ cs', mem s' = Some cs' ∧ stored (l_path l) (l_ino l) cs' (now (s_sys s')) ∧
        ∀ j, in_range (ceia_offset a) (ceia_count a) j →
          chunk_escrow_matches (Some (blk_at cs' j)) (ceia_offset a) (ceia_count a) (ceia_escrow_id a) = true
  end.

(** The whole range is in escrow, in a good store. *)
Lemma installing_good a cs s0 saved s cs' :
  install_args_ok a → chunk_escrow_id_is_zero (ceia_escrow_id a) = false →
  chunk_lifecycle_check_range (ceia_offset a) (ceia_count a) = true → store_good cs →
  installing a cs s0 (Z.to_nat (ceia_count a)) saved s cs' → store_good cs'.
Proof using.
  intros Hargs Hz Hr Hg [_ Hcv Hhigh _ _].
  destruct (range_checked _ _ (ia_offset _ Hargs) (ia_count _ Hargs) Hr) as [Hcp Hrange].
  destruct Hhigh as [Hhigh _]; [lia|]. rewrite Z2Nat.id in Hhigh by lia.
  pose proof (ok_high _ (cv_ok _ _ _ _ _ Hcv)). pose proof (ok_nblocks _ (cv_ok _ _ _ _ _ Hcv)).
  unfold CHUNK_STORE_MAX_BLOCKS in *.
  eapply covered_good; [exact Hg|exact Hcv|]. intros j Hin Hj. rewrite Z2Nat.id in Hin by lia.
  assert (Hb : block_good (cs_high_water cs') j (blk_at cs j)).
  { eapply block_good_mono; [apply (cv_high _ _ _ _ _ Hcv)|by apply good_block]. }
  unfold escrow_of. case_if; [done|]. unfold in_range in Hin. apply escrowed_good; done || lia.
Qed.

(** The end of ESCROW_INSTALL. *)
Lemma install_persist c a cs saved cs1 s s1 :
  c_server_state c = l_ss l → install_args_ok a → chunk_escrow_id_is_zero (ceia_escrow_id a) = false →
  chunk_lifecycle_check_range (ceia_offset a) (ceia_count a) = true → controls c (ceia_mds_epoch a) s →
  store_good cs → install_conflict cs a = false → (calm_then c s → ∀ j, blk_at cs j = blk_at (view l s) j) →
  installing a cs s (Z.to_nat (ceia_count a)) saved s1 cs1 →
  wp (failed ← persist_fails grants c;
      if (failed : bool) then
        chunk_escrow_restore_install (ceia_offset a) saved;; throw (Status NFS4ERR_SERVERFAULT)
      else mret (ceia_escrow_id a)) (install_post c a s) s1.
Proof using Hsite.
  intros Hc Hargs Hz Hr Hctl Hg Hcf Hmem Hi. pose proof (installing_good _ _ _ _ _ _ Hargs Hz Hr Hg Hi) as Hg1.
  destruct (range_checked _ _ (ia_offset _ Hargs) (ia_count _ Hargs) Hr) as [Hcp Hrange].
  destruct (ia_offset _ Hargs) as [H0 _]. destruct Hi as [Ha Hcv Hhigh Hlen Hsv].
  destruct Hhigh as [_ Hdirty]; [lia|].
  pose proof (aside_good l _ _ _ Ha Hg1) as Hs1. destruct Ha as [_ Hm1].
  wp_step. eapply (wp_persist_fails grants l Hsite c _ s s1); [done|exact Hs1|exact Hm1|].
  intros b cs2 s2 Hs2 Hm2 Hsame Hst. cbn [andthen].
  pose proof (ok_mem _ _ (fol_ok _ _ _ (st_fol _ _ _ Hs2)) _ Hm2) as Hg2.
  pose proof (covered_same_data _ _ _ _ _ _ Hcv Hsame (inv_ok _ (good_inv _ Hg2))) as Hcv2.
  destruct b.
  - wp_step. eapply (wp_restore a (escrow_of a) cs saved cs2 _ s); try done; [rewrite Hlen; lia|by apply aside_of|by rewrite Hlen|].
    intros s3 cs3 Hs3 Hm3 Hb3. cbn [andthen]. wp_step. split; [done|].
    intros Hcalm. eapply unmoved_same; [by apply Hmem|exact Hm3|done].
  - wp_step. split; [done|]. split; [done|]. split; [done|]. split.
    + intros Hcalm. eapply alters_to; [exact Hm2|]. intros j Hj.
      rewrite (cv_blocks _ _ _ _ _ Hcv2 j Hj), <-(Hmem Hcalm j). destruct (_ && _) eqn:E; [|by left].
      apply andb_true_iff in E as [?%Z.leb_le ?%Z.ltb_lt]. apply install_conflict_none; try done; [apply Hg|].
      unfold in_range. lia.
    + exists cs2. split; [done|]. split.
      * by eapply stored_same; [apply Hst|].
      * intros j Hin. pose proof Hin as [??]. rewrite (cv_blocks _ _ _ _ _ Hcv2 j) by lia.
        destruct (Z.leb_spec (ceia_offset a) j), (Z.ltb_spec j (ceia_offset a + Z.of_nat (Z.to_nat (ceia_count a)))); try lia.
        cbn [andb]. unfold escrow_of. case_if; [done|]. apply escrowed_matches.
Qed.

Lemma install_op_spec c a s :
  c_server_state c = l_ss l → install_args_ok a → server_ok l s →
  wp (nfs4_op_chunk_escrow_install grants callocs c a) (install_post c a s) s.
Proof using Hsite.
  intros Hc Hargs Hok. pose proof (stands_refl l s Hok) as Hs.
  assert (Hf : ∀ e s', stands l s s' → (calm_then c s → unmoved l s s') → install_post c a s (inl e) s') by done.
  assert (Hf0 : ∀ e s', refused l s s' → install_post c a s (inl e) s') by (intros e s' [Hst Hum]; done).
  unfold nfs4_op_chunk_escrow_install. wp_step. apply wp_prologue; [|refuse Hf0]. intros Hmds. cbn [andthen].
  gate ltac:(refuse Hf0).
  match goal with H : _ || _ = false |- _ => apply orb_false_iff in H as [Hr%negb_false_iff Hz] end.
  destruct (range_checked _ _ (ia_offset _ Hargs) (ia_count _ Hargs) Hr) as [Hcp Hrange].
  wp_step. apply wp_epoch; [done| |refuse Hf0]. intros s1 Hs1 Hm1 [Hy1 Hu1] Hep. cbn [andthen]. gate ltac:(refuse Hf0).
  wp_step. eapply wp_attach; [done|done|exact Hs1|]. intros s2 Hs2 Hm2 Hv2. cbn [andthen].
  pose proof (λ ca, attached_view grants l s s1 s2 ca Hm1 Hu1 Hv2) as Hatt. rewrite Hy1 in Hatt.
  pose proof (unmoved_lost l s s1 s2 Hs2 Hm1 Hm2) as Hlost.
  destruct (mem s2) as [ca|] eqn:Eca; [|wp_step; apply Hf; [done|by intros _; apply Hlost]].
  assert (Hmem : calm_then c s → ∀ j, blk_at ca j = blk_at (view l s) j).
  { intros Hcalm j. by rewrite (Hatt ca eq_refl Hcalm). }
  pose proof (ok_mem _ _ (fol_ok _ _ _ (st_fol _ _ _ Hs2)) _ Eca) as Hg.
  gate ltac:(apply Hf; [done|]; intros Hcalm; eapply unmoved_same; [by apply Hmem|exact Eca|done]).
  wp_step. eapply (wp_mfor (λ k saved s', ∃ cs', installing a ca s k saved s' cs')).
  - exists ca. split; [by apply aside_of|apply covered_0; apply Hg|lia|done|]. intros i cr b Hi. discriminate Hi.
  - intros k saved s3 Hk (cs3 & Hi). eapply install_one_spec; try done; [lia|..].
    + intros saved' s' cs' Hi'. by exists cs'.
    + intros e s' cs' Hs' Hm' Hb'. cbn [andthen]. apply Hf; [done|].
      intros Hcalm. eapply unmoved_same; [by apply Hmem|exact Hm'|done].
  - intros saved s3 (cs3 & Hi). cbn [andthen]. by eapply install_persist.
Qed.

(** ** ESCROW_RELEASE *)

Record release_args_ok (a : CHUNK_ESCROW_RELEASE4args) : Prop := {
  ra_offset : in_width 64 (cera_offset a);
  ra_count : in_width 32 (cera_count a);
}.

(** A block of the escrow that the request names is let go. *)
Definition escrow_released (a : CHUNK_ESCROW_RELEASE4args) (j : Z) (b b' : chunk_block) : Prop :=
  in_range (cera_offset a) (cera_count a) j ∧
  chunk_escrow_matches (Some b) (cera_offset a) (cera_count a) (cera_escrow_id a) = true ∧
  b' = chunk_lock_clear b.

Definition release_post c a s (r : fail + ()) s' : Prop :=
  stands l s s' ∧
  match r with
  | inl _ => unmoved l s s'
  | inr _ =>
      controls c (cera_mds_epoch a) s ∧ alters l (escrow_released a) s s' ∧
      ∃ cs', mem s' = Some cs' ∧ stored (l_path l) (l_ino l) cs' (now (s_sys s')) ∧
        ∀ j, in_range (cera_offset a) (cera_count a) j → is_locked (blk_at cs' j) = false
  end.

Lemma release_matches cs a j :
  (0 <= cera_offset a)%Z → (cera_offset a + cera_count a <= 2 ^ 64)%Z →
  forallb (λ i, chunk_escrow_matches (chunk_store_lookup_any (Some cs) (u64w (cera_offset a + Z.of_nat i)))
            (cera_offset a) (cera_count a) (cera_escrow_id a)) (seq 0 (Z.to_nat (cera_count a))) = true →
  in_range (cera_offset a) (cera_count a) j →
  (j < cs_nblocks cs)%Z ∧ escrow_released a j (blk_at cs j) (chunk_lock_clear (blk_at cs j)).
Proof using.
  intros H0 H1 Hall Hin. destruct (range_nat _ _ _ Hin) as (i & Hi & Hj).
  rewrite forallb_forall in Hall. specialize (Hall i ltac:(apply in_seq; lia)). cbv beta in Hall.
  destruct (range_index _ _ i H0 H1 Hi) as [Hu _]. rewrite Hu, <-Hj in Hall. cbn [chunk_store_lookup_any] in Hall.
  destruct (Z.leb_spec (cs_nblocks cs) j); [done|]. done.
Qed.

(** The end of ESCROW_RELEASE, once the escrow has been found. *)
Lemma release_persist c a cs s s1 :
  c_server_state c = l_ss l → (0 <= cera_offset a)%Z → (0 < cera_count a)%Z →
  (cera_offset a + cera_count a <= 2 ^ 64)%Z → controls c (cera_mds_epoch a) s →
  (∀ j, blk_at cs j = blk_at (view l s) j) → stands l s s1 → mem s1 = Some cs →
  (∀ j, in_range (cera_offset a) (cera_count a) j →
     (j < cs_nblocks cs)%Z ∧ escrow_released a j (blk_at cs j) (chunk_lock_clear (blk_at cs j))) →
  wp (let '(saved, cs) := release_range cs (cera_offset a) (cera_count a) in
      set_store cs;;
      failed ← persist_fails grants c;
      if (failed : bool) then
        cs ← the_store;
        set_store (restore_blocks cs (cera_offset a) saved);;
        throw (Status NFS4ERR_SERVERFAULT)
      else mret tt) (release_post c a s) s1.
Proof using Hsite.
  intros Hc H0 Hpos Hrange Hctl Hmem Hs1 Hm1 Hall.
  pose proof (ok_mem _ _ (fol_ok _ _ _ (st_fol _ _ _ Hs1)) _ Hm1) as Hg.
  assert (Hn : (cera_offset a + cera_count a <= cs_nblocks cs)%Z).
  { destruct (Hall (cera_offset a + cera_count a - 1)%Z); [unfold in_range; lia|lia]. }
  destruct (release_range cs _ _) as [saved cs1] eqn:Er.
  destruct (release_range_spec cs _ _ saved cs1 Hg H0 (Z.lt_le_incl _ _ Hpos) Hrange Hn Er)
    as (Hsh & Hg1 & Hlen & Hsv & Hd & Hat). specialize (Hd Hpos).
  assert (Hent : ∀ j, in_range (cera_offset a) (cera_count a) j → entry_of cs (cera_offset a) (cera_count a) j = true).
  { intros j Hj. apply entry_of_iff. unfold in_range in *. lia. }
  assert (Hcv : covered chunk_lock_clear (cera_offset a) (length saved) cs cs1).
  { split; [apply Hg1|by rewrite (sh_high _ _ Hsh)|by rewrite (sh_nblocks _ _ Hsh)|rewrite (sh_nblocks _ _ Hsh); lia|].
    intros j Hj. rewrite Hat, Hlen, Z2Nat.id by lia. unfold entry_of. f_equal.
    destruct (Z.leb_spec (cera_offset a) j), (Z.ltb_spec j (cera_offset a + cera_count a)), (Z.ltb_spec j (cs_nblocks cs)); done || lia. }
  wp_step. eapply wp_set_store; [exact Hs1|done|]. intros s2 Hs2 Hm2. cbn [andthen].
  wp_step. eapply (wp_persist_fails grants l Hsite c _ s s2); [done|exact Hs2|exact Hm2|].
  intros b cs3 s3 Hs3 Hm3 Hsame Hst. cbn [andthen].
  pose proof (ok_mem _ _ (fol_ok _ _ _ (st_fol _ _ _ Hs3)) _ Hm3) as Hg3.
  pose proof (covered_same_data _ _ _ _ _ _ Hcv Hsame (inv_ok _ (good_inv _ Hg3))) as Hcv3.
  destruct b.
  - wp_step. eapply wp_the_store; [exact Hm3|]. cbn [andthen].
    destruct (restore_covered _ _ _ _ _ Hg Hcv3 H0 ltac:(rewrite Hlen; lia) Hsv) as [Hg4 Hb4].
    wp_step. eapply wp_set_store; [exact Hs3|exact Hg4|]. intros s4 Hs4 Hm4. cbn [andthen]. wp_step.
    split; [done|]. by eapply unmoved_same.
  - assert (Hb3 : ∀ j, blk_at cs3 j = blk_at cs1 j) by (intros j; unfold blk_at; by destruct Hsame as [-> _]).
    wp_step. split; [done|]. split; [done|]. split.
    + eapply covered_alters; [exact Hcv3|done|done|]. intros j Hj. rewrite Hlen, Z2Nat.id in Hj by lia. by apply Hall.
    + exists cs3. split; [done|]. split; [by eapply stored_same; [apply Hst|]|].
      intros j Hj. rewrite Hb3, Hat by (unfold in_range in Hj; lia). rewrite Hent by done. apply clear_not_locked.
Qed.

Lemma release_op_spec c a s :
  c_server_state c = l_ss l → release_args_ok a → server_ok l s →
  wp (nfs4_op_chunk_escrow_release grants callocs c a) (release_post c a s) s.
Proof using Hsite.
  intros Hc [Hoff Hcnt] Hok. pose proof (stands_refl l s Hok) as Hs.
  assert (Hf0 : ∀ e s', refused l s s' → release_post c a s (inl e) s') by (intros e s' [Hst Hum]; done).
  unfold nfs4_op_chunk_escrow_release. wp_step. apply wp_prologue; [|refuse Hf0]. intros Hmds. cbn [andthen].
  gate ltac:(refuse Hf0). bool_prop. destruct (range_checked _ _ Hoff Hcnt) as [Hcp Hrange]; [done|].
  wp_step. apply wp_epoch; [done| |refuse Hf0]. intros s1 Hs1 Hm1 [Hy1 Hu1] Hep. cbn [andthen].
  unfold get_store. wp_step. wp_step. cbn [andthen]. fold (mem s1).
  destruct (mem s1) as [ca|] eqn:Eca; cbn [is_some negb];
    [gate ltac:(done)|gate ltac:(apply Hf0, refused_mem; congruence); done].
  gate ltac:(apply Hf0, refused_mem; congruence).
  assert (Hmem : ∀ cs, same_data ca cs → ∀ j, blk_at cs j = blk_at (view l s) j).
  { intros cs (Hb & _) j. rewrite (view_mem l s ca) by congruence. unfold blk_at. by rewrite Hb. }
  assert (Hf : ∀ e cs s', same_data ca cs → mem s' = Some cs → stands l s s' → release_post c a s (inl e) s').
  { intros e cs s' Hsame Hm Hs'. split; [done|]. eapply unmoved_same; [by apply Hmem|exact Hm|done]. }
  wp_step. eapply wp_refresh; [exact Hs1|exact Eca| |].
  2: { intros e cs s2 Hs2 Hm2 Hsame. cbn [andthen]. by eapply Hf. }
  intros cs s2 Hs2 Hm2 Hsame _. cbn [andthen]. wp_step. eapply wp_the_store; [exact Hm2|]. cbn [andthen].
  do 2 gate ltac:(by eapply Hf).
  match goal with H : negb (forallb _ _) = false |- _ => apply negb_false_iff in H; rename H into Hall end.
  eapply release_persist; try done; [apply Hoff|lia|by apply Hmem|].
  intros j Hj. apply release_matches; try done. apply Hoff.
Qed.

(** ** ESCROW_ENUMERATE *)

(** A page of the index: what the handler answers once the index is rebuilt. *)
Definition page_of (c : compound) (a : CHUNK_ESCROW_ENUMERATE4args) (idx : list chunk_escrow_range)
    (res : CHUNK_ESCROW_ENUMERATE4resok) : Prop :=
  let cookie := ceea_cookie a in
  let verifier := enumerate_verifier (server_boot_seq (c_server_state c)) (ceea_offset a)
                    (ceea_count a) idx in
  let position := match cookie with [] => 0%nat | _ => Z.to_nat (le_combine (drop 8 cookie)) end in
  let scope_end := (ceea_offset a + ceea_count a)%Z in
  let rest := drop position idx in
  (position <= length idx)%nat ∧
  ∃ next, collect_page (ceea_offset a) scope_end rest position
            (count_page (ceea_offset a) scope_end (ceea_maxcount a) rest) = (ceer_entries res, next) ∧
    let more := existsb (in_scope (ceea_offset a) scope_end) (drop next idx) in
    ceer_eof res = negb more ∧
    ceer_cookie res = if more then le_split 8 verifier ++ le_split 8 (Z.of_nat next) else [].

Record enumerate_args_ok (a : CHUNK_ESCROW_ENUMERATE4args) : Prop := {
  na_offset : in_width 64 (ceea_offset a);
  na_count : in_width 32 (ceea_count a);
}.

Definition enumerate_post c a s (r : fail + CHUNK_ESCROW_ENUMERATE4resok) s' : Prop :=
  stands l s s' ∧ (calm_then c s → unmoved l s s') ∧
  match r with
  | inl _ => True
  | inr res =>
      controls c (ceea_mds_epoch a) s ∧
      (ceea_maxcount a ≠ 0%Z →
       ∃ cs cs', store_good cs ∧ (calm_then c s → cs = view l s) ∧ mem s' = Some cs' ∧
         chunk_store_refresh_escrows grants cs = (0%Z, cs') ∧ page_of c a (cs_escrows cs') res)
  end.

Lemma enumerate_op_spec c a s :
  c_server_state c = l_ss l → enumerate_args_ok a → server_ok l s →
  wp (nfs4_op_chunk_escrow_enumerate grants callocs c a) (enumerate_post c a s) s.
Proof using Hsite.
  intros Hc [Hoff Hcnt] Hok. pose proof (stands_refl l s Hok) as Hs.
  assert (Hf : ∀ e s', stands l s s' → (calm_then c s → unmoved l s s') → enumerate_post c a s (inl e) s') by done.
  assert (Hf0 : ∀ e s', refused l s s' → enumerate_post c a s (inl e) s') by (intros e s' [Hst Hum]; by apply Hf).
  unfold nfs4_op_chunk_escrow_enumerate. wp_step. apply wp_prologue; [|refuse Hf0]. intros Hmds. cbn [andthen].
  gate ltac:(refuse Hf0). bool_prop. destruct (range_checked _ _ Hoff Hcnt) as [Hcp Hrange]; [done|].
  wp_step. apply wp_epoch; [done| |refuse Hf0]. intros s1 Hs1 Hm1 [Hy1 Hu1] Hep. cbn [andthen].
  case_if. { wp_step. split; [done|]. split; [by intros _; apply unmoved_kept|]. split; [done|]. bool_prop. done. }
  do 3 gate ltac:(refuse Hf0).
  wp_step. eapply wp_attach; [done|done|exact Hs1|]. intros s2 Hs2 Hm2 Hv2. cbn [andthen].
  pose proof (λ ca, attached_view grants l s s1 s2 ca Hm1 Hu1 Hv2) as Hatt. rewrite Hy1 in Hatt.
  pose proof (unmoved_lost l s s1 s2 Hs2 Hm1 Hm2) as Hlost.
  destruct (mem s2) as [ca|] eqn:Eca; cbn [is_some negb];
    [gate ltac:(done)|gate ltac:(apply Hf; [done|by intros _; apply Hlost]); done].
  specialize (Hatt ca eq_refl). pose proof (ok_mem _ _ (fol_ok _ _ _ (st_fol _ _ _ Hs2)) _ Eca) as Hg.
  assert (Hum : ∀ cs s', same_data ca cs → mem s' = Some cs → calm_then c s → unmoved l s s').
  { intros cs s' (Hb & _) Hm Hcalm. eapply unmoved_to; [exact Hm|]. intros j _. rewrite <-(Hatt Hcalm).
    unfold blk_at. by rewrite Hb. }
  wp_step. eapply wp_refresh; [exact Hs2|exact Eca| |].
  2: { intros e cs s3 Hs3 Hm3 Hsame. cbn [andthen]. apply Hf; [done|by eapply Hum]. }
  intros cs s3 Hs3 Hm3 Hsame Hre. cbn [andthen]. wp_step. eapply wp_the_store; [exact Hm3|]. cbn [andthen].
  do 3 gate ltac:(apply Hf; [done|by eapply Hum]).
  destruct (collect_page _ _ _ _ _) as [entries next] eqn:Ep.
  gate ltac:(apply Hf; [done|by eapply Hum]). wp_step.
  split; [done|]. split; [by eapply Hum|]. split; [done|]. intros _. exists ca, cs. split_and!; try done.
  assert (Hpos : match ceea_cookie a with [] => 0%nat | _ => Z.to_nat (le_combine (drop 8 (ceea_cookie a))) end
    = Z.to_nat (if negb (length (ceea_cookie a) =? 0)%nat then le_combine (drop 8 (ceea_cookie a)) else 0%Z)).
  { by destruct (ceea_cookie a). }
  assert (Hend : u64w (ceea_offset a + ceea_count a) = (ceea_offset a + ceea_count a)%Z).
  { destruct (Z.eq_dec (ceea_offset a + ceea_count a)%Z (2 ^ 64)%Z) as [He|He].
    - rewrite He in *. bool_prop. unfold wrap in *. rewrite Z_mod_same_full in *. destruct Hcnt. lia.
    - apply wrap_small. unfold in_width in *. lia. }
  unfold page_of. cbv zeta. rewrite Hpos. rewrite Hend in *. split; [bool_prop; lia|].
  exists next. rewrite Ep. done.
Qed.

End Escrows.

End ChunkEscrows.
