(* ===== verification/ChunkServer.v ===== *)
(** * The data server: one file, its requests, its failures

    The CHUNK requests as one type, what each may change, and the states that
    requests, lease expiry, trust changes and crashes lead to. *)

From S2P Require Import Prelude.
From S2P Require Import Posix.
From S2P Require Import ChunkStore.
From S2P Require Import ChunkDisk.
From S2P Require Import ChunkCorrect.
From S2P Require Import ChunkSteps.
From S2P Require Import Replace.
From S2P Require Import ChunkPersist.
From S2P Require Import ChunkReload.
From S2P Require Import Handler.
From S2P Require Import Nfs4.
From S2P Require Import Checksum.
From S2P Require Import Trust.
From S2P Require Import DataBlock.
From S2P Require Import ChunkOps.
From S2P Require Import ChunkLock.
From S2P Require Import TrustCorrect.
From S2P Require Import ChunkEdits.
From S2P Require Import ChunkRanges.
From S2P Require Import ChunkFrame.
From S2P Require Import ChunkLife.
From S2P Require Import ChunkIO.
From S2P Require Import ChunkLocks.
From S2P Require Import ChunkEscrows.
From stdpp Require Import gmap strings.
Import Posix ChunkStore ChunkDisk ChunkCorrect ChunkSteps Replace ChunkPersist ChunkReload Handler Nfs4
  Checksum Trust DataBlock ChunkOps ChunkLock TrustCorrect ChunkEdits ChunkRanges ChunkFrame ChunkLife
  ChunkIO ChunkLocks ChunkEscrows.

Module ChunkServer.

(** ** Requests *)

Inductive request :=
  | Write (a : CHUNK_WRITE4args)
  | WriteRepair (a : CHUNK_WRITE_REPAIR4args)
  | Read (a : CHUNK_READ4args)
  | Finalize (a : CHUNK_FINALIZE4args)
  | Commit (a : CHUNK_COMMIT4args)
  | Rollback (a : CHUNK_ROLLBACK4args)
  | Error (a : CHUNK_ERROR4args)
  | Repaired (a : CHUNK_REPAIRED4args)
  | Lock (a : CHUNK_LOCK4args)
  | Unlock (a : CHUNK_UNLOCK4args)
  | Install (a : CHUNK_ESCROW_INSTALL4args)
  | Release (a : CHUNK_ESCROW_RELEASE4args)
  | Enumerate (a : CHUNK_ESCROW_ENUMERATE4args)
  | HeaderRead
  | Takeover.

Inductive reply :=
  | Wrote (r : CHUNK_WRITE4resok)
  | RepairWrote (r : CHUNK_WRITE_REPAIR4resok)
  | Data (r : CHUNK_READ4resok)
  | Finalized (r : CHUNK_FINALIZE4resok)
  | Committed (r : CHUNK_COMMIT4resok)
  | RolledBack (r : CHUNK_ROLLBACK4resok)
  | Ranges (r : CHUNK_ESCROW_ENUMERATE4resok)
  | Escrow (id : list byte)
  | Done.

(** The widths that the XDR decoder gives the fields. *)
Definition request_ok (q : request) : Prop :=
  match q with
  | Write a => payload_ok (payload_of_write a)
  | WriteRepair a => payload_ok (payload_of_repair a)
  | Finalize a => finalize_args_ok a
  | Commit a => commit_args_ok a
  | Rollback a => rollback_args_ok a
  | Error a => error_args_ok a
  | Repaired a => repaired_args_ok a
  | Lock a => lock_args_ok a
  | Unlock a => unlock_args_ok a
  | Install a => install_args_ok a
  | Release a => release_args_ok a
  | Enumerate a => enumerate_args_ok a
  | _ => True
  end.

(** A compound on the file, with a client of its width. *)
Record compound_ok (l : site_of) (c : compound) : Prop := {
  co_state : c_server_state c = l_ss l;
  co_client : in_width 64 (client_id_of c);
}.

Lemma map_inv {P A B} (m : H (P := P) A) (f : A → B) s b s' :
  (x ← m; mret (f x)) s = (inr b, s') → ∃ a, m s = (inr a, s') ∧ b = f a.
Proof.
  unfold mbind, m_bind. destruct (m s) as [[e|a] s1]; [done|]. intros [= <- <-]. by exists a.
Qed.

Lemma map_run {P A B} (m : H (P := P) A) (f : A → B) s a s' :
  m s = (inr a, s') → (x ← m; mret (f x)) s = (inr (f a), s').
Proof. unfold mbind, m_bind. by intros ->. Qed.

Section Server.

Context {P : Type} (ops : storage_ops P) (grants : elem → Z → bool) (callocs : site → bool)
  (h : hashes) (l : site_of).
Hypothesis (Hsite : site_ok l).
Implicit Types (s : server P).

Definition perform (c : compound) (q : request) : H (P := P) reply :=
  match q with
  | Write a => r ← nfs4_op_chunk_write ops grants callocs h c a; mret (Wrote r)
  | WriteRepair a => r ← nfs4_op_chunk_write_repair ops grants callocs h c a; mret (RepairWrote r)
  | Read a => r ← nfs4_op_chunk_read ops grants callocs c a; mret (Data r)
  | Finalize a => r ← nfs4_op_chunk_finalize grants callocs c a; mret (Finalized r)
  | Commit a => r ← nfs4_op_chunk_commit grants callocs c a; mret (Committed r)
  | Rollback a => r ← nfs4_op_chunk_rollback grants c a; mret (RolledBack r)
  | Error a => nfs4_op_chunk_error grants c a;; mret Done
  | Repaired a => nfs4_op_chunk_repaired grants c a;; mret Done
  | Lock a => nfs4_op_chunk_lock grants callocs c a;; mret Done
  | Unlock a => nfs4_op_chunk_unlock grants callocs c a;; mret Done
  | Install a => r ← nfs4_op_chunk_escrow_install grants callocs c a; mret (Escrow r)
  | Release a => nfs4_op_chunk_escrow_release grants callocs c a;; mret Done
  | Enumerate a => r ← nfs4_op_chunk_escrow_enumerate grants callocs c a; mret (Ranges r)
  | HeaderRead => nfs4_op_chunk_header_read;; mret Done
  | Takeover => nfs4_op_chunk_escrow_takeover;; mret Done
  end.

(** ** What a request may do *)

(** The entry of the trust table, or the epoch, that a request goes through with. *)
Definition credential (c : compound) (q : request) s : Prop :=
  let auth stid client_id rw := authorized c stid client_id rw (s_trust s) in
  match q with
  | Write a => auth (cwa_stateid a) (cwa_client_id a) false
  | WriteRepair a => auth (cwra_stateid a) (cwra_client_id a) true
  | Read a => auth (cra_stateid a) CHUNK_GUARD_CLIENT_ID_NONE false
  | Finalize a => auth (cfa_stateid a) CHUNK_GUARD_CLIENT_ID_NONE false
  | Commit a => auth (cca_stateid a) CHUNK_GUARD_CLIENT_ID_NONE false
  | Rollback a => auth (crb_stateid a) CHUNK_GUARD_CLIENT_ID_NONE false
  | Error a => auth (cea_stateid a) (co_client_id (cea_owner a)) false
  | Repaired a => auth (cpa_stateid a) (co_client_id (cpa_owner a)) true
  | Lock a => auth (cla_stateid a) (co_client_id (cla_owner a)) true
  | Unlock a => auth (cua_stateid a) (co_client_id (cua_owner a)) true
  | Install a => controls c (ceia_mds_epoch a) s
  | Release a => controls c (cera_mds_epoch a) s
  | Enumerate a => controls c (ceea_mds_epoch a) s
  | HeaderRead | Takeover => False
  end.

(** A block of one of the owners goes from one state to the next, if no other
    owner has it locked. *)
Definition transits offset count from to (owners : list chunk_owner4) (j : Z) (b b' : chunk_block) : Prop :=
  in_range offset count j ∧
  (∃ co, co ∈ owners ∧ owned_by b (co_cohort_id co) (co_client_id co) (co_id co) = true) ∧
  (∀ co, co ∈ owners → free_for co b) ∧ cb_state b = from ∧ b' = set_cb_state b to.

(** What becomes of block [j] when a request changes it. *)
Definition change (c : compound) (q : request) : Z → chunk_block → chunk_block → Prop :=
  match q with
  | Write a => overwrites c 0 (payload_of_write a) (write_owner a) (admits a)
  | WriteRepair a => overwrites c CHUNK_BLOCK_REPAIR_PROVENANCE (payload_of_repair a) (repair_owner a)
                       (λ _ _, True)
  | Finalize a => transits (cfa_offset a) (cfa_count a) CHUNK_STATE_PENDING CHUNK_STATE_FINALIZED (cfa_chunks a)
  | Commit a => transits (cca_offset a) (cca_count a) CHUNK_STATE_FINALIZED CHUNK_STATE_COMMITTED (cca_chunks a)
  | Rollback a => rolled (crb_offset a) (crb_count a) (crb_chunks a)
  | Error a => marked (cea_offset a) (cea_count a) set_error
  | Repaired a => marked (cpa_offset a) (cpa_count a) clear_error
  | Lock a => lock_taken c a
  | Unlock a => lock_dropped a
  | Install a => escrow_taken a
  | Release a => escrow_released a
  | Read _ | Enumerate _ | HeaderRead | Takeover => λ _ _ _, False
  end.

(** The files from which a request loads the store into memory, if it does. *)
Definition loads_from (c : compound) (q : request) s : option sys :=
  match q with
  | Write _ | WriteRepair _ | Lock _ => Some (s_sys s)
  | Install _ | Enumerate _ => Some (epoch_read c s)
  | _ => None
  end.

(** A request that has to load the store finds what is on disk. *)
Definition settled c q s : Prop := ∀ y, loads_from c q s = Some y → calm l grants y s.

Record served c q s s' : Prop := {
  sv_follows : follows l s s';
  sv_credential : settled c q s → unmoved l s s' ∧ db s' = db s ∨ credential c q s;
  sv_change : settled c q s → alters l (change c q) s s';
}.

(** ** The handlers, together *)

Lemma wp_map {A B} (m : H (P := P) A) (f : A → B) (Q : fail + B → server P → Prop) s :
  wp m (λ r s', Q (match r with inl e => inl e | inr a => inr (f a) end) s') s →
  wp (x ← m; mret (f x)) Q s.
Proof using. intros H. wp_step. eapply wp_mono; [|exact H]. by intros [e|a] s'. Qed.

Lemma settled_from c q s y : loads_from c q s = Some y → settled c q s → calm l grants y s.
Proof using. intros H Hs. by apply Hs. Qed.

Lemma settled_mem c q s cs : mem s = Some cs → settled c q s.
Proof using. intros H y _ Hn. congruence. Qed.

Lemma served_unmoved c q s s' : stands l s s' → (settled c q s → unmoved l s s') → served c q s s'.
Proof using.
  intros Hs Hu. split; [apply Hs|intros H; left; split; [by apply Hu|apply Hs]|].
  intros H. by apply unmoved_alters, Hu.
Qed.

Lemma served_refused c q s s' : refused l s s' → served c q s s'.
Proof using. intros [Hs Hk]. by apply served_unmoved. Qed.

Lemma served_stands c q s s' :
  stands l s s' → credential c q s → (settled c q s → alters l (change c q) s s') → served c q s s'.
Proof using. intros Hs Hc Ha. split; [apply Hs|by right|done]. Qed.

(** The transitions of FINALIZE and COMMIT at each block. *)
Lemma moved_alters offset count from to owners s s' sts :
  in_width 64 offset → in_width 32 count → chunk_lifecycle_check_range offset count = true →
  (0 < from <= 3)%Z → (0 < to <= 3)%Z → from ≠ to → server_ok l s →
  moved l offset count from to owners s s' sts → alters l (transits offset count from to owners) s s'.
Proof using.
  intros Hoff Hcnt Hr Hfrom Hto Hft Hok (cs & cs1 & cs' & Hm & Hlock & Et & Hm' & Hsame & _).
  eapply alters_to; [exact Hm'|]. rewrite (view_mem l s cs Hm). intros j Hj.
  pose proof (ok_mem _ _ Hok _ Hm) as Hg. destruct (range_checked _ _ Hoff Hcnt Hr) as [Hcp Hrange].
  destruct (transitions_spec cs offset count from to Hoff (proj1 Hcnt) Hfrom Hto Hft owners sts cs1 Hg Et)
    as (_ & _ & _ & Hb).
  assert (blk_at cs' j = blk_at cs1 j) as -> by (unfold blk_at; by destruct Hsame as [-> _]).
  destruct (Hb j Hj) as [?|(co & Hin & Hh & Hst & He)]; [by left|]. right.
  destruct (home_in cs offset count Hoff co j Hg Hh) as (Hr' & Hn & _ & Hown). destruct Hoff as [H0 _].
  split; [done|]. split; [by exists co|]. split; [|done].
  intros co' Hco'. eapply owners_locked_out_none; [exact H0|exact Hrange|exact Hlock|done|done|lia].
Qed.

Lemma perform_spec c q s :
  compound_ok l c → request_ok q → server_ok l s → wp (perform c q) (λ _, served c q s) s.
Proof using Hsite.
  intros [Hc Hcl] Hq Hok. pose proof (stands_refl l s Hok) as Hs.
  destruct q; cbn [perform]; apply wp_map; cbn [request_ok] in Hq.
  - eapply wp_mono; [|by apply write_op_spec]. intros r s' (H1 & H2 & H3 & _).
    split; [done|done|]. intros Hset. by apply H3, Hset.
  - eapply wp_mono; [|by apply repair_op_spec]. intros r s' (H1 & H2 & H3 & _).
    split; [done|done|]. intros Hset. by apply H3, Hset.
  - eapply wp_mono; [|by apply read_op_spec]. intros r s' (H1 & H2 & _). by apply served_unmoved.
  - eapply wp_mono; [|by apply finalize_spec]. intros [e|res] s' H; [by apply served_refused|].
    destruct H as (H1 & H2 & H3 & H4). apply served_stands; [done|done|]. intros _.
    eapply moved_alters; try done; apply Hq.
  - eapply wp_mono; [|by apply commit_spec]. intros [e|res] s' H; [by apply served_refused|].
    destruct H as (H1 & H2 & H3 & H4). apply served_stands; [done|done|]. intros _.
    eapply moved_alters; try done; apply Hq.
  - eapply wp_mono; [|by apply rollback_op_spec]. intros r s' [H1 [H2|[H2 H3]]]; [by apply served_refused|].
    by apply served_stands.
  - eapply wp_mono; [|by apply error_spec]. intros r s' [H1 [H2|[H2 H3]]]; [by apply served_refused|].
    by apply served_stands.
  - eapply wp_mono; [|by apply repaired_spec]. intros [e|[]] s' H; [by apply served_refused|].
    destruct H as (H1 & H2 & [[_ H3]|[H3 _]]); [|by apply served_stands].
    apply served_unmoved; [done|]. intros _. by apply unmoved_kept.
  - eapply wp_mono; [|by apply lock_op_spec]. intros r s' (H1 & [H2|H2] & H3 & _);
      [by apply served_unmoved|]. apply served_stands; [done|done|]. intros Hset. by apply H3, Hset.
  - eapply wp_mono; [|by apply unlock_op_spec]. intros [e|[]] s' [H1 H2]; [by apply served_unmoved|].
    destruct H2 as (H2 & H3 & _). by apply served_stands.
  - eapply wp_mono; [|by apply install_op_spec]. intros [e|id] s' [H1 H2];
      [apply served_unmoved; [done|]; intros Hset; by apply H2, Hset|].
    destruct H2 as (_ & H2 & H3 & _). apply served_stands; [done|done|]. intros Hset. by apply H3, Hset.
  - eapply wp_mono; [|by apply release_op_spec]. intros [e|[]] s' [H1 H2]; [by apply served_unmoved|].
    destruct H2 as (H2 & H3 & _). by apply served_stands.
  - eapply wp_mono; [|by apply enumerate_op_spec]. intros r s' (H1 & H2 & _).
    apply served_unmoved; [done|]. intros Hset. by apply H2, Hset.
  - unfold nfs4_op_chunk_header_read. wp_step. apply served_unmoved; [done|]. intros _. by apply unmoved_kept.
  - unfold nfs4_op_chunk_escrow_takeover. wp_step. apply served_unmoved; [done|]. intros _. by apply unmoved_kept.
Qed.

(** *** Locks *)

(** Why a request may change the locked block [b] into [b']: it holds the lock, it
    adopts or releases the escrow by its name, or it only marks the payload. *)
Definition entitled (q : request) (j : Z) (b b' : chunk_block) : Prop :=
  match q with
  | Write a => ∃ i, j = u64w (cwa_offset a + Z.of_nat i) ∧ chunk_lock_owner_equal b (write_owner a i) = true
  | WriteRepair a =>
      ∃ i, j = u64w (cwra_offset a + Z.of_nat i) ∧ chunk_lock_owner_equal b (repair_owner a i) = true
  | Finalize a => ∃ co, co ∈ cfa_chunks a ∧ chunk_lock_owner_equal b co = true
  | Commit a => ∃ co, co ∈ cca_chunks a ∧ chunk_lock_owner_equal b co = true
  | Rollback a => ∃ co, co ∈ crb_chunks a ∧ chunk_lock_owner_equal b co = true
  | Error _ => b' = set_error b
  | Repaired _ => b' = clear_error b
  | Lock a => adopting a = true ∧
      chunk_escrow_matches (Some b) (cla_offset a) (cla_count a) (lock_escrow_id a) = true
  | Unlock a => chunk_lock_owner_equal b (cua_owner a) = true ∧
      chunk_lock_range_equal b (cua_offset a) (cua_count a) = true
  | Release a => chunk_escrow_matches (Some b) (cera_offset a) (cera_count a) (cera_escrow_id a) = true
  | _ => False
  end.

Lemma change_entitled c q j b b' :
  change c q j b b' → is_locked b = true → b' ≠ b → entitled q j b b'.
Proof using.
  intros Hch Hl Hne. destruct q; cbn in *; try done.
  - destruct Hch as (i & _ & Hj & Hfree & _). exists i. split; [done|by apply Hfree].
  - destruct Hch as (i & _ & Hj & Hfree & _). exists i. split; [done|by apply Hfree].
  - destruct Hch as (_ & (co & Hin & _) & Hfree & _). exists co. split; [done|by apply Hfree].
  - destruct Hch as (_ & (co & Hin & _) & Hfree & _). exists co. split; [done|by apply Hfree].
  - destruct Hch as (_ & (co & Hin & _) & Hfree & _). exists co. split; [done|by apply Hfree].
  - by destruct Hch as (_ & _ & ->).
  - by destruct Hch as (_ & _ & ->).
  - destruct Hch as (_ & Hlk & ->). unfold lockable, lock_of, locked_block in *.
    destruct (adopting a); [done|]. by rewrite Hl in Hne.
  - by destruct Hch as (_ & _ & ? & ? & _).
  - destruct Hch as (_ & Hx & _). congruence.
  - by destruct Hch as (_ & ? & _).
Qed.

(** *** Answers *)

(** The requests that change nothing when they fail. *)
Definition all_or_nothing (q : request) : bool :=
  match q with
  | Write _ | WriteRepair _ | Rollback _ | Error _ | Lock _ => false
  | _ => true
  end.

Lemma refused_nothing s s' : refused l s s' → unmoved l s s' ∧ db s' = db s.
Proof using. intros [Hs Hk]. split; [done|apply Hs]. Qed.

Lemma wp_map_fail {A B} (m : H (P := P) A) (f : A → B) (Q : server P → Prop) s :
  wp m (λ r s', match r with inl _ => Q s' | inr _ => True end) s →
  wp (x ← m; mret (f x)) (λ r s', match r with inl _ => Q s' | inr _ => True end) s.
Proof using. intros H. apply wp_map. eapply wp_mono; [|exact H]. by intros [e|a] s'. Qed.

Lemma perform_fails c q s :
  compound_ok l c → request_ok q → server_ok l s → all_or_nothing q = true → settled c q s →
  wp (perform c q) (λ r s', match r with inl _ => unmoved l s s' ∧ db s' = db s | inr _ => True end) s.
Proof using Hsite.
  intros [Hc Hcl] Hq Hok Ha Hset.
  destruct q; try done; cbn [perform request_ok] in *; apply wp_map_fail.
  - eapply wp_mono; [|by apply read_op_spec]. intros [e|r] s' (H1 & H2 & _); [|done]. split; [done|apply H1].
  - eapply wp_mono; [|by apply finalize_spec]. intros [e|r] s' H; [by apply refused_nothing|done].
  - eapply wp_mono; [|by apply commit_spec]. intros [e|r] s' H; [by apply refused_nothing|done].
  - eapply wp_mono; [|by apply repaired_spec]. intros [e|r] s' H; [by apply refused_nothing|done].
  - eapply wp_mono; [|by apply unlock_op_spec]. intros [e|r] s' [H1 H2]; [split; [done|apply H1]|done].
  - eapply wp_mono; [|by apply install_op_spec]. intros [e|r] s' [H1 H2]; [|done].
    split; [by apply H2, Hset|apply H1].
  - eapply wp_mono; [|by apply release_op_spec]. intros [e|r] s' [H1 H2]; [split; [done|apply H1]|done].
  - eapply wp_mono; [|by apply enumerate_op_spec]. intros [e|r] s' (H1 & H2 & _); [|done].
    split; [by apply H2, Hset|apply H1].
Qed.

(** A reply that says that a change has been made. *)
Definition acknowledged (r : fail + reply) : Prop :=
  match r with
  | inr (Finalized res) => NFS4_OK ∈ cfr_status res
  | inr (Committed res) => NFS4_OK ∈ ccr_status res
  | inr (Escrow _) => True
  | _ => False
  end.

Lemma status_ok sts : NFS4_OK ∈ sts → existsb (λ st, st =? NFS4_OK)%Z sts = true.
Proof using.
  intros H. apply existsb_exists. exists NFS4_OK. split; [by apply list_elem_of_In|done].
Qed.

Definition kept_on_disk s : Prop :=
  ∃ cs, mem s = Some cs ∧ stored (l_path l) (l_ino l) cs (now (s_sys s)).

Lemma moved_stored offset count from to owners s s' sts :
  moved l offset count from to owners s s' sts → NFS4_OK ∈ sts → kept_on_disk s'.
Proof using.
  intros (cs & cs1 & cs' & _ & _ & _ & Hm & Hsame & Hst) Hin. exists cs'. split; [done|].
  eapply stored_same; [by apply Hst, status_ok|done].
Qed.

Lemma wp_true {A} (m : H (P := P) A) s : wp m (λ _ _, True) s.
Proof using. done. Qed.

Lemma perform_acks c q s :
  compound_ok l c → request_ok q → server_ok l s →
  wp (perform c q) (λ r s', acknowledged r → kept_on_disk s') s.
Proof using Hsite.
  intros [Hc Hcl] Hq Hok. destruct q; cbn [perform request_ok] in *; apply wp_map;
    try (eapply wp_mono; [|apply wp_true]; by intros [e|r] s').
  - eapply wp_mono; [|by apply finalize_spec]. intros [e|r] s' H; [done|].
    destruct H as (_ & _ & _ & H). by apply (moved_stored _ _ _ _ _ _ _ _ H).
  - eapply wp_mono; [|by apply commit_spec]. intros [e|r] s' H; [done|].
    destruct H as (_ & _ & _ & H). by apply (moved_stored _ _ _ _ _ _ _ _ H).
  - eapply wp_mono; [|by apply install_op_spec]. intros [e|r] s' [_ H]; [done|]. intros _.
    destruct H as (_ & _ & _ & cs & Hm & Hst & _). by exists cs.
Qed.

(** *** Guards *)

Lemma rewritten_fields c flags p n i b :
  cb_state (rewritten c flags p n i b) = CHUNK_STATE_PENDING ∧
  cb_gen_id (rewritten c flags p n i b) = (if occupied b then u32w (cb_gen_id b + 1) else 0%Z) ∧
  cb_client_id (rewritten c flags p n i b) = pl_client_id p.
Proof using.
  unfold rewritten, new_block, keep_lock. destruct (recorded_checksum p i) as [[? ?] ?].
  destruct (has_flag (cb_flags b) _), (occupied b); done.
Qed.

Lemma bumps_ne g d : in_width 32 g → (0 < d < 2 ^ 32)%Z → u32w (g + d) ≠ g.
Proof using.
  intros [H0 H1] Hd. unfold wrap. destruct (Z.lt_ge_cases (g + d) (2 ^ 32)).
  - rewrite Z.mod_small by lia. lia.
  - rewrite <-(Z_mod_plus_full _ (-1)), Z.mod_small by lia. lia.
Qed.

Lemma bump_ne g : in_width 32 g → u32w (g + 1) ≠ g.
Proof using. intros H. apply bumps_ne; [done|lia]. Qed.

Definition is_rollback (q : request) : bool := match q with Rollback _ => true | _ => false end.

(** Only a rollback empties a block; any other change keeps its generation or adds one. *)
Lemma change_generation c q j b b' :
  change c q j b b' → is_rollback q = false → occupied b = true →
  occupied b' = true ∧ (cb_gen_id b' = cb_gen_id b ∨ cb_gen_id b' = u32w (cb_gen_id b + 1)).
Proof using.
  intros Hch Hq Ho. destruct q; try done; cbn in Hch.
  - destruct Hch as (i & _ & _ & _ & _ & ->).
    destruct (rewritten_fields c 0 (payload_of_write a) (nchunks_of (payload_of_write a)) i b) as (Hst & Hg & _).
    rewrite Ho in Hg. unfold occupied at 1. rewrite Hst. split; [done|by right].
  - destruct Hch as (i & _ & _ & _ & _ & ->).
    destruct (rewritten_fields c CHUNK_BLOCK_REPAIR_PROVENANCE (payload_of_repair a)
                (nchunks_of (payload_of_repair a)) i b) as (Hst & Hg & _).
    rewrite Ho in Hg. unfold occupied at 1. rewrite Hst. split; [done|by right].
  - destruct Hch as (_ & _ & _ & _ & ->). split; [done|by left].
  - destruct Hch as (_ & _ & _ & _ & ->). split; [done|by left].
  - destruct Hch as (_ & _ & ->). split; [done|by left].
  - destruct Hch as (_ & _ & ->). split; [done|by left].
  - destruct Hch as (_ & _ & ->). unfold lock_of, locked_block. repeat case_if; (split; [done|by left]).
  - destruct Hch as (_ & _ & _ & _ & ->). split; [done|by left].
  - destruct Hch as (_ & _ & ->). split; [done|by left].
  - destruct Hch as (_ & _ & ->). split; [done|by left].
Qed.

Lemma rewritten_ne c flags p n i b : block_ok b → rewritten c flags p n i b ≠ b.
Proof using.
  intros Hb He. destruct (rewritten_fields c flags p n i b) as (Hs & Hg & _). rewrite He in *.
  unfold occupied in Hg. rewrite Hs in Hg. cbn in Hg.
  apply (bump_ne (cb_gen_id b)); [apply Hb|done].
Qed.

(** Every block that a successful write covers was free and admitted it. *)
Lemma write_admits c a s r s' i :
  compound_ok l c → payload_ok (payload_of_write a) → server_ok l s → settled c (Write a) s →
  nfs4_op_chunk_write ops grants callocs h c a s = (inr r, s') →
  (Z.of_nat i < nchunks_of (payload_of_write a))%Z →
  let j := u64w (cwa_offset a + Z.of_nat i) in
  let b := blk_at (view l s) j in
  free_for (write_owner a i) b ∧ admits a i b ∧
  ∃ cs', mem s' = Some cs' ∧
    blk_at cs' j = rewritten c 0 (payload_of_write a) (nchunks_of (payload_of_write a)) i b.
Proof using Hsite.
  intros [Hc Hcl] Hp Hok Hset E Hi j b. specialize (Hset _ eq_refl).
  destruct (wp_run _ _ _ _ _ (write_op_spec ops grants callocs h l Hsite c a s Hc Hp Hcl Hok) E)
    as (_ & _ & Hal & _ & (ca & cs0 & cs' & algo & Hv & Hga & Hca & Hpol & Hm' & R & _) & _).
  specialize (Hal Hset). specialize (Hca Hset).
  destruct (validated h c (s_inode s) _ algo _ Hp Hv) as (_ & _ & _ & Hw & Hn & _).
  destruct (adopt_policy_good ca _ algo cs0 Hga Hp Hw Hpol) as (_ & Hsame & _).
  pose proof (re_done _ _ _ _ _ _ _ R i ltac:(lia)) as Hb. cbv beta in Hb.
  change (pl_offset (payload_of_write a)) with (cwa_offset a) in Hb. fold j in Hb. rewrite Hsame, Hca in Hb.
  assert (0 <= j)%Z as Hj by (apply (wrap_in_width 64); lia).
  destruct (Hal j Hj) as [He|(k & Hk & Hjk & Hfree & Had & _)].
  - exfalso. rewrite (view_mem l s' cs' Hm'), Hb in He. apply rewritten_ne in He; [done|]. rewrite <-Hca. apply Hga.
  - apply (at_inj (payload_of_write a)) in Hjk; [|lia|lia]. subst k. split; [done|]. split; [done|]. by exists cs'.
Qed.

(** ** The lease of a writer expires *)

(** What the sweep makes of a block. *)
Definition released (w : Z) (b b' : chunk_block) : Prop :=
  cb_writer_clientid b = w ∧ has_flag (cb_flags b) CHUNK_BLOCK_ESCROW = false ∧
  (b' = return_custody b ∧ chunk_block_has_escrow_custody b = true ∨
   b' = set_cb_state b CHUNK_STATE_EMPTY ∧
   (cb_state b = CHUNK_STATE_PENDING ∨ cb_state b = CHUNK_STATE_FINALIZED)).

Lemma swept_released_by w b : swept w b = b ∨ released w b (swept w b).
Proof using.
  unfold swept, sweep_one, released. destruct (Z.eqb_spec (cb_writer_clientid b) w); [|by left]. cbn [negb].
  destruct (has_flag (cb_flags b) CHUNK_BLOCK_ESCROW); [by left|].
  destruct (chunk_block_has_escrow_custody b); [right; by auto|].
  destruct (Z.eqb_spec (cb_state b) CHUNK_STATE_PENDING), (Z.eqb_spec (cb_state b) CHUNK_STATE_FINALIZED);
    cbn; auto 10.
Qed.

Lemma swept_good w high off b : block_good high off b → block_good high off (swept w b).
Proof using.
  intros [Hok Hc Hs He Ha]. split; [by apply swept_ok|by apply swept_custody|by apply swept_state| |].
  - unfold swept, sweep_one. do 2 (case_if; [done|]). case_if; cbn [default].
    + intros _. split; [|done]. unfold chunk_block_has_escrow_custody in *. bool_prop. cbn.
      by rewrite (has_flag_lor_other _ 3 0).
    + case_if; [|done]. intros Hx. cbn in *. by apply He.
  - intros Hoff. rewrite swept_idle; by apply Ha.
Qed.

Lemma sweep_good cs w n cs' : store_good cs → sweep_store cs w = (n, cs') → store_good cs'.
Proof using.
  intros Hg E. destruct (sweep_store_spec _ _ _ _ (inv_ok _ (good_inv _ Hg)) E) as (_ & Hok & Hh & _ & Hat).
  apply ok_good; [done|]. intros j Hj. rewrite Hat, Hh. by apply swept_good, good_block.
Qed.

(** The store that the sweep leaves is good, and so are the files all along. *)
Lemma expire_spec w total s i total' y :
  server_ok l s →
  rollback_inode grants w (ss_state_dir (l_ss l)) (s_inode s) total (s_sys s) = (i, total', y) →
  let s' := set_sys y (set_inode i s) in
  stands l s s' ∧ alters l (λ _, released w) s s'.
Proof using Hsite.
  intros Hok. unfold rollback_inode, chunk_store_rollback_for_client. fold (mem s).
  pose proof (stands_refl l s Hok) as Hs. destruct Hsite as [Hino Hpath].
  destruct (mem s) as [cs|] eqn:Em.
  2: { intros [= <- _ <-]. cbv zeta. split; [by apply (quietly_stands l s s)|]. intros j _. by left. }
  destruct (sweep_store cs w) as [n cs1] eqn:Esw.
  pose proof (ok_mem _ _ Hok _ Em) as Hg. pose proof (sweep_good _ _ _ _ Hg Esw) as Hg1.
  destruct (sweep_store_spec _ _ _ _ (inv_ok _ (good_inv _ Hg)) Esw) as (_ & _ & _ & _ & Hat).
  assert (Halt : ∀ s' cs', mem s' = Some cs' → same_data cs1 cs' → alters l (λ _, released w) s s').
  { intros s' cs' Hm' Hsame. eapply alters_to; [exact Hm'|]. rewrite (view_mem l s cs Em). intros j Hj.
    assert (blk_at cs' j = swept w (blk_at cs j)) as -> by (rewrite <-Hat; unfold blk_at; by destruct Hsame as [-> _]).
    apply swept_released_by. }
  assert (Hsame1 : same_data cs1 cs1) by done.
  assert (Hplain : stands l s (set_sys (s_sys s) (set_inode (with_store (s_inode s) (Some cs1)) s)) ∧
    alters l (λ _, released w) s (set_sys (s_sys s) (set_inode (with_store (s_inode s) (Some cs1)) s))).
  { split; [|by eapply Halt]. apply (stands_step l s s); try done. by intros c [= <-]. }
  destruct (0 <? n)%Z; [|by intros [= <- _ <-]].
  unfold l_dir in Hpath. destruct (ss_state_dir (l_ss l)) as [dir|]; [|by intros [= <- _ <-]].
  destruct (chunk_store_persist _ _ _ _ _) as [[ret ocs] y'] eqn:Ep. intros [= <- _ <-]. cbv zeta.
  cbn [i_ino with_store] in Ep. rewrite (ok_ino _ _ Hok) in Ep.
  destruct (persist_disk _ _ _ _ _ _ _ _ _ Hg1 Hpath (ok_disk _ _ Hok) Ep) as (cs' & -> & Hsame & Hg' & Hv & _).
  split; [|by eapply Halt]. split; [|done]. split; [split|done|done|done].
  - apply Hok.
  - by intros c [= <-].
  - by apply visits_end in Hv.
  - eapply visits_past; [done|apply Hok].
Qed.

End Server.

(** ** Everything that can happen *)

Section Reach.

Context {P : Type} (ops : storage_ops P) (h : hashes) (l : site_of).
Implicit Types (s : server P).

(** A server process has just started on the files [fs]. *)
Record booted (fs : files) s : Prop := {
  bt_ino : i_ino (s_inode s) = l_ino l;
  bt_mem : mem s = None;
  bt_files : now (s_sys s) = fs;
  bt_past : past (s_sys s) = [];
}.

(** What the server does to the file: a request, or the sweep when a lease expires.
    The allocators answer as they like. *)
Inductive act s : server P → Prop :=
  | act_request grants callocs c q r s' :
      compound_ok l c → request_ok q → perform ops grants callocs h c q s = (r, s') → act s s'
  | act_expiry grants w total i total' y :
      rollback_inode grants w (ss_state_dir (l_ss l)) (s_inode s) total (s_sys s) = (i, total', y) →
      act s (set_sys y (set_inode i s)).

(** One of these; a change of the trust table; the rest of the server, which leaves
    the metadata file alone; a crash in the middle of one, and the next start. *)
Inductive step s : server P → Prop :=
  | step_act s' : act s s' → step s s'
  | step_trust t : step s (set_trust t s)
  | step_others y :
      visits (λ fs, fs !! l_path l = now (s_sys s) !! l_path l) (s_sys s) y → step s (set_sys y s)
  | step_crash s1 hist fs' s' :
      act s s1 → during (s_sys s) (s_sys s1) hist → after_crash hist fs' → booted fs' s' → step s s'.

Lemma booted_ok fs s : disk_ok (l_path l) (l_ino l) fs → booted fs s → server_ok l s.
Proof using.
  intros Hd [Hi Hm Hf Hp]. split; [done| |by rewrite Hf|by rewrite Hp; constructor]. intros cs Hcs. congruence.
Qed.

Lemma act_follows s s' : site_ok l → server_ok l s → act s s' → follows l s s'.
Proof using.
  intros Hsite Hok [g ca c q r s'' Hc Hq E|g w tot i tot' y E].
  - apply (wp_run _ _ _ _ _ (perform_spec ops g ca h l Hsite c q s Hc Hq Hok) E).
  - apply (expire_spec g l Hsite w tot s i tot' y Hok E).
Qed.

Lemma step_ok s s' : site_ok l → server_ok l s → step s s' → server_ok l s'.
Proof using.
  intros Hsite Hok [s'' Ha|t|y Hy|s1 hist fs' s'' Ha Hd Hcr Hb].
  - by apply (act_follows s s'').
  - destruct Hok. by split.
  - destruct Hok as [Hi Hm Hdk Hp].
    assert (Hv : visits (disk_ok (l_path l) (l_ino l)) (s_sys s) y).
    { eapply visits_mono; [|exact Hy]. intros fs Hfs f Hf. cbv beta in Hfs. rewrite Hfs in Hf. by apply Hdk. }
    split; [done|done|by apply visits_end in Hv|by eapply visits_past].
  - eapply booted_ok; [|exact Hb]. eapply crash_ok; [|exact Hcr].
    destruct (visits_during _ _ _ _ (fol_disk _ _ _ (act_follows s s1 Hsite Hok Ha)) Hd) as (l0 & -> & F).
    apply list.Forall_app. split; [done|apply Hok].
Qed.

Lemma reach_ok s s' : site_ok l → server_ok l s → rtc step s s' → server_ok l s'.
Proof using. intros Hsite Hok. induction 1 as [|s1 s2 s3 H12 _ IH]; [done|]. by apply IH, (step_ok s1). Qed.

End Reach.

End ChunkServer.
