(* ===== verification/ChunkSample.v ===== *)
(** * A small data server

    One file on the RAM backend with a metadata directory, an entry in the trust
    table and an epoch record, and a few requests on it. *)

From S2P Require Import Prelude.
From S2P Require Import Posix.
From S2P Require Import ChunkStore.
From S2P Require Import ChunkDisk.
From S2P Require Import Handler.
From S2P Require Import Nfs4.
From S2P Require Import Checksum.
From S2P Require Import Trust.
From S2P Require Import DataBlock.
From S2P Require Import ChunkOps.
From S2P Require Import ChunkLock.
From S2P Require Import ChunkFrame.
From S2P Require Import ChunkIO.
From S2P Require Import ChunkServer.
From stdpp Require Import gmap strings.
Import Posix ChunkStore ChunkDisk Handler Nfs4 Checksum Trust DataBlock ChunkOps ChunkLock ChunkFrame
  ChunkIO ChunkServer.

Module ChunkSample.

Definition ss : server_state := mk_server_state (Some "s"%string) (replicate 16 x01) 3.
Definition path : string := match chunk_meta_path 512 "s" 42 with inr p => p | inl _ => "" end.
Definition site : site_of := mk_site ss 42 path.

Lemma site_is_ok : site_ok site.
Proof. split; vm_compute; [done|reflexivity]. Qed.

(** Its hash functions are never called. *)
Definition hash : hashes := mk_hashes (λ _ _, 0%Z) (λ _, None) (λ _, None) (λ _, replicate 32 x00).
Definition ram : storage_ops (list byte) := ram_ops (λ _, true).
Definition yes {A} : A → bool := λ _, true.

Definition file_handle : network_file_handle := mk_nfh 1 0 0 0 5 42.
Definition client : compound :=
  mk_compound file_handle true true None (Some (mk_client 0 9)) ss 10 10.
Definition mds : compound :=
  mk_compound file_handle true true None (Some (mk_client EXCHGID4_FLAG_USE_PNFS_MDS 7)) ss 10 10.

Lemma client_ok : compound_ok site client.
Proof. by split. Qed.
Lemma mds_ok : compound_ok site mds.
Proof. by split. Qed.

Definition stateid : stateid4 := mk_stateid 1 (replicate 12 x07).
Definition trusted : trust :=
  mk_trust (Some [mk_entry (replicate 12 x07) 5 42 7 9 LAYOUTIOMODE4_RW 0 TRUST_ACTIVE [] 17])
    (mk_tstats 0 0 0 0 0 0 0 (λ _, 0%Z)).

(** Epoch 6, until the instant 99. *)
Definition epoch_path : string :=
  match chunk_mds_epoch_path 512 (Some "s"%string) with inr p => p | inl _ => "" end.
Definition files0 : files :=
  {[ epoch_path := mk_file (epoch_bytes (mk_epoch_disk CHUNK_MDS_EPOCH_MAGIC CHUNK_MDS_EPOCH_VERSION
                                           (mk_epoch 6 99 7))) true ]}.

Definition start_on (fs : files) : server (list byte) :=
  mk_server (mk_inode 42 0x8000 0 0 None None None (0%Z, None)) trusted
    (mk_cstats 0 0 0 0 0 0 0 0 0 0 0 0 0) (mk_sys fs [] []) (mk_budgets 0 0 0 0).
Definition start : server (list byte) := start_on files0.

Lemma start_booted fs : booted site fs (start_on fs).
Proof. by split. Qed.

(** Two chunks of four bytes and one of two. *)
Definition owner (i : Z) : chunk_owner4 := mk_owner 1 17 i.
Definition owners : list chunk_owner4 := [owner 101; owner 102; owner 103].
Definition bytes : list byte := [x61; x62; x63; x64; x65; x66; x67; x68; x69; x6a].
Definition write_at_ (offset : Z) (guard : option chunk_guard4) : CHUNK_WRITE4args :=
  mk_write_args stateid offset FILE_SYNC4 1 17 [101; 102; 103]%Z 5 0 guard 4 [] bytes.
Definition write : CHUNK_WRITE4args := write_at_ 0 None.
Definition read : CHUNK_READ4args := mk_read_args stateid 0 3.
Definition finalize : CHUNK_FINALIZE4args := mk_finalize_args stateid 0 3 owners.
Definition commit : CHUNK_COMMIT4args := mk_commit_args stateid 0 3 owners.
Definition lock (offset count : Z) : CHUNK_LOCK4args :=
  mk_lock_args stateid offset count 0 (owner 101) None.
Definition unlock (offset count : Z) : CHUNK_UNLOCK4args := mk_unlock_args stateid offset count (owner 101).
Definition install (offset count : Z) (id : byte) : CHUNK_ESCROW_INSTALL4args :=
  mk_install_args 6 offset count (replicate 16 id).
Definition enumerate (maxcount : Z) (cookie : list byte) : CHUNK_ESCROW_ENUMERATE4args :=
  mk_enumerate_args 6 0 100 maxcount cookie.

Definition answer (c : compound) (q : request) (s : server (list byte)) : (fail + reply) * server (list byte) :=
  perform ram (λ _ _, true) yes hash c q s.
Definition after (c : compound) (q : request) (s : server (list byte)) : server (list byte) :=
  snd (answer c q s).

Definition after_write : server (list byte) := after client (Write write) start.
Definition after_finalize : server (list byte) := after client (Finalize finalize) after_write.
Definition after_commit : server (list byte) := after client (Commit commit) after_finalize.
Definition after_lock : server (list byte) := after client (Lock (lock 0 2)) after_commit.

Definition store_of (s : server (list byte)) : chunk_store :=
  default (mk_store [] 0 0 0 0 [] 0 false) (mem s).

(** ** They are served *)

Lemma answer_after c q s : answer c q s = (fst (answer c q s), after c q s).
Proof. apply surjective_pairing. Qed.

Lemma answer_is c q s r : fst (answer c q s) = r → answer c q s = (r, after c q s).
Proof. intros <-. apply answer_after. Qed.

Lemma after_act c q s : compound_ok site c → request_ok q → act ram hash site s (after c q s).
Proof. intros Hc Hq. eapply act_request; [exact Hc|exact Hq|apply answer_after]. Qed.

Lemma write_ok offset guard : in_width 64 offset → payload_ok (payload_of_write (write_at_ offset guard)).
Proof. intros H. split; try done. by repeat constructor. Qed.

Lemma start_ok : server_ok site start.
Proof. apply (booted_ok site files0); [|apply start_booted]. intros f Hf. by vm_compute in Hf. Qed.

Lemma after_ok c q s :
  compound_ok site c → request_ok q → server_ok site s → server_ok site (after c q s).
Proof. intros Hc Hq Hs. eapply step_ok; [apply site_is_ok|exact Hs|]. by apply step_act, after_act. Qed.

Lemma after_write_ok : server_ok site after_write.
Proof. apply after_ok; [apply client_ok|by apply write_ok|apply start_ok]. Qed.
Lemma after_finalize_ok : server_ok site after_finalize.
Proof. apply after_ok; [apply client_ok|by split|apply after_write_ok]. Qed.
Lemma after_commit_ok : server_ok site after_commit.
Proof. apply after_ok; [apply client_ok|by split|apply after_finalize_ok]. Qed.
Lemma after_lock_ok : server_ok site after_lock.
Proof. apply after_ok; [apply client_ok|by split|apply after_commit_ok]. Qed.

End ChunkSample.
