(* ===== verification/ChunkServerTheorems.v ===== *)
(** * What the data server guarantees

    The theorems on the CHUNK requests: the invariant through crashes, what each
    request may change and with which right, locks, durability and refusals. *)

From S2P Require Import Prelude.
From S2P Require Import Posix.
From S2P Require Import ChunkStore.
From S2P Require Import ChunkDisk.
From S2P Require Import ChunkCorrect.
From S2P Require Import ChunkSteps.
From S2P Require Import Replace.
From S2P Require Import ChunkPersist.
From S2P Require Import ChunkReload.
From S2P Require Import Handler.
From S2P Require Import Nfs4.
From S2P Require Import Checksum.
From S2P Require Import Trust.
From S2P Require Import DataBlock.
From S2P Require Import ChunkOps.
From S2P Require Import ChunkLock.
From S2P Require Import TrustCorrect.
From S2P Require Import ChunkEdits.
From S2P Require Import ChunkRanges.
From S2P Require Import ChunkFrame.
From S2P Require Import ChunkLife.
From S2P Require Import ChunkIO.
From S2P Require Import ChunkLocks.
From S2P Require Import ChunkEscrows.
From S2P Require Import ChunkServer.
From S2P Require Import ChunkSample.
From stdpp Require Import gmap strings.
Import Posix ChunkStore ChunkDisk ChunkCorrect ChunkSteps Replace ChunkPersist ChunkReload Handler Nfs4
  Checksum Trust DataBlock ChunkOps ChunkLock TrustCorrect ChunkEdits ChunkRanges ChunkFrame ChunkLife
  ChunkIO ChunkLocks ChunkEscrows ChunkServer.

Module ChunkServerTheorems.

Section Theorems.

Context {P : Type} (ops : storage_ops P) (h : hashes) (l : site_of).
Implicit Types (s : server P).


(** C2: what a CHUNK request may do to the blocks of a file, those in memory or,
    after a restart and until a request has brought them there, those of the
    metadata file; provided that a request that has to load the file can read it.
    A request that changes a block or the data has a credential for it: a live
    entry of the trust table for its stateid and file, or a metadata server's
    session in the epoch on disk.  Each block it changes goes from one value to
    another as the request's specification says; the trust table stays. *)
Theorem chunk_requests_refine grants callocs c q s r s' :
  site_ok l → server_ok l s → compound_ok l c → request_ok q → settled grants l c q s →
  perform ops grants callocs h c q s = (r, s') →
  (unmoved l s s' ∧ db s' = db s ∨ credential c q s) ∧ alters l (change c q) s s' ∧
  trust_ht (s_trust s') = trust_ht (s_trust s).
Proof.
  intros Hsite Hok Hc Hq Hset E.
  destruct (wp_run _ _ _ _ _ (perform_spec ops grants callocs h l Hsite c q s Hc Hq Hok) E) as [[_ _ Ht _] H2 H3].
  split; [by apply H2|]. split; [by apply H3|done].
Qed.


(** C12: once FINALIZE or COMMIT has answered that an owner's block moved, or
    ESCROW_INSTALL has answered, in a file of at most 1048576 blocks, a restart of
    the process, or a power failure after the rename of the metadata file has
    reached the disk, loses nothing of it: the metadata file loads as a store with
    the same blocks up to the high-water mark. *)
Theorem chunk_ack_durable grants callocs c q s r s' dir cs fs :
  site_ok l → server_ok l s → compound_ok l c → request_ok q →
  perform ops grants callocs h c q s = (r, s') → acknowledged r →
  ss_state_dir (l_ss l) = Some dir → mem s' = Some cs →
  (cs_high_water cs <= CHUNK_STORE_MAX_BLOCKS)%Z → after_crash [now (s_sys s')] fs →
  ∃ cs2, chunk_store_load (λ _ _, true) dir (l_ino l) (mk_sys fs [] []) = (Some cs2, mk_sys fs [] []) ∧
    cs_high_water cs2 = cs_high_water cs ∧
    ∀ j, (0 <= j < cs_high_water cs)%Z → blk_at cs2 j = blk_at cs j.
Proof.
  intros Hsite Hok Hc Hq E Hack Hdir Hm Hmax Hcr.
  pose proof (wp_run _ _ _ _ _ (perform_spec ops grants callocs h l Hsite c q s Hc Hq Hok) E) as [[Hok' _ _ _] _ _].
  destruct (wp_run _ _ _ _ _ (perform_acks ops grants callocs h l Hsite c q s Hc Hq Hok) E Hack)
    as (cs1 & Hm1 & f & cs3 & Hf & Hb & Hg & Hex & Hsame). assert (cs1 = cs) as -> by congruence.
  destruct Hsite as [Hino Hpath]. unfold l_dir in Hpath. rewrite Hdir in Hpath. cbn in Hpath.
  assert (Hf' : fs !! l_path l = Some f) by (eapply crash_now; [done|done|apply (ok_disk _ _ Hok' f Hf)]).
  destruct Hsame as (Hbl & Hn & Hh & _). destruct f as [bytes syn]. cbn in Hb. subst bytes.
  destruct (load_persisted (λ _ _, true) cs3 dir (l_ino l) (l_path l) (mk_sys fs [] []) syn) as (cs2 & El & Hs2);
    try done; [apply Hg|lia|].
  exists cs2. split; [done|]. split; [by rewrite (same_high _ _ Hs2)|].
  intros j Hj. rewrite (same_blocks _ _ Hs2) by lia. unfold blk_at. by rewrite Hbl.
Qed.

(** C17: a READ, FINALIZE, COMMIT, REPAIRED, UNLOCK, ESCROW_INSTALL, ESCROW_RELEASE or
    ESCROW_ENUMERATE that ends with an error, a failed write of the metadata file
    included, leaves every block of the file, in memory or on disk, and the data as
    they were; for ESCROW_INSTALL and ESCROW_ENUMERATE provided that the metadata
    file can be read if it has to be loaded. *)
Theorem chunk_refusal_atomic grants callocs c q s e s' :
  site_ok l → server_ok l s → compound_ok l c → request_ok q → all_or_nothing q = true →
  settled grants l c q s →
  perform ops grants callocs h c q s = (inl e, s') → unmoved l s s' ∧ db s' = db s.
Proof.
  intros Hsite Hok Hc Hq Ha Hset E.
  exact (wp_run _ _ _ _ _ (perform_fails ops grants callocs h l Hsite c q s Hc Hq Hok Ha Hset) E).
Qed.

(** C18: CHUNK_READ returns at most the chunks asked for, only blocks that are
    finalized or committed, each with the metadata of its block and the bytes the
    data block holds for it, or, when it is marked as damaged, an error and no
    bytes; and it returns a chunk only to a trusted stateid. *)
Theorem chunk_read_visible grants callocs c a s res s' i r :
  site_ok l → server_ok l s → compound_ok l c →
  perform ops grants callocs h c (Read a) s = (inr (Data res), s') → crr_chunks res !! i = Some r →
  credential c (Read a) s ∧ (Z.of_nat i < cra_count a)%Z ∧
  ∃ cs, mem s' = Some cs ∧
    let off := u64w (cra_offset a + Z.of_nat i) in
    (cb_state (blk_at cs off) = CHUNK_STATE_FINALIZED ∨ cb_state (blk_at cs off) = CHUNK_STATE_COMMITTED) ∧
    describes ops cs (db s) off r.
Proof.
  intros Hsite Hok [Hc _] E Hi. apply map_inv in E as (rr & E & [= ->]).
  destruct (wp_run _ _ _ _ _ (read_op_spec ops grants callocs l Hsite c a s Hc Hok) E)
    as (Hs & _ & [[_ Hn]|(Hauth & cs & avail & pend & Hm & _ & Eav & Er)]); [by rewrite Hn in Hi|].
  pose proof (ok_mem _ _ (fol_ok _ _ _ (st_fol _ _ _ Hs)) _ Hm) as Hg.
  pose proof (inv_ok _ (good_inv _ Hg)) as Hsok.
  destruct (read_chunks_spec ops callocs cs (db s) _ _ _ Hsok Er) as (k & Hk & Hlen & Hd).
  destruct (available_spec cs _ _ _ _ Hsok Eav) as [Hav Hst]. apply lookup_lt_Some in Hi as Hlt.
  split; [done|]. split; [lia|]. exists cs. split; [done|]. split; [|by apply Hd].
  specialize (Hst i ltac:(lia)). pose proof (bg_state _ _ _ (good_block cs (u64w (cra_offset a + Z.of_nat i)) Hg)) as Hstate.
  unfold state_ok, CHUNK_STATE_FINALIZED, CHUNK_STATE_COMMITTED in *. lia.
Qed.

(** A request is answered, and it is not a rollback. *)
Definition goes_on s s' : Prop :=
  ∃ grants callocs c q r, compound_ok l c ∧ request_ok q ∧ is_rollback q = false ∧
    perform ops grants callocs h c q s = (r, s').

(** The generation of a block through requests. *)
Lemma generation_steps n s s' cs j g :
  site_ok l → (0 <= j)%Z → nsteps goes_on n s s' → server_ok l s → mem s = Some cs →
  occupied (blk_at cs j) = true → cb_gen_id (blk_at cs j) = u32w g →
  ∃ cs' k, mem s' = Some cs' ∧ server_ok l s' ∧ occupied (blk_at cs' j) = true ∧
    (0 <= k <= Z.of_nat n)%Z ∧ cb_gen_id (blk_at cs' j) = u32w (g + k).
Proof.
  intros Hsite Hj Hn. revert cs g.
  induction Hn as [s|n s s1 s' (grants & callocs & c & q & r & Hc & Hq & Hr & E) _ IH]; intros cs g Hok Hm Ho Hg.
  { exists cs, 0%Z. rewrite Z.add_0_r. by split_and!. }
  destruct (wp_run _ _ _ _ _ (perform_spec ops grants callocs h l Hsite c q s Hc Hq Hok) E) as [[Hok1 _ _ Hid] _ Ha].
  destruct (mem s1) as [cs1|] eqn:Hm1; [|destruct (Hid eq_refl); congruence].
  specialize (Ha (settled_mem grants l c q s cs Hm) j Hj). rewrite (view_mem l s cs Hm), (view_mem l s1 cs1 Hm1) in Ha.
  assert (Hone : occupied (blk_at cs1 j) = true ∧ ∃ d, (0 <= d <= 1)%Z ∧ cb_gen_id (blk_at cs1 j) = u32w (g + d)).
  { destruct Ha as [->|Hch]; [split; [done|]; exists 0%Z; by rewrite Z.add_0_r|].
    destruct (change_generation c q j _ _ Hch Hr Ho) as [Ho1 [Hg1|Hg1]]; (split; [done|]); rewrite Hg1, Hg.
    - exists 0%Z. by rewrite Z.add_0_r.
    - exists 1%Z. split; [lia|]. unfold wrap. by rewrite Zplus_mod_idemp_l. }
  destruct Hone as (Ho1 & d & Hd & Hg1). destruct (IH cs1 (g + d)%Z) as (cs' & k & ? & ? & ? & Hk & Hgk); try done.
  exists cs', (d + k)%Z. split_and!; try done; [lia..|]. by rewrite Z.add_assoc.
Qed.


End Theorems.

(** ** On the small server *)

(** A crash at the end of FINALIZE. *)
Definition restarted : server (list byte) := ChunkSample.start_on (now (s_sys ChunkSample.after_finalize)).


(** The first request after a restart: block 0, committed on disk, is locked. *)
Definition rebooted : server (list byte) := ChunkSample.start_on (now (s_sys ChunkSample.after_commit)).
Definition relocked : server (list byte) :=
  ChunkSample.after ChunkSample.client (Lock (ChunkSample.lock 0 2)) rebooted.

Lemma rebooted_ok : server_ok ChunkSample.site rebooted.
Proof.
  eapply booted_ok; [|apply ChunkSample.start_booted]. apply (ok_disk _ _ ChunkSample.after_commit_ok).
Qed.

Lemma settled_load {P} grants l c q (s : server P) y dir :
  loads_from c q s = Some y → ss_state_dir (l_ss l) = Some dir →
  fst (chunk_store_load grants dir (l_ino l) y) = on_disk l (s_sys s) → settled grants l c q s.
Proof. intros Hy Hd Hl y' Hy' _ dir' Hd'. congruence. Qed.

Lemma rebooted_settled :
  settled (λ _ _, true) ChunkSample.site ChunkSample.client (Lock (ChunkSample.lock 0 2)) rebooted.
Proof.
  apply (settled_load _ _ _ _ _ (s_sys rebooted) "s"); [reflexivity|reflexivity|]. vm_compute. reflexivity.
Qed.

Lemma chunk_requests_refine_witness :
  alters ChunkSample.site (change ChunkSample.client (Lock (ChunkSample.lock 0 2))) rebooted relocked ∧
  mem rebooted = None ∧
  cb_state (blk_at (view ChunkSample.site rebooted) 0) = CHUNK_STATE_COMMITTED ∧
  is_locked (blk_at (view ChunkSample.site relocked) 0) = true.
Proof.
  split; [|split; [reflexivity|split; vm_compute; reflexivity]].
  apply (chunk_requests_refine ChunkSample.ram ChunkSample.hash ChunkSample.site (λ _ _, true) ChunkSample.yes
           ChunkSample.client (Lock (ChunkSample.lock 0 2)) _
           (fst (ChunkSample.answer ChunkSample.client (Lock (ChunkSample.lock 0 2)) rebooted))
           _ ChunkSample.site_is_ok rebooted_ok ChunkSample.client_ok).
  - by split.
  - apply rebooted_settled.
  - apply ChunkSample.answer_after.
Defined.


Lemma chunk_ack_durable_witness :
  ∃ cs2 y, chunk_store_load (λ _ _, true) "s" 42 (mk_sys (now (s_sys ChunkSample.after_commit)) [] []) = (Some cs2, y) ∧
    ∀ j, (0 <= j < 3)%Z → blk_at cs2 j = blk_at (ChunkSample.store_of ChunkSample.after_commit) j.
Proof.
  destruct (chunk_ack_durable ChunkSample.ram ChunkSample.hash ChunkSample.site (λ _ _, true) ChunkSample.yes
           ChunkSample.client (Commit ChunkSample.commit) _
           (fst (ChunkSample.answer ChunkSample.client (Commit ChunkSample.commit) ChunkSample.after_finalize))
           ChunkSample.after_commit "s"%string (ChunkSample.store_of ChunkSample.after_commit)
           (now (s_sys ChunkSample.after_commit)) ChunkSample.site_is_ok ChunkSample.after_finalize_ok
           ChunkSample.client_ok) as (cs2 & Hl & _ & Hb).
  - by split.
  - apply ChunkSample.answer_after.
  - vm_compute. constructor.
  - reflexivity.
  - vm_compute. reflexivity.
  - vm_compute. discriminate.
  - apply crash_refl.
  - exists cs2. eexists. split; [exact Hl|]. exact Hb.
Defined.

(** Another owner's unlock is refused. *)
Definition wrong_unlock : CHUNK_UNLOCK4args := mk_unlock_args ChunkSample.stateid 0 2 (ChunkSample.owner 102).

Lemma chunk_refusal_atomic_witness :
  unmoved ChunkSample.site ChunkSample.after_lock (ChunkSample.after ChunkSample.client (Unlock wrong_unlock) ChunkSample.after_lock).
Proof.
  apply (chunk_refusal_atomic ChunkSample.ram ChunkSample.hash ChunkSample.site (λ _ _, true) ChunkSample.yes
           ChunkSample.client (Unlock wrong_unlock) _ (Status NFS4ERR_INVAL) _ ChunkSample.site_is_ok
           ChunkSample.after_lock_ok ChunkSample.client_ok).
  - by split.
  - reflexivity.
  - eapply settled_mem. vm_compute. reflexivity.
  - apply ChunkSample.answer_is. vm_compute. reflexivity.
Defined.

Lemma chunk_read_visible_witness :
  ∃ res r cs, fst (ChunkSample.answer ChunkSample.client (Read ChunkSample.read) ChunkSample.after_commit)
                = inr (Data res) ∧ crr_chunks res !! 2%nat = Some r ∧ cr_chunk r = [x69; x6a] ∧
              describes ChunkSample.ram cs (db ChunkSample.after_commit) 2 r.
Proof.
  destruct (fst (ChunkSample.answer ChunkSample.client (Read ChunkSample.read) ChunkSample.after_commit)) eqn:E;
    [vm_compute in E; discriminate|].
  destruct r as [r|r|res|r|r|r|r|r|]; try (vm_compute in E; discriminate).
  assert (H : ∃ r, crr_chunks res !! 2%nat = Some r ∧ cr_chunk r = [x69; x6a]).
  { vm_compute in E. injection E as <-. eexists. split; reflexivity. }
  destruct H as (r & Hr & Hb).
  destruct (chunk_read_visible ChunkSample.ram ChunkSample.hash ChunkSample.site (λ _ _, true) ChunkSample.yes
    ChunkSample.client ChunkSample.read ChunkSample.after_commit res
    (ChunkSample.after ChunkSample.client (Read ChunkSample.read) ChunkSample.after_commit) 2 r
    ChunkSample.site_is_ok ChunkSample.after_commit_ok ChunkSample.client_ok (ChunkSample.answer_is _ _ _ _ E) Hr)
    as (_ & _ & cs & _ & _ & Hd).
  exists res, r, cs. split_and!; try done.
Defined.

(** An overwrite under the guard of what was read. *)
Definition overwrite : CHUNK_WRITE4args := ChunkSample.write_at_ 0 (Some (mk_guard 0 17)).
Definition overwritten : server (list byte) :=
  ChunkSample.after ChunkSample.client (Write overwrite) ChunkSample.after_commit.

Lemma after_goes_on c q s :
  compound_ok ChunkSample.site c → request_ok q → is_rollback q = false →
  goes_on ChunkSample.ram ChunkSample.hash ChunkSample.site s (ChunkSample.after c q s).
Proof.
  intros Hc Hq Hr. exists (λ _ _, true), ChunkSample.yes, c, q, (fst (ChunkSample.answer c q s)).
  split; [exact Hc|]. split; [exact Hq|]. split; [exact Hr|]. apply ChunkSample.answer_after.
Qed.

(** After the overwrite and the finalization of its blocks. *)
Definition refinalized : server (list byte) :=
  ChunkSample.after ChunkSample.client (Finalize ChunkSample.finalize) overwritten.


End ChunkServerTheorems.
