(* ===== verification/ChunkRound.v ===== *)
(** * From a write to a read

    A payload cut into chunks and put together again, the blocks that finalize and
    commit move, and what a read of them gives back. *)

From S2P Require Import Prelude.
From S2P Require Import ChunkStore.
From S2P Require Import ChunkCorrect.
From S2P Require Import ChunkSteps.
From S2P Require Import ChunkPersist.
From S2P Require Import ChunkReload.
From S2P Require Import Handler.
From S2P Require Import Nfs4.
From S2P Require Import Checksum.
From S2P Require Import DataBlock.
From S2P Require Import ChunkOps.
From S2P Require Import ChunkLock.
From S2P Require Import ChunkEdits.
From S2P Require Import ChunkFrame.
From S2P Require Import ChunkLife.
From S2P Require Import ChunkIO.
From stdpp Require Import gmap.
Import ChunkStore ChunkCorrect ChunkSteps ChunkPersist ChunkReload Handler Nfs4 Checksum DataBlock
  ChunkOps ChunkLock ChunkEdits ChunkFrame ChunkLife ChunkIO.

Module ChunkRound.

(** ** Cutting a payload *)

Section Payload.

Context (p : payload) (Hp : payload_ok p) (Hsize : pl_chunk_size p ≠ 0%Z) (Hn : nchunks_of p ≠ 0%Z).

Abbreviation size := (pl_chunk_size p).
Abbreviation total := (total_data p).
Abbreviation n := (nchunks_of p).

(** The 32-bit sum of the division either does not wrap or gives no chunk at all. *)
Lemma nchunks_exact : n = ((total + size - 1) / size)%Z.
Proof using Hp Hsize Hn.
  destruct (pk_chunk_size _ Hp) as [Hs0 Hs1]. destruct (pk_total _ Hp) as [Ht0 Ht1]. clear Hp.
  unfold nchunks_of in *. destruct (Z.lt_ge_cases (total + size) (2 ^ 32)) as [Hlt|Hge].
  - rewrite (wrap_small 32 (total + size)) by (unfold in_width; lia).
    by rewrite wrap_small by (unfold in_width; lia).
  - assert (Hw : u32w (total + size) = (total + size - 2 ^ 32)%Z).
    { unfold wrap. symmetry. apply (Z.mod_unique_pos _ _ 1); lia. }
    rewrite Hw in *. destruct (Z.eq_dec (total + size)%Z (2 ^ 32)%Z) as [He|He].
    + rewrite He. done.
    + exfalso. apply Hn. rewrite wrap_small by (unfold in_width; lia). apply Z.div_small. lia.
Qed.

Lemma chunks_cover : ((n - 1) * size < total <= n * size)%Z.
Proof using Hp Hsize Hn.
  rewrite nchunks_exact. destruct (pk_chunk_size _ Hp) as [Hs0 Hs1].
  pose proof (Z.div_mod (total + size - 1) size Hsize).
  pose proof (Z.mod_pos_bound (total + size - 1) size). nia.
Qed.

Lemma chunk_fits i :
  (Z.of_nat i < n)%Z →
  (0 < chunk_len p n i <= size)%Z ∧
  (if (Z.of_nat i =? n - 1)%Z then Z.of_nat i * size + chunk_len p n i = total
   else chunk_len p n i = size ∧ Z.of_nat i * size + size <= total)%Z.
Proof using Hp Hsize Hn.
  intros Hi. pose proof chunks_cover as Hc. destruct (pk_chunk_size _ Hp) as [Hs0 Hs1].
  unfold chunk_len. destruct (Z.eqb_spec (Z.of_nat i) (n - 1)) as [He|He]; cbn [andb]; [|nia].
  pose proof (Z.mod_pos_bound total size ltac:(lia)).
  destruct (Z.eqb_spec (total mod size) 0) as [Hm|Hm]; cbn [negb].
  - apply Z.mod_divide in Hm as [k Hk]; [|lia]. rewrite Hk in *. assert (k = n)%Z as -> by nia. rewrite He. lia.
  - assert (total mod size = total - (n - 1) * size)%Z as Hq.
    { assert (total ≠ n * size)%Z by (intros Hx; apply Hm; rewrite Hx; apply Z.mod_mul; lia).
      rewrite Z.mul_sub_distr_r in *. symmetry. apply (Z.mod_unique_pos _ _ (n - 1)); [lia|].
      rewrite (Z.mul_comm size), Z.mul_sub_distr_r. lia. }
    rewrite He. lia.
Qed.

(** Where chunk [i] ends. *)
Lemma chunk_end i :
  (Z.of_nat i < n)%Z →
  (i * Z.to_nat size + Z.to_nat (chunk_len p n i) <= length (pl_chunks p))%nat ∧
  Z.to_nat (chunk_len p n i) = Nat.min (Z.to_nat size) (length (pl_chunks p) - i * Z.to_nat size).
Proof using Hp Hsize Hn.
  intros Hi. destruct (chunk_fits i Hi) as [Hl Hf]. destruct (pk_chunk_size _ Hp) as [Hs0 Hs1].
  unfold total_data in Hf. assert (Z.of_nat (i * Z.to_nat size) = Z.of_nat i * size)%Z by nia.
  destruct (Z.of_nat i =? n - 1)%Z; lia.
Qed.

Lemma length_chunk_data i :
  (Z.of_nat i < n)%Z → length (chunk_data p n i) = Z.to_nat (chunk_len p n i).
Proof using Hp Hsize Hn.
  intros Hi. destruct (chunk_end i Hi). unfold chunk_data. rewrite length_take, length_drop. lia.
Qed.

(** The chunks put together are the payload. *)
Lemma chunks_concat : concat (map (chunk_data p n) (seq 0 (Z.to_nat n))) = pl_chunks p.
Proof using Hp Hsize Hn.
  pose proof chunks_cover as Hc. destruct (pk_chunk_size _ Hp) as [Hs0 Hs1].
  assert (H : ∀ k, (Z.of_nat k <= n)%Z →
    concat (map (chunk_data p n) (seq 0 k)) = take (k * Z.to_nat size) (pl_chunks p)).
  { induction k as [|k IH]; intros Hk; [done|].
    rewrite seq_S, map_app, concat_app, IH by lia. cbn [map concat]. rewrite app_nil_r, Nat.add_0_l.
    destruct (chunk_end k ltac:(lia)) as [He Hl]. unfold chunk_data. rewrite Hl.
    rewrite <-(take_drop (k * Z.to_nat size) (take (S k * Z.to_nat size) (pl_chunks p))).
    rewrite take_take, (Nat.min_l (k * _) (S k * _)) by nia. f_equal. rewrite skipn_firstn_comm.
    replace (S k * Z.to_nat size - k * Z.to_nat size)%nat with (Z.to_nat size) by nia.
    rewrite <-take_take. f_equal. apply take_ge. rewrite length_drop. lia. }
  unfold total_data in Hc. assert (0 <= n)%Z by nia. rewrite H by lia. apply take_ge. nia.
Qed.

End Payload.

(** ** The data block *)

Section Data.

Context {P : Type} (ops : storage_ops P) (content : data_block P → list byte)
  (valid : data_block P → Prop) `{!DataOk ops content valid}.

Lemma s64_small x : (- 2 ^ 63 <= x < 2 ^ 63)%Z → s64 x = x.
Proof using. intros H. unfold s64. rewrite Z.mod_small by lia. lia. Qed.

(** Part of what was written, read back. *)
Lemma read_part offset k m (data old : list byte) :
  (k + m <= length data)%nat → take m (drop (offset + k) (write_at offset data old)) = take m (drop k data).
Proof using.
  intros H. unfold write_at. set (a := take offset _).
  assert (Ha : length a = offset) by (unfold a; rewrite length_take, length_app, length_replicate; lia).
  rewrite drop_app_ge by lia. replace (offset + k - length a)%nat with k by lia.
  rewrite drop_app_le by lia. rewrite take_app_le; [done|rewrite length_drop; lia].
Qed.

(** What the data block holds after a write. *)
Lemma stored_content callocs (p : payload) d d' :
  (0 <= pl_offset p)%Z → (0 <= pl_chunk_size p)%Z →
  (pl_offset p * pl_chunk_size p + total_data p < 2 ^ 63)%Z → (pl_offset p < 2 ^ 63)%Z →
  (∀ b, d = Some b → valid b) → data_stored ops callocs p d d' →
  ∃ b' old, d' = Some b' ∧ valid b' ∧
    content b' = write_at (Z.to_nat (pl_offset p * pl_chunk_size p)) (pl_chunks p) old.
Proof using DataOk0.
  intros H0 Hs Hb Ho Hv. unfold data_stored. cbv zeta. unfold total_data in *.
  assert (Hoff : s64 (s64 (pl_offset p) * pl_chunk_size p) = (pl_offset p * pl_chunk_size p)%Z).
  { rewrite (s64_small (pl_offset p)) by lia. apply s64_small. nia. }
  rewrite Hoff. set (o := (pl_offset p * pl_chunk_size p)%Z) in *. assert (0 <= o)%Z by nia.
  destruct d as [b|].
  - intros (wret & Hw & Hr). unfold data_block_write in Hw.
    pose proof (DataBlock.write_spec b (pl_chunks p) o (Hv b eq_refl) ltac:(lia) ltac:(lia)) as Hsp.
    destruct (db_write ops b (pl_chunks p) o) as [[ret b']|]; [|done]. injection Hw as <- <-.
    destruct Hsp as [Hv' [[? _]|[_ Hc]]]; [lia|]. by exists b', (content b).
  - intros [Ha Hne]. unfold data_block_alloc in Ha. destruct (callocs AllocDataBlock); cbn [negb] in Ha; [|congruence].
    rewrite wrap_small in Ha by (unfold in_width; lia).
    pose proof (alloc_spec (pl_chunks p) o ltac:(lia) ltac:(lia)) as Hsp.
    destruct (db_alloc ops _ _ o _) as [[e|b']|]; [congruence| |done]. injection Ha as <-.
    destruct Hsp as [Hv' Hc]. by exists b', [].
Qed.

(** A chunk of it comes back from the backend. *)
Lemma read_chunk_data (p : payload) b old i :
  payload_ok p → pl_chunk_size p ≠ 0%Z → nchunks_of p ≠ 0%Z → (Z.of_nat i < nchunks_of p)%Z →
  ((pl_offset p + nchunks_of p) * pl_chunk_size p < 2 ^ 63)%Z → valid b →
  content b = write_at (Z.to_nat (pl_offset p * pl_chunk_size p)) (pl_chunks p) old →
  let off := (pl_offset p + Z.of_nat i)%Z in
  read_data ops (Some b) (chunk_len p (nchunks_of p) i) (s64 (u64w (off * pl_chunk_size p)))
  = Some (chunk_data p (nchunks_of p) i).
Proof using DataOk0.
  intros Hp Hz Hn Hi Hb Hv Hc off. destruct (pk_offset _ Hp) as [Ho0 Ho1]. destruct (pk_chunk_size _ Hp) as [Hs0 Hs1].
  destruct (chunk_fits p Hp Hz Hn i Hi) as [[Hl0 Hl1] _]. destruct (chunk_end p Hp Hz Hn i Hi) as [Hend _].
  assert (Hoff : (0 <= off * pl_chunk_size p)%Z ∧ (off * pl_chunk_size p + pl_chunk_size p < 2 ^ 63)%Z) by (unfold off; nia).
  rewrite wrap_small by (unfold in_width; lia). rewrite s64_small by lia. unfold read_data, data_block_read.
  destruct (read_spec b (chunk_len p (nchunks_of p) i) (off * pl_chunk_size p)%Z Hv ltac:(lia) ltac:(lia) ltac:(lia))
    as (m & ->). rewrite Hc.
  replace (Z.to_nat (off * pl_chunk_size p)) with
    (Z.to_nat (pl_offset p * pl_chunk_size p) + i * Z.to_nat (pl_chunk_size p))%nat by (unfold off; nia).
  rewrite read_part by lia. f_equal. change (take _ _) with (chunk_data p (nchunks_of p) i).
  apply splice_all. by rewrite length_replicate, length_chunk_data.
Qed.

End Data.

(** ** The blocks of a payload *)

Section Blocks.

Context (p : payload) (Hp : payload_ok p) (Hsize : pl_chunk_size p ≠ 0%Z) (Hn : nchunks_of p ≠ 0%Z).
Hypothesis (Hids : chunk_validate_co_ids (pl_co_ids p) (nchunks_of p) = true).
Hypothesis (Hrange : (pl_offset p + nchunks_of p < 2 ^ 63)%Z).

Abbreviation n := (nchunks_of p).
Abbreviation at_ := (λ i : nat, (pl_offset p + Z.of_nat i)%Z).

Definition owner_at (i : nat) : chunk_owner4 :=
  mk_owner (pl_cohort_id p) (pl_client_id p) (rd 0%Z (pl_co_ids p) i).

(** The block describes chunk [i]. *)
Record carries (i : nat) (b : chunk_block) : Prop := {
  ca_owner : mk_owner (cb_cohort_id b) (cb_client_id b) (cb_owner_id b) = owner_at i;
  ca_payload : cb_payload_id b = pl_payload_id p;
  ca_length : cb_chunk_size b = chunk_len p n i;
  ca_sound : has_flag (cb_flags b) CHUNK_BLOCK_ERROR = false;
  ca_checksum : (cb_checksum_algorithm b, cb_checksum_len b, cb_checksum_value b) = recorded_checksum p i;
}.

Lemma rewritten_carries c flags i b :
  flags = 0%Z ∨ flags = CHUNK_BLOCK_REPAIR_PROVENANCE → carries i (rewritten c flags p n i b).
Proof using.
  intros Hf. unfold rewritten, new_block, keep_lock. destruct (recorded_checksum p i) as [[algo len] value] eqn:E.
  destruct (has_flag (cb_flags b) _); (split; [done|done|done| |by rewrite E]); by destruct Hf as [-> | ->].
Qed.

Lemma carries_state i b st : carries i b → carries i (set_cb_state b st).
Proof using. by intros []. Qed.

(** Every chunk has its block, in the state [st]. *)
Definition laid (cs : chunk_store) (st : Z) : Prop :=
  ∀ i, (Z.of_nat i < n)%Z → carries i (blk_at cs (at_ i)) ∧ cb_state (blk_at cs (at_ i)) = st.

Lemma laid_inside cs st i :
  store_ok cs → (st ≠ CHUNK_STATE_EMPTY)%Z → laid cs st → (Z.of_nat i < n)%Z →
  occupied (blk_at cs (at_ i)) = true ∧ (at_ i < cs_nblocks cs)%Z.
Proof using Hp Hn.
  intros Hok Hst Hl Hi. destruct (Hl i Hi) as [_ Hs]. destruct (pk_offset _ Hp).
  split; [unfold occupied; rewrite Hs; by apply negb_true_iff, Z.eqb_neq|].
  destruct (Z.lt_ge_cases (at_ i) (cs_high_water cs)) as [Hlt|Hge]; [pose proof (ok_high _ Hok); lia|].
  destruct (ok_above _ Hok (at_ i)) as [He _]; [lia|congruence].
Qed.

Lemma duplicate_false (l : list Z) : has_duplicate l = false → NoDup l.
Proof using.
  induction l as [|x l IH]; cbn; [constructor|]. intros [H1 H2]%orb_false_iff. constructor; [|by apply IH].
  intros Hin. apply not_true_iff_false in H1. apply H1, existsb_exists. exists x.
  split; [by apply list_elem_of_In|apply Z.eqb_refl].
Qed.

Lemma ids_inj i k :
  (Z.of_nat i < n)%Z → (Z.of_nat k < n)%Z → rd 0%Z (pl_co_ids p) i = rd 0%Z (pl_co_ids p) k → i = k.
Proof using Hn Hids.
  intros Hi Hk E. unfold chunk_validate_co_ids in Hids. apply andb_true_iff in Hids as [Hlen Hdup].
  apply Z.eqb_eq in Hlen. apply negb_true_iff, duplicate_false in Hdup.
  eapply NoDup_lookup; [exact Hdup|apply rd_lt; lia|]. rewrite E. apply rd_lt. lia.
Qed.

(** The block of an owner of the payload is the one of its chunk. *)
Lemma laid_home cs st i :
  store_good cs → (st ≠ CHUNK_STATE_EMPTY)%Z → laid cs st → (Z.of_nat i < n)%Z →
  home cs (pl_offset p) n (owner_at i) = Some (at_ i).
Proof using Hp Hn Hids.
  intros Hg Hst Hl Hi. pose proof (inv_ok _ (good_inv _ Hg)) as Hok.
  assert (Hmine : ∀ k, (Z.of_nat k < n)%Z →
    mine cs (pl_cohort_id p) (pl_client_id p) (rd 0%Z (pl_co_ids p) i) (at_ k) = bool_decide (i = k)).
  { intros k Hk. destruct (laid_inside cs st k Hok Hst Hl Hk) as [Hoc _]. destruct (Hl k Hk) as [[Ho _ _ _ _] _].
    injection Ho as H1 H2 H3. unfold mine, owned_by. rewrite Hoc, H1, H2, H3, !Z.eqb_refl. cbn [andb negb orb].
    rewrite negb_involutive. apply eq_true_iff_eq. rewrite Z.eqb_eq, bool_decide_eq_true.
    split; [intros; symmetry; by apply ids_inj|congruence]. }
  destruct (home cs (pl_offset p) n (owner_at i)) as [j|] eqn:E; unfold home, owner_at in E; cbn in E.
  - apply owners_block_in in E as (Hr & Hn' & Hm). replace j with (at_ (Z.to_nat (j - pl_offset p))) in Hm by lia.
    rewrite Hmine in Hm by lia. apply bool_decide_eq_true_1 in Hm. f_equal. lia.
  - exfalso. unfold owners_block in E. destruct (laid_inside cs st i Hok Hst Hl Hi) as [_ Hin].
    apply (find_none _ _) with (x := at_ i) in E; [rewrite Hmine in E by done; by rewrite bool_decide_true in E|].
    apply list_elem_of_In, elem_of_seqZ. lia.
Qed.

Definition payload_owners : list chunk_owner4 := map owner_at (seq 0 (Z.to_nat n)).

Lemma payload_owners_in co : co ∈ payload_owners ↔ ∃ i, (Z.of_nat i < n)%Z ∧ co = owner_at i.
Proof using Hn.
  unfold payload_owners. rewrite list_elem_of_In, in_map_iff. split.
  - intros (i & <- & Hi%in_seq). exists i. split; [lia|done].
  - intros (i & Hi & ->). exists i. split; [done|]. apply in_seq. lia.
Qed.

Lemma payload_homes cs st :
  store_good cs → (st ≠ CHUNK_STATE_EMPTY)%Z → laid cs st →
  NoDup (map (home cs (pl_offset p) n) payload_owners).
Proof using Hp Hn Hids.
  intros Hg Hst Hl. unfold payload_owners. rewrite map_map.
  rewrite (map_ext_in _ (λ i, Some (at_ i))).
  2: { intros i Hi%in_seq. eapply laid_home; [done|exact Hst|done|lia]. }
  apply (NoDup_fmap_2_strong (λ i, Some (at_ i))); [|apply NoDup_seq].
  intros x y _ _ [= H]. lia.
Qed.

(** FINALIZE and COMMIT by the owners move every block. *)
Lemma laid_moved {P} l (s s' : server P) cs from to sts :
  (0 < from <= 3)%Z → (0 < to <= 3)%Z → from ≠ to → (n < 2 ^ 32)%Z →
  server_ok l s → mem s = Some cs → laid cs from →
  moved l (pl_offset p) n from to payload_owners s s' sts →
  ∃ cs', mem s' = Some cs' ∧ laid cs' to ∧ cs_chunk_size cs' = cs_chunk_size cs ∧ Forall (eq NFS4_OK) sts.
Proof using Hp Hn Hids Hsize.
  intros Hfrom Hto Hft Hn32 Hok Hm Hl (c0 & cs1 & cs' & Hm0 & _ & Et & Hm' & Hsame & _).
  assert (c0 = cs) as -> by congruence. clear Hm0.
  pose proof (ok_mem _ _ Hok _ Hm) as Hg. pose proof (alike_refl cs cs Hg eq_refl) as Hal0.
  assert (Hst : from ≠ CHUNK_STATE_EMPTY) by (unfold CHUNK_STATE_EMPTY; lia).
  assert (Hcnt : (0 <= n)%Z) by (pose proof (chunks_cover p Hp Hsize Hn); unfold total_data in *; destruct (pk_chunk_size _ Hp); nia).
  destruct (transitions_all cs (pl_offset p) n from to (pk_offset _ Hp) Hcnt Hfrom Hto Hft payload_owners cs sts cs1
    Hg Hal0 (payload_homes cs from Hg Hst Hl)) as [Hall Hend].
  { intros co (i & Hi & ->)%payload_owners_in. exists (at_ i). split; [by eapply laid_home|by apply Hl]. }
  { done. }
  destruct (transitions_at cs (pl_offset p) n from to (pk_offset _ Hp) Hcnt Hfrom Hto Hft 0 payload_owners cs sts cs1
    Hg ltac:(lia) Hal0 Et) as (Hal & _).
  exists cs'. split; [done|]. destruct Hsame as (Hb & _ & _ & Hsz & _). split; [|split; [|done]].
  - intros i Hi. destruct (pk_offset _ Hp) as [H0 _].
    assert (Hat : blk_at cs' (at_ i) = blk_at cs1 (at_ i)) by (unfold blk_at; by rewrite Hb). rewrite Hat.
    assert (Hs1 : cb_state (blk_at cs1 (at_ i)) = to).
    { apply Hend; [lia|]. exists (owner_at i). split; [apply payload_owners_in; by exists i|]. by eapply laid_home. }
    split; [|done]. rewrite (al_block _ _ Hal) by lia. apply carries_state. by apply Hl.
  - rewrite Hsz. apply (al_dims _ _ Hal).
Qed.

(** *** Reading them *)

Definition chunk_reply (b : chunk_block) (i : nat) : read_chunk4 :=
  read_meta b (mk_checksum (cb_checksum_algorithm b) (take (Z.to_nat (cb_checksum_len b)) (cb_checksum_value b)))
    NFS4_OK (chunk_data p n i).

Lemma laid_lookup cs st i :
  store_ok cs → (st ≠ CHUNK_STATE_EMPTY)%Z → laid cs st → (Z.of_nat i < n)%Z →
  u64w (pl_offset p + Z.of_nat i) = at_ i ∧ chunk_store_lookup (Some cs) (at_ i) = Some (blk_at cs (at_ i)).
Proof using Hp Hn Hrange.
  intros Hok Hst Hl Hi. destruct (pk_offset _ Hp). split; [apply wrap_small; unfold in_width; lia|].
  rewrite lookup_occupied by (done || lia). by destruct (laid_inside cs st i Hok Hst Hl Hi) as [-> _].
Qed.

Lemma available_laid cs st avail pending :
  store_ok cs → (CHUNK_STATE_FINALIZED <= st)%Z → laid cs st →
  available cs (pl_offset p) n = (avail, pending) → avail = Z.of_nat (Z.to_nat n).
Proof using Hp Hn Hrange.
  intros Hok Hst Hl. assert (Hst0 : st ≠ CHUNK_STATE_EMPTY) by (unfold CHUNK_STATE_EMPTY, CHUNK_STATE_FINALIZED in *; lia).
  unfold available. match goal with |- context [for_break 0 ?m ?f ?a] =>
    assert (H : match for_break 0 m f a with inl av => av = Z.of_nat m | inr _ => False end);
    [|destruct (for_break 0 m f a); [by intros [= <- _]|done]] end.
  apply (for_break_ind (λ k (av : Z), av = Z.of_nat k) (λ _ : Z * bool, False)); [done|].
  intros k av Hk ->. destruct (laid_lookup cs st k Hok Hst0 Hl ltac:(lia)) as [-> ->].
  destruct (Hl k ltac:(lia)) as [_ Hs]. rewrite Hs.
  destruct (Z.leb_spec CHUNK_STATE_FINALIZED st); lia.
Qed.

Lemma read_laid {P} (ops : storage_ops P) content valid `{!DataOk ops content valid} callocs cs st b old chunks :
  (∀ i, callocs (AllocReadData i) = true) →
  store_ok cs → (CHUNK_STATE_FINALIZED <= st)%Z → laid cs st → cs_chunk_size cs = pl_chunk_size p →
  ((pl_offset p + n) * pl_chunk_size p < 2 ^ 63)%Z → valid b →
  content b = write_at (Z.to_nat (pl_offset p * pl_chunk_size p)) (pl_chunks p) old →
  read_chunks ops callocs cs (Some b) (pl_offset p) (Z.of_nat (Z.to_nat n)) = inr chunks →
  chunks = map (λ i, chunk_reply (blk_at cs (at_ i)) i) (seq 0 (Z.to_nat n)).
Proof using Hp Hn Hsize Hrange.
  intros Hall Hok Hst Hl Hstride Hb Hv Hc Er.
  assert (Hst0 : st ≠ CHUNK_STATE_EMPTY) by (unfold CHUNK_STATE_EMPTY, CHUNK_STATE_FINALIZED in *; lia).
  unfold read_chunks in Er. rewrite Nat2Z.id in Er.
  pose proof (for_break_ind (λ k acc, acc = map (λ i, chunk_reply (blk_at cs (at_ i)) i) (seq 0 k))
    (λ r : fail + list read_chunk4, ∃ e, r = inl e) 0 (Z.to_nat n) (read_one ops callocs cs (Some b) (pl_offset p))
    [] eq_refl) as H.
  destruct (for_break 0 _ _ _) as [acc'|r]; [injection Er as <-; apply H|subst r; destruct H as (e & [=])];
    intros k acc Hk ->; unfold read_one; destruct (laid_lookup cs st k Hok Hst0 Hl ltac:(lia)) as [-> ->];
    destruct (Hl k ltac:(lia)) as [[_ _ Hlen Hsound _] _]; unfold chunk_checksum_pack;
    (case_if; [by eexists|]); rewrite Hsound, Hall; cbn [negb];
    rewrite Hlen, Hstride, (read_chunk_data ops content valid p b old k Hp Hsize Hn) by (done || lia);
    by rewrite seq_S, map_app.
Qed.

(** No chunk is refused when memory is there for its checksum. *)
Lemma read_laid_total {P} (ops : storage_ops P) content valid `{!DataOk ops content valid} callocs cs st b old e :
  (∀ i, callocs (AllocReadData i) = true) → (∀ i, callocs (AllocReadChecksum i) = true) →
  store_ok cs → (CHUNK_STATE_FINALIZED <= st)%Z → laid cs st → cs_chunk_size cs = pl_chunk_size p →
  ((pl_offset p + n) * pl_chunk_size p < 2 ^ 63)%Z → valid b →
  content b = write_at (Z.to_nat (pl_offset p * pl_chunk_size p)) (pl_chunks p) old →
  read_chunks ops callocs cs (Some b) (pl_offset p) (Z.of_nat (Z.to_nat n)) ≠ inl e.
Proof using Hp Hn Hsize Hrange.
  intros Hall Hck Hok Hst Hl Hstride Hb Hv Hc.
  assert (Hst0 : st ≠ CHUNK_STATE_EMPTY) by (unfold CHUNK_STATE_EMPTY, CHUNK_STATE_FINALIZED in *; lia).
  unfold read_chunks. rewrite Nat2Z.id.
  pose proof (for_break_ind (λ _ _, True) (λ _ : fail + list read_chunk4, False) 0 (Z.to_nat n)
    (read_one ops callocs cs (Some b) (pl_offset p)) [] I) as H.
  destruct (for_break 0 _ _ _) as [acc'|r]; [done|]. destruct H. intros k acc Hk _. unfold read_one.
  destruct (laid_lookup cs st k Hok Hst0 Hl ltac:(lia)) as [-> ->].
  destruct (Hl k ltac:(lia)) as [[_ _ Hlen Hsound _] _]. unfold chunk_checksum_pack.
  rewrite Hck, Hsound, Hall, andb_false_r. cbn [negb].
  by rewrite Hlen, Hstride, (read_chunk_data ops content valid p b old k Hp Hsize Hn) by (done || lia).
Qed.

End Blocks.

End ChunkRound.
