(* ===== verification/ChunkRoundTheorems.v ===== *)
(** * Chunks that are written are read back

    A write, the finalize and the commit of its owners, and a read, through the
    handlers and any backend that keeps data. *)

From S2P Require Import Prelude.
From S2P Require Import ChunkStore.
From S2P Require Import ChunkCorrect.
From S2P Require Import ChunkSteps.
From S2P Require Import ChunkPersist.
From S2P Require Import ChunkReload.
From S2P Require Import Handler.
From S2P Require Import Nfs4.
From S2P Require Import Checksum.
From S2P Require Import DataBlock.
From S2P Require Import ChunkOps.
From S2P Require Import ChunkLock.
From S2P Require Import ChunkEdits.
From S2P Require Import ChunkFrame.
From S2P Require Import ChunkLife.
From S2P Require Import ChunkIO.
From S2P Require Import ChunkServer.
From S2P Require Import ChunkRound.
From S2P Require Import ChunkSample.
From stdpp Require Import gmap.
Import ChunkStore ChunkCorrect ChunkSteps ChunkPersist ChunkReload Handler Nfs4 Checksum DataBlock
  ChunkOps ChunkLock ChunkEdits ChunkFrame ChunkLife ChunkIO ChunkServer ChunkRound.

Module ChunkRoundTheorems.

(** ** Checksums *)

Lemma expected_len_max algo : (chunk_checksum_expected_len algo <= 64)%Z.
Proof. unfold chunk_checksum_expected_len. repeat case_if; lia. Qed.

(** The checksum that came with a chunk is recorded whole. *)
Lemma recorded_back h p i algo len value :
  checksums_match h p (nchunks_of p) = true → (i < length (pl_checksums p))%nat →
  recorded_checksum p i = (algo, len, value) →
  mk_checksum algo (take (Z.to_nat len) value) = rd zero_checksum (pl_checksums p) i ∧
  chunk_checksum_verify h (rd zero_checksum (pl_checksums p) i) (chunk_data p (nchunks_of p) i) = 0%Z.
Proof.
  intros Hm Hi. unfold recorded_checksum. destruct (Nat.ltb_spec i (length (pl_checksums p))); [|lia].
  set (c := rd zero_checksum (pl_checksums p) i).
  assert (Hv : chunk_checksum_verify h c (chunk_data p (nchunks_of p) i) = 0%Z).
  { unfold checksums_match in Hm. rewrite forallb_forall in Hm. apply Z.eqb_eq, (Hm i), in_seq. lia. }
  assert (Hl : (length (cs_value c) <= 64)%nat).
  { unfold chunk_checksum_verify in Hv. cbv zeta in Hv. destruct (_ || _) eqn:E; [done|].
    apply orb_false_iff in E as [E1%Z.ltb_ge E2%negb_false_iff%Z.eqb_eq].
    pose proof (expected_len_max (cs_algorithm c)). rewrite wrap_small in E2 by (unfold in_width; lia). lia. }
  destruct (Z.ltb_spec (Z.of_nat CHUNK_VALUE_MAX) (Z.of_nat (length (cs_value c)))) as [Hx|Hx].
  { unfold CHUNK_VALUE_MAX in Hx. lia. }
  intros [= <- <- <-]. rewrite Nat2Z.id. split; [|done].
  rewrite (take_ge (cs_value c) (length (cs_value c))) by lia.
  unfold splice. rewrite take_0, app_nil_l, take_app_length. by destruct c.
Qed.

(** ** The theorem *)

Section Round.

Context {P : Type} (ops : storage_ops P) (content : data_block P → list byte)
  (valid : data_block P → Prop) `{!DataOk ops content valid} (h : hashes) (l : site_of).
Implicit Types (s : server P).

(** What a successful write leaves: its blocks pending, its bytes in the data block. *)
Lemma write_lays grants callocs c a s r s' :
  site_ok l → server_ok l s → compound_ok l c → payload_ok (payload_of_write a) →
  let p := payload_of_write a in
  ((pl_offset p + nchunks_of p) * pl_chunk_size p < 2 ^ 63)%Z → (∀ b, db s = Some b → valid b) →
  nfs4_op_chunk_write ops grants callocs h c a s = (inr r, s') →
  pl_chunk_size p ≠ 0%Z ∧ (0 < nchunks_of p < 2 ^ 32)%Z ∧ (pl_offset p + nchunks_of p < 2 ^ 63)%Z ∧
  chunk_validate_co_ids (pl_co_ids p) (nchunks_of p) = true ∧
  checksums_match h p (nchunks_of p) = true ∧
  (pl_checksums p ≠ [] → Z.of_nat (length (pl_checksums p)) = nchunks_of p) ∧ server_ok l s' ∧
  (∃ cs, mem s' = Some cs ∧ laid p cs CHUNK_STATE_PENDING) ∧
  ∃ b old, db s' = Some b ∧ valid b ∧
    content b = write_at (Z.to_nat (pl_offset p * pl_chunk_size p)) (pl_chunks p) old.
Proof using DataOk0.
  intros Hsite Hok [Hc Hcl] Hp. cbv zeta. intros Hbound Hv E.
  destruct (wp_run _ _ _ _ _ (write_op_spec ops grants callocs h l Hsite c a s Hc Hp Hcl Hok) E)
    as (Hf & _ & _ & _ & (ca & cs0 & cs' & algo & Hval & Hg & _ & _ & Hm' & R & Hd) & _ & Hids).
  set (p := payload_of_write a) in *. destruct (validated h c (s_inode s) p algo _ Hp Hval) as (_ & Hz & _ & _ & Hn & Hck & Hcn).
  destruct (pk_offset _ Hp) as [H0 _]. destruct (pk_chunk_size _ Hp) as [Hs0 Hs1].
  assert (Hr : (pl_offset p + nchunks_of p < 2 ^ 63)%Z) by nia.
  split_and!; try done; try lia; [apply Hf| |].
  - exists cs'. split; [done|]. intros i Hi.
    pose proof (re_done _ _ _ _ _ _ _ R i ltac:(lia)) as Hb. cbv beta in Hb.
    rewrite wrap_small in Hb by (unfold in_width; lia). rewrite Hb. split; [apply rewritten_carries; by left|].
    unfold rewritten, new_block, keep_lock. destruct (recorded_checksum p i) as [[? ?] ?].
    by destruct (has_flag _ _).
  - apply (stored_content ops content valid callocs p (db s) (db s')); try done; [|lia].
    destruct (chunks_cover p Hp Hz ltac:(lia)). nia.
Qed.

(** FINALIZE and COMMIT by the owners of the payload. *)
Lemma commit_lays g2 g3 c2 c3 f2 f3 p st2 st3 s1 s2 s3 cs1 r2 r3 :
  site_ok l → compound_ok l f2 → compound_ok l f3 → payload_ok p → pl_chunk_size p ≠ 0%Z →
  (0 < nchunks_of p < 2 ^ 32)%Z → chunk_validate_co_ids (pl_co_ids p) (nchunks_of p) = true →
  server_ok l s1 → mem s1 = Some cs1 → laid p cs1 CHUNK_STATE_PENDING →
  nfs4_op_chunk_finalize g2 c2 f2 (mk_finalize_args st2 (pl_offset p) (nchunks_of p) (payload_owners p)) s1 = (inr r2, s2) →
  nfs4_op_chunk_commit g3 c3 f3 (mk_commit_args st3 (pl_offset p) (nchunks_of p) (payload_owners p)) s2 = (inr r3, s3) →
  ∃ cs3, server_ok l s3 ∧ mem s3 = Some cs3 ∧ laid p cs3 CHUNK_STATE_COMMITTED ∧
    cs_chunk_size cs3 = cs_chunk_size cs1 ∧ db s3 = db s1.
Proof using.
  intros Hsite [H2 _] [H3 _] Hp Hz Hn Hids Hok1 Hm1 Hl1 E2 E3.
  assert (Hn0 : nchunks_of p ≠ 0%Z) by lia. assert (Hw : in_width 32 (nchunks_of p)) by (unfold in_width; lia).
  pose proof (pk_offset _ Hp) as Ho.
  destruct (wp_run _ _ _ _ _ (finalize_spec g2 c2 l Hsite f2 (mk_finalize_args st2 (pl_offset p) (nchunks_of p) (payload_owners p))
    s1 H2 ltac:(by split) Hok1) E2) as (Hs2 & _ & _ & Hmv2).
  destruct (laid_moved p Hp Hz Hn0 Hids l s1 s2 cs1 CHUNK_STATE_PENDING CHUNK_STATE_FINALIZED _ ltac:(done) ltac:(done) ltac:(done) (proj2 Hn) Hok1 Hm1 Hl1 Hmv2)
    as (cs2 & Hm2 & Hl2 & Hsz2 & _).
  pose proof (fol_ok _ _ _ (st_fol _ _ _ Hs2)) as Hok2.
  destruct (wp_run _ _ _ _ _ (commit_spec g3 c3 l Hsite f3 (mk_commit_args st3 (pl_offset p) (nchunks_of p) (payload_owners p))
    s2 H3 ltac:(by split) Hok2) E3) as (Hs3 & _ & _ & Hmv3).
  destruct (laid_moved p Hp Hz Hn0 Hids l s2 s3 cs2 CHUNK_STATE_FINALIZED CHUNK_STATE_COMMITTED _ ltac:(done) ltac:(done) ltac:(done) (proj2 Hn) Hok2 Hm2 Hl2 Hmv3)
    as (cs3 & Hm3 & Hl3 & Hsz3 & _).
  exists cs3. split_and!; try done; [apply Hs3|congruence|].
  rewrite (st_db _ _ _ Hs3). apply Hs2.
Qed.


End Round.

(** ** On the small server *)

(** What was read. *)
Definition read_back : CHUNK_READ4resok :=
  match fst (ChunkSample.answer ChunkSample.client (Read ChunkSample.read) ChunkSample.after_commit) with
  | inr (Data r) => r
  | _ => mk_read_res true []
  end.

Definition replied (q : request) (s : server (list byte)) : reply :=
  match fst (ChunkSample.answer ChunkSample.client q s) with inr r => r | inl _ => Done end.


End ChunkRoundTheorems.
