(* ===== verification/ChunkProgress.v ===== *)
(** * A write comes to its end

    When nothing is short and nobody is in the way, a write, the finalize and the
    commit of its owners, and a read are all served, and the read returns the bytes. *)

From S2P Require Import Prelude.
From S2P Require Import Posix.
From S2P Require Import ChunkStore.
From S2P Require Import ChunkDisk.
From S2P Require Import ChunkCorrect.
From S2P Require Import ChunkSteps.
From S2P Require Import ChunkPersist.
From S2P Require Import ChunkReload.
From S2P Require Import Handler.
From S2P Require Import Nfs4.
From S2P Require Import Checksum.
From S2P Require Import Trust.
From S2P Require Import DataBlock.
From S2P Require Import ChunkOps.
From S2P Require Import ChunkLock.
From S2P Require Import TrustCorrect.
From S2P Require Import ChunkEdits.
From S2P Require Import ChunkFrame.
From S2P Require Import ChunkLife.
From S2P Require Import ChunkIO.
From S2P Require Import ChunkServer.
From S2P Require Import ChunkRound.
From S2P Require Import ChunkRoundTheorems.
From S2P Require Import ChunkSample.
From stdpp Require Import gmap strings.
Import Posix ChunkStore ChunkDisk ChunkCorrect ChunkSteps ChunkPersist ChunkReload Handler Nfs4
  Checksum Trust DataBlock ChunkOps ChunkLock TrustCorrect ChunkEdits ChunkFrame ChunkLife ChunkIO
  ChunkServer ChunkRound ChunkRoundTheorems.

Module ChunkProgress.

(** ** Calls that do not fail *)

Lemma read_idle n fd s : outs s = [] → snd (sys_read n fd s) = s.
Proof. intros H. unfold sys_read, next_outcome. by rewrite H. Qed.

Lemma loop_idle {A} size (decode : list byte → A) bad n arr fd s :
  outs s = [] →
  match read_loop size decode bad n arr fd s with inl (_, _, s') => s' = s | inr s' => s' = s end.
Proof.
  intros Ho. unfold read_loop. generalize 0%nat. revert arr fd.
  induction n as [|n IH]; intros arr fd lo; cbn [for_break]; [done|].
  pose proof (read_idle size fd s Ho) as Hr.
  destruct (sys_read size fd s) as [[[k buf] fd1] s1]. cbn [snd] in Hr. subst s1.
  repeat case_if; [done..|apply IH].
Qed.

(** A load leaves the system as it is. *)
Lemma load_idle grants dir ino s : outs s = [] → snd (chunk_store_load grants dir ino s) = s.
Proof.
  intros Ho. unfold chunk_store_load. destruct (chunk_meta_path _ _ _) as [|path]; [done|].
  unfold sys_open, next_outcome. rewrite Ho. destruct (now s !! path) as [f|]; [|done].
  assert (H : snd (load_store grants ino (f_bytes f) s) = s).
  { unfold load_store. pose proof (read_idle HEADER_SIZE (f_bytes f) s Ho) as Hr.
    destruct (sys_read _ _ s) as [[[k buf] fd1] s1]. cbn [snd] in Hr. subst s1.
    do 4 (case_if; [done|]). rewrite load_blocks_loop.
    match goal with |- context [read_loop ?a ?b ?c ?d ?e ?f s] =>
      pose proof (loop_idle a b c d e f s Ho) as H1; destruct (read_loop a b c d e f s) as [[[bl fd2] s2]|s2] end;
      subst s2; [|done].
    rewrite load_ranges_loop.
    match goal with |- context [read_loop ?a ?b ?c ?d ?e ?f s] =>
      pose proof (loop_idle a b c d e f s Ho) as H2; destruct (read_loop a b c d e f s) as [[[rs fd3] s3]|s3] end;
      by subst s3. }
  destruct (load_store _ _ _ s) as [cs s1]. cbn [snd] in H. subst s1.
  unfold sys_close, next_outcome. by rewrite Ho.
Qed.

(** ** Steps that go through *)

(** A statement that only looks, or a guard that [tac] shows to let the request by. *)
Ltac pass tac := run_step idtac; run_step tac.

Section Steps.

Context {P : Type} (grants : elem → Z → bool) (callocs : site → bool).
Hypothesis (Hgrants : ∀ k n, grants k n = true) (Hcallocs : ∀ x, callocs x = true).
Implicit Types (s : server P).

(** The compound is on a file that takes CHUNK operations. *)
Record reaches s (c : compound) : Prop := {
  rc_handle : network_file_handle_empty (c_curr_nfh c) = false;
  rc_inode : c_inode c = true;
  rc_regular : S_ISREG (i_mode (s_inode s)) = true;
  rc_chunked : chunk_op_on_non_chunked c (s_inode s) = false;
}.

(** No call to the system fails and no test budget is left; the file is of the same
    kind as in [s0] and the trust table is the same. *)
Record steady s0 s : Prop := {
  sd_outs : outs (s_sys s) = [];
  sd_budgets : s_budgets s = mk_budgets 0 0 0 0;
  sd_ino : i_ino (s_inode s) = i_ino (s_inode s0);
  sd_mode : i_mode (s_inode s) = i_mode (s_inode s0);
  sd_flags : i_attr_flags (s_inode s) = i_attr_flags (s_inode s0);
  sd_trust : trust_ht (s_trust s) = trust_ht (s_trust s0);
}.

Lemma steady_reaches s0 s c : steady s0 s → reaches s0 c → reaches s c.
Proof using.
  intros [_ _ _ Hm Hf _] [? ? ? Hc]. split; try done; [by rewrite Hm|].
  revert Hc. unfold chunk_op_on_non_chunked, inode_chunked_state. by rewrite Hf.
Qed.

Lemma steady_trans s1 s2 s3 : steady s1 s2 → steady s2 s3 → steady s1 s3.
Proof using. intros [] []. split; congruence. Qed.

Lemma steady_self s0 s : steady s0 s → steady s s.
Proof using. by intros []. Qed.

Lemma steady_authorized c stid client_id rw s0 s :
  steady s0 s → authorized c stid client_id rw (s_trust s0) → authorized c stid client_id rw (s_trust s).
Proof using. intros Hs. apply authorized_ht. symmetry. apply Hs. Qed.

Lemma runs_trusted c stid client_id rw (Q : () → server P → Prop) s0 s :
  steady s0 s → authorized c stid client_id rw (s_trust s0) →
  (∀ s', steady s0 s' → mem s' = mem s → db s' = db s → s_sys s' = s_sys s → Q tt s') →
  runs (chunk_check_trusted_stateid c stid client_id rw) Q s.
Proof using.
  intros Hs Ha H. apply (steady_authorized _ _ _ _ _ _ Hs) in Ha. apply runs_of_wp, wp_check; [|done].
  intros t Ht _. exists tt. split; [done|]. apply H; try done. destruct Hs. split; try done. cbn. congruence.
Qed.

Lemma runs_budget get put (Q : bool → server P → Prop) s :
  get (s_budgets s) = 0%Z → Q false s → runs (take_budget get put) Q s.
Proof using. intros Hg HQ. exists false, s. split; [|done]. unfold take_budget. by rewrite Hg. Qed.

Lemma runs_stats c f (Q : () → server P → Prop) s0 s :
  steady s0 s → (∀ s', steady s0 s' → mem s' = mem s → db s' = db s → Q tt s') →
  runs (bump_stats c f) Q s.
Proof using.
  intros Hs H. unfold bump_stats, when. destruct (c_curr_sb c); [apply runs_modify|apply runs_ret];
    (apply H; [|done|done]); destruct Hs; by split.
Qed.

Lemma runs_the_store (Q : chunk_store → server P → Prop) s cs :
  mem s = Some cs → Q cs s → runs the_store Q s.
Proof using.
  intros Hm HQ. exists cs, s. split; [|done]. unfold the_store, get_store, gets, mbind, m_bind. fold (mem s).
  by rewrite Hm.
Qed.

Lemma runs_no_store (Q : chunk_store → server P → Prop) s cs :
  mem s = Some cs → Q cs s → runs no_store Q s.
Proof using.
  intros Hm HQ. exists cs, s. split; [|done]. unfold no_store, get_store, gets, mbind, m_bind. fold (mem s).
  by rewrite Hm.
Qed.

Lemma runs_set_store cs (Q : () → server P → Prop) s0 s :
  steady s0 s → (∀ s', steady s0 s' → mem s' = Some cs → db s' = db s → Q tt s') →
  runs (set_store cs) Q s.
Proof using.
  intros Hs H. unfold set_store, on_inode. apply runs_modify. apply H; try done. destruct Hs. by split.
Qed.

Lemma runs_attach c cs (Q : option chunk_store → server P → Prop) s0 s :
  steady s0 s →
  fst (chunk_store_get grants (mem s) (i_ino (s_inode s)) (ss_state_dir (c_server_state c)) (s_sys s)) = Some cs →
  (∀ s', steady s0 s' → mem s' = Some cs → db s' = db s → Q (Some cs) s') →
  runs (attach_store grants c) Q s.
Proof using.
  intros Hs Hg H. assert (Hy : snd (chunk_store_get grants (mem s) (i_ino (s_inode s))
    (ss_state_dir (c_server_state c)) (s_sys s)) = s_sys s).
  { unfold chunk_store_get. destruct (mem s) as [|]; [done|]. destruct (ss_state_dir _) as [dir|].
    - pose proof (load_idle grants dir (i_ino (s_inode s)) (s_sys s) (sd_outs _ _ Hs)) as Hl.
      destruct (chunk_store_load _ _ _ _) as [[?|] y]; cbn in Hl; subst y; [done|]. by repeat case_if.
    - by repeat case_if. }
  unfold runs, attach_store. fold (mem s).
  destruct (chunk_store_get _ _ _ _ _) as [o y]. cbn [fst snd] in *. subst o y.
  do 2 eexists. split; [reflexivity|]. apply H; try done. destruct Hs. by split.
Qed.

(** What is in memory is read, whether or not there is a directory. *)
Lemma runs_load c cs (Q : option chunk_store → server P → Prop) s :
  mem s = Some cs → Q (Some cs) s → runs (load_store_for_read grants c) Q s.
Proof using.
  intros Hm HQ. exists (Some cs), s. split; [|done]. unfold load_store_for_read. fold (mem s). rewrite Hm. done.
Qed.

Lemma runs_persist l c cs (Q : Z → server P → Prop) s0 s :
  site_ok l → c_server_state c = l_ss l → i_ino (s_inode s0) = l_ino l → store_good cs → index_fits cs →
  steady s0 s → mem s = Some cs →
  (∀ s', steady s0 s' → Q 0%Z s') → runs (persist grants c) Q s.
Proof using Hgrants.
  intros [_ Hpath] Hc Hi Hg Hfit Hs Hm H. unfold runs, persist. fold (mem s). rewrite Hc, (sd_ino _ _ Hs), Hi, Hm.
  assert (∃ cs' y, chunk_store_persist grants (Some cs) (default "(null)"%string (ss_state_dir (l_ss l)))
    (l_ino l) (s_sys s) = (0%Z, Some cs', y) ∧ outs y = []) as (cs' & y & -> & Hy).
  { destruct (cs_dirty cs) eqn:Ed.
    - eapply persist_good; [apply Hg|done|done|done|apply Hs|exact Hpath].
    - exists cs, (s_sys s). split; [|apply Hs]. unfold chunk_store_persist. by rewrite Ed. }
  do 2 eexists. split; [reflexivity|]. apply H. destruct Hs. by split.
Qed.

(** *** The write *)

Lemma write_granted cs off b :
  (off <= CHUNK_STORE_MAX_BLOCKS)%Z → fst (chunk_store_write grants cs off b) = 0%Z.
Proof using Hgrants.
  intros H. unfold chunk_store_write, chunk_store_room, chunk_store_grow.
  rewrite Hgrants. cbn [negb]. destruct (Z.ltb_spec CHUNK_STORE_MAX_BLOCKS off); [lia|].
  by destruct (cs_nblocks cs <=? off)%Z.
Qed.

Lemma runs_write_data (ops : storage_ops P) p d (Q : () → server P → Prop) s0 s :
  steady s0 s → data_stored ops callocs p (db s) d →
  (∀ s', steady s0 s' → mem s' = mem s → Q tt s') → runs (write_data ops callocs p) Q s.
Proof using.
  intros Hs Hd H. unfold write_data. run_step idtac. run_step idtac. fold (db s).
  assert (Hw : ∀ d', steady s0 (set_inode (with_db (s_inode s) d') s)) by (intros d'; destruct Hs; by split).
  unfold data_stored in Hd. cbv zeta in Hd. destruct (db s) as [b|].
  - destruct Hd as (wret & -> & Hr). unfold on_inode. run_step idtac. run_step idtac.
    run_step ltac:(by apply Z.ltb_ge). by apply H.
  - destruct Hd as [-> Hne]. destruct d; [|done]. unfold on_inode. run_step idtac. by apply H.
Qed.

Lemma runs_grow_size p (Q : () → server P → Prop) s0 s :
  steady s0 s → (∀ s', steady s0 s' → mem s' = mem s → Q tt s') → runs (grow_size p) Q s.
Proof using.
  intros Hs H. unfold grow_size, on_inode. run_step idtac.
  apply H; [destruct Hs; split|]; try done; cbn [s_inode set_inode]; by case_if.
Qed.

Lemma runs_record_block c p n i s0 s cs0 cs :
  payload_ok p → in_width 64 (client_id_of c) → pl_chunk_size p ≠ 0%Z → (Z.of_nat i < 2 ^ 32)%Z →
  (u64w (pl_offset p + Z.of_nat i) <= CHUNK_STORE_MAX_BLOCKS)%Z →
  steady s0 s → mem s = Some cs → recorded c 0 p n i cs0 cs →
  runs (record_block grants c 0 p n i)
    (λ _ s', steady s0 s' ∧ ∃ cs', mem s' = Some cs' ∧ recorded c 0 p n (S i) cs0 cs') s.
Proof using Hgrants.
  intros Hp Hcl Hz Hi Ho Hs Hm R. unfold record_block. run_step idtac. eapply runs_the_store; [exact Hm|].
  cbv zeta. set (b := new_block _ _ _ _ _ _ _). pose proof (write_granted cs _ b Ho) as Hw.
  destruct (chunk_store_write grants cs _ b) as [ret cs2] eqn:E. cbn [fst] in Hw. subst ret.
  destruct (recorded_S c 0 p n Hp Hcl Hz (or_introl eq_refl) grants i cs0 cs 0 cs2 Hi R E) as [[? _]|[_ R2]]; [lia|].
  run_step idtac. eapply runs_set_store; [exact Hs|]. intros s' Hs' Hm' _. run_step done.
  split; [done|]. by exists cs2.
Qed.

(** The store that the request finds takes the payload. *)
Record takes (h : hashes) (ops : storage_ops P) (c : compound) (a : CHUNK_WRITE4args) s
    (cs cs0 : chunk_store) (algo : Z) (d : option (data_block P)) : Prop := {
  tk_found : fst (chunk_store_get grants (mem s) (i_ino (s_inode s)) (ss_state_dir (c_server_state c)) (s_sys s)) = Some cs;
  tk_valid : chunk_write_validate_payload h c (s_inode s) (payload_of_write a)
             = inr (algo, nchunks_of (payload_of_write a));
  tk_ids : chunk_validate_co_ids (cwa_co_ids a) (nchunks_of (payload_of_write a)) = true;
  tk_auth : authorized c (cwa_stateid a) (cwa_client_id a) false (s_trust s);
  tk_policy : adopt_policy cs (payload_of_write a) algo = Some cs0;
  tk_gate : write_gate cs0 a (nchunks_of (payload_of_write a)) = None;
  tk_data : data_stored ops callocs (payload_of_write a) (db s) d;
}.

Lemma write_runs h ops c a s cs cs0 algo d :
  let p := payload_of_write a in
  let n := nchunks_of p in
  payload_ok p → in_width 64 (client_id_of c) → (pl_offset p + n <= CHUNK_STORE_MAX_BLOCKS)%Z →
  steady s s → store_good cs → takes h ops c a s cs cs0 algo d →
  runs (nfs4_op_chunk_write ops grants callocs h c a)
    (λ _ s', steady s s' ∧ ∃ cs', mem s' = Some cs' ∧ recorded c 0 p n (Z.to_nat n) cs0 cs') s.
Proof using Hgrants Hcallocs.
  intros p n Hp Hcl Hb Hs Hg [Hfound Hval Hids Hauth Hpol Hgate Hd].
  destruct (validated h c (s_inode s) p algo n Hp Hval) as (_ & Hz & _ & Ha & Hn & _).
  destruct (adopt_policy_good cs p algo cs0 Hg Hp Ha Hpol) as [Hg0 _].
  unfold nfs4_op_chunk_write. pass idtac. fold p n in Hval, Hids, Hpol, Hgate, Hd |- *.
  rewrite Hval. cbn [lift]. pass idtac. pass ltac:(by rewrite Hids).
  run_step idtac. eapply runs_trusted; [exact Hs|exact Hauth|]. intros s1 Hs1 Hm1 Hd1 Hy1.
  run_step idtac. eapply (runs_attach c cs); [exact Hs1|by rewrite Hm1, Hy1, (sd_ino _ _ Hs1)|].
  intros s2 Hs2 Hm2 Hd2. run_step idtac. apply runs_mono with (Q := λ b s', b = false ∧ s' = s2).
  2: { unfold chunk_write_test_delay. repeat case_if; [by apply runs_ret..|].
       apply runs_budget; [by rewrite (sd_budgets _ _ Hs2)|done]. }
  intros b ? [-> ->]. pass done. rewrite Hpol.
  run_step idtac. eapply runs_set_store; [exact Hs2|]. intros s3 Hs3 Hm3 Hd3. rewrite Hgate.
  unfold write_chunks. fold p. run_step idtac.
  eapply (runs_write_data ops p d); [exact Hs3|by rewrite Hd3, Hd2, Hd1|]. intros s4 Hs4 Hm4.
  run_step idtac. eapply runs_grow_size; [exact Hs4|]. intros s5 Hs5 Hm5.
  pass ltac:(by rewrite Hcallocs). run_step idtac. destruct (pk_offset _ Hp) as [Ho _].
  eapply (runs_mfor (λ i _ s', steady s s' ∧ ∃ cs', mem s' = Some cs' ∧ recorded c 0 p n i cs0 cs')).
  - split; [done|]. exists cs0. split; [congruence|by apply recorded_0].
  - intros i [] s6 Hi (Hs6 & cs6 & Hm6 & R6). run_step idtac. unfold count_chunk. run_step idtac.
    eapply runs_the_store; [exact Hm6|]. eapply runs_stats; [exact Hs6|]. intros s7 Hs7 Hm7 _.
    apply (runs_record_block c p n i s s7 cs0 cs6); try done; [lia| |congruence].
    unfold CHUNK_STORE_MAX_BLOCKS in *. rewrite wrap_small by (unfold in_width; lia). lia.
  - intros [] s6 (Hs6 & cs6 & Hm6 & R6). run_step idtac. eapply runs_stats; [exact Hs6|].
    intros s7 Hs7 Hm7 _. run_step idtac. split; [done|]. exists cs6. split; [by rewrite Hm7|done].
Qed.

(** *** Finalize and commit *)

Lemma unlocked_passes cs offset count owners :
  (0 <= offset)%Z → (offset + count <= 2 ^ 64)%Z →
  (∀ j, in_range offset count j → is_locked (blk_at cs j) = false) →
  owners_locked_out cs offset count owners = false.
Proof using.
  intros H0 H1 Hl. apply not_true_iff_false. intros (co & _ & Hc)%existsb_exists. revert Hc.
  unfold chunk_lock_conflict. match goal with |- context [for_break 0 ?n ?f ?a] => set (body := f) end.
  assert (H : match for_break 0 (Z.to_nat count) body tt with inl _ => True | inr _ => False end).
  { apply (for_break_ind (λ _ _, True) (λ _ : chunk_block, False)); [done|]. intros k [] Hk _. unfold body.
    destruct (range_index offset count k H0 H1 ltac:(lia)) as [-> Hin]. cbn [chunk_store_lookup_any].
    case_if; [done|]. unfold is_locked in Hl. by rewrite Hl by done. }
  by destruct (for_break 0 _ body tt).
Qed.

(** No more ranges are held than before. *)
Lemma fits_mono cs cs' :
  (∀ r, held cs' (cs_high_water cs') r → held cs (cs_high_water cs) r) → index_fits cs → index_fits cs'.
Proof using. intros Hh Hf rs Hnd Hrs. apply Hf; [done|]. intros r Hr. by apply Hh, Hrs. Qed.

(** Only states of blocks differ. *)
Definition restated cs cs' : Prop :=
  cs_high_water cs' = cs_high_water cs ∧
  ∀ j, (0 <= j)%Z → ∃ st, blk_at cs' j = set_cb_state (blk_at cs j) st.

Lemma restated_fits cs cs' : restated cs cs' → index_fits cs → index_fits cs'.
Proof using.
  intros [Hh Hb]. apply fits_mono. intros r (j & Hj & Hf & Hr). exists j. rewrite Hh in Hj.
  destruct (Hb j ltac:(lia)) as [st He]. rewrite He in Hf, Hr. done.
Qed.

Lemma transitions_restate cs offset count from to owners sts cs1 :
  in_width 64 offset → (0 <= count)%Z → (0 < from <= 3)%Z → (0 < to <= 3)%Z → from ≠ to → store_good cs →
  transition_owners cs offset count from to owners = (sts, cs1) → store_good cs1 ∧ restated cs cs1.
Proof using.
  intros Hoff Hcnt Hfrom Hto Hft Hg Et.
  destruct (transitions_at cs offset count from to Hoff Hcnt Hfrom Hto Hft 0 owners cs sts cs1
    Hg ltac:(lia) (alike_refl cs cs Hg eq_refl) Et) as ([Hg1 Hd Hb _] & _).
  split; [done|]. split; [apply Hd|]. intros j Hj. by eexists; apply Hb.
Qed.

Context (l : site_of) (Hsite : site_ok l).

Lemma runs_transitions {A} c offset count from to owners (K : list Z → H (P := P) A)
    (Q : A → server P → Prop) s0 s cs :
  c_server_state c = l_ss l → i_ino (s_inode s0) = l_ino l → in_width 64 offset → (0 <= count)%Z →
  (0 < from <= 3)%Z → (0 < to <= 3)%Z → from ≠ to → store_good cs → index_fits cs → steady s0 s →
  (∀ sts s', steady s0 s' → runs (K sts) Q s') →
  runs (let '(statuses, cs) := transition_owners cs offset count from to owners in
        set_store cs;;
        ret ← persist grants c;
        if negb (ret =? 0)%Z then
          cs ← the_store;
          set_store (undo_transitions cs offset count from to owners statuses);;
          throw (Status NFS4ERR_SERVERFAULT)
        else K statuses) Q s.
Proof using Hgrants Hsite.
  intros Hc Hi Hoff Hcnt Hfrom Hto Hft Hg Hfit Hs HK.
  destruct (transition_owners cs _ _ _ _ owners) as [sts cs1] eqn:Et.
  destruct (transitions_restate cs offset count from to owners sts cs1) as [Hg1 Hr1]; [done..|].
  run_step idtac. eapply runs_set_store; [exact Hs|]. intros s1 Hs1 Hm1 _.
  run_step idtac. eapply (runs_persist l c cs1); try done; [by eapply restated_fits|].
  intros s2 Hs2. cbn [Z.eqb negb]. by apply HK.
Qed.

(** The request names owners, a range and a store that let it through. *)
Record passes (offset count : Z) (owners : list chunk_owner4) (cs : chunk_store) : Prop := {
  ps_range : chunk_lifecycle_check_range offset count = true;
  ps_some : owners ≠ [];
  ps_bounds : chunk_lifecycle_check_bounds (Z.of_nat (length owners)) = true;
  ps_clients : existsb (λ co, chunk_cid_is_reserved (co_client_id co)) owners = false;
  ps_fits : index_fits cs;
  ps_unlocked : ∀ j, in_range offset count j → is_locked (blk_at cs j) = false;
}.

Lemma owners_counted (owners : list chunk_owner4) : owners ≠ [] → (Z.of_nat (length owners) =? 0)%Z = false.
Proof using. intros H. apply Z.eqb_neq. destruct owners; [done|]. cbn. lia. Qed.

Lemma finalize_runs c a s cs :
  c_server_state c = l_ss l → finalize_args_ok a → server_ok l s → reaches s c → steady s s → mem s = Some cs →
  authorized c (cfa_stateid a) CHUNK_GUARD_CLIENT_ID_NONE false (s_trust s) →
  passes (cfa_offset a) (cfa_count a) (cfa_chunks a) cs →
  runs (nfs4_op_chunk_finalize grants callocs c a) (λ _ s', steady s s') s.
Proof using Hgrants Hcallocs Hsite.
  intros Hc [Hoff Hcnt] Hok [Hfh Hin Hreg Hch] Hs Hm Hauth [Hr Hne Hb Hcl Hfit Hul].
  destruct (range_checked _ _ Hoff Hcnt Hr) as [Hcp Hrange].
  unfold nfs4_op_chunk_finalize. pass idtac. pass done. pass ltac:(by rewrite Hin). pass done. cbv zeta.
  pass ltac:(by apply owners_counted). pass ltac:(by rewrite Hr). pass ltac:(by rewrite Hb).
  run_step idtac. eapply runs_trusted; [exact Hs|exact Hauth|]. intros s1 Hs1 Hm1 _ _.
  pass done. run_step idtac. eapply runs_no_store; [by rewrite Hm1|].
  run_step idtac. apply runs_budget; [by rewrite (sd_budgets _ _ Hs1)|]. pass done.
  pass ltac:(apply unlocked_passes; [apply Hoff|exact Hrange|exact Hul]). pass ltac:(by rewrite Hcallocs).
  eapply runs_transitions; try done; [apply Hok|lia|by apply (ok_mem _ _ Hok)|].
  intros sts s2 Hs2. by run_step idtac.
Qed.

Lemma commit_runs c a s cs :
  c_server_state c = l_ss l → commit_args_ok a → server_ok l s → reaches s c → steady s s → mem s = Some cs →
  authorized c (cca_stateid a) CHUNK_GUARD_CLIENT_ID_NONE false (s_trust s) →
  passes (cca_offset a) (cca_count a) (cca_chunks a) cs →
  runs (nfs4_op_chunk_commit grants callocs c a) (λ _ s', steady s s') s.
Proof using Hgrants Hcallocs Hsite.
  intros Hc [Hoff Hcnt] Hok [Hfh Hin Hreg Hch] Hs Hm Hauth [Hr Hne Hb Hcl Hfit Hul].
  destruct (range_checked _ _ Hoff Hcnt Hr) as [Hcp Hrange].
  unfold nfs4_op_chunk_commit. pass idtac. pass done. pass ltac:(by rewrite Hin). pass done. cbv zeta.
  pass ltac:(by apply owners_counted). pass ltac:(by rewrite Hr). pass ltac:(by rewrite Hb).
  run_step idtac. eapply runs_trusted; [exact Hs|exact Hauth|]. intros s1 Hs1 Hm1 _ _.
  pass done. run_step idtac. eapply runs_no_store; [by rewrite Hm1|].
  run_step idtac. apply runs_budget; [by rewrite (sd_budgets _ _ Hs1)|]. pass done.
  pass ltac:(apply unlocked_passes; [apply Hoff|exact Hrange|exact Hul]). pass ltac:(by rewrite Hcallocs).
  eapply (runs_transitions c _ _ _ _ _ (λ sts, inode_sync_to_disk;; mret (mk_commit_res _ sts)));
    try done; [apply Hok|lia|by apply (ok_mem _ _ Hok)|].
  intros sts s2 Hs2. unfold inode_sync_to_disk, on_inode. pass idtac. run_step idtac. destruct Hs2. by split.
Qed.

(** A request that moved its blocks can be followed by another. *)
Lemma moved_passes offset count from to owners s s' cs cs' sts :
  in_width 64 offset → (0 <= count)%Z → (0 < from <= 3)%Z → (0 < to <= 3)%Z → from ≠ to →
  server_ok l s → mem s = Some cs → mem s' = Some cs' → moved l offset count from to owners s s' sts →
  passes offset count owners cs → passes offset count owners cs'.
Proof using.
  intros Hoff Hcnt Hfrom Hto Hft Hok Hm Hm' (c0 & c1 & c2 & Hm0 & _ & Et & Hm2 & (Hb & _ & Hh & _) & _) [].
  assert (c0 = cs) as -> by congruence. assert (c2 = cs') as -> by congruence.
  destruct (transitions_restate cs offset count from to owners sts c1) as [_ [Hh1 Hb1]]; [done..|by apply (ok_mem _ _ Hok)|done|].
  assert (Hr : restated cs cs').
  { split; [congruence|]. intros j Hj. destruct (Hb1 j Hj) as [st Hst]. exists st. by unfold blk_at in *; rewrite Hb. }
  split; try done; [by eapply restated_fits|]. intros j Hj. destruct Hr as [_ Hr].
  destruct Hoff, Hj. destruct (Hr j ltac:(lia)) as [st ->]. by apply ps_unlocked0.
Qed.

(** *** The blocks of the write *)

Lemma found_good c cs s :
  c_server_state c = l_ss l → server_ok l s →
  fst (chunk_store_get grants (mem s) (i_ino (s_inode s)) (ss_state_dir (c_server_state c)) (s_sys s)) = Some cs →
  store_good cs.
Proof using Hsite.
  intros Hc Hok Hf. pose proof (wp_attach l grants c
    (λ r _, ∀ cs, r = inr (Some cs) → store_good cs) s s Hsite Hc (stands_refl l s Hok)) as H.
  unfold wp, attach_store in H. fold (mem s) in H. destruct (chunk_store_get _ _ _ _ _) as [o y].
  cbn [fst snd] in *. subst o. apply H; [|done]. intros s' Hs' _ _ cs' [= Hm].
  by apply (ok_mem _ _ (fol_ok _ _ _ (st_fol _ _ _ Hs'))).
Qed.

(** The owners of a payload can finalize it where no block was locked. *)
Lemma recorded_passes c p cs0 cs' :
  payload_ok p → pl_chunk_size p ≠ 0%Z → (0 < nchunks_of p <= CHUNK_MAX_CHUNKS_PER_OP)%Z →
  (pl_offset p + nchunks_of p <= CHUNK_STORE_MAX_BLOCKS)%Z →
  chunk_cid_is_reserved (pl_client_id p) = false → (nchunks_of p <= CHUNK_MAX_OWNERS_PER_OP)%Z →
  store_good cs0 → index_fits cs0 →
  (∀ j, in_range (pl_offset p) (nchunks_of p) j → is_locked (blk_at cs0 j) = false) →
  recorded c 0 p (nchunks_of p) (Z.to_nat (nchunks_of p)) cs0 cs' →
  passes (pl_offset p) (nchunks_of p) (payload_owners p) cs'.
Proof using.
  intros Hp Hz Hn Hb Hcl Hw Hg Hfit Hul R. destruct (pk_offset _ Hp) as [Ho _].
  unfold CHUNK_STORE_MAX_BLOCKS, CHUNK_MAX_CHUNKS_PER_OP, CHUNK_MAX_OWNERS_PER_OP in *.
  assert (Hlen : Z.of_nat (length (payload_owners p)) = nchunks_of p)
    by (unfold payload_owners; rewrite length_map, length_seq; lia).
  split.
  - unfold chunk_lifecycle_check_range, CHUNK_MAX_CHUNKS_PER_OP, UINT64_MAX. apply negb_true_iff.
    rewrite !orb_false_iff, Z.eqb_neq, !Z.ltb_ge. lia.
  - intros He. rewrite He in Hlen. cbn in Hlen. lia.
  - unfold chunk_lifecycle_check_bounds, CHUNK_MAX_OWNERS_PER_OP. apply Z.leb_le. lia.
  - apply not_true_iff_false. intros (co & Hin & Hr)%existsb_exists. apply list_elem_of_In in Hin.
    apply payload_owners_in in Hin as (i & _ & ->); [|lia]. cbn in Hr. congruence.
  - revert Hfit. apply fits_mono. intros r (j & Hj & Hf & Hr).
    destruct (re_blocks _ _ _ _ _ _ _ R j ltac:(lia)) as [He|(i & _ & _ & He)]; rewrite He in Hf, Hr.
    + exists j. split; [|done]. destruct (Z.lt_ge_cases j (cs_high_water cs0)) as [?|Hge]; [lia|].
      destruct (ok_above _ (inv_ok _ (good_inv _ Hg)) j ltac:(lia)) as [_ Hi].
      unfold in_escrow in Hi. unfold flagged in Hf. by rewrite Hf in Hi.
    + exfalso. revert Hf. unfold rewritten, new_block, keep_lock. destruct (recorded_checksum p i) as [[? ?] ?].
      by destruct (has_flag _ _).
  - intros j Hj. destruct (range_nat _ _ _ Hj) as (i & Hi & ->).
    pose proof (re_done _ _ _ _ _ _ _ R i Hi) as Hd. cbv beta in Hd.
    rewrite wrap_small in Hd by (unfold in_width; lia). rewrite Hd. specialize (Hul _ Hj). revert Hul.
    unfold is_locked, rewritten, new_block, keep_lock. destruct (recorded_checksum p i) as [[? ?] ?].
    by intros ->.
Qed.

(** *** The read *)

Context (ops : storage_ops P) (content : data_block P → list byte) (valid : data_block P → Prop)
  `{!DataOk ops content valid}.

Lemma read_runs c st p cs b old s :
  payload_ok p → pl_chunk_size p ≠ 0%Z → (0 < nchunks_of p)%Z →
  (pl_offset p + nchunks_of p < 2 ^ 63)%Z → ((pl_offset p + nchunks_of p) * pl_chunk_size p < 2 ^ 63)%Z →
  reaches s c → steady s s → authorized c st CHUNK_GUARD_CLIENT_ID_NONE false (s_trust s) →
  mem s = Some cs → store_good cs → laid p cs CHUNK_STATE_COMMITTED → cs_chunk_size cs = pl_chunk_size p →
  db s = Some b → valid b →
  content b = write_at (Z.to_nat (pl_offset p * pl_chunk_size p)) (pl_chunks p) old →
  runs (nfs4_op_chunk_read ops grants callocs c (mk_read_args st (pl_offset p) (nchunks_of p)))
    (λ r _, concat (map cr_chunk (crr_chunks r)) = pl_chunks p) s.
Proof using Hcallocs DataOk0.
  intros Hp Hz Hn Hr Hr' [Hfh Hin Hreg Hch] Hs Hauth Hm Hg Hl Hsz Hdb Hv Hcont.
  assert (Hn0 : nchunks_of p ≠ 0%Z) by lia. pose proof (inv_ok _ (good_inv _ Hg)) as Hok.
  unfold nfs4_op_chunk_read. pass idtac. pass done. pass ltac:(by rewrite Hin, Hreg). pass done.
  cbv zeta. cbn [cra_count cra_offset cra_stateid]. destruct (Z.eqb_spec (nchunks_of p) 0); [done|].
  run_step idtac. eapply runs_trusted; [exact Hs|exact Hauth|]. intros s1 Hs1 Hm1 Hd1 _.
  run_step idtac. apply (runs_load c cs); [congruence|].
  destruct (available cs (pl_offset p) (nchunks_of p)) as [avail pend] eqn:Eav.
  apply (available_laid p Hp Hn0 Hr cs CHUNK_STATE_COMMITTED avail pend Hok ltac:(done) Hl) in Eav. subst avail.
  pass ltac:(apply Z.eqb_neq; lia). pass ltac:(by rewrite Hcallocs). pass idtac. fold (db s1). rewrite Hd1, Hdb.
  destruct (read_chunks ops callocs cs (Some b) (pl_offset p) (Z.of_nat (Z.to_nat (nchunks_of p)))) as [e|chunks] eqn:Er.
  { by apply (read_laid_total p Hp Hz Hn0 Hr ops content valid callocs cs CHUNK_STATE_COMMITTED b old) in Er. }
  apply (read_laid p Hp Hz Hn0 Hr ops content valid callocs cs CHUNK_STATE_COMMITTED b old) in Er; try done.
  run_step idtac. cbn [crr_chunks]. rewrite Er, map_map. by apply (chunks_concat p).
Qed.

(** ** The whole of it *)

Lemma valid_client h c (i : inode P) p algo n :
  chunk_write_validate_payload h c i p = inr (algo, n) → chunk_cid_is_reserved (pl_client_id p) = false.
Proof using. unfold chunk_write_validate_payload. cbv zeta. by repeat case_if. Qed.

(** The payload is in the file: its blocks in state [st], its bytes in the data block,
    and nothing in the way of its owners. *)
Record keeps (p : payload) (st : Z) s : Prop := {
  kp_ok : server_ok l s;
  kp_store : ∃ cs, mem s = Some cs ∧ laid p cs st ∧ cs_chunk_size cs = pl_chunk_size p ∧
    passes (pl_offset p) (nchunks_of p) (payload_owners p) cs;
  kp_data : ∃ b old, db s = Some b ∧ valid b ∧
    content b = write_at (Z.to_nat (pl_offset p * pl_chunk_size p)) (pl_chunks p) old;
}.

(** The blocks below the limit are inside an [off_t]. *)
Lemma range_bytes p :
  payload_ok p → (0 < nchunks_of p)%Z → (pl_offset p + nchunks_of p <= CHUNK_STORE_MAX_BLOCKS)%Z →
  ((pl_offset p + nchunks_of p) * pl_chunk_size p < 2 ^ 63)%Z.
Proof using.
  intros Hp Hn Hb. destruct (pk_offset _ Hp) as [Ho _]. destruct (pk_chunk_size _ Hp) as [Hz0 Hz1].
  unfold CHUNK_STORE_MAX_BLOCKS in Hb.
  assert ((pl_offset p + nchunks_of p) * pl_chunk_size p <= 1048576 * 2 ^ 32)%Z; [|lia].
  apply Z.mul_le_mono_nonneg; lia.
Qed.

Lemma write_done h c a s cs cs0 algo d :
  let p := payload_of_write a in
  let n := nchunks_of p in
  compound_ok l c → server_ok l s → steady s s → (∀ b, db s = Some b → valid b) → payload_ok p →
  takes h ops c a s cs cs0 algo d → cs_chunk_size cs0 = cwa_chunk_size a →
  (n <= CHUNK_MAX_CHUNKS_PER_OP)%Z → (n <= CHUNK_MAX_OWNERS_PER_OP)%Z →
  (cwa_offset a + n <= CHUNK_STORE_MAX_BLOCKS)%Z →
  index_fits cs → (∀ j, in_range (cwa_offset a) n j → is_locked (blk_at cs j) = false) →
  ∃ r s', nfs4_op_chunk_write ops grants callocs h c a s = (inr r, s') ∧ cwr_count r = n ∧
    steady s s' ∧ keeps p CHUNK_STATE_PENDING s'.
Proof using Hgrants Hcallocs Hsite DataOk0.
  intros p n [Hc Hcl] Hok Hs Hv Hp Htk Hsz Hn1 Hn2 Hb Hfit Hul.
  pose proof (found_good c cs s Hc Hok (tk_found _ _ _ _ _ _ _ _ _ Htk)) as Hg.
  pose proof (tk_valid _ _ _ _ _ _ _ _ _ Htk) as Hval. fold p in Hval.
  destruct (validated h c (s_inode s) p algo _ Hp Hval) as (_ & Hz & _ & Ha & Hn & _).
  destruct (adopt_policy_good cs p algo cs0 Hg Hp Ha (tk_policy _ _ _ _ _ _ _ _ _ Htk)) as (Hg0 & Hb0 & _ & Hh0 & _).
  destruct (write_runs h ops c a s cs cs0 algo d Hp Hcl Hb Hs Hg Htk) as (r & s1 & E & Hs1 & cs1 & Hm1 & R).
  fold p n in R. pose proof (range_bytes p Hp (proj1 Hn) Hb) as Hr.
  destruct (write_lays ops content valid h l grants callocs c a s r s1 Hsite Hok (Build_compound_ok _ _ Hc Hcl) Hp Hr Hv E)
    as (_ & _ & _ & _ & _ & _ & Hok1 & (cs1' & Hm1' & Hl1) & Hdata). assert (cs1' = cs1) as -> by congruence.
  destruct (wp_run _ _ _ _ _ (write_op_spec ops grants callocs h l Hsite c a s Hc Hp Hcl Hok) E)
    as (_ & _ & _ & _ & _ & Hcount & _).
  exists r, s1. split; [done|]. split; [done|]. split; [done|]. split; [done| |done]. exists cs1.
  split; [done|]. split; [done|]. split; [rewrite (re_size _ _ _ _ _ _ _ R); exact Hsz|].
  apply (recorded_passes c p cs0 cs1); try done; [lia|by eapply valid_client| |].
  - revert Hfit. apply fits_mono. rewrite Hh0. intros r' (j & Hj & Hf & Hr'). exists j. by rewrite <-Hb0.
  - intros j Hj. rewrite Hb0. by apply Hul.
Qed.

(** What is common to FINALIZE and COMMIT once they have run. *)
Lemma moved_keeps p from to s s' sts :
  payload_ok p → pl_chunk_size p ≠ 0%Z → (0 < nchunks_of p < 2 ^ 32)%Z →
  chunk_validate_co_ids (pl_co_ids p) (nchunks_of p) = true →
  (0 < from <= 3)%Z → (0 < to <= 3)%Z → from ≠ to → keeps p from s → stands l s s' →
  moved l (pl_offset p) (nchunks_of p) from to (payload_owners p) s s' sts →
  Forall (eq NFS4_OK) sts ∧ keeps p to s'.
Proof using.
  intros Hp Hz Hn Hids Hfrom Hto Hft [Hok (cs & Hm & Hl & Hsz & Hps) Hd] Hs Hmv.
  destruct (laid_moved p Hp Hz ltac:(lia) Hids l s s' cs from to sts Hfrom Hto Hft (proj2 Hn) Hok Hm Hl Hmv)
    as (cs' & Hm' & Hl' & Hsz' & Hall).
  split; [done|]. split; [apply Hs| |by rewrite (st_db _ _ _ Hs)].
  exists cs'. split_and!; [done|done|congruence|].
  eapply (moved_passes (pl_offset p) (nchunks_of p) from to _ s s' cs cs' sts); try done; [apply Hp|lia].
Qed.

Section Owners.

Context (p : payload) (Hp : payload_ok p) (Hz : pl_chunk_size p ≠ 0%Z) (Hn : (0 < nchunks_of p < 2 ^ 32)%Z).
Hypothesis (Hids : chunk_validate_co_ids (pl_co_ids p) (nchunks_of p) = true).

Lemma count_width : in_width 32 (nchunks_of p).
Proof using Hn. unfold in_width. lia. Qed.

Lemma finalize_done c st s0 s :
  compound_ok l c → reaches s0 c → authorized c st CHUNK_GUARD_CLIENT_ID_NONE false (s_trust s0) →
  steady s0 s → keeps p CHUNK_STATE_PENDING s →
  ∃ r s', nfs4_op_chunk_finalize grants callocs c
            (mk_finalize_args st (pl_offset p) (nchunks_of p) (payload_owners p)) s = (inr r, s') ∧
    Forall (eq NFS4_OK) (cfr_status r) ∧ steady s0 s' ∧ keeps p CHUNK_STATE_FINALIZED s'.
Proof using Hgrants Hcallocs Hsite Hp Hz Hn Hids.
  intros [Hc _] Hr Ha Hs K. destruct (kp_store _ _ _ K) as (cs & Hm & _ & _ & Hps).
  set (fa := mk_finalize_args st (pl_offset p) (nchunks_of p) (payload_owners p)).
  assert (Hfa : finalize_args_ok fa) by (split; [apply Hp|apply count_width]).
  destruct (runs_wp _ _ _ _ (finalize_spec grants callocs l Hsite c fa s Hc Hfa (kp_ok _ _ _ K))
    (finalize_runs c fa s cs Hc Hfa (kp_ok _ _ _ K) (steady_reaches _ _ _ Hs Hr) (steady_self _ _ Hs) Hm
      (steady_authorized _ _ _ _ _ _ Hs Ha) Hps)) as (r & s' & E & Hs' & Hst & _ & _ & Hmv).
  destruct (moved_keeps p CHUNK_STATE_PENDING CHUNK_STATE_FINALIZED s s' (cfr_status r)) as [Hall K']; try done.
  exists r, s'. split_and!; [done|done|by eapply steady_trans|done].
Qed.

Lemma commit_done c st s0 s :
  compound_ok l c → reaches s0 c → authorized c st CHUNK_GUARD_CLIENT_ID_NONE false (s_trust s0) →
  steady s0 s → keeps p CHUNK_STATE_FINALIZED s →
  ∃ r s', nfs4_op_chunk_commit grants callocs c
            (mk_commit_args st (pl_offset p) (nchunks_of p) (payload_owners p)) s = (inr r, s') ∧
    Forall (eq NFS4_OK) (ccr_status r) ∧ steady s0 s' ∧ keeps p CHUNK_STATE_COMMITTED s'.
Proof using Hgrants Hcallocs Hsite Hp Hz Hn Hids.
  intros [Hc _] Hr Ha Hs K. destruct (kp_store _ _ _ K) as (cs & Hm & _ & _ & Hps).
  set (fa := mk_commit_args st (pl_offset p) (nchunks_of p) (payload_owners p)).
  assert (Hfa : commit_args_ok fa) by (split; [apply Hp|apply count_width]).
  destruct (runs_wp _ _ _ _ (commit_spec grants callocs l Hsite c fa s Hc Hfa (kp_ok _ _ _ K))
    (commit_runs c fa s cs Hc Hfa (kp_ok _ _ _ K) (steady_reaches _ _ _ Hs Hr) (steady_self _ _ Hs) Hm
      (steady_authorized _ _ _ _ _ _ Hs Ha) Hps)) as (r & s' & E & Hs' & Hst & _ & _ & Hmv).
  destruct (moved_keeps p CHUNK_STATE_FINALIZED CHUNK_STATE_COMMITTED s s' (ccr_status r)) as [Hall K']; try done.
  exists r, s'. split_and!; [done|done|by eapply steady_trans|done].
Qed.

Lemma read_done c st s0 s :
  (pl_offset p + nchunks_of p <= CHUNK_STORE_MAX_BLOCKS)%Z →
  reaches s0 c → authorized c st CHUNK_GUARD_CLIENT_ID_NONE false (s_trust s0) →
  steady s0 s → keeps p CHUNK_STATE_COMMITTED s →
  ∃ r s', nfs4_op_chunk_read ops grants callocs c (mk_read_args st (pl_offset p) (nchunks_of p)) s = (inr r, s') ∧
    concat (map cr_chunk (crr_chunks r)) = pl_chunks p.
Proof using Hcallocs DataOk0 Hp Hz Hn.
  intros Hb Hr Ha Hs [Hok (cs & Hm & Hl & Hsz & _) (b & old & Hdb & Hv & Hcont)].
  eapply (read_runs c st p cs b old s); try done; [lia| |apply range_bytes; [done|lia|done]|by eapply steady_reaches|
    by eapply steady_self|by eapply steady_authorized|by apply (ok_mem _ _ Hok)].
  unfold CHUNK_STORE_MAX_BLOCKS in Hb. lia.
Qed.

End Owners.

(** C5: where memory is granted, no call to the system fails and no test budget is
    armed, take a CHUNK_WRITE that its stateid, the file's policy, its gate and its
    data block take, with its chunk size the stride of the file, no more chunks than
    the limits of a request on chunks and on owners, a range below the limit of
    1048576 blocks in which no block is locked, and no more escrows in the file than
    the index holds.  It is answered, and so are the CHUNK_FINALIZE and the
    CHUNK_COMMIT of its owners, each with NFS4_OK for every owner, and a CHUNK_READ,
    which returns the bytes written; each of these comes under its own stateid,
    which the trust table authorises. *)
Theorem chunk_lifecycle_completes h f1 f2 f3 f4 a st2 st3 st4 s cs cs0 algo d :
  let p := payload_of_write a in
  let n := nchunks_of p in
  server_ok l s → steady s s → (∀ b, db s = Some b → valid b) →
  Forall (compound_ok l) [f1; f2; f3; f4] → Forall (reaches s) [f2; f3; f4] →
  authorized f2 st2 CHUNK_GUARD_CLIENT_ID_NONE false (s_trust s) →
  authorized f3 st3 CHUNK_GUARD_CLIENT_ID_NONE false (s_trust s) →
  authorized f4 st4 CHUNK_GUARD_CLIENT_ID_NONE false (s_trust s) →
  payload_ok p → takes h ops f1 a s cs cs0 algo d → cs_chunk_size cs0 = cwa_chunk_size a →
  (n <= CHUNK_MAX_CHUNKS_PER_OP)%Z → (n <= CHUNK_MAX_OWNERS_PER_OP)%Z →
  (cwa_offset a + n <= CHUNK_STORE_MAX_BLOCKS)%Z →
  index_fits cs → (∀ j, in_range (cwa_offset a) n j → is_locked (blk_at cs j) = false) →
  ∃ r1 s1 r2 s2 r3 s3 r4 s4,
    perform ops grants callocs h f1 (Write a) s = (inr (Wrote r1), s1) ∧ cwr_count r1 = n ∧
    perform ops grants callocs h f2 (Finalize (mk_finalize_args st2 (cwa_offset a) n (payload_owners p))) s1
      = (inr (Finalized r2), s2) ∧ Forall (eq NFS4_OK) (cfr_status r2) ∧
    perform ops grants callocs h f3 (Commit (mk_commit_args st3 (cwa_offset a) n (payload_owners p))) s2
      = (inr (Committed r3), s3) ∧ Forall (eq NFS4_OK) (ccr_status r3) ∧
    perform ops grants callocs h f4 (Read (mk_read_args st4 (cwa_offset a) n)) s3 = (inr (Data r4), s4) ∧
    concat (map cr_chunk (crr_chunks r4)) = cwa_chunks a.
Proof using Hgrants Hcallocs Hsite DataOk0.
  intros p n Hok Hs Hv Hcs Hrs Ha2 Ha3 Ha4 Hp Htk Hsz Hn1 Hn2 Hb Hfit Hul.
  rewrite !list.Forall_cons in Hcs. rewrite !list.Forall_cons in Hrs. destruct Hcs as (Hf1 & Hf2 & Hf3 & Hf4 & _), Hrs as (Hr2 & Hr3 & Hr4 & _).
  destruct (write_done h f1 a s cs cs0 algo d) as (r1 & s1 & E1 & Hc1 & Hs1 & K1); try done. fold p in K1.
  destruct (validated h f1 (s_inode s) p algo n Hp (tk_valid _ _ _ _ _ _ _ _ _ Htk)) as (_ & Hz & _ & _ & Hn & _).
  pose proof (tk_ids _ _ _ _ _ _ _ _ _ Htk) as Hids.
  destruct (finalize_done p Hp Hz Hn Hids f2 st2 s s1 Hf2 Hr2 Ha2 Hs1 K1) as (r2 & s2 & E2 & Hall2 & Hs2 & K2).
  destruct (commit_done p Hp Hz Hn Hids f3 st3 s s2 Hf3 Hr3 Ha3 Hs2 K2) as (r3 & s3 & E3 & Hall3 & Hs3 & K3).
  destruct (read_done p Hp Hz Hn f4 st4 s s3 Hb Hr4 Ha4 Hs3 K3) as (r4 & s4 & E4 & Hread).
  exists r1, s1, r2, s2, r3, s3, r4, s4. split; [exact (map_run _ Wrote _ _ _ E1)|]. split; [exact Hc1|].
  split; [exact (map_run _ Finalized _ _ _ E2)|]. split; [exact Hall2|].
  split; [exact (map_run _ Committed _ _ _ E3)|]. split; [exact Hall3|].
  split; [exact (map_run _ Data _ _ _ E4)|exact Hread].
Qed.

End Steps.

(** ** On the small server *)

Definition with_stride : chunk_store :=
  default fresh_store (adopt_policy fresh_store (payload_of_write ChunkSample.write) 0).
Definition first_block : option (data_block (list byte)) := db ChunkSample.after_write.

Lemma sample_takes :
  takes (λ _ _, true) ChunkSample.yes ChunkSample.hash ChunkSample.ram ChunkSample.client ChunkSample.write
    ChunkSample.start fresh_store with_stride 0 first_block.
Proof.
  split; [vm_compute; reflexivity..| | | |].
  - split; [done|]. do 2 eexists. split_and!; [reflexivity|vm_compute; reflexivity..].
  - vm_compute. reflexivity.
  - vm_compute. reflexivity.
  - split; [vm_compute; reflexivity|]. by vm_compute.
Qed.

Lemma sample_authorized :
  authorized ChunkSample.client ChunkSample.stateid CHUNK_GUARD_CLIENT_ID_NONE false (s_trust ChunkSample.start).
Proof. split; [done|]. do 2 eexists. split_and!; [reflexivity|vm_compute; reflexivity..]. Qed.

Lemma fresh_fits : index_fits fresh_store.
Proof. intros [|r rs] _ Hr; [done|]. destruct (Hr r) as (off & Hoff & _); [by left|]. cbn in Hoff. lia. Qed.

Lemma fresh_unlocked j : is_locked (blk_at fresh_store j) = false.
Proof. unfold blk_at, fresh_store. cbn [cs_blocks]. by rewrite rd_replicate. Qed.

Lemma chunk_lifecycle_completes_witness :
  ∃ r1 s1 r2 s2 r3 s3 r4 s4,
    ChunkSample.answer ChunkSample.client (Write ChunkSample.write) ChunkSample.start = (inr (Wrote r1), s1) ∧
    cwr_count r1 = 3%Z ∧
    ChunkSample.answer ChunkSample.client (Finalize ChunkSample.finalize) s1 = (inr (Finalized r2), s2) ∧
    Forall (eq NFS4_OK) (cfr_status r2) ∧
    ChunkSample.answer ChunkSample.client (Commit ChunkSample.commit) s2 = (inr (Committed r3), s3) ∧
    Forall (eq NFS4_OK) (ccr_status r3) ∧
    ChunkSample.answer ChunkSample.client (Read ChunkSample.read) s3 = (inr (Data r4), s4) ∧
    concat (map cr_chunk (crr_chunks r4)) = ChunkSample.bytes.
Proof.
  apply (chunk_lifecycle_completes (λ _ _, true) ChunkSample.yes (λ _ _, eq_refl) (λ _, eq_refl)
    ChunkSample.site ChunkSample.site_is_ok ChunkSample.ram db_priv ram_valid ChunkSample.hash
    ChunkSample.client ChunkSample.client ChunkSample.client ChunkSample.client ChunkSample.write
    ChunkSample.stateid ChunkSample.stateid ChunkSample.stateid ChunkSample.start fresh_store with_stride 0 first_block).
  - apply ChunkSample.start_ok.
  - by split.
  - discriminate.
  - repeat constructor; apply ChunkSample.client_ok.
  - by repeat constructor.
  - apply sample_authorized.
  - apply sample_authorized.
  - apply sample_authorized.
  - by apply ChunkSample.write_ok.
  - apply sample_takes.
  - vm_compute. reflexivity.
  - by vm_compute.
  - by vm_compute.
  - by vm_compute.
  - apply fresh_fits.
  - intros j _. apply fresh_unlocked.
Defined.

End ChunkProgress.
