(* ===== verification/ChunkWalk.v ===== *)
(** * Walking the escrows page by page

    A metadata server lists the escrows of a file with ESCROW_ENUMERATE, handing
    back the cookie of each page. *)

From S2P Require Import Prelude.
From S2P Require Import Words.
From S2P Require Import Posix.
From S2P Require Import ChunkStore.
From S2P Require Import ChunkDisk.
From S2P Require Import ChunkCorrect.
From S2P Require Import ChunkSteps.
From S2P Require Import ChunkPersist.
From S2P Require Import ChunkReload.
From S2P Require Import Handler.
From S2P Require Import Nfs4.
From S2P Require Import ChunkOps.
From S2P Require Import ChunkLock.
From S2P Require Import ChunkEdits.
From S2P Require Import ChunkFrame.
From S2P Require Import ChunkIO.
From S2P Require Import ChunkEscrows.
From S2P Require Import ChunkServer.
From S2P Require Import ChunkSample.
From stdpp Require Import gmap.
Import Words Posix ChunkStore ChunkDisk ChunkCorrect ChunkSteps ChunkPersist ChunkReload Handler Nfs4 ChunkOps ChunkLock
  ChunkEdits ChunkFrame ChunkIO ChunkEscrows ChunkServer.

Module ChunkWalk.

(** ** One page *)

Definition entry (r : chunk_escrow_range) : escrow_enum_entry4 :=
  mk_enum_entry (cer_offset r) (cer_count r) (cer_id r).

Section Pages.

Context (offset scope_end : Z).

(** The entries in the scope. *)
Definition listed (ranges : list chunk_escrow_range) : list escrow_enum_entry4 :=
  map entry (List.filter (in_scope offset scope_end) ranges).

Lemma entry_inj r r' : entry r = entry r' → r = r'.
Proof using. destruct r, r'. by intros [= -> -> ->]. Qed.

Lemma listed_nodup ranges : NoDup ranges → NoDup (listed ranges).
Proof using.
  intros H. apply (NoDup_fmap_2 (Inj0 := entry_inj) entry), NoDup_ListNoDup, List.NoDup_filter.
  by apply NoDup_ListNoDup.
Qed.

Lemma listed_elem ranges e :
  e ∈ listed ranges ↔ ∃ r, r ∈ ranges ∧ in_scope offset scope_end r = true ∧ e = entry r.
Proof using.
  unfold listed. rewrite list_elem_of_In, in_map_iff. setoid_rewrite List.filter_In.
  setoid_rewrite <-list_elem_of_In. naive_solver.
Qed.

Lemma listed_app a b : listed (a ++ b) = listed a ++ listed b.
Proof using. unfold listed. by rewrite List.filter_app, map_app. Qed.

(** The page takes the next entries in the scope and stops after the last of them. *)
Lemma collect_spec ranges next n entries next' :
  collect_page offset scope_end ranges next n = (entries, next') →
  (n <= length (listed ranges))%nat →
  ∃ k, (k <= length ranges)%nat ∧ next' = (next + k)%nat ∧ entries = listed (take k ranges) ∧ length entries = n.
Proof using.
  revert next n entries next'. induction ranges as [|r ranges IH]; intros next n entries next' E Hn.
  - destruct n; injection E as <- <-; [|cbn in Hn; lia]. exists 0%nat. split_and!; cbn; done || lia.
  - destruct n as [|n]; [injection E as <- <-; exists 0%nat; split_and!; cbn; done || lia|].
    cbn [collect_page] in E. unfold listed in Hn. cbn [List.filter] in Hn.
    destruct (in_scope offset scope_end r) eqn:Es; cbn [map length] in Hn.
    + destruct (collect_page _ _ ranges (S next) n) as [es nx] eqn:Ec. injection E as <- <-.
      destruct (IH _ _ _ _ Ec ltac:(unfold listed; lia)) as (k & Hk & -> & -> & Hlen).
      exists (S k). split_and!; [cbn; lia|lia| |cbn; lia]. unfold listed. cbn. by rewrite Es.
    + destruct (IH _ _ _ _ E Hn) as (k & Hk & -> & -> & Hlen).
      exists (S k). split_and!; [cbn; lia|lia| |done]. unfold listed. cbn. by rewrite Es.
Qed.

Lemma count_listed maxcount ranges :
  count_page offset scope_end maxcount ranges = Nat.min (length (listed ranges)) (Z.to_nat maxcount).
Proof using. unfold count_page, listed. by rewrite length_map. Qed.

Lemma none_listed ranges : existsb (in_scope offset scope_end) ranges = false → listed ranges = [].
Proof using.
  induction ranges as [|r ranges IH]; [done|]. cbn. intros [Hr Hrs]%orb_false_iff.
  unfold listed. cbn. rewrite Hr. by apply IH.
Qed.

End Pages.

(** Where a page starts. *)
Definition position (cookie : list byte) : nat :=
  match cookie with [] => 0%nat | _ => Z.to_nat (le_combine (drop 8 cookie)) end.

Lemma position_back (verifier : Z) (next : nat) :
  (Z.of_nat next < 2 ^ 64)%Z → position (le_split 8 verifier ++ le_split 8 (Z.of_nat next)) = next.
Proof.
  intros H. unfold position.
  assert (Hd : drop 8 (le_split 8 verifier ++ le_split 8 (Z.of_nat next)) = le_split 8 (Z.of_nat next))
    by (apply drop_app_length'; by rewrite length_le_split).
  destruct (le_split 8 verifier ++ le_split 8 (Z.of_nat next)) eqn:E.
  { apply (f_equal length) in E. rewrite length_app, !length_le_split in E. done. }
  rewrite Hd, le_combine_split, Z.mod_small, Nat2Z.id by lia. done.
Qed.

Lemma page_listed c a idx res :
  page_of c a idx res → ceea_maxcount a ≠ 0%Z → (0 <= ceea_maxcount a)%Z → (Z.of_nat (length idx) < 2 ^ 64)%Z →
  let ls := listed (ceea_offset a) (ceea_offset a + ceea_count a) in
  let rest := drop (position (ceea_cookie a)) idx in
  if ceer_eof res then ceer_entries res = ls rest
  else ceer_entries res ≠ [] ∧ ceer_cookie res ≠ [] ∧
       ls rest = ceer_entries res ++ ls (drop (position (ceer_cookie res)) idx).
Proof.
  intros (Hpos & next & Hc & Heof & Hck) Hmax Hmax0 Hlen. fold (position (ceea_cookie a)) in *. cbv zeta.
  set (rest := drop (position (ceea_cookie a)) idx) in *. set (off := ceea_offset a) in *.
  set (send := (off + ceea_count a)%Z) in *. rewrite count_listed in Hc.
  destruct (collect_spec _ _ _ _ _ _ _ Hc (Nat.le_min_l _ _)) as (k & Hk & -> & He & Hel).
  assert (Hrest : drop (position (ceea_cookie a) + k) idx = drop k rest) by (unfold rest; by rewrite drop_drop).
  assert (Hsplit : listed off send rest = ceer_entries res ++ listed off send (drop k rest))
    by (by rewrite He, <-listed_app, take_drop).
  rewrite Hrest in *. rewrite Heof. destruct (existsb (in_scope off send) (drop k rest)) eqn:Ex; cbn [negb].
  - rewrite Hck. split; [|split].
    + intros Hnil. rewrite Hnil in *. cbn [length app] in *.
      assert (listed off send rest = []) as Hz by (apply length_zero_iff_nil; lia).
      rewrite Hz in Hsplit. apply existsb_exists in Ex as (r & Hin & Hr).
      assert (Hx : List.In (entry r) (listed off send (drop k rest)))
        by (apply in_map, List.filter_In; done). by rewrite <-Hsplit in Hx.
    + intros Hnil. apply (f_equal length) in Hnil. rewrite length_app, !length_le_split in Hnil. done.
    + rewrite position_back; [by rewrite Hrest|]. unfold rest in Hk. rewrite length_drop in Hk. lia.
  - by rewrite (none_listed _ _ _ Ex), app_nil_r in Hsplit.
Qed.

(** ** The walk *)

(** The same request with the cookie of the page before. *)
Definition with_cookie (a : CHUNK_ESCROW_ENUMERATE4args) (cookie : list byte) : CHUNK_ESCROW_ENUMERATE4args :=
  mk_enumerate_args (ceea_mds_epoch a) (ceea_offset a) (ceea_count a) (ceea_maxcount a) cookie.

Section Walk.

Context {P : Type} (grants : elem → Z → bool) (callocs : site → bool) (l : site_of).
Implicit Types (s : server P).

(** Calls from the cookie on, each of them answered, up to the end: the pages. *)
Inductive walk (c : compound) (a : CHUNK_ESCROW_ENUMERATE4args) (cookie : list byte) s
    : list (list escrow_enum_entry4) → Prop :=
  | walk_end res s' :
      nfs4_op_chunk_escrow_enumerate grants callocs c (with_cookie a cookie) s = (inr res, s') →
      ceer_eof res = true → walk c a cookie s [ceer_entries res]
  | walk_more res s' pages :
      nfs4_op_chunk_escrow_enumerate grants callocs c (with_cookie a cookie) s = (inr res, s') →
      ceer_eof res = false → walk c a (ceer_cookie res) s' pages →
      walk c a cookie s (ceer_entries res :: pages).

(** The index depends on the blocks alone: it can be built again, and is the same. *)
Lemma refresh_again cs cs1 :
  store_good cs → chunk_store_refresh_escrows grants cs = (0%Z, cs1) →
  ∃ cs2, chunk_store_refresh_escrows grants cs1 = (0%Z, cs2) ∧ cs_escrows cs2 = cs_escrows cs1.
Proof using.
  intros Hg E1. destruct (refresh_exact grants cs 0 cs1 (good_inv _ Hg) E1) as ((Hb & _ & Hh & _) & _).
  unfold chunk_store_refresh_escrows in *. rewrite Hb, Hh.
  destruct (for_break _ _ _ _) as [[ranges cap]|r].
  - injection E1 as <-. by eexists.
  - injection E1 as -> <-. by eexists.
Qed.

(** What an answer says, and the store it leaves. *)
Lemma call_page c a cookie s res s' cs cs1 :
  site_ok l → c_server_state c = l_ss l → enumerate_args_ok a → (0 < ceea_maxcount a)%Z → server_ok l s →
  mem s = Some cs → chunk_store_refresh_escrows grants cs = (0%Z, cs1) →
  nfs4_op_chunk_escrow_enumerate grants callocs c (with_cookie a cookie) s = (inr res, s') →
  server_ok l s' ∧ mem s' = Some cs1 ∧ store_good cs ∧ page_of c (with_cookie a cookie) (cs_escrows cs1) res.
Proof using.
  intros Hsite Hc [Ho Hn] Hmax Hok Hm Hre E.
  destruct (wp_run _ _ _ _ _ (enumerate_op_spec grants callocs l Hsite c (with_cookie a cookie) s Hc
    ltac:(by split) Hok) E) as (Hs & _ & _ & Hpage).
  destruct Hpage as (c0 & c1 & Hg & Hc0 & Hm' & Hre' & Hpg); [cbn; lia|].
  rewrite (view_mem l s cs Hm) in Hc0. assert (c0 = cs) as -> by (apply Hc0; intros Hx; congruence). assert (c1 = cs1) as -> by congruence.
  split_and!; try done. apply Hs.
Qed.

Lemma walk_listed c a cookie s pages cs cs1 :
  site_ok l → c_server_state c = l_ss l → enumerate_args_ok a → (0 < ceea_maxcount a)%Z → server_ok l s →
  mem s = Some cs → chunk_store_refresh_escrows grants cs = (0%Z, cs1) →
  (Z.of_nat (length (cs_escrows cs1)) < 2 ^ 64)%Z → walk c a cookie s pages →
  concat pages = listed (ceea_offset a) (ceea_offset a + ceea_count a) (drop (position cookie) (cs_escrows cs1)) ∧
  (length pages <= S (length (concat pages)))%nat.
Proof using.
  intros Hsite Hc Ha Hmax Hok Hm Hre Hlen Hw. revert cs cs1 Hok Hm Hre Hlen.
  induction Hw as [cookie s res s' E Heof|cookie s res s' pages E Heof _ IH]; intros cs cs1 Hok Hm Hre Hlen;
    destruct (call_page c a cookie s res s' cs cs1 Hsite Hc Ha Hmax Hok Hm Hre E) as (Hok' & Hm' & Hg & Hpg);
    pose proof (page_listed _ _ _ _ Hpg ltac:(cbn; lia) ltac:(cbn; lia) Hlen) as Hl; rewrite Heof in Hl; cbn in Hl.
  - cbn. rewrite app_nil_r. split; [done|lia].
  - destruct Hl as (Hne & _ & ->). destruct (refresh_again cs cs1 Hg Hre) as (cs2 & Hre2 & Hsame).
    rewrite <-Hsame in *. destruct (IH cs1 cs2 Hok' Hm' Hre2 Hlen) as [IH1 IH2].
    cbn [concat length]. rewrite IH1 in *. split; [done|]. rewrite length_app.
    destruct (ceer_entries res); [done|]. cbn [length]. lia.
Qed.

Lemma walk_first c a cookie s pages :
  walk c a cookie s pages →
  ∃ res s', nfs4_op_chunk_escrow_enumerate grants callocs c (with_cookie a cookie) s = (inr res, s').
Proof using. destruct 1; eauto. Qed.

(** A call that is answered has built the index, which holds the escrows. *)
Lemma answered_refresh c a cookie s cs res s' :
  site_ok l → c_server_state c = l_ss l → enumerate_args_ok a → (0 < ceea_maxcount a)%Z →
  server_ok l s → mem s = Some cs →
  nfs4_op_chunk_escrow_enumerate grants callocs c (with_cookie a cookie) s = (inr res, s') →
  ∃ cs', chunk_store_refresh_escrows grants cs = (0%Z, cs') ∧ (Z.of_nat (length (cs_escrows cs')) < 2 ^ 64)%Z ∧
    NoDup (cs_escrows cs') ∧ ∀ r, r ∈ cs_escrows cs' ↔ held cs (cs_high_water cs) r.
Proof using.
  intros Hsite Hc [Ho Hn] Hmax Hok Hm E. pose proof (ok_mem _ _ Hok _ Hm) as Hg.
  destruct (wp_run _ _ _ _ _ (enumerate_op_spec grants callocs l Hsite c (with_cookie a cookie) s Hc
    ltac:(by split) Hok) E) as (_ & _ & _ & Hpage).
  destruct Hpage as (c0 & c1 & _ & Hc0 & _ & Hre & _); [cbn; lia|].
  rewrite (view_mem l s cs Hm) in Hc0. rewrite Hc0 in Hre by (intros Hx; congruence).
  destruct (refresh_spec grants cs 0 c1 (inv_ok _ (good_inv _ Hg)) Hre) as [_ [[_ He]|[_ (Hnd & Hin & _ & Hcap)]]].
  { by destruct He as [[? _]|[[? _]|[? _]]]. }
  pose proof (ok_high _ (inv_ok _ (good_inv _ Hg))). cbn [fst snd] in *. rewrite Z2Nat.id in Hin by lia.
  exists c1. split_and!; try done. unfold CHUNK_STORE_MAX_ESCROWS in Hcap. lia.
Qed.

(** ** The walk comes to its end *)

(** The gates that a call passes whatever its cookie. *)
Definition ready c a s : Prop :=
  mds_prologue c s = (inr tt, s) ∧
  chunk_lifecycle_check_range (ceea_offset a) (ceea_count a) = true ∧
  chunk_mds_epoch_check c (ceea_mds_epoch a) s = (inr tt, s) ∧
  (ceea_maxcount a <= CHUNK_ESCROW_ENUMERATE_MAX4)%Z ∧
  (ceea_offset a <= u64w (ceea_offset a + ceea_count a))%Z.

Definition put_store s cs : server P := set_inode (with_store (s_inode s) (Some cs)) s.

Lemma prologue_run c s r s' : mds_prologue c s = (r, s') → s' = s ∧ ∀ cs, mds_prologue c (put_store s cs) = (r, put_store s cs).
Proof using.
  assert (Hn : ∀ cs, chunk_op_on_non_chunked c (with_store (s_inode s) (Some cs)) = chunk_op_on_non_chunked c (s_inode s))
    by done.
  unfold mds_prologue, mbind, m_bind, gets, reject, throw, mret, m_ret, put_store. cbn.
  destruct (network_file_handle_empty _), (negb (c_inode c) || negb (S_ISREG (i_mode (s_inode s)))), (chunk_op_on_non_chunked c (s_inode s)),
    (negb (chunk_mds_control_session c)); cbn; intros [= <- <-]; (split; [done|]); intros cs; by rewrite ?Hn.
Qed.

Lemma epoch_run c e s : outs (s_sys s) = [] →
  (snd (chunk_mds_epoch_check c e s) = s) ∧
  ∀ cs, fst (chunk_mds_epoch_check c e (put_store s cs)) = fst (chunk_mds_epoch_check c e s).
Proof using.
  intros Ho. unfold chunk_mds_epoch_check, put_store. cbn.
  assert (Hl : snd (chunk_mds_epoch_load (ss_state_dir (c_server_state c)) (s_sys s)) = s_sys s).
  { unfold chunk_mds_epoch_load. destruct (chunk_mds_epoch_path _ _) as [|path]; [done|].
    unfold sys_open, sys_read, sys_close, next_outcome. rewrite Ho. destruct (now (s_sys s) !! path); [|done].
    rewrite Ho. cbn [snd]. rewrite Ho. by case_if. }
  destruct (chunk_mds_epoch_load _ (s_sys s)) as [r y]. cbn in Hl. subst y.
  assert (set_sys (s_sys s) s = s) as -> by (by destruct s). destruct r; [done|]. by case_match.
Qed.

Lemma ready_store c a s cs : outs (s_sys s) = [] → ready c a s → ready c a (put_store s cs).
Proof using.
  intros Ho (Hp & Hr & He & Hm & Hs). split_and!; try done.
  - by apply prologue_run in Hp as [_ Hp].
  - destruct (epoch_run c (ceea_mds_epoch a) s Ho) as [_ Hf]. destruct (epoch_run c (ceea_mds_epoch a) (put_store s cs) Ho) as [Hn _].
    rewrite (surjective_pairing (chunk_mds_epoch_check _ _ _)), Hn, Hf, He. done.
Qed.

Lemma answered_ready c a cookie s res s' :
  outs (s_sys s) = [] → (0 < ceea_maxcount a)%Z →
  nfs4_op_chunk_escrow_enumerate grants callocs c (with_cookie a cookie) s = (inr res, s') → ready c a s.
Proof using.
  intros Ho Hmax E. assert (H : runs (nfs4_op_chunk_escrow_enumerate grants callocs c (with_cookie a cookie)) (λ _ _, True) s)
    by (by exists res, s').
  unfold nfs4_op_chunk_escrow_enumerate, with_cookie in H. cbn in H.
  run_inv H. destruct H as ([] & s1 & Ep & H). destruct (prologue_run _ _ _ _ Ep) as [-> _].
  run_inv H. run_inv H. destruct H as ([] & s2 & Ee & H).
  destruct (epoch_run c (ceea_mds_epoch a) s Ho) as [Hn _]. rewrite Ee in Hn. cbn in Hn. subst s2.
  destruct (ceea_maxcount a =? 0)%Z eqn:Ez; [apply Z.eqb_eq in Ez; lia|].
  run_inv H. run_inv H. run_inv H. unfold ready. bool_prop. split_and!; done || lia.
Qed.

(** A cookie that an answer carried, or none. *)
Definition cookie_ok c a (idx : list chunk_escrow_range) (cookie : list byte) : Prop :=
  cookie = [] ∨
  ∃ next, (next <= length idx)%nat ∧
    cookie = le_split 8 (enumerate_verifier (server_boot_seq (c_server_state c)) (ceea_offset a) (ceea_count a) idx)
             ++ le_split 8 (Z.of_nat next).

Lemma mix_width v x : in_width 64 (mix v x).
Proof using. by apply wrap_in_width. Qed.

Lemma verifier_width boot offset count idx : in_width 64 (enumerate_verifier boot offset count idx).
Proof using.
  unfold enumerate_verifier. generalize (mix_width (mix (Z.lxor 1469598103934665603 boot) offset) count).
  generalize (mix (mix (Z.lxor 1469598103934665603 boot) offset) count).
  induction idx as [|r idx IH]; intros v Hv; cbn [fold_left]; [done|]. apply IH.
  generalize (mix_width (mix v (cer_offset r)) (cer_count r)).
  generalize (mix (mix v (cer_offset r)) (cer_count r)).
  induction (cer_id r) as [|b id IHb]; intros w Hw; cbn [fold_left]; [done|]. apply IHb, mix_width.
Qed.

Lemma attach_same c s cs : mem s = Some cs → attach_store grants c s = (inr (Some cs), s).
Proof using.
  unfold mem, attach_store. intros Hm. rewrite Hm. cbn. rewrite <-Hm. by destruct s as [[] ? ? ? ?].
Qed.

Lemma refresh_runs s cs cs1 (Q : () → server P → Prop) :
  mem s = Some cs → chunk_store_refresh_escrows grants cs = (0%Z, cs1) → Q tt (put_store s cs1) →
  runs (refresh_index grants) Q s.
Proof using.
  unfold mem. intros Hm Hre HQ. exists tt, (put_store s cs1). split; [|done].
  unfold refresh_index, the_store, get_store, set_store, on_inode, mbind, m_bind, gets, modify. cbn. rewrite Hm. cbn.
  by rewrite Hre.
Qed.

Lemma cookie_parts c a idx cookie :
  cookie_ok c a idx cookie → (Z.of_nat (length idx) < 2 ^ 64)%Z → cookie ≠ [] →
  length cookie = 16%nat ∧
  le_combine (take 8 cookie)
    = enumerate_verifier (server_boot_seq (c_server_state c)) (ceea_offset a) (ceea_count a) idx ∧
  (le_combine (drop 8 cookie) <= Z.of_nat (length idx))%Z.
Proof using.
  intros [->|(next & Hn & ->)] Hlen Hne; [done|]. rewrite length_app, !length_le_split. split; [done|].
  rewrite take_app_length', drop_app_length', !le_combine_split by (by rewrite length_le_split).
  rewrite !Z.mod_small; [split; [done|lia]|lia|apply verifier_width].
Qed.

Lemma enumerate_answers c a cookie s cs cs1 :
  ready c a s → (∀ x, callocs x = true) → (0 < ceea_maxcount a)%Z → mem s = Some cs →
  chunk_store_refresh_escrows grants cs = (0%Z, cs1) → cookie_ok c a (cs_escrows cs1) cookie →
  (Z.of_nat (length (cs_escrows cs1)) < 2 ^ 64)%Z →
  ∃ res, nfs4_op_chunk_escrow_enumerate grants callocs c (with_cookie a cookie) s = (inr res, put_store s cs1).
Proof using.
  intros (Hp & Hr & He & Hle & Hend) Hall Hmax Hm Hre Hck Hlen.
  assert (Hpos : cookie ≠ [] → length cookie = 16%nat ∧ _) by (exact (cookie_parts c a _ cookie Hck Hlen)).
  cut (runs (nfs4_op_chunk_escrow_enumerate grants callocs c (with_cookie a cookie)) (λ _ s', s' = put_store s cs1) s).
  { intros (res & s' & E & ->). by exists res. }
  unfold nfs4_op_chunk_escrow_enumerate, with_cookie. cbn [ceea_mds_epoch ceea_offset ceea_count ceea_maxcount ceea_cookie].
  run_step idtac. exists tt, s. split; [done|]. run_step idtac. run_step ltac:(by rewrite Hr).
  run_step idtac. exists tt, s. split; [done|].
  assert ((ceea_maxcount a =? 0)%Z = false) as -> by (apply Z.eqb_neq; lia).
  run_step idtac. run_step ltac:(by apply Z.ltb_ge).
  assert (Hnil : ∀ b, (cookie ≠ [] → b = true) → negb (length cookie =? 0)%nat && negb b = false).
  { intros b Hb. destruct cookie; [done|]. by rewrite Hb. }
  run_step idtac. run_step ltac:(apply Hnil; intros Hc; by rewrite (proj1 (Hpos Hc))).
  run_step idtac. run_step ltac:(by apply Z.ltb_ge).
  run_step idtac. exists (Some cs), s. split; [by apply attach_same|]. run_step idtac. run_step ltac:(done).
  run_step idtac. eapply refresh_runs; [done|done|].
  run_step idtac. exists cs1, (put_store s cs1). split; [done|].
  assert (Hneb : cookie ≠ [] → negb (length cookie =? 0)%nat = true) by (by destruct cookie).
  run_step idtac. run_step ltac:(apply Hnil; intros Hc; rewrite (Hneb Hc); apply Z.eqb_eq, (Hpos Hc)).
  run_step idtac. apply runs_reject.
  { apply Z.ltb_ge. destruct (decide (cookie = [])) as [->|Hc]; [cbn; lia|]. rewrite (Hneb Hc). apply (Hpos Hc). }
  run_step idtac. run_step ltac:(by rewrite Hall, andb_false_r).
  destruct (collect_page _ _ _ _ _) as [entries next].
  run_step idtac. run_step ltac:(by rewrite Hall, andb_false_r). by run_step idtac.
Qed.

(** The cookie of an answer is good for the next call. *)
Lemma next_cookie c a cookie idx res :
  page_of c (with_cookie a cookie) idx res → cookie_ok c a idx (ceer_cookie res).
Proof using.
  intros (Hpos & next & Hc & _ & Hck). 
  cbn [with_cookie ceea_cookie ceea_offset ceea_count ceea_maxcount] in *. rewrite count_listed in Hc.
  destruct (collect_spec _ _ _ _ _ _ _ Hc (Nat.le_min_l _ _)) as (k & Hk & -> & _).
  rewrite Hck. case_if; [|by left]. right. eexists. split; [|done].
  rewrite length_drop in Hk. lia.
Qed.

(** From any cookie that an answer carried the walk comes to its end. *)
Lemma walk_total c a cookie s cs cs1 n :
  site_ok l → c_server_state c = l_ss l → enumerate_args_ok a → (0 < ceea_maxcount a)%Z →
  outs (s_sys s) = [] → (∀ x, callocs x = true) → ready c a s → server_ok l s → mem s = Some cs →
  chunk_store_refresh_escrows grants cs = (0%Z, cs1) → cookie_ok c a (cs_escrows cs1) cookie →
  (Z.of_nat (length (cs_escrows cs1)) < 2 ^ 64)%Z →
  (length (listed (ceea_offset a) (ceea_offset a + ceea_count a) (drop (position cookie) (cs_escrows cs1))) < n)%nat →
  ∃ pages, walk c a cookie s pages.
Proof using.
  intros Hsite Hc Ha Hmax Ho Hall. revert cookie s cs cs1 Ho. induction n as [|n IH];
    intros cookie s cs cs1 Ho Hrd Hok Hm Hre Hck Hlen Hn; [lia|].
  destruct (enumerate_answers c a cookie s cs cs1 Hrd Hall Hmax Hm Hre Hck Hlen) as (res & E).
  destruct (call_page c a cookie s res _ cs cs1 Hsite Hc Ha Hmax Hok Hm Hre E) as (Hok' & Hm' & Hg & Hpg).
  pose proof (page_listed _ _ _ _ Hpg ltac:(cbn; lia) ltac:(cbn; lia) Hlen) as Hl. cbn in Hl.
  destruct (ceer_eof res) eqn:Eeof; [eexists; by eapply walk_end|]. destruct Hl as (Hne & _ & Hl).
  destruct (refresh_again cs cs1 Hg Hre) as (cs2 & Hre2 & Hsame).
  destruct (IH (ceer_cookie res) (put_store s cs1) cs1 cs2) as (pages & Hw); try done; rewrite ?Hsame; try done.
  - by apply ready_store.
  - by eapply next_cookie.
  - rewrite Hl, length_app in Hn. destruct (ceer_entries res); [done|]. cbn [length] in Hn. lia.
  - exists (ceer_entries res :: pages). by eapply walk_more.
Qed.

(** C20: a metadata server that walks the escrows of a file whose store is in memory
    with ESCROW_ENUMERATE, page by page and with any page size, comes to the end when its first call is
    answered and no allocation or system call fails; a walk that ends has seen every
    escrow inside the scope once and nothing else, in at most one call more than
    there are escrows. *)
Theorem chunk_escrow_walk c a s cs :
  site_ok l → c_server_state c = l_ss l → enumerate_args_ok a → (0 < ceea_maxcount a)%Z →
  server_ok l s → mem s = Some cs →
  (outs (s_sys s) = [] → (∀ x, callocs x = true) →
   (∃ res s', nfs4_op_chunk_escrow_enumerate grants callocs c (with_cookie a []) s = (inr res, s')) →
   ∃ pages, walk c a [] s pages) ∧
  ∀ pages, walk c a [] s pages →
    NoDup (concat pages) ∧ (length pages <= S (length (concat pages)))%nat ∧
    ∀ e, e ∈ concat pages ↔
      ∃ r, held cs (cs_high_water cs) r ∧ in_scope (ceea_offset a) (ceea_offset a + ceea_count a) r = true ∧
           e = entry r.
Proof using.
  intros Hsite Hc Ha Hmax Hok Hm. split.
  - intros Ho Hall (res & s' & E).
    destruct (answered_refresh c a [] s cs res s' Hsite Hc Ha Hmax Hok Hm E) as (cs1 & Hre & Hlen & _).
    eapply (walk_total c a [] s cs cs1); try done; [by eapply answered_ready|by left|apply Nat.lt_succ_diag_r].
  - intros pages Hw. destruct (walk_first _ _ _ _ _ Hw) as (res & s' & E).
    destruct (answered_refresh c a [] s cs res s' Hsite Hc Ha Hmax Hok Hm E) as (cs1 & Hre & Hlen & Hnd & Hin).
    destruct (walk_listed c a [] s pages cs cs1 Hsite Hc Ha Hmax Hok Hm Hre Hlen Hw) as [-> Hbound].
    split; [by apply listed_nodup|]. split; [exact Hbound|]. intros e. rewrite listed_elem. by setoid_rewrite Hin.
Qed.

End Walk.

(** ** On the small server *)

Definition with_escrows : server (list byte) :=
  ChunkSample.after ChunkSample.mds (Install (ChunkSample.install 20 1 x06))
    (ChunkSample.after ChunkSample.mds (Install (ChunkSample.install 3 2 x05)) ChunkSample.after_commit).

Lemma with_escrows_ok : server_ok ChunkSample.site with_escrows.
Proof.
  apply ChunkSample.after_ok; [apply ChunkSample.mds_ok|by split|].
  apply ChunkSample.after_ok; [apply ChunkSample.mds_ok|by split|apply ChunkSample.after_commit_ok].
Qed.

(** One entry to a page. *)
Definition call (s : server (list byte)) : (fail + CHUNK_ESCROW_ENUMERATE4resok) * server (list byte) :=
  nfs4_op_chunk_escrow_enumerate (λ _ _, true) ChunkSample.yes ChunkSample.mds
    (with_cookie (ChunkSample.enumerate 1 []) []) s.

Lemma call_answered : ∃ res s', call with_escrows = (inr res, s').
Proof.
  assert (H : match fst (call with_escrows) with inr _ => True | inl _ => False end) by (vm_compute; exact I).
  destruct (call with_escrows) as [[e|res] s']; [done|]. by exists res, s'.
Qed.

Lemma chunk_escrow_walk_witness :
  ∃ pages, walk (λ _ _, true) ChunkSample.yes ChunkSample.mds (ChunkSample.enumerate 1 []) [] with_escrows pages ∧
           NoDup (concat pages).
Proof.
  destruct (chunk_escrow_walk (λ _ _, true) ChunkSample.yes ChunkSample.site ChunkSample.mds
    (ChunkSample.enumerate 1 []) with_escrows (ChunkSample.store_of with_escrows)
    ChunkSample.site_is_ok eq_refl ltac:(by split) eq_refl with_escrows_ok ltac:(vm_compute; reflexivity))
    as [Hends Hall].
  destruct Hends as (pages & Hw); [vm_compute; reflexivity|reflexivity|exact call_answered|].
  exists pages. split; [exact Hw|]. apply (Hall pages Hw).
Defined.

End ChunkWalk.
