(* ===== verification/ChunkLimits.v ===== *)
(** * Where the data server falls short

    Runs of the small server that end where the comments or the protocol say they
    should not. *)

From S2P Require Import Prelude.
From S2P Require Import Posix.
From S2P Require Import ChunkStore.
From S2P Require Import ChunkDisk.
From S2P Require Import Replace.
From S2P Require Import Handler.
From S2P Require Import Nfs4.
From S2P Require Import DataBlock.
From S2P Require Import ChunkOps.
From S2P Require Import ChunkLock.
From S2P Require Import ChunkFrame.
From S2P Require Import ChunkServer.
From S2P Require Import ChunkSample.
From stdpp Require Import gmap.
Import Posix ChunkStore ChunkDisk Replace Handler Nfs4 DataBlock ChunkOps ChunkLock ChunkFrame ChunkServer.

Module ChunkLimits.

Abbreviation answer := (λ q s, fst (ChunkSample.answer ChunkSample.client q s)).
Abbreviation after := (ChunkSample.after ChunkSample.client).

(** The server after a crash: what is on disk and nothing else. *)
Definition restart (s : server (list byte)) : server (list byte) := ChunkSample.start_on (now (s_sys s)).

(** A lock by another owner of the same client. *)
Definition other_lock (offset count : Z) : CHUNK_LOCK4args :=
  mk_lock_args ChunkSample.stateid offset count 0 (ChunkSample.owner 102) None.

(** CHUNK_LOCK on blocks past the high-water mark but inside the array is
    granted and holds another owner off, but it is not written to disk: after a
    restart the other owner gets the lock. *)
Theorem chunk_lock_lost_at_restart :
  let locked := after (Lock (ChunkSample.lock 10 2)) ChunkSample.start in
  answer (Lock (ChunkSample.lock 10 2)) ChunkSample.start = inr Done ∧
  answer (Lock (other_lock 10 2)) locked = inl (LockedBy (ChunkSample.owner 101)) ∧
  answer (Lock (other_lock 10 2)) (restart locked) = inr Done.
Proof. vm_compute. auto. Qed.

(** A CHUNK_LOCK that fails half way, because the array cannot grow, answers a
    server fault and keeps the locks it has already taken. *)
Theorem chunk_lock_leaks :
  let refuses k n := negb (n =? 128)%Z in
  let '(r, s) := perform ChunkSample.ram refuses ChunkSample.yes ChunkSample.hash ChunkSample.client
                   (Lock (ChunkSample.lock 62 4)) ChunkSample.start in
  r = inl (Status NFS4ERR_SERVERFAULT) ∧
  answer (Lock (other_lock 62 1)) s = inl (LockedBy (ChunkSample.owner 101)).
Proof. vm_compute. auto. Qed.

(** Chunks of two bytes in a file whose stride is four. *)
Definition narrow_write : CHUNK_WRITE4args :=
  mk_write_args ChunkSample.stateid 3 FILE_SYNC4 1 17 [104]%Z 5 0 None 2 [] [x71; x72].
Definition narrow_finalize : CHUNK_FINALIZE4args :=
  mk_finalize_args ChunkSample.stateid 3 1 [ChunkSample.owner 104].
Definition narrow : server (list byte) :=
  after (Finalize narrow_finalize) (after (Write narrow_write) ChunkSample.after_commit).

(** A write whose chunk size is not the stride of the file is accepted and
    lands at its own multiple; reading the chunk gives other bytes, and a committed
    chunk of the file has changed. *)
Theorem chunk_stride_not_enforced :
  (∃ r, answer (Write narrow_write) ChunkSample.after_commit = inr (Wrote r)) ∧
  (∃ res, answer (Read (mk_read_args ChunkSample.stateid 3 1)) narrow = inr (Data res) ∧
          map cr_chunk (crr_chunks res) = [[x00; x00]]) ∧
  ∃ res, answer (Read ChunkSample.read) narrow = inr (Data res) ∧
         concat (map cr_chunk (crr_chunks res)) = [x61; x62; x63; x64; x65; x66; x71; x72; x69; x6a].
Proof. vm_compute. split; [|split]; eexists; try split; reflexivity. Qed.

(** A write at the last block offset passes every check and copies its bytes
    before the start of the buffer. *)
Theorem chunk_write_far_faults :
  answer (Write (ChunkSample.write_at_ (2 ^ 64 - 1) None)) ChunkSample.after_commit = inl Fault.
Proof. vm_compute. reflexivity. Qed.

(** After a restart CHUNK_UNLOCK answers that it is done without reading the
    metadata file, and the lock is still there. *)
Theorem chunk_unlock_forgets :
  let restarted := restart ChunkSample.after_lock in
  answer (Unlock (ChunkSample.unlock 0 2)) restarted = inr Done ∧
  answer (Lock (other_lock 0 2)) (after (Unlock (ChunkSample.unlock 0 2)) restarted)
    = inl (LockedBy (ChunkSample.owner 101)).
Proof. vm_compute. auto. Qed.

(** A write that answers FILE_SYNC4 has synced neither its data nor its
    metadata: after a restart there is nothing to read. *)
Theorem chunk_file_sync_lost :
  (∃ r, answer (Write ChunkSample.write) ChunkSample.start = inr (Wrote r) ∧ cwr_committed r = FILE_SYNC4) ∧
  answer (Read ChunkSample.read) (restart ChunkSample.after_write) = inl (Status NFS4ERR_NOENT).
Proof. vm_compute. split; [eexists; split|]; reflexivity. Qed.

(** The first call to the system after a restart fails. *)
Definition disturbed (s : server (list byte)) : server (list byte) :=
  set_sys (mk_sys (now (s_sys s)) [] [Fails 5]) (restart s).

(** One chunk elsewhere in the file, and its finalization. *)
Definition elsewhere : CHUNK_WRITE4args :=
  mk_write_args ChunkSample.stateid 9 FILE_SYNC4 1 17 [105]%Z 5 0 None 4 [] [x71; x72; x73; x74].
Definition elsewhere_finalize : CHUNK_FINALIZE4args :=
  mk_finalize_args ChunkSample.stateid 9 1 [ChunkSample.owner 105].

(** A metadata file that cannot be opened once is taken for a file that has none: a
    write to another block is accepted on an empty store, and when it is finalized
    the new metadata file no longer has the committed blocks, here or after a
    restart. *)
Theorem chunk_load_failure_erases :
  let s1 := after (Write elsewhere) (disturbed ChunkSample.after_commit) in
  let s2 := after (Finalize elsewhere_finalize) s1 in
  (∃ res, answer (Read ChunkSample.read) ChunkSample.after_commit = inr (Data res)) ∧
  (∃ r, answer (Write elsewhere) (disturbed ChunkSample.after_commit) = inr (Wrote r)) ∧
  (∃ r, answer (Finalize elsewhere_finalize) s1 = inr (Finalized r) ∧ cfr_status r = [NFS4_OK]) ∧
  answer (Read ChunkSample.read) s2 = inl (Status NFS4ERR_NOENT) ∧
  answer (Read ChunkSample.read) (restart s2) = inl (Status NFS4ERR_NOENT).
Proof.
  vm_compute. split; [eexists; reflexivity|]. split; [eexists; reflexivity|].
  split; [eexists; split; reflexivity|]. split; reflexivity.
Qed.

(** The directory is never synced: after COMMIT has answered for every owner a power
    failure may leave the files of the start, in which nothing was ever written. *)
Theorem chunk_commit_lost_at_power_failure :
  (∃ r, answer (Commit ChunkSample.commit) ChunkSample.after_finalize = inr (Committed r) ∧
        Forall (eq NFS4_OK) (ccr_status r)) ∧
  let y := s_sys ChunkSample.after_commit in
  after_crash (now y :: past y) ChunkSample.files0 ∧
  answer (Read ChunkSample.read) ChunkSample.start = inl (Status NFS4ERR_NOENT).
Proof.
  split; [vm_compute; eexists; split; [reflexivity|by repeat constructor]|]. split; [|vm_compute; reflexivity].
  apply crash_back, list_elem_of_further, last_Some_elem_of. vm_compute. reflexivity.
Qed.

End ChunkLimits.
